(* ===== verification/_CoqProject ===== *)
-Q . S2P
Prelude.v
CoreTypes.v
Api.v
Plugins.v
GameDef.v
Transitions.v
Reducer.v
Session.v
Admission.v
Cascade.v
Discipline.v
Evolution.v
MoveFacts.v
Replay.v
Example.v
Termination.v
Rotation.v
Choices.v
Floats.v
Random.v
Cards.v
CardFacts.v
CardTheorems.v
Economy.v
Priority.v
Combat.v
Effects.v
EffectTheorems.v
Tabletop.v
TabletopTheorems.v
Regions.v
Shop.v
Json.v
Storage.v
StorageTheorems.v
Manager.v
Lobby.v
Dispatch.v
ManagerFacts.v
ManagerExample.v
Outputs.v
Seats.v
MoveRequests.v
Expiry.v
ActivePlayers.v
MatchTheorems.v
SessionTheorems.v
OneMove.v
Hearts.v
HeartsFacts.v
HeartsTheorems.v
HeartsMatch.v
Provinces.v
Bots.v
TicTacToe.v
Rps.v
PluginRandom.v
HookedMove.v
LoveLetter.v
LoveLetterFacts.v
LoveLetterRounds.v
LoveLetterMatch.v
StackDuel.v
StackDuelFacts.v
StackDuelTurns.v
StackDuelTheorems.v
Http.v
Sockets.v
ServerFacts.v
HttpTheorems.v
Auth.v
GameSpec.v
Bridge.v
BridgeTheorems.v
Scripts.v
ScriptTheorems.v
Registry.v
Skills.v
Tools.v
ToolTheorems.v
