(* ===== verification/Prelude.v ===== *)
(** * Verification of boardgame-go

    boardgame-go is an engine for turn-based multiplayer games and the server around it.
    This library models its Go code as Rocq functions and proves what they promise. Names
    are the code's; where one is taken, a prefix or a final underscore tells them apart.
    Paths below are under src/.

    ** The program and the files that model it

    The engine (core/).  A game is a value of code and configuration; a match is a State;
    a request goes through admission, the move's own code, the events it queued, and the
    cascade of moves it pushed, and the answer is a new State or the old one and an error.
    - CoreTypes: the data (ctx.go, state.go, queue.go, log.go, move.go, game.go), game code
      included: a move or hook is a tree [prog] of the calls it makes on its MoveContext.
    - Api: what those calls do (events.go, queue.go, move.go); GameDef: scopes, turn orders,
      active-player presets (game.go, turn.go, stage.go, phase.go); Plugins (plugin.go).
    - Transitions (transitions.go): turns, phases, stages, the event drain.
    - Reducer (reducer.go): admission, the move pipeline, the cascade; Session (state.go,
      timeout.go, undo.go, replay.go): setup, forced turn ends, undo and redo, replay;
      what clients see (blockview.go); the check of validate.go is in GameDef.
    - Choices (target.go, assignment.go, and the StripSecrets preset), Random (random.go, with
      the mocks a Random can carry).

    The server (match/, storage/).  A manager keeps matches in a storage, seats players,
    runs their moves through the engine and sends views to subscribers.
    - Storage (storage.go, memory.go, flatfile.go, cached.go, writebehind.go): the interface is a class,
      the decorators are instances over any instance.
    - Manager, Lobby, Dispatch (manager.go, lifecycle.go, timer.go, export.go, janitor.go):
      a state record and one monadic function per method.
    - ManagerFacts: the methods as data, [perform] and [serve_all], and the rules by which an
      invariant is shown to hold over all of them; Outputs: the same for what is sent.

    The transport (server/).  Requests and sockets drive the manager.
    - Http (http.go, cors.go): routes, bodies, origins, one function per handler.
    - Sockets (ws.go): the handshake, buffers and frames, messages, the end of a connection;
      a server's run is a list of events, [run_events].

    The modules games are built from (modules/).
    - Cards, Effects (ccg: entities, zones, counters, events, abilities, deck piles;
      modifiers, the effect queue, triggers, visibility, queries, deck lists), Priority,
      Combat, Floats (the numbers that pass through float64).
    - Economy (economy), Shop (shop), Tabletop and Regions (tabletop, tabletop/regions).

    The plugin, the games and the bots written on the engine (plugins/, games/, bots/).
    - PluginRandom (random, player): the stream of random numbers and whose it is, the records
      of the players; where a game keeps them is a class that each game's values implement,
      [Cells] and [Tables].
    - TicTacToe, Rps, Hearts, LoveLetter, StackDuel, Provinces (threeprovinces and risklike): each
      game's data, moves, hooks and view; a game is a [Game], run by the Reducer like any other.
    - Bots (bots.go, simulate.go, runner.go, llm/): the random and the tree-search bot, simulation,
      and the bot that asks a language model; the provider of the model is a function.
    - GameDef also has typedgame/: games written over a type of their own and the [Game]
      built of them.

    The tool server (mcp/).
    - Auth (auth.go): bearer tokens, the key cache, the middleware; Json has
      decoded JSON and the text functions that it and Http read.
    - Bridge (mcp/modulebridge): every operation of the modules, as scripts and
      tools call them with plain values.
    - GameSpec (starlarkgame/conv.go, spec.go): script values and what is read of a script;
      Scripts (bridge.go, random.go, call.go, g.go, argvalidate.go, game.go, validate.go): a
      script's calls, the callbacks and the [Game] built of a spec.
    - Registry (ownership.go, usergames.go, registry.go): who owns which match, and the games that
      users design; the stores of both are classes.  Skills (usergames_skills.go,
      starlarkgame/skill_skeleton.go) is the store on disk, with the file system as a map.
    - Tools (tools.go, register.go, resources.go, prompts.go, server.go, transport_http.go): the
      twelve tools, the decoding of their arguments, guides, and the messages of the protocol.

    ** What the theorems show

    - Admission: the reducer's early returns decide exactly a declarative set of rules.
    - MatchTheorems: what an accepted request does to the record of the match and to the
      pending blocks, that the log replays to the match, that a refused request does nothing.
      Discipline states what game code may call, or always calls; Evolution, MoveFacts and
      Replay carry the argument through the transitions, the pipeline and the log.
    - Cascade: when a cascade succeeds, when it fails, and what it then leaves behind.
    - Again MatchTheorems, over Termination and Rotation: requests end, turns go round the table,
      the current player is the one at the play-order position, with one exception.
    - SessionTheorems, ActivePlayers: undo, forced turn ends, views, validation; the active
      set and how it is taken back.
    - MoveRequests, Outputs, Seats, Expiry: who gets a move accepted, what a failed move
      leaves behind, what optimistic concurrency writes over, what subscribers are sent (views
      by registered games),
      that seats are distinct, what a timer does, export and import.  StorageTheorems: the
      decorators, and files, answer as one map would.  ManagerExample has the runs that show what the
      manager does not guarantee.
    - HttpTheorems, over ServerFacts: the server is a run of its manager, paths
      lead where they should, origins and sockets are checked, a socket sees what its player
      may see and a slow one the newest frames; what a client gets without credentials.
    - CardTheorems (over CardFacts), EffectTheorems, Economy, Priority, Combat, Shop,
      TabletopTheorems, Regions: each module's invariants and functional contracts.
    - OneMove and HookedMove compute the engine's pipeline once for games of one move a turn,
      without and with hooks and random numbers; over them TicTacToe, Rps, HeartsMatch,
      Provinces and LoveLetterMatch show whole matches: which requests are accepted, that the match
      ends, who wins, what stays secret.  HeartsFacts and HeartsTheorems, LoveLetterFacts,
      LoveLetterRounds have each game's invariants and rules.
    - StackDuelFacts, StackDuelTurns and StackDuelTheorems: what the resolvers, the triggers and
      the turns do to the table, that the moves, which change it in place, leave no trace when
      refused, that the response window follows the stack and that passing empties the stack.
    - Bots: against an interface of playable games, the bots only play listed moves
      and a simulation plays all its matches to their end; TicTacToe implements it.  A model
      can only pick listed moves, and not all of them.
    - Auth: who gets in with which token, how often keys are fetched.  BridgeTheorems:
      handles round-trip, no sequence of operations breaks the cards, read-only operations
      change nothing.  ScriptTheorems: what a loaded spec is, that the engine
      accepts the game made of it, that callbacks that only ask leave no trace, and what a
      refused move leaves behind.
    - Registry, Skills and ToolTheorems: with a store of owners only the maker of a match gets at
      it; a restart and a trip through the disk give users back the games they designed;
      guides are read by their owners, what discovery lists can be called, requests are
      answered; and the games and guides that get lost.
    - Example and ManagerExample are the concrete game and server on which every theorem
      with hypotheses is also applied.

    ** How the code is read

    - A Go function is a function into [ST S E A]: it returns a value, an error, panics or runs
      out of fuel, and the state stays as it was left on each of these exits.  Memory that game
      code reaches through pointers is the abstract [world]; it is never rolled back.
    - Go ints are unbounded; uint64 in Random is a Z below 2^64 with its wrap-around; floats
      are binary64 with each operation rounded by itself, as on amd64.
    - Values are not aliased: the copies the engine makes to own its containers are the
      identity.  Where aliasing shows, it is modelled: [world], and [Alias] for a storage that
      hands out its own record.
    - A manager's method runs under its match's lock and is one step; the writes of other
      managers to the storage happen at the points [interfere] marks.  Random ids, credentials
      and seeds are functions of a counter.  What is sent is a trace.
    - Enumerations of Go maps follow the model's order; statements where the order shows
      compare up to it.  Error texts and logging are dropped.  Decoding JSON text is not
      modelled: states never were bytes, and a request's body is a JSON value.
    - Third-party and application code (games, plugins, event handlers, resolvers, legality
      checks, migrations, authentication) are parameters; a theorem that needs something of
      them says so.

    ** Fuel and bounds

    endPhase and advancePlayOrderPos call each other at most [rotation_depth] = 2 deep, for every
    game (MatchTheorems).  The event drain takes fuel; 34 rounds are enough for a game whose
    hooks queue no events (chained moves stop at 32).  The cascade stops at 200 steps as in
    the code.  Loops of the modules are structural, or bounded by the length of a list or the
    distance of two cells.

    ** Not modelled

    - Of the engine's data: the Seed, DecodeG and Enumerate fields of a Game (the fields the
      match manager reads are in Manager's [RegGame]); nil functions and nil configurations
      inside move and phase tables, which Go lets through and which panic when used.
    - Input and output: storage in databases and network services, the Postgres stores of
      the tool server, listening, TLS, heartbeats and shutdown of the server, the HTTP
      clients of language models, the commands.
    - JSON text: the codecs of states and modules, and whether what they write reads back.
    - Concurrency below a lock: methods are atomic, so the races of a socket's goroutines (two are
      among the manifest's findings) are not runs of the model.
    - The script interpreter and its sandbox, which are third-party, and the HOOKS of a script,
      handlers that run inside an operation of a module and call back into all of them.
    - The vet checker, over third-party syntax trees; test helpers; the wrapper that gives cards a
      Go type. *)

From stdpp Require Export base option list gmap strings.
From Stdlib Require Export ZArith Lia.

#[global] Open Scope Z_scope.
#[global] Set Default Goal Selector "!".

(** ** Results of Go code

    A Go function of the engine either returns normally, returns a non-nil
    [error], panics (index out of range, nil dereference, division by zero, a
    panic of the game's own code), or does not return.  The last case only
    shows up as an exhausted recursion budget. *)
Inductive outcome (E A : Type) : Type :=
  | Ok (a : A)
  | Err (e : E)
  | Panicked
  | NoFuel.
Arguments Ok {E A} a.
Arguments Err {E A} e.
Arguments Panicked {E A}.
Arguments NoFuel {E A}.

(** The state-and-error monad the engine's effectful code is translated to.
    The state is kept on every exit, because what game code mutated through a
    pointer stays mutated when a Go function returns an error. *)
Definition ST (S E A : Type) : Type := S → outcome E A * S.

Section monad.
Context {S E : Type}.

Definition st_ret {A} (a : A) : ST S E A := fun s => (Ok a, s).
Definition st_bind {A B} (f : A → ST S E B) (m : ST S E A) : ST S E B :=
  fun s => match m s with
           | (Ok a, s') => f a s'
           | (Err e, s') => (Err e, s')
           | (Panicked, s') => (Panicked, s')
           | (NoFuel, s') => (NoFuel, s')
           end.
Definition st_err {A} (e : E) : ST S E A := fun s => (Err e, s).
Definition st_panic {A} : ST S E A := fun s => (Panicked, s).
Definition st_nofuel {A} : ST S E A := fun s => (NoFuel, s).
Definition st_get : ST S E S := fun s => (Ok s, s).
Definition st_put (s : S) : ST S E unit := fun _ => (Ok tt, s).
(** Run a pure computation that may fail. *)
Definition st_lift {A} (o : outcome E A) : ST S E A := fun s => (o, s).
(** A Go [option]-like read whose absence is a panic. *)
Definition st_some {A} (o : option A) : ST S E A :=
  match o with Some a => st_ret a | None => st_panic end.
(** Go's [x, err := f()]: an error becomes a value. *)
Definition st_try {A} (m : ST S E A) : ST S E (E + A) := fun s =>
  match m s with
  | (Ok a, s') => (Ok (inr a), s')
  | (Err e, s') => (Ok (inl e), s')
  | (Panicked, s') => (Panicked, s')
  | (NoFuel, s') => (NoFuel, s')
  end.
End monad.

#[global] Instance ST_ret (S E : Type) : MRet (ST S E) := λ A a, st_ret a.
#[global] Instance ST_bind (S E : Type) : MBind (ST S E) := λ A B f m, st_bind f m.

(** [for _, x := range l { f(x) }] *)
Fixpoint for_each {S E A : Type} (f : A → ST S E ()) (l : list A) : ST S E () :=
  match l with
  | [] => mret tt
  | x :: l => _ ← f x; for_each f l
  end.

(** Results without state, for the pure checks. *)
#[global] Instance outcome_ret (E : Type) : MRet (outcome E) := λ A a, Ok a.
#[global] Instance outcome_bind (E : Type) : MBind (outcome E) := λ A B f m,
  match m with
  | Ok a => f a
  | Err e => Err e
  | Panicked => Panicked
  | NoFuel => NoFuel
  end.

(** ** Inversion of successful runs *)
Section inversion.
Context {S E : Type}.

Lemma bind_Ok {A B} (f : A → ST S E B) (m : ST S E A) s b s' :
  (m ≫= f) s = (Ok b, s') →
  ∃ a s1, m s = (Ok a, s1) ∧ f a s1 = (Ok b, s').
Proof.
  unfold mbind, ST_bind, st_bind. intros H.
  destruct (m s) as [[a|e| |] s1]; naive_solver.
Qed.

Lemma bind_run_Ok {A B} (f : A → ST S E B) (m : ST S E A) s a s1 :
  m s = (Ok a, s1) → (m ≫= f) s = f a s1.
Proof. intros H. unfold mbind, ST_bind, st_bind. by rewrite H. Qed.

Lemma ret_Ok {A} (a b : A) (s s' : S) :
  (mret a : ST S E A) s = (Ok b, s') → a = b ∧ s = s'.
Proof. unfold mret, ST_ret, st_ret. naive_solver. Qed.

Lemma outcome_bind_Ok {A B} (f : A → outcome E B) (m : outcome E A) b :
  (m ≫= f) = Ok b → ∃ a, m = Ok a ∧ f a = Ok b.
Proof. destruct m; naive_solver. Qed.
End inversion.

(** ** Relational specifications of monadic code

    [spec RS Q m]: whenever [m] returns normally, the states before and after
    are related by [RS] and the result satisfies [Q].  With a preorder [RS]
    the rules below compose along the code's own structure. *)
Definition spec {S E A} (RS : relation S) (Q : A → Prop) (m : ST S E A) : Prop :=
  ∀ s a s', m s = (Ok a, s') → RS s s' ∧ Q a.

Section spec_rules.
Context {S E : Type} (RS : relation S) `{!PreOrder RS}.

Lemma spec_ret {A} (Q : A → Prop) (a : A) :
  Q a → spec RS Q (mret a : ST S E A).
Proof. intros HQ s b s' [-> ->]%ret_Ok. by split. Qed.

Lemma spec_bind {A B} (P : A → Prop) (Q : B → Prop)
    (m : ST S E A) (f : A → ST S E B) :
  spec RS P m → (∀ a, P a → spec RS Q (f a)) → spec RS Q (m ≫= f).
Proof.
  intros Hm Hf s b s' (a & s1 & H1 & H2)%bind_Ok.
  destruct (Hm _ _ _ H1) as [HR HP].
  destruct (Hf _ HP _ _ _ H2) as [HR' HQ].
  split; [by transitivity s1 | done].
Qed.

(** A step whose result does not matter. *)
Lemma spec_skip {A B} (Q : B → Prop) (m : ST S E A) (f : A → ST S E B) :
  spec RS (λ _, True) m → (∀ a, spec RS Q (f a)) → spec RS Q (m ≫= f).
Proof. intros Hm Hf. eapply spec_bind; [exact Hm|]. auto. Qed.

Lemma spec_weaken {A} (P Q : A → Prop) (m : ST S E A) :
  spec RS P m → (∀ a, P a → Q a) → spec RS Q m.
Proof. intros Hm HPQ s a s' H. destruct (Hm _ _ _ H). auto. Qed.

Lemma spec_err {A} (Q : A → Prop) (e : E) : spec RS Q (st_err e : ST S E A).
Proof. intros s a s' H. by inversion H. Qed.

Lemma spec_panic {A} (Q : A → Prop) : spec RS Q (st_panic : ST S E A).
Proof. intros s a s' H. by inversion H. Qed.

Lemma spec_nofuel {A} (Q : A → Prop) : spec RS Q (st_nofuel : ST S E A).
Proof. intros s a s' H. by inversion H. Qed.

Lemma spec_some {A} (Q : A → Prop) (o : option A) :
  (∀ a, o = Some a → Q a) → spec RS Q (st_some o : ST S E A).
Proof. intros H. destruct o; [apply spec_ret; auto | apply spec_panic]. Qed.

Lemma spec_lift {A} (Q : A → Prop) (o : outcome E A) :
  (∀ a, o = Ok a → Q a) → spec RS Q (st_lift o : ST S E A).
Proof.
  intros H s a s' Heq. unfold st_lift in Heq. simplify_eq. split; [done | auto].
Qed.
End spec_rules.

(** ** Computations that never run out of fuel *)
Definition halts {S E A} (m : ST S E A) : Prop := ∀ s, (m s).1 ≠ NoFuel.

Section halts_rules.
Context {S E : Type}.

Lemma halts_ret {A} (a : A) : halts (mret a : ST S E A).
Proof. by intros s. Qed.

Lemma halts_bind {A B} (m : ST S E A) (f : A → ST S E B) :
  halts m → (∀ a, halts (f a)) → halts (m ≫= f).
Proof.
  intros Hm Hf s. specialize (Hm s). unfold mbind, ST_bind, st_bind.
  destruct (m s) as [[a|e| |] s1]; try done. apply Hf.
Qed.

(** The same when what follows only halts on the results [m] can have. *)
Lemma halts_bind_spec {A B} (RS : relation S) (P : A → Prop) (m : ST S E A) (f : A → ST S E B) :
  halts m → spec RS P m → (∀ a, P a → halts (f a)) → halts (m ≫= f).
Proof.
  intros Hm Hs Hf s. specialize (Hm s). unfold mbind, ST_bind, st_bind.
  destruct (m s) as [[a|e| |] s1] eqn:Hr; try done. apply Hf. by eapply Hs.
Qed.

Lemma halts_err {A} (e : E) : halts (st_err e : ST S E A).
Proof. by intros s. Qed.

Lemma halts_some {A} (o : option A) : halts (st_some o : ST S E A).
Proof. intros s. by destruct o. Qed.

Lemma halts_lift {A} (o : outcome E A) : o ≠ NoFuel → halts (st_lift o : ST S E A).
Proof. by intros Ho s. Qed.

Lemma halts_try {A} (m : ST S E A) : halts m → halts (st_try m).
Proof.
  intros Hm s. specialize (Hm s). unfold st_try. by destruct (m s) as [[a|e| |] s1].
Qed.
End halts_rules.

(** ** More fuel

    [fuel_le m m']: wherever [m] does not run out of fuel, [m'] does the same. *)
Definition fuel_le {S E A} (m m' : ST S E A) : Prop :=
  ∀ s, (m s).1 = NoFuel ∨ m' s = m s.

Section fuel_rules.
Context {S E : Type}.

Lemma fuel_le_refl {A} (m : ST S E A) : fuel_le m m.
Proof. by right. Qed.

Lemma fuel_le_bind {A B} (m m' : ST S E A) (f f' : A → ST S E B) :
  fuel_le m m' → (∀ a, fuel_le (f a) (f' a)) → fuel_le (m ≫= f) (m' ≫= f').
Proof.
  intros Hm Hf s. unfold mbind, ST_bind, st_bind. destruct (Hm s) as [Hs| ->].
  - left. by destruct (m s) as [[]]; simplify_eq/=.
  - destruct (m s) as [[a|e| |] s1]; auto. apply Hf.
Qed.

Lemma fuel_le_try {A} (m m' : ST S E A) : fuel_le m m' → fuel_le (st_try m) (st_try m').
Proof.
  intros Hm s. unfold st_try. destruct (Hm s) as [Hs| ->]; [left|by right].
  by destruct (m s) as [[]]; simplify_eq/=.
Qed.

Lemma fuel_le_nofuel {A} (m : ST S E A) : fuel_le st_nofuel m.
Proof. by left. Qed.
End fuel_rules.

(** ** Invariants that hold on every exit

    [keeps I m]: from a state that satisfies [I], [m] leaves one that does, also
    when it fails or panics. *)
Definition keeps {S E A} (I : S → Prop) (m : ST S E A) : Prop := ∀ s, I s → I (m s).2.

(** [reads m]: [m] changes nothing. *)
Definition reads {S E A} (m : ST S E A) : Prop := ∀ s, (m s).2 = s.

Section keeps_rules.
Context {S E : Type} (I : S → Prop).

Lemma bind_eq {A B} (f : A → ST S E B) (m : ST S E A) s :
  (m ≫= f) s = match m s with
               | (Ok a, s') => f a s'
               | (Err e, s') => (Err e, s')
               | (Panicked, s') => (Panicked, s')
               | (NoFuel, s') => (NoFuel, s')
               end.
Proof. done. Qed.

Lemma keeps_ret {A} (a : A) : keeps I (mret a : ST S E A).
Proof. by intros s. Qed.

Lemma keeps_err {A} (e : E) : keeps I (st_err e : ST S E A).
Proof. by intros s. Qed.

Lemma keeps_panic {A} : keeps I (st_panic : ST S E A).
Proof. by intros s. Qed.

Lemma keeps_bind {A B} (m : ST S E A) (f : A → ST S E B) :
  keeps I m → (∀ a, keeps I (f a)) → keeps I (m ≫= f).
Proof.
  intros Hm Hf s Hs. specialize (Hm s Hs). rewrite bind_eq.
  destruct (m s) as [[a|e| |] s1]; try done. by apply Hf.
Qed.

Lemma keeps_reads {A} (m : ST S E A) : reads m → keeps I m.
Proof. intros Hm s Hs. by rewrite Hm. Qed.

(** After a read the continuation may rely on what was read. *)
Lemma keeps_bind_reads {A B} (m : ST S E A) (f : A → ST S E B) :
  reads m → (∀ s a, I s → m s = (Ok a, s) → I (f a s).2) → keeps I (m ≫= f).
Proof.
  intros Hm Hf s Hs. specialize (Hm s). rewrite bind_eq.
  destruct (m s) as [[a|e| |] s1] eqn:Heq; simplify_eq/=; eauto.
Qed.
End keeps_rules.

Create HintDb engine discriminated.
#[export] Hint Resolve spec_err spec_panic spec_nofuel : engine.
(** The preorders the composition rules ask for are found by instance search. *)
#[export] Hint Extern 0 (PreOrder _) => typeclasses eauto : core.

(** ** Tactics *)

(** Peel one monadic bind off a hypothesis about a successful run. *)
Ltac inv_bind :=
  match goal with
  | H : mbind _ _ _ = (Ok _, _) |- _ =>
      let a := fresh "a" in let s := fresh "s" in
      let H1 := fresh "Hrun" in let H2 := fresh "Hrun" in
      apply bind_Ok in H as (a & s & H1 & H2)
  | H : mret _ _ = (Ok _, _) |- _ => apply ret_Ok in H as [? ?]; subst
  end.

Ltac inv_binds := repeat (inv_bind; simpl in *; try done).

(** Case split on the scrutinee of some [match] or [if] of the goal. *)
Ltac case_match_goal :=
  match goal with
  | |- context [match ?x with _ => _ end] => destruct x eqn:?
  end.

(** ** Go slices and maps *)

(** [s[i]] with Go's bounds check; [None] is the index-out-of-range panic. *)
Definition go_index {A} (l : list A) (i : Z) : option A :=
  if decide (0 ≤ i) then l !! Z.to_nat i else None.

(** The position of the first element satisfying a test, as the engine's
    [for i, x := range xs { if … { idx = i; break } }] loops compute it. *)
Fixpoint find_index {A} (p : A → bool) (l : list A) : option nat :=
  match l with
  | [] => None
  | x :: l' => if p x then Some 0%nat else S <$> find_index p l'
  end.

(** A fresh slice without the element at an index. *)
Definition remove_at {A} (i : nat) (l : list A) : list A := take i l ++ drop (S i) l.

(** Reading a nil-able Go map; a nil map reads as empty. *)
Definition omap_get {A} (m : option (gmap string A)) (k : string) : option A :=
  m ≫= (λ m, m !! k).

(** [m[k]] on a [map[string]int], zero when absent. *)
Definition get_int (m : option (gmap string Z)) (k : string) : Z :=
  default 0 (omap_get m k).

(** [m[k]] on a [map[string]string], empty when absent. *)
Definition get_str (m : option (gmap string string)) (k : string) : string :=
  default "" (omap_get m k).

(** [delete(m, k)] on a nil-able map. *)
Definition odelete {A} (k : string) (m : option (gmap string A)) : option (gmap string A) :=
  delete k <$> m.

Section list_facts.
Context {A : Type}.
Implicit Types (l : list A) (p : A → bool).

Lemma find_index_Some p l i :
  find_index p l = Some i ↔
  (∃ x, l !! i = Some x ∧ p x = true) ∧
  (∀ j y, (j < i)%nat → l !! j = Some y → p y = false).
Proof.
  revert i. induction l as [|x l IH]; intros i; simpl.
  { split; [done | intros [(y & Hy & _) _]; by rewrite lookup_nil in Hy]. }
  destruct (p x) eqn:Hp; simpl.
  - split.
    + intros [= <-]. split; [eauto | intros; lia].
    + intros [(y & Hy & Hpy) Hlt]. destruct i as [|i]; [done|].
      specialize (Hlt 0%nat x ltac:(lia) eq_refl). congruence.
  - destruct i as [|i].
    + split; [by destruct (find_index p l) | ].
      intros [(y & [= ->] & Hpy) _]. congruence.
    + assert ((S <$> find_index p l = Some (S i)) ↔ find_index p l = Some i) as ->.
      { destruct (find_index p l); naive_solver. }
      rewrite IH. split.
      * intros [(y & Hy & Hpy) Hlt]. split; [eauto|].
        intros [|j] z Hj Hz; [naive_solver | apply (Hlt j); [lia | done]].
      * intros [(y & Hy & Hpy) Hlt]. split; [eauto|].
        intros j z Hj Hz. apply (Hlt (S j)); [lia | done].
Qed.

Lemma find_index_None p l :
  find_index p l = None ↔ Forall (λ x, p x = false) l.
Proof.
  induction l as [|x l IH]; simpl; [by split|].
  rewrite Forall_cons. destruct (p x) eqn:?; [naive_solver|].
  rewrite <-IH. destruct (find_index p l); naive_solver.
Qed.

Lemma find_index_lt p l i : find_index p l = Some i → (i < length l)%nat.
Proof.
  intros [(x & Hx & _) _]%find_index_Some. by eapply lookup_lt_Some.
Qed.

Lemma length_remove_at i l :
  (i < length l)%nat → length (remove_at i l) = (length l - 1)%nat.
Proof.
  intros. unfold remove_at. rewrite length_app, length_take, length_drop. lia.
Qed.

Lemma remove_at_submseteq i l : remove_at i l ⊆+ l.
Proof.
  unfold remove_at. rewrite <-(take_drop i l) at 3.
  apply submseteq_app; [done|].
  replace (S i) with (i + 1)%nat by lia. rewrite <-drop_drop.
  destruct (drop i l); [done|]. by apply submseteq_cons.
Qed.

Lemma filter_nil_iff (P : A → Prop) `{∀ x, Decision (P x)} l :
  filter P l = [] ↔ ∀ x, x ∈ l → ¬ P x.
Proof.
  split.
  - intros Hf x Hx HP. by eapply filter_nil_not_elem_of.
  - intros Hl. destruct (filter P l) as [|x l'] eqn:Hf; [done|].
    assert (x ∈ filter P l) as [HP Hx]%list_elem_of_filter by (rewrite Hf; by left).
    by destruct (Hl x Hx).
Qed.

Lemma filter_id (P : A → Prop) `{∀ x, Decision (P x)} l :
  (∀ x, x ∈ l → P x) → filter P l = l.
Proof.
  induction l as [|x l IH]; intros Hl; [done|].
  rewrite filter_cons_True by (apply Hl; by left). f_equal. apply IH. intros y Hy. apply Hl. by right.
Qed.

Lemma filter_ext_in (P Q : A → Prop) `{∀ x, Decision (P x), ∀ x, Decision (Q x)} l :
  (∀ x, x ∈ l → P x ↔ Q x) → filter P l = filter Q l.
Proof.
  induction l as [|x l IH]; intros Hl; [done|]. rewrite !filter_cons, IH by (intros; apply Hl; by right).
  specialize (Hl x ltac:(by left)). destruct (decide (P x)), (decide (Q x)); tauto.
Qed.

Lemma filter_length_mono (P Q : A → Prop) `{∀ x, Decision (P x), ∀ x, Decision (Q x)} l :
  (∀ x, x ∈ l → P x → Q x) → (length (filter P l) ≤ length (filter Q l))%nat.
Proof.
  induction l as [|x l IH]; intros Hl; [done|].
  assert (length (filter P l) ≤ length (filter Q l))%nat by (apply IH; intros; apply Hl; [by right|done]).
  rewrite !filter_cons. destruct (decide (P x)), (decide (Q x)); simpl; try lia.
  exfalso. eauto using list_elem_of_here.
Qed.

Lemma bind_nil_iff {B} (f : A → list B) l : l ≫= f = [] ↔ ∀ x, x ∈ l → f x = [].
Proof.
  induction l as [|y l IH]; simpl.
  - split; [by intros _ x ?%not_elem_of_nil|done].
  - rewrite app_nil, IH. split.
    + intros [Hy Hl] x [->|Hx]%elem_of_cons; auto.
    + intros Hl. split; [apply Hl; by left|]. intros x Hx. apply Hl. by right.
Qed.

Lemma fmap_nil_iff {B} (f : A → B) l : f <$> l = [] ↔ l = [].
Proof. split; [apply fmap_nil_inv | by intros ->]. Qed.

(** At most one element, said without counting. *)
Lemma NoDup_all_eq l : NoDup l → (∀ x y, x ∈ l → y ∈ l → x = y) → (length l ≤ 1)%nat.
Proof.
  intros Hnd Heq. destruct l as [|x [|y l]]; simpl; try lia.
  apply NoDup_cons in Hnd as [Hx _]. destruct Hx.
  rewrite (Heq x y); [by left|by left|right; by left].
Qed.

Lemma length_le_1_eq l x y : (length l ≤ 1)%nat → x ∈ l → y ∈ l → x = y.
Proof.
  destruct l as [|z [|? ?]]; simpl; intros Hl; try lia.
  - by intros ?%not_elem_of_nil.
  - by intros ->%list_elem_of_singleton ->%list_elem_of_singleton.
Qed.

Lemma go_index_Some l i x :
  go_index l i = Some x ↔ 0 ≤ i < Z.of_nat (length l) ∧ l !! Z.to_nat i = Some x.
Proof.
  unfold go_index. case_decide; split; try naive_solver.
  intros Hx. split; [|done]. apply lookup_lt_Some in Hx. lia.
Qed.

Lemma go_index_is_Some l i : is_Some (go_index l i) ↔ 0 ≤ i < Z.of_nat (length l).
Proof.
  split.
  - intros [x [Hx _]%go_index_Some]. done.
  - intros Hi. destruct (lookup_lt_is_Some_2 l (Z.to_nat i)) as [x Hx]; [lia|].
    exists x. by apply go_index_Some.
Qed.
End list_facts.
