(* ===== verification/CoreTypes.v ===== *)
(** * Data of the engine (package core)

    The Go structs, enums and maps of [src/core/], field by field.  Pointers
    and maps that may be nil are [option]s; a Go [any] is an [option] over an
    abstract type of dynamic values, [None] being nil. *)

From S2P Require Import Prelude.
#[local] Open Scope Z_scope.

(** The Go types the engine never inspects: the dynamic values that travel in
    an [any] ([G], move arguments, plugin data, the gameover value, ...), and
    the memory those values may point into.  Game code and plugins read and
    write that memory; the engine itself never touches it. *)
Class GoTypes := {
  val : Type;
  world : Type;
  (** the boolean [true], the result [EndGame()] stores by default *)
  val_true : val;
  (** [*Random] and its type assertion, see [attachPlugins] *)
  randref : Type;
  as_Random : val → option randref
}.

Abbreviation any := (option val).

Section data.
Context {T : GoTypes}.

(** ctx.go: [Ctx] *)
Record Ctx := mkCtx {
  ctx_NumPlayers : Z;
  ctx_CurrentPlayer : string;
  ctx_PlayOrder : list string;
  ctx_PlayOrderPos : Z;
  ctx_Turn : Z;
  ctx_Phase : string;
  ctx_ActivePlayers : option (gmap string string);
  ctx_Gameover : any;
  ctx_NumMoves : Z;
  ctx_NowMs : Z;
  ctx_Seed : Z
}.

(** stage.go: [ActivePlayersConfig] *)
Inductive ActivePlayersConfig : Type := mkAPC {
  apc_CurrentPlayer : option string;
  apc_Others : option string;
  apc_All : option string;
  apc_Value : gmap string string;
  apc_MinMoves : Z;
  apc_MaxMoves : Z;
  apc_PerPlayerMinMoves : gmap string Z;
  apc_PerPlayerMaxMoves : gmap string Z;
  apc_Revert : bool;
  apc_Next : option ActivePlayersConfig
}.

(** events.go: [setStageOpts]; [hasMin]/[minMoves] and [hasMax]/[maxMoves]
    are the two options. *)
Record setStageOpts := mkStageOpts {
  so_stage : string;
  so_min : option Z;
  so_max : option Z
}.

(** events.go: [event], one constructor per [eventKind] with the payload
    fields that kind uses. *)
Inductive event : Type :=
  | evEndTurn (turnNext : string)
  | evEndPhase
  | evEndStage
  | evSetStage (stage : string) (stageOpts : option setStageOpts)
  | evSetPhase (phase : string)
  | evEndGame (gameover : any)
  | evSetActivePlayers (activeCfg : ActivePlayersConfig)
  | evPass
  | evRemovePlayer (playerID : string)
  | evRunMove (moveName : string) (moveArgs : list any).

(** target.go: [TargetRequest]; assignment.go: [AssignmentRequest] *)
Record TargetRequest := mkTarget {
  tr_Kind : string;
  tr_Candidates : list any;
  tr_Min : Z;
  tr_Max : Z;
  tr_Source : any;
  tr_Data : gmap string any
}.

Record AssignmentRequest := mkAssignment {
  ar_Kind : string;
  ar_Pairs : list (any * any);
  ar_MaxPerLeft : Z;
  ar_MaxPerRight : Z;
  ar_AllowEmpty : bool;
  ar_Source : any;
  ar_Data : gmap string any
}.

(** queue.go: [QueuedAction], [BlockSpec], [Queue] *)
Record QueuedAction := mkAction {
  qa_PlayerID : string;
  qa_Move : string;
  qa_Args : list any
}.

Record BlockSpec := mkBlock {
  b_Tag : string;
  b_PlayerID : string;
  b_Move : string;
  b_Order : Z;
  b_Data : any;
  b_Target : option TargetRequest;
  b_Assignment : option AssignmentRequest
}.

Record Queue := mkQueue {
  q_pending : list QueuedAction;
  q_blocks : list BlockSpec
}.

(** log.go: [LogEntry] *)
Record LogEntry := mkLog {
  le_Kind : string;
  le_Move : string;
  le_PlayerID : string;
  le_Args : list any;
  le_NowMs : Z;
  le_Turn : Z;
  le_Phase : string;
  le_Stage : string;
  le_Redact : bool;
  le_Undoable : bool;
  le_Parent : Z;
  le_ResumeTag : string;
  le_ServerDispatch : bool
}.

(** state.go: [activeFrame] *)
Record activeFrame := mkFrame {
  af_ActivePlayers : option (gmap string string);
  af_MoveCounts : option (gmap string Z);
  af_StageMin : option (gmap string Z);
  af_StageMax : option (gmap string Z)
}.

(** state.go: [State], without the raw JSON bytes captured at load time. *)
Inductive State : Type := mkState {
  st_G : any;
  st_Ctx : Ctx;
  st_StateID : Z;
  st_Plugins : option (gmap string any);
  st_Log : list LogEntry;
  st_Undone : list LogEntry;
  st_TurnSnapshots : list State;
  st_Queue : list QueuedAction;
  st_Blocks : list BlockSpec;
  st_ActiveStack : list activeFrame;
  st_PendingNext : option ActivePlayersConfig;
  st_MoveCounts : option (gmap string Z);
  st_StageMinMoves : option (gmap string Z);
  st_StageMaxMoves : option (gmap string Z)
}.

(** reducer.go: [MoveRequest] *)
Record MoveRequest := mkReq {
  rq_PlayerID : string;
  rq_Move : string;
  rq_Args : list any;
  rq_StateID : Z;
  rq_ResumeTag : string;
  rq_NowMs : Z;
  rq_ServerDispatch : bool;
  rq_FromClient : bool
}.

(** reducer.go: the sentinel errors, and the errors other code raises inside
    the engine: a misconfigured move table, a move's own error and a
    plugin's [IsInvalid] verdict.  Message texts are not modelled. *)
Inductive error : Type :=
  | ErrInvalidMove | ErrWrongPlayer | ErrUnknownMove | ErrGameOver
  | ErrInactivePlayer | ErrStaleState | ErrBlocked | ErrUnknownResumeTag
  | ErrMoveNotInStage | ErrServerOnly | ErrDrainOverflow | ErrMinMoves
  | ErrBadMoveEntry
  | ErrGameCode (reason : string)
  | ErrPlugin (reason : string).

(** game.go: [EnumerateAction] *)
Record EnumerateAction := mkEnum {
  ea_Move : string;
  ea_Args : list any
}.

(** The [context.Context] a move sees: the caller's, or one derived from it
    with a timeout. *)
Inductive goctx : Type :=
  | ctxBackground
  | ctxCaller (name : string)
  | ctxWithTimeout (parent : goctx) (timeout : Z).

(** ** Game code

    A move or hook is a Go closure that talks to the engine only through its
    MoveContext.  It is a tree of the calls it makes; the calls that return
    something ([Unblock], [PendingBlocks], reads of shared memory) branch on
    the answer.  [Crash] is a panic of the closure. *)
Inductive prog (A : Type) : Type :=
  | Ret (a : A)
  | Crash
  | OpEvent (ev : event) (k : prog A)
  | OpPush (a : QueuedAction) (k : prog A)
  | OpBlock (b : BlockSpec) (k : prog A)
  | OpUnblock (tag playerID : string) (k : bool → prog A)
  | OpPendingBlocks (k : list BlockSpec → prog A)
  | OpDropBlocksFor (playerID : string) (k : prog A)
  | OpAddLog (e : LogEntry) (k : prog A)
  | OpRead (k : world → prog A)
  | OpWrite (w : world) (k : prog A).

(** move.go: [MoveContext].  [mc_Wired] says whether Events, Queue and the
    drop list are the surrounding move's or nil; the handles themselves live
    in the environment the context is built from. *)
Record MoveContext := mkMC {
  mc_G : any;
  mc_Ctx : Ctx;
  mc_PlayerID : string;
  mc_Random : option randref;
  mc_Context : option goctx;
  mc_Plugins : option (gmap string any);
  mc_Wired : bool;
  mc_ResumingBlock : option BlockSpec;
  mc_extra : list LogEntry;
  mc_chainedMoves : Z
}.

(** move.go: [MoveFn] returns the new G or an error; [HookFn] cannot fail. *)
Definition MoveFn : Type := MoveContext → list any → prog (error + any).
Definition HookFn : Type := MoveContext → prog any.

(** The [any]-typed [Undoable] and [Redact] fields of a Move. *)
Inductive FlagSpec : Type :=
  | FlagNil
  | FlagBool (b : bool)
  | FlagFn (f : MoveContext → prog bool)
  | FlagOther.

(** move.go: [Move] *)
Record Move := mkMove {
  mv_Move : option MoveFn;
  mv_Undoable : FlagSpec;
  mv_Redact : FlagSpec;
  mv_ServerOnly : bool;
  mv_NoLimit : bool;
  mv_IgnoreStaleStateID : bool;
  mv_Timeout : Z;
  mv_IgnoreBlocks : bool;
  mv_AnyPlayer : bool
}.

(** A value of a [Moves] table: a Move, a bare MoveFn, or something else. *)
Inductive MoveEntry : Type :=
  | EntryMove (m : Move)
  | EntryFn (f : MoveFn)
  | EntryBad.

(** stage.go: [StageConfig] *)
Record StageConfig := mkStage {
  sc_Moves : gmap string MoveEntry;
  sc_Exclusive : bool;
  sc_Next : string;
  sc_OnBegin : option HookFn;
  sc_OnEnd : option HookFn
}.

(** turn.go: [TurnOrder], [TurnConfig] *)
Record TurnOrder := mkOrder {
  to_First : option (MoveContext → prog Z);
  to_Next : option (MoveContext → prog (option Z));
  to_PlayOrder : option (MoveContext → prog (list string))
}.

Record TurnConfig := mkTurn {
  tc_Order : TurnOrder;
  tc_OnBegin : option HookFn;
  tc_OnEnd : option HookFn;
  tc_OnMove : option HookFn;
  tc_EndIf : option (MoveContext → prog (bool * string));
  tc_MinMoves : Z;
  tc_MaxMoves : Z;
  tc_TimeBudget : Z;
  tc_ActivePlayers : option ActivePlayersConfig;
  tc_Stages : gmap string StageConfig
}.

(** phase.go: [PhaseConfig]; its [Next] is nil, a string, a function, or a
    value of another type. *)
Inductive PhaseNext : Type :=
  | NextNil
  | NextStatic (name : string)
  | NextFn (f : MoveContext → prog string)
  | NextOther.

Record PhaseConfig := mkPhase {
  pc_OnBegin : option HookFn;
  pc_OnEnd : option HookFn;
  pc_EndIf : option (MoveContext → prog (bool * string));
  pc_Moves : option (gmap string MoveEntry);
  pc_Turn : option TurnConfig;
  pc_Start : bool;
  pc_Next : PhaseNext
}.

(** plugin.go: the engine entry points a hook wrapper can distinguish. *)
Inductive GameMethod : Type :=
  | GameMethodMove | GameMethodTurnOnBegin | GameMethodTurnOnEnd
  | GameMethodTurnOnMove | GameMethodPhaseOnBegin | GameMethodPhaseOnEnd
  | GameMethodGameOnEnd | GameMethodStageOnBegin | GameMethodStageOnEnd.

(** plugin.go: a [Plugin] and the optional interfaces it may implement.  A
    plugin closes over the game it belongs to.  Its methods may mutate the
    memory its data points into. *)
Record Plugin := mkPlugin {
  pl_Name : string;
  pl_Setup : option (any → Ctx → world → any * world);
  pl_API : option (any → any → Ctx → string → world → any * world);
  pl_Flush : option (any → any → any → Ctx → world → any * world);
  pl_IsInvalid : option (any → any → Ctx → world → option string);
  pl_PlayerView : option (any → any → Ctx → string → world → any);
  pl_WrapMove : option (MoveFn → MoveFn);
  pl_WrapHook : option (HookFn → GameMethod → HookFn)
}.

(** game.go: [Game], the fields the engine package reads. *)
Record Game := mkGame {
  gm_Name : string;
  gm_MinPlayers : Z;
  gm_MaxPlayers : Z;
  gm_Setup : option (Ctx → any → world → any * world);
  gm_Moves : gmap string MoveEntry;
  gm_Turn : option TurnConfig;
  gm_Phases : gmap string PhaseConfig;
  gm_EndIf : option (MoveContext → prog any);
  gm_OnEnd : option HookFn;
  gm_OnUndo : option HookFn;
  gm_PlayerView : option (any → Ctx → string → world → any);
  gm_BlockView : option (BlockSpec → string → BlockSpec);
  gm_DisableUndo : bool;
  gm_Plugins : list Plugin
}.

(** transitions.go: [hookEnv], the environment engine-invoked game code runs
    in, together with the memory it may mutate.  [None] is a nil pointer. *)
Record hookEnv := mkEnv {
  env_events : option (list event);
  env_queue : option Queue;
  env_drops : option (list string);
  env_plugins : option (gmap string any);
  env_world : world
}.
End data.

(** ** Field updates, the Go assignments [s.F = v] on a struct copy *)
Section setters.
Context {T : GoTypes}.

Definition set_ctx_NumPlayers (v : Z) (c : Ctx) : Ctx :=
  mkCtx v (ctx_CurrentPlayer c) (ctx_PlayOrder c) (ctx_PlayOrderPos c) (ctx_Turn c)
    (ctx_Phase c) (ctx_ActivePlayers c) (ctx_Gameover c) (ctx_NumMoves c) (ctx_NowMs c)
    (ctx_Seed c).

Definition set_ctx_CurrentPlayer (v : string) (c : Ctx) : Ctx :=
  mkCtx (ctx_NumPlayers c) v (ctx_PlayOrder c) (ctx_PlayOrderPos c) (ctx_Turn c)
    (ctx_Phase c) (ctx_ActivePlayers c) (ctx_Gameover c) (ctx_NumMoves c) (ctx_NowMs c)
    (ctx_Seed c).

Definition set_ctx_PlayOrder (v : list string) (c : Ctx) : Ctx :=
  mkCtx (ctx_NumPlayers c) (ctx_CurrentPlayer c) v (ctx_PlayOrderPos c) (ctx_Turn c)
    (ctx_Phase c) (ctx_ActivePlayers c) (ctx_Gameover c) (ctx_NumMoves c) (ctx_NowMs c)
    (ctx_Seed c).

Definition set_ctx_PlayOrderPos (v : Z) (c : Ctx) : Ctx :=
  mkCtx (ctx_NumPlayers c) (ctx_CurrentPlayer c) (ctx_PlayOrder c) v (ctx_Turn c)
    (ctx_Phase c) (ctx_ActivePlayers c) (ctx_Gameover c) (ctx_NumMoves c) (ctx_NowMs c)
    (ctx_Seed c).

Definition set_ctx_Turn (v : Z) (c : Ctx) : Ctx :=
  mkCtx (ctx_NumPlayers c) (ctx_CurrentPlayer c) (ctx_PlayOrder c) (ctx_PlayOrderPos c) v
    (ctx_Phase c) (ctx_ActivePlayers c) (ctx_Gameover c) (ctx_NumMoves c) (ctx_NowMs c)
    (ctx_Seed c).

Definition set_ctx_Phase (v : string) (c : Ctx) : Ctx :=
  mkCtx (ctx_NumPlayers c) (ctx_CurrentPlayer c) (ctx_PlayOrder c) (ctx_PlayOrderPos c)
    (ctx_Turn c) v (ctx_ActivePlayers c) (ctx_Gameover c) (ctx_NumMoves c) (ctx_NowMs c)
    (ctx_Seed c).

Definition set_ctx_ActivePlayers (v : option (gmap string string)) (c : Ctx) : Ctx :=
  mkCtx (ctx_NumPlayers c) (ctx_CurrentPlayer c) (ctx_PlayOrder c) (ctx_PlayOrderPos c)
    (ctx_Turn c) (ctx_Phase c) v (ctx_Gameover c) (ctx_NumMoves c) (ctx_NowMs c)
    (ctx_Seed c).

Definition set_ctx_Gameover (v : any) (c : Ctx) : Ctx :=
  mkCtx (ctx_NumPlayers c) (ctx_CurrentPlayer c) (ctx_PlayOrder c) (ctx_PlayOrderPos c)
    (ctx_Turn c) (ctx_Phase c) (ctx_ActivePlayers c) v (ctx_NumMoves c) (ctx_NowMs c)
    (ctx_Seed c).

Definition set_ctx_NumMoves (v : Z) (c : Ctx) : Ctx :=
  mkCtx (ctx_NumPlayers c) (ctx_CurrentPlayer c) (ctx_PlayOrder c) (ctx_PlayOrderPos c)
    (ctx_Turn c) (ctx_Phase c) (ctx_ActivePlayers c) (ctx_Gameover c) v (ctx_NowMs c)
    (ctx_Seed c).

Definition set_ctx_NowMs (v : Z) (c : Ctx) : Ctx :=
  mkCtx (ctx_NumPlayers c) (ctx_CurrentPlayer c) (ctx_PlayOrder c) (ctx_PlayOrderPos c)
    (ctx_Turn c) (ctx_Phase c) (ctx_ActivePlayers c) (ctx_Gameover c) (ctx_NumMoves c) v
    (ctx_Seed c).

Definition set_ctx_Seed (v : Z) (c : Ctx) : Ctx :=
  mkCtx (ctx_NumPlayers c) (ctx_CurrentPlayer c) (ctx_PlayOrder c) (ctx_PlayOrderPos c)
    (ctx_Turn c) (ctx_Phase c) (ctx_ActivePlayers c) (ctx_Gameover c) (ctx_NumMoves c)
    (ctx_NowMs c) v.


Definition set_st_G (v : any) (s : State) : State :=
  mkState v (st_Ctx s) (st_StateID s) (st_Plugins s) (st_Log s) (st_Undone s)
    (st_TurnSnapshots s) (st_Queue s) (st_Blocks s) (st_ActiveStack s) (st_PendingNext s)
    (st_MoveCounts s) (st_StageMinMoves s) (st_StageMaxMoves s).

Definition set_st_Ctx (v : Ctx) (s : State) : State :=
  mkState (st_G s) v (st_StateID s) (st_Plugins s) (st_Log s) (st_Undone s)
    (st_TurnSnapshots s) (st_Queue s) (st_Blocks s) (st_ActiveStack s) (st_PendingNext s)
    (st_MoveCounts s) (st_StageMinMoves s) (st_StageMaxMoves s).

Definition set_st_StateID (v : Z) (s : State) : State :=
  mkState (st_G s) (st_Ctx s) v (st_Plugins s) (st_Log s) (st_Undone s)
    (st_TurnSnapshots s) (st_Queue s) (st_Blocks s) (st_ActiveStack s) (st_PendingNext s)
    (st_MoveCounts s) (st_StageMinMoves s) (st_StageMaxMoves s).

Definition set_st_Plugins (v : option (gmap string any)) (s : State) : State :=
  mkState (st_G s) (st_Ctx s) (st_StateID s) v (st_Log s) (st_Undone s)
    (st_TurnSnapshots s) (st_Queue s) (st_Blocks s) (st_ActiveStack s) (st_PendingNext s)
    (st_MoveCounts s) (st_StageMinMoves s) (st_StageMaxMoves s).

Definition set_st_Log (v : list LogEntry) (s : State) : State :=
  mkState (st_G s) (st_Ctx s) (st_StateID s) (st_Plugins s) v (st_Undone s)
    (st_TurnSnapshots s) (st_Queue s) (st_Blocks s) (st_ActiveStack s) (st_PendingNext s)
    (st_MoveCounts s) (st_StageMinMoves s) (st_StageMaxMoves s).

Definition set_st_Undone (v : list LogEntry) (s : State) : State :=
  mkState (st_G s) (st_Ctx s) (st_StateID s) (st_Plugins s) (st_Log s) v
    (st_TurnSnapshots s) (st_Queue s) (st_Blocks s) (st_ActiveStack s) (st_PendingNext s)
    (st_MoveCounts s) (st_StageMinMoves s) (st_StageMaxMoves s).

Definition set_st_TurnSnapshots (v : list State) (s : State) : State :=
  mkState (st_G s) (st_Ctx s) (st_StateID s) (st_Plugins s) (st_Log s) (st_Undone s) v
    (st_Queue s) (st_Blocks s) (st_ActiveStack s) (st_PendingNext s) (st_MoveCounts s)
    (st_StageMinMoves s) (st_StageMaxMoves s).

Definition set_st_Queue (v : list QueuedAction) (s : State) : State :=
  mkState (st_G s) (st_Ctx s) (st_StateID s) (st_Plugins s) (st_Log s) (st_Undone s)
    (st_TurnSnapshots s) v (st_Blocks s) (st_ActiveStack s) (st_PendingNext s)
    (st_MoveCounts s) (st_StageMinMoves s) (st_StageMaxMoves s).

Definition set_st_Blocks (v : list BlockSpec) (s : State) : State :=
  mkState (st_G s) (st_Ctx s) (st_StateID s) (st_Plugins s) (st_Log s) (st_Undone s)
    (st_TurnSnapshots s) (st_Queue s) v (st_ActiveStack s) (st_PendingNext s)
    (st_MoveCounts s) (st_StageMinMoves s) (st_StageMaxMoves s).

Definition set_st_ActiveStack (v : list activeFrame) (s : State) : State :=
  mkState (st_G s) (st_Ctx s) (st_StateID s) (st_Plugins s) (st_Log s) (st_Undone s)
    (st_TurnSnapshots s) (st_Queue s) (st_Blocks s) v (st_PendingNext s) (st_MoveCounts s)
    (st_StageMinMoves s) (st_StageMaxMoves s).

Definition set_st_PendingNext (v : option ActivePlayersConfig) (s : State) : State :=
  mkState (st_G s) (st_Ctx s) (st_StateID s) (st_Plugins s) (st_Log s) (st_Undone s)
    (st_TurnSnapshots s) (st_Queue s) (st_Blocks s) (st_ActiveStack s) v (st_MoveCounts s)
    (st_StageMinMoves s) (st_StageMaxMoves s).

Definition set_st_MoveCounts (v : option (gmap string Z)) (s : State) : State :=
  mkState (st_G s) (st_Ctx s) (st_StateID s) (st_Plugins s) (st_Log s) (st_Undone s)
    (st_TurnSnapshots s) (st_Queue s) (st_Blocks s) (st_ActiveStack s) (st_PendingNext s)
    v (st_StageMinMoves s) (st_StageMaxMoves s).

Definition set_st_StageMinMoves (v : option (gmap string Z)) (s : State) : State :=
  mkState (st_G s) (st_Ctx s) (st_StateID s) (st_Plugins s) (st_Log s) (st_Undone s)
    (st_TurnSnapshots s) (st_Queue s) (st_Blocks s) (st_ActiveStack s) (st_PendingNext s)
    (st_MoveCounts s) v (st_StageMaxMoves s).

Definition set_st_StageMaxMoves (v : option (gmap string Z)) (s : State) : State :=
  mkState (st_G s) (st_Ctx s) (st_StateID s) (st_Plugins s) (st_Log s) (st_Undone s)
    (st_TurnSnapshots s) (st_Queue s) (st_Blocks s) (st_ActiveStack s) (st_PendingNext s)
    (st_MoveCounts s) (st_StageMinMoves s) v.


Definition set_mc_G (v : any) (m : MoveContext) : MoveContext :=
  mkMC v (mc_Ctx m) (mc_PlayerID m) (mc_Random m) (mc_Context m) (mc_Plugins m)
    (mc_Wired m) (mc_ResumingBlock m) (mc_extra m) (mc_chainedMoves m).

Definition set_mc_Ctx (v : Ctx) (m : MoveContext) : MoveContext :=
  mkMC (mc_G m) v (mc_PlayerID m) (mc_Random m) (mc_Context m) (mc_Plugins m) (mc_Wired m)
    (mc_ResumingBlock m) (mc_extra m) (mc_chainedMoves m).

Definition set_mc_PlayerID (v : string) (m : MoveContext) : MoveContext :=
  mkMC (mc_G m) (mc_Ctx m) v (mc_Random m) (mc_Context m) (mc_Plugins m) (mc_Wired m)
    (mc_ResumingBlock m) (mc_extra m) (mc_chainedMoves m).

Definition set_mc_Random (v : option randref) (m : MoveContext) : MoveContext :=
  mkMC (mc_G m) (mc_Ctx m) (mc_PlayerID m) v (mc_Context m) (mc_Plugins m) (mc_Wired m)
    (mc_ResumingBlock m) (mc_extra m) (mc_chainedMoves m).

Definition set_mc_Context (v : option goctx) (m : MoveContext) : MoveContext :=
  mkMC (mc_G m) (mc_Ctx m) (mc_PlayerID m) (mc_Random m) v (mc_Plugins m) (mc_Wired m)
    (mc_ResumingBlock m) (mc_extra m) (mc_chainedMoves m).

Definition set_mc_Plugins (v : option (gmap string any)) (m : MoveContext) : MoveContext :=
  mkMC (mc_G m) (mc_Ctx m) (mc_PlayerID m) (mc_Random m) (mc_Context m) v (mc_Wired m)
    (mc_ResumingBlock m) (mc_extra m) (mc_chainedMoves m).

Definition set_mc_Wired (v : bool) (m : MoveContext) : MoveContext :=
  mkMC (mc_G m) (mc_Ctx m) (mc_PlayerID m) (mc_Random m) (mc_Context m) (mc_Plugins m) v
    (mc_ResumingBlock m) (mc_extra m) (mc_chainedMoves m).

Definition set_mc_ResumingBlock (v : option BlockSpec) (m : MoveContext) : MoveContext :=
  mkMC (mc_G m) (mc_Ctx m) (mc_PlayerID m) (mc_Random m) (mc_Context m) (mc_Plugins m)
    (mc_Wired m) v (mc_extra m) (mc_chainedMoves m).

Definition set_mc_extra (v : list LogEntry) (m : MoveContext) : MoveContext :=
  mkMC (mc_G m) (mc_Ctx m) (mc_PlayerID m) (mc_Random m) (mc_Context m) (mc_Plugins m)
    (mc_Wired m) (mc_ResumingBlock m) v (mc_chainedMoves m).

Definition set_mc_chainedMoves (v : Z) (m : MoveContext) : MoveContext :=
  mkMC (mc_G m) (mc_Ctx m) (mc_PlayerID m) (mc_Random m) (mc_Context m) (mc_Plugins m)
    (mc_Wired m) (mc_ResumingBlock m) (mc_extra m) v.


Definition set_env_events (v : option (list event)) (e : hookEnv) : hookEnv :=
  mkEnv v (env_queue e) (env_drops e) (env_plugins e) (env_world e).

Definition set_env_queue (v : option Queue) (e : hookEnv) : hookEnv :=
  mkEnv (env_events e) v (env_drops e) (env_plugins e) (env_world e).

Definition set_env_drops (v : option (list string)) (e : hookEnv) : hookEnv :=
  mkEnv (env_events e) (env_queue e) v (env_plugins e) (env_world e).

Definition set_env_plugins (v : option (gmap string any)) (e : hookEnv) : hookEnv :=
  mkEnv (env_events e) (env_queue e) (env_drops e) v (env_world e).

Definition set_env_world (v : world) (e : hookEnv) : hookEnv :=
  mkEnv (env_events e) (env_queue e) (env_drops e) (env_plugins e) v.


End setters.

(** Updating a field of the embedded Ctx of a state. *)
Definition on_ctx {T : GoTypes} (f : Ctx → Ctx) (s : State) : State :=
  set_st_Ctx (f (st_Ctx s)) s.

Arguments Ret {T A} a.
Arguments Crash {T A}.
Arguments OpEvent {T A} ev k.
Arguments OpPush {T A} a k.
Arguments OpBlock {T A} b k.
Arguments OpUnblock {T A} tag playerID k.
Arguments OpPendingBlocks {T A} k.
Arguments OpDropBlocksFor {T A} playerID k.
Arguments OpAddLog {T A} e k.
Arguments OpRead {T A} k.
Arguments OpWrite {T A} w k.
