(* ===== verification/Api.v ===== *)
(** * The API game code runs against

    [src/core/events.go], [queue.go] and the MoveContext methods of [move.go]:
    the calls a move or hook can make, what each does to the queues shared with
    the reducer, and the interpreter that runs a piece of game code. *)

From S2P Require Import Prelude CoreTypes.
#[local] Open Scope Z_scope.

(** ** queue.go *)
Section queue_ops.
Context {T : GoTypes}.

Definition BlockOption : Type := BlockSpec → BlockSpec.

Definition AnsweredBy (move : string) : BlockOption := λ b,
  mkBlock (b_Tag b) (b_PlayerID b) move (b_Order b) (b_Data b) (b_Target b) (b_Assignment b).

Definition newBlock (b : BlockSpec) (opts : list BlockOption) : BlockSpec :=
  fold_left (λ b opt, opt b) opts b.

Definition Queue_Push (a : QueuedAction) (q : Queue) : Queue :=
  mkQueue (q_pending q ++ [a]) (q_blocks q).

Definition Queue_Block (b : BlockSpec) (q : Queue) : Queue :=
  mkQueue (q_pending q) (q_blocks q ++ [b]).

(** The block [Queue.Block], [RequestTarget] and [RequestAssignment] append. *)
Definition block_of (tag playerID : string) (data : any) (opts : list BlockOption)
    : BlockSpec :=
  newBlock (mkBlock tag playerID "" 0 data None None) opts.

Definition block_of_target (playerID : string) (req : TargetRequest)
    (opts : list BlockOption) : BlockSpec :=
  newBlock (mkBlock (tr_Kind req) playerID "" 0 None (Some req) None) opts.

Definition block_of_assignment (playerID : string) (req : AssignmentRequest)
    (opts : list BlockOption) : BlockSpec :=
  newBlock (mkBlock (ar_Kind req) playerID "" 0 None None (Some req)) opts.

Definition Queue_Unblock (tag playerID : string) (q : Queue) : Queue * bool :=
  match find_index (λ b, bool_decide (b_Tag b = tag) && bool_decide (b_PlayerID b = playerID))
          (q_blocks q) with
  | Some i => (mkQueue (q_pending q) (remove_at i (q_blocks q)), true)
  | None => (q, false)
  end.

Definition Queue_PendingBlocks (q : Queue) : list BlockSpec := q_blocks q.

Definition Queue_drain (q : Queue) : Queue * (list QueuedAction * list BlockSpec) :=
  (mkQueue [] [], (q_pending q, q_blocks q)).
End queue_ops.

(** ** The calls game code makes, as programs *)
Section calls.
Context {T : GoTypes}.

Fixpoint prog_bind {A B} (f : A → prog B) (p : prog A) : prog B :=
  match p with
  | Ret a => f a
  | Crash => Crash
  | OpEvent ev k => OpEvent ev (prog_bind f k)
  | OpPush a k => OpPush a (prog_bind f k)
  | OpBlock b k => OpBlock b (prog_bind f k)
  | OpUnblock t p k => OpUnblock t p (λ r, prog_bind f (k r))
  | OpPendingBlocks k => OpPendingBlocks (λ r, prog_bind f (k r))
  | OpDropBlocksFor p k => OpDropBlocksFor p (prog_bind f k)
  | OpAddLog e k => OpAddLog e (prog_bind f k)
  | OpRead k => OpRead (λ w, prog_bind f (k w))
  | OpWrite w k => OpWrite w (prog_bind f k)
  end.

(** events.go *)
Definition Events_EndTurn (next : list string) : prog () :=
  OpEvent (evEndTurn (default "" (head next))) (Ret tt).
Definition Events_Pass : prog () := OpEvent evPass (Ret tt).
Definition Events_EndPhase : prog () := OpEvent evEndPhase (Ret tt).
Definition Events_SetPhase (name : string) : prog () := OpEvent (evSetPhase name) (Ret tt).
Definition Events_EndStage : prog () := OpEvent evEndStage (Ret tt).
Definition Events_SetStage (name : string) : prog () := OpEvent (evSetStage name None) (Ret tt).
Definition Events_SetStageLong (stage : string) (minMoves maxMoves : Z) : prog () :=
  let opts := mkStageOpts stage
                (if decide (0 ≤ minMoves) then Some minMoves else None)
                (if decide (0 ≤ maxMoves) then Some maxMoves else None) in
  OpEvent (evSetStage "" (Some opts)) (Ret tt).
Definition Events_EndGame (result : list any) : prog () :=
  OpEvent (evEndGame (default (Some val_true) (head result))) (Ret tt).
Definition Events_SetActivePlayers (cfg : ActivePlayersConfig) : prog () :=
  OpEvent (evSetActivePlayers cfg) (Ret tt).
Definition Events_RemovePlayer (playerID : string) : prog () :=
  OpEvent (evRemovePlayer playerID) (Ret tt).
Definition Events_RunMove (name : string) (args : list any) : prog () :=
  OpEvent (evRunMove name args) (Ret tt).

(** queue.go, through [mc.Queue] *)
Definition mcQueue_Push (playerID move : string) (args : list any) : prog () :=
  OpPush (mkAction playerID move args) (Ret tt).
Definition mcQueue_Block (tag playerID : string) (data : any) (opts : list BlockOption)
    : prog () :=
  OpBlock (block_of tag playerID data opts) (Ret tt).
Definition mcQueue_RequestTarget (playerID : string) (req : TargetRequest)
    (opts : list BlockOption) : prog () :=
  OpBlock (block_of_target playerID req opts) (Ret tt).
Definition mcQueue_RequestAssignment (playerID : string) (req : AssignmentRequest)
    (opts : list BlockOption) : prog () :=
  OpBlock (block_of_assignment playerID req opts) (Ret tt).
End calls.

#[global] Instance prog_ret {T : GoTypes} : MRet prog := λ A a, Ret a.
#[global] Instance prog_mbind {T : GoTypes} : MBind prog := λ A B f p, prog_bind f p.

(** ** Running game code *)
Section running.
Context {T : GoTypes}.

(** move.go: the entry [MoveContext.AddLog] appends, its blanks filled in. *)
Definition AddLog_entry (ctx : Ctx) (e : LogEntry) : LogEntry :=
  mkLog (if decide (le_Kind e = "") then "custom" else le_Kind e)
    (le_Move e) (le_PlayerID e) (le_Args e) (le_NowMs e)
    (if decide (le_Turn e = 0) then ctx_Turn ctx else le_Turn e)
    (if decide (le_Phase e = "") then ctx_Phase ctx else le_Phase e)
    (le_Stage e) (le_Redact e) (le_Undoable e) (le_Parent e) (le_ResumeTag e)
    (le_ServerDispatch e).

(** Run a program in an environment, collecting the AddLog entries.  A call
    through a nil Events or Queue is a nil dereference; DropBlocksFor on a
    context that shares no drop list has no effect. *)
Fixpoint run {A} (ctx : Ctx) (p : prog A) (extra : list LogEntry) (e : hookEnv)
    : outcome error (A * list LogEntry) * hookEnv :=
  match p with
  | Ret a => (Ok (a, extra), e)
  | Crash => (Panicked, e)
  | OpEvent ev k =>
      match env_events e with
      | Some q => run ctx k extra (set_env_events (Some (q ++ [ev])) e)
      | None => (Panicked, e)
      end
  | OpPush a k =>
      match env_queue e with
      | Some q => run ctx k extra (set_env_queue (Some (Queue_Push a q)) e)
      | None => (Panicked, e)
      end
  | OpBlock b k =>
      match env_queue e with
      | Some q => run ctx k extra (set_env_queue (Some (Queue_Block b q)) e)
      | None => (Panicked, e)
      end
  | OpUnblock tag pid k =>
      match env_queue e with
      | Some q => let '(q', r) := Queue_Unblock tag pid q in
                  run ctx (k r) extra (set_env_queue (Some q') e)
      | None => (Panicked, e)
      end
  | OpPendingBlocks k =>
      match env_queue e with
      | Some q => run ctx (k (Queue_PendingBlocks q)) extra e
      | None => (Panicked, e)
      end
  | OpDropBlocksFor pid k =>
      run ctx k extra (set_env_drops ((λ l, l ++ [pid]) <$> env_drops e) e)
  | OpAddLog le k => run ctx k (extra ++ [AddLog_entry ctx le]) e
  | OpRead k => run ctx (k (env_world e)) extra e
  | OpWrite w k => run ctx k extra (set_env_world w e)
  end.

(** The environment a context with nil handles exposes, and the surrounding
    one again afterwards: only the memory is shared. *)
Definition detach (e : hookEnv) : hookEnv :=
  mkEnv None None None (env_plugins e) (env_world e).
Definition reattach (e0 e1 : hookEnv) : hookEnv := set_env_world (env_world e1) e0.

(** Call game code with a MoveContext.  AddLog entries stay on the context,
    whose owner decides whether they are flushed. *)
Definition call {A} (mc : MoveContext) (p : prog A)
    : ST hookEnv error (A * MoveContext) := λ e,
  let '(r, e') := run (mc_Ctx mc) p (mc_extra mc) (if mc_Wired mc then e else detach e) in
  (match r with
   | Ok (a, extra) => Ok (a, set_mc_extra extra mc)
   | Err x => Err x
   | Panicked => Panicked
   | NoFuel => NoFuel
   end,
   if mc_Wired mc then e' else reattach e e').
End running.

(** ** move.go: move table entries and per-move flags *)
Section moves.
Context {T : GoTypes}.

Definition bareMove (f : MoveFn) : Move :=
  mkMove (Some f) FlagNil FlagNil false false false 0 false false.

Definition asMove (v : MoveEntry) : outcome error Move :=
  match v with
  | EntryMove m => match mv_Move m with None => Err ErrBadMoveEntry | Some _ => Ok m end
  | EntryFn f => Ok (bareMove f)
  | EntryBad => Err ErrBadMoveEntry
  end.

Definition call_flag (dflt : bool) (flag : FlagSpec) (mc : MoveContext)
    : ST hookEnv error (bool * MoveContext) :=
  match flag with
  | FlagNil => mret (dflt, mc)
  | FlagBool b => mret (b, mc)
  | FlagFn f => call mc (f mc)
  | FlagOther => mret (dflt, mc)
  end.

Definition IsUndoable (m : Move) (mc : MoveContext) := call_flag true (mv_Undoable m) mc.
Definition IsRedacted (m : Move) (mc : MoveContext) := call_flag false (mv_Redact m) mc.
End moves.
