(* ===== verification/Plugins.v ===== *)
(** * Plugins

    [src/core/plugin.go]: the hooks plugins have into a move, and how their
    private data travels through [State.Plugins].  Plugin methods may mutate
    the memory their data points into, which is threaded as the world. *)

From S2P Require Import Prelude CoreTypes Api.
#[local] Open Scope Z_scope.

Section plugins.
Context {T : GoTypes}.
Implicit Types (game : Game) (state : State) (mc : MoveContext).

Definition applyFnWrapMove game (fn : MoveFn) : MoveFn :=
  fold_left (λ fn p, match pl_WrapMove p with Some w => w fn | None => fn end)
    (gm_Plugins game) fn.

Definition applyFnWrapHook game (fn : HookFn) (kind : GameMethod) : HookFn :=
  fold_left (λ fn p, match pl_WrapHook p with Some w => w fn kind | None => fn end)
    (gm_Plugins game) fn.

Definition pluginDataFor state (name : string) : any :=
  omap_get (st_Plugins state) name ≫= id.

(** [state.Plugins[name] = data], the map having been allocated before. *)
Definition put_plugin (name : string) (data : any) state : State :=
  set_st_Plugins (<[name := data]> <$> st_Plugins state) state.

Definition alloc_plugins state : State :=
  set_st_Plugins (Some (default ∅ (st_Plugins state))) state.

Definition setup_one state (w : world) (p : Plugin) : State * world :=
  match pl_Setup p with
  | Some f => let '(d, w) := f (st_G state) (st_Ctx state) w in
              (put_plugin (pl_Name p) d state, w)
  | None => (state, w)
  end.

Definition runPluginSetup game state (w : world) : State * world :=
  match gm_Plugins game with
  | [] => (state, w)
  | ps => fold_left (λ '(s, w) p, setup_one s w p) ps (alloc_plugins state, w)
  end.

Definition attachPlugins (plugins : option (gmap string any)) mc : MoveContext :=
  let mc := set_mc_Plugins plugins mc in
  match (omap_get plugins "random" ≫= id) ≫= as_Random with
  | Some r => set_mc_Random (Some r) mc
  | None => mc
  end.

Definition api_one state (playerID : string)
    (out : gmap string any) (w : world) (p : Plugin) : gmap string any * world :=
  match pl_API p with
  | Some f =>
      let '(a, w) := f (pluginDataFor state (pl_Name p)) (st_G state) (st_Ctx state)
                       playerID w in
      (<[pl_Name p := a]> out, w)
  | None => (out, w)
  end.

Definition buildPluginAPIs game state (playerID : string) (w : world)
    : option (gmap string any) * world :=
  match gm_Plugins game with
  | [] => (None, w)
  | ps => let '(out, w) :=
            fold_left (λ '(out, w) p, api_one state playerID out w p) ps (∅, w) in
          (Some out, w)
  end.

Definition flush_one mc state (w : world) (p : Plugin) : State * world :=
  let name := pl_Name p in
  let api := omap_get (mc_Plugins mc) name ≫= id in
  let data := pluginDataFor state name in
  match pl_Flush p with
  | Some f => let '(d, w) := f data api (mc_G mc) (mc_Ctx mc) w in
              (put_plugin name d state, w)
  | None => match api with
            | Some _ => (put_plugin name api state, w)
            | None => (state, w)
            end
  end.

Definition flushPlugins game state mc (w : world) : State * world :=
  match gm_Plugins game with
  | [] => (state, w)
  | ps => fold_left (λ '(s, w) p, flush_one mc s w p) ps (alloc_plugins state, w)
  end.

(** The first plugin that rejects decides. *)
Fixpoint first_invalid (ps : list Plugin) state (w : world) : option string :=
  match ps with
  | [] => None
  | p :: ps =>
      match pl_IsInvalid p with
      | Some f => match f (pluginDataFor state (pl_Name p)) (st_G state) (st_Ctx state) w with
                  | Some reason => Some reason
                  | None => first_invalid ps state w
                  end
      | None => first_invalid ps state w
      end
  end.

Definition validatePlugins game state (w : world) : option string :=
  first_invalid (gm_Plugins game) state w.

Definition redact_one state (playerID : string) (w : world)
    (out : gmap string any) (p : Plugin) : gmap string any :=
  let name := pl_Name p in
  let data := pluginDataFor state name in
  let data := match pl_PlayerView p with
              | Some f => f data (st_G state) (st_Ctx state) playerID w
              | None => data
              end in
  match data with Some _ => <[name := data]> out | None => out end.

Definition redactPluginData game state (playerID : string) (w : world)
    : option (gmap string any) :=
  match gm_Plugins game, st_Plugins state with
  | [], ps => ps
  | _, None => None
  | ps, Some _ => Some (fold_left (redact_one state playerID w) ps ∅)
  end.

(** Plugin steps inside a move: only the world of the environment changes. *)
Definition flushPluginsM game state mc : ST hookEnv error State := λ e,
  let '(s, w) := flushPlugins game state mc (env_world e) in
  (Ok s, set_env_world w e).

Definition validatePluginsM game state : ST hookEnv error () := λ e,
  match validatePlugins game state (env_world e) with
  | Some reason => (Err (ErrPlugin reason), e)
  | None => (Ok tt, e)
  end.
End plugins.
