(* ===== verification/GameDef.v ===== *)
(** * Game definitions

    The helpers of [src/core/game.go], [turn.go], [stage.go] and [phase.go]
    that read a game definition: scoped move tables and turn configurations,
    player counts, turn orders and active-player presets, and the check of
    [validate.go].  Last, [src/typedgame]: games whose code is written over a Go type of
    their own, and the [Game] built of them. *)

From stdpp Require Export pretty.
From S2P Require Import Prelude CoreTypes Api.
#[local] Open Scope Z_scope.

(** ** game.go *)
Section game.
Context {T : GoTypes}.
Implicit Types (g : Game) (phase : string).

Definition PlayerCount g (requested : Z) : Z :=
  let n := if decide (requested ≤ 0) then
             if decide (0 < gm_MaxPlayers g) then gm_MaxPlayers g
             else if decide (0 < gm_MinPlayers g) then gm_MinPlayers g
             else 2
           else requested in
  let n := if decide (0 < gm_MinPlayers g ∧ n < gm_MinPlayers g)
           then gm_MinPlayers g else n in
  if decide (0 < gm_MaxPlayers g ∧ gm_MaxPlayers g < n) then gm_MaxPlayers g else n.

(** The phases marked Start, in the order of the model's map enumeration.  Go
    enumerates maps in an unspecified order, so the code's answer is one of
    these names; [Validate] admits at most one. *)
Definition start_names g : list string :=
  fst <$> filter (λ '(_, p), pc_Start p = true) (map_to_list (gm_Phases g)).

Definition startPhase g : string := default "" (head (start_names g)).

Definition scopeMoves g phase : gmap string MoveEntry :=
  if decide (phase = "") then gm_Moves g
  else match gm_Phases g !! phase with
       | Some p => default (gm_Moves g) (pc_Moves p)
       | None => gm_Moves g
       end.

Definition phase_turn g phase : option TurnConfig :=
  if decide (phase = "") then None else gm_Phases g !! phase ≫= pc_Turn.

Definition scopeTurn g phase : option TurnConfig :=
  match phase_turn g phase with Some t => Some t | None => gm_Turn g end.

(** transitions.go: [lookupStage] *)
Definition lookupStage g phase stage : option StageConfig :=
  match phase_turn g phase ≫= λ t, tc_Stages t !! stage with
  | Some s => Some s
  | None => gm_Turn g ≫= λ t, tc_Stages t !! stage
  end.
End game.

(** ** turn.go *)
Section turn_orders.
Context {T : GoTypes}.

Definition IsDefault (o : TurnOrder) : bool :=
  match o with mkOrder None None None => true | _ => false end.

(** Go's integer division panics on a zero divisor. *)
Definition go_mod (a b : Z) : prog Z := if decide (b = 0) then Crash else Ret (Z.rem a b).

Definition TurnOrderDefault : TurnOrder := mkOrder
  (Some (λ mc, Ret 0))
  (Some (λ mc, n ← go_mod (ctx_PlayOrderPos (mc_Ctx mc) + 1) (ctx_NumPlayers (mc_Ctx mc));
               Ret (Some n)))
  None.

Definition TurnOrderReset : TurnOrder := mkOrder
  (Some (λ mc, Ret 0)) (to_Next TurnOrderDefault) None.

Definition TurnOrderContinue : TurnOrder := mkOrder
  (Some (λ mc, Ret (ctx_PlayOrderPos (mc_Ctx mc)))) (to_Next TurnOrderDefault) None.

Definition TurnOrderOnce : TurnOrder := mkOrder
  (Some (λ mc, Ret 0))
  (Some (λ mc, let n := ctx_PlayOrderPos (mc_Ctx mc) + 1 in
               Ret (if decide (ctx_NumPlayers (mc_Ctx mc) ≤ n) then None else Some n)))
  None.

Definition custom_next : MoveContext → prog (option Z) := λ mc,
  n ← go_mod (ctx_PlayOrderPos (mc_Ctx mc) + 1)
             (Z.of_nat (length (ctx_PlayOrder (mc_Ctx mc))));
  Ret (Some n).

Definition TurnOrderCustom (order : list string) : TurnOrder := mkOrder
  (Some (λ mc, Ret 0)) (Some custom_next) (Some (λ mc, Ret order)).

Definition TurnOrderCustomFrom (getter : any → list string) : TurnOrder := mkOrder
  (Some (λ mc, Ret 0)) (Some custom_next) (Some (λ mc, Ret (getter (mc_G mc)))).

Definition defaultPlayOrder (n : Z) : list string :=
  (λ i : nat, pretty (N.of_nat i)) <$> seq 0 (Z.to_nat n).

(** The order a turn advances by: its own, or the default one. *)
Definition effective_order (turn : option TurnConfig) : TurnOrder :=
  match turn with
  | Some t => if IsDefault (tc_Order t) then TurnOrderDefault else tc_Order t
  | None => TurnOrderDefault
  end.
End turn_orders.

(** ** stage.go *)
Section stages.
Context {T : GoTypes}.

Definition StageNull : string := "".

Definition emptyAPC : ActivePlayersConfig := mkAPC None None None ∅ 0 0 ∅ ∅ false None.

Definition ActivePlayersAll : ActivePlayersConfig :=
  mkAPC None None (Some StageNull) ∅ 0 0 ∅ ∅ false None.
Definition ActivePlayersAllOnce : ActivePlayersConfig :=
  mkAPC None None (Some StageNull) ∅ 1 1 ∅ ∅ false None.
Definition ActivePlayersOthers : ActivePlayersConfig :=
  mkAPC None (Some StageNull) None ∅ 0 0 ∅ ∅ false None.
Definition ActivePlayersOthersOnce : ActivePlayersConfig :=
  mkAPC None (Some StageNull) None ∅ 1 1 ∅ ∅ false None.

Definition solo (stage : string) (minMoves maxMoves : Z) (next : option ActivePlayersConfig)
    (player : string) : ActivePlayersConfig :=
  mkAPC None None None {[ player := stage ]} minMoves maxMoves ∅ ∅ false next.

(** The chain is built from the last player backwards. *)
Definition ActivePlayersInOrder (players : list string) (stage : string)
    (minMoves maxMoves : Z) : ActivePlayersConfig :=
  match rev players with
  | [] => emptyAPC
  | lst :: before =>
      fold_left (λ cfg p, solo stage minMoves maxMoves (Some cfg) p) before
        (solo stage minMoves maxMoves None lst)
  end.
End stages.

(** ** phase.go *)
Section phases.
Context {T : GoTypes}.

Definition resolveNextPhase (p : PhaseConfig) (mc : MoveContext)
    : ST hookEnv error (string * MoveContext) :=
  match pc_Next p with
  | NextNil => mret ("", mc)
  | NextStatic n => mret (n, mc)
  | NextFn f => call mc (f mc)
  | NextOther => mret ("", mc)
  end.
End phases.

(** ** Game.Validate

    [src/core/validate.go]: the configuration problems reported at
    registration. *)

Section validate.
Context {T : GoTypes}.
Implicit Types (g : Game).

(** One constructor per message of the Go function. *)
Inductive problem : Type :=
  | SetupNil
  | MultipleStarts (names : list string)
  | DanglingNext (phase next : string)
  | BadMove (name : string)
  | BadPhaseMove (phase name : string)
  | BadPhaseStageMove (phase stage name : string)
  | BadStageMove (stage name : string)
  | PlayersOrder (min max : Z).

Definition bad_entry (v : MoveEntry) : bool :=
  match asMove v with Ok _ => false | _ => true end.

Definition bad_names (m : gmap string MoveEntry) : list string :=
  fst <$> filter (λ '(_, v), bad_entry v = true) (map_to_list m).

Definition stage_problems (mk : string → string → problem) (stages : gmap string StageConfig)
    : list problem :=
  '(s, st) ← map_to_list stages; mk s <$> bad_names (sc_Moves st).

Definition next_problem g (phase : string) (p : PhaseConfig) : list problem :=
  match pc_Next p with
  | NextStatic s =>
      if decide (s ≠ "" ∧ gm_Phases g !! s = None) then [DanglingNext phase s] else []
  | _ => []
  end.

Definition phase_problems (phase : string) (p : PhaseConfig) : list problem :=
  (BadPhaseMove phase <$> bad_names (default ∅ (pc_Moves p))) ++
  match pc_Turn p with
  | Some t => stage_problems (BadPhaseStageMove phase) (tc_Stages t)
  | None => []
  end.

Definition Validate g : list problem :=
  (match gm_Setup g with None => [SetupNil] | Some _ => [] end) ++
  (if decide (1 < length (start_names g))%nat then [MultipleStarts (start_names g)] else []) ++
  ('(n, p) ← map_to_list (gm_Phases g); next_problem g n p) ++
  (BadMove <$> bad_names (gm_Moves g)) ++
  ('(n, p) ← map_to_list (gm_Phases g); phase_problems n p) ++
  (match gm_Turn g with Some t => stage_problems BadStageMove (tc_Stages t) | None => [] end) ++
  (if decide (0 < gm_MinPlayers g ∧ 0 < gm_MaxPlayers g ∧ gm_MaxPlayers g < gm_MinPlayers g)
   then [PlayersOrder (gm_MinPlayers g) (gm_MaxPlayers g)] else []).
End validate.

(** ** typedgame

    [src/typedgame/typedgame.go]: game code over states of a type [St] and setup data of a
    type [SD].  The engine's values are untyped; a type assertion reads them. *)
Section typedgame.
Context {T : GoTypes} {St SD : Type}.
Context (val_of : St → val) (as_St : val → option St) (as_SD : val → option SD) (zero_SD : SD).

(** [Context]: it has no queue. *)
Record TContext := mkTContext {
  tx_G : St;
  tx_Ctx : Ctx;
  tx_PlayerID : string;
  tx_Events : bool;
  tx_Random : option randref;
  tx_Context : option goctx;
  tx_Plugins : option (gmap string any)
}.

(** [c.Plugin(name)] *)
Definition tx_Plugin (c : TContext) (name : string) : any := omap_get (tx_Plugins c) name ≫= id.

Definition TMoveFn : Type := TContext → list any → prog (error + St).
Definition THookFn : Type := TContext → prog St.

(** The [any]-typed fields: a value that is not of the typed forms is passed through. *)
Inductive TFlag :=
  | TFlagNil
  | TFlagBool (b : bool)
  | TFlagFn (f : TContext → prog bool)
  | TFlagRaw (f : FlagSpec).
Inductive TNext :=
  | TNextNil
  | TNextStatic (name : string)
  | TNextFn (f : TContext → prog string)
  | TNextRaw (n : PhaseNext).

Record TMove := mkTMove {
  tm_Move : option TMoveFn;
  tm_Undoable : TFlag;
  tm_Redact : TFlag;
  tm_ServerOnly : bool;
  tm_NoLimit : bool;
  tm_IgnoreStaleStateID : bool
}.
(** A nil MoveFn in a table is an entry, too. *)
Inductive TMoveEntry :=
  | TEntryMove (m : TMove)
  | TEntryFn (f : option TMoveFn)
  | TEntryRaw (e : MoveEntry).

Record TStageConfig := mkTStage { ts_Moves : gmap string TMoveEntry; ts_Next : string; ts_Exclusive : bool }.

Record TTurnConfig := mkTTurn {
  tt_Order : TurnOrder;
  tt_OnBegin : option THookFn;
  tt_OnEnd : option THookFn;
  tt_OnMove : option THookFn;
  tt_EndIf : option (TContext → prog (bool * string));
  tt_MinMoves : Z;
  tt_MaxMoves : Z;
  tt_ActivePlayers : option ActivePlayersConfig;
  tt_Stages : gmap string TStageConfig
}.

Record TPhaseConfig := mkTPhase {
  tp_OnBegin : option THookFn;
  tp_OnEnd : option THookFn;
  tp_EndIf : option (TContext → prog (bool * string));
  tp_Moves : option (gmap string TMoveEntry);
  tp_Turn : option TTurnConfig;
  tp_Start : bool;
  tp_Next : TNext
}.

Record TGame := mkTGame {
  tg_Name : string;
  tg_MinPlayers : Z;
  tg_MaxPlayers : Z;
  tg_Setup : option (Ctx → SD → world → St * world);
  tg_ValidateSetupData : option (SD → Z → string);
  tg_DisableUndo : bool;
  tg_Plugins : list Plugin;
  tg_Moves : gmap string TMoveEntry;
  tg_Turn : option TTurnConfig;
  tg_Phases : gmap string TPhaseConfig;
  tg_EndIf : option (TContext → prog any);
  tg_OnEnd : option THookFn;
  tg_PlayerView : option (St → Ctx → string → world → St)
}.

(** [mc.G.(S)] panics for a value of another type, nil included. *)
Definition toTyped (mc : MoveContext) : option TContext :=
  s ← mc_G mc ≫= as_St;
  Some (mkTContext s (mc_Ctx mc) (mc_PlayerID mc) (mc_Wired mc) (mc_Random mc) (mc_Context mc) (mc_Plugins mc)).

Definition on_typed {A} (f : TContext → prog A) (mc : MoveContext) : prog A :=
  match toTyped mc with Some c => f c | None => Crash end.

Definition wrapHook (f : THookFn) : HookFn := λ mc, s ← on_typed f mc; Ret (Some (val_of s)).

(** The wrapper of a nil function is not nil. *)
Definition wrapMoveFn (f : option TMoveFn) : MoveFn := λ mc args,
  r ← on_typed (λ c, match f with Some f => f c args | None => Crash end) mc;
  Ret (match r with inl e => inl e | inr s => inr (Some (val_of s)) end).

Definition wrapUndoable (spec : TFlag) : FlagSpec :=
  match spec with
  | TFlagNil => FlagNil
  | TFlagBool b => FlagBool b
  | TFlagFn f => FlagFn (on_typed f)
  | TFlagRaw f => f
  end.
Definition wrapRedact (spec : TFlag) : FlagSpec := wrapUndoable spec.

Definition convertMoveValue (raw : TMoveEntry) : MoveEntry :=
  match raw with
  | TEntryFn f => EntryFn (wrapMoveFn f)
  | TEntryMove m =>
      EntryMove (mkMove (Some (wrapMoveFn (tm_Move m))) (wrapUndoable (tm_Undoable m)) (wrapRedact (tm_Redact m))
        (tm_ServerOnly m) (tm_NoLimit m) (tm_IgnoreStaleStateID m) 0 false false)
  | TEntryRaw e => e
  end.
Definition convertMoves (moves : gmap string TMoveEntry) : gmap string MoveEntry := convertMoveValue <$> moves.

Definition convertStage (st : TStageConfig) : StageConfig :=
  mkStage (convertMoves (ts_Moves st)) (ts_Exclusive st) (ts_Next st) None None.

Definition convertTurn (t : TTurnConfig) : TurnConfig :=
  mkTurn (tt_Order t) (wrapHook <$> tt_OnBegin t) (wrapHook <$> tt_OnEnd t) (wrapHook <$> tt_OnMove t) (on_typed <$> tt_EndIf t)
    (tt_MinMoves t) (tt_MaxMoves t) 0 (tt_ActivePlayers t) (convertStage <$> tt_Stages t).

Definition convertNext (n : TNext) : PhaseNext :=
  match n with
  | TNextNil => NextNil
  | TNextStatic s => NextStatic s
  | TNextFn f => NextFn (on_typed f)
  | TNextRaw n => n
  end.

Definition convertPhase (p : TPhaseConfig) : PhaseConfig :=
  mkPhase (wrapHook <$> tp_OnBegin p) (wrapHook <$> tp_OnEnd p) (on_typed <$> tp_EndIf p) (convertMoves <$> tp_Moves p)
    (convertTurn <$> tp_Turn p) (tp_Start p) (convertNext (tp_Next p)).

(** Setup data: nil is the zero value, another type panics. *)
Definition setup_data (setupData : any) : option SD :=
  match setupData with None => Some zero_SD | Some v => as_SD v end.

Definition typed_setup (f : Ctx → SD → world → St * world) (ctx : Ctx) (setupData : any) (w : world) : option (any * world) :=
  (λ sd, let '(s, w) := f ctx sd w in (Some (val_of s), w)) <$> setup_data setupData.
Definition typed_validate (f : SD → Z → string) (setupData : any) (numPlayers : Z) : option string :=
  (λ sd, f sd numPlayers) <$> setup_data setupData.
Definition typed_view (f : St → Ctx → string → world → St) (G : any) (ctx : Ctx) (pid : string) (w : world) : option any :=
  (λ s, Some (val_of (f s ctx pid w))) <$> (G ≫= as_St).

(** A setup, a validator and a view of the engine cannot panic; where the assertion fails
    they give nothing and leave the memory. *)
Definition Build (g : TGame) : Game :=
  mkGame (tg_Name g) (tg_MinPlayers g) (tg_MaxPlayers g)
    ((λ f ctx sd w, default (None, w) (typed_setup f ctx sd w)) <$> tg_Setup g)
    (convertMoves (tg_Moves g)) (convertTurn <$> tg_Turn g) (convertPhase <$> tg_Phases g)
    (on_typed <$> tg_EndIf g) (wrapHook <$> tg_OnEnd g) None
    ((λ f G ctx pid w, default None (typed_view f G ctx pid w)) <$> tg_PlayerView g) None
    (tg_DisableUndo g) (tg_Plugins g).
Definition built_validator (g : TGame) : option (any → Z → string) :=
  (λ f sd n, default "" (typed_validate f sd n)) <$> tg_ValidateSetupData g.
End typedgame.
