(* ===== verification/Transitions.v ===== *)
(** * State transitions

    [src/core/transitions.go]: turn, phase and stage rotation, the active
    player set, chained moves and the event drain.  Every function threads the
    hook environment, so hooks called on the way share the queues of the move
    whose events fired them. *)

From S2P Require Import Prelude CoreTypes Api GameDef Plugins.
#[local] Open Scope Z_scope.

Abbreviation M := (ST hookEnv error).

Section contexts.
Context {T : GoTypes}.
Implicit Types (game : Game) (state : State) (mc : MoveContext).

(** [hookEnv.mc] and [hookEnv.mcNoEvents] *)
Definition env_mc state (playerID : string) : M MoveContext := λ e,
  (Ok (attachPlugins (env_plugins e)
        (mkMC (st_G state) (st_Ctx state) playerID None None None true None [] 0)), e).

Definition env_mcNoEvents state : M MoveContext := λ e,
  (Ok (attachPlugins (env_plugins e)
        (mkMC (st_G state) (st_Ctx state) "" None None None false None [] 0)), e).

Definition flushExtraLog state mc : State :=
  set_st_Log (st_Log state ++ mc_extra mc) state.

(** Run a lifecycle hook if it is set: build its context, call it through the
    plugins' wrappers, store the new G and flush what it logged. *)
Definition fireHook game (h : option HookFn) (kind : GameMethod) (playerID : string)
    state : M State :=
  match h with
  | None => mret state
  | Some h =>
      mc ← env_mc state playerID;
      '(g, mc) ← call mc (applyFnWrapHook game h kind mc);
      mret (flushExtraLog (set_st_G g state) mc)
  end.

Definition runPhaseOnBegin game state : M State :=
  let phase := ctx_Phase (st_Ctx state) in
  if decide (phase = "") then mret state
  else match gm_Phases game !! phase with
       | Some p => fireHook game (pc_OnBegin p) GameMethodPhaseOnBegin "" state
       | None => mret state
       end.

Definition runTurnOnBegin game state : M State :=
  fireHook game (scopeTurn game (ctx_Phase (st_Ctx state)) ≫= tc_OnBegin)
    GameMethodTurnOnBegin "" state.

Definition runGameOnEnd game state : M State :=
  fireHook game (gm_OnEnd game) GameMethodGameOnEnd "" state.
End contexts.

(** ** The active-player set *)
Section active_players.
Context {T : GoTypes}.
Implicit Types (game : Game) (state : State) (cfg : ActivePlayersConfig).

Definition set_active (m : option (gmap string string)) state : State :=
  on_ctx (set_ctx_ActivePlayers m) state.

Definition set_counts (counts mins maxs : option (gmap string Z)) state : State :=
  set_st_StageMaxMoves maxs (set_st_StageMinMoves mins (set_st_MoveCounts counts state)).

(** The player to stage map a config describes: All, then Others, then
    CurrentPlayer, then the explicit Value entries, later writes winning. *)
Definition put_all (stage : string) (players : list string) (out : gmap string string)
    : gmap string string :=
  fold_left (λ out pid, <[pid := stage]> out) players out.

Definition active_of (order : list string) (current : string) cfg : gmap string string :=
  let out := match apc_All cfg with Some s => put_all s order ∅ | None => ∅ end in
  let out := match apc_Others cfg with
             | Some s => put_all s (filter (λ pid, pid ≠ current) order) out
             | None => out
             end in
  let out := match apc_CurrentPlayer cfg with
             | Some s => <[current := s]> out
             | None => out
             end in
  apc_Value cfg ∪ out.

(** The Min/MaxMoves bound of one entered player: the per-player override,
    else the config's bound when it is positive. *)
Definition stage_bound (bound : Z) (per : gmap string Z) (pid : string) : option Z :=
  match per !! pid with
  | Some v => Some v
  | None => if decide (0 < bound) then Some bound else None
  end.

Definition stage_bounds (bound : Z) (per : gmap string Z) (out : gmap string string)
    : gmap string Z :=
  map_imap (λ pid _, stage_bound bound per pid) out.

(** The [if len(m) == 0 { m = nil }] steps. *)
Definition nil_if_empty {A} (m : gmap string A) : option (gmap string A) :=
  if decide (m = ∅) then None else Some m.

Definition push_frame state : State :=
  set_st_ActiveStack (st_ActiveStack state ++
    [mkFrame (ctx_ActivePlayers (st_Ctx state)) (st_MoveCounts state)
       (st_StageMinMoves state) (st_StageMaxMoves state)]) state.

Definition applySetActivePlayers state cfg : State :=
  let state := if apc_Revert cfg then push_frame state else state in
  let state := set_st_PendingNext (apc_Next cfg) state in
  let c := st_Ctx state in
  let out := active_of (ctx_PlayOrder c) (ctx_CurrentPlayer c) cfg in
  set_counts None
    (nil_if_empty (stage_bounds (apc_MinMoves cfg) (apc_PerPlayerMinMoves cfg) out))
    (nil_if_empty (stage_bounds (apc_MaxMoves cfg) (apc_PerPlayerMaxMoves cfg) out))
    (set_active (nil_if_empty out) state).

Definition drainActivePlayers state : State :=
  match last (st_ActiveStack state) with
  | Some top =>
      set_counts (af_MoveCounts top) (af_StageMin top) (af_StageMax top)
        (set_active (af_ActivePlayers top)
          (set_st_ActiveStack (removelast (st_ActiveStack state)) state))
  | None =>
      match st_PendingNext state with
      | Some cfg => applySetActivePlayers (set_st_PendingNext None state) cfg
      | None => set_counts None None None (set_active None state)
      end
  end.

Definition applyActivePlayersFromTurn game state : State :=
  match scopeTurn game (ctx_Phase (st_Ctx state)) ≫= tc_ActivePlayers with
  | Some cfg => applySetActivePlayers state cfg
  | None => state
  end.

Definition setStage game state (playerID stageName : string) : M State :=
  let m := <[playerID := stageName]> (default ∅ (ctx_ActivePlayers (st_Ctx state))) in
  let state := set_active (Some m) state in
  let state := set_st_MoveCounts (odelete playerID (st_MoveCounts state)) state in
  fireHook game (lookupStage game (ctx_Phase (st_Ctx state)) stageName ≫= sc_OnBegin)
    GameMethodStageOnBegin playerID state.

Definition put_bound (playerID : string) (v : option Z) (m : option (gmap string Z))
    : option (gmap string Z) :=
  match v with Some n => Some (<[playerID := n]> (default ∅ m)) | None => m end.

Definition setStageLong game state (playerID : string) (opts : setStageOpts) : M State :=
  state ← setStage game state playerID (so_stage opts);
  let state := set_st_StageMinMoves
                 (put_bound playerID (so_min opts) (st_StageMinMoves state)) state in
  mret (set_st_StageMaxMoves
          (put_bound playerID (so_max opts) (st_StageMaxMoves state)) state).

(** The stage a player moves on to: the phase's entry first, then the
    game-level one. *)
Definition next_stage game (phase current : string) : string :=
  let n := default "" (phase_turn game phase ≫= λ t, sc_Next <$> tc_Stages t !! current) in
  if decide (n = "") then
    default "" (gm_Turn game ≫= λ t, sc_Next <$> tc_Stages t !! current)
  else n.

(** Take a player out of the active set and forget their counters. *)
Definition leave_stage (playerID : string) state : State :=
  let state := set_active (odelete playerID (ctx_ActivePlayers (st_Ctx state))) state in
  set_counts (odelete playerID (st_MoveCounts state))
    (odelete playerID (st_StageMinMoves state))
    (odelete playerID (st_StageMaxMoves state)) state.

Definition drain_if_empty state : State :=
  if decide (default ∅ (ctx_ActivePlayers (st_Ctx state)) = ∅)
  then drainActivePlayers state else state.

Definition endStage game state (playerID : string) : M State :=
  match ctx_ActivePlayers (st_Ctx state) with
  | None => mret state
  | Some active =>
      let current := default "" (active !! playerID) in
      let phase := ctx_Phase (st_Ctx state) in
      state ← fireHook game (lookupStage game phase current ≫= sc_OnEnd)
                GameMethodStageOnEnd playerID state;
      let next := next_stage game phase current in
      if decide (next = "") then mret (drain_if_empty (leave_stage playerID state))
      else setStage game state playerID next
  end.
End active_players.

(** ** Turn and phase rotation *)
Section rotation.
Context {T : GoTypes}.
Implicit Types (game : Game) (state : State) (mc : MoveContext).

Definition set_current_from_pos state : M State :=
  let c := st_Ctx state in
  p ← st_some (go_index (ctx_PlayOrder c) (ctx_PlayOrderPos c));
  mret (on_ctx (set_ctx_CurrentPlayer p) state).

(** [onExhausted] is the call to [endPhase] made when the order returns nil. *)
Definition advancePlayOrderPos (onExhausted : State → M State) state
    (turn : option TurnConfig) : M State :=
  let c := st_Ctx state in
  let len := Z.of_nat (length (ctx_PlayOrder c)) in
  if decide (ctx_PlayOrder c = []) then mret state
  else
    mc ← env_mcNoEvents state;
    match to_Next (effective_order turn) with
    | None =>
        set_current_from_pos
          (on_ctx (set_ctx_PlayOrderPos (Z.rem (ctx_PlayOrderPos c + 1) len)) state)
    | Some next =>
        '(n, _) ← call mc (next mc);
        match n with
        | None => onExhausted state
        | Some n =>
            let pos := if decide (len ≤ n) then Z.rem n len else n in
            set_current_from_pos (on_ctx (set_ctx_PlayOrderPos pos) state)
        end
    end.

Definition applyTurnOrderFirst game state mc : M State :=
  let order := effective_order (scopeTurn game (ctx_Phase (st_Ctx state))) in
  '(state, mc) ←
    match to_PlayOrder order with
    | Some f =>
        '(po, mc) ← call mc (f mc);
        mret (on_ctx (λ c, set_ctx_NumPlayers (Z.of_nat (length po))
                             (set_ctx_PlayOrder po c)) state, mc)
    | None => mret (state, mc)
    end;
  pos ← match to_First order with
        | Some f => '(n, _) ← call mc (f mc); mret n
        | None => mret 0
        end;
  let state := on_ctx (set_ctx_PlayOrderPos pos) state in
  if decide (ctx_PlayOrder (st_Ctx state) = []) then mret state
  else set_current_from_pos state.

Definition runPhaseEnter game state : M State :=
  mc ← env_mc state "";
  state ← applyTurnOrderFirst game state mc;
  let state := applyActivePlayersFromTurn game state in
  state ← runPhaseOnBegin game state;
  runTurnOnBegin game state.

(** The turn-scoped state [endPhase] clears; [endTurn] also clears the undo
    scratch space. *)
Definition clear_turn_scoped state : State :=
  set_st_PendingNext None (set_st_ActiveStack []
    (set_counts None None None
      (on_ctx (λ c, set_ctx_ActivePlayers None (set_ctx_NumMoves 0 c)) state))).

Definition clear_undo state : State := set_st_Undone [] (set_st_TurnSnapshots [] state).

Definition bump_turn state : State := on_ctx (λ c, set_ctx_Turn (ctx_Turn c + 1) c) state.

(** [endPhase] and [advancePlayOrderPos] call each other; [depth] bounds the
    nesting.  [rotation_depth] is enough for every game. *)
Fixpoint endPhase (depth : nat) game state (nextPhase : string) : M State :=
  match depth with
  | O => st_nofuel
  | S depth =>
      let phase := ctx_Phase (st_Ctx state) in
      if decide (phase = "") then
        if decide (nextPhase = "") then mret state
        else runPhaseEnter game (on_ctx (set_ctx_Phase nextPhase) state)
      else
        match gm_Phases game !! phase with
        | None => mret state
        | Some current =>
            state ← fireHook game (scopeTurn game phase ≫= tc_OnEnd)
                      GameMethodTurnOnEnd "" state;
            target ← (if decide (nextPhase = "") then
                        mc ← env_mcNoEvents state;
                        '(t, _) ← resolveNextPhase current mc;
                        mret t
                      else mret nextPhase);
            state ← fireHook game (pc_OnEnd current) GameMethodPhaseOnEnd "" state;
            let state := bump_turn (on_ctx (set_ctx_Phase target)
                           (clear_turn_scoped state)) in
            if decide (target = "") then
              state ← advancePlayOrderPos (λ s, endPhase depth game s "") state
                        (gm_Turn game);
              runTurnOnBegin game (applyActivePlayersFromTurn game state)
            else runPhaseEnter game state
        end
  end.

Definition rotation_depth : nat := 2.

Definition force_player (nextPlayer : string) state : State :=
  let state := on_ctx (set_ctx_CurrentPlayer nextPlayer) state in
  match find_index (λ p, bool_decide (p = nextPlayer)) (ctx_PlayOrder (st_Ctx state)) with
  | Some i => on_ctx (set_ctx_PlayOrderPos (Z.of_nat i)) state
  | None => state
  end.

Definition endTurn game state (nextPlayer : string) : M State :=
  let turn := scopeTurn game (ctx_Phase (st_Ctx state)) in
  state ← fireHook game (turn ≫= tc_OnEnd) GameMethodTurnOnEnd "" state;
  let state := clear_undo (clear_turn_scoped state) in
  let begin_turn state :=
    let state := applyActivePlayersFromTurn game (bump_turn state) in
    runTurnOnBegin game state in
  if decide (nextPlayer = "") then
    state ← advancePlayOrderPos (λ s, endPhase rotation_depth game s "") state turn;
    match ctx_Gameover (st_Ctx state) with
    | Some _ => mret state
    | None => begin_turn state
    end
  else begin_turn (force_player nextPlayer state).

Definition removePlayer game state (playerID : string) : M State :=
  let c := st_Ctx state in
  match find_index (λ p, bool_decide (p = playerID)) (ctx_PlayOrder c) with
  | None => mret state
  | Some idx =>
      let order := remove_at idx (ctx_PlayOrder c) in
      let wasCurrent := bool_decide (ctx_CurrentPlayer c = playerID) in
      let pos := if decide (Z.of_nat idx < ctx_PlayOrderPos c)
                 then ctx_PlayOrderPos c - 1 else ctx_PlayOrderPos c in
      let state := on_ctx (set_ctx_PlayOrder order) state in
      if decide (order = []) then
        mret (on_ctx (λ c, set_ctx_PlayOrderPos 0 (set_ctx_CurrentPlayer "" c)) state)
      else
        let pos := if decide (Z.of_nat (length order) ≤ pos) then 0 else pos in
        state ← set_current_from_pos (on_ctx (set_ctx_PlayOrderPos pos) state);
        state ← (if wasCurrent then endTurn game state "" else mret state);
        mret (match ctx_ActivePlayers (st_Ctx state) with
              | None => state
              | Some m => set_active (nil_if_empty (delete playerID m)) state
              end)
  end.
End rotation.

(** ** The event drain *)
Section drain.
Context {T : GoTypes}.
Implicit Types (game : Game) (state : State) (mc : MoveContext).

Definition maxChainedMoves : Z := 32.

Definition chained_mc state (parent : MoveContext) : MoveContext :=
  set_mc_chainedMoves (mc_chainedMoves parent)
    (attachPlugins (mc_Plugins parent)
      (mkMC (st_G state) (st_Ctx state) (mc_PlayerID parent) None (mc_Context parent) None
         true None [] 0)).

Definition chained_entry state (parent : MoveContext) (name : string) (args : list any)
    : LogEntry :=
  mkLog "chained-move" name (mc_PlayerID parent) args 0 (ctx_Turn (st_Ctx state))
    (ctx_Phase (st_Ctx state)) "" false false 0 "" false.

Definition runChainedMove game state (parent : MoveContext) (name : string)
    (args : list any) : M State :=
  match scopeMoves game (ctx_Phase (st_Ctx state)) !! name with
  | None => mret state
  | Some raw =>
      match asMove raw with
      | Ok move =>
          let mc := chained_mc state parent in
          fn ← st_some (mv_Move move);
          '(r, mc) ← call mc (fn mc args);
          match r with
          | inl _ => mret state
          | inr g =>
              let entry := chained_entry state parent name args in
              let state := set_st_StateID (st_StateID state + 1) (set_st_G g state) in
              mret (set_st_Log (st_Log state ++ [entry] ++ mc_extra mc) state)
          end
      | _ => mret state
      end
  end.

(** [EndTurn] below the turn's MinMoves is dropped silently. *)
Definition below_min_moves game state : bool :=
  match scopeTurn game (ctx_Phase (st_Ctx state)) with
  | Some t => bool_decide (0 < tc_MinMoves t ∧ ctx_NumMoves (st_Ctx state) < tc_MinMoves t)
  | None => false
  end.

Definition refresh state mc : MoveContext := set_mc_Ctx (st_Ctx state) (set_mc_G (st_G state) mc).

(** One queued event.  A dropped event leaves the working context alone. *)
Definition drain_one game state mc (ev : event) : M (State * MoveContext) :=
  let done (m : M State) := state ← m; mret (state, refresh state mc) in
  match ev with
  | evEndTurn next =>
      if below_min_moves game state then mret (state, mc)
      else done (endTurn game state next)
  | evPass =>
      if below_min_moves game state then mret (state, mc)
      else done (endTurn game state "")
  | evEndPhase => done (endPhase rotation_depth game state "")
  | evSetPhase phase => done (endPhase rotation_depth game state phase)
  | evEndStage => done (endStage game state (mc_PlayerID mc))
  | evSetStage stage None => done (setStage game state (mc_PlayerID mc) stage)
  | evSetStage _ (Some opts) => done (setStageLong game state (mc_PlayerID mc) opts)
  | evEndGame res => done (runGameOnEnd game (on_ctx (set_ctx_Gameover res) state))
  | evSetActivePlayers cfg => done (mret (applySetActivePlayers state cfg))
  | evRemovePlayer pid => done (removePlayer game state pid)
  | evRunMove name args =>
      let mc := set_mc_chainedMoves (mc_chainedMoves mc + 1) mc in
      if decide (maxChainedMoves < mc_chainedMoves mc) then mret (state, mc)
      else state ← runChainedMove game state mc name args;
           mret (state, refresh state mc)
  end.

Fixpoint drain_batch game state mc (batch : list event) : M (State * MoveContext) :=
  match batch with
  | [] => mret (state, mc)
  | ev :: batch =>
      '(state, mc) ← drain_one game state mc ev;
      drain_batch game state mc batch
  end.

(** events.go: [Events.drain] *)
Definition Events_drain : M (list event) := λ e,
  match env_events e with
  | Some q => (Ok q, set_env_events (Some []) e)
  | None => (Panicked, e)
  end.

Fixpoint drainEvents (fuel : nat) game state mc : M (State * MoveContext) :=
  match fuel with
  | O => st_nofuel
  | S fuel =>
      batch ← Events_drain;
      match batch with
      | [] => mret (state, mc)
      | _ => '(state, mc) ← drain_batch game state mc batch;
             drainEvents fuel game state mc
      end
  end.
End drain.
