(* ===== verification/Reducer.v ===== *)
(** * The reducer

    [src/core/reducer.go]: admission of a move request, the move pipeline, and
    the cascade of queued moves it may start. *)

From S2P Require Import Prelude CoreTypes Api GameDef Plugins Transitions.
#[local] Open Scope Z_scope.

(** ** Admission: the checks before a move runs *)
Section admission.
Context {T : GoTypes}.
Implicit Types (game : Game) (state : State) (req : MoveRequest).

Definition MaxDrainDepth : nat := 200.

Definition not_over state : bool :=
  match ctx_Gameover (st_Ctx state) with None => true | Some _ => false end.

Definition block_matches (tag playerID move : string) (b : BlockSpec) : bool :=
  bool_decide (b_Tag b = tag) && bool_decide (b_PlayerID b = playerID) &&
  (bool_decide (b_Move b = "") || bool_decide (b_Move b = move)).

Definition findBlock (blocks : list BlockSpec) (tag playerID move : string) : option nat :=
  find_index (block_matches tag playerID move) blocks.

(** Consume the block a ResumeTag names. *)
Definition consume_block state req : outcome error (State * option BlockSpec) :=
  if decide (rq_ResumeTag req = "") then Ok (state, None)
  else match findBlock (st_Blocks state) (rq_ResumeTag req) (rq_PlayerID req) (rq_Move req) with
       | None => Err ErrUnknownResumeTag
       | Some idx =>
           Ok (set_st_Blocks (remove_at idx (st_Blocks state)) state, st_Blocks state !! idx)
       end.

Definition authorizedStage (c : Ctx) (playerID : string) : outcome error string :=
  match ctx_ActivePlayers c with
  | Some active => match active !! playerID with
                   | Some stage => Ok stage
                   | None => Err ErrInactivePlayer
                   end
  | None => if decide (playerID = ctx_CurrentPlayer c) then Ok "" else Err ErrWrongPlayer
  end.

Definition authorizedStageDrain (c : Ctx) (playerID : string) : string :=
  get_str (ctx_ActivePlayers c) playerID.

(** The move a name resolves to, and whether it came from the stage's own
    table. *)
Definition resolveMove game (c : Ctx) (stage name : string) : outcome error Move * bool :=
  let fallback :=
    match scopeMoves game (ctx_Phase c) !! name with
    | Some v => (asMove v, false)
    | None => (Err ErrUnknownMove, false)
    end in
  if decide (stage = "") then fallback
  else match lookupStage game (ctx_Phase c) stage ≫= λ sc, sc_Moves sc !! name with
       | Some v => (asMove v, true)
       | None => fallback
       end.

Record exemptions := mkExempt { ex_turn : bool; ex_stageScope : bool }.

Definition exemptionsFor (move : Move) (resuming : option BlockSpec) req : exemptions :=
  let namedAnswer := match resuming with
                     | Some b => negb (bool_decide (b_Move b = ""))
                     | None => false
                     end in
  mkExempt (mv_AnyPlayer move || match resuming with Some _ => true | None => false end)
    (mv_AnyPlayer move || mv_IgnoreBlocks move || namedAnswer || rq_ServerDispatch req).

Definition stage_exclusive game (c : Ctx) (stage : string) : bool :=
  match lookupStage game (ctx_Phase c) stage with
  | Some sc => sc_Exclusive sc
  | None => false
  end.

(** [if bad { return State{}, e }] *)
Definition refuse_if (bad : bool) (e : error) : outcome error () :=
  if bad then Err e else Ok tt.

Record admission := mkAdmission {
  ad_State : State;
  ad_Move : Move;
  ad_Resuming : option BlockSpec
}.

(** The checks on the state the answered block, if any, was taken off. *)
Definition admit_checks game state (resuming : option BlockSpec) req
    : outcome error admission :=
  let auth := authorizedStage (st_Ctx state) (rq_PlayerID req) in
  let stage := match auth with Ok s => s | _ => "" end in
  let '(resolved, inStage) := resolveMove game (st_Ctx state) stage (rq_Move req) in
  match resolved with
  | Ok move =>
      _ ← refuse_if (rq_FromClient req && mv_ServerOnly move) ErrServerOnly;
      _ ← refuse_if (bool_decide (resuming = None ∧ st_Blocks state ≠ []) &&
                     negb (mv_IgnoreBlocks move)) ErrBlocked;
      let exempt := exemptionsFor move resuming req in
      _ ← (match auth with
           | Ok _ => Ok tt
           | Err e => refuse_if (negb (ex_turn exempt)) e
           | _ => Ok tt
           end);
      _ ← refuse_if (bool_decide (0 < rq_StateID req ∧ rq_StateID req ≠ st_StateID state) &&
                     negb (mv_IgnoreStaleStateID move)) ErrStaleState;
      _ ← refuse_if (negb (bool_decide (stage = "")) && negb inStage &&
                     negb (ex_stageScope exempt) &&
                     stage_exclusive game (st_Ctx state) stage) ErrMoveNotInStage;
      Ok (mkAdmission state move resuming)
  | Err e => match auth with Err a => Err a | _ => Err e end
  | Panicked => Panicked
  | NoFuel => NoFuel
  end.

Definition admit_request game state req : outcome error admission :=
  _ ← refuse_if (negb (not_over state)) ErrGameOver;
  let state := on_ctx (set_ctx_NowMs (rq_NowMs req)) state in
  '(state, resuming) ← consume_block state req;
  admit_checks game state resuming req.
End admission.

(** ** Bookkeeping after a move *)
Section bookkeeping.
Context {T : GoTypes}.
Implicit Types (game : Game) (state : State).

Definition withoutBlocksFor (blocks : list BlockSpec) (players : list string)
    : list BlockSpec :=
  filter (λ b, b_PlayerID b ∉ players) blocks.

Definition harvestQueue state (q : Queue) : State :=
  let '(_, (pending, blocks)) := Queue_drain q in
  set_st_Blocks (st_Blocks state ++ blocks) (set_st_Queue (st_Queue state ++ pending) state).

Definition bumpStageMoveCount state (playerID : string) : State :=
  match ctx_ActivePlayers (st_Ctx state) ≫= λ m, m !! playerID with
  | None => state
  | Some _ =>
      let counts := default ∅ (st_MoveCounts state) in
      set_st_MoveCounts
        (Some (<[playerID := get_int (st_MoveCounts state) playerID + 1]> counts)) state
  end.

(** A player whose stage's MaxMoves is positive and reached. *)
Definition over_budget state (playerID : string) : bool :=
  match omap_get (st_StageMaxMoves state) playerID with
  | Some max => bool_decide (0 < max ∧ max ≤ get_int (st_MoveCounts state) playerID)
  | None => false
  end.

Definition drop_keys {A} (ks : gset string) (m : gmap string A) : gmap string A :=
  filter (λ kv, kv.1 ∉ ks) m.

(** The loop visits the players in map order; each visit only touches that
    player's keys, so the result is the same for every order. *)
Definition autoEndStagesByMaxMoves state : State :=
  match ctx_ActivePlayers (st_Ctx state) with
  | None => state
  | Some active =>
      let ended := filter (λ pid, over_budget state pid = true) (dom active) in
      let left_ := drop_keys ended active in
      let state' := set_counts (drop_keys ended <$> st_MoveCounts state)
                      (drop_keys ended <$> st_StageMinMoves state)
                      (drop_keys ended <$> st_StageMaxMoves state)
                      (set_active (Some left_) state) in
      if decide (ended ≠ ∅ ∧ left_ = ∅) then drainActivePlayers state' else state'
  end.

Definition checkTurnAutoEnd game state (move : Move) : M State :=
  match scopeTurn game (ctx_Phase (st_Ctx state)) with
  | None => mret state
  | Some turn =>
      '(fired, next) ←
        match tc_EndIf turn with
        | Some f => mc ← env_mc state ""; '(r, _) ← call mc (f mc); mret r
        | None => mret (false, "")
        end;
      if fired : bool then endTurn game state next
      else if decide (0 < tc_MaxMoves turn ∧ tc_MaxMoves turn ≤ ctx_NumMoves (st_Ctx state)
                      ∧ mv_NoLimit move = false)
      then endTurn game state ""
      else mret state
  end.

Definition checkPhaseEndIf game state : M State :=
  let phase := ctx_Phase (st_Ctx state) in
  if decide (phase = "") then mret state
  else match gm_Phases game !! phase ≫= pc_EndIf with
       | None => mret state
       | Some f =>
           mc ← env_mc state "";
           '((fired, next), _) ← call mc (f mc);
           if fired : bool then endPhase rotation_depth game state next else mret state
       end.

(** undo.go: [cloneStateForSnapshot] *)
Definition cloneStateForSnapshot state : State := set_st_TurnSnapshots [] state.
End bookkeeping.

(** ** The move pipeline *)
Section pipeline.
Context {T : GoTypes}.
Implicit Types (game : Game) (state : State) (req : MoveRequest).

(** Run engine code that starts from fresh Events and Queue handles. *)
Definition in_env {A} (plugins : option (gmap string any)) (drops : option (list string))
    (m : M A) : ST world error (A * hookEnv) := λ w,
  let '(r, e) := m (mkEnv (Some []) (Some (mkQueue [] [])) drops plugins w) in
  (match r with
   | Ok a => Ok (a, e)
   | Err x => Err x
   | Panicked => Panicked
   | NoFuel => NoFuel
   end, env_world e).

Definition buildAPIs game state (playerID : string)
    : ST world error (option (gmap string any)) := λ w,
  let '(p, w') := buildPluginAPIs game state playerID w in (Ok p, w').

Definition queue_of (e : hookEnv) : Queue := default (mkQueue [] []) (env_queue e).
Definition drops_of (e : hookEnv) : list string := default [] (env_drops e).

(** A server-driven move from State.Queue. *)
Definition step_entry state (action : QueuedAction) (stage : string) (parentIdx : Z)
    : LogEntry :=
  mkLog "drain-step" (qa_Move action) (qa_PlayerID action) (qa_Args action) 0
    (ctx_Turn (st_Ctx state)) (ctx_Phase (st_Ctx state)) stage false false parentIdx "" false.

Definition step_pipeline (fuel : nat) (ctx : goctx) game state (action : QueuedAction)
    (stage : string) (move : Move) (plugins : option (gmap string any)) (parentIdx : Z)
    : M State :=
  let mc := attachPlugins plugins
              (mkMC (st_G state) (st_Ctx state) (qa_PlayerID action) None (Some ctx) None
                 true None [] 0) in
  fn ← st_some (mv_Move move);
  '(r, mc) ← call mc (applyFnWrapMove game fn mc (qa_Args action));
  match r with
  | inl err => st_err err
  | inr nextG =>
      let next := set_st_G nextG state in
      let mc := set_mc_G nextG mc in
      let next := set_st_Log (st_Log next ++ [step_entry state action stage parentIdx]) next in
      next ← flushPluginsM game next mc;
      _ ← validatePluginsM game next;
      '(next, mc) ← drainEvents fuel game next mc;
      mret (flushExtraLog next mc)
  end.

Definition applyStep (fuel : nat) (ctx : goctx) game state (action : QueuedAction)
    (parentIdx : Z) : ST world error State :=
  let stage := authorizedStageDrain (st_Ctx state) (qa_PlayerID action) in
  let '(resolved, _) := resolveMove game (st_Ctx state) stage (qa_Move action) in
  move ← st_lift resolved;
  plugins ← buildAPIs game state (qa_PlayerID action);
  '(next, e) ← in_env plugins None
                 (step_pipeline fuel ctx game state action stage move plugins parentIdx);
  mret (harvestQueue next (queue_of e)).

Definition cascade_running state : bool :=
  bool_decide (st_Queue state ≠ [] ∧ st_Blocks state = []) && not_over state.

(** [budget] is the number of steps still allowed.  The result carries the
    error, if any, next to the state the Go function returns with it. *)
Fixpoint cascade_loop (fuel : nat) (budget : nat) (ctx : goctx) game (start state : State)
    (parentIdx : Z) : ST world error (State * option error) :=
  if cascade_running state then
    match budget, st_Queue state with
    | O, _ => mret (start, Some ErrDrainOverflow)
    | S budget, step :: rest =>
        r ← st_try (applyStep fuel ctx game (set_st_Queue rest state) step parentIdx);
        match r with
        | inl err => mret (start, Some err)
        | inr state => cascade_loop fuel budget ctx game start state parentIdx
        end
    | S _, [] => mret (state, None)
    end
  else mret (state, None).

Definition drainCascade (fuel : nat) (ctx : goctx) game state (q : Queue) (parentIdx : Z)
    : ST world error (State * option error) :=
  let state := harvestQueue state q in
  cascade_loop fuel MaxDrainDepth ctx game state state parentIdx.

(** The external move's own log entry. *)
Definition move_entry state req (redact undoable : bool) : LogEntry :=
  mkLog "move" (rq_Move req) (rq_PlayerID req) (rq_Args req) (rq_NowMs req)
    (ctx_Turn (st_Ctx state)) (ctx_Phase (st_Ctx state))
    (get_str (ctx_ActivePlayers (st_Ctx state)) (rq_PlayerID req))
    redact undoable (-1) (rq_ResumeTag req) (rq_ServerDispatch req).

Definition move_mc (ctx : goctx) (adm : admission) req (plugins : option (gmap string any))
    : MoveContext :=
  let state := ad_State adm in
  let moveCtx := if decide (0 < mv_Timeout (ad_Move adm))
                 then ctxWithTimeout ctx (mv_Timeout (ad_Move adm)) else ctx in
  attachPlugins plugins
    (mkMC (st_G state) (st_Ctx state) (rq_PlayerID req) None (Some moveCtx) None
       true (ad_Resuming adm) [] 0).

(** From the move function up to the plugins' verdict on its result. *)
Definition run_move game (adm : admission) req mc : M (State * MoveContext) :=
  let state := ad_State adm in
  let move := ad_Move adm in
  '(u, mc) ← IsUndoable move mc;
  let undoable := u && negb (gm_DisableUndo game) in
  '(redact, mc) ← IsRedacted move mc;
  fn ← st_some (mv_Move move);
  '(r, mc) ← call mc (applyFnWrapMove game fn mc (rq_Args req));
  match r with
  | inl err => st_err err
  | inr nextG =>
      let next := set_st_StateID (st_StateID state + 1) (set_st_G nextG state) in
      let mc := set_mc_G nextG mc in
      let next := set_st_Log (st_Log next ++ [move_entry state req redact undoable]) next in
      let next := set_st_Undone [] next in
      let next := if undoable : bool
                  then set_st_TurnSnapshots
                         (st_TurnSnapshots next ++ [cloneStateForSnapshot state]) next
                  else next in
      next ← flushPluginsM game next mc;
      _ ← validatePluginsM game next;
      mret (next, mc)
  end.

(** turn.OnMove and move counting. *)
Definition after_move game (move : Move) req state mc : M (State * MoveContext) :=
  '(next, mc) ←
    match scopeTurn game (ctx_Phase (st_Ctx state)) ≫= tc_OnMove with
    | Some h =>
        '(g, mc) ← call mc (applyFnWrapHook game h GameMethodTurnOnMove mc);
        mret (set_st_G g state, set_mc_G g mc)
    | None => mret (state, mc)
    end;
  if mv_NoLimit move then mret (next, mc)
  else
    let next := on_ctx (λ c, set_ctx_NumMoves (ctx_NumMoves c + 1) c) next in
    mret (bumpStageMoveCount next (rq_PlayerID req), mc).

Definition check_game_end game req state : M State :=
  match gm_EndIf game with
  | Some f =>
      if not_over state then
        mc2 ← env_mc state (rq_PlayerID req);
        '(res, _) ← call mc2 (f mc2);
        match res with
        | Some _ => runGameOnEnd game (on_ctx (set_ctx_Gameover res) state)
        | None => mret state
        end
      else mret state
  | None => mret state
  end.

Definition unless_over (f : State → M State) state : M State :=
  if not_over state then f state else mret state.

(** Game.EndIf, phase.EndIf, the stages' MaxMoves and the turn's own ends, in
    this order, each only while the game is not over. *)
Definition auto_ends game (move : Move) req state : M State :=
  state ← check_game_end game req state;
  state ← unless_over (checkPhaseEndIf game) state;
  state ← unless_over (λ s, mret (autoEndStagesByMaxMoves s)) state;
  unless_over (λ s, checkTurnAutoEnd game s move) state.

Definition move_pipeline (fuel : nat) game (adm : admission) req mc : M State :=
  '(next, mc) ← run_move game adm req mc;
  '(next, mc) ← after_move game (ad_Move adm) req next mc;
  '(next, mc) ← drainEvents fuel game next mc;
  next ← auto_ends game (ad_Move adm) req next;
  '(next, mc) ← drainEvents fuel game next mc;
  mret (flushExtraLog next mc).

Definition st_raise (r : State * option error) : ST world error State :=
  match r with (s, None) => mret s | (_, Some err) => st_err err end.

Definition applyExternal (fuel : nat) (ctx : goctx) game state req : ST world error State :=
  adm ← st_lift (admit_request game state req);
  plugins ← buildAPIs game (ad_State adm) (rq_PlayerID req);
  '(next, e) ← in_env plugins (Some [])
                 (move_pipeline fuel game adm req (move_mc ctx adm req plugins));
  let next := set_st_Blocks (withoutBlocksFor (st_Blocks next) (drops_of e)) next in
  r ← drainCascade fuel ctx game next (queue_of e) (Z.of_nat (length (st_Log state)));
  st_raise r.

(** The Go result pair (State, error): the caller's own state on error. *)
Definition ApplyContext (fuel : nat) (ctx : goctx) game state req
    : ST world error (State * option error) :=
  r ← st_try (applyExternal fuel ctx game state req);
  mret (match r with inr next => (next, None) | inl err => (state, Some err) end).

Definition Apply (fuel : nat) game state req := ApplyContext fuel ctxBackground game state req.
End pipeline.
