(* ===== verification/Session.v ===== *)
(** * Matches over time

    Building a match ([src/core/state.go]), forcing a turn to end
    ([timeout.go]), undo and redo ([undo.go]), replaying a log
    ([replay.go]) and what a client is sent of a state. *)

From S2P Require Import Prelude CoreTypes Api GameDef Plugins Transitions Reducer.
#[local] Open Scope Z_scope.

(** ** state.go: NewMatch *)
Section new_match.
Context {T : GoTypes}.
Implicit Types (game : Game) (state : State).

Definition initial_ctx game (n : Z) (first : string) (seed : Z) : Ctx :=
  mkCtx n first (defaultPlayOrder n) 0 1 (startPhase game) None None 0 0 seed.

Definition blank_state (g : any) (c : Ctx) : State :=
  mkState g c 0 None [] [] [] [] [] [] None None None None.

Definition run_setup game (c : Ctx) (setupData : any) : ST world error any := λ w,
  match gm_Setup game with
  | Some f => let '(g, w) := f c setupData w in (Ok g, w)
  | None => (Ok None, w)
  end.

Definition run_plugin_setup game state : ST world error State := λ w,
  let '(s, w) := runPluginSetup game state w in (Ok s, w).

Definition setup_pipeline (fuel : nat) game state : M State :=
  mc ← env_mcNoEvents state;
  st ← applyTurnOrderFirst game state mc;
  let st := applyActivePlayersFromTurn game st in
  st ← runPhaseOnBegin game st;
  st ← runTurnOnBegin game st;
  mc ← env_mc st "";
  '(st, mc) ← drainEvents fuel game st mc;
  flushPluginsM game st mc.

(** The state returned next to a cascade error is the one with the harvested
    moves still queued. *)
Definition NewMatchSeededE (fuel : nat) game (numPlayers : Z) (setupData : any) (seed : Z)
    : ST world error (State * option error) :=
  let n := PlayerCount game numPlayers in
  first ← st_some (go_index (defaultPlayOrder n) 0);
  let c := initial_ctx game n first seed in
  g ← run_setup game c setupData;
  st ← run_plugin_setup game (blank_state g c);
  plugins ← buildAPIs game st "";
  '(st, e) ← in_env plugins (Some []) (setup_pipeline fuel game st);
  drainCascade fuel ctxBackground game st (queue_of e) (-1).

Definition NewMatchSeeded (fuel : nat) game (numPlayers : Z) (setupData : any) (seed : Z)
    : ST world error State :=
  '(st, _) ← NewMatchSeededE fuel game numPlayers setupData seed; mret st.

Definition NewMatch (fuel : nat) game (numPlayers : Z) (setupData : any) :=
  NewMatchSeeded fuel game numPlayers setupData 0.
End new_match.

(** ** timeout.go *)
Section force_end_turn.
Context {T : GoTypes}.
Implicit Types (game : Game) (state : State).

Definition force_pipeline (fuel : nat) game state : M State :=
  mc ← env_mc state "";
  next ← endTurn game state "";
  '(next, mc) ← drainEvents fuel game next mc;
  flushPluginsM game next (refresh next mc).

Definition force_end_turn (fuel : nat) game state : ST world error State :=
  _ ← st_lift (refuse_if (negb (not_over state)) ErrGameOver);
  let ending := ctx_CurrentPlayer (st_Ctx state) in
  plugins ← buildAPIs game state "";
  '(next, e) ← in_env plugins (Some []) (force_pipeline fuel game state);
  let next := set_st_Blocks
                (withoutBlocksFor (st_Blocks next) (ending :: drops_of e)) next in
  r ← drainCascade fuel ctxBackground game next (queue_of e) (-1);
  next ← st_raise r;
  mret (set_st_StateID (st_StateID state + 1) next).

Definition ForceEndTurnE (fuel : nat) game state : ST world error (State * option error) :=
  r ← st_try (force_end_turn fuel game state);
  mret (match r with inr next => (next, None) | inl err => (state, Some err) end).

Definition ForceEndTurn (fuel : nat) game state : ST world error State :=
  '(next, _) ← ForceEndTurnE fuel game state; mret next.
End force_end_turn.

(** ** undo.go *)
Section undo.
Context {T : GoTypes}.
Implicit Types (game : Game) (state : State).

Definition CanUndo game state : bool :=
  negb (gm_DisableUndo game) && not_over state && bool_decide (st_TurnSnapshots state ≠ []).

Definition CanRedo game state : bool :=
  negb (gm_DisableUndo game) && not_over state && bool_decide (st_Undone state ≠ []).

(** [OnUndo] runs with a throw-away Events queue, no action Queue and no
    plugin table. *)
Definition run_OnUndo game state : ST world error State :=
  match gm_OnUndo game with
  | None => mret state
  | Some h => λ w,
      let mc := mkMC (st_G state) (st_Ctx state) "" None None None true None [] 0 in
      let '(r, e) := call mc (h mc) (mkEnv (Some []) None None None w) in
      (match r with
       | Ok (g, _) => Ok (set_st_G g state)
       | Err x => Err x
       | Panicked => Panicked
       | NoFuel => NoFuel
       end, env_world e)
  end.

Definition undo_move game state : ST world error State :=
  _ ← st_lift (refuse_if (gm_DisableUndo game) ErrInvalidMove);
  _ ← st_lift (refuse_if (negb (not_over state)) ErrGameOver);
  match last (st_TurnSnapshots state) with
  | None => st_err ErrInvalidMove
  | Some snap =>
      popped ← st_some (last (st_Log state));
      let snap := set_st_Undone (st_Undone state ++ [popped]) snap in
      run_OnUndo game (set_st_Log (removelast (st_Log state)) snap)
  end.

Definition Undo game state : ST world error (State * option error) :=
  r ← st_try (undo_move game state);
  mret (match r with inr next => (next, None) | inl err => (state, Some err) end).

Definition redo_request (entry : LogEntry) : MoveRequest :=
  mkReq (le_PlayerID entry) (le_Move entry) (le_Args entry) 0 "" 0
    (le_ServerDispatch entry) false.

Definition Redo (fuel : nat) game state : ST world error (State * option error) :=
  if gm_DisableUndo game then mret (state, Some ErrInvalidMove)
  else if negb (not_over state) then mret (state, Some ErrGameOver)
  else match last (st_Undone state) with
       | None => mret (state, Some ErrInvalidMove)
       | Some entry =>
           Apply fuel game (set_st_Undone (removelast (st_Undone state)) state)
             (redo_request entry)
       end.
End undo.

(** ** replay.go *)
Section replay.
Context {T : GoTypes}.
Implicit Types (game : Game) (state : State).

Definition replay_request (e : LogEntry) : MoveRequest :=
  mkReq (le_PlayerID e) (le_Move e) (le_Args e) 0 (le_ResumeTag e) (le_NowMs e)
    (le_ServerDispatch e) false.

(** The loop; [untilSteps] negative means the whole log, [step] counts the
    moves applied so far. *)
Fixpoint replay_loop (fuel : nat) game (untilSteps step : Z) state (log : list LogEntry)
    : ST world error (State * option error) :=
  match log with
  | [] => mret (state, None)
  | e :: log =>
      if decide (le_Kind e = "move") then
        '(next, err) ← Apply fuel game state (replay_request e);
        match err with
        | Some _ => mret (state, err)
        | None =>
            if decide (0 ≤ untilSteps ∧ untilSteps ≤ step + 1) then mret (next, None)
            else replay_loop fuel game untilSteps (step + 1) next log
        end
      else replay_loop fuel game untilSteps step state log
  end.

Definition ReplayUntilSeeded (fuel : nat) game (log : list LogEntry) (untilSteps numPlayers : Z)
    (setupData : any) (seed : Z) : ST world error (State * option error) :=
  state ← NewMatchSeeded fuel game numPlayers setupData seed;
  if decide (untilSteps = 0) then mret (state, None)
  else replay_loop fuel game untilSteps 0 state log.

Definition ReplayUntil (fuel : nat) game log untilSteps numPlayers setupData :=
  ReplayUntilSeeded fuel game log untilSteps numPlayers setupData 0.

Definition ReplaySeeded (fuel : nat) game log numPlayers setupData seed :=
  ReplayUntilSeeded fuel game log (-1) numPlayers setupData seed.

Definition Replay (fuel : nat) game log numPlayers setupData :=
  ReplayUntil fuel game log (-1) numPlayers setupData.
End replay.

(** ** What a client sees

    [src/core/state.go] PlayerView, [log.go], [queue.go] redactedBlocks and
    [blockview.go]: the per-seat redaction applied before state leaves the
    server. *)

Section view.
Context {T : GoTypes}.
Implicit Types (game : Game) (state : State) (playerID : string).

(** blockview.go *)
Definition HideBlockPayload (b : BlockSpec) (viewerID : string) : BlockSpec :=
  if decide (b_PlayerID b = viewerID) then b
  else mkBlock (b_Tag b) (b_PlayerID b) (b_Move b) (b_Order b) None None None.

(** queue.go *)
Definition redactedBlocks game (blocks : list BlockSpec) playerID : list BlockSpec :=
  match gm_BlockView game with
  | None => blocks
  | Some f => (λ b, f b playerID) <$> blocks
  end.

(** log.go *)
Definition redact_entry playerID (e : LogEntry) : LogEntry :=
  if le_Redact e && negb (bool_decide (le_PlayerID e = playerID)) then
    mkLog (le_Kind e) (le_Move e) (le_PlayerID e) [] (le_NowMs e) (le_Turn e) (le_Phase e)
      (le_Stage e) (le_Redact e) (le_Undoable e) (le_Parent e) (le_ResumeTag e)
      (le_ServerDispatch e)
  else e.

Definition redactedLog (log : list LogEntry) playerID : list LogEntry :=
  redact_entry playerID <$> log.

Definition PlayerView game state playerID (w : world) : State :=
  let c := st_Ctx state in
  let g := match gm_PlayerView game with
           | Some f => f (st_G state) c playerID w
           | None => st_G state
           end in
  mkState g (set_ctx_Seed 0 c) (st_StateID state) (redactPluginData game state playerID w)
    (redactedLog (st_Log state) playerID) (redactedLog (st_Undone state) playerID)
    (st_TurnSnapshots state) (st_Queue state)
    (redactedBlocks game (st_Blocks state) playerID) [] None None None None.

(** The fields of a state that reach a client: everything but the snapshots,
    which the JSON encoding leaves out. *)
Definition wire state : State := set_st_TurnSnapshots [] state.
End view.
