(* ===== verification/Admission.v ===== *)
(** * Which requests are admitted

    A declarative statement of the rules of [ApplyContext]'s comment (steps 1
    to 8), and the proof that [admit_request], the code's sequence of early returns,
    decides exactly those rules. *)

From S2P Require Import Prelude CoreTypes Api GameDef Plugins Transitions Reducer.
#[local] Open Scope Z_scope.

Section rules.
Context {T : GoTypes}.
Implicit Types (game : Game) (state : State) (req : MoveRequest) (c : Ctx).

(** The players allowed to move: those listed in ActivePlayers, or the
    current player when the set is unset. *)
Definition on_turn c (playerID : string) : Prop :=
  match ctx_ActivePlayers c with
  | Some active => is_Some (active !! playerID)
  | None => playerID = ctx_CurrentPlayer c
  end.

Definition answers req (b : BlockSpec) : Prop :=
  b_Tag b = rq_ResumeTag req ∧ b_PlayerID b = rq_PlayerID req ∧
  (b_Move b = "" ∨ b_Move b = rq_Move req).

(** A ResumeTag takes the first pending block it answers off the list. *)
Inductive resumes req : list BlockSpec → option BlockSpec → list BlockSpec → Prop :=
  | resumes_none blocks :
      rq_ResumeTag req = "" → resumes req blocks None blocks
  | resumes_first before b after :
      rq_ResumeTag req ≠ "" → answers req b →
      Forall (λ b', ¬ answers req b') before →
      resumes req (before ++ b :: after) (Some b) (before ++ after).

(** The entry of the player's own stage, if they are in one that has it. *)
Definition stage_entry game c (playerID name : string) : option MoveEntry :=
  let stage := get_str (ctx_ActivePlayers c) playerID in
  if decide (stage = "") then None
  else lookupStage game (ctx_Phase c) stage ≫= λ sc, sc_Moves sc !! name.

(** A stage's table shadows the phase's, which shadows the game's. *)
Definition table_entry game c (playerID name : string) : option MoveEntry :=
  match stage_entry game c playerID name with
  | Some v => Some v
  | None => scopeMoves game (ctx_Phase c) !! name
  end.

(** What an entry of a move table stands for: a long-form move with a function, or
    a bare function, which is a move without any flag. *)
Inductive stands_for : MoveEntry → Move → Prop :=
  | stands_long m fn : mv_Move m = Some fn → stands_for (EntryMove m) m
  | stands_short f :
      stands_for (EntryFn f) (mkMove (Some f) FlagNil FlagNil false false false 0 false false).

(** A player in an exclusive stage only gets the stage's own moves, unless
    the move or the request is excused. *)
Definition stage_allows game c req (move : Move) (resuming : option BlockSpec) : Prop :=
  get_str (ctx_ActivePlayers c) (rq_PlayerID req) = "" ∨
  is_Some (stage_entry game c (rq_PlayerID req) (rq_Move req)) ∨
  (∀ sc, lookupStage game (ctx_Phase c) (get_str (ctx_ActivePlayers c) (rq_PlayerID req)) = Some sc →
     sc_Exclusive sc = false) ∨
  mv_AnyPlayer move = true ∨ mv_IgnoreBlocks move = true ∨ rq_ServerDispatch req = true ∨
  (∃ b, resuming = Some b ∧ b_Move b ≠ "").

Record Admissible game state req (adm : admission) : Prop := {
  adm_not_over : ctx_Gameover (st_Ctx state) = None;
  adm_resumes : resumes req (st_Blocks state) (ad_Resuming adm) (st_Blocks (ad_State adm));
  adm_state : ad_State adm =
    set_st_Blocks (st_Blocks (ad_State adm))
      (on_ctx (set_ctx_NowMs (rq_NowMs req)) state);
  adm_move : ∃ v, table_entry game (st_Ctx state) (rq_PlayerID req) (rq_Move req) = Some v ∧
                  stands_for v (ad_Move adm);
  adm_server_only : rq_FromClient req = true → mv_ServerOnly (ad_Move adm) = false;
  adm_unblocked : st_Blocks state = [] ∨ is_Some (ad_Resuming adm) ∨
                  mv_IgnoreBlocks (ad_Move adm) = true;
  adm_on_turn : on_turn (st_Ctx state) (rq_PlayerID req) ∨
                is_Some (ad_Resuming adm) ∨ mv_AnyPlayer (ad_Move adm) = true;
  adm_fresh : rq_StateID req ≤ 0 ∨ rq_StateID req = st_StateID state ∨
              mv_IgnoreStaleStateID (ad_Move adm) = true;
  adm_stage : stage_allows game (st_Ctx state) req (ad_Move adm) (ad_Resuming adm)
}.
End rules.

Section facts.
Context {T : GoTypes}.
Implicit Types (game : Game) (state : State) (req : MoveRequest) (c : Ctx).

Lemma block_matches_answers req b :
  block_matches (rq_ResumeTag req) (rq_PlayerID req) (rq_Move req) b = true ↔ answers req b.
Proof.
  unfold block_matches, answers.
  rewrite !andb_true_iff, orb_true_iff, !bool_decide_eq_true. tauto.
Qed.

Lemma remove_at_split {A} (l : list A) i x :
  l !! i = Some x → l = take i l ++ x :: drop (S i) l.
Proof. intros. symmetry. by apply take_drop_middle. Qed.

Lemma consume_block_resumes state req state' r :
  consume_block state req = Ok (state', r) ↔
  ∃ left_, resumes req (st_Blocks state) r left_ ∧ state' = set_st_Blocks left_ state.
Proof.
  unfold consume_block. case_decide as Htag.
  { split.
    - intros [= <- <-]. exists (st_Blocks state). split; [by constructor | by destruct state].
    - intros (l & Hr & ->). inversion Hr; [|done]. by destruct state. }
  unfold findBlock. destruct (find_index _ _) as [i|] eqn:Hi; split.
  - intros [= <- <-]. eexists. split; [|done].
    apply find_index_Some in Hi as [(b & Hb & Hm) Hbefore].
    rewrite Hb. unfold remove_at. rewrite (remove_at_split _ _ _ Hb) at 1.
    constructor; [done | by apply block_matches_answers|].
    apply Forall_lookup. intros j b' [Hj ?]%lookup_take_Some ?%block_matches_answers.
    specialize (Hbefore j b' ltac:(lia) Hj). congruence.
  - intros (l & Hr & ->). inversion Hr as [|before b after _ Hb Hbefore HB]; [done|].
    rewrite <-HB in Hi. assert (i = length before) as ->.
    { apply find_index_Some in Hi as [(b' & Hb' & Hm) Hlt].
      apply block_matches_answers in Hm.
      destruct (decide (i < length before)%nat) as [Hl|Hl].
      - rewrite lookup_app_l in Hb' by done.
        by destruct (Forall_lookup_1 _ _ _ _ Hbefore Hb').
      - destruct (decide (length before < i)%nat); [|lia].
        specialize (Hlt (length before) b ltac:(lia) (list_lookup_middle _ _ _ _ eq_refl)).
        apply block_matches_answers in Hb. congruence. }
    rewrite list_lookup_middle by done. unfold remove_at.
    rewrite take_app_length, drop_app_ge by lia.
    by replace (S (length before) - length before)%nat with 1%nat by lia.
  - done.
  - intros (l & Hr & ->). inversion Hr as [|before b after _ Hb _ HB]; [done|].
    rewrite <-HB in Hi. apply find_index_None in Hi.
    apply Forall_app in Hi as [_ Hi]. inversion Hi as [|?? Hnm].
    apply block_matches_answers in Hb. congruence.
Qed.

Lemma authorizedStage_stage c pid :
  (match authorizedStage c pid with Ok s => s | _ => "" end) =
  get_str (ctx_ActivePlayers c) pid.
Proof.
  unfold authorizedStage, get_str, omap_get.
  destruct (ctx_ActivePlayers c) as [m|]; simpl; [by destruct (m !! pid)|].
  by case_decide.
Qed.

Lemma authorizedStage_on_turn c pid :
  (∃ s, authorizedStage c pid = Ok s) ↔ on_turn c pid.
Proof.
  unfold authorizedStage, on_turn. destruct (ctx_ActivePlayers c) as [m|].
  - destruct (m !! pid); naive_solver.
  - case_decide; naive_solver.
Qed.

Lemma resolveMove_entry game c pid name :
  resolveMove game c (get_str (ctx_ActivePlayers c) pid) name =
  (match table_entry game c pid name with Some v => asMove v | None => Err ErrUnknownMove end,
   bool_decide (is_Some (stage_entry game c pid name))).
Proof.
  unfold resolveMove, table_entry, stage_entry. cbv zeta.
  case_decide.
  - rewrite bool_decide_false by (by intros []). by destruct (scopeMoves _ _ !! _).
  - destruct (lookupStage _ _ _ ≫= _).
    + by rewrite bool_decide_true.
    + rewrite bool_decide_false by (by intros []). by destruct (scopeMoves _ _ !! _).
Qed.

Lemma asMove_stands_for v m : asMove v = Ok m ↔ stands_for v m.
Proof.
  split.
  - destruct v as [m'|f|]; simpl; [|intros [= <-]; constructor|done].
    destruct (mv_Move m') eqn:Hm; [|done]. intros [= <-]. by eapply stands_long.
  - intros [m' fn Hm|f]; simpl; [by rewrite Hm|done].
Qed.

Lemma stage_exclusive_false game c stage :
  stage_exclusive game c stage = false ↔
  ∀ sc, lookupStage game (ctx_Phase c) stage = Some sc → sc_Exclusive sc = false.
Proof. unfold stage_exclusive. destruct (lookupStage _ _ _); naive_solver. Qed.

Lemma refuse_if_Ok b e u : refuse_if b e = Ok u ↔ b = false.
Proof. destruct b, u; simpl; split; congruence. Qed.

Lemma refuse_if_bind {A} b e (f : () → outcome error A) x :
  (refuse_if b e ≫= f) = Ok x ↔ b = false ∧ f tt = Ok x.
Proof. destruct b; simpl; naive_solver. Qed.

Lemma auth_bind {A} c pid b (f : () → outcome error A) x :
  ((match authorizedStage c pid with
    | Ok _ => Ok tt
    | Err e => refuse_if b e
    | _ => Ok tt
    end) ≫= f) = Ok x ↔ (on_turn c pid ∨ b = false) ∧ f tt = Ok x.
Proof.
  rewrite <-authorizedStage_on_turn. unfold authorizedStage.
  destruct (ctx_ActivePlayers c) as [m|]; [destruct (m !! pid)|case_decide];
    rewrite ?refuse_if_bind; naive_solver.
Qed.

Lemma bool_decide_and_false (P Q : Prop) `{Decision P, Decision Q} :
  bool_decide (P ∧ Q) = false ↔ ¬ P ∨ ¬ Q.
Proof. rewrite bool_decide_eq_false. destruct (decide P), (decide Q); tauto. Qed.
End facts.

Section admit_request.
Context {T : GoTypes}.
Implicit Types (game : Game) (state : State) (req : MoveRequest) (c : Ctx).

Lemma stage_allows_bool game c req move resuming :
  stage_allows game c req move resuming ↔
  negb (bool_decide (get_str (ctx_ActivePlayers c) (rq_PlayerID req) = "")) &&
  negb (bool_decide (is_Some (stage_entry game c (rq_PlayerID req) (rq_Move req)))) &&
  negb (ex_stageScope (exemptionsFor move resuming req)) &&
  stage_exclusive game c (get_str (ctx_ActivePlayers c) (rq_PlayerID req)) = false.
Proof.
  unfold stage_allows. rewrite <-stage_exclusive_false.
  rewrite !andb_false_iff, !negb_false_iff, !bool_decide_eq_true.
  unfold exemptionsFor; simpl. rewrite !orb_true_iff.
  destruct resuming as [b|]; [|naive_solver].
  rewrite negb_true_iff, bool_decide_eq_false. naive_solver.
Qed.

Lemma resolved_bind {A} game c pid name (k : Move → outcome error A) x :
  (match (match table_entry game c pid name with
          | Some v => asMove v | None => Err ErrUnknownMove end) with
   | Ok m => k m
   | Err e => match authorizedStage c pid with Err a => Err a | _ => Err e end
   | Panicked => Panicked
   | NoFuel => NoFuel
   end) = Ok x ↔
  ∃ v m, table_entry game c pid name = Some v ∧ asMove v = Ok m ∧ k m = Ok x.
Proof.
  assert (Hno : ∀ e', (match authorizedStage c pid with
                       | Err a => Err a | _ => Err e' end : outcome error A) ≠ Ok x).
  { intros e'. by destruct (authorizedStage c pid). }
  destruct (table_entry _ _ _ _) as [v|].
  - destruct (asMove v) as [m|e'| |] eqn:Hm; split; try done.
    + intros H. by exists v, m.
    + intros (v' & m' & [= <-] & Hm' & H). congruence.
    + by intros H%Hno.
    + intros (v' & m' & [= <-] & Hm' & H). congruence.
    + intros (v' & m' & [= <-] & Hm' & H). congruence.
    + intros (v' & m' & [= <-] & Hm' & H). congruence.
  - split; [by intros H%Hno | by intros (v' & m' & [=] & _)].
Qed.

Lemma admit_checks_iff game state resuming req adm :
  admit_checks game state resuming req = Ok adm ↔
  ∃ v move, table_entry game (st_Ctx state) (rq_PlayerID req) (rq_Move req) = Some v ∧
    asMove v = Ok move ∧
    rq_FromClient req && mv_ServerOnly move = false ∧
    bool_decide (resuming = None ∧ st_Blocks state ≠ []) &&
      negb (mv_IgnoreBlocks move) = false ∧
    (on_turn (st_Ctx state) (rq_PlayerID req) ∨
     negb (ex_turn (exemptionsFor move resuming req)) = false) ∧
    bool_decide (0 < rq_StateID req ∧ rq_StateID req ≠ st_StateID state) &&
      negb (mv_IgnoreStaleStateID move) = false ∧
    stage_allows game (st_Ctx state) req move resuming ∧
    adm = mkAdmission state move resuming.
Proof.
  unfold admit_checks. cbv zeta. rewrite authorizedStage_stage, resolveMove_entry.
  rewrite resolved_bind. do 2 (apply exist_proper; intros ?).
  rewrite !refuse_if_bind, auth_bind, !refuse_if_bind, stage_allows_bool. naive_solver.
Qed.

Lemma client_gate a b : a && b = false ↔ (a = true → b = false).
Proof. destruct a, b; naive_solver. Qed.

Lemma block_gate req blocks r l ignore :
  resumes req blocks r l →
  bool_decide (r = None ∧ l ≠ []) && negb ignore = false ↔
  blocks = [] ∨ is_Some r ∨ ignore = true.
Proof.
  intros Hr. rewrite andb_false_iff, bool_decide_and_false, negb_false_iff.
  destruct Hr as [blocks|]; [|naive_solver].
  destruct blocks; naive_solver.
Qed.

Lemma turn_gate move r req :
  negb (ex_turn (exemptionsFor move r req)) = false ↔
  is_Some r ∨ mv_AnyPlayer move = true.
Proof.
  unfold exemptionsFor; simpl. rewrite negb_false_iff, orb_true_iff.
  destruct r; naive_solver.
Qed.

Lemma stale_gate (id cur : Z) ignore :
  bool_decide (0 < id ∧ id ≠ cur) && negb ignore = false ↔
  id ≤ 0 ∨ id = cur ∨ ignore = true.
Proof.
  rewrite andb_false_iff, bool_decide_and_false, negb_false_iff.
  destruct (decide (id = cur)); split; intros; destruct_or?; auto; lia.
Qed.

Lemma admit_iff_rules game state req adm :
  admit_request game state req = Ok adm ↔ Admissible game state req adm.
Proof.
  unfold admit_request. rewrite refuse_if_bind. cbv beta zeta. split.
  - intros (Hover & ([s1 r] & (l & Hres & ->)%consume_block_resumes & H)%outcome_bind_Ok).
    apply admit_checks_iff in H as (v & m & Hv & Hm & Hso & Hb & Ht & Hid & Hst & ->).
    split; try done; simpl.
    + unfold not_over in Hover. by destruct (ctx_Gameover _).
    + exists v. by rewrite <-asMove_stands_for.
    + by apply client_gate.
    + by eapply block_gate.
    + destruct Ht as [Ht|Ht%turn_gate]; [by left | by right].
    + by apply stale_gate.
  - destruct adm as [s1 m r]. intros [Hover Hres Hs1 (v & Hv & Hm%asMove_stands_for) Hso Hb Ht Hid Hst].
    simpl in *. split; [unfold not_over; by rewrite Hover|].
    rewrite (proj2 (consume_block_resumes _ req s1 r)); [|eauto]. simpl.
    apply admit_checks_iff. rewrite Hs1. exists v, m. repeat (split; [done|]). simpl.
    repeat split; try done.
    + by apply client_gate.
    + by eapply block_gate.
    + destruct Ht as [Ht|Ht]; [by left | right; by apply (turn_gate m r req)].
    + by apply stale_gate.
Qed.

Lemma refuse_if_total {A} b e (f : () → outcome error A) :
  (∃ x, f tt = Ok x) ∨ (∃ e', f tt = Err e') →
  (∃ x, (refuse_if b e ≫= f) = Ok x) ∨ (∃ e', (refuse_if b e ≫= f) = Err e').
Proof. destruct b; simpl; eauto. Qed.

(** The checks always reach a verdict. *)
Lemma admit_total game state req :
  (∃ adm, admit_request game state req = Ok adm) ∨ (∃ e, admit_request game state req = Err e).
Proof.
  unfold admit_request. apply refuse_if_total. cbv zeta.
  destruct (consume_block _ req) as [[s1 r]|e| |] eqn:Hc; simpl; eauto.
  2,3: unfold consume_block in Hc; repeat case_match; done.
  unfold admit_checks. cbv zeta. rewrite authorizedStage_stage, resolveMove_entry.
  destruct (match table_entry _ _ _ _ with Some v => asMove v | None => _ end) eqn:Hm.
  - do 2 apply refuse_if_total.
    assert (Ha : (∃ s, authorizedStage (st_Ctx s1) (rq_PlayerID req) = Ok s) ∨
                 ∃ e, authorizedStage (st_Ctx s1) (rq_PlayerID req) = Err e).
    { unfold authorizedStage. repeat case_match; eauto. }
    destruct Ha as [[s ->]|[e ->]]; simpl; [|apply refuse_if_total];
      do 2 apply refuse_if_total; eauto.
  - destruct (authorizedStage _ _); eauto.
  - exfalso. unfold asMove in Hm. by repeat case_match.
  - exfalso. unfold asMove in Hm. by repeat case_match.
Qed.

(** C2: the reducer admits a request exactly when the documented rules do, and
    then runs the move the player's tables resolve to, on the caller's state
    with the clock set and the answered block, if any, taken off. *)
Theorem admit_iff_Admissible game state req adm :
  admit_request game state req = Ok adm ↔ Admissible game state req adm.
Proof. apply admit_iff_rules. Qed.
End admit_request.
