(* ===== verification/Cascade.v ===== *)
(** * The cascade of queued moves

    [drainCascade] as the code runs it, against its description: one step takes
    the oldest queued action and runs it; the cascade is a sequence of steps that
    ends when nothing may run any more, and gives everything back when a step
    fails or too many would be needed. *)

From stdpp Require Import relations.
From S2P Require Import Prelude CoreTypes Api GameDef Plugins Transitions Reducer.
#[local] Open Scope Z_scope.

Section cascade.
Context {T : GoTypes}.
Implicit Types (game : Game) (s : State) (w : world).

(** Nothing may run: the queue is empty, a block waits for an answer, or the
    game is over. *)
Definition quiescent s : Prop :=
  st_Queue s = [] ∨ st_Blocks s ≠ [] ∨ is_Some (ctx_Gameover (st_Ctx s)).

Inductive cascade_step (fuel : nat) (c : goctx) game (idx : Z) : relation (State * world) :=
  | cascade_step_run s w action rest s' w' :
      ¬ quiescent s → st_Queue s = action :: rest →
      applyStep fuel c game (set_st_Queue rest s) action idx w = (Ok s', w') →
      cascade_step fuel c game idx (s, w) (s', w').

(** A state whose next step fails with an error. *)
Definition step_fails fuel c game idx s w (e : error) w' : Prop :=
  ∃ action rest, ¬ quiescent s ∧ st_Queue s = action :: rest ∧
    applyStep fuel c game (set_st_Queue rest s) action idx w = (Err e, w').

Lemma cascade_running_true s : cascade_running s = true ↔ ¬ quiescent s.
Proof.
  unfold cascade_running, quiescent, not_over.
  rewrite andb_true_iff, bool_decide_eq_true.
  destruct (ctx_Gameover (st_Ctx s)) as [v|]; split.
  - by intros [_ ?].
  - intros []. right; right. by eexists.
  - intros [[Hq Hb] _] [?|[?|[]]]; done.
  - intros H. split; [|done]. split; [naive_solver|].
    destruct (st_Blocks s); [done|]. destruct H. by right; left.
Qed.

Lemma cascade_running_false s : cascade_running s = false ↔ quiescent s.
Proof.
  pose proof (cascade_running_true s) as Ht. unfold quiescent in *.
  destruct (cascade_running s) eqn:Hr; split; intros H; try done.
  - exfalso. by apply Ht.
  - unfold cascade_running, not_over in Hr. apply andb_false_iff in Hr as [Hr|Hr].
    + apply bool_decide_eq_false in Hr. destruct (st_Queue s); [by left|].
      destruct (st_Blocks s); [|by right; left]. destruct Hr. done.
    + right; right. destruct (ctx_Gameover (st_Ctx s)); [by eexists | done].
Qed.

Lemma nsteps_S_inv fuel c game idx n s w s' w' :
  nsteps (cascade_step fuel c game idx) (S n) (s, w) (s', w') →
  ∃ action rest s1 w1, ¬ quiescent s ∧ st_Queue s = action :: rest ∧
    applyStep fuel c game (set_st_Queue rest s) action idx w = (Ok s1, w1) ∧
    nsteps (cascade_step fuel c game idx) n (s1, w1) (s', w').
Proof.
  intros H. inversion H as [|? ? [s1 w1] ? Hs Hr]; subst. inversion Hs; subst.
  by eexists _, _, _, _.
Qed.

(** One unfolding of the loop. *)
Lemma cascade_loop_step fuel budget c game start s idx w :
  ¬ quiescent s →
  ∃ action rest, st_Queue s = action :: rest ∧
    cascade_loop fuel (S budget) c game start s idx w =
      match applyStep fuel c game (set_st_Queue rest s) action idx w with
      | (Ok s1, w1) => cascade_loop fuel budget c game start s1 idx w1
      | (Err e, w1) => (Ok (start, Some e), w1)
      | (Panicked, w1) => (Panicked, w1)
      | (NoFuel, w1) => (NoFuel, w1)
      end.
Proof.
  intros Hq. destruct (st_Queue s) as [|action rest] eqn:HQ; [by destruct Hq; left|].
  exists action, rest. split; [done|]. cbn [cascade_loop].
  rewrite (proj2 (cascade_running_true s) Hq), HQ.
  unfold mbind, ST_bind, st_bind, st_try. by destruct (applyStep _ _ _ _ _ _ _) as [[]].
Qed.

Lemma cascade_loop_quiescent fuel budget c game start s idx w :
  quiescent s → cascade_loop fuel budget c game start s idx w = (Ok (s, None), w).
Proof. intros Hq%cascade_running_false. by destruct budget; simpl; rewrite Hq. Qed.

Lemma cascade_loop_ok fuel budget c game start s idx w s' w' :
  cascade_loop fuel budget c game start s idx w = (Ok (s', None), w') ↔
  quiescent s' ∧ ∃ n, (n ≤ budget)%nat ∧
    nsteps (cascade_step fuel c game idx) n (s, w) (s', w').
Proof.
  revert s w. induction budget as [|budget IH]; intros s w.
  all: destruct (cascade_running s) eqn:Hr;
    [apply cascade_running_true in Hr|apply cascade_running_false in Hr;
     rewrite cascade_loop_quiescent by done; split;
       [intros [= <- <-]; split; [done|]; exists 0%nat; split; [lia|constructor]
       |intros (_ & [|n] & _ & H);
        [by inversion H | by apply nsteps_S_inv in H as (? & ? & ? & ? & ? & _)]]].
  - simpl. rewrite (proj2 (cascade_running_true s) Hr). split; [done|].
    intros (Hq & n & Hn & H). replace n with 0%nat in H by lia. by inversion H; subst.
  - destruct (cascade_loop_step fuel budget c game start s idx w Hr)
      as (action & rest & HQ & ->). split.
    + destruct (applyStep _ _ _ _ _ _ _) as [[s1|e| |] w1] eqn:HA; try done.
      rewrite IH. intros (Hq & n & Hn & H). split; [done|]. exists (S n). split; [lia|].
      eapply nsteps_l; [|exact H]. by econstructor.
    + intros (Hq & n & Hn & H). destruct n as [|n]; [by inversion H; subst|].
      apply nsteps_S_inv in H as (a' & r' & s1 & w1 & _ & HQ' & HA & H).
      rewrite HQ in HQ'. injection HQ' as <- <-.
      rewrite HA, IH. split; [done|]. exists n. split; [lia|done].
Qed.

(** How a cascade fails: some prefix of its steps leads to a failing one, or all
    the allowed steps are used up with more to do. *)
Lemma cascade_loop_err fuel budget c game start s idx w s' e w' :
  cascade_loop fuel budget c game start s idx w = (Ok (s', Some e), w') ↔
  s' = start ∧ ∃ n s1 w1, nsteps (cascade_step fuel c game idx) n (s, w) (s1, w1) ∧
    ((n < budget)%nat ∧ step_fails fuel c game idx s1 w1 e w' ∨
     n = budget ∧ ¬ quiescent s1 ∧ e = ErrDrainOverflow ∧ w' = w1).
Proof.
  revert s w. induction budget as [|budget IH]; intros s w.
  all: destruct (cascade_running s) eqn:Hr;
    [apply cascade_running_true in Hr|apply cascade_running_false in Hr;
     rewrite cascade_loop_quiescent by done; split; [done|];
     intros (_ & n & s1 & w1 & Hn & H);
     destruct n; [inversion Hn; subst; unfold step_fails in H; naive_solver
                 |by apply nsteps_S_inv in Hn as (? & ? & ? & ? & ? & _)]].
  - simpl. rewrite (proj2 (cascade_running_true s) Hr). split.
    + intros [= <- <- <-]. split; [done|]. exists 0%nat, s, w. split; [constructor|]. by right.
    + intros (-> & n & s1 & w1 & Hn & [[? _]|(-> & _ & -> & ->)]); [lia|].
      by inversion Hn; subst.
  - destruct (cascade_loop_step fuel budget c game start s idx w Hr)
      as (action & rest & HQ & ->). split.
    + destruct (applyStep _ _ _ _ _ _ _) as [[s1|e1| |] w1] eqn:HA; try done.
      * rewrite IH. intros (-> & n & s2 & w2 & Hn & H). split; [done|].
        exists (S n), s2, w2. split; [eapply nsteps_l; [|exact Hn]; by econstructor|].
        destruct H as [[? ?]|(-> & ? & ? & ?)]; [left|right]; repeat split; try done; lia.
      * intros [= <- <- <-]. split; [done|]. exists 0%nat, s, w. split; [constructor|].
        left. split; [lia|]. by exists action, rest.
    + intros (-> & n & s1 & w1 & Hn & H). destruct n as [|n].
      * inversion Hn; subst. destruct H as [(_ & a' & r' & _ & HQ' & HA)|[? _]]; [|done].
        rewrite HQ in HQ'. injection HQ' as <- <-. by rewrite HA.
      * apply nsteps_S_inv in Hn as (a' & r' & s2 & w2 & _ & HQ' & HA & Hn).
        rewrite HQ in HQ'. injection HQ' as <- <-.
        rewrite HA, IH. split; [done|]. exists n, s1, w1. split; [done|].
        destruct H as [[? ?]|(? & ? & ? & ?)]; [left|right]; repeat split; try done; lia.
Qed.

(** C6: a cascade succeeds exactly when at most [MaxDrainDepth] steps, each taking
    the oldest queued action, lead from the harvested state to one where nothing
    may run. *)
Theorem drainCascade_succeeds fuel c game s q idx w s' w' :
  drainCascade fuel c game s q idx w = (Ok (s', None), w') ↔
  quiescent s' ∧ ∃ n, (n ≤ 200)%nat ∧
    nsteps (cascade_step fuel c game idx) n (harvestQueue s q, w) (s', w').
Proof. apply cascade_loop_ok. Qed.

(** C7: a cascade fails exactly when one of its first [MaxDrainDepth] steps fails,
    with that step's error, or when that many steps leave more to do, with
    ErrDrainOverflow; it then hands back the state before its first step. *)
Theorem drainCascade_fails fuel c game s q idx w s' e w' :
  drainCascade fuel c game s q idx w = (Ok (s', Some e), w') ↔
  s' = harvestQueue s q ∧
  ∃ n s1 w1, nsteps (cascade_step fuel c game idx) n (harvestQueue s q, w) (s1, w1) ∧
    ((n < 200)%nat ∧ step_fails fuel c game idx s1 w1 e w' ∨
     n = 200%nat ∧ ¬ quiescent s1 ∧ e = ErrDrainOverflow ∧ w' = w1).
Proof. apply cascade_loop_err. Qed.
End cascade.
