(* ===== verification/Discipline.v ===== *)
(** * What game code may do

    The engine's guarantees depend on what the game's own closures call.  This
    file names those restrictions: [uses P p] says every call the program [p]
    can make satisfies [P], whatever the answers it gets; [must_drop pid p] says [p] names
    [pid] in a DropBlocksFor call whenever it returns; [game_hook] and
    [game_move] collect the closures of a game the reducer runs. *)

From S2P Require Import Prelude CoreTypes Api GameDef Plugins Transitions.
#[local] Open Scope Z_scope.

Section uses.
Context {T : GoTypes}.

(** One call of game code to the engine, with its arguments. *)
Inductive op : Type :=
  | opEvent (ev : event)
  | opPush (a : QueuedAction)
  | opBlock (b : BlockSpec)
  | opUnblock (tag playerID : string)
  | opPendingBlocks
  | opDropBlocksFor (playerID : string)
  | opAddLog (e : LogEntry)
  | opRead
  | opWrite (w : world).

Inductive uses (P : op → Prop) {A} : prog A → Prop :=
  | uses_Ret a : uses P (Ret a)
  | uses_Crash : uses P Crash
  | uses_Event ev k : P (opEvent ev) → uses P k → uses P (OpEvent ev k)
  | uses_Push a k : P (opPush a) → uses P k → uses P (OpPush a k)
  | uses_Block b k : P (opBlock b) → uses P k → uses P (OpBlock b k)
  | uses_Unblock t p k :
      P (opUnblock t p) → (∀ r, uses P (k r)) → uses P (OpUnblock t p k)
  | uses_PendingBlocks k :
      P opPendingBlocks → (∀ r, uses P (k r)) → uses P (OpPendingBlocks k)
  | uses_DropBlocksFor p k :
      P (opDropBlocksFor p) → uses P k → uses P (OpDropBlocksFor p k)
  | uses_AddLog e k : P (opAddLog e) → uses P k → uses P (OpAddLog e k)
  | uses_Read k : P opRead → (∀ w, uses P (k w)) → uses P (OpRead k)
  | uses_Write w k : P (opWrite w) → uses P k → uses P (OpWrite w k).

Lemma uses_weaken (P Q : op → Prop) {A} (p : prog A) :
  uses P p → (∀ o, P o → Q o) → uses Q p.
Proof. intros Hp HPQ. induction Hp; constructor; auto. Qed.

(** Without restriction every program qualifies. *)
Lemma uses_True {A} (p : prog A) : uses (λ _, True) p.
Proof. induction p; constructor; auto. Qed.

(** A program that respects each of several restrictions respects all at once. *)
Lemma uses_all {I} (Q : I → op → Prop) {A} (p : prog A) :
  (∀ i, uses (Q i) p) → uses (λ o, ∀ i, Q i o) p.
Proof.
  induction p; intros Hu; constructor; intros;
    try match goal with IH : context [uses _ _] |- uses _ _ => apply IH; intros end;
    match goal with |- context [Q ?i] => pose proof (Hu i) as Hi; inversion Hi; subst; auto end.
Qed.

(** The log entries a program adds. *)
Lemma run_extra (P : op → Prop) (L : LogEntry → Prop) {A} (p : prog A) ctx :
  uses P p → (∀ e, P (opAddLog e) → L (AddLog_entry ctx e)) →
  ∀ extra e a extra' e', run ctx p extra e = (Ok (a, extra'), e') →
  Forall L extra → Forall L extra'.
Proof.
  intros Hp HL. induction Hp; intros extra env x extra' env' Hrun Hx; simpl in Hrun;
    repeat case_match; simplify_eq/=; eauto.
  apply IHHp in Hrun; [done|]. apply Forall_app; split; [done|].
  repeat constructor. auto.
Qed.

(** A program that queues no event leaves the event queue alone. *)
Lemma run_events (P : op → Prop) {A} (p : prog A) ctx :
  uses P p → (∀ ev, ¬ P (opEvent ev)) →
  ∀ extra e a extra' e', run ctx p extra e = (Ok (a, extra'), e') →
  env_events e' = env_events e.
Proof.
  intros Hp HP. induction Hp; intros extra env x extra' env' Hrun; simpl in Hrun;
    repeat case_match; simplify_eq/=; eauto; try (by edestruct HP; eauto);
    try (by erewrite IHHp by eauto); try (by erewrite H1 by eauto).
Qed.

(** A program that drops no blocks leaves the drop list alone. *)
Lemma run_drops (P : op → Prop) {A} (p : prog A) ctx :
  uses P p → (∀ pid, ¬ P (opDropBlocksFor pid)) →
  ∀ extra e a extra' e', run ctx p extra e = (Ok (a, extra'), e') →
  env_drops e' = env_drops e.
Proof.
  intros Hp HP. induction Hp; intros extra env x extra' env' Hrun; simpl in Hrun;
    repeat case_match; simplify_eq/=; eauto; try (by edestruct HP; eauto);
    try (by erewrite IHHp by eauto); try (by erewrite H1 by eauto).
Qed.

Lemma run_not_NoFuel {A} ctx (p : prog A) extra e : (run ctx p extra e).1 ≠ NoFuel.
Proof. revert extra e. induction p; intros; simpl; repeat case_match; simplify_eq/=; auto. Qed.
(** Programs without a panic of their own. *)
Inductive crash_free {A} : prog A → Prop :=
  | cf_Ret a : crash_free (Ret a)
  | cf_Event ev k : crash_free k → crash_free (OpEvent ev k)
  | cf_Push a k : crash_free k → crash_free (OpPush a k)
  | cf_Block b k : crash_free k → crash_free (OpBlock b k)
  | cf_Unblock t p k : (∀ r, crash_free (k r)) → crash_free (OpUnblock t p k)
  | cf_PendingBlocks k : (∀ r, crash_free (k r)) → crash_free (OpPendingBlocks k)
  | cf_DropBlocksFor p k : crash_free k → crash_free (OpDropBlocksFor p k)
  | cf_AddLog e k : crash_free k → crash_free (OpAddLog e k)
  | cf_Read k : (∀ w, crash_free (k w)) → crash_free (OpRead k)
  | cf_Write w k : crash_free k → crash_free (OpWrite w k).

(** Programs that call [DropBlocksFor pid] whenever they return. *)
Inductive must_drop (pid : string) {A} : prog A → Prop :=
  | md_here k : must_drop pid (OpDropBlocksFor pid k)
  | md_Crash : must_drop pid Crash
  | md_Event ev k : must_drop pid k → must_drop pid (OpEvent ev k)
  | md_Push a k : must_drop pid k → must_drop pid (OpPush a k)
  | md_Block b k : must_drop pid k → must_drop pid (OpBlock b k)
  | md_Unblock t p k : (∀ r, must_drop pid (k r)) → must_drop pid (OpUnblock t p k)
  | md_PendingBlocks k : (∀ r, must_drop pid (k r)) → must_drop pid (OpPendingBlocks k)
  | md_DropBlocksFor p k : must_drop pid k → must_drop pid (OpDropBlocksFor p k)
  | md_AddLog e k : must_drop pid k → must_drop pid (OpAddLog e k)
  | md_Read k : (∀ w, must_drop pid (k w)) → must_drop pid (OpRead k)
  | md_Write w k : must_drop pid k → must_drop pid (OpWrite w k).

(** An environment whose handles are not nil. *)
Definition ready (e : hookEnv) : Prop := is_Some (env_events e) ∧ is_Some (env_queue e).

Lemma run_crash_free {A} ctx (p : prog A) extra e :
  crash_free p → ready e → ∃ r e', run ctx p extra e = (Ok r, e') ∧ ready e'.
Proof.
  intros Hp. revert extra e. induction Hp; intros extra env [[q1 He] [q2 Hq]]; simpl;
    rewrite ?He, ?Hq; try (destruct (Queue_Unblock _ _ _) eqn:?);
    try (eexists _, _; split; [done|split; by eexists]);
    first [apply IHHp | apply H0]; split; simpl; rewrite ?He, ?Hq; by eexists.
Qed.
End uses.

(** ** The closures of a game *)
Section closures.
Context {T : GoTypes}.
Implicit Types (game : Game).

Definition game_turn game (t : TurnConfig) : Prop :=
  gm_Turn game = Some t ∨
  ∃ n p, gm_Phases game !! n = Some p ∧ pc_Turn p = Some t.

Definition game_stage game (sc : StageConfig) : Prop :=
  ∃ t n, game_turn game t ∧ tc_Stages t !! n = Some sc.

Inductive game_hook game (h : HookFn) : Prop :=
  | gh_OnEnd : gm_OnEnd game = Some h → game_hook game h
  | gh_PhaseOnBegin n p :
      gm_Phases game !! n = Some p → pc_OnBegin p = Some h → game_hook game h
  | gh_PhaseOnEnd n p :
      gm_Phases game !! n = Some p → pc_OnEnd p = Some h → game_hook game h
  | gh_TurnOnBegin t : game_turn game t → tc_OnBegin t = Some h → game_hook game h
  | gh_TurnOnEnd t : game_turn game t → tc_OnEnd t = Some h → game_hook game h
  | gh_TurnOnMove t : game_turn game t → tc_OnMove t = Some h → game_hook game h
  | gh_StageOnBegin sc : game_stage game sc → sc_OnBegin sc = Some h → game_hook game h
  | gh_StageOnEnd sc : game_stage game sc → sc_OnEnd sc = Some h → game_hook game h.

(** The entries of the game's, a phase's or a stage's move table. *)
Definition game_entry game (v : MoveEntry) : Prop :=
  (∃ n, gm_Moves game !! n = Some v) ∨
  (∃ n p ms k, gm_Phases game !! n = Some p ∧ pc_Moves p = Some ms ∧ ms !! k = Some v) ∨
  (∃ sc k, game_stage game sc ∧ sc_Moves sc !! k = Some v).

Definition game_move game (m : Move) : Prop := ∃ v, game_entry game v ∧ asMove v = Ok m.

(** Hooks, turn orders and EndIf conditions obey [P]. *)
Record hooks_use (P : op → Prop) game : Prop := {
  hu_hook h k mc : game_hook game h → uses P (applyFnWrapHook game h k mc);
  hu_first t f mc : game_turn game t → to_First (tc_Order t) = Some f → uses P (f mc);
  hu_order t f mc : game_turn game t → to_PlayOrder (tc_Order t) = Some f → uses P (f mc);
  hu_turnEndIf t f mc : game_turn game t → tc_EndIf t = Some f → uses P (f mc);
  hu_phaseEndIf n p f mc : gm_Phases game !! n = Some p → pc_EndIf p = Some f → uses P (f mc);
  hu_gameEndIf f mc : gm_EndIf game = Some f → uses P (f mc)
}.

(** Move functions, wrapped or called by RunMove, and the per-move flag
    functions obey [P]. *)
Record moves_use (P : op → Prop) game : Prop := {
  mu_move m fn mc args : game_move game m → mv_Move m = Some fn → uses P (fn mc args);
  mu_wrapped m fn mc args : game_move game m → mv_Move m = Some fn →
    uses P (applyFnWrapMove game fn mc args);
  mu_undoable m f mc : game_move game m → mv_Undoable m = FlagFn f → uses P (f mc);
  mu_redact m f mc : game_move game m → mv_Redact m = FlagFn f → uses P (f mc)
}.

Definition code_uses (P : op → Prop) game : Prop := hooks_use P game ∧ moves_use P game.

Lemma moves_use_True game : moves_use (λ _, True) game.
Proof. split; intros; apply uses_True. Qed.

Lemma code_uses_True game : code_uses (λ _, True) game.
Proof. split; split; intros; apply uses_True. Qed.

Lemma phase_turn_game_turn game phase t : phase_turn game phase = Some t → game_turn game t.
Proof.
  unfold phase_turn. case_decide; [done|]. intros (p & Hp & Ht)%bind_Some.
  right. eauto.
Qed.

Lemma scopeTurn_game_turn game phase t : scopeTurn game phase = Some t → game_turn game t.
Proof.
  unfold scopeTurn. destruct (phase_turn game phase) eqn:Ht.
  - intros [= <-]. by eapply phase_turn_game_turn.
  - by left.
Qed.

Lemma lookupStage_game_stage game phase stage sc :
  lookupStage game phase stage = Some sc → game_stage game sc.
Proof.
  unfold lookupStage. destruct (phase_turn game phase ≫= _) eqn:Hp.
  - intros [= <-]. apply bind_Some in Hp as (t & Ht%phase_turn_game_turn & Hs).
    by exists t, stage.
  - intros (t & Ht & Hs)%bind_Some. exists t, stage. split; [by left | done].
Qed.

Lemma scopeMoves_game_entry game phase name v :
  scopeMoves game phase !! name = Some v → game_entry game v.
Proof.
  unfold scopeMoves, game_entry. case_decide; [naive_solver|].
  destruct (gm_Phases game !! phase) as [p|] eqn:Hp; [|naive_solver].
  destruct (pc_Moves p) eqn:Hm; simpl; naive_solver.
Qed.
End closures.
