(* ===== verification/Evolution.v ===== *)
(** * How transitions change a match

    Every engine transition relates the states before and after by [evolves]:
    the log only grows, the state id does not decrease, the queued actions, the
    blocks, the plugin data, the seed and the move's clock stay, and the undo
    scratch space is kept or emptied.  [evolves] is a preorder, so the facts
    compose along the code's own call structure. *)

From S2P Require Import Prelude CoreTypes Api GameDef Plugins Transitions Discipline.
#[local] Open Scope Z_scope.

Section evolves.
Context {T : GoTypes}.

Record evolves (L : LogEntry → Prop) (s s' : State) : Prop := {
  ev_queue : st_Queue s' = st_Queue s;
  ev_blocks : st_Blocks s' = st_Blocks s;
  ev_plugins : st_Plugins s' = st_Plugins s;
  ev_seed : ctx_Seed (st_Ctx s') = ctx_Seed (st_Ctx s);
  ev_now : ctx_NowMs (st_Ctx s') = ctx_NowMs (st_Ctx s);
  ev_log : ∃ new, st_Log s' = st_Log s ++ new ∧ Forall L new;
  ev_id : st_StateID s ≤ st_StateID s';
  ev_undone : st_Undone s' = st_Undone s ∨ st_Undone s' = [];
  ev_snapshots : st_TurnSnapshots s' = st_TurnSnapshots s ∨ st_TurnSnapshots s' = []
}.

#[export] Instance evolves_PreOrder L : PreOrder (evolves L).
Proof.
  split.
  - intros s. split; auto; [|lia]. exists []. by rewrite app_nil_r.
  - intros s1 s2 s3 H12 H23. destruct H12, H23. split; try congruence; [|lia| |].
    + destruct ev_log0 as (n1 & E1 & F1), ev_log1 as (n2 & E2 & F2).
      exists (n1 ++ n2). rewrite E2, E1, app_assoc. split; [done|]. by apply Forall_app.
    + destruct ev_undone0, ev_undone1; [left; congruence|right; congruence..].
    + destruct ev_snapshots0, ev_snapshots1; [left; congruence|right; congruence..].
Qed.

(** A step that leaves the fields [evolves] speaks about alone. *)
Definition same_record (s s' : State) : Prop :=
  st_Queue s' = st_Queue s ∧ st_Blocks s' = st_Blocks s ∧ st_Plugins s' = st_Plugins s ∧
  ctx_Seed (st_Ctx s') = ctx_Seed (st_Ctx s) ∧ ctx_NowMs (st_Ctx s') = ctx_NowMs (st_Ctx s) ∧
  st_Log s' = st_Log s ∧ st_StateID s' = st_StateID s ∧
  st_Undone s' = st_Undone s ∧ st_TurnSnapshots s' = st_TurnSnapshots s.

Lemma same_record_evolves L s s' : same_record s s' → evolves L s s'.
Proof.
  intros (?&?&?&?&?&?&?&?&?). split; auto; [|lia]. exists []. by rewrite app_nil_r.
Qed.

#[export] Instance same_record_PreOrder : PreOrder same_record.
Proof.
  split; [by intros s; repeat split|].
  intros ???(?&?&?&?&?&?&?&?&?)(?&?&?&?&?&?&?&?&?). repeat split; congruence.
Qed.

#[export] Instance any_PreOrder {A} : PreOrder (λ _ _ : A, True).
Proof. split; by repeat intro. Qed.
End evolves.

Section pure_steps.
Context {T : GoTypes}.
Implicit Types (game : Game) (state : State).

Lemma set_active_record m s : same_record s (set_active m s).
Proof. by repeat split. Qed.
Lemma set_counts_record a b c s : same_record s (set_counts a b c s).
Proof. by repeat split. Qed.
Lemma applySetActivePlayers_record s cfg : same_record s (applySetActivePlayers s cfg).
Proof. unfold applySetActivePlayers. by destruct (apc_Revert cfg); repeat split. Qed.

Lemma drainActivePlayers_record s : same_record s (drainActivePlayers s).
Proof.
  unfold drainActivePlayers. destruct (last _); [by repeat split|].
  destruct (st_PendingNext s); [|by repeat split].
  by etransitivity; [|apply applySetActivePlayers_record].
Qed.

Lemma applyActivePlayersFromTurn_record game s :
  same_record s (applyActivePlayersFromTurn game s).
Proof.
  unfold applyActivePlayersFromTurn. case_match; [apply applySetActivePlayers_record | done].
Qed.

Lemma leave_stage_record pid s : same_record s (leave_stage pid s).
Proof. by repeat split. Qed.
Lemma drain_if_empty_record s : same_record s (drain_if_empty s).
Proof. unfold drain_if_empty. case_decide; [apply drainActivePlayers_record | done]. Qed.
Lemma force_player_record p s : same_record s (force_player p s).
Proof. unfold force_player. by case_match; repeat split. Qed.
Lemma clear_turn_scoped_record s : same_record s (clear_turn_scoped s).
Proof. by repeat split. Qed.
Lemma clear_undo_evolves L s : evolves L s (clear_undo s).
Proof. split; auto; [|done]. exists []. by rewrite app_nil_r. Qed.
End pure_steps.

#[export] Hint Resolve set_active_record set_counts_record applySetActivePlayers_record
  drainActivePlayers_record applyActivePlayersFromTurn_record leave_stage_record
  drain_if_empty_record force_player_record clear_turn_scoped_record : engine.

(** ** Composing evolutions *)
Section combinators.
Context {T : GoTypes} (L : LogEntry → Prop) (RS : relation hookEnv) `{!PreOrder RS}.
Implicit Types (s state : State) (mc : MoveContext).

Abbreviation returns Q m := (spec RS Q m).

Definition mc_ok mc : Prop := Forall L (mc_extra mc).

Definition drained s (r : State * MoveContext) : Prop := evolves L s r.1 ∧ mc_ok r.2.

Lemma attachPlugins_frame ps mc :
  mc_extra (attachPlugins ps mc) = mc_extra mc ∧
  mc_Wired (attachPlugins ps mc) = mc_Wired mc ∧
  mc_chainedMoves (attachPlugins ps mc) = mc_chainedMoves mc.
Proof. unfold attachPlugins. by case_match. Qed.

Lemma env_mc_returns s pid : returns mc_ok (env_mc s pid).
Proof.
  intros e mc e' [= <- <-]. split; [done|]. unfold mc_ok.
  by rewrite (proj1 (attachPlugins_frame _ _)).
Qed.

Lemma env_mcNoEvents_returns s :
  returns (λ mc, mc_ok mc ∧ mc_Wired mc = false) (env_mcNoEvents s).
Proof.
  intros e mc e' [= <- <-]. split; [done|]. unfold mc_ok.
  destruct (attachPlugins_frame (env_plugins e)
    (mkMC (st_G s) (st_Ctx s) "" None None None false None [] 0)) as (-> & -> & _).
  done.
Qed.

Lemma flushExtraLog_evolves s mc : mc_ok mc → evolves L s (flushExtraLog s mc).
Proof. intros Hmc. split; auto; [|done]. by exists (mc_extra mc). Qed.

(** Composing steps: the first one's evolution, then the rest's. *)
Lemma ev_bind {S} (R0 : relation S) `{!PreOrder R0} s (m : ST S error State) f :
  spec R0 (evolves L s) m → (∀ s1, spec R0 (evolves L s1) (f s1)) →
  spec R0 (evolves L s) (m ≫= f).
Proof.
  intros Hm Hf. eapply spec_bind; [done|exact Hm|]. intros s1 H1.
  eapply spec_weaken; [apply Hf|]. intros s2 H2. by transitivity s1.
Qed.

Lemma some_returns {A} (o : option A) : returns (λ _, True) (st_some o : M A).
Proof. by apply spec_some; [apply _|]. Qed.

Lemma ev_ret s s' : same_record s s' → returns (evolves L s) (mret s' : M State).
Proof. intros. apply spec_ret; [apply _|]. by apply same_record_evolves. Qed.

(** Prefixing a pure step. *)
Lemma ev_after s s1 (m : M State) :
  evolves L s s1 → returns (evolves L s1) m → returns (evolves L s) m.
Proof. intros H1 Hm. eapply spec_weaken; [exact Hm|]. intros s2 ?. by transitivity s1. Qed.

Lemma ev_after_same s s1 (m : M State) :
  same_record s s1 → returns (evolves L s1) m → returns (evolves L s) m.
Proof. intros H1. apply ev_after. by apply same_record_evolves. Qed.

Lemma done_drained s mc (m : M State) :
  mc_ok mc → returns (evolves L s) m →
  returns (drained s) (s1 ← m; mret (s1, refresh s1 mc)).
Proof.
  intros Hmc Hm. eapply spec_bind; [apply _|exact Hm|]. intros s1 Hs1.
  apply spec_ret; [apply _|]. by split.
Qed.

Lemma drained_ret s mc : mc_ok mc → returns (drained s) (mret (s, mc) : M _).
Proof. intros. by apply spec_ret; [apply _|]. Qed.

Lemma drained_bind s (m : M (State * MoveContext)) f :
  returns (drained s) m →
  (∀ s1 mc1, mc_ok mc1 → returns (drained s1) (f (s1, mc1))) →
  returns (drained s) (m ≫= f).
Proof.
  intros Hm Hf. eapply spec_bind; [apply _|exact Hm|]. intros [s1 mc1] [H1 Hmc1].
  eapply spec_weaken; [by apply Hf|]. intros [s2 mc2] [H2 Hmc2]. split; [|done].
  by transitivity s1.
Qed.
End combinators.

(** ** The transitions *)

(** What is known about the hooks of a game: the calls they make ([rg_Ph]), a
    property [L] of every entry they log, and a relation [RS] between the
    environments before and after they run. *)
Class HookRegime {T : GoTypes} (game : Game) (L : LogEntry → Prop) (RS : relation hookEnv) := {
  rg_Ph : op → Prop;
  rg_hooks : hooks_use rg_Ph game;
  rg_logh ctx e : rg_Ph (opAddLog e) → L (AddLog_entry ctx e);
  rg_pre :: PreOrder RS;
  rg_runh A ctx (p : prog A) extra e r e' :
    uses rg_Ph p → run ctx p extra e = (Ok r, e') → RS e e';
  rg_world e w : RS e (set_env_world w e)
}.

(** The same about its moves. *)
Class Regime {T : GoTypes} (game : Game) (L : LogEntry → Prop) (RS : relation hookEnv) := {
  rg_hook_regime :: HookRegime game L RS;
  rg_Pm : op → Prop;
  rg_moves : moves_use rg_Pm game;
  rg_logm ctx e : rg_Pm (opAddLog e) → L (AddLog_entry ctx e);
  rg_chain s parent name args : L (chained_entry s parent name args);
  rg_runm A ctx (p : prog A) extra e r e' :
    uses rg_Pm p → run ctx p extra e = (Ok r, e') → RS e e'
}.

(** Environment relations that do not see the event queue being drained. *)
Class DrainBlind {T : GoTypes} (RS : relation hookEnv) : Prop :=
  drain_blind e : RS e (set_env_events (Some []) e).

Section transitions.
Context {T : GoTypes} (game : Game) (L : LogEntry → Prop) (RS : relation hookEnv).
Context `{RH : !HookRegime game L RS}.
Implicit Types (s state : State) (mc : MoveContext).

Abbreviation returns Q m := (spec RS Q m).
Abbreviation mc_ok := (mc_ok L).
Abbreviation drained := (drained L).
Abbreviation Ph := (rg_Ph (HookRegime:=RH)).

Lemma call_env (P : op → Prop) {A} mc (p : prog A) :
  (mc_Wired mc = true → ∀ ctx extra e r e',
     run ctx p extra e = (Ok r, e') → RS e e') →
  returns (λ _, True) (call mc p).
Proof.
  intros Hrun e r e' H. split; [|done]. unfold call in H.
  destruct (run _ _ _ _) as [o e1] eqn:Hr. destruct o; simplify_eq.
  destruct (mc_Wired mc) eqn:Hw; [|apply rg_world].
  eapply Hrun; [done|exact Hr].
Qed.

Lemma call_returns (P : op → Prop) {A} mc (p : prog A) :
  uses P p → (∀ ctx e, P (opAddLog e) → L (AddLog_entry ctx e)) →
  (∀ A ctx (p : prog A) extra e r e', uses P p → run ctx p extra e = (Ok r, e') → RS e e') →
  mc_ok mc →
  returns (λ r, mc_ok r.2 ∧ r.2 = set_mc_extra (mc_extra r.2) mc) (call mc p).
Proof.
  intros Hp HL HR Hmc e [a mc'] e' H. split.
  { eapply (call_env P mc p); [|exact H]. intros. by eapply HR. }
  unfold call in H. destruct (run _ _ _ _) as [r e1] eqn:Hrun.
  destruct r as [[a' extra]| | |]; simplify_eq. split; [|done]. simpl.
  eapply run_extra; [exact Hp|..]; eauto.
Qed.

(** Code called on a context without handles only reaches the memory. *)
Lemma call_unwired {A} mc (p : prog A) :
  mc_Wired mc = false → returns (λ _, True) (call mc p).
Proof. intros Hw. apply (call_env (λ _, True)). by rewrite Hw. Qed.

Lemma call_hook {A} mc (p : prog A) : uses Ph p → returns (λ _, True) (call mc p).
Proof. intros Hp. apply (call_env Ph). intros. by eapply rg_runh. Qed.

Lemma fireHook_evolves h kind pid s :
  (∀ f, h = Some f → game_hook game f) →
  returns (evolves L s) (fireHook game h kind pid s).
Proof.
  intros Hh. unfold fireHook. destruct h as [f|]; [|by apply spec_ret; [apply _|]].
  eapply spec_bind; [apply _|by apply (env_mc_returns L RS)|]. intros mc Hmc.
  eapply spec_bind; [apply _|eapply (call_returns Ph); [|apply rg_logh|apply rg_runh|done]|].
  { eapply hu_hook; [apply rg_hooks | by apply Hh]. }
  intros [g mc'] [Hmc' _]. apply spec_ret; [apply _|].
  etransitivity; [|by apply flushExtraLog_evolves]. apply same_record_evolves.
  by repeat split.
Qed.

Lemma runPhaseOnBegin_evolves s : returns (evolves L s) (runPhaseOnBegin game s).
Proof.
  unfold runPhaseOnBegin. case_decide; [by apply (ev_ret L RS)|].
  case_match; [|by apply (ev_ret L RS)]. apply fireHook_evolves. intros. by eapply gh_PhaseOnBegin.
Qed.

Lemma runTurnOnBegin_evolves s : returns (evolves L s) (runTurnOnBegin game s).
Proof.
  apply fireHook_evolves. intros f (t & Ht & Hf)%bind_Some.
  eapply gh_TurnOnBegin; [by eapply scopeTurn_game_turn | done].
Qed.

Lemma turnOnEnd_evolves phase s :
  returns (evolves L s)
    (fireHook game (scopeTurn game phase ≫= tc_OnEnd) GameMethodTurnOnEnd "" s).
Proof.
  apply fireHook_evolves. intros f (t & Ht & Hf)%bind_Some.
  eapply gh_TurnOnEnd; [by eapply scopeTurn_game_turn | done].
Qed.

Lemma runGameOnEnd_evolves s : returns (evolves L s) (runGameOnEnd game s).
Proof. apply fireHook_evolves. intros. by apply gh_OnEnd. Qed.

Lemma setStage_evolves s pid stage : returns (evolves L s) (setStage game s pid stage).
Proof.
  unfold setStage. eapply ev_after_same; [|apply fireHook_evolves]; [by repeat split|].
  intros f (sc & Hsc & Hf)%bind_Some.
  eapply gh_StageOnBegin; [by eapply lookupStage_game_stage | done].
Qed.

Lemma setStageLong_evolves s pid opts : returns (evolves L s) (setStageLong game s pid opts).
Proof.
  unfold setStageLong. apply ev_bind; [apply _|apply setStage_evolves|].
  intros. apply (ev_ret L RS). by repeat split.
Qed.

Lemma endStage_evolves s pid : returns (evolves L s) (endStage game s pid).
Proof.
  unfold endStage. case_match; [|by apply (ev_ret L RS)].
  apply ev_bind; [apply _|apply fireHook_evolves|].
  - intros f (sc & Hsc & Hf)%bind_Some.
    eapply gh_StageOnEnd; [by eapply lookupStage_game_stage | done].
  - intros s1. case_decide; [|apply setStage_evolves].
    apply (ev_ret L RS). etransitivity; [apply leave_stage_record|apply drain_if_empty_record].
Qed.

Lemma set_current_from_pos_evolves s : returns (evolves L s) (set_current_from_pos s).
Proof.
  unfold set_current_from_pos. apply spec_skip; [apply _|apply (some_returns RS)|].
  intros. apply (ev_ret L RS). by repeat split.
Qed.

Lemma advancePlayOrderPos_evolves onExhausted s turn :
  returns (evolves L s) (onExhausted s) →
  returns (evolves L s) (advancePlayOrderPos onExhausted s turn).
Proof.
  intros Hx. unfold advancePlayOrderPos. case_decide; [by apply (ev_ret L RS)|].
  eapply spec_bind; [apply _|by apply (env_mcNoEvents_returns L RS)|]. intros mc [_ Hw]. case_match.
  - apply spec_skip; [apply _|by apply call_unwired|]. intros [[n|] ?]; [|done].
    eapply ev_after_same; [|apply set_current_from_pos_evolves]. by repeat split.
  - eapply ev_after_same; [|apply set_current_from_pos_evolves]. by repeat split.
Qed.

Lemma effective_order_uses turn :
  (∀ t, turn = Some t → game_turn game t) →
  (∀ f mc, to_First (effective_order turn) = Some f → uses Ph (f mc)) ∧
  (∀ f mc, to_PlayOrder (effective_order turn) = Some f → uses Ph (f mc)).
Proof.
  intros Ht. unfold effective_order. destruct turn as [t|].
  - destruct (IsDefault (tc_Order t)); split; intros f mc; simpl;
      try (intros [= <-]; constructor); try done; intros Hf;
      [eapply hu_first | eapply hu_order]; eauto using rg_hooks.
  - split; intros f mc; simpl; [intros [= <-]; constructor | done].
Qed.

Lemma applyTurnOrderFirst_evolves s mc :
  returns (evolves L s) (applyTurnOrderFirst game s mc).
Proof.
  unfold applyTurnOrderFirst. cbv zeta.
  destruct (effective_order_uses (scopeTurn game (ctx_Phase (st_Ctx s)))) as [Hfirst Horder].
  { intros t. apply scopeTurn_game_turn. }
  apply (spec_bind _ (λ r, same_record s r.1)).
  - case_match; [|by apply spec_ret; [apply _|]].
    apply spec_skip; [apply _|by apply call_hook; auto|].
    intros [po mc']. apply spec_ret; [apply _|]. by repeat split.
  - intros [s1 mc1] Hs1. apply spec_skip; [apply _|..].
    { case_match; [|by apply spec_ret; [apply _|]].
      apply spec_skip; [apply _|by apply call_hook; auto|]. intros []. by apply spec_ret; [apply _|]. }
    intros pos. case_decide.
    + apply (ev_ret L RS). etransitivity; [exact Hs1|by repeat split].
    + eapply ev_after_same; [|apply set_current_from_pos_evolves].
      etransitivity; [exact Hs1|by repeat split].
Qed.

Lemma runPhaseEnter_evolves s : returns (evolves L s) (runPhaseEnter game s).
Proof.
  unfold runPhaseEnter. eapply spec_bind; [apply _|by apply (env_mc_returns L RS)|]. intros mc _.
  apply ev_bind; [apply _|apply applyTurnOrderFirst_evolves|]. intros s1.
  eapply ev_after_same; [apply applyActivePlayersFromTurn_record|].
  apply ev_bind; [apply _|apply runPhaseOnBegin_evolves|]. apply runTurnOnBegin_evolves.
Qed.

Lemma next_phase_returns p s next :
  returns (λ _, True)
    (if decide (next = "") then
       mc ← env_mcNoEvents s; '(t, _) ← resolveNextPhase p mc; mret t
     else mret next).
Proof.
  case_decide; [|by apply spec_ret; [apply _|]].
  eapply spec_bind; [apply _|by apply (env_mcNoEvents_returns L RS)|]. intros mc [_ Hw].
  apply spec_skip; [apply _| |intros []; by apply spec_ret; [apply _|]].
  unfold resolveNextPhase. case_match; try by apply spec_ret; [apply _|].
  by apply call_unwired.
Qed.

Lemma endPhase_evolves depth s next : returns (evolves L s) (endPhase depth game s next).
Proof.
  revert s next. induction depth as [|depth IH]; intros s next; simpl;
    [apply spec_nofuel|].
  case_decide.
  { case_decide; [by apply (ev_ret L RS)|].
    eapply ev_after_same; [|apply runPhaseEnter_evolves]. by repeat split. }
  case_match eqn:Hp; [|by apply (ev_ret L RS)].
  apply ev_bind; [apply _|apply turnOnEnd_evolves|]. intros s1.
  apply spec_skip; [apply _|apply next_phase_returns|]. intros target.
  apply ev_bind; [apply _|apply fireHook_evolves; intros; by eapply gh_PhaseOnEnd|].
  intros s2. case_decide.
  - apply (ev_after_same L RS _ (bump_turn (on_ctx (set_ctx_Phase target)
             (clear_turn_scoped s2)))); [by repeat split|].
    apply ev_bind; [apply _|apply advancePlayOrderPos_evolves, IH|]. intros s3.
    eapply ev_after_same; [apply applyActivePlayersFromTurn_record|].
    apply runTurnOnBegin_evolves.
  - eapply ev_after_same; [|apply runPhaseEnter_evolves]. by repeat split.
Qed.

Lemma begin_turn_evolves s :
  returns (evolves L s)
    (runTurnOnBegin game (applyActivePlayersFromTurn game (bump_turn s))).
Proof.
  eapply ev_after_same; [|apply runTurnOnBegin_evolves].
  etransitivity; [|apply applyActivePlayersFromTurn_record]. by repeat split.
Qed.

(** What follows the OnEnd hook when a turn ends. *)
Lemma endTurn_rest_evolves turn s next :
  returns (evolves L s)
    (let state := clear_undo (clear_turn_scoped s) in
     let begin_turn state :=
       let state := applyActivePlayersFromTurn game (bump_turn state) in
       runTurnOnBegin game state in
     if decide (next = "") then
       state ← advancePlayOrderPos (λ s, endPhase rotation_depth game s "") state turn;
       match ctx_Gameover (st_Ctx state) with
       | Some _ => mret state
       | None => begin_turn state
       end
     else begin_turn (force_player next state)).
Proof.
  cbv zeta. apply (ev_after L RS _ (clear_undo (clear_turn_scoped s))).
  { etransitivity; [|apply clear_undo_evolves]. by apply same_record_evolves. }
  case_decide.
  - apply ev_bind; [apply _|apply advancePlayOrderPos_evolves, endPhase_evolves|].
    intros s2. case_match; [by apply (ev_ret L RS)|]. apply begin_turn_evolves.
  - eapply ev_after_same; [apply force_player_record|]. apply begin_turn_evolves.
Qed.

Lemma endTurn_evolves s next : returns (evolves L s) (endTurn game s next).
Proof.
  unfold endTurn. apply ev_bind; [apply _|apply turnOnEnd_evolves|]. intros s1.
  apply endTurn_rest_evolves.
Qed.

Lemma removePlayer_evolves s pid : returns (evolves L s) (removePlayer game s pid).
Proof.
  unfold removePlayer. case_match; [|by apply (ev_ret L RS)]. case_decide.
  { apply (ev_ret L RS). by repeat split. }
  apply ev_bind; [apply _| |].
  { eapply ev_after_same; [|apply set_current_from_pos_evolves]. by repeat split. }
  intros s1. apply ev_bind; [apply _|case_match; [apply endTurn_evolves|by apply (ev_ret L RS)]|].
  intros s2. apply (ev_ret L RS). by case_match; repeat split.
Qed.
End transitions.

(** ** The event drain *)
Section drain.
Context {T : GoTypes} (game : Game) (L : LogEntry → Prop) (RS : relation hookEnv).
Context `{R : !Regime game L RS}.
Implicit Types (s state : State) (mc : MoveContext).

Abbreviation returns Q m := (spec RS Q m).
Abbreviation mc_ok := (mc_ok L).
Abbreviation drained := (drained L).
Abbreviation Pm := (rg_Pm (Regime:=R)).

Lemma chained_mc_ok s parent : mc_ok (chained_mc s parent).
Proof. unfold chained_mc, attachPlugins, mc_ok. case_match; simpl; apply Forall_nil_2. Qed.

Lemma runChainedMove_evolves s parent name args :
  returns (evolves L s) (runChainedMove game s parent name args).
Proof.
  unfold runChainedMove. case_match eqn:Hraw; [|by apply (ev_ret L RS)].
  case_match eqn:Hmove; try by apply (ev_ret L RS).
  eapply (spec_bind _ (λ fn, mv_Move a = Some fn)).
  { apply spec_some; [apply _|done]. }
  intros fn Hfn. eapply spec_bind; [apply _|eapply (call_returns game L RS Pm); [|apply rg_logm|apply rg_runm|]|].
  - eapply mu_move; [apply rg_moves| |exact Hfn].
    exists m. split; [by eapply scopeMoves_game_entry | done].
  - apply chained_mc_ok.
  - intros [r mc'] [Hmc' _]. case_match; [by apply (ev_ret L RS)|].
    apply spec_ret; [apply _|]. split; auto; simpl; [|lia].
    eexists. split; [done|]. constructor; [by apply (rg_chain (RS:=RS) (game:=game)) | done].
Qed.

Lemma drain_one_drained s mc ev : mc_ok mc → returns (drained s) (drain_one game s mc ev).
Proof.
  intros Hmc. destruct ev as [next| | |stage [opts|]|phase|res|cfg| |pid|name args];
    cbn [drain_one]; try case_match;
    try (by apply (drained_ret L RS));
    try (apply (done_drained L RS); [done|];
         first [apply (endTurn_evolves game L RS) | apply (endPhase_evolves game L RS) | apply (endStage_evolves game L RS)
               |apply (setStageLong_evolves game L RS)|apply (setStage_evolves game L RS)|apply (removePlayer_evolves game L RS)
               |by apply (ev_ret L RS), applySetActivePlayers_record
               |by eapply ev_after_same; [|apply (runGameOnEnd_evolves game L RS)]; repeat split]).
  apply (done_drained L RS _ (set_mc_chainedMoves _ mc)); [done|].
  apply runChainedMove_evolves.
Qed.

Lemma drain_batch_drained batch s mc :
  mc_ok mc → returns (drained s) (drain_batch game s mc batch).
Proof.
  revert s mc. induction batch as [|ev batch IH]; intros s mc Hmc; simpl.
  - by apply (drained_ret L RS).
  - apply (drained_bind L RS); [by apply drain_one_drained|]. auto.
Qed.

Context `{!DrainBlind RS}.

Lemma Events_drain_returns : returns (λ _, True) Events_drain.
Proof.
  intros e r e' H. unfold Events_drain in H. case_match; simplify_eq.
  split; [apply drain_blind | done].
Qed.

Lemma drainEvents_drained fuel s mc :
  mc_ok mc → returns (drained s) (drainEvents fuel game s mc).
Proof.
  revert s mc.
  induction fuel as [|fuel IH]; intros s mc Hmc; simpl; [apply spec_nofuel|].
  eapply spec_bind; [apply _|apply Events_drain_returns|].
  intros [|ev batch] _; [by apply (drained_ret L RS)|].
  apply (drained_bind L RS); [by apply drain_batch_drained|]. auto.
Qed.
End drain.

(** ** Regimes *)
Section regimes.
Context {T : GoTypes} (game : Game).

(** The log entries of the game's code satisfy [L]. *)
#[refine] Definition log_regime (P : op → Prop) (L : LogEntry → Prop)
    (Hcode : code_uses P game)
    (Hlog : ∀ ctx e, P (opAddLog e) → L (AddLog_entry ctx e))
    (Hchain : ∀ s parent name args, L (chained_entry s parent name args)) : Regime game L (λ _ _, True) :=
  {| rg_hook_regime := {| rg_Ph := P |}; rg_Pm := P |}.
Proof. all: try done; apply Hcode. Defined.

(** Nothing assumed about the game's code. *)
Definition any_regime : Regime game (λ _, True) (λ _ _, True) :=
  log_regime (λ _, True) (λ _, True) (code_uses_True game) (λ _ _ _, I) (λ _ _ _ _, I).

(** DropBlocksFor is called for players in [P] only. *)
Definition drops_only (P : string → Prop) (o : op) : Prop :=
  match o with opDropBlocksFor pid => P pid | _ => True end.

(** The players the game's code may name in a DropBlocksFor call. *)
Definition nameable (pid : string) : Prop := ∀ P, code_uses (drops_only P) game → P pid.

(** The drop list grows, by players in [N]. *)
Definition names_more (N : string → Prop) (e e' : hookEnv) : Prop :=
  ∃ l, env_drops e' = (λ d, d ++ l) <$> env_drops e ∧ Forall N l.

#[export] Instance names_more_PreOrder N : PreOrder (names_more N).
Proof.
  split.
  - intros e. exists []. split; [|done]. destruct (env_drops e); simpl; by rewrite ?app_nil_r.
  - intros e1 e2 e3 (l1 & E1 & F1) (l2 & E2 & F2). exists (l1 ++ l2). split; [|by apply Forall_app].
    rewrite E2, E1. destruct (env_drops e1); simpl; by rewrite ?app_assoc.
Qed.

Lemma same_drops_names N e e' : env_drops e' = env_drops e → names_more N e e'.
Proof. intros H. exists []. rewrite H. split; [|done]. destruct (env_drops e); simpl; by rewrite ?app_nil_r. Qed.

Lemma run_names N A ctx (p : prog A) extra e r e' :
  uses (drops_only N) p → run ctx p extra e = (Ok r, e') → names_more N e e'.
Proof.
  intros Hp. revert extra e.
  induction Hp as [| |ev k _ _ IH|a k _ _ IH|b k _ _ IH|t pid k _ _ IH|k _ _ IH|pid k HN _ IH|le k _ _ IH|k _ _ IH|w k _ _ IH];
    intros extra e Hr; cbn [run] in Hr; repeat case_match; simplify_eq; try done;
    try (apply IH in Hr; etransitivity; [|exact Hr]; by apply same_drops_names).
  apply IH in Hr. etransitivity; [|exact Hr]. exists [pid]. split; [done|]. repeat constructor. exact HN.
Qed.

(** [pid] is on the drop list. *)
Definition named (pid : string) (e : hookEnv) : Prop := ∃ d, env_drops e = Some d ∧ pid ∈ d.

Lemma names_more_named N pid e e' : names_more N e e' → named pid e → named pid e'.
Proof.
  intros (l & He & _) (d & Hd & Hin). exists (d ++ l). rewrite He, Hd. split; [done|].
  apply elem_of_app. by left.
Qed.

Lemma names_more_drops N e e' : names_more N e e' → is_Some (env_drops e) → is_Some (env_drops e').
Proof. intros (l & He & _) [d Hd]. rewrite He, Hd. by eexists. Qed.

Lemma run_must_drop pid A ctx (p : prog A) extra e r e' :
  must_drop pid p → run ctx p extra e = (Ok r, e') → is_Some (env_drops e) → named pid e'.
Proof.
  intros Hp. revert extra e.
  induction Hp as [k| |ev k _ IH|a k _ IH|b k _ IH|t p k _ IH|k _ IH|p k _ IH|le k _ IH|k _ IH|w k _ IH];
    intros extra e Hr [d Hd]; cbn [run] in Hr; repeat case_match; simplify_eq;
    try (eapply IH; [exact Hr|simpl; rewrite ?Hd; by eexists]).
  eapply names_more_named; [by eapply (run_names (λ _, True)), Hr; apply (uses_weaken (λ _, True)); [apply uses_True|intros []]|].
  exists (d ++ [pid]). simpl. rewrite Hd. split; [done|]. apply elem_of_app. right. by left.
Qed.

Lemma hooks_use_all {I} (Q : I → op → Prop) :
  (∀ i, hooks_use (Q i) game) → hooks_use (λ o, ∀ i, Q i o) game.
Proof.
  intros H. split; intros; apply uses_all; intros i; destruct (H i); eauto.
Qed.

Lemma moves_use_all {I} (Q : I → op → Prop) :
  (∀ i, moves_use (Q i) game) → moves_use (λ o, ∀ i, Q i o) game.
Proof.
  intros H. split; intros; apply uses_all; intros i; destruct (H i); eauto.
Qed.

Lemma nameable_drops (o : op) :
  (∀ i : {P | code_uses (drops_only P) game}, drops_only (proj1_sig i) o) → drops_only nameable o.
Proof. intros H. destruct o; try done. intros P HP. apply (H (exist _ P HP)). Qed.

Lemma code_names : code_uses (drops_only nameable) game.
Proof.
  assert (Hh := hooks_use_all (λ i : {P | code_uses (drops_only P) game}, drops_only (proj1_sig i))).
  assert (Hm := moves_use_all (λ i : {P | code_uses (drops_only P) game}, drops_only (proj1_sig i))).
  split.
  - destruct Hh as [???? ??]; [intros [P HP]; apply HP|].
    split; intros; (eapply uses_weaken; [|apply nameable_drops]; eauto).
  - destruct Hm as [????]; [intros [P HP]; apply HP|].
    split; intros; (eapply uses_weaken; [|apply nameable_drops]; eauto).
Qed.

#[refine] Definition names_regime : Regime game (λ _, True) (names_more nameable) :=
  {| rg_hook_regime := {| rg_Ph := drops_only nameable |}; rg_Pm := drops_only nameable |}.
Proof.
  all: try done; try apply code_names; try apply run_names. intros. by apply same_drops_names.
Defined.

(** No hook queues an event. *)
Definition same_events (e e' : hookEnv) : Prop := env_events e' = env_events e.

#[export] Instance same_events_PreOrder : PreOrder same_events.
Proof. split; [done|]. intros e1 e2 e3. unfold same_events. congruence. Qed.

Definition queues_no_event (o : op) : Prop :=
  match o with opEvent _ => False | _ => True end.

#[refine] Definition quiet_hooks_regime (Hcode : hooks_use queues_no_event game) :
    HookRegime game (λ _, True) same_events :=
  {| rg_Ph := queues_no_event |}.
Proof.
  all: try done. intros A ctx p extra e [a x] e' Hp Hr.
  eapply run_events; [exact Hp|by intros ? []|exact Hr].
Defined.

#[export] Instance any_DrainBlind : DrainBlind (λ _ _, True).
Proof. done. Qed.
#[export] Instance names_more_DrainBlind N : DrainBlind (names_more N).
Proof. intros e. by apply same_drops_names. Qed.
End regimes.
