(* ===== verification/MoveFacts.v ===== *)
(** * What an accepted move does to the record of a match

    The move pipeline and the cascade on top of [Evolution]: which log entries
    an accepted request adds, in which order, and how the state id, the blocks,
    the clock and the undo scratch space come out of it. *)

From S2P Require Import Prelude CoreTypes Api GameDef Plugins Transitions Reducer.
From S2P Require Import Admission Discipline Evolution.
#[local] Open Scope Z_scope.

(** [m] returns normally only with a result satisfying [Q] (engine entry points,
    whose only state is the memory of game code). *)
Abbreviation yields Q m := (spec (λ _ _ : world, True) Q m).

Section grows.
Context {T : GoTypes}.

(** What holds between the states around any part of an accepted request. *)
Record grows (E : LogEntry → Prop) (s s' : State) : Prop := {
  gr_log : ∃ new, st_Log s' = st_Log s ++ new ∧ Forall E new;
  gr_id : st_StateID s ≤ st_StateID s';
  gr_blocks : ∃ new, st_Blocks s' = st_Blocks s ++ new;
  gr_seed : ctx_Seed (st_Ctx s') = ctx_Seed (st_Ctx s);
  gr_now : ctx_NowMs (st_Ctx s') = ctx_NowMs (st_Ctx s);
  gr_undone : st_Undone s' = st_Undone s ∨ st_Undone s' = [];
  gr_snapshots : st_TurnSnapshots s' = st_TurnSnapshots s ∨ st_TurnSnapshots s' = []
}.

#[export] Instance grows_PreOrder E : PreOrder (grows E).
Proof.
  split.
  - intros s. split; auto; try lia; exists []; by rewrite app_nil_r.
  - intros s1 s2 s3 [(n1&E1&F1) ?(b1&B1)????] [(n2&E2&F2) ?(b2&B2)????].
    split; try congruence; try lia.
    + exists (n1 ++ n2). rewrite E2, E1, app_assoc. split; [done|]. by apply Forall_app.
    + exists (b1 ++ b2). by rewrite B2, B1, app_assoc.
    + destruct gr_undone0, gr_undone1; [left; congruence|right; congruence..].
    + destruct gr_snapshots0, gr_snapshots1; [left; congruence|right; congruence..].
Qed.

Lemma evolves_grows (L E : LogEntry → Prop) s s' :
  (∀ e, L e → E e) → evolves L s s' → grows E s s'.
Proof.
  intros HLE [?? ??? (new & Hn & HL) ???]. split; auto.
  - exists new. split; [done|]. by eapply Forall_impl.
  - exists []. by rewrite app_nil_r.
Qed.

Lemma harvestQueue_grows E s q : grows E s (harvestQueue s q).
Proof.
  split; auto; simpl; try done.
  - exists []. by rewrite app_nil_r.
  - by eexists.
Qed.

Lemma flushPlugins_frame game s mc w :
  ∃ p, (flushPlugins game s mc w).1 = set_st_Plugins p s.
Proof.
  unfold flushPlugins. destruct (gm_Plugins game) as [|p ps].
  { exists (st_Plugins s). by destruct s. }
  generalize (p :: ps). clear p ps. intros ps.
  assert (∃ p, alloc_plugins s = set_st_Plugins p s) as [p Hp] by by eexists.
  generalize dependent (alloc_plugins s). revert p w.
  induction ps as [|pl ps IH]; intros p w s1 ->; simpl; [by exists p|].
  destruct (flush_one mc _ w pl) as [s2 w2] eqn:Hf.
  assert (∃ p', s2 = set_st_Plugins p' s) as [p' ->]; [|by eapply IH].
  unfold flush_one, put_plugin in Hf. cbv zeta in Hf.
  repeat case_match; simplify_eq; by eexists.
Qed.

Lemma in_env_yields (RS : relation hookEnv) {A} (Q : A → Prop) plugins drops (m : M A) :
  spec RS Q m →
  yields (λ r, Q r.1 ∧
            ∃ w, RS (mkEnv (Some []) (Some (mkQueue [] [])) drops plugins w) r.2)
    (in_env plugins drops m).
Proof.
  intros Hm w [a e] w' H. split; [done|]. unfold in_env in H.
  destruct (m _) as [r e1] eqn:Hr. destruct r; simplify_eq.
  destruct (Hm _ _ _ Hr) as [HR HQ]. split; [done|]. by exists w.
Qed.

Lemma any_yields {A} (m : ST world error A) : yields (λ _, True) m.
Proof. by split. Qed.

Lemma yield_skip {A B} (Q : B → Prop) (m : ST world error A) f :
  (∀ a, yields Q (f a)) → yields Q (m ≫= f).
Proof. intros Hf. eapply spec_bind; [apply _|apply any_yields|]. auto. Qed.
End grows.

(** The state a successful move function leaves, before plugins, hooks and
    events. *)
Definition moved_state {T : GoTypes} (s : State) (req : MoveRequest) (g : any)
    (redact undoable : bool) : State :=
  let next := set_st_Undone [] (set_st_Log (st_Log s ++ [move_entry s req redact undoable])
                (set_st_StateID (st_StateID s + 1) (set_st_G g s))) in
  if undoable then set_st_TurnSnapshots (st_TurnSnapshots s ++ [cloneStateForSnapshot s]) next
  else next.

Section pipeline.
Context {T : GoTypes} (game : Game) (L : LogEntry → Prop) (RS : relation hookEnv).
Context `{R : !Regime game L RS, !DrainBlind RS}.
Implicit Types (s state : State) (mc : MoveContext) (req : MoveRequest).

Abbreviation returns Q m := (spec RS Q m).
Abbreviation Ph := (rg_Ph (HookRegime:=rg_hook_regime)).
Abbreviation Pm := (rg_Pm (Regime:=R)).
Abbreviation ok := (mc_ok L).

Lemma attachPlugins_extra ps mc : mc_extra (attachPlugins ps mc) = mc_extra mc.
Proof. apply attachPlugins_frame. Qed.

Lemma flushPluginsM_returns s mc :
  returns (λ s', ∃ p, s' = set_st_Plugins p s) (flushPluginsM game s mc).
Proof.
  intros e s' e' H. unfold flushPluginsM in H.
  destruct (flushPlugins_frame game s mc (env_world e)) as [p Hp].
  destruct (flushPlugins _ _ _ _). simplify_eq/=. split; [apply rg_world|]. by exists p.
Qed.

Lemma validatePluginsM_returns s : returns (λ _, True) (validatePluginsM game s).
Proof. intros e r e' H. unfold validatePluginsM in H. case_match; by simplify_eq. Qed.

Lemma call_flag_ok d flag mc :
  (∀ f mc, flag = FlagFn f → uses Pm (f mc)) → ok mc →
  returns (λ r, ok r.2) (call_flag d flag mc).
Proof.
  intros Hf Hmc. unfold call_flag. destruct flag; try by apply spec_ret; [apply _|].
  eapply spec_weaken;
    [eapply (call_returns _ _ _ Pm); [by apply Hf|apply rg_logm|apply rg_runm|done]|].
  by intros ? [? _].
Qed.

Lemma wrapped_move_ok fn mc args m :
  game_move game m → mv_Move m = Some fn → ok mc →
  returns (λ r, ok r.2) (call mc (applyFnWrapMove game fn mc args)).
Proof.
  intros Hm Hfn Hmc. eapply spec_weaken;
    [eapply (call_returns _ _ _ Pm); [|apply rg_logm|apply rg_runm|done]|].
  - eapply mu_wrapped; [apply rg_moves|done..].
  - by intros ? [? _].
Qed.

Definition run_move_post (s : State) req (r : State * MoveContext) : Prop :=
  (∃ g red und p, r.1 = set_st_Plugins p (moved_state s req g red und)) ∧ ok r.2.

Lemma run_move_returns adm req mc :
  game_move game (ad_Move adm) → ok mc →
  returns (run_move_post (ad_State adm) req) (run_move game adm req mc).
Proof.
  intros Hmove Hmc. unfold run_move.
  eapply spec_bind; [apply _|apply call_flag_ok; [|exact Hmc]|].
  { intros; eapply mu_undoable; [apply rg_moves|done..]. }
  intros [u mc1] Hmc1. cbv zeta.
  eapply spec_bind; [apply _|apply call_flag_ok; [|exact Hmc1]|].
  { intros; eapply mu_redact; [apply rg_moves|done..]. }
  intros [red mc2] Hmc2.
  eapply (spec_bind _ (λ fn, mv_Move (ad_Move adm) = Some fn)).
  { by apply spec_some; [apply _|]. }
  intros fn Hfn. eapply spec_bind; [apply _|by eapply wrapped_move_ok|].
  intros [[err|g] mc3] Hmc3; [apply spec_err|].
  eapply spec_bind; [apply _|apply flushPluginsM_returns|]. intros s1 [p ->].
  apply spec_skip; [apply _|apply validatePluginsM_returns|]. intros _. apply spec_ret; [apply _|]. split; [|done].
  exists g, red, (u && negb (gm_DisableUndo game)), p. done.
Qed.

Lemma bumpStageMoveCount_record s pid : same_record s (bumpStageMoveCount s pid).
Proof. unfold bumpStageMoveCount. by case_match; repeat split. Qed.

Lemma after_move_drained move req s mc :
  ok mc → returns (drained L s) (after_move game move req s mc).
Proof.
  intros Hmc. unfold after_move. apply (drained_bind L RS).
  - case_match eqn:Ht; [|by apply (drained_ret L RS)].
    apply bind_Some in Ht as (t & Ht%scopeTurn_game_turn & Hf).
    eapply spec_bind;
      [apply _|eapply (call_returns _ _ _ Ph); [|apply rg_logh|apply rg_runh|done]|].
    { eapply hu_hook; [apply rg_hooks|]. by eapply gh_TurnOnMove. }
    intros [g mc1] [Hmc1 _]. apply spec_ret; [apply _|]. split; [|done].
    apply same_record_evolves. by repeat split.
  - intros s1 mc1 Hmc1. case_match; [by apply (drained_ret L RS)|].
    apply spec_ret; [apply _|]. split; [|done]. apply same_record_evolves.
    etransitivity; [|apply bumpStageMoveCount_record]. by repeat split.
Qed.

Lemma check_game_end_evolves req s : returns (evolves L s) (check_game_end game req s).
Proof.
  unfold check_game_end. case_match; [|by apply (ev_ret L RS)]. case_match; [|by apply (ev_ret L RS)].
  eapply spec_bind; [apply _|apply (env_mc_returns L RS)|]. intros mc _.
  apply spec_skip; [apply _|by eapply (call_hook game L RS), hu_gameEndIf; [apply rg_hooks|..]|].
  intros [res mc']. case_match; [|by apply (ev_ret L RS)].
  eapply ev_after_same; [|by eapply (runGameOnEnd_evolves game L RS)]. by repeat split.
Qed.

Lemma checkPhaseEndIf_evolves s : returns (evolves L s) (checkPhaseEndIf game s).
Proof.
  unfold checkPhaseEndIf. case_decide; [by apply (ev_ret L RS)|].
  case_match eqn:Hf; [|by apply (ev_ret L RS)]. apply bind_Some in Hf as (ph & Hp & Hf).
  eapply spec_bind; [apply _|apply (env_mc_returns L RS)|]. intros mc _.
  apply spec_skip; [apply _|by eapply (call_hook game L RS), hu_phaseEndIf; [apply rg_hooks|..]|].
  intros [[fired next] mc']. case_match; [|by apply (ev_ret L RS)].
  by eapply (endPhase_evolves game L RS).
Qed.

Lemma checkTurnAutoEnd_evolves s move : returns (evolves L s) (checkTurnAutoEnd game s move).
Proof.
  unfold checkTurnAutoEnd. case_match eqn:Ht; [|by apply (ev_ret L RS)].
  apply scopeTurn_game_turn in Ht. apply spec_skip; [apply _| |].
  { case_match; [|by apply spec_ret; [apply _|]].
    eapply spec_bind; [apply _|apply (env_mc_returns L RS)|]. intros mc _.
    apply spec_skip; [apply _|by eapply (call_hook game L RS), hu_turnEndIf; [apply rg_hooks|..]|].
    intros []. by apply spec_ret; [apply _|]. }
  intros [fired next]. case_match; [by eapply (endTurn_evolves game L RS)|].
  case_decide; [by eapply (endTurn_evolves game L RS) | by apply (ev_ret L RS)].
Qed.

Lemma autoEndStages_record s : same_record s (autoEndStagesByMaxMoves s).
Proof.
  unfold autoEndStagesByMaxMoves. case_match; [|done]. cbv zeta. case_decide; [|by repeat split].
  etransitivity; [|apply drainActivePlayers_record]. by repeat split.
Qed.

Lemma unless_over_evolves f s :
  returns (evolves L s) (f s) → returns (evolves L s) (unless_over f s).
Proof. intros Hf. unfold unless_over. case_match; [done | by apply (ev_ret L RS)]. Qed.

Lemma auto_ends_evolves move req s : returns (evolves L s) (auto_ends game move req s).
Proof.
  unfold auto_ends. apply ev_bind; [apply _|apply check_game_end_evolves|]. intros s1.
  apply ev_bind; [apply _|apply unless_over_evolves, checkPhaseEndIf_evolves|]. intros s2.
  apply ev_bind; [apply _|apply unless_over_evolves, (ev_ret L RS), autoEndStages_record|].
  intros s3. apply unless_over_evolves, checkTurnAutoEnd_evolves.
Qed.

Lemma drained_then s (m : M (State * MoveContext)) (f : State * MoveContext → M State) :
  returns (drained L s) m →
  (∀ s1 mc1, ok mc1 → returns (evolves L s1) (f (s1, mc1))) →
  returns (evolves L s) (m ≫= f).
Proof.
  intros Hm Hf. eapply spec_bind; [apply _|exact Hm|]. intros [s1 mc1] [H1 Hmc1].
  eapply spec_weaken; [by apply Hf|]. intros s2 H2. by transitivity s1.
Qed.

(** From the moved state to the one the cascade starts from. *)
Definition move_post (s : State) req (s' : State) : Prop :=
  ∃ g red und p, evolves L (set_st_Plugins p (moved_state s req g red und)) s'.

Lemma move_pipeline_returns fuel adm req mc :
  game_move game (ad_Move adm) → ok mc →
  returns (move_post (ad_State adm) req) (move_pipeline fuel game adm req mc).
Proof.
  intros Hmove Hmc. unfold move_pipeline.
  eapply spec_bind; [apply _|by apply run_move_returns|].
  intros [s1 mc1] [(g & red & und & p & Hs1) Hmc1]. simpl in *.
  apply (spec_weaken _ (evolves L s1)); [|intros s2 H2; exists g, red, und, p; by rewrite <-Hs1].
  apply drained_then; [by apply after_move_drained|]. intros s2 mc2 Hmc2.
  apply drained_then; [by eapply (drainEvents_drained game L RS)|]. intros s3 mc3 Hmc3.
  apply ev_bind; [apply _|apply auto_ends_evolves|]. intros s4.
  apply drained_then; [by eapply (drainEvents_drained game L RS)|]. intros s5 mc5 Hmc5.
  apply spec_ret; [apply _|]. by apply flushExtraLog_evolves.
Qed.

Lemma table_entry_game_entry c pid name v :
  table_entry game c pid name = Some v → game_entry game v.
Proof.
  unfold table_entry, stage_entry. cbv zeta. case_decide.
  { by apply scopeMoves_game_entry. }
  destruct (lookupStage _ _ _ ≫= _) eqn:Hs; [|by apply scopeMoves_game_entry].
  intros [= <-]. apply bind_Some in Hs as (sc & Hsc%lookupStage_game_stage & Hv).
  right; right. by exists sc, name.
Qed.

Lemma admit_game_move s req adm : admit_request game s req = Ok adm → game_move game (ad_Move adm).
Proof.
  intros (v & Hv & Hm%asMove_stands_for)%admit_iff_rules%adm_move. exists v.
  split; [by eapply table_entry_game_entry | done].
Qed.

(** Entries of the cascade's own steps carry the index of the move's entry. *)
Definition step_log (parentIdx : Z) (e : LogEntry) : Prop :=
  L e ∨ le_Kind e = "drain-step" ∧ le_Parent e = parentIdx.

Lemma step_pipeline_grows fuel c s action stage move plugins parentIdx :
  game_move game move →
  returns (grows (step_log parentIdx) s)
    (step_pipeline fuel c game s action stage move plugins parentIdx).
Proof.
  intros Hmove. unfold step_pipeline. cbv zeta.
  eapply (spec_bind _ (λ fn, mv_Move move = Some fn)).
  { by apply spec_some; [apply _|]. }
  intros fn Hfn. eapply spec_bind; [apply _|eapply wrapped_move_ok; [done..|]|].
  { unfold mc_ok. by rewrite attachPlugins_extra. }
  intros [[err|g] mc1] Hmc1; [apply spec_err|].
  eapply spec_bind; [apply _|apply flushPluginsM_returns|]. intros s1 [p ->].
  apply spec_skip; [apply _|apply validatePluginsM_returns|]. intros _.
  eapply spec_weaken; [apply (drained_then (set_st_Plugins p (set_st_Log
      (st_Log (set_st_G g s) ++ [step_entry s action stage parentIdx]) (set_st_G g s))))|].
  - by eapply (drainEvents_drained game L RS).
  - intros s2 mc2 Hmc2. apply spec_ret; [apply _|]. by apply flushExtraLog_evolves.
  - intros s2 H2. etransitivity; [|eapply evolves_grows; [|exact H2]; by intros; left].
    split; auto; simpl; try done.
    + eexists. split; [done|]. constructor; [by right | done].
    + exists []. by rewrite app_nil_r.
Qed.

Lemma applyStep_grows fuel c s action parentIdx :
  yields (grows (step_log parentIdx) s) (applyStep fuel c game s action parentIdx).
Proof.
  unfold applyStep, authorizedStageDrain. cbv zeta. rewrite resolveMove_entry.
  eapply (spec_bind _ (λ m, game_move game m)).
  { apply spec_lift; [apply _|]. intros m Hm. case_match; [|done].
    exists m0. split; [by eapply table_entry_game_entry | done]. }
  intros move Hmove. apply yield_skip. intros plugins.
  eapply spec_bind; [apply _|by eapply in_env_yields, step_pipeline_grows|].
  intros [s1 e] [H1 _]. apply spec_ret; [apply _|]. etransitivity; [exact H1|].
  apply harvestQueue_grows.
Qed.

(** Only a cascade without an error says something about its state. *)
Lemma cascade_loop_grows fuel budget c start s parentIdx :
  yields (λ r, r.2 = None → grows (step_log parentIdx) s r.1)
    (cascade_loop fuel budget c game start s parentIdx).
Proof.
  revert s. induction budget as [|budget IH]; intros s; simpl;
    (case_match; [|by apply spec_ret; [apply _|]]).
  { by apply spec_ret; [apply _|]. }
  case_match; [by apply spec_ret; [apply _|]|].
  eapply (spec_bind _ (λ r, match r with
    | inr s1 => grows (step_log parentIdx) s s1 | inl _ => True end)).
  { intros w r w' Hr. split; [done|]. unfold st_try in Hr.
    destruct (applyStep _ _ _ _ _ _ w) as [o w1] eqn:Ho. destruct o; simplify_eq; [|done].
    destruct (applyStep_grows _ _ _ _ _ _ _ _ Ho) as [_ HG].
    etransitivity; [|exact HG]. split; auto; simpl; try done; exists []; by rewrite app_nil_r. }
  intros [err|s1] H1; [by apply spec_ret; [apply _|]|].
  eapply spec_weaken; [apply IH|]. intros r Hr Hnone. etransitivity; [exact H1|auto].
Qed.

Lemma drainCascade_grows fuel c s q parentIdx :
  yields (λ r, r.2 = None → grows (step_log parentIdx) s r.1)
    (drainCascade fuel c game s q parentIdx).
Proof.
  unfold drainCascade. eapply spec_weaken; [apply cascade_loop_grows|].
  intros r Hr Hnone. etransitivity; [apply harvestQueue_grows|auto].
Qed.

(** The DropBlocksFor calls an environment can end up with. *)
Definition dropped (drops : list string) : Prop :=
  ∃ plugins w e, RS (mkEnv (Some []) (Some (mkQueue [] [])) (Some []) plugins w) e ∧
                 drops = drops_of e.

(** Everything an accepted request does to the record of the match. *)
Record accepted (s : State) req (adm : admission) (redact undoable : bool)
    (rest : list LogEntry) (s' : State) : Prop := {
  ac_admitted : admit_request game s req = Ok adm;
  ac_log : st_Log s' = st_Log s ++ move_entry (ad_State adm) req redact undoable :: rest;
  ac_rest : Forall (step_log (Z.of_nat (length (st_Log s)))) rest;
  ac_id : st_StateID s < st_StateID s';
  ac_blocks : ∃ drops new, dropped drops ∧
    st_Blocks s' = withoutBlocksFor (st_Blocks (ad_State adm)) drops ++ new;
  ac_seed : ctx_Seed (st_Ctx s') = ctx_Seed (st_Ctx s);
  ac_now : ctx_NowMs (st_Ctx s') = rq_NowMs req;
  ac_undone : st_Undone s' = [];
  ac_snapshots : st_TurnSnapshots s' = [] ∨
    st_TurnSnapshots s' = st_TurnSnapshots s ++
      (if undoable then [cloneStateForSnapshot (ad_State adm)] else [])
}.

Lemma admitted_state s req adm :
  admit_request game s req = Ok adm →
  ad_State adm = set_st_Blocks (st_Blocks (ad_State adm))
                   (on_ctx (set_ctx_NowMs (rq_NowMs req)) s).
Proof. intros H%admit_iff_rules. apply H. Qed.

Lemma move_mc_ok c adm req plugins : mc_ok L (move_mc c adm req plugins).
Proof. unfold move_mc, mc_ok. by rewrite attachPlugins_extra. Qed.

Lemma moved_to_accepted s req adm s1 drops s' :
  admit_request game s req = Ok adm → move_post (ad_State adm) req s1 → dropped drops →
  grows (step_log (Z.of_nat (length (st_Log s))))
    (set_st_Blocks (withoutBlocksFor (st_Blocks s1) drops) s1) s' →
  ∃ redact undoable rest, accepted s req adm redact undoable rest s'.
Proof.
  intros Hadm (g & red & und & p & [Hq Hb _ Hseed Hnow (n1 & Hl & HF) Hid Hund Hsnap]) Hdr.
  intros [(n2 & Hl2 & HF2) Hid2 (nb & Hb2) Hseed2 Hnow2 Hund2 Hsnap2].
  pose proof (admitted_state _ _ _ Hadm) as Hs. simpl in *.
  assert (Hfields : st_Log (ad_State adm) = st_Log s ∧ st_StateID (ad_State adm) = st_StateID s
    ∧ st_TurnSnapshots (ad_State adm) = st_TurnSnapshots s
    ∧ ctx_Seed (st_Ctx (ad_State adm)) = ctx_Seed (st_Ctx s)
    ∧ ctx_NowMs (st_Ctx (ad_State adm)) = rq_NowMs req) by (by rewrite Hs).
  destruct Hfields as (HL & HI & HT & HS & HN).
  exists red, und, (n1 ++ n2).
  unfold moved_state in *. destruct und; simpl in *; split; try done; try congruence; try lia;
    try (rewrite Hl2, Hl, HL; by rewrite <-!app_assoc);
    try (apply Forall_app; split; [|done]; eapply Forall_impl; [exact HF|by left]);
    try (exists drops, nb; split; [done|by rewrite Hb2, Hb]);
    try (destruct Hund, Hund2; congruence);
    destruct Hsnap, Hsnap2; rewrite ?app_nil_r; solve [left; congruence | right; congruence].
Qed.

Lemma applyExternal_accepted fuel c s req w s' w' :
  applyExternal fuel c game s req w = (Ok s', w') →
  ∃ adm redact undoable rest, accepted s req adm redact undoable rest s'.
Proof.
  unfold applyExternal. intros (adm & w1 & Hadm & H)%bind_Ok.
  unfold st_lift in Hadm. injection Hadm as Hadm <-.
  exists adm. revert s' w' H.
  cut (yields (λ s', ∃ redact undoable rest, accepted s req adm redact undoable rest s')
    (plugins ← buildAPIs game (ad_State adm) (rq_PlayerID req);
     '(next, e) ← in_env plugins (Some [])
                 (move_pipeline fuel game adm req (move_mc c adm req plugins));
     let next := set_st_Blocks (withoutBlocksFor (st_Blocks next) (drops_of e)) next in
     r ← drainCascade fuel c game next (queue_of e) (Z.of_nat (length (st_Log s)));
     st_raise r)).
  { intros Hy s' w' H. by apply (Hy _ _ _ H). }
  apply yield_skip. intros plugins.
  eapply spec_bind; [apply _|apply in_env_yields, move_pipeline_returns|].
  { by eapply admit_game_move. }
  { apply move_mc_ok. }
  intros [s1 e] [H1 (w2 & HR)]. cbv zeta. simpl in H1, HR.
  eapply spec_bind; [apply _|apply drainCascade_grows|].
  intros [s2 [err|]] H2; [apply spec_err|]. apply spec_ret; [apply _|].
  eapply moved_to_accepted; [done..| |by apply H2]. by exists plugins, w2, e.
Qed.

Lemma ApplyContext_inv fuel c s req w r w' :
  ApplyContext fuel c game s req w = (Ok r, w') →
  match r with
  | (s', None) => applyExternal fuel c game s req w = (Ok s', w')
  | (s', Some e) => s' = s ∧ applyExternal fuel c game s req w = (Err e, w')
  end.
Proof.
  unfold ApplyContext. intros (r0 & w0 & Htry & [<- <-]%ret_Ok)%bind_Ok.
  unfold st_try in Htry. destruct (applyExternal _ _ _ _ _ w) as [o w1].
  by destruct o; simplify_eq.
Qed.
End pipeline.

(** ** The players whose blocks an accepted request drops *)
Section names.
Context {T : GoTypes} (game : Game).
Implicit Types (s : State) (mc : MoveContext) (req : MoveRequest).

Let N := nameable game.
Let R := names_regime game.
#[local] Existing Instance R.

(** The run of the move within an accepted request, and what the request does
    given the drop list the run ends with. *)
Lemma applyExternal_run fuel c s req w s' w' :
  applyExternal fuel c game s req w = (Ok s', w') →
  ∃ adm redact undoable rest plugins w1 next e w2,
    in_env plugins (Some []) (move_pipeline fuel game adm req (move_mc c adm req plugins)) w1
      = (Ok (next, e), w2) ∧
    accepted game (λ _, True) (λ _ e', e' = e) s req adm redact undoable rest s'.
Proof.
  unfold applyExternal. intros (adm & w1 & Hadm & H)%bind_Ok.
  unfold st_lift in Hadm. injection Hadm as Hadm <-.
  apply bind_Ok in H as (plugins & w2 & _ & H). apply bind_Ok in H as ([next e] & w3 & Hrun & H).
  cbv beta iota zeta in H. apply bind_Ok in H as ([s2 oe] & w4 & Hd & H).
  destruct oe as [err|]; [done|]. simpl in H. apply ret_Ok in H as [-> ->].
  assert (Hmove : game_move game (ad_Move adm)) by by eapply admit_game_move.
  destruct (in_env_yields (names_more N) _ plugins (Some []) _
    (move_pipeline_returns game (λ _, True) (names_more N) fuel adm req _ Hmove
      (move_mc_ok _ c adm req plugins)) _ _ _ Hrun) as [_ [H1 (w5 & HR)]].
  destruct (drainCascade_grows game (λ _, True) (names_more N) _ _ _ _ _ _ _ _ Hd) as [_ HG].
  destruct (moved_to_accepted game (λ _, True) (λ _ e', e' = e) s req adm next (drops_of e) s')
    as (red & und & rest & Hacc); [done|exact H1|by eexists plugins, w5, e|by apply HG|].
  by exists adm, red, und, rest, plugins, w2, next, e, w3.
Qed.

Lemma any_ok mc : mc_ok (λ _, True) mc.
Proof. apply Forall_true. done. Qed.

Lemma skip_names {A B} (P : A → Prop) (m : M A) (f : A → M B) :
  spec (names_more N) P m → (∀ a, spec (names_more N) (λ _, True) (f a)) →
  spec (names_more N) (λ _, True) (m ≫= f).
Proof. intros Hm Hf. eapply spec_bind; [apply _|exact Hm|auto]. Qed.

(** What follows the move function keeps the names it put on the list. *)
Lemma move_tail_names fuel adm req s mc :
  spec (names_more N) (λ _, True)
    ('(next, mc) ← after_move game (ad_Move adm) req s mc;
     '(next, mc) ← drainEvents fuel game next mc;
     next ← auto_ends game (ad_Move adm) req next;
     '(next, mc) ← drainEvents fuel game next mc;
     mret (flushExtraLog next mc) : M State).
Proof.
  eapply skip_names; [by apply (after_move_drained game (λ _, True) (names_more N)), any_ok|]. intros [s1 mc1].
  eapply skip_names; [by apply (drainEvents_drained game (λ _, True) (names_more N)), any_ok|]. intros [s2 mc2].
  eapply skip_names; [apply (auto_ends_evolves game (λ _, True) (names_more N))|]. intros s3.
  eapply skip_names; [by apply (drainEvents_drained game (λ _, True) (names_more N)), any_ok|]. intros [s4 mc4].
  by apply spec_ret; [apply _|].
Qed.

Lemma call_flag_wired d flag mc e r mc' e' :
  call_flag d flag mc e = (Ok (r, mc'), e') → mc_Wired mc' = mc_Wired mc.
Proof.
  unfold call_flag. destruct flag; try by intros [[= -> ->] ->]%ret_Ok.
  unfold call. destruct (run _ _ _ _) as [[[a x]| | |] e1]; intros; by simplify_eq/=.
Qed.

(** A move function that always names [pid] has [pid] on the list afterwards. *)
Lemma move_names fuel adm req mc e s' e' pid fn :
  mc_Wired mc = true → is_Some (env_drops e) → game_move game (ad_Move adm) →
  mv_Move (ad_Move adm) = Some fn →
  (∀ mc, must_drop pid (applyFnWrapMove game fn mc (rq_Args req))) →
  move_pipeline fuel game adm req mc e = (Ok s', e') → named pid e'.
Proof.
  intros Hw He Hmove Hfn Hdrop. unfold move_pipeline.
  intros ([s1 mc1] & e1 & Hrun & Htail)%bind_Ok.
  eapply names_more_named; [by destruct (move_tail_names _ _ _ _ _ _ _ _ Htail)|]. clear Htail.
  unfold run_move in Hrun. apply bind_Ok in Hrun as ([u mc2] & e2 & Hu & Hrun).
  cbv beta iota zeta in Hrun. apply bind_Ok in Hrun as ([red mc3] & e3 & Hred & Hrun).
  cbv beta iota zeta in Hrun.
  assert (Hflag : ∀ d flag mc, (∀ f mc, flag = FlagFn f → uses (drops_only N) (f mc)) →
    spec (names_more N) (λ _, True) (call_flag d flag mc)).
  { intros d flag mc' Hf. eapply spec_weaken; [eapply (call_flag_ok game (λ _, True) (names_more N)); [exact Hf|apply any_ok]|done]. }
  assert (He2 : is_Some (env_drops e2)).
  { eapply names_more_drops; [|exact He]. eapply (Hflag true (mv_Undoable (ad_Move adm))); [|exact Hu].
    intros; eapply mu_undoable; [apply code_names|done..]. }
  assert (He3 : is_Some (env_drops e3)).
  { eapply names_more_drops; [|exact He2]. eapply (Hflag false (mv_Redact (ad_Move adm))); [|exact Hred].
    intros; eapply mu_redact; [apply code_names|done..]. }
  apply call_flag_wired in Hu, Hred. rewrite Hfn in Hrun.
  apply bind_Ok in Hrun as (fn' & e3' & [= <- <-] & Hrun).
  apply bind_Ok in Hrun as ([r mc4] & e4 & Hcall & Hrun). cbv beta iota in Hrun.
  assert (named pid e4) as Hn.
  { unfold call in Hcall. rewrite Hred, Hu, Hw in Hcall.
    destruct (run _ _ _ _) as [o e5] eqn:Hr. destruct o as [[a x]| | |]; simplify_eq.
    eapply run_must_drop; [apply Hdrop|exact Hr|exact He3]. }
  destruct r as [err|g]; [done|]. cbv zeta in Hrun.
  apply bind_Ok in Hrun as (s2 & e5 & Hfl & Hrun).
  apply bind_Ok in Hrun as ([] & e6 & Hv & [_ ->]%ret_Ok).
  apply (flushPluginsM_returns game (λ _, True) (names_more N)) in Hfl as [Hfl _].
  apply (validatePluginsM_returns game (λ _, True) (names_more N)) in Hv as [Hv _].
  eapply names_more_named; [exact Hv|]. by eapply names_more_named.
Qed.

(** The pending blocks after an accepted request: of the players the move's run names
    none is left but those raised meanwhile; only players the game's code may name are
    among them, and every player the request's move always names is. *)
Lemma applyExternal_blocks fuel c s req w s' w' :
  applyExternal fuel c game s req w = (Ok s', w') →
  ∃ adm redact undoable rest names raised,
    accepted game (λ _, True) (λ _ _, True) s req adm redact undoable rest s' ∧
    st_Blocks s' = filter (λ b, b_PlayerID b ∉ names) (st_Blocks (ad_State adm)) ++ raised ∧
    Forall N names ∧
    ∀ pid fn, mv_Move (ad_Move adm) = Some fn →
      (∀ mc, must_drop pid (applyFnWrapMove game fn mc (rq_Args req))) → pid ∈ names.
Proof.
  intros (adm & red & und & rest & plugins & w1 & next & e & w2 & Hrun & Hacc)%applyExternal_run.
  pose proof (ac_admitted _ _ _ _ _ _ _ _ _ _ Hacc) as Hadm.
  assert (Hmove : game_move game (ad_Move adm)) by by eapply admit_game_move.
  destruct Hacc as [_ Hl Hr Hi (drops & raised & (p' & w3 & e' & He' & ->) & Hb) Hs Hn Hu Hsn].
  unfold in_env in Hrun. destruct (move_pipeline _ _ _ _ _ _) as [o e1] eqn:Hpipe.
  destruct o as [x| | |]; try done. injection Hrun as <- <-.
  pose proof (move_pipeline_returns game (λ _, True) (names_more N) _ _ _ _ Hmove
    (move_mc_ok _ c adm req plugins) _ _ _ Hpipe) as [(l & Hdr & HN) _]. simpl in Hdr.
  subst e'. exists adm, red, und, rest, l, raised.
  split; [|split; [by unfold drops_of in Hb; rewrite Hdr in Hb|split; [exact HN|]]].
  - split; try done. exists l, raised. split; [|by unfold drops_of in Hb; rewrite Hdr in Hb].
    exists p', w3, e1. split; [done|]. unfold drops_of. by rewrite Hdr.
  - intros pid fn Hfn Hd. eapply move_names in Hpipe as (d & He & Hin); [|..]; try done.
    + rewrite Hdr in He. by injection He as <-.
    + unfold move_mc. by rewrite (proj1 (proj2 (attachPlugins_frame _ _))).
Qed.
End names.
