(* ===== verification/Replay.v ===== *)
(** * The log of a match

    The log an accepted request leaves behind, and the proof that replaying a
    match's log from its seed and setup reproduces the match
    ([src/core/replay.go]). *)

From S2P Require Import Prelude CoreTypes Api GameDef Plugins Transitions Reducer Session.
From S2P Require Import Admission Discipline Evolution MoveFacts.
#[local] Open Scope Z_scope.

Section definitions.
Context {T : GoTypes}.
Implicit Types (game : Game) (state : State).

(** Game code that does not pass its own log entries off as the engine's. *)
Definition no_forgery (o : op) : Prop :=
  match o with
  | opAddLog e => le_Kind e ≠ "move" ∧ le_Kind e ≠ "drain-step"
  | _ => True
  end.

Definition honest game : Prop := code_uses no_forgery game.

(** A match's history: requests applied one after the other, all accepted. *)
Fixpoint play (fuel : nat) game state (reqs : list MoveRequest) : ST world error State :=
  match reqs with
  | [] => mret state
  | req :: reqs =>
      '(next, err) ← Apply fuel game state req;
      match err with
      | Some e => st_err e
      | None => play fuel game next reqs
      end
  end.
End definitions.

Section log.
Context {T : GoTypes}.
Implicit Types (game : Game) (s : State) (req : MoveRequest).

Definition game_log (e : LogEntry) : Prop := le_Kind e ≠ "move" ∧ le_Kind e ≠ "drain-step".

Lemma AddLog_honest ctx e : no_forgery (opAddLog e) → game_log (AddLog_entry ctx e).
Proof. intros [??]. unfold AddLog_entry, game_log. simpl. by case_decide. Qed.

Lemma chained_honest s parent name args : game_log (chained_entry s parent name args).
Proof. done. Qed.

Definition honest_regime game (Hg : honest game) : Regime game game_log (λ _ _, True) :=
  log_regime game no_forgery game_log Hg AddLog_honest chained_honest.

Lemma honest_accepted fuel c game s req w s' w' :
  honest game → applyExternal fuel c game s req w = (Ok s', w') →
  ∃ adm redact undoable rest,
    accepted game game_log (λ _ _, True) s req adm redact undoable rest s'.
Proof. intros Hg H. 
  pose (R := honest_regime game Hg).
  by eapply (applyExternal_accepted game game_log (λ _ _, True)).
Qed.

Lemma any_accepted fuel c game s req w s' w' :
  applyExternal fuel c game s req w = (Ok s', w') →
  ∃ adm redact undoable rest,
    accepted game (λ _, True) (λ _ _, True) s req adm redact undoable rest s'.
Proof. intros H. 
  pose (R := any_regime game).
  by eapply (applyExternal_accepted game (λ _, True) (λ _ _, True)).
Qed.

Lemma step_log_not_move idx e : step_log game_log idx e → le_Kind e ≠ "move".
Proof. intros [[??]|[-> ?]]; done. Qed.

(** Setting up a match logs no move. *)
Lemma runPluginSetup_frame game s w :
  ∃ p, (runPluginSetup game s w).1 = set_st_Plugins p s.
Proof.
  unfold runPluginSetup. destruct (gm_Plugins game) as [|p ps].
  { exists (st_Plugins s). by destruct s. }
  generalize (p :: ps). clear p ps. intros ps.
  assert (∃ p, alloc_plugins s = set_st_Plugins p s) as [p Hp] by by eexists.
  generalize dependent (alloc_plugins s). revert p w.
  induction ps as [|pl ps IH]; intros p w s1 ->; simpl; [by exists p|].
  unfold setup_one at 2. destruct (pl_Setup pl) as [f|]; [|by eapply IH].
  destruct (f _ _ w) as [d w2]. by eapply IH.
Qed.

Lemma setup_pipeline_log fuel game s0 :
  honest game →
  spec (λ _ _, True) (λ s, (∃ new, st_Log s = st_Log s0 ++ new ∧ Forall game_log new) ∧
                           ctx_Seed (st_Ctx s) = ctx_Seed (st_Ctx s0))
    (setup_pipeline fuel game s0).
Proof.
  intros Hg. pose (R := honest_regime game Hg). set (RS := λ _ _ : hookEnv, True).
  unfold setup_pipeline.
  eapply spec_bind; [apply _|apply (env_mcNoEvents_returns game_log RS)|]. intros mc _.
  apply (spec_bind _ (λ s1, evolves game_log s0 s1)).
  { by apply (applyTurnOrderFirst_evolves game game_log RS). }
  intros s1 H1.
  apply (spec_bind _ (λ s2, evolves game_log s0 s2)).
  { eapply ev_after; [exact H1|].
    eapply ev_after_same; [apply applyActivePlayersFromTurn_record|].
    by apply (runPhaseOnBegin_evolves game game_log RS). }
  intros s2 H2.
  apply (spec_bind _ (λ s3, evolves game_log s0 s3)).
  { eapply ev_after; [exact H2|]. by apply (runTurnOnBegin_evolves game game_log RS). }
  intros s3 H3. eapply spec_bind; [apply _|apply (env_mc_returns game_log RS)|].
  intros mc3 Hmc3.
  eapply spec_bind; [apply _|by apply (drainEvents_drained game game_log RS)|].
  intros [s4 mc4] [H4 _].
  eapply spec_weaken; [by apply (flushPluginsM_returns game game_log RS)|].
  intros s5 [p ->]. simpl.
  pose proof (transitivity H3 H4) as H34. split; [|apply (ev_seed _ _ _ H34)].
  destruct (ev_log _ _ _ H34) as (new & Hn & HF). by exists new.
Qed.

Lemma cascade_loop_log fuel budget c game start s idx :
  honest game →
  let ok s' := Forall (step_log game_log idx) (st_Log s') ∧ ctx_Seed (st_Ctx s') = ctx_Seed (st_Ctx start) in
  ok start → ok s → yields (λ r, ok r.1) (cascade_loop fuel budget c game start s idx).
Proof.
  intros Hg ok Hstart. revert s. induction budget as [|budget IH]; intros s Hs; simpl;
    (case_match; [|by apply spec_ret; [apply _|]]).
  { by apply spec_ret; [apply _|]. }
  case_match; [by apply spec_ret; [apply _|]|].
  eapply (spec_bind _ (λ r, match r with
    | inr s1 => ok s1 | inl _ => True end)).
  { intros w r w' Hr. split; [done|]. unfold st_try in Hr.
    destruct (applyStep _ _ _ _ _ _ w) as [o w1] eqn:Ho. destruct o; simplify_eq; [|done].
    pose (R := honest_regime game Hg).
    eapply (applyStep_grows game game_log (λ _ _, True)) in Ho as [_ [(new & Hn & HF) _ _ Hseed _ _ _]].
    destruct Hs as [Hlog Hs]. split; [rewrite Hn; by apply Forall_app|by rewrite Hseed]. }
  intros [err|s1] H1; [by apply spec_ret; [apply _|]|]. by apply IH.
Qed.

Lemma NewMatchSeeded_log fuel game n sd seed :
  honest game →
  yields (λ s, Forall (step_log game_log (-1)) (st_Log s) ∧ ctx_Seed (st_Ctx s) = seed)
    (NewMatchSeeded fuel game n sd seed).
Proof.
  intros Hg. unfold NewMatchSeeded.
  eapply (spec_bind _ (λ r, Forall (step_log game_log (-1)) (st_Log r.1) ∧ ctx_Seed (st_Ctx r.1) = seed));
    [|intros [s ?] ?; by apply spec_ret; [apply _|]].
  unfold NewMatchSeededE. cbv zeta. apply spec_skip; [done|done|]. intros first.
  apply spec_skip; [done|done|]. intros g.
  eapply (spec_bind _ (λ s, st_Log s = [] ∧ ctx_Seed (st_Ctx s) = seed)).
  { intros w s w' H. split; [done|]. unfold run_plugin_setup in H.
    match type of H with context [runPluginSetup ?g ?s ?w] =>
      destruct (runPluginSetup_frame g s w) as [p Hp] end.
    destruct (runPluginSetup _ _ _). by simplify_eq/=. }
  intros s0 [Hs0 Hseed]. apply spec_skip; [done|done|]. intros plugins.
  eapply (spec_bind _ (λ r, Forall game_log (st_Log r.1) ∧ ctx_Seed (st_Ctx r.1) = seed)).
  { eapply spec_weaken;
      [apply (in_env_yields (λ _ _, True) (λ s, Forall game_log (st_Log s) ∧ ctx_Seed (st_Ctx s) = seed))
      |by intros ? [? _]].
    eapply spec_weaken; [by apply setup_pipeline_log|]. simpl. intros s [(new & -> & Hn) ->].
    by rewrite Hs0. }
  intros [s1 e] [H1 H1']. simpl in H1, H1'.
  assert (Hstart : Forall (step_log game_log (-1)) (st_Log (harvestQueue s1 (queue_of e)))).
  { eapply Forall_impl; [exact H1|]. by left. }
  assert (Hs : ctx_Seed (st_Ctx (harvestQueue s1 (queue_of e))) = seed) by exact H1'.
  unfold drainCascade. eapply spec_weaken; [by apply (cascade_loop_log _ _ _ _ _ _ _ Hg)|].
  simpl. intros r [Hr ->]. by split.
Qed.

(** The seed of a match never changes. *)
Lemma play_seed fuel game reqs s w s' w' :
  play fuel game s reqs w = (Ok s', w') → ctx_Seed (st_Ctx s') = ctx_Seed (st_Ctx s).
Proof.
  revert s w. induction reqs as [|req reqs IH]; intros s w H; simpl in H.
  { by apply ret_Ok in H as [-> _]. }
  apply bind_Ok in H as ([s1 [e|]] & w1 & HA & H); [done|].
  rewrite (IH _ _ H). apply ApplyContext_inv, any_accepted in HA as (adm & red & und & rest & Hacc).
  apply (ac_seed _ _ _ _ _ _ _ _ _ _ Hacc).
Qed.

(** Replaying the entry of an admitted request is admitted the same way. *)
Lemma resumes_ext req req' blocks r l :
  rq_ResumeTag req' = rq_ResumeTag req → rq_PlayerID req' = rq_PlayerID req →
  rq_Move req' = rq_Move req → resumes req blocks r l → resumes req' blocks r l.
Proof.
  intros H1 H2 H3 Hr.
  assert (Ha : ∀ b, answers req' b ↔ answers req b).
  { intros b. unfold answers. by rewrite H1, H2, H3. }
  destruct Hr as [|before b after ? Hb Hn]; constructor; try congruence.
  - by apply Ha.
  - eapply Forall_impl; [exact Hn|]. intros b'. by rewrite Ha.
Qed.

Lemma admit_replay game s req adm s1 redact undoable :
  admit_request game s req = Ok adm →
  admit_request game s (replay_request (move_entry s1 req redact undoable)) = Ok adm.
Proof.
  rewrite !admit_iff_rules. intros [??????? _ ?]. split; try done.
  - by apply (resumes_ext req).
  - by left.
Qed.

Lemma applyExternal_replay fuel c game s req adm s1 redact undoable w :
  admit_request game s req = Ok adm →
  applyExternal fuel c game s (replay_request (move_entry s1 req redact undoable)) w =
  applyExternal fuel c game s req w.
Proof.
  intros Hadm. pose proof (admit_replay _ _ _ _ s1 redact undoable Hadm) as Hadm'.
  unfold applyExternal. rewrite Hadm, Hadm'. reflexivity.
Qed.

Lemma Apply_Ok fuel game s req w s' w' :
  Apply fuel game s req w = (Ok (s', None), w') ↔
  applyExternal fuel ctxBackground game s req w = (Ok s', w').
Proof.
  split; [intros H; exact (ApplyContext_inv _ _ _ _ _ _ _ _ H)|]. intros H.
  unfold Apply, ApplyContext, mbind, ST_bind, st_bind, st_try. by rewrite H.
Qed.

Lemma replay_skip fuel game k step s l l' :
  Forall (λ e, le_Kind e ≠ "move") l →
  replay_loop fuel game k step s (l ++ l') = replay_loop fuel game k step s l'.
Proof. induction 1; simpl; [done|]. by rewrite decide_False by done. Qed.

Lemma play_replay fuel game reqs s w s' w' :
  honest game → play fuel game s reqs w = (Ok s', w') →
  ∃ suffix, st_Log s' = st_Log s ++ suffix ∧
    ∀ step, replay_loop fuel game (-1) step s suffix w = (Ok (s', None), w').
Proof.
  intros Hg. revert s w. induction reqs as [|req reqs IH]; intros s w Hplay; simpl in Hplay.
  { apply ret_Ok in Hplay as [-> ->]. exists []. by rewrite app_nil_r. }
  apply bind_Ok in Hplay as ([s1 [e|]] & w1 & HA & Hplay); [done|].
  apply Apply_Ok in HA.
  destruct (honest_accepted _ _ _ _ _ _ _ _ Hg HA) as (adm & red & und & rest & Hacc).
  apply IH in Hplay as (suffix & Hlog & Hrep).
  exists (move_entry (ad_State adm) req red und :: rest ++ suffix). split.
  { rewrite Hlog, (ac_log _ _ _ _ _ _ _ _ _ _ Hacc). by rewrite <-app_assoc. }
  intros step. cbn [replay_loop]. rewrite decide_True by done.
  erewrite bind_run_Ok.
  2: { apply Apply_Ok.
       rewrite (applyExternal_replay _ _ _ _ _ _ _ _ _ _ (ac_admitted _ _ _ _ _ _ _ _ _ _ Hacc)).
       exact HA. }
  cbv beta iota. rewrite decide_False by lia.
  rewrite replay_skip; [apply Hrep|].
  eapply Forall_impl; [apply (ac_rest _ _ _ _ _ _ _ _ _ _ Hacc)|].
  intros e. apply step_log_not_move.
Qed.

(** A history from the setup on, as a replay from the setup. *)
Lemma history_replays fuel game numPlayers setupData seed reqs s w0 w :
  honest game →
  (s0 ← NewMatchSeeded fuel game numPlayers setupData seed; play fuel game s0 reqs) w0 = (Ok s, w) →
  ReplaySeeded fuel game (st_Log s) numPlayers setupData seed w0 = (Ok (s, None), w) ∧
  ctx_Seed (st_Ctx s) = seed.
Proof.
  intros Hg (s0 & w1 & Hnew & Hplay)%bind_Ok. unfold ReplaySeeded, ReplayUntilSeeded.
  destruct (NewMatchSeeded_log fuel game numPlayers setupData seed Hg _ _ _ Hnew) as [_ [HF Hseed]].
  split; [|by rewrite (play_seed _ _ _ _ _ _ _ Hplay)].
  erewrite bind_run_Ok by exact Hnew. rewrite decide_False by lia.
  destruct (play_replay _ _ _ _ _ _ _ Hg Hplay) as (suffix & -> & Hrep).
  rewrite replay_skip; [apply Hrep|].
  eapply Forall_impl; [exact HF|]. intros e. apply step_log_not_move.
Qed.
End log.
