(* ===== verification/Example.v ===== *)
(** * A small game

    A two-player game run through the engine's definitions: the concrete input
    the development's theorems are applied to.  Its values are integers, its
    memory is one integer. *)

From S2P Require Import Prelude CoreTypes Api GameDef Plugins Transitions Reducer Session.
From S2P Require Import Discipline Replay.
#[local] Open Scope Z_scope.

#[export] Instance ZTypes : GoTypes :=
  {| val := Z; world := Z; val_true := 1; randref := unit; as_Random := λ _, None |}.

Section counter.
Definition G_of (mc : MoveContext) : Z := default 0 (mc_G mc).

(** Adds one to G. *)
Definition inc : MoveFn := λ mc _, Ret (inr (Some (G_of mc + 1))).
(** Ends the turn. *)
Definition pass : MoveFn := λ mc _, _ ← Events_EndTurn []; Ret (inr (mc_G mc)).
(** Queues two increments and asks player 1 for a move. *)
Definition cast : MoveFn := λ mc _,
  _ ← mcQueue_Push "0" "inc" []; _ ← mcQueue_Push "0" "inc" [];
  _ ← mcQueue_Block "prompt" "1" None [AnsweredBy "answer"]; Ret (inr (mc_G mc)).
(** Answers the prompt: writes the memory and logs a custom entry. *)
Definition answer : MoveFn := λ mc _,
  OpWrite 7 (OpAddLog (mkLog "" "note" "" [] 0 0 "" "" false false 0 "" false)
    (Ret (inr (Some (G_of mc + 10))))).
(** Always fails. *)
Definition bad : MoveFn := λ mc _, Ret (inl (ErrGameCode "bad")).

Definition moves : gmap string MoveEntry :=
  <["inc" := EntryFn inc]> (<["pass" := EntryFn pass]> (<["cast" := EntryFn cast]>
  (<["answer" := EntryFn answer]> (<["bad" := EntryFn bad]>
  (<["admin" := EntryMove (mkMove (Some inc) (FlagBool false) (FlagBool true)
                             true false false 0 false true)]> ∅))))).

Definition counter : Game := mkGame "counter" 2 2 (Some (λ c d w, (Some 0, w))) moves None ∅
  None None None None None false [].

Definition req (player move : string) : MoveRequest := mkReq player move [] 0 "" 5 false true.
Definition resume (player move tag : string) : MoveRequest :=
  mkReq player move [] 0 tag 6 false true.

Definition fuel0 : nat := 40.

(** The match after the given requests, and the memory. *)
Definition after (reqs : list MoveRequest) : outcome error State * world :=
  (s ← NewMatchSeeded fuel0 counter 0 None 42; play fuel0 counter s reqs) 0.

Definition state_after (reqs : list MoveRequest) : State :=
  match (after reqs).1 with
  | Ok s => s
  | _ => blank_state None (initial_ctx counter 0 "" 0)
  end.

Lemma counter_no_phase n p : gm_Phases counter !! n ≠ Some p.
Proof. exact (lookup_empty_Some _ _). Qed.

Lemma counter_no_turn t : ¬ game_turn counter t.
Proof. intros [|(n & p & Hn & _)]; [done | by eapply counter_no_phase]. Qed.

Lemma counter_no_hook h : ¬ game_hook counter h.
Proof.
  pose proof counter_no_phase as Hp.
  pose proof counter_no_turn as Ht.
  assert (Hs : ∀ sc, ¬ game_stage counter sc) by (intros sc (t & n & H & _); by eapply Ht).
  intros []; try done; try (by eapply Hp); try (by eapply Ht); by eapply Hs.
Qed.

Lemma counter_entries v :
  game_entry counter v →
  v = EntryFn inc ∨ v = EntryFn pass ∨ v = EntryFn cast ∨ v = EntryFn answer ∨
  v = EntryFn bad ∨
  v = EntryMove (mkMove (Some inc) (FlagBool false) (FlagBool true)
                   true false false 0 false true).
Proof.
  intros [(n & H)|[(n & p & ms & k & Hn & _)|(sc & k & (t & n & Ht & _) & _)]].
  - unfold counter, moves in H; simpl in H.
    repeat (apply lookup_insert_Some in H as [[_ <-]|[_ H]]; [tauto|]).
    by apply lookup_empty_Some in H.
  - by apply counter_no_phase in Hn.
  - destruct Ht as [|(n' & p & Hn & _)]; [done | by apply counter_no_phase in Hn].
Qed.

(** The game has no hooks, no turn or phase configuration and no EndIf. *)
Lemma counter_hooks (P : op → Prop) : hooks_use P counter.
Proof.
  split.
  - intros h k mc H. by apply counter_no_hook in H.
  - intros t f mc Ht. by destruct (counter_no_turn t).
  - intros t f mc Ht. by destruct (counter_no_turn t).
  - intros t f mc Ht. by destruct (counter_no_turn t).
  - intros n p f mc Hp. by apply counter_no_phase in Hp.
  - done.
Qed.

(** Every move of the game obeys [P] if its calls do. *)
Lemma counter_uses (P : op → Prop) :
  (∀ o, match o with
        | opAddLog e => le_Kind e = ""
        | opEvent ev => ev = evEndTurn ""
        | opPush _ | opBlock _ | opWrite _ => True
        | _ => False
        end → P o) →
  code_uses P counter.
Proof.
  intros HP. split; [apply counter_hooks|].
  assert (Hfn : ∀ m fn mc args, game_move counter m → mv_Move m = Some fn →
            uses P (fn mc args)).
  { intros m fn mc args (v & Hv%counter_entries & Hm) Hfn.
    destruct_or? Hv; subst v; simplify_eq/=; repeat (constructor; [by apply HP|]);
      constructor. }
  split.
  - exact Hfn.
  - intros. unfold applyFnWrapMove. simpl. eauto.
  - intros m f mc (v & Hv%counter_entries & Hm) Hf.
    destruct_or? Hv; subst v; simplify_eq/=.
  - intros m f mc (v & Hv%counter_entries & Hm) Hf.
    destruct_or? Hv; subst v; simplify_eq/=.
Qed.

Lemma counter_honest : honest counter.
Proof.
  apply counter_uses. intros [] H; simpl in *; auto.
  by rewrite H.
Qed.
End counter.
