(* ===== verification/Termination.v ===== *)
(** * The engine comes to an end

    The mutual recursion of [endPhase] and [advancePlayOrderPos] is never deeper
    than [rotation_depth]; the event drain of a game whose hooks queue no events
    stops within a fixed number of rounds, because RunMove is bounded; and the
    fuel given to either only decides whether a result is produced, never
    which. *)

From S2P Require Import Prelude CoreTypes Api GameDef Plugins Transitions Reducer Session.
From S2P Require Import Discipline Evolution MoveFacts Admission.
#[local] Open Scope Z_scope.

(** ** Nothing but the event drain needs fuel *)
Section halts.
Context {T : GoTypes}.
Implicit Types (game : Game) (s state : State) (mc : MoveContext).

Lemma call_halts {A} mc (p : prog A) : halts (call mc p).
Proof.
  intros e. unfold call. 
  pose proof (run_not_NoFuel (mc_Ctx mc) p (mc_extra mc) (if mc_Wired mc then e else detach e)).
  by destruct (run _ _ _ _) as [[[]|e1| |] e'].
Qed.

Lemma env_mc_halts s pid : halts (env_mc s pid).
Proof. by intros e. Qed.
Lemma env_mcNoEvents_halts s : halts (env_mcNoEvents s).
Proof. by intros e. Qed.

Ltac halts := repeat first
  [ apply call_halts | apply env_mc_halts | apply env_mcNoEvents_halts
  | apply halts_ret | apply halts_some | apply halts_err
  | apply halts_bind; [|let a := fresh in intros a; try (destruct a)]
  | progress cbv zeta
  | progress case_decide | progress case_match ].

Lemma fireHook_halts game h kind pid s : halts (fireHook game h kind pid s).
Proof. unfold fireHook. halts. Qed.

Lemma runPhaseOnBegin_halts game s : halts (runPhaseOnBegin game s).
Proof. unfold runPhaseOnBegin. halts. apply fireHook_halts. Qed.

Lemma runTurnOnBegin_halts game s : halts (runTurnOnBegin game s).
Proof. apply fireHook_halts. Qed.

Lemma setStage_halts game s pid stage : halts (setStage game s pid stage).
Proof. apply fireHook_halts. Qed.

Lemma setStageLong_halts game s pid opts : halts (setStageLong game s pid opts).
Proof. unfold setStageLong. halts. apply setStage_halts. Qed.

Lemma endStage_halts game s pid : halts (endStage game s pid).
Proof.
  unfold endStage. case_match; [|halts]. apply halts_bind; [apply fireHook_halts|].
  intros s1. halts. apply setStage_halts.
Qed.

Lemma set_current_from_pos_halts s : halts (set_current_from_pos s).
Proof. unfold set_current_from_pos. halts. Qed.

Lemma applyTurnOrderFirst_halts game s mc : halts (applyTurnOrderFirst game s mc).
Proof. unfold applyTurnOrderFirst. halts; apply set_current_from_pos_halts. Qed.

Lemma runPhaseEnter_halts game s : halts (runPhaseEnter game s).
Proof.
  unfold runPhaseEnter. apply halts_bind; [halts|]. intros mc.
  apply halts_bind; [apply applyTurnOrderFirst_halts|]. intros s1.
  apply halts_bind; [apply runPhaseOnBegin_halts|]. intros s2. apply runTurnOnBegin_halts.
Qed.

(** The recursive call is made on the very state [advancePlayOrderPos] got. *)
Lemma advancePlayOrderPos_halts f s turn :
  halts (f s) → halts (advancePlayOrderPos f s turn).
Proof.
  intros Hf. unfold advancePlayOrderPos. cbv zeta. case_decide; [halts|].
  apply halts_bind; [halts|]. intros mc. case_match; [|apply set_current_from_pos_halts].
  apply halts_bind; [halts|]. intros [[n|] mc']; [apply set_current_from_pos_halts | done].
Qed.

Lemma endPhase_outside depth game s :
  ctx_Phase (st_Ctx s) = "" → endPhase (S depth) game s "" = mret s.
Proof. intros Hp. simpl. by rewrite decide_True. Qed.

Lemma endPhase_halts depth game s next : halts (endPhase (S (S depth)) game s next).
Proof.
  cbn [endPhase]. cbv zeta. case_decide.
  { case_decide; [halts | apply runPhaseEnter_halts]. }
  case_match; [|halts].
  apply halts_bind; [apply fireHook_halts|]. intros s1.
  apply halts_bind; [unfold resolveNextPhase; halts|]. intros target.
  apply halts_bind; [apply fireHook_halts|]. intros s2. case_decide as Ht.
  - apply halts_bind.
    + apply advancePlayOrderPos_halts. rewrite decide_True; [apply halts_ret | done].
    + intros s3. apply runTurnOnBegin_halts.
  - apply runPhaseEnter_halts.
Qed.

Lemma endTurn_halts game s next : halts (endTurn game s next).
Proof.
  unfold endTurn. apply halts_bind; [apply fireHook_halts|]. intros s1. cbv zeta. case_decide.
  - apply halts_bind; [apply advancePlayOrderPos_halts, endPhase_halts|].
    intros s2. case_match; [halts | apply runTurnOnBegin_halts].
  - apply runTurnOnBegin_halts.
Qed.

Lemma removePlayer_halts game s pid : halts (removePlayer game s pid).
Proof.
  unfold removePlayer. cbv zeta. case_match; [|halts]. case_decide; [halts|].
  apply halts_bind; [apply set_current_from_pos_halts|]. intros s1.
  apply halts_bind; [case_match; [apply endTurn_halts | halts]|]. intros s2. halts.
Qed.

Lemma runChainedMove_halts game s mc name args : halts (runChainedMove game s mc name args).
Proof. unfold runChainedMove. halts. Qed.

Lemma drain_one_halts game s mc ev : halts (drain_one game s mc ev).
Proof.
  destruct ev as [next| | |stage [opts|]|phase|res|cfg| |pid|name args]; cbn [drain_one]; cbv zeta;
    try case_match; try case_decide; try apply halts_ret;
    (apply halts_bind; [|intros; apply halts_ret]);
    first [apply endTurn_halts | apply endPhase_halts | apply endStage_halts
          |apply setStageLong_halts | apply setStage_halts | apply removePlayer_halts
          |apply fireHook_halts | apply runChainedMove_halts | apply halts_ret].
Qed.

Lemma drain_batch_halts game batch s mc : halts (drain_batch game s mc batch).
Proof.
  revert s mc. induction batch as [|ev batch IH]; intros s mc; simpl; [apply halts_ret|].
  apply halts_bind; [apply drain_one_halts|]. intros []. apply IH.
Qed.
End halts.

(** ** The event drain *)
Section drain.
Context {T : GoTypes} (game : Game).
Hypothesis Hquiet : hooks_use queues_no_event game.
Implicit Types (s state : State) (mc : MoveContext).

Abbreviation chained := mc_chainedMoves.

Lemma quiet {A} (Q : A → Prop) (m : M A) e a e' :
  spec same_events Q m → m e = (Ok a, e') → env_events e' = env_events e.
Proof. intros Hm H. by apply Hm in H as [? _]. Qed.

(** One event either leaves the queue alone or uses up one of the chained moves. *)
Definition progress_or_quiet (c c' : Z) (e e' : hookEnv) : Prop :=
  c ≤ c' ∧ (env_events e' = env_events e ∨ c < c' ∧ c < maxChainedMoves).

Lemma done_quiet s mc (m : M State) e s' mc' e' :
  spec same_events (evolves (λ _, True) s) m →
  (s1 ← m; mret (s1, refresh s1 mc)) e = (Ok (s', mc'), e') →
  chained mc' = chained mc ∧ env_events e' = env_events e.
Proof.
  intros Hm (s1 & e1 & H & [[= <- <-] <-]%ret_Ok)%bind_Ok. split; [done|]. by eapply quiet.
Qed.

Lemma drain_one_progress s mc ev e s' mc' e' :
  drain_one game s mc ev e = (Ok (s', mc'), e') →
  progress_or_quiet (chained mc) (chained mc') e e'.
Proof.
  pose (R := quiet_hooks_regime game Hquiet). set (L := λ _ : LogEntry, True).
  intros H. unfold progress_or_quiet.
  assert (Hdone : ∀ m : M State, spec same_events (evolves L s) m →
    (s1 ← m; mret (s1, refresh s1 mc)) e = (Ok (s', mc'), e') →
    chained mc ≤ chained mc' ∧ (env_events e' = env_events e ∨
      chained mc < chained mc' ∧ chained mc < maxChainedMoves)).
  { intros m Hm Hr. destruct (done_quiet _ _ _ _ _ _ _ Hm Hr) as [-> ->]. split; [lia|auto]. }
  assert (Hskip : (mret (s, mc) : M _) e = (Ok (s', mc'), e') →
    chained mc ≤ chained mc' ∧ (env_events e' = env_events e ∨
      chained mc < chained mc' ∧ chained mc < maxChainedMoves)).
  { intros [[= <- <-] <-]%ret_Ok. split; [lia|auto]. }
  destruct ev as [next| | |stage [opts|]|phase|res|cfg| |pid|name args]; cbn [drain_one] in H;
    cbv zeta in H; try (case_match; [by apply Hskip|]);
    try (eapply Hdone; [|exact H];
         first [apply (endTurn_evolves game L same_events)
               |apply (endPhase_evolves game L same_events)
               |apply (endStage_evolves game L same_events)
               |apply (setStageLong_evolves game L same_events)
               |apply (setStage_evolves game L same_events)
               |apply (removePlayer_evolves game L same_events)
               |by apply (ev_ret L same_events), applySetActivePlayers_record
               |by eapply ev_after_same; [|apply (runGameOnEnd_evolves game L same_events)];
                   repeat split]).
  case_decide as Hmax.
  - apply ret_Ok in H as [[= <- <-] <-]. simpl. split; [lia|auto].
  - apply bind_Ok in H as (s1 & e1 & _ & [[= <- <-] <-]%ret_Ok). simpl in *.
    split; [lia|]. right. unfold maxChainedMoves in *. lia.
Qed.

Lemma drain_batch_progress batch s mc e s' mc' e' :
  drain_batch game s mc batch e = (Ok (s', mc'), e') →
  progress_or_quiet (chained mc) (chained mc') e e'.
Proof.
  revert s mc e. induction batch as [|ev batch IH]; intros s mc e; simpl.
  { intros [[= <- <-] <-]%ret_Ok. split; [lia|auto]. }
  intros ([s1 mc1] & e1 & H1%drain_one_progress & H2%IH)%bind_Ok.
  destruct H1 as [Hle1 H1], H2 as [Hle2 H2]. split; [lia|].
  destruct H1 as [H1|[? ?]]; [destruct H2 as [H2|[? ?]]|].
  - left. congruence.
  - right. lia.
  - right. lia.
Qed.

Lemma drainEvents_idle fuel s mc e :
  env_events e = Some [] → (drainEvents (S fuel) game s mc e).1 = Ok (s, mc).
Proof.
  intros He. simpl. unfold mbind, ST_bind, st_bind, Events_drain. by rewrite He.
Qed.

(** Rounds that may still be needed: one per chained move left, the current one
    and the one that finds the queue empty. *)
Lemma drainEvents_halts_from fuel s mc :
  (Z.to_nat (maxChainedMoves - chained mc) + 2 ≤ fuel)%nat → halts (drainEvents fuel game s mc).
Proof.
  revert s mc. induction fuel as [|fuel IH]; intros s mc Hfuel; [lia|].
  intros e. cbn [drainEvents]. unfold mbind at 1, ST_bind at 1, st_bind at 1, Events_drain.
  destruct (env_events e) as [[|ev batch]|] eqn:He; try done.
  set (e1 := set_env_events (Some []) e). generalize (ev :: batch). intros l.
  unfold mbind, ST_bind, st_bind.
  pose proof (drain_batch_halts game l s mc e1) as Hh.
  destruct (drain_batch game s mc l e1) as [[[s1 mc1]|er| |] e2] eqn:Hb; try done.
  apply drain_batch_progress in Hb as [Hle [Hq|[Hlt Hmax]]].
  - destruct fuel as [|fuel]; [lia|]. by rewrite drainEvents_idle.
  - apply IH. lia.
Qed.

Definition enough_fuel : nat := 34.

Lemma drainEvents_halts fuel s mc :
  (enough_fuel ≤ fuel)%nat → 0 ≤ chained mc → halts (drainEvents fuel game s mc).
Proof.
  intros Hf Hc. apply drainEvents_halts_from. unfold maxChainedMoves, enough_fuel in *. lia.
Qed.

(** The working context keeps a non-negative counter. *)
Lemma drainEvents_counter fuel s mc e s' mc' e' :
  drainEvents fuel game s mc e = (Ok (s', mc'), e') → chained mc ≤ chained mc'.
Proof.
  revert s mc e. induction fuel as [|fuel IH]; intros s mc e; simpl; [done|].
  intros (batch & e1 & _ & H)%bind_Ok. destruct batch as [|ev batch].
  { apply ret_Ok in H as [[= <- <-] <-]. lia. }
  apply bind_Ok in H as ([s1 mc1] & e2 & [Hle _]%drain_batch_progress & H%IH). lia.
Qed.
End drain.

(** ** Whole requests *)
Section requests.
Context {T : GoTypes} (game : Game).
Hypothesis Hquiet : hooks_use queues_no_event game.
Implicit Types (s state : State) (mc : MoveContext) (req : MoveRequest).

Abbreviation counted mc := (0 ≤ mc_chainedMoves mc).
Abbreviation counts Q m := (spec (λ _ _ : hookEnv, True) Q m).

Lemma call_counted {A} mc (p : prog A) : counted mc → counts (λ r, counted r.2) (call mc p).
Proof.
  intros Hc e [a mc'] e' H. split; [done|]. unfold call in H.
  destruct (run _ _ _ _) as [[[]| | |] ?]; by simplify_eq.
Qed.

Lemma call_flag_counted d flag mc : counted mc → counts (λ r, counted r.2) (call_flag d flag mc).
Proof.
  intros Hc. unfold call_flag. case_match; try (by apply spec_ret; [apply _|]).
  by apply call_counted.
Qed.

Lemma call_flag_halts d flag mc : halts (call_flag d flag mc).
Proof. unfold call_flag. case_match; first [apply halts_ret | apply call_halts]. Qed.

Lemma flushPluginsM_halts s mc : halts (flushPluginsM game s mc).
Proof. intros e. unfold flushPluginsM. by destruct (flushPlugins _ _ _ _). Qed.

Lemma validatePluginsM_halts s : halts (validatePluginsM game s).
Proof. intros e. unfold validatePluginsM. by case_match. Qed.

Definition counted_run {A} (m : M (A * MoveContext)) : Prop :=
  halts m ∧ counts (λ r, counted r.2) m.

Lemma counted_bind {A B} (m : M (A * MoveContext)) (f : A * MoveContext → M B) :
  counted_run m → (∀ a mc, counted mc → halts (f (a, mc))) → halts (m ≫= f).
Proof.
  intros [Hm Hs] Hf. eapply halts_bind_spec; [done|exact Hs|]. intros [a mc]. apply Hf.
Qed.

Lemma counted_run_bind {A B} (m : M (A * MoveContext)) (f : A * MoveContext → M (B * MoveContext)) :
  counted_run m → (∀ a mc, counted mc → counted_run (f (a, mc))) → counted_run (m ≫= f).
Proof.
  intros [Hm Hs] Hf. split.
  - eapply halts_bind_spec; [done|exact Hs|]. intros [a mc] Hc. by apply Hf.
  - eapply spec_bind; [apply _|exact Hs|]. intros [a mc] Hc. by apply Hf.
Qed.

Lemma counted_run_skip {A B} (m : M A) (f : A → M (B * MoveContext)) :
  halts m → (∀ a, counted_run (f a)) → counted_run (m ≫= f).
Proof.
  intros Hm Hf. split.
  - apply halts_bind; [done|]. intros a. apply Hf.
  - apply spec_skip; [apply _|done|]. intros a. apply Hf.
Qed.

Lemma counted_run_ret {A} (a : A) mc : counted mc → counted_run (mret (a, mc)).
Proof. intros Hc. split; [apply halts_ret | by apply spec_ret; [apply _|]]. Qed.

Lemma counted_run_call {A} mc (p : prog A) : counted mc → counted_run (call mc p).
Proof. intros Hc. split; [apply call_halts | by apply call_counted]. Qed.

Lemma counted_run_flag d flag mc : counted mc → counted_run (call_flag d flag mc).
Proof. intros Hc. split; [apply call_flag_halts | by apply call_flag_counted]. Qed.

Lemma counted_run_drain fuel s mc :
  (enough_fuel ≤ fuel)%nat → counted mc → counted_run (drainEvents fuel game s mc).
Proof.
  intros Hf Hc. split; [by apply drainEvents_halts|].
  intros e [s' mc'] e' H. split; [done|]. simpl.
  pose proof (drainEvents_counter game Hquiet _ _ _ _ _ _ _ H). lia.
Qed.

Lemma run_move_counted adm req mc : counted mc → counted_run (run_move game adm req mc).
Proof.
  intros Hc. unfold run_move.
  apply counted_run_bind; [by apply counted_run_flag|]. intros u mc1 Hc1. cbv zeta.
  apply counted_run_bind; [by apply counted_run_flag|]. intros red mc2 Hc2.
  apply counted_run_skip; [apply halts_some|]. intros fn.
  apply counted_run_bind; [by apply counted_run_call|]. intros [err|g] mc3 Hc3.
  { split; [apply halts_err | apply spec_err]. }
  apply counted_run_skip; [apply flushPluginsM_halts|]. intros s1.
  apply counted_run_skip; [apply validatePluginsM_halts|]. intros _.
  by apply counted_run_ret.
Qed.

Lemma after_move_counted move req s mc :
  counted mc → counted_run (after_move game move req s mc).
Proof.
  intros Hc. unfold after_move. apply counted_run_bind.
  - case_match; [|by apply counted_run_ret].
    apply counted_run_bind; [by apply counted_run_call|]. intros g mc1 Hc1.
    by apply counted_run_ret.
  - intros s1 mc1 Hc1. case_match; by apply counted_run_ret.
Qed.

Lemma auto_ends_halts move req s : halts (auto_ends game move req s).
Proof.
  assert (Hover : ∀ f s, (∀ s, halts (f s)) → halts (unless_over f s)).
  { intros f s1 Hf. unfold unless_over. case_match; [done | apply halts_ret]. }
  unfold auto_ends. apply halts_bind; [|intros s1; apply halts_bind; [|intros s2;
    apply halts_bind; [|intros s3]]].
  - unfold check_game_end. repeat case_match; try apply halts_ret.
    apply halts_bind; [apply env_mc_halts|]. intros mc.
    apply halts_bind; [apply call_halts|]. intros [res mc'].
    case_match; [apply fireHook_halts | apply halts_ret].
  - apply Hover. intros. unfold checkPhaseEndIf. case_decide; [apply halts_ret|].
    case_match; [|apply halts_ret]. apply halts_bind; [apply env_mc_halts|]. intros mc.
    apply halts_bind; [apply call_halts|]. intros [[fired next] mc'].
    case_match; [apply endPhase_halts | apply halts_ret].
  - apply Hover. intros. apply halts_ret.
  - apply Hover. intros. unfold checkTurnAutoEnd. case_match; [|apply halts_ret].
    apply halts_bind.
    { case_match; [|apply halts_ret]. apply halts_bind; [apply env_mc_halts|]. intros mc.
      apply halts_bind; [apply call_halts|]. intros []. apply halts_ret. }
    intros [fired next]. case_match; [apply endTurn_halts|].
    case_decide; [apply endTurn_halts | apply halts_ret].
Qed.

Lemma move_pipeline_halts fuel adm req mc :
  (enough_fuel ≤ fuel)%nat → counted mc → halts (move_pipeline fuel game adm req mc).
Proof.
  intros Hf Hc. unfold move_pipeline.
  apply counted_bind; [by apply run_move_counted|]. intros s1 mc1 Hc1.
  apply counted_bind; [by apply after_move_counted|]. intros s2 mc2 Hc2.
  apply counted_bind; [by apply counted_run_drain|]. intros s3 mc3 Hc3.
  apply halts_bind; [apply auto_ends_halts|]. intros s4.
  apply counted_bind; [by apply counted_run_drain|]. intros s5 mc5 Hc5. apply halts_ret.
Qed.

Lemma in_env_halts {A} plugins drops (m : M A) : halts m → halts (in_env plugins drops m).
Proof.
  intros Hm w. unfold in_env. specialize (Hm (mkEnv (Some []) (Some (mkQueue [] [])) drops plugins w)).
  by destruct (m _) as [[]].
Qed.

Lemma buildAPIs_halts s pid : halts (buildAPIs game s pid).
Proof. intros w. unfold buildAPIs. by destruct (buildPluginAPIs _ _ _ _). Qed.

Lemma fresh_counted g c pid r ctx ps w b ps' :
  counted (attachPlugins ps' (mkMC g c pid r ctx ps w b [] 0)).
Proof. by rewrite (proj2 (proj2 (attachPlugins_frame _ _))). Qed.

Lemma applyStep_halts fuel c s action idx :
  (enough_fuel ≤ fuel)%nat → halts (applyStep fuel c game s action idx).
Proof.
  intros Hf. unfold applyStep, authorizedStageDrain. cbv zeta. rewrite resolveMove_entry.
  apply halts_bind.
  { apply halts_lift. unfold asMove. by repeat case_match. }
  intros move. apply halts_bind; [apply buildAPIs_halts|]. intros plugins.
  apply halts_bind; [|intros []; apply halts_ret]. apply in_env_halts.
  unfold step_pipeline. cbv zeta. apply halts_bind; [apply halts_some|]. intros fn.
  apply counted_bind; [apply counted_run_call, fresh_counted|]. intros [err|g] mc1 Hc1.
  { apply halts_err. }
  apply halts_bind; [apply flushPluginsM_halts|]. intros s1.
  apply halts_bind; [apply validatePluginsM_halts|]. intros _.
  apply counted_bind; [by apply counted_run_drain|]. intros s2 mc2 Hc2. apply halts_ret.
Qed.

Lemma cascade_loop_halts fuel budget c start s idx :
  (enough_fuel ≤ fuel)%nat → halts (cascade_loop fuel budget c game start s idx).
Proof.
  intros Hf. revert s. induction budget as [|budget IH]; intros s; simpl;
    (case_match; [|apply halts_ret]); [apply halts_ret|].
  case_match; [apply halts_ret|].
  apply halts_bind; [by apply halts_try, applyStep_halts|].
  intros [err|s1]; [apply halts_ret | apply IH].
Qed.

Lemma ApplyContext_halts fuel c s req :
  (enough_fuel ≤ fuel)%nat → halts (ApplyContext fuel c game s req).
Proof.
  intros Hf. unfold ApplyContext. apply halts_bind; [|intros; apply halts_ret].
  apply halts_try. unfold applyExternal. apply halts_bind.
  { apply halts_lift. by destruct (admit_total game s req) as [[? ->]|[? ->]]. }
  intros adm. apply halts_bind; [apply buildAPIs_halts|]. intros plugins.
  apply halts_bind.
  { apply in_env_halts, move_pipeline_halts; [done|]. apply fresh_counted. }
  intros [s1 e]. cbv zeta. apply halts_bind; [by apply cascade_loop_halts|].
  intros [s2 [err|]]; [apply halts_err | apply halts_ret].
Qed.
End requests.

(** ** The fuel does not change results *)
Section more_fuel.
Context {T : GoTypes} (game : Game).
Implicit Types (s state : State) (mc : MoveContext) (req : MoveRequest).

Lemma drainEvents_more f f' s mc :
  (f ≤ f')%nat → fuel_le (drainEvents f game s mc) (drainEvents f' game s mc).
Proof.
  revert f' s mc. induction f as [|f IH]; intros f' s mc Hf; [apply fuel_le_nofuel|].
  destruct f' as [|f']; [lia|]. cbn [drainEvents].
  apply fuel_le_bind; [apply fuel_le_refl|]. intros [|ev batch]; [apply fuel_le_refl|].
  apply fuel_le_bind; [apply fuel_le_refl|]. intros [s1 mc1]. apply IH. lia.
Qed.

Lemma endPhase_more d d' s next :
  (d ≤ d')%nat → fuel_le (endPhase d game s next) (endPhase d' game s next).
Proof.
  revert d' s next. induction d as [|d IH]; intros d' s next Hd; [apply fuel_le_nofuel|].
  destruct d' as [|d']; [lia|]. cbn [endPhase]. cbv zeta.
  case_decide; [apply fuel_le_refl|]. case_match; [|apply fuel_le_refl].
  do 3 (apply fuel_le_bind; [apply fuel_le_refl|]; intros ?).
  case_decide; [|apply fuel_le_refl].
  apply fuel_le_bind; [|intros; apply fuel_le_refl].
  unfold advancePlayOrderPos. cbv zeta. case_decide; [apply fuel_le_refl|].
  apply fuel_le_bind; [apply fuel_le_refl|]. intros mc. case_match; [|apply fuel_le_refl].
  apply fuel_le_bind; [apply fuel_le_refl|]. intros [[n|] mc']; [apply fuel_le_refl|].
  apply IH. lia.
Qed.

Lemma in_env_more {A} plugins drops (m m' : M A) :
  fuel_le m m' → fuel_le (in_env plugins drops m) (in_env plugins drops m').
Proof.
  intros Hm w. unfold in_env.
  destruct (Hm (mkEnv (Some []) (Some (mkQueue [] [])) drops plugins w)) as [H| ->].
  - left. by destruct (m _) as [[]].
  - by right.
Qed.

Lemma step_pipeline_more f f' c s action stage move ps idx :
  (f ≤ f')%nat →
  fuel_le (step_pipeline f c game s action stage move ps idx)
          (step_pipeline f' c game s action stage move ps idx).
Proof.
  intros Hf. unfold step_pipeline. cbv zeta.
  apply fuel_le_bind; [apply fuel_le_refl|]. intros fn.
  apply fuel_le_bind; [apply fuel_le_refl|]. intros [[err|g] mc1]; [apply fuel_le_refl|].
  do 2 (apply fuel_le_bind; [apply fuel_le_refl|]; intros ?).
  apply fuel_le_bind; [by apply drainEvents_more|]. intros []. apply fuel_le_refl.
Qed.

Lemma cascade_loop_more f f' budget c start s idx :
  (f ≤ f')%nat →
  fuel_le (cascade_loop f budget c game start s idx) (cascade_loop f' budget c game start s idx).
Proof.
  intros Hf. revert s. induction budget as [|budget IH]; intros s; simpl;
    (case_match; [|apply fuel_le_refl]); [apply fuel_le_refl|].
  case_match; [apply fuel_le_refl|]. apply fuel_le_bind.
  - apply fuel_le_try. unfold applyStep. cbv zeta.
    destruct (resolveMove _ _ _ _) as [r b].
    do 2 (apply fuel_le_bind; [apply fuel_le_refl|]; intros ?).
    apply fuel_le_bind; [by apply in_env_more, step_pipeline_more|]. intros [].
    apply fuel_le_refl.
  - intros [err|s1]; [apply fuel_le_refl | apply IH].
Qed.

Lemma move_pipeline_more f f' adm req mc :
  (f ≤ f')%nat → fuel_le (move_pipeline f game adm req mc) (move_pipeline f' game adm req mc).
Proof.
  intros Hf. unfold move_pipeline.
  apply fuel_le_bind; [apply fuel_le_refl|]. intros [s1 mc1].
  apply fuel_le_bind; [apply fuel_le_refl|]. intros [s2 mc2].
  apply fuel_le_bind; [by apply drainEvents_more|]. intros [s3 mc3].
  apply fuel_le_bind; [apply fuel_le_refl|]. intros s4.
  apply fuel_le_bind; [by apply drainEvents_more|]. intros []. apply fuel_le_refl.
Qed.

Lemma ApplyContext_more f f' c s req :
  (f ≤ f')%nat → fuel_le (ApplyContext f c game s req) (ApplyContext f' c game s req).
Proof.
  intros Hf. unfold ApplyContext. apply fuel_le_bind; [|intros; apply fuel_le_refl].
  apply fuel_le_try. unfold applyExternal.
  do 2 (apply fuel_le_bind; [apply fuel_le_refl|]; intros ?).
  apply fuel_le_bind; [by apply in_env_more, move_pipeline_more|]. intros [s1 e]. cbv zeta.
  apply fuel_le_bind; [by apply cascade_loop_more|]. intros. apply fuel_le_refl.
Qed.
End more_fuel.

