(* ===== verification/Rotation.v ===== *)
(** * Whose turn it is

    Facts about turn rotation: the current player is the one the position
    in the play order names, unless an EndTurn names somebody outside the order, and under the default order ending turns visits the
    players round-robin. *)

From S2P Require Import Prelude CoreTypes Api GameDef Plugins Transitions.
From S2P Require Import Discipline Evolution.
#[local] Open Scope Z_scope.

(** The current player sits at the current position of a non-empty order. *)
Definition seated {T : GoTypes} (c : Ctx) : Prop :=
  ctx_PlayOrder c = [] ∨ go_index (ctx_PlayOrder c) (ctx_PlayOrderPos c) = Some (ctx_CurrentPlayer c).

(** ** Hooks and active-player changes do not move the turn *)
Section frame.
Context {T : GoTypes}.
Implicit Types (game : Game) (s state : State) (mc : MoveContext).

Abbreviation leads Q m := (spec (λ _ _ : hookEnv, True) Q m).

(** The part of the Ctx turn rotation owns. *)
Definition same_seat s s' : Prop :=
  ctx_PlayOrder (st_Ctx s') = ctx_PlayOrder (st_Ctx s) ∧
  ctx_PlayOrderPos (st_Ctx s') = ctx_PlayOrderPos (st_Ctx s) ∧
  ctx_CurrentPlayer (st_Ctx s') = ctx_CurrentPlayer (st_Ctx s) ∧
  ctx_NumPlayers (st_Ctx s') = ctx_NumPlayers (st_Ctx s) ∧
  ctx_Phase (st_Ctx s') = ctx_Phase (st_Ctx s) ∧
  ctx_Turn (st_Ctx s') = ctx_Turn (st_Ctx s) ∧
  ctx_Gameover (st_Ctx s') = ctx_Gameover (st_Ctx s).

#[export] Instance same_seat_PreOrder : PreOrder same_seat.
Proof.
  split; [by intros s; repeat split|].
  intros ???(?&?&?&?&?&?&?)(?&?&?&?&?&?&?). repeat split; congruence.
Qed.

Lemma same_seat_seated s s' : same_seat s s' → seated (st_Ctx s) → seated (st_Ctx s').
Proof. intros (Ho & Hp & Hc & _). unfold seated. by rewrite Ho, Hp, Hc. Qed.

Lemma fireHook_ctx game h kind pid s :
  leads (λ s', st_Ctx s' = st_Ctx s) (fireHook game h kind pid s).
Proof.
  unfold fireHook. case_match; [|by apply spec_ret; [apply _|]].
  apply spec_skip; [apply _|done|]. intros mc. apply spec_skip; [apply _|done|].
  intros [g mc']. by apply spec_ret; [apply _|].
Qed.

Lemma same_ctx_seat s s' : st_Ctx s' = st_Ctx s → same_seat s s'.
Proof. intros H. unfold same_seat. by rewrite H. Qed.

Lemma fireHook_seat game h kind pid s :
  leads (same_seat s) (fireHook game h kind pid s).
Proof. eapply spec_weaken; [apply fireHook_ctx|]. intros. by apply same_ctx_seat. Qed.

Lemma applySetActivePlayers_seat s cfg : same_seat s (applySetActivePlayers s cfg).
Proof. unfold applySetActivePlayers. by destruct (apc_Revert cfg); repeat split. Qed.

Lemma drainActivePlayers_seat s : same_seat s (drainActivePlayers s).
Proof.
  unfold drainActivePlayers. destruct (last _); [by repeat split|].
  destruct (st_PendingNext s); [|by repeat split].
  by etransitivity; [|apply applySetActivePlayers_seat].
Qed.

Lemma applyActivePlayersFromTurn_seat game s : same_seat s (applyActivePlayersFromTurn game s).
Proof. unfold applyActivePlayersFromTurn. case_match; [apply applySetActivePlayers_seat|done]. Qed.

Lemma seat_bind s (m : M State) f :
  leads (same_seat s) m → (∀ s1, leads (same_seat s1) (f s1)) → leads (same_seat s) (m ≫= f).
Proof.
  intros Hm Hf. eapply spec_bind; [apply _|exact Hm|]. intros s1 H1.
  eapply spec_weaken; [apply Hf|]. intros s2 Hs2. by transitivity s1.
Qed.

Lemma seat_ret s s' : same_seat s s' → leads (same_seat s) (mret s' : M State).
Proof. intros. by apply spec_ret; [apply _|]. Qed.

Lemma seat_after s s1 (m : M State) :
  same_seat s s1 → leads (same_seat s1) m → leads (same_seat s) m.
Proof. intros H1 Hm. eapply spec_weaken; [exact Hm|]. intros s2 ?. by transitivity s1. Qed.

Lemma setStage_seat game s pid stage : leads (same_seat s) (setStage game s pid stage).
Proof. unfold setStage. eapply seat_after; [|apply fireHook_seat]. by repeat split. Qed.

Lemma setStageLong_seat game s pid opts : leads (same_seat s) (setStageLong game s pid opts).
Proof.
  unfold setStageLong. apply seat_bind; [apply setStage_seat|].
  intros. apply seat_ret. by repeat split.
Qed.

Lemma endStage_seat game s pid : leads (same_seat s) (endStage game s pid).
Proof.
  unfold endStage. case_match; [|by apply seat_ret].
  apply seat_bind; [apply fireHook_seat|]. intros s1. case_decide; [|apply setStage_seat].
  apply seat_ret. unfold drain_if_empty. case_decide; [|by repeat split].
  etransitivity; [|apply drainActivePlayers_seat]. by repeat split.
Qed.

Lemma begin_turn_seat game s :
  leads (same_seat s) (runTurnOnBegin game (applyActivePlayersFromTurn game s)).
Proof. eapply seat_after; [apply applyActivePlayersFromTurn_seat|apply fireHook_seat]. Qed.

(** ** The seat invariant *)
Abbreviation seats m := (leads (λ s', seated (st_Ctx s')) m).

Lemma seats_weaken s (m : M State) : seated (st_Ctx s) → leads (same_seat s) m → seats m.
Proof. intros Hs Hm. eapply spec_weaken; [exact Hm|]. intros. by eapply same_seat_seated. Qed.

Lemma seats_bind (m : M State) f :
  seats m → (∀ s1, seated (st_Ctx s1) → seats (f s1)) → seats (m ≫= f).
Proof. intros Hm Hf. eapply spec_bind; [apply _|exact Hm|]. auto. Qed.

Lemma seats_ret s : seated (st_Ctx s) → seats (mret s : M State).
Proof. intros. by apply spec_ret; [apply _|]. Qed.

Lemma set_current_from_pos_seats s : seats (set_current_from_pos s).
Proof.
  unfold set_current_from_pos. cbv zeta.
  eapply (spec_bind _ (λ p, go_index (ctx_PlayOrder (st_Ctx s)) (ctx_PlayOrderPos (st_Ctx s)) = Some p)).
  { by apply spec_some; [apply _|]. }
  intros p Hp. apply seats_ret. by right.
Qed.

Lemma advancePlayOrderPos_seats f s turn :
  seated (st_Ctx s) → seats (f s) → seats (advancePlayOrderPos f s turn).
Proof.
  intros Hs Hf. unfold advancePlayOrderPos. cbv zeta. case_decide; [by apply seats_ret|].
  apply spec_skip; [apply _|done|]. intros mc.
  case_match; [|apply set_current_from_pos_seats].
  apply spec_skip; [apply _|done|]. intros [[n|] mc']; [apply set_current_from_pos_seats | done].
Qed.

Lemma applyTurnOrderFirst_seats game s mc : seats (applyTurnOrderFirst game s mc).
Proof.
  unfold applyTurnOrderFirst. cbv zeta. apply spec_skip; [apply _|done|]. intros [s1 mc1].
  apply spec_skip; [apply _|done|]. intros pos. case_decide as Ho.
  - apply seats_ret. by left.
  - apply set_current_from_pos_seats.
Qed.

Lemma runPhaseEnter_seats game s : seats (runPhaseEnter game s).
Proof.
  unfold runPhaseEnter. apply spec_skip; [apply _|done|]. intros mc.
  apply seats_bind; [apply applyTurnOrderFirst_seats|]. intros s1 H1. cbv zeta.
  apply (seats_weaken s1); [done|].
  eapply seat_after; [apply applyActivePlayersFromTurn_seat|].
  apply seat_bind; [|intros; apply fireHook_seat].
  unfold runPhaseOnBegin. case_decide; [by apply seat_ret|].
  case_match; [apply fireHook_seat | by apply seat_ret].
Qed.

Lemma endPhase_seats depth game s next :
  seated (st_Ctx s) → seats (endPhase depth game s next).
Proof.
  revert s next. induction depth as [|depth IH]; intros s next Hs; simpl; [apply spec_nofuel|].
  case_decide. { case_decide; [by apply seats_ret | apply runPhaseEnter_seats]. }
  case_match; [|by apply seats_ret].
  apply seats_bind; [by eapply seats_weaken, fireHook_seat|]. intros s1 H1.
  apply spec_skip; [apply _|done|]. intros target.
  apply seats_bind; [by eapply seats_weaken, fireHook_seat|]. intros s2 Hs2.
  case_decide; [|apply runPhaseEnter_seats].
  apply seats_bind; [by apply advancePlayOrderPos_seats, IH|]. intros s3 Hs3.
  by eapply seats_weaken, begin_turn_seat.
Qed.

Lemma force_player_seated p s :
  p ∈ ctx_PlayOrder (st_Ctx s) → seated (st_Ctx (force_player p s)).
Proof.
  intros Hp. unfold force_player.
  destruct (find_index _ _) as [i|] eqn:Hi; simpl.
  - apply find_index_Some in Hi as [(x & Hx & ->%bool_decide_eq_true) _].
    right. simpl. apply go_index_Some. rewrite Nat2Z.id. split; [|done].
    apply lookup_lt_Some in Hx. simpl in Hx. lia.
  - apply find_index_None in Hi. rewrite Forall_forall in Hi.
    specialize (Hi p Hp). by apply bool_decide_eq_false in Hi.
Qed.

Lemma bump_turn_seated s : seated (st_Ctx s) → seated (st_Ctx (bump_turn s)).
Proof. done. Qed.

Lemma endTurn_seats game s next :
  seated (st_Ctx s) → next = "" ∨ next ∈ ctx_PlayOrder (st_Ctx s) →
  seats (endTurn game s next).
Proof.
  intros Hs Hnext. unfold endTurn.
  eapply spec_bind; [apply _|apply fireHook_ctx|]. intros s1 H1. cbv zeta.
  assert (Hs1 : seated (st_Ctx (clear_undo (clear_turn_scoped s1)))) by (simpl; by rewrite H1).
  case_decide.
  - apply seats_bind; [by apply advancePlayOrderPos_seats, endPhase_seats|].
    intros s2 Hs2. case_match; [by apply seats_ret|].
    apply (seats_weaken (bump_turn s2)); [by apply bump_turn_seated|apply begin_turn_seat].
  - destruct Hnext as [|Hnext]; [done|].
    apply (seats_weaken (bump_turn (force_player next (clear_undo (clear_turn_scoped s1)))));
      [|apply begin_turn_seat].
    apply bump_turn_seated, force_player_seated. simpl. by rewrite H1.
Qed.

(** An EndTurn that names a player outside the order hands them the turn and leaves
    the position where it was. *)
Definition off_order next s s' : Prop :=
  ctx_CurrentPlayer (st_Ctx s') = next ∧
  ctx_PlayOrder (st_Ctx s') = ctx_PlayOrder (st_Ctx s) ∧
  ctx_PlayOrderPos (st_Ctx s') = ctx_PlayOrderPos (st_Ctx s).

Lemma force_player_off next s :
  next ∉ ctx_PlayOrder (st_Ctx s) → off_order next s (force_player next s).
Proof.
  intros Hn. unfold force_player. destruct (find_index _ _) as [i|] eqn:Hi; [|done].
  apply find_index_Some in Hi as [(x & Hx & ->%bool_decide_eq_true) _].
  destruct Hn. by eapply list_elem_of_lookup_2.
Qed.

Lemma endTurn_off game s next :
  next ≠ "" → next ∉ ctx_PlayOrder (st_Ctx s) → leads (off_order next s) (endTurn game s next).
Proof.
  intros Hne Hn. unfold endTurn.
  eapply spec_bind; [apply _|apply fireHook_ctx|]. intros s1 H1. cbv zeta.
  rewrite decide_False by done.
  set (s2 := clear_undo (clear_turn_scoped s1)).
  assert (same_seat s s2) as (So & Sp & _) by (unfold s2, same_seat; simpl; by rewrite H1).
  clearbody s2. destruct (force_player_off next s2) as (Fc & Fo & Fp); [by rewrite So|].
  eapply spec_weaken; [apply begin_turn_seat|]. intros s3 (Ho & Hp & Hc & _).
  unfold off_order. rewrite Ho, Hp, Hc, <-So, <-Sp. by split_and!.
Qed.

Lemma removePlayer_seats game s pid :
  seated (st_Ctx s) → seats (removePlayer game s pid).
Proof.
  intros Hs. unfold removePlayer. cbv zeta. case_match; [|by apply seats_ret].
  case_decide as Ho; [apply seats_ret; by left|].
  apply seats_bind; [apply set_current_from_pos_seats|]. intros s1 H1.
  apply seats_bind.
  { case_match; [apply endTurn_seats; [done|by left] | by apply seats_ret]. }
  intros s2 Hs2. apply seats_ret. by case_match.
Qed.

Lemma runChainedMove_ctx game s mc name args :
  leads (λ s', st_Ctx s' = st_Ctx s) (runChainedMove game s mc name args).
Proof.
  unfold runChainedMove. repeat (case_match; try by apply spec_ret; [apply _|]).
  do 2 (apply spec_skip; [apply _|done|]; intros ?).
  repeat case_match; by apply spec_ret; [apply _|].
Qed.

Lemma drain_one_seats game s mc ev :
  seated (st_Ctx s) →
  leads (λ r, seated (st_Ctx r.1) ∨ ∃ next, ev = evEndTurn next ∧ next ≠ "" ∧
          next ∉ ctx_PlayOrder (st_Ctx s) ∧ off_order next s r.1) (drain_one game s mc ev).
Proof.
  intros Hs.
  assert (Hdone : ∀ (P : State → Prop) (m : M State) mc, leads P m →
    leads (λ r, P r.1) (s1 ← m; mret (s1, refresh s1 mc))).
  { intros P m mc' Hm. eapply spec_bind; [apply _|exact Hm|]. intros s1 H1.
    by apply spec_ret; [apply _|]. }
  assert (Hleft : ∀ (m : M (State * MoveContext)), leads (λ r, seated (st_Ctx r.1)) m →
    leads (λ r, seated (st_Ctx r.1) ∨ ∃ next, ev = evEndTurn next ∧ next ≠ "" ∧
          next ∉ ctx_PlayOrder (st_Ctx s) ∧ off_order next s r.1) m).
  { intros m Hm. eapply spec_weaken; [exact Hm|]. by left. }
  assert ((∃ next, ev = evEndTurn next ∧ next ≠ "" ∧ next ∉ ctx_PlayOrder (st_Ctx s)) ∨
    ∀ next, ev = evEndTurn next → next = "" ∨ next ∈ ctx_PlayOrder (st_Ctx s))
    as [(next & -> & Hne & Hn)|Hno].
  { destruct ev as [next| | | | | | | | |]; try (right; by intros ? [=]).
    destruct (decide (next = "" ∨ next ∈ ctx_PlayOrder (st_Ctx s))).
    - right. by intros ? [= <-].
    - left. exists next. tauto. }
  { cbn [drain_one]. cbv zeta. case_match; [by apply spec_ret; [apply _|left]|].
    eapply spec_weaken; [by apply (Hdone (off_order next s)), endTurn_off|].
    intros r Hr. right. exists next. by split_and!. }
  apply Hleft. clear Hleft.
  destruct ev as [next| | |stage [opts|]|phase|res|cfg| |pid|name args]; cbn [drain_one];
    cbv zeta; try case_match; try (by apply spec_ret; [apply _|]);
    try (apply (Hdone (λ s', seated (st_Ctx s'))));
    try (by apply endTurn_seats; auto); try (by apply endPhase_seats);
    try (by apply removePlayer_seats).
  - eapply seats_weaken; [done|apply endStage_seat].
  - eapply seats_weaken; [done|apply setStageLong_seat].
  - eapply seats_weaken; [done|apply setStage_seat].
  - eapply seats_weaken; [|apply fireHook_seat]. done.
  - apply seats_ret. eapply same_seat_seated; [apply applySetActivePlayers_seat|done].
  - eapply spec_weaken; [apply runChainedMove_ctx|]. intros s1 ->. done.
Qed.
End frame.

(** ** Steps that cannot fail *)
Section succeeds.
Context {T : GoTypes}.
Implicit Types (game : Game) (s state : State) (mc : MoveContext).

(** From an environment with its handles, [m] returns, and with a result in [Q]. *)
Definition succeeds {A} (Q : A → Prop) (m : M A) : Prop :=
  ∀ e, ready e → ∃ a e', m e = (Ok a, e') ∧ ready e' ∧ Q a.

Lemma succeeds_ret {A} (Q : A → Prop) a : Q a → succeeds Q (mret a).
Proof. intros HQ e He. by exists a, e. Qed.

Lemma succeeds_bind {A B} (P : A → Prop) (Q : B → Prop) (m : M A) (f : A → M B) :
  succeeds P m → (∀ a, P a → succeeds Q (f a)) → succeeds Q (m ≫= f).
Proof.
  intros Hm Hf e He. destruct (Hm e He) as (a & e1 & H1 & He1 & HP).
  destruct (Hf a HP e1 He1) as (b & e2 & H2 & He2 & HQ).
  exists b, e2. by rewrite (bind_run_Ok _ _ _ _ _ H1).
Qed.

Lemma succeeds_weaken {A} (P Q : A → Prop) (m : M A) :
  succeeds P m → (∀ a, P a → Q a) → succeeds Q m.
Proof.
  intros Hm HPQ e He. destruct (Hm e He) as (a & e1 & H1 & He1 & HP).
  exists a, e1. auto.
Qed.

Lemma call_succeeds {A} mc (p : prog A) :
  mc_Wired mc = true → crash_free p → succeeds (λ _, True) (call mc p).
Proof.
  intros Hw Hp e He. unfold call. rewrite Hw.
  destruct (run_crash_free (mc_Ctx mc) p (mc_extra mc) e Hp He) as ([a x] & e' & -> & He').
  by eexists _, _.
Qed.

Lemma fireHook_succeeds game h kind pid s :
  (∀ f mc, h = Some f → crash_free (applyFnWrapHook game f kind mc)) →
  succeeds (λ s', st_Ctx s' = st_Ctx s) (fireHook game h kind pid s).
Proof.
  intros Hh. unfold fireHook. case_match; [|by apply succeeds_ret].
  apply (succeeds_bind (λ mc, mc_Wired mc = true)).
  { intros e He. eexists _, e. split; [done|]. split; [done|]. apply attachPlugins_frame. }
  intros mc Hw. eapply succeeds_bind; [apply call_succeeds; auto|].
  intros [g mc'] _. by apply succeeds_ret.
Qed.

(** A turn order that is the default one, over a non-empty order of players. *)
Record round_robin game s : Prop := {
  rr_order : effective_order (scopeTurn game (ctx_Phase (st_Ctx s))) = TurnOrderDefault;
  rr_players : ctx_NumPlayers (st_Ctx s) = Z.of_nat (length (ctx_PlayOrder (st_Ctx s)));
  rr_pos : 0 ≤ ctx_PlayOrderPos (st_Ctx s) < ctx_NumPlayers (st_Ctx s);
  rr_going : ctx_Gameover (st_Ctx s) = None
}.

(** [s'] is [k] turns after [s]. *)
Record turns_later (k : Z) s s' : Prop := {
  tl_order : ctx_PlayOrder (st_Ctx s') = ctx_PlayOrder (st_Ctx s);
  tl_players : ctx_NumPlayers (st_Ctx s') = ctx_NumPlayers (st_Ctx s);
  tl_phase : ctx_Phase (st_Ctx s') = ctx_Phase (st_Ctx s);
  tl_over : ctx_Gameover (st_Ctx s') = ctx_Gameover (st_Ctx s);
  tl_turn : ctx_Turn (st_Ctx s') = ctx_Turn (st_Ctx s) + k;
  tl_pos : ctx_PlayOrderPos (st_Ctx s') =
    (ctx_PlayOrderPos (st_Ctx s) + k) mod ctx_NumPlayers (st_Ctx s);
  tl_current : go_index (ctx_PlayOrder (st_Ctx s)) (ctx_PlayOrderPos (st_Ctx s'))
    = Some (ctx_CurrentPlayer (st_Ctx s'))
}.

Definition hooks_crash_free game : Prop :=
  ∀ h kind mc, game_hook game h → crash_free (applyFnWrapHook game h kind mc).

Lemma advance_default f s turn :
  effective_order turn = TurnOrderDefault →
  ctx_NumPlayers (st_Ctx s) = Z.of_nat (length (ctx_PlayOrder (st_Ctx s))) →
  0 ≤ ctx_PlayOrderPos (st_Ctx s) < ctx_NumPlayers (st_Ctx s) →
  succeeds (λ s', ∃ p, go_index (ctx_PlayOrder (st_Ctx s))
        ((ctx_PlayOrderPos (st_Ctx s) + 1) mod ctx_NumPlayers (st_Ctx s)) = Some p ∧
      s' = on_ctx (set_ctx_CurrentPlayer p)
             (on_ctx (set_ctx_PlayOrderPos
               ((ctx_PlayOrderPos (st_Ctx s) + 1) mod ctx_NumPlayers (st_Ctx s))) s))
    (advancePlayOrderPos f s turn).
Proof.
  intros Hturn Hn Hpos e He. unfold advancePlayOrderPos. cbv zeta.
  rewrite decide_False by (intros Ho; rewrite Ho in Hn; simpl in Hn; lia).
  rewrite Hturn. simpl to_Next. cbv iota.
  set (c := st_Ctx s) in *. set (i := (ctx_PlayOrderPos c + 1) mod ctx_NumPlayers c).
  assert (Hi : 0 ≤ i < ctx_NumPlayers c) by (apply Z.mod_pos_bound; lia).
  destruct (proj2 (go_index_is_Some (ctx_PlayOrder c) i)) as [p Hp]; [lia|].
  set (mc := attachPlugins (env_plugins e) (mkMC (st_G s) c "" None None None false None [] 0)).
  erewrite bind_run_Ok by done.
  assert (Hc : mc_Ctx mc = c) by (unfold mc, attachPlugins; by case_match).
  assert (Hw : mc_Wired mc = false) by apply attachPlugins_frame.
  fold c. fold mc. rewrite Hc.
  assert (Hnext : (n ← go_mod (ctx_PlayOrderPos c + 1) (ctx_NumPlayers c); Ret (Some n))
                  = Ret (Some i)).
  { unfold go_mod. rewrite decide_False by lia. unfold i.
    rewrite <-Z.rem_mod_nonneg by lia. done. }
  rewrite Hnext. erewrite bind_run_Ok.
  2: { unfold call. rewrite Hw. simpl. done. }
  cbv beta iota. rewrite decide_False by lia. unfold set_current_from_pos. simpl.
  fold c. rewrite Hp. simpl. eexists _, _. split; [done|]. split; [|by exists p]. done.
Qed.

Lemma bump_turn_fields s :
  ctx_PlayOrder (st_Ctx (bump_turn s)) = ctx_PlayOrder (st_Ctx s) ∧
  ctx_PlayOrderPos (st_Ctx (bump_turn s)) = ctx_PlayOrderPos (st_Ctx s) ∧
  ctx_CurrentPlayer (st_Ctx (bump_turn s)) = ctx_CurrentPlayer (st_Ctx s) ∧
  ctx_NumPlayers (st_Ctx (bump_turn s)) = ctx_NumPlayers (st_Ctx s) ∧
  ctx_Phase (st_Ctx (bump_turn s)) = ctx_Phase (st_Ctx s) ∧
  ctx_Turn (st_Ctx (bump_turn s)) = ctx_Turn (st_Ctx s) + 1 ∧
  ctx_Gameover (st_Ctx (bump_turn s)) = ctx_Gameover (st_Ctx s).
Proof. by repeat split. Qed.

Lemma endTurn_default game s :
  hooks_crash_free game → round_robin game s →
  succeeds (turns_later 1 s) (endTurn game s "").
Proof.
  intros Hh [Horder Hn Hpos Hgo]. unfold endTurn.
  eapply succeeds_bind; [apply fireHook_succeeds|].
  { intros f mc (t & Ht & Hf)%bind_Some. apply Hh.
    eapply gh_TurnOnEnd; [by eapply scopeTurn_game_turn|done]. }
  intros s1 H1. cbv zeta. rewrite decide_True by done.
  set (s2 := clear_undo (clear_turn_scoped s1)).
  assert (Hc : same_seat s s2) by (unfold s2, same_seat; simpl; rewrite H1; done).
  destruct Hc as (Ho & Hp & _ & HN & Hph & HT & Hg).
  eapply succeeds_bind; [apply advance_default; [exact Horder|congruence|congruence]|].
  intros s3 (p & Hidx & Hs3). clearbody s2.
  assert (HG : ctx_Gameover (st_Ctx s3) = None) by (rewrite Hs3; transitivity (ctx_Gameover (st_Ctx s2)); [done|congruence]).
  rewrite HG.
  eapply succeeds_weaken; [apply fireHook_succeeds|].
  { intros f mc (t & Ht & Hf)%bind_Some. apply Hh.
    eapply gh_TurnOnBegin; [by eapply scopeTurn_game_turn|done]. }
  intros s4 H4.
  destruct (applyActivePlayersFromTurn_seat game (bump_turn s3)) as (Ko&Kp&Kc&KN&Kph&KT&Kg).
  assert (Hs3' : ctx_PlayOrder (st_Ctx s3) = ctx_PlayOrder (st_Ctx s2) ∧
    ctx_NumPlayers (st_Ctx s3) = ctx_NumPlayers (st_Ctx s2) ∧
    ctx_Phase (st_Ctx s3) = ctx_Phase (st_Ctx s2) ∧
    ctx_Turn (st_Ctx s3) = ctx_Turn (st_Ctx s2) ∧ ctx_CurrentPlayer (st_Ctx s3) = p ∧
    ctx_PlayOrderPos (st_Ctx s3) =
      (ctx_PlayOrderPos (st_Ctx s2) + 1) mod ctx_NumPlayers (st_Ctx s2)) by (by rewrite Hs3).
  destruct Hs3' as (To & TN & Tph & TT & Tc & Tp).
  destruct (bump_turn_fields s3) as (Bo & Bp & Bc & BN & Bph & BT & Bg).
  rewrite <-H4 in *. split; try congruence.
Qed.
(** Several turns ended one after the other. *)
Fixpoint endTurns (k : nat) game s : M State :=
  match k with
  | O => mret s
  | S k => s ← endTurn game s ""; endTurns k game s
  end.

Lemma turns_later_round_robin k game s s' :
  round_robin game s → turns_later k s s' → round_robin game s'.
Proof.
  intros [Ho Hn Hp Hg] []. split; try congruence.
  rewrite tl_pos0, tl_players0. apply Z.mod_pos_bound. lia.
Qed.

Lemma turns_later_trans j k s1 s2 s3 :
  0 < ctx_NumPlayers (st_Ctx s1) →
  turns_later j s1 s2 → turns_later k s2 s3 → turns_later (j + k) s1 s3.
Proof.
  intros HN [] []. split; try congruence; try lia.
  rewrite tl_pos1, tl_pos0, tl_players0, Zplus_mod_idemp_l. f_equal. lia.
Qed.

Lemma endTurns_round_robin k game s :
  hooks_crash_free game → round_robin game s → seated (st_Ctx s) →
  succeeds (turns_later (Z.of_nat k) s) (endTurns k game s).
Proof.
  intros Hh. revert s. induction k as [|k IH]; intros s Hr Hs.
  { apply succeeds_ret. destruct Hr. split; try done; try lia.
    - rewrite Z.add_0_r, Z.mod_small by done. done.
    - destruct Hs as [Ho|Hs]; [|done]. rewrite Ho in rr_players0. simpl in *. lia. }
  cbn [endTurns]. eapply succeeds_bind; [by apply endTurn_default|].
  intros s1 H1. eapply succeeds_weaken; [apply IH|].
  - by eapply turns_later_round_robin.
  - right. rewrite (tl_order _ _ _ H1). apply H1.
  - intros s2 H2. replace (Z.of_nat (S k)) with (1 + Z.of_nat k) by lia.
    eapply turns_later_trans; [|done..]. destruct Hr. lia.
Qed.
End succeeds.

