(* ===== verification/Choices.v ===== *)
(** * Choices a player makes

    [src/core/target.go] and [assignment.go]: checking a player's selection or
    pairing against the request that asked for it.  The values compared here do
    have structure the code looks at, so this file has a concrete type for them. *)

From Stdlib Require Import SpecFloat.
From S2P Require Import Prelude.
#[local] Open Scope Z_scope.

(** ** Dynamic values *)

(** The kinds of integer; their ranges are the caller's business. *)
Inductive int_kind : Type := KInt | KInt8 | KInt16 | KInt32 | KInt64
  | KUint | KUint8 | KUint16 | KUint32 | KUint64.

(** A Go [any].  [typename] is the defined type of a number, empty for a
    predeclared one other than float32; [GoMap] is a [map[string]any]; [GoOther] is any
    other comparable value, such as a struct. *)
Inductive GoVal : Type :=
  | GoNil
  | GoBool (b : bool)
  | GoInt (typename : string) (kind : int_kind) (n : Z)
  | GoFloat (typename : string) (f : spec_float)
  | GoString (s : string)
  | GoPair (a b : GoVal)
  | GoSlice (l : list GoVal)
  | GoMap (m : list (string * GoVal))
  | GoOther (typename : string) (id : Z).

#[export] Instance int_kind_eq_dec : EqDecision int_kind.
Proof. solve_decision. Defined.

(** [float64(n)] for an integer: rounding to 53 bits. *)
Definition float_of_int (n : Z) : spec_float := binary_normalize 53 1024 n 0 false.

(** [reflect.DeepEqual]: same dynamic type, then same contents; a NaN differs
    from itself.  Slices are values here: that two slices sharing their storage
    are equal without a look inside makes a difference only for a NaN in one.  A map is
    the list of its entries, of distinct keys. *)
Fixpoint DeepEqual (a b : GoVal) {struct a} : bool :=
  match a, b with
  | GoNil, GoNil => true
  | GoBool x, GoBool y => Bool.eqb x y
  | GoInt t k n, GoInt t' k' n' =>
      bool_decide (t = t') && bool_decide (k = k') && bool_decide (n = n')
  | GoFloat t f, GoFloat t' f' => bool_decide (t = t') && SFeqb f f'
  | GoString s, GoString s' => bool_decide (s = s')
  | GoPair x y, GoPair x' y' => DeepEqual x x' && DeepEqual y y'
  | GoSlice l, GoSlice l' =>
      (fix go l l' := match l, l' with
                      | [], [] => true
                      | x :: l, y :: l' => DeepEqual x y && go l l'
                      | _, _ => false
                      end) l l'
  | GoMap m, GoMap m' =>
      bool_decide (length m = length m') &&
      (fix go m := match m with
                   | [] => true
                   | (k, x) :: m =>
                       match List.find (λ e, bool_decide (e.1 = k)) m' with
                       | Some (_, y) => DeepEqual x y
                       | None => false
                       end && go m
                   end) m
  | GoOther t i, GoOther t' i' => bool_decide (t = t') && bool_decide (i = i')
  | _, _ => false
  end.

(** target.go: [asNumber] *)
Definition asNumber (v : GoVal) : option spec_float :=
  match v with
  | GoInt _ _ n => Some (float_of_int n)
  | GoFloat _ f => Some f
  | _ => None
  end.

(** ** target.go *)
Record TargetSpec := mkTargetSpec {
  ts_Candidates : list GoVal;
  ts_Min : Z;
  ts_Max : Z
}.

Inductive choice_error : Type :=
  | BadRequest
  | ErrTargetCardinality | ErrTargetNotCandidate
  | ErrAssignmentNotLegal | ErrAssignmentCardinality | ErrAssignmentEmpty
  | ErrAssignmentDuplicate | ErrAssignmentMalformed.

Definition containsCandidate (cands : list GoVal) (want : GoVal) : bool :=
  match asNumber want with
  | Some wf => existsb (λ c, match asNumber c with Some cf => SFeqb cf wf | None => false end) cands
  | None => existsb (λ c, DeepEqual c want) cands
  end.

(** The first selection that is no candidate decides; the error does not say
    which in the model, so the loop is a test. *)
Definition ValidateSelection (req : TargetSpec) (sel : list GoVal) : option choice_error :=
  let min := if decide (ts_Min req = 0) then 1 else ts_Min req in
  let max := if decide (ts_Max req = 0) then min else ts_Max req in
  let n := Z.of_nat (length sel) in
  if decide (max < min) then Some BadRequest
  else if decide (n < min ∨ max < n) then Some ErrTargetCardinality
  else match ts_Candidates req with
       | [] => None
       | cands => if forallb (containsCandidate cands) sel then None
                  else Some ErrTargetNotCandidate
       end.

(** ** assignment.go *)
Record AssignmentSpec := mkAssignmentSpec {
  as_Pairs : list (GoVal * GoVal);
  as_MaxPerLeft : Z;
  as_MaxPerRight : Z;
  as_AllowEmpty : bool
}.

Definition asPair (v : GoVal) : option (GoVal * GoVal) :=
  match v with
  | GoPair a b => Some (a, b)
  | GoSlice [a; b] => Some (a, b)
  | _ => None
  end.

Definition sameItem (a b : GoVal) : bool :=
  match asNumber a with
  | Some af => match asNumber b with Some bf => SFeqb af bf | None => false end
  | None => DeepEqual a b
  end.

Definition samePair (a b : GoVal * GoVal) : bool :=
  sameItem a.1 b.1 && sameItem a.2 b.2.

Definition containsPair (pairs : list (GoVal * GoVal)) (want : GoVal * GoVal) : bool :=
  existsb (λ p, samePair p want) pairs.

(** [for i, p := range chosen]: each pair offered, then none of the earlier ones
    again. *)
Fixpoint check_pairs (offered prev chosen : list (GoVal * GoVal)) : option choice_error :=
  match chosen with
  | [] => None
  | p :: chosen =>
      if negb (containsPair offered p) then Some ErrAssignmentNotLegal
      else if existsb (λ q, samePair q p) prev then Some ErrAssignmentDuplicate
      else check_pairs offered (prev ++ [p]) chosen
  end.

Definition count_same (side : GoVal * GoVal → GoVal) (chosen : list (GoVal * GoVal))
    (p : GoVal * GoVal) : Z :=
  Z.of_nat (length (List.filter (λ o, sameItem (side o) (side p)) chosen)).

Definition check_counts (maxL maxR : Z) (chosen : list (GoVal * GoVal)) : bool :=
  forallb (λ p, bool_decide (count_same fst chosen p ≤ maxL) &&
                bool_decide (count_same snd chosen p ≤ maxR)) chosen.

Definition ValidateAssignment (req : AssignmentSpec) (args : list GoVal)
    : choice_error + list (GoVal * GoVal) :=
  if decide (as_MaxPerLeft req < 0 ∨ as_MaxPerRight req < 0) then inl BadRequest
  else match args with
  | [] => if as_AllowEmpty req then inr [] else inl ErrAssignmentEmpty
  | _ =>
      match mapM asPair args with
      | None => inl ErrAssignmentMalformed
      | Some chosen =>
          let maxL := if decide (as_MaxPerLeft req = 0) then 1 else as_MaxPerLeft req in
          let maxR := if decide (as_MaxPerRight req = 0) then 1 else as_MaxPerRight req in
          match check_pairs (as_Pairs req) [] chosen with
          | Some e => inl e
          | None => if check_counts maxL maxR chosen then inr chosen
                    else inl ErrAssignmentCardinality
          end
      end
  end.

(** ** playerview.go: StripSecrets on a G that is a map *)

(** A map[string]any whose values may be maps again. *)
Inductive StripVal : Type :=
  | SvMap (m : gmap string GoVal)
  | SvOther (v : GoVal).

Definition StripSecrets (g : gmap string StripVal) (playerID : string) : gmap string StripVal :=
  map_imap (λ k v,
    if decide (k = "secret") then None
    else if decide (k = "players") then
      match v with
      | SvMap players =>
          Some (SvMap (if decide (playerID = "") then ∅
                       else match players !! playerID with
                            | Some p => {[playerID := p]}
                            | None => ∅
                            end))
      | SvOther _ => Some v
      end
    else Some v) g.

(** ** What a valid answer is *)

(** What is a number, and the float64 it is compared as. *)
Inductive numeric : GoVal → spec_float → Prop :=
  | numeric_int t k n : numeric (GoInt t k n) (float_of_int n)
  | numeric_float t f : numeric (GoFloat t f) f.

(** Equal up to the representation of numbers. *)
Inductive same : GoVal → GoVal → Prop :=
  | same_number a b x y : numeric a x → numeric b y → SFeqb x y = true → same a b
  | same_other a b : (∀ x, ¬ numeric a x) → DeepEqual a b = true → same a b.
Definition same2 (a b : GoVal * GoVal) : Prop := same a.1 b.1 ∧ same a.2 b.2.

(** The values that survive a trip through JSON, and what they come back as: an
    integer is a float64 then, and a [[2]any] a [[]any]. *)
Definition plain (v : GoVal) : Prop :=
  match v with GoNil | GoBool _ | GoInt _ _ _ | GoString _ => True | _ => False end.
Definition through_json (v : GoVal) : GoVal :=
  match v with GoInt _ _ n => GoFloat "" (float_of_int n) | v => v end.
Definition plain_pair (v : GoVal) : Prop :=
  match v with GoPair a b | GoSlice [a; b] => plain a ∧ plain b | _ => False end.
Definition pair_through_json (v : GoVal) : GoVal :=
  match v with
  | GoPair a b | GoSlice [a; b] => GoSlice [through_json a; through_json b]
  | v => v
  end.

Lemma asNumber_numeric v x : asNumber v = Some x ↔ numeric v x.
Proof.
  split; [|by intros []]. destruct v; try done; simpl; intros [= <-]; constructor.
Qed.

Lemma sameItem_same a b : sameItem a b = true ↔ same a b.
Proof.
  unfold sameItem. split.
  - destruct (asNumber a) as [x|] eqn:Ha.
    + destruct (asNumber b) as [y|] eqn:Hb; [|done].
      intros. by apply (same_number _ _ x y); try apply asNumber_numeric.
    + intros. apply same_other; [|done]. intros x Hx%asNumber_numeric. congruence.
  - intros [a' b' x y Ha%asNumber_numeric Hb%asNumber_numeric He|a' b' Ha He].
    + by rewrite Ha, Hb.
    + destruct (asNumber a') as [x|] eqn:Hx; [|done]. by apply asNumber_numeric, Ha in Hx.
Qed.

#[export] Instance same_dec : RelDecision same.
Proof.
  intros a b. refine (cast_if (decide (sameItem a b = true))); by rewrite <-sameItem_same.
Defined.

Lemma samePair_same2 a b : samePair a b = true ↔ same2 a b.
Proof. unfold samePair, same2. by rewrite andb_true_iff, !sameItem_same. Qed.

(** The two shapes a pair arrives in. *)
Definition is_pair (v : GoVal) (p : GoVal * GoVal) : Prop :=
  v = GoPair p.1 p.2 ∨ v = GoSlice [p.1; p.2].

Lemma asPair_is_pair v p : asPair v = Some p ↔ is_pair v p.
Proof.
  destruct p as [x y]. unfold is_pair; simpl. split.
  - destruct v as [| | | | |a b|l| |]; try done; [intros [= -> ->]; by left|].
    destruct l as [|a [|b [|]]]; try done. intros [= -> ->]. by right.
  - by intros [-> | ->].
Qed.

Lemma all_pairs args chosen :
  Forall2 (λ a p, asPair a = Some p) args chosen ↔ Forall2 is_pair args chosen.
Proof. split; intros H; eapply Forall2_impl; try exact H; intros; by apply asPair_is_pair. Qed.

Lemma count_same_filter side chosen p :
  count_same side chosen p = Z.of_nat (length (filter (λ o, same (side o) (side p)) chosen)).
Proof.
  unfold count_same. f_equal. induction chosen as [|o chosen IH]; [done|].
  cbn [List.filter]. destruct (sameItem _ _) eqn:Hs.
  - apply sameItem_same in Hs. rewrite filter_cons_True by done. simpl. by rewrite IH.
  - rewrite filter_cons_False; [done|]. rewrite <-sameItem_same. congruence.
Qed.

Lemma containsPair_iff pairs p : containsPair pairs p = true ↔ ∃ q, q ∈ pairs ∧ same2 q p.
Proof.
  unfold containsPair. rewrite existsb_exists. setoid_rewrite samePair_same2.
  setoid_rewrite list_elem_of_In. done.
Qed.

Lemma check_pairs_ok offered prev chosen :
  check_pairs offered prev chosen = None ↔
  Forall (λ p, ∃ q, q ∈ offered ∧ same2 q p) chosen ∧
  (∀ i j p q, (i < j)%nat → (length prev ≤ j)%nat → (prev ++ chosen) !! i = Some p →
     (prev ++ chosen) !! j = Some q → ¬ same2 p q).
Proof.
  revert prev. induction chosen as [|p chosen IH]; intros prev; cbn [check_pairs].
  - split; [intros _|done]. split; [done|]. intros i j p q Hij Hj _ Hq.
    rewrite app_nil_r in Hq. apply lookup_lt_Some in Hq. lia.
  - destruct (containsPair offered p) eqn:Hc; simpl.
    2:{ split; [done|]. intros [HF _]. inversion HF as [|?? Hp]. exfalso.
        apply containsPair_iff in Hp. congruence. }
    apply containsPair_iff in Hc.
    destruct (existsb _ prev) eqn:He.
    + split; [done|]. intros [_ Hdup]. exfalso.
      apply existsb_exists in He as (q & Hq%list_elem_of_In & Hs%samePair_same2).
      apply list_elem_of_lookup in Hq as [i Hi]. pose proof (lookup_lt_Some _ _ _ Hi).
      eapply (Hdup i (length prev)); [lia|lia| |by apply list_lookup_middle|exact Hs].
      by rewrite lookup_app_l by lia.
    + rewrite IH, Forall_cons, <-app_assoc, length_app. simpl. split.
      * intros [HF Hdup]. split; [done|]. intros i j a b Hij Hj Ha Hb.
        destruct (decide (j = length prev)) as [->|]; [|by eapply Hdup; eauto; lia].
        rewrite list_lookup_middle in Hb by done. injection Hb as <-.
        rewrite lookup_app_l in Ha by lia. intros Hs.
        assert (existsb (λ q, samePair q p) prev = true); [|congruence].
        apply existsb_exists. exists a. split; [|by apply samePair_same2].
        apply list_elem_of_In. by eapply list_elem_of_lookup_2.
      * intros [[_ HF] Hdup]. split; [done|]. intros i j a b Hij Hj. apply Hdup; [done|lia].
Qed.

Lemma existsb_same c cands : containsCandidate cands c = true ↔ ∃ d, d ∈ cands ∧ same d c.
Proof.
  setoid_rewrite <-sameItem_same. unfold containsCandidate, sameItem.
  destruct (asNumber c) as [f|] eqn:Hc; rewrite existsb_exists; setoid_rewrite list_elem_of_In.
  - split; intros (d & Hd & H); exists d; (split; [done|]).
    + by destruct (asNumber d).
    + destruct (asNumber d) eqn:Hn; [done|]. destruct d, c; simpl in *; try done.
  - split; intros (d & Hd & H); exists d; (split; [done|]).
    + destruct (asNumber d) eqn:Hn; [|done]. by destruct d, c.
    + by destruct (asNumber d).
Qed.

(** C22: A selection is accepted exactly when the request is well formed, its size
    lies between the effective bounds (Min 0 read as 1, Max 0 as Min), and every
    element equals a candidate up to the representation of numbers, or the
    request offers no candidates. *)
Theorem ValidateSelection_iff req sel :
  let min := if decide (ts_Min req = 0) then 1 else ts_Min req in
  let max := if decide (ts_Max req = 0) then min else ts_Max req in
  ValidateSelection req sel = None ↔
  min ≤ max ∧ min ≤ Z.of_nat (length sel) ≤ max ∧
  (ts_Candidates req = [] ∨
   ∀ v, v ∈ sel → ∃ c, c ∈ ts_Candidates req ∧ same c v).
Proof.
  cbv zeta. unfold ValidateSelection. cbv zeta.
  set (mn := if decide (ts_Min req = 0) then _ else _).
  set (mx := if decide (ts_Max req = 0) then _ else _).
  destruct (decide (mx < mn)); [split; [done|lia]|].
  destruct (decide (_ ∨ _)); [split; [done|lia]|].
  destruct (ts_Candidates req) as [|c cs]; [split; [intros _; split_and!; try lia; by left|done]|].
  assert (Hall : forallb (containsCandidate (c :: cs)) sel = true ↔
    ∀ v, v ∈ sel → ∃ d, d ∈ c :: cs ∧ same d v).
  { rewrite forallb_forall. setoid_rewrite existsb_same. setoid_rewrite list_elem_of_In. done. }
  destruct (forallb _ _) eqn:Hf.
  - split; [|done]. intros _. split_and!; try lia. right. by apply Hall.
  - split; [done|]. intros (_ & _ & [|H]); [done|]. apply Hall in H. congruence.
Qed.

(** C21: an assignment is accepted, with exactly the pairs the args decode to, if
    and only if the request's caps are not negative and either there are no args
    and the request allows that, or every arg is a pair that was offered, no pair
    comes twice and no item is used more often than its side's cap (0 read as
    1). *)
Theorem ValidateAssignment_iff req args chosen :
  let maxL := if decide (as_MaxPerLeft req = 0) then 1 else as_MaxPerLeft req in
  let maxR := if decide (as_MaxPerRight req = 0) then 1 else as_MaxPerRight req in
  ValidateAssignment req args = inr chosen ↔
  0 ≤ as_MaxPerLeft req ∧ 0 ≤ as_MaxPerRight req ∧
  (args = [] → as_AllowEmpty req = true) ∧
  Forall2 is_pair args chosen ∧
  (∀ p, p ∈ chosen → (∃ q, q ∈ as_Pairs req ∧ same q.1 p.1 ∧ same q.2 p.2) ∧
     Z.of_nat (length (filter (λ o, same o.1 p.1) chosen)) ≤ maxL ∧
     Z.of_nat (length (filter (λ o, same o.2 p.2) chosen)) ≤ maxR) ∧
  (∀ i j p q, (i < j)%nat → chosen !! i = Some p → chosen !! j = Some q →
     ¬ (same p.1 q.1 ∧ same p.2 q.2)).
Proof.
  cbv zeta. setoid_rewrite <-count_same_filter. rewrite <-all_pairs.
  unfold ValidateAssignment.
  case_decide as Hneg; [split; [done|lia]|].
  destruct args as [|a args].
  { destruct (as_AllowEmpty req); split; try done.
    - intros [= <-]. split_and!; try lia; try done. by intros p ?%not_elem_of_nil.
    - intros (_ & _ & _ & HF & _). by inversion HF.
    - by intros (_ & _ & Hno & _); specialize (Hno eq_refl). }
  set (mL := if decide (as_MaxPerLeft req = 0) then _ else _).
  set (mR := if decide (as_MaxPerRight req = 0) then _ else _).
  assert (Hcounts : ∀ c, check_counts mL mR c = true ↔
    ∀ p, p ∈ c → count_same fst c p ≤ mL ∧ count_same snd c p ≤ mR).
  { intros c. unfold check_counts. rewrite forallb_forall. setoid_rewrite andb_true_iff.
    setoid_rewrite bool_decide_eq_true. setoid_rewrite list_elem_of_In. done. }
  destruct (mapM asPair (a :: args)) as [c|] eqn:Hm.
  2:{ split; [done|]. intros (_ & _ & _ & HF & _). apply mapM_Some in HF. congruence. }
  pose proof (check_pairs_ok (as_Pairs req) [] c) as Hpairs.
  split.
  - destruct (check_pairs _ _ _) eqn:Hc; [done|].
    destruct (check_counts _ _ _) eqn:Hn; [|done]. intros [= <-].
    destruct (proj1 Hpairs eq_refl) as [HF Hdup]. pose proof (proj1 (Hcounts _) Hn) as Hn'.
    rewrite Forall_forall in HF. split_and!; try lia; try done.
    + by apply mapM_Some.
    + intros p Hp. split; [by apply HF|by apply Hn'].
    + intros i j p q Hij. apply Hdup; simpl; lia.
  - intros (_ & _ & _ & HF & Hall & Hdup).
    assert (c = chosen) as -> by (apply mapM_Some in HF; congruence).
    rewrite (proj2 Hpairs), (proj2 (Hcounts chosen)); [done|..].
    + intros p Hp. by apply Hall.
    + split; [apply Forall_forall; intros p Hp; by apply Hall|].
      intros i j p q Hij _. by apply Hdup.
Qed.

(** ** The trip through JSON *)

Lemma asNumber_json v : plain v → asNumber (through_json v) = asNumber v.
Proof. by destruct v. Qed.

Lemma DeepEqual_json c v : plain v → asNumber v = None →
  DeepEqual c (through_json v) = DeepEqual c v.
Proof. by destruct v. Qed.

Lemma containsCandidate_json cands v : plain v →
  containsCandidate cands (through_json v) = containsCandidate cands v.
Proof.
  intros Hp. unfold containsCandidate. rewrite asNumber_json by done.
  destruct (asNumber v) eqn:Hn; [done|].
  by induction cands as [|c cs IH]; simpl; rewrite ?IH, ?DeepEqual_json.
Qed.

Lemma sameItem_json_r a b : plain b → sameItem a (through_json b) = sameItem a b.
Proof.
  intros Hb. unfold sameItem. rewrite asNumber_json by done. destruct (asNumber a) eqn:Ha; [done|].
  destruct b; try done. simpl. by destruct a.
Qed.

Lemma sameItem_json_l a b : plain a → sameItem (through_json a) b = sameItem a b.
Proof. by destruct a. Qed.

Lemma sameItem_json a b : plain a → plain b →
  sameItem (through_json a) (through_json b) = sameItem a b.
Proof. intros. by rewrite sameItem_json_l, sameItem_json_r. Qed.

(** Both sides of a chosen pair after the trip. *)
Definition json2 (p : GoVal * GoVal) : GoVal * GoVal := (through_json p.1, through_json p.2).
Definition plain2 (p : GoVal * GoVal) : Prop := plain p.1 ∧ plain p.2.

Lemma asPair_json v : plain_pair v →
  ∃ p, asPair v = Some p ∧ plain2 p ∧ asPair (pair_through_json v) = Some (json2 p).
Proof.
  destruct v as [| | | | |a b|l| |]; try done; simpl.
  - intros ?. by exists (a, b).
  - destruct l as [|a [|b [|]]]; try done. intros ?. by exists (a, b).
Qed.

Lemma mapM_asPair_json args : Forall plain_pair args →
  ∃ ps, mapM asPair args = Some ps ∧ Forall plain2 ps ∧
    mapM asPair (pair_through_json <$> args) = Some (json2 <$> ps).
Proof.
  induction 1 as [|v args Hv _ (ps & H1 & H2 & H3)]; [by exists []|].
  destruct (asPair_json v Hv) as (p & Hp & Hpl & Hj). exists (p :: ps).
  cbn [fmap list_fmap]. simpl in *. rewrite Hp, H1, Hj, H3. simpl. auto.
Qed.

Lemma check_pairs_json offered prev ps : Forall plain2 prev → Forall plain2 ps →
  check_pairs offered (json2 <$> prev) (json2 <$> ps) = check_pairs offered prev ps.
Proof.
  intros Hprev Hps. revert prev Hprev.
  induction Hps as [|p ps [Hp1 Hp2] _ IH]; intros prev Hprev; [done|]. simpl.
  assert (containsPair offered (json2 p) = containsPair offered p) as ->.
  { clear -Hp1 Hp2. induction offered as [|q qs IHq]; [done|]. simpl. rewrite IHq.
    unfold samePair, json2; simpl. by rewrite !sameItem_json_r. }
  assert (existsb (λ q, samePair q (json2 p)) (json2 <$> prev) =
          existsb (λ q, samePair q p) prev) as ->.
  { clear IH. induction Hprev as [|q qs [Hq1 Hq2] _ IHq]; [done|]. rewrite fmap_cons.
    cbn [existsb]. rewrite IHq. unfold samePair, json2; simpl. by rewrite !sameItem_json. }
  assert (Forall plain2 (prev ++ [p])) as Hpp.
  { apply Forall_app; split; [done|]. by repeat constructor. }
  specialize (IH _ Hpp). rewrite fmap_app in IH. by rewrite <-IH.
Qed.

Lemma count_same_json (side : GoVal * GoVal → GoVal) p ps :
  (∀ q, side (json2 q) = through_json (side q)) → (∀ q, plain2 q → plain (side q)) →
  plain2 p → Forall plain2 ps →
  count_same side (json2 <$> ps) (json2 p) = count_same side ps p.
Proof.
  intros Hs Hpl Hp Hps. unfold count_same. f_equal. rewrite Hs.
  induction Hps as [|q qs Hq _ IH]; [done|]. rewrite fmap_cons. cbn [List.filter].
  rewrite Hs, sameItem_json by auto. destruct (sameItem _ _); simpl; congruence.
Qed.

Lemma check_counts_json maxL maxR ps : Forall plain2 ps →
  check_counts maxL maxR (json2 <$> ps) = check_counts maxL maxR ps.
Proof.
  intros Hps. unfold check_counts.
  assert (H : ∀ qs, Forall plain2 qs →
    forallb (λ p, bool_decide (count_same fst (json2 <$> ps) p ≤ maxL) &&
       bool_decide (count_same snd (json2 <$> ps) p ≤ maxR)) (json2 <$> qs) =
    forallb (λ p, bool_decide (count_same fst ps p ≤ maxL) &&
       bool_decide (count_same snd ps p ≤ maxR)) qs); [|auto].
  induction 1 as [|q qs Hq _ IH]; [done|]. rewrite fmap_cons. cbn [forallb]. rewrite IH.
  rewrite !count_same_json; auto; by intros ? [].
Qed.

(** C23: An answer that came through JSON, where every integer is a float64 and
    every pair a plain array, is judged as the answer that was sent: same verdict
    on a selection, and on an assignment the same error or the same pairs, as
    they came back. *)
Theorem choices_through_json sreq areq sel args :
  Forall plain sel → Forall plain_pair args →
  ValidateSelection sreq (through_json <$> sel) = ValidateSelection sreq sel ∧
  ValidateAssignment areq (pair_through_json <$> args) =
    match ValidateAssignment areq args with
    | inl e => inl e
    | inr ps => inr (json2 <$> ps)
    end.
Proof.
  intros Hsel Hargs. split.
  - unfold ValidateSelection. rewrite length_fmap.
    assert (forallb (containsCandidate (ts_Candidates sreq)) (through_json <$> sel) =
            forallb (containsCandidate (ts_Candidates sreq)) sel) as Hall.
    { induction Hsel as [|v vs Hv _ IH]; [done|]. rewrite fmap_cons. cbn [forallb].
      by rewrite IH, containsCandidate_json. }
    destruct (ts_Candidates sreq); [done|]. by rewrite Hall.
  - unfold ValidateAssignment. case_decide; [done|].
    destruct (mapM_asPair_json args Hargs) as (ps & H1 & H2 & H3).
    destruct args as [|a args]; [by destruct (as_AllowEmpty areq)|].
    rewrite H3, H1. change (pair_through_json <$> a :: args) with
      (pair_through_json a :: (pair_through_json <$> args)). cbn match.
    pose proof (check_pairs_json (as_Pairs areq) [] ps (Forall_nil_2 _) H2) as Hc.
    change (json2 <$> []) with (@nil (GoVal * GoVal)) in Hc. rewrite Hc, check_counts_json by done.
    clear Hc. destruct (check_pairs _ _ _); [done|]. by destruct (check_counts _ _ _).
Qed.

(** Two unit cards and a blocker, as the game offers them and as the player's
    client answers. *)
Definition attack : AssignmentSpec :=
  mkAssignmentSpec [(GoString "bear", GoInt "" KInt 1); (GoString "wolf", GoInt "" KInt 2)] 0 0 false.

Lemma choices_through_json_witness :
  let args := [GoPair (GoString "wolf") (GoInt "" KInt 2)] in
  Forall plain_pair args ∧
  ValidateAssignment attack (pair_through_json <$> args) =
    inr [(GoString "wolf", GoFloat "" (float_of_int 2))].
Proof.
  cbv zeta. assert (HF : Forall plain_pair [GoPair (GoString "wolf") (GoInt "" KInt 2)]).
  { by repeat constructor. }
  split; [done|].
  rewrite (proj2 (choices_through_json (mkTargetSpec [] 0 0) attack [] _ (Forall_nil_2 _) HF)).
  vm_compute. reflexivity.
Defined.

(** Candidates are compared as float64, so above 2^53 the engine accepts an
    integer that was not offered: with only 2^53 on offer, 2^53 + 1 passes. *)
Theorem large_ids_collide :
  let req := mkTargetSpec [GoInt "" KInt64 (2 ^ 53)] 1 1 in
  ValidateSelection req [GoInt "" KInt64 (2 ^ 53 + 1)] = None ∧
  DeepEqual (GoInt "" KInt64 (2 ^ 53)) (GoInt "" KInt64 (2 ^ 53 + 1)) = false.
Proof. vm_compute. split; reflexivity. Qed.

(** ** What StripSecrets lets through *)

(** Two values of G a player must not be able to tell apart: they differ at most
    in [secret] and in the other players' entries of [players]. *)
Definition looks_same (playerID : string) (g g' : gmap string StripVal) : Prop :=
  (∀ k, k ≠ "secret" → k ≠ "players" → g !! k = g' !! k) ∧
  match g !! "players", g' !! "players" with
  | Some (SvMap m), Some (SvMap m') => playerID ≠ "" → m !! playerID = m' !! playerID
  | v, v' => v = v'
  end.

(** C24: StripSecrets hides what it says: states that differ only in G.secret and
    in the other players' entries of G.players (all entries, for a spectator)
    give the same view. *)
Theorem StripSecrets_noninterference g g' playerID :
  looks_same playerID g g' → StripSecrets g playerID = StripSecrets g' playerID.
Proof.
  intros [Hk Hp]. apply map_eq. intros k. unfold StripSecrets. rewrite !map_lookup_imap.
  destruct (decide (k = "secret")) as [->|Hs].
  { destruct (g !! "secret"), (g' !! "secret"); reflexivity. }
  destruct (decide (k = "players")) as [->|Hnp].
  - destruct (g !! "players") as [[m|v]|], (g' !! "players") as [[m'|v']|]; simplify_eq/=; try done.
    destruct (decide (playerID = "")); [done|]. by rewrite Hp.
  - by rewrite Hk.
Qed.

Lemma StripSecrets_noninterference_witness :
  let g x y := (<["secret" := SvOther (GoInt "" KInt x)]>
                 (<["players" := SvMap (<["0" := GoString "hand"]> {["1" := GoString y]})]>
                    {["turn" := SvOther (GoBool true)]}) : gmap string StripVal) in
  g 1 "ace" ≠ g 2 "two" ∧ StripSecrets (g 1 "ace") "0" = StripSecrets (g 2 "two") "0".
Proof.
  intros g. split.
  - intros H. by apply (f_equal (.!! "secret")) in H.
  - apply StripSecrets_noninterference. split.
    + intros k H1 H2. unfold g. by rewrite !(lookup_insert_ne _ "secret"), !(lookup_insert_ne _ "players") by done.
    + vm_compute. done.
Defined.
