(* ===== verification/Floats.v ===== *)
(** * Integers that travel as float64

    Ids go out as integers and come back from JSON as float64 values
    ([src/core/target.go], [asNumber]; [src/modules/ccg/pairs.go], [toEntityID]):
    below 2^53 the conversion is exact, so nothing is lost or confused. *)

From Stdlib Require Import SpecFloat.
From S2P Require Import Prelude Choices.
#[local] Open Scope Z_scope.

(** Arithmetic on float64, each operation rounded by itself. *)
Definition fadd := SFadd 53 1024.
Definition fsub := SFsub 53 1024.
Definition fmul := SFmul 53 1024.
Definition fdiv := SFdiv 53 1024.

(** [uint64(f)] for a float64: truncation.  For a value outside the range of
    uint64 the language leaves the result to the implementation, here [wild]. *)
Definition uint64_of_float (wild : spec_float → Z) (f : spec_float) : Z :=
  match f with
  | S754_zero _ => 0
  | S754_finite sign m e =>
      let n := Z.shiftl (Zpos m) e in
      let n := if sign : bool then - n else n in
      if decide (0 ≤ n < 2 ^ 64) then n else wild f
  | _ => wild f
  end.

(** [math.Float64bits] *)
Definition float64bits (f : spec_float) : Z :=
  let sign s := if s : bool then 2 ^ 63 else 0 in
  match f with
  | S754_zero s => sign s
  | S754_infinity s => sign s + 0x7FF * 2 ^ 52
  | S754_nan => 0x7FF8000000000001
  | S754_finite s m e =>
      if decide (Zpos m < 2 ^ 52) then sign s + Zpos m
      else sign s + (e + 1075) * 2 ^ 52 + (Zpos m - 2 ^ 52)
  end.

(** The integer a float64 is, if it is one. *)
Definition float_int (f : spec_float) : option Z :=
  match f with
  | S754_zero _ => Some 0
  | S754_finite sign m e =>
      let signed n := if sign : bool then - n else n in
      if decide (0 ≤ e) then Some (signed (Zpos m * 2 ^ e))
      else if decide (Zpos m mod 2 ^ (- e) = 0) then Some (signed (Zpos m / 2 ^ (- e)))
      else None
  | _ => None
  end.

Lemma digits2_pos_range m :
  2 ^ (Zpos (digits2_pos m) - 1) ≤ Zpos m < 2 ^ Zpos (digits2_pos m).
Proof.
  induction m as [m IH|m IH|]; cbn [digits2_pos]; [..|done];
    rewrite Pos2Z.inj_succ; replace (Z.succ (Zpos (digits2_pos m)) - 1) with
      (Z.succ (Zpos (digits2_pos m) - 1)) by lia; rewrite !Z.pow_succ_r by lia; lia.
Qed.

Lemma iter_xO m k : Zpos (Pos.iter xO m k) = Zpos m * 2 ^ Zpos k.
Proof.
  induction k as [|k IH] using Pos.peano_ind; [simpl; lia|].
  rewrite Pos.iter_succ, Pos2Z.inj_xO, IH, Pos2Z.inj_succ, Z.pow_succ_r by lia. lia.
Qed.

Lemma digits2_iter m k : Zpos (digits2_pos (Pos.iter xO m k)) = Zpos (digits2_pos m) + Zpos k.
Proof.
  induction k as [|k IH] using Pos.peano_ind; [simpl; lia|].
  rewrite Pos.iter_succ. cbn [digits2_pos]. lia.
Qed.

(** A mantissa of exactly 53 bits is not rounded. *)
Lemma binary_round_aux_exact m e : Zpos (digits2_pos m) = 53 → -1074 ≤ e ≤ 971 →
  binary_round_aux 53 1024 false (Zpos m) e loc_Exact = S754_finite false m e.
Proof.
  intros Hd He. assert (Hf : fexp 53 1024 (Zdigits2 (Zpos m) + e) - e = 0).
  { unfold fexp, emin, Zdigits2. rewrite Hd. lia. }
  unfold binary_round_aux, shr_fexp, shr_record_of_loc. rewrite Hf. cbn [shr shr_m loc_of_shr_record round_nearest_even].
  rewrite Hf. cbn [shr shr_m]. destruct (Z.leb_spec e (1024 - 53)); [done|lia].
Qed.

Lemma float_of_int_pos m : Zpos m < 2 ^ 53 →
  ∃ m' e, float_of_int (Zpos m) = S754_finite false m' e ∧ e ≤ 0 ∧ Zpos m' = Zpos m * 2 ^ (- e).
Proof.
  intros Hm. pose proof (digits2_pos_range m) as [Hlo Hhi].
  assert (Hd : Zpos (digits2_pos m) ≤ 53).
  { destruct (Z.le_gt_cases (Zpos (digits2_pos m)) 53) as [|Hgt]; [done|].
    assert (2 ^ 53 ≤ 2 ^ (Zpos (digits2_pos m) - 1)) by (apply Z.pow_le_mono_r; lia). lia. }
  unfold float_of_int, binary_normalize, binary_round.
  assert (Hf : fexp 53 1024 (Zpos (digits2_pos m) + 0) = Zpos (digits2_pos m) - 53).
  { unfold fexp, emin. lia. }
  rewrite Hf. unfold shl_align. rewrite Z.sub_0_r.
  destruct (Zpos (digits2_pos m) - 53) as [|p|p] eqn:Hs; [|lia|].
  - exists m, 0. rewrite binary_round_aux_exact by lia. split; [done|]. lia.
  - exists (Pos.iter xO m p), (Zneg p). rewrite binary_round_aux_exact.
    + split; [done|]. split; [lia|]. apply iter_xO.
    + rewrite digits2_iter. lia.
    + lia.
Qed.

Lemma float_int_exact n : 0 ≤ n < 2 ^ 53 → float_int (float_of_int n) = Some n.
Proof.
  intros Hn. destruct n as [|m|m]; [done| |lia].
  destruct (float_of_int_pos m) as (m' & e & -> & He & Hm'); [lia|]. unfold float_int.
  destruct (decide (0 ≤ e)).
  - assert (e = 0) as -> by lia. rewrite Z.mul_1_r. f_equal. rewrite Hm'. simpl. lia.
  - assert (0 < 2 ^ (- e)) by (apply Z.pow_pos_nonneg; lia).
    rewrite Hm', Z.mod_mul, decide_True by lia. f_equal. by apply Z.div_mul; lia.
Qed.

Lemma SFeqb_eq f g : SFeqb f g = true → f = g ∨ (∃ s s', f = S754_zero s ∧ g = S754_zero s').
Proof.
  unfold SFeqb, SFcompare. intros Heq.
  destruct f as [s| s| |s m e], g as [s'| s'| |s' m' e']; try done; try (by destruct s); try (by destruct s');
    try (by right; eauto); left.
  - by destruct s, s'.
  - destruct s, s'; try done; destruct (Z.compare_spec e e'); try done; subst;
      destruct (Pos.compare_cont Eq m m') eqn:Hm; try done; by apply Pos.compare_eq in Hm as ->.
Qed.

Lemma SFeqb_float_int f n : 0 ≤ n < 2 ^ 53 → SFeqb f (float_of_int n) = true → float_int f = Some n.
Proof.
  intros Hn [->|(s & s' & -> & Hz)]%SFeqb_eq; [by apply float_int_exact|].
  rewrite <-(float_int_exact n Hn), Hz. done.
Qed.

Lemma SFeqb_refl_int n : 0 ≤ n < 2 ^ 53 → SFeqb (float_of_int n) (float_of_int n) = true.
Proof.
  intros Hn. destruct n as [|m|m]; [done| |lia].
  destruct (float_of_int_pos m) as (m' & e & -> & _); [lia|]. unfold SFeqb, SFcompare.
  rewrite Z.compare_refl. by rewrite (Pos.compare_refl m' : Pos.compare_cont Eq m' m' = Eq).
Qed.

(** [f] is the float64 of an id: the sign of a zero apart. *)
Definition is_id (n : Z) (f : spec_float) : Prop := SFeqb (float_of_int n) f = true.

Lemma SFeqb_zero s s' : SFeqb (S754_zero s) (S754_zero s') = true.
Proof. done. Qed.

Lemma is_id_cases n f : is_id n f → f = float_of_int n ∨
  (∃ s s', float_of_int n = S754_zero s ∧ f = S754_zero s').
Proof. intros [->|(s & s' & ? & ?)]%SFeqb_eq; eauto. Qed.

Lemma is_id_int n f : 0 ≤ n < 2 ^ 53 → is_id n f → float_int f = Some n.
Proof.
  intros Hn [->|(s & s' & Hz & ->)]%is_id_cases; [by apply float_int_exact|].
  rewrite <-(float_int_exact n Hn), Hz. done.
Qed.

(** Two such floats are equal exactly when the ids are. *)
Lemma is_id_eqb n m f g : 0 ≤ n < 2 ^ 53 → 0 ≤ m < 2 ^ 53 → is_id n f → is_id m g →
  SFeqb f g = bool_decide (n = m).
Proof.
  intros Hn Hm Hf Hg. pose proof (is_id_int n f Hn Hf) as Hfi. pose proof (is_id_int m g Hm Hg) as Hgi.
  case_bool_decide as Hnm.
  - subst m. apply is_id_cases in Hf as [->|(s & s' & Hz & ->)]; [exact Hg|].
    apply is_id_cases in Hg as [->|(s2 & s2' & _ & ->)]; [by rewrite Hz|done].
  - destruct (SFeqb f g) eqn:Hfg; [|done]. exfalso.
    apply SFeqb_eq in Hfg as [->|(s & s' & -> & ->)]; [congruence|]. simpl in *. congruence.
Qed.

(** Below 2^53 comparing through float64 is comparing: two numeric ids, of
    whatever integer types, or one of them come back from JSON, are the same item
    exactly when they are the same number. (From 2^53 on they collide, see
    [large_ids_collide].) *)
Theorem small_ids_compare_exactly t t' k k' a b :
  0 ≤ a < 2 ^ 53 → 0 ≤ b < 2 ^ 53 →
  (same (GoInt t k a) (GoInt t' k' b) ↔ a = b) ∧
  (same (GoInt t k a) (through_json (GoInt t' k' b)) ↔ a = b).
Proof.
  intros Ha Hb. assert (Hiff : SFeqb (float_of_int a) (float_of_int b) = true ↔ a = b).
  { split; [|intros ->; by apply SFeqb_refl_int].
    intros Hs%SFeqb_float_int; [|done]. rewrite float_int_exact in Hs by done. congruence. }
  rewrite <-!sameItem_same. split; exact Hiff.
Qed.

Lemma small_ids_compare_exactly_witness :
  same (GoInt "ccg.EntityID" KUint64 41) (through_json (GoInt "" KInt 41)).
Proof.
  apply (proj2 (small_ids_compare_exactly "ccg.EntityID" "" KUint64 KInt 41 41 ltac:(lia) ltac:(lia))).
  reflexivity.
Defined.
