(* ===== verification/Random.v ===== *)
(** * The seeded random number generator

    [src/core/random.go]: the splitmix64 stream behind [mc.Random], numbers, dice and
    the shuffle.  A uint64 is a [Z] between 0 and 2^64, with the wrap-around of its
    additions and multiplications written out; a Go int is an unbounded [Z]. *)

From Stdlib Require String Ascii.
From Stdlib Require Import SpecFloat.
From S2P Require Import Prelude Choices Floats.
#[local] Open Scope Z_scope.

(** ** uint64 *)
Definition two64 : Z := 2 ^ 64.
Definition u64 (z : Z) : Z := z mod two64.
Definition is_u64 (z : Z) : Prop := 0 ≤ z < two64.

(** ** splitmix64 *)
Definition gamma : Z := 0x9E3779B97F4A7C15.
Definition mul1 : Z := 0xBF58476D1CE4E5B9.
Definition mul2 : Z := 0x94D049BB133111EB.

(** [z ^ (z >> k)] *)
Definition xorshift (k z : Z) : Z := Z.lxor z (Z.shiftr z k).

Definition mix (z : Z) : Z :=
  let z := u64 (xorshift 30 z * mul1) in
  let z := u64 (xorshift 27 z * mul2) in
  xorshift 31 z.

(** [Random.next] on the state cell: the new state and the value returned. *)
Definition next (state : Z) : Z * Z :=
  let state := u64 (state + gamma) in (state, mix state).

(** ** Seeds from strings: the 64-bit FNV-1a hash *)
Definition bytes (s : string) : list Z :=
  (λ a, Z.of_N (Ascii.N_of_ascii a)) <$> String.list_ascii_of_string s.

Definition fnv1a (bs : list Z) : Z :=
  fold_left (λ h b, u64 (Z.lxor h b * 1099511628211)) bs 14695981039346656037.

(** ** Random

    [Random] without its state cell, which the operations take and give back: the
    mock overrides, all nil in the value [NewRandomFromState] makes.  The mocks are
    test code; they return whatever they like. *)
Section dice.
Context {V : Type}.

Record Random := mkRandom {
  MockNumber : option (() → spec_float);
  MockDie : option (list Z → V);
  MockD6 : option (list Z → V);
  MockShuffle : option (list V → list V)
}.

Definition NewRandomFromState : Random := mkRandom None None None None.

(** [float64(r.next()>>11) / (1 << 53)] *)
Definition unit_float (v : Z) : spec_float :=
  fdiv (float_of_int (Z.shiftr v 11)) (float_of_int (2 ^ 53)).

Definition Number (r : Random) (state : Z) : Z * spec_float :=
  match MockNumber r with
  | Some f => (state, f tt)
  | None => let '(state, v) := next state in (state, unit_float v)
  end.

(** The [any] a roll returns: an int, an []int, or a mock's value. *)
Inductive roll : Type :=
  | One (n : Z)
  | Many (ns : list Z)
  | Mocked (v : V).

(** [Random.die]; its callers pass at least one side. *)
Definition die (sides : Z) (state : Z) : Z * Z :=
  let '(state, v) := next state in (state, v mod sides + 1).

Fixpoint dice (count : nat) (sides state : Z) : Z * list Z :=
  match count with
  | O => (state, [])
  | S count =>
      let '(state, n) := die sides state in
      let '(state, ns) := dice count sides state in
      (state, n :: ns)
  end.

Definition Die (r : Random) (args : list Z) (state : Z) : Z * roll :=
  match MockDie r with
  | Some f => (state, Mocked (f args))
  | None =>
      let sides := default 6 (args !! 0%nat) in
      let count := default 1 (args !! 1%nat) in
      let sides := if decide (sides ≤ 0) then 1 else sides in
      if decide (count ≤ 1)
      then let '(state, n) := die sides state in (state, One n)
      else let '(state, ns) := dice (Z.to_nat count) sides state in (state, Many ns)
  end.

Definition dWrap (r : Random) (sides : Z) (count : list Z) (state : Z) : Z * roll :=
  match count with
  | [] => let '(state, n) := die sides state in (state, One n)
  | c :: _ => Die r [sides; c] state
  end.

Definition D4 (r : Random) := dWrap r 4.
Definition D6 (r : Random) (count : list Z) (state : Z) : Z * roll :=
  match MockD6 r with
  | Some f => (state, Mocked (f count))
  | None => dWrap r 6 count state
  end.
Definition D8 (r : Random) := dWrap r 8.
Definition D10 (r : Random) := dWrap r 10.
Definition D12 (r : Random) := dWrap r 12.
Definition D20 (r : Random) := dWrap r 20.
End dice.

(** ** Shuffle *)
Section shuffle.
Context {A : Type}.

(** [out[i], out[j] = out[j], out[i]]; both indices are in range. *)
Definition swap (i j : nat) (l : list A) : list A :=
  match l !! i, l !! j with
  | Some x, Some y => <[j := x]> (<[i := y]> l)
  | _, _ => l
  end.

(** [for i := n; i > 0; i--] *)
Fixpoint shuffle_from (i : nat) (state : Z) (l : list A) : Z * list A :=
  match i with
  | O => (state, l)
  | S i' =>
      let '(state, v) := next state in
      shuffle_from i' state (swap i (Z.to_nat (v mod (Z.of_nat i + 1))) l)
  end.

(** The function's body on the state cell. *)
Definition shuffle (state : Z) (l : list A) : Z * list A :=
  shuffle_from (length l - 1) state l.

(** The free function: of its [*Random] it uses the state cell only, never
    [MockShuffle]. *)
Definition Shuffle {V} (r : Random (V:=V)) (state : Z) (l : list A) : Z * list A :=
  shuffle state l.
End shuffle.

(** ** The stream *)

Definition inv_mul1 : Z := 0x96DE1B173F119089.
Definition inv_mul2 : Z := 0x319642B2D24D8EC3.

Definition unshift (k z : Z) : Z := Z.lxor z (Z.lxor (Z.shiftr z k) (Z.shiftr z (2 * k))).

(** The inverse of [mix]. *)
Definition unmix (v : Z) : Z :=
  let z := unshift 31 v in
  let z := unshift 27 (u64 (z * inv_mul2)) in
  unshift 30 (u64 (z * inv_mul1)).

Lemma u64_bound z : is_u64 (u64 z).
Proof. apply Z.mod_pos_bound. done. Qed.

Lemma u64_small z : is_u64 z → u64 z = z.
Proof. apply Z.mod_small. Qed.

Lemma testbit_high z i : is_u64 z → 64 ≤ i → Z.testbit z i = false.
Proof.
  intros [H0 H1] Hi. destruct (Z.eq_dec z 0) as [->|]; [apply Z.bits_0|].
  apply Z.bits_above_log2; [done|]. apply Z.log2_lt_pow2; [lia|].
  eapply Z.lt_le_trans; [exact H1|]. by apply Z.pow_le_mono_r.
Qed.

Lemma u64_of_bits z : 0 ≤ z → (∀ i, 64 ≤ i → Z.testbit z i = false) → is_u64 z.
Proof.
  intros H0 Hb. split; [done|]. destruct (Z.eq_dec z 0) as [->|]; [done|].
  destruct (Z_lt_le_dec z two64) as [|Hle]; [done|].
  assert (Hl : 64 ≤ Z.log2 z) by (by apply Z.log2_le_pow2; [lia|]).
  specialize (Hb _ Hl). rewrite Z.bit_log2 in Hb by lia. done.
Qed.

Lemma xorshift_bit k z i :
  0 ≤ k → 0 ≤ i → Z.testbit (xorshift k z) i = xorb (Z.testbit z i) (Z.testbit z (i + k)).
Proof. intros. unfold xorshift. by rewrite Z.lxor_spec, Z.shiftr_spec. Qed.

Lemma unshift_bit k z i :
  0 ≤ k → 0 ≤ i → Z.testbit (unshift k z) i =
    xorb (Z.testbit z i) (xorb (Z.testbit z (i + k)) (Z.testbit z (i + 2 * k))).
Proof. intros. unfold unshift. by rewrite !Z.lxor_spec, !Z.shiftr_spec. Qed.

Lemma xorshift_u64 k z : 0 ≤ k → is_u64 z → is_u64 (xorshift k z).
Proof.
  intros Hk Hz. apply u64_of_bits.
  - unfold xorshift. apply Z.lxor_nonneg. rewrite Z.shiftr_nonneg. destruct Hz. lia.
  - intros i Hi. rewrite xorshift_bit by lia. by rewrite !testbit_high by (done || lia).
Qed.

Lemma unshift_u64 k z : 0 ≤ k → is_u64 z → is_u64 (unshift k z).
Proof.
  intros Hk Hz. apply u64_of_bits.
  - unfold unshift. rewrite !Z.lxor_nonneg, !Z.shiftr_nonneg. destruct Hz. lia.
  - intros i Hi. rewrite unshift_bit by lia. by rewrite !testbit_high by (done || lia).
Qed.

Lemma unshift_xorshift k z : 22 ≤ k → is_u64 z → unshift k (xorshift k z) = z.
Proof.
  intros Hk Hz. apply Z.bits_inj'. intros i Hi.
  rewrite unshift_bit, !xorshift_bit by lia.
  rewrite (testbit_high z (i + 2 * k + k)) by (done || lia).
  replace (i + k + k) with (i + 2 * k) by lia.
  destruct (Z.testbit z i), (Z.testbit z (i + k)), (Z.testbit z (i + 2 * k)); done.
Qed.

Lemma xorshift_unshift k z : 22 ≤ k → is_u64 z → xorshift k (unshift k z) = z.
Proof.
  intros Hk Hz. apply Z.bits_inj'. intros i Hi.
  rewrite xorshift_bit, !unshift_bit by lia.
  rewrite (testbit_high z (i + k + 2 * k)) by (done || lia).
  replace (i + k + k) with (i + 2 * k) by lia.
  destruct (Z.testbit z i), (Z.testbit z (i + k)), (Z.testbit z (i + 2 * k)); done.
Qed.

(** Multiplication by a unit modulo 2^64. *)
Lemma u64_mul_inv a b z : u64 (a * b) = 1 → is_u64 z → u64 (u64 (z * a) * b) = z.
Proof.
  unfold u64. intros Hab Hz. rewrite Z.mul_mod_idemp_l by done.
  rewrite <-Z.mul_assoc, <-Z.mul_mod_idemp_r by done. rewrite Hab, Z.mul_1_r.
  by apply Z.mod_small.
Qed.

Lemma mul1_inv : u64 (mul1 * inv_mul1) = 1 ∧ u64 (inv_mul1 * mul1) = 1.
Proof. by vm_compute. Qed.
Lemma mul2_inv : u64 (mul2 * inv_mul2) = 1 ∧ u64 (inv_mul2 * mul2) = 1.
Proof. by vm_compute. Qed.

Lemma mix_u64 z : is_u64 (mix z).
Proof. apply xorshift_u64; [lia|apply u64_bound]. Qed.

Lemma unmix_u64 v : is_u64 (unmix v).
Proof. apply unshift_u64; [lia|apply u64_bound]. Qed.

Lemma unmix_mix z : is_u64 z → unmix (mix z) = z.
Proof.
  intros Hz. unfold mix, unmix. cbv zeta.
  rewrite unshift_xorshift by (lia || apply u64_bound).
  rewrite u64_mul_inv by (apply mul2_inv || (apply xorshift_u64; [lia|apply u64_bound])).
  rewrite unshift_xorshift by (lia || apply u64_bound).
  rewrite u64_mul_inv by (apply mul1_inv || (apply xorshift_u64; [lia|done])).
  by apply unshift_xorshift.
Qed.

Lemma mix_unmix v : is_u64 v → mix (unmix v) = v.
Proof.
  intros Hv. unfold mix, unmix. cbv zeta.
  rewrite xorshift_unshift by (lia || apply u64_bound).
  rewrite u64_mul_inv by (apply mul1_inv || (apply unshift_u64; [lia|apply u64_bound])).
  rewrite xorshift_unshift by (lia || apply u64_bound).
  rewrite u64_mul_inv by (apply mul2_inv || (apply unshift_u64; [lia|done])).
  by apply xorshift_unshift.
Qed.

(** The state and the value after [n] more calls. *)
Fixpoint nth_next (n : nat) (state : Z) : Z * Z :=
  match n with
  | O => next state
  | S n => nth_next n (next state).1
  end.

Lemma nth_next_eq n state :
  nth_next n state =
  (u64 (state + Z.of_nat (S n) * gamma), mix (u64 (state + Z.of_nat (S n) * gamma))).
Proof.
  revert state. induction n as [|n IH]; intros state; simpl nth_next.
  - unfold next. cbv zeta. by replace (Z.of_nat 1 * gamma) with gamma by lia.
  - rewrite IH. unfold next. cbv zeta. simpl fst.
    assert (Hs : u64 (u64 (state + gamma) + Z.of_nat (S n) * gamma) =
                 u64 (state + Z.of_nat (S (S n)) * gamma)).
    { unfold u64. rewrite Z.add_mod_idemp_l by done. f_equal. lia. }
    by rewrite Hs.
Qed.

Lemma gamma_unit : Z.gcd gamma two64 = 1.
Proof. by vm_compute. Qed.

Lemma step_inj state i j :
  u64 (state + i * gamma) = u64 (state + j * gamma) → i mod two64 = j mod two64.
Proof.
  unfold u64. intros H.
  assert (Hd : (two64 | (i - j) * gamma)).
  { apply Z.mod_divide; [done|].
    replace ((i - j) * gamma) with ((state + i * gamma) - (state + j * gamma)) by lia.
    rewrite Zminus_mod, H, Z.sub_diag. done. }
  rewrite Z.mul_comm in Hd. apply Z.gauss in Hd; [|by rewrite Z.gcd_comm, gamma_unit].
  destruct Hd as [k Hk]. replace i with (j + k * two64) by lia. by rewrite Z_mod_plus_full.
Qed.

Section shuffle_facts.
Context {A : Type}.
Implicit Types (l : list A).

Lemma swap_Permutation i j l : swap i j l ≡ₚ l.
Proof.
  unfold swap. destruct (l !! i) as [x|] eqn:Hi; [|done].
  destruct (l !! j) as [y|] eqn:Hj; [|done].
  apply Permutation_inj. rewrite !length_insert. split; [done|].
  exists (λ k, if decide (k = j) then i else if decide (k = i) then j else k). split.
  - intros a b. repeat case_decide; congruence.
  - intros k. pose proof (lookup_lt_Some _ _ _ Hi). pose proof (lookup_lt_Some _ _ _ Hj).
    repeat case_decide; subst.
    + rewrite list_lookup_insert_eq; [done|]. by rewrite length_insert.
    + rewrite list_lookup_insert_ne by done. by rewrite list_lookup_insert_eq.
    + by rewrite !list_lookup_insert_ne by done.
Qed.

Lemma shuffle_from_spec i state l :
  (shuffle_from i state l).2 ≡ₚ l ∧
  (is_u64 state → (shuffle_from i state l).1 = u64 (state + Z.of_nat i * gamma)).
Proof.
  revert state l. induction i as [|i IH]; intros state l; cbn [shuffle_from].
  - split; [done|]. intros Hs. simpl. by rewrite Z.add_0_r, u64_small.
  - unfold next. cbv zeta.
    destruct (IH (u64 (state + gamma))
      (swap (S i) (Z.to_nat (mix (u64 (state + gamma)) mod (Z.of_nat (S i) + 1))) l)) as [HP HS].
    split; [by rewrite HP, swap_Permutation|]. intros Hs.
    rewrite HS by apply u64_bound. unfold u64. rewrite Z.add_mod_idemp_l by done. f_equal. lia.
Qed.

(** Both positions of every exchange lie in the slice. *)
Lemma shuffle_index_in_range i state :
  0 ≤ (next state).2 mod (Z.of_nat i + 1) < Z.of_nat i + 1.
Proof. apply Z.mod_pos_bound. lia. Qed.
End shuffle_facts.

(** C25: The stream has full period: from any state, no value comes twice within
    2^64 calls. *)
Theorem next_never_repeats state i j :
  is_u64 state → Z.of_nat i < two64 → Z.of_nat j < two64 →
  (nth_next i state).2 = (nth_next j state).2 → i = j.
Proof.
  intros Hs Hi Hj. rewrite !nth_next_eq. simpl snd. intros H.
  apply (f_equal unmix) in H. rewrite !unmix_mix in H by apply u64_bound.
  apply step_inj in H. apply (f_equal (λ z, (z - 1) mod two64)) in H.
  rewrite !Zminus_mod_idemp_l in H.
  replace (Z.of_nat (S i) - 1) with (Z.of_nat i) in H by lia.
  replace (Z.of_nat (S j) - 1) with (Z.of_nat j) in H by lia.
  rewrite !Z.mod_small in H by lia. lia.
Qed.

(** C26: A die shows a face between one and its number of sides whatever the
    state, and every face comes up from some state. *)
Theorem die_shows_every_face sides :
  0 < sides ≤ two64 →
  (∀ state, 1 ≤ (die sides state).2 ≤ sides) ∧
  (∀ face, 1 ≤ face ≤ sides → ∃ state, is_u64 state ∧ (die sides state).2 = face).
Proof.
  intros Hsides. split.
  - intros state. unfold die. destruct (next state) as [st v]. simpl.
    pose proof (Z.mod_pos_bound v sides ltac:(lia)). lia.
  - intros face Hface. exists (u64 (unmix (face - 1) - gamma)). split; [apply u64_bound|].
    unfold die, next. simpl.
    assert (Hst : u64 (u64 (unmix (face - 1) - gamma) + gamma) = unmix (face - 1)).
    { unfold u64. rewrite Z.add_mod_idemp_l by done.
      replace (unmix (face - 1) - gamma + gamma) with (unmix (face - 1)) by lia.
      apply Z.mod_small, unmix_u64. }
    rewrite Hst, mix_unmix by (unfold is_u64; lia). rewrite Z.mod_small; lia.
Qed.

(** C27: Shuffle returns a rearrangement of its input, drawing one number of the
    stream per element but the first, whatever overrides its Random carries: the
    MockShuffle the field's comment promises to use is never called. *)
Theorem Shuffle_permutes {A V} (r : Random (V:=V)) state (l : list A) :
  is_u64 state →
  (Shuffle r state l).2 ≡ₚ l ∧
  (Shuffle r state l).1 = u64 (state + Z.of_nat (length l - 1) * gamma).
Proof. intros Hs. unfold Shuffle, shuffle. destruct (shuffle_from_spec (length l - 1) state l). auto. Qed.

Lemma next_never_repeats_witness : (nth_next 3 42).2 = (nth_next 3 42).2 ∧ 3%nat = 3%nat.
Proof.
  split; [reflexivity|]. apply (next_never_repeats 42 3 3); unfold is_u64, two64; lia || done.
Defined.

Lemma die_shows_every_face_witness :
  (∀ state, 1 ≤ (die 6 state).2 ≤ 6) ∧
  (∀ face, 1 ≤ face ≤ 6 → ∃ state, is_u64 state ∧ (die 6 state).2 = face).
Proof. apply (die_shows_every_face 6). unfold two64. lia. Defined.

(** A Random whose mock would reverse the deck. *)
Definition reversing : Random (V:=Z) := mkRandom None None None (Some (λ l, rev l)).

Lemma Shuffle_permutes_witness :
  (Shuffle reversing 42 [1; 2; 3; 4; 5]).2 ≡ₚ [1; 2; 3; 4; 5] ∧
  (Shuffle reversing 42 [1; 2; 3; 4; 5]).1 = u64 (42 + 4 * gamma).
Proof. apply (Shuffle_permutes reversing 42 [1; 2; 3; 4; 5]). unfold is_u64, two64. lia. Defined.
