(* ===== verification/Cards.v ===== *)
(** * Cards: entities, zones, counters and events

    [src/modules/ccg]: entity.go, carddef.go, state.go, zone.go, event.go,
    ability.go, counters.go, helpers.go and deckpile.go.  The library mutates one
    [*State] in place, so an operation is a computation on that state which keeps
    what it did on every exit.  Zone objects are reached by name only. *)

From S2P Require Import Prelude Random Choices.
#[local] Open Scope Z_scope.

(** ** Data *)

Inductive ccg_error : Type :=
  | ErrUnknownZone | ErrUnknownEntity | ErrZoneEmpty | ErrInvalidPosition | ErrZoneFull
  | ErrUnknownDef | ErrDuplicateDef | ErrInsufficientCounters
  | ErrInsufficient | ErrNegativeSpend | ErrUnknownKind | ErrNegativeCost
  | ErrNotInSlots.

#[export] Instance ccg_error_eq_dec : EqDecision ccg_error.
Proof. solve_decision. Defined.

(** What an attribute may hold: a value, or a map as the counters use it, typed or
    as JSON hands it back. *)
Inductive attr : Type :=
  | AVal (v : GoVal)
  | ACounts (m : gmap string Z)
  | AMap (m : gmap string GoVal).

(** Conversion of a float64 to a 64-bit int: truncation towards zero, and the
    smallest int where the value does not fit (as amd64 does it). *)
Definition int_of_float (f : SpecFloat.spec_float) : Z :=
  let out_of_range := - 2 ^ 63 in
  match f with
  | SpecFloat.S754_zero _ => 0
  | SpecFloat.S754_finite sign m e =>
      let n := Z.shiftl (Zpos m) e in
      let n := if sign : bool then - n else n in
      if decide (- 2 ^ 63 ≤ n < 2 ^ 63) then n else out_of_range
  | _ => out_of_range
  end.

(** The dynamic types [AttrInt] and the counters read as a number. *)
Definition to_int (v : GoVal) : option Z :=
  match v with
  | GoInt "" KInt n | GoInt "" KInt64 n => Some n
  | GoFloat "" f => Some (int_of_float f)
  | _ => None
  end.

Definition EntityID := Z.
Definition ZoneName := string.

(** A uint8 of which three values are named. *)
Inductive Visibility : Type := Public | OwnerOnly | Hidden | OtherVisibility (n : Z).

Record Entity := mkEntity {
  en_ID : EntityID;
  en_DefID : string;
  en_Type : string;
  en_Owner : string;
  en_Controller : string;
  en_Zone : ZoneName;
  en_Visibility : Visibility;
  en_RevealedTo : list string;
  en_Mask : gmap string attr;
  en_Attrs : gmap string attr
}.

Record Zone := mkZone {
  zn_Name : ZoneName;
  zn_Ordered : bool;
  zn_Capacity : Z;
  zn_Members : list EntityID
}.

Record Modifier := mkModifier {
  md_ID : Z;
  md_Source : EntityID;
  md_Layer : Z;
  md_Target : EntityID;
  md_Attribute : string;
  md_Op : string;
  md_Value : attr;
  md_Note : string;
  md_Insertion : Z;
  md_ExpiresWith : EntityID;
  md_WhileIn : list ZoneName
}.

Record Event := mkEvent {
  ev_Type : string;
  ev_Source : EntityID;
  ev_Target : EntityID;
  ev_Data : gmap string GoVal
}.

Record Effect := mkEffect {
  ef_ID : Z;
  ef_Source : EntityID;
  ef_Controller : string;
  ef_Kind : string;
  ef_Target : EntityID;
  ef_Targets : list EntityID;
  ef_Data : gmap string GoVal;
  ef_Countered : bool;
  ef_Tag : string
}.

Record IDCounters := mkIDs {
  NextEntityID : Z; NextModID : Z; NextInsertion : Z;
  NextSubID : Z; NextAbilityID : Z; NextEffectID : Z
}.

(** A handler is the game's, named by [H], or one that BindAbility wrapped. *)
Inductive handler (H : Type) : Type :=
  | GameHandler (h : H)
  | AbilityHandler (aid : Z) (entity : EntityID) (bound : list ZoneName) (h : H).
Arguments GameHandler {H}.
Arguments AbilityHandler {H}.

Record subscription (H : Type) := mkSub {
  sub_id : Z;
  sub_predicate : option (Event → bool);
  sub_handler : handler H
}.
Arguments mkSub {H}.
Arguments sub_id {H}.
Arguments sub_predicate {H}.
Arguments sub_handler {H}.

Record ability := mkAbility {
  ab_id : Z; ab_entity : EntityID; ab_zones : list ZoneName; ab_subID : Z
}.

Record State (H : Type) := mkCards {
  Entities : gmap EntityID Entity;
  Zones : gmap ZoneName Zone;
  Modifiers : gmap Z Modifier;
  Events : list Event;
  PendingEffects : list Effect;
  StagedTriggers : list Effect;
  IDs : IDCounters;
  subs : list (subscription H);
  abilities : list ability
}.
Arguments mkCards {H}.
Arguments Entities {H}.
Arguments Zones {H}.
Arguments Modifiers {H}.
Arguments Events {H}.
Arguments PendingEffects {H}.
Arguments StagedTriggers {H}.
Arguments IDs {H}.
Arguments subs {H}.
Arguments abilities {H}.

(** ** Field updates *)
Section updates.
Context {H : Type}.
Implicit Types (s : State H).

Definition set_Zone (z : ZoneName) (e : Entity) : Entity :=
  mkEntity (en_ID e) (en_DefID e) (en_Type e) (en_Owner e) (en_Controller e) z
    (en_Visibility e) (en_RevealedTo e) (en_Mask e) (en_Attrs e).
Definition set_Attrs (a : gmap string attr) (e : Entity) : Entity :=
  mkEntity (en_ID e) (en_DefID e) (en_Type e) (en_Owner e) (en_Controller e) (en_Zone e)
    (en_Visibility e) (en_RevealedTo e) (en_Mask e) a.
Definition set_Controller (p : string) (e : Entity) : Entity :=
  mkEntity (en_ID e) (en_DefID e) (en_Type e) (en_Owner e) p (en_Zone e)
    (en_Visibility e) (en_RevealedTo e) (en_Mask e) (en_Attrs e).
Definition set_Members (m : list EntityID) (z : Zone) : Zone :=
  mkZone (zn_Name z) (zn_Ordered z) (zn_Capacity z) m.

Definition set_Entities m s : State H := mkCards m (Zones s) (Modifiers s) (Events s)
  (PendingEffects s) (StagedTriggers s) (IDs s) (subs s) (abilities s).
Definition set_Zones m s : State H := mkCards (Entities s) m (Modifiers s) (Events s)
  (PendingEffects s) (StagedTriggers s) (IDs s) (subs s) (abilities s).
Definition set_Modifiers m s : State H := mkCards (Entities s) (Zones s) m (Events s)
  (PendingEffects s) (StagedTriggers s) (IDs s) (subs s) (abilities s).
Definition set_Events l s : State H := mkCards (Entities s) (Zones s) (Modifiers s) l
  (PendingEffects s) (StagedTriggers s) (IDs s) (subs s) (abilities s).
Definition set_PendingEffects l s : State H := mkCards (Entities s) (Zones s) (Modifiers s)
  (Events s) l (StagedTriggers s) (IDs s) (subs s) (abilities s).
Definition set_StagedTriggers l s : State H := mkCards (Entities s) (Zones s) (Modifiers s)
  (Events s) (PendingEffects s) l (IDs s) (subs s) (abilities s).
Definition set_IDs i s : State H := mkCards (Entities s) (Zones s) (Modifiers s) (Events s)
  (PendingEffects s) (StagedTriggers s) i (subs s) (abilities s).
Definition set_subs l s : State H := mkCards (Entities s) (Zones s) (Modifiers s) (Events s)
  (PendingEffects s) (StagedTriggers s) (IDs s) l (abilities s).
Definition set_abilities l s : State H := mkCards (Entities s) (Zones s) (Modifiers s)
  (Events s) (PendingEffects s) (StagedTriggers s) (IDs s) (subs s) l.

(** [s.Entities[id] = f(e)] and [z.Members = f(z.Members)]. *)
Definition put_entity (id : EntityID) (e : Entity) s : State H :=
  set_Entities (<[id := e]> (Entities s)) s.
Definition put_members (name : ZoneName) (z : Zone) (m : list EntityID) s : State H :=
  set_Zones (<[name := set_Members m z]> (Zones s)) s.
Definition NewState : State H :=
  mkCards ∅ ∅ ∅ [] [] [] (mkIDs 0 0 0 0 0 0) [] [].
End updates.

(** ** entity.go *)
Section entities.
Implicit Types (e : Entity).

Definition EffectiveController e : string :=
  if decide (en_Controller e = "") then en_Owner e else en_Controller e.

Definition AttrInt e (key : string) (def : Z) : Z :=
  match en_Attrs e !! key with
  | Some (AVal v) => default def (to_int v)
  | _ => def
  end.
Definition AttrStr e (key def : string) : string :=
  match en_Attrs e !! key with Some (AVal (GoString s)) => s | _ => def end.
Definition AttrBool e (key : string) (def : bool) : bool :=
  match en_Attrs e !! key with Some (AVal (GoBool b)) => b | _ => def end.

Definition Entity_SetAttr (key : string) (v : attr) e : Entity :=
  set_Attrs (<[key := v]> (en_Attrs e)) e.
End entities.

(** ** carddef.go *)
Record CardDef := mkDef { cd_ID : string; cd_Type : string; cd_BaseAttrs : gmap string attr }.

Definition Catalog := gmap string CardDef.

Definition Register (d : CardDef) (c : Catalog) : outcome ccg_error Catalog :=
  match c !! cd_ID d with
  | Some _ => Err ErrDuplicateDef
  | None => Ok (<[cd_ID d := d]> c)
  end.

Definition CountersAttrKey : string := "__counters".

Section operations.
Context {H : Type}.
Abbreviation M := (ST (State H) ccg_error).
Implicit Types (s : State H) (id : EntityID) (zone : ZoneName).

Definition get {A} (f : State H → A) : M A := λ s, (Ok (f s), s).
Definition modify (f : State H → State H) : M () := λ s, (Ok tt, f s).

(** [z, ok := s.Zones[zone]; if !ok { return ErrUnknownZone }] *)
Definition the_zone zone : M Zone := λ s,
  (match Zones s !! zone with Some z => Ok z | None => Err ErrUnknownZone end, s).
Definition the_entity id : M Entity := λ s,
  (match Entities s !! id with Some e => Ok e | None => Err ErrUnknownEntity end, s).
Definition err_if (b : bool) (e : ccg_error) : M () := if b then st_err e else mret tt.

(** ** state.go *)

(** The id minted for the next entity is one above the counter. *)
Definition mint (f : EntityID → Entity) : M EntityID := λ s,
  let i := IDs s in
  let id := NextEntityID i + 1 in
  (Ok id, put_entity id (f id)
     (set_IDs (mkIDs id (NextModID i) (NextInsertion i) (NextSubID i) (NextAbilityID i)
                 (NextEffectID i)) s)).

Definition NewEntity (typeName owner : string) (attrs : gmap string attr) : M EntityID :=
  mint (λ id, mkEntity id "" typeName owner "" "" Public [] ∅ attrs).

(** A nil catalog is the empty one. *)
Definition Instantiate (c : Catalog) (def owner : string) : M EntityID :=
  match c !! def with
  | None => st_err ErrUnknownDef
  | Some d => mint (λ id, mkEntity id (cd_ID d) (cd_Type d) owner "" "" Public [] ∅ (cd_BaseAttrs d))
  end.

(** [overrides] is applied on top of the copied attributes. *)
Definition Clone id (owner : string) (overrides : gmap string attr) : M EntityID :=
  src ← the_entity id;
  let attrs := overrides ∪ delete CountersAttrKey (en_Attrs src) in
  mint (λ nid, mkEntity nid (en_DefID src) (en_Type src) owner "" "" (en_Visibility src) [] ∅ attrs).

(** The members without the first occurrence of one. *)
Definition remove_first id (l : list EntityID) : list EntityID :=
  match find_index (λ m, bool_decide (m = id)) l with
  | Some i => remove_at i l
  | None => l
  end.

(** Take an entity out of the zone its Zone field names, if there is one. *)
Definition leave_zone id (e : Entity) s : State H :=
  if decide (en_Zone e = "") then s
  else match Zones s !! en_Zone e with
       | Some z => put_members (en_Zone e) z (remove_first id (zn_Members z)) s
       | None => s
       end.

Definition tied_to id (m : Modifier) : Prop :=
  md_Target m = id ∨ md_Source m = id ∨ md_ExpiresWith m = id.
#[global] Instance tied_to_dec id m : Decision (tied_to id m).
Proof. unfold tied_to. apply _. Defined.

Definition Destroy id : M () := modify (λ s,
  match Entities s !! id with
  | None => s
  | Some e =>
      let s := leave_zone id e s in
      let s := set_Modifiers (filter (λ kv, ¬ tied_to id kv.2) (Modifiers s)) s in
      set_Entities (delete id (Entities s)) s
  end).

Definition with_entity id (f : Entity → Entity) : M () := modify (λ s,
  match Entities s !! id with Some e => put_entity id (f e) s | None => s end).

Definition SetAttr id (key : string) (v : attr) : M () := with_entity id (Entity_SetAttr key v).
Definition SetController id (playerID : string) : M () := with_entity id (set_Controller playerID).

(** ** zone.go *)
Definition NewZone zone (ordered : bool) : M () := modify (λ s,
  match Zones s !! zone with
  | Some _ => s
  | None => set_Zones (<[zone := mkZone zone ordered 0 []]> (Zones s)) s
  end).

Definition full (z : Zone) : bool :=
  bool_decide (0 < zn_Capacity z ∧ zn_Capacity z ≤ Z.of_nat (length (zn_Members z))).

(** Put an entity at the end of a zone and say so in the entity. *)
Definition enter_zone zone id (e : Entity) (z : Zone) (members : list EntityID) s : State H :=
  put_entity id (set_Zone zone e) (put_members zone z members s).

Definition Add zone id : M () :=
  z ← the_zone zone;
  e ← the_entity id;
  _ ← err_if (full z) ErrZoneFull;
  modify (enter_zone zone id e z (zn_Members z ++ [id])).

Definition InsertAt zone id (position : Z) : M () :=
  z ← the_zone zone;
  e ← the_entity id;
  let n := Z.of_nat (length (zn_Members z)) in
  _ ← err_if (bool_decide (position < 0 ∨ n < position)) ErrInvalidPosition;
  _ ← err_if (full z) ErrZoneFull;
  let i := Z.to_nat position in
  modify (enter_zone zone id e z (take i (zn_Members z) ++ [id] ++ drop i (zn_Members z))).

Definition Remove zone id : M () :=
  z ← the_zone zone;
  match find_index (λ m, bool_decide (m = id)) (zn_Members z) with
  | Some i => modify (put_members zone z (remove_at i (zn_Members z)))
  | None => st_err ErrUnknownEntity
  end.

Definition MoveTo id (to : ZoneName) : M () :=
  toZone ← the_zone to;
  e ← the_entity id;
  _ ← err_if (bool_decide (en_Zone e ≠ to) && full toZone) ErrZoneFull;
  _ ← modify (leave_zone id e);
  toZone ← the_zone to;
  modify (enter_zone to id e toZone (zn_Members toZone ++ [id])).

(** The loop that clears the drawn entities' Zone field. *)
Definition clear_zones (ids : list EntityID) s : State H :=
  fold_left (λ s id,
    match Entities s !! id with
    | Some e => put_entity id (set_Zone "" e) s
    | None => s
    end) ids s.

(** [make([]EntityID, n)] panics for a negative [n]. *)
Definition Draw zone (n : Z) : M (list EntityID) :=
  z ← the_zone zone;
  _ ← err_if (bool_decide (zn_Members z = [])) ErrZoneEmpty;
  if decide (n < 0) then st_panic
  else
    let k := Z.to_nat (Z.min n (Z.of_nat (length (zn_Members z)))) in
    let keep := (length (zn_Members z) - k)%nat in
    let drawn := rev (drop keep (zn_Members z)) in
    _ ← modify (put_members zone z (take keep (zn_Members z)));
    _ ← modify (clear_zones drawn);
    mret drawn.

Definition Peek zone (n : Z) : M (list EntityID) := λ s,
  match Zones s !! zone with
  | None => (Ok [], s)
  | Some z =>
      if decide (n < 0) then (Panicked, s)
      else (Ok (take (Z.to_nat n) (rev (zn_Members z))), s)
  end.

Definition Contains zone id s : bool :=
  match Zones s !! zone with Some z => bool_decide (id ∈ zn_Members z) | None => false end.

Definition Size zone s : Z :=
  match Zones s !! zone with Some z => Z.of_nat (length (zn_Members z)) | None => 0 end.

Definition Top zone s : option EntityID := Zones s !! zone ≫= λ z, last (zn_Members z).
Definition Bottom zone s : option EntityID := Zones s !! zone ≫= λ z, head (zn_Members z).
End operations.

(** ** event.go, ability.go and counters.go

    What a game's handler does to the state is a parameter; [None] is a panic.  It
    may publish events itself, with the operations below. *)
Section events.
Context {H : Type} (handle : H → Event → State H → option (State H)).
Abbreviation M := (ST (State H) ccg_error).
Implicit Types (s : State H) (id : EntityID).

Definition MaxEventHistory : nat := 256.

Definition Subscribe (predicate : option (Event → bool)) (h : handler H) : M Z := λ s,
  let i := IDs s in
  let id := NextSubID i + 1 in
  (Ok id, set_subs (subs s ++ [mkSub id predicate h])
     (set_IDs (mkIDs (NextEntityID i) (NextModID i) (NextInsertion i) id (NextAbilityID i)
                 (NextEffectID i)) s)).

(** Drop the first element with a given id. *)
Definition drop_first {A} (key : A → Z) (id : Z) (l : list A) : list A :=
  match find_index (λ a, bool_decide (key a = id)) l with
  | Some i => remove_at i l
  | None => l
  end.

Definition Unsubscribe (id : Z) : M () := modify (λ s, set_subs (drop_first sub_id id (subs s)) s).

Definition UnbindAbility (id : Z) : M () := modify (λ s,
  match List.find (λ a, bool_decide (ab_id a = id)) (abilities s) with
  | Some a => set_abilities (drop_first ab_id id (abilities s))
                (set_subs (drop_first sub_id (ab_subID a) (subs s)) s)
  | None => s
  end).

Definition game_handler (h : H) (ev : Event) : M () := λ s,
  match handle h ev s with
  | Some s' => (Ok tt, s')
  | None => (Panicked, s)
  end.

Definition run_handler (ev : Event) (h : handler H) : M () :=
  match h with
  | GameHandler h => game_handler h ev
  | AbilityHandler aid entity bound h =>
      e ← get (λ s, Entities s !! entity);
      match e with
      | Some e => if decide (en_Zone e ∈ bound) then game_handler h ev else UnbindAbility aid
      | None => UnbindAbility aid
      end
  end.

Definition fires (ev : Event) (sub : subscription H) : bool :=
  match sub_predicate sub with None => true | Some p => p ev end.

Fixpoint dispatch (ev : Event) (snapshot : list (subscription H)) : M () :=
  match snapshot with
  | [] => mret tt
  | sub :: rest =>
      _ ← (if fires ev sub then run_handler ev (sub_handler sub) else mret tt);
      dispatch ev rest
  end.

Definition remember (ev : Event) (history : list Event) : list Event :=
  let l := history ++ [ev] in
  drop (length l - MaxEventHistory) l.

(** The subscribers are those registered when the event is published. *)
Definition Publish (ev : Event) : M () :=
  _ ← modify (λ s, set_Events (remember ev (Events s)) s);
  snapshot ← get subs;
  dispatch ev snapshot.

Definition MatchType (t : string) : Event → bool := λ e, bool_decide (ev_Type e = t).
Definition MatchTypeAndSource (t : string) (source : EntityID) : Event → bool := λ e,
  bool_decide (ev_Type e = t ∧ ev_Source e = source).

Definition BindAbility (entity : EntityID) (zones : list ZoneName)
    (predicate : option (Event → bool)) (h : H) : M Z :=
  aid ← (λ s, let i := IDs s in
         let aid := NextAbilityID i + 1 in
         (Ok aid, set_IDs (mkIDs (NextEntityID i) (NextModID i) (NextInsertion i) (NextSubID i)
                             aid (NextEffectID i)) s));
  subID ← Subscribe predicate (AbilityHandler aid entity zones h);
  _ ← modify (λ s, set_abilities (abilities s ++ [mkAbility aid entity zones subID]) s);
  mret aid.

Definition EventCounterChanged : string := "counter_changed".

Definition readCountersFromAttrs (attrs : gmap string attr) : gmap string Z :=
  match attrs !! CountersAttrKey with
  | Some (ACounts m) => m
  | Some (AMap m) => omap to_int m
  | _ => ∅
  end.

Definition Counters id (kind : string) s : Z :=
  match Entities s !! id with
  | Some e => default 0 (readCountersFromAttrs (en_Attrs e) !! kind)
  | None => 0
  end.

Definition AllCounters id s : gmap string Z :=
  match Entities s !! id with
  | Some e => readCountersFromAttrs (en_Attrs e)
  | None => ∅
  end.

(** Write a total back; totals of zero, and an empty counter map, are removed. *)
Definition put_counter (kind : string) (after : Z) (e : Entity) : Entity :=
  let current := readCountersFromAttrs (en_Attrs e) in
  let current := if decide (after = 0) then delete kind current else <[kind := after]> current in
  set_Attrs (if decide (current = ∅) then delete CountersAttrKey (en_Attrs e)
             else <[CountersAttrKey := ACounts current]> (en_Attrs e)) e.

Definition counter_event id (kind : string) (applied after : Z) : Event :=
  mkEvent EventCounterChanged id 0
    {["kind" := GoString kind; "delta" := GoInt "" KInt applied;
      "total_after" := GoInt "" KInt after]}.

Definition changeCounter id (kind : string) (signedDelta : Z) (allowNegative : bool) : M () :=
  e ← get (λ s, Entities s !! id);
  match e with
  | None => mret tt
  | Some e =>
      let before := default 0 (readCountersFromAttrs (en_Attrs e) !! kind) in
      let after := before + signedDelta in
      let after := if decide (after < 0 ∧ allowNegative = false) then 0 else after in
      let applied := after - before in
      if decide (applied = 0) then mret tt
      else
        _ ← modify (put_entity id (put_counter kind after e));
        Publish (counter_event id kind applied after)
  end.

Definition AddCounter id kind (n : Z) : M () := changeCounter id kind n false.
Definition AddCounterSigned id kind (n : Z) : M () := changeCounter id kind n true.
Definition RemoveCounter id kind (n : Z) : M () :=
  if decide (n < 0) then mret tt else changeCounter id kind (- n) false.

Definition TransferCounters (from to : EntityID) (kind : string) (n : Z) : M () :=
  if decide (n ≤ 0) then mret tt
  else
    _ ← the_entity from;
    _ ← the_entity to;
    if decide (from = to) then mret tt
    else
      have ← get (Counters from kind);
      _ ← err_if (bool_decide (have < n)) ErrInsufficientCounters;
      _ ← changeCounter from kind (- n) false;
      changeCounter to kind n false.
End events.

(** ** Operations that draw random numbers: zone.go, helpers.go, deckpile.go

    They run on the state and the generator's 64-bit word together. *)
Section random.
Context {H : Type}.
Abbreviation M := (ST (State H) ccg_error).
Abbreviation MR := (ST (State H * Z) ccg_error).
Implicit Types (zone : ZoneName).

(** An operation that leaves the generator alone. *)
Definition no_rng {A} (m : M A) : MR A := λ '(s, r),
  let '(o, s') := m s in (o, (s', r)).

Definition ShuffleZone zone : MR () := λ '(s, r),
  match Zones s !! zone with
  | None => (Err ErrUnknownZone, (s, r))
  | Some z =>
      let '(r', m) := shuffle r (zn_Members z) in
      (Ok tt, (put_members zone z m s, r'))
  end.

Definition the_entities (ids : list EntityID) : M (list Entity) := λ s,
  (match mapM (λ id, Entities s !! id) ids with
   | Some es => Ok es
   | None => Err ErrUnknownEntity
   end, s).

Fixpoint move_all (ids : list EntityID) (to : ZoneName) : M () :=
  match ids with
  | [] => mret tt
  | id :: ids => _ ← MoveTo id to; move_all ids to
  end.

(** [inbound] more members would not fit. *)
Definition overfull (z : Zone) (inbound : nat) : bool :=
  bool_decide (0 < zn_Capacity z ∧
               zn_Capacity z < Z.of_nat (length (zn_Members z) + inbound)).

Definition Transition (ids : list EntityID) (to : ZoneName) : M () :=
  toZone ← the_zone to;
  es ← the_entities ids;
  let inbound := length (filter (λ e, en_Zone e ≠ to) es) in
  _ ← err_if (overfull toZone inbound) ErrZoneFull;
  move_all ids to.

Definition the_zones (zones : list ZoneName) : M (list Zone) := λ s,
  (match mapM (λ n, Zones s !! n) zones with
   | Some zs => Ok zs
   | None => Err ErrUnknownZone
   end, s).

(** The members of the source zones, the target left out. *)
Definition sweep (to : ZoneName) (from : list ZoneName) (zs : list Zone) : list EntityID :=
  concat (zip_with (λ n z, if decide (n = to) then [] else zn_Members z) from zs).

Definition MoveAllTo (to : ZoneName) (from : list ZoneName) : M () :=
  toZone ← the_zone to;
  zs ← the_zones from;
  let moving := sweep to from zs in
  _ ← err_if (overfull toZone (length moving)) ErrZoneFull;
  move_all moving to.

Definition Mulligan (hand deck : ZoneName) (n : Z) : MR (list EntityID) :=
  _ ← no_rng (MoveAllTo deck [hand]);
  _ ← ShuffleZone deck;
  if decide (n ≤ 0) then mret []
  else
    drawn ← no_rng (Draw deck n);
    _ ← no_rng (Transition drawn hand);
    mret drawn.

Definition deal_one (c : Catalog) (player : string) zone (def : string) : M EntityID :=
  id ← Instantiate c def player;
  _ ← Add zone id;
  mret id.

Fixpoint deal_to (c : Catalog) (player : string) zone (defs : list string) : M (list EntityID) :=
  match defs with
  | [] => mret []
  | d :: defs =>
      id ← deal_one c player zone d;
      ids ← deal_to c player zone defs;
      mret (id :: ids)
  end.

Fixpoint Deal (c : Catalog) (defs : list string) (players : list string)
    (zoneFor : string → ZoneName) : M (list EntityID) :=
  match players with
  | [] => mret []
  | p :: players =>
      ids ← deal_to c p (zoneFor p) defs;
      rest ← Deal c defs players zoneFor;
      mret (ids ++ rest)
  end.

Record DeckPile := mkPile {
  dp_DeckZone : ZoneName;
  dp_DiscardZone : ZoneName;
  dp_AutoReshuffleOnEmpty : bool
}.

Definition NewDeckPile (deck discard : ZoneName) : M DeckPile :=
  _ ← NewZone deck true;
  _ ← NewZone discard true;
  mret (mkPile deck discard false).

Definition ReshuffleDiscardIntoDeck (p : DeckPile) : MR () :=
  n ← no_rng (get (Size (dp_DiscardZone p)));
  if decide (n = 0) then mret tt
  else
    _ ← no_rng (MoveAllTo (dp_DeckZone p) [dp_DiscardZone p]);
    ShuffleZone (dp_DeckZone p).

Definition Pile_Draw (p : DeckPile) (n : Z) : MR (list EntityID) :=
  deck ← no_rng (get (Size (dp_DeckZone p)));
  discard ← no_rng (get (Size (dp_DiscardZone p)));
  _ ← (if decide (deck = 0 ∧ dp_AutoReshuffleOnEmpty p = true ∧ 0 < discard)
       then ReshuffleDiscardIntoDeck p else mret tt);
  no_rng (Draw (dp_DeckZone p) n).

Definition Pile_Discard (p : DeckPile) (ids : list EntityID) : M () :=
  Transition ids (dp_DiscardZone p).

Definition Mill (p : DeckPile) (n : Z) : MR (list EntityID) :=
  drawn ← Pile_Draw p n;
  _ ← no_rng (Transition drawn (dp_DiscardZone p));
  mret drawn.
End random.
