(* ===== verification/CardFacts.v ===== *)
(** * Zones hold what the entities say they hold

    The well-formedness invariant of a [ccg] state, that every operation which
    places entities keeps it, and what the composite operations do to the zones. *)

From S2P Require Import Prelude Random Choices Cards.
#[local] Open Scope Z_scope.

Section zones.
Context {H : Type}.
Abbreviation M := (ST (State H) ccg_error).
Implicit Types (s : State H) (id : EntityID) (n : ZoneName).

(** Ids are the keys, minted so far; zones have names and no repeated members; and
    an entity is a member of exactly the zone its Zone field names, which exists. *)
Record wf s : Prop := {
  wf_id : ∀ id e, Entities s !! id = Some e → en_ID e = id ∧ 1 ≤ id ≤ NextEntityID (IDs s);
  wf_zone : ∀ n z, Zones s !! n = Some z → n ≠ "" ∧ NoDup (zn_Members z);
  wf_member : ∀ n z id, Zones s !! n = Some z →
    (id ∈ zn_Members z ↔ ∃ e, Entities s !! id = Some e ∧ en_Zone e = n);
  wf_placed : ∀ id e, Entities s !! id = Some e → en_Zone e ≠ "" → is_Some (Zones s !! en_Zone e);
  wf_next : 0 ≤ NextEntityID (IDs s)
}.

(** ** Placing and unplacing one entity *)

Definition unplace id (e : Entity) s : State H := put_entity id (set_Zone "" e) (leave_zone id e s).

Lemma remove_first_filter id l : NoDup l → remove_first id l = filter (.≠ id) l.
Proof.
  unfold remove_first. induction l as [|x l IH]; intros Hnd; [done|].
  apply NoDup_cons in Hnd as [Hx Hnd]. specialize (IH Hnd). cbn [find_index].
  case_bool_decide as Heq.
  - subst. rewrite filter_cons_False by (by intros []). unfold remove_at. simpl.
    rewrite drop_0. symmetry. apply filter_id. by intros y Hy ->.
  - rewrite filter_cons_True by done.
    destruct (find_index _ l) as [i|]; simpl; unfold remove_at in *; simpl; by f_equal.
Qed.

Lemma elem_of_remove_first id x l : NoDup l → x ∈ remove_first id l ↔ x ∈ l ∧ x ≠ id.
Proof. intros Hnd. rewrite remove_first_filter by done. rewrite list_elem_of_filter. naive_solver. Qed.

Lemma NoDup_remove_first id l : NoDup l → NoDup (remove_first id l).
Proof. intros Hnd. rewrite remove_first_filter by done. by apply NoDup_filter. Qed.

Lemma leave_zone_Entities id e s : Entities (leave_zone id e s) = Entities s.
Proof. unfold leave_zone. case_decide; [done|]. by destruct (Zones s !! _). Qed.

Lemma leave_zone_IDs id e s : IDs (leave_zone id e s) = IDs s.
Proof. unfold leave_zone. case_decide; [done|]. by destruct (Zones s !! _). Qed.

(** Leaving takes the entity off the member list of every zone. *)
Lemma leave_zone_Zones id e s : wf s → Entities s !! id = Some e →
  Zones (leave_zone id e s) = (λ z, set_Members (filter (.≠ id) (zn_Members z)) z) <$> Zones s.
Proof.
  intros Hwf He. apply map_eq. intros n. rewrite lookup_fmap.
  assert (Hout : ∀ z, Zones s !! n = Some z → en_Zone e ≠ n →
    set_Members (filter (.≠ id) (zn_Members z)) z = z).
  { intros z Hz Hne. rewrite filter_id; [by destruct z|]. intros x Hx ->.
    apply (wf_member _ Hwf n) in Hx as (e' & He' & Hn); [|done]. congruence. }
  unfold leave_zone. case_decide as Hun.
  - destruct (Zones s !! n) as [z|] eqn:Hz; simpl; [|done]. f_equal. symmetry. apply Hout; [done|].
    apply (wf_zone _ Hwf) in Hz as []. congruence.
  - destruct (Zones s !! en_Zone e) as [z|] eqn:Hz; simpl.
    + destruct (decide (n = en_Zone e)) as [->|Hne].
      * rewrite lookup_insert_eq, Hz. simpl. rewrite remove_first_filter; [done|].
        by eapply wf_zone.
      * rewrite lookup_insert_ne by done. destruct (Zones s !! n) as [z'|] eqn:Hz'; simpl; [|done].
        f_equal. symmetry. by apply Hout.
    + apply wf_placed in He; [|done..]. rewrite Hz in He. by destruct He.
Qed.

Lemma wf_unplace id e s : wf s → Entities s !! id = Some e → wf (unplace id e s).
Proof.
  intros Hwf He. unfold unplace. pose proof (leave_zone_Zones id e s Hwf He) as HZ.
  pose proof (leave_zone_Entities id e s) as HE. pose proof (leave_zone_IDs id e s) as HI.
  split; simpl; rewrite ?HZ, ?HE, ?HI.
  - intros i e' [[<- <-]|[Hne Hi]]%lookup_insert_Some; [|by apply (wf_id _ Hwf)].
    simpl. by apply (wf_id _ Hwf).
  - intros n z. rewrite lookup_fmap. intros (z0 & Hz0 & ->)%fmap_Some. simpl.
    apply (wf_zone _ Hwf) in Hz0 as [? ?]. split; [done|]. by apply NoDup_filter.
  - intros n z i. rewrite lookup_fmap. intros (z0 & Hz0 & ->)%fmap_Some. simpl.
    rewrite list_elem_of_filter, (wf_member _ Hwf n z0 i Hz0).
    apply (wf_zone _ Hwf) in Hz0 as [Hn _]. split.
    + intros (Hne & e' & He' & Hz'). exists e'. by rewrite lookup_insert_ne.
    + intros (e' & [[<- <-]|[Hne Hi]]%lookup_insert_Some & Hz'); [done|]. eauto.
  - intros i e' [[<- <-]|[Hne Hi]]%lookup_insert_Some Hz; [done|].
    rewrite lookup_fmap, fmap_is_Some. by eapply wf_placed.
  - apply Hwf.
Qed.

Lemma wf_member_lookup s n' n z z' m id' i :
  wf s → Zones s !! n = Some z → m ≡ₚ id' :: zn_Members z → i ≠ id' →
  <[n := set_Members m z]> (Zones s) !! n' = Some z' →
  (i ∈ zn_Members z' ↔ ∃ e, Entities s !! i = Some e ∧ en_Zone e = n').
Proof.
  intros Hwf Hz Hm Hi [[<- <-]|[Hne Hz']]%lookup_insert_Some; simpl.
  - rewrite Hm, elem_of_cons, <-(wf_member _ Hwf n z i Hz). naive_solver.
  - by apply (wf_member _ Hwf).
Qed.

Lemma wf_enter n id e z m s :
  wf s → Entities s !! id = Some e → en_Zone e = "" → Zones s !! n = Some z →
  m ≡ₚ id :: zn_Members z → wf (enter_zone n id e z m s).
Proof.
  intros Hwf He Hun Hz Hm. unfold enter_zone.
  assert (Hid : id ∉ zn_Members z).
  { intros (e' & He' & Hn)%(wf_member _ Hwf n); [|done].
    apply (wf_zone _ Hwf) in Hz as []. congruence. }
  split; simpl.
  - intros i e' [[<- <-]|[Hne Hi]]%lookup_insert_Some; [|by apply (wf_id _ Hwf)].
    simpl. by apply (wf_id _ Hwf).
  - intros n' z' [[<- <-]|[Hne Hz']]%lookup_insert_Some; [|by apply (wf_zone _ Hwf)]. simpl.
    apply (wf_zone _ Hwf) in Hz as [? ?]. split; [done|]. rewrite Hm. by constructor.
  - intros n' z' i Hz'. destruct (decide (i = id)) as [->|Hi].
    + rewrite lookup_insert_eq. apply lookup_insert_Some in Hz' as [[<- <-]|[Hne Hz']]; simpl.
      * rewrite Hm. split; [eauto|]. intros _. by left.
      * rewrite (wf_member _ Hwf n' z' id Hz'). apply (wf_zone _ Hwf) in Hz' as [? _].
        split; [|naive_solver]. intros (e' & He' & Hn'). congruence.
    + rewrite lookup_insert_ne by done. by eapply wf_member_lookup.
  - intros i e' [[<- <-]|[Hne Hi]]%lookup_insert_Some Hz'; simpl.
    + by rewrite lookup_insert_eq.
    + rewrite lookup_insert_is_Some. destruct (decide (n = en_Zone e')); [by left|right].
      split; [done|]. by eapply wf_placed.
  - apply Hwf.
Qed.

(** ** Moving one entity *)

Definition members s n : list EntityID :=
  match Zones s !! n with Some z => zn_Members z | None => [] end.

(** The zone an entity says it is in. *)
Definition zone_of s id : ZoneName := default "" (en_Zone <$> Entities s !! id).

(** Everything about zones but who is in them. *)
Definition zone_frame s : gmap ZoneName Zone := set_Members [] <$> Zones s.

Definition moved id (e : Entity) (to : ZoneName) (z : Zone) s : State H :=
  enter_zone to id (set_Zone "" e) (set_Members (filter (.≠ id) (zn_Members z)) z)
    (filter (.≠ id) (zn_Members z) ++ [id]) (unplace id e s).

Lemma MoveTo_run id to s : wf s →
  MoveTo id to s =
  match Zones s !! to with
  | None => (Err ErrUnknownZone, s)
  | Some z =>
      match Entities s !! id with
      | None => (Err ErrUnknownEntity, s)
      | Some e => if bool_decide (en_Zone e ≠ to) && full z then (Err ErrZoneFull, s)
                  else (Ok tt, moved id e to z s)
      end
  end.
Proof.
  intros Hwf. unfold MoveTo. rewrite bind_eq. unfold the_zone at 1.
  destruct (Zones s !! to) as [z|] eqn:Hz; [|done]. cbv beta iota. rewrite bind_eq. unfold the_entity.
  destruct (Entities s !! id) as [e|] eqn:He; [|done]. cbv beta iota. rewrite bind_eq. unfold err_if.
  destruct (_ && _); [done|]. unfold mret, ST_ret, st_ret. cbv beta iota.
  rewrite bind_eq. unfold modify at 1. cbv beta iota. rewrite bind_eq. unfold modify, the_zone.
  rewrite (leave_zone_Zones id e s Hwf He), lookup_fmap, Hz. simpl.
  unfold moved, enter_zone, unplace, put_entity, put_members, set_Entities, set_Zones, set_Zone. simpl.
  rewrite (leave_zone_Zones id e s Hwf He). by rewrite insert_insert_eq.
Qed.

Lemma wf_moved id e to z s : wf s → Entities s !! id = Some e → Zones s !! to = Some z →
  wf (moved id e to z s).
Proof.
  intros Hwf He Hz. apply wf_enter; [by apply wf_unplace|..]; simpl.
  - by rewrite lookup_insert_eq.
  - done.
  - by rewrite (leave_zone_Zones id e s Hwf He), lookup_fmap, Hz.
  - apply Permutation_sym, Permutation_cons_append.
Qed.

Lemma moved_members id e to z s n : wf s → Entities s !! id = Some e → Zones s !! to = Some z →
  members (moved id e to z s) n =
  filter (.≠ id) (members s n) ++ (if decide (n = to) then [id] else []).
Proof.
  intros Hwf He Hz. unfold members, moved. simpl.
  rewrite (leave_zone_Zones id e s Hwf He). case_decide as Hn.
  - subst n. by rewrite lookup_insert_eq, Hz.
  - rewrite lookup_insert_ne, lookup_fmap by done. rewrite app_nil_r.
    by destruct (Zones s !! n).
Qed.

Lemma moved_frame id e to z s : wf s → Entities s !! id = Some e → Zones s !! to = Some z →
  zone_frame (moved id e to z s) = zone_frame s.
Proof.
  intros Hwf He Hz. unfold zone_frame, moved. simpl.
  rewrite (leave_zone_Zones id e s Hwf He). apply map_eq. intros n. rewrite !lookup_fmap.
  destruct (decide (n = to)) as [->|]; [by rewrite lookup_insert_eq, Hz|].
  rewrite lookup_insert_ne, lookup_fmap by done. by destruct (Zones s !! n).
Qed.

Lemma moved_zone_of id e to z s i :
  zone_of (moved id e to z s) i = if decide (i = id) then to else zone_of s i.
Proof.
  unfold zone_of, moved. simpl. case_decide as Hi.
  - subst. by rewrite lookup_insert_eq.
  - rewrite !lookup_insert_ne by done. by rewrite leave_zone_Entities.
Qed.

Lemma moved_Entities id e to z s :
  Entities (moved id e to z s) = <[id := set_Zone to e]> (Entities s).
Proof. unfold moved. simpl. by rewrite leave_zone_Entities, insert_insert_eq. Qed.

(** ** Moving many *)

(** How many of the entities would be new to the zone. *)
Definition inbound s (to : ZoneName) (ids : list EntityID) : nat :=
  length (filter (λ id, zone_of s id ≠ to) ids).

Definition fits s to z ids : Prop :=
  zn_Capacity z ≤ 0 ∨ Z.of_nat (length (zn_Members z) + inbound s to ids) ≤ zn_Capacity z.

(** What a batch does when it goes through. *)
Record batch_moved (ids : list EntityID) (to : ZoneName) s s' : Prop := {
  bm_wf : wf s';
  bm_frame : zone_frame s' = zone_frame s;
  bm_zone : ∀ i, zone_of s' i = if decide (i ∈ ids) then to else zone_of s i;
  bm_dom : dom (Entities s') = dom (Entities s);
  bm_members : NoDup ids → ∀ n,
    members s' n = filter (.∉ ids) (members s n) ++ (if decide (n = to) then ids else [])
}.

Lemma filter_not_in_cons id ids (l : list EntityID) :
  filter (.∉ ids) (filter (.≠ id) l) = filter (.∉ id :: ids) l.
Proof.
  rewrite list_filter_filter. apply list_filter_iff. intros x. rewrite not_elem_of_cons. naive_solver.
Qed.

Lemma wf_NoDup s n z : wf s → Zones s !! n = Some z → NoDup (zn_Members z).
Proof. intros Hwf Hz. by apply (wf_zone _ Hwf) in Hz as []. Qed.

Lemma others_length s to z id e : wf s → Zones s !! to = Some z → Entities s !! id = Some e →
  length (filter (.≠ id) (zn_Members z)) =
    (if decide (en_Zone e = to) then length (zn_Members z) - 1 else length (zn_Members z))%nat ∧
  (en_Zone e = to → 1 ≤ length (zn_Members z))%nat.
Proof.
  intros Hwf Hz He. case_decide as Hto.
  - assert (id ∈ zn_Members z) as Hid by (apply (wf_member _ Hwf to z id Hz); eauto).
    split; [|intros _; apply list_elem_of_lookup in Hid as [k Hk]; apply lookup_lt_Some in Hk; lia].
    rewrite <-(remove_first_filter id _ (wf_NoDup _ _ _ Hwf Hz)).
    unfold remove_first. destruct (find_index _ _) as [i|] eqn:Hi.
    + apply length_remove_at. by eapply find_index_lt.
    + apply find_index_None in Hi. rewrite Forall_forall in Hi.
      specialize (Hi id Hid). by rewrite bool_decide_eq_false in Hi.
  - split; [|done]. rewrite filter_id; [done|].
    intros x Hx ->. apply (wf_member _ Hwf to z id Hz) in Hx as (e' & ? & ?). congruence.
Qed.

Lemma move_all_ok ids to s z : wf s → Zones s !! to = Some z →
  (∀ id, id ∈ ids → is_Some (Entities s !! id)) → fits s to z ids →
  ∃ s', move_all ids to s = (Ok tt, s') ∧ batch_moved ids to s s'.
Proof.
  revert s z. induction ids as [|id ids IH]; intros s z Hwf Hz Hall Hfit.
  { exists s. split; [done|]. split; try done.
    intros _ n. rewrite filter_id by (by intros x _ ?%not_elem_of_nil).
    case_decide; by rewrite app_nil_r. }
  destruct (Hall id) as [e He]; [by left|]. cbn [move_all]. rewrite bind_eq, (MoveTo_run id to s Hwf).
  rewrite Hz, He. set (s1 := moved id e to z s).
  assert (Hwf1 : wf s1) by by apply wf_moved.
  assert (Hz1 : Zones s1 !! to = Some (set_Members (filter (.≠ id) (zn_Members z) ++ [id]) z)).
  { unfold s1, moved. simpl. by rewrite lookup_insert_eq. }
  assert (Hzone : zone_of s id = en_Zone e) by (unfold zone_of; by rewrite He).
  (* the room left for the rest *)
  assert (Hin1 : (inbound s1 to ids ≤ inbound s to ids)%nat).
  { unfold inbound. apply filter_length_mono. intros i Hi. unfold s1. rewrite moved_zone_of.
    by case_decide. }
  pose proof (others_length s to z id e Hwf Hz He) as Hlen.
  destruct Hlen as [Hlen Hpos].
  assert (Hin : inbound s to (id :: ids) =
    ((if decide (en_Zone e = to) then 0 else 1) + inbound s to ids)%nat).
  { unfold inbound. rewrite filter_cons, Hzone. by repeat case_decide. }
  assert (Hroom : bool_decide (en_Zone e ≠ to) && full z = false).
  { apply andb_false_iff. rewrite bool_decide_eq_false. unfold full. rewrite bool_decide_eq_false.
    destruct (decide (en_Zone e = to)); [left; tauto|right].
    unfold fits in Hfit. rewrite Hin in Hfit. lia. }
  rewrite Hroom. destruct (IH s1 _ Hwf1 Hz1) as (s' & Hrun & Hb).
  - intros i Hi. unfold s1. rewrite moved_Entities, lookup_insert_is_Some'. right. apply Hall. by right.
  - unfold fits in *. simpl. rewrite length_app, Hlen. rewrite Hin in Hfit. simpl.
    destruct Hfit as [|Hfit]; [by left|right]. case_decide; [specialize (Hpos ltac:(done))|]; lia.
  - exists s'. split; [exact Hrun|]. destruct Hb as [Hb1 Hb2 Hb3 Hb4 Hb5]. split; [done|..].
    + by rewrite Hb2; apply moved_frame.
    + intros i. rewrite Hb3. unfold s1. rewrite moved_zone_of.
      destruct (decide (i ∈ ids)); [by rewrite decide_True by (by right)|].
      destruct (decide (i = id)) as [->|]; [by rewrite decide_True by (by left)|].
      rewrite decide_False; [done|]. by intros [|]%elem_of_cons.
    + rewrite Hb4. unfold s1. rewrite moved_Entities, dom_insert_lookup_L; [done|by eexists].
    + intros [Hid Hnd]%NoDup_cons n. rewrite (Hb5 Hnd n). unfold s1.
      rewrite moved_members by done. rewrite filter_app, filter_not_in_cons, <-app_assoc. f_equal.
      destruct (decide (n = to)); [by rewrite filter_cons_True by done|reflexivity].
Qed.

(** ** The batch operations *)

Lemma inbound_length s to ids es : mapM (λ id, Entities s !! id) ids = Some es →
  length (filter (λ e, en_Zone e ≠ to) es) = inbound s to ids ∧
  (∀ id, id ∈ ids → is_Some (Entities s !! id)).
Proof.
  intros Hm%mapM_Some. unfold inbound. induction Hm as [|id e ids es He _ [IH1 IH2]].
  { split; [done|]. by intros ? ?%not_elem_of_nil. }
  split.
  - assert (zone_of s id = en_Zone e) as Hz by (unfold zone_of; by rewrite He).
    rewrite !filter_cons. destruct (decide (en_Zone e ≠ to)), (decide (zone_of s id ≠ to));
      simpl; first [congruence|exfalso; rewrite Hz in *; tauto].
  - intros i [->|Hi]%elem_of_cons; eauto.
Qed.

Lemma overfull_fits s to z ids (k : nat) : k = inbound s to ids →
  overfull z k = false → fits s to z ids.
Proof. intros ->. unfold overfull, fits. rewrite bool_decide_eq_false. lia. Qed.

(** The batch may go ahead. *)
Definition room s (ids : list EntityID) (to : ZoneName) : Prop :=
  (∀ id, id ∈ ids → is_Some (Entities s !! id)) ∧ ∃ z, Zones s !! to = Some z ∧ fits s to z ids.

Lemma Transition_run ids to s : wf s →
  (∃ e, Transition ids to s = (Err e, s) ∧ ¬ room s ids to) ∨
  (∃ s', Transition ids to s = (Ok tt, s') ∧ room s ids to ∧ batch_moved ids to s s').
Proof.
  intros Hwf. unfold Transition. rewrite bind_eq. unfold the_zone.
  destruct (Zones s !! to) as [z|] eqn:Hz.
  2:{ left. eexists. split; [done|]. intros [_ (z & Hz' & _)]. congruence. }
  rewrite bind_eq. unfold the_entities. destruct (mapM _ ids) as [es|] eqn:Hes.
  2:{ left. eexists. split; [done|]. intros [Hall _]. apply mapM_None, Exists_exists in Hes as (id & Hid & Hn).
      apply Hall in Hid. rewrite Hn in Hid. by destruct Hid. }
  cbv beta iota zeta. rewrite bind_eq. unfold err_if.
  destruct (inbound_length s to ids es Hes) as [Hlen Hall].
  destruct (overfull z _) eqn:Hf.
  - left. eexists. split; [done|]. intros [_ (z' & Hz' & Hfit)]. rewrite Hz in Hz'. injection Hz' as <-.
    unfold overfull, fits in *. rewrite bool_decide_eq_true in Hf. lia.
  - right. assert (Hfit : fits s to z ids) by by eapply overfull_fits.
    destruct (move_all_ok ids to s z Hwf Hz Hall Hfit) as (s' & Hrun & Hb).
    exists s'. split; [done|]. split; [|done]. split; eauto.
Qed.

Lemma sweep_members s to from zs id : mapM (λ n, Zones s !! n) from = Some zs → wf s →
  id ∈ sweep to from zs ↔ ∃ n, n ∈ from ∧ n ≠ to ∧ id ∈ members s n.
Proof.
  intros Hm%mapM_Some Hwf. unfold sweep. induction Hm as [|n z from zs Hz _ IH]; simpl.
  { split; [by intros ?%not_elem_of_nil|]. by intros (n & ?%not_elem_of_nil & _). }
  rewrite elem_of_app, IH. unfold members. split.
  - intros [Hid|(n' & Hn' & Hrest)].
    + exists n. case_decide; [by apply not_elem_of_nil in Hid|]. rewrite Hz. split_and!; [by left|done..].
    + exists n'. split; [by right|done].
  - intros (n' & [->|Hn']%elem_of_cons & Hne & Hid); [left|right; eauto].
    rewrite Hz in Hid. by rewrite decide_False.
Qed.

Lemma members_NoDup s n : wf s → NoDup (members s n).
Proof.
  intros Hwf. unfold members. destruct (Zones s !! n) as [z|] eqn:Hz; [|constructor].
  by apply (wf_NoDup s n).
Qed.

Lemma members_zone s n id : wf s → id ∈ members s n → is_Some (Entities s !! id) ∧ zone_of s id = n.
Proof.
  intros Hwf. unfold members, zone_of. destruct (Zones s !! n) as [z|] eqn:Hz; [|by intros ?%not_elem_of_nil].
  intros (e & He & Hn)%(wf_member _ Hwf n z id Hz). by rewrite He.
Qed.

Lemma MoveAllTo_run to from s : wf s →
  (∃ e, MoveAllTo to from s = (Err e, s) ∧
     ¬ ∃ z zs, Zones s !! to = Some z ∧ mapM (λ n, Zones s !! n) from = Some zs ∧
         overfull z (length (sweep to from zs)) = false) ∨
  (∃ zs s', mapM (λ n, Zones s !! n) from = Some zs ∧
     MoveAllTo to from s = (Ok tt, s') ∧ batch_moved (sweep to from zs) to s s').
Proof.
  intros Hwf. unfold MoveAllTo. rewrite bind_eq. unfold the_zone.
  destruct (Zones s !! to) as [z|] eqn:Hz; [|left; eexists; split; [done|]; intros (? & ? & ? & ? & ?); congruence].
  rewrite bind_eq. unfold the_zones.
  destruct (mapM _ from) as [zs|] eqn:Hzs; [|left; eexists; split; [done|]; intros (? & ? & ? & ? & ?); congruence].
  cbv beta iota zeta. rewrite bind_eq. unfold err_if.
  destruct (overfull z _) eqn:Hf; [left; eexists; split; [done|]; intros (? & ? & ? & ? & ?); congruence|]. right.
  assert (Hin : ∀ id, id ∈ sweep to from zs → is_Some (Entities s !! id) ∧ zone_of s id ≠ to).
  { intros id (n & _ & Hne & Hid)%(sweep_members s to from zs id Hzs Hwf).
    by apply members_zone in Hid as [? ->]. }
  destruct (move_all_ok (sweep to from zs) to s z Hwf Hz) as (s' & Hrun & Hb); eauto.
  - intros id Hid. by apply Hin.
  - eapply overfull_fits; [|exact Hf]. unfold inbound. rewrite filter_id; [done|].
    intros id Hid. by apply Hin.
Qed.

(** ** Operations that place at most one entity, or none *)

Lemma wf_same_places s s' : wf s →
  (∀ id, (λ e, (en_ID e, en_Zone e)) <$> Entities s' !! id =
         (λ e, (en_ID e, en_Zone e)) <$> Entities s !! id) →
  (∀ n, members s' n ≡ₚ members s n) → dom (Zones s') = dom (Zones s) →
  IDs s' = IDs s → wf s'.
Proof.
  intros Hwf HE HM HD HI.
  assert (HE' : ∀ id e', Entities s' !! id = Some e' →
    ∃ e, Entities s !! id = Some e ∧ en_ID e' = en_ID e ∧ en_Zone e' = en_Zone e).
  { intros id e' He'. specialize (HE id). rewrite He' in HE. simpl in HE.
    destruct (Entities s !! id) as [e|]; simplify_eq/=. eauto. }
  assert (HE2 : ∀ id e, Entities s !! id = Some e →
    ∃ e', Entities s' !! id = Some e' ∧ en_Zone e' = en_Zone e).
  { intros id e He. specialize (HE id). rewrite He in HE. simpl in HE.
    destruct (Entities s' !! id) as [e'|]; simplify_eq/=. eauto. }
  assert (HZ : ∀ n z', Zones s' !! n = Some z' →
    ∃ z, Zones s !! n = Some z ∧ zn_Members z' ≡ₚ zn_Members z).
  { intros n z' Hz'. assert (n ∈ dom (Zones s)) as Hn by (rewrite <-HD; by eapply elem_of_dom_2).
    apply elem_of_dom in Hn as [z Hz]. specialize (HM n). unfold members in HM.
    rewrite Hz, Hz' in HM. eauto. }
  split.
  - intros id e' (e & He & Hid & _)%HE'. rewrite Hid, HI. by apply (wf_id _ Hwf).
  - intros n z' (z & Hz & Hm)%HZ. rewrite Hm. by apply (wf_zone _ Hwf).
  - intros n z' id (z & Hz & Hm)%HZ. rewrite Hm, (wf_member _ Hwf n z id Hz). split.
    + intros (e & He & Hn). apply HE2 in He as (e' & He' & Hz'). exists e'. by rewrite Hz'.
    + intros (e' & He' & Hn). apply HE' in He' as (e & He & _ & Hz'). exists e. by rewrite <-Hz'.
  - intros id e' (e & He & _ & Hz')%HE' Hne. rewrite Hz' in *.
    apply elem_of_dom. rewrite HD. apply elem_of_dom. by eapply wf_placed.
  - rewrite HI. apply Hwf.
Qed.

Lemma mint_wf f s : wf s → (∀ id, en_ID (f id) = id ∧ en_Zone (f id) = "") →
  ∃ s' id, mint f s = (Ok id, s') ∧ wf s' ∧ Entities s' !! id = Some (f id) ∧
    Zones s' = Zones s.
Proof.
  intros Hwf Hf. unfold mint. cbv zeta. eexists _, _. split; [done|]. simpl.
  set (nid := NextEntityID (IDs s) + 1). destruct (Hf nid) as [HfI HfZ].
  pose proof (wf_next _ Hwf) as Hnext.
  split; [|by rewrite lookup_insert_eq]. split; simpl.
  - intros id e [[<- <-]|[Hne He]]%lookup_insert_Some; [lia|].
    apply (wf_id _ Hwf) in He. lia.
  - apply Hwf.
  - intros n z id Hz. rewrite (wf_member _ Hwf n z id Hz).
    destruct (decide (id = nid)) as [->|Hne].
    + split; [intros (e & He & _); apply (wf_id _ Hwf) in He; lia|].
      intros (e & He & Hn). rewrite lookup_insert_eq in He. injection He as <-. apply (wf_zone _ Hwf) in Hz as []. congruence.
    + by rewrite lookup_insert_ne.
  - intros id e [[<- <-]|[Hne He]]%lookup_insert_Some Hz; [congruence|]. by eapply wf_placed.
  - lia.
Qed.

(** ** Drawing *)

Lemma clear_zones_spec ids s :
  Zones (clear_zones ids s) = Zones s ∧ IDs (clear_zones ids s) = IDs s ∧
  ∀ x, Entities (clear_zones ids s) !! x =
    (λ e, if decide (x ∈ ids) then set_Zone "" e else e) <$> Entities s !! x.
Proof.
  revert s. induction ids as [|id ids IH]; intros s.
  { split_and!; [done..|]. intros x. simpl. by destruct (Entities s !! x). }
  change (clear_zones (id :: ids) s) with (clear_zones ids
    match Entities s !! id with Some e => put_entity id (set_Zone "" e) s | None => s end).
  destruct (Entities s !! id) as [e|] eqn:He.
  - destruct (IH (put_entity id (set_Zone "" e) s)) as (HZ & HI & HE). split_and!; [done..|].
    intros x. rewrite HE. simpl.
    destruct (decide (x = id)) as [->|Hne].
    + rewrite lookup_insert_eq, He. simpl. rewrite (decide_True (P:=id ∈ id :: ids)) by (by left).
      by case_decide.
    + rewrite lookup_insert_ne by done. destruct (Entities s !! x); [|done]. simpl. f_equal.
      apply decide_ext. rewrite elem_of_cons. naive_solver.
  - destruct (IH s) as (HZ & HI & HE). split_and!; [done..|].
    intros x. rewrite HE. destruct (Entities s !! x) eqn:Hx; [|done]. simpl. f_equal.
    apply decide_ext. rewrite elem_of_cons. naive_solver.
Qed.

Lemma wf_drawn n z keep drawn s : wf s → Zones s !! n = Some z →
  zn_Members z ≡ₚ keep ++ drawn → wf (clear_zones drawn (put_members n z keep s)).
Proof.
  intros Hwf Hz Hm. destruct (clear_zones_spec drawn (put_members n z keep s)) as (HZ & HI & HE).
  simpl in *. pose proof (wf_NoDup _ _ _ Hwf Hz) as Hnd. rewrite Hm, NoDup_app in Hnd.
  destruct Hnd as (Hnk & Hdis & Hndr).
  assert (Hmem : ∀ id, id ∈ keep ∨ id ∈ drawn ↔ ∃ e, Entities s !! id = Some e ∧ en_Zone e = n).
  { intros id. rewrite <-(wf_member _ Hwf n z id Hz), Hm. by rewrite elem_of_app. }
  split; rewrite ?HZ, ?HI.
  - intros id e. rewrite HE. intros (e0 & He0 & ->)%fmap_Some. apply (wf_id _ Hwf) in He0. by case_decide.
  - intros n' z' [[<- <-]|[Hne Hz']]%lookup_insert_Some; [|by apply (wf_zone _ Hwf)]. simpl.
    apply (wf_zone _ Hwf) in Hz as []. done.
  - intros n' z' id. intros Hz'. setoid_rewrite HE. setoid_rewrite fmap_Some.
    assert (n' ≠ "") as Hn' by (apply lookup_insert_Some in Hz' as [[<- <-]|[_ Hz']]; by eapply (wf_zone _ Hwf)).
    assert (Hiff : (∃ e, (∃ x, Entities s !! id = Some x ∧
        e = (if decide (id ∈ drawn) then set_Zone "" x else x)) ∧ en_Zone e = n') ↔
      id ∉ drawn ∧ ∃ e, Entities s !! id = Some e ∧ en_Zone e = n').
    { case_decide; naive_solver. }
    rewrite Hiff. apply lookup_insert_Some in Hz' as [[<- <-]|[Hne Hz']]; simpl.
    + rewrite <-Hmem. naive_solver.
    + rewrite (wf_member _ Hwf n' z' id Hz'). split; [|naive_solver]. intros (e & He & Hn2).
      split; [|eauto]. intros Hd. destruct (proj1 (Hmem id) (or_intror Hd)) as (e' & ? & ?). congruence.
  - intros id e. rewrite HE. intros (e0 & He0 & ->)%fmap_Some Hne. case_decide; [done|].
    rewrite lookup_insert_is_Some. destruct (decide (n = en_Zone e0)); [by left|right].
    split; [done|]. by eapply wf_placed.
  - apply Hwf.
Qed.

(** The top [k] of a zone, the last member first. *)
Definition top_of (k : nat) (l : list EntityID) : list EntityID := take k (rev l).

Lemma Draw_run n k s : wf s →
  (∃ e, Draw n k s = (Err e, s) ∧ members s n = []) ∨ (k < 0 ∧ Draw n k s = (Panicked, s)) ∨
  (∃ s', let drawn := top_of (Z.to_nat k) (members s n) in
     0 ≤ k ∧ Draw n k s = (Ok drawn, s') ∧ wf s' ∧ zone_frame s' = zone_frame s ∧
     members s n = members s' n ++ rev drawn ∧ (∀ m, m ≠ n → members s' m = members s m) ∧
     dom (Entities s') = dom (Entities s) ∧
     ∀ i, zone_of s' i = if decide (i ∈ drawn) then "" else zone_of s i).
Proof.
  intros Hwf. unfold Draw. rewrite bind_eq. unfold the_zone.
  destruct (Zones s !! n) as [z|] eqn:Hz.
  2:{ left. eexists. split; [done|]. unfold members. by rewrite Hz. }
  cbv beta iota. rewrite bind_eq. unfold err_if. case_bool_decide as Hempty.
  { left. eexists. split; [done|]. unfold members. by rewrite Hz. } unfold mret, ST_ret, st_ret. cbv beta iota.
  destruct (decide (k < 0)) as [Hk|Hk]; [right; left; done|]. right; right.
  set (l := zn_Members z). set (c := Z.to_nat (Z.min k (Z.of_nat (length l)))).
  assert (Hdrawn : rev (drop (length l - c) l) = top_of (Z.to_nat k) l).
  { unfold top_of. unfold c.
    rewrite <-(take_drop (length l - Z.to_nat (Z.min k (Z.of_nat (length l)))) l) at 4.
    rewrite rev_app_distr.
    destruct (decide (Z.to_nat k ≤ length l)%nat) as [Hle|Hgt].
    - rewrite take_app_le by (rewrite length_rev, length_drop; lia).
      symmetry. apply take_ge. rewrite length_rev, length_drop. lia.
    - replace (length l - Z.to_nat (Z.min k (Z.of_nat (length l))))%nat with 0%nat by lia.
      rewrite drop_0, take_0. simpl. rewrite app_nil_r. symmetry. apply take_ge. rewrite length_rev. lia. }
  assert (Hl : members s n = l) by (unfold members; by rewrite Hz).
  cbv zeta. rewrite !Hl. rewrite <-!Hdrawn.
  set (drawn := rev (drop (length l - c) l)). eexists. split; [lia|]. split; [reflexivity|].
  destruct (clear_zones_spec drawn (put_members n z (take (length l - c) l) s)) as (HZ & HI & HE).
  split_and!.
  - apply wf_drawn; [done..|]. fold l. unfold drawn.
    rewrite <-(take_drop (length l - c) l) at 1. apply Permutation_app_head, Permutation_rev.
  - unfold zone_frame. rewrite HZ. simpl. rewrite fmap_insert. simpl. apply insert_id.
    by rewrite lookup_fmap, Hz.
  - unfold members. rewrite HZ. simpl. rewrite lookup_insert_eq. simpl. unfold drawn.
    by rewrite rev_involutive, take_drop.
  - intros m Hm. unfold members. rewrite HZ. simpl. by rewrite lookup_insert_ne.
  - apply set_eq. intros i. rewrite !elem_of_dom, HE. simpl. apply fmap_is_Some.
  - intros i. unfold zone_of. rewrite HE. simpl. destruct (Entities s !! i); simpl; by case_decide.
Qed.

(** ** Every operation keeps the invariant *)

Lemma keeps_NewZone n ordered : n ≠ "" → keeps wf (NewZone (H:=H) n ordered).
Proof.
  intros Hn s Hwf. unfold NewZone, modify. simpl. destruct (Zones s !! n) as [z|] eqn:Hz; [done|].
  split; simpl; try apply Hwf.
  - intros n' z [[<- <-]|[Hne Hz']]%lookup_insert_Some; [|by apply (wf_zone _ Hwf)].
    split; [done|constructor].
  - intros n' z id [[<- <-]|[Hne Hz']]%lookup_insert_Some; [|by apply (wf_member _ Hwf)]. simpl.
    split; [by intros ?%not_elem_of_nil|]. intros (e & He & Hn').
    pose proof (wf_placed _ Hwf id e He) as Hp. rewrite Hn', Hz in Hp. by destruct Hp.
  - intros id e He Hne. rewrite lookup_insert_is_Some.
    destruct (decide (n = en_Zone e)); [by left|right]. split; [done|]. by eapply wf_placed.
Qed.

Lemma keeps_mint f : (∀ id, en_ID (f id) = id ∧ en_Zone (f id) = "") → keeps wf (mint (H:=H) f).
Proof. intros Hf s Hwf. by destruct (mint_wf f s Hwf Hf) as (s' & id & -> & ? & _). Qed.

Lemma keeps_Instantiate c def owner : keeps wf (Instantiate (H:=H) c def owner).
Proof. unfold Instantiate. destruct (c !! def); [by apply keeps_mint|apply keeps_err]. Qed.

Lemma keeps_Clone id owner overrides : keeps wf (Clone (H:=H) id owner overrides).
Proof.
  apply keeps_bind; [by apply keeps_reads|]. intros src. by apply keeps_mint.
Qed.

Lemma keeps_with_entity id f : (∀ e, en_ID (f e) = en_ID e ∧ en_Zone (f e) = en_Zone e) →
  keeps wf (with_entity (H:=H) id f).
Proof.
  intros Hf s Hwf. unfold with_entity, modify. simpl.
  destruct (Entities s !! id) as [e|] eqn:He; [|done].
  apply (wf_same_places s); [done| |done..]. intros i. simpl.
  destruct (decide (i = id)) as [->|Hne]; [|by rewrite lookup_insert_ne].
  rewrite lookup_insert_eq, He. simpl. destruct (Hf e) as [-> ->]. done.
Qed.

Lemma keeps_Destroy id : keeps wf (Destroy (H:=H) id).
Proof.
  intros s Hwf. unfold Destroy, modify. simpl. destruct (Entities s !! id) as [e|] eqn:He; [|done].
  pose proof (wf_unplace id e s Hwf He) as Hun. unfold unplace in Hun.
  set (s1 := leave_zone id e s) in *. assert (HE1 : Entities s1 = Entities s) by apply leave_zone_Entities.
  split; simpl.
  - intros i e' [Hne Hi]%lookup_delete_Some. rewrite HE1 in Hi.
    destruct (wf_id _ Hun i e') as [? ?]; [simpl; by rewrite lookup_insert_ne, HE1|done].
  - apply Hun.
  - intros n z i Hz. rewrite (wf_member _ Hun n z i Hz). simpl.
    split; intros (e' & He' & Hn); exists e'; (split; [|done]).
    + apply lookup_insert_Some in He' as [[<- <-]|[Hne He']]; [|by apply lookup_delete_Some].
      simpl in Hn. apply (wf_zone _ Hun) in Hz as []. congruence.
    + apply lookup_delete_Some in He' as [Hne He']. by rewrite lookup_insert_ne.
  - intros i e' [Hne Hi]%lookup_delete_Some Hz.
    apply (wf_placed _ Hun i e'); [simpl; by rewrite lookup_insert_ne|done].
  - apply Hun.
Qed.

Lemma keeps_MoveTo id to : keeps wf (MoveTo (H:=H) id to).
Proof.
  intros s Hwf. rewrite MoveTo_run by done. destruct (Zones s !! to) eqn:Hz; [|done].
  destruct (Entities s !! id) eqn:He; [|done]. destruct (_ && _); [done|]. by apply wf_moved.
Qed.

Lemma keeps_Transition ids to : keeps wf (Transition (H:=H) ids to).
Proof. intros s Hwf. destruct (Transition_run ids to s Hwf) as [(e & -> & _)|(s' & -> & _ & [])]; done. Qed.

Lemma keeps_MoveAllTo to from : keeps wf (MoveAllTo (H:=H) to from).
Proof.
  intros s Hwf. destruct (MoveAllTo_run to from s Hwf) as [(e & -> & _)|(zs & s' & _ & -> & [])]; done.
Qed.

Lemma keeps_Draw n k : keeps wf (Draw (H:=H) n k).
Proof.
  intros s Hwf. by destruct (Draw_run n k s Hwf) as [(e & -> & _)|[[_ ->]|(s' & _ & -> & ? & _)]].
Qed.

Definition wf_rng (p : State H * Z) : Prop := wf p.1.

Lemma keeps_no_rng {A} (m : M A) : keeps wf m → keeps wf_rng (no_rng m).
Proof.
  intros Hm [s r] Hs. unfold no_rng. specialize (Hm s Hs). by destruct (m s) as [o s'].
Qed.

Lemma wf_perm n z m s : wf s → Zones s !! n = Some z → m ≡ₚ zn_Members z → wf (put_members n z m s).
Proof.
  intros Hwf Hz Hm. apply (wf_same_places s); [done..| | |done].
  - intros n'. unfold members. simpl. destruct (decide (n' = n)) as [->|].
    + by rewrite lookup_insert_eq, Hz.
    + by rewrite lookup_insert_ne.
  - simpl. apply dom_insert_lookup_L. by eexists.
Qed.

Lemma keeps_ShuffleZone n : keeps wf_rng (ShuffleZone (H:=H) n).
Proof.
  intros [s r] Hs. unfold ShuffleZone. destruct (Zones s !! n) as [z|] eqn:Hz; [|done].
  pose proof (proj1 (shuffle_from_spec (length (zn_Members z) - 1) r (zn_Members z))) as Hp.
  unfold shuffle. destruct (shuffle_from _ _ _) as [r' m]. by apply wf_perm.
Qed.

Lemma ShuffleZone_run n z s r : wf s → Zones s !! n = Some z →
  ∃ s' r', ShuffleZone n (s, r) = (Ok tt, (s', r')) ∧ wf s' ∧ zone_frame s' = zone_frame s ∧
    Entities s' = Entities s ∧ members s' n ≡ₚ members s n ∧ ∀ m, m ≠ n → members s' m = members s m.
Proof.
  intros Hwf Hz. unfold ShuffleZone. rewrite Hz.
  pose proof (proj1 (shuffle_from_spec (length (zn_Members z) - 1) r (zn_Members z))) as Hp.
  unfold shuffle. destruct (shuffle_from _ _ _) as [r' m]. simpl in Hp. eexists _, _. split; [done|].
  split_and!; [by apply wf_perm| |done|..].
  - unfold zone_frame. simpl. rewrite fmap_insert. apply insert_id. by rewrite lookup_fmap, Hz.
  - unfold members. simpl. by rewrite lookup_insert_eq, Hz.
  - intros m' Hm'. unfold members. simpl. by rewrite lookup_insert_ne.
Qed.

Lemma frame_zone s s' n z : zone_frame s' = zone_frame s → Zones s !! n = Some z →
  ∃ z', Zones s' !! n = Some z' ∧ zn_Capacity z' = zn_Capacity z ∧ zn_Members z' = members s' n.
Proof.
  intros Hf Hz. assert (Hn : zone_frame s' !! n = Some (set_Members [] z)).
  { rewrite Hf. unfold zone_frame. by rewrite lookup_fmap, Hz. }
  unfold zone_frame in Hn. rewrite lookup_fmap in Hn. unfold members.
  destruct (Zones s' !! n) as [z'|]; [|done]. simpl in Hn. injection Hn as _ _ Hc.
  exists z'. split; [done|]. by rewrite Hc.
Qed.

Lemma keeps_Mulligan hand deck k : keeps wf_rng (Mulligan (H:=H) hand deck k).
Proof.
  unfold Mulligan. apply keeps_bind; [apply keeps_no_rng, keeps_MoveAllTo|]. intros _.
  apply keeps_bind; [apply keeps_ShuffleZone|]. intros _. case_decide; [apply keeps_ret|].
  apply keeps_bind; [apply keeps_no_rng, keeps_Draw|]. intros drawn.
  apply keeps_bind; [apply keeps_no_rng, keeps_Transition|]. intros _. apply keeps_ret.
Qed.

Lemma keeps_get_rng {A} (f : State H → A) : keeps wf_rng (no_rng (get f)).
Proof. apply keeps_no_rng. by intros s Hs. Qed.

Lemma keeps_Pile_Draw p k : keeps wf_rng (Pile_Draw (H:=H) p k).
Proof.
  unfold Pile_Draw. apply keeps_bind; [apply keeps_get_rng|]. intros deck.
  apply keeps_bind; [apply keeps_get_rng|]. intros discard.
  apply keeps_bind; [|intros _; apply keeps_no_rng, keeps_Draw].
  case_decide; [|apply keeps_ret]. unfold ReshuffleDiscardIntoDeck.
  apply keeps_bind; [apply keeps_get_rng|]. intros m. case_decide; [apply keeps_ret|].
  apply keeps_bind; [apply keeps_no_rng, keeps_MoveAllTo|]. intros _. apply keeps_ShuffleZone.
Qed.

Lemma keeps_Mill p k : keeps wf_rng (Mill (H:=H) p k).
Proof.
  apply keeps_bind; [apply keeps_Pile_Draw|]. intros drawn.
  apply keeps_bind; [apply keeps_no_rng, keeps_Transition|]. intros _. apply keeps_ret.
Qed.

(** A new card goes straight into a zone: it was in none. *)
Lemma keeps_Add_unplaced n id s e : wf s → Entities s !! id = Some e → en_Zone e = "" →
  wf (Add n id s).2.
Proof.
  intros Hwf He Hun. unfold Add. rewrite bind_eq. unfold the_zone.
  destruct (Zones s !! n) as [z|] eqn:Hz; [|done]. rewrite bind_eq. unfold the_entity.
  rewrite He. cbv beta iota. rewrite bind_eq. unfold err_if. destruct (full z); [done|].
  unfold modify, mret, ST_ret, st_ret. simpl. apply wf_enter; [done..|].
  apply Permutation_sym, Permutation_cons_append.
Qed.

Lemma keeps_deal_one c player n def : keeps wf (deal_one (H:=H) c player n def).
Proof.
  intros s Hwf. unfold deal_one, Instantiate. rewrite bind_eq.
  destruct (c !! def) as [d|]; [|done].
  destruct (mint_wf (λ id, mkEntity id (cd_ID d) (cd_Type d) player "" "" Public [] ∅
    (cd_BaseAttrs d)) s Hwf) as (s' & id & -> & Hwf' & He & _); [done|].
  cbv beta iota. rewrite bind_eq. pose proof (keeps_Add_unplaced n id s' _ Hwf' He eq_refl) as Hadd.
  destruct (Add n id s') as [[[]|e| |] s2]; exact Hadd.
Qed.

Lemma keeps_deal_to c player n defs : keeps wf (deal_to (H:=H) c player n defs).
Proof.
  induction defs as [|d defs IH]; [apply keeps_ret|]. apply keeps_bind; [apply keeps_deal_one|].
  intros id. apply keeps_bind; [exact IH|]. intros ids. apply keeps_ret.
Qed.

Lemma keeps_Deal c defs players zoneFor : keeps wf (Deal (H:=H) c defs players zoneFor).
Proof.
  induction players as [|p ps IH]; [apply keeps_ret|]. apply keeps_bind; [apply keeps_deal_to|].
  intros ids. apply keeps_bind; [exact IH|]. intros rest. apply keeps_ret.
Qed.
End zones.

(** ** Counters and events

    A game's handlers may do anything that keeps the invariant. *)
Section handlers.
Context {H : Type} (handle : H → Event → State H → option (State H)).
Hypothesis handle_wf : ∀ h ev s s', handle h ev s = Some s' → wf s → wf s'.
Implicit Types (s : State H).

Lemma wf_bookkeeping s s' : wf s → Entities s' = Entities s → Zones s' = Zones s →
  NextEntityID (IDs s') = NextEntityID (IDs s) → wf s'.
Proof. intros Hwf HE HZ HI. split; rewrite ?HE, ?HZ, ?HI; apply Hwf. Qed.

Lemma keeps_UnbindAbility aid : keeps wf (UnbindAbility (H:=H) aid).
Proof.
  intros s Hwf. unfold UnbindAbility, modify. simpl. destruct (List.find _ _); [|done].
  by apply (wf_bookkeeping s).
Qed.

Lemma keeps_run_handler ev h : keeps wf (run_handler handle ev h).
Proof.
  assert (Hg : ∀ h, keeps wf (game_handler handle h ev)).
  { intros h0 s Hwf. unfold game_handler. destruct (handle h0 ev s) eqn:Hh; simpl; eauto. }
  destruct h as [h|aid entity bound h]; [apply Hg|].
  apply keeps_bind; [by intros s Hs|]. intros [e|]; [case_decide; [apply Hg|]|]; apply keeps_UnbindAbility.
Qed.

Lemma keeps_Publish ev : keeps wf (Publish handle ev).
Proof.
  apply keeps_bind; [intros s Hs; by apply (wf_bookkeeping s)|]. intros _.
  apply keeps_bind; [by intros s Hs|]. intros snapshot.
  induction snapshot as [|sub rest IH]; [apply keeps_ret|].
  apply keeps_bind; [|by intros _]. destruct (fires ev sub); [apply keeps_run_handler|apply keeps_ret].
Qed.

Lemma keeps_changeCounter id kind d neg : keeps wf (changeCounter handle id kind d neg).
Proof.
  apply keeps_bind_reads; [done|]. intros s e Hs [= <-].
  destruct (Entities s !! id) as [e|] eqn:He; [|done]. cbv zeta. case_decide; [done|].
  rewrite bind_eq. unfold modify. apply keeps_Publish.
  apply (wf_same_places s); [done| |done..]. intros i. simpl.
  destruct (decide (i = id)) as [->|Hne]; [|by rewrite lookup_insert_ne].
  by rewrite lookup_insert_eq, He.
Qed.
End handlers.

(** ** Reading counters back *)
Section counters.
Context {H : Type} (handle : H → Event → State H → option (State H)).
Implicit Types (s : State H).

(** Handlers that do not panic and leave the entities alone. *)
Definition polite : Prop := ∀ h ev s, ∃ s', handle h ev s = Some s' ∧ Entities s' = Entities s.

(** What no handler changes, and neither the history nor an ability's end touch,
    is the same after a publish, which then goes through. *)
Lemma Publish_preserves {B} (f : State H → B) ev s :
  (∀ l s, f (set_Events l s) = f s) → (∀ aid s, f (UnbindAbility aid s).2 = f s) →
  (∀ h ev s, ∃ s', handle h ev s = Some s' ∧ f s' = f s) →
  ∃ s', Publish handle ev s = (Ok tt, s') ∧ f s' = f s.
Proof.
  intros Hevents Hunbind Hf.
  assert (Hg : ∀ h s, ∃ s', game_handler handle h ev s = (Ok tt, s') ∧ f s' = f s).
  { intros h s0. unfold game_handler. destruct (Hf h ev s0) as (s' & -> & ?). eauto. }
  assert (Hu : ∀ aid s, ∃ s', UnbindAbility aid s = (Ok tt, s') ∧ f s' = f s).
  { intros aid s0. eexists. split; [done|]. apply (Hunbind aid s0). }
  assert (Hh : ∀ h s, ∃ s', run_handler handle ev h s = (Ok tt, s') ∧ f s' = f s).
  { intros [h|aid entity bound h] s0; [apply Hg|]. simpl. rewrite bind_eq. unfold get. cbv beta iota.
    destruct (Entities s0 !! entity); [case_decide|]; auto. }
  unfold Publish. rewrite bind_eq. unfold modify. cbv beta iota.
  rewrite bind_eq. unfold get. cbv beta iota. rewrite <-(Hevents (remember ev (Events s))).
  generalize (set_Events (remember ev (Events s)) s). clear s. intros s1. generalize (subs s1) at 1. intros l.
  revert s1. induction l as [|sub l IH]; intros s1; [by eexists|]. cbn [dispatch].
  assert (Hs : ∃ s', (if fires ev sub then run_handler handle ev (sub_handler sub) else mret tt) s1
    = (Ok tt, s') ∧ f s' = f s1).
  { destruct (fires ev sub); [apply Hh|by eexists]. }
  destruct Hs as (s2 & H2 & HE2). rewrite bind_eq, H2. cbv beta iota.
  destruct (IH s2) as (s' & -> & HE). exists s'. by rewrite HE.
Qed.

Lemma polite_Publish ev s : polite →
  ∃ s', Publish handle ev s = (Ok tt, s') ∧ Entities s' = Entities s.
Proof.
  intros Hp. apply Publish_preserves; [done| |done].
  intros aid s0. unfold UnbindAbility, modify. simpl. by destruct (List.find _ _).
Qed.

Lemma put_counter_read kind after e k :
  default 0 (readCountersFromAttrs (en_Attrs (put_counter kind after e)) !! k) =
  if decide (k = kind) then after else default 0 (readCountersFromAttrs (en_Attrs e) !! k).
Proof.
  unfold put_counter. simpl. set (cur := readCountersFromAttrs (en_Attrs e)).
  set (new := if decide (after = 0) then delete kind cur else <[kind:=after]> cur).
  assert (Hnew : default 0 (new !! k) = if decide (k = kind) then after else default 0 (cur !! k)).
  { unfold new. destruct (decide (after = 0)) as [->|], (decide (k = kind)) as [->|]; simplify_map_eq; done. }
  rewrite <-Hnew. unfold readCountersFromAttrs. destruct (decide (new = ∅)) as [Hempty|].
  - rewrite lookup_delete_eq, Hempty. by rewrite !lookup_empty.
  - by rewrite lookup_insert_eq.
Qed.

(** The total a change leads to. *)
Definition new_total (before d : Z) (allowNegative : bool) : Z :=
  if allowNegative then before + d else Z.max 0 (before + d).

Lemma changeCounter_run id kind d neg s : polite → (neg = true ∨ 0 ≤ Counters id kind s) →
  ∃ s', changeCounter handle id kind d neg s = (Ok tt, s') ∧
    dom (Entities s') = dom (Entities s) ∧
    ∀ i k, Counters i k s' =
      if decide (i = id ∧ k = kind ∧ is_Some (Entities s !! id))
      then new_total (Counters id kind s) d neg else Counters i k s.
Proof.
  intros Hp Hneg. unfold changeCounter. rewrite bind_eq. unfold get. cbv beta iota.
  destruct (Entities s !! id) as [e|] eqn:He.
  2:{ exists s. split_and!; [done..|]. intros i k. rewrite decide_False; [done|].
      intros (_ & _ & [? ?]). done. }
  cbv zeta. set (before := default 0 _). set (after := if decide (_ ∧ neg = false) then 0 else _).
  assert (Hb : Counters id kind s = before) by (unfold Counters; by rewrite He).
  assert (Ha : after = new_total before d neg).
  { unfold after, new_total. destruct neg; case_decide; lia. }
  assert (Hcount : ∀ s' i k, Entities s' = <[id := put_counter kind after e]> (Entities s) →
    Counters i k s' = if decide (i = id ∧ k = kind ∧ is_Some (Some e)) then new_total before d neg
                      else Counters i k s).
  { intros s' i k HE. unfold Counters. rewrite HE. destruct (decide (i = id)) as [->|Hi].
    - rewrite lookup_insert_eq, put_counter_read, He. case_decide; [rewrite decide_True; [done|by eauto]|].
      rewrite decide_False; [done|]. naive_solver.
    - rewrite lookup_insert_ne by done. rewrite decide_False; [done|]. naive_solver. }
  rewrite Hb. case_decide as Hz.
  - exists s. split_and!; [done..|]. intros i k. case_decide as Hik; [|done].
    destruct Hik as (-> & -> & _). rewrite Hb. lia.
  - rewrite bind_eq. unfold modify. cbv beta iota.
    destruct (polite_Publish (counter_event id kind (after - before) after)
      (put_entity id (put_counter kind after e) s) Hp) as (s' & -> & HE).
    exists s'. split_and!; [done| |].
    + rewrite HE. simpl. apply dom_insert_lookup_L. by eexists.
    + intros i k. by apply Hcount.
Qed.
End counters.
