(* ===== verification/CardTheorems.v ===== *)
(** * What holds of the card zones

    Consistency of zones over whole games, atomicity of the batch moves, the
    mulligan, counters, and two places where the zone index goes stale. *)

From S2P Require Import Prelude Random Choices Cards CardFacts.
#[local] Open Scope Z_scope.

(** ** Games as sequences of operations *)
Section operations.
Context {H : Type} (handle : H → Event → State H → option (State H)).
Implicit Types (s : State H).

(** The calls a game makes on a state.  Add, InsertAt and Remove are not among
    them: they trust the caller to keep the entity's Zone field right, and are used
    here only the way Deal does, on a card that is in no zone. *)
Inductive card_op : Type :=
  | OpNewZone (n : ZoneName) (ordered : bool)
  | OpNewEntity (typeName owner : string) (attrs : gmap string attr)
  | OpClone (id : EntityID) (owner : string) (overrides : gmap string attr)
  | OpDestroy (id : EntityID)
  | OpSetAttr (id : EntityID) (key : string) (v : attr)
  | OpSetController (id : EntityID) (playerID : string)
  | OpDeal (c : Catalog) (defs players : list string) (zoneFor : string → ZoneName)
  | OpMoveTo (id : EntityID) (to : ZoneName)
  | OpTransition (ids : list EntityID) (to : ZoneName)
  | OpMoveAllTo (to : ZoneName) (from : list ZoneName)
  | OpDraw (n : ZoneName) (k : Z)
  | OpShuffle (n : ZoneName)
  | OpMulligan (hand deck : ZoneName) (k : Z)
  | OpMill (p : DeckPile) (k : Z)
  | OpCounter (id : EntityID) (kind : string) (d : Z) (allowNegative : bool)
  | OpPublish (ev : Event).

(** A call runs to its end, or to the error or panic it stops at; either way the
    game goes on from what it left behind. *)
Definition card_step (o : card_op) (st : State H * Z) : State H * Z :=
  match o with
  | OpNewZone n ordered => (no_rng (NewZone n ordered) st).2
  | OpNewEntity t owner attrs => (no_rng (NewEntity t owner attrs) st).2
  | OpClone id owner overrides => (no_rng (Clone id owner overrides) st).2
  | OpDestroy id => (no_rng (Destroy id) st).2
  | OpSetAttr id key v => (no_rng (SetAttr id key v) st).2
  | OpSetController id p => (no_rng (SetController id p) st).2
  | OpDeal c defs players zoneFor => (no_rng (Deal c defs players zoneFor) st).2
  | OpMoveTo id to => (no_rng (MoveTo id to) st).2
  | OpTransition ids to => (no_rng (Transition ids to) st).2
  | OpMoveAllTo to from => (no_rng (MoveAllTo to from) st).2
  | OpDraw n k => (no_rng (Draw n k) st).2
  | OpShuffle n => (ShuffleZone n st).2
  | OpMulligan hand deck k => (Mulligan hand deck k st).2
  | OpMill p k => (Mill p k st).2
  | OpCounter id kind d neg => (no_rng (changeCounter handle id kind d neg) st).2
  | OpPublish ev => (no_rng (Publish handle ev) st).2
  end.

Definition names_zones (o : card_op) : Prop :=
  match o with OpNewZone n _ => n ≠ "" | _ => True end.

Lemma wf_NewState : wf (NewState (H:=H)).
Proof. split; simpl; try done; intros *; by rewrite lookup_empty. Qed.

(** One call. *)
Lemma card_step_wf o st : (∀ h ev s s', handle h ev s = Some s' → wf s → wf s') →
  names_zones o → wf_rng st → wf_rng (card_step o st).
Proof.
  intros Hh Ho Hst. destruct o; simpl in *.
  all: match goal with |- wf_rng (?m ?x).2 => revert x Hst; change (keeps wf_rng m) end.
  all: try (apply keeps_no_rng).
  - by apply keeps_NewZone.
  - by apply keeps_mint.
  - apply keeps_Clone.
  - apply keeps_Destroy.
  - by apply keeps_with_entity.
  - by apply keeps_with_entity.
  - apply keeps_Deal.
  - apply keeps_MoveTo.
  - apply keeps_Transition.
  - apply keeps_MoveAllTo.
  - apply keeps_Draw.
  - apply keeps_ShuffleZone.
  - apply keeps_Mulligan.
  - apply keeps_Mill.
  - by apply keeps_changeCounter.
  - by apply keeps_Publish.
Qed.

Definition play_cards (ops : list card_op) (st : State H * Z) : State H * Z :=
  fold_left (λ st o, card_step o st) ops st.

End operations.

(** ** Batches *)
Section batches.
Context {H : Type}.
Implicit Types (s : State H).

(** Transition is all or nothing. It goes through exactly when the target
    exists, every entity does, and those not yet there fit; then every zone keeps its
    other members in order and the target gets the batch, in order, at its end.
    Otherwise the state is untouched. *)
Theorem Transition_all_or_nothing ids to s : wf s → NoDup ids →
  (room s ids to → ∃ s', Transition ids to s = (Ok tt, s') ∧ wf s' ∧
     (∀ n, members s' n = filter (.∉ ids) (members s n) ++ (if decide (n = to) then ids else [])) ∧
     (∀ id, zone_of s' id = if decide (id ∈ ids) then to else zone_of s id)) ∧
  (¬ room s ids to → ∃ e, Transition ids to s = (Err e, s)).
Proof.
  intros Hwf Hnd. destruct (Transition_run ids to s Hwf) as [(e & -> & Hno)|(s' & -> & Hroom & Hb)].
  - split; [by intros|eauto].
  - split; [|by intros]. intros _. destruct Hb as [? ? ? ? Hm]. eauto 6.
Qed.

(** Sweeping the hand into the deck. *)
Lemma hand_to_deck hand deck s zh zd :
  wf s → hand ≠ deck → Zones s !! hand = Some zh → Zones s !! deck = Some zd → zn_Capacity zd ≤ 0 →
  ∃ s', MoveAllTo deck [hand] s = (Ok tt, s') ∧ wf s' ∧ zone_frame s' = zone_frame s ∧
    members s' deck = members s deck ++ members s hand ∧ members s' hand = [].
Proof.
  intros Hwf Hne Hzh Hzd Hcap.
  destruct (MoveAllTo_run deck [hand] s Hwf) as [(e & _ & Hno)|(zs & s1 & Hzs & Hrun & Hb)].
  { destruct Hno. exists zd, [zh]. split_and!; [done|simpl; by rewrite Hzh|].
    unfold overfull. rewrite bool_decide_eq_false. lia. }
  simpl in Hzs. rewrite Hzh in Hzs. simpl in Hzs. injection Hzs as <-.
  unfold sweep in Hb. simpl in Hb. rewrite decide_False, app_nil_r in Hb by done.
  destruct Hb as [Hwf1 Hf _ _ Hm]. specialize (Hm (wf_NoDup _ _ _ Hwf Hzh)).
  exists s1. split_and!; [done..| |].
  - rewrite Hm, decide_True by done. unfold members. rewrite Hzh, Hzd. f_equal. apply filter_id.
    intros x Hx Hx'. apply (wf_member _ Hwf deck zd x Hzd) in Hx as (e1 & ? & ?).
    apply (wf_member _ Hwf hand zh x Hzh) in Hx' as (e2 & ? & ?). congruence.
  - rewrite Hm, decide_False, app_nil_r by done. unfold members. rewrite Hzh. apply filter_nil_iff.
    by intros x Hx Hx'.
Qed.

(** Drawing into an empty hand. *)
Lemma deck_to_hand hand deck k s zh :
  wf s → hand ≠ deck → Zones s !! hand = Some zh → zn_Capacity zh ≤ 0 → members s hand = [] →
  0 < k → members s deck ≠ [] →
  ∃ drawn s1 s', Draw deck k s = (Ok drawn, s1) ∧ Transition drawn hand s1 = (Ok tt, s') ∧ wf s' ∧
    members s' hand = drawn ∧
    length drawn = Nat.min (Z.to_nat k) (length (members s deck)) ∧
    members s' deck ++ members s' hand ≡ₚ members s deck.
Proof.
  intros Hwf Hne Hzh Hcap Hempty Hk Hcards.
  destruct (Draw_run deck k s Hwf) as [(e & _ & ?)|[[? _]|(s1 & _ & Hrun & Hwf1 & Hf & Hm & Ho & Hd & Hz)]];
    [done|lia|].
  set (drawn := top_of (Z.to_nat k) (members s deck)) in *.
  assert (Hin : ∀ i, i ∈ drawn → i ∈ members s deck).
  { intros i Hi. rewrite Hm, elem_of_app. right. by rewrite <-Permutation_rev. }
  assert (Hnd : NoDup drawn).
  { pose proof (members_NoDup s deck Hwf) as Hnd. rewrite Hm in Hnd.
    apply NoDup_app in Hnd as (_ & _ & Hnd). by rewrite <-Permutation_rev in Hnd. }
  destruct (frame_zone s s1 hand zh Hf Hzh) as (zh1 & Hzh1 & Hch1 & _).
  destruct (Transition_run drawn hand s1 Hwf1) as [(e & _ & Hno)|(s2 & Hrun2 & _ & [Hwf2 _ _ _ Hm2])].
  { destruct Hno. split; [|exists zh1; split; [done|left; lia]]. intros i Hi.
    apply elem_of_dom. rewrite Hd. apply elem_of_dom. by apply (members_zone s deck), Hin. }
  specialize (Hm2 Hnd). exists drawn, s1, s2. split_and!; [done..| | |].
  - rewrite Hm2, decide_True, Ho, Hempty by done. done.
  - unfold drawn, top_of. by rewrite length_take, length_rev.
  - rewrite !Hm2, decide_False, decide_True, (Ho hand), Hempty, app_nil_r by done. simpl.
    rewrite filter_id; [rewrite Hm; apply Permutation_app_head, Permutation_rev|].
    intros x Hx Hx'. destruct (members_zone s1 deck x Hwf1 Hx) as [_ Hzx].
    rewrite Hz, decide_True in Hzx by done. 
    assert (is_Some (Zones s !! deck)) as [zd Hzd].
    { unfold members in Hcards. by destruct (Zones s !! deck). }
    apply (wf_zone _ Hwf) in Hzd as []. congruence.
Qed.

(** A mulligan loses no card and invents none: with both zones uncapped it
    always succeeds, the hand becomes what was drawn, as many cards as asked for or
    as there are, and deck and hand together hold the same cards as before. *)
Theorem Mulligan_conserves hand deck k s rng zh zd :
  wf s → hand ≠ deck → Zones s !! hand = Some zh → Zones s !! deck = Some zd →
  zn_Capacity zh ≤ 0 → zn_Capacity zd ≤ 0 →
  0 < k → members s deck ++ members s hand ≠ [] →
  ∃ drawn s' rng', Mulligan hand deck k (s, rng) = (Ok drawn, (s', rng')) ∧ wf s' ∧
    members s' hand = drawn ∧
    length drawn = Nat.min (Z.to_nat k) (length (members s deck ++ members s hand)) ∧
    members s' deck ++ members s' hand ≡ₚ members s deck ++ members s hand.
Proof.
  intros Hwf Hne Hzh Hzd Hch Hcd Hk Hcards. unfold Mulligan.
  destruct (hand_to_deck hand deck s zh zd Hwf Hne Hzh Hzd Hcd) as (s1 & Hrun1 & Hwf1 & Hf1 & Hd1 & Hh1).
  destruct (frame_zone s s1 deck zd Hf1 Hzd) as (zd1 & Hzd1 & _).
  destruct (ShuffleZone_run deck zd1 s1 rng Hwf1 Hzd1) as (s2 & rng' & Hrun2 & Hwf2 & Hf2 & _ & Hm2 & Ho2).
  destruct (frame_zone s s2 hand zh) as (zh2 & Hzh2 & Hch2 & _); [congruence|done|].
  destruct (deck_to_hand hand deck k s2 zh2) as (drawn & s3 & s4 & Hrun3 & Hrun4 & Hwf4 & Hh & Hlen & Hp);
    [done..|lia|by rewrite Ho2|done| |].
  { intros Hnil. apply Hcards. rewrite <-Hd1. apply Permutation_nil. by rewrite <-Hm2, Hnil. }
  exists drawn, s4, rng'. rewrite <-Hd1. split_and!; [|done|done| |].
  - rewrite bind_eq. unfold no_rng at 1. rewrite Hrun1. cbv beta iota zeta. rewrite bind_eq, Hrun2.
    cbv beta iota. rewrite decide_False by lia. rewrite bind_eq. unfold no_rng at 1. rewrite Hrun3.
    cbv beta iota zeta. rewrite bind_eq. unfold no_rng. by rewrite Hrun4.
  - by rewrite Hlen, Hm2.
  - by rewrite Hp, Hm2.
Qed.
End batches.

(** ** Counters *)
Section counters.
Context {H : Type} (handle : H → Event → State H → option (State H)).
Implicit Types (s : State H).

Lemma TransferCounters_checks from to kind n s : 0 < n → from ≠ to →
  TransferCounters handle from to kind n s =
  if decide (is_Some (Entities s !! from) ∧ is_Some (Entities s !! to)) then
    if decide (Counters from kind s < n) then (Err ErrInsufficientCounters, s)
    else (changeCounter handle from kind (- n) false ≫= λ _, changeCounter handle to kind n false) s
  else (Err ErrUnknownEntity, s).
Proof.
  intros Hn Hne. unfold TransferCounters. rewrite decide_False by lia.
  rewrite bind_eq. unfold the_entity at 1.
  destruct (Entities s !! from) as [ef|]; [|by rewrite decide_False by (by intros [[] _])].
  cbv beta iota. rewrite bind_eq. unfold the_entity.
  destruct (Entities s !! to) as [et|]; [|by rewrite decide_False by (by intros [_ []])].
  cbv beta iota. rewrite (decide_False (P:=from = to)), bind_eq by done. unfold get. cbv beta iota.
  rewrite bind_eq, decide_True by eauto. unfold err_if. by case_bool_decide; case_decide.
Qed.

(** A transfer of counters is a transfer: when it goes through, the one entity
    has [n] fewer, the other [n] more, and no other total has changed; it fails
    exactly when an entity is unknown or has too few, and then changes nothing. *)
Theorem TransferCounters_conserves from to kind n s :
  polite handle → 0 < n → from ≠ to → 0 ≤ Counters to kind s →
  (is_Some (Entities s !! from) ∧ is_Some (Entities s !! to) ∧ n ≤ Counters from kind s →
   ∃ s', TransferCounters handle from to kind n s = (Ok tt, s') ∧
     Counters from kind s' = Counters from kind s - n ∧
     Counters to kind s' = Counters to kind s + n ∧
     ∀ i k, ¬ (k = kind ∧ (i = from ∨ i = to)) → Counters i k s' = Counters i k s) ∧
  (¬ (is_Some (Entities s !! from) ∧ is_Some (Entities s !! to) ∧ n ≤ Counters from kind s) →
   ∃ e, TransferCounters handle from to kind n s = (Err e, s)).
Proof.
  intros Hp Hn Hne Hto. rewrite TransferCounters_checks by done.
  destruct (decide (_ ∧ _)) as [[Hf Ht]|]; [|split; [tauto|eauto]].
  case_decide; [split; [lia|eauto]|]. split; [|intros Hno; destruct Hno; split_and!; auto; lia].
  intros _.
  destruct (changeCounter_run handle from kind (- n) false s Hp) as (s1 & Hrun1 & Hd1 & Hc1); [lia|].
  rewrite bind_eq, Hrun1. cbv beta iota.
  assert (Ht1 : Counters to kind s1 = Counters to kind s) by (rewrite Hc1, decide_False; naive_solver).
  destruct (changeCounter_run handle to kind n false s1 Hp) as (s2 & Hrun2 & _ & Hc2); [lia|].
  exists s2. split; [done|]. unfold new_total in *. split_and!.
  - rewrite Hc2, decide_False by naive_solver. rewrite Hc1, decide_True by eauto. lia.
  - rewrite Hc2, decide_True; [lia|]. split_and!; [done..|].
    apply elem_of_dom. rewrite Hd1. apply elem_of_dom. eauto.
  - intros i k Hik. rewrite Hc2, decide_False by naive_solver. rewrite Hc1, decide_False; naive_solver.
Qed.
End counters.

(** ** On a small table *)

(** No game handlers. *)
Definition quiet (h : Empty_set) (ev : Event) (s : State Empty_set) : option (State Empty_set) := Some s.

Definition cards3 : Catalog :=
  {["elf" := mkDef "elf" "creature" ∅; "orc" := mkDef "orc" "creature" ∅;
    "pixie" := mkDef "pixie" "creature" ∅]}.

Definition opening : list card_op :=
  [OpNewZone "deck" true; OpNewZone "hand" false; OpNewZone "field" false;
   OpDeal cards3 ["elf"; "orc"; "pixie"] ["0"] (λ _, "deck"); OpMoveTo 1 "hand"].

Definition table : State Empty_set := (play_cards quiet opening (NewState, 7)).1.


Lemma table_wf : wf table.
Proof.
  unfold table, play_cards. change (wf_rng (fold_left (λ st o, card_step quiet o st) opening (NewState, 7))).
  unfold opening. cbn [fold_left].
  repeat (apply card_step_wf; [by intros ? ? ? ? [= <-]|done|]). apply wf_NewState.
Qed.


Lemma Transition_all_or_nothing_witness :
  ∃ s', Transition [2; 1] "field" table = (Ok tt, s') ∧ members s' "field" = [2; 1].
Proof.
  destruct (proj1 (Transition_all_or_nothing [2; 1] "field" table table_wf
    ltac:(apply (bool_decide_unpack _); vm_compute; exact I))) as (s' & Hrun & _ & Hm & _).
  - split.
    + intros id [->|[->|[]%elem_of_nil]%elem_of_cons]%elem_of_cons; vm_compute; eauto.
    + eexists. split; [vm_compute; reflexivity|]. left. simpl. lia.
  - exists s'. split; [exact Hrun|]. rewrite Hm. vm_compute. reflexivity.
Defined.

Lemma Mulligan_conserves_witness :
  ∃ drawn s' rng', Mulligan "hand" "deck" 2 (table, 7) = (Ok drawn, (s', rng')) ∧
    length drawn = 2%nat.
Proof.
  destruct (Mulligan_conserves "hand" "deck" 2 table 7 (mkZone "hand" false 0 [1])
    (mkZone "deck" true 0 [2; 3]) table_wf) as (drawn & s' & rng' & Hrun & _ & _ & Hlen & _).
  - discriminate.
  - vm_compute. reflexivity.
  - vm_compute. reflexivity.
  - simpl. lia.
  - simpl. lia.
  - lia.
  - vm_compute. discriminate.
  - exists drawn, s', rng'. split; [exact Hrun|]. rewrite Hlen. vm_compute. reflexivity.
Defined.

Definition rich : State Empty_set := (AddCounter quiet 1 "gold" 5 table).2.

Lemma TransferCounters_conserves_witness :
  ∃ s', TransferCounters quiet 1 2 "gold" 3 rich = (Ok tt, s') ∧
    Counters 1 "gold" s' = 2 ∧ Counters 2 "gold" s' = 3.
Proof.
  destruct (proj1 (TransferCounters_conserves quiet 1 2 "gold" 3 rich
    ltac:(intros h; destruct h) ltac:(lia) ltac:(lia) ltac:(vm_compute; discriminate)))
    as (s' & Hrun & H1 & H2 & _).
  - split_and!; [vm_compute; eauto..|vm_compute; discriminate].
  - exists s'. split; [exact Hrun|]. rewrite H1, H2. vm_compute. split; reflexivity.
Defined.

(** ** Remove leaves the Zone field behind *)

(** A field with room for two, one creature on it, one taken off it with Remove, and
    one in hand. *)
Definition capped (s : State Empty_set) : State Empty_set :=
  match Zones s !! "field" with
  | Some z => set_Zones (<["field" := mkZone "field" false 2 (zn_Members z)]> (Zones s)) s
  | None => s
  end.

Definition stale : State Empty_set :=
  (Remove "field" 2 (Transition [3; 2] "field" (capped table)).2).2.

(** Remove takes an entity out of a zone's members but not the zone out of the
    entity, and a batch that trusts the Zone field then runs into the capacity half
    way: the call fails, and has moved a card all the same. *)
Theorem Remove_breaks_Transition :
  Contains "field" 2 stale = false ∧ zone_of stale 2 = "field" ∧
  (Transition [2; 1] "field" stale).1 = Err ErrZoneFull ∧
  members stale "field" = [3] ∧ members (Transition [2; 1] "field" stale).2 "field" = [3; 2].
Proof. vm_compute. split_and!; reflexivity. Qed.
