(* ===== verification/Economy.v ===== *)
(** * Economy: pools and baskets

    [src/modules/economy]: a pool is a counter of an entity with a cap, a basket
    pays a cost in several kinds at once. *)

From stdpp Require Import sorting.
From S2P Require Import Prelude Random Choices Cards CardFacts.
#[local] Open Scope Z_scope.

Record Pool := mkPool { pl_Owner : EntityID; pl_Kind : string; pl_Cap : Z; pl_AllowNegative : bool }.

(** [Basket.Pools] and [Cost]. *)
Abbreviation Basket := (gmap string Pool).
Abbreviation Cost := (gmap string Z).

Definition sort_strings (l : list string) : list string := merge_sort String.le l.

(** scaling.go *)
Definition Scaled (turn base per max : Z) : Z :=
  let v := base + (turn - 1) * per in
  let v := if decide (v < 0) then 0 else v in
  if decide (0 < max ∧ max < v) then max else v.

Section economy.
Context {H : Type} (handle : H → Event → State H → option (State H)).
Abbreviation M := (ST (State H) ccg_error).
Implicit Types (s : State H) (p : Pool) (b : Basket) (cost : Cost).

(** ** pool.go *)
Definition Current p s : Z := Counters (pl_Owner p) (pl_Kind p) s.

Definition add_to p (n : Z) : M () := AddCounter handle (pl_Owner p) (pl_Kind p) n.

(** [(n, true)] when there is something to add. *)
Definition gain_amount p (current n : Z) : Z :=
  if decide (n ≤ 0) then 0
  else if decide (0 < pl_Cap p) then
    let room := pl_Cap p - current in
    if decide (room ≤ 0) then 0 else Z.min n room
  else n.

Definition Gain p (n : Z) : M Z :=
  current ← get (Current p);
  let n := gain_amount p current n in
  _ ← (if decide (n = 0) then mret tt else add_to p n);
  mret n.

Definition Spend p (n : Z) : M () :=
  if decide (n < 0) then st_err ErrNegativeSpend
  else if decide (n = 0) then mret tt
  else
    current ← get (Current p);
    if decide (current < n) then st_err ErrInsufficient
    else RemoveCounter handle (pl_Owner p) (pl_Kind p) n.

Definition set_target p (n : Z) : Z :=
  let n := if decide (pl_AllowNegative p = false ∧ n < 0) then 0 else n in
  if decide (0 < pl_Cap p ∧ pl_Cap p < n) then pl_Cap p else n.

Definition Set_ p (n : Z) : M Z :=
  let n := set_target p n in
  current ← get (Current p);
  let delta := n - current in
  _ ← (if decide (delta = 0) then mret tt
       else if pl_AllowNegative p
            then AddCounterSigned handle (pl_Owner p) (pl_Kind p) delta
            else add_to p delta);
  mret n.

(** ** basket.go *)

(** One entry of a cost.  With several bad entries Go reports the one its map
    enumeration meets first. *)
Definition check_kind b s (entry : string * Z) : outcome ccg_error () :=
  let '(kind, amount) := entry in
  if decide (amount < 0) then Err ErrNegativeCost
  else if decide (amount = 0) then Ok tt
  else match b !! kind with
       | None => Err ErrUnknownKind
       | Some pool => if decide (Current pool s < amount) then Err ErrInsufficient else Ok tt
       end.

Fixpoint check_kinds b s (entries : list (string * Z)) : outcome ccg_error () :=
  match entries with
  | [] => Ok tt
  | e :: entries => _ ← check_kind b s e; check_kinds b s entries
  end.

Definition reserve b cost s : outcome ccg_error (gmap string Z) :=
  _ ← check_kinds b s (map_to_list cost);
  Ok (filter (λ kv, kv.2 ≠ 0) cost).

Definition CanPay b cost s : bool := match reserve b cost s with Ok _ => true | _ => false end.

Definition reservation b cost : M (gmap string Z) := λ s, (reserve b cost s, s).

Definition zero_pool : Pool := mkPool 0 "" 0 false.

Fixpoint spend_kinds b (reserved : gmap string Z) (kinds : list string) : M () :=
  match kinds with
  | [] => mret tt
  | kind :: kinds =>
      r ← st_try (Spend (default zero_pool (b !! kind)) (default 0 (reserved !! kind)));
      match r with
      | inl _ => st_panic
      | inr _ => spend_kinds b reserved kinds
      end
  end.

Definition spendReserved b (reserved : gmap string Z) : M () :=
  spend_kinds b reserved (sort_strings (map_to_list reserved).*1).

Definition Pay b cost : M () :=
  reserved ← reservation b cost;
  spendReserved b reserved.

(** Draw what is still needed from the fallback kinds, in order. *)
Fixpoint draw_generic b s (need : Z) (reserved : gmap string Z) (fallbackOrder : list string)
    : outcome ccg_error (Z * gmap string Z) :=
  match fallbackOrder with
  | [] => Ok (need, reserved)
  | kind :: rest =>
      if decide (need = 0) then Ok (need, reserved)
      else match b !! kind with
           | None => Err ErrUnknownKind
           | Some pool =>
               let avail := Current pool s - default 0 (reserved !! kind) in
               if decide (avail ≤ 0) then draw_generic b s need reserved rest
               else
                 let take := Z.min avail need in
                 draw_generic b s (need - take)
                   (<[kind := default 0 (reserved !! kind) + take]> reserved) rest
           end
  end.

Definition generic_reservation b cost (generic : Z) (fallbackOrder : list string) s
    : outcome ccg_error (gmap string Z) :=
  if decide (generic < 0) then Err ErrNegativeCost
  else
    reserved ← reserve b cost s;
    '(need, reserved) ← draw_generic b s generic reserved fallbackOrder;
    if decide (0 < need) then Err ErrInsufficient else Ok reserved.

Definition PayWithGeneric b cost (generic : Z) (fallbackOrder : list string) : M () :=
  reserved ← (λ s, (generic_reservation b cost generic fallbackOrder s, s));
  spendReserved b reserved.
End economy.

(** ** Sums over maps and sets *)

Definition total (m : gmap string Z) : Z := map_fold (λ _ v acc, v + acc) 0 m.

Lemma total_insert_new m k v : m !! k = None → total (<[k := v]> m) = v + total m.
Proof. intros Hk. unfold total. rewrite map_fold_insert_L; [done|intros; lia|done]. Qed.

Lemma total_add m k v : total (<[k := default 0 (m !! k) + v]> m) = total m + v.
Proof.
  destruct (m !! k) as [x|] eqn:Hk; simpl.
  - rewrite <-(insert_id m k x Hk) at 2. rewrite <-!(insert_delete_eq m k).
    rewrite !total_insert_new by apply lookup_delete_eq. lia.
  - rewrite total_insert_new by done. lia.
Qed.

Lemma total_filter_nonzero m : total (filter (λ kv, kv.2 ≠ 0) m) = total m.
Proof.
  induction m as [|k v m Hk IH] using map_ind; [done|]. rewrite total_insert_new by done.
  destruct (decide (v = 0)) as [->|Hv].
  - rewrite map_filter_insert_False by (simpl; tauto). by rewrite delete_id.
  - rewrite map_filter_insert_True by done. rewrite total_insert_new; [lia|].
    apply map_lookup_filter_None. by left.
Qed.

Definition sum_set (f : string → Z) (X : gset string) : Z := foldr (λ k acc, f k + acc) 0 (elements X).

Lemma sum_set_split f X k : k ∈ X → sum_set f X = f k + sum_set f (X ∖ {[k]}).
Proof.
  intros Hk. unfold sum_set.
  assert (Hp : elements X ≡ₚ k :: elements (X ∖ {[k]})).
  { change (k :: elements (X ∖ {[k]})) with ([k] ++ elements (X ∖ {[k]})).
    rewrite <-(elements_singleton (C:=gset string) k), <-elements_disj_union by set_solver.
    apply elements_proper. rewrite <-union_difference; set_solver. }
  assert (Hf : ∀ l l', l ≡ₚ l' → foldr (λ k acc, f k + acc) 0 l = foldr (λ k acc, f k + acc) 0 l').
  { induction 1; simpl; lia. }
  by rewrite (Hf _ _ Hp).
Qed.

Lemma sum_set_ext f g X : (∀ k, k ∈ X → f k = g k) → sum_set f X = sum_set g X.
Proof.
  unfold sum_set. intros Hfg. assert (Hl : ∀ k, k ∈ elements X → f k = g k) by set_solver.
  induction (elements X) as [|k l IH]; [done|]. simpl. rewrite Hl by (by left).
  rewrite IH; [done|]. intros k' Hk'. apply Hl. by right.
Qed.

Lemma sum_set_nonneg f X : (∀ k, 0 ≤ f k) → 0 ≤ sum_set f X.
Proof. intros Hf. unfold sum_set. induction (elements X) as [|k l IH]; simpl; [lia|]. specialize (Hf k). lia. Qed.

(** ** Paying *)
Section paying.
Context {H : Type} (handle : H → Event → State H → option (State H)).
Hypothesis handle_polite : polite handle.
Implicit Types (s : State H) (p : Pool) (b : Basket) (cost : Cost).

(** No counter under two names. *)
Definition distinct b : Prop := ∀ k1 k2 p1 p2, b !! k1 = Some p1 → b !! k2 = Some p2 →
  pl_Owner p1 = pl_Owner p2 → pl_Kind p1 = pl_Kind p2 → k1 = k2.

(** The kinds that draw on a given counter. *)
Definition account b (kind : string) (i : EntityID) (k : string) : Prop :=
  ∃ p, b !! kind = Some p ∧ pl_Owner p = i ∧ pl_Kind p = k.

Lemma Spend_run p n s : 0 ≤ n ≤ Current p s →
  ∃ s', Spend handle p n s = (Ok tt, s') ∧
    ∀ i k, Counters i k s' =
      if decide (i = pl_Owner p ∧ k = pl_Kind p) then Current p s - n else Counters i k s.
Proof.
  intros Hn. unfold Spend. rewrite decide_False by lia. destruct (decide (n = 0)) as [->|Hn0].
  { exists s. split; [done|]. intros i k. case_decide as Hik; [|done]. destruct Hik as [-> ->].
    unfold Current. lia. }
  rewrite bind_eq. unfold get. cbv beta iota. rewrite decide_False by lia.
  unfold RemoveCounter. rewrite decide_False by lia.
  destruct (changeCounter_run handle (pl_Owner p) (pl_Kind p) (- n) false s handle_polite) as
    (s' & -> & _ & Hc); [right; unfold Current in *; lia|].
  exists s'. split; [done|]. intros i k. rewrite Hc. unfold new_total, Current in *.
  assert (is_Some (Entities s !! pl_Owner p)).
  { unfold Counters in Hn. destruct (Entities s !! pl_Owner p); [eauto|lia]. }
  repeat case_decide; try tauto; lia.
Qed.

(** What may be spent: every kind has a pool that holds the amount. *)
Definition covered b s (reserved : gmap string Z) (kinds : list string) : Prop :=
  ∀ kind, kind ∈ kinds → ∃ p, b !! kind = Some p ∧ 0 ≤ default 0 (reserved !! kind) ≤ Current p s.

Lemma spend_kinds_run b reserved kinds s :
  distinct b → NoDup kinds → covered b s reserved kinds →
  ∃ s', spend_kinds handle b reserved kinds s = (Ok tt, s') ∧
    (∀ kind p, kind ∈ kinds → b !! kind = Some p →
       Current p s' = Current p s - default 0 (reserved !! kind)) ∧
    (∀ i k, (∀ kind, kind ∈ kinds → ¬ account b kind i k) → Counters i k s' = Counters i k s).
Proof.
  intros Hd. revert s. induction kinds as [|kind kinds IH]; intros s Hnd Hcov.
  { exists s. split_and!; [done| |done]. by intros ? ? ?%not_elem_of_nil. }
  apply NoDup_cons in Hnd as [Hkind Hnd].
  destruct (Hcov kind) as (p & Hp & Hamt); [by left|].
  destruct (Spend_run p (default 0 (reserved !! kind)) s Hamt) as (s1 & Hrun & Hc).
  assert (Hother : ∀ kind' p', kind' ∈ kinds → b !! kind' = Some p' → Current p' s1 = Current p' s).
  { intros kind' p' Hk' Hp'. unfold Current. rewrite Hc, decide_False; [done|].
    intros [Ho Hk]. by rewrite (Hd kind' kind p' p Hp' Hp Ho Hk) in Hk'. }
  destruct (IH s1 Hnd) as (s' & Hrun' & Hpaid & Hrest).
  { intros kind' Hk'. destruct (Hcov kind') as (p' & Hp' & Hamt'); [by right|].
    exists p'. split; [done|]. by rewrite (Hother kind' p'). }
  exists s'. split_and!.
  - cbn [spend_kinds]. rewrite Hp. simpl. rewrite bind_eq. unfold st_try. by rewrite Hrun.
  - intros kind' p' [->|Hk']%elem_of_cons Hp'.
    + rewrite Hp in Hp'. injection Hp' as <-. unfold Current at 1. rewrite Hrest.
      * rewrite Hc, decide_True by done. done.
      * intros kind' Hk' (p' & Hp' & Ho & Hk). by rewrite (Hd kind' kind p' p Hp' Hp Ho Hk) in Hk'.
    + rewrite (Hpaid kind' p' Hk' Hp'). by rewrite (Hother kind' p').
  - intros i k Hno. rewrite Hrest by (intros; apply Hno; by right).
    rewrite Hc, decide_False; [done|]. intros [-> ->]. apply (Hno kind); [by left|]. by exists p.
Qed.

(** A reservation a basket can honour: positive amounts its pools hold. *)
Definition honoured b s (reserved : gmap string Z) : Prop :=
  ∀ kind a, reserved !! kind = Some a → ∃ p, b !! kind = Some p ∧ 0 ≤ a ≤ Current p s.

(** What a payment does. *)
Definition paid_out b s (paid : gmap string Z) s' : Prop :=
  (∀ kind p, b !! kind = Some p → Current p s' = Current p s - default 0 (paid !! kind)) ∧
  (∀ i k, (∀ kind, ¬ account b kind i k) → Counters i k s' = Counters i k s).

Lemma spendReserved_run b reserved s : distinct b → honoured b s reserved →
  ∃ s', spendReserved handle b reserved s = (Ok tt, s') ∧ paid_out b s reserved s'.
Proof.
  intros Hd Hh. unfold spendReserved. set (kinds := sort_strings _).
  assert (Hk : ∀ kind, kind ∈ kinds ↔ is_Some (reserved !! kind)).
  { intros kind. unfold kinds, sort_strings. rewrite merge_sort_Permutation.
    rewrite list_elem_of_fmap. split.
    - intros ([k a] & -> & ?%elem_of_map_to_list). by eexists.
    - intros [a Ha]. exists (kind, a). split; [done|]. by apply elem_of_map_to_list. }
  destruct (spend_kinds_run b reserved kinds s Hd) as (s' & Hrun & Hpaid & Hrest).
  - unfold kinds, sort_strings. rewrite merge_sort_Permutation. apply NoDup_fst_map_to_list.
  - intros kind [a Ha]%Hk. rewrite Ha. apply (Hh kind a Ha).
  - exists s'. split; [done|]. split.
    + intros kind p Hp. destruct (reserved !! kind) as [a|] eqn:Ha; simpl.
      * rewrite (Hpaid kind p), Ha; [done|apply Hk; eauto|done].
      * unfold Current. rewrite Hrest; [lia|]. intros kind' Hk' (p' & Hp' & Ho & Hkk).
        rewrite (Hd kind' kind p' p Hp' Hp Ho Hkk) in Hk'. apply Hk in Hk'. rewrite Ha in Hk'. by destruct Hk'.
    + intros i k Hno. apply Hrest. auto.
Qed.

(** ** Reserving *)

(** The cost is in order and the pools hold it. *)
Definition payable b s cost : Prop :=
  ∀ kind a, cost !! kind = Some a → 0 ≤ a ∧ (a ≠ 0 → ∃ p, b !! kind = Some p ∧ a ≤ Current p s).

Lemma check_kind_ok b s kind a : check_kind b s (kind, a) = Ok tt ↔
  0 ≤ a ∧ (a ≠ 0 → ∃ p, b !! kind = Some p ∧ a ≤ Current p s).
Proof.
  unfold check_kind. case_decide; [split; [done|lia]|]. case_decide; [split; [lia|done]|].
  destruct (b !! kind) as [p|]; [case_decide|]; split; try done.
  - intros (_ & Hp). destruct (Hp ltac:(done)) as (p' & [= <-] & ?). lia.
  - intros _. split; [lia|]. intros _. exists p. split; [done|lia].
  - intros (_ & Hp). by destruct (Hp ltac:(done)) as (p' & ? & _).
Qed.

Lemma check_kinds_total b s entries :
  check_kinds b s entries = Ok tt ∨ ∃ e, check_kinds b s entries = Err e.
Proof.
  induction entries as [|[kind a] entries IH]; [by left|]. cbn [check_kinds]. unfold check_kind.
  unfold mbind, outcome_bind. repeat case_decide; eauto. destruct (b !! kind); [case_decide|]; eauto.
Qed.

Lemma check_kinds_ok b s entries : check_kinds b s entries = Ok tt ↔
  Forall (λ e, check_kind b s e = Ok tt) entries.
Proof.
  induction entries as [|e entries IH]; cbn [check_kinds]; [by split|].
  rewrite Forall_cons, <-IH. unfold mbind, outcome_bind.
  destruct (check_kind b s e) as [[]| | |]; naive_solver.
Qed.

Lemma reserve_run b cost s :
  (payable b s cost ∧ reserve b cost s = Ok (filter (λ kv, kv.2 ≠ 0) cost)) ∨
  (¬ payable b s cost ∧ ∃ e, reserve b cost s = Err e).
Proof.
  assert (Hiff : check_kinds b s (map_to_list cost) = Ok tt ↔ payable b s cost).
  { rewrite check_kinds_ok, Forall_forall. unfold payable. split.
    - intros Hall kind a Ha. apply check_kind_ok, Hall. by apply elem_of_map_to_list.
    - intros Hpay [kind a] Ha%elem_of_map_to_list. by apply check_kind_ok, Hpay. }
  unfold reserve. destruct (check_kinds_total b s (map_to_list cost)) as [Hok|[e He]].
  - left. split; [by apply Hiff|]. by rewrite Hok.
  - right. split; [|rewrite He; eauto]. intros Hp%Hiff. congruence.
Qed.

Lemma payable_honoured b s cost : payable b s cost → honoured b s (filter (λ kv, kv.2 ≠ 0) cost).
Proof.
  intros Hpay kind a [Ha Hne]%map_lookup_filter_Some. simpl in Hne.
  destruct (Hpay kind a Ha) as [Hnn Hp]. destruct (Hp Hne) as (p & ? & ?). eauto.
Qed.

Lemma nonzero_default (cost : gmap string Z) kind :
  default 0 (filter (λ kv, kv.2 ≠ 0) cost !! kind) = default 0 (cost !! kind).
Proof.
  destruct (filter _ cost !! kind) as [x|] eqn:Hf.
  - apply map_lookup_filter_Some in Hf as [Hc _]. by rewrite Hc.
  - apply map_lookup_filter_None in Hf as [Hc|Hc]; [by rewrite Hc|].
    destruct (cost !! kind) as [a|]; [|done]. destruct (decide (a = 0)) as [->|]; [done|].
    exfalso. by apply (Hc a).
Qed.

(** What a fallback kind still has once the reservation is set aside. *)
Definition spare b s (reserved : gmap string Z) (kind : string) : Z :=
  match b !! kind with
  | Some p => Z.max 0 (Current p s - default 0 (reserved !! kind))
  | None => 0
  end.

Definition supply b s reserved (fallback : list string) : Z :=
  sum_set (spare b s reserved) (list_to_set fallback).

Lemma draw_generic_run b s fallback : ∀ need reserved, 0 ≤ need → honoured b s reserved →
  match draw_generic b s need reserved fallback with
  | Ok (need', reserved') =>
      0 ≤ need' ≤ need ∧ honoured b s reserved' ∧ total reserved' = total reserved + need - need' ∧
      (∀ k, default 0 (reserved !! k) ≤ default 0 (reserved' !! k)) ∧
      (∀ k, k ∉ fallback → reserved' !! k = reserved !! k) ∧
      (0 < need' → supply b s reserved fallback ≤ need - need')
  | Err _ => ∃ k, k ∈ fallback ∧ b !! k = None
  | _ => False
  end.
Proof.
  induction fallback as [|kind rest IH]; intros need reserved Hneed Hh; cbn [draw_generic].
  { split_and!; try done; try lia. intros _. unfold supply, sum_set. cbn [list_to_set].
    rewrite elements_empty. simpl. lia. }
  destruct (decide (need = 0)) as [->|Hn0]; [split_and!; try done; lia|].
  destruct (b !! kind) as [p|] eqn:Hp; [|exists kind; split; [by left|done]]. cbv zeta.
  assert (Hsupply : ∀ r, supply b s r (kind :: rest) ≤ spare b s r kind + supply b s r rest ∧
    (spare b s r kind = 0 → supply b s r (kind :: rest) ≤ supply b s r rest)).
  { intros r. unfold supply. rewrite (sum_set_split _ (list_to_set (kind :: rest)) kind) by set_solver.
    assert (Hnn : ∀ k, 0 ≤ spare b s r k) by (intros k; unfold spare; destruct (b !! k); lia).
    destruct (decide (kind ∈ (list_to_set rest : gset string))) as [Hin|Hin].
    - rewrite (sum_set_split _ (list_to_set rest) kind) by done.
      replace (list_to_set (kind :: rest) ∖ {[kind]} : gset string) with (list_to_set rest ∖ {[kind]} : gset string)
        by set_solver. specialize (Hnn kind). lia.
    - replace (list_to_set (kind :: rest) ∖ {[kind]} : gset string) with (list_to_set rest : gset string)
        by set_solver. lia. }
  destruct (decide (_ ≤ 0)) as [Hav|Hav].
  - specialize (IH need reserved Hneed Hh). destruct (draw_generic b s need reserved rest) as [[n' r']|e| |];
      [|destruct IH as (k & ? & ?); exists k; split; [by right|done]|done..].
    destruct IH as (? & ? & ? & ? & Hout & Hshort). split_and!; try done; try lia.
    + intros k Hk. apply Hout. intros Hr. apply Hk. by right.
    + intros Hn'. specialize (Hshort Hn'). destruct (Hsupply reserved) as [_ Hle].
      unfold spare in Hle. rewrite Hp in Hle. specialize (Hle ltac:(lia)). lia.
  - set (old := default 0 (reserved !! kind)) in *. set (take := Z.min (Current p s - old) need).
    assert (Hold : 0 ≤ old).
    { unfold old. destruct (reserved !! kind) as [a|] eqn:Ha; simpl; [|lia]. destruct (Hh kind a Ha) as (? & _ & ?). lia. }
    assert (Hh' : honoured b s (<[kind := old + take]> reserved)).
    { intros k a [[<- <-]|[_ Ha]]%lookup_insert_Some; [exists p; split; [done|lia]|by apply (Hh k a)]. }
    specialize (IH (need - take) _ ltac:(lia) Hh').
    destruct (draw_generic b s (need - take) _ rest) as [[n' r']|e| |];
      [|destruct IH as (k & ? & ?); exists k; split; [by right|done]|done..].
    destruct IH as (? & ? & Htot & Hmono & Hout & Hshort). split_and!; try done; try lia.
    + rewrite Htot. unfold old. rewrite total_add. lia.
    + intros k. specialize (Hmono k). destruct (decide (k = kind)) as [->|Hne].
      * rewrite lookup_insert_eq in Hmono. simpl in Hmono. fold old. lia.
      * by rewrite lookup_insert_ne in Hmono.
    + intros k Hk. rewrite Hout by (intros Hr; apply Hk; by right).
      rewrite lookup_insert_ne; [done|]. intros ->. apply Hk. by left.
    + intros Hn'. specialize (Hshort Hn'). assert (take = Current p s - old) as Ht by lia.
      assert (Hdrained : supply b s (<[kind := old + take]> reserved) rest =
        sum_set (spare b s reserved) (list_to_set rest ∖ {[kind]})).
      { unfold supply. assert (Hz : spare b s (<[kind := old + take]> reserved) kind = 0).
        { unfold spare. rewrite Hp, lookup_insert_eq. simpl. lia. }
        assert (Hext : ∀ X, kind ∉ X → sum_set (spare b s (<[kind := old + take]> reserved)) X =
          sum_set (spare b s reserved) X).
        { intros X HX. apply sum_set_ext. intros k Hk. unfold spare. rewrite lookup_insert_ne; [done|].
          by intros ->. }
        destruct (decide (kind ∈ (list_to_set rest : gset string))) as [Hin|Hin].
        - rewrite (sum_set_split _ _ kind Hin), Hz, Hext by set_solver. lia.
        - rewrite Hext by done. f_equal. set_solver. }
      unfold supply. rewrite (sum_set_split _ (list_to_set (kind :: rest)) kind) by set_solver.
      replace (list_to_set (kind :: rest) ∖ {[kind]} : gset string) with (list_to_set rest ∖ {[kind]} : gset string)
        by set_solver.
      rewrite <-Hdrained. unfold spare at 1. rewrite Hp. fold old. lia.
Qed.

(** The generic amount can be found somewhere. *)
Definition affordable b s cost (generic : Z) (fallback : list string) : Prop :=
  payable b s cost ∧ (∀ k, k ∈ fallback → is_Some (b !! k)) ∧
  0 ≤ generic ≤ supply b s (filter (λ kv, kv.2 ≠ 0) cost) fallback.

Lemma generic_reservation_run b cost generic fallback s :
  (∃ e, generic_reservation b cost generic fallback s = Err e ∧
     ¬ affordable b s cost generic fallback) ∨
  (∃ paid, generic_reservation b cost generic fallback s = Ok paid ∧
     honoured b s paid ∧ total paid = total cost + generic ∧
     (∀ k, default 0 (cost !! k) ≤ default 0 (paid !! k)) ∧
     (∀ k, k ∉ fallback → default 0 (paid !! k) = default 0 (cost !! k))).
Proof.
  unfold generic_reservation, mbind, outcome_bind. case_decide; [left; eexists; split; [done|]; intros (_ & _ & ?); lia|].
  destruct (reserve_run b cost s) as [[Hpay ->]|[Hno [e ->]]].
  2:{ left. exists e. split; [done|]. by intros [? _]. }
  pose proof (draw_generic_run b s fallback generic (filter (λ kv, kv.2 ≠ 0) cost) ltac:(lia)
    (payable_honoured b s cost Hpay)) as Hrun.
  destruct (draw_generic _ _ _ _ _) as [[need paid]|e| |]; [|left; exists e|done..].
  2:{ split; [done|]. intros (_ & Hk & _). destruct Hrun as (k & Hk' & Hn). apply Hk in Hk'.
      rewrite Hn in Hk'. by destruct Hk'. }
  destruct Hrun as (Hneed & Hh & Htot & Hmono & Hout & Hshort). case_decide.
  - left. eexists. split; [done|]. intros (_ & _ & ?). specialize (Hshort ltac:(done)). lia.
  - right. exists paid. rewrite total_filter_nonzero in Htot. split_and!; [done|done|lia|..].
    + intros k. by rewrite <-(nonzero_default cost k).
    + intros k Hk. by rewrite Hout, nonzero_default.
Qed.

(** A basket pays exactly or not at all. If the cost is in order, the pools hold
    it and the fallback kinds can absorb the generic part, the payment goes through
    and takes exactly the cost plus the generic amount, each kind at least its own
    price and kinds outside the fallback order nothing more, and touches no counter
    that is not in the basket. When it does not go through nothing has changed. The
    pools of the basket are distinct counters, and no event handler interferes. *)
Theorem PayWithGeneric_exact b cost generic fallback s : distinct b →
  (∃ e, PayWithGeneric handle b cost generic fallback s = (Err e, s) ∧
     ¬ affordable b s cost generic fallback) ∨
  (∃ paid s', PayWithGeneric handle b cost generic fallback s = (Ok tt, s') ∧
     paid_out b s paid s' ∧ honoured b s paid ∧ total paid = total cost + generic ∧
     (∀ k, default 0 (cost !! k) ≤ default 0 (paid !! k)) ∧
     (∀ k, k ∉ fallback → default 0 (paid !! k) = default 0 (cost !! k))).
Proof.
  intros Hd. unfold PayWithGeneric. rewrite bind_eq.
  destruct (generic_reservation_run b cost generic fallback s) as [(e & -> & ?)|(paid & -> & Hh & Hrest)].
  - left. eauto.
  - right. destruct (spendReserved_run b paid s Hd Hh) as (s' & Hrun & Hout). exists paid, s'. auto.
Qed.

(** A capped pool stays between zero and its cap: Gain adds what fits, Set
    clamps, Spend takes exactly the amount or refuses and changes nothing. *)
Theorem pool_stays_in_bounds p s n :
  0 < pl_Cap p → pl_AllowNegative p = false → 0 ≤ Current p s ≤ pl_Cap p →
  is_Some (Entities s !! pl_Owner p) →
  (∃ s', Gain handle p n s = (Ok (Z.max 0 (Z.min n (pl_Cap p - Current p s))), s') ∧
     Current p s' = Z.max (Current p s) (Z.min (Current p s + n) (pl_Cap p))) ∧
  (∃ s', Set_ handle p n s = (Ok (Z.max 0 (Z.min n (pl_Cap p))), s') ∧
     Current p s' = Z.max 0 (Z.min n (pl_Cap p))) ∧
  (0 ≤ n ≤ Current p s →
     ∃ s', Spend handle p n s = (Ok tt, s') ∧ Current p s' = Current p s - n) ∧
  (¬ 0 ≤ n ≤ Current p s → ∃ e, Spend handle p n s = (Err e, s)).
Proof.
  intros Hcap Hneg Hcur Howner.
  assert (Hadd : ∀ d, 0 ≤ Current p s + d → ∃ s', add_to handle p d s = (Ok tt, s') ∧
    Current p s' = Current p s + d).
  { intros d Hd. unfold add_to, AddCounter. destruct (changeCounter_run handle (pl_Owner p) (pl_Kind p) d false s handle_polite)
      as (s' & -> & _ & Hc); [right; unfold Current in *; lia|].
    exists s'. split; [done|]. unfold Current in *. rewrite Hc, decide_True by done. unfold new_total. lia. }
  split_and!.
  - unfold Gain. rewrite bind_eq. unfold get. cbv beta iota zeta.
    assert (gain_amount p (Current p s) n = Z.max 0 (Z.min n (pl_Cap p - Current p s))) as ->.
    { unfold gain_amount. repeat case_decide; lia. }
    set (g := Z.max _ _). rewrite bind_eq. case_decide as Hg.
    + exists s. rewrite Hg. split; [done|]. lia.
    + destruct (Hadd g) as (s' & -> & Hs'); [lia|]. exists s'. split; [done|]. lia.
  - unfold Set_. rewrite bind_eq. unfold get. cbv beta iota zeta.
    assert (set_target p n = Z.max 0 (Z.min n (pl_Cap p))) as ->.
    { unfold set_target. rewrite Hneg. repeat case_decide; try tauto; lia. }
    set (g := Z.max _ _). rewrite bind_eq, Hneg. case_decide as Hg.
    + exists s. split; [done|]. lia.
    + destruct (Hadd (g - Current p s)) as (s' & -> & Hs'); [lia|]. exists s'. split; [done|]. lia.
  - intros Hn. destruct (Spend_run p n s Hn) as (s' & Hrun & Hc). exists s'. split; [done|].
    unfold Current at 1. by rewrite Hc, decide_True.
  - intros Hn. unfold Spend. case_decide; [eauto|]. case_decide; [lia|]. rewrite bind_eq.
    unfold get. cbv beta iota. case_decide; [eauto|]. lia.
Qed.
End paying.

(** ** On a player with mana *)

Definition silent (h : Empty_set) (ev : Event) (s : State Empty_set) : option (State Empty_set) := Some s.

Lemma silent_polite : polite silent.
Proof. intros []. Qed.

Definition mana : Basket :=
  {["red" := mkPool 1 "red" 0 false; "blue" := mkPool 1 "blue" 0 false]}.

Definition player : State Empty_set :=
  (AddCounter silent 1 "blue" 3 (AddCounter silent 1 "red" 2
    (NewEntity "player" "0" ∅ NewState).2).2).2.

Lemma mana_distinct : distinct mana.
Proof.
  intros k1 k2 p1 p2 H1 H2 _ Hk. unfold mana in *.
  apply lookup_insert_Some in H1 as [[<- <-]|[? [<- <-]%lookup_singleton_Some]];
  apply lookup_insert_Some in H2 as [[<- <-]|[? [<- <-]%lookup_singleton_Some]]; done.
Qed.

Lemma PayWithGeneric_exact_witness :
  ∃ paid s', PayWithGeneric silent mana {["red" := 1]} 2 ["red"; "blue"] player = (Ok tt, s') ∧
    total paid = 3.
Proof.
  destruct (PayWithGeneric_exact silent silent_polite mana {["red" := 1]} 2 ["red"; "blue"] player mana_distinct)
    as [(e & Hrun & _)|(paid & s' & Hrun & _ & _ & Htot & _)].
  - exfalso. revert Hrun. vm_compute. discriminate.
  - exists paid, s'. split; [exact Hrun|]. rewrite Htot. vm_compute. reflexivity.
Defined.

Lemma pool_stays_in_bounds_witness :
  ∃ s', Gain silent (mkPool 1 "red" 3 false) 5 player = (Ok 1, s') ∧
    Current (mkPool 1 "red" 3 false) s' = 3.
Proof.
  destruct (pool_stays_in_bounds silent silent_polite (mkPool 1 "red" 3 false) player 5
    ltac:(simpl; lia) eq_refl ltac:(vm_compute; split; discriminate) ltac:(vm_compute; eauto))
    as ((s' & Hrun & Hs') & _).
  exists s'. split; [exact Hrun|exact Hs'].
Defined.

(** Two names for one counter: each name passes the check on its own, and the second
    deduction finds the counter short, which the code takes for a broken invariant
    and panics, although the Basket comment allows such names. *)
Definition aliased : Basket :=
  {["gold" := mkPool 1 "red" 0 false; "coins" := mkPool 1 "red" 0 false]}.

Lemma aliased_pools_panic :
  CanPay aliased {["gold" := 2; "coins" := 1]} player = true ∧
  (Pay silent aliased {["gold" := 2; "coins" := 1]} player).1 = Panicked.
Proof. vm_compute. split; reflexivity. Qed.
