(* ===== verification/Priority.v ===== *)
(** * Response windows and step sequences

    [src/modules/ccg/priority.go] and [steps.go]: who may respond and when everyone
    has passed, and the ordered steps of a sub-procedure.  The engine side is the
    list of active-player configurations the calls queue. *)

From S2P Require Import Prelude CoreTypes GameDef.
#[local] Open Scope Z_scope.

(** ** priority.go *)
Record PriorityState := mkPriority {
  pr_Open : bool;
  pr_Order : list string;
  pr_HolderIdx : Z;
  pr_Passes : Z;
  pr_Stage : string
}.

Inductive priority_error : Type :=
  ErrPriorityOpen | ErrPriorityClosed | ErrNotPriorityHolder | ErrBadPriorityOrder
  | ErrNotInPriorityOrder.

Definition closed_window : PriorityState := mkPriority false [] 0 0 "".

(** A window and the SetActivePlayers events queued so far. *)
Definition window : Type := PriorityState * list ActivePlayersConfig.

Section priority.
Abbreviation M := (ST window priority_error).
Implicit Types (p : PriorityState) (mover player stage : string).

Definition Holder p : string :=
  if pr_Open p then default "" (go_index (pr_Order p) (pr_HolderIdx p)) else "".

(** The configuration that lets only the holder move, in the window's stage. *)
Definition gate p : ActivePlayersConfig :=
  mkAPC None None None {[Holder p := pr_Stage p]} 0 0 ∅ ∅ false None.

Definition queue_gate p (queued : list ActivePlayersConfig) : list ActivePlayersConfig :=
  if decide (pr_Stage p = "") then queued else queued ++ [gate p].

Definition gateHolder : M () := λ '(p, queued), (Ok tt, (p, queue_gate p queued)).

Definition close : M () := λ '(p, queued),
  (Ok tt, (closed_window, if decide (pr_Stage p = "") then queued else queued ++ [emptyAPC])).

Definition the_window : M PriorityState := λ '(p, queued), (Ok p, (p, queued)).
Definition set_window p : M () := λ '(_, queued), (Ok tt, (p, queued)).
Definition refuse (bad : bool) (e : priority_error) : M () := if bad then st_err e else mret tt.

(** Not empty, no player twice, no empty player id. *)
Definition good_order (players : list string) : bool :=
  bool_decide (players ≠ [] ∧ NoDup players ∧ "" ∉ players).

Definition OpenWindow (players : list string) stage : M () :=
  p ← the_window;
  _ ← refuse (pr_Open p) ErrPriorityOpen;
  _ ← refuse (negb (good_order players)) ErrBadPriorityOrder;
  _ ← set_window (mkPriority true players 0 0 stage);
  gateHolder.

(** [(idx + 1) % len(order)], for an order that is not empty. *)
Definition next_idx p : Z := Z.rem (pr_HolderIdx p + 1) (Z.of_nat (length (pr_Order p))).

Definition Pass mover : M bool :=
  p ← the_window;
  _ ← refuse (negb (pr_Open p)) ErrPriorityClosed;
  _ ← refuse (negb (bool_decide (mover = Holder p))) ErrNotPriorityHolder;
  let passes := pr_Passes p + 1 in
  if decide (Z.of_nat (length (pr_Order p)) ≤ passes) then
    _ ← set_window (mkPriority true (pr_Order p) (pr_HolderIdx p) passes (pr_Stage p));
    _ ← close; mret true
  else
    _ ← set_window (mkPriority true (pr_Order p) (next_idx p) passes (pr_Stage p));
    _ ← gateHolder; mret false.

Definition ActionTaken mover (retain : bool) : M () :=
  p ← the_window;
  _ ← refuse (negb (pr_Open p)) ErrPriorityClosed;
  _ ← refuse (negb (bool_decide (mover = Holder p))) ErrNotPriorityHolder;
  if retain then set_window (mkPriority true (pr_Order p) (pr_HolderIdx p) 0 (pr_Stage p))
  else
    _ ← set_window (mkPriority true (pr_Order p) (next_idx p) 0 (pr_Stage p));
    gateHolder.

Definition Drop player : M bool :=
  p ← the_window;
  _ ← refuse (negb (pr_Open p)) ErrPriorityClosed;
  match find_index (λ q, bool_decide (q = player)) (pr_Order p) with
  | None => st_err ErrNotInPriorityOrder
  | Some idx =>
      let held := bool_decide (Z.of_nat idx = pr_HolderIdx p) in
      let order := remove_at idx (pr_Order p) in
      let n := Z.of_nat (length order) in
      if decide (order = [] ∨ n ≤ pr_Passes p) then
        _ ← set_window (mkPriority true order (pr_HolderIdx p) (pr_Passes p) (pr_Stage p));
        _ ← close; mret true
      else
        let h := if decide (Z.of_nat idx < pr_HolderIdx p) then pr_HolderIdx p - 1
                 else pr_HolderIdx p in
        _ ← set_window (mkPriority true order (Z.rem h n) (pr_Passes p) (pr_Stage p));
        _ ← (if held then gateHolder else mret tt);
        mret false
  end.

Definition CloseWindow : M () :=
  p ← the_window;
  if pr_Open p then close else mret tt.

Definition ResetWindow : M () := set_window closed_window.

(** A picker that halts while the window is open. *)
Definition HaltWhileOpen {A} p (inner : list A → Z) (pending : list A) : Z :=
  if pr_Open p then -1 else inner pending.
End priority.

(** ** steps.go *)
Record StepDef := mkStep { sd_Name : string; sd_Window : bool }.

Record StepSequence := mkSeq {
  sq_Name : string; sq_Steps : list StepDef; sq_Index : Z; sq_Active : bool
}.

Inductive step_error : Type := ErrSequenceActive | ErrSequenceEmpty | ErrSequenceInactive.

Definition idle_sequence : StepSequence := mkSeq "" [] 0 false.

Section steps.
Implicit Types (q : StepSequence).

Definition Begin (name : string) (steps : list StepDef) q : outcome step_error StepSequence :=
  if sq_Active q then Err ErrSequenceActive
  else if decide (steps = []) then Err ErrSequenceEmpty
  else Ok (mkSeq name steps 0 true).

Definition CurrentStep q : option StepDef :=
  if sq_Active q then go_index (sq_Steps q) (sq_Index q) else None.

Definition IsStep (step : string) q : bool :=
  match CurrentStep q with Some d => bool_decide (sd_Name d = step) | None => false end.

(** The next step, or [None] with the sequence over. *)
Definition Advance q : outcome step_error (StepSequence * option StepDef) :=
  if negb (sq_Active q) then Err ErrSequenceInactive
  else
    let n := Z.of_nat (length (sq_Steps q)) in
    if decide (sq_Index q < 0 ∨ n ≤ sq_Index q) then Err ErrSequenceInactive
    else if decide (n ≤ sq_Index q + 1) then Ok (idle_sequence, None)
    else
      let q := mkSeq (sq_Name q) (sq_Steps q) (sq_Index q + 1) true in
      Ok (q, CurrentStep q).
End steps.

(** ** Windows that stay coherent *)
Section window_facts.
Implicit Types (p : PriorityState) (queued : list ActivePlayersConfig) (st : window).

(** An open window has an order of distinct players, a holder among them, fewer
    passes than players, and, when wired to the engine, the last configuration queued
    lets exactly the holder move.  A closed one is the zero window. *)
Definition coherent st : Prop :=
  let '(p, queued) := st in
  if pr_Open p then
    NoDup (pr_Order p) ∧ "" ∉ pr_Order p ∧
    0 ≤ pr_HolderIdx p < Z.of_nat (length (pr_Order p)) ∧
    0 ≤ pr_Passes p < Z.of_nat (length (pr_Order p)) ∧
    (pr_Stage p ≠ "" → last queued = Some (gate p))
  else p = closed_window.

Inductive window_call : Type :=
  | CallOpen (players : list string) (stage : string)
  | CallPass (mover : string)
  | CallAction (mover : string) (retain : bool)
  | CallDrop (player : string)
  | CallClose
  | CallReset.

Definition window_step (c : window_call) st : window :=
  match c with
  | CallOpen players stage => (OpenWindow players stage st).2
  | CallPass mover => (Pass mover st).2
  | CallAction mover retain => (ActionTaken mover retain st).2
  | CallDrop player => (Drop player st).2
  | CallClose => (CloseWindow st).2
  | CallReset => (ResetWindow st).2
  end.

Lemma gated p queued : pr_Stage p ≠ "" → last (queue_gate p queued) = Some (gate p).
Proof. intros Hs. unfold queue_gate. rewrite decide_False by done. apply last_snoc. Qed.

Lemma next_idx_range p : pr_Order p ≠ [] → 0 ≤ pr_HolderIdx p →
  0 ≤ next_idx p < Z.of_nat (length (pr_Order p)).
Proof.
  intros Ho Hh. unfold next_idx. assert (length (pr_Order p) ≠ 0%nat) by by destruct (pr_Order p).
  apply Z.rem_bound_pos; lia.
Qed.

Lemma coherent_ne p queued : coherent (p, queued) → pr_Open p = true → pr_Order p ≠ [].
Proof.
  unfold coherent. intros Hc Ho Hn. rewrite Ho in Hc. destruct Hc as (_ & _ & Hr & _).
  rewrite Hn in Hr. simpl in Hr. lia.
Qed.

(** Two windows with the same holder and stage have the same gate. *)
Lemma gate_ext p p' : Holder p = Holder p' → pr_Stage p = pr_Stage p' → gate p = gate p'.
Proof. unfold gate. by intros -> ->. Qed.

Lemma pass_run mover p queued : pr_Open p = true → mover = Holder p →
  Pass mover (p, queued) =
  if decide (Z.of_nat (length (pr_Order p)) ≤ pr_Passes p + 1)
  then (Ok true, (closed_window, if decide (pr_Stage p = "") then queued else queued ++ [emptyAPC]))
  else let p' := mkPriority true (pr_Order p) (next_idx p) (pr_Passes p + 1) (pr_Stage p) in
       (Ok false, (p', queue_gate p' queued)).
Proof.
  intros Ho ->. unfold Pass. rewrite bind_eq. unfold the_window. cbv beta iota. rewrite Ho.
  rewrite bool_decide_eq_true_2 by done. rewrite bind_eq. unfold refuse. simpl. by case_decide.
Qed.

Lemma pass_refused mover st : pr_Open st.1 = false ∨ mover ≠ Holder st.1 → (Pass mover st).2 = st.
Proof.
  destruct st as [p queued]. simpl. intros Hor. unfold Pass. rewrite bind_eq. unfold the_window. cbv beta iota.
  destruct (pr_Open p) eqn:Ho; [|done]. destruct Hor as [|Hm]; [done|].
  by rewrite bool_decide_eq_false_2.
Qed.

Lemma remove_at_fewer {A} i (l : list A) : (i < length l)%nat → NoDup l → NoDup (remove_at i l) ∧
  (∀ x, x ∈ remove_at i l → x ∈ l).
Proof.
  intros Hi Hnd. destruct (lookup_lt_is_Some_2 l i Hi) as [y Hy].
  rewrite <-(take_drop_middle l i y Hy) in Hnd. apply NoDup_app in Hnd as (H1 & H2 & H3).
  apply NoDup_cons in H3 as [_ H3]. split.
  - apply NoDup_app. split_and!; [done| |done]. intros x Hx Hx'. apply (H2 x Hx). by right.
  - intros x Hx. eapply elem_of_submseteq; [exact Hx|apply remove_at_submseteq].
Qed.

Lemma lookup_remove_at {A} i j (l : list A) : (i < length l)%nat →
  remove_at i l !! j = if decide (j < i)%nat then l !! j else l !! S j.
Proof.
  intros Hi. unfold remove_at. destruct (decide (j < i)%nat).
  - by rewrite lookup_app_l, lookup_take_lt by (rewrite ?length_take; lia).
  - rewrite lookup_app_r, lookup_drop, length_take by (rewrite length_take; lia). f_equal. lia.
Qed.

Lemma coherent_open players stage p q : coherent (p, q) → coherent (OpenWindow players stage (p, q)).2.
Proof.
  intros Hc. unfold OpenWindow. rewrite bind_eq. unfold the_window. cbv beta iota. rewrite bind_eq.
  unfold refuse at 1. destruct (pr_Open p) eqn:Ho; [done|]. unfold mret, ST_ret, st_ret. cbv beta iota.
  rewrite bind_eq. unfold refuse, good_order. case_bool_decide as Hg; [|done].
  destruct Hg as (Hne & Hnd & He). simpl. unfold st_bind. simpl.
  assert (length players ≠ 0%nat) by by destruct players.
  split_and!; try done; try lia. intros Hs. by apply gated.
Qed.

Lemma coherent_pass mover p q : coherent (p, q) → coherent (Pass mover (p, q)).2.
Proof.
  intros Hc. destruct (decide (pr_Open p = true ∧ mover = Holder p)) as [[Ho Hm]|Hno].
  2:{ rewrite pass_refused; [done|]. simpl. destruct (pr_Open p); [right|by left]. naive_solver. }
  rewrite pass_run by done. case_decide; [done|]. pose proof (coherent_ne p q Hc Ho) as Hne.
  unfold coherent in *. rewrite Ho in Hc. simpl. destruct Hc as (Hnd & He & Hh & Hp & _).
  pose proof (next_idx_range p Hne). split_and!; try done; try lia. intros Hs. by apply gated.
Qed.

Lemma coherent_action mover retain p q : coherent (p, q) → coherent (ActionTaken mover retain (p, q)).2.
Proof.
  intros Hc. unfold ActionTaken. rewrite bind_eq. unfold the_window. cbv beta iota. rewrite bind_eq.
  unfold refuse at 1. destruct (pr_Open p) eqn:Ho; [|exact Hc]. simpl.
  unfold mbind, ST_bind, st_bind, refuse. case_bool_decide as Hm; [|done]. simpl.
  pose proof (coherent_ne p q Hc Ho) as Hne. pose proof (next_idx_range p Hne).
  unfold coherent in Hc. rewrite Ho in Hc. destruct Hc as (Hnd & He & Hh & Hp & Hg).
  destruct retain; simpl; split_and!; try done; try lia.
  - intros Hs. rewrite (Hg Hs). f_equal. apply gate_ext; [|done]. unfold Holder. by rewrite Ho.
  - intros Hs. by apply gated.
Qed.

(** The holder after another player is dropped. *)
Lemma holder_after_drop (order : list string) idx (h : Z) : (idx < length order)%nat →
  0 ≤ h < Z.of_nat (length order) → Z.of_nat idx ≠ h →
  let n := Z.of_nat (length (remove_at idx order)) in
  let h' := if decide (Z.of_nat idx < h) then h - 1 else h in
  go_index (remove_at idx order) (Z.rem h' n) = go_index order h.
Proof.
  intros Hi Hh Hne. cbv zeta. rewrite length_remove_at by done.
  set (h' := if decide (Z.of_nat idx < h) then h - 1 else h).
  assert (0 ≤ h' < Z.of_nat (length order - 1)) by (unfold h'; case_decide; lia).
  rewrite Z.rem_small by lia. unfold go_index. rewrite !decide_True by lia.
  rewrite lookup_remove_at by done. unfold h'. case_decide; case_decide; try lia; f_equal; lia.
Qed.

Lemma coherent_drop player p q : coherent (p, q) → coherent (Drop player (p, q)).2.
Proof.
  intros Hc. unfold Drop. rewrite bind_eq. unfold the_window. cbv beta iota. rewrite bind_eq.
  unfold refuse. destruct (pr_Open p) eqn:Ho; [|exact Hc]. simpl.
  destruct (find_index _ _) as [idx|] eqn:Hidx; [|done]. cbv zeta.
  case_decide as Hclose; [done|]. apply find_index_lt in Hidx.
  unfold coherent in Hc. rewrite Ho in Hc. destruct Hc as (Hnd & He & Hh & Hp & Hg).
  destruct (remove_at_fewer idx (pr_Order p) Hidx Hnd) as [Hnd' Hsub].
  set (n := Z.of_nat (length (remove_at idx (pr_Order p)))) in *.
  assert (0 < n) by (destruct (remove_at idx (pr_Order p)) eqn:Hr; [tauto|]; simpl in n; lia).
  set (h := if decide (Z.of_nat idx < pr_HolderIdx p) then pr_HolderIdx p - 1 else pr_HolderIdx p).
  assert (0 ≤ h) by (unfold h; case_decide; lia).
  pose proof (Z.rem_bound_pos h n ltac:(lia) ltac:(lia)).
  case_bool_decide as Hheld; simpl; split_and!; try done; try lia; try (by intros ?%Hsub); intros Hs.
  - by apply gated.
  - rewrite (Hg Hs). f_equal. apply gate_ext; [|done]. unfold Holder. rewrite Ho. simpl.
    by rewrite <-(holder_after_drop (pr_Order p) idx (pr_HolderIdx p)).
Qed.

(** Whatever calls are made on a response window, in whatever order and whether
    they are refused or not, an open window keeps a holder among its distinct players
    and fewer passes than players, and the engine is told to let exactly the holder
    move. *)
Theorem window_stays_coherent calls queued :
  coherent (fold_left (λ st c, window_step c st) calls (closed_window, queued)).
Proof.
  assert (Hstep : ∀ c st, coherent st → coherent (window_step c st)).
  { intros c [p q] Hc. destruct c as [players stage|mover|mover retain|player| |]; simpl.
    - by apply coherent_open.
    - by apply coherent_pass.
    - by apply coherent_action.
    - by apply coherent_drop.
    - unfold CloseWindow. rewrite bind_eq. simpl. by destruct (pr_Open p).
    - done. }
  assert (Hstart : coherent (closed_window, queued)) by done. revert Hstart.
  generalize (closed_window, queued). induction calls as [|c calls IH]; intros st Hst; simpl; auto.
Qed.
(** ** Everyone gets a say *)

(** The holder passes, [k] times over; who passed, and whether the window closed. *)
Fixpoint pass_round (k : nat) st : list (string * bool) * window :=
  match k with
  | O => ([], st)
  | S k =>
      let h := Holder st.1 in
      match Pass h st with
      | (Ok closed, st') => let '(l, st'') := pass_round k st' in ((h, closed) :: l, st'')
      | (_, st') => ([], st')
      end
  end.

(** The player [i] places after the holder. *)
Definition after_holder p (i : nat) : string :=
  default "" (pr_Order p !! rotate_nat_add (Z.to_nat (pr_HolderIdx p)) i (length (pr_Order p))).

Lemma after_holder_0 p : pr_Open p = true → 0 ≤ pr_HolderIdx p < Z.of_nat (length (pr_Order p)) →
  after_holder p 0 = Holder p.
Proof.
  intros Ho Hr. unfold after_holder, Holder, go_index, rotate_nat_add. rewrite Ho, decide_True by lia.
  rewrite Z.mod_small by lia. by rewrite Z2Nat.id, Z.add_0_r by lia.
Qed.

Lemma after_holder_S p p' i : pr_Order p' = pr_Order p → pr_HolderIdx p' = next_idx p →
  0 ≤ pr_HolderIdx p < Z.of_nat (length (pr_Order p)) →
  after_holder p' i = after_holder p (S i).
Proof.
  intros HO Hh Hr. unfold after_holder, rotate_nat_add. rewrite HO, Hh. unfold next_idx.
  rewrite Z.rem_mod_nonneg by lia. set (n := Z.of_nat (length (pr_Order p))) in *.
  pose proof (Z.mod_pos_bound (pr_HolderIdx p + 1) n ltac:(lia)).
  rewrite !Z2Nat.id, Zplus_mod_idemp_l by lia. do 4 f_equal. lia.
Qed.

Lemma pass_round_run k : ∀ p queued, coherent (p, queued) → pr_Open p = true →
  pr_Passes p + Z.of_nat (S k) = Z.of_nat (length (pr_Order p)) →
  ∃ q', pass_round (S k) (p, queued) =
    (imap (λ i b, (after_holder p i, b)) (replicate k false ++ [true]), (closed_window, q')).
Proof.
  induction k as [|k IH]; intros p queued Hc Ho Hn.
  - cbn [pass_round]. simpl fst. rewrite pass_run by done. rewrite decide_True by lia. eexists. simpl.
    rewrite after_holder_0; [done..|]. unfold coherent in Hc. rewrite Ho in Hc. apply Hc.
  - assert (Hr : 0 ≤ pr_HolderIdx p < Z.of_nat (length (pr_Order p))).
    { unfold coherent in Hc. rewrite Ho in Hc. apply Hc. }
    remember (S k) as k1. cbn [pass_round]. simpl fst. rewrite pass_run by done.
    rewrite decide_False by lia. cbv zeta beta iota.
    set (p' := mkPriority true (pr_Order p) (next_idx p) (pr_Passes p + 1) (pr_Stage p)).
    assert (Hc' : coherent (p', queue_gate p' queued)).
    { pose proof (coherent_pass (Holder p) p queued Hc) as Hc'. rewrite pass_run in Hc' by done.
      by rewrite decide_False in Hc' by lia. }
    destruct (IH p' (queue_gate p' queued) Hc' eq_refl) as (q' & Hq'); [simpl; lia|]. subst k1.
    rewrite Hq'. eexists. cbn [replicate app imap]. rewrite after_holder_0 by done. do 2 f_equal.
    apply imap_ext. intros i b _. unfold compose. by rewrite (after_holder_S p p').
Qed.

(** With no pass outstanding a window closes exactly when everyone has passed:
    the holder and then the others in order pass, each player once, and only the last
    pass closes the window. *)
Theorem window_closes_after_everyone p queued :
  coherent (p, queued) → pr_Open p = true → pr_Passes p = 0 →
  let n := length (pr_Order p) in
  let '(said, (p', _)) := pass_round n (p, queued) in
  said.*1 = rotate (Z.to_nat (pr_HolderIdx p)) (pr_Order p) ∧
  said.*2 = replicate (n - 1) false ++ [true] ∧ p' = closed_window.
Proof.
  intros Hc Ho Hp n. destruct n as [|k] eqn:Hn.
  { pose proof (coherent_ne p queued Hc Ho). destruct (pr_Order p); done. }
  destruct (pass_round_run k p queued Hc Ho) as (q' & ->); [subst n; lia|].
  replace (S k - 1)%nat with k by lia.
  assert (Hlen : length (replicate k false ++ [true]) = length (pr_Order p)).
  { rewrite length_app, length_replicate. simpl. subst n. lia. }
  assert (Hr : 0 ≤ pr_HolderIdx p < Z.of_nat (length (pr_Order p))).
  { unfold coherent in Hc. rewrite Ho in Hc. apply Hc. }
  split_and!; [| |done]; rewrite fmap_imap; apply list_eq; intros i; rewrite list_lookup_imap.
  - destruct (decide (i < length (pr_Order p))%nat) as [Hi|Hi].
    + destruct (lookup_lt_is_Some_2 (replicate k false ++ [true]) i) as [b ->]; [lia|]. simpl.
      rewrite lookup_rotate_r by done. unfold after_holder.
      destruct (lookup_lt_is_Some_2 (pr_Order p) (rotate_nat_add (Z.to_nat (pr_HolderIdx p)) i
        (length (pr_Order p)))) as [x ->]; [apply rotate_nat_add_lt; lia|done].
    + rewrite !lookup_ge_None_2; [done|rewrite length_rotate|]; lia.
  - by destruct ((replicate k false ++ [true]) !! i).
Qed.
End window_facts.

(** ** A step sequence visits its steps in order *)
Section step_facts.

(** The steps an active sequence still goes through, and whether it ends. *)
Fixpoint run_steps (fuel : nat) (q : StepSequence) : list StepDef * StepSequence :=
  match fuel with
  | O => ([], q)
  | S fuel =>
      match Advance q with
      | Ok (q', Some d) => let '(l, q'') := run_steps fuel q' in (d :: l, q'')
      | Ok (q', None) => ([], q')
      | _ => ([], q)
      end
  end.

Lemma run_steps_from name steps i fuel : (length steps ≤ i + fuel)%nat → (i < length steps)%nat →
  run_steps fuel (mkSeq name steps (Z.of_nat i) true) = (drop (S i) steps, idle_sequence).
Proof.
  revert i. induction fuel as [|fuel IH]; intros i Hf Hi; [lia|]. cbn [run_steps].
  unfold Advance. simpl. rewrite decide_False by lia. case_decide as Hend.
  - by rewrite drop_ge by lia.
  - unfold CurrentStep, go_index. simpl. rewrite decide_True by lia.
    replace (Z.to_nat (Z.of_nat i + 1)) with (S i) by lia.
    destruct (lookup_lt_is_Some_2 steps (S i)) as [d Hd]; [lia|]. rewrite Hd.
    replace (Z.of_nat i + 1) with (Z.of_nat (S i)) by lia. rewrite IH by lia.
    by rewrite (drop_S steps d (S i) Hd).
Qed.

(** A sequence goes through exactly the steps it was begun with, in order, and
    then is over: an idle sequence begins at the first of its steps, and advancing it
    yields the others one by one and then the end, after which it is idle again. *)
Theorem steps_in_order name d steps q :
  sq_Active q = false →
  ∃ q1, Begin name (d :: steps) q = Ok q1 ∧ CurrentStep q1 = Some d ∧
    run_steps (S (length steps)) q1 = (steps, idle_sequence) ∧
    Advance idle_sequence = Err ErrSequenceInactive.
Proof.
  intros Hq. unfold Begin. rewrite Hq, decide_False by done. eexists. split_and!; [done..| |done].
  change 0 with (Z.of_nat 0). rewrite run_steps_from by (simpl; lia). reflexivity.
Qed.
End step_facts.

Lemma steps_in_order_witness :
  ∃ q1, Begin "combat" [mkStep "attack" true; mkStep "block" true; mkStep "damage" false] idle_sequence
    = Ok q1 ∧ run_steps 3 q1 = ([mkStep "block" true; mkStep "damage" false], idle_sequence).
Proof.
  destruct (steps_in_order "combat" (mkStep "attack" true) [mkStep "block" true; mkStep "damage" false]
    idle_sequence eq_refl) as (q1 & H1 & _ & H2 & _).
  exists q1. split; [exact H1|exact H2].
Defined.

Lemma window_closes_after_everyone_witness :
  let p := mkPriority true ["0"; "1"; "2"] 1 0 "" in
  (pass_round 3 (p, [])).1 = [("1", false); ("2", false); ("0", true)] ∧
  (pass_round 3 (p, [])).1.*1 = rotate 1 ["0"; "1"; "2"].
Proof.
  intros p. split; [vm_compute; reflexivity|].
  assert (Hc : coherent (p, [])).
  { simpl. split_and!; try lia; try done; by apply (bool_decide_unpack _); vm_compute. }
  pose proof (window_closes_after_everyone p [] Hc eq_refl eq_refl) as H. cbv zeta in H.
  change (length (pr_Order p)) with 3%nat in H.
  destruct (pass_round 3 (p, [])) as [said [p' q']]. exact (proj1 H).
Defined.

(** ** Dropping a player keeps that player's pass *)

(** With three players, one passes and then leaves: the pass still counts, and the
    window closes after one more pass although the third player never had priority.
    With two players the leaving itself closes the window on the other. *)
Lemma dropped_pass_counts :
  let open3 := (OpenWindow ["0"; "1"; "2"] "" (closed_window, [])).2 in
  let st := (Drop "0" (Pass "0" open3).2).2 in
  (Pass "1" st).1 = Ok true ∧
  let open2 := (OpenWindow ["0"; "1"] "" (closed_window, [])).2 in
  (Drop "0" (Pass "0" open2).2).1 = Ok true.
Proof. vm_compute. split; reflexivity. Qed.
