(* ===== verification/Combat.v ===== *)
(** * Combat declarations

    [src/modules/ccg/combat.go] and [pairs.go]: declaring attackers and blockers, and
    the request that asks a defender for blocks.  What an attack or a block may be is
    the game's: the legality predicates are parameters. *)

From stdpp Require Import sorting.
From S2P Require Import Prelude Choices Floats.
#[local] Open Scope Z_scope.

Abbreviation EntityID := Z.

(** ** Data *)
Record CombatTarget := mkTarget { ct_Player : string; ct_Entity : EntityID }.
Record Attack := mkAttack { at_Attacker : EntityID; at_Target : CombatTarget }.

(** A nil Blocks map reads as the empty one. *)
Record Combat := mkCombat {
  cb_Attacks : list Attack;
  cb_AttacksDeclared : bool;
  cb_Blocks : gmap EntityID (list EntityID);
  cb_BlocksDeclared : bool;
  cb_MaxBlockersPerAttacker : Z
}.

Inductive combat_error (E : Type) : Type :=
  | ErrNoAttacks | ErrDuplicateAttacker | ErrAttacksAlreadyDeclared | ErrAttacksNotDeclared
  | ErrBlocksAlreadyDeclared | ErrNotAttacking | ErrBlockerReused | ErrTooManyBlockers
  | ErrIllegalBlock | GameError (e : E).
Arguments ErrNoAttacks {E}.
Arguments ErrDuplicateAttacker {E}.
Arguments ErrAttacksAlreadyDeclared {E}.
Arguments ErrAttacksNotDeclared {E}.
Arguments ErrBlocksAlreadyDeclared {E}.
Arguments ErrNotAttacking {E}.
Arguments ErrBlockerReused {E}.
Arguments ErrTooManyBlockers {E}.
Arguments ErrIllegalBlock {E}.
Arguments GameError {E}.

Section combat.
Context {E : Type}.
Implicit Types (c : Combat) (a : Attack) (id blocker attacker : EntityID).

Definition maxBlockers c : Z :=
  if decide (cb_MaxBlockersPerAttacker c ≤ 0) then 1 else cb_MaxBlockersPerAttacker c.

(** [legal] rejects an attack by returning the game's error. *)
Fixpoint check_attacks (legal : option (Attack → option E)) (seen : gset EntityID)
    (attacks : list Attack) : outcome (combat_error E) () :=
  match attacks with
  | [] => Ok tt
  | a :: attacks =>
      if decide (at_Attacker a ∈ seen) then Err ErrDuplicateAttacker
      else match legal ≫= λ f, f a with
           | Some e => Err (GameError e)
           | None => check_attacks legal ({[at_Attacker a]} ∪ seen) attacks
           end
  end.

Definition DeclareAttacks (attacks : list Attack) (legal : option (Attack → option E)) c
    : outcome (combat_error E) Combat :=
  if cb_AttacksDeclared c then Err ErrAttacksAlreadyDeclared
  else if decide (attacks = []) then Err ErrNoAttacks
  else
    _ ← check_attacks legal ∅ attacks;
    Ok (mkCombat attacks true (cb_Blocks c) (cb_BlocksDeclared c) (cb_MaxBlockersPerAttacker c)).

Definition Attacking id c : bool := existsb (λ a, bool_decide (at_Attacker a = id)) (cb_Attacks c).

Definition allows (legal : option (EntityID → EntityID → bool)) blocker attacker : bool :=
  match legal with None => true | Some f => f blocker attacker end.

(** Skip an element equal to the one before it. *)
Fixpoint skip_repeats (l : list EntityID) : list EntityID :=
  match l with
  | x :: (y :: _) as l' => if decide (x = y) then skip_repeats l' else x :: skip_repeats l'
  | l => l
  end.

Definition LegalBlocks (candidates : list EntityID) (legal : option (EntityID → EntityID → bool)) c
    : list (EntityID * EntityID) :=
  let sorted := skip_repeats (merge_sort Z.le candidates) in
  a ← cb_Attacks c;
  (λ b, (b, at_Attacker a)) <$> filter (λ b, allows legal b (at_Attacker a) = true) sorted.

(** One pair of the declaration. *)
Definition declare_block (legal : option (EntityID → EntityID → bool)) c
    (used : gset EntityID) (blocks : gmap EntityID (list EntityID)) (p : EntityID * EntityID)
    : outcome (combat_error E) (gset EntityID * gmap EntityID (list EntityID)) :=
  let '(blocker, attacker) := p in
  if negb (Attacking attacker c) then Err ErrNotAttacking
  else if decide (blocker ∈ used) then Err ErrBlockerReused
  else if negb (allows legal blocker attacker) then Err ErrIllegalBlock
  else
    let now := default [] (blocks !! attacker) in
    if decide (maxBlockers c ≤ Z.of_nat (length now)) then Err ErrTooManyBlockers
    else Ok ({[blocker]} ∪ used, <[attacker := now ++ [blocker]]> blocks).

Fixpoint declare_pairs (legal : option (EntityID → EntityID → bool)) c (used : gset EntityID)
    (blocks : gmap EntityID (list EntityID)) (pairs : list (EntityID * EntityID))
    : outcome (combat_error E) (gmap EntityID (list EntityID)) :=
  match pairs with
  | [] => Ok blocks
  | p :: pairs =>
      '(used, blocks) ← declare_block legal c used blocks p;
      declare_pairs legal c used blocks pairs
  end.

Definition with_blocks (blocks : gmap EntityID (list EntityID)) c : Combat :=
  mkCombat (cb_Attacks c) (cb_AttacksDeclared c)
    (if decide (blocks = ∅) then cb_Blocks c else blocks) true (cb_MaxBlockersPerAttacker c).

(** The hook judges the round as it would be; a declaration that fails leaves the
    round alone. *)
Definition DeclareBlocks (pairs : list (EntityID * EntityID))
    (legal : option (EntityID → EntityID → bool)) (whole : option (Combat → option E)) c
    : outcome (combat_error E) Combat :=
  if negb (cb_AttacksDeclared c) then Err ErrAttacksNotDeclared
  else if cb_BlocksDeclared c then Err ErrBlocksAlreadyDeclared
  else
    blocks ← declare_pairs legal c ∅ ∅ pairs;
    match whole ≫= λ f, f (with_blocks blocks c) with
    | Some e => Err (GameError e)
    | None => Ok (with_blocks blocks c)
    end.

Definition Blocked attacker c : bool := bool_decide (is_Some (cb_Blocks c !! attacker)).
Definition BlockersOf attacker c : list EntityID := default [] (cb_Blocks c !! attacker).
Definition Blocking id c : option EntityID :=
  at_Attacker <$> List.find (λ a, bool_decide (id ∈ BlockersOf (at_Attacker a) c)) (cb_Attacks c).
Definition Unblocked c : list Attack :=
  if cb_BlocksDeclared c then filter (λ a, Blocked (at_Attacker a) c = false) (cb_Attacks c)
  else [].

Definition remove_blocker id (bs : list EntityID) : list EntityID :=
  match find_index (λ b, bool_decide (b = id)) bs with
  | Some i => remove_at i bs
  | None => bs
  end.

Definition RemoveFromCombat id c : Combat :=
  let c := match find_index (λ a, bool_decide (at_Attacker a = id)) (cb_Attacks c) with
           | Some i => mkCombat (remove_at i (cb_Attacks c)) (cb_AttacksDeclared c)
                         (delete id (cb_Blocks c)) (cb_BlocksDeclared c)
                         (cb_MaxBlockersPerAttacker c)
           | None => c
           end in
  mkCombat (cb_Attacks c) (cb_AttacksDeclared c) (remove_blocker id <$> cb_Blocks c)
    (cb_BlocksDeclared c) (cb_MaxBlockersPerAttacker c).

Definition ResetCombat c : Combat := mkCombat [] false ∅ false (cb_MaxBlockersPerAttacker c).
End combat.

(** ** pairs.go *)
Definition entity_val (id : EntityID) : GoVal := GoInt "ccg.EntityID" KUint64 id.

Definition ToAssignmentPairs (pairs : list (EntityID * EntityID)) : list (GoVal * GoVal) :=
  (λ p, (entity_val p.1, entity_val p.2)) <$> pairs.

Definition toEntityID (v : GoVal) : option EntityID :=
  match v with
  | GoInt "ccg.EntityID" KUint64 n => Some n
  | GoInt "" KInt n | GoInt "" KInt64 n => if decide (0 ≤ n) then Some n else None
  | GoInt "" KUint64 n => Some n
  | GoFloat "" f =>
      match float_int f with
      | Some n => if decide (0 ≤ n < 2 ^ 64) then Some n else None
      | None => None
      end
  | _ => None
  end.

Definition EntityPairs (pairs : list (GoVal * GoVal)) : option (list (EntityID * EntityID)) :=
  mapM (λ p, l ← toEntityID p.1; r ← toEntityID p.2; Some (l, r)) pairs.

Definition BlockRequest (candidates : list EntityID) (legal : option (EntityID → EntityID → bool))
    (c : Combat) : AssignmentSpec :=
  mkAssignmentSpec (ToAssignmentPairs (LegalBlocks candidates legal c)) 1 (maxBlockers c) true.

(** ** What a declaration records *)
Section declarations.
Context {E : Type}.
Implicit Types (c : Combat) (pairs : list (EntityID * EntityID)) (legal : option (EntityID → EntityID → bool)).

(** The blockers a list of pairs gives an attacker, in order. *)
Definition blockers_for (attacker : EntityID) pairs : list EntityID :=
  (filter (λ p, p.2 = attacker) pairs).*1.

(** The pairs are a legal assignment: attackers that attack, pairs the predicate
    allows, no blocker twice and no attacker over its limit. *)
Record assignable c legal pairs : Prop := {
  as_each : ∀ p, p ∈ pairs → Attacking p.2 c = true ∧ allows legal p.1 p.2 = true;
  as_once : NoDup pairs.*1;
  as_limit : ∀ a, Z.of_nat (length (blockers_for a pairs)) ≤ maxBlockers c
}.

Lemma blockers_for_snoc a pairs p :
  blockers_for a (pairs ++ [p]) = blockers_for a pairs ++ (if decide (p.2 = a) then [p.1] else []).
Proof.
  unfold blockers_for. rewrite filter_app, fmap_app. f_equal. rewrite filter_cons.
  by case_decide.
Qed.

(** The loop's variables after some pairs. *)
Definition loop_state pairs (used : gset EntityID) (blocks : gmap EntityID (list EntityID)) : Prop :=
  (∀ b, b ∈ used ↔ b ∈ pairs.*1) ∧
  ∀ a, blocks !! a = let l := blockers_for a pairs in if decide (l = []) then None else Some l.

Lemma loop_default pairs used blocks a : loop_state pairs used blocks →
  default [] (blocks !! a) = blockers_for a pairs.
Proof. intros [_ Hb]. rewrite Hb. cbv zeta. by case_decide. Qed.

Lemma assignable_prefix c legal pairs rest : assignable c legal (pairs ++ rest) → assignable c legal pairs.
Proof.
  intros [H1 H2 H3]. split.
  - intros p Hp. apply H1, elem_of_app. by left.
  - rewrite fmap_app in H2. by apply NoDup_app in H2 as (? & _).
  - intros a. specialize (H3 a). unfold blockers_for in *. rewrite filter_app, fmap_app, length_app in H3. lia.
Qed.

Lemma declare_block_run c legal pairs used blocks p :
  loop_state pairs used blocks → assignable c legal pairs →
  (∃ used' blocks', declare_block (E:=E) legal c used blocks p = Ok (used', blocks') ∧
     loop_state (pairs ++ [p]) used' blocks' ∧ assignable c legal (pairs ++ [p])) ∨
  (∃ e, declare_block (E:=E) legal c used blocks p = Err e ∧ ¬ assignable c legal (pairs ++ [p])).
Proof.
  intros Hloop Has. destruct p as [b a]. unfold declare_block. pose proof Hloop as [Hused Hblocks].
  assert (Hlast : (b, a) ∈ pairs ++ [(b, a)]) by (apply elem_of_app; right; by left).
  destruct (Attacking a c) eqn:Hat; simpl.
  2:{ right. eexists. split; [done|]. intros [H1 _ _]. destruct (H1 _ Hlast). simpl in *. congruence. }
  case_decide as Hdup.
  { right. eexists. split; [done|]. intros [_ H2 _]. rewrite fmap_app in H2.
    apply NoDup_app in H2 as (_ & H2 & _). apply (H2 b); [by apply Hused|by left]. }
  destruct (allows legal b a) eqn:Hal; simpl.
  2:{ right. eexists. split; [done|]. intros [H1 _ _]. destruct (H1 _ Hlast). simpl in *. congruence. }
  rewrite (loop_default pairs used blocks a Hloop). case_decide as Hfull.
  - right. eexists. split; [done|]. intros [_ _ H3]. specialize (H3 a). rewrite blockers_for_snoc in H3.
    simpl in H3. rewrite decide_True, length_app in H3 by done. simpl in H3. lia.
  - left. eexists _, _. split; [done|]. destruct Has as [H1 H2 H3]. split; split.
    + intros b'. rewrite fmap_app, elem_of_app, elem_of_union, <-Hused. simpl.
      rewrite list_elem_of_singleton, elem_of_singleton. tauto.
    + intros a'. rewrite blockers_for_snoc. simpl. destruct (decide (a = a')) as [->|Hne].
      * rewrite lookup_insert_eq, decide_False; [done|]. by intros [_ ?]%app_eq_nil.
      * rewrite lookup_insert_ne, app_nil_r by done. apply Hblocks.
    + intros p [Hp| ->%list_elem_of_singleton]%elem_of_app; [by apply H1|done].
    + rewrite fmap_app. apply NoDup_app. split_and!; [done| |apply NoDup_singleton].
      intros x Hx ->%list_elem_of_singleton. by apply Hdup, Hused.
    + intros a'. rewrite blockers_for_snoc, length_app. simpl. specialize (H3 a').
      case_decide; simpl; [subst|]; lia.
Qed.

Lemma declare_pairs_run c legal rest : ∀ pairs used blocks,
  loop_state pairs used blocks → assignable c legal pairs →
  (∃ used' blocks', declare_pairs (E:=E) legal c used blocks rest = Ok blocks' ∧
     loop_state (pairs ++ rest) used' blocks' ∧ assignable c legal (pairs ++ rest)) ∨
  (∃ e, declare_pairs (E:=E) legal c used blocks rest = Err e ∧ ¬ assignable c legal (pairs ++ rest)).
Proof.
  induction rest as [|p rest IH]; intros pairs used blocks Hloop Has; cbn [declare_pairs].
  { left. exists used, blocks. by rewrite app_nil_r. }
  replace (pairs ++ p :: rest) with ((pairs ++ [p]) ++ rest) by by rewrite <-app_assoc.
  unfold mbind, outcome_bind.
  destruct (declare_block_run c legal pairs used blocks p Hloop Has)
    as [(used' & blocks' & -> & Hl & Ha)|(e & -> & Hno)].
  - by apply IH.
  - right. exists e. split; [done|]. intros Ha. apply Hno. by apply assignable_prefix in Ha.
Qed.

Lemma declare_pairs_start c legal pairs :
  (∃ blocks, declare_pairs (E:=E) legal c ∅ ∅ pairs = Ok blocks ∧ assignable c legal pairs ∧
     (∀ a, blocks !! a = let l := blockers_for a pairs in if decide (l = []) then None else Some l)) ∨
  (∃ e, declare_pairs (E:=E) legal c ∅ ∅ pairs = Err e ∧ ¬ assignable c legal pairs).
Proof.
  destruct (declare_pairs_run c legal pairs [] ∅ ∅) as [(used & blocks & -> & [_ Hb] & Ha)|(e & -> & Hno)].
  - split; [set_solver|]. intros a. by rewrite lookup_empty.
  - split; [by intros p ?%not_elem_of_nil|constructor|]. intros a. simpl. unfold maxBlockers. case_decide; lia.
  - left. eauto.
  - right. eauto.
Qed.

(** A block declaration is accepted exactly when attacks have been declared and
    blocks have not, the pairs are a legal assignment and the game's hook does not
    object to the round it would make; it then records for every attacker its
    blockers in the order they were given, and marks as blocked exactly the attackers
    that got one. *)
Theorem DeclareBlocks_records pairs legal (whole : option (Combat → option E)) c :
  cb_Blocks c = ∅ →
  let may := cb_AttacksDeclared c = true ∧ cb_BlocksDeclared c = false ∧ assignable c legal pairs in
  (may → ∃ c', cb_Attacks c' = cb_Attacks c ∧ cb_BlocksDeclared c' = true ∧
     (∀ a, BlockersOf a c' = blockers_for a pairs ∧ (Blocked a c' = true ↔ blockers_for a pairs ≠ [])) ∧
     DeclareBlocks pairs legal whole c =
       match whole ≫= λ f, f c' with Some e => Err (GameError e) | None => Ok c' end) ∧
  (¬ may → ∃ e, DeclareBlocks pairs legal whole c = Err e).
Proof.
  intros Hempty. cbv zeta. unfold DeclareBlocks.
  destruct (cb_AttacksDeclared c); simpl; [|split; [by intros (? & _)|eauto]].
  destruct (cb_BlocksDeclared c); [split; [by intros (_ & ? & _)|eauto]|].
  unfold mbind, outcome_bind. destruct (declare_pairs_start c legal pairs) as [(blocks & -> & Ha & Hb)|(e & -> & Hno)].
  2:{ split; [tauto|eauto]. }
  split; [intros _|intros Hno; destruct Hno; auto].
  assert (Hlook : ∀ a, cb_Blocks (with_blocks blocks c) !! a = blocks !! a).
  { intros a. unfold with_blocks. simpl. case_decide as Hn; [|done]. by rewrite Hempty, Hn. }
  exists (with_blocks blocks c). split_and!; [done..| |done].
  intros a. unfold BlockersOf, Blocked. rewrite Hlook, Hb. cbv zeta. rewrite bool_decide_eq_true.
  case_decide as Hl; simpl; split; try done.
Qed.

(** ** From the request to the declaration *)

(** An id of the round, small enough for JSON. *)
Definition small_id (id : EntityID) : Prop := 0 ≤ id < 2 ^ 53.

(** A chosen pair as JSON delivers it: two numbers, the ids [p]. *)
Definition delivers (v : GoVal * GoVal) (p : EntityID * EntityID) : Prop :=
  ∃ f g, v = (GoFloat "" f, GoFloat "" g) ∧ is_id p.1 f ∧ is_id p.2 g ∧ small_id p.1 ∧ small_id p.2.

(** An answer from a client: arrays of two JSON numbers. *)
Definition json_pair (v : GoVal) : Prop := ∃ f g, v = GoSlice [GoFloat "" f; GoFloat "" g].

Lemma delivers_id v p : delivers v p →
  toEntityID v.1 = Some p.1 ∧ toEntityID v.2 = Some p.2.
Proof.
  intros (f & g & -> & Hf & Hg & H1 & H2). unfold small_id in *. simpl.
  rewrite (is_id_int _ _ H1 Hf), (is_id_int _ _ H2 Hg), !decide_True by lia. done.
Qed.

Lemma delivers_same v w p q : delivers v p → delivers w q →
  sameItem v.1 w.1 = bool_decide (p.1 = q.1) ∧ sameItem v.2 w.2 = bool_decide (p.2 = q.2).
Proof.
  intros (f & g & -> & Hf & Hg & Hp1 & Hp2) (f' & g' & -> & Hf' & Hg' & Hq1 & Hq2). unfold small_id in *.
  unfold sameItem. simpl. split; by apply is_id_eqb.
Qed.

Lemma LegalBlocks_allowed candidates legal c p : p ∈ LegalBlocks candidates legal c →
  Attacking p.2 c = true ∧ allows legal p.1 p.2 = true ∧ p.1 ∈ candidates ∧
  ∃ a, a ∈ cb_Attacks c ∧ at_Attacker a = p.2.
Proof.
  unfold LegalBlocks. intros (a & Hp & Ha)%list_elem_of_bind.
  apply list_elem_of_fmap in Hp as (b & -> & [Hal Hb]%list_elem_of_filter). simpl. split_and!; [|done| |eauto].
  - unfold Attacking. apply existsb_exists. exists a. split; [by apply list_elem_of_In|].
    by apply bool_decide_eq_true.
  - assert (Hskip : ∀ l x, x ∈ skip_repeats l → x ∈ l).
    { induction l as [|x [|y l] IH]; intros z; cbn [skip_repeats]; try done.
      case_decide; [intros; right; by apply IH|]. intros [->|Hz]%elem_of_cons; [by left|right; by apply IH]. }
    apply Hskip in Hb. by rewrite merge_sort_Permutation in Hb.
Qed.

Lemma offered_delivers v p f g : v = (GoFloat "" f, GoFloat "" g) → small_id p.1 → small_id p.2 →
  same2 (entity_val p.1, entity_val p.2) v → delivers v p.
Proof. intros -> H1 H2 [Hf%sameItem_same Hg%sameItem_same]. by exists f, g. Qed.

Lemma count_same_delivers (side : GoVal * GoVal → GoVal) (key : EntityID * EntityID → EntityID)
    chosen pairs v p : 
  (∀ v w p q, delivers v p → delivers w q → sameItem (side v) (side w) = bool_decide (key p = key q)) →
  Forall2 delivers chosen pairs → delivers v p →
  count_same side chosen v = Z.of_nat (length (filter (λ q, key q = key p) pairs)).
Proof.
  intros Hside HF Hv. unfold count_same. f_equal. induction HF as [|w q chosen pairs Hw _ IH]; [done|].
  cbn [List.filter]. rewrite filter_cons, (Hside w v q p Hw Hv).
  case_bool_decide; case_decide; simpl; congruence.
Qed.

Lemma twice_NoDup (l : list EntityID) :
  (∀ x, x ∈ l → (length (filter (.= x) l) ≤ 1)%nat) → NoDup l.
Proof.
  induction l as [|x l IH]; intros Hl; constructor.
  - intros Hx. specialize (Hl x ltac:(by left)). rewrite filter_cons_True in Hl by done. simpl in Hl.
    assert (x ∈ filter (.= x) l) as Hf by by apply list_elem_of_filter.
    destruct (filter (.= x) l); [by apply not_elem_of_nil in Hf|simpl in Hl; lia].
  - apply IH. intros y Hy. specialize (Hl y ltac:(by right)). rewrite filter_cons in Hl.
    case_decide; simpl in *; lia.
Qed.

Lemma filter_keys pairs (b : EntityID) :
  length (filter (.= b) pairs.*1) = length (filter (λ q, q.1 = b) pairs).
Proof.
  induction pairs as [|q pairs IH]; [done|]. rewrite fmap_cons, !filter_cons.
  destruct (decide (q.1 = b)); simpl; congruence.
Qed.

Lemma delivered_assignable c legal candidates chosen pairs :
  Forall2 delivers chosen pairs → Forall (.∈ LegalBlocks candidates legal c) pairs →
  check_counts 1 (maxBlockers c) chosen = true → assignable c legal pairs.
Proof.
  intros HF Hoff Hcounts. unfold check_counts in Hcounts. rewrite forallb_forall in Hcounts.
  rewrite Forall_forall in Hoff.
  assert (Hsides : ∀ p, p ∈ pairs → (length (filter (λ q, q.1 = p.1) pairs) ≤ 1)%nat ∧
    Z.of_nat (length (filter (λ q, q.2 = p.2) pairs)) ≤ maxBlockers c).
  { intros p [i Hi]%list_elem_of_lookup. destruct (Forall2_lookup_r _ _ _ _ _ HF Hi) as (v & Hv & Hd).
    apply list_elem_of_lookup_2, list_elem_of_In, Hcounts, andb_prop in Hv as [H1 H2].
    rewrite bool_decide_eq_true in H1, H2.
    rewrite (count_same_delivers fst fst chosen pairs v p) in H1; [|intros; by apply delivers_same|done..].
    rewrite (count_same_delivers snd snd chosen pairs v p) in H2; [|intros; by apply delivers_same|done..].
    split; [lia|done]. }
  split.
  - intros p Hp. by apply Hoff, LegalBlocks_allowed in Hp as (? & ? & _).
  - apply twice_NoDup. intros b (p & -> & Hp)%list_elem_of_fmap. destruct (Hsides p Hp) as [H1 _].
    by rewrite filter_keys.
  - intros a. unfold blockers_for. rewrite length_fmap.
    destruct (filter (λ p, p.2 = a) pairs) as [|p l] eqn:Hf; [simpl; unfold maxBlockers; case_decide; lia|].
    assert (p ∈ filter (λ p, p.2 = a) pairs) as [Hpa Hp]%list_elem_of_filter by (rewrite Hf; by left).
    rewrite <-Hf, <-Hpa. by apply Hsides.
Qed.

Lemma accepted_delivers candidates legal c args chosen :
  Forall small_id candidates → Forall (λ a, small_id (at_Attacker a)) (cb_Attacks c) →
  Forall json_pair args →
  ValidateAssignment (BlockRequest candidates legal c) args = inr chosen →
  ∃ pairs, Forall2 delivers chosen pairs ∧ Forall (.∈ LegalBlocks candidates legal c) pairs ∧
    check_counts 1 (maxBlockers c) chosen = true.
Proof.
  intros Hcand Hatt Hargs Hval. unfold ValidateAssignment in Hval. simpl in Hval.
  case_decide; [done|]. destruct args as [|a args]; [injection Hval as <-; exists []; by repeat constructor|].
  destruct (mapM asPair (a :: args)) as [ps|] eqn:Hm; [|done].
  destruct (check_pairs _ _ _) eqn:Hp; [done|]. 
  assert (Hmax : (if decide (maxBlockers c = 0) then 1 else maxBlockers c) = maxBlockers c).
  { unfold maxBlockers. repeat case_decide; lia. }
  rewrite Hmax in Hval. destruct (check_counts 1 (maxBlockers c) ps) eqn:Hc; [|done]. injection Hval as <-.
  apply check_pairs_ok in Hp as [Hoff _]. apply mapM_Some in Hm.
  enough (∃ pairs, Forall2 delivers ps pairs ∧ Forall (.∈ LegalBlocks candidates legal c) pairs)
    as (pairs & ? & ?) by eauto.
  clear Hc. induction Hm as [|v w args' ps Hv _ IH]; [by exists []|].
  apply Forall_cons in Hargs as [(f & g & ->) Hargs]. apply Forall_cons in Hoff as [(q & Hq & Hs) Hoff].
  simpl in Hv. injection Hv as <-. destruct (IH Hargs Hoff) as (pairs & HF & HL).
  unfold ToAssignmentPairs in Hq. apply list_elem_of_fmap in Hq as (p & -> & Hp). exists (p :: pairs).
  pose proof (LegalBlocks_allowed _ _ _ _ Hp) as (_ & _ & Hin & (at' & Hat & Heq)).
  rewrite Forall_forall in Hcand. rewrite Forall_forall in Hatt. split; constructor; try done.
  apply (offered_delivers _ _ f g); [done|by apply Hcand| |done]. rewrite <-Heq. by apply Hatt.
Qed.

(** An answer the request accepts is a declaration the round accepts: if a client
    answers a BlockRequest with JSON numbers and ValidateAssignment lets the answer
    pass, then EntityPairs recovers the ids and DeclareBlocks, with the same legality
    predicate and no further hook, records them. Ids are below 2^53 and blocks have
    not been declared yet. *)
Theorem block_answers_are_declarable candidates legal c args chosen :
  cb_AttacksDeclared c = true → cb_BlocksDeclared c = false →
  Forall small_id candidates → Forall (λ a, small_id (at_Attacker a)) (cb_Attacks c) →
  Forall json_pair args →
  ValidateAssignment (BlockRequest candidates legal c) args = inr chosen →
  ∃ pairs c', EntityPairs chosen = Some pairs ∧
    DeclareBlocks (E:=E) pairs legal None c = Ok c' ∧
    ∀ p, p ∈ pairs → p ∈ LegalBlocks candidates legal c.
Proof.
  intros Hat Hbl Hcand Hatt Hargs Hval.
  assert (Hdel : ∃ pairs, Forall2 delivers chosen pairs ∧
    Forall (.∈ LegalBlocks candidates legal c) pairs ∧
    check_counts 1 (maxBlockers c) chosen = true).
  { by apply (accepted_delivers candidates legal c args). }
  destruct Hdel as (pairs & HF & Hoff & Hcounts).
  pose proof (delivered_assignable c legal candidates chosen pairs HF Hoff Hcounts) as Has.
  exists pairs. unfold DeclareBlocks. rewrite Hat, Hbl. simpl. unfold mbind, outcome_bind.
  destruct (declare_pairs_start c legal pairs) as [(blocks & -> & _)|(e & _ & Hno)]; [|done].
  eexists. split_and!; [|done|by apply Forall_forall].
  unfold EntityPairs. apply mapM_Some. eapply Forall2_impl; [exact HF|]. intros v p Hd.
  apply delivers_id in Hd as [-> ->]. simpl. by destruct p.
Qed.
End declarations.

(** ** A small battle *)
Definition battle : Combat :=
  mkCombat [mkAttack 10 (mkTarget "1" 0); mkAttack 11 (mkTarget "1" 0)] true ∅ false 1.

Lemma DeclareBlocks_records_witness :
  ∃ c', DeclareBlocks (E:=()) [(5, 11)] None None battle = Ok c' ∧ BlockersOf 11 c' = [5].
Proof.
  destruct (DeclareBlocks_records (E:=()) [(5, 11)] None None battle eq_refl) as [Hyes _].
  destruct Hyes as (c' & _ & _ & Hb & Hrun).
  - split_and!; [done..|]. split.
    + intros p ->%list_elem_of_singleton. done.
    + apply NoDup_singleton.
    + intros a. unfold blockers_for. rewrite filter_cons. change (maxBlockers battle) with 1. case_decide; simpl; lia.
  - exists c'. split; [exact Hrun|]. rewrite (proj1 (Hb 11)). reflexivity.
Defined.

Lemma block_answers_are_declarable_witness :
  let answer := [GoSlice [GoFloat "" (float_of_int 5); GoFloat "" (float_of_int 11)]] in
  ∃ pairs c', EntityPairs [(GoFloat "" (float_of_int 5), GoFloat "" (float_of_int 11))] = Some pairs ∧
    DeclareBlocks (E:=()) pairs None None battle = Ok c'.
Proof.
  intros answer.
  destruct (block_answers_are_declarable (E:=()) [5; 6] None battle answer
    [(GoFloat "" (float_of_int 5), GoFloat "" (float_of_int 11))] eq_refl eq_refl) as (pairs & c' & H1 & H2 & _).
  - repeat constructor; lia.
  - repeat constructor; simpl; lia.
  - constructor; [|constructor]. eexists _, _. reflexivity.
  - vm_compute. reflexivity.
  - exists pairs, c'. split; [exact H1|exact H2].
Defined.
