(* ===== verification/Effects.v ===== *)
(** * Modifiers, pending effects, triggers, visibility, queries and deck lists

    [src/modules/ccg]: modifier.go, effect.go, trigger.go, visibility.go,
    targets.go and decklist.go, on the state of Cards. *)

From Stdlib Require Import SpecFloat.
From stdpp Require Import sorting.
From S2P Require Import Prelude Choices Floats Cards CardFacts.
#[local] Open Scope Z_scope.

(** ** modifier.go *)

Definition OpSet : string := "set".
Definition OpAdd : string := "add".
Definition OpMultiply : string := "mul".

(** A type switch: values of defined types do not match. *)
Definition toFloat (v : attr) : option spec_float :=
  match v with
  | AVal (GoInt "" KInt n) | AVal (GoInt "" KInt64 n) => Some (float_of_int n)
  | AVal (GoFloat "" f) | AVal (GoFloat "float32" f) => Some f
  | _ => None
  end.
Definition asInt (v : attr) : option Z :=
  match v with
  | AVal (GoInt "" KInt n) | AVal (GoInt "" KInt64 n) => Some n
  | _ => None
  end.

(** Both operands go through float64; two integers give an integer back. *)
Definition numeric (op : spec_float → spec_float → spec_float) (a b : attr) : attr :=
  match toFloat a, toFloat b with
  | Some af, Some bf =>
      match asInt a, asInt b with
      | Some _, Some _ => AVal (GoInt "" KInt (int_of_float (op af bf)))
      | _, _ => AVal (GoFloat "" (op af bf))
      end
  | _, _ => a
  end.
Definition numericAdd : attr → attr → attr := numeric (SFadd 53 1024).
Definition numericMul : attr → attr → attr := numeric (SFmul 53 1024).

Definition applyOp (cur : attr) (m : Modifier) : attr :=
  if decide (md_Op m = OpSet) then md_Value m
  else if decide (md_Op m = OpAdd) then numericAdd cur (md_Value m)
  else if decide (md_Op m = OpMultiply) then numericMul cur (md_Value m)
  else cur.

(** By layer, then by insertion. *)
Definition applies_before (m m' : Modifier) : Prop :=
  md_Layer m < md_Layer m' ∨ (md_Layer m = md_Layer m' ∧ md_Insertion m ≤ md_Insertion m').
#[global] Instance applies_before_dec m m' : Decision (applies_before m m').
Proof. unfold applies_before. apply _. Defined.

Section modifiers.
Context {H : Type}.
Abbreviation M := (ST (State H) ccg_error).
Implicit Types (s : State H) (id : EntityID).

Definition AddModifier (m : Modifier) : M Z := λ s,
  let i := IDs s in
  let id := NextModID i + 1 in
  let m := mkModifier id (md_Source m) (md_Layer m) (md_Target m) (md_Attribute m) (md_Op m)
             (md_Value m) (md_Note m) (NextInsertion i) (md_ExpiresWith m) (md_WhileIn m) in
  (Ok id, set_Modifiers (<[id := m]> (Modifiers s))
     (set_IDs (mkIDs (NextEntityID i) id (NextInsertion i + 1) (NextSubID i) (NextAbilityID i)
                 (NextEffectID i)) s)).

Definition RemoveModifier (id : Z) : M () := modify (λ s, set_Modifiers (delete id (Modifiers s)) s).

Definition modifierAlive s (m : Modifier) : bool :=
  if decide (md_ExpiresWith m = 0) then true
  else match Entities s !! md_ExpiresWith m with
       | None => false
       | Some e => bool_decide (md_WhileIn m = [] ∨ en_Zone e ∈ md_WhileIn m)
       end.

(** The order Go's map iteration leaves to the sort is the order of insertion, which
    no two modifiers share. *)
Definition modifiersFor id (name : string) s : list Modifier :=
  merge_sort applies_before
    (filter (λ m, md_Target m = id ∧ md_Attribute m = name ∧ modifierAlive s m = true)
       (map_to_list (Modifiers s)).*2).

Definition EffectiveAttr id (name : string) (def : attr) s : attr :=
  let base := match Entities s !! id with
              | Some e => default def (en_Attrs e !! name)
              | None => def
              end in
  foldl applyOp base (modifiersFor id name s).

Definition SweepModifiers : M (list Z) := λ s,
  let removed := merge_sort Z.le
    (filter (λ kv, modifierAlive s kv.2 = false) (map_to_list (Modifiers s))).*1 in
  (Ok removed, set_Modifiers (foldr delete (Modifiers s) removed) s).
End modifiers.

(** ** effect.go and trigger.go *)

Definition EventEffectPushed : string := "effect_pushed".
Definition EventEffectResolving : string := "effect_resolving".
Definition EventEffectResolved : string := "effect_resolved".
Definition EventEffectRemoved : string := "effect_removed".
Definition EventEffectReplaced : string := "effect_replaced".

Definition set_effect_id (id : Z) (eff : Effect) : Effect :=
  mkEffect id (ef_Source eff) (ef_Controller eff) (ef_Kind eff) (ef_Target eff) (ef_Targets eff)
    (ef_Data eff) (ef_Countered eff) (ef_Tag eff).

(** An unknown kind is an [*UnknownEffectKindError]; a resolver has its own errors. *)
Inductive effect_error (E : Type) : Type :=
  | UnknownEffectKindError (kind : string)
  | ResolverError (e : E).
Arguments UnknownEffectKindError {E}.
Arguments ResolverError {E}.

Definition PickFront (pending : list Effect) : Z := if decide (pending = []) then -1 else 0.
Definition PickBack (pending : list Effect) : Z := Z.of_nat (length pending) - 1.

Section effects.
Context {H : Type} (handle : H → Event → State H → option (State H)).
Abbreviation M := (ST (State H) ccg_error).
Implicit Types (s : State H) (eff : Effect).

Definition publishEffectEvent (eventType : string) eff : M () :=
  Publish handle (mkEvent eventType (ef_Source eff) (ef_Target eff)
    {["effect_id" := GoInt "ccg.EffectID" KUint64 (ef_ID eff)]}).

(** The next id, the queue changed by [place], and the event. *)
Definition push_with (place : Effect → list Effect → list Effect) eff : M Z :=
  eff ← (λ s, let i := IDs s in
         let id := NextEffectID i + 1 in
         (Ok (set_effect_id id eff),
          set_IDs (mkIDs (NextEntityID i) (NextModID i) (NextInsertion i) (NextSubID i)
                     (NextAbilityID i) id) s));
  _ ← modify (λ s, set_PendingEffects (place eff (PendingEffects s)) s);
  _ ← publishEffectEvent EventEffectPushed eff;
  mret (ef_ID eff).

Definition PushEffect : Effect → M Z := push_with (λ eff l, l ++ [eff]).
Definition PushEffectFront : Effect → M Z := push_with (λ eff l, eff :: l).
Definition InsertEffectAt (idx : Z) : Effect → M Z :=
  push_with (λ eff l, let i := Z.to_nat idx in take i l ++ eff :: drop i l).

Definition find_effect (id : Z) (l : list Effect) : option nat :=
  find_index (λ e, bool_decide (ef_ID e = id)) l.

Definition FindEffect (id : Z) s : option (Effect * nat) :=
  i ← find_effect id (PendingEffects s); e ← PendingEffects s !! i; Some (e, i).

Definition ReplaceEffect (id : Z) (next : Effect) : M bool :=
  found ← get (FindEffect id);
  match found with
  | None => mret false
  | Some (_, i) =>
      let next := set_effect_id id next in
      _ ← modify (λ s, set_PendingEffects (<[i := next]> (PendingEffects s)) s);
      _ ← publishEffectEvent EventEffectReplaced next;
      mret true
  end.

Definition drop_effect (i : nat) : M () :=
  modify (λ s, set_PendingEffects (remove_at i (PendingEffects s)) s).

Definition RemoveEffect (id : Z) : M bool :=
  found ← get (FindEffect id);
  match found with
  | None => mret false
  | Some (e, i) =>
      _ ← drop_effect i;
      _ ← publishEffectEvent EventEffectRemoved e;
      mret true
  end.

Definition MutateEffect (id : Z) (mutator : Effect → Effect) : M bool :=
  found ← get (FindEffect id);
  match found with
  | None => mret false
  | Some (e, i) =>
      _ ← modify (λ s, set_PendingEffects (<[i := set_effect_id id (mutator e)]> (PendingEffects s)) s);
      mret true
  end.

Definition StageTrigger eff : M () :=
  modify (λ s, set_StagedTriggers (StagedTriggers s ++ [set_effect_id 0 eff]) s).

Definition EffectFrom (source : EntityID) (kind : string) (data : gmap string GoVal) s : Effect :=
  mkEffect 0 source (match Entities s !! source with Some e => EffectiveController e | None => "" end)
    kind 0 [] data false "".

Fixpoint push_all (batch : list Effect) : M (list Z) :=
  match batch with
  | [] => mret []
  | eff :: rest => id ← PushEffect eff; ids ← push_all rest; mret (id :: ids)
  end.

Definition FlushTriggers (reorder : option (list Effect → list Effect)) : M (list Z) :=
  batch ← get StagedTriggers;
  if decide (batch = []) then mret []
  else
    _ ← modify (set_StagedTriggers []);
    push_all (match reorder with Some f => f batch | None => batch end).

(** A computation of the library inside one that may also fail as a resolver does;
    the operations used here never fail themselves. *)
Definition lib {E A} (m : M A) : ST (State H) (effect_error E) A := λ s,
  match m s with
  | (Ok a, s') => (Ok a, s')
  | (Err _, s') | (Panicked, s') => (Panicked, s')
  | (NoFuel, s') => (NoFuel, s')
  end.

Definition run_resolver {E} (resolver : Effect → ST (State H) E ()) eff
  : ST (State H) (effect_error E) () := λ s,
  match resolver eff s with
  | (Ok a, s') => (Ok a, s')
  | (Err e, s') => (Err (ResolverError e), s')
  | (Panicked, s') => (Panicked, s')
  | (NoFuel, s') => (NoFuel, s')
  end.

(** [Some eff] for an effect resolved, [None] where the code returns [(Effect{}, false, nil)]. *)
Definition ResolveNext {E} (pick : list Effect → Z)
    (table : string → option (Effect → ST (State H) E ())) : ST (State H) (effect_error E) (option Effect) :=
  pending ← lib (get PendingEffects);
  match go_index pending (pick pending) with
  | None => mret None
  | Some eff =>
      _ ← lib (publishEffectEvent EventEffectResolving eff);
      found ← lib (get (FindEffect (ef_ID eff)));
      match found with
      | None => mret None
      | Some (current, curIdx) =>
          if ef_Countered current then
            _ ← lib (drop_effect curIdx);
            _ ← lib (publishEffectEvent EventEffectResolved current);
            mret (Some current)
          else
            match table (ef_Kind current) with
            | None => st_err (UnknownEffectKindError (ef_Kind current))
            | Some resolver =>
                _ ← run_resolver resolver current;
                again ← lib (get (FindEffect (ef_ID current)));
                _ ← lib (match again with Some (_, i) => drop_effect i | None => mret tt end);
                _ ← lib (publishEffectEvent EventEffectResolved current);
                mret (Some current)
            end
      end
  end.
End effects.

(** The effects not yet taken, and those one player's turn takes. *)
Fixpoint order_round (player : string) (marked : list (Effect * bool)) : list Effect * list (Effect * bool) :=
  match marked with
  | [] => ([], [])
  | (eff, taken) :: rest =>
      let '(out, rest) := order_round player rest in
      if negb taken && bool_decide (ef_Controller eff = player)
      then (eff :: out, (eff, true) :: rest) else (out, (eff, taken) :: rest)
  end.
Fixpoint order_rounds (playerOrder : list string) (marked : list (Effect * bool)) : list Effect :=
  match playerOrder with
  | [] => (filter (λ et, et.2 = false) marked).*1
  | p :: playerOrder => let '(out, marked) := order_round p marked in out ++ order_rounds playerOrder marked
  end.
Definition OrderByPlayer (effs : list Effect) (playerOrder : list string) : list Effect :=
  order_rounds playerOrder ((λ e, (e, false)) <$> effs).

(** ** visibility.go *)

Section visibility.
Context {H : Type}.
Abbreviation M := (ST (State H) ccg_error).
Implicit Types (s : State H) (e : Entity) (viewer : string).

Definition set_sight (v : Visibility) (revealedTo : list string) (mask : gmap string attr) e : Entity :=
  mkEntity (en_ID e) (en_DefID e) (en_Type e) (en_Owner e) (en_Controller e) (en_Zone e)
    v revealedTo mask (en_Attrs e).

Definition SetVisibility (id : EntityID) (v : Visibility) : M () :=
  with_entity id (λ e, set_sight v (en_RevealedTo e) (en_Mask e) e).
Definition RevealTo (id : EntityID) (viewers : list string) : M () :=
  with_entity id (λ e, set_sight (en_Visibility e)
    (foldl (λ have v, if decide (v ∈ have) then have else have ++ [v]) (en_RevealedTo e) viewers)
    (en_Mask e) e).
Definition ConcealFrom (id : EntityID) viewer : M () :=
  with_entity id (λ e, set_sight (en_Visibility e)
    (match find_index (λ v, bool_decide (v = viewer)) (en_RevealedTo e) with
     | Some i => remove_at i (en_RevealedTo e)
     | None => en_RevealedTo e
     end) (en_Mask e) e).
Definition SetMask (id : EntityID) (mask : gmap string attr) : M () :=
  with_entity id (λ e, set_sight (en_Visibility e) (en_RevealedTo e) mask e).

Definition IsVisibleTo viewer e : bool :=
  bool_decide (viewer ∈ en_RevealedTo e) ||
  match en_Visibility e with
  | OwnerOnly => bool_decide (en_Owner e = viewer)
  | Hidden => false
  | _ => true
  end.

(** [redacted[id]]: ids that are no entity's are not redacted. *)
Definition redacted viewer s (id : EntityID) : bool :=
  match Entities s !! id with Some e => negb (IsVisibleTo viewer e) | None => false end.

Definition redact_entity viewer e : Entity :=
  if IsVisibleTo viewer e then e
  else mkEntity (en_ID e) "" "" "" "" (en_Zone e) (en_Visibility e) [] ∅ (en_Mask e).

Definition redact_modifier viewer s (m : Modifier) : Modifier :=
  if redacted viewer s (md_Source m) || redacted viewer s (md_Target m)
  then mkModifier (md_ID m) 0 (md_Layer m) 0 "" "" (AVal GoNil) "" (md_Insertion m) 0 []
  else mkModifier (md_ID m) (md_Source m) (md_Layer m) (md_Target m) (md_Attribute m) (md_Op m)
         (md_Value m) (md_Note m) (md_Insertion m) 0 [].

Definition event_redacted viewer s (ev : Event) : bool :=
  redacted viewer s (ev_Source ev) || redacted viewer s (ev_Target ev).

(** The view has no subscriptions, abilities, pending effects or staged triggers. *)
Definition RedactForViewer viewer s : State H :=
  mkCards (redact_entity viewer <$> Entities s) (Zones s) (redact_modifier viewer s <$> Modifiers s)
    (filter (λ ev, event_redacted viewer s ev = false) (Events s)) [] []
    (mkIDs (NextEntityID (IDs s)) (NextModID (IDs s)) (NextInsertion (IDs s)) (NextSubID (IDs s)) 0 0)
    [] [].
End visibility.

(** ** targets.go

    A query is its predicates; the ones that read attributes look at the state. *)
Section queries.
Context {H : Type}.
Implicit Types (s : State H) (preds : list (Entity → bool)) (e : Entity).

Definition InZone (name : ZoneName) preds := preds ++ [λ e, bool_decide (en_Zone e = name)].
Definition Controlled (playerID : string) preds :=
  preds ++ [λ e, bool_decide (EffectiveController e = playerID)].
Definition NotControlled (playerID : string) preds :=
  preds ++ [λ e, bool_decide (EffectiveController e ≠ playerID)].
Definition OwnedBy (playerID : string) preds := preds ++ [λ e, bool_decide (en_Owner e = playerID)].
Definition HasType (t : string) preds := preds ++ [λ e, bool_decide (en_Type e = t)].

Definition zero_attr : attr := AVal (GoInt "" KInt 0).
Definition attr_compare (ints : Z → Z → bool) (floats : spec_float → spec_float → bool)
    (v : attr) (bound : Z) : bool :=
  match v with
  | AVal (GoInt "" KInt n) | AVal (GoInt "" KInt64 n) => ints bound n
  | AVal (GoFloat "" f) => floats (float_of_int bound) f
  | _ => false
  end.
Definition AttrAtLeast s (name : string) (min : Z) preds :=
  preds ++ [λ e, attr_compare Z.leb SFleb (EffectiveAttr (en_ID e) name zero_attr s) min].
Definition AttrAtMost s (name : string) (max : Z) preds :=
  preds ++ [λ e, attr_compare Z.geb (λ f g, SFleb g f) (EffectiveAttr (en_ID e) name zero_attr s) max].
Definition Where (pred : Entity → bool) preds := preds ++ [pred].

(** [sortIDs] *)
Fixpoint insert_sorted (v : Z) (l : list Z) : list Z :=
  match l with
  | [] => [v]
  | x :: l' => if decide (x > v) then v :: l else x :: insert_sorted v l'
  end.
Definition sortIDs (ids : list Z) : list Z := foldl (λ sorted v, insert_sorted v sorted) [] ids.

Definition Filter (entities : gmap EntityID Entity) (pred : Entity → bool) : list EntityID :=
  sortIDs (filter (λ kv, pred kv.2 = true) (map_to_list entities)).*1.
Definition Find s preds : list EntityID := Filter (Entities s) (λ e, forallb (λ p, p e) preds).
Definition First s preds : EntityID := match Find s preds with id :: _ => id | [] => 0 end.
Definition Count s preds : Z :=
  Z.of_nat (length (filter (λ kv, forallb (λ p, p kv.2) preds = true) (map_to_list (Entities s)))).
End queries.

(** ** decklist.go *)
Abbreviation DeckList := (gmap string Z).

Inductive deck_error : Type :=
  | ErrDeckListMinSize | ErrDeckListMaxSize | ErrDeckListMaxCopies | ErrDeckListUnknownDef
  | ErrDeckListNegativeCnt.

Definition DeckTotal (d : DeckList) : Z := map_fold (λ _ c n, n + c) 0 d.

Definition sortedKeys (d : DeckList) : list string := merge_sort String.le (map_to_list d).*1.

(** [make([]DefID, 0, d.Total())] panics when the counts add up to less than zero. *)
Definition DeckCards (d : DeckList) : option (list string) :=
  if decide (DeckTotal d < 0) then None
  else Some (sortedKeys d ≫= λ k, replicate (Z.to_nat (default 0 (d !! k))) k).

(** A validator finds a problem or does not; the catalog may be nil. *)
Definition DeckValidator : Type := DeckList → option Catalog → option deck_error.

Definition MinSize (n : Z) : DeckValidator := λ d _,
  if decide (DeckTotal d < n) then Some ErrDeckListMinSize else None.
Definition MaxSize (n : Z) : DeckValidator := λ d _,
  if decide (n < DeckTotal d) then Some ErrDeckListMaxSize else None.
Definition some_key (bad : string → bool) (e : deck_error) (d : DeckList) : option deck_error :=
  if existsb bad (sortedKeys d) then Some e else None.
Definition MaxCopies (n : Z) : DeckValidator := λ d _,
  some_key (λ k, bool_decide (n < default 0 (d !! k))) ErrDeckListMaxCopies d.
Definition RequireDefsExist : DeckValidator := λ d c,
  match c with
  | None => Some ErrDeckListUnknownDef
  | Some c => some_key (λ k, bool_decide ((c : gmap string CardDef) !! k = None)) ErrDeckListUnknownDef d
  end.
Definition NonNegativeCounts : DeckValidator := λ d _,
  some_key (λ k, bool_decide (default 0 (d !! k) ≤ 0)) ErrDeckListNegativeCnt d.
Fixpoint ComposeValidators (vs : list DeckValidator) : DeckValidator := λ d c,
  match vs with
  | [] => None
  | v :: vs => match v d c with Some e => Some e | None => ComposeValidators vs d c end
  end.

Section decks.
Context {H : Type}.
Abbreviation M := (ST (State H) ccg_error).

(** A nil catalog is refused before the list is looked at. *)
Definition LoadDeckList (c : option Catalog) (d : DeckList) (owner : string) (zone : ZoneName)
  : M (list EntityID) :=
  match c with
  | None => st_err ErrUnknownDef
  | Some c => cards ← st_some (DeckCards d); deal_to c owner zone cards
  end.
End decks.
