(* ===== verification/EffectTheorems.v ===== *)
(** * What modifiers, views, triggers and the effect queue promise

    Lemmas and properties of the definitions of Effects. *)

From stdpp Require Import sorting.
From S2P Require Import Prelude Choices Floats Cards CardFacts Effects.
#[local] Open Scope Z_scope.

(** ** Modifiers *)
Section modifiers.
Context {H : Type}.
Implicit Types (s : State H) (m : Modifier).

(** Every modifier carries its id and an insertion stamp of its own. *)
Record stamped s : Prop := {
  stamped_id : ∀ id m, Modifiers s !! id = Some m → md_ID m = id ∧ id ≤ NextModID (IDs s);
  stamped_below : ∀ id m, Modifiers s !! id = Some m → md_Insertion m < NextInsertion (IDs s);
  stamped_once : ∀ id id' m m', Modifiers s !! id = Some m → Modifiers s !! id' = Some m' →
    md_Insertion m = md_Insertion m' → id = id'
}.

#[global] Instance applies_before_trans : Transitive applies_before.
Proof. unfold applies_before. intros m1 m2 m3. lia. Qed.
#[global] Instance applies_before_total : Total applies_before.
Proof. unfold applies_before. intros m1 m2. lia. Qed.

Lemma stamped_subset s s' : Modifiers s' ⊆ Modifiers s → IDs s' = IDs s → stamped s → stamped s'.
Proof.
  intros Hsub HI [Hid Hbelow Honce]. split; rewrite ?HI.
  - intros id m Hm. eapply Hid, lookup_weaken; eauto.
  - intros id m Hm. eapply Hbelow, lookup_weaken; eauto.
  - intros id id' m m' Hm Hm'. apply Honce; eapply lookup_weaken; eauto.
Qed.

Lemma keeps_AddModifier m : keeps stamped (AddModifier (H:=H) m).
Proof.
  intros s [Hid Hbelow Honce]. unfold AddModifier. cbv zeta. cbn [snd].
  set (new := mkModifier _ _ _ _ _ _ _ _ _ _ _). split; simpl.
  - intros id m' [[<- <-]|[Hne Hm']]%lookup_insert_Some; [simpl; lia|]. apply Hid in Hm'. lia.
  - intros id m' [[<- <-]|[Hne Hm']]%lookup_insert_Some; [simpl; lia|]. apply Hbelow in Hm'. lia.
  - intros id id' m1 m2 [[<- <-]|[Hne H1]]%lookup_insert_Some [[<- <-]|[Hne' H2]]%lookup_insert_Some;
      simpl; [done| | |by eauto].
    + apply Hbelow in H2. lia.
    + apply Hbelow in H1. lia.
Qed.

Lemma keeps_RemoveModifier id : keeps stamped (RemoveModifier (H:=H) id).
Proof. intros s Hs. apply (stamped_subset s); [apply delete_subseteq|done..]. Qed.

(** The modifiers that apply, in any order. *)
Definition applying (id : EntityID) (name : string) s : list Modifier :=
  filter (λ m, md_Target m = id ∧ md_Attribute m = name ∧ modifierAlive s m = true)
    (map_to_list (Modifiers s)).*2.

Lemma elem_of_applying id name s m : m ∈ applying id name s ↔
  (md_Target m = id ∧ md_Attribute m = name ∧ modifierAlive s m = true) ∧
  ∃ i, Modifiers s !! i = Some m.
Proof.
  unfold applying. rewrite list_elem_of_filter, list_elem_of_fmap. split.
  - intros (? & [i m'] & -> & Him%elem_of_map_to_list). eauto.
  - intros (? & i & Hi). split; [done|]. exists (i, m). by rewrite elem_of_map_to_list.
Qed.

(** However the map is iterated, sorting gives the same list. *)
Lemma modifiersFor_unique id name s l : stamped s → l ≡ₚ applying id name s →
  merge_sort applies_before l = modifiersFor id name s.
Proof.
  intros Hs Hl. apply (StronglySorted_unique_strong applies_before).
  - intros m1 m2 H1 H2 Hb Hb'. rewrite merge_sort_Permutation, Hl, elem_of_applying in H1.
    unfold modifiersFor in H2. fold (applying id name s) in H2.
    rewrite merge_sort_Permutation, elem_of_applying in H2.
    destruct H1 as [_ [i1 H1]], H2 as [_ [i2 H2]].
    assert (i1 = i2) as -> by (eapply (stamped_once _ Hs); eauto; unfold applies_before in *; lia).
    congruence.
  - apply StronglySorted_merge_sort; apply _.
  - apply StronglySorted_merge_sort; apply _.
  - unfold modifiersFor. fold (applying id name s). by rewrite !merge_sort_Permutation.
Qed.

Definition expired s : list Z :=
  (filter (λ kv, modifierAlive s kv.2 = false) (map_to_list (Modifiers s))).*1.

Lemma elem_of_expired s id : id ∈ expired s ↔ ∃ m, Modifiers s !! id = Some m ∧ modifierAlive s m = false.
Proof.
  unfold expired. rewrite list_elem_of_fmap. split.
  - intros ([i m] & -> & [Hm Him%elem_of_map_to_list]%list_elem_of_filter). eauto.
  - intros (m & Hi & Hm). exists (id, m). by rewrite list_elem_of_filter, elem_of_map_to_list.
Qed.

Lemma lookup_foldr_delete {A} (l : list Z) (mm : gmap Z A) i :
  foldr delete mm l !! i = if decide (i ∈ l) then None else mm !! i.
Proof.
  induction l as [|x l IH]; simpl; [done|]. destruct (decide (i = x)) as [->|Hne].
  - rewrite lookup_delete_eq. by rewrite decide_True by (by left).
  - rewrite lookup_delete_ne, IH by done. destruct (decide (i ∈ l)).
    + rewrite decide_True; [done|by right].
    + rewrite decide_False; [done|]. rewrite elem_of_cons. naive_solver.
Qed.

Lemma swept_lookup s i : Modifiers (SweepModifiers s).2 !! i =
  m ← Modifiers s !! i; if modifierAlive s m then Some m else None.
Proof.
  simpl. rewrite lookup_foldr_delete. fold (expired s).
  destruct (Modifiers s !! i) as [m|] eqn:Hm; simpl; [|by case_decide].
  destruct (modifierAlive s m) eqn:Ha.
  - rewrite decide_False; [done|]. rewrite merge_sort_Permutation, elem_of_expired. intros (m' & Hm' & ?). congruence.
  - rewrite decide_True; [done|]. rewrite merge_sort_Permutation, elem_of_expired. eauto.
Qed.

(** Sweeping expired modifiers only tidies up. No attribute of any entity reads
    differently afterwards; what is left is exactly the modifiers still alive; and the
    ids reported are the expired ones, each once and in ascending order. *)
Theorem SweepModifiers_unobservable s : stamped s →
  let '(result, s') := SweepModifiers s in
  ∃ removed, result = Ok removed ∧
    (∀ id name def, EffectiveAttr id name def s' = EffectiveAttr id name def s) ∧
    (∀ i m, Modifiers s' !! i = Some m ↔ Modifiers s !! i = Some m ∧ modifierAlive s m = true) ∧
    StronglySorted Z.le removed ∧ NoDup removed ∧
    (∀ i, i ∈ removed ↔ ∃ m, Modifiers s !! i = Some m ∧ modifierAlive s m = false).
Proof.
  intros Hs. pose proof (swept_lookup s) as Hsw. destruct (SweepModifiers s) as [result s'] eqn:Hrun.
  pose proof Hrun as [= <- Hs']. fold (expired s). eexists. split; [done|].
  assert (Hmods : ∀ i m, Modifiers s' !! i = Some m ↔ Modifiers s !! i = Some m ∧ modifierAlive s m = true).
  { intros i m. simpl in Hsw. rewrite Hsw. clear. destruct (Modifiers s !! i) as [m'|]; simpl; [|split; [done|by intros [? _]]].
    destruct (modifierAlive s m') eqn:Ha.
    - split; [by intros [= ->]|by intros [? _]].
    - split; [done|]. intros [[= ->] ?]. congruence. }
  assert (Halive : ∀ m, modifierAlive s' m = modifierAlive s m) by (intros m; by subst s').
  split_and!; [|done|..].
  - intros id name def. unfold EffectiveAttr.
    replace (Entities s') with (Entities s) by (by subst s'). f_equal.
    apply modifiersFor_unique; [done|]. fold (applying id name s'). apply NoDup_Permutation.
    + apply NoDup_filter. apply NoDup_fmap_2_strong; [|apply NoDup_map_to_list].
      intros [i1 m1] [i2 m2] H1%elem_of_map_to_list H2%elem_of_map_to_list Heq. simpl in Heq. subst m2.
      apply Hmods in H1 as [H1 _]. apply Hmods in H2 as [H2 _]. f_equal. by eapply (stamped_once _ Hs).
    + apply NoDup_filter. apply NoDup_fmap_2_strong; [|apply NoDup_map_to_list].
      intros [i1 m1] [i2 m2] H1%elem_of_map_to_list H2%elem_of_map_to_list Heq. simpl in Heq. subst m2.
      f_equal. by eapply (stamped_once _ Hs).
    + intros m. fold (applying id name s). rewrite !elem_of_applying. setoid_rewrite Hmods.
      rewrite Halive. clear. naive_solver.
  - apply StronglySorted_merge_sort; apply _.
  - rewrite merge_sort_Permutation. apply NoDup_fmap_2_strong; [|apply NoDup_filter, NoDup_map_to_list].
    intros [i1 m1] [i2 m2] [_ H1%elem_of_map_to_list]%list_elem_of_filter
      [_ H2%elem_of_map_to_list]%list_elem_of_filter Heq. simpl in Heq. congruence.
  - intros i. by rewrite merge_sort_Permutation, elem_of_expired.
Qed.
End modifiers.

(** ** Views *)
Section views.
Context {H : Type}.
Implicit Types (s t : State H) (viewer : string).















End views.

(** The view forgets how long a modifier lasts, so one that has expired applies in
    it: the lord that gave the bonus has left play. *)
Definition lordless : State Empty_set :=
  mkCards {[1 := mkEntity 1 "elf" "creature" "a" "" "field" Public [] ∅ {["power" := AVal (GoInt "" KInt 2)]}]}
    {["field" := mkZone "field" false 0 [1]]}
    {[7 := mkModifier 7 0 0 1 "power" "set" (AVal (GoInt "" KInt 9)) "" 0 40 []]} [] [] [] (mkIDs 40 7 1 0 0 0) [] [].

Lemma view_revives_expired_modifier :
  EffectiveAttr 1 "power" zero_attr lordless = AVal (GoInt "" KInt 2) ∧
  EffectiveAttr 1 "power" zero_attr (RedactForViewer "a" lordless) = AVal (GoInt "" KInt 9).
Proof. split; by vm_compute. Qed.

(** ** Simultaneous triggers *)
Section ordering.
Implicit Types (effs : list Effect) (playerOrder : list string) (marked : list (Effect * bool)).

Lemma order_round_spec player marked : order_round player marked =
  ((filter (λ et, et.2 = false ∧ ef_Controller et.1 = player) marked).*1,
   (λ et, (et.1, et.2 || bool_decide (ef_Controller et.1 = player))) <$> marked).
Proof.
  induction marked as [|[eff taken] rest IH]; [done|]. cbn [order_round]. rewrite IH, filter_cons.
  destruct taken; simpl.
  - done.
  - case_bool_decide; case_decide as Hd; simpl in *; (done || (exfalso; naive_solver)).
Qed.

(** The effects still to be taken when some players have had their turn. *)
Definition marked_for (served : list string) effs : list (Effect * bool) :=
  (λ e, (e, bool_decide (ef_Controller e ∈ served))) <$> effs.

Lemma filter_marked (P : Effect * bool → Prop) (Q : Effect → Prop) `{∀ et, Decision (P et)}
    `{∀ e, Decision (Q e)} served effs :
  (∀ e, P (e, bool_decide (ef_Controller e ∈ served)) ↔ Q e) →
  (filter P (marked_for served effs)).*1 = filter Q effs.
Proof.
  intros HPQ. unfold marked_for. induction effs as [|e effs IH]; [done|].
  rewrite fmap_cons, !filter_cons. specialize (HPQ e).
  destruct (decide (P _)), (decide (Q e)); [|tauto..|done]. rewrite fmap_cons. by f_equal.
Qed.

Lemma order_rounds_spec playerOrder : ∀ served effs, NoDup (playerOrder ++ served) →
  order_rounds playerOrder (marked_for served effs) =
  (playerOrder ≫= λ p, filter (λ e, ef_Controller e = p) effs) ++
  filter (λ e, ef_Controller e ∉ served ∧ ef_Controller e ∉ playerOrder) effs.
Proof.
  induction playerOrder as [|p order IH]; intros served effs Hnd; cbn [order_rounds].
  - simpl. apply filter_marked. intros e. simpl. rewrite bool_decide_eq_false. set_solver.
  - simpl in Hnd. apply NoDup_cons in Hnd as [Hp Hnd]. rewrite order_round_spec.
    assert (Hnext : (λ et, (et.1, et.2 || bool_decide (ef_Controller et.1 = p))) <$> marked_for served effs =
      marked_for (p :: served) effs).
    { unfold marked_for. rewrite <-list_fmap_compose. apply list_fmap_ext. intros _ e _. simpl. f_equal.
      rewrite <-bool_decide_or. apply bool_decide_ext. rewrite elem_of_cons. tauto. }
    rewrite Hnext, IH by (rewrite <-Permutation_middle; by constructor).
    rewrite bind_cons, <-app_assoc. f_equal; [|f_equal].
    + apply filter_marked. intros e. simpl. rewrite bool_decide_eq_false. split; [by intros [_ ?]|].
      intros <-. split; [|done]. intros ?. apply Hp. apply elem_of_app. by right.
    + apply list_filter_iff. intros e. set_solver.
Qed.

(** OrderByPlayer groups simultaneous effects by player: all of the first player's,
    in the order they were staged, then all of the second player's, and so on, and
    last, again as staged, those of nobody in the order. Nothing is lost or added. *)
Theorem OrderByPlayer_groups effs playerOrder : NoDup playerOrder →
  OrderByPlayer effs playerOrder =
    (playerOrder ≫= λ p, filter (λ e, ef_Controller e = p) effs) ++
    filter (λ e, ef_Controller e ∉ playerOrder) effs ∧
  OrderByPlayer effs playerOrder ≡ₚ effs.
Proof.
  intros Hnd. assert (Heq : OrderByPlayer effs playerOrder =
    (playerOrder ≫= λ p, filter (λ e, ef_Controller e = p) effs) ++
    filter (λ e, ef_Controller e ∉ playerOrder) effs).
  { unfold OrderByPlayer.
    replace ((λ e, (e, false)) <$> effs) with (marked_for [] effs).
    - rewrite order_rounds_spec by (by rewrite app_nil_r). f_equal. apply list_filter_iff. set_solver.
    - apply list_fmap_ext. intros _ e _. by rewrite bool_decide_false by set_solver. }
  split; [done|]. rewrite Heq. clear Heq. revert Hnd.
  induction playerOrder as [|p order IH]; intros Hnd; simpl.
  - rewrite filter_id; [done|]. set_solver.
  - apply NoDup_cons in Hnd as [Hp Hnd]. rewrite <-app_assoc. etransitivity; [|exact (IH Hnd)].
    set (mine := filter (λ e, ef_Controller e = p) effs).
    set (rest := filter (λ e, ef_Controller e ∉ order) effs).
    assert (Hrest : rest ≡ₚ mine ++ filter (λ e, ef_Controller e ∉ p :: order) effs).
    { unfold rest, mine. clear IH mine rest. induction effs as [|e effs IH]; [done|].
      rewrite !filter_cons. destruct (decide (ef_Controller e = p)) as [He|He].
      - rewrite decide_True, decide_False by set_solver. simpl. by constructor.
      - destruct (decide (ef_Controller e ∉ order)).
        + rewrite decide_True by set_solver. rewrite IH. apply Permutation_middle.
        + rewrite decide_False by set_solver. done. }
    rewrite Hrest, !app_assoc. f_equiv. apply Permutation_app_comm.
Qed.
End ordering.

(** ** The effect queue *)
Section queue.
Context {H E : Type} (handle : H → Event → State H → option (State H)).
Abbreviation MR := (ST (State H) (effect_error E)).
Implicit Types (s : State H) (eff : Effect).

(** Handlers that neither panic nor touch the pending effects and their ids. *)
Definition queue_of s : list Effect * Z := (PendingEffects s, NextEffectID (IDs s)).
Definition calm : Prop := ∀ h ev s, ∃ s', handle h ev s = Some s' ∧ queue_of s' = queue_of s.

Lemma calm_publish ty eff s : calm →
  ∃ s', publishEffectEvent handle ty eff s = (Ok tt, s') ∧ queue_of s' = queue_of s.
Proof.
  intros Hc. apply Publish_preserves; [done| |done].
  intros aid s0. unfold UnbindAbility, modify. simpl. by destruct (List.find _ _).
Qed.

Lemma queue_pending s s' : queue_of s' = queue_of s → PendingEffects s' = PendingEffects s.
Proof. by intros [= ? _]. Qed.

Lemma push_run eff s : calm →
  ∃ s', PushEffect handle eff s = (Ok (NextEffectID (IDs s) + 1), s') ∧
    queue_of s' = (PendingEffects s ++ [set_effect_id (NextEffectID (IDs s) + 1) eff],
                   NextEffectID (IDs s) + 1).
Proof.
  intros Hc. unfold PushEffect, push_with. rewrite bind_eq. cbv beta iota zeta.
  rewrite bind_eq. unfold modify. cbv beta iota. rewrite bind_eq.
  match goal with |- context [publishEffectEvent handle ?ty ?e ?s1] =>
    destruct (calm_publish ty e s1 Hc) as (s' & -> & Hs') end.
  exists s'. split; [done|]. by rewrite Hs'.
Qed.

(** The staged effects under the ids they get. *)
Definition numbered (n : Z) (batch : list Effect) : list Effect :=
  imap (λ i eff, set_effect_id (n + 1 + Z.of_nat i) eff) batch.

Lemma push_all_run batch : ∀ s, calm →
  ∃ s', push_all handle batch s = (Ok (seqZ (NextEffectID (IDs s) + 1) (Z.of_nat (length batch))), s') ∧
    queue_of s' = (PendingEffects s ++ numbered (NextEffectID (IDs s)) batch,
                   NextEffectID (IDs s) + Z.of_nat (length batch)).
Proof.
  induction batch as [|eff batch IH]; intros s Hc.
  - exists s. split; [done|]. unfold queue_of, numbered. simpl. by rewrite app_nil_r, Z.add_0_r.
  - destruct (push_run eff s Hc) as (s1 & Hrun & [= Hq Hn]). destruct (IH s1 Hc) as (s' & Hrun' & Hq').
    exists s'. split.
    + cbn [push_all]. rewrite bind_eq, Hrun. cbv beta iota. rewrite bind_eq, Hrun'. cbv beta iota.
      rewrite Hn. cbn [length]. rewrite (seqZ_cons (NextEffectID (IDs s) + 1)) by lia.
      by replace (Z.pred (Z.of_nat (S (length batch)))) with (Z.of_nat (length batch)) by lia.
    + rewrite Hq', Hq, Hn. unfold numbered. cbn [imap length]. rewrite <-app_assoc. simpl. f_equal; [|lia].
      f_equal. f_equal; [f_equal; lia|]. apply imap_ext. intros i x _. simpl. f_equal. lia.
Qed.

(** A flush empties the staging buffer onto the queue: the staged effects go to
    its end, in the order the game asks for (in staging order if it does not), under
    consecutive ids that no flush before has used, whatever the handlers of the pushes
    do as long as they leave the queue alone; what they stage waits for the next one. *)
Theorem FlushTriggers_appends reorder s : calm →
  let batch := if decide (StagedTriggers s = []) then [] else
    match reorder with Some f => f (StagedTriggers s) | None => StagedTriggers s end in
  let n := NextEffectID (IDs s) in
  ∃ s', FlushTriggers handle reorder s = (Ok (seqZ (n + 1) (Z.of_nat (length batch))), s') ∧
    PendingEffects s' = PendingEffects s ++ numbered n batch ∧
    NextEffectID (IDs s') = n + Z.of_nat (length batch).
Proof.
  intros Hc batch n. unfold FlushTriggers. rewrite bind_eq. unfold get. cbv beta iota.
  subst batch. destruct (decide (StagedTriggers s = [])) as [Hs|Hs].
  - exists s. simpl. by rewrite app_nil_r, Z.add_0_r.
  - rewrite bind_eq. unfold modify. cbv beta iota.
    match goal with |- context [push_all handle ?batch ?s1] =>
      destruct (push_all_run batch s1 Hc) as (s' & Hrun & [= Hq Hn]) end. eauto.
Qed.

(** Resolve until there is nothing to resolve. *)
Fixpoint drain_effects (fuel : nat) (pick : list Effect → Z)
    (table : string → option (Effect → ST (State H) E ())) : MR (list Effect) :=
  match fuel with
  | O => st_nofuel
  | S fuel =>
      r ← ResolveNext handle pick table;
      match r with
      | None => mret []
      | Some eff => done ← drain_effects fuel pick table; mret (eff :: done)
      end
  end.

(** An effect that is countered, or whose resolver goes through and leaves the queue alone. *)
Definition resolvable (table : string → option (Effect → ST (State H) E ())) eff : Prop :=
  ef_Countered eff = true ∨
  ∃ resolver, table (ef_Kind eff) = Some resolver ∧
    ∀ s, ∃ s', resolver eff s = (Ok tt, s') ∧ PendingEffects s' = PendingEffects s.

Lemma FindEffect_at s i eff : NoDup (ef_ID <$> PendingEffects s) → PendingEffects s !! i = Some eff →
  FindEffect (ef_ID eff) s = Some (eff, i).
Proof.
  intros Hnd Hi. unfold FindEffect, find_effect.
  assert (find_index (λ e, bool_decide (ef_ID e = ef_ID eff)) (PendingEffects s) = Some i) as ->.
  { apply find_index_Some. split; [exists eff; split; [done|by apply bool_decide_true]|].
    intros j e Hj He. apply bool_decide_false. intros Heq.
    assert (j = i); [|lia]. eapply NoDup_lookup; [exact Hnd|rewrite list_lookup_fmap, He; reflexivity|].
    rewrite list_lookup_fmap, Hi. simpl. by f_equal. }
  simpl. by rewrite Hi.
Qed.

Lemma lib_run {A} (m : ST (State H) ccg_error A) s a s' : m s = (Ok a, s') → lib (E:=E) m s = (Ok a, s').
Proof. intros Hm. unfold lib. by rewrite Hm. Qed.

Lemma ResolveNext_run pick table s i eff : calm → NoDup (ef_ID <$> PendingEffects s) →
  go_index (PendingEffects s) (pick (PendingEffects s)) = Some eff → PendingEffects s !! i = Some eff →
  resolvable table eff →
  ∃ s', ResolveNext handle pick table s = (Ok (Some eff), s') ∧
    PendingEffects s' = remove_at i (PendingEffects s).
Proof.
  intros Hc Hnd Hpick Hi Hres. unfold ResolveNext. rewrite bind_eq.
  rewrite (lib_run _ s (PendingEffects s) s) by done. cbv beta iota. rewrite Hpick.
  destruct (calm_publish EventEffectResolving eff s Hc) as (s1 & Hp1 & Hq1%queue_pending).
  rewrite bind_eq, (lib_run _ _ _ _ Hp1). cbv beta iota. rewrite bind_eq.
  rewrite (lib_run _ s1 (Some (eff, i)) s1) by (unfold get; by rewrite (FindEffect_at s1 i eff) by (by rewrite Hq1)).
  cbv beta iota.
  assert (Hlast : ∀ s2, PendingEffects s2 = PendingEffects s → ∃ s',
    (_ ← lib (E:=E) (drop_effect i); _ ← lib (publishEffectEvent handle EventEffectResolved eff);
     mret (Some eff)) s2 = (Ok (Some eff), s') ∧ PendingEffects s' = remove_at i (PendingEffects s)).
  { intros s2 Hq2. rewrite bind_eq, (lib_run _ s2 tt (set_PendingEffects (remove_at i (PendingEffects s2)) s2)) by done.
    cbv beta iota. rewrite bind_eq.
    match goal with |- context [lib _ ?s3] =>
      destruct (calm_publish EventEffectResolved eff s3 Hc) as (s4 & Hp4 & Hq4%queue_pending) end.
    rewrite (lib_run _ _ _ _ Hp4). exists s4. split; [done|]. by rewrite Hq4, <-Hq2. }
  destruct Hres as [->|(resolver & Htable & Hrun)]; [by apply Hlast|].
  destruct (ef_Countered eff); [by apply Hlast|]. rewrite Htable.
  destruct (Hrun s1) as (s2 & Hr2 & Hq2). rewrite bind_eq. unfold run_resolver at 1. rewrite Hr2.
  cbv beta iota. rewrite bind_eq.
  rewrite (lib_run _ s2 (Some (eff, i)) s2)
    by (unfold get; by rewrite (FindEffect_at s2 i eff) by (by rewrite Hq2, Hq1)).
  cbv beta iota. apply Hlast. congruence.
Qed.

Lemma ResolveNext_empty pick table s : PendingEffects s = [] →
  ResolveNext (E:=E) handle pick table s = (Ok None, s).
Proof.
  intros Hs. unfold ResolveNext. rewrite bind_eq, (lib_run _ s (PendingEffects s) s) by done.
  cbv beta iota. rewrite Hs. unfold go_index. by case_decide.
Qed.

Lemma remove_at_snoc (l : list Effect) x : remove_at (length l) (l ++ [x]) = l.
Proof. unfold remove_at. rewrite take_app_length, drop_ge, app_nil_r; [done|]. rewrite length_app. simpl. lia. Qed.

Lemma drain_back table l : ∀ s, calm → PendingEffects s = l → NoDup (ef_ID <$> l) →
  Forall (resolvable table) l →
  ∃ s', drain_effects (S (length l)) PickBack table s = (Ok (reverse l), s') ∧ PendingEffects s' = [].
Proof.
  induction l as [|x l IH] using rev_ind; intros s Hc Hs Hnd Hres.
  - exists s. cbn [drain_effects length]. rewrite bind_eq, ResolveNext_empty by done. done.
  - apply Forall_app in Hres as [Hres Hx]. rewrite fmap_app in Hnd.
    destruct (ResolveNext_run PickBack table s (length l) x) as (s1 & Hrun & Hq).
    + done.
    + by rewrite Hs, fmap_app.
    + rewrite Hs. apply go_index_Some. unfold PickBack. rewrite length_app. simpl.
      split; [lia|]. rewrite lookup_app_r by lia. by replace (_ - _)%nat with 0%nat by lia.
    + rewrite Hs, lookup_app_r, Nat.sub_diag by lia. done.
    + by apply Forall_cons in Hx as [? _].
    + rewrite Hs, remove_at_snoc in Hq.
      destruct (IH s1) as (s' & Hdrain & Hempty); [done..| |done|].
      { by apply NoDup_app in Hnd as [? _]. }
      exists s'. split; [|done]. rewrite length_app, reverse_app. simpl length. rewrite Nat.add_1_r.
      cbn [drain_effects]. rewrite bind_eq, Hrun. cbv beta iota. rewrite bind_eq.
      cbn [drain_effects] in Hdrain. by rewrite Hdrain.
Qed.

Lemma drain_front table l : ∀ s, calm → PendingEffects s = l → NoDup (ef_ID <$> l) →
  Forall (resolvable table) l →
  ∃ s', drain_effects (S (length l)) PickFront table s = (Ok l, s') ∧ PendingEffects s' = [].
Proof.
  induction l as [|x l IH]; intros s Hc Hs Hnd Hres.
  - exists s. cbn [drain_effects length]. rewrite bind_eq, ResolveNext_empty by done. done.
  - apply Forall_cons in Hres as [Hx Hres]. apply NoDup_cons in Hnd as [Hxl Hnd].
    destruct (ResolveNext_run PickFront table s 0 x) as (s1 & Hrun & Hq).
    + done.
    + rewrite Hs, fmap_cons. by apply NoDup_cons.
    + rewrite Hs. done.
    + by rewrite Hs.
    + done.
    + rewrite Hs in Hq. unfold remove_at in Hq. simpl in Hq. rewrite drop_0 in Hq.
      destruct (IH s1) as (s' & Hdrain & Hempty); [done..|].
      exists s'. split; [|done]. cbn [length]. cbn [drain_effects]. rewrite bind_eq, Hrun. cbv beta iota.
      rewrite bind_eq. cbn [drain_effects length] in Hdrain. by rewrite Hdrain.
Qed.

(** The pending effects are a stack under PickBack and a queue under PickFront:
    when nobody interferes and every kind has a working resolver, resolving until
    nothing is pending resolves each effect exactly once, the last pushed first with
    PickBack and the first pushed first with PickFront, and then stops. *)
Theorem queue_drains_in_order table s : calm → NoDup (ef_ID <$> PendingEffects s) →
  Forall (resolvable table) (PendingEffects s) →
  let n := S (length (PendingEffects s)) in
  (∃ s', drain_effects n PickBack table s = (Ok (reverse (PendingEffects s)), s') ∧ PendingEffects s' = []) ∧
  (∃ s', drain_effects n PickFront table s = (Ok (PendingEffects s), s') ∧ PendingEffects s' = []).
Proof. intros Hc Hnd Hres. split; [by apply drain_back|by apply drain_front]. Qed.
End queue.

(** ** Decks *)
Section decks.
Context {H : Type}.
Implicit Types (s : State H) (d : DeckList) (c : Catalog).

(** A card fresh from the catalog. *)
Definition dealt_card (id : EntityID) (def : CardDef) (owner : string) (zone : ZoneName) : Entity :=
  mkEntity id (cd_ID def) (cd_Type def) owner "" zone Public [] ∅ (cd_BaseAttrs def).

Definition has_room (z : Zone) (n : nat) : Prop :=
  zn_Capacity z ≤ 0 ∨ Z.of_nat (length (zn_Members z) + n) ≤ zn_Capacity z.

Lemma deal_one_run c player zone name def s z : c !! name = Some def → Zones s !! zone = Some z →
  has_room z 1 →
  let id := NextEntityID (IDs s) + 1 in
  ∃ s', deal_one c player zone name s = (Ok id, s') ∧
    Zones s' = <[zone := set_Members (zn_Members z ++ [id]) z]> (Zones s) ∧
    NextEntityID (IDs s') = id ∧
    Entities s' = <[id := dealt_card id def player zone]> (Entities s).
Proof.
  intros Hdef Hz Hroom id. unfold deal_one, Instantiate. rewrite Hdef, bind_eq. unfold mint at 1. cbv zeta beta iota.
  rewrite bind_eq. unfold Add. rewrite bind_eq. unfold the_zone. simpl. rewrite Hz. rewrite bind_eq.
  unfold the_entity. simpl. rewrite lookup_insert_eq, bind_eq.
  assert (full z = false) as -> by (apply bool_decide_false; unfold has_room in Hroom; lia).
  eexists. split; [done|]. simpl. split_and!; [done..|]. by rewrite insert_insert_eq.
Qed.

Lemma deal_to_run c player zone cards : ∀ s z, Forall (λ name, is_Some (c !! name)) cards →
  Zones s !! zone = Some z → has_room z (length cards) →
  let n := NextEntityID (IDs s) in
  let ids := seqZ (n + 1) (Z.of_nat (length cards)) in
  ∃ s', deal_to c player zone cards s = (Ok ids, s') ∧
    Zones s' = <[zone := set_Members (zn_Members z ++ ids) z]> (Zones s) ∧
    (∀ i name def, cards !! i = Some name → c !! name = Some def →
      Entities s' !! (n + 1 + Z.of_nat i) = Some (dealt_card (n + 1 + Z.of_nat i) def player zone)) ∧
    (∀ id, id ≤ n → Entities s' !! id = Entities s !! id).
Proof.
  induction cards as [|name cards IH]; intros s z Hdefs Hz Hroom n ids.
  - exists s. split_and!; [done| |intros i ? ? Hi; by rewrite lookup_nil in Hi|done].
    unfold ids. simpl. rewrite app_nil_r. symmetry. apply insert_id. rewrite Hz. by destruct z.
  - apply Forall_cons in Hdefs as [[def Hdef] Hdefs].
    destruct (deal_one_run c player zone name def s z) as (s1 & Hrun & HZ & HN & HE); [done..| |].
    { destruct Hroom as [?|Hroom]; [by left|right]. simpl in Hroom. lia. }
    fold n in Hrun, HZ, HN, HE.
    destruct (IH s1 (set_Members (zn_Members z ++ [n + 1]) z)) as (s' & Hrun' & HZ' & Hcards & Hold); [done| | |].
    { rewrite HZ. apply lookup_insert_eq. }
    { destruct Hroom as [?|Hroom]; [by left|right]. unfold set_Members. simpl in *. rewrite length_app. simpl. lia. }
    rewrite HN in *. assert (Hids : ids = (n + 1) :: seqZ (n + 1 + 1) (Z.of_nat (length cards))).
    { unfold ids. cbn [length]. rewrite seqZ_cons by lia. f_equal. f_equal; lia. }
    exists s'. rewrite Hids. split_and!.
    + cbn [deal_to]. rewrite bind_eq, Hrun. cbv beta iota. by rewrite bind_eq, Hrun'.
    + rewrite HZ', HZ, insert_insert_eq. unfold set_Members. simpl. by rewrite <-app_assoc.
    + intros [|i] name' def' Hi Hdef'; simpl in Hi.
      * simplify_eq. rewrite Z.add_0_r, Hold, HE by lia. apply lookup_insert_eq.
      * replace (n + 1 + Z.of_nat (S i)) with (n + 1 + 1 + Z.of_nat i) by lia. by apply Hcards with name'.
    + intros id Hid. rewrite Hold, HE by lia. apply lookup_insert_ne. lia.
Qed.

Lemma elem_of_sortedKeys d k : k ∈ sortedKeys d ↔ is_Some (d !! k).
Proof.
  unfold sortedKeys. rewrite merge_sort_Permutation, list_elem_of_fmap. split.
  - intros ([k' n] & -> & Hk%elem_of_map_to_list). by eexists.
  - intros [n Hn]. exists (k, n). by rewrite elem_of_map_to_list.
Qed.

Lemma NoDup_sortedKeys d : NoDup (sortedKeys d).
Proof. unfold sortedKeys. rewrite merge_sort_Permutation. apply NoDup_fst_map_to_list. Qed.

(** How many copies of a card a list of cards has. *)
Definition copies (k : string) (cards : list string) : Z := Z.of_nat (length (filter (.= k) cards)).

Lemma copies_app k l l' : copies k (l ++ l') = copies k l + copies k l'.
Proof. unfold copies. rewrite filter_app, length_app. lia. Qed.

Lemma copies_replicate k k' n : copies k (replicate n k') = if decide (k = k') then Z.of_nat n else 0.
Proof.
  unfold copies. induction n as [|n IH]; simpl; [by case_decide|]. rewrite filter_cons.
  destruct (decide (k = k')) as [->|Hne].
  - rewrite decide_True by done. simpl. lia.
  - rewrite decide_False by done. done.
Qed.

Lemma copies_bind (f : string → nat) k keys : NoDup keys →
  copies k (keys ≫= λ k', replicate (f k') k') = if decide (k ∈ keys) then Z.of_nat (f k) else 0.
Proof.
  induction keys as [|k' keys IH]; intros Hnd; [done|]. apply NoDup_cons in Hnd as [Hk' Hnd].
  rewrite bind_cons, copies_app, copies_replicate, IH by done.
  destruct (decide (k = k')) as [->|Hne].
  - rewrite (decide_False (P := k' ∈ keys)), decide_True by (done || by left). lia.
  - destruct (decide (k ∈ keys)), (decide (k ∈ k' :: keys)) as [Hin|Hin]; rewrite elem_of_cons in Hin; tauto || lia.
Qed.

Lemma sorted_bind (f : string → nat) keys : StronglySorted String.le keys →
  StronglySorted String.le (keys ≫= λ k, replicate (f k) k).
Proof.
  induction 1 as [|k keys Hs IH Hk]; [constructor|]. rewrite bind_cons. apply StronglySorted_app. split_and!; [| |done].
  - intros x y Hx Hy. apply elem_of_replicate in Hx as [-> _].
    apply list_elem_of_bind in Hy as (k' & Hy & Hk'). apply elem_of_replicate in Hy as [-> _].
    rewrite Forall_forall in Hk. by apply Hk.
  - induction (f k) as [|n IHn]; simpl; constructor; [done|]. apply Forall_replicate. reflexivity.
Qed.

(** Loading a deck list whose counts do not add up to less than zero, from a
    catalog that has every card it counts, into a zone with room, mints one card per
    copy: in order of definition, [max 0 n] copies of a definition counted [n] times,
    under fresh consecutive ids, each a copy of its definition at the end of the zone,
    and nothing else changes. *)
Theorem LoadDeckList_loads c d owner zone s z : 0 ≤ DeckTotal d →
  (∀ k n, d !! k = Some n → 0 < n → is_Some (c !! k)) → Zones s !! zone = Some z →
  ∃ cards, DeckCards d = Some cards ∧ StronglySorted String.le cards ∧
    (∀ k, copies k cards = Z.max 0 (default 0 (d !! k))) ∧
    (has_room z (length cards) →
     let n := NextEntityID (IDs s) in
     let ids := seqZ (n + 1) (Z.of_nat (length cards)) in
     ∃ s', LoadDeckList (Some c) d owner zone s = (Ok ids, s') ∧
       Zones s' = <[zone := set_Members (zn_Members z ++ ids) z]> (Zones s) ∧
       (∀ i name def, cards !! i = Some name → c !! name = Some def →
         Entities s' !! (n + 1 + Z.of_nat i) = Some (dealt_card (n + 1 + Z.of_nat i) def owner zone)) ∧
       (∀ id, id ≤ n → Entities s' !! id = Entities s !! id)).
Proof.
  intros Htotal Hdefs Hz. unfold DeckCards. rewrite decide_False by lia. eexists. split; [done|].
  set (cards := _ ≫= _). assert (Hcopies : ∀ k, copies k cards = Z.max 0 (default 0 (d !! k))).
  { intros k. unfold cards. rewrite (copies_bind (λ k, Z.to_nat (default 0 (d !! k)))) by apply NoDup_sortedKeys.
    case_decide as Hk; [lia|]. rewrite elem_of_sortedKeys, <-eq_None_not_Some in Hk. by rewrite Hk. }
  split_and!; [|done|].
  - apply sorted_bind, StronglySorted_merge_sort; apply _.
  - intros Hroom. unfold LoadDeckList, DeckCards. rewrite decide_False by lia. rewrite bind_eq. fold cards.
    apply deal_to_run; [|done..]. apply Forall_forall. intros k Hk.
    apply list_elem_of_bind in Hk as (k' & Hk & Hin). apply elem_of_replicate in Hk as [-> Hn].
    apply elem_of_sortedKeys in Hin as [n Hn']. rewrite Hn' in Hn. simpl in Hn. eapply Hdefs; [done|lia].
Qed.
End decks.

(** ** A small table *)
Definition no_handlers : Empty_set → Event → State Empty_set → option (State Empty_set) := λ h, match h with end.

Lemma no_handlers_calm : calm no_handlers.
Proof. by intros []. Qed.

(** Two players, a card in each hand, one lasting and one expired bonus. *)
Definition card (id : EntityID) (def owner : string) : Entity :=
  mkEntity id def "creature" owner "" owner OwnerOnly [] {["back" := AVal (GoString "blue")]}
    {["power" := AVal (GoInt "" KInt 2)]}.
Definition bonus (id insertion expires : Z) : Modifier :=
  mkModifier id 0 0 1 "power" "add" (AVal (GoInt "" KInt 1)) "" insertion expires [].
Definition spell (id : Z) (controller kind : string) : Effect := mkEffect id 0 controller kind 0 [] ∅ false "".
Definition duel (secret : string) : State Empty_set :=
  mkCards {[1 := card 1 "elf" "a"; 2 := card 2 secret "b"]}
    {["a" := mkZone "a" false 0 [1]; "b" := mkZone "b" false 0 [2]; "deck" := mkZone "deck" true 3 []]}
    {[1 := bonus 1 0 2; 2 := bonus 2 1 9]}
    [mkEvent "drawn" 1 0 ∅; mkEvent secret 2 0 ∅] [spell 1 "a" "draw"; spell 2 "b" "burn"]
    [spell 0 "b" "draw"; spell 0 "a" "draw"; spell 0 "b" "burn"] (mkIDs 2 2 2 0 0 2) [] [].
Definition stub_resolver (eff : Effect) : ST (State Empty_set) () () := mret tt.

Lemma SweepModifiers_unobservable_witness :
  ∃ s', SweepModifiers (duel "orc") = (Ok [2], s') ∧
    EffectiveAttr 1 "power" zero_attr (duel "orc") = AVal (GoInt "" KInt 3) ∧
    EffectiveAttr 1 "power" zero_attr s' = EffectiveAttr 1 "power" zero_attr (duel "orc").
Proof.
  eexists. split; [vm_compute; reflexivity|]. split; [by vm_compute|].
  assert (Hs : stamped (duel "orc")).
  { assert (Hlook : ∀ id m, Modifiers (duel "orc") !! id = Some m →
      (id = 1 ∧ m = bonus 1 0 2) ∨ (id = 2 ∧ m = bonus 2 1 9)).
    { intros id m. simpl. rewrite lookup_insert_Some, lookup_singleton_Some.
      intros [[<- <-]|[_ [<- <-]]]; [by left|by right]. }
    split.
    - intros id m [[-> ->]|[-> ->]]%Hlook; simpl; lia.
    - intros id m [[-> ->]|[-> ->]]%Hlook; simpl; lia.
    - intros id id' m m' [[-> ->]|[-> ->]]%Hlook [[-> ->]|[-> ->]]%Hlook; simpl; intros; lia. }
  destruct (SweepModifiers_unobservable (duel "orc") Hs) as (removed & _ & Hattr & _).
  apply Hattr.
Defined.


Lemma OrderByPlayer_groups_witness :
  let staged := StagedTriggers (duel "orc") in
  OrderByPlayer staged ["a"; "c"] = [spell 0 "a" "draw"; spell 0 "b" "draw"; spell 0 "b" "burn"] ∧
  OrderByPlayer staged ["a"; "c"] ≡ₚ staged.
Proof.
  split; [by vm_compute|]. apply (OrderByPlayer_groups (StagedTriggers (duel "orc")) ["a"; "c"]).
  apply (bool_decide_unpack _). by vm_compute.
Defined.

Lemma FlushTriggers_appends_witness :
  ∃ s', FlushTriggers no_handlers (Some (λ l, OrderByPlayer l ["a"; "b"])) (duel "orc") = (Ok [3; 4; 5], s') ∧
    PendingEffects s' = [spell 1 "a" "draw"; spell 2 "b" "burn"; spell 3 "a" "draw"; spell 4 "b" "draw";
                         spell 5 "b" "burn"].
Proof.
  destruct (FlushTriggers_appends no_handlers (Some (λ l, OrderByPlayer l ["a"; "b"])) (duel "orc")
    no_handlers_calm) as (s' & Hrun & Hq & _).
  exists s'. split; [exact Hrun|exact Hq].
Defined.

Lemma queue_drains_in_order_witness :
  ∃ s', drain_effects no_handlers 3 PickBack (λ _, Some stub_resolver) (duel "orc") =
    (Ok [spell 2 "b" "burn"; spell 1 "a" "draw"], s') ∧ PendingEffects s' = [].
Proof.
  apply (queue_drains_in_order no_handlers (λ _, Some stub_resolver) (duel "orc") no_handlers_calm).
  - apply (bool_decide_unpack _). by vm_compute.
  - apply Forall_forall. intros eff _. right. eexists. split; [done|]. intros s. by exists s.
Defined.

Definition elf_def : CardDef := mkDef "elf" "creature" ∅.
Lemma LoadDeckList_loads_witness :
  ∃ s', LoadDeckList (Some {["elf" := elf_def]}) {["elf" := 2; "ghost" := -1]} "a" "deck" (duel "orc") =
    (Ok [3; 4], s') ∧ Entities s' !! 4 = Some (dealt_card 4 elf_def "a" "deck").
Proof.
  destruct (LoadDeckList_loads {["elf" := elf_def]} {["elf" := 2; "ghost" := -1]} "a" "deck" (duel "orc")
    (mkZone "deck" true 3 [])) as (cards & Hcards & _ & _ & Hload).
  - by vm_compute.
  - intros k n. rewrite lookup_insert_Some, lookup_singleton_Some. intros [[<- <-]|[_ [<- <-]]]; [eauto|lia].
  - done.
  - assert (cards = ["elf"; "elf"]) as -> by (vm_compute in Hcards; congruence).
    destruct Hload as (s' & Hrun & _ & Hents & _); [right; simpl; lia|].
    exists s'. split; [exact Hrun|]. by apply (Hents 1%nat "elf").
Defined.
