(* ===== verification/Tabletop.v ===== *)
(** * Tabletop: boards, units and terrain on a grid, dice pools

    [src/modules/tabletop]: pos.go, board.go, square.go, hex.go, state.go, terrain.go
    and combat.go.  A board is an interface with two implementations. *)

From Stdlib Require Import SpecFloat.
From stdpp Require Import sorting.
From S2P Require Import Prelude Random Choices Cards Floats.
#[local] Open Scope Z_scope.

(** ** pos.go and board.go *)
Record Pos := mkPos { pX : Z; pY : Z }.
#[export] Instance Pos_eq_dec : EqDecision Pos.
Proof. solve_decision. Defined.
#[export] Instance Pos_countable : Countable Pos.
Proof.
  refine (inj_countable' (λ p, (pX p, pY p)) (λ xy, mkPos xy.1 xy.2) _). by intros [].
Defined.

(** The interface; a [Line] that is [None] never returns. *)
Class Board (B : Type) := {
  InBounds : B → Pos → bool;
  Distance : B → Pos → Pos → Z;
  Neighbors : B → Pos → list Pos;
  Line : B → Pos → Pos → option (list Pos)
}.

Definition LineOfSight `{Board B} (b : B) (from target : Pos) (blocks : option (Pos → bool)) : option bool :=
  match blocks with
  | None => Some true
  | Some blocks =>
      line ← Line b from target;
      if decide (length line ≤ 2)%nat then Some true
      else Some (forallb (λ p, negb (blocks p)) (take (length line - 2) (drop 1 line)))
  end.

Definition offset_cells (inb : Pos → bool) (offsets : list (Z * Z)) (p : Pos) : list Pos :=
  filter (λ n, inb n = true) ((λ '(x, y), mkPos (pX p + x) (pY p + y)) <$> offsets).

(** ** square.go *)
Record SquareBoard := mkSquare { sq_Width : Z; sq_Height : Z }.

Definition NewSquareBoard (w h : Z) : SquareBoard :=
  mkSquare (if decide (w < 1) then 1 else w) (if decide (h < 1) then 1 else h).

Definition Square_InBounds (b : SquareBoard) (p : Pos) : bool :=
  bool_decide (0 ≤ pX p ∧ pX p < sq_Width b ∧ 0 ≤ pY p ∧ pY p < sq_Height b).

Definition Square_Distance (a c : Pos) : Z :=
  let dx := Z.abs (pX a - pX c) in
  let dy := Z.abs (pY a - pY c) in
  if decide (dx > dy) then dx else dy.

Definition square_offsets : list (Z * Z) :=
  [(0, -1); (1, -1); (1, 0); (1, 1); (0, 1); (-1, 1); (-1, 0); (-1, -1)].

(** One round of the loop of [Line]. *)
Definition line_step (dx dy sx sy : Z) (st : Z * Z * Z) : Z * Z * Z :=
  let '(x, y, err) := st in
  let e2 := 2 * err in
  let '(x, err) := if decide (e2 > - dy) then (x + sx, err - dy) else (x, err) in
  let '(y, err) := if decide (e2 < dx) then (y + sy, err + dx) else (y, err) in
  (x, y, err).

(** The cells the loop appends. *)
Fixpoint trace (fuel : nat) (dx dy sx sy : Z) (st : Z * Z * Z) (target : Pos) : option (list Pos) :=
  let '(x, y, _) := st in
  if decide (x = pX target ∧ y = pY target) then Some []
  else match fuel with
       | O => None
       | S fuel =>
           let st := line_step dx dy sx sy st in
           let p := mkPos st.1.1 st.1.2 in
           (p ::.) <$> trace fuel dx dy sx sy st target
       end.

Definition step_sign (from to : Z) : Z :=
  if decide (to ≤ from) then (if decide (from = to) then 0 else -1) else 1.

(** As many rounds as the distance, which is enough: see [Square_Line_run]. *)
Definition Square_Line (a target : Pos) : option (list Pos) :=
  let dx := Z.abs (pX target - pX a) in
  let dy := Z.abs (pY target - pY a) in
  (a ::.) <$> trace (Z.to_nat (Square_Distance a target)) dx dy
    (step_sign (pX a) (pX target)) (step_sign (pY a) (pY target)) (pX a, pY a, dx - dy) target.

#[export] Instance Square_Board : Board SquareBoard := {
  InBounds := Square_InBounds;
  Distance _ := Square_Distance;
  Neighbors b := offset_cells (Square_InBounds b) square_offsets;
  Line _ := Square_Line
}.

(** ** hex.go *)
Record HexBoard := mkHex { hx_Width : Z; hx_Height : Z }.

Definition NewHexBoard (w h : Z) : HexBoard :=
  mkHex (if decide (w < 1) then 1 else w) (if decide (h < 1) then 1 else h).

Definition Hex_InBounds (b : HexBoard) (p : Pos) : bool :=
  bool_decide (0 ≤ pX p ∧ pX p < hx_Width b ∧ 0 ≤ pY p ∧ pY p < hx_Height b).

Definition Hex_Distance (a c : Pos) : Z :=
  let dq := Z.abs (pX a - pX c) in
  let dr := Z.abs (pY a - pY c) in
  let ds := Z.abs ((pX a - pX c) + (pY a - pY c)) in
  Z.quot (dq + dr + ds) 2.

Definition hexOffsets : list (Z * Z) := [(1, 0); (1, -1); (0, -1); (-1, 0); (-1, 1); (0, 1)].

(** [int(math.Round(x))]: to the nearest, halves away from zero. *)
Definition round_to_int (f : spec_float) : Z :=
  match f with
  | S754_finite sign m e =>
      let n := if decide (0 ≤ e) then Z.shiftl (Zpos m) e
               else Z.shiftr (Zpos m + Z.shiftl 1 (- e - 1)) (- e) in
      let n := if sign : bool then - n else n in
      if decide (- 2 ^ 63 ≤ n < 2 ^ 63) then n else - 2 ^ 63
  | S754_zero _ => 0
  | _ => - 2 ^ 63
  end.

(** float64 arithmetic, each operation rounded by itself. *)
Definition cubeRound (x y z : spec_float) : Z * Z * Z :=
  let rx := round_to_int x in
  let ry := round_to_int y in
  let rz := round_to_int z in
  let dx := SFabs (fsub (float_of_int rx) x) in
  let dy := SFabs (fsub (float_of_int ry) y) in
  let dz := SFabs (fsub (float_of_int rz) z) in
  if SFltb dy dx && SFltb dz dx then (- ry - rz, ry, rz)
  else if SFltb dz dy then (rx, - rx - rz, rz)
  else (rx, ry, - rx - ry).

Definition lerp_cell (a target : Pos) (n i : Z) : Pos :=
  let ax := float_of_int (pX a) in
  let az := float_of_int (pY a) in
  let ay := fsub (SFopp ax) az in
  let tx := float_of_int (pX target) in
  let tz := float_of_int (pY target) in
  let ty := fsub (SFopp tx) tz in
  let t := fdiv (float_of_int i) (float_of_int n) in
  let '(rx, _, rz) := cubeRound (fadd ax (fmul (fsub tx ax) t)) (fadd ay (fmul (fsub ty ay) t))
                        (fadd az (fmul (fsub tz az) t)) in
  mkPos rx rz.

(** The first and the last cell are set to the end points. *)
Definition Hex_Line (a target : Pos) : option (list Pos) :=
  let n := Hex_Distance a target in
  if decide (n = 0) then Some [a]
  else
    let cells := lerp_cell a target n <$> seqZ 0 (n + 1) in
    Some (<[(length cells - 1)%nat := target]> (<[0%nat := a]> cells)).

#[export] Instance Hex_Board : Board HexBoard := {
  InBounds := Hex_InBounds;
  Distance _ := Hex_Distance;
  Neighbors b := offset_cells (Hex_InBounds b) hexOffsets;
  Line _ := Hex_Line
}.

(** board.go: the wire form, and the implementations it tells apart. *)
Inductive board : Type := BSquare (b : SquareBoard) | BHex (b : HexBoard).
Definition MarshalBoard (b : board) : string * Z * Z :=
  match b with
  | BSquare b => ("square", sq_Width b, sq_Height b)
  | BHex b => ("hex", hx_Width b, hx_Height b)
  end.
Definition UnmarshalBoard (w : string * Z * Z) : option board :=
  let '(kind, w, h) := w in
  if decide (kind = "square") then Some (BSquare (NewSquareBoard w h))
  else if decide (kind = "hex") then Some (BHex (NewHexBoard w h))
  else None.

(** ** state.go

    The index from cells to units is built lazily; [None] is a nil map. *)
Abbreviation UnitID := Z.

Record TState := mkTState {
  Positions : gmap UnitID Pos;
  byCell : option (gmap Pos (list UnitID))
}.

Definition NewTState : TState := mkTState ∅ (Some ∅).
(** What [UnmarshalJSON] restores. *)
Definition reload (wire : gmap UnitID Pos) : TState := mkTState wire None.

Definition build_index (positions : gmap UnitID Pos) : gmap Pos (list UnitID) :=
  foldl (λ idx '(id, p), <[p := default [] (idx !! p) ++ [id]]> idx) ∅ (map_to_list positions).

Definition ensureIndex (s : TState) : TState :=
  match byCell s with
  | Some _ => s
  | None => mkTState (Positions s) (Some (build_index (Positions s)))
  end.

Definition addToCell (pos : Pos) (unit : UnitID) (s : TState) : TState :=
  match byCell s with
  | None => ensureIndex s
  | Some idx => mkTState (Positions s) (Some (<[pos := default [] (idx !! pos) ++ [unit]]> idx))
  end.

Definition removeFromCell (pos : Pos) (unit : UnitID) (s : TState) : TState :=
  let s := ensureIndex s in
  match byCell s with
  | None => s
  | Some idx =>
      let cell := default [] (idx !! pos) in
      match find_index (λ u, bool_decide (u = unit)) cell with
      | None => s
      | Some i =>
          let rest := remove_at i cell in
          mkTState (Positions s) (Some (if decide (rest = []) then delete pos idx else <[pos := rest]> idx))
      end
  end.

Definition Place (unit : UnitID) (pos : Pos) (s : TState) : TState :=
  let s := match Positions s !! unit with Some old => removeFromCell old unit s | None => s end in
  addToCell pos unit (mkTState (<[unit := pos]> (Positions s)) (byCell s)).

Definition MoveUnit := Place.

Definition RemoveUnit (unit : UnitID) (s : TState) : TState :=
  match Positions s !! unit with
  | None => s
  | Some pos =>
      let s := removeFromCell pos unit s in
      mkTState (delete unit (Positions s)) (byCell s)
  end.

Definition PositionOf (unit : UnitID) (s : TState) : option Pos := Positions s !! unit.

(** A read that may build the index. *)
Definition EntitiesAt (pos : Pos) (s : TState) : list UnitID * TState :=
  let s := ensureIndex s in
  (merge_sort Z.le (default [] (default ∅ (byCell s) !! pos)), s).

Definition Within `{Board B} (board : B) (center : Pos) (radius : Z) (s : TState) : list UnitID :=
  if decide (radius < 0) then []
  else merge_sort Z.le
    (filter (λ ip, Distance board center ip.2 ≤ radius) (map_to_list (Positions s))).*1.

(** ** terrain.go *)
Abbreviation TerrainMap := (gmap Pos (gmap string bool)).

Definition TerrainTagBlocksLOS : string := "blocks_los".

Definition Tag (p : Pos) (tag : string) (t : TerrainMap) : TerrainMap :=
  <[p := <[tag := true]> (default ∅ (t !! p))]> t.
Definition Untag (p : Pos) (tag : string) (t : TerrainMap) : TerrainMap :=
  match t !! p with
  | None => t
  | Some tags =>
      let tags := delete tag tags in
      if decide (tags = ∅) then delete p t else <[p := tags]> t
  end.
Definition HasTag (p : Pos) (tag : string) (t : TerrainMap) : bool :=
  match t !! p with Some tags => default false (tags !! tag) | None => false end.
Definition Blocks (p : Pos) (t : TerrainMap) : bool := HasTag p TerrainTagBlocksLOS t.

Definition pos_le (c c' : Pos * list string) : Prop :=
  pX c.1 < pX c'.1 ∨ (pX c.1 = pX c'.1 ∧ pY c.1 ≤ pY c'.1).
#[global] Instance pos_le_dec c c' : Decision (pos_le c c').
Proof. unfold pos_le. apply _. Defined.

(** The array of cells, before it is JSON. *)
Definition Terrain_Marshal (t : TerrainMap) : list (Pos * list string) :=
  merge_sort pos_le ((λ '(p, tags), (p, merge_sort String.le (map_to_list tags).*1)) <$> map_to_list t).

Definition Terrain_Unmarshal (cells : list (Pos * list string)) : TerrainMap :=
  foldl (λ t '(p, tags), <[p := foldl (λ ts tag, <[tag := true]> ts) ∅ tags]> t) ∅ cells.

(** ** combat.go

    The generator without test overrides: a roll is an int. *)
Record DicePool := mkDicePool { dp_Dice : Z; dp_Sides : Z }.

Definition Roll (p : DicePool) (rng : Z) : Z * list Z :=
  if decide (dp_Dice p ≤ 0) then (rng, [])
  else
    let sides := if decide (dp_Sides p ≤ 0) then 6 else dp_Sides p in
    dice (Z.to_nat (dp_Dice p)) sides rng.

Definition Successes (rolls : list Z) (target : Z) : Z :=
  Z.of_nat (length (filter (λ r, target ≤ r) rolls)).

Definition inferSides (rolls : list Z) : Z :=
  foldl (λ max v, if decide (max < v) then v else max) 6 rolls.

Fixpoint reroll (sides threshold : Z) (rolls : list Z) (rng : Z) : Z * list Z :=
  match rolls with
  | [] => (rng, [])
  | v :: rolls =>
      let '(rng, v) := if decide (v < threshold) then die sides rng else (rng, v) in
      let '(rng, vs) := reroll sides threshold rolls rng in
      (rng, v :: vs)
  end.
Definition RerollBelow (rolls : list Z) (threshold : Z) (rng : Z) : Z * list Z :=
  reroll (inferSides rolls) threshold rolls rng.

Record Resolve := mkResolve { rv_Attacks : Z; rv_HitOn : Z; rv_WoundOn : Z; rv_SaveOn : Z }.
Record ResolveResult := mkResult { rr_Hits : Z; rr_Wounds : Z; rr_Unsaved : Z }.

Definition Run (r : Resolve) (rng : Z) : Z * ResolveResult :=
  if decide (rv_Attacks r ≤ 0) then (rng, mkResult 0 0 0)
  else
    let '(rng, rolls) := Roll (mkDicePool (rv_Attacks r) 6) rng in
    let hits := Successes rolls (rv_HitOn r) in
    if decide (hits = 0) then (rng, mkResult 0 0 0)
    else
      let '(rng, rolls) := Roll (mkDicePool hits 6) rng in
      let wounds := Successes rolls (rv_WoundOn r) in
      if decide (wounds = 0) then (rng, mkResult hits 0 0)
      else
        let '(rng, rolls) := Roll (mkDicePool wounds 6) rng in
        let unsaved := wounds - Successes rolls (rv_SaveOn r) in
        (rng, mkResult hits wounds (if decide (unsaved < 0) then 0 else unsaved)).

Example line_example : Square_Line (mkPos 0 0) (mkPos 5 2) =
  Some [mkPos 0 0; mkPos 1 0; mkPos 2 1; mkPos 3 1; mkPos 4 2; mkPos 5 2].
Proof. by vm_compute. Qed.
Example hex_example : Hex_Line (mkPos 0 0) (mkPos 3 (-1)) =
  Some [mkPos 0 0; mkPos 1 0; mkPos 2 (-1); mkPos 3 (-1)].
Proof. by vm_compute. Qed.
