(* ===== verification/TabletopTheorems.v ===== *)
(** * Boards, lines, units, terrain and dice: what they promise

    The laws of the Board interface and their instances for the two boards, the
    Bresenham line, the unit index, the wire form of terrain, and dice bounds. *)

From stdpp Require Import sorting.
From S2P Require Import Prelude Random Choices Cards Tabletop.
#[local] Open Scope Z_scope.

(** ** The line of a square board *)
Section line.
Implicit Types (a p q target : Pos).

#[local] Arguments line_step : simpl never.

(** Exchanging the axes. *)
Definition flip p : Pos := mkPos (pY p) (pX p).

Lemma line_step_flip dx dy sx sy x y err :
  line_step dx dy sx sy (x, y, err) =
  let '(y', x', err') := line_step dy dx sy sx (y, x, - err) in (x', y', - err').
Proof.
  unfold line_step. repeat case_decide; try lia; repeat f_equal; lia.
Qed.

Lemma trace_flip fuel dx dy sx sy target : ∀ x y err,
  trace fuel dx dy sx sy (x, y, err) target =
  fmap (M:=list) flip <$> trace fuel dy dx sy sx (y, x, - err) (flip target).
Proof.
  induction fuel as [|fuel IH]; intros x y err; cbn [trace]; destruct target as [tx ty]; simpl.
  - destruct (decide (x = tx ∧ y = ty)), (decide (y = ty ∧ x = tx)); tauto || done.
  - destruct (decide (x = tx ∧ y = ty)), (decide (y = ty ∧ x = tx)); try tauto.
    rewrite line_step_flip. destruct (line_step dy dx sy sx (y, x, - err)) as [[y' x'] err'] eqn:Hs.
    rewrite IH. simpl. rewrite Z.opp_involutive. unfold flip at 2. simpl.
    destruct (trace fuel dy dx sy sx (y', x', err') _); done.
Qed.

(** The cells from one that is [n] rounds away along the longer axis, where the error
    term says how far the line is off, and [m] steps are left along the other. *)
Lemma trace_major dx dy sx sy target n : 0 ≤ dy ≤ dx → 0 < dx → ∀ m err,
  0 ≤ Z.of_nat n ≤ dx → (sx = 1 ∨ sx = -1) →
  err = dx - dy + Z.of_nat n * dy - m * dx →
  dx - 2 * dy ≤ 2 * err < 3 * dx - 2 * dy → (dx = dy → err = 0) →
  ∃ l, trace n dx dy sx sy (pX target - sx * Z.of_nat n, pY target - sy * m, err) target = Some l ∧
    length l = n ∧
    ∀ i p, l !! i = Some p → pX p = pX target - sx * (Z.of_nat n - 1 - Z.of_nat i) ∧
      ∃ j, 0 ≤ j ≤ m ∧ pY p = pY target - sy * j ∧
      (∀ q, ((mkPos (pX target - sx * Z.of_nat n) (pY target - sy * m)) :: l) !! i = Some q →
         pY q = pY p ∨ pY q = pY p - sy) ∧
      (i = (n - 1)%nat → j = 0).
Proof.
  intros Hdy Hdx. induction n as [|n IH]; intros m err Hn Hsx Herr Hband Hdiag.
  - assert (m = 0) as -> by nia. exists []. split_and!; [|done|by intros i p Hp; rewrite lookup_nil in Hp].
    cbn [trace]. rewrite decide_True by lia. done.
  - assert (Hm : 0 ≤ m) by nia. cbn [trace].
    rewrite decide_False by (destruct Hsx; subst sx; lia).
    set (m' := if decide (2 * err < dx) then m - 1 else m).
    set (err' := err - dy + (m - m') * dx).
    assert (Hstep : line_step dx dy sx sy (pX target - sx * Z.of_nat (S n), pY target - sy * m, err) =
      (pX target - sx * Z.of_nat n, pY target - sy * m', err')).
    { unfold line_step. rewrite decide_True by lia. unfold err', m'.
      case_decide; repeat f_equal; lia. }
    rewrite Hstep. cbn [fst snd].
    destruct (IH m' err') as (l & Hl & Hlen & Hcells); [lia|done| | | |].
    + unfold err'. rewrite Herr. lia.
    + unfold err', m'. case_decide; lia.
    + unfold err', m'. intros <-. specialize (Hdiag eq_refl). rewrite decide_True by lia. lia.
    + assert (Hm' : 0 ≤ m' ≤ m) by (split; [|unfold m'; case_decide; lia]; unfold err', m' in *; case_decide; nia).
      exists (mkPos (pX target - sx * Z.of_nat n) (pY target - sy * m') :: l).
      split_and!; [by rewrite Hl|by simpl; f_equal|].
      intros [|i] p Hp.
      * injection Hp as <-. simpl. split; [f_equal; lia|]. exists m'. split_and!; [lia|lia|done| |].
        -- intros q [= <-]. simpl. unfold m'. case_decide; [right|left]; lia.
        -- intros Hn0. assert (n = 0%nat) as -> by lia. unfold err', m' in *. case_decide; nia.
      * cbn [lookup list_lookup] in Hp. destruct (Hcells i p Hp) as (HX & j & Hj & HY & Hprev & Hend).
        split; [lia|]. exists j. split_and!; [lia|lia|done| |].
        -- intros q Hq. apply Hprev. exact Hq.
        -- intros Hi. apply Hend. lia.
Qed.

(** A straight run of cells: as many steps as the distance, each to a neighbouring
    cell, inside the rectangle of the end points. *)
Definition between (u v x : Z) : Prop := Z.min u v ≤ x ≤ Z.max u v.
Record straight a target (l : list Pos) : Prop := {
  straight_length : length l = Z.to_nat (Square_Distance a target);
  straight_last : last (a :: l) = Some target;
  straight_steps : ∀ i p q, (a :: l) !! i = Some p → l !! i = Some q → Square_Distance p q = 1;
  straight_box : ∀ p, p ∈ l → between (pX a) (pX target) (pX p) ∧ between (pY a) (pY target) (pY p)
}.

Lemma Square_Distance_max a c : Square_Distance a c = Z.max (Z.abs (pX a - pX c)) (Z.abs (pY a - pY c)).
Proof. unfold Square_Distance. case_decide; lia. Qed.

Lemma Square_Distance_flip a c : Square_Distance (flip a) (flip c) = Square_Distance a c.
Proof. rewrite !Square_Distance_max. unfold flip. simpl. lia. Qed.

Lemma flip_flip a : flip (flip a) = a.
Proof. by destruct a. Qed.

Lemma straight_flip a target l : straight (flip a) (flip target) l → straight a target (flip <$> l).
Proof.
  intros [Hlen Hlast Hsteps Hbox]. split.
  - by rewrite length_fmap, Hlen, Square_Distance_flip.
  - apply (f_equal (fmap flip)) in Hlast. rewrite <-fmap_last in Hlast. simpl in Hlast.
    by rewrite !flip_flip in Hlast.
  - intros i p q Hp Hq. rewrite list_lookup_fmap in Hq.
    destruct (l !! i) as [q'|] eqn:Hq'; simplify_eq/=.
    assert (Hp' : (flip a :: l) !! i = Some (flip p)).
    { destruct i as [|i]; simplify_eq/=; [done|]. rewrite list_lookup_fmap in Hp.
      destruct (l !! i); simplify_eq/=. by rewrite flip_flip. }
    rewrite <-(flip_flip p), Square_Distance_flip. by eapply Hsteps.
  - intros p (p' & -> & Hp)%list_elem_of_fmap. destruct (Hbox _ Hp) as [? ?]. done.
Qed.

Lemma step_sign_spec from to : from ≠ to → step_sign from to = 1 ∨ step_sign from to = -1.
Proof. intros. unfold step_sign. repeat case_decide; [done|by right|by left]. Qed.
Lemma step_sign_abs from to : to - step_sign from to * Z.abs (to - from) = from.
Proof. unfold step_sign. repeat case_decide; lia. Qed.

Lemma trace_straight a target :
  let dx := Z.abs (pX target - pX a) in
  let dy := Z.abs (pY target - pY a) in
  dy ≤ dx → 0 < dx →
  ∃ l, trace (Z.to_nat dx) dx dy (step_sign (pX a) (pX target)) (step_sign (pY a) (pY target))
         (pX a, pY a, dx - dy) target = Some l ∧ straight a target l.
Proof.
  intros dx dy Hdy Hdx. set (sx := step_sign (pX a) (pX target)). set (sy := step_sign (pY a) (pY target)).
  assert (Hsx : sx = 1 ∨ sx = -1) by (apply step_sign_spec; lia).
  pose proof (step_sign_abs (pX a) (pX target)) as HX. pose proof (step_sign_abs (pY a) (pY target)) as HY.
  fold sx dx in HX. fold sy dy in HY.
  destruct (trace_major dx dy sx sy target (Z.to_nat dx)) with (m := dy) (err := dx - dy)
    as (l & Hl & Hlen & Hcells); [lia|done|lia|done| | |lia|].
  { rewrite Z2Nat.id by lia. lia. }
  { lia. }
  rewrite Z2Nat.id, HX, HY in Hl, Hcells by lia. exists l. split; [done|].
  assert (Hsy : dy = 0 ∨ sy = 1 ∨ sy = -1).
  { destruct (decide (pY a = pY target)); [left; lia|]. right. by apply step_sign_spec. }
  replace (mkPos (pX a) (pY a)) with a in Hcells by by destruct a.
  split.
  - rewrite Hlen. rewrite Square_Distance_max. f_equal. lia.
  - destruct l as [|q l _] using rev_ind; [simpl in Hlen; lia|].
    rewrite app_comm_cons, last_snoc. f_equal. rewrite length_app in Hlen. simpl in Hlen.
    destruct (Hcells (length l) q) as (HXq & j & _ & HYq & _ & Hend).
    { rewrite lookup_app_r, Nat.sub_diag by lia. done. }
    rewrite Hend in HYq by lia. destruct q, target. simpl in *. f_equal; nia.
  - intros i p q Hp Hq. destruct (Hcells i q Hq) as (HXq & j & _ & _ & Hprev & _).
    specialize (Hprev p Hp). rewrite Square_Distance_max.
    assert (HXp : pX p = pX q - sx).
    { destruct i as [|i]; [injection Hp as <-; lia|]. cbn [lookup list_lookup] in Hp.
      destruct (Hcells i p Hp) as (HXp & _). rewrite HXp, HXq. lia. }
    assert (Hsy' : Z.abs sy ≤ 1) by (unfold sy, step_sign; repeat case_decide; lia). lia.
  - intros p [i Hi]%list_elem_of_lookup. destruct (Hcells i p Hi) as (HXp & j & Hj & HYp & _).
    pose proof (lookup_lt_Some _ _ _ Hi) as Hlt. unfold between. split.
    + rewrite HXp. destruct Hsx as [-> | ->]; lia.
    + rewrite HYp. destruct Hsy as [Hz|[-> | ->]]; [|lia..]. assert (j = 0) as -> by lia. lia.
Qed.

Lemma Square_Line_run a target : ∃ l, Square_Line a target = Some (a :: l) ∧ straight a target l.
Proof.
  unfold Square_Line. rewrite Square_Distance_max.
  set (dx := Z.abs (pX target - pX a)). set (dy := Z.abs (pY target - pY a)).
  destruct (decide (dx = 0 ∧ dy = 0)) as [[Hx Hy]|Hne].
  - assert (target = a) as -> by (destruct a, target; simpl in *; f_equal; lia).
    exists []. split.
    + rewrite Hx, Hy. replace (Z.to_nat _) with 0%nat by lia. cbn [trace]. by rewrite decide_True.
    + split; [|done..|by intros p ?%not_elem_of_nil]. rewrite Square_Distance_max. simpl. lia.
  - destruct (decide (dy ≤ dx)) as [Hle|Hgt].
    + destruct (trace_straight a target) as (l & Hl & Hs); [done|lia|]. exists l. split; [|done].
      replace (Z.to_nat _) with (Z.to_nat dx) by lia. fold dx dy in Hl. by rewrite Hl.
    + destruct (trace_straight (flip a) (flip target)) as (l & Hl & Hs); [unfold flip; simpl; lia..|].
      unfold flip at 1 2 3 4 5 6 7 8 9 10 in Hl. simpl in Hl. exists (flip <$> l).
      split; [|by apply straight_flip]. rewrite trace_flip. replace (Z.to_nat _) with (Z.to_nat dy) by lia.
      fold dx dy in Hl. replace (- (dx - dy)) with (dy - dx) by lia. by rewrite Hl.
Qed.

(** A square board's line always comes out, and it is straight: it starts and ends
    at the cells asked for, has as many steps as their distance, each to one of the
    eight neighbouring cells, and stays in the rectangle they span; so it never leaves
    the board when its end points are on it. *)
Theorem Square_Line_straight b a target :
  ∃ line, Square_Line a target = Some line ∧
    head line = Some a ∧ last line = Some target ∧
    Z.of_nat (length line) = Square_Distance a target + 1 ∧
    (∀ i p q, line !! i = Some p → line !! S i = Some q → Square_Distance p q = 1) ∧
    (∀ p, p ∈ line → between (pX a) (pX target) (pX p) ∧ between (pY a) (pY target) (pY p)) ∧
    (Square_InBounds b a = true → Square_InBounds b target = true →
     ∀ p, p ∈ line → Square_InBounds b p = true).
Proof.
  destruct (Square_Line_run a target) as (l & Hl & Hs). exists (a :: l).
  assert (Hbox : ∀ p, p ∈ a :: l → between (pX a) (pX target) (pX p) ∧ between (pY a) (pY target) (pY p)).
  { intros p [->|Hp]%elem_of_cons; [unfold between; lia|by eapply straight_box]. }
  split_and!; [done|done|by eapply straight_last| | |done|].
  - simpl. rewrite (straight_length _ _ _ Hs), Square_Distance_max. lia.
  - intros i p q Hp Hq. by eapply straight_steps.
  - unfold Square_InBounds. rewrite !bool_decide_eq_true. intros Ha Ht p Hp.
    rewrite bool_decide_eq_true. destruct (Hbox p Hp). unfold between in *. lia.
Qed.
End line.

(** ** The laws of a board *)
Class BoardLaws (B : Type) `{Board B} : Prop := {
  distance_nonneg b p q : 0 ≤ Distance (B:=B) b p q;
  distance_sym b p q : Distance (B:=B) b p q = Distance b q p;
  distance_zero b p q : Distance (B:=B) b p q = 0 ↔ p = q;
  distance_triangle b p q r : Distance (B:=B) b p r ≤ Distance b p q + Distance b q r;
  neighbors_iff b p q : q ∈ Neighbors (B:=B) b p ↔ InBounds b q = true ∧ Distance b p q = 1;
  neighbors_NoDup b p : NoDup (Neighbors (B:=B) b p);
  line_ends b p q : ∃ l, Line (B:=B) b p q = Some l ∧ head l = Some p ∧ last l = Some q ∧
    Z.of_nat (length l) = Distance b p q + 1
}.

Lemma elem_of_offset_cells inb offsets p q :
  q ∈ offset_cells inb offsets p ↔ inb q = true ∧ (pX q - pX p, pY q - pY p) ∈ offsets.
Proof.
  unfold offset_cells. rewrite list_elem_of_filter, list_elem_of_fmap. f_equiv. split.
  - intros ([x y] & -> & Hxy). simpl. by replace (pX p + x - pX p, pY p + y - pY p) with (x, y) by (f_equal; lia).
  - intros Hxy. eexists. split; [|exact Hxy]. destruct q. simpl. f_equal; lia.
Qed.

Lemma NoDup_offset_cells inb offsets p : NoDup offsets → NoDup (offset_cells inb offsets p).
Proof.
  intros Hnd. apply NoDup_filter, NoDup_fmap_2; [|done].
  intros [x y] [x' y'] [= ??]. f_equal; lia.
Qed.

#[export] Instance Square_laws : BoardLaws SquareBoard.
Proof.
  split; simpl; intros b p; [intros q..|idtac|intros q].
  - rewrite Square_Distance_max. lia.
  - rewrite !Square_Distance_max. lia.
  - rewrite Square_Distance_max. split; [|intros ->; lia]. destruct p, q; simpl. intros. f_equal; lia.
  - intros r. rewrite !Square_Distance_max. lia.
  - rewrite elem_of_offset_cells, Square_Distance_max. f_equiv.
    assert (Hd : ∀ x y, (x, y) ∈ square_offsets ↔ Z.max (Z.abs x) (Z.abs y) = 1).
    { intros x y. unfold square_offsets. rewrite !elem_of_cons, elem_of_nil, !pair_equal_spec. lia. }
    rewrite Hd. lia.
  - apply NoDup_offset_cells. apply (bool_decide_unpack _). by vm_compute.
  - destruct (Square_Line_straight b p q) as (l & Hl & ? & ? & ? & _). eauto.
Qed.

Lemma Hex_Distance_max a c :
  let dq := pX a - pX c in let dr := pY a - pY c in
  Hex_Distance a c = Z.max (Z.max (Z.abs dq) (Z.abs dr)) (Z.abs (dq + dr)).
Proof.
  intros dq dr. unfold Hex_Distance. fold dq dr.
  assert (∃ k, Z.abs dq + Z.abs dr + Z.abs (dq + dr) = k * 2 ∧
    k = Z.max (Z.max (Z.abs dq) (Z.abs dr)) (Z.abs (dq + dr))) as (k & -> & ->).
  { eexists. split; [|done]. lia. }
  by rewrite Z.quot_mul.
Qed.

Lemma Hex_Distance_bounds a c :
  let dq := pX a - pX c in let dr := pY a - pY c in
  Z.abs dq ≤ Hex_Distance a c ∧ Z.abs dr ≤ Hex_Distance a c ∧ Z.abs (dq + dr) ≤ Hex_Distance a c.
Proof. intros dq dr. rewrite Hex_Distance_max. fold dq dr. lia. Qed.

#[export] Instance Hex_laws : BoardLaws HexBoard.
Proof.
  split; simpl; intros b p; [intros q..|idtac|intros q].
  - rewrite Hex_Distance_max. lia.
  - rewrite !Hex_Distance_max. lia.
  - rewrite Hex_Distance_max. split; [|intros ->; lia]. destruct p, q; simpl. intros. f_equal; lia.
  - intros r. pose proof (Hex_Distance_bounds p q). pose proof (Hex_Distance_bounds q r).
    rewrite (Hex_Distance_max p r). cbv zeta in *. repeat apply Z.max_lub; lia.
  - rewrite elem_of_offset_cells, Hex_Distance_max. f_equiv.
    assert (Hd : ∀ x y, (x, y) ∈ hexOffsets ↔ Z.max (Z.max (Z.abs x) (Z.abs y)) (Z.abs (x + y)) = 1).
    { intros x y. unfold hexOffsets. rewrite !elem_of_cons, elem_of_nil, !pair_equal_spec. lia. }
    rewrite Hd. lia.
  - apply NoDup_offset_cells. apply (bool_decide_unpack _). by vm_compute.
  - unfold Hex_Line. pose proof (Hex_Distance_max p q) as Hmax. simpl in Hmax.
    case_decide as Hz.
    + assert (p = q) as <- by (destruct p, q; simpl in *; f_equal; lia). eexists. split_and!; [done..|]. simpl. lia.
    + eexists. split; [done|]. set (cells := lerp_cell p q _ <$> _).
      assert (Hlen : length cells = Z.to_nat (Hex_Distance p q + 1)).
      { unfold cells. by rewrite length_fmap, length_seqZ. }
      split_and!.
      * rewrite head_lookup, list_lookup_insert_ne, list_lookup_insert_eq by lia. done.
      * rewrite last_lookup, !length_insert.
        replace (pred (length cells)) with (length cells - 1)%nat by lia.
        apply list_lookup_insert_eq. rewrite length_insert. lia.
      * rewrite !length_insert, Hlen. lia.
Qed.

(** On any board that keeps the laws (both boards of the package do), a sight line
    can always be judged; cells next to each other, or the same, always see each
    other; and otherwise sight is clear exactly when no cell of the line strictly
    between the two blocks it. *)
Theorem LineOfSight_clear_iff {B} `{BoardLaws B} (b : B) from target blocks :
  ∃ line clear, Line b from target = Some line ∧
    LineOfSight b from target (Some blocks) = Some clear ∧
    (clear = true ↔ ∀ i p, 0 < Z.of_nat i < Distance b from target → line !! i = Some p → blocks p = false) ∧
    (Distance b from target ≤ 1 → clear = true).
Proof.
  destruct (line_ends b from target) as (line & Hline & _ & _ & Hlen). exists line.
  unfold LineOfSight. rewrite Hline. simpl. case_decide as Hshort.
  - exists true. split_and!; [done..| |done]. split; [|done]. intros _ i p Hi Hp.
    apply lookup_lt_Some in Hp. lia.
  - eexists. split_and!; [done..| |lia]. rewrite <-Is_true_true, forallb_True, Forall_lookup. split.
    + intros Hclear i p Hi Hp. specialize (Hclear (i - 1)%nat p).
      rewrite lookup_take_lt, lookup_drop in Hclear by lia.
      replace (1 + (i - 1))%nat with i in Hclear by lia. specialize (Hclear Hp). by destruct (blocks p).
    + intros Hclear i p [Hp Hi]%lookup_take_Some. rewrite lookup_drop in Hp.
      rewrite (Hclear (1 + i)%nat p); [done|lia|done].
Qed.

Lemma LineOfSight_clear_iff_witness :
  (∃ line clear, Line (mkSquare 8 8) (mkPos 0 0) (mkPos 5 2) = Some line ∧
    LineOfSight (mkSquare 8 8) (mkPos 0 0) (mkPos 5 2) (Some (λ p, bool_decide (p = mkPos 2 1))) = Some clear) ∧
  (∃ line clear, Line (mkHex 8 8) (mkPos 0 0) (mkPos 3 2) = Some line ∧
    LineOfSight (mkHex 8 8) (mkPos 0 0) (mkPos 3 2) (Some (λ _, true)) = Some clear).
Proof.
  split.
  - destruct (LineOfSight_clear_iff (mkSquare 8 8) (mkPos 0 0) (mkPos 5 2) (λ p, bool_decide (p = mkPos 2 1)))
      as (line & clear & ? & ? & _). eauto.
  - destruct (LineOfSight_clear_iff (mkHex 8 8) (mkPos 0 0) (mkPos 3 2) (λ _, true))
      as (line & clear & ? & ? & _). eauto.
Defined.

(** ** The index of units *)
Section units.
Implicit Types (s : TState) (p : Pos) (u : UnitID) (idx : gmap Pos (list UnitID)).

Definition at_cell p idx : list UnitID := default [] (idx !! p).

(** An index that is there lists exactly the units in each cell, each once. *)
Definition indexed s : Prop :=
  ∀ idx, byCell s = Some idx → ∀ p, NoDup (at_cell p idx) ∧ ∀ u, u ∈ at_cell p idx ↔ Positions s !! u = Some p.

Lemma at_cell_insert p q l idx : at_cell q (<[p := l]> idx) = if decide (q = p) then l else at_cell q idx.
Proof. unfold at_cell. case_decide; [subst; by rewrite lookup_insert_eq|by rewrite lookup_insert_ne]. Qed.

Lemma at_cell_delete p q idx : at_cell q (delete p idx) = if decide (q = p) then [] else at_cell q idx.
Proof. unfold at_cell. case_decide; [subst; by rewrite lookup_delete_eq|by rewrite lookup_delete_ne]. Qed.

Lemma build_index_spec positions p :
  at_cell p (build_index positions) = (filter (λ up, up.2 = p) (map_to_list positions)).*1.
Proof.
  unfold build_index. assert (H : ∀ (l : list (UnitID * Pos)) idx,
    at_cell p (foldl (λ idx '(id, p), <[p := default [] (idx !! p) ++ [id]]> idx) idx l) =
    at_cell p idx ++ (filter (λ up, up.2 = p) l).*1).
  { induction l as [|[u q] l IH]; intros idx; simpl; [by rewrite app_nil_r|].
    rewrite IH, at_cell_insert, filter_cons. simpl. destruct (decide (p = q)) as [->|Hne].
    - rewrite decide_True by done. simpl. by rewrite <-app_assoc.
    - by rewrite decide_False by congruence. }
  by rewrite H.
Qed.

Lemma indexed_ensure s : indexed s → indexed (ensureIndex s).
Proof.
  intros Hs. unfold ensureIndex. destruct (byCell s) eqn:Hc; [done|]. intros idx [= <-] p.
  rewrite build_index_spec. split.
  - apply NoDup_fmap_2_strong; [|apply NoDup_filter, NoDup_map_to_list].
    intros [u1 p1] [u2 p2] [H1 _]%list_elem_of_filter [H2 _]%list_elem_of_filter Heq. simpl in *. congruence.
  - intros u. rewrite list_elem_of_fmap. split.
    + intros ([u' q] & -> & [Hq Hu%elem_of_map_to_list]%list_elem_of_filter). simpl in *. congruence.
    + intros Hu. exists (u, p). by rewrite list_elem_of_filter, elem_of_map_to_list.
Qed.

Lemma ensure_Positions s : Positions (ensureIndex s) = Positions s.
Proof. unfold ensureIndex. by destruct (byCell s). Qed.

Lemma ensure_some s : is_Some (byCell (ensureIndex s)).
Proof. unfold ensureIndex. destruct (byCell s) eqn:H; simpl; eauto. Qed.

(** After a unit is taken out of the cell it was in, the index fits the map without it. *)
Lemma indexed_removed s p u : indexed s → Positions s !! u = Some p →
  indexed (mkTState (delete u (Positions s)) (byCell (removeFromCell p u s))).
Proof.
  intros Hs%indexed_ensure Hu. unfold removeFromCell. rewrite <-(ensure_Positions s) in *.
  set (s1 := ensureIndex s) in *. destruct (ensure_some s) as [idx Hidx]. fold s1 in Hidx. rewrite Hidx.
  fold (at_cell p idx). specialize (Hs idx Hidx).
  destruct (Hs p) as [Hnd Hin]. destruct (find_index _ (at_cell p idx)) as [i|] eqn:Hf.
  2:{ exfalso. apply find_index_None in Hf. rewrite Forall_forall in Hf. apply Hin in Hu.
      specialize (Hf u Hu). by rewrite bool_decide_eq_false in Hf. }
  apply find_index_Some in Hf as [(u' & Hi & ->%bool_decide_eq_true) _].
  set (rest := remove_at i (at_cell p idx)).
  assert (Hrest : at_cell p idx ≡ₚ u :: rest).
  { unfold rest, remove_at. rewrite Permutation_middle, <-(take_drop_middle _ _ _ Hi) at 1. done. }
  rewrite Hrest in Hnd. apply NoDup_cons in Hnd as [Hur Hndr].
  intros idx' [= <-] q. cbn [Positions].
  assert (at_cell q (if decide (rest = []) then delete p idx else <[p := rest]> idx) =
    if decide (q = p) then rest else at_cell q idx) as ->.
  { destruct (decide (rest = [])) as [Hr|_]; [rewrite at_cell_delete, Hr|rewrite at_cell_insert]; done. }
  destruct (decide (q = p)) as [->|Hne].
  - split; [done|]. intros u'. rewrite lookup_delete_Some, <-Hin, Hrest, elem_of_cons. naive_solver.
  - split; [apply Hs|]. intros u'. rewrite lookup_delete_Some. rewrite (proj2 (Hs q) u'). split; [|by intros [_ ?]].
    intros Hu'. split; [|done]. intros ->. congruence.
Qed.

Lemma indexed_added s p u : indexed s → Positions s !! u = None →
  indexed (addToCell p u (mkTState (<[u := p]> (Positions s)) (byCell s))).
Proof.
  intros Hs Hu. unfold addToCell. simpl. destruct (byCell s) as [idx|] eqn:Hc.
  - intros idx' [= <-] q. cbn [Positions]. fold (at_cell p idx). rewrite at_cell_insert.
    specialize (Hs idx Hc). destruct (decide (q = p)) as [->|Hne].
    + destruct (Hs p) as [Hnd Hin]. split.
      * apply NoDup_app. split_and!; [done| |apply NoDup_singleton].
        intros x Hx ->%list_elem_of_singleton. apply Hin in Hx. congruence.
      * intros u'. rewrite elem_of_app, list_elem_of_singleton, lookup_insert_Some, Hin.
        destruct (decide (u' = u)) as [->|]; naive_solver.
    + split; [apply Hs|]. intros u'. rewrite (proj2 (Hs q) u'), lookup_insert_Some. naive_solver.
  - by apply indexed_ensure.
Qed.

Lemma removeFromCell_Positions p u s : Positions (removeFromCell p u s) = Positions s.
Proof.
  unfold removeFromCell. destruct (byCell (ensureIndex s)); simpl; [|apply ensure_Positions].
  destruct (find_index _ _); simpl; apply ensure_Positions.
Qed.

Lemma indexed_Place u p s : indexed s → indexed (Place u p s).
Proof.
  intros Hs. unfold Place. destruct (Positions s !! u) as [old|] eqn:Hu.
  - set (s1 := mkTState (delete u (Positions s)) (byCell (removeFromCell old u s))).
    assert (Hs1 : indexed s1) by by apply indexed_removed.
    rewrite removeFromCell_Positions, <-insert_delete_eq.
    apply (indexed_added s1); [done|]. apply lookup_delete_eq.
  - by apply indexed_added.
Qed.

Lemma indexed_Remove u s : indexed s → indexed (RemoveUnit u s).
Proof.
  intros Hs. unfold RemoveUnit. destruct (Positions s !! u) eqn:Hu; [|done].
  rewrite removeFromCell_Positions. by apply indexed_removed.
Qed.

(** What a game does with the units: it may also look, and save and load in between. *)
Inductive unit_op : Type :=
  | UPlace (u : UnitID) (p : Pos) | UMove (u : UnitID) (p : Pos) | URemove (u : UnitID)
  | ULook (p : Pos) | UReload.
Definition unit_step s (o : unit_op) : TState :=
  match o with
  | UPlace u p => Place u p s
  | UMove u p => MoveUnit u p s
  | URemove u => RemoveUnit u s
  | ULook p => (EntitiesAt p s).2
  | UReload => reload (Positions s)
  end.

Lemma indexed_step s o : indexed s → indexed (unit_step s o).
Proof.
  intros Hs. destruct o; simpl; [by apply indexed_Place..|by apply indexed_Remove|by apply indexed_ensure|done].
Qed.

Lemma indexed_steps ops : ∀ s, indexed s → indexed (foldl unit_step s ops).
Proof. induction ops; simpl; eauto using indexed_step. Qed.

Lemma indexed_new : indexed NewTState.
Proof.
  intros idx [= <-] p. unfold at_cell. rewrite lookup_empty. split; [constructor|].
  intros u. simpl. rewrite lookup_empty. split; [by intros ?%not_elem_of_nil|done].
Qed.

(** The lazy index is never stale. After any placements, moves and removals, looks
    and reloads in between, [EntitiesAt] lists exactly the units whose position is the
    cell, each once and in ascending order, and looking moves nobody; [Within] lists,
    the same way, exactly the units within the radius. *)
Theorem EntitiesAt_is_current ops p :
  let s := foldl unit_step NewTState ops in
  let '(units, s') := EntitiesAt p s in
  StronglySorted Z.le units ∧ NoDup units ∧ (∀ u, u ∈ units ↔ PositionOf u s = Some p) ∧
  Positions s' = Positions s ∧
  ∀ B `{Board B} (b : B) radius, 0 ≤ radius →
    StronglySorted Z.le (Within b p radius s) ∧ NoDup (Within b p radius s) ∧
    ∀ u, u ∈ Within b p radius s ↔ ∃ q, PositionOf u s = Some q ∧ Distance b p q ≤ radius.
Proof.
  intros s. assert (Hs : indexed (ensureIndex s)) by apply indexed_ensure, indexed_steps, indexed_new.
  unfold EntitiesAt. destruct (ensure_some s) as [idx Hidx]. rewrite Hidx. simpl. fold (at_cell p idx).
  destruct (Hs idx Hidx p) as [Hnd Hin]. rewrite ensure_Positions in Hin. split_and!.
  - apply StronglySorted_merge_sort; apply _.
  - by rewrite merge_sort_Permutation.
  - intros u. by rewrite merge_sort_Permutation, Hin.
  - apply ensure_Positions.
  - intros B HB b radius Hr. unfold Within. rewrite decide_False by lia. split_and!.
    + apply StronglySorted_merge_sort; apply _.
    + rewrite merge_sort_Permutation. apply NoDup_fmap_2_strong; [|apply NoDup_filter, NoDup_map_to_list].
      intros [u1 p1] [u2 p2] [_ H1%elem_of_map_to_list]%list_elem_of_filter
        [_ H2%elem_of_map_to_list]%list_elem_of_filter Heq. simpl in Heq. subst u2. congruence.
    + intros u. rewrite merge_sort_Permutation, list_elem_of_fmap. split.
      * intros ([u' q] & -> & [Hd Hu%elem_of_map_to_list]%list_elem_of_filter). eauto.
      * intros (q & Hq & Hd). exists (u, q). by rewrite list_elem_of_filter, elem_of_map_to_list.
Qed.
End units.

Example index_rebuilt_after_reload :
  let s := foldl unit_step NewTState [UPlace 7 (mkPos 1 1); UPlace 3 (mkPos 1 1); UReload; UMove 7 (mkPos 2 2);
    UPlace 5 (mkPos 1 1); URemove 9] in
  (EntitiesAt (mkPos 1 1) s).1 = [3; 5].
Proof. by vm_compute. Qed.

(** ** Terrain on the wire *)
Section terrain.
Context {K V W : Type} `{Countable K}.

Lemma foldl_insert_lookup (f : V → W) (l : list (K * V)) : NoDup l.*1 → ∀ (m : gmap K W) k,
  (∀ v, (k, v) ∈ l → foldl (λ t '(k, v), <[k := f v]> t) m l !! k = Some (f v)) ∧
  (k ∉ l.*1 → foldl (λ t '(k, v), <[k := f v]> t) m l !! k = m !! k).
Proof.
  induction l as [|[k' v'] l IH]; intros Hnd m k; [by split; [intros v ?%not_elem_of_nil|]|].
  simpl in Hnd. apply NoDup_cons in Hnd as [Hk' Hnd]. simpl.
  destruct (IH Hnd (<[k' := f v']> m) k) as [IHin IHout]. split.
  - intros v [[= -> ->]|Hv]%elem_of_cons; [|by apply IHin]. rewrite IHout by done. apply lookup_insert_eq.
  - rewrite not_elem_of_cons. intros [Hne Hk]. rewrite IHout by done. by apply lookup_insert_ne.
Qed.
End terrain.

#[global] Instance pos_le_total : Total pos_le.
Proof. unfold pos_le. intros c c'. lia. Qed.
#[global] Instance pos_le_trans : Transitive pos_le.
Proof. unfold pos_le. intros c1 c2 c3. lia. Qed.

(** Tags are only ever set. *)
Definition flags_set (t : TerrainMap) : Prop :=
  ∀ p tags tag b, t !! p = Some tags → tags !! tag = Some b → b = true.

Lemma flags_set_Tag p tag t : flags_set t → flags_set (Tag p tag t).
Proof.
  intros Ht q tags tag' b. unfold Tag. rewrite lookup_insert_Some.
  intros [[<- <-]|[_ Hq]]; [|by eapply Ht]. rewrite lookup_insert_Some. intros [[_ <-]|[_ Hb]]; [done|].
  destruct (t !! p) as [tags|] eqn:Hp; simpl in Hb; [by eapply Ht|by rewrite lookup_empty in Hb].
Qed.

Lemma flags_set_Untag p tag t : flags_set t → flags_set (Untag p tag t).
Proof.
  intros Ht q tags tag' b. unfold Untag. destruct (t !! p) as [tags'|] eqn:Hp; [|by apply Ht].
  case_decide as Hempty.
  - rewrite lookup_delete_Some. intros [_ Hq]. by apply (Ht q).
  - rewrite lookup_insert_Some. intros [[<- <-]|[_ Hq]]; [|by apply (Ht q)].
    rewrite lookup_delete_Some. intros [_ Hb]. by eapply Ht.
Qed.

Lemma flags_of_keys (tags : gmap string bool) : (∀ tag b, tags !! tag = Some b → b = true) →
  foldl (λ ts tag, <[tag := true]> ts) ∅ (merge_sort String.le (map_to_list tags).*1) = tags.
Proof.
  intros Hb. set (l := merge_sort _ _).
  assert (Hl : ∀ tag, tag ∈ l ↔ is_Some (tags !! tag)).
  { intros tag. unfold l. rewrite merge_sort_Permutation, list_elem_of_fmap. split.
    - intros ([tag' b] & -> & Ht%elem_of_map_to_list). eauto.
    - intros [b Ht]. exists (tag, b). by rewrite elem_of_map_to_list. }
  assert (Hfold : ∀ (m : gmap string bool) tag,
    foldl (λ ts tag, <[tag := true]> ts) m l !! tag = if decide (tag ∈ l) then Some true else m !! tag).
  { clear Hl. induction l as [|x l IH] using rev_ind; intros m tag; simpl; [done|].
    rewrite foldl_app. simpl. destruct (decide (tag = x)) as [->|Hne].
    - rewrite lookup_insert_eq, decide_True; [done|]. apply elem_of_app. right. by left.
    - rewrite lookup_insert_ne, IH by done. destruct (decide (tag ∈ l)), (decide (tag ∈ l ++ [x])) as [Hin|Hin];
        rewrite elem_of_app, list_elem_of_singleton in Hin; tauto. }
  apply map_eq. intros tag. rewrite Hfold, lookup_empty. destruct (decide (tag ∈ l)) as [Hin|Hin].
  - apply Hl in Hin as [b Ht]. by rewrite Ht, (Hb _ _ Ht).
  - rewrite Hl, <-eq_None_not_Some in Hin. done.
Qed.

(** Terrain survives the wire: what is written for a map of tags, cells in order of
    position and each cell's tags in order, reads back as the same map, as long as
    every flag stored is set, which tagging and untagging see to. *)
Theorem terrain_roundtrip t : flags_set t →
  Terrain_Unmarshal (Terrain_Marshal t) = t ∧
  StronglySorted pos_le (Terrain_Marshal t) ∧
  (∀ p tag, flags_set (Tag p tag t) ∧ flags_set (Untag p tag t)).
Proof.
  intros Ht. split_and!; [|apply StronglySorted_merge_sort; apply _|auto using flags_set_Tag, flags_set_Untag].
  set (f := λ tags : list string, foldl (λ ts tag, <[tag := true]> ts) (∅ : gmap string bool) tags).
  assert (Hnd : NoDup (Terrain_Marshal t).*1).
  { unfold Terrain_Marshal. rewrite merge_sort_Permutation, <-list_fmap_compose.
    erewrite (list_fmap_ext _ fst); [apply NoDup_fst_map_to_list|by intros _ [p tags] _]. }
  assert (Hin : ∀ p l, (p, l) ∈ Terrain_Marshal t ↔ ∃ tags, t !! p = Some tags ∧
    l = merge_sort String.le (map_to_list tags).*1).
  { intros p l. unfold Terrain_Marshal. rewrite merge_sort_Permutation, list_elem_of_fmap. split.
    - intros ([p' tags] & [= -> ->] & Hp%elem_of_map_to_list). eauto.
    - intros (tags & Hp & ->). exists (p, tags). by rewrite elem_of_map_to_list. }
  apply map_eq. intros p. unfold Terrain_Unmarshal.
  destruct (foldl_insert_lookup f (Terrain_Marshal t) Hnd ∅ p) as [Hval Hnone].
  destruct (t !! p) as [tags|] eqn:Hp.
  - etransitivity; [apply (Hval (merge_sort String.le (map_to_list tags).*1)); apply Hin; eauto|].
    unfold f. f_equal. apply flags_of_keys. intros. by eapply Ht.
  - etransitivity; [apply Hnone|apply lookup_empty]. rewrite list_elem_of_fmap.
    intros ([p' l] & -> & (tags & Hp' & _)%Hin). simpl in *. congruence.
Qed.

Lemma terrain_roundtrip_witness :
  let t := Tag (mkPos 1 0) "cover" (Tag (mkPos 0 3) "blocks_los" (Tag (mkPos 1 0) "water" ∅)) in
  Terrain_Marshal t = [(mkPos 0 3, ["blocks_los"]); (mkPos 1 0, ["cover"; "water"])] ∧
  Terrain_Unmarshal (Terrain_Marshal t) = t.
Proof.
  split; [by vm_compute|]. apply terrain_roundtrip. repeat apply flags_set_Tag.
  intros p tags tag b Hp. by rewrite lookup_empty in Hp.
Defined.

(** ** Dice pools *)
Lemma die_range sides rng : 0 < sides → 1 ≤ (die sides rng).2 ≤ sides.
Proof. intros Hs. unfold die. destruct (next rng) as [rng' v]. simpl. pose proof (Z.mod_pos_bound v sides Hs). lia. Qed.

Lemma dice_range count sides : 0 < sides → ∀ rng,
  length (dice count sides rng).2 = count ∧ Forall (λ v, 1 ≤ v ≤ sides) (dice count sides rng).2.
Proof.
  intros Hs. induction count as [|count IH]; intros rng; [by split|]. cbn [dice].
  pose proof (die_range sides rng Hs) as Hd. destruct (die sides rng) as [rng1 n].
  destruct (IH rng1) as [Hlen Hall]. destruct (dice count sides rng1) as [rng2 ns]. simpl in *.
  split; [by f_equal|by constructor].
Qed.

Lemma Roll_range p rng : let rolls := (Roll p rng).2 in
  Z.of_nat (length rolls) = Z.max 0 (dp_Dice p) ∧
  Forall (λ v, 1 ≤ v ≤ if decide (dp_Sides p ≤ 0) then 6 else dp_Sides p) rolls.
Proof.
  unfold Roll. case_decide; [split; [simpl; lia|constructor]|]. cbv zeta.
  set (sides := if decide (dp_Sides p ≤ 0) then 6 else dp_Sides p).
  assert (Hs : 0 < sides) by (unfold sides; case_decide; lia).
  destruct (dice_range (Z.to_nat (dp_Dice p)) sides Hs rng) as [-> Hall]. split; [lia|done].
Qed.

Lemma Successes_bounds rolls target :
  0 ≤ Successes rolls target ≤ Z.of_nat (length rolls) ∧
  (∀ lo hi, Forall (λ v, lo ≤ v ≤ hi) rolls →
    (target ≤ lo → Successes rolls target = Z.of_nat (length rolls)) ∧ (hi < target → Successes rolls target = 0)).
Proof.
  unfold Successes. split; [pose proof (length_filter (λ r, target ≤ r) rolls); lia|].
  intros lo hi Hall. rewrite Forall_forall in Hall. split; intros Ht.
  - rewrite filter_id; [done|]. intros x Hx. specialize (Hall x Hx). lia.
  - assert (filter (λ r, target ≤ r) rolls = []) as ->; [|done]. apply filter_nil_iff.
    intros x Hx. specialize (Hall x Hx). lia.
Qed.

(** Whatever the dice, an attack never does more than its stages let through: hits
    are at most the attacks, wounds at most the hits, unsaved wounds at most the
    wounds, and none is negative. A target of one or less always succeeds, one above
    six never does: automatic hits and wounds go through in full, an impossible hit or
    wound stops the attack, an automatic save saves everything, an impossible nothing. *)
Theorem Run_bounds r rng : let res := (Run r rng).2 in
  0 ≤ rr_Unsaved res ≤ rr_Wounds res ∧ rr_Wounds res ≤ rr_Hits res ∧ rr_Hits res ≤ Z.max 0 (rv_Attacks r) ∧
  (rv_HitOn r ≤ 1 → rr_Hits res = Z.max 0 (rv_Attacks r)) ∧ (6 < rv_HitOn r → rr_Hits res = 0) ∧
  (rv_WoundOn r ≤ 1 → rr_Wounds res = rr_Hits res) ∧ (6 < rv_WoundOn r → rr_Wounds res = 0) ∧
  (rv_SaveOn r ≤ 1 → rr_Unsaved res = 0) ∧ (6 < rv_SaveOn r → rr_Unsaved res = rr_Wounds res).
Proof.
  unfold Run. case_decide; [simpl; lia|].
  assert (Hstage : ∀ n target rng, 0 ≤ n → let k := Successes (Roll (mkDicePool n 6) rng).2 target in
    0 ≤ k ≤ n ∧ (target ≤ 1 → k = n) ∧ (6 < target → k = 0)).
  { intros n target rng0 Hn. destruct (Roll_range (mkDicePool n 6) rng0) as [Hlen Hall].
    destruct (Successes_bounds (Roll (mkDicePool n 6) rng0).2 target) as [Hb Hx].
    destruct (Hx _ _ Hall) as [H1 H6]. simpl in *. cbv zeta. lia. }
  destruct (Roll (mkDicePool (rv_Attacks r) 6) rng) as [rng1 hit_rolls] eqn:Hr1.
  pose proof (Hstage (rv_Attacks r) (rv_HitOn r) rng ltac:(lia)) as Hh. rewrite Hr1 in Hh. simpl in Hh.
  case_decide; [simpl; lia|]. set (hits := Successes hit_rolls _) in *.
  destruct (Roll (mkDicePool hits 6) rng1) as [rng2 wound_rolls] eqn:Hr2.
  pose proof (Hstage hits (rv_WoundOn r) rng1 ltac:(lia)) as Hw. rewrite Hr2 in Hw. simpl in Hw.
  case_decide; [simpl; lia|]. set (wounds := Successes wound_rolls _) in *.
  destruct (Roll (mkDicePool wounds 6) rng2) as [rng3 save_rolls] eqn:Hr3.
  pose proof (Hstage wounds (rv_SaveOn r) rng2 ltac:(lia)) as Hv. rewrite Hr3 in Hv. simpl in Hv.
  simpl. case_decide; lia.
Qed.
