(* ===== verification/Regions.v ===== *)
(** * Regions of a board: partition, influence, scoring

    [src/modules/tabletop/regions]: regions.go and scoring.go, with what they promise. *)

From stdpp Require Import sorting.
From S2P Require Import Prelude Choices Cards Tabletop TabletopTheorems.
#[local] Open Scope Z_scope.

(** ** regions.go *)
Record Region := mkRegion { rg_ID : string; rg_Cells : list Pos; rg_Label : string }.

(** The index from cells to regions is nil after JSON. *)
Record RMap := mkRMap { rm_Regions : list Region; cellToRegion : option (gmap Pos string) }.

Inductive region_error : Type := ErrEmptyID | ErrDuplicateID | ErrOverlap.

Fixpoint claim_cells (id : string) (ps : list Pos) (cells : gmap Pos string)
  : outcome region_error (gmap Pos string) :=
  match ps with
  | [] => Ok cells
  | p :: ps =>
      match cells !! p with
      | Some _ => Err ErrOverlap
      | None => claim_cells id ps (<[p := id]> cells)
      end
  end.

Fixpoint claim_regions (regions : list Region) (seen : gset string) (cells : gmap Pos string)
  : outcome region_error (gmap Pos string) :=
  match regions with
  | [] => Ok cells
  | r :: regions =>
      if decide (rg_ID r = "") then Err ErrEmptyID
      else if decide (rg_ID r ∈ seen) then Err ErrDuplicateID
      else
        cells ← claim_cells (rg_ID r) (rg_Cells r) cells;
        claim_regions regions ({[rg_ID r]} ∪ seen) cells
  end.

Definition NewMap (regions : list Region) : outcome region_error RMap :=
  cells ← claim_regions regions ∅ ∅;
  mret (mkRMap regions (Some cells)).

Definition buildIndex (regions : list Region) : gmap Pos string :=
  foldl (λ idx r, foldl (λ idx p, <[p := rg_ID r]> idx) idx (rg_Cells r)) ∅ regions.

(** A read that may build the index. *)
Definition Of (pos : Pos) (m : RMap) : option string * RMap :=
  let idx := match cellToRegion m with Some idx => idx | None => buildIndex (rm_Regions m) end in
  (idx !! pos, mkRMap (rm_Regions m) (Some idx)).

Definition CellsOf (id : string) (m : RMap) : list Pos :=
  match List.find (λ r, bool_decide (rg_ID r = id)) (rm_Regions m) with
  | Some r => rg_Cells r
  | None => []
  end.

Definition OwnerFn : Type := UnitID → string.

Definition count_unit (owner : OwnerFn) (inner : gmap string Z) (u : UnitID) : gmap string Z :=
  let pid := owner u in
  if decide (pid = "") then inner else <[pid := default 0 (inner !! pid) + 1]> inner.

Definition count_cell (owner : OwnerFn) (acc : gmap string Z * TState) (p : Pos) : gmap string Z * TState :=
  let '(inner, s) := acc in
  let '(units, s) := EntitiesAt p s in
  (foldl (count_unit owner) inner units, s).

(** Looking at the cells may build the state's index. *)
Definition Influence (m : RMap) (owner : OwnerFn) (s : TState) : gmap string (gmap string Z) * TState :=
  foldl (λ '(out, s) r,
    let '(inner, s) := foldl (count_cell owner) (∅, s) (rg_Cells r) in
    (<[rg_ID r := inner]> out, s)) (∅, s) (rm_Regions m).

Definition ByCCGOwner {H} (cs : State H) : OwnerFn := λ u,
  match Entities cs !! u with Some e => AttrStr e "owner" "" | None => "" end.

(** ** scoring.go *)
Inductive ScoringKind : Type := Plurality | TopN | Threshold | OtherKind (n : Z).
Inductive TieBreak : Type := Split | NoAward | BothAward | Custom | OtherTie (n : Z).

Record ScoringRule := mkRule {
  sr_Kind : ScoringKind;
  sr_PerPlace : list Z;
  sr_Threshold : Z;
  sr_Payout : Z;
  sr_TieBreak : TieBreak
}.

(** A custom tie-break sees the rule it belongs to. *)
Definition CustomTieFn : Type := gmap string Z → ScoringRule → gmap string Z.

Definition rankedGroups (infl : gmap string Z) : list (list string) :=
  let vals := reverse (merge_sort Z.le (remove_dups (map_to_list infl).*2)) in
  (λ v, merge_sort String.le (filter (λ kv, kv.2 = v) (map_to_list infl)).*1) <$> vals.

Definition award (group : list string) (pts : Z) (result : gmap string Z) : gmap string Z :=
  foldl (λ result pid, <[pid := pts]> result) result group.

Definition nobody (infl : gmap string Z) : gmap string Z := (λ _, 0) <$> infl.

Definition scorePlurality (infl : gmap string Z) (rule : ScoringRule) : gmap string Z :=
  let result := nobody infl in
  match rankedGroups infl, sr_PerPlace rule with
  | top :: _, pts :: _ =>
      if decide (length top = 1%nat) then award top pts result
      else match sr_TieBreak rule with
           | Split => award top (Z.quot pts (Z.of_nat (length top))) result
           | BothAward => award top pts result
           | _ => result
           end
  | _, _ => result
  end.

(** The places a tie spans, as far as there are points for them. *)
Definition pot (perPlace : list Z) (place n : nat) : Z := foldr Z.add 0 (take n (drop place perPlace)).

Fixpoint score_groups (rule : ScoringRule) (groups : list (list string)) (place : nat)
    (result : gmap string Z) : gmap string Z :=
  match groups with
  | [] => result
  | group :: groups =>
      match sr_PerPlace rule !! place with
      | None => result
      | Some pts =>
          if decide (length group = 1%nat)
          then score_groups rule groups (S place) (award group pts result)
          else
            let n := length group in
            match sr_TieBreak rule with
            | Split => score_groups rule groups (place + n)
                         (award group (Z.quot (pot (sr_PerPlace rule) place n) (Z.of_nat n)) result)
            | NoAward => score_groups rule groups (place + n) result
            | BothAward => score_groups rule groups (S place) (award group pts result)
            | _ => score_groups rule groups place result
            end
      end
  end.

Definition scoreTopN (infl : gmap string Z) (rule : ScoringRule) : gmap string Z :=
  score_groups rule (rankedGroups infl) 0 (nobody infl).

Definition scoreThreshold (infl : gmap string Z) (rule : ScoringRule) : gmap string Z :=
  (λ v, if decide (sr_Threshold rule ≤ v) then sr_Payout rule else 0) <$> infl.

Definition ScoreRegion (infl : gmap string Z) (rule : ScoringRule) (custom : option CustomTieFn) : gmap string Z :=
  match sr_TieBreak rule, custom with
  | Custom, Some f => f infl rule
  | _, _ =>
      match sr_Kind rule with
      | Plurality => scorePlurality infl rule
      | TopN => scoreTopN infl rule
      | Threshold => scoreThreshold infl rule
      | OtherKind _ => ∅
      end
  end.

Definition add_points (per totals : gmap string Z) : gmap string Z :=
  map_fold (λ pid pts totals, <[pid := default 0 (totals !! pid) + pts]> totals) totals per.

Definition ScoreAll (m : RMap) (owner : OwnerFn) (rule : ScoringRule) (custom : option CustomTieFn) (s : TState)
  : gmap string Z * TState :=
  let '(infl, s) := Influence m owner s in
  (foldl (λ totals r, add_points (ScoreRegion (default ∅ (infl !! rg_ID r)) rule custom) totals) ∅
     (rm_Regions m), s).

(** ** What regions promise

    A map is accepted exactly when it is a partition, and scoring by place is fair. *)

(** ** Partitions *)
Section partition.
Implicit Types (regions : list Region) (idx : gmap Pos string).

Definition all_cells regions : list Pos := regions ≫= rg_Cells.

(** Named, no name twice, no cell twice. *)
Definition partition_of regions : Prop :=
  Forall (λ r, rg_ID r ≠ "") regions ∧ NoDup (rg_ID <$> regions) ∧ NoDup (all_cells regions).

Definition mark (id : string) (ps : list Pos) idx := foldl (λ idx p, <[p := id]> idx) idx ps.

Lemma mark_lookup id ps p : ∀ idx, mark id ps idx !! p = if decide (p ∈ ps) then Some id else idx !! p.
Proof.
  unfold mark. induction ps as [|q ps IH]; intros idx; simpl; [done|]. rewrite IH.
  destruct (decide (p ∈ ps)), (decide (p ∈ q :: ps)) as [Hin|Hin]; rewrite elem_of_cons in Hin; try tauto.
  - destruct Hin as [->|]; [|done]. apply lookup_insert_eq.
  - apply lookup_insert_ne. intros ->. tauto.
Qed.

Lemma claim_cells_run id ps : ∀ idx idx', claim_cells id ps idx = Ok idx' ↔
  NoDup ps ∧ (∀ p, p ∈ ps → idx !! p = None) ∧ idx' = mark id ps idx.
Proof.
  induction ps as [|q ps IH]; intros idx idx'; cbn [claim_cells].
  { unfold mark. simpl. split; [intros [= <-]|intros (_ & _ & ->)]; [|done].
    split_and!; [constructor|by intros p ?%not_elem_of_nil|done]. }
  destruct (idx !! q) as [other|] eqn:Hq.
  { split; [done|]. intros (_ & Hnone & _). rewrite Hnone in Hq; [done|by left]. }
  rewrite IH, NoDup_cons. unfold mark. simpl. split.
  - intros (Hnd & Hnone & ->). split_and!; [|done| |done].
    + intros Hin. specialize (Hnone q Hin). by rewrite lookup_insert_eq in Hnone.
    + intros p [->|Hp]%elem_of_cons; [done|]. specialize (Hnone p Hp).
      by rewrite lookup_insert_None in Hnone; destruct Hnone.
  - intros ([Hq' Hnd] & Hnone & ->). split_and!; [done| |done].
    intros p Hp. rewrite lookup_insert_ne by (by intros ->). apply Hnone. by right.
Qed.

Definition index_from regions idx := foldl (λ idx r, mark (rg_ID r) (rg_Cells r) idx) idx regions.

Lemma claim_regions_run regions : ∀ seen idx idx', claim_regions regions seen idx = Ok idx' ↔
  partition_of regions ∧ (∀ r, r ∈ regions → rg_ID r ∉ seen) ∧
  (∀ p, p ∈ all_cells regions → idx !! p = None) ∧ idx' = index_from regions idx.
Proof.
  unfold partition_of. induction regions as [|r regions IH]; intros seen idx idx'; cbn [claim_regions].
  { unfold all_cells, index_from. simpl. split; [intros [= <-]|by intros (_ & _ & _ & ->)].
    split_and!; try constructor; try done; by intros ? ?%not_elem_of_nil. }
  unfold all_cells in *. rewrite bind_cons, fmap_cons, Forall_cons, NoDup_cons, NoDup_app.
  destruct (decide (rg_ID r = "")) as [Hid|Hid]; [split; [done|tauto]|].
  destruct (decide (rg_ID r ∈ seen)) as [Hseen|Hseen].
  { split; [done|]. intros (_ & Hs & _). destruct (Hs r); [by left|done]. }
  destruct (claim_cells (rg_ID r) (rg_Cells r) idx) as [idx1|e| |] eqn:Hcells; simpl.
  2-4: split; [done|]; intros (Hp & _ & Hnone & _); exfalso;
    assert (claim_cells (rg_ID r) (rg_Cells r) idx = Ok (mark (rg_ID r) (rg_Cells r) idx)) by
      (apply claim_cells_run; split_and!; [tauto| |done]; intros; apply Hnone, elem_of_app; by left); congruence.
  apply claim_cells_run in Hcells as (Hnd & Hnone & ->). rewrite IH. split.
  - intros ((Hne & Hndi & Hndc) & Hs & Hc & ->). split_and!; try done.
    + rewrite list_elem_of_fmap. intros (r' & Heq & Hr'). apply (Hs r' Hr'). rewrite <-Heq. set_solver.
    + intros p Hp Hp'. specialize (Hc p Hp'). rewrite mark_lookup, decide_True in Hc by done. done.
    + intros r' [->|Hr']%elem_of_cons; [done|]. specialize (Hs r' Hr'). set_solver.
    + intros p [Hp|Hp]%elem_of_app; [by apply Hnone|]. specialize (Hc p Hp). rewrite mark_lookup in Hc.
      by case_decide.
  - intros (((_ & Hne) & (Hr & Hndi) & _ & Hdisj & Hndc) & Hs & Hc & ->). split_and!; try done.
    + intros r' Hr'. rewrite elem_of_union, elem_of_singleton. intros [Heq|Hin].
      * apply Hr. rewrite <-Heq. by apply list_elem_of_fmap_2.
      * apply (Hs r'); [by right|done].
    + intros p Hp. rewrite mark_lookup. case_decide as Hin; [by destruct (Hdisj p Hin)|].
      apply Hc, elem_of_app. by right.
Qed.

Lemma index_from_lookup regions p id : ∀ idx, NoDup (all_cells regions) →
  index_from regions idx !! p = Some id ↔
  (∃ r, r ∈ regions ∧ rg_ID r = id ∧ p ∈ rg_Cells r) ∨ (p ∉ all_cells regions ∧ idx !! p = Some id).
Proof.
  unfold index_from, all_cells. induction regions as [|r regions IH]; intros idx Hnd; simpl.
  { split; [intros ?; right; split; [apply not_elem_of_nil|done]|].
    intros [(r & ?%not_elem_of_nil & _)|[_ ?]]; done. }
  rewrite bind_cons in Hnd. apply NoDup_app in Hnd as (_ & Hdisj & Hnd). rewrite (IH _ Hnd), mark_lookup.
  rewrite elem_of_app. split.
  - intros [(r' & Hr' & ? & ?)|[Hp Hidx]]; [left; exists r'; split; [by right|done]|].
    case_decide as Hin; [|right; tauto]. left. exists r. split; [by left|]. split; [congruence|done].
  - intros [(r' & [->|Hr']%elem_of_cons & Hid & Hp)|[Hp Hidx]].
    + right. split; [by apply Hdisj|]. rewrite decide_True by done. congruence.
    + left. eauto.
    + right. rewrite decide_False by tauto. tauto.
Qed.

(** A list of regions makes a map exactly when it is a partition: every region
    named, no name and no cell used twice. The map then says of a cell exactly the
    region it was listed in, and says the same after its index was lost in storage. *)
Theorem NewMap_iff_partition regions :
  ((∃ m, NewMap regions = Ok m) ↔ partition_of regions) ∧
  ∀ m, NewMap regions = Ok m →
    rm_Regions m = regions ∧
    (∀ p id, (Of p m).1 = Some id ↔ ∃ r, r ∈ regions ∧ rg_ID r = id ∧ p ∈ rg_Cells r) ∧
    (∀ p, (Of p (mkRMap regions None)).1 = (Of p m).1).
Proof.
  unfold NewMap. split.
  - split.
    + intros [m (idx & Hrun & _)%outcome_bind_Ok]. by apply claim_regions_run in Hrun as [? _].
    + intros Hp. exists (mkRMap regions (Some (index_from regions ∅))).
      assert (claim_regions regions ∅ ∅ = Ok (index_from regions ∅)) as ->; [|done].
      apply claim_regions_run. split_and!; [done| |done|done]. set_solver.
  - intros m (idx & Hrun & [= <-])%outcome_bind_Ok.
    apply claim_regions_run in Hrun as ((_ & _ & Hnd) & _ & _ & ->). simpl. split_and!; [done| |done].
    intros p id. rewrite index_from_lookup by done. rewrite lookup_empty. naive_solver.
Qed.
End partition.

(** ** Scoring by place *)
Section scoring.
Implicit Types (infl result : gmap string Z) (rule : ScoringRule) (group : list string) (p : string).

Lemma award_lookup group pts p : ∀ result,
  award group pts result !! p = if decide (p ∈ group) then Some pts else result !! p.
Proof.
  unfold award. induction group as [|q group IH]; intros result; simpl; [done|]. rewrite IH.
  destruct (decide (p ∈ group)), (decide (p ∈ q :: group)) as [Hin|Hin]; rewrite elem_of_cons in Hin; try tauto.
  - destruct Hin as [->|]; [|done]. apply lookup_insert_eq.
  - apply lookup_insert_ne. intros ->. tauto.
Qed.

(** The players with a given influence, and the points of a place. *)
Definition holders infl (v : Z) : list string :=
  merge_sort String.le (filter (λ kv, kv.2 = v) (map_to_list infl)).*1.
Definition points rule (place : nat) : Z := default 0 (sr_PerPlace rule !! place).

Lemma elem_of_holders infl v p : p ∈ holders infl v ↔ infl !! p = Some v.
Proof.
  unfold holders. rewrite merge_sort_Permutation, list_elem_of_fmap. split.
  - intros ([p' v'] & -> & [Hv Hp%elem_of_map_to_list]%list_elem_of_filter). simpl in *. congruence.
  - intros Hp. exists (p, v). by rewrite list_elem_of_filter, elem_of_map_to_list.
Qed.

(** Places pay less and less, and never less than nothing. *)
Definition descending rule : Prop := ∀ i j : nat, (i ≤ j)%nat → 0 ≤ points rule j ≤ points rule i.

Lemma pot_bounds rule place n : descending rule →
  Z.of_nat n * points rule (place + n) ≤ pot (sr_PerPlace rule) place n ≤ Z.of_nat n * points rule place.
Proof.
  intros Hd. unfold pot. revert place. induction n as [|n IH]; intros place; [simpl; lia|].
  specialize (IH (S place)). pose proof (Hd place (place + S n)%nat ltac:(lia)) as H1.
  pose proof (Hd place (S place) ltac:(lia)) as H2. replace (S place + n)%nat with (place + S n)%nat in IH by lia.
  destruct (sr_PerPlace rule !! place) as [pts|] eqn:Hp.
  - rewrite (drop_S _ _ _ Hp). cbn [take foldr]. assert (points rule place = pts) as <- by (unfold points; by rewrite Hp). nia.
  - apply lookup_ge_None in Hp. rewrite drop_ge by lia. simpl.
    assert (∀ k, (place ≤ k)%nat → points rule k = 0) as Hz.
    { intros k Hk. unfold points. by rewrite lookup_ge_None_2 by lia. }
    rewrite !Hz by lia. lia.
Qed.

Lemma share_bounds rule place n : descending rule → (n ≠ 0)%nat →
  points rule (place + n) ≤ Z.quot (pot (sr_PerPlace rule) place n) (Z.of_nat n) ≤ points rule place.
Proof.
  intros Hd Hn. pose proof (pot_bounds rule place n Hd) as Hb.
  pose proof (Hd 0%nat (place + n)%nat ltac:(lia)) as Hpos. rewrite Z.quot_div_nonneg by nia.
  split; [apply Z.div_le_lower_bound; lia|]. apply Z.div_le_upper_bound; lia.
Qed.

Lemma holders_ne infl v p : infl !! p = Some v → length (holders infl v) ≠ 0%nat.
Proof. intros Hp%elem_of_holders Hnil%nil_length_inv. rewrite Hnil in Hp. by apply not_elem_of_nil in Hp. Qed.

(** What the players of the remaining groups get. *)
Lemma score_groups_fair infl rule vals : descending rule →
  (sr_TieBreak rule = Split ∨ sr_TieBreak rule = BothAward) →
  StronglySorted (λ v w, w < v) vals → Forall (λ v, ∃ p, infl !! p = Some v) vals →
  ∀ place result, (∀ p v, infl !! p = Some v → v ∈ vals → result !! p = Some 0) →
  let res := score_groups rule (holders infl <$> vals) place result in
  (∀ p, (∀ v, infl !! p = Some v → v ∉ vals) → res !! p = result !! p) ∧
  (∀ p v, infl !! p = Some v → v ∈ vals → ∃ x, res !! p = Some x ∧ 0 ≤ x ≤ points rule place) ∧
  (∀ p q v w x y, infl !! p = Some v → infl !! q = Some w → v ∈ vals → w ∈ vals → v ≤ w →
    res !! p = Some x → res !! q = Some y → x ≤ y).
Proof.
  intros Hd Htie. induction vals as [|v vals IH]; intros Hs Hne place result Hzero; cbn [fmap list_fmap score_groups].
  { simpl. split_and!; [done|by intros p v _ ?%not_elem_of_nil|by intros ? ? ? ? ? ? _ _ ?%not_elem_of_nil]. }
  apply Sorted.StronglySorted_inv in Hs as [Hs Hlow]. rewrite Forall_forall in Hlow.
  apply Forall_cons in Hne as [[p0 Hp0] Hne]. pose proof (holders_ne infl v p0 Hp0) as Hlen.
  destruct (sr_PerPlace rule !! place) as [pts|] eqn:Hpts.
  2:{ simpl. pose proof (Hd place place ltac:(lia)). split_and!; [done| |].
      - intros p w Hp Hw. exists 0. split; [by eapply Hzero|lia].
      - intros p q a b x y Hp Hq Ha Hb _ Hx Hy. rewrite (Hzero _ _ Hp Ha) in Hx.
        rewrite (Hzero _ _ Hq Hb) in Hy. simplify_eq. done. }
  assert (Hpl : points rule place = pts) by (unfold points; by rewrite Hpts).
  assert (Hstep : ∀ share place', points rule place' ≤ share ≤ points rule place →
    let res := score_groups rule (holders infl <$> vals) place' (award (holders infl v) share result) in
    (∀ p, (∀ w, infl !! p = Some w → w ∉ v :: vals) → res !! p = result !! p) ∧
    (∀ p w, infl !! p = Some w → w ∈ v :: vals → ∃ x, res !! p = Some x ∧ 0 ≤ x ≤ points rule place) ∧
    (∀ p q a b x y, infl !! p = Some a → infl !! q = Some b → a ∈ v :: vals → b ∈ v :: vals → a ≤ b →
      res !! p = Some x → res !! q = Some y → x ≤ y)).
  { intros share place' Hshare. pose proof (Hd place' place' ltac:(lia)) as Hpos.
    assert (Hv : v ∉ vals) by (intros Hin; specialize (Hlow v Hin); lia).
    destruct (IH Hs Hne place' (award (holders infl v) share result)) as (Hout & Hin & Hmono).
    { intros p w Hp Hw. rewrite award_lookup, decide_False; [apply (Hzero p w Hp); by right|].
      rewrite elem_of_holders. intros Hp'. assert (w = v) by congruence. by subst. }
    set (res := score_groups _ _ _ _) in *.
    assert (Htop : ∀ p, infl !! p = Some v → res !! p = Some share).
    { intros p Hp. rewrite Hout, award_lookup, decide_True; [done|by apply elem_of_holders|].
      intros w Hw. by assert (w = v) as -> by congruence. }
    split_and!.
    - intros p Hp. rewrite Hout by (intros w Hw Hw'; apply (Hp w Hw); by right). rewrite award_lookup, decide_False; [done|].
      rewrite elem_of_holders. intros Hp'. apply (Hp v Hp'). by left.
    - intros p w Hp [->|Hw]%elem_of_cons; [exists share; split; [by apply Htop|lia]|].
      destruct (Hin p w Hp Hw) as (x & Hx & Hb). exists x. split; [done|lia].
    - intros p q a b x y Hp Hq [->|Ha]%elem_of_cons [->|Hb]%elem_of_cons Hab Hx Hy.
      + rewrite Htop in Hx, Hy by done. simplify_eq. done.
      + specialize (Hlow b Hb). lia.
      + rewrite (Htop q) in Hy by done. destruct (Hin p a Hp Ha) as (x' & Hx' & Hbx). simplify_eq. lia.
      + by eapply (Hmono p q a b). }
  destruct (decide (length (holders infl v) = 1%nat)).
  - apply Hstep. subst pts. pose proof (Hd place (S place) ltac:(lia)). lia.
  - destruct Htie as [-> | ->]; apply Hstep; [by apply share_bounds|].
    subst pts. pose proof (Hd place (S place) ltac:(lia)). lia.
Qed.
End scoring.

Section fairness.
Implicit Types (infl : gmap string Z) (rule : ScoringRule) (p q : string).

Definition values infl : list Z := reverse (merge_sort Z.le (remove_dups (map_to_list infl).*2)).

Lemma elem_of_values infl v : v ∈ values infl ↔ ∃ p, infl !! p = Some v.
Proof.
  unfold values. rewrite elem_of_reverse, merge_sort_Permutation, elem_of_remove_dups, list_elem_of_fmap. split.
  - intros ([p v'] & -> & Hp%elem_of_map_to_list). eauto.
  - intros [p Hp]. exists (p, v). by rewrite elem_of_map_to_list.
Qed.

Lemma sorted_reverse (l : list Z) : NoDup l → StronglySorted Z.le l → StronglySorted (λ v w, w < v) (reverse l).
Proof.
  induction l as [|x l IH]; intros Hnd Hs; [constructor|]. apply NoDup_cons in Hnd as [Hx Hnd].
  apply Sorted.StronglySorted_inv in Hs as [Hs Hall]. rewrite Forall_forall in Hall.
  rewrite reverse_cons. apply StronglySorted_app. split_and!; [|by apply IH|by repeat constructor].
  intros y z Hy ->%list_elem_of_singleton. rewrite elem_of_reverse in Hy. specialize (Hall y Hy).
  assert (y ≠ x) by (by intros ->). lia.
Qed.

Lemma values_sorted infl : StronglySorted (λ v w, w < v) (values infl).
Proof.
  apply sorted_reverse; [|apply StronglySorted_merge_sort; apply _].
  rewrite merge_sort_Permutation. apply NoDup_remove_dups.
Qed.

(** Scoring by place is fair: with places that pay less and less and ties that
    split or share, everybody who has influence in the region is in the result, nobody
    gets less than nothing or more than the first place pays, and more influence never
    scores fewer points, equal influence the same. *)
Theorem TopN_is_fair infl rule custom : sr_Kind rule = TopN → descending rule →
  (sr_TieBreak rule = Split ∨ sr_TieBreak rule = BothAward) →
  let res := ScoreRegion infl rule custom in
  (∀ p, is_Some (res !! p) ↔ is_Some (infl !! p)) ∧
  (∀ p x, res !! p = Some x → 0 ≤ x ≤ points rule 0) ∧
  (∀ p q v w x y, infl !! p = Some v → infl !! q = Some w → res !! p = Some x → res !! q = Some y →
    (v ≤ w → x ≤ y) ∧ (v = w → x = y)).
Proof.
  intros Hkind Hd Htie res.
  assert (res = score_groups rule (holders infl <$> values infl) 0 (nobody infl)) as Hres.
  { unfold res, ScoreRegion. rewrite Hkind. by destruct Htie as [-> | ->]. }
  destruct (score_groups_fair infl rule (values infl) Hd Htie (values_sorted infl)) with (place := 0%nat) (result := nobody infl)
    as (Hout & Hin & Hmono).
  { apply Forall_forall. intros v. apply elem_of_values. }
  { intros p v Hp _. unfold nobody. by rewrite lookup_fmap, Hp. }
  rewrite <-Hres in Hout, Hin, Hmono.
  assert (Hnone : ∀ p, infl !! p = None → res !! p = None).
  { intros p Hp. rewrite Hout by congruence. unfold nobody. by rewrite lookup_fmap, Hp. }
  assert (Hsome : ∀ p v, infl !! p = Some v → ∃ x, res !! p = Some x ∧ 0 ≤ x ≤ points rule 0).
  { intros p v Hp. apply (Hin p v Hp). apply elem_of_values. eauto. }
  split_and!.
  - intros p. destruct (infl !! p) as [v|] eqn:Hp.
    + destruct (Hsome p v Hp) as (x & -> & _). by split.
    + by rewrite Hnone.
  - intros p x Hx. destruct (infl !! p) as [v|] eqn:Hp.
    + destruct (Hsome p v Hp) as (x' & Hx' & ?). congruence.
    + by rewrite Hnone in Hx.
  - intros p q v w x y Hp Hq Hx Hy.
    assert (Hle : ∀ p q v w x y, infl !! p = Some v → infl !! q = Some w → res !! p = Some x → res !! q = Some y →
      v ≤ w → x ≤ y).
    { intros p1 q1 v1 w1 x1 y1 Hp1 Hq1 ? ? ?. apply (Hmono p1 q1 v1 w1 x1 y1); try done; apply elem_of_values; eauto. }
    split; [by apply (Hle p q)|]. intros <-.
    apply Z.le_antisymm; [by apply (Hle p q v v)|by apply (Hle q p v v)].
Qed.
End fairness.

(** Three players, two of them tied for the first of three places. *)
Lemma TopN_is_fair_witness :
  let infl : gmap string Z := {["a" := 4; "b" := 4; "c" := 1]} in
  let rule := mkRule TopN [5; 2; 1] 0 0 Split in
  let res := ScoreRegion infl rule None in
  res !! "a" = Some 3 ∧ res !! "b" = Some 3 ∧ res !! "c" = Some 1 ∧ 1 ≤ 3.
Proof.
  intros infl rule res. split_and!; [by vm_compute..|].
  destruct (TopN_is_fair infl rule None) as (_ & _ & Hfair); [done| |by left|].
  - intros i j Hij. unfold points. simpl.
    destruct i as [|[|[|i]]], j as [|[|[|j]]]; simpl; rewrite ?lookup_nil; simpl; lia.
  - apply (Hfair "c" "a" 1 4 1 3); [by vm_compute..|lia].
Defined.

Lemma NewMap_iff_partition_witness :
  let regions := [mkRegion "north" [mkPos 0 0; mkPos 1 0] ""; mkRegion "south" [mkPos 0 1] ""] in
  ∃ m, NewMap regions = Ok m ∧ (Of (mkPos 0 1) m).1 = Some "south".
Proof.
  intros regions. destruct (NewMap_iff_partition regions) as [Hiff Hof].
  destruct (proj2 Hiff) as [m Hm].
  - split_and!; [by repeat constructor|apply (bool_decide_unpack _); by vm_compute..].
  - exists m. split; [done|]. destruct (Hof m Hm) as (_ & Hin & _). apply Hin.
    exists (mkRegion "south" [mkPos 0 1] ""). split_and!; [right; by left|done|by left].
Defined.
