(* ===== verification/Shop.v ===== *)
(** * Shop: a market row refilled from a stock

    [src/modules/shop]: shop.go, refresh.go, freeze.go and buy.go, over the zones of
    Cards. *)

From S2P Require Import Prelude Choices Cards CardFacts CardTheorems.
#[local] Open Scope Z_scope.

Definition ShopFrozenAttrKey : string := "__shop_frozen".

Record Shop := mkShop { sh_Slots : ZoneName; sh_Stock : ZoneName; sh_Size : Z }.

Section shop.
Context {H : Type}.
Abbreviation M := (ST (State H) ccg_error).
Implicit Types (sh : Shop) (s : State H) (id : EntityID).

Definition Freeze sh id : M () :=
  here ← get (Contains (sh_Slots sh) id);
  if here : bool then SetAttr id ShopFrozenAttrKey (AVal (GoBool true)) else st_err ErrNotInSlots.

Definition unfrozen (e : Entity) : Entity := set_Attrs (delete ShopFrozenAttrKey (en_Attrs e)) e.
Definition Unfreeze id : M () := with_entity id unfrozen.

Definition IsFrozen id s : bool :=
  match Entities s !! id with
  | Some e => match en_Attrs e !! ShopFrozenAttrKey with Some (AVal (GoBool b)) => b | _ => false end
  | None => false
  end.

Fixpoint destroy_all (ids : list EntityID) : M () :=
  match ids with
  | [] => mret tt
  | id :: ids => _ ← Destroy id; destroy_all ids
  end.

Definition Clear sh (dest : ZoneName) : M () :=
  z ← the_zone (sh_Slots sh);
  victims ← get (λ s, filter (λ id, IsFrozen id s = false) (zn_Members z));
  if decide (dest = "") then destroy_all victims
  else
    _ ← the_zone dest;
    move_all victims dest.

Definition Fill sh : M () :=
  slots ← the_zone (sh_Slots sh);
  stock ← the_zone (sh_Stock sh);
  let want := sh_Size sh - Z.of_nat (length (zn_Members slots)) in
  if decide (want ≤ 0) then mret tt
  else
    let have := Z.of_nat (length (zn_Members stock)) in
    let want := if decide (have < want) then have else want in
    if decide (want = 0) then mret tt
    else
      drawn ← Draw (sh_Stock sh) want;
      move_all drawn (sh_Slots sh).

(** [Roll] of shop. *)
Definition Reroll sh (dest : ZoneName) : M () :=
  _ ← Clear sh dest;
  Fill sh.

Definition Buy sh (item : EntityID) (destination : ZoneName) : M () :=
  here ← get (Contains (sh_Slots sh) item);
  if here : bool then
    _ ← the_zone destination;
    _ ← MoveTo item destination;
    Unfreeze item
  else st_err ErrNotInSlots.
End shop.

(** ** A reroll *)
Section reroll.
Context {H : Type}.
Implicit Types (sh : Shop) (s : State H).

Lemma Fill_run sh s zslots zstock : wf s → sh_Slots sh ≠ sh_Stock sh →
  Zones s !! sh_Slots sh = Some zslots → Zones s !! sh_Stock sh = Some zstock → zn_Capacity zslots ≤ 0 →
  let drawn := top_of (Z.to_nat (sh_Size sh - Z.of_nat (length (members s (sh_Slots sh))))) (members s (sh_Stock sh)) in
  ∃ s', Fill sh s = (Ok tt, s') ∧ wf s' ∧
    members s' (sh_Slots sh) = members s (sh_Slots sh) ++ drawn ∧
    members s (sh_Stock sh) = members s' (sh_Stock sh) ++ rev drawn ∧
    (∀ n, n ≠ sh_Slots sh → n ≠ sh_Stock sh → members s' n = members s n).
Proof.
  intros Hwf Hne Hslots Hstock Hcap. unfold Fill. rewrite bind_eq. unfold the_zone. rewrite Hslots.
  cbv beta iota. rewrite bind_eq, Hstock. cbv beta iota zeta.
  assert (zn_Members zslots = members s (sh_Slots sh)) as -> by (unfold members; by rewrite Hslots).
  assert (zn_Members zstock = members s (sh_Stock sh)) as -> by (unfold members; by rewrite Hstock).
  set (want := sh_Size sh - Z.of_nat (length (members s (sh_Slots sh)))).
  set (stock := members s (sh_Stock sh)).
  assert (Hnone : top_of (Z.to_nat want) stock = [] → ∃ s', (mret tt : ST (State H) ccg_error ()) s = (Ok tt, s') ∧ wf s' ∧
    members s' (sh_Slots sh) = members s (sh_Slots sh) ++ top_of (Z.to_nat want) stock ∧
    stock = members s' (sh_Stock sh) ++ rev (top_of (Z.to_nat want) stock) ∧
    (∀ n, n ≠ sh_Slots sh → n ≠ sh_Stock sh → members s' n = members s n)).
  { intros ->. exists s. simpl. by rewrite !app_nil_r. }
  case_decide as Hwant.
  { apply Hnone. by replace (Z.to_nat want) with 0%nat by lia. }
  set (k := if decide (Z.of_nat (length stock) < want) then Z.of_nat (length stock) else want).
  assert (Htop : top_of (Z.to_nat k) stock = top_of (Z.to_nat want) stock).
  { unfold k, top_of. case_decide; [|done]. by rewrite !take_ge by (rewrite length_rev; lia). }
  case_decide as Hk.
  { apply Hnone. rewrite <-Htop, Hk. done. }
  assert (Hstock' : stock ≠ []).
  { intros Hnil. unfold k in Hk. rewrite Hnil in Hk. simpl in Hk. case_decide; lia. }
  assert (Hkpos : 0 < k) by (unfold k in *; case_decide; lia).
  rewrite bind_eq.
  destruct (Draw_run (sh_Stock sh) k s Hwf) as [(e & _ & ?)|[[? _]|(s1 & _ & -> & Hwf1 & Hf & Hm & Ho & Hd & Hz)]];
    [done|lia|]. cbv beta iota. fold stock in Hm, Hd, Hz |- *. rewrite Htop in *.
  set (drawn := top_of (Z.to_nat want) stock) in *.
  destruct (frame_zone s s1 (sh_Slots sh) zslots Hf Hslots) as (z1 & Hz1 & Hc1 & _).
  assert (Hin : ∀ i, i ∈ drawn → i ∈ stock).
  { intros i Hi. rewrite Hm, elem_of_app. right. by rewrite <-Permutation_rev. }
  assert (Hnd : NoDup drawn).
  { pose proof (members_NoDup s (sh_Stock sh) Hwf) as Hnd. fold stock in Hnd. rewrite Hm in Hnd.
    apply NoDup_app in Hnd as (_ & _ & Hnd). by rewrite <-Permutation_rev in Hnd. }
  destruct (move_all_ok drawn (sh_Slots sh) s1 z1 Hwf1 Hz1) as (s2 & Hrun & [Hwf2 _ _ _ Hm2]).
  { intros i Hi. apply elem_of_dom. rewrite Hd. apply elem_of_dom. by apply (members_zone s (sh_Stock sh)), Hin. }
  { left. lia. }
  specialize (Hm2 Hnd). exists s2.
  assert (Hout : ∀ n, n ≠ "" → filter (.∉ drawn) (members s1 n) = members s1 n).
  { intros n Hn. apply filter_id. intros x Hx Hx'.
    destruct (members_zone s1 n x Hwf1 Hx) as [_ Hzx]. rewrite Hz, decide_True in Hzx by done. congruence. }
  assert (Hn1 : sh_Slots sh ≠ "") by by apply (wf_zone _ Hwf) in Hslots as [].
  assert (Hn2 : sh_Stock sh ≠ "") by by apply (wf_zone _ Hwf) in Hstock as [].
  split_and!; [done|done| | |].
  - rewrite Hm2, Hout, decide_True, Ho by done. done.
  - by rewrite Hm2, Hout, decide_False, app_nil_r by done.
  - intros n Hns Hnt. rewrite Hm2, decide_False, app_nil_r, Ho by done. destruct (decide (n = "")) as [->|Hn].
    + enough (members s "" = []) as -> by done. destruct (members s "") as [|x l] eqn:Hl; [done|].
      destruct (members_zone s "" x Hwf) as [[e He] _]; [rewrite Hl; by left|].
      exfalso. unfold members in Hl. case_match eqn:Hz0; [|done].
      apply (wf_zone _ Hwf) in Hz0 as [Hz0 _]. by apply Hz0.
    + by rewrite <-(Ho n), Hout.
Qed.

(** A reroll keeps what is frozen and refills the rest: with the row, the stock and
    the pile the old items go to all different and uncapped, the frozen items stay in
    the row in their order, the others go to the pile, the row is topped up from the
    top of the stock to its size as far as the stock reaches, and the stock is short
    of exactly what was drawn. *)
Theorem Reroll_refills sh dest s zslots zstock zdest : wf s →
  NoDup [sh_Slots sh; sh_Stock sh; dest] → Zones s !! sh_Slots sh = Some zslots →
  Zones s !! sh_Stock sh = Some zstock → Zones s !! dest = Some zdest →
  zn_Capacity zslots ≤ 0 → zn_Capacity zdest ≤ 0 →
  let row := members s (sh_Slots sh) in
  let frozen := filter (λ id, IsFrozen id s = true) row in
  let sold := filter (λ id, IsFrozen id s = false) row in
  let drawn := top_of (Z.to_nat (sh_Size sh - Z.of_nat (length frozen))) (members s (sh_Stock sh)) in
  ∃ s', Reroll sh dest s = (Ok tt, s') ∧ wf s' ∧
    members s' (sh_Slots sh) = frozen ++ drawn ∧
    members s' dest = members s dest ++ sold ∧
    members s (sh_Stock sh) = members s' (sh_Stock sh) ++ rev drawn.
Proof.
  intros Hwf Hnd Hslots Hstock Hdest Hcs Hcd row frozen sold drawn.
  assert (Hne : sh_Slots sh ≠ sh_Stock sh ∧ sh_Slots sh ≠ dest ∧ sh_Stock sh ≠ dest).
  { rewrite !NoDup_cons, !not_elem_of_cons in Hnd. tauto. }
  destruct Hne as (Hne1 & Hne2 & Hne3).
  assert (Hrow : zn_Members zslots = row) by (unfold row, members; by rewrite Hslots).
  assert (Hndr : NoDup row) by by apply members_NoDup.
  destruct (move_all_ok sold dest s zdest Hwf Hdest) as (s1 & Hrun & [Hwf1 Hf1 _ _ Hm1]).
  { intros i [_ Hi]%list_elem_of_filter. by apply (members_zone s (sh_Slots sh)). }
  { by left. }
  specialize (Hm1 ltac:(by apply NoDup_filter)).
  assert (Hother : ∀ n, n ≠ sh_Slots sh → filter (.∉ sold) (members s n) = members s n).
  { intros n Hn. apply filter_id. intros x Hx [_ Hx']%list_elem_of_filter.
    apply (members_zone s n x Hwf) in Hx as [_ Hx]. apply (members_zone s _ x Hwf) in Hx' as [_ Hx']. congruence. }
  assert (Hfrozen : members s1 (sh_Slots sh) = frozen).
  { rewrite Hm1, decide_False, app_nil_r by done. unfold frozen, sold. fold row.
    apply filter_ext_in. intros x Hx. rewrite list_elem_of_filter. destruct (IsFrozen x s); naive_solver. }
  destruct (frame_zone s s1 _ _ Hf1 Hslots) as (z1 & Hz1 & Hc1 & _).
  destruct (frame_zone s s1 _ _ Hf1 Hstock) as (z2 & Hz2 & _).
  destruct (Fill_run sh s1 z1 z2) as (s2 & Hfill & Hwf2 & Hms & Hmt & Hmo); [done..|lia|].
  rewrite (Hm1 (sh_Stock sh)), (decide_False (P := sh_Stock sh = dest)), app_nil_r, Hother in Hms, Hmt by done.
  rewrite Hfrozen in Hms, Hmt. exists s2. split_and!; [|done|done| |done].
  - unfold Reroll. rewrite bind_eq. unfold Clear. rewrite bind_eq. unfold the_zone. rewrite Hslots.
    cbv beta iota. rewrite bind_eq. unfold get. cbv beta iota. rewrite Hrow. fold sold.
    assert (dest ≠ "") by by apply (wf_zone _ Hwf) in Hdest as [].
    rewrite decide_False by done. rewrite bind_eq, Hdest. cbv beta iota. by rewrite Hrun.
  - rewrite Hmo, Hm1, decide_True, Hother by done. done.
Qed.

End reroll.

(** A row of one frozen item. *)
Definition market : Shop := mkShop "hand" "deck" 2.
Definition frozen_table : State Empty_set := (Freeze market 1 table).2.

Lemma frozen_table_wf : wf frozen_table.
Proof.
  assert (Hk : keeps wf (Freeze (H:=Empty_set) market 1)); [|apply (Hk _ table_wf)].
  apply keeps_bind_reads; [done|]. intros s [] Hs _; [|done]. apply keeps_with_entity; [by intros e|done].
Qed.

Lemma Reroll_refills_witness :
  ∃ s', Reroll market "field" frozen_table = (Ok tt, s') ∧ members s' "hand" = [1; 3] ∧ members s' "deck" = [2].
Proof.
  destruct (Reroll_refills market "field" frozen_table (mkZone "hand" false 0 [1]) (mkZone "deck" true 0 [2; 3])
    (mkZone "field" false 0 [])) as (s' & Hrun & _ & Hrow & _ & Hdeck).
  - apply frozen_table_wf.
  - apply (bool_decide_unpack _). by vm_compute.
  - by vm_compute.
  - by vm_compute.
  - by vm_compute.
  - simpl. lia.
  - simpl. lia.
  - exists s'. split; [exact Hrun|]. split; [exact Hrow|].
    assert (Hdeck' : [2; 3] = members s' "deck" ++ [3]) by exact Hdeck.
    symmetry. apply (app_inj_tail [2] _ 3 3 Hdeck').
Defined.
