(* ===== verification/Json.v ===== *)
(** * Strings and JSON as the servers take them apart

    The functions of Go's strings, path/filepath, math/big, encoding/base64 and encoding/json that the code
    uses. *)

From S2P Require Import Prelude.
#[local] Open Scope Z_scope.

(** [strings.Split(s, sep)] for a separator of one byte. *)
Fixpoint split_on (sep : Ascii.ascii) (s : string) : list string :=
  match s with
  | EmptyString => [""]
  | String c s =>
      if decide (c = sep) then "" :: split_on sep s
      else match split_on sep s with p :: ps => String c p :: ps | [] => [String c EmptyString] end
  end.

(** [strings.CutPrefix]: what follows a prefix. *)
Fixpoint strip_prefix (p s : string) : option string :=
  match p, s with
  | EmptyString, s => Some s
  | String a p, String b s => if decide (a = b) then strip_prefix p s else None
  | String _ _, EmptyString => None
  end.

(** [s[i+1:]] for the first [i] with [s[i] = sep]. *)
Fixpoint after_first (sep : Ascii.ascii) (s : string) : option string :=
  match s with
  | EmptyString => None
  | String c s => if decide (c = sep) then Some s else after_first sep s
  end.

(** [filepath.Join], one segment at a time: the path is kept clean. *)
Definition step_into (p : list string) (segment : string) : list string :=
  if decide (segment ∈ [""; "."]) then p
  else if decide (segment = "..") then removelast p
  else p ++ [segment].

Definition byte_of (c : Ascii.ascii) : Z := Z.of_N (Ascii.N_of_ascii c).

Definition colon : Ascii.ascii := Ascii.ascii_of_nat 58.
Definition dot : Ascii.ascii := Ascii.ascii_of_nat 46.
Definition nul : Ascii.ascii := Ascii.zero.

(** [new(big.Int).SetBytes] *)
Definition be_int (bs : list Z) : Z := foldl (λ n b, Z.shiftl n 8 + b) 0 bs.

(** Two's complement of 64 bits. *)
Definition wrap64 (n : Z) : Z := (n + 2 ^ 63) mod 2 ^ 64 - 2 ^ 63.

(** ** encoding/base64: [RawURLEncoding.DecodeString]

    Line breaks are skipped; the bits left over at the end are not looked at. *)
Definition sextet (c : Ascii.ascii) : option Z :=
  let n := byte_of c in
  if decide (65 ≤ n ≤ 90) then Some (n - 65)
  else if decide (97 ≤ n ≤ 122) then Some (n - 71)
  else if decide (48 ≤ n ≤ 57) then Some (n + 4)
  else if decide (n = 45) then Some 62
  else if decide (n = 95) then Some 63
  else None.

Definition line_break (c : Ascii.ascii) : Prop := byte_of c = 10 ∨ byte_of c = 13.
#[export] Instance line_break_dec c : Decision (line_break c).
Proof. apply _. Defined.

Definition octets (a b c d : Z) : list Z :=
  let v := Z.lor (Z.shiftl a 18) (Z.lor (Z.shiftl b 12) (Z.lor (Z.shiftl c 6) d)) in
  [Z.shiftr v 16; Z.land (Z.shiftr v 8) 255; Z.land v 255].

Fixpoint quanta (l : list Z) : option (list Z) :=
  match l with
  | [] => Some []
  | [_] => None
  | [a; b] => Some (take 1 (octets a b 0 0))
  | [a; b; c] => Some (take 2 (octets a b c 0))
  | a :: b :: c :: d :: l => app (octets a b c d) <$> quanta l
  end.

Definition base64_decode (s : string) : option (list Z) :=
  sextets ← mapM sextet (filter (λ c, ¬ line_break c) (String.list_ascii_of_string s)); quanta sextets.

Example base64_hello : base64_decode "aGVsbG8" = Some [104; 101; 108; 108; 111].
Proof. vm_compute. reflexivity. Qed.

(** ** Facts *)
Lemma strip_prefix_app p s : strip_prefix p (p +:+ s) = Some s.
Proof. induction p as [|c p IH]; [done|]. simpl. by rewrite decide_True. Qed.

Lemma strip_prefix_Some p s rest : strip_prefix p s = Some rest ↔ s = p +:+ rest.
Proof.
  split; [|by intros ->; apply strip_prefix_app]. revert s. induction p as [|c p IH]; intros s; simpl; [by intros [= ->]|].
  destruct s as [|b s]; [done|]. case_decide as Hc; [|done]. subst. by intros ->%IH.
Qed.

Definition free_of (sep : Ascii.ascii) (s : string) : Prop := Forall (λ c, c ≠ sep) (String.list_ascii_of_string s).

Lemma free_cons sep c s : free_of sep (String c s) ↔ c ≠ sep ∧ free_of sep s.
Proof. unfold free_of. simpl. apply (Forall_cons (λ c, c ≠ sep)). Qed.

Lemma after_first_app sep a b : free_of sep a → after_first sep (a +:+ String sep b) = Some b.
Proof.
  induction a as [|c a IH]; intros Ha; simpl; [by rewrite decide_True|].
  apply free_cons in Ha as [Hc Ha]. rewrite decide_False by done. by apply IH.
Qed.

(** Keys made of two parts are told apart when the first holds no separator. *)
Lemma join_inj sep a b a' b' : free_of sep a → free_of sep a' →
  a +:+ String sep b = a' +:+ String sep b' → a = a' ∧ b = b'.
Proof.
  revert a'. induction a as [|c a IH]; intros [|c' a'] Ha Ha' Heq; simpl in Heq.
  - by injection Heq.
  - injection Heq as <- _. by apply free_cons in Ha' as [? _].
  - injection Heq as -> _. by apply free_cons in Ha as [? _].
  - injection Heq as <- Heq. apply free_cons in Ha as [_ Ha], Ha' as [_ Ha'].
    by destruct (IH a' Ha Ha' Heq) as [<- <-].
Qed.

Lemma list_ascii_app a b : String.list_ascii_of_string (a +:+ b) = String.list_ascii_of_string a ++ String.list_ascii_of_string b.
Proof. induction a as [|c a IH]; [done|]. simpl. f_equal. exact IH. Qed.

Lemma free_app sep a b : free_of sep a → free_of sep b → free_of sep (a +:+ b).
Proof. unfold free_of. rewrite list_ascii_app, Forall_app. done. Qed.

Lemma split_on_free sep l rest : free_of sep l → split_on sep (l +:+ String sep rest) = l :: split_on sep rest.
Proof.
  induction l as [|c l IH]; intros Hl; simpl; [by rewrite decide_True|]. apply free_cons in Hl as [Hc Hl].
  rewrite decide_False by done. simpl in IH. by rewrite IH.
Qed.
Lemma split_on_last sep l : free_of sep l → split_on sep l = [l].
Proof.
  induction l as [|c l IH]; intros Hl; simpl; [done|]. apply free_cons in Hl as [Hc Hl].
  rewrite decide_False by done. by rewrite IH.
Qed.

Lemma append_assoc (a b c : string) : (a +:+ b) +:+ c = a +:+ (b +:+ c).
Proof. induction a as [|x a IH]; [done|]. exact (f_equal (String x) IH). Qed.

Lemma split_three sep s a b c : split_on sep s = [a; b; c] → s = a +:+ String sep (b +:+ String sep c).
Proof.
  assert (H0 : ∀ s p ps, split_on sep s = p :: ps →
    s = match ps with [] => p | _ => p +:+ String sep (String.concat (String sep EmptyString) ps) end).
  { clear. intros s. induction s as [|x s IH]; intros p ps; simpl; [by intros [= <- <-]|]. case_decide as Hx.
    - subst x. destruct (split_on sep s) as [|q qs] eqn:Hs; [by destruct s; simpl in Hs; repeat case_match|].
      intros [= <- <-]. simpl. f_equal. by rewrite (IH q qs).
    - destruct (split_on sep s) as [|q qs] eqn:Hs; [by destruct s; simpl in Hs; repeat case_match|].
      intros [= <- <-]. rewrite (IH q qs) by done. by destruct qs. }
  intros H. apply H0 in H. exact H.
Qed.

(** ** JSON values and what Go decodes from them

    encoding/json as the servers use it: a value decoded into variables and structs.
    The text itself is not modelled. *)

(** A JSON value; a number carries its reading as an int, if it is one, and its literal. *)
Inductive json : Type :=
  | JNull
  | JBool (b : bool)
  | JNum (n : option Z) (literal : string)
  | JStr (s : string)
  | JArr (l : list json)
  | JObj (fields : list (string * json)).

(** encoding/json, decoding a value into a variable of a type: [null] leaves a string or
    a number as it is, a value of another type is an error. *)
Inductive decoded (A : Type) : Type := Keep | Put (a : A) | Bad.
Arguments Keep {A}.
Arguments Put {A} a.
Arguments Bad {A}.

Definition as_string (j : json) : decoded string :=
  match j with JNull => Keep | JStr s => Put s | _ => Bad end.
Definition as_bool (j : json) : decoded bool :=
  match j with JNull => Keep | JBool b => Put b | _ => Bad end.
Definition as_int (j : json) : decoded Z :=
  match j with JNull => Keep | JNum (Some n) _ => Put n | _ => Bad end.

(** Keys match a field's name up to ASCII case. *)
Definition lower (c : Ascii.ascii) : Ascii.ascii :=
  let n := Ascii.nat_of_ascii c in
  if decide (65 ≤ n ∧ n ≤ 90)%nat then Ascii.ascii_of_nat (n + 32) else c.
Fixpoint lower_case (s : string) : string :=
  match s with EmptyString => EmptyString | String c s => String (lower c) (lower_case s) end.

(** The fields of an object decoded into one field of a struct, in order; and whether
    there was no error. *)
Definition field {A} (zero : A) (read : json → decoded A) (name : string) (fields : list (string * json)) : A * bool :=
  foldl (λ '(v, ok) '(k, j),
    if decide (lower_case k = lower_case name) then
      match read j with Keep => (v, ok) | Put a => (a, ok) | Bad => (v, false) end
    else (v, ok)) (zero, true) fields.

(** A body decoded into a struct: [null] leaves the struct as it is. *)
Definition body_fields (body : option json) : option (list (string * json)) :=
  match body with Some (JObj fields) => Some fields | Some JNull => Some [] | _ => None end.

(** A body decoded into a map of raw values: the last of a key counts. *)
Definition raw_field (name : string) (fields : list (string * json)) : option json :=
  snd <$> last (filter (λ f, f.1 = name) fields).

(** [_ = json.Unmarshal(v, &x)] *)
Definition unmarshal {A} (zero : A) (read : json → decoded A) (j : option json) : A :=
  match j with Some j => match read j with Put a => a | _ => zero end | None => zero end.
