(* ===== verification/Storage.v ===== *)
(** * Match storage

    [src/storage]: storage.go (the stored records and the Storage interface),
    memory.go, flatfile.go, cached.go and writebehind.go.  The interface is a class; the two
    decorators are instances over any other storage. *)

From stdpp Require Import sorting.
From S2P Require Import Prelude Json CoreTypes.
#[local] Open Scope Z_scope.

Section data.
Context {T : GoTypes}.

Record Player := mkPlayer {
  sp_ID : string;
  sp_Name : string;
  sp_Seat : string;
  sp_Credentials : string;
  sp_Data : any;
  sp_IsConnected : bool
}.

Record Match := mkMatch {
  mt_ID : string;
  mt_GameName : string;
  mt_State : State;
  mt_Players : list Player;
  mt_SetupData : any;
  mt_Unlisted : bool;
  mt_CreatedAt : Z;
  mt_NextMatchID : string;
  mt_Name : string;
  mt_JoinCode : string;
  mt_SchemaVersion : Z
}.

Definition set_mt_State (v : State) (m : Match) : Match :=
  mkMatch (mt_ID m) (mt_GameName m) v (mt_Players m) (mt_SetupData m) (mt_Unlisted m) (mt_CreatedAt m)
    (mt_NextMatchID m) (mt_Name m) (mt_JoinCode m) (mt_SchemaVersion m).
Definition set_mt_Players (v : list Player) (m : Match) : Match :=
  mkMatch (mt_ID m) (mt_GameName m) (mt_State m) v (mt_SetupData m) (mt_Unlisted m) (mt_CreatedAt m)
    (mt_NextMatchID m) (mt_Name m) (mt_JoinCode m) (mt_SchemaVersion m).
Definition set_mt_NextMatchID (v : string) (m : Match) : Match :=
  mkMatch (mt_ID m) (mt_GameName m) (mt_State m) (mt_Players m) (mt_SetupData m) (mt_Unlisted m)
    (mt_CreatedAt m) v (mt_Name m) (mt_JoinCode m) (mt_SchemaVersion m).
Definition set_mt_SchemaVersion (v : Z) (m : Match) : Match :=
  mkMatch (mt_ID m) (mt_GameName m) (mt_State m) (mt_Players m) (mt_SetupData m) (mt_Unlisted m)
    (mt_CreatedAt m) (mt_NextMatchID m) (mt_Name m) (mt_JoinCode m) v.

Inductive store_error : Type := ErrNotFound | ErrConflict | BackendError (code : Z).
#[global] Instance store_error_eq_dec : EqDecision store_error.
Proof. solve_decision. Defined.

(** storage.go: [Storage], and [OptimisticStorage] for the ones whose [UpdateIfStateID] is there.
    [Alias] says what an assignment through a match obtained from [Get] does to the store: a
    store that hands out copies is unchanged, one that hands out its own record changes
    with it. *)
Class Storage (S : Type) := {
  Create : Match → ST S store_error ();
  Get : string → ST S store_error Match;
  Update : Match → ST S store_error ();
  List : string → ST S store_error (list Match);
  Wipe : string → ST S store_error ();
  UpdateIfStateID : option (Match → Z → ST S store_error ());
  Alias : Match → S → S
}.

Definition of_game (gameName : string) (m : Match) : Prop := gameName = "" ∨ mt_GameName m = gameName.
#[global] Instance of_game_dec gameName m : Decision (of_game gameName m).
Proof. unfold of_game. apply _. Defined.

(** ** memory.go: a map of copies *)
Definition Memory_Update (m : Match) : ST (gmap string Match) store_error () := λ s,
  match s !! mt_ID m with
  | None => (Err ErrNotFound, s)
  | Some _ => (Ok tt, <[mt_ID m := m]> s)
  end.

#[global] Instance Memory_Storage : Storage (gmap string Match) := {
  Create m := λ s, (Ok tt, <[mt_ID m := m]> s);
  Get id := λ s, (match s !! id with Some m => Ok m | None => Err ErrNotFound end, s);
  Update := Memory_Update;
  List gameName := λ s, (Ok (filter (of_game gameName) (map_to_list s).*2), s);
  Wipe id := λ s, match s !! id with
                  | None => (Err ErrNotFound, s)
                  | Some _ => (Ok tt, delete id s)
                  end;
  UpdateIfStateID := Some (λ m expectedStateID s,
    match s !! mt_ID m with
    | None => (Err ErrNotFound, s)
    | Some cur => if decide (st_StateID (mt_State cur) = expectedStateID) then (Ok tt, <[mt_ID m := m]> s)
                  else (Err ErrConflict, s)
    end);
  Alias _ := id
}.

(** ** flatfile.go: a file per match

    The file system is a map from directories to their files.  What may still go wrong is what
    the paths and the contents of files bring about; a store sees no other process. *)
Section flatfile.
Abbreviation path := (list string).
Abbreviation FS := (gmap path (gmap string string)).
Abbreviation M := (ST FS store_error).
(** [json.Encoder.Encode] and [json.Unmarshal] of a match; the name of a temporary file. *)
Context (encode : Match → option string) (decode : string → option Match) (temp_name : FS → string).
Context (dir : path).
Implicit Types (fs : FS) (id : string) (p : path).

(** [os.MkdirAll]: the directory and those above it. *)
Definition NewFlatFile fs : FS :=
  foldl (λ fs n, let p := take n dir in <[p := default ∅ (fs !! p)]> fs) fs (seq 0 (S (length dir))).

Definition json_suffix : string := ".json".
Definition matchPath id : path := foldl step_into dir (split_on (Ascii.ascii_of_nat 47) (id +:+ json_suffix)).

Definition file_at p fs : option string := name ← last p; files ← fs !! removelast p; files !! name.
Definition is_dir p fs : Prop := is_Some (fs !! p).
#[local] Instance is_dir_dec p fs : Decision (is_dir p fs).
Proof. unfold is_dir. apply _. Defined.
(** [os.Stat] *)
Definition Stat p fs : Prop := is_dir p fs ∨ is_Some (file_at p fs).
#[local] Instance Stat_dec p fs : Decision (Stat p fs).
Proof. unfold Stat. apply _. Defined.

Definition put_file p (text : string) fs : FS :=
  match last p with
  | Some name => alter (<[name := text]>) (removelast p) fs
  | None => fs
  end.

Definition errExists : store_error := BackendError 1.
Definition errDecode : store_error := BackendError 2.
Definition errEncode : store_error := BackendError 3.
Definition errPath : store_error := BackendError 4.

(** A rename onto a directory, or into one that is not there, fails and leaves the temporary
    file. *)
Definition write_match p (m : Match) : M () := λ fs,
  match fs !! dir with
  | None => (Err errPath, fs)
  | Some _ =>
      match encode m with
      | None => (Err errEncode, fs)
      | Some text =>
          if decide (is_dir p fs ∨ ¬ is_dir (removelast p) fs)
          then (Err errPath, put_file (dir ++ [temp_name fs]) text fs)
          else (Ok tt, put_file p text fs)
      end
  end.

Definition read_match id fs : outcome store_error Match :=
  let p := matchPath id in
  match file_at p fs with
  | Some text => match decode text with Some m => Ok m | None => Err errDecode end
  | None => if decide (is_dir p fs) then Err errPath else Err ErrNotFound
  end.

Definition Flat_Create (m : Match) : M () := λ fs,
  let p := matchPath (mt_ID m) in
  if decide (Stat p fs) then (Err errExists, fs) else write_match p m fs.

Definition Flat_Update (m : Match) : M () := λ fs,
  let p := matchPath (mt_ID m) in
  if decide (Stat p fs) then write_match p m fs else (Err ErrNotFound, fs).

(** [strings.TrimSuffix], for a string with that suffix. *)
Fixpoint strip_suffix (suffix s : string) : option string :=
  if decide (s = suffix) then Some ""
  else match s with EmptyString => None | String c s => String c <$> strip_suffix suffix s end.

(** [os.ReadDir]: by name. *)
Definition listed_files (files : gmap string string) : list string := merge_sort String.le (map_to_list files).*1.

Definition Flat_List (gameName : string) : M (list Match) := λ fs,
  (match fs !! dir with
   | None => Err errPath
   | Some files =>
       Ok (filter (of_game gameName)
             (omap (λ name, id ← strip_suffix json_suffix name;
                            match read_match id fs with Ok m => Some m | _ => None end) (listed_files files)))
   end, fs).

(** [os.Remove] takes an empty directory away, too. *)
Definition Flat_Wipe id : M () := λ fs,
  let p := matchPath id in
  match file_at p fs, last p with
  | Some _, Some name => (Ok tt, alter (delete name) (removelast p) fs)
  | _, _ =>
      if decide (is_dir p fs) then
        if decide (fs !! p = Some ∅ ∧ map_Forall (λ q _, ¬ p `prefix_of` q ∨ q = p) fs)
        then (Ok tt, delete p fs) else (Err errPath, fs)
      else (Err ErrNotFound, fs)
  end.

Definition FlatFile : Storage FS := {|
  Create := Flat_Create;
  Get id := λ fs, (read_match id fs, fs);
  Update := Flat_Update;
  List := Flat_List;
  Wipe := Flat_Wipe;
  UpdateIfStateID := None;
  Alias _ := λ fs, fs
|}.
End flatfile.

(** ** cached.go *)
Record CacheOpts := mkCacheOpts { co_TTL : Z; co_MaxEntries : Z }.
Record cacheEntry := mkEntry { ce_match : Match; ce_expiry : Z }.

(** The most recently used id first; [cc_now] is the clock. *)
Record Cached (S : Type) := mkCached {
  cc_inner : S;
  cc_opts : CacheOpts;
  cc_cache : gmap string cacheEntry;
  cc_lru : list string;
  cc_now : Z
}.
Arguments mkCached {S}.
Arguments cc_inner {S}.
Arguments cc_opts {S}.
Arguments cc_cache {S}.
Arguments cc_lru {S}.
Arguments cc_now {S}.

Section cached.
Context {S : Type} `{!Storage S}.
Abbreviation M := (ST (Cached S) store_error).
Implicit Types (c : Cached S) (id : string).

Definition set_cache (cache : gmap string cacheEntry) (lru : list string) c : Cached S :=
  mkCached (cc_inner c) (cc_opts c) cache lru (cc_now c).

(** A call of the inner storage. *)
Definition inner {A} (op : ST S store_error A) : M A := λ c,
  let '(r, s) := op (cc_inner c) in
  (r, mkCached s (cc_opts c) (cc_cache c) (cc_lru c) (cc_now c)).

Definition without id (l : list string) : list string := filter (.≠ id) l.

Definition evictLocked id c : Cached S :=
  match cc_cache c !! id with
  | Some _ => set_cache (delete id (cc_cache c)) (without id (cc_lru c)) c
  | None => c
  end.

Definition put (m : Match) c : Cached S :=
  let id := mt_ID m in
  let expiry := if decide (0 < co_TTL (cc_opts c)) then cc_now c + co_TTL (cc_opts c) else 0 in
  match cc_cache c !! id with
  | Some e =>
      let expiry := if decide (0 < co_TTL (cc_opts c)) then expiry else ce_expiry e in
      set_cache (<[id := mkEntry m expiry]> (cc_cache c)) (id :: without id (cc_lru c)) c
  | None =>
      let lru := id :: cc_lru c in
      let c := set_cache (<[id := mkEntry m expiry]> (cc_cache c)) lru c in
      if decide (0 < co_MaxEntries (cc_opts c) ∧ co_MaxEntries (cc_opts c) < Z.of_nat (length lru))
      then match last lru with Some oldest => evictLocked oldest c | None => c end
      else c
  end.

Definition put_back (m : Match) : M () := λ c, (Ok tt, put m c).

Definition Cached_Get id : M Match := λ c,
  match cc_cache c !! id with
  | Some e =>
      if decide (co_TTL (cc_opts c) = 0 ∨ cc_now c < ce_expiry e)
      then (Ok (ce_match e), set_cache (cc_cache c) (id :: without id (cc_lru c)) c)
      else (m ← inner (Get id); _ ← put_back m; mret m) (evictLocked id c)
  | None => (m ← inner (Get id); _ ← put_back m; mret m) c
  end.

Definition Invalidate id c : Cached S := evictLocked id c.

#[global] Instance Cached_Storage : Storage (Cached S) := {
  Create m := _ ← inner (Create m); put_back m;
  Get := Cached_Get;
  Update m := _ ← inner (Update m); put_back m;
  List gameName := inner (List gameName);
  Wipe id := λ c, inner (Wipe id) (evictLocked id c);
  UpdateIfStateID := None;
  Alias m := λ c,
    match cc_cache c !! mt_ID m with
    | Some e => set_cache (<[mt_ID m := mkEntry m (ce_expiry e)]> (cc_cache c)) (cc_lru c) c
    | None => c
    end
}.
End cached.

(** ** writebehind.go

    The background flusher is the step [flushOnce], taken at any time between two
    operations; the errors it reports go to a callback of the application. *)
Record WriteBehind (S : Type) := mkWB { wb_inner : S; wb_pending : gmap string Match }.
Arguments mkWB {S}.
Arguments wb_inner {S}.
Arguments wb_pending {S}.

Section write_behind.
Context {S : Type} `{!Storage S}.
Abbreviation M := (ST (WriteBehind S) store_error).

Definition behind {A} (op : ST S store_error A) : M A := λ w,
  let '(r, s) := op (wb_inner w) in (r, mkWB s (wb_pending w)).

(** Write each pending match through; a failing write is reported and dropped. *)
Definition flushOnce (w : WriteBehind S) : WriteBehind S :=
  mkWB (foldl (λ s m, (Update m s).2) (wb_inner w) (map_to_list (wb_pending w)).*2) ∅.

#[global] Instance WriteBehind_Storage : Storage (WriteBehind S) := {
  Create m := behind (Create m);
  Get id := λ w, match wb_pending w !! id with
                 | Some m => (Ok m, w)
                 | None => behind (Get id) w
                 end;
  Update m := λ w, (Ok tt, mkWB (wb_inner w) (<[mt_ID m := m]> (wb_pending w)));
  List gameName := λ w, behind (List gameName) (flushOnce w);
  Wipe id := λ w, behind (Wipe id) (mkWB (wb_inner w) (delete id (wb_pending w)));
  UpdateIfStateID := None;
  Alias m := λ w, match wb_pending w !! mt_ID m with
                  | Some _ => mkWB (wb_inner w) (<[mt_ID m := m]> (wb_pending w))
                  | None => w
                  end
}.
End write_behind.
End data.

Arguments mkCached {T S}.
Arguments cc_inner {T S}.
Arguments cc_opts {T S}.
Arguments cc_cache {T S}.
Arguments cc_lru {T S}.
Arguments cc_now {T S}.
Arguments mkWB {T S}.
Arguments wb_inner {T S}.
Arguments wb_pending {T S}.
