(* ===== verification/StorageTheorems.v ===== *)
(** * Storage: the decorators against an abstract map of matches

    The contract every storage is held to is [Memory]'s own behaviour on its map.
    [Lawful] states it for one operation; it is discharged for [Memory], for
    [Cached] over any lawful storage, and for [WriteBehind] over a lawful storage
    whose writes do not fail.  A file per match is a map of what the files decode to. *)

From stdpp Require Import sorting.
From S2P Require Import Prelude Json CoreTypes Example Storage.
#[local] Open Scope Z_scope.

Section requests.
Context {T : GoTypes}.

(** The operations of the interface as data, and their replies. *)
Inductive request :=
  | RCreate (m : Match)
  | RGet (id : string)
  | RUpdate (m : Match)
  | RList (gameName : string)
  | RWipe (id : string).

Inductive reply := RUnit | RMatch (m : Match) | RMatches (l : list Match).

Definition serve {S} `{!Storage S} (q : request) : ST S store_error reply :=
  match q with
  | RCreate m => _ ← Create m; mret RUnit
  | RGet id => m ← Get id; mret (RMatch m)
  | RUpdate m => _ ← Update m; mret RUnit
  | RList gameName => l ← List gameName; mret (RMatches l)
  | RWipe id => _ ← Wipe id; mret RUnit
  end.

(** Lists are compared up to order: [List] enumerates a Go map. *)
Definition same_reply (r r' : outcome store_error reply) : Prop :=
  match r, r' with
  | Ok (RMatches l), Ok (RMatches l') => l ≡ₚ l'
  | _, _ => r = r'
  end.

#[global] Instance same_reply_refl : Reflexive same_reply.
Proof. intros [[]| | |]; by unfold same_reply. Qed.

#[global] Instance same_reply_trans : Transitive same_reply.
Proof.
  intros [[]| | |] [[]| | |] [[]| | |] H1 H2; simplify_eq/=; try done; by etrans.
Qed.

(** A map every entry of which is filed under its own id. *)
Definition keyed (c : gmap string Match) : Prop := ∀ id m, c !! id = Some m → mt_ID m = id.

(** What the match manager asks of a storage: an update of a match it has loaded, a creation
    under an unused id. *)
Definition disciplined (q : request) (c : gmap string Match) : Prop :=
  match q with
  | RCreate m => c !! mt_ID m = None
  | RUpdate m => is_Some (c !! mt_ID m)
  | _ => True
  end.

#[global] Instance disciplined_dec q c : Decision (disciplined q c).
Proof. destruct q; simpl; apply _. Defined.

Lemma keyed_insert c m : keyed c → keyed (<[mt_ID m := m]> c).
Proof. intros Hc id m' [[<- <-]|[? ?]]%lookup_insert_Some; [done|by apply Hc]. Qed.

Lemma keyed_delete c id : keyed c → keyed (delete id c).
Proof. intros Hc id' m' [_ ?]%lookup_delete_Some. by apply Hc. Qed.

(** One request, from a state [s] of the storage: reply and contents are the map's, or the backend
    failed and the contents are what they were. *)
Definition agrees {S} `{!Storage S} (contents : S → gmap string Match) (fails : Prop) (q : request) (s : S) : Prop :=
  let '(r, s') := serve q s in
  let '(r', c') := serve (S:=gmap string Match) q (contents s) in
  (same_reply r r' ∧ contents s' = c') ∨
  (fails ∧ (∃ code, r = Err (BackendError code)) ∧ contents s' = contents s).

Class Lawful (S : Type) `{!Storage S} := {
  contents : S → gmap string Match;
  valid : S → Prop;
  fails : Prop;
  valid_keyed s : valid s → keyed (contents s);
  serve_valid q s : valid s → disciplined q (contents s) → valid (serve q s).2;
  serve_agrees q s : valid s → disciplined q (contents s) → agrees contents fails q s
}.

Lemma serve_Memory_keyed (q : request) (c : gmap string Match) :
  keyed c → keyed (serve (S:=gmap string Match) q c).2.
Proof.
  intros Hc. destruct q; simpl; unfold mbind, ST_bind, st_bind, Memory_Update; simpl; try done.
  - by apply keyed_insert.
  - by destruct (c !! id).
  - destruct (c !! mt_ID m); [by apply keyed_insert|done].
  - destruct (c !! id); [by apply keyed_delete|done].
Qed.

#[global] Program Instance Memory_Lawful : Lawful (gmap string Match) :=
  {| contents := id; valid := keyed; fails := False |}.
Next Obligation. done. Qed.
Next Obligation. intros q s Hs _. by apply serve_Memory_keyed. Qed.
Next Obligation.
  intros q s _ _. unfold agrees. simpl. destruct (serve q s) as [r c']. by left.
Qed.
End requests.

Section cached_lawful.
Context {T : GoTypes} {S : Type} `{!Storage S} `{!Lawful S}.
Implicit Types (c : Cached S) (id : string).

(** Every cached match is the stored one. *)
Definition fresh_but (x : option string) c : Prop :=
  ∀ id e, Some id ≠ x → cc_cache c !! id = Some e → contents (cc_inner c) !! id = Some (ce_match e).

Lemma evict_inner id c : cc_inner (evictLocked id c) = cc_inner c.
Proof. unfold evictLocked. by case_match. Qed.

Lemma evict_cache id c : cc_cache (evictLocked id c) = delete id (cc_cache c).
Proof.
  unfold evictLocked. case_match; simpl; [done|]. by rewrite delete_id.
Qed.

Lemma evict_fresh x id c : fresh_but x c → fresh_but x (evictLocked id c).
Proof.
  intros Hc id' e Hx. rewrite evict_cache, evict_inner. intros [_ ?]%lookup_delete_Some. by apply Hc.
Qed.

Lemma evict_fresh_all id c : fresh_but (Some id) c → fresh_but None (evictLocked id c).
Proof.
  intros Hc id' e _. rewrite evict_cache, evict_inner. intros [? ?]%lookup_delete_Some.
  apply Hc; [congruence|done].
Qed.

Lemma put_inner m c : cc_inner (put m c) = cc_inner c.
Proof. unfold put. repeat case_match; simpl; rewrite ?evict_inner; done. Qed.

Lemma put_fresh m c :
  fresh_but (Some (mt_ID m)) c → contents (cc_inner c) !! mt_ID m = Some m → fresh_but None (put m c).
Proof.
  intros Hc Hm.
  assert (Hins : ∀ x lru, fresh_but None (set_cache (<[mt_ID m := mkEntry m x]> (cc_cache c)) lru c)).
  { intros x lru id e _. simpl. intros [[<- <-]|[? ?]]%lookup_insert_Some; [done|].
    apply Hc; [congruence|done]. }
  unfold put. repeat case_match; auto using evict_fresh.
Qed.

Definition cached_ok (q : request) c : Prop :=
  (valid (cc_inner (serve q c).2) ∧ fresh_but None (serve q c).2) ∧
  agrees (λ c, contents (cc_inner c)) (fails (S:=S)) q c.

(** The inner storage's own law for a request, with its run and the map's in view. *)
Ltac inner_law q c :=
  let H := fresh "Hlaw" in let Hv := fresh "Hval" in
  pose proof (serve_agrees q (cc_inner c)) as H;
  pose proof (serve_valid q (cc_inner c)) as Hv;
  unfold agrees in H; simpl in H, Hv;
  unfold mbind, ST_bind, st_bind, mret, ST_ret, st_ret in H, Hv.

(** The cache over an inner storage in another state. *)
Definition over (s : S) c : Cached S := mkCached s (cc_opts c) (cc_cache c) (cc_lru c) (cc_now c).

Lemma over_fresh s c :
  contents s = contents (cc_inner c) → fresh_but None c → fresh_but None (over s c).
Proof. intros Hs Hc id e Hx He. simpl. rewrite Hs. by apply Hc. Qed.

Lemma write_back_fresh s m c :
  contents s = <[mt_ID m := m]> (contents (cc_inner c)) → fresh_but None c → fresh_but None (put m (over s c)).
Proof.
  intros Hs Hc. apply put_fresh; simpl; rewrite ?Hs; [|apply lookup_insert_eq].
  intros id e Hne He. simpl. rewrite Hs, lookup_insert_ne by congruence. by apply Hc.
Qed.

Lemma read_back_fresh s id m c :
  valid (cc_inner c) → contents s = contents (cc_inner c) → contents s !! id = Some m →
  fresh_but None c → fresh_but None (put m (over s c)).
Proof.
  intros Hv Hs Hm Hc. apply put_fresh; simpl.
  - intros id' e Hne He. simpl. rewrite Hs. by apply Hc.
  - rewrite Hs in *. by rewrite (valid_keyed _ Hv _ _ Hm).
Qed.

Lemma cached_create m c :
  valid (cc_inner c) → fresh_but None c → disciplined (RCreate m) (contents (cc_inner c)) →
  cached_ok (RCreate m) c.
Proof.
  intros Hv Hf Hd. inner_law (RCreate m) c. specialize (Hlaw Hv Hd). specialize (Hval Hv Hd).
  unfold cached_ok, agrees, inner, put_back. simpl. unfold mbind, ST_bind, st_bind, inner.
  destruct (Create m (cc_inner c)) as [[[]|e| |] s']; simpl in *;
    destruct Hlaw as [[Hr Hc]|(? & [code Hr] & Hc)]; try done; rewrite ?put_inner.
  - split; [|by left]. split; [done|by apply write_back_fresh].
  - split; [|by right; eauto]. split; [done|by apply over_fresh].
Qed.

Lemma cached_update m c :
  valid (cc_inner c) → fresh_but None c → disciplined (RUpdate m) (contents (cc_inner c)) →
  cached_ok (RUpdate m) c.
Proof.
  intros Hv Hf Hd. inner_law (RUpdate m) c. specialize (Hlaw Hv Hd). specialize (Hval Hv Hd).
  destruct Hd as [m0 Hd]. unfold Memory_Update in Hlaw. rewrite Hd in Hlaw.
  unfold cached_ok, agrees, inner, put_back. simpl. unfold mbind, ST_bind, st_bind, inner, Memory_Update.
  rewrite Hd.
  destruct (Update m (cc_inner c)) as [[[]|e| |] s']; simpl in *;
    destruct Hlaw as [[Hr Hc]|(? & [code Hr] & Hc)]; try done; rewrite ?put_inner.
  - split; [|by left]. split; [done|by apply write_back_fresh].
  - split; [|by right; eauto]. split; [done|by apply over_fresh].
Qed.

Lemma cached_load id c :
  valid (cc_inner c) → fresh_but None c → cc_cache c !! id = None →
  cached_ok (RGet id) c.
Proof.
  intros Hv Hf Hid. inner_law (RGet id) c. specialize (Hlaw Hv I). specialize (Hval Hv I).
  unfold cached_ok, agrees, Cached_Get, put_back. simpl. unfold mbind, ST_bind, st_bind, Cached_Get.
  rewrite Hid. unfold mbind, ST_bind, st_bind, inner.
  destruct (Get id (cc_inner c)) as [[m|e| |] s']; simpl in *;
    destruct (contents (cc_inner c) !! id) as [m'|] eqn:Hm;
    destruct Hlaw as [[Hr Hc]|(? & [code Hr] & Hc)]; simplify_eq/=; rewrite ?put_inner;
    (split; [split; [done|]|first [by left | by right; eauto 6]]).
    all: first [by apply over_fresh | by (apply (read_back_fresh _ id); rewrite ?Hc)].
Qed.

(** A request that starts by dropping [id] from the cache. *)
Lemma cached_evict q id c :
  serve q c = serve q (evictLocked id c) → cached_ok q (evictLocked id c) → cached_ok q c.
Proof.
  unfold cached_ok, agrees. intros ->. by rewrite evict_inner.
Qed.

Lemma cached_get id c :
  valid (cc_inner c) → fresh_but None c → cached_ok (RGet id) c.
Proof.
  intros Hv Hf. destruct (cc_cache c !! id) as [e|] eqn:He; [|by apply cached_load].
  destruct (decide (co_TTL (cc_opts c) = 0 ∨ cc_now c < ce_expiry e)) as [Hle|Hgt].
  - unfold cached_ok, agrees. simpl. unfold mbind, ST_bind, st_bind, Cached_Get.
    rewrite He, decide_True by done. simpl. rewrite (Hf id e) by done. simpl.
    split; [split; [done|exact Hf]|by left].
  - apply (cached_evict _ id); [|apply cached_load; rewrite ?evict_inner; auto using evict_fresh].
    + simpl. unfold mbind, ST_bind, st_bind, Cached_Get at 1 2.
      rewrite He, decide_False, evict_cache, lookup_delete_eq by done. done.
    + by rewrite evict_cache, lookup_delete_eq.
Qed.

Lemma cached_list gameName c :
  valid (cc_inner c) → fresh_but None c → cached_ok (RList gameName) c.
Proof.
  intros Hv Hf. inner_law (RList gameName) c. specialize (Hlaw Hv I). specialize (Hval Hv I).
  unfold cached_ok, agrees. simpl. unfold mbind, ST_bind, st_bind, inner.
  destruct (Storage.List gameName (cc_inner c)) as [[l|e| |] s']; simpl in *;
    destruct Hlaw as [[Hr Hc]|(? & [code Hr] & Hc)]; simplify_eq/=;
    (split; [split; [done|by apply over_fresh]|first [by left | by right; eauto 6]]).
Qed.

Lemma wiped_fresh s id c :
  contents s = delete id (contents (cc_inner c)) → fresh_but None c →
  fresh_but None (over s (evictLocked id c)).
Proof.
  intros Hs Hc id' e _. simpl. rewrite evict_cache, Hs.
  intros [Hne He]%lookup_delete_Some. rewrite lookup_delete_ne by done. by apply Hc.
Qed.

Lemma cached_wipe id c :
  valid (cc_inner c) → fresh_but None c → cached_ok (RWipe id) c.
Proof.
  intros Hv Hf. inner_law (RWipe id) c. specialize (Hlaw Hv I). specialize (Hval Hv I).
  unfold cached_ok, agrees. simpl. unfold mbind, ST_bind, st_bind, inner.
  rewrite evict_inner.
  destruct (Wipe id (cc_inner c)) as [[[]|e| |] s']; simpl in *;
    destruct (contents (cc_inner c) !! id) as [m'|] eqn:Hm; simpl in *;
    destruct Hlaw as [[Hr Hc]|(? & [code Hr] & Hc)]; simplify_eq/=;
    (split; [split; [done|]|first [by left | by right; eauto 6]]).
  all: first [by apply wiped_fresh
             | by (apply over_fresh; rewrite ?evict_inner; auto using evict_fresh)].
Qed.

Lemma cached_serve q c :
  valid (cc_inner c) ∧ fresh_but None c → disciplined q (contents (cc_inner c)) → cached_ok q c.
Proof.
  intros [Hv Hf] Hd. destruct q; auto using cached_create, cached_get, cached_update, cached_list, cached_wipe.
Qed.

#[global] Program Instance Cached_Lawful : Lawful (Cached S) := {|
  contents c := contents (cc_inner c);
  valid c := valid (cc_inner c) ∧ fresh_but None c;
  fails := fails (S:=S)
|}.
Next Obligation. intros c [Hc _]. by apply valid_keyed. Qed.
Next Obligation. intros q c Hc Hd. by apply cached_serve. Qed.
Next Obligation. intros q c Hc Hd. by apply cached_serve. Qed.

Lemma Invalidate_valid id c : valid c → valid (Invalidate id c).
Proof. intros [? ?]. split; [by rewrite evict_inner|by apply evict_fresh]. Qed.
End cached_lawful.

Section write_behind_lawful.
Context {T : GoTypes} {S : Type} `{!Storage S} `{!Lawful S} (Hrel : ¬ fails (S:=S)).
Implicit Types (w : WriteBehind S) (id : string).

(** A write that cannot fail: reply and effect of an [Update] of a stored match. *)
Lemma reliable_update m s :
  valid s → is_Some (contents s !! mt_ID m) →
  valid (Update m s).2 ∧ contents (Update m s).2 = <[mt_ID m := m]> (contents s).
Proof.
  intros Hv Hd. pose proof (serve_agrees (RUpdate m) s Hv Hd) as Hlaw.
  pose proof (serve_valid (RUpdate m) s Hv Hd) as Hval. unfold agrees in Hlaw.
  simpl in Hlaw, Hval. unfold mbind, ST_bind, st_bind, mret, ST_ret, st_ret, Memory_Update in Hlaw, Hval.
  destruct Hd as [m0 Hd]. rewrite Hd in Hlaw.
  destruct (Update m s) as [[[]|e| |] s']; simpl in *; by destruct Hlaw as [[_ ?]|[? _]].
Qed.

Lemma flush_fold l s :
  valid s → NoDup l.*1 → Forall (λ km, mt_ID km.2 = km.1 ∧ is_Some (contents s !! km.1)) l →
  let s' := foldl (λ s m, (Update m s).2) s l.*2 in
  valid s' ∧ contents s' = list_to_map l ∪ contents s.
Proof.
  revert s. induction l as [|[k m] l IH]; intros s Hv Hnd Hl; simpl.
  { by rewrite (left_id ∅ (∪)). }
  inversion Hl as [|? ? [Hk Hin] Hl']; subst. inversion Hnd as [|? ? Hnot Hnd']; subst. simpl in *.
  destruct (reliable_update m s Hv) as [Hv' Hc]; [by subst|].
  destruct (IH (Update m s).2 Hv' Hnd') as [Hv'' Hc''].
  { apply (Forall_impl _ _ _ Hl'). intros [k' m'] [? [x Hx]]. simpl in *. split; [done|].
    rewrite Hc. destruct (decide (mt_ID m = k')) as [<-|]; [by rewrite lookup_insert_eq; eauto|].
    rewrite lookup_insert_ne by done. eauto. }
  split; [done|]. etrans; [exact Hc''|]. rewrite Hc. subst k.
  rewrite <-insert_union_r, <-insert_union_l; [done|]. by apply not_elem_of_list_to_map.
Qed.

Definition wb_contents w : gmap string Match := wb_pending w ∪ contents (wb_inner w).
Definition wb_valid w : Prop :=
  valid (wb_inner w) ∧ keyed (wb_pending w) ∧
  ∀ id, is_Some (wb_pending w !! id) → is_Some (contents (wb_inner w) !! id).

Lemma flushOnce_contents w :
  wb_valid w → wb_valid (flushOnce w) ∧ contents (wb_inner (flushOnce w)) = wb_contents w.
Proof.
  intros (Hv & Hk & Hin). destruct (flush_fold (map_to_list (wb_pending w)) (wb_inner w)) as [Hv' Hc].
  - done.
  - apply NoDup_fst_map_to_list.
  - apply Forall_forall. intros [k m] ?%elem_of_map_to_list. simpl. split; [by apply Hk|by apply Hin].
  - unfold flushOnce. rewrite list_to_map_to_list in Hc. split; [|done].
    split; [done|]. split; [by intros ? ?|]. intros id [? ?]. by simpl in *.
Qed.

Lemma flushOnce_same w : wb_valid w → wb_contents (flushOnce w) = wb_contents w.
Proof.
  intros Hw. destruct (flushOnce_contents w Hw) as [_ Hc]. rewrite <-Hc. apply (left_id ∅ (∪)).
Qed.

Definition wb_ok (q : request) w : Prop :=
  wb_valid (serve q w).2 ∧ agrees wb_contents False q w.

(** The inner storage's reply to a request, and what is then stored. *)
Lemma inner_serves q s :
  valid s → disciplined q (contents s) →
  valid (serve q s).2 ∧ same_reply (serve q s).1 (serve (S:=gmap string Match) q (contents s)).1 ∧
  contents (serve q s).2 = (serve (S:=gmap string Match) q (contents s)).2.
Proof.
  intros Hv Hd. split; [by apply serve_valid|]. pose proof (serve_agrees q s Hv Hd) as Hlaw.
  unfold agrees in Hlaw. destruct (serve q s), (serve q (contents s)); simpl. naive_solver.
Qed.

(** A request the decorator passes on as it is, after a change of its own. *)
Lemma passed_on q w w0 :
  serve q w = behind (serve q) w0 → wb_valid w0 → disciplined q (contents (wb_inner w0)) →
  (∀ r, same_reply r (serve (S:=gmap string Match) q (contents (wb_inner w0))).1 →
        same_reply r (serve (S:=gmap string Match) q (wb_contents w)).1) →
  wb_pending w0 ∪ (serve (S:=gmap string Match) q (contents (wb_inner w0))).2 =
    (serve (S:=gmap string Match) q (wb_contents w)).2 →
  (∀ id, is_Some (wb_pending w0 !! id) →
         is_Some ((serve (S:=gmap string Match) q (contents (wb_inner w0))).2 !! id)) →
  wb_ok q w.
Proof.
  intros Hq (Hv & Hk & Hin) Hd Hr Hc Hdom.
  destruct (inner_serves q (wb_inner w0) Hv Hd) as (Hv' & Hr' & Hc').
  unfold wb_ok, agrees, wb_valid, wb_contents in *. rewrite Hq. unfold behind.
  destruct (serve q (wb_inner w0)) as [r s']. simpl in *. split.
  - split; [done|]. split; [done|]. by rewrite Hc'.
  - destruct (serve (S:=gmap string Match) q (wb_pending w ∪ contents (wb_inner w))) as [r' c'].
    simpl in *. left. split; [by apply Hr|]. by rewrite Hc'.
Qed.

Lemma behind_bind {A B} (op : ST S store_error A) (f : A → B) w :
  (a ← behind op; mret (f a)) w = behind (a ← op; mret (f a)) w.
Proof. unfold behind, mbind, ST_bind, st_bind. by destruct (op (wb_inner w)) as [[]]. Qed.

Lemma wb_create m w :
  wb_valid w → disciplined (RCreate m) (wb_contents w) → wb_ok (RCreate m) w.
Proof.
  intros Hw Hd. pose proof Hw as (Hv & Hk & Hin). simpl in Hd.
  apply lookup_union_None in Hd as [Hp Hs]. apply (passed_on _ _ w); try done.
  - unfold serve. simpl. apply (behind_bind _ (λ _, RUnit)).
  - unfold wb_contents. simpl. by rewrite insert_union_r.
  - intros id Hid. simpl. rewrite lookup_insert_is_Some'. right. by apply Hin.
Qed.

Lemma wb_get id w : wb_valid w → wb_ok (RGet id) w.
Proof.
  intros Hw. pose proof Hw as (Hv & Hk & Hin).
  destruct (wb_pending w !! id) as [m|] eqn:Hp.
  - unfold wb_ok, agrees. simpl. unfold mbind, ST_bind, st_bind. simpl. rewrite Hp. simpl.
    unfold wb_contents at 1. rewrite (lookup_union_Some_l _ _ _ _ Hp). split; [done|by left].
  - apply (passed_on _ _ w); try done.
    + unfold serve. simpl. rewrite <-(behind_bind (Get id) RMatch).
      unfold mbind, ST_bind, st_bind. by rewrite Hp.
    + intros r. unfold wb_contents. simpl. unfold mbind, ST_bind, st_bind. simpl.
      rewrite (lookup_union_r _ _ _ Hp). by destruct (contents (wb_inner w) !! id).
    + unfold wb_contents. simpl. unfold mbind, ST_bind, st_bind. simpl.
      rewrite (lookup_union_r _ _ _ Hp). by destruct (contents (wb_inner w) !! id).
    + intros id' Hid. simpl. unfold mbind, ST_bind, st_bind. simpl.
      destruct (contents (wb_inner w) !! id); by apply Hin.
Qed.

Lemma wb_update m w :
  wb_valid w → disciplined (RUpdate m) (wb_contents w) → wb_ok (RUpdate m) w.
Proof.
  intros (Hv & Hk & Hin) [m0 Hd]. simpl in Hd. unfold wb_ok, agrees. simpl.
  unfold mbind, ST_bind, st_bind, Memory_Update. simpl. rewrite Hd. simpl. split.
  - split; [done|]. split; [by apply keyed_insert|]. simpl. intros id [[= <-]|Hid]%lookup_insert_is_Some'.
    + apply lookup_union_Some_raw in Hd as [Hp|[_ Hs]]; [apply Hin|]; eauto.
    + by apply Hin.
  - left. split; [done|]. unfold wb_contents. simpl. by rewrite insert_union_l.
Qed.

Lemma wb_list gameName w : wb_valid w → wb_ok (RList gameName) w.
Proof.
  intros Hw. destruct (flushOnce_contents w Hw) as [Hw' Hc]. pose proof Hw' as (_ & _ & Hin).
  apply (passed_on _ _ (flushOnce w)); try done.
  - unfold serve. simpl. rewrite <-(behind_bind (Storage.List gameName) RMatches). done.
  - intros r. by rewrite Hc.
  - rewrite Hc. apply (left_id ∅ (∪)).
Qed.

Lemma wb_wipe id w : wb_valid w → wb_ok (RWipe id) w.
Proof.
  intros Hw. pose proof Hw as (Hv & Hk & Hin).
  assert (Hdom : wb_contents w !! id = None ↔ contents (wb_inner w) !! id = None).
  { unfold wb_contents. rewrite lookup_union_None. split; [by intros [_ ?]|]. intros Hs. split; [|done].
    apply eq_None_not_Some. intros [? Hp]. destruct (Hin id); eauto; congruence. }
  apply (passed_on _ _ (mkWB (wb_inner w) (delete id (wb_pending w)))); try done.
  - unfold serve. simpl. apply (behind_bind (Wipe id) (λ _, RUnit)).
  - split; [done|]. split; [by apply keyed_delete|]. simpl.
    intros id' [_ ?]%lookup_delete_is_Some. by apply Hin.
  - intros r. simpl. unfold mbind, ST_bind, st_bind. simpl.
    destruct (contents (wb_inner w) !! id), (wb_contents w !! id); simpl; try done; naive_solver.
  - simpl. unfold mbind, ST_bind, st_bind. simpl.
    destruct (contents (wb_inner w) !! id) eqn:Hi, (wb_contents w !! id) eqn:Hw2; simpl;
      try (exfalso; naive_solver).
    + unfold wb_contents. by rewrite delete_union.
    + unfold wb_contents in *. rewrite delete_id; [done|].
      by apply lookup_union_None in Hw2 as [? _].
  - simpl. intros id' [Hne ?]%lookup_delete_is_Some. unfold mbind, ST_bind, st_bind. simpl.
    destruct (contents (wb_inner w) !! id); simpl; [|by apply Hin].
    apply lookup_delete_is_Some. split; [done|]. by apply Hin.
Qed.

Lemma wb_serve q w : wb_valid w → disciplined q (wb_contents w) → wb_ok q w.
Proof. destruct q; auto using wb_create, wb_get, wb_update, wb_list, wb_wipe. Qed.

#[refine] Definition WriteBehind_Lawful : Lawful (WriteBehind S) := {|
  contents := wb_contents;
  valid := wb_valid;
  fails := False
|}.
Proof.
  - intros w (Hv & Hk & _) id m [?|[_ ?]]%lookup_union_Some_raw; [by apply Hk|by eapply valid_keyed].
  - intros q w Hw Hd. by apply wb_serve.
  - intros q w Hw Hd. by apply wb_serve.
Defined.
End write_behind_lawful.

(** ** The production stack: a cache over a write-behind queue over a backend *)
Section stack.
Context {T : GoTypes} {S : Type} `{!Storage S} `{!Lawful S}.
Abbreviation stack := (Cached (WriteBehind S)).

(** What happens to it: requests, and between them flushes, the passing of time, invalidations
    from other nodes. *)
Inductive storage_event :=
  | Request (q : request)
  | FlushNow
  | TimePasses (d : Z)
  | Bust (id : string).

Definition happen (e : storage_event) : ST stack store_error (option reply) :=
  match e with
  | Request q => r ← serve q; mret (Some r)
  | FlushNow => λ c, (Ok None, over (flushOnce (cc_inner c)) c)
  | TimePasses d => λ c, (Ok None, mkCached (cc_inner c) (cc_opts c) (cc_cache c) (cc_lru c) (cc_now c + d))
  | Bust id => λ c, (Ok None, Invalidate id c)
  end.

(** The replies to the requests among [es]. *)
Fixpoint history (es : list storage_event) (c : stack) : list (outcome store_error reply) :=
  match es with
  | [] => []
  | e :: es' =>
      match e with
      | Request q => (serve q c).1 :: history es' (serve q c).2
      | _ => history es' (happen e c).2
      end
  end.

(** The same requests answered by one map. *)
Fixpoint expected (es : list storage_event) (c : gmap string Match) : list (outcome store_error reply) :=
  match es with
  | [] => []
  | Request q :: es' => (serve q c).1 :: expected es' (serve q c).2
  | _ :: es' => expected es' c
  end.

Fixpoint disciplined_run (es : list storage_event) (c : gmap string Match) : Prop :=
  match es with
  | [] => True
  | Request q :: es' => disciplined q c ∧ disciplined_run es' (serve q c).2
  | _ :: es' => disciplined_run es' c
  end.

#[global] Instance disciplined_run_dec es c : Decision (disciplined_run es c).
Proof. revert c. induction es as [|[q| | |] es IH]; intros c; simpl; apply _. Defined.

(** What is stored: the queue over the backend. *)
Definition stack_contents (c : stack) : gmap string Match := wb_contents (cc_inner c).

(** Pending writes are of stored matches, and every cached match is the stored one. *)
Definition stack_valid (c : stack) : Prop :=
  wb_valid (cc_inner c) ∧
  ∀ id e, cc_cache c !! id = Some e → stack_contents c !! id = Some (ce_match e).

Section reliable.
Context (Hrel : ¬ fails (S:=S)).
#[local] Instance stack_inner_lawful : Lawful (WriteBehind S) := WriteBehind_Lawful Hrel.

Lemma stack_valid_iff c : stack_valid c ↔ wb_valid (cc_inner c) ∧ fresh_but None c.
Proof. unfold stack_valid, fresh_but. naive_solver. Qed.

Lemma stack_serves q c :
  stack_valid c → disciplined q (stack_contents c) →
  stack_valid (serve q c).2 ∧
  same_reply (serve q c).1 (serve q (stack_contents c)).1 ∧
  stack_contents (serve q c).2 = (serve q (stack_contents c)).2.
Proof.
  rewrite !stack_valid_iff. intros Hc Hd. destruct (cached_serve (Lawful0:=stack_inner_lawful) q c Hc Hd) as [Hv Hlaw].
  unfold agrees in Hlaw. unfold stack_contents in *. split; [done|].
  destruct (serve q c) as [r c']. simpl in *.
  destruct (serve q (wb_contents (cc_inner c))) as [r' m']. simpl. naive_solver.
Qed.

Lemma stack_background e c :
  (∀ q, e ≠ Request q) → stack_valid c →
  stack_valid (happen e c).2 ∧ stack_contents (happen e c).2 = stack_contents c.
Proof.
  rewrite !stack_valid_iff. intros He [Hw Hf]. destruct e as [q| |d|id]; [by destruct (He q)| | |]; simpl.
  - pose proof (flushOnce_same Hrel _ Hw) as Hc. destruct (flushOnce_contents Hrel _ Hw) as [Hw' _].
    split; [|done]. split; [done|]. by apply over_fresh.
  - done.
  - unfold stack_contents, Invalidate. rewrite evict_inner. split; [|done]. split; [done|].
    by apply evict_fresh.
Qed.

(** C32: A cache over a write-behind queue over a storage whose writes succeed answers every
    sequence of requests exactly as one map of matches would (lists up to order), whatever flushes,
    clock changes, TTL and size limits and invalidations come in between, provided the callers
    create under unused ids and update matches that exist. *)
Theorem stacked_storage_is_transparent (es : list storage_event) (c : stack) :
  stack_valid c → disciplined_run es (stack_contents c) →
  Forall2 same_reply (history es c) (expected es (stack_contents c)).
Proof.
  revert c. induction es as [|e es IH]; intros c Hc Hd; [constructor|].
  assert (Hbg : (∀ q, e ≠ Request q) → disciplined_run es (stack_contents c) →
    Forall2 same_reply (history es (happen e c).2) (expected es (stack_contents c))).
  { intros He Hd'. destruct (stack_background e c He Hc) as [Hc' Heq]. rewrite <-Heq in Hd' |- *.
    by apply IH. }
  destruct e as [q| |d|id]; try (apply Hbg; done). clear Hbg.
  destruct Hd as [Hq Hd]. destruct (stack_serves q c Hc Hq) as (Hc' & Hr & Heq).
  constructor; [exact Hr|]. rewrite <-Heq in Hd |- *. by apply IH.
Qed.
End reliable.
End stack.

(** A cache of one entry over a queue over an empty map. *)
Definition sample_match (id : string) (name : string) : Match :=
  mkMatch id "counter" (state_after []) [] None false 0 "" name "" 0.

Definition empty_stack : Cached (WriteBehind (gmap string Match)) :=
  mkCached (mkWB ∅ ∅) (mkCacheOpts 10 1) ∅ [] 0.

Definition sample_events : list storage_event :=
  [Request (RCreate (sample_match "a" "x")); Request (RCreate (sample_match "b" "y"));
   Request (RUpdate (sample_match "a" "z")); TimePasses 20; Request (RGet "a"); FlushNow; Bust "a";
   Request (RGet "a"); Request (RWipe "b"); Request (RGet "b")].

Lemma stacked_storage_is_transparent_witness :
  Forall2 same_reply (history sample_events empty_stack) (expected sample_events ∅) ∧
  expected sample_events ∅ !! 3%nat = Some (Ok (RMatch (sample_match "a" "z"))).
Proof.
  split; [|by vm_compute].
  change (∅ : gmap string Match) with (stack_contents (S:=gmap string Match) empty_stack) at 1.
  apply (stacked_storage_is_transparent (S:=gmap string Match)).
  - exact (λ H : False, H).
  - split; [split; [by intros ? ?|]; split; [by intros ? ?|by intros ? [? ?]]|by intros ? ?].
  - apply (bool_decide_unpack _). by vm_compute.
Defined.

(** ** Files

    What a flat-file storage promises: it behaves as a map from ids to what its files
    decode to, for ids without a slash. *)
Section flat_file.
Context {T : GoTypes} (encode : Match → option string) (decode : string → option Match).
Context (temp_name : gmap (list string) (gmap string string) → string) (dir : list string).
Abbreviation FS := (gmap (list string) (gmap string string)).
Abbreviation slash := (Ascii.ascii_of_nat 47).
Abbreviation flat := (FlatFile encode decode temp_name dir).
Implicit Types (fs : FS) (files : gmap string string) (c : gmap string Match).

Definition file_name (id : string) : string := id +:+ json_suffix.

Lemma length_join (a b : string) : String.length (a +:+ b) = (String.length a + String.length b)%nat.
Proof. induction a as [|c a IH]; [done|]. simpl. f_equal. exact IH. Qed.

Lemma strip_suffix_app suffix s : strip_suffix suffix (s +:+ suffix) = Some s.
Proof.
  induction s as [|a s IH].
  - change ("" +:+ suffix) with suffix. destruct suffix; cbn [strip_suffix]; by rewrite decide_True.
  - change (String a s +:+ suffix) with (String a (s +:+ suffix)). cbn [strip_suffix]. rewrite decide_False; [by rewrite IH|].
    intros H%(f_equal String.length). simpl in H. rewrite length_join in H. lia.
Qed.

Lemma strip_suffix_Some suffix s r : strip_suffix suffix s = Some r → s = r +:+ suffix.
Proof.
  revert r. induction s as [|a s IH]; intros r; cbn [strip_suffix]; (case_decide as Hs; [intros [= <-]; exact Hs|]); [done|].
  destruct (strip_suffix suffix s) as [r'|] eqn:Hr; [|done]. intros [= <-]. by rewrite (IH r').
Qed.

Lemma file_name_inj id id' : file_name id = file_name id' → id = id'.
Proof.
  intros H. pose proof (strip_suffix_app json_suffix id) as H1. unfold file_name in H. rewrite H, strip_suffix_app in H1. congruence.
Qed.

(** An id without a slash names a file of the directory itself. *)
Lemma matchPath_plain id : free_of slash id → matchPath dir id = dir ++ [file_name id].
Proof.
  intros Hid. unfold matchPath. rewrite split_on_last by (apply free_app; [done|]; repeat (apply free_cons; split; [done|]); by apply Forall_nil).
  simpl. unfold step_into. fold (file_name id).
  assert (Hlen : (5 ≤ String.length (file_name id))%nat) by (unfold file_name; rewrite length_join; simpl; lia).
  rewrite decide_False by (intros [H|[H|[]%not_elem_of_nil]%elem_of_cons]%elem_of_cons; rewrite H in Hlen; simpl in Hlen; lia).
  rewrite decide_False; [done|]. intros H. rewrite H in Hlen. simpl in Hlen. lia.
Qed.

Lemma file_at_snoc name fs : file_at (dir ++ [name]) fs = fs !! dir ≫= (.!! name).
Proof. unfold file_at. by rewrite last_snoc, removelast_last. Qed.

Definition entry (e : string * string) : option (string * Match) :=
  id ← strip_suffix json_suffix e.1; m ← decode e.2; Some (id, m).
Definition flat_contents files : gmap string Match := list_to_map (omap entry (map_to_list files)).

Lemma entry_keys_NoDup l : NoDup l.*1 → NoDup (omap entry l).*1.
Proof.
  induction l as [|[n t] l IH]; intros Hnd; [constructor|]. rewrite fmap_cons in Hnd. apply NoDup_cons in Hnd as [Hn Hnd].
  cbn [omap list_omap]. destruct (entry (n, t)) as [[id m]|] eqn:He; [|by apply IH]. rewrite fmap_cons. apply NoDup_cons. split; [|by apply IH].
  intros ([id' m'] & Heq & Hin)%list_elem_of_fmap. simpl in Heq. subst id'. apply list_elem_of_omap in Hin as ([n' t'] & Hin & He').
  unfold entry in He, He'. cbn [fst snd] in He, He'.
  destruct (strip_suffix json_suffix n) as [i|] eqn:Hs; [|done]. destruct (strip_suffix json_suffix n') as [i'|] eqn:Hs'; [|done].
  simpl in He, He'. destruct (decode t), (decode t'); simplify_eq/=. apply strip_suffix_Some in Hs, Hs'. subst. apply Hn.
  by apply (list_elem_of_fmap_2 fst _ _ Hin).
Qed.

Lemma flat_contents_lookup files id : flat_contents files !! id = files !! file_name id ≫= decode.
Proof.
  pose proof (entry_keys_NoDup (map_to_list files) (NoDup_fst_map_to_list files)) as Hnd.
  destruct (files !! file_name id ≫= decode) as [m|] eqn:Hf.
  - apply elem_of_list_to_map_1; [done|]. apply list_elem_of_omap. apply bind_Some in Hf as (t & Ht & Hm).
    exists (file_name id, t). split; [by apply elem_of_map_to_list|]. unfold entry. cbn [fst snd]. unfold file_name.
    rewrite strip_suffix_app. simpl. by rewrite Hm.
  - apply not_elem_of_list_to_map_1. intros ([id' m] & Heq & ([n t] & Hin%elem_of_map_to_list & He)%list_elem_of_omap)%list_elem_of_fmap.
    simpl in Heq. subst id'.
    unfold entry in He. cbn [fst snd] in He, Hf. destruct (strip_suffix json_suffix n) as [i|] eqn:Hs; [|done]. simpl in He.
    destruct (decode t) as [m'|] eqn:Hm; [|done]. simplify_eq/=. apply strip_suffix_Some in Hs. unfold file_name in Hf. rewrite <-Hs, Hin in Hf.
    simpl in Hf. congruence.
Qed.

(** One request, of the map of decoded files. *)
Definition put_decoded (id : string) (text : string) c : gmap string Match :=
  match decode text with Some m => <[id := m]> c | None => c end.
Definition flat_step (q : request) c : outcome store_error reply * gmap string Match :=
  match q with
  | RCreate m =>
      match c !! mt_ID m, encode m with
      | Some _, _ => (Err errExists, c)
      | None, None => (Err errEncode, c)
      | None, Some text => (Ok RUnit, put_decoded (mt_ID m) text c)
      end
  | RGet id => (match c !! id with Some m => Ok (RMatch m) | None => Err ErrNotFound end, c)
  | RUpdate m =>
      match c !! mt_ID m, encode m with
      | None, _ => (Err ErrNotFound, c)
      | Some _, None => (Err errEncode, c)
      | Some _, Some text => (Ok RUnit, put_decoded (mt_ID m) text c)
      end
  | RList gameName => (Ok (RMatches (filter (of_game gameName) (map_to_list c).*2)), c)
  | RWipe id => match c !! id with Some _ => (Ok RUnit, delete id c) | None => (Err ErrNotFound, c) end
  end.

Definition plain_request (q : request) : Prop :=
  match q with RCreate m | RUpdate m => free_of slash (mt_ID m) | RGet id | RWipe id => free_of slash id | RList _ => True end.

(** The directory is there, its .json files decode, and no directory has a match's name. *)
Record flat_valid fs files : Prop := {
  fv_dir : fs !! dir = Some files;
  fv_no_dir id : free_of slash id → fs !! (dir ++ [file_name id]) = None;
  fv_decodes id text : files !! file_name id = Some text → is_Some (decode text) ∧ free_of slash id
}.

Section steps.
Context (Hcodec : ∀ m text, encode m = Some text → is_Some (decode text)).

Lemma stored_iff fs files id : flat_valid fs files → free_of slash id →
  Stat (dir ++ [file_name id]) fs ↔ is_Some (flat_contents files !! id).
Proof.
  intros Hv Hid. unfold Stat, is_dir. rewrite (fv_no_dir _ _ Hv id Hid), file_at_snoc, (fv_dir _ _ Hv), flat_contents_lookup. simpl.
  split; [intros [[? [=]]|[t Ht]]|intros [m (t & Ht & _)%bind_Some]; right; by eexists].
  rewrite Ht. simpl. apply (fv_decodes _ _ Hv _ _ Ht).
Qed.

Lemma read_plain fs files id : flat_valid fs files → free_of slash id →
  read_match decode dir id fs = match flat_contents files !! id with Some m => Ok m | None => Err ErrNotFound end.
Proof.
  intros Hv Hid. unfold read_match. rewrite matchPath_plain, file_at_snoc, (fv_dir _ _ Hv), flat_contents_lookup by done. simpl.
  destruct (files !! file_name id) as [t|] eqn:Ht; simpl.
  - destruct (fv_decodes _ _ Hv _ _ Ht) as [[m ->] _]. done.
  - rewrite decide_False; [done|]. unfold is_dir. rewrite (fv_no_dir _ _ Hv) by done. by intros [? [=]].
Qed.

Lemma valid_alter fs files f id : flat_valid fs files → free_of slash id →
  (∀ id' text, f files !! file_name id' = Some text → is_Some (decode text) ∧ free_of slash id') →
  flat_valid (alter f dir fs) (f files).
Proof.
  intros Hv Hid Hf. split; [by rewrite lookup_alter_eq, (fv_dir _ _ Hv)| |done].
  intros id' Hid'. rewrite lookup_alter_ne; [by apply (fv_no_dir _ _ Hv)|]. intros H%(f_equal length). rewrite length_app in H. simpl in H. lia.
Qed.

Lemma write_plain fs files m : flat_valid fs files → free_of slash (mt_ID m) →
  write_match encode temp_name dir (dir ++ [file_name (mt_ID m)]) m fs =
    match encode m with
    | None => (Err errEncode, fs)
    | Some text => (Ok tt, alter <[file_name (mt_ID m) := text]> dir fs)
    end.
Proof.
  intros Hv Hid. unfold write_match. rewrite (fv_dir _ _ Hv). destruct (encode m) as [t|]; [|done].
  rewrite decide_False; [by unfold put_file; rewrite last_snoc, removelast_last|].
  unfold is_dir. rewrite removelast_last, (fv_no_dir _ _ Hv), (fv_dir _ _ Hv) by done. intros [[? [=]]|H]. apply H. by eexists.
Qed.

Lemma written fs files id text : flat_valid fs files → free_of slash id → is_Some (decode text) →
  let files' := <[file_name id := text]> files in
  flat_valid (alter <[file_name id := text]> dir fs) files' ∧ flat_contents files' = put_decoded id text (flat_contents files).
Proof.
  intros Hv Hid [m Hm]. split.
  - apply (valid_alter _ _ _ id); [done..|]. intros id' t [[<-%file_name_inj <-]|[_ Ht]]%lookup_insert_Some; [by split|].
    by apply (fv_decodes _ _ Hv).
  - unfold put_decoded. rewrite Hm. apply map_eq. intros id'. rewrite flat_contents_lookup.
    destruct (decide (id' = id)) as [->|Hne]; [by rewrite !lookup_insert_eq|].
    rewrite !lookup_insert_ne by (try done; by intros H%file_name_inj). by rewrite flat_contents_lookup.
Qed.

Lemma removed fs files id : flat_valid fs files → free_of slash id →
  flat_valid (alter (delete (file_name id)) dir fs) (delete (file_name id) files) ∧
  flat_contents (delete (file_name id) files) = delete id (flat_contents files).
Proof.
  intros Hv Hid. split.
  - apply (valid_alter _ _ _ id); [done..|]. intros id' t [_ Ht]%lookup_delete_Some. by apply (fv_decodes _ _ Hv).
  - apply map_eq. intros id'. rewrite flat_contents_lookup. destruct (decide (id' = id)) as [->|Hne]; [by rewrite !lookup_delete_eq|].
    rewrite !lookup_delete_ne by (try done; by intros H%file_name_inj). by rewrite flat_contents_lookup.
Qed.

Lemma listed_plain fs files : flat_valid fs files →
  omap (λ name, id ← strip_suffix json_suffix name;
                match read_match decode dir id fs with Ok m => Some m | _ => None end) (listed_files files) ≡ₚ (map_to_list (flat_contents files)).*2.
Proof.
  intros Hv. unfold flat_contents. rewrite map_to_list_to_map by apply entry_keys_NoDup, NoDup_fst_map_to_list.
  unfold listed_files. rewrite merge_sort_Permutation.
  assert (H : ∀ l, (∀ e, e ∈ l → files !! e.1 = Some e.2) →
    omap (λ name, id ← strip_suffix json_suffix name; match read_match decode dir id fs with Ok m => Some m | _ => None end) l.*1 = (omap entry l).*2).
  { induction l as [|[n t] l IH]; intros Hl; [done|]. rewrite fmap_cons. cbn [omap list_omap fst].
    rewrite IH by (intros e He; apply Hl; by right). specialize (Hl (n, t) ltac:(by left)). cbn [fst snd] in Hl.
    change (entry (n, t)) with (id ← strip_suffix json_suffix n; m ← decode t; Some (id, m)). destruct (strip_suffix json_suffix n) as [id|] eqn:Hs; [|done]. apply strip_suffix_Some in Hs. subst n.
    destruct (fv_decodes _ _ Hv id t Hl) as [[m Hm] Hid]. cbn [mbind option_bind]. rewrite (read_plain _ _ _ Hv Hid), flat_contents_lookup.
    unfold file_name. rewrite Hl. cbn [mbind option_bind]. by rewrite Hm. }
  rewrite H; [done|]. by intros [n t] Hin%elem_of_map_to_list.
Qed.

Lemma flat_serves q fs files : flat_valid fs files → plain_request q →
  same_reply (@serve _ _ flat q fs).1 (flat_step q (flat_contents files)).1 ∧
  ∃ files', flat_valid (@serve _ _ flat q fs).2 files' ∧ flat_contents files' = (flat_step q (flat_contents files)).2.
Proof.
  intros Hv Hq. destruct q as [m|id|m|g|id]; cbn [serve flat_step plain_request] in *; rewrite bind_eq; cbn.
  - unfold Flat_Create. rewrite matchPath_plain by done. pose proof (stored_iff _ _ _ Hv Hq) as Hst.
    destruct (flat_contents files !! mt_ID m) as [m0|].
    + rewrite decide_True by by apply Hst. split; [done|]. by exists files.
    + rewrite decide_False by by intros [? [=]]%Hst. rewrite (write_plain _ _ _ Hv Hq).
      destruct (encode m) as [t|] eqn:He; [|split; [done|by exists files]]. split; [done|].
      eexists. by apply written, (Hcodec m).
  - rewrite (read_plain _ _ _ Hv Hq). destruct (flat_contents files !! id); (split; [done|by exists files]).
  - unfold Flat_Update. rewrite matchPath_plain by done. pose proof (stored_iff _ _ _ Hv Hq) as Hst.
    destruct (flat_contents files !! mt_ID m) as [m0|].
    + rewrite decide_True by (apply Hst; by eexists). rewrite (write_plain _ _ _ Hv Hq).
      destruct (encode m) as [t|] eqn:He; [|split; [done|by exists files]]. split; [done|].
      eexists. by apply written, (Hcodec m).
    + rewrite decide_False by by intros [? [=]]%Hst. split; [done|]. by exists files.
  - unfold Flat_List. rewrite (fv_dir _ _ Hv). split; [|by exists files]. cbn. by rewrite (listed_plain _ _ Hv).
  - unfold Flat_Wipe. rewrite matchPath_plain, file_at_snoc, (fv_dir _ _ Hv), last_snoc, removelast_last by done.
    pose proof (flat_contents_lookup files id) as Hl. cbn [mbind option_bind].
    destruct (files !! file_name id) as [t|] eqn:Ht; cbn in Hl.
    + destruct (fv_decodes _ _ Hv _ _ Ht) as [[m Hm] _]. rewrite Hl, Hm. split; [done|]. eexists. by apply removed.
    + rewrite Hl, decide_False; [split; [done|by exists files]|]. unfold is_dir. rewrite (fv_no_dir _ _ Hv) by done. by intros [? [=]].
Qed.

(** Requests one after another. *)
Fixpoint flat_answers (qs : list request) fs : list (outcome store_error reply) :=
  match qs with [] => [] | q :: qs => (@serve _ _ flat q fs).1 :: flat_answers qs (@serve _ _ flat q fs).2 end.
Fixpoint map_answers (qs : list request) c : list (outcome store_error reply) :=
  match qs with [] => [] | q :: qs => (flat_step q c).1 :: map_answers qs (flat_step q c).2 end.

(** A flat-file storage over a valid directory answers every sequence of requests, for ids
    without a slash, as a map that keeps what the codec makes of each match would: a match
    is never half written or lost, and a match that cannot be encoded changes nothing. *)
Theorem flat_files_are_a_map qs fs files : flat_valid fs files → Forall plain_request qs →
  Forall2 same_reply (flat_answers qs fs) (map_answers qs (flat_contents files)).
Proof.
  revert fs files. induction qs as [|q qs IH]; intros fs files Hv Hqs; [constructor|].
  apply Forall_cons in Hqs as [Hq Hqs]. destruct (flat_serves q fs files Hv Hq) as (Hr & files' & Hv' & Hc).
  constructor; [exact Hr|]. rewrite <-Hc. by apply IH.
Qed.
End steps.
End flat_file.

(** A codec that keeps the id alone, and an empty directory. *)
Definition keep_id (m : Match) : option string := Some (mt_ID m).
Definition of_id (text : string) : option Match := Some (sample_match text "").
Abbreviation sample_flat := (FlatFile keep_id of_id (λ _, ".tmp-1.json") ["matches"]).
Definition empty_disk : gmap (list string) (gmap string string) := NewFlatFile ["matches"] ∅.

Lemma empty_disk_valid : flat_valid of_id ["matches"] empty_disk ∅.
Proof.
  split; [reflexivity| |by intros id t Ht; rewrite lookup_empty in Ht]. intros id _. unfold empty_disk, NewFlatFile. cbn [foldl seq length take].
  rewrite !lookup_insert_ne; [apply lookup_empty|done..|]. done.
Qed.

Lemma flat_files_are_a_map_witness :
  Forall2 same_reply
    (flat_answers keep_id of_id (λ _, ".tmp-1.json") ["matches"] [RCreate (sample_match "a" "x"); RGet "a"; RWipe "b"] empty_disk)
    [Ok RUnit; Ok (RMatch (sample_match "a" "")); Err ErrNotFound].
Proof.
  refine (flat_files_are_a_map keep_id of_id (λ _, ".tmp-1.json") ["matches"] _ _ empty_disk ∅ empty_disk_valid _).
  - intros m text _. by eexists.
  - repeat constructor; done.
Defined.

(** A match under an id with a slash is refused when there is no such directory; what was
    written for it stays, and is listed from then on as a match nobody can open or wipe. *)
Lemma refused_files_are_listed :
  let '(r, fs) := @serve _ _ sample_flat (RCreate (sample_match "den/a" "x")) empty_disk in
  r = Err errPath ∧ (@serve _ _ sample_flat (RList "") fs).1 = Ok (RMatches [sample_match "den/a" ""]) ∧
  (@serve _ _ sample_flat (RGet "den/a") fs).1 = Err ErrNotFound ∧ (@serve _ _ sample_flat (RWipe "den/a") fs).1 = Err ErrNotFound.
Proof. vm_compute. done. Qed.

(** An id with dots names a file outside the directory. *)
Lemma ids_lead_out_of_the_directory dir name : matchPath (dir ++ ["matches"]) ("../" +:+ name) = matchPath dir name.
Proof. unfold matchPath. simpl. unfold step_into at 2. simpl. by rewrite removelast_last. Qed.
