(* ===== verification/Manager.v ===== *)
(** * The match manager: state and plumbing

    [src/match]: manager.go, lifecycle.go, timer.go.  A [Manager] is a storage, the
    registered games, the subscribers, the turn timers, the lifecycle handlers and
    the memory of the game code.  An operation holds its match's lock from start to
    end, so it is one run of the monad below; operations of other managers on the
    same storage are the [mg_peers] steps. *)

From S2P Require Import Prelude CoreTypes GameDef Session Reducer Storage.
#[local] Open Scope Z_scope.

Section manager.
Context {T : GoTypes} {S : Type} `{!Storage S}.

(** manager.go: the errors, the engine's and the storage's among them. *)
Inductive manager_error : Type :=
  | ErrUnknownGame | ErrSeatTaken | ErrNoSeatsLeft | ErrUnknownSeat | ErrSeatRequired
  | ErrBadCredentials | ErrInvalidPlayerCount
  | InvalidSetupData (msg : string) | JoinCodeInUse | NoMigrate | MigrateFailed
  | InvalidGame (problems : list problem)
  | FromStore (e : store_error)
  | FromCore (e : error).

(** core.Game with the fields only the manager and the sockets read.  [rg_Migrate] is game code: it may use the
    memory its states point into. *)
Record RegGame := mkReg {
  rg_Game : Game;
  rg_AllowDynamicPlayers : bool;
  rg_DeltaState : bool;
  rg_SchemaVersion : Z;
  rg_Migrate : option (State → Z → world → option State * world);
  rg_ValidateSetupData : option (any → Z → string);
  rg_BeforePersist : option (State → world → State);
  rg_SpectatorsAllowed : option bool
}.

(** A subscriber: which connection, the seat it stands for, and whether it takes patches. *)
Record Subscriber := mkSub { sub_conn : Z; sub_PlayerID : string; sub_patches : bool }.
#[global] Instance Subscriber_eq_dec : EqDecision Subscriber.
Proof. solve_decision. Defined.

Record ChatMessage := mkChat { chat_ID : string; chat_Sender : string; chat_Payload : any }.

(** lifecycle.go *)
Record LifecycleEvent := mkLE {
  ev_Kind : string;
  ev_MatchID : string;
  ev_PlayerID : string;
  ev_State : option State;
  ev_Match : option Match;
  ev_Move : string;
  ev_Args : list any;
  ev_PrevState : option State;
  ev_LogDelta : list LogEntry;
  ev_Err : option error;
  ev_StateID : Z
}.

(** An event of a kind that carries only the match. *)
Definition match_event (kind matchID playerID : string) (m : Match) : LifecycleEvent :=
  mkLE kind matchID playerID (Some (mt_State m)) (Some m) "" [] None [] None 0.

(** What the manager sends out, in order: frames to a subscriber, events to a handler. *)
Inductive output : Type :=
  | OSend (s : Subscriber) (st : State)
  | OSendPatch (s : Subscriber) (st : State)
  | OSendChat (s : Subscriber) (msg : ChatMessage)
  | OSendMatchData (s : Subscriber) (players : list Player)
  | OLifecycle (handler : Z) (ev : LifecycleEvent).

(** The manager's exported knobs and the sources of randomness it draws from. *)
Record Config := mkConfig {
  cf_newID : nat → string;
  cf_GenerateCredentials : nat → string;
  cf_SeedFn : nat → Z;
  cf_AuthenticateCredentials : string → Player → bool;
  cf_RequireStateID : bool;
  cf_UseOptimisticConcurrency : bool;
  cf_OCCMaxRetries : Z;
  cf_fuel : nat
}.

Record turnTimer := mkTimer { tm_deadline : Z; tm_turn : Z }.

Record Manager := mkManager {
  mg_store : S;
  mg_games : gmap string RegGame;
  mg_world : world;
  mg_subs : gmap string (list Subscriber);
  mg_timers : gmap string turnTimer;
  mg_lifecycleSubs : gmap string (list (option Z));
  mg_now : Z;
  mg_drawn : nat;
  mg_peers : list (S → S);
  mg_out : list output
}.

Abbreviation M := (ST Manager manager_error).
Implicit Types (m : Manager).

Definition set_store (v : S) m : Manager :=
  mkManager v (mg_games m) (mg_world m) (mg_subs m) (mg_timers m) (mg_lifecycleSubs m) (mg_now m) (mg_drawn m)
    (mg_peers m) (mg_out m).
Definition set_games (v : gmap string RegGame) m : Manager :=
  mkManager (mg_store m) v (mg_world m) (mg_subs m) (mg_timers m) (mg_lifecycleSubs m) (mg_now m) (mg_drawn m)
    (mg_peers m) (mg_out m).
Definition set_world (v : world) m : Manager :=
  mkManager (mg_store m) (mg_games m) v (mg_subs m) (mg_timers m) (mg_lifecycleSubs m) (mg_now m) (mg_drawn m)
    (mg_peers m) (mg_out m).
Definition set_subs (v : gmap string (list Subscriber)) m : Manager :=
  mkManager (mg_store m) (mg_games m) (mg_world m) v (mg_timers m) (mg_lifecycleSubs m) (mg_now m) (mg_drawn m)
    (mg_peers m) (mg_out m).
Definition set_timers (v : gmap string turnTimer) m : Manager :=
  mkManager (mg_store m) (mg_games m) (mg_world m) (mg_subs m) v (mg_lifecycleSubs m) (mg_now m) (mg_drawn m)
    (mg_peers m) (mg_out m).
Definition set_handlers (v : gmap string (list (option Z))) m : Manager :=
  mkManager (mg_store m) (mg_games m) (mg_world m) (mg_subs m) (mg_timers m) v (mg_now m) (mg_drawn m)
    (mg_peers m) (mg_out m).
Definition set_drawn (v : nat) m : Manager :=
  mkManager (mg_store m) (mg_games m) (mg_world m) (mg_subs m) (mg_timers m) (mg_lifecycleSubs m) (mg_now m) v
    (mg_peers m) (mg_out m).
Definition set_peers (v : list (S → S)) m : Manager :=
  mkManager (mg_store m) (mg_games m) (mg_world m) (mg_subs m) (mg_timers m) (mg_lifecycleSubs m) (mg_now m) (mg_drawn m)
    v (mg_out m).
Definition set_out (v : list output) m : Manager :=
  mkManager (mg_store m) (mg_games m) (mg_world m) (mg_subs m) (mg_timers m) (mg_lifecycleSubs m) (mg_now m) (mg_drawn m)
    (mg_peers m) v.

Definition gets {A} (f : Manager → A) : M A := λ m, (Ok (f m), m).
Definition modify (f : Manager → Manager) : M () := λ m, (Ok tt, f m).

(** A call of the storage, and one whose error is ignored. *)
Definition on_store {A} (op : ST S store_error A) : M A := λ m,
  let '(r, s) := op (mg_store m) in
  (match r with Ok a => Ok a | Err e => Err (FromStore e) | Panicked => Panicked | NoFuel => NoFuel end,
   set_store s m).

(** A call of the engine. *)
Definition on_core {A} (op : ST world error A) : M A := λ m,
  let '(r, w) := op (mg_world m) in
  (match r with Ok a => Ok a | Err e => Err (FromCore e) | Panicked => Panicked | NoFuel => NoFuel end,
   set_world w m).

(** Engine entry points return a state beside an error. *)
Definition core_result (r : State * option error) : M State :=
  match r.2 with None => mret r.1 | Some e => st_err (FromCore e) end.

(** [mm.State = v] and the like on a match the storage handed out. *)
Definition mutated (mm : Match) : M Match := _ ← modify (λ m, set_store (Alias mm (mg_store m)) m); mret mm.

(** Another manager's writes to the shared storage, at a point between two accesses of this one. *)
Definition interfere : M () := modify (λ m,
  match mg_peers m with
  | f :: fs => set_peers fs (set_store (f (mg_store m)) m)
  | [] => m
  end).

(** [m.store.Update(match)] *)
Definition save (mm : Match) : M () := _ ← interfere; on_store (Update mm).

Definition emit (o : output) : M () := modify (λ m, set_out (mg_out m ++ [o]) m).

(** manager.go: [Game], [newID], [GenerateCredentials], [seed]: the next draw. *)
Definition Game_ (name : string) : M (option RegGame) := gets (λ m, mg_games m !! name).
Definition draw {A} (f : nat → A) : M A := λ m, (Ok (f (mg_drawn m)), set_drawn (Datatypes.S (mg_drawn m)) m).

Context (cf : Config).
Abbreviation fuel := (cf_fuel cf).

(** ** manager.go: [Register], [GameNames] *)
Definition Register (g : RegGame) : M () :=
  match Validate (rg_Game g) with
  | [] => modify (λ m, set_games (<[gm_Name (rg_Game g) := g]> (mg_games m)) m)
  | ps => st_err (InvalidGame ps)
  end.

Definition GameNames : M (list string) := gets (λ m, (map_to_list (mg_games m)).*1).

(** ** manager.go: [loadMigrated]

    The re-decoding of G and plugin data from raw JSON is not modelled: states here
    never came from bytes. *)
Fixpoint migrate_loop (mig : State → Z → world → option State * world) (steps : nat) (v : Z) (cur : State) : M State :=
  match steps with
  | O => mret cur
  | Datatypes.S n =>
      w ← gets mg_world;
      let '(next, w) := mig cur v w in
      _ ← modify (set_world w);
      match next with
      | None => st_err MigrateFailed
      | Some next => migrate_loop mig n (v + 1) next
      end
  end.

Definition loadMigrated (matchID : string) : M Match :=
  mm ← on_store (Get matchID);
  g ← Game_ (mt_GameName mm);
  match g with
  | None => mret mm
  | Some g =>
      if decide (rg_SchemaVersion g ≤ mt_SchemaVersion mm) then mret mm
      else match rg_Migrate g with
           | None => st_err NoMigrate
           | Some mig =>
               let from := mt_SchemaVersion mm in
               cur ← migrate_loop mig (Z.to_nat (rg_SchemaVersion g - from)) from (mt_State mm);
               mm ← mutated (set_mt_SchemaVersion (rg_SchemaVersion g) (set_mt_State cur mm));
               _ ← st_try (save mm);
               mret mm
           end
  end.

(** ** lifecycle.go *)
Definition fireLifecycle (ev : LifecycleEvent) : M () := modify (λ m,
  let handlers kind := omap id (default [] (mg_lifecycleSubs m !! kind)) in
  set_out (mg_out m ++ ((λ h, OLifecycle h ev) <$> (handlers (ev_Kind ev) ++ handlers ""))) m).

(** Returns the index the unsubscribe function clears. *)
Definition OnLifecycleKind (kind : string) (handler : Z) : M nat :=
  subs ← gets (λ m, default [] (mg_lifecycleSubs m !! kind));
  _ ← modify (λ m, set_handlers (<[kind := subs ++ [Some handler]]> (mg_lifecycleSubs m)) m);
  mret (length subs).

Definition OnLifecycle (handler : Z) : M nat := OnLifecycleKind "" handler.

Definition offLifecycle (kind : string) (idx : nat) : M () := modify (λ m,
  match mg_lifecycleSubs m !! kind with
  | Some subs => if decide (idx < length subs)%nat
                 then set_handlers (<[kind := <[idx := None]> subs]> (mg_lifecycleSubs m)) m else m
  | None => m
  end).

(** ** manager.go: subscribers *)
Definition subscribers (matchID : string) : M (list Subscriber) :=
  gets (λ m, default [] (mg_subs m !! matchID)).

Definition Subscribe (matchID : string) (s : Subscriber) : M () := modify (λ m,
  let set := default [] (mg_subs m !! matchID) in
  set_subs (<[matchID := if decide (s ∈ set) then set else set ++ [s]]> (mg_subs m)) m).

Definition Unsubscribe (matchID : string) (s : Subscriber) : M () := modify (λ m,
  match mg_subs m !! matchID with
  | Some set => match filter (.≠ s) set with
                | [] => set_subs (delete matchID (mg_subs m)) m
                | set' => set_subs (<[matchID := set']> (mg_subs m)) m
                end
  | None => m
  end).

Definition emits (os : list output) : M () := modify (λ m, set_out (mg_out m ++ os) m).

(** Both return early, without an error, when the match cannot be loaded. *)
Definition broadcastMatchData (matchID : string) : M () :=
  r ← st_try (loadMigrated matchID);
  match r with
  | inl _ => mret tt
  | inr mm => subs ← subscribers matchID; emits ((λ s, OSendMatchData s (mt_Players mm)) <$> subs)
  end.

Definition frame (g : RegGame) (st : State) (w : world) (s : Subscriber) : output :=
  let v := PlayerView (rg_Game g) st (sub_PlayerID s) w in
  if rg_DeltaState g && sub_patches s then OSendPatch s v else OSend s v.

Definition broadcast (matchID : string) (st : State) : M () :=
  subs ← subscribers matchID;
  r ← st_try (loadMigrated matchID);
  match r with
  | inl _ => mret tt
  | inr mm =>
      g ← Game_ (mt_GameName mm);
      match g with
      | None => mret tt
      | Some g => w ← gets mg_world; emits (frame g st w <$> subs)
      end
  end.

Definition Chat (matchID sender : string) (payload : any) : M () :=
  id ← draw (cf_newID cf);
  subs ← subscribers matchID;
  emits ((λ s, OSendChat s (mkChat id sender payload)) <$> subs).

(** ** timer.go: [scheduleTurnTimer], [cancelTurnTimer] *)
Definition turnBudget (g : RegGame) (st : State) : Z :=
  match scopeTurn (rg_Game g) (ctx_Phase (st_Ctx st)) with Some t => tc_TimeBudget t | None => 0 end.

Definition scheduleTurnTimer (matchID : string) (st : State) (g : RegGame) : M () := modify (λ m,
  let budget := turnBudget g st in
  let timers := delete matchID (mg_timers m) in
  if decide (budget ≤ 0 ∨ is_Some (ctx_Gameover (st_Ctx st))) then set_timers timers m
  else set_timers (<[matchID := mkTimer (mg_now m + budget) (ctx_Turn (st_Ctx st))]> timers) m).

Definition cancelTurnTimer (matchID : string) : M () :=
  modify (λ m, set_timers (delete matchID (mg_timers m)) m).
End manager.

Arguments mkManager {T S}.
Arguments mg_store {T S}.
Arguments mg_games {T S}.
Arguments mg_world {T S}.
Arguments mg_subs {T S}.
Arguments mg_timers {T S}.
Arguments mg_lifecycleSubs {T S}.
Arguments mg_now {T S}.
Arguments mg_drawn {T S}.
Arguments mg_peers {T S}.
Arguments mg_out {T S}.
