(* ===== verification/Lobby.v ===== *)
(** * The match manager: creating matches and seating players

    [src/match/manager.go]: Create, FindByJoinCode, Join, SetConnected, Reset, Leave,
    UpdatePlayer, PlayAgain, State, Authenticate, List. *)

From S2P Require Import Prelude CoreTypes GameDef Session Storage Manager.
#[local] Open Scope Z_scope.

Section lobby.
Context {T : GoTypes} {S : Type} `{!Storage S} (cf : Config).
Abbreviation M := (ST (Manager.Manager (S:=S)) manager_error).

Record CreateOptions := mkCreateOptions {
  cro_NumPlayers : Z;
  cro_SetupData : any;
  cro_Unlisted : bool;
  cro_Name : string;
  cro_JoinCode : string
}.

Definition FindByJoinCode (gameName code : string) : M Match :=
  if decide (code = "") then st_err (FromStore ErrNotFound)
  else
    matches ← on_store (Storage.List gameName);
    match filter (λ mm, mt_JoinCode mm = code) matches with
    | mm :: _ => mret mm
    | [] => st_err (FromStore ErrNotFound)
    end.

(** [fmt.Errorf("invalid setupData: …")] unless the game's check passes. *)
Definition validateSetupData (g : RegGame) (numPlayers : Z) (setupData : any) : M () :=
  match rg_ValidateSetupData g with
  | Some check =>
      let msg := check setupData (PlayerCount (rg_Game g) numPlayers) in
      if decide (msg = "") then mret tt else st_err (InvalidSetupData msg)
  | None => mret tt
  end.

(** The common tail of [createLockedFull] and [createLocked]. *)
Definition createMatch (g : RegGame) (gameName : string) (opts : CreateOptions) : M string :=
  seed ← draw (cf_SeedFn cf);
  r ← on_core (NewMatchSeededE (cf_fuel cf) (rg_Game g) (cro_NumPlayers opts) (cro_SetupData opts) seed);
  state ← core_result r;
  id ← draw (cf_newID cf);
  now ← gets mg_now;
  let mm := mkMatch id gameName state [] (cro_SetupData opts) (cro_Unlisted opts) (now / 1000000000) ""
              (cro_Name opts) (cro_JoinCode opts) (rg_SchemaVersion g) in
  _ ← on_store (Storage.Create mm);
  _ ← fireLifecycle (match_event "match.created" id "" mm);
  _ ← scheduleTurnTimer id state g;
  mret id.

Definition createLockedFull (gameName : string) (opts : CreateOptions) : M string :=
  g ← Game_ gameName;
  match g with
  | None => st_err ErrUnknownGame
  | Some g =>
      let n := cro_NumPlayers opts in
      let min := gm_MinPlayers (rg_Game g) in
      let max := gm_MaxPlayers (rg_Game g) in
      if decide (0 < n ∧ ((0 < min ∧ n < min) ∨ (0 < max ∧ max < n))) then st_err ErrInvalidPlayerCount
      else
        _ ← validateSetupData g n (cro_SetupData opts);
        existing ← (if decide (cro_JoinCode opts = "") then mret (inl ErrUnknownGame)
                    else st_try (FindByJoinCode gameName (cro_JoinCode opts)));
        match existing with
        | inr _ => st_err JoinCodeInUse
        | inl _ => createMatch g gameName opts
        end
  end.

Definition createLocked (gameName : string) (numPlayers : Z) (setupData : any) (unlisted : bool) : M string :=
  g ← Game_ gameName;
  match g with
  | None => st_err ErrUnknownGame
  | Some g =>
      _ ← validateSetupData g numPlayers setupData;
      createMatch g gameName (mkCreateOptions numPlayers setupData unlisted "" "")
  end.

Definition Create (gameName : string) (opts : CreateOptions) : M string := createLockedFull gameName opts.

(** ** Players of a match *)
Record JoinResult := mkJoinResult { jr_PlayerID : string; jr_Seat : string; jr_PlayerCredentials : string }.
Record JoinOptions := mkJoinOptions { jo_PlayerID : string; jo_Seat : string; jo_Data : any }.

(** The first player of that id, with its index. *)
Definition findPlayer (playerID : string) (mm : Match) : option (nat * Player) :=
  list_find (λ p, sp_ID p = playerID) (mt_Players mm).

Definition seats (mm : Match) : list string := sp_Seat <$> mt_Players mm.

(** [for i := 0; i < NumPlayers; i++ { if !taken[strconv.Itoa(i)] … }] *)
Definition firstFreeSeat (mm : Match) : option string :=
  snd <$> list_find (.∉ seats mm)
            ((λ i : nat, pretty (N.of_nat i)) <$> seq 0 (Z.to_nat (ctx_NumPlayers (st_Ctx (mt_State mm))))).

(** The seat a join takes, growing the table of a game that allows it. *)
Definition chooseSeat (requested : string) (mm : Match) : M (string * Match) :=
  g ← Game_ (mt_GameName mm);
  if decide (requested ≠ "") then
    if decide (requested ∈ seats mm) then st_err ErrSeatTaken else mret (requested, mm)
  else match firstFreeSeat mm with
       | Some seat => mret (seat, mm)
       | None =>
           let c := st_Ctx (mt_State mm) in
           let n := ctx_NumPlayers c in
           match g with
           | Some g =>
               if rg_AllowDynamicPlayers g then
                 let max := gm_MaxPlayers (rg_Game g) in
                 if decide (0 < max ∧ max ≤ n) then st_err ErrNoSeatsLeft
                 else
                   let seat := pretty n in
                   let c := set_ctx_NumPlayers (n + 1) (set_ctx_PlayOrder (ctx_PlayOrder c ++ [seat]) c) in
                   mm ← mutated (set_mt_State (set_st_Ctx c (mt_State mm)) mm);
                   mret (seat, mm)
               else st_err ErrNoSeatsLeft
           | None => st_err ErrNoSeatsLeft
           end
       end.

Definition Join (matchID name : string) (opts : JoinOptions) : M JoinResult :=
  mm ← loadMigrated matchID;
  let requested := if decide (jo_Seat opts = "") then jo_PlayerID opts else jo_Seat opts in
  match (if decide (jo_PlayerID opts = "") then None else findPlayer (jo_PlayerID opts) mm) with
  | Some (_, p) => mret (mkJoinResult (sp_ID p) (sp_Seat p) (sp_Credentials p))
  | None =>
      '(seat, mm) ← chooseSeat requested mm;
      let playerID := if decide (jo_PlayerID opts = "") then seat else jo_PlayerID opts in
      creds ← draw (cf_GenerateCredentials cf);
      mm ← mutated (set_mt_Players
             (mt_Players mm ++ [mkPlayer playerID name seat creds (jo_Data opts) false]) mm);
      _ ← save mm;
      _ ← broadcastMatchData matchID;
      _ ← fireLifecycle (match_event "match.joined" matchID playerID mm);
      mret (mkJoinResult playerID seat creds)
  end.

(** The first player of that id, if the credentials are its own. *)
Definition authenticated (playerID credentials : string) (mm : Match) : M (nat * Player) :=
  match findPlayer playerID mm with
  | None => st_err ErrUnknownSeat
  | Some (i, p) => if cf_AuthenticateCredentials cf credentials p then mret (i, p)
                   else st_err ErrBadCredentials
  end.

(** Some player of that id with those credentials: the check of [Reset] and [PlayAgain]. *)
Definition someAuthenticated (playerID credentials : string) (mm : Match) : bool :=
  existsb (λ p, bool_decide (sp_ID p = playerID) && cf_AuthenticateCredentials cf credentials p)
    (mt_Players mm).

Definition set_connected (b : bool) (p : Player) : Player :=
  mkPlayer (sp_ID p) (sp_Name p) (sp_Seat p) (sp_Credentials p) (sp_Data p) b.

Definition SetConnected (matchID playerID : string) (connected : bool) : M () :=
  if decide (playerID = "") then mret tt
  else
    mm ← loadMigrated matchID;
    match findPlayer playerID mm with
    | None => mret tt
    | Some (i, p) =>
        if Bool.eqb (sp_IsConnected p) connected then mret tt
        else
          mm ← mutated (set_mt_Players (<[i := set_connected connected p]> (mt_Players mm)) mm);
          _ ← save mm;
          broadcastMatchData matchID
    end.

Definition Reset_ (matchID playerID credentials : string) : M () :=
  mm ← loadMigrated matchID;
  if negb (someAuthenticated playerID credentials mm) then st_err ErrBadCredentials
  else
    g ← Game_ (mt_GameName mm);
    match g with
    | None => st_err ErrUnknownGame
    | Some g =>
        seed ← draw (cf_SeedFn cf);
        r ← on_core (NewMatchSeededE (cf_fuel cf) (rg_Game g) (ctx_NumPlayers (st_Ctx (mt_State mm)))
                       (mt_SetupData mm) seed);
        fresh ← core_result r;
        mm ← mutated (set_mt_Players (set_connected false <$> mt_Players mm) (set_mt_State fresh mm));
        _ ← save mm;
        _ ← broadcast matchID fresh;
        _ ← broadcastMatchData matchID;
        _ ← fireLifecycle (match_event "match.reset" matchID playerID mm);
        scheduleTurnTimer matchID fresh g
    end.

Definition Leave (matchID playerID credentials : string) : M () :=
  mm ← loadMigrated matchID;
  '(i, _) ← authenticated playerID credentials mm;
  mm ← mutated (set_mt_Players (remove_at i (mt_Players mm)) mm);
  _ ← save mm;
  _ ← broadcastMatchData matchID;
  fireLifecycle (match_event "match.left" matchID playerID mm).

(** [UpdatePlayerOpts]: [NewName], and [Data] with [HasData]. *)
Record UpdatePlayerOpts := mkUpdatePlayerOpts { up_NewName : option string; up_Data : option any }.

Definition update_player (opts : UpdatePlayerOpts) (p : Player) : Player :=
  mkPlayer (sp_ID p) (default (sp_Name p) (up_NewName opts)) (sp_Seat p) (sp_Credentials p)
    (default (sp_Data p) (up_Data opts)) (sp_IsConnected p).

Definition UpdatePlayer (matchID playerID credentials : string) (opts : UpdatePlayerOpts) : M () :=
  mm ← loadMigrated matchID;
  '(i, p) ← authenticated playerID credentials mm;
  mm ← mutated (set_mt_Players (<[i := update_player opts p]> (mt_Players mm)) mm);
  _ ← save mm;
  broadcastMatchData matchID.

Definition PlayAgain (matchID playerID credentials : string) (numPlayers : Z) (setupData : any)
    (useDataFromPrev : bool) : M string :=
  prev ← loadMigrated matchID;
  if negb (someAuthenticated playerID credentials prev) then st_err ErrBadCredentials
  else if decide (mt_NextMatchID prev ≠ "") then mret (mt_NextMatchID prev)
  else
    let setupData := if useDataFromPrev then match setupData with None => mt_SetupData prev | _ => setupData end
                     else setupData in
    let numPlayers := if decide (numPlayers ≤ 0) then ctx_NumPlayers (st_Ctx (mt_State prev)) else numPlayers in
    next ← createLocked (mt_GameName prev) numPlayers setupData false;
    prev ← mutated (set_mt_NextMatchID next prev);
    _ ← st_try (save prev);
    mret next.

Definition State_ (matchID : string) : M Match := loadMigrated matchID.

Definition Authenticate (matchID playerID credentials : string) : M bool :=
  if decide (playerID = "") then mret false
  else
    r ← st_try (loadMigrated matchID);
    mret match r with
         | inl _ => false
         | inr mm => match findPlayer playerID mm with
                     | Some (_, p) => cf_AuthenticateCredentials cf credentials p
                     | None => false
                     end
         end.

Definition List_ (gameName : string) : M (list Match) := on_store (Storage.List gameName).
End lobby.

(** manager.go: the default [AuthenticateCredentials] *)
Definition DefaultAuthenticate {T : GoTypes} (supplied : string) (p : Player) : bool :=
  bool_decide (supplied ≠ "") && bool_decide (supplied = sp_Credentials p).
