(* ===== verification/Dispatch.v ===== *)
(** * The match manager: moves, timers, export, the janitor

    [src/match]: manager.go (Move to DispatchServer), timer.go (AutoExpire), export.go,
    janitor.go. *)

From S2P Require Import Prelude CoreTypes GameDef Session Reducer Storage Manager Lobby.
#[local] Open Scope Z_scope.

Section dispatch.
Context {T : GoTypes} {S : Type} `{!Storage S} (cf : Config).
Abbreviation M := (ST (Manager.Manager (S:=S)) manager_error).
Abbreviation fuel := (cf_fuel cf).
Implicit Types (req : MoveRequest) (g : RegGame).

(** The request the reducer sees for a seated client. *)
Definition client_request (seat : string) (nowMs : Z) req : MoveRequest :=
  mkReq seat (rq_Move req) (rq_Args req) (rq_StateID req) (rq_ResumeTag req) nowMs false true.

Definition rejected_event (matchID playerID : string) (mm : Match) req (err : error) : LifecycleEvent :=
  mkLE "match.moveRejected" matchID playerID None None (rq_Move req) (rq_Args req) None [] (Some err)
    (st_StateID (mt_State mm)).

Definition moved_event (matchID playerID : string) (mm : Match) (prev next : State) req : LifecycleEvent :=
  mkLE "match.moved" matchID playerID (Some next) (Some mm) (rq_Move req) (rq_Args req) (Some prev)
    (drop (length (st_Log prev)) (st_Log next)) None 0.

Definition over (st : State) : Prop := is_Some (ctx_Gameover (st_Ctx st)).
#[global] Instance over_dec st : Decision (over st).
Proof. unfold over. apply _. Defined.

(** What is written for a match: the game may trim its state first. *)
Definition persisted g (mm : Match) (w : world) : Match :=
  match rg_BeforePersist g with
  | Some f => set_mt_State (f (mt_State mm) w) mm
  | None => mm
  end.

Definition maxRetries : nat :=
  if decide (cf_OCCMaxRetries cf ≤ 0) then 8%nat else Z.to_nat (cf_OCCMaxRetries cf).

(** [UpdateIfStateID] when the configuration and the storage have it, [Update] otherwise. *)
Definition write (mm : Match) (next : State) : M () :=
  match UpdateIfStateID with
  | Some cas => if cf_UseOptimisticConcurrency cf
                then _ ← interfere; on_store (cas mm (st_StateID next - 1))
                else save mm
  | None => save mm
  end.

(** The OCC loop; [attempts] are the ones left, so that the last conflict is the result. *)
Fixpoint attempt_loop (ctx : goctx) (matchID playerID : string) g req (attempts : nat) (mm : Match)
    : M (State * State * Match) :=
  match attempts with
  | O => st_err (FromStore ErrConflict)
  | Datatypes.S attempts =>
      let prev := mt_State mm in
      r ← on_core (ApplyContext fuel ctx (rg_Game g) prev req);
      match r.2 with
      | Some err => _ ← fireLifecycle (rejected_event matchID playerID mm req err); st_err (FromCore err)
      | None =>
          let next := r.1 in
          mm ← mutated (set_mt_State next mm);
          w ← gets mg_world;
          written ← st_try (write (persisted g mm w) next);
          match written with
          | inr _ => mret (prev, next, mm)
          | inl (FromStore ErrConflict) =>
              if decide (attempts = 0%nat) then st_err (FromStore ErrConflict)
              else _ ← interfere; mm ← loadMigrated matchID;
                   attempt_loop ctx matchID playerID g req attempts mm
          | inl e => st_err e
          end
      end
  end.

Definition dispatchLocked (ctx : goctx) (matchID playerID : string) g (mm : Match) req : M State :=
  '(prev, next, mm) ← attempt_loop ctx matchID playerID g req maxRetries mm;
  _ ← broadcast matchID next;
  _ ← (if decide (length (st_Log prev) ≤ length (st_Log next))%nat then mret tt else st_panic);
  _ ← fireLifecycle (moved_event matchID playerID mm prev next req);
  _ ← (if decide (over next ∧ ¬ over prev)
       then fireLifecycle (mkLE "match.gameOver" matchID playerID (Some next) (Some mm) "" [] None [] None 0)
       else mret tt);
  _ ← scheduleTurnTimer matchID next g;
  mret next.

(** The seat a client's request moves for. *)
Definition clientSeat (playerID credentials : string) (mm : Match) : M string :=
  match findPlayer playerID mm with
  | None => st_err ErrUnknownSeat
  | Some (_, p) =>
      if negb (bool_decide (credentials = "")) && negb (cf_AuthenticateCredentials cf credentials p)
      then st_err ErrBadCredentials
      else if decide (sp_Seat p = "") then st_err ErrUnknownSeat
      else mret (sp_Seat p)
  end.

Definition unready g (mm : Match) : Prop :=
  rg_AllowDynamicPlayers g = false ∧ Z.of_nat (length (mt_Players mm)) < ctx_NumPlayers (st_Ctx (mt_State mm)).
#[global] Instance unready_dec g mm : Decision (unready g mm).
Proof. unfold unready. apply _. Defined.

Definition MoveReqCtx (ctx : goctx) (matchID playerID credentials : string) req : M State :=
  now ← gets mg_now;
  let nowMs := if decide (rq_NowMs req = 0) then now / 1000000 else rq_NowMs req in
  if cf_RequireStateID cf && bool_decide (rq_StateID req = 0) then st_err (FromCore ErrStaleState)
  else
    mm ← loadMigrated matchID;
    g ← Game_ (mt_GameName mm);
    match g with
    | None => st_err ErrUnknownGame
    | Some g =>
        seat ← clientSeat playerID credentials mm;
        if decide (unready g mm) then st_err ErrSeatRequired
        else dispatchLocked ctx matchID playerID g mm (client_request seat nowMs req)
    end.

Definition MoveReq := MoveReqCtx ctxBackground.

Definition Move_ (matchID playerID credentials moveName : string) (args : list any) : M State :=
  MoveReq matchID playerID credentials (mkReq "" moveName args 0 "" 0 false false).

(** A dry move runs the reducer; nothing is stored or sent. *)
Definition DryMoveReq (matchID playerID credentials : string) req : M State :=
  mm ← loadMigrated matchID;
  g ← Game_ (mt_GameName mm);
  match g with
  | None => st_err ErrUnknownGame
  | Some g =>
      seat ← clientSeat playerID credentials mm;
      r ← on_core (Apply fuel (rg_Game g) (mt_State mm) (client_request seat (rq_NowMs req) req));
      core_result r
  end.

Definition DryMove (matchID playerID credentials moveName : string) (args : list any) : M State :=
  DryMoveReq matchID playerID credentials (mkReq "" moveName args 0 "" 0 false false).

Definition DispatchServer (ctx : goctx) (matchID playerID moveName : string) (args : list any) : M State :=
  mm ← loadMigrated matchID;
  g ← Game_ (mt_GameName mm);
  match g with
  | None => st_err ErrUnknownGame
  | Some g =>
      now ← gets mg_now;
      dispatchLocked ctx matchID playerID g mm
        (mkReq playerID moveName args (st_StateID (mt_State mm)) "" (now / 1000000) true false)
  end.

(** ** timer.go *)
Definition expired_event (matchID : string) (mm : Match) (next : State) : LifecycleEvent :=
  mkLE "match.moved" matchID "" (Some next) (Some mm) "__turn_expired__" [] None [] None 0.

Definition AutoExpire (matchID : string) (expectedTurn : Z) : M () :=
  mm ← loadMigrated matchID;
  if decide (ctx_Turn (st_Ctx (mt_State mm)) ≠ expectedTurn) then mret tt
  else if decide (over (mt_State mm)) then mret tt
  else
    g ← Game_ (mt_GameName mm);
    match g with
    | None => mret tt
    | Some g =>
        r ← on_core (ForceEndTurnE fuel (rg_Game g) (mt_State mm));
        next ← core_result r;
        mm ← mutated (set_mt_State next mm);
        _ ← save mm;
        _ ← broadcast matchID next;
        _ ← fireLifecycle (expired_event matchID mm next);
        scheduleTurnTimer matchID next g
    end.

(** The timer of a match fires once, when its deadline has passed; a fired timer is no longer armed. *)
Definition fireTimer (matchID : string) : M () :=
  t ← gets (λ m, mg_timers m !! matchID);
  now ← gets mg_now;
  match t with
  | Some t => if decide (tm_deadline t ≤ now)
              then _ ← cancelTurnTimer matchID; AutoExpire matchID (tm_turn t) else mret tt
  | None => mret tt
  end.

(** ** export.go *)
Record ExportedMatch := mkExport {
  ex_GameName : string;
  ex_NumPlayers : Z;
  ex_SetupData : any;
  ex_Log : list LogEntry;
  ex_SchemaVersion : Z;
  ex_Seed : Z
}.

Definition ExportMatch (matchID : string) : M ExportedMatch :=
  mm ← loadMigrated matchID;
  let c := st_Ctx (mt_State mm) in
  mret (mkExport (mt_GameName mm) (ctx_NumPlayers c) (mt_SetupData mm) (st_Log (mt_State mm))
          (mt_SchemaVersion mm) (ctx_Seed c)).

Definition ImportMatch (exp : ExportedMatch) : M string :=
  g ← Game_ (ex_GameName exp);
  match g with
  | None => st_err ErrUnknownGame
  | Some g =>
      r ← on_core (ReplaySeeded fuel (rg_Game g) (ex_Log exp) (ex_NumPlayers exp) (ex_SetupData exp) (ex_Seed exp));
      state ← core_result r;
      id ← draw (cf_newID cf);
      now ← gets mg_now;
      _ ← on_store (Storage.Create (mkMatch id (ex_GameName exp) state [] (ex_SetupData exp) false (now / 1000000000)
                                      "" "" "" (ex_SchemaVersion exp)));
      _ ← st_try (loadMigrated id);
      mret id
  end.

(** ** janitor.go: one sweep; durations are nanoseconds, [CreatedAt] seconds. *)
Record JanitorOptions := mkJanitor { ja_IdleAfter : Z; ja_FinishedAfter : Z }.

(** The defaults of [RunJanitor]: a day, and half the idle time. *)
Definition janitor_defaults (opts : JanitorOptions) : JanitorOptions :=
  let idle := if decide (ja_IdleAfter opts ≤ 0) then 24 * 3600 * 1000000000 else ja_IdleAfter opts in
  mkJanitor idle (if decide (ja_FinishedAfter opts ≤ 0) then idle `quot` 2 else ja_FinishedAfter opts).

Definition stale (opts : JanitorOptions) (now : Z) (mm : Match) : Prop :=
  (if decide (over (mt_State mm)) then ja_FinishedAfter opts else ja_IdleAfter opts)
    ≤ (now / 1000000000 - mt_CreatedAt mm) * 1000000000.
#[global] Instance stale_dec opts now mm : Decision (stale opts now mm).
Proof. unfold stale. apply _. Defined.

Fixpoint wipe_stale (opts : JanitorOptions) (now : Z) (l : list Match) : M () :=
  match l with
  | [] => mret tt
  | mm :: l' =>
      _ ← (if decide (stale opts now mm) then
             r ← st_try (on_store (Wipe (mt_ID mm)));
             match r with inl _ => mret tt | inr _ => cancelTurnTimer (mt_ID mm) end
           else mret tt);
      wipe_stale opts now l'
  end.

Definition janitorSweep (opts : JanitorOptions) : M () :=
  now ← gets mg_now;
  r ← st_try (on_store (Storage.List ""));
  match r with
  | inl _ => mret tt
  | inr l => wipe_stale opts now l
  end.
End dispatch.
