(* ===== verification/ManagerFacts.v ===== *)
(** * The match manager as a transition system

    Every call a client, a transport, a timer or another manager can make, as data;
    invariants of the manager hold on every run, also through failing calls. *)

From S2P Require Import Prelude CoreTypes GameDef Session Reducer Storage.
From S2P Require Import Manager Lobby Dispatch.
#[local] Open Scope Z_scope.

Section operations.
Context {T : GoTypes} {S : Type} `{!Storage S} (cf : Config).
Abbreviation Mgr := (Manager.Manager (S:=S)).
Abbreviation M := (ST Mgr manager_error).

(** [OpPeers] schedules the writes other managers will make while this one's next
    operations run; [OpTick] lets time pass. *)
Inductive operation : Type :=
  | OpRegister (g : RegGame)
  | OpCreate (gameName : string) (opts : CreateOptions)
  | OpJoin (matchID name : string) (opts : JoinOptions)
  | OpSetConnected (matchID playerID : string) (connected : bool)
  | OpReset (matchID playerID credentials : string)
  | OpLeave (matchID playerID credentials : string)
  | OpUpdatePlayer (matchID playerID credentials : string) (opts : UpdatePlayerOpts)
  | OpPlayAgain (matchID playerID credentials : string) (n : Z) (setupData : any) (usePrev : bool)
  | OpState (matchID : string)
  | OpAuthenticate (matchID playerID credentials : string)
  | OpList (gameName : string)
  | OpMove (ctx : goctx) (matchID playerID credentials : string) (req : MoveRequest)
  | OpDryMove (matchID playerID credentials : string) (req : MoveRequest)
  | OpDispatchServer (ctx : goctx) (matchID playerID move : string) (args : list any)
  | OpAutoExpire (matchID : string) (turn : Z)
  | OpFireTimer (matchID : string)
  | OpImport (exp : ExportedMatch)
  | OpExport (matchID : string)
  | OpSweep (opts : JanitorOptions)
  | OpSubscribe (matchID : string) (s : Subscriber)
  | OpUnsubscribe (matchID : string) (s : Subscriber)
  | OpChat (matchID sender : string) (payload : any)
  | OpOnLifecycle (kind : string) (handler : Z)
  | OpOffLifecycle (kind : string) (idx : nat)
  | OpTick (d : Z)
  | OpPeers (fs : list (S → S)).

Definition run_ {A} (op : M A) : M () := _ ← op; mret tt.

Definition set_now (v : Z) (m : Mgr) : Mgr :=
  mkManager (mg_store m) (mg_games m) (mg_world m) (mg_subs m) (mg_timers m) (mg_lifecycleSubs m) v (mg_drawn m)
    (mg_peers m) (mg_out m).

Definition perform (o : operation) : M () :=
  match o with
  | OpRegister g => Register g
  | OpCreate gameName opts => run_ (Lobby.Create cf gameName opts)
  | OpJoin matchID name opts => run_ (Join cf matchID name opts)
  | OpSetConnected matchID playerID connected => SetConnected matchID playerID connected
  | OpReset matchID playerID credentials => Reset_ cf matchID playerID credentials
  | OpLeave matchID playerID credentials => Leave cf matchID playerID credentials
  | OpUpdatePlayer matchID playerID credentials opts => UpdatePlayer cf matchID playerID credentials opts
  | OpPlayAgain matchID playerID credentials n setupData usePrev =>
      run_ (PlayAgain cf matchID playerID credentials n setupData usePrev)
  | OpState matchID => run_ (State_ matchID)
  | OpAuthenticate matchID playerID credentials => run_ (Authenticate cf matchID playerID credentials)
  | OpList gameName => run_ (List_ gameName)
  | OpMove ctx matchID playerID credentials req => run_ (MoveReqCtx cf ctx matchID playerID credentials req)
  | OpDryMove matchID playerID credentials req => run_ (DryMoveReq cf matchID playerID credentials req)
  | OpDispatchServer ctx matchID playerID move args => run_ (DispatchServer cf ctx matchID playerID move args)
  | OpAutoExpire matchID turn => AutoExpire cf matchID turn
  | OpFireTimer matchID => fireTimer cf matchID
  | OpImport exp => run_ (ImportMatch cf exp)
  | OpExport matchID => run_ (ExportMatch matchID)
  | OpSweep opts => janitorSweep (janitor_defaults opts)
  | OpSubscribe matchID s => Subscribe matchID s
  | OpUnsubscribe matchID s => Unsubscribe matchID s
  | OpChat matchID sender payload => Chat cf matchID sender payload
  | OpOnLifecycle kind handler => run_ (OnLifecycleKind kind handler)
  | OpOffLifecycle kind idx => offLifecycle kind idx
  | OpTick d => modify (λ m, set_now (mg_now m + d) m)
  | OpPeers fs => modify (λ m, set_peers (mg_peers m ++ fs) m)
  end.

Definition serve_all (ops : list operation) (m : Mgr) : Mgr := foldl (λ m o, (perform o m).2) m ops.

(** manager.go: [NewManager] over a storage *)
Definition NewManager (store : S) (w : world) : Mgr := mkManager store ∅ w ∅ ∅ ∅ 0 0%nat [] [].

(** ** Invariants, operation by operation *)
Section keeps.
Variable I : Mgr → Prop.

Lemma keeps_try {A} (m : M A) : keeps I m → keeps I (st_try m).
Proof. intros Hm s Hs. specialize (Hm s Hs). unfold st_try. by destruct (m s) as [[]]. Qed.

Lemma keeps_run_ {A} (m : M A) : keeps I m → keeps I (run_ m).
Proof. intros Hm. apply keeps_bind; [done|intros a; apply keeps_ret]. Qed.

Lemma keeps_modify (f : Mgr → Mgr) : (∀ m, I m → I (f m)) → keeps I (modify f : M ()).
Proof. intros Hf m Hm. by apply Hf. Qed.

Lemma keeps_gets {A} (f : Mgr → A) : keeps I (gets f : M A).
Proof. by intros m Hm. Qed.

(** An invariant and a fact about the result of a normal return. *)
Definition triple {A} (Q : A → Prop) (m : M A) : Prop :=
  ∀ s, I s → I (m s).2 ∧ ∀ a, (m s).1 = Ok a → Q a.

Lemma triple_keeps {A} (Q : A → Prop) (m : M A) : triple Q m → keeps I m.
Proof. intros Hm s Hs. by apply Hm. Qed.

Lemma triple_any {A} (m : M A) : keeps I m → triple (λ _, True) m.
Proof. intros Hm s Hs. split; [by apply Hm|done]. Qed.

Lemma triple_ret {A} (Q : A → Prop) (a : A) : Q a → triple Q (mret a : M A).
Proof. intros Ha s Hs. split; [done|]. by intros ? [= <-]. Qed.

Lemma triple_err {A} (Q : A → Prop) e : triple Q (st_err e : M A).
Proof. intros s Hs. by split. Qed.

Lemma triple_bind {A B} (P : A → Prop) (Q : B → Prop) (m : M A) (f : A → M B) :
  triple P m → (∀ a, P a → triple Q (f a)) → triple Q (m ≫= f).
Proof.
  intros Hm Hf s Hs. destruct (Hm s Hs) as [Hi Ha]. rewrite bind_eq.
  destruct (m s) as [[a|e| |] s1]; simpl in *; try done. by apply Hf; [apply Ha|].
Qed.

Lemma triple_try {A} (Q : A → Prop) (m : M A) :
  triple Q m → triple (λ r, match r with inr a => Q a | inl _ => True end) (st_try m).
Proof.
  intros Hm s Hs. destruct (Hm s Hs) as [Hi Ha]. unfold st_try.
  destruct (m s) as [[a|e| |] s1]; simpl in *; split; try done; intros ? [= <-]; auto.
Qed.

Lemma keeps_serve_all ops :
  (∀ o, o ∈ ops → keeps I (perform o)) → ∀ m, I m → I (serve_all ops m).
Proof.
  unfold serve_all. induction ops as [|o ops IH]; intros Hops m Hm; [done|]. simpl. apply IH.
  - intros o' Ho. apply Hops. by right.
  - apply Hops; [by left|done].
Qed.
End keeps.
End operations.

Arguments operation {T} S.
#[export] Hint Resolve keeps_ret keeps_err keeps_panic keeps_gets : engine.

(** Walk down the code of an operation: [leaf] closes what touches the state. *)
Ltac keeps_walk leaf :=
  repeat first
    [ progress (intros)
    | solve [leaf]
    | solve [auto with engine nocore]
    | apply keeps_bind
    | apply keeps_try
    | apply keeps_run_
    | case_match_goal ].

(** The same with facts about intermediate results: [leaf] closes the calls whose result matters,
    and everything else is shown to keep the invariant. *)
Ltac triple_walk leaf :=
  repeat first
    [ progress (intros)
    | solve [leaf]
    | solve [auto with engine nocore]
    | apply triple_err
    | eapply triple_bind; [solve [leaf]|]
    | eapply triple_bind; [eapply triple_try; solve [leaf]|]
    | eapply triple_bind; [apply triple_any; solve [auto with engine nocore]|]
    | eapply triple_bind
    | eapply triple_try
    | case_match_goal ].
