(* ===== verification/ManagerExample.v ===== *)
(** * A small server

    A manager over the in-memory storage that serves the game of [Example]: the
    concrete input of the manager's theorems, and runs that show what it does not
    guarantee. *)

From S2P Require Import Prelude CoreTypes Api GameDef Reducer Session Storage Example.
From S2P Require Import Manager Lobby Dispatch ManagerFacts.
#[local] Open Scope Z_scope.

Abbreviation mem_store := (gmap string Match).

Definition counter_game : RegGame := mkReg counter false false 0 None None None None.

(** Match ids and credentials number the draws. *)
Definition demo_config (occ : bool) : Config :=
  mkConfig (λ n, "m" +:+ pretty (N.of_nat n)) (λ n, "c" +:+ pretty (N.of_nat n)) (λ _, 42)
    DefaultAuthenticate false occ 0 fuel0.

Definition two_seats : CreateOptions := mkCreateOptions 2 None false "" "".
Definition any_seat : JoinOptions := mkJoinOptions "" "" None.
Definition client (move : string) : MoveRequest := mkReq "" move [] 0 "" 5 false false.
Definition spectator : Subscriber := mkSub 1 "" false.

Definition opening : list (operation mem_store) :=
  [OpRegister counter_game; OpCreate "counter" two_seats; OpSubscribe "m1" spectator;
   OpJoin "m1" "ann" any_seat; OpJoin "m1" "bob" any_seat].

Definition served occ (ops : list (operation mem_store)) : Manager.Manager (S:=mem_store) :=
  serve_all (demo_config occ) ops (NewManager ∅ 0).

Definition stored occ ops (id : string) : option Match := mg_store (served occ ops) !! id.

Example ann_and_bob_sit :
  (λ mm, (λ p, (sp_ID p, sp_Seat p, sp_Credentials p)) <$> mt_Players mm) <$> stored false opening "m1" =
  Some [("0", "0", "c2"); ("1", "1", "c3")].
Proof. by vm_compute. Qed.

Example ann_moves :
  (λ mm, (st_G (mt_State mm), st_StateID (mt_State mm))) <$>
    stored false (opening ++ [OpMove ctxBackground "m1" "0" "c2" (client "inc")]) "m1" = Some (Some 1, 1).
Proof. by vm_compute. Qed.

Example bob_is_not_ann :
  mg_store (served false (opening ++ [OpMove ctxBackground "m1" "0" "c3" (client "inc")])) =
  mg_store (served false opening).
Proof. by vm_compute. Qed.

(** A game whose table grows, up to three seats. *)
Definition growing_game : RegGame :=
  mkReg (mkGame "counter" 2 3 (Some (λ c d w, (Some 0, w))) moves None ∅ None None None None None false [])
    true false 0 None None None None.

(** Join takes any seat name a client asks for, and a growing table is given the
    next number without looking: two players of one match share seat 2. *)
Lemma growing_table_shares_a_seat :
  (λ mm, sp_Seat <$> mt_Players mm) <$>
    stored false [OpRegister growing_game; OpCreate "counter" two_seats; OpJoin "m1" "ann" any_seat;
      OpJoin "m1" "bob" any_seat; OpJoin "m1" "cy" (mkJoinOptions "" "2" None); OpJoin "m1" "dee" any_seat] "m1"
  = Some ["0"; "1"; "2"; "2"].
Proof. by vm_compute. Qed.

(** A player who names itself "1" and asks for seat 0, then one who names nothing and
    gets seat 1: both have the id "1", and the second's credentials are refused. *)
Definition namesakes : list (operation mem_store) :=
  [OpRegister counter_game; OpCreate "counter" two_seats; OpJoin "m1" "ann" (mkJoinOptions "1" "0" None);
   OpJoin "m1" "bob" any_seat].

Lemma two_players_one_id :
  (λ mm, (λ p, (sp_ID p, sp_Seat p, sp_Credentials p)) <$> mt_Players mm) <$> stored false namesakes "m1" =
    Some [("1", "0", "c2"); ("1", "1", "c3")] ∧
  (Authenticate (demo_config false) "m1" "1" "c3" (served false namesakes)).1 = Ok false.
Proof. by vm_compute. Qed.

(** ** Optimistic concurrency *)

(** Another manager on the same storage that accepts a move of ann's. *)
Definition peer_move (c : mem_store) : mem_store :=
  mg_store (serve_all (demo_config true) [OpMove ctxBackground "m1" "0" "c2" (client "inc")]
              (set_store c (served true opening))).

Definition state_id (mm : Match) : Z := st_StateID (mt_State mm).

(** A move that races with a peer's is retried on the peer's state, and both count. *)
Example racing_moves_both_count :
  (λ mm, (st_G (mt_State mm), state_id mm)) <$>
    stored true (opening ++ [OpPeers [peer_move]; OpMove ctxBackground "m1" "0" "c2" (client "inc")]) "m1" =
  Some (Some 2, 2).
Proof. by vm_compute. Qed.

(** But the other writers do not compare and swap: a connection that opens while a peer
    accepts a move writes the match as it was, and the accepted move is gone. *)
Lemma connection_undoes_a_move :
  state_id <$> stored true opening "m1" = Some 0 ∧
  state_id <$> peer_move (mg_store (served true opening)) !! "m1" = Some 1 ∧
  state_id <$> stored true (opening ++ [OpPeers [peer_move]; OpSetConnected "m1" "1" true]) "m1" = Some 0.
Proof. by vm_compute. Qed.

(** A move that runs another one through an event takes the state id up by two; the
    compare-and-swap expects one, so such a move is refused however often it is tried. *)
Definition chain : MoveFn := λ mc _, _ ← Events_RunMove "inc" []; Ret (inr (mc_G mc)).

Definition chaining_game : RegGame :=
  mkReg (mkGame "counter" 2 2 (Some (λ c d w, (Some 0, w))) (<["chain" := EntryFn chain]> moves) None ∅
    None None None None None false []) false false 0 None None None None.

Definition chaining : list (operation mem_store) :=
  [OpRegister chaining_game; OpCreate "counter" two_seats; OpJoin "m1" "ann" any_seat;
   OpJoin "m1" "bob" any_seat].

Lemma chained_move_always_conflicts :
  (MoveReq (demo_config true) "m1" "0" "c2" (client "chain") (served true chaining)).1 =
    Err (FromStore ErrConflict) ∧
  state_id <$> stored false (chaining ++ [OpMove ctxBackground "m1" "0" "c2" (client "chain")]) "m1" = Some 2.
Proof. by vm_compute. Qed.
