(* ===== verification/Outputs.v ===== *)
(** * What the manager sends

    An invariant over the subscribers, the games and what has been sent is kept by every
    operation, subscribing and registering apart, if it is kept by the four ways to send
    something: states, match data, chat and lifecycle events.  So every state frame of every
    run is the view of its subscriber's seat, by a game that was registered. *)

From S2P Require Import Prelude CoreTypes GameDef Session Reducer Storage Example.
From S2P Require Import Manager Lobby Dispatch ManagerFacts ManagerExample.
#[local] Open Scope Z_scope.

Section outputs.
Context {T : GoTypes} {S : Type} `{!Storage S} (cf : Config).
Abbreviation Mgr := (Manager.Manager (S:=S)).
Abbreviation M := (ST Mgr manager_error).

Record sending (I : Mgr → Prop) : Prop := {
  se_quiet : ∀ m m', mg_subs m' = mg_subs m → mg_out m' = mg_out m → mg_games m' = mg_games m → I m → I m';
  se_lifecycle : ∀ m h ev, I m → I (set_out (mg_out m ++ [OLifecycle h ev]) m);
  se_frames : ∀ m id n g st w, mg_games m !! n = Some g → I m → I (set_out (mg_out m ++ (frame g st w <$> default [] (mg_subs m !! id))) m);
  se_data : ∀ m id players, I m → I (set_out (mg_out m ++ ((λ s, OSendMatchData s players) <$> default [] (mg_subs m !! id))) m);
  se_chat : ∀ m id msg, I m → I (set_out (mg_out m ++ ((λ s, OSendChat s msg) <$> default [] (mg_subs m !! id))) m)
}.

Section sending.
Context (I : Mgr → Prop) (HI : sending I).

Lemma sends_quiet (f : Mgr → Mgr) : (∀ m, mg_subs (f m) = mg_subs m ∧ mg_out (f m) = mg_out m ∧ mg_games (f m) = mg_games m) →
  keeps I (modify f : M ()).
Proof. intros Hf. apply keeps_modify. intros m Hm. destruct (Hf m) as (? & ? & ?). by apply (se_quiet I HI m). Qed.

Lemma sends_on_store {A} (op : ST S store_error A) : keeps I (on_store op).
Proof. intros m Hm. unfold on_store. destruct (op (mg_store m)). by apply (se_quiet I HI m). Qed.

Lemma sends_on_core {A} (op : ST world error A) : keeps I (on_core op : M A).
Proof. intros m Hm. unfold on_core. destruct (op (mg_world m)). by apply (se_quiet I HI m). Qed.

Lemma sends_draw {A} (f : nat → A) : keeps I (draw f : M A).
Proof. intros m Hm. by apply (se_quiet I HI m). Qed.

Lemma sends_fire ev : keeps I (fireLifecycle ev : M ()).
Proof.
  assert (Hall : ∀ hs m, I m → I (set_out (mg_out m ++ ((λ h, OLifecycle h ev) <$> hs)) m)).
  { induction hs as [|h hs IH]; intros m Hm.
    - apply (se_quiet I HI m); [done|apply app_nil_r|done..].
    - pose proof (IH _ (se_lifecycle I HI m h ev Hm)) as Hn. simpl in Hn. by rewrite <-app_assoc in Hn. }
  intros m Hm. apply Hall, Hm.
Qed.

Ltac leaf :=
  first
    [ done
    | apply sends_on_store | apply sends_on_core | apply sends_draw | apply sends_fire
    | apply sends_quiet; intros ?; simpl; repeat case_match_goal; done ].
Ltac walk := keeps_walk leaf.

Lemma sends_core_result r : keeps I (core_result r : M State).
Proof. unfold core_result. walk. Qed.

Lemma sends_mutated mm : keeps I (mutated mm : M Match).
Proof. unfold mutated. walk. Qed.

Lemma sends_interfere : keeps I (interfere : M ()).
Proof. unfold interfere. walk. Qed.

Lemma sends_save mm : keeps I (save mm : M ()).
Proof. unfold save. apply keeps_bind; [apply sends_interfere|]. walk. Qed.
#[local] Hint Resolve sends_core_result sends_mutated sends_interfere sends_save : engine.

Lemma sends_migrate mig n v cur : keeps I (migrate_loop mig n v cur : M State).
Proof. revert v cur. induction n as [|n IH]; intros v cur; simpl; [walk|]. walk. Qed.
#[local] Hint Resolve sends_migrate : engine.

Lemma sends_load matchID : keeps I (loadMigrated matchID : M Match).
Proof. unfold loadMigrated, Game_. walk. Qed.
#[local] Hint Resolve sends_load : engine.

(** [emits (f <$> subs)] for the subscribers as they are. *)
Lemma sends_emits (f : Subscriber → output) subs m : I (set_out (mg_out m ++ (f <$> subs)) m) →
  I ((emits (f <$> subs) : M ()) m).2.
Proof. done. Qed.

Lemma loading {A} matchID (k : manager_error + Match → M A) m : I m →
  (∀ r m', I m' → mg_subs m' = mg_subs m → I (k r m').2) → mg_subs ((loadMigrated matchID : M Match) m).2 = mg_subs m →
  I ((r ← st_try (loadMigrated matchID); k r) m).2.
Proof.
  intros Hm Hk Hs. rewrite bind_eq. unfold st_try. pose proof (sends_load matchID m Hm) as Hl.
  destruct (loadMigrated matchID m) as [[a|e| |] m']; simpl in *; auto.
Qed.
End sending.

(** Loading subscribes nobody. *)
Lemma load_subs matchID m : mg_subs ((loadMigrated matchID : M Match) m).2 = mg_subs m.
Proof.
  assert (Hs : sending (λ m', mg_subs m' = mg_subs m)).
  { split; simpl; congruence. }
  by apply (sends_load _ Hs).
Qed.

Section operations.
Context (I : Mgr → Prop) (HI : sending I).

Lemma sends_broadcastMatchData matchID : keeps I (broadcastMatchData matchID : M ()).
Proof.
  intros m Hm. unfold broadcastMatchData. apply loading; [done..| |apply load_subs].
  intros [e|mm] m' Hm' Hs; [done|]. unfold subscribers, gets. rewrite bind_eq. cbv beta iota.
  by apply sends_emits, (se_data I HI).
Qed.

Lemma sends_broadcast matchID st : keeps I (broadcast matchID st : M ()).
Proof.
  intros m Hm. unfold broadcast, subscribers, gets. rewrite bind_eq. cbv beta iota.
  apply loading; [done..| |apply load_subs]. intros [e|mm] m' Hm' Hs; [done|].
  rewrite bind_eq. unfold Game_, gets. cbv beta iota. destruct (mg_games m' !! mt_GameName mm) as [g|] eqn:Hg; [|done].
  rewrite bind_eq. cbv beta iota. rewrite <-Hs. by eapply sends_emits, (se_frames I HI).
Qed.

Lemma sends_chat matchID sender payload : keeps I (Chat cf matchID sender payload : M ()).
Proof.
  intros m Hm. unfold Chat. rewrite bind_eq. unfold draw. cbv beta iota. rewrite bind_eq. unfold subscribers, gets. cbv beta iota.
  apply sends_emits, (se_chat I HI). by apply (se_quiet I HI m).
Qed.
#[local] Hint Resolve sends_core_result sends_mutated sends_interfere sends_save sends_migrate sends_load
  sends_broadcastMatchData sends_broadcast sends_chat : engine.

Ltac leaf :=
  first
    [ done
    | apply (sends_on_store I HI) | apply (sends_on_core I HI) | apply (sends_draw I HI) | apply (sends_fire I HI)
    | apply (sends_quiet I HI); intros ?; simpl; repeat case_match_goal; done ].
Ltac walk := keeps_walk leaf.

Lemma sends_schedule matchID st g : keeps I (scheduleTurnTimer matchID st g : M ()).
Proof. unfold scheduleTurnTimer. walk. Qed.
#[local] Hint Resolve sends_schedule : engine.

Lemma sends_create gameName opts : keeps I (Lobby.Create cf gameName opts : M string).
Proof.
  unfold Lobby.Create, createLockedFull, createMatch, validateSetupData, FindByJoinCode, Game_. walk.
Qed.

Lemma sends_createLocked gameName n sd u : keeps I (createLocked cf gameName n sd u : M string).
Proof. unfold createLocked, createMatch, validateSetupData, Game_. walk. Qed.
#[local] Hint Resolve sends_create sends_createLocked : engine.

Lemma sends_join matchID name opts : keeps I (Join cf matchID name opts : M JoinResult).
Proof. unfold Join, chooseSeat, Game_. walk. Qed.

Lemma sends_attempts ctx matchID playerID g req n mm :
  keeps I (attempt_loop cf ctx matchID playerID g req n mm : M _).
Proof.
  revert mm. induction n as [|n IH]; intros mm; simpl; [walk|]. unfold write. walk.
Qed.
#[local] Hint Resolve sends_attempts : engine.

Lemma sends_dispatch ctx matchID playerID g mm req :
  keeps I (dispatchLocked cf ctx matchID playerID g mm req : M State).
Proof. unfold dispatchLocked. walk. Qed.
#[local] Hint Resolve sends_join sends_dispatch : engine.

Lemma sends_clientSeat playerID credentials mm : keeps I (clientSeat cf playerID credentials mm : M string).
Proof. unfold clientSeat. walk. Qed.
#[local] Hint Resolve sends_clientSeat : engine.

Lemma sends_expire matchID turn : keeps I (AutoExpire cf matchID turn : M ()).
Proof. unfold AutoExpire, Game_. walk. Qed.
#[local] Hint Resolve sends_expire : engine.

Lemma sends_wipe opts now l : keeps I (wipe_stale opts now l : M ()).
Proof. induction l as [|mm l IH]; simpl; unfold cancelTurnTimer; walk. Qed.
#[local] Hint Resolve sends_wipe : engine.

(** Subscribing, unsubscribing and registering a game. *)
Definition sets_up (o : operation S) : bool :=
  match o with OpSubscribe _ _ | OpUnsubscribe _ _ | OpRegister _ => true | _ => false end.

Lemma sends_perform o : sets_up o = false → keeps I (perform cf o : M ()).
Proof.
  intros Ho. destruct o; try done; simpl;
    unfold SetConnected, Reset_, Leave, UpdatePlayer, PlayAgain, State_, Authenticate,
      List_, MoveReqCtx, DryMoveReq, DispatchServer, fireTimer, ImportMatch, ExportMatch, janitorSweep,
      OnLifecycleKind, offLifecycle, cancelTurnTimer, authenticated, Game_;
    walk.
Qed.
End operations.
End outputs.

(** ** What is sent to subscribers

    Every state frame of every run is the view of its subscriber's seat, by one of the games
    [P] that are registered. *)
Section frames.
Context {T : GoTypes} {S : Type} `{!Storage S} (cf : Config) (P : Game → Prop).
Abbreviation Mgr := (Manager.Manager (S:=S)).
Abbreviation M := (ST Mgr manager_error).

(** An operation that registers a game registers one of them. *)
Definition registers (o : operation S) : Prop :=
  match o with OpRegister g => P (rg_Game g) | _ => True end.

(** A state frame: the view of its subscriber's seat, by one of the games, of some state. *)
Definition frame_ok (o : output) : Prop :=
  match o with
  | OSend s v | OSendPatch s v => ∃ g st w, P g ∧ v = PlayerView g st (sub_PlayerID s) w
  | _ => True
  end.

Definition games_ok (m : Mgr) : Prop := ∀ n g, mg_games m !! n = Some g → P (rg_Game g).

Definition frames_ok (m : Mgr) : Prop := games_ok m ∧ Forall frame_ok (mg_out m).

Lemma frames_other {A} (f : A → output) l : (∀ a, frame_ok (f a)) → Forall frame_ok (f <$> l).
Proof. intros Hf. apply Forall_forall. intros o (a & -> & _)%list_elem_of_fmap. apply Hf. Qed.

Lemma frame_frame_ok g st w s : P (rg_Game g) → frame_ok (frame g st w s).
Proof. unfold frame. case_match; simpl; eauto 6. Qed.

Lemma games_register g m : P (rg_Game g) → games_ok m → games_ok ((Register g : M ()) m).2.
Proof.
  intros Hg Hm. unfold Register. destruct (Validate (rg_Game g)); [|done].
  intros n g'. simpl. intros [[_ <-]|[_ Hn]]%lookup_insert_Some; [done|by eapply Hm].
Qed.

Lemma register_rest g m : mg_subs ((Register g : M ()) m).2 = mg_subs m ∧ mg_out ((Register g : M ()) m).2 = mg_out m.
Proof. unfold Register. by destruct (Validate (rg_Game g)). Qed.

Lemma frames_sending : sending frames_ok.
Proof.
  unfold frames_ok, games_ok. split; simpl.
  - intros m m' _ -> ->. done.
  - intros m h ev [Hg Hm]. split; [done|]. apply Forall_app. split; [done|]. by constructor.
  - intros m id n g st w Hn [Hg Hm]. split; [done|]. apply Forall_app. split; [done|].
    apply frames_other. intros s. by eapply frame_frame_ok, Hg.
  - intros m id players [Hg Hm]. split; [done|]. apply Forall_app. split; [done|]. by apply frames_other.
  - intros m id msg [Hg Hm]. split; [done|]. apply Forall_app. split; [done|]. by apply frames_other.
Qed.

Lemma frames_perform o : registers o → keeps frames_ok (perform cf o : M ()).
Proof.
  intros HP. destruct (sets_up o) eqn:Ho; [|by apply sends_perform, Ho; apply frames_sending].
  destruct o; try done.
  - intros m [Hg Hm]. change (frames_ok ((Register g : M ()) m).2). split; [by apply games_register|].
    by rewrite (proj2 (register_rest g m)).
  - apply keeps_modify. intros m Hm; simpl; done.
  - apply keeps_modify. intros m Hm; simpl.
    destruct (mg_subs m !! _) as [l|]; [|done]. by destruct (filter _ l).
Qed.

(** Whatever clients, transports, timers and other managers do, and whether their calls succeed
    or fail, every state frame sent to a subscriber is the view of the seat it stands for, by a
    registered game: the seed is blanked, no other seat's redacted arguments are in the log, and
    the server-only fields are gone. *)
Theorem state_frames_are_views (ops : list (operation S)) store w :
  let m := serve_all cf ops (NewManager store w) in
  Forall registers ops →
  ∀ s v, OSend s v ∈ mg_out m ∨ OSendPatch s v ∈ mg_out m →
  (∃ g st w', P g ∧ v = PlayerView g st (sub_PlayerID s) w') ∧
  ctx_Seed (st_Ctx v) = 0 ∧
  (∀ e, e ∈ st_Log v → le_Redact e = true → le_PlayerID e ≠ sub_PlayerID s → le_Args e = []) ∧
  st_ActiveStack v = [] ∧ st_PendingNext v = None.
Proof.
  cbv zeta. set (m := serve_all cf ops (NewManager store w)). intros Hops.
  assert (Hm : frames_ok m).
  { rewrite Forall_forall in Hops. apply keeps_serve_all; [intros o Ho; by apply frames_perform, Hops|].
    split; [by intros n g Hn|by constructor]. }
  intros s v Hsv. destruct Hm as [_ Hm]. rewrite Forall_forall in Hm.
  assert (∃ g st w', P g ∧ v = PlayerView g st (sub_PlayerID s) w') as (g & st & w' & Hg & ->).
  { destruct Hsv as [Hs|Hs]; exact (Hm _ Hs). }
  split; [by exists g, st, w'|]. split; [done|]. split; [|done].
  simpl. intros e (e0 & -> & _)%list_elem_of_fmap. unfold redact_entry.
  case_match eqn:Hr; [done|]. intros He Hne. rewrite He, bool_decide_eq_false_2 in Hr by done. done.
Qed.
End frames.

Definition watched : list (operation mem_store) :=
  opening ++ [OpMove ctxBackground "m1" "0" "c2" (client "inc")].

Definition seen : State :=
  match mg_out (served false watched) !! 2%nat with
  | Some (OSend _ v) => v
  | _ => state_after []
  end.

Lemma state_frames_are_views_witness :
  (∃ st w, seen = PlayerView (rg_Game counter_game) st "" w) ∧ ctx_Seed (st_Ctx seen) = 0 ∧
  st_G seen = Some 1.
Proof.
  destruct (state_frames_are_views (demo_config false) (λ g, g = rg_Game counter_game) watched ∅ 0)
    with (s := spectator) (v := seen) as ((g & st & w & -> & Hv) & Hs & _).
  - repeat constructor.
  - left. apply (list_elem_of_lookup_2 _ 2). vm_compute. reflexivity.
  - split; [by exists st, w|]. split; [exact Hs|]. by vm_compute.
Defined.
