(* ===== verification/Seats.v ===== *)
(** * Seats are distinct

    Over the in-memory storage, whatever else writes to it, no two players of a match
    ever share a seat, as long as the registered games have a fixed table. *)

From S2P Require Import Prelude CoreTypes GameDef Session Reducer Storage Example.
From S2P Require Import Manager Lobby Dispatch ManagerFacts ManagerExample.
#[local] Open Scope Z_scope.

Section seats.
Context {T : GoTypes} (cf : Config).
Abbreviation S := (gmap string Match).
Abbreviation Mgr := (Manager.Manager (S:=S)).
Abbreviation M := (ST Mgr manager_error).

Definition distinct_seats (mm : Match) : Prop := NoDup (seats mm).
Definition all_distinct (c : S) : Prop := ∀ id mm, c !! id = Some mm → distinct_seats mm.

(** The invariant: also what other managers write keeps seats distinct. *)
Definition seats_ok (m : Mgr) : Prop :=
  all_distinct (mg_store m) ∧
  Forall (λ f : S → S, ∀ c, all_distinct c → all_distinct (f c)) (mg_peers m) ∧
  ∀ name g, mg_games m !! name = Some g → rg_AllowDynamicPlayers g = false.

Lemma all_distinct_insert c mm : distinct_seats mm → all_distinct c → all_distinct (<[mt_ID mm := mm]> c).
Proof. intros Hm Hc id mm' [[<- <-]|[_ ?]]%lookup_insert_Some; [done|by eapply Hc]. Qed.

(** A call of the storage that keeps seats distinct. *)
Definition store_ok {A} (Q : A → Prop) (op : ST S store_error A) : Prop :=
  ∀ c, all_distinct c → all_distinct (op c).2 ∧ ∀ a, (op c).1 = Ok a → Q a.

Lemma seats_on_store {A} (Q : A → Prop) (op : ST S store_error A) :
  store_ok Q op → triple seats_ok Q (on_store op).
Proof.
  intros Hop m (Hs & Hp & Hg). unfold on_store. destruct (Hop _ Hs) as [Hs' HQ].
  destruct (op (mg_store m)) as [[a|e| |] c]; simpl in *; split; try done; intros ? [= <-]; auto.
Qed.

Lemma seats_get id : store_ok distinct_seats (Storage.Get id).
Proof.
  intros c Hc. simpl. split; [done|]. destruct (c !! id) as [mm|] eqn:Hm; [|done].
  intros ? [= <-]. by eapply Hc.
Qed.

Lemma seats_create mm : distinct_seats mm → store_ok (λ _, True) (Storage.Create mm).
Proof. intros Hm c Hc. split; [|done]. by apply all_distinct_insert. Qed.

Lemma seats_update mm : distinct_seats mm → store_ok (λ _, True) (Storage.Update mm).
Proof.
  intros Hm c Hc. simpl. unfold Memory_Update.
  destruct (c !! mt_ID mm); simpl; (split; [|done]); [by apply all_distinct_insert|done].
Qed.

Lemma seats_cas mm cas n :
  UpdateIfStateID = Some cas → distinct_seats mm → store_ok (λ _, True) (cas mm n).
Proof.
  simpl. intros [= <-] Hm c Hc. repeat case_match; simpl; (split; [|done]); [by apply all_distinct_insert|done|done].
Qed.

Lemma seats_list name : store_ok (λ l, True) (Storage.List name).
Proof. intros c Hc. by split. Qed.

Lemma seats_wipe id : store_ok (λ _, True) (Storage.Wipe id).
Proof.
  intros c Hc. simpl. destruct (c !! id); simpl; (split; [|done]); [|done].
  intros id' mm [_ ?]%lookup_delete_Some. by eapply Hc.
Qed.

Lemma seats_mutated mm : distinct_seats mm → triple seats_ok (λ mm', mm' = mm) (mutated mm : M Match).
Proof. intros Hm m Hi. split; [exact Hi|]. by intros ? [= <-]. Qed.

Lemma seats_interfere : keeps seats_ok (interfere : M ()).
Proof.
  apply keeps_modify. intros m (Hs & Hp & Hg). destruct (mg_peers m) as [|f fs] eqn:Hm; [split; [done|]; by rewrite Hm|].
  inversion Hp; subst. split; [by apply H1|done].
Qed.

Lemma seats_save mm : distinct_seats mm → triple seats_ok (λ _, True) (save mm : M ()).
Proof.
  intros Hm. unfold save. eapply triple_bind; [apply triple_any, seats_interfere|]. intros _ _.
  by apply seats_on_store, seats_update.
Qed.

Lemma seats_Game name :
  triple seats_ok (λ og, ∀ g, og = Some g → rg_AllowDynamicPlayers g = false) (Game_ name : M (option RegGame)).
Proof.
  intros m Hi. split; [done|]. intros ? [= <-] g Hg. destruct Hi as (_ & _ & Hgs). by eapply Hgs.
Qed.

Lemma seats_quiet (f : Mgr → Mgr) :
  (∀ m, mg_store (f m) = mg_store m ∧ mg_peers (f m) = mg_peers m ∧ mg_games (f m) = mg_games m) →
  keeps seats_ok (modify f : M ()).
Proof.
  intros Hf. apply keeps_modify. intros m. destruct (Hf m) as (H1 & H2 & H3). unfold seats_ok.
  by rewrite H1, H2, H3.
Qed.

Lemma seats_on_core {A} (op : ST world error A) : keeps seats_ok (on_core op : M A).
Proof. intros m Hm. unfold on_core. by destruct (op (mg_world m)). Qed.

Lemma seats_draw {A} (f : nat → A) : keeps seats_ok (draw f : M A).
Proof. by intros m Hm. Qed.
#[local] Hint Resolve seats_on_core seats_draw seats_interfere : engine.
#[local] Hint Extern 5 (keeps seats_ok (modify _)) =>
  (apply seats_quiet; intros ?; repeat case_match_goal; done) : engine.
#[local] Hint Unfold emit emits fireLifecycle subscribers scheduleTurnTimer cancelTurnTimer : engine.

Lemma seats_core_result r : keeps seats_ok (core_result r : M State).
Proof. unfold core_result. case_match; auto with engine nocore. Qed.
#[local] Hint Resolve seats_core_result : engine.

Lemma seats_migrate mig n v cur : keeps seats_ok (migrate_loop mig n v cur : M State).
Proof. revert v cur. induction n as [|n IH]; intros v cur; simpl; [|]; keeps_walk fail. Qed.
#[local] Hint Resolve seats_migrate : engine.

Lemma seats_load matchID : triple seats_ok distinct_seats (loadMigrated matchID : M Match).
Proof.
  unfold loadMigrated. eapply triple_bind; [apply seats_on_store, seats_get|]. intros mm Hm.
  eapply triple_bind; [apply seats_Game|]. intros [g|] Hg; [|by apply triple_ret].
  case_decide; [by apply triple_ret|]. destruct (rg_Migrate g); [|apply triple_err].
  eapply triple_bind; [apply triple_any, seats_migrate|]. intros cur _.
  eapply triple_bind; [by apply seats_mutated|]. intros ? ->.
  eapply triple_bind; [eapply triple_try; by apply seats_save|]. intros _ _. by apply triple_ret.
Qed.

Lemma seats_load_keeps matchID : keeps seats_ok (loadMigrated matchID : M Match).
Proof. eapply triple_keeps, seats_load. Qed.
Lemma seats_Game_keeps name : keeps seats_ok (Game_ name : M (option RegGame)).
Proof. eapply triple_keeps, seats_Game. Qed.
#[local] Hint Resolve seats_load_keeps seats_Game_keeps : engine.

(** What is sent and scheduled. *)
Ltac quiet := repeat autounfold with engine; keeps_walk fail.

Lemma seats_fire ev : keeps seats_ok (fireLifecycle ev : M ()).
Proof. quiet. Qed.
Lemma seats_schedule matchID st g : keeps seats_ok (scheduleTurnTimer matchID st g : M ()).
Proof. quiet. Qed.
Lemma seats_cancel matchID : keeps seats_ok (cancelTurnTimer matchID : M ()).
Proof. quiet. Qed.
Lemma seats_matchdata matchID : keeps seats_ok (broadcastMatchData matchID : M ()).
Proof. unfold broadcastMatchData. quiet. Qed.
Lemma seats_broadcast matchID st : keeps seats_ok (broadcast matchID st : M ()).
Proof. unfold broadcast. quiet. Qed.
#[local] Hint Resolve seats_fire seats_schedule seats_cancel seats_matchdata seats_broadcast : engine.

(** Rearranging a match's players. *)
Lemma distinct_same_seats mm players :
  sp_Seat <$> players = seats mm → distinct_seats mm → distinct_seats (set_mt_Players players mm).
Proof. unfold distinct_seats, seats. simpl. by intros ->. Qed.

Lemma findPlayer_lookup playerID mm i p :
  findPlayer playerID mm = Some (i, p) → mt_Players mm !! i = Some p ∧ sp_ID p = playerID.
Proof. intros (? & ? & _)%list_find_Some. done. Qed.

Lemma distinct_update playerID mm i p p' :
  findPlayer playerID mm = Some (i, p) → sp_Seat p' = sp_Seat p →
  distinct_seats mm → distinct_seats (set_mt_Players (<[i := p']> (mt_Players mm)) mm).
Proof.
  intros [Hi _]%findPlayer_lookup Hp. apply distinct_same_seats. rewrite list_fmap_insert, Hp.
  unfold seats. apply list_insert_id. by rewrite list_lookup_fmap, Hi.
Qed.

Lemma distinct_remove mm i : distinct_seats mm → distinct_seats (set_mt_Players (remove_at i (mt_Players mm)) mm).
Proof.
  unfold distinct_seats, seats. simpl. intros Hm.
  apply (sublist_NoDup _ _ Hm). unfold remove_at. rewrite <-delete_take_drop.
  apply fmap_sublist, sublist_delete.
Qed.

Lemma distinct_all_away mm st :
  distinct_seats mm → distinct_seats (set_mt_Players (set_connected false <$> mt_Players mm) (set_mt_State st mm)).
Proof.
  intros Hm. unfold distinct_seats, seats. simpl. rewrite <-list_fmap_compose. exact Hm.
Qed.

Lemma distinct_join mm seat id name creds data :
  distinct_seats mm → seat ∉ seats mm →
  distinct_seats (set_mt_Players (mt_Players mm ++ [mkPlayer id name seat creds data false]) mm).
Proof.
  unfold distinct_seats, seats. simpl. intros Hm Hs. rewrite fmap_app. apply NoDup_app.
  split; [done|]. split; [|apply NoDup_singleton]. intros s Hin ->%list_elem_of_singleton. done.
Qed.

Lemma seats_choose requested mm :
  distinct_seats mm →
  triple seats_ok (λ r, r.2 = mm ∧ r.1 ∉ seats mm) (chooseSeat requested mm : M (string * Match)).
Proof.
  intros Hm. unfold chooseSeat. eapply triple_bind; [apply seats_Game|]. intros og Hg.
  case_decide. { case_decide; [apply triple_err|by apply triple_ret]. }
  destruct (firstFreeSeat mm) as [seat|] eqn:Hf.
  - apply triple_ret. split; [done|]. unfold firstFreeSeat in Hf.
    apply fmap_Some in Hf as ([i s] & (_ & Hs & _)%list_find_Some & ->). exact Hs.
  - destruct og as [g|]; [|apply triple_err]. rewrite (Hg g) by done. apply triple_err.
Qed.

Ltac leaf :=
  first
    [ apply seats_load | apply seats_Game | apply seats_choose; assumption
    | apply seats_mutated;
        eauto using distinct_update, distinct_remove, distinct_all_away, distinct_join
    | apply seats_save; assumption
    | apply seats_on_store, seats_create; assumption
    | apply seats_on_store, seats_list
    | apply seats_on_store, seats_wipe
    | apply triple_ret; done ].
Ltac walk := triple_walk leaf.

Lemma seats_createMatch g gameName opts : triple seats_ok (λ _, True) (createMatch cf g gameName opts : M string).
Proof.
  unfold createMatch. do 2 (eapply triple_bind; [apply triple_any; auto with engine nocore|intros]).
  do 3 (eapply triple_bind; [apply triple_any; auto with engine nocore|intros]).
  eapply triple_bind; [apply seats_on_store, seats_create; by constructor|]. intros _ _. walk.
Qed.

Lemma seats_createMatch_keeps g gameName opts : keeps seats_ok (createMatch cf g gameName opts : M string).
Proof. eapply triple_keeps, seats_createMatch. Qed.

Lemma seats_list_keeps name : keeps seats_ok (on_store (Storage.List name) : M (list Match)).
Proof. eapply triple_keeps, seats_on_store, seats_list. Qed.

Lemma seats_wipe_keeps id : keeps seats_ok (on_store (Storage.Wipe id) : M ()).
Proof. eapply triple_keeps, seats_on_store, seats_wipe. Qed.

Lemma seats_sub matchID : keeps seats_ok (subscribers matchID : M (list Subscriber)).
Proof. by intros m Hm. Qed.
#[local] Hint Resolve seats_createMatch_keeps seats_list_keeps seats_wipe_keeps seats_sub : engine.

Lemma seats_create_op gameName opts : keeps seats_ok (Lobby.Create cf gameName opts : M string).
Proof. unfold Lobby.Create, createLockedFull, validateSetupData, FindByJoinCode. keeps_walk fail. Qed.

Lemma seats_createLocked gameName n sd u : keeps seats_ok (createLocked cf gameName n sd u : M string).
Proof. unfold createLocked, validateSetupData. keeps_walk fail. Qed.
#[local] Hint Resolve seats_create_op seats_createLocked : engine.

Lemma seats_any {A} (m : M A) : triple seats_ok (λ _, True) m → keeps seats_ok m.
Proof. apply triple_keeps. Qed.

Lemma seats_join matchID name opts : keeps seats_ok (Join cf matchID name opts : M JoinResult).
Proof.
  apply seats_any. unfold Join. eapply triple_bind; [apply seats_load|]. intros mm Hm.
  destruct (if decide (jo_PlayerID opts = "") then None else findPlayer (jo_PlayerID opts) mm) as [[i p]|];
    [by apply triple_ret|].
  eapply triple_bind; [by apply seats_choose|]. intros [seat mm'] [Heq Hs]. simpl in *. subst mm'.
  eapply triple_bind; [apply triple_any, seats_draw|]. intros creds _.
  eapply triple_bind; [by apply seats_mutated, distinct_join|]. intros ? ->.
  eapply triple_bind; [by apply seats_save, distinct_join|]. intros _ _. walk.
Qed.

(** Load a match, change its players, write it back. *)
Lemma seats_write_back {A} mm (k : Match → M A) :
  distinct_seats mm → (∀ mm, keeps seats_ok (k mm)) →
  triple seats_ok (λ _, True) (mm ← mutated mm; _ ← save mm; k mm).
Proof.
  intros Hm Hk. eapply triple_bind; [by apply seats_mutated|]. intros ? ->.
  eapply triple_bind; [by apply seats_save|]. intros _ _. apply triple_any, Hk.
Qed.

Lemma seats_authenticated playerID credentials mm :
  triple seats_ok (λ r, findPlayer playerID mm = Some r) (authenticated cf playerID credentials mm : M (nat * Player)).
Proof.
  unfold authenticated. destruct (findPlayer playerID mm) as [[i p]|] eqn:Hf; [|apply triple_err].
  case_match; [by apply triple_ret|apply triple_err].
Qed.

Lemma seats_setConnected matchID playerID b : keeps seats_ok (SetConnected matchID playerID b : M ()).
Proof.
  apply seats_any. unfold SetConnected. case_decide; [by apply triple_ret|].
  eapply triple_bind; [apply seats_load|]. intros mm Hm.
  destruct (findPlayer playerID mm) as [[i p]|] eqn:Hf; [|by apply triple_ret].
  case_match; [by apply triple_ret|].
  apply seats_write_back; [by eapply distinct_update|]. intros. apply seats_matchdata.
Qed.

Lemma seats_leave matchID playerID credentials : keeps seats_ok (Leave cf matchID playerID credentials : M ()).
Proof.
  apply seats_any. unfold Leave. eapply triple_bind; [apply seats_load|]. intros mm Hm.
  eapply triple_bind; [apply seats_authenticated|]. intros [i p] Hf.
  apply seats_write_back; [by apply distinct_remove|]. intros. keeps_walk fail.
Qed.

Lemma seats_updatePlayer matchID playerID credentials opts :
  keeps seats_ok (UpdatePlayer cf matchID playerID credentials opts : M ()).
Proof.
  apply seats_any. unfold UpdatePlayer. eapply triple_bind; [apply seats_load|]. intros mm Hm.
  eapply triple_bind; [apply seats_authenticated|]. intros [i p] Hf.
  apply seats_write_back; [by eapply distinct_update|]. intros. keeps_walk fail.
Qed.

Lemma seats_reset matchID playerID credentials : keeps seats_ok (Reset_ cf matchID playerID credentials : M ()).
Proof.
  apply seats_any. unfold Reset_. eapply triple_bind; [apply seats_load|]. intros mm Hm.
  case_match; [apply triple_err|]. eapply triple_bind; [apply seats_Game|]. intros [g|] _; [|apply triple_err].
  do 3 (eapply triple_bind; [apply triple_any; auto with engine nocore|intros]).
  apply seats_write_back; [by apply distinct_all_away|]. intros. keeps_walk fail.
Qed.

Lemma seats_playAgain matchID playerID credentials n sd b :
  keeps seats_ok (PlayAgain cf matchID playerID credentials n sd b : M string).
Proof.
  apply seats_any. unfold PlayAgain. eapply triple_bind; [apply seats_load|]. intros mm Hm.
  case_match; [apply triple_err|]. case_decide; [by apply triple_ret|].
  eapply triple_bind; [apply triple_any; auto with engine nocore|]. intros next _.
  eapply triple_bind; [by apply seats_mutated|]. intros ? ->.
  eapply triple_bind; [eapply triple_try; by apply seats_save|]. intros _ _. by apply triple_ret.
Qed.

Lemma seats_write mm next : distinct_seats mm → triple seats_ok (λ _, True) (write cf mm next : M ()).
Proof.
  intros Hm. unfold write. destruct UpdateIfStateID as [cas|] eqn:Hcas; [|by apply seats_save].
  case_match; [|by apply seats_save].
  eapply triple_bind; [apply triple_any, seats_interfere|]. intros _ _.
  apply seats_on_store. by eapply seats_cas.
Qed.

Lemma distinct_persisted g mm w : distinct_seats mm → distinct_seats (persisted g mm w).
Proof. unfold persisted. by case_match. Qed.

Lemma seats_attempts ctx matchID playerID g req n mm :
  distinct_seats mm → triple seats_ok (λ _, True) (attempt_loop cf ctx matchID playerID g req n mm : M _).
Proof.
  revert mm. induction n as [|n IH]; intros mm Hm; simpl; [apply triple_err|].
  eapply triple_bind; [apply triple_any; auto with engine nocore|]. intros [next [err|]] _; simpl.
  { apply triple_any. keeps_walk fail. }
  eapply triple_bind; [by apply seats_mutated|]. intros ? ->.
  eapply triple_bind; [apply triple_any; auto with engine nocore|]. intros w _.
  eapply triple_bind; [eapply triple_try; by apply seats_write, distinct_persisted|].
  intros [e|?] _; [|by apply triple_ret]. repeat case_match; try apply triple_err.
  eapply triple_bind; [apply triple_any; auto with engine nocore|]. intros _ _.
  eapply triple_bind; [apply seats_load|]. intros mm' Hm'. by apply IH.
Qed.

Lemma seats_dispatch ctx matchID playerID g mm req :
  distinct_seats mm → keeps seats_ok (dispatchLocked cf ctx matchID playerID g mm req : M State).
Proof.
  intros Hm. apply seats_any. unfold dispatchLocked.
  eapply triple_bind; [by apply seats_attempts|]. intros [[prev next] mm'] _. apply triple_any. keeps_walk fail.
Qed.

Lemma seats_clientSeat playerID credentials mm : keeps seats_ok (clientSeat cf playerID credentials mm : M string).
Proof. unfold clientSeat. keeps_walk fail. Qed.
#[local] Hint Resolve seats_clientSeat : engine.

Lemma seats_move ctx matchID playerID credentials req :
  keeps seats_ok (MoveReqCtx cf ctx matchID playerID credentials req : M State).
Proof.
  apply seats_any. unfold MoveReqCtx. eapply triple_bind; [apply triple_any; auto with engine nocore|]. intros now _.
  destruct (cf_RequireStateID cf && _); [apply triple_err|].
  eapply triple_bind; [apply seats_load|]. intros mm Hm.
  eapply triple_bind; [apply seats_Game|]. intros [g|] _; [|apply triple_err].
  eapply triple_bind; [apply triple_any; auto with engine nocore|]. intros seat _.
  destruct (decide (unready g mm)); [apply triple_err|]. by apply triple_any, seats_dispatch.
Qed.

Lemma seats_server ctx matchID playerID move args :
  keeps seats_ok (DispatchServer cf ctx matchID playerID move args : M State).
Proof.
  apply seats_any. unfold DispatchServer. eapply triple_bind; [apply seats_load|]. intros mm Hm.
  eapply triple_bind; [apply seats_Game|]. intros [g|] _; [|apply triple_err].
  eapply triple_bind; [apply triple_any; auto with engine nocore|]. intros now _.
  by apply triple_any, seats_dispatch.
Qed.

Lemma seats_expire matchID turn : keeps seats_ok (AutoExpire cf matchID turn : M ()).
Proof.
  apply seats_any. unfold AutoExpire. eapply triple_bind; [apply seats_load|]. intros mm Hm.
  case_decide; [by apply triple_ret|]. case_decide; [by apply triple_ret|].
  eapply triple_bind; [apply seats_Game|]. intros [g|] _; [|by apply triple_ret].
  do 2 (eapply triple_bind; [apply triple_any; auto with engine nocore|intros]).
  apply seats_write_back; [done|]. intros. keeps_walk fail.
Qed.

Lemma seats_import exp : keeps seats_ok (ImportMatch cf exp : M string).
Proof.
  apply seats_any. unfold ImportMatch. eapply triple_bind; [apply seats_Game|]. intros [g|] _; [|apply triple_err].
  do 4 (eapply triple_bind; [apply triple_any; auto with engine nocore|intros]).
  eapply triple_bind; [apply seats_on_store, seats_create; by constructor|]. intros _ _.
  apply triple_any. keeps_walk fail.
Qed.

Lemma seats_wipe_stale opts now l : keeps seats_ok (wipe_stale opts now l : M ()).
Proof.
  induction l as [|mm l IH]; [apply keeps_ret|].
  change (wipe_stale opts now (mm :: l)) with
    (_ ← (if decide (stale opts now mm) then
            r ← st_try (on_store (Storage.Wipe (mt_ID mm)));
            match r with inl _ => mret tt | inr _ => cancelTurnTimer (mt_ID mm) end
          else mret tt); wipe_stale opts now l : M ()).
  keeps_walk fail.
Qed.
#[local] Hint Resolve seats_join seats_setConnected seats_leave seats_updatePlayer seats_reset seats_playAgain
  seats_move seats_server seats_expire seats_import seats_wipe_stale : engine.

(** The table of a game registered is fixed, and other managers keep seats distinct too. *)
Definition fixed_tables (o : operation S) : Prop :=
  match o with
  | OpRegister g => rg_AllowDynamicPlayers g = false
  | OpPeers fs => Forall (λ f : S → S, ∀ c, all_distinct c → all_distinct (f c)) fs
  | _ => True
  end.

Lemma seats_perform o : fixed_tables o → keeps seats_ok (perform cf o).
Proof.
  intros Ho. destruct o; simpl in Ho; simpl;
    try (unfold State_, Authenticate, List_, DryMoveReq, fireTimer, ExportMatch, janitorSweep, Subscribe,
      Unsubscribe, Chat, OnLifecycleKind, offLifecycle, emits; keeps_walk fail; fail).
  - unfold Register. destruct (Validate (rg_Game g)); [|auto with engine nocore].
    apply keeps_modify. intros m (Hs & Hp & Hg). split; [done|]. split; [done|].
    intros name g'. simpl. intros [[<- <-]|[_ ?]]%lookup_insert_Some; [done|by eapply Hg].
  - apply keeps_modify. intros m (Hs & Hp & Hg). split; [done|]. split; [by apply Forall_app|done].
Qed.

(** C30: over the in-memory storage, after any sequence of calls, failing ones included, with other
    managers writing to the storage in between, no two players of a match have the same seat; for
    games that do not grow their table, and if the other managers' writes keep to this too. *)
Theorem seats_stay_distinct ops w :
  Forall fixed_tables ops →
  ∀ id mm, mg_store (serve_all cf ops (NewManager (∅ : S) w)) !! id = Some mm → NoDup (sp_Seat <$> mt_Players mm).
Proof.
  intros Hops. cut (seats_ok (serve_all cf ops (NewManager (∅ : S) w))); [by intros (Hs & _)|].
  rewrite Forall_forall in Hops. apply keeps_serve_all; [intros o Ho; by apply seats_perform, Hops|].
  split; [by intros ? ?|]. split; [by constructor|]. by intros ? ?.
Qed.
End seats.

Lemma seats_stay_distinct_witness :
  ∃ mm, stored false opening "m1" = Some mm ∧ NoDup (sp_Seat <$> mt_Players mm) ∧
    sp_Seat <$> mt_Players mm = ["0"; "1"].
Proof.
  destruct (stored false opening "m1") as [mm|] eqn:Hm; [|by vm_compute in Hm].
  exists mm. split; [done|]. split.
  - apply (seats_stay_distinct (demo_config false) opening 0) with (id := "m1"); [|exact Hm].
    repeat constructor.
  - assert (H : (λ mm, sp_Seat <$> mt_Players mm) <$> stored false opening "m1" = Some ["0"; "1"]) by by vm_compute.
    rewrite Hm in H. by injection H.
Defined.
