(* ===== verification/MoveRequests.v ===== *)
(** * Move requests at the manager

    Who gets a move accepted, what a failed request leaves behind, and what optimistic
    concurrency writes over. *)

From S2P Require Import Prelude CoreTypes GameDef Session Reducer Admission Evolution MoveFacts Replay.
From S2P Require Import Storage StorageTheorems Example Manager Lobby Dispatch ManagerFacts ManagerExample.
#[local] Open Scope Z_scope.

Section runs.
Context {T : GoTypes} {S : Type} `{!Storage S} (cf : Config).
Abbreviation Mgr := (Manager.Manager (S:=S)).
Abbreviation M := (ST Mgr manager_error).
Implicit Types (m : Mgr).

(** ** Successful runs of the primitives *)
Lemma on_core_Ok {A} (op : ST world error A) m a m' :
  (on_core op : M A) m = (Ok a, m') → ∃ w, op (mg_world m) = (Ok a, w) ∧ m' = set_world w m.
Proof.
  unfold on_core. destruct (op (mg_world m)) as [[x|e| |] w]; intros H; simplify_eq. eauto.
Qed.

Lemma core_result_Ok r m a m' : (core_result r : M State) m = (Ok a, m') → r = (a, None) ∧ m' = m.
Proof. destruct r as [s [e|]]; unfold core_result; simpl; [done|]. by intros [-> ->]%ret_Ok. Qed.

Lemma clientSeat_Ok playerID credentials mm m seat m' :
  (clientSeat cf playerID credentials mm : M string) m = (Ok seat, m') →
  ∃ i p, findPlayer playerID mm = Some (i, p) ∧ seat = sp_Seat p ∧ seat ≠ "" ∧
    (credentials = "" ∨ cf_AuthenticateCredentials cf credentials p = true) ∧ m' = m.
Proof.
  unfold clientSeat. destruct (findPlayer playerID mm) as [[i p]|]; [|done].
  destruct (negb _ && negb _) eqn:Hc; [done|].
  destruct (decide (sp_Seat p = "")); [done|]. intros [<- ->]%ret_Ok.
  exists i, p. split; [done|]. split; [done|]. split; [done|]. split; [|done].
  apply andb_false_iff in Hc as [Hc|Hc]; apply negb_false_iff in Hc; [left; by apply bool_decide_eq_true in Hc|by right].
Qed.

(** The state an accepted attempt answers with is the engine's answer to the request. *)
Lemma attempt_loop_Ok ctx matchID playerID g req n mm m prev next mm' m' :
  (attempt_loop cf ctx matchID playerID g req n mm : M _) m = (Ok (prev, next, mm'), m') →
  ∃ w w', ApplyContext (cf_fuel cf) ctx (rg_Game g) prev req w = (Ok (next, None), w').
Proof.
  revert mm m. induction n as [|n IH]; intros mm m H; simpl in H; [done|].
  apply bind_Ok in H as ([s oe] & m1 & Hcore & H). apply on_core_Ok in Hcore as (w & Happ & ->).
  simpl in H. destruct oe as [e|].
  { apply bind_Ok in H as (? & ? & ? & H). done. }
  apply bind_Ok in H as (mm1 & m2 & Hmut & H). apply bind_Ok in H as (w1 & m3 & _ & H).
  apply bind_Ok in H as (r & m4 & _ & H). destruct r as [e|?].
  - repeat case_match; try done. apply bind_Ok in H as (? & ? & _ & H). apply bind_Ok in H as (? & ? & _ & H).
    by eapply IH.
  - apply ret_Ok in H as [[= <- <- <-] _]. eauto.
Qed.

(** Where writes do not conflict, the state a move is made in is the one first loaded. *)
Lemma attempt_loop_first ctx matchID playerID g req n mm m prev next mm' m' :
  cf_UseOptimisticConcurrency cf = false →
  (∀ mm1 m1 e m2, (save mm1 : M ()) m1 = (Err e, m2) → e ≠ FromStore ErrConflict) →
  (attempt_loop cf ctx matchID playerID g req n mm : M _) m = (Ok (prev, next, mm'), m') →
  prev = mt_State mm.
Proof.
  intros Hocc Hsave H. destruct n as [|n]; simpl in H; [done|].
  apply bind_Ok in H as ([s oe] & m1 & Hcore & H). simpl in H. destruct oe as [e|].
  { apply bind_Ok in H as (? & ? & ? & H). done. }
  apply bind_Ok in H as (mm1 & m2 & Hmut & H). apply bind_Ok in H as (w1 & m3 & _ & H).
  apply bind_Ok in H as (r & m4 & Hw & H). destruct r as [e|?]; [|by apply ret_Ok in H as [[= <- _ _] _]].
  assert (He : e ≠ FromStore ErrConflict).
  { unfold st_try in Hw. destruct (write _ _ _ m3) as [[[]|e'| |] m5] eqn:Hwr; simplify_eq.
    unfold write in Hwr. rewrite Hocc in Hwr. destruct UpdateIfStateID; (eapply Hsave; exact Hwr). }
  by repeat case_match; simplify_eq.
Qed.

(** C28: a client's move is accepted only for the seat of the first player with the claimed id, whose
    credentials were checked unless none were given, at a full table unless the game lets players
    join later; the engine admitted it for that seat as a client's request, so it is no ServerOnly
    move, and the log records that seat. Without optimistic concurrency the state it was made in
    is the one the match was loaded with. *)
Theorem accepted_moves_are_authorized ctx matchID playerID credentials req m next m' :
  (MoveReqCtx cf ctx matchID playerID credentials req : M State) m = (Ok next, m') →
  ∃ mm m1 g before p after prev nowMs adm redact undoable rest,
    let req' := mkReq (sp_Seat p) (rq_Move req) (rq_Args req) (rq_StateID req) (rq_ResumeTag req)
                  nowMs false true in
    (loadMigrated matchID : M Match) m = (Ok mm, m1) ∧ mg_games m1 !! mt_GameName mm = Some g ∧
    mt_Players mm = before ++ p :: after ∧ sp_ID p = playerID ∧
    (∀ q, q ∈ before → sp_ID q ≠ playerID) ∧ sp_Seat p ≠ "" ∧
    (credentials = "" ∨ cf_AuthenticateCredentials cf credentials p = true) ∧
    (rg_AllowDynamicPlayers g = true ∨
     ctx_NumPlayers (st_Ctx (mt_State mm)) ≤ Z.of_nat (length (mt_Players mm))) ∧
    Admissible (rg_Game g) prev req' adm ∧ mv_ServerOnly (ad_Move adm) = false ∧
    st_StateID prev < st_StateID next ∧
    st_Log next = st_Log prev ++ move_entry (ad_State adm) req' redact undoable :: rest ∧
    le_PlayerID (move_entry (ad_State adm) req' redact undoable) = sp_Seat p ∧
    (cf_UseOptimisticConcurrency cf = false →
     (∀ mm1 m1 e m2, (save mm1 : M ()) m1 = (Err e, m2) → e ≠ FromStore ErrConflict) →
     prev = mt_State mm).
Proof.
  unfold MoveReqCtx. intros (now & m0 & [= <- <-] & H)%bind_Ok.
  destruct (cf_RequireStateID cf && _); [done|].
  apply bind_Ok in H as (mm & m1 & Hload & H). apply bind_Ok in H as (og & m2 & [= <- <-] & H).
  destruct (mg_games m1 !! mt_GameName mm) as [g|] eqn:Hg; [|done].
  apply bind_Ok in H as (seat & m3 & (i & p & Hf & -> & Hs & Hc & ->)%clientSeat_Ok & H).
  destruct (decide (unready g mm)) as [|Hr]; [done|]. unfold dispatchLocked in H.
  apply bind_Ok in H as ([[prev next'] mm'] & m3 & Hatt & H).
  do 5 (apply bind_Ok in H as (? & ? & _ & H)). apply ret_Ok in H as [-> _].
  pose proof (attempt_loop_Ok _ _ _ _ _ _ _ _ _ _ _ _ Hatt) as (w & w' & Hcore).
  apply ApplyContext_inv, any_accepted in Hcore as (adm & red & und & rest & Hacc).
  pose proof (ac_admitted _ _ _ _ _ _ _ _ _ _ Hacc) as Hadm%admit_iff_rules.
  apply list_find_Some in Hf as (Hi & Hid & Hbefore).
  eexists mm, m1, g, (take i (mt_Players mm)), p, (drop (Datatypes.S i) (mt_Players mm)), prev, _, adm, red, und, rest.
  cbv zeta. do 2 (split; [done|]). split; [by rewrite take_drop_middle|]. split; [done|]. split.
  { intros q (k & Hk & Hlt)%elem_of_take. by eapply Hbefore. }
  do 2 (split; [done|]). split.
  { unfold unready in Hr. destruct (rg_AllowDynamicPlayers g); [by left|right].
    apply Z.le_ngt. intros Hlt. by apply Hr. }
  split; [exact Hadm|]. split; [by apply (adm_server_only _ _ _ _ Hadm)|].
  split; [apply (ac_id _ _ _ _ _ _ _ _ _ _ Hacc)|].
  split; [apply (ac_log _ _ _ _ _ _ _ _ _ _ Hacc)|]. split; [done|].
  intros Hocc Hsave. by eapply attempt_loop_first.
Qed.
End runs.

Section memory.
Context {T : GoTypes} (cf : Config).
Abbreviation S := (gmap string Match).
Abbreviation Mgr := (Manager.Manager (S:=S)).
Abbreviation M := (ST Mgr manager_error).
Implicit Types (m : Mgr) (g : RegGame).

(** ** Loading a match of the current schema *)
Record current m (matchID : string) (mm : Match) g : Prop := {
  cur_stored : mg_store m !! matchID = Some mm;
  cur_id : mt_ID mm = matchID;
  cur_game : mg_games m !! mt_GameName mm = Some g;
  cur_schema : rg_SchemaVersion g ≤ mt_SchemaVersion mm
}.

Lemma set_store_same m : set_store (mg_store m) m = m.
Proof. by destruct m. Qed.

Lemma load_current m matchID mm g :
  current m matchID mm g → (loadMigrated matchID : M Match) m = (Ok mm, m).
Proof.
  intros [Hs Hi Hg Hv]. unfold loadMigrated, on_store, Game_, mbind, ST_bind, st_bind, gets. simpl.
  rewrite Hs, set_store_same, Hg. by rewrite decide_True.
Qed.

(** ** Failed requests *)
Definition rejection (o : output) : Prop :=
  match o with OLifecycle _ ev => ev_Kind ev = "match.moveRejected" | _ => False end.

(** All but the memory of game code as before, and nothing sent but rejections. *)
Record untouched m m' : Prop := {
  un_store : mg_store m' = mg_store m;
  un_games : mg_games m' = mg_games m;
  un_subs : mg_subs m' = mg_subs m;
  un_timers : mg_timers m' = mg_timers m;
  un_handlers : mg_lifecycleSubs m' = mg_lifecycleSubs m;
  un_drawn : mg_drawn m' = mg_drawn m;
  un_peers : mg_peers m' = mg_peers m;
  un_out : ∃ evs, mg_out m' = mg_out m ++ evs ∧ Forall rejection evs
}.

#[global] Instance untouched_PreOrder : PreOrder untouched.
Proof.
  split.
  - intros m. split; try done. exists []. by rewrite app_nil_r.
  - intros m1 m2 m3 [????? ?? (e1 & H1 & F1)] [????? ?? (e2 & H2 & F2)]. split; try congruence.
    exists (e1 ++ e2). rewrite H2, H1, app_assoc. split; [done|]. by apply Forall_app.
Qed.

Lemma untouched_world w m : untouched m (set_world w m).
Proof. split; try done. exists []. by rewrite app_nil_r. Qed.

Lemma untouched_current m m' matchID mm g : untouched m m' → current m matchID mm g → current m' matchID mm g.
Proof. intros Hu [Hs Hi Hg Hv]. split; [by rewrite (un_store _ _ Hu)|done|by rewrite (un_games _ _ Hu)|done]. Qed.

Lemma untouched_rejected ev m :
  ev_Kind ev = "match.moveRejected" → untouched m (fireLifecycle ev m).2.
Proof.
  intros Hev. split; try done. eexists. split; [done|]. apply Forall_forall.
  by intros o (h & -> & _)%list_elem_of_fmap.
Qed.

Lemma on_core_untouched {A} (op : ST world error A) m : untouched m ((on_core op : M A) m).2.
Proof. unfold on_core. destruct (op (mg_world m)). apply untouched_world. Qed.

Lemma interfere_none m : mg_peers m = [] → (interfere : M ()) m = (Ok tt, m).
Proof. unfold interfere, modify. by intros ->. Qed.

(** Without other managers, an attempt to write back the stored match either succeeds or
    conflicts, and then nothing is written. *)
Lemma write_stored m mm mm' next e m' :
  mg_store m !! mt_ID mm = Some mm' → mg_peers m = [] →
  (write cf mm next : M ()) m = (Err e, m') → e = FromStore ErrConflict ∧ m' = m.
Proof.
  intros Hs Hp. pose proof (interfere_none m Hp) as Hi. unfold write, save. simpl.
  destruct (cf_UseOptimisticConcurrency cf); rewrite (bind_run_Ok _ _ _ _ _ Hi);
    unfold on_store, Memory_Update; rewrite Hs; [|done].
  case_decide; [done|]. intros [= <- <-]. by rewrite set_store_same.
Qed.

Lemma persisted_id g mm w : mt_ID (persisted g mm w) = mt_ID mm.
Proof. unfold persisted. by case_match. Qed.

Lemma attempt_loop_fails ctx matchID playerID g req n mm m e m' :
  current m matchID mm g → mg_peers m = [] →
  (attempt_loop cf ctx matchID playerID g req n mm : M _) m = (Err e, m') → untouched m m'.
Proof.
  revert m. induction n as [|n IH]; intros m Hc Hp H; simpl in H.
  { injection H as _ <-. reflexivity. }
  rewrite bind_eq in H.
  pose proof (on_core_untouched (ApplyContext (cf_fuel cf) ctx (rg_Game g) (mt_State mm) req) m) as Hu.
  destruct (on_core _ m) as [[[s oe]|e'| |] m1]; simplify_eq/=; [|done].
  destruct oe as [err|].
  { rewrite bind_eq in H. injection H as _ <-. transitivity m1; [done|].
    by apply (untouched_rejected (rejected_event matchID playerID mm req err)). }
  pose proof (untouched_current _ _ _ _ _ Hu Hc) as Hc1.
  assert (Hp1 : mg_peers m1 = []) by (by rewrite (un_peers _ _ Hu)).
  unfold mutated in H. rewrite bind_eq in H. simpl in H. rewrite set_store_same in H.
  rewrite bind_eq in H. simpl in H. rewrite bind_eq in H. unfold st_try in H.
  destruct (write cf _ s m1) as [[[]|e1| |] m2] eqn:Hw; try done.
  apply (write_stored _ _ mm) in Hw as [-> ->];
    [|rewrite persisted_id; simpl; rewrite (cur_id _ _ _ _ Hc1); apply (cur_stored _ _ _ _ Hc1)|done].
  destruct (decide (n = 0%nat)). { by injection H as _ <-. }
  rewrite bind_eq in H. unfold interfere, modify in H. rewrite Hp1 in H.
  rewrite bind_eq, (load_current _ _ _ _ Hc1) in H. transitivity m1; [done|]. by eapply IH.
Qed.

(** What is sent and scheduled after a write cannot fail. *)
Definition no_err {A} (op : M A) : Prop := ∀ m e, (op m).1 ≠ Err e.

Lemma no_err_bind {A B} (op : M A) (f : A → M B) : no_err op → (∀ a, no_err (f a)) → no_err (op ≫= f).
Proof.
  intros Hop Hf m e. rewrite bind_eq. specialize (Hop m). destruct (op m) as [[a|e'| |] m1]; try done; [apply Hf|].
  simpl in Hop. by destruct (Hop e').
Qed.

Lemma no_err_try {A} (op : M A) : no_err (st_try op).
Proof. intros m e. unfold st_try. by destruct (op m) as [[]]. Qed.

Lemma no_err_broadcast matchID st : no_err (broadcast matchID st : M ()).
Proof.
  unfold broadcast. apply no_err_bind; [done|]. intros subs. apply no_err_bind; [apply no_err_try|].
  intros [e|mm]; [done|]. apply no_err_bind; [done|]. intros [g|]; [|done].
  apply no_err_bind; done.
Qed.

Lemma dispatchLocked_fails ctx matchID playerID g mm req m e m' :
  current m matchID mm g → mg_peers m = [] →
  (dispatchLocked cf ctx matchID playerID g mm req : M State) m = (Err e, m') → untouched m m'.
Proof.
  intros Hc Hp H. unfold dispatchLocked in H. rewrite bind_eq in H.
  destruct (attempt_loop cf ctx matchID playerID g req (maxRetries cf) mm m) as [[[[prev next] mm']|e'| |] m1] eqn:Ha;
    simplify_eq/=; [|by eapply attempt_loop_fails].
  assert (Hne : no_err (_ ← broadcast matchID next;
    _ ← (if decide (length (st_Log prev) ≤ length (st_Log next))%nat then mret tt else st_panic);
    _ ← fireLifecycle (moved_event matchID playerID mm' prev next req);
    _ ← (if decide (over next ∧ ¬ over prev)
         then fireLifecycle (mkLE "match.gameOver" matchID playerID (Some next) (Some mm') "" [] None [] None 0)
         else mret tt);
    _ ← scheduleTurnTimer matchID next g; mret next : M State)).
  { clear. apply no_err_bind; [apply no_err_broadcast|intros _]. apply no_err_bind; [by case_decide|intros _].
    apply no_err_bind; [done|intros _]. apply no_err_bind; [by case_decide|intros _]. done. }
  specialize (Hne m1 e). by rewrite H in Hne.
Qed.

(** Over the in-memory storage and without other managers, a move request that fails for any
    reason (an unknown player, wrong credentials, an empty seat, the engine's refusal, an exhausted
    concurrency loop) changes neither the storage, the subscribers, the timers nor the handlers, and
    all it sends out is the announcement of its rejection. *)
Theorem failed_moves_change_nothing ctx matchID playerID credentials req mm g m e m' :
  current m matchID mm g → mg_peers m = [] →
  (MoveReqCtx cf ctx matchID playerID credentials req : M State) m = (Err e, m') →
  untouched m m'.
Proof.
  intros Hc Hp H. unfold MoveReqCtx in H. rewrite bind_eq in H. simpl in H.
  destruct (cf_RequireStateID cf && _); [by injection H as _ <-|].
  rewrite (bind_run_Ok _ _ _ _ _ (load_current _ _ _ _ Hc)) in H. rewrite bind_eq in H. simpl in H.
  rewrite (cur_game _ _ _ _ Hc) in H. rewrite bind_eq in H. unfold clientSeat in H.
  destruct (findPlayer playerID mm) as [[i p]|]; [|by simplify_eq/=].
  destruct (negb _ && negb _); [by injection H as _ <-|].
  destruct (decide (sp_Seat p = "")); [by injection H as _ <-|]. simpl in H.
  destruct (decide (unready g mm)); [by injection H as _ <-|]. by eapply dispatchLocked_fails.
Qed.

(** ** Optimistic concurrency *)

(** The storage after the next [k] writes of other managers. *)
Definition stored_after (k : nat) m : S := foldl (λ c f, f c) (mg_store m) (take k (mg_peers m)).

Lemma interfere_run m :
  (interfere : M ()) m = (Ok tt, set_peers (drop 1 (mg_peers m)) (set_store (stored_after 1 m) m)).
Proof. destruct m as [s ? ? ? ? ? ? ? [|f fs] ?]; done. Qed.

Lemma stored_after_later i k m m' :
  mg_store m' = stored_after i m → mg_peers m' = drop i (mg_peers m) →
  stored_after k m' = stored_after (i + k) m.
Proof.
  intros Hs Hp. unfold stored_after in *. by rewrite Hs, Hp, <-foldl_app, take_take_drop.
Qed.

Definition no_migrations m : Prop := ∀ name g, mg_games m !! name = Some g → rg_Migrate g = None.
Definition keep_keyed (f : S → S) : Prop := ∀ c, keyed c → keyed (f c).

Lemma stored_after_keyed k m : keyed (mg_store m) → Forall keep_keyed (mg_peers m) → keyed (stored_after k m).
Proof.
  unfold stored_after. generalize (mg_store m), (mg_peers m). intros c fs Hc Hf. revert k c Hc.
  induction Hf as [|f fs Hf _ IH]; intros [|k] c Hc; simpl; try done. by apply IH, Hf.
Qed.

Lemma load_quiet m matchID : no_migrations m → ((loadMigrated matchID : M Match) m).2 = m.
Proof.
  intros Hn. unfold loadMigrated, on_store, Game_, gets. rewrite bind_eq. simpl.
  destruct (mg_store m !! matchID) as [mm|]; rewrite set_store_same; [|done]. rewrite bind_eq.
  destruct (mg_games m !! mt_GameName mm) as [g|] eqn:Hg; [|done]. rewrite (Hn _ _ Hg). by case_decide.
Qed.

Lemma load_stored m matchID mm m' :
  (loadMigrated matchID : M Match) m = (Ok mm, m') → no_migrations m → mg_store m !! matchID = Some mm.
Proof.
  intros H Hn. revert H. unfold loadMigrated, on_store, Game_, gets. rewrite bind_eq. simpl.
  destruct (mg_store m !! matchID) as [mm'|]; rewrite set_store_same; [|done]. rewrite bind_eq.
  destruct (mg_games m !! mt_GameName mm') as [g|] eqn:Hg.
  - rewrite (Hn _ _ Hg). case_decide; [|done]. by intros [= -> _].
  - by intros [= -> _].
Qed.

(** A compare-and-swap that went through. *)
Lemma cas_Ok mm n m m' :
  cf_UseOptimisticConcurrency cf = true →
  (write cf mm n : M ()) m = (Ok tt, m') →
  ∃ old, stored_after 1 m !! mt_ID mm = Some old ∧ st_StateID (mt_State old) = st_StateID n - 1 ∧
    mg_store m' = <[mt_ID mm := mm]> (stored_after 1 m) ∧ mg_games m' = mg_games m.
Proof.
  intros Ho. unfold write. simpl. rewrite Ho, (bind_run_Ok _ _ _ _ _ (interfere_run m)).
  unfold on_store. simpl. destruct (stored_after 1 m !! mt_ID mm) as [old|]; [|done].
  case_decide; [|done]. intros [= <-]. eauto.
Qed.

Lemma cas_conflict mm n m e m' :
  cf_UseOptimisticConcurrency cf = true → (write cf mm n : M ()) m = (Err e, m') →
  m' = set_peers (drop 1 (mg_peers m)) (set_store (stored_after 1 m) m).
Proof.
  intros Ho. unfold write. simpl. rewrite Ho, (bind_run_Ok _ _ _ _ _ (interfere_run m)).
  unfold on_store. simpl. destruct (stored_after 1 m !! mt_ID mm) as [old|]; [|by intros [= _ <-]].
  case_decide; [done|]. by intros [= _ <-].
Qed.

(** What an accepted move read and what it wrote over. *)
Definition swapped matchID g ctx req (next : State) m (c : S) : Prop :=
  ∃ j k old read w w',
    (j ≤ k)%nat ∧ stored_after k m !! matchID = Some old ∧
    st_StateID (mt_State old) + 1 = st_StateID next ∧ stored_after j m !! matchID = Some read ∧
    ApplyContext (cf_fuel cf) ctx (rg_Game g) (mt_State read) req w = (Ok (next, None), w') ∧
    c = <[matchID := persisted g (set_mt_State next read) w']> (stored_after k m).

Lemma swapped_later i matchID g ctx req next m m' c :
  mg_store m' = stored_after i m → mg_peers m' = drop i (mg_peers m) →
  swapped matchID g ctx req next m' c → swapped matchID g ctx req next m c.
Proof.
  intros Hs Hp (j & k & old & read & w & w' & Hjk & Hold & Hid & Hread & Happ & ->).
  rewrite (stored_after_later i k _ _ Hs Hp) in Hold |- *. rewrite (stored_after_later i j _ _ Hs Hp) in Hread.
  exists (i + j)%nat, (i + k)%nat, old, read, w, w'. split; [lia|done].
Qed.

Lemma attempt_loop_swaps ctx matchID playerID g req n mm m prev next mm' m' :
  cf_UseOptimisticConcurrency cf = true → no_migrations m →
  mg_store m !! matchID = Some mm → keyed (mg_store m) → Forall keep_keyed (mg_peers m) →
  (attempt_loop cf ctx matchID playerID g req n mm : M _) m = (Ok (prev, next, mm'), m') →
  swapped matchID g ctx req next m (mg_store m') ∧ mg_games m' = mg_games m.
Proof.
  intros Ho. revert mm m. induction n as [|n IH]; intros mm m Hn Hs Hk Hp H; simpl in H; [done|].
  apply bind_Ok in H as ([s oe] & m1 & Hcore & H). apply on_core_Ok in Hcore as (w & Happ & ->).
  simpl in H. destruct oe as [e|]. { by apply bind_Ok in H as (? & ? & ? & H). }
  unfold mutated in H. rewrite bind_eq in H. simpl in H. rewrite bind_eq in H. simpl in H.
  rewrite bind_eq in H. unfold st_try in H.
  set (m1 := set_store _ _) in H. assert (Hm1 : m1 = set_world w m) by (by destruct m).
  clearbody m1. subst m1.
  assert (Hid : mt_ID (persisted g (set_mt_State s mm) w) = matchID).
  { rewrite persisted_id. exact (Hk _ _ Hs). }
  destruct (write cf _ s _) as [[[]|e1| |] m2] eqn:Hw; [|destruct e1; try done|done|done].
  - injection H as <- <- <- <-. apply cas_Ok in Hw as (old & Hold & Hsid & Hst & Hg); [|done].
    rewrite Hid in Hold, Hst. split; [|done].
    exists 0%nat, 1%nat, old, mm, (mg_world m), w. split; [lia|]. split; [exact Hold|].
    split; [lia|]. split; [done|]. split; [exact Happ|exact Hst].
  - destruct e; try done. destruct (decide (n = 0%nat)); [done|].
    apply cas_conflict in Hw as ->; [|done]. rewrite (bind_run_Ok _ _ _ _ _ (interfere_run _)) in H.
    set (m2 := set_peers _ _) in H.
    assert (H2 : mg_store m2 = stored_after 2 m ∧ mg_peers m2 = drop 2 (mg_peers m) ∧ mg_games m2 = mg_games m).
    { subst m2. unfold stored_after. destruct m as [? ? ? ? ? ? ? ? [|? [|? ?]] ?]; simpl; done. }
    clearbody m2. destruct H2 as (Hst & Hpe & Hg).
    apply bind_Ok in H as (mm2 & m3 & Hload & H).
    assert (Hn2 : no_migrations m2) by (unfold no_migrations; by rewrite Hg).
    pose proof (load_quiet m2 matchID Hn2) as Hq. rewrite Hload in Hq. simpl in Hq. subst m3.
    apply load_stored in Hload; [|done].
    apply (IH _ _ Hn2 Hload) in H.
    + destruct H as [H HG]. split; [|congruence]. by eapply swapped_later.
    + rewrite Hst. by apply stored_after_keyed.
    + rewrite Hpe. by apply Forall_drop.
Qed.

(** What follows the write leaves the storage alone. *)
Definition settled (c : S) m : Prop := mg_store m = c ∧ no_migrations m.

Lemma settled_load c matchID : keeps (settled c) (loadMigrated matchID : M Match).
Proof. intros m [Hc Hn]. by rewrite load_quiet. Qed.

Lemma settled_broadcast c matchID st : keeps (settled c) (broadcast matchID st : M ()).
Proof.
  pose proof (settled_load c matchID). unfold broadcast, subscribers, Game_, emits.
  keeps_walk ltac:(apply keeps_modify; done).
Qed.

(** C29: under optimistic concurrency, whatever other managers write at any point, an accepted move
    is the engine's answer on a state that was stored at some point after the request began, and it
    is written over a state whose id is the one before its own: if the engine advanced the id by
    one, over a state with the very id it was computed from. Failed attempts write nothing, and
    nothing of this manager's comes between. (For games that do not migrate.) *)
Theorem optimistic_moves_swap_in_order ctx matchID playerID credentials req mm m next m' :
  cf_UseOptimisticConcurrency cf = true → no_migrations m →
  keyed (mg_store m) → Forall keep_keyed (mg_peers m) → mg_store m !! matchID = Some mm →
  (MoveReqCtx cf ctx matchID playerID credentials req : M State) m = (Ok next, m') →
  ∃ g seat nowMs j k old read w w',
    let req' := mkReq seat (rq_Move req) (rq_Args req) (rq_StateID req) (rq_ResumeTag req)
                  nowMs false true in
    mg_games m !! mt_GameName mm = Some g ∧ (j ≤ k)%nat ∧
    stored_after k m !! matchID = Some old ∧ st_StateID (mt_State old) + 1 = st_StateID next ∧
    stored_after j m !! matchID = Some read ∧
    ApplyContext (cf_fuel cf) ctx (rg_Game g) (mt_State read) req' w = (Ok (next, None), w') ∧
    mg_store m' = <[matchID :=
      set_mt_State (match rg_BeforePersist g with Some f => f next w' | None => next end) read]>
      (stored_after k m).
Proof.
  intros Ho Hn Hk Hp Hs H. unfold MoveReqCtx in H. rewrite bind_eq in H. simpl in H.
  destruct (cf_RequireStateID cf && _); [done|].
  apply bind_Ok in H as (mm' & m1 & Hload & H).
  pose proof (load_quiet m matchID Hn) as Hq. rewrite Hload in Hq. simpl in Hq. subst m1.
  apply load_stored in Hload; [|done]. rewrite Hs in Hload. injection Hload as <-.
  apply bind_Ok in H as (og & m2 & [= <- <-] & H).
  destruct (mg_games m !! mt_GameName mm) as [g|] eqn:Hgame; [|done].
  apply bind_Ok in H as (seat & m3 & (i & p & _ & -> & _ & _ & ->)%clientSeat_Ok & H).
  destruct (decide (unready g mm)); [done|]. unfold dispatchLocked in H.
  apply bind_Ok in H as ([[prev next'] mm'] & m1 & Hatt & H).
  destruct (attempt_loop_swaps _ _ _ _ _ _ _ _ _ _ _ _ Ho Hn Hs Hk Hp Hatt) as [Hsw Hg].
  assert (Hset : settled (mg_store m1) m').
  { revert H. match goal with |- ?f m1 = _ → _ => assert (Hf : keeps (settled (mg_store m1)) f) end.
    { pose proof (settled_broadcast (mg_store m1) matchID next').
      unfold fireLifecycle, scheduleTurnTimer. keeps_walk ltac:(apply keeps_modify; intros ? ?; by case_decide). }
    intros H. specialize (Hf m1). rewrite H in Hf. apply Hf. split; [done|].
    unfold no_migrations. by rewrite Hg. }
  do 5 (apply bind_Ok in H as (? & ? & _ & H)). apply ret_Ok in H as [-> ->].
  destruct Hset as [-> _]. destruct Hsw as (j & k & old & read & w & w' & Hjk & Hold & Hid & Hread & Happ & ->).
  exists g, (sp_Seat p). eexists _, j, k, old, read, w, w'. split_and!; try done.
  unfold persisted. by destruct (rg_BeforePersist g).
Qed.
End memory.

(** ** On the small server *)
Definition at_table : Manager.Manager (S:=mem_store) := served false opening.

Definition accepted_move : State :=
  match (MoveReq (demo_config false) "m1" "0" "c2" (client "inc") at_table).1 with
  | Ok st => st
  | _ => state_after []
  end.

Lemma accepted_moves_are_authorized_witness :
  ∃ mm m1 g before p after prev nowMs adm redact undoable rest,
    let req' := mkReq (sp_Seat p) "inc" (rq_Args (client "inc")) (rq_StateID (client "inc"))
                  (rq_ResumeTag (client "inc")) nowMs false true in
    (loadMigrated "m1" : ST _ manager_error Match) at_table = (Ok mm, m1) ∧
    mg_games m1 !! mt_GameName mm = Some g ∧
    mt_Players mm = before ++ p :: after ∧ sp_ID p = "0" ∧
    (∀ q, q ∈ before → sp_ID q ≠ "0") ∧ sp_Seat p ≠ "" ∧
    ("c2" = "" ∨ DefaultAuthenticate "c2" p = true) ∧
    (rg_AllowDynamicPlayers g = true ∨
     ctx_NumPlayers (st_Ctx (mt_State mm)) ≤ Z.of_nat (length (mt_Players mm))) ∧
    Admissible (rg_Game g) prev req' adm ∧ mv_ServerOnly (ad_Move adm) = false ∧
    st_StateID prev < st_StateID accepted_move ∧
    st_Log accepted_move = st_Log prev ++ move_entry (ad_State adm) req' redact undoable :: rest ∧
    le_PlayerID (move_entry (ad_State adm) req' redact undoable) = sp_Seat p ∧
    (false = false →
     (∀ mm1 m1 e m2, (save mm1 : ST (Manager.Manager (S:=mem_store)) manager_error ()) m1 = (Err e, m2) →
        e ≠ FromStore ErrConflict) →
     prev = mt_State mm).
Proof.
  apply (accepted_moves_are_authorized (demo_config false) ctxBackground "m1" "0" "c2" (client "inc") at_table
    accepted_move (MoveReq (demo_config false) "m1" "0" "c2" (client "inc") at_table).2).
  vm_compute. reflexivity.
Defined.

Definition demo_match : Match :=
  default (sample_match "m1" "") (mg_store at_table !! "m1").

Lemma failed_moves_change_nothing_witness :
  let r := MoveReq (demo_config false) "m1" "1" "c3" (client "inc") at_table in
  r.1 = Err (FromCore ErrWrongPlayer) ∧ untouched at_table r.2.
Proof.
  cbv zeta. split; [by vm_compute|].
  apply (failed_moves_change_nothing (demo_config false) ctxBackground "m1" "1" "c3" (client "inc") demo_match
    counter_game at_table (FromCore ErrWrongPlayer)).
  - split; by vm_compute.
  - by vm_compute.
  - vm_compute. reflexivity.
Defined.

(** Another manager that takes the match's state id up by one, between this one's load and write. *)
Definition bump (c : mem_store) : mem_store :=
  match c !! "m1" with
  | Some mm => <["m1" := set_mt_State (set_st_StateID (state_id mm + 1) (mt_State mm)) mm]> c
  | None => c
  end.

Lemma bump_keyed : keep_keyed bump.
Proof.
  intros c Hc id mm. unfold bump. destruct (c !! "m1") as [m1|] eqn:Hm; [|apply Hc].
  intros [[<- <-]|[_ ?]]%lookup_insert_Some; [by apply (Hc _ _ Hm)|by apply Hc].
Qed.

Definition raced_table : Manager.Manager (S:=mem_store) := set_peers [bump] (served true opening).
Definition raced := MoveReq (demo_config true) "m1" "0" "c2" (client "inc") raced_table.
Definition raced_state : State := match raced.1 with Ok st => st | _ => state_after [] end.

Lemma optimistic_moves_swap_in_order_witness :
  st_StateID raced_state = 2 ∧
  ∃ g seat nowMs j k old read w w',
    let req' := mkReq seat "inc" (rq_Args (client "inc")) (rq_StateID (client "inc"))
                  (rq_ResumeTag (client "inc")) nowMs false true in
    mg_games raced_table !! mt_GameName demo_match = Some g ∧ (j ≤ k)%nat ∧
    stored_after k raced_table !! "m1" = Some old ∧ st_StateID (mt_State old) + 1 = st_StateID raced_state ∧
    stored_after j raced_table !! "m1" = Some read ∧
    ApplyContext fuel0 ctxBackground (rg_Game g) (mt_State read) req' w = (Ok (raced_state, None), w') ∧
    mg_store raced.2 = <["m1" :=
      set_mt_State (match rg_BeforePersist g with Some f => f raced_state w' | None => raced_state end) read]>
      (stored_after k raced_table).
Proof.
  split; [by vm_compute|].
  apply (optimistic_moves_swap_in_order (demo_config true) ctxBackground "m1" "0" "c2" (client "inc")
    demo_match raced_table raced_state raced.2).
  - by vm_compute.
  - apply (bool_decide_unpack (map_Forall (λ _ g, rg_Migrate g = None) (mg_games raced_table))). by vm_compute.
  - apply (bool_decide_unpack (map_Forall (λ id mm, mt_ID mm = id) (mg_store raced_table))). by vm_compute.
  - repeat constructor. exact bump_keyed.
  - vm_compute. reflexivity.
  - unfold raced_state. by vm_compute.
Defined.
