(* ===== verification/Expiry.v ===== *)
(** * Forced turn ends, export and import

    What a turn timer does when it fires ([src/match/timer.go]), and that an exported
    match imports to itself ([export.go]). *)

From S2P Require Import Prelude CoreTypes GameDef Session Reducer Discipline Replay.
From S2P Require Import Storage StorageTheorems Example Manager Lobby Dispatch ManagerFacts ManagerExample MoveRequests.
#[local] Open Scope Z_scope.

Section expiry.
Context {T : GoTypes} (cf : Config).
Abbreviation S := (gmap string Match).
Abbreviation Mgr := (Manager.Manager (S:=S)).
Abbreviation M := (ST Mgr manager_error).
Implicit Types (m : Mgr) (g : RegGame).

(** The frames and announcements of an expiry, to the match's subscribers and the handlers. *)
Definition announcement m matchID (mm : Match) g (next : State) : list output :=
  (frame g next (mg_world m) <$> default [] (mg_subs m !! matchID)) ++
  ((λ h, OLifecycle h (expired_event matchID mm next)) <$>
     (omap id (default [] (mg_lifecycleSubs m !! "match.moved")) ++
      omap id (default [] (mg_lifecycleSubs m !! "")))).

(** The timer of a match whose state is [st]: none once the game is over or without a budget. *)
Definition armed m g (st : State) : option turnTimer :=
  if decide (turnBudget g st ≤ 0 ∨ over st) then None
  else Some (mkTimer (mg_now m + turnBudget g st) (ctx_Turn (st_Ctx st))).

Lemma broadcast_current m matchID mm g st :
  current m matchID mm g →
  (broadcast matchID st : M ()) m =
    (Ok tt, set_out (mg_out m ++ (frame g st (mg_world m) <$> default [] (mg_subs m !! matchID))) m).
Proof.
  intros Hc. unfold broadcast, subscribers, gets. rewrite bind_eq. rewrite bind_eq. unfold st_try.
  rewrite (load_current _ _ _ _ Hc). simpl. unfold Game_, gets. rewrite bind_eq.
  rewrite (cur_game _ _ _ _ Hc). done.
Qed.

Lemma schedule_timers m matchID st g :
  mg_timers ((scheduleTurnTimer matchID st g : M ()) m).2 !! matchID = armed m g st ∧
  mg_store ((scheduleTurnTimer matchID st g : M ()) m).2 = mg_store m ∧
  mg_out ((scheduleTurnTimer matchID st g : M ()) m).2 = mg_out m.
Proof.
  unfold scheduleTurnTimer, modify, armed, over. simpl. repeat case_decide; try done; simpl.
  - split; [apply lookup_delete_eq|done].
  - split; [apply lookup_insert_eq|done].
Qed.

(** A timer that fires for a turn that is over, or in a finished game, does nothing. Otherwise the
    engine is asked once to end the turn: if it refuses, the storage, the subscribers and the timers
    are as before; if it does, its state is stored, every subscriber is sent its view of it, the
    handlers are told, and the next turn's timer runs exactly if there is a budget and the game goes
    on. *)
Theorem expiry_ends_the_turn_it_was_set_for m matchID mm g t :
  current m matchID mm g → mg_peers m = [] →
  let run := (AutoExpire cf matchID t : M ()) m in
  let old := mt_State mm in
  ((ctx_Turn (st_Ctx old) ≠ t ∨ over old) → run = (Ok tt, m)) ∧
  (ctx_Turn (st_Ctx old) = t → ¬ over old →
   (∀ next w, ForceEndTurnE (cf_fuel cf) (rg_Game g) old (mg_world m) = (Ok (next, None), w) →
      run.1 = Ok tt ∧
      mg_store run.2 = <[matchID := set_mt_State next mm]> (mg_store m) ∧
      mg_timers run.2 !! matchID = armed m g next ∧
      mg_out run.2 = mg_out m ++ announcement (set_world w m) matchID (set_mt_State next mm) g next) ∧
   ((∀ next w, ForceEndTurnE (cf_fuel cf) (rg_Game g) old (mg_world m) ≠ (Ok (next, None), w)) →
      run.1 ≠ Ok tt ∧ untouched m run.2)).
Proof.
  intros Hc Hp. cbv zeta. unfold AutoExpire. rewrite (bind_run_Ok _ _ _ _ _ (load_current _ _ _ _ Hc)).
  split.
  { intros Ho. destruct (decide (_ ≠ t)) as [|Heq]; [done|]. rewrite decide_True; [done|].
    destruct Ho as [Hne|Ho]; [by destruct Heq|done]. }
  intros Ht Hno. rewrite decide_False by auto. rewrite decide_False by done.
  unfold Game_, gets. rewrite bind_eq. rewrite (cur_game _ _ _ _ Hc). rewrite bind_eq. unfold on_core.
  split; [|intros Hbad].
  2: { destruct (ForceEndTurnE _ _ _ _) as [[[next [e|]]|e| |] w]; try by (split; [done|apply untouched_world]).
       by destruct (Hbad next w). }
  intros next w ->. rewrite bind_eq. simpl. unfold mutated. rewrite bind_eq. simpl.
  set (m1 := set_store _ _). assert (Hm1 : m1 = set_world w m) by (by destruct m).
  clearbody m1. subst m1. set (m1 := set_world w m).
  rewrite bind_eq. unfold save. rewrite (bind_run_Ok _ _ _ _ _ (interfere_none m1 Hp)).
  unfold on_store. simpl. unfold Memory_Update. simpl. rewrite (cur_id _ _ _ _ Hc), (cur_stored _ _ _ _ Hc).
  set (m2 := set_store _ _).
  assert (Hc2 : current m2 matchID (set_mt_State next mm) g).
  { destruct Hc as [Hs Hi Hg Hv]. split; [apply lookup_insert_eq|done..]. }
  rewrite (bind_run_Ok _ _ _ _ _ (broadcast_current _ _ _ _ _ Hc2)).
  rewrite bind_eq. unfold fireLifecycle, modify.
  set (m3 := set_out _ (set_out _ _)).
  destruct (schedule_timers m3 matchID next g) as (Htm & Hst & Hout).
  split; [done|]. split; [by rewrite Hst|]. split; [exact Htm|].
  rewrite Hout. unfold announcement. by rewrite (app_assoc (mg_out m)).
Qed.

(** ** Export and import *)
Lemma ReplaySeeded_count fuel game log n n' sd seed :
  PlayerCount game n = PlayerCount game n' →
  ReplaySeeded fuel game log n sd seed = ReplaySeeded fuel game log n' sd seed.
Proof.
  intros Hn. unfold ReplaySeeded, ReplayUntilSeeded, NewMatchSeeded, NewMatchSeededE. by rewrite Hn.
Qed.

(** C31: exporting a match that was played from its setup through accepted moves, and importing it
    at any manager that serves the same game and whose game code starts from the same memory,
    creates a match with exactly the exported state, no players, and leaves the memory as the
    original play did; for a game that logs no entries of the engine's kinds, and if the table has
    kept its size. *)
Theorem export_import_roundtrip m matchID mm g m2 n seed reqs w :
  honest (rg_Game g) → current m matchID mm g →
  (s0 ← NewMatchSeeded (cf_fuel cf) (rg_Game g) n (mt_SetupData mm) seed; play (cf_fuel cf) (rg_Game g) s0 reqs)
    (mg_world m2) = (Ok (mt_State mm), w) →
  PlayerCount (rg_Game g) (ctx_NumPlayers (st_Ctx (mt_State mm))) = PlayerCount (rg_Game g) n →
  mg_games m2 !! mt_GameName mm = Some g →
  ∃ exp id m2' mm', (ExportMatch matchID : M ExportedMatch) m = (Ok exp, m) ∧
    (ImportMatch cf exp : M string) m2 = (Ok id, m2') ∧
    mg_store m2' = <[id := mm']> (mg_store m2) ∧
    mt_ID mm' = id ∧ mt_GameName mm' = mt_GameName mm ∧ mt_State mm' = mt_State mm ∧ mt_Players mm' = [] ∧
    mg_world m2' = w ∧ mg_out m2' = mg_out m2.
Proof.
  intros Hg Hc Hrun Hn Hg2.
  destruct (history_replays _ _ _ _ _ _ _ _ _ Hg Hrun) as [Hrep Hseed].
  eexists _, _, _, _. split.
  { unfold ExportMatch. rewrite (bind_run_Ok _ _ _ _ _ (load_current _ _ _ _ Hc)). done. }
  split.
  { unfold ImportMatch, Game_, gets. rewrite bind_eq. simpl. rewrite Hg2. rewrite bind_eq. unfold on_core.
    rewrite (ReplaySeeded_count _ _ _ _ n) by done. rewrite Hseed, Hrep.
    rewrite bind_eq. simpl. unfold draw. rewrite bind_eq. rewrite bind_eq. rewrite bind_eq.
    unfold on_store. simpl. rewrite bind_eq. unfold st_try.
    erewrite load_current; [done|].
    split; [apply lookup_insert_eq|done|exact Hg2|]. simpl. apply (cur_schema _ _ _ _ Hc). }
  done.
Qed.
End expiry.

(** ** On the small server *)
Definition timed_turn : TurnConfig :=
  mkTurn (mkOrder None None None) None None None None 0 0 100 None ∅.

Definition timed_game : RegGame :=
  mkReg (mkGame "counter" 2 2 (Some (λ c d w, (Some 0, w))) moves (Some timed_turn) ∅ None None None None None
    false []) false false 0 None None None None.

Definition timed_table : Manager.Manager (S:=mem_store) :=
  served false [OpRegister timed_game; OpCreate "counter" two_seats; OpSubscribe "m1" spectator].

Definition timed_match : Match := default demo_match (mg_store timed_table !! "m1").

Definition forced_next : State :=
  match (ForceEndTurnE fuel0 (rg_Game timed_game) (mt_State timed_match) (mg_world timed_table)).1 with
  | Ok (s, None) => s
  | _ => mt_State timed_match
  end.

Lemma demo_armed : armed timed_table timed_game forced_next = Some (mkTimer 100 2).
Proof. by vm_compute. Qed.

Lemma expiry_ends_the_turn_it_was_set_for_witness :
  let run := AutoExpire (demo_config false) "m1" 1 timed_table in
  run.1 = Ok tt ∧ mg_store run.2 = <["m1" := set_mt_State forced_next timed_match]> (mg_store timed_table) ∧
  mg_timers run.2 !! "m1" = Some (mkTimer 100 2) ∧
  AutoExpire (demo_config false) "m1" 7 timed_table = (Ok tt, timed_table).
Proof.
  cbv zeta.
  assert (Hc : current timed_table "m1" timed_match timed_game) by (split; by vm_compute).
  destruct (expiry_ends_the_turn_it_was_set_for (demo_config false) timed_table "m1" timed_match timed_game 1
    Hc eq_refl) as [_ Hforce].
  destruct Hforce as [Hforce _]; [by vm_compute|by vm_compute; intros [? ?]|].
  destruct (Hforce forced_next 0) as (Hok & Hst & Htm & _); [vm_compute; reflexivity|].
  split; [exact Hok|]. split; [exact Hst|]. split.
  - rewrite Htm. exact demo_armed.
  - destruct (expiry_ends_the_turn_it_was_set_for (demo_config false) timed_table "m1" timed_match timed_game 7
      Hc eq_refl) as [Hstale _]. apply Hstale. left. by vm_compute.
Defined.

Definition played : Manager.Manager (S:=mem_store) :=
  served false (opening ++ [OpMove ctxBackground "m1" "0" "c2" (client "inc");
                            OpMove ctxBackground "m1" "0" "c2" (client "pass")]).
Definition played_match : Match := default demo_match (mg_store played !! "m1").

Lemma export_import_roundtrip_witness :
  let m2 := served false [OpRegister counter_game] in
  ∃ exp id m2' mm', ExportMatch "m1" played = (Ok exp, played) ∧
    ImportMatch (demo_config false) exp m2 = (Ok id, m2') ∧
    mg_store m2' = <[id := mm']> (mg_store m2) ∧
    mt_ID mm' = id ∧ mt_GameName mm' = mt_GameName played_match ∧ mt_State mm' = mt_State played_match ∧
    mt_Players mm' = [] ∧ mg_world m2' = 0 ∧ mg_out m2' = mg_out m2.
Proof.
  cbv zeta.
  apply (export_import_roundtrip (demo_config false) played "m1" played_match counter_game _ 2 42
           [client_request "0" 5 (client "inc"); client_request "0" 5 (client "pass")]).
  - exact counter_honest.
  - split; by vm_compute.
  - vm_compute. reflexivity.
  - by vm_compute.
  - by vm_compute.
Defined.
