(* ===== verification/ActivePlayers.v ===== *)
(** * The active-player set

    Who may move while the set is in force, how a set is taken back
    (Revert), chained (Next, ActivePlayersInOrder) and worn down by the stages'
    MaxMoves. *)

From S2P Require Import Prelude CoreTypes Api GameDef Plugins Transitions Reducer Session.
From S2P Require Import Replay Example.
#[local] Open Scope Z_scope.

Section sets.
Context {T : GoTypes}.
Implicit Types (s : State) (cfg : ActivePlayersConfig) (pid stage : string).

(** The stage a config puts a player in: an explicit Value entry wins over
    CurrentPlayer, which wins over Others, which wins over All. *)
Definition stage_of (order : list string) (current : string) cfg pid : option string :=
  match apc_Value cfg !! pid with
  | Some stage => Some stage
  | None =>
      if decide (pid = current ∧ is_Some (apc_CurrentPlayer cfg)) then apc_CurrentPlayer cfg
      else if decide (pid ∈ order ∧ pid ≠ current ∧ is_Some (apc_Others cfg)) then apc_Others cfg
      else if decide (pid ∈ order) then apc_All cfg
      else None
  end.

Lemma put_all_lookup stage players m pid :
  put_all stage players m !! pid = if decide (pid ∈ players) then Some stage else m !! pid.
Proof.
  revert m. induction players as [|p ps IH]; intros m; unfold put_all; cbn [fold_left].
  { by rewrite decide_False by apply not_elem_of_nil. }
  fold (put_all stage ps (<[p:=stage]> m)). rewrite IH.
  destruct (decide (pid ∈ ps)).
  - by rewrite decide_True by (by right).
  - destruct (decide (pid = p)) as [->|Hne].
    + rewrite lookup_insert_eq, decide_True; [done|by left].
    + rewrite lookup_insert_ne by done. rewrite decide_False; [done|].
      by intros [|]%elem_of_cons.
Qed.

Lemma active_of_lookup order current cfg pid :
  active_of order current cfg !! pid = stage_of order current cfg pid.
Proof.
  unfold active_of, stage_of. cbv zeta.
  destruct (apc_Value cfg !! pid) eqn:HV; [by apply lookup_union_Some_l|].
  rewrite lookup_union_r by done.
  destruct (apc_CurrentPlayer cfg) as [cs|].
  - destruct (decide (pid = current)) as [->|Hne].
    + by rewrite lookup_insert_eq, decide_True by (split; [done|by eexists]).
    + rewrite lookup_insert_ne by done. rewrite decide_False by (by intros []).
      destruct (apc_Others cfg) as [os|], (apc_All cfg) as [als|];
        rewrite ?put_all_lookup, ?lookup_empty; repeat case_decide; try done;
        rewrite ?list_elem_of_filter in *; exfalso; naive_solver.
  - rewrite (decide_False (P:=pid = current ∧ _)) by (by intros [_ []]).
    destruct (apc_Others cfg) as [os|], (apc_All cfg) as [als|];
      rewrite ?put_all_lookup, ?lookup_empty; repeat case_decide; try done;
      rewrite ?list_elem_of_filter in *; exfalso; naive_solver.
Qed.

Lemma nil_if_empty_None {A} (m : gmap string A) : nil_if_empty m = None ↔ ∀ k, m !! k = None.
Proof.
  unfold nil_if_empty. rewrite <-map_empty. by case_decide.
Qed.

Lemma nil_if_empty_Some {A} (m m' : gmap string A) : nil_if_empty m = Some m' → m' = m ∧ m ≠ ∅.
Proof. unfold nil_if_empty. case_decide; [done|]. by intros [= <-]. Qed.

Lemma nil_if_empty_lookup {A} (m : gmap string A) k : omap_get (nil_if_empty m) k = m !! k.
Proof.
  unfold nil_if_empty, omap_get. case_decide as Hm; [|done]. by rewrite Hm, lookup_empty.
Qed.

Lemma applySet_Ctx s cfg :
  st_Ctx (applySetActivePlayers s cfg) =
  set_ctx_ActivePlayers (nil_if_empty
    (active_of (ctx_PlayOrder (st_Ctx s)) (ctx_CurrentPlayer (st_Ctx s)) cfg)) (st_Ctx s).
Proof. unfold applySetActivePlayers. by destruct (apc_Revert cfg). Qed.

(** A bound of a covered player: the player's own entry, even one that is not
    positive, or else the config's, if that is positive. *)
Lemma stage_bounds_lookup bound per out pid n :
  omap_get (nil_if_empty (stage_bounds bound per out)) pid = Some n ↔
  is_Some (out !! pid) ∧ (per !! pid = Some n ∨ per !! pid = None ∧ n = bound ∧ 0 < bound).
Proof.
  rewrite nil_if_empty_lookup. unfold stage_bounds, stage_bound.
  rewrite map_lookup_imap. destruct (out !! pid) as [st|]; simpl.
  - destruct (per !! pid) as [v|]; [|case_decide]; split; try naive_solver.
  - split; [done|]. by intros [[? ?] _].
Qed.

(** C16: after SetActivePlayers exactly the players the config covers are active,
    each in the stage the config gives them, and ActivePlayers is nil, which lets the
    current player move, exactly when it covers nobody.  A covered player's MinMoves
    and MaxMoves are the player's own entry where the config has one, or else the
    config's if positive; nobody else has a bound, and no moves are counted yet. *)
Theorem applySetActivePlayers_stages s cfg :
  let s' := applySetActivePlayers s cfg in
  let stage := stage_of (ctx_PlayOrder (st_Ctx s)) (ctx_CurrentPlayer (st_Ctx s)) cfg in
  (ctx_ActivePlayers (st_Ctx s') = None ↔ ∀ pid, stage pid = None) ∧
  (∀ active pid, ctx_ActivePlayers (st_Ctx s') = Some active → active !! pid = stage pid) ∧
  (∀ pid n, omap_get (st_StageMinMoves s') pid = Some n ↔ is_Some (stage pid) ∧
     (apc_PerPlayerMinMoves cfg !! pid = Some n ∨
      apc_PerPlayerMinMoves cfg !! pid = None ∧ n = apc_MinMoves cfg ∧ 0 < apc_MinMoves cfg)) ∧
  (∀ pid n, omap_get (st_StageMaxMoves s') pid = Some n ↔ is_Some (stage pid) ∧
     (apc_PerPlayerMaxMoves cfg !! pid = Some n ∨
      apc_PerPlayerMaxMoves cfg !! pid = None ∧ n = apc_MaxMoves cfg ∧ 0 < apc_MaxMoves cfg)) ∧
  st_MoveCounts s' = None ∧ st_PendingNext s' = apc_Next cfg.
Proof.
  cbv zeta. rewrite applySet_Ctx. simpl. setoid_rewrite <-active_of_lookup.
  set (out := active_of _ _ _). split; [apply nil_if_empty_None|]. split.
  { by intros active pid [-> _]%nil_if_empty_Some. }
  unfold applySetActivePlayers. cbv zeta.
  by destruct (apc_Revert cfg); simpl; split_and!; try done; intros; apply stage_bounds_lookup.
Qed.

(** C17: A set entered with Revert is a frame: whatever happened to the active set
    and its counters meanwhile, draining it restores the active players, their
    move counts and their bounds, and the stack, as they were before it was set. *)
Theorem revert_restores s cfg s1 :
  apc_Revert cfg = true →
  st_ActiveStack s1 = st_ActiveStack (applySetActivePlayers s cfg) →
  drainActivePlayers s1 =
    set_counts (st_MoveCounts s) (st_StageMinMoves s) (st_StageMaxMoves s)
      (set_active (ctx_ActivePlayers (st_Ctx s)) (set_st_ActiveStack (st_ActiveStack s) s1)).
Proof.
  intros Hr Hs. unfold drainActivePlayers.
  assert (Hstack : st_ActiveStack s1 = st_ActiveStack s ++
    [mkFrame (ctx_ActivePlayers (st_Ctx s)) (st_MoveCounts s)
       (st_StageMinMoves s) (st_StageMaxMoves s)]).
  { rewrite Hs. unfold applySetActivePlayers. by rewrite Hr. }
  rewrite Hstack, last_snoc, removelast_last. done.
Qed.








(** ** MaxMoves *)
Lemma drop_keys_lookup {A} (ks : gset string) (m : gmap string A) k :
  drop_keys ks m !! k = if decide (k ∈ ks) then None else m !! k.
Proof.
  unfold drop_keys. case_decide as Hk.
  - apply map_lookup_filter_None. right. intros x _. simpl. by intros ?.
  - destruct (m !! k) as [x|] eqn:Hm.
    + by apply map_lookup_filter_Some.
    + apply map_lookup_filter_None. by left.
Qed.

Lemma drop_keys_get {A} (ks : gset string) (m : option (gmap string A)) k :
  omap_get (drop_keys ks <$> m) k = if decide (k ∈ ks) then None else omap_get m k.
Proof. destruct m; simpl; [apply drop_keys_lookup | by case_decide]. Qed.

Lemma over_budget_iff s pid :
  over_budget s pid = true ↔
  ∃ max, omap_get (st_StageMaxMoves s) pid = Some max ∧ 0 < max ∧
         max ≤ default 0 (omap_get (st_MoveCounts s) pid).
Proof.
  unfold over_budget, get_int. destruct (omap_get (st_StageMaxMoves s) pid) as [max|].
  - rewrite bool_decide_eq_true. naive_solver.
  - split; [done|]. by intros (? & ? & _).
Qed.

(** C19: the MaxMoves check takes out exactly the spent players, those in the active
    set whose stage has a positive MaxMoves that their count of moves has reached:
    their stage, count, MinMoves and MaxMoves are gone, every other player's stay,
    and nothing else changes.  When that leaves nobody the set drains: a Revert frame
    comes back, or Next takes over, or everything is cleared. *)
Theorem autoEndStages_removes_spent s active :
  ctx_ActivePlayers (st_Ctx s) = Some active →
  let spent pid := is_Some (active !! pid) ∧
    ∃ max, omap_get (st_StageMaxMoves s) pid = Some max ∧ 0 < max ∧
           max ≤ default 0 (omap_get (st_MoveCounts s) pid) in
  ∃ kept counts mins maxs,
    (∀ pid, spent pid → kept !! pid = None ∧ omap_get counts pid = None ∧
       omap_get mins pid = None ∧ omap_get maxs pid = None) ∧
    (∀ pid, ¬ spent pid → kept !! pid = active !! pid ∧
       omap_get counts pid = omap_get (st_MoveCounts s) pid ∧
       omap_get mins pid = omap_get (st_StageMinMoves s) pid ∧
       omap_get maxs pid = omap_get (st_StageMaxMoves s) pid) ∧
    let s1 := set_st_StageMaxMoves maxs (set_st_StageMinMoves mins (set_st_MoveCounts counts
                (on_ctx (set_ctx_ActivePlayers (Some kept)) s))) in
    ((∃ pid, spent pid) ∧ kept = ∅ → autoEndStagesByMaxMoves s = drainActivePlayers s1) ∧
    (¬ ((∃ pid, spent pid) ∧ kept = ∅) → autoEndStagesByMaxMoves s = s1).
Proof.
  intros Ha. cbv zeta. unfold autoEndStagesByMaxMoves. rewrite Ha.
  set (ended := filter _ (dom active)).
  assert (Hended : ∀ p, p ∈ ended ↔ is_Some (active !! p) ∧
    ∃ max, omap_get (st_StageMaxMoves s) p = Some max ∧ 0 < max ∧
           max ≤ default 0 (omap_get (st_MoveCounts s) p)).
  { intros p. unfold ended. rewrite elem_of_filter, elem_of_dom, over_budget_iff. tauto. }
  clearbody ended. setoid_rewrite <-Hended.
  exists (drop_keys ended active), (drop_keys ended <$> st_MoveCounts s),
    (drop_keys ended <$> st_StageMinMoves s), (drop_keys ended <$> st_StageMaxMoves s).
  setoid_rewrite drop_keys_get. setoid_rewrite drop_keys_lookup.
  split; [by intros pid Hp; rewrite !decide_True by done|].
  split; [by intros pid Hp; rewrite !decide_False by done|].
  assert (Hne : ended ≠ ∅ ↔ ∃ pid, pid ∈ ended).
  { split; [apply set_choose_L | by intros [x Hx] ->; apply not_elem_of_empty in Hx]. }
  split; intros H.
  - rewrite decide_True; [done|]. by rewrite Hne.
  - rewrite decide_False; [done|]. by rewrite Hne.
Qed.
End sets.

(** ** On the example match *)

Definition everyone_once : ActivePlayersConfig :=
  mkAPC None None (Some "s") ∅ 0 1 ∅ ∅ true None.

Lemma revert_restores_witness :
  let s := state_after [] in
  let s1 := leave_stage "1" (applySetActivePlayers s everyone_once) in
  drainActivePlayers s1 =
    set_counts (st_MoveCounts s) (st_StageMinMoves s) (st_StageMaxMoves s)
      (set_active (ctx_ActivePlayers (st_Ctx s)) (set_st_ActiveStack (st_ActiveStack s) s1)).
Proof.
  apply (revert_restores (state_after []) everyone_once
           (leave_stage "1" (applySetActivePlayers (state_after []) everyone_once))).
  - reflexivity.
  - vm_compute. reflexivity.
Defined.


Definition both_active : gmap string string := <["0" := "s"]> {["1" := "s"]}.

(** Player 0 has made the one move everyone is allowed. *)
Definition one_moved : State :=
  bumpStageMoveCount (applySetActivePlayers (state_after []) everyone_once) "0".

Lemma autoEndStages_removes_spent_witness :
  let spent pid := is_Some (both_active !! pid) ∧
    ∃ max, omap_get (st_StageMaxMoves one_moved) pid = Some max ∧ 0 < max ∧
           max ≤ default 0 (omap_get (st_MoveCounts one_moved) pid) in
  spent "0" ∧ ¬ spent "1" ∧
  ∃ kept counts mins maxs,
    (∀ pid, spent pid → kept !! pid = None ∧ omap_get counts pid = None ∧
       omap_get mins pid = None ∧ omap_get maxs pid = None) ∧
    (∀ pid, ¬ spent pid → kept !! pid = both_active !! pid ∧
       omap_get counts pid = omap_get (st_MoveCounts one_moved) pid ∧
       omap_get mins pid = omap_get (st_StageMinMoves one_moved) pid ∧
       omap_get maxs pid = omap_get (st_StageMaxMoves one_moved) pid) ∧
    let s1 := set_st_StageMaxMoves maxs (set_st_StageMinMoves mins (set_st_MoveCounts counts
                (on_ctx (set_ctx_ActivePlayers (Some kept)) one_moved))) in
    ((∃ pid, spent pid) ∧ kept = ∅ → autoEndStagesByMaxMoves one_moved = drainActivePlayers s1) ∧
    (¬ ((∃ pid, spent pid) ∧ kept = ∅) → autoEndStagesByMaxMoves one_moved = s1).
Proof.
  split; [split; [by eexists|exists 1; vm_compute; split_and!; done]|]. split.
  { intros [_ (max & Hmax & _ & Hle)]. vm_compute in Hmax. injection Hmax as <-. by apply Hle. }
  apply (autoEndStages_removes_spent one_moved both_active). vm_compute. reflexivity.
Defined.
