(* ===== verification/MatchTheorems.v ===== *)
(** * The record of a match

    The main theorems on accepted and refused requests: what the log of a match
    contains, which pending blocks are left, that the log replays to the match itself, and that a refused request
    leaves no trace; then that requests end and turns go round the table. *)

From S2P Require Import Prelude CoreTypes Api Plugins Transitions Reducer Session GameDef Admission Discipline.
From S2P Require Import Evolution MoveFacts Replay Example Termination Rotation.
#[local] Open Scope Z_scope.

Section theorems.
Context {T : GoTypes}.
Implicit Types (game : Game) (s : State) (req : MoveRequest).

(** Game code whose log entries are of the kinds [K]; an entry logged without a kind
    becomes one of kind custom. *)
Definition logs (K : string → Prop) (o : op) : Prop :=
  match o with
  | opAddLog e => K (if decide (le_Kind e = "") then "custom" else le_Kind e)
  | _ => True
  end.

(** An entry of a kind in [K], or one the engine writes for a chained move. *)
Definition logged (K : string → Prop) (e : LogEntry) : Prop :=
  K (le_Kind e) ∨
  le_Kind e = "chained-move" ∧ le_NowMs e = 0 ∧ le_Parent e = 0 ∧
  le_Redact e = false ∧ le_Undoable e = false.

Definition kinds_regime K game (Hg : code_uses (logs K) game) :
    Regime game (logged K) (λ _ _, True) :=
  log_regime game (logs K) (logged K) Hg (λ ctx e H, or_introl H)
    (λ s parent name args, or_intror (conj eq_refl (conj eq_refl
      (conj eq_refl (conj eq_refl eq_refl))))).

(** C1: replaying the log of a match from its seed and setup data, in the same
    initial memory, yields the state and the memory of the match, for every
    history of accepted requests of a game whose code does not log entries
    under the engine's own kinds. *)
Theorem replay_reproduces_match fuel game numPlayers setupData seed reqs s w0 w :
  honest game →
  (s0 ← NewMatchSeeded fuel game numPlayers setupData seed; play fuel game s0 reqs) w0
    = (Ok s, w) →
  ReplaySeeded fuel game (st_Log s) numPlayers setupData seed w0 = (Ok (s, None), w).
Proof.
  intros Hg Hrun. by apply (history_replays _ _ _ _ _ _ _ _ _ Hg Hrun).
Qed.

(** C3: an accepted request appends its own entry first, carrying everything a
    replay needs; every later entry of the same request is a step of the cascade,
    tagged with the index of that entry, a chained move, tagged with no index and
    no clock, or of a kind the game's own code logs; and the log before it is
    untouched, whatever turns the request ends: no entry of the match is ever
    pruned. *)
Theorem Apply_log_record K fuel game s req w s' w' :
  code_uses (logs K) game → Apply fuel game s req w = (Ok (s', None), w') →
  ∃ e rest,
    st_Log s' = st_Log s ++ e :: rest ∧
    le_Kind e = "move" ∧ le_Move e = rq_Move req ∧ le_PlayerID e = rq_PlayerID req ∧
    le_Args e = rq_Args req ∧ le_NowMs e = rq_NowMs req ∧
    le_ResumeTag e = rq_ResumeTag req ∧ le_ServerDispatch e = rq_ServerDispatch req ∧
    le_Turn e = ctx_Turn (st_Ctx s) ∧ le_Phase e = ctx_Phase (st_Ctx s) ∧
    ∀ e', e' ∈ rest →
      (le_Kind e' = "drain-step" ∧ le_Parent e' = Z.of_nat (length (st_Log s))) ∨
      (le_Kind e' = "chained-move" ∧ le_NowMs e' = 0 ∧ le_Parent e' = 0 ∧
       le_Redact e' = false ∧ le_Undoable e' = false) ∨
      K (le_Kind e').
Proof.
  intros Hg HA%Apply_Ok. pose (R := kinds_regime K game Hg).
  destruct (applyExternal_accepted game (logged K) (λ _ _, True) _ _ _ _ _ _ _ HA)
    as (adm & red & und & rest & [Hadm Hlog Hrest ?? ?? ?? ]).
  exists (move_entry (ad_State adm) req red und), rest. rewrite (admitted_state _ _ _ _ Hadm).
  rewrite (admitted_state _ _ _ _ Hadm) in Hlog.
  repeat (split; [done|]).
  intros e' He'. rewrite Forall_forall in Hrest. destruct (Hrest e' He') as [[|]|]; tauto.
Qed.

(** C4: an accepted request strictly increases the state id, keeps the seed,
    sets the clock to the request's and empties the redo stack. The pending blocks
    it leaves are the old ones minus the one it answered and minus those of the
    players it named in DropBlocksFor calls, in order, followed by the ones it
    raised; it names only players the game's code can name, and among them every
    player its move names on all its paths. *)
Theorem Apply_bookkeeping fuel game s req w s' w' :
  Apply fuel game s req w = (Ok (s', None), w') →
  st_StateID s < st_StateID s' ∧
  ctx_Seed (st_Ctx s') = ctx_Seed (st_Ctx s) ∧
  ctx_NowMs (st_Ctx s') = rq_NowMs req ∧
  st_Undone s' = [] ∧
  ∃ adm names raised, Admissible game s req adm ∧
    resumes req (st_Blocks s) (ad_Resuming adm) (st_Blocks (ad_State adm)) ∧
    st_Blocks s' =
      filter (λ b, b_PlayerID b ∉ names) (st_Blocks (ad_State adm)) ++ raised ∧
    (∀ P, code_uses (drops_only P) game → Forall P names) ∧
    ∀ pid fn, mv_Move (ad_Move adm) = Some fn →
      (∀ mc, must_drop pid (applyFnWrapMove game fn mc (rq_Args req))) → pid ∈ names.
Proof.
  intros HA%Apply_Ok.
  destruct (applyExternal_blocks _ _ _ _ _ _ _ _ HA)
    as (adm & red & und & rest & names & raised & [Hadm ?? ?? ?? ??] & Hb & HN & Hd).
  repeat (split; [done|]). apply admit_iff_rules in Hadm.
  exists adm, names, raised. split_and!; try done; [apply Hadm|].
  intros P HP. eapply Forall_impl; [exact HN|]. intros pid Hpid. by apply Hpid.
Qed.

(** C5: a request that is not admissible is refused with an error, the caller's
    state comes back unchanged, and no game code has run. *)
Theorem refused_request_has_no_effect fuel game s req w :
  (∀ adm, ¬ Admissible game s req adm) →
  ∃ e, Apply fuel game s req w = (Ok (s, Some e), w).
Proof.
  intros Hno. destruct (admit_total game s req) as [[adm Hadm]|[e He]].
  { apply admit_iff_rules, Hno in Hadm as []. }
  exists e. unfold Apply, ApplyContext, applyExternal. rewrite He. reflexivity.
Qed.
End theorems.

(** ** The theorems on a concrete match *)

Lemma replay_reproduces_match_witness :
  let s := state_after [req "0" "inc"; req "0" "pass"; req "1" "cast";
                        resume "1" "answer" "prompt"] in
  ReplaySeeded fuel0 counter (st_Log s) 0 None 42 0 = (Ok (s, None), 7).
Proof.
  cbv zeta.
  apply (replay_reproduces_match fuel0 counter 0 None 42
           [req "0" "inc"; req "0" "pass"; req "1" "cast"; resume "1" "answer" "prompt"]).
  - exact counter_honest.
  - vm_compute. reflexivity.
Defined.

Definition cast_result : State :=
  match (Apply fuel0 counter (state_after []) (req "0" "cast") 0).1 with
  | Ok (s, _) => s
  | _ => state_after []
  end.

(** The example game logs nothing but entries of kind custom. *)
Lemma Apply_log_record_witness :
  ∃ e rest, st_Log cast_result = st_Log (state_after []) ++ e :: rest ∧
    le_Kind e = "move" ∧ le_Move e = "cast" ∧ le_PlayerID e = "0" ∧
    le_Args e = [] ∧ le_NowMs e = 5 ∧ le_ResumeTag e = "" ∧ le_ServerDispatch e = false ∧
    le_Turn e = 1 ∧ le_Phase e = "" ∧
    ∀ e', e' ∈ rest →
      (le_Kind e' = "drain-step" ∧ le_Parent e' = 0) ∨
      (le_Kind e' = "chained-move" ∧ le_NowMs e' = 0 ∧ le_Parent e' = 0 ∧
       le_Redact e' = false ∧ le_Undoable e' = false) ∨
      le_Kind e' = "custom".
Proof.
  apply (Apply_log_record (λ k, k = "custom") fuel0 counter (state_after []) (req "0" "cast") 0
    cast_result 0).
  - apply counter_uses. intros [] H; simpl in *; auto. by rewrite H.
  - vm_compute. reflexivity.
Defined.

Lemma Apply_bookkeeping_witness :
  st_StateID (state_after []) < st_StateID cast_result ∧
  ctx_Seed (st_Ctx cast_result) = 42 ∧ ctx_NowMs (st_Ctx cast_result) = 5 ∧
  st_Undone cast_result = [] ∧
  ∃ adm names raised, Admissible counter (state_after []) (req "0" "cast") adm ∧
    resumes (req "0" "cast") (st_Blocks (state_after [])) (ad_Resuming adm)
      (st_Blocks (ad_State adm)) ∧
    st_Blocks cast_result =
      filter (λ b, b_PlayerID b ∉ names) (st_Blocks (ad_State adm)) ++ raised ∧
    (∀ P, code_uses (drops_only P) counter → Forall P names) ∧
    ∀ pid fn, mv_Move (ad_Move adm) = Some fn →
      (∀ mc, must_drop pid (applyFnWrapMove counter fn mc [])) → pid ∈ names.
Proof.
  apply (Apply_bookkeeping fuel0 counter (state_after []) (req "0" "cast") 0 cast_result 0).
  vm_compute. reflexivity.
Defined.

Lemma refused_request_has_no_effect_witness :
  ∃ e, Apply fuel0 counter (state_after []) (req "1" "inc") 0 = (Ok (state_after [], Some e), 0).
Proof.
  apply (refused_request_has_no_effect fuel0 counter (state_after []) (req "1" "inc") 0).
  intros adm Hadm%admit_iff_rules. vm_compute in Hadm. discriminate.
Defined.

(** ** Turns and termination

    The theorems on turn rotation and on the end of the engine's loops, with
    their use on the example game. *)

Section theorems.
Context {T : GoTypes}.
Implicit Types (game : Game) (s : State) (req : MoveRequest).

(** C8: in a game whose hooks queue no events every request comes to an end: 34
    rounds of the event drain are enough for any state and any request, and more
    fuel gives the same result. *)
Theorem Apply_terminates game s req w :
  hooks_use queues_no_event game →
  ∃ r, r.1 ≠ NoFuel ∧ ∀ fuel, (34 ≤ fuel)%nat → Apply fuel game s req w = r.
Proof.
  intros Hq. exists (Apply 34 game s req w).
  assert (Hh : (Apply 34 game s req w).1 ≠ NoFuel) by by apply ApplyContext_halts.
  split; [done|]. intros fuel Hf.
  destruct (ApplyContext_more game 34 fuel ctxBackground s req Hf w) as [Hn|Hn]; [|exact Hn].
  destruct (Hh Hn).
Qed.

(** C11: Ending a phase, which may advance the play order, which may end a phase,
    never nests deeper than two calls, whatever the game's turn orders and phase
    configuration: it returns, and unfolding further changes nothing. *)
Theorem phase_rotation_depth game s nextPhase e depth :
  (rotation_depth ≤ depth)%nat →
  (endPhase depth game s nextPhase e).1 ≠ NoFuel ∧
  endPhase depth game s nextPhase e = endPhase rotation_depth game s nextPhase e.
Proof.
  intros Hd.
  destruct (endPhase_more game rotation_depth depth s nextPhase Hd e) as [Hn|Hn].
  - by destruct (endPhase_halts 0 game s nextPhase e).
  - rewrite Hn. split; [apply (endPhase_halts 0) | done].
Qed.

(** C9: under the default turn order, with hooks that do not panic, ending [k]
    turns always succeeds, counts [k] turns and hands the turn to the player [k]
    places further round the play order, every player in turn. *)
Theorem endTurns_round_the_table k game s e :
  hooks_crash_free game → round_robin game s → seated (st_Ctx s) → ready e →
  ∃ s' e', endTurns k game s e = (Ok s', e') ∧
    ctx_Turn (st_Ctx s') = ctx_Turn (st_Ctx s) + Z.of_nat k ∧
    go_index (ctx_PlayOrder (st_Ctx s))
      ((ctx_PlayOrderPos (st_Ctx s) + Z.of_nat k) mod ctx_NumPlayers (st_Ctx s))
      = Some (ctx_CurrentPlayer (st_Ctx s')).
Proof.
  intros Hh Hr Hs He. destruct (endTurns_round_robin k game s Hh Hr Hs e He)
    as (s' & e' & Hrun & _ & Hl).
  exists s', e'. split; [done|]. split; [apply Hl|]. rewrite <-(tl_pos _ _ _ Hl). apply Hl.
Qed.

(** C10: whatever event the engine takes off the queue, the current player is afterwards
    the one at the current position of the play order (or the order is empty), if so
    before, with one exception: an EndTurn that names a next player outside the
    order hands that player the turn and leaves the order and the position as they
    were. *)
Theorem events_keep_the_seat game s mc ev e s' mc' e' :
  seated (st_Ctx s) → drain_one game s mc ev e = (Ok (s', mc'), e') →
  seated (st_Ctx s') ∨
  ∃ next, ev = evEndTurn next ∧ next ≠ "" ∧ next ∉ ctx_PlayOrder (st_Ctx s) ∧
    ctx_CurrentPlayer (st_Ctx s') = next ∧
    ctx_PlayOrder (st_Ctx s') = ctx_PlayOrder (st_Ctx s) ∧
    ctx_PlayOrderPos (st_Ctx s') = ctx_PlayOrderPos (st_Ctx s).
Proof. intros Hs H. by destruct (drain_one_seats game s mc ev Hs _ _ _ H). Qed.
End theorems.

(** ** On the example game *)

Definition env0 : hookEnv := mkEnv (Some []) (Some (mkQueue [] [])) (Some []) None 0.

Lemma Apply_terminates_witness :
  ∃ r, r.1 ≠ NoFuel ∧
    ∀ fuel, (34 ≤ fuel)%nat → Apply fuel counter (state_after []) (req "0" "pass") 0 = r.
Proof.
  apply (Apply_terminates counter (state_after []) (req "0" "pass") 0). apply counter_hooks.
Defined.

(** The example game with one phase that has no successor and ends when everybody has had
    a turn; the last of the players is on turn. *)
Definition phased : Game := mkGame "phased" 2 2 None moves
  (Some (mkTurn TurnOrderOnce None None None None 0 0 0 None ∅))
  {["opening" := mkPhase None None None None None true NextNil]}
  None None None None None false [].

Definition last_of_opening : State :=
  blank_state (Some 0) (set_ctx_PlayOrderPos 1 (set_ctx_CurrentPlayer "1"
    (initial_ctx phased 2 "opening" 0))).

(** Ending its phase ends the order, which asks to end the phase again: one level would
    not do. *)
Lemma phase_rotation_depth_witness :
  (endPhase 1 phased last_of_opening "" env0).1 = NoFuel ∧
  (endPhase 5 phased last_of_opening "" env0).1 ≠ NoFuel ∧
  endPhase 5 phased last_of_opening "" env0 = endPhase 2 phased last_of_opening "" env0.
Proof.
  split; [vm_compute; reflexivity|].
  apply (phase_rotation_depth phased last_of_opening "" env0 5). unfold rotation_depth. lia.
Defined.

Lemma endTurns_round_the_table_witness :
  ∃ s' e', endTurns 3 counter (state_after []) env0 = (Ok s', e') ∧
    ctx_Turn (st_Ctx s') = 1 + 3 ∧
    go_index ["0"; "1"] ((0 + 3) mod 2) = Some (ctx_CurrentPlayer (st_Ctx s')).
Proof.
  apply (endTurns_round_the_table 3 counter (state_after []) env0).
  - intros h kind mc H. by apply counter_no_hook in H.
  - split; vm_compute; try reflexivity; split; congruence.
  - right. vm_compute. reflexivity.
  - split; by eexists.
Defined.

Definition mc0 : MoveContext :=
  mkMC None (st_Ctx (state_after [])) "0" None None None true None [] 0.

Lemma events_keep_the_seat_witness :
  ∃ s' mc' e', drain_one counter (state_after []) mc0 (evRemovePlayer "0") env0
      = (Ok (s', mc'), e') ∧
    (seated (st_Ctx s') ∨
     ∃ next, evRemovePlayer "0" = evEndTurn next ∧ next ≠ "" ∧
       next ∉ ctx_PlayOrder (st_Ctx (state_after [])) ∧
       ctx_CurrentPlayer (st_Ctx s') = next ∧
       ctx_PlayOrder (st_Ctx s') = ctx_PlayOrder (st_Ctx (state_after [])) ∧
       ctx_PlayOrderPos (st_Ctx s') = ctx_PlayOrderPos (st_Ctx (state_after []))).
Proof.
  eexists _, _, _. split; [vm_compute; reflexivity|].
  eapply (events_keep_the_seat counter (state_after []) mc0 (evRemovePlayer "0") env0).
  - right. vm_compute. reflexivity.
  - vm_compute. reflexivity.
Defined.

(** The exception is real: EndTurn("7") gives the turn to a player nobody seated. *)
Lemma stray_turn :
  ∃ s' mc' e', drain_one counter (state_after []) mc0 (evEndTurn "7") env0 = (Ok (s', mc'), e') ∧
    ctx_CurrentPlayer (st_Ctx s') = "7" ∧ ctx_PlayOrder (st_Ctx s') = ["0"; "1"] ∧
    ctx_PlayOrderPos (st_Ctx s') = 0.
Proof. eexists _, _, _. split; [vm_compute; reflexivity|]. by split_and!. Qed.
