(* ===== verification/SessionTheorems.v ===== *)
(** * Setup, undo, forced turns, views and validation

    Theorems on the entry points around [Apply]: what undo restores, what a
    forced turn end leaves behind, what a client can learn from its view, and
    what an accepted game definition guarantees. *)

From S2P Require Import Prelude CoreTypes Api GameDef Plugins Transitions Reducer Session.
From S2P Require Import Admission Discipline Evolution MoveFacts Replay Example MatchTheorems.
#[local] Open Scope Z_scope.

(** ** Undo *)
Section undo.
Context {T : GoTypes}.
Implicit Types (game : Game) (s : State) (req : MoveRequest).

Lemma last_of_log {A} (l : list A) x xs :
  ∃ y, last (x :: xs) = Some y ∧ last (l ++ x :: xs) = Some y ∧
    removelast (l ++ x :: xs) = l ++ removelast (x :: xs).
Proof.
  destruct (last_is_Some (x :: xs)) as [_ [y Hy]]; [done|]. exists y. split; [done|].
  split; [by rewrite last_app_cons|by apply removelast_app].
Qed.

(** C12: undoing an undoable move that ended no turn gives back the state it was made
    in: G, the turn, the players, the counters, the queued actions and the plugin data
    are the old ones. Not restored are the clock, the block the move answered and the
    older snapshots, so that nothing can be undone a second time; the log loses its last
    entry, which waits for Redo and is the move's own when the move logged nothing else;
    and the memory stays as it is. A game's OnUndo sees the old G and may replace it. *)
Theorem undo_restores fuel game s req w s' w' e rest :
  Apply fuel game s req w = (Ok (s', None), w') →
  st_Log s' = st_Log s ++ e :: rest → le_Undoable e = true →
  CanUndo game s' = true →
  ∃ answered kept popped, resumes req (st_Blocks s) answered kept ∧
    last (e :: rest) = Some popped ∧
    let restored := set_st_Log (st_Log s ++ removelast (e :: rest))
      (set_st_Undone [popped] (set_st_TurnSnapshots []
        (set_st_Blocks kept (on_ctx (set_ctx_NowMs (rq_NowMs req)) s)))) in
    (gm_OnUndo game = None → Undo game s' w' = (Ok (restored, None), w')) ∧
    (∀ h g, gm_OnUndo game = Some h → (∀ mc, mc_G mc = st_G s → h mc = Ret g) →
      Undo game s' w' = (Ok (set_st_G g restored, None), w')) ∧
    CanUndo game restored = false.
Proof.
  intros HA%Apply_Ok Hlog Hund Hcan.
  destruct (any_accepted _ _ _ _ _ _ _ _ HA)
    as (adm & red & und & rest' & [Hadm Hlog' _ _ _ _ _ Hundone Hsnap]).
  rewrite Hlog' in Hlog. apply app_inv_head in Hlog as [= <- ->]. simpl in Hund. subst und.
  unfold CanUndo in Hcan. apply andb_true_iff in Hcan as [Hcan Hne].
  apply andb_true_iff in Hcan as [Hdis Hover]. apply bool_decide_eq_true in Hne.
  apply negb_true_iff in Hdis. destruct Hsnap as [?|Hsnap]; [done|].
  destruct (last_of_log (st_Log s) (move_entry (ad_State adm) req red true) rest)
    as (popped & Hpop & Hlast & Hrem).
  exists (ad_Resuming adm), (st_Blocks (ad_State adm)), popped. split.
  { apply admit_iff_rules in Hadm. apply Hadm. }
  split; [exact Hpop|]. cbv zeta. rewrite <-Hrem.
  unfold Undo, undo_move, run_OnUndo. rewrite Hdis, Hover, Hsnap, last_snoc, Hlog', Hlast, Hundone.
  assert (Hst : cloneStateForSnapshot (ad_State adm) = set_st_TurnSnapshots []
    (set_st_Blocks (st_Blocks (ad_State adm)) (on_ctx (set_ctx_NowMs (rq_NowMs req)) s)))
    by (by rewrite (admitted_state _ _ _ _ Hadm)).
  rewrite Hst. unfold mbind, ST_bind, st_bind, st_try. simpl. split_and!.
  - intros ->. reflexivity.
  - intros h g -> Hh. unfold call. simpl. rewrite Hh by done. reflexivity.
  - unfold CanUndo. simpl. by rewrite andb_false_r.
Qed.
End undo.

(** ** Forced turn ends *)
Section force.
Context {T : GoTypes}.
Implicit Types (game : Game) (s : State).

Lemma force_pipeline_evolves fuel game s :
  spec (names_more (nameable game))
    (λ s', ∃ p s1, evolves (λ _, True) s s1 ∧ s' = set_st_Plugins p s1)
    (force_pipeline fuel game s).
Proof.
  pose (R := names_regime game). set (L := λ _ : LogEntry, True).
  set (RS := names_more (nameable game)). unfold force_pipeline.
  eapply spec_bind; [apply _|apply (env_mc_returns L RS)|]. intros mc Hmc.
  eapply spec_bind; [apply _|apply (endTurn_evolves game L RS)|]. intros s1 H1.
  eapply spec_bind; [apply _|by apply (drainEvents_drained game L RS)|].
  intros [s2 mc2] [H2 _].
  eapply spec_weaken; [by apply (flushPluginsM_returns game L RS)|].
  intros s3 [p ->]. exists p, s2. split; [by transitivity s1|done].
Qed.

(** A hook that always names [pid] has [pid] on the drop list afterwards. *)
Lemma fireHook_names game h kind player pid s e s' e' :
  (∀ mc, must_drop pid (applyFnWrapHook game h kind mc)) → is_Some (env_drops e) →
  fireHook game (Some h) kind player s e = (Ok s', e') → named pid e'.
Proof.
  intros Hd He. unfold fireHook. intros (mc & e1 & Hmc & H)%bind_Ok.
  injection Hmc as <- <-. apply bind_Ok in H as ([g mc'] & e2 & Hcall & [_ ->]%ret_Ok).
  unfold call in Hcall. rewrite (proj1 (proj2 (attachPlugins_frame _ _))) in Hcall. simpl in Hcall.
  destruct (run _ _ _ _) as [o e5] eqn:Hr. destruct o as [[a x]| | |]; simplify_eq.
  by eapply run_must_drop; [apply Hd|exact Hr|].
Qed.

Lemma force_pipeline_names fuel game s h pid e s' e' :
  scopeTurn game (ctx_Phase (st_Ctx s)) ≫= tc_OnEnd = Some h →
  (∀ mc, must_drop pid (applyFnWrapHook game h GameMethodTurnOnEnd mc)) →
  is_Some (env_drops e) → force_pipeline fuel game s e = (Ok s', e') → named pid e'.
Proof.
  intros Hh Hd He. unfold force_pipeline. intros (mc & e1 & Hmc & H)%bind_Ok.
  injection Hmc as <- <-. apply bind_Ok in H as (s1 & e2 & Hend & Htail).
  pose (R := names_regime game). set (L := λ _ : LogEntry, True).
  set (RS := names_more (nameable game)). unfold endTurn in Hend. rewrite Hh in Hend.
  apply bind_Ok in Hend as (s2 & e3 & Hfire & Hend).
  apply fireHook_names with (pid := pid) in Hfire; [|done|done].
  eapply (endTurn_rest_evolves game L RS) in Hend as [Hend _].
  apply bind_Ok in Htail as ([s3 mc3] & e4 & Hdrain & Hflush).
  eapply (drainEvents_drained game L RS) in Hdrain as [Hdrain _]; [|apply any_ok].
  eapply (flushPluginsM_returns game L RS) in Hflush as [Hflush _].
  by do 3 (eapply names_more_named; [eassumption|]).
Qed.

Lemma withoutBlocksFor_names blocks pids :
  withoutBlocksFor blocks pids = filter (λ b, b_PlayerID b ∉ pids) blocks.
Proof. done. Qed.

Lemma ForceEndTurnE_inv fuel game s w s' w' :
  ForceEndTurnE fuel game s w = (Ok (s', None), w') → force_end_turn fuel game s w = (Ok s', w').
Proof.
  unfold ForceEndTurnE, mbind, ST_bind, st_bind, st_try.
  destruct (force_end_turn fuel game s w) as [[a|e| |] w2]; try done.
  by intros [[= ->] ->]%ret_Ok.
Qed.

(** C13: Forcing a turn to end costs exactly one state id however many moves the
    hooks set off, keeps the seed and only appends to the log: no entry is pruned. It
    abandons the blocks addressed to the player whose turn it was and to the players
    named in DropBlocksFor calls, which are players the game's code can name and include
    those the turn's OnEnd names on all its paths; the blocks of the others stay, in
    order, before any that the hooks raise. *)
Theorem ForceEndTurn_bookkeeping fuel game s w s' w' :
  ForceEndTurnE fuel game s w = (Ok (s', None), w') →
  st_StateID s' = st_StateID s + 1 ∧
  ctx_Seed (st_Ctx s') = ctx_Seed (st_Ctx s) ∧
  (∃ new, st_Log s' = st_Log s ++ new) ∧
  ∃ names raised,
    st_Blocks s' = filter (λ b, b_PlayerID b ≠ ctx_CurrentPlayer (st_Ctx s) ∧
                                b_PlayerID b ∉ names) (st_Blocks s) ++ raised ∧
    (∀ P, code_uses (drops_only P) game → Forall P names) ∧
    ∀ pid h, scopeTurn game (ctx_Phase (st_Ctx s)) ≫= tc_OnEnd = Some h →
      (∀ mc, must_drop pid (applyFnWrapHook game h GameMethodTurnOnEnd mc)) → pid ∈ names.
Proof.
  intros Hf%ForceEndTurnE_inv. pose (R := names_regime game).
  set (RS := names_more (nameable game)).
  unfold force_end_turn in Hf. apply bind_Ok in Hf as ([] & w1 & _ & Hf).
  apply bind_Ok in Hf as (plugins & w2 & _ & Hf). apply bind_Ok in Hf as ([s1 e] & w3 & Hrun & Hf).
  cbv beta iota zeta in Hf. apply bind_Ok in Hf as ([s2 oe] & w4 & Hdrain & Hf).
  destruct oe as [err|]; [done|]. apply bind_Ok in Hf as (? & w5 & [<- <-]%ret_Ok & Hf).
  apply ret_Ok in Hf as [<- <-].
  unfold in_env in Hrun. destruct (force_pipeline _ _ _ _) as [o e1] eqn:Hpipe.
  destruct o as [x| | |]; try done. injection Hrun as <- <- _.
  pose proof Hpipe as Hp. apply force_pipeline_evolves in Hp as [(l & Hdr & HN) (p & s3 & H2 & ->)].
  simpl in Hdr. unfold drops_of in Hdrain. rewrite Hdr in Hdrain.
  apply (drainCascade_grows game (λ _, True) RS) in Hdrain as [_ H3]. specialize (H3 eq_refl).
  destruct H2 as [_ HB _ HS _ (l1 & HL & _) _ _ _].
  destruct H3 as [(l2 & HL2 & _) _ (nb & HB2) HS2 _ _ _]. simpl in *.
  split; [done|]. split; [congruence|]. split.
  { exists (l1 ++ l2). by rewrite HL2, HL, app_assoc. }
  exists l, nb. split_and!.
  - rewrite HB2, HB. f_equal. unfold withoutBlocksFor. apply list_filter_iff. intros b.
    rewrite not_elem_of_cons. done.
  - intros P HP. eapply Forall_impl; [exact HN|]. intros pid Hpid. by apply Hpid.
  - intros pid h Hh Hd. eapply force_pipeline_names in Hpipe as (d & He & Hin); [|done..|by eexists].
    simpl in He. rewrite Hdr in He. by injection He as <-.
Qed.
End force.

(** ** What a client can learn *)
Section view.
Context {T : GoTypes}.
Implicit Types (game : Game) (s : State).

(** Two log entries a seat must not tell apart: the same, or another seat's
    redacted entry with other arguments. *)
Definition entry_alike pid (e1 e2 : LogEntry) : Prop :=
  e1 = e2 ∨
  le_Redact e1 = true ∧ le_PlayerID e1 ≠ pid ∧
  ∃ args, e2 = mkLog (le_Kind e1) (le_Move e1) (le_PlayerID e1) args (le_NowMs e1)
    (le_Turn e1) (le_Phase e1) (le_Stage e1) (le_Redact e1) (le_Undoable e1) (le_Parent e1)
    (le_ResumeTag e1) (le_ServerDispatch e1).

(** Two blocks a seat must not tell apart: the same, or prompts to another seat
    with the same header. *)
Definition block_alike pid (b1 b2 : BlockSpec) : Prop :=
  b1 = b2 ∨
  b_PlayerID b1 ≠ pid ∧ b_Tag b1 = b_Tag b2 ∧ b_PlayerID b1 = b_PlayerID b2 ∧
  b_Move b1 = b_Move b2 ∧ b_Order b1 = b_Order b2.

Lemma redact_entry_alike pid e1 e2 :
  entry_alike pid e1 e2 → redact_entry pid e1 = redact_entry pid e2.
Proof.
  intros [->|(Hr & Hp & args & ->)]; [done|]. unfold redact_entry; simpl.
  by rewrite Hr, bool_decide_false.
Qed.

Lemma redactedLog_alike pid l1 l2 :
  Forall2 (entry_alike pid) l1 l2 → redactedLog l1 pid = redactedLog l2 pid.
Proof.
  induction 1; [done|]. unfold redactedLog in *. simpl. f_equal; [|done].
  by apply redact_entry_alike.
Qed.

Lemma HideBlockPayload_alike pid b1 b2 :
  block_alike pid b1 b2 → HideBlockPayload b1 pid = HideBlockPayload b2 pid.
Proof.
  intros [->|(Hp & Ht & Hpp & Hm & Ho)]; [done|]. unfold HideBlockPayload.
  rewrite !decide_False by congruence. by rewrite Ht, Hpp, Hm, Ho.
Qed.

Lemma redactedBlocks_alike game pid l1 l2 :
  gm_BlockView game = Some HideBlockPayload → Forall2 (block_alike pid) l1 l2 →
  redactedBlocks game l1 pid = redactedBlocks game l2 pid.
Proof.
  intros Hb. unfold redactedBlocks. rewrite Hb. induction 1; [done|]. simpl.
  f_equal; [by apply HideBlockPayload_alike|done].
Qed.

(** What the plugins show of two states does not differ if that of none of them does. *)
Lemma redactPluginData_alike game s1 s2 pid w1 w2 :
  (gm_Plugins game = [] → st_Plugins s1 = st_Plugins s2) →
  (is_Some (st_Plugins s1) ↔ is_Some (st_Plugins s2)) →
  (∀ p, p ∈ gm_Plugins game →
    match pl_PlayerView p with
    | Some f => f (pluginDataFor s1 (pl_Name p)) (st_G s1) (st_Ctx s1) pid w1
              = f (pluginDataFor s2 (pl_Name p)) (st_G s2) (st_Ctx s2) pid w2
    | None => pluginDataFor s1 (pl_Name p) = pluginDataFor s2 (pl_Name p)
    end) →
  redactPluginData game s1 pid w1 = redactPluginData game s2 pid w2.
Proof.
  intros Hnil Hsome Hp. unfold redactPluginData.
  assert (Hfold : ∀ ps out, (∀ p, p ∈ ps → p ∈ gm_Plugins game) →
    fold_left (redact_one s1 pid w1) ps out = fold_left (redact_one s2 pid w2) ps out).
  { induction ps as [|p ps IH]; intros out Hin; [done|]. simpl.
    assert (redact_one s1 pid w1 out p = redact_one s2 pid w2 out p) as ->.
    { unfold redact_one. specialize (Hp p (Hin p (list_elem_of_here _ _))).
      destruct (pl_PlayerView p); by rewrite Hp. }
    apply IH. intros q Hq. apply Hin. by right. }
  destruct (gm_Plugins game) as [|p ps]; [by apply Hnil|].
  destruct (st_Plugins s1), (st_Plugins s2); try done.
  - by rewrite Hfold.
  - destruct Hsome as [[? [=]] _]; by eexists.
  - destruct Hsome as [_ [? [=]]]; by eexists.
Qed.

(** C14: what a seat receives does not depend on what it must not see. With the
    HideBlockPayload block view, two states that differ in the seed, in the
    arguments of other seats' redacted log entries (done or undone), in the
    payload of prompts to other seats, in the data a plugin's view hides, in data kept
    under no plugin's name, in the stage bookkeeping, the active-set stack or the undo
    snapshots look the same to it, provided the game's own view of G and each plugin's
    view of its data are the same; without a view, that is the data itself. *)
Theorem PlayerView_hides game s1 s2 pid w1 w2 :
  gm_BlockView game = Some HideBlockPayload →
  match gm_PlayerView game with
  | Some f => f (st_G s1) (st_Ctx s1) pid w1 = f (st_G s2) (st_Ctx s2) pid w2
  | None => st_G s1 = st_G s2
  end →
  (gm_Plugins game = [] → st_Plugins s1 = st_Plugins s2) →
  (is_Some (st_Plugins s1) ↔ is_Some (st_Plugins s2)) →
  (∀ p, p ∈ gm_Plugins game →
    match pl_PlayerView p with
    | Some f => f (pluginDataFor s1 (pl_Name p)) (st_G s1) (st_Ctx s1) pid w1
              = f (pluginDataFor s2 (pl_Name p)) (st_G s2) (st_Ctx s2) pid w2
    | None => pluginDataFor s1 (pl_Name p) = pluginDataFor s2 (pl_Name p)
    end) →
  (∃ seed, st_Ctx s1 = set_ctx_Seed seed (st_Ctx s2)) →
  Forall2 (entry_alike pid) (st_Log s1) (st_Log s2) →
  Forall2 (entry_alike pid) (st_Undone s1) (st_Undone s2) →
  Forall2 (block_alike pid) (st_Blocks s1) (st_Blocks s2) →
  st_Queue s1 = st_Queue s2 → st_StateID s1 = st_StateID s2 →
  wire (PlayerView game s1 pid w1) = wire (PlayerView game s2 pid w2).
Proof.
  intros Hbv HG Hp1 Hp2 Hp3 [seed HC] HL HU HB HQ HI. unfold PlayerView, wire, set_st_TurnSnapshots.
  pose proof (redactPluginData_alike _ _ _ _ _ _ Hp1 Hp2 Hp3) as HP.
  cbv zeta. simpl. rewrite HP, HQ, HI, (redactedLog_alike _ _ _ HL), (redactedLog_alike _ _ _ HU),
    (redactedBlocks_alike _ _ _ _ Hbv HB).
  assert (Hc : set_ctx_Seed 0 (st_Ctx s1) = set_ctx_Seed 0 (st_Ctx s2)) by by rewrite HC.
  rewrite Hc. f_equal. by destruct (gm_PlayerView game).
Qed.
End view.

(** ** Game.Validate *)
Section validate.
Context {T : GoTypes}.
Implicit Types (g : Game).

(** What Validate promises of a definition. *)
Record well_defined g : Prop := {
  wd_setup : is_Some (gm_Setup g);
  wd_start n1 n2 p1 p2 :
    gm_Phases g !! n1 = Some p1 → pc_Start p1 = true →
    gm_Phases g !! n2 = Some p2 → pc_Start p2 = true → n1 = n2;
  wd_next n p next :
    gm_Phases g !! n = Some p → pc_Next p = NextStatic next → next ≠ "" →
    is_Some (gm_Phases g !! next);
  wd_entries v : game_entry g v → ∃ m, asMove v = Ok m;
  wd_players : 0 < gm_MinPlayers g → 0 < gm_MaxPlayers g → gm_MinPlayers g ≤ gm_MaxPlayers g
}.

Lemma bad_names_nil (m : gmap string MoveEntry) :
  bad_names m = [] ↔ ∀ k v, m !! k = Some v → ∃ mv, asMove v = Ok mv.
Proof.
  unfold bad_names. rewrite fmap_nil_iff, filter_nil_iff. split.
  - intros H k v Hk%elem_of_map_to_list. specialize (H _ Hk). simpl in H.
    unfold bad_entry in H. destruct (asMove v); [by eexists|..]; by destruct H.
  - intros H [k v] Hk%elem_of_map_to_list. destruct (H k v Hk) as [mv Hmv]. simpl.
    unfold bad_entry. by rewrite Hmv.
Qed.

Lemma stage_problems_nil mk (stages : gmap string StageConfig) :
  stage_problems mk stages = [] ↔
  ∀ n sc k v, stages !! n = Some sc → sc_Moves sc !! k = Some v → ∃ mv, asMove v = Ok mv.
Proof.
  unfold stage_problems. rewrite bind_nil_iff. split.
  - intros H n sc k v Hn%elem_of_map_to_list Hk. specialize (H _ Hn). simpl in H.
    rewrite fmap_nil_iff, bad_names_nil in H. by eapply H.
  - intros H [n sc] Hn%elem_of_map_to_list. simpl. rewrite fmap_nil_iff, bad_names_nil. eauto.
Qed.

Lemma start_names_unique g :
  (length (start_names g) ≤ 1)%nat ↔
  ∀ n1 n2 p1 p2, gm_Phases g !! n1 = Some p1 → pc_Start p1 = true →
    gm_Phases g !! n2 = Some p2 → pc_Start p2 = true → n1 = n2.
Proof.
  assert (Hin : ∀ n, n ∈ start_names g ↔
    ∃ p, gm_Phases g !! n = Some p ∧ pc_Start p = true).
  { intros n. unfold start_names. rewrite list_elem_of_fmap. split.
    - intros ([n' p] & -> & [Hs Hp]%list_elem_of_filter).
      apply elem_of_map_to_list in Hp. by exists p.
    - intros (p & Hp%elem_of_map_to_list & Hs). exists (n, p). split; [done|].
      by apply list_elem_of_filter. }
  split.
  - intros Hl n1 n2 p1 p2 H1 S1 H2 S2. eapply length_le_1_eq; [exact Hl|..]; apply Hin; eauto.
  - intros H. apply NoDup_all_eq.
    + unfold start_names. eapply sublist_NoDup; [apply (NoDup_fst_map_to_list (gm_Phases g))|].
      apply fmap_sublist, sublist_filter.
    + intros x y (p1 & ? & ?)%Hin (p2 & ? & ?)%Hin. eauto.
Qed.

Lemma next_problem_nil g n p :
  next_problem g n p = [] ↔
  ∀ next, pc_Next p = NextStatic next → next ≠ "" → is_Some (gm_Phases g !! next).
Proof.
  unfold next_problem. destruct (pc_Next p) as [|s| |]; try (split; naive_solver).
  case_decide as Hd; split; try done.
  - intros H. destruct Hd as [Hne Hn]. destruct (H s eq_refl Hne). congruence.
  - intros _ next [= <-] Hne. destruct (gm_Phases g !! s) eqn:Hs; [by eexists|]. by destruct Hd.
Qed.

Lemma entries_nil g :
  (bad_names (gm_Moves g) = [] ∧
   (∀ n p, gm_Phases g !! n = Some p → phase_problems n p = []) ∧
   match gm_Turn g with Some t => stage_problems BadStageMove (tc_Stages t) | None => [] end = [])
  ↔ ∀ v, game_entry g v → ∃ m, asMove v = Ok m.
Proof.
  assert (Hphase : ∀ n p, phase_problems n p = [] ↔
    bad_names (default ∅ (pc_Moves p)) = [] ∧
    ∀ t, pc_Turn p = Some t → stage_problems (BadPhaseStageMove n) (tc_Stages t) = []).
  { intros n p. unfold phase_problems. rewrite app_nil, fmap_nil_iff.
    destruct (pc_Turn p); naive_solver. }
  split.
  - intros (Hm & Hp & Ht) v [(n & Hn)|[(n & p & ms & k & Hn & Hms & Hk)|
      (sc & k & (t & n & [Hg|(ph & p & Hph & Hpt)] & Hs) & Hk)]].
    + by eapply bad_names_nil in Hm.
    + apply Hp, Hphase in Hn as [Hn _]. rewrite Hms in Hn. by eapply bad_names_nil in Hn.
    + rewrite Hg in Ht. by eapply stage_problems_nil in Ht.
    + apply Hp, Hphase in Hph as [_ Hph]. apply Hph in Hpt. by eapply stage_problems_nil in Hpt.
  - intros H. split_and!.
    + apply bad_names_nil. intros k v Hk. apply H. left. eauto.
    + intros n p Hn. apply Hphase. split.
      * apply bad_names_nil. intros k v Hk. apply H. right; left.
        destruct (pc_Moves p) as [ms|] eqn:Hms; simpl in Hk; [|by apply lookup_empty_Some in Hk].
        eauto 10.
      * intros t Ht. apply stage_problems_nil. intros k sc mn v Hk Hv. apply H.
        right; right. exists sc, mn. split; [|done]. exists t, k. split; [|done]. right. eauto.
    + destruct (gm_Turn g) as [t|] eqn:Ht; [|done]. apply stage_problems_nil.
      intros k sc mn v Hk Hv. apply H. right; right. exists sc, mn. split; [|done].
      exists t, k. split; [|done]. by left.
Qed.

Lemma Validate_nil_iff g : Validate g = [] ↔ well_defined g.
Proof.
  unfold Validate. rewrite !app_nil, fmap_nil_iff.
  assert (HS : match gm_Setup g with None => [SetupNil] | Some _ => [] end = []
               ↔ is_Some (gm_Setup g)).
  { destruct (gm_Setup g); split; try done. }
  assert (Hd : ∀ (P : Prop) `{Decision P} (x : problem),
    (if decide P then [x] else []) = [] ↔ ¬ P).
  { intros P HP x. case_decide; split; done. }
  rewrite HS, !Hd, !bind_nil_iff.
  assert (HN : (∀ x, x ∈ map_to_list (gm_Phases g) →
      (let '(n, p) := x in next_problem g n p) = []) ↔
    ∀ n p, gm_Phases g !! n = Some p → next_problem g n p = []).
  { split; [intros H n p Hn%elem_of_map_to_list; by apply (H (n, p))|].
    intros H [n p] Hn%elem_of_map_to_list. by apply H. }
  assert (HP : (∀ x, x ∈ map_to_list (gm_Phases g) →
      (let '(n, p) := x in phase_problems n p) = []) ↔
    ∀ n p, gm_Phases g !! n = Some p → phase_problems n p = []).
  { split; [intros H n p Hn%elem_of_map_to_list; by apply (H (n, p))|].
    intros H [n p] Hn%elem_of_map_to_list. by apply H. }
  rewrite HN, HP. setoid_rewrite next_problem_nil.
  split.
  - intros (Hs & Hl & Hn & Hm & Hp & Ht & Hmm). split; try done.
    + apply start_names_unique. lia.
    + eauto.
    + apply entries_nil. done.
    + lia.
  - intros [Hs Hu Hn He Hmm]. apply start_names_unique in Hu. apply entries_nil in He.
    split_and!; try done; try lia; try apply He. eauto.
Qed.

(** C15: Validate reports no problem exactly for the well-defined games: a Setup
    function, at most one start phase, every static Next an existing phase, every
    entry of every move table (the game's, the phases', the stages') a move, and
    MinPlayers not above MaxPlayers. *)
Theorem Validate_iff_well_defined g : Validate g = [] ↔ well_defined g.
Proof. apply Validate_nil_iff. Qed.
End validate.

(** ** Typed games *)
Section typed.
Context {T : GoTypes} {St SD : Type}.
Context (val_of : St → val) (as_St : val → option St) (as_SD : val → option SD) (zero_SD : SD).
Abbreviation Built := (Build val_of as_St as_SD zero_SD).
Implicit Types (g : TGame (St:=St) (SD:=SD)).

(** No value of another form stands where the typed forms are meant. *)
Definition typed_table (moves : gmap string (TMoveEntry (St:=St))) : Prop := ∀ k e, moves !! k ≠ Some (TEntryRaw e).
Record typed_turn (t : TTurnConfig (St:=St)) : Prop :=
  { tyt_stages n st : tt_Stages t !! n = Some st → typed_table (ts_Moves st) }.
Record fully_typed g : Prop := {
  ty_moves : typed_table (tg_Moves g);
  ty_turn t : tg_Turn g = Some t → typed_turn t;
  ty_phase_moves n p ms : tg_Phases g !! n = Some p → tp_Moves p = Some ms → typed_table ms;
  ty_phase_turn n p t : tg_Phases g !! n = Some p → tp_Turn p = Some t → typed_turn t;
  ty_next n p x : tg_Phases g !! n = Some p → tp_Next p ≠ TNextRaw x
}.

Lemma typed_is_move moves k v : typed_table moves → convertMoves val_of as_St moves !! k = Some v → ∃ m, asMove v = Ok m.
Proof.
  intros Ht. unfold convertMoves. rewrite lookup_fmap. destruct (moves !! k) as [e|] eqn:He; [|done]. intros [= <-].
  destruct e as [m|f|e]; [by eexists|by eexists|]. by destruct (Ht k e).
Qed.

Lemma typed_stage_is_move t n st k v : typed_turn t → tc_Stages (convertTurn val_of as_St t) !! n = Some st →
  sc_Moves st !! k = Some v → ∃ m, asMove v = Ok m.
Proof.
  intros Ht. simpl. rewrite lookup_fmap. destruct (tt_Stages t !! n) as [ts|] eqn:Hs; [|done]. intros [= <-].
  by apply typed_is_move, (tyt_stages _ Ht n).
Qed.

Lemma typed_entries g v : fully_typed g → game_entry (Built g) v → ∃ m, asMove v = Ok m.
Proof.
  intros Hg [(n & Hn)|[(n & p & ms & k & Hn & Hms & Hk)|(sc & k & (t & n & Ht & Hs) & Hk)]].
  - eapply typed_is_move; [|exact Hn]. by apply ty_moves.
  - simpl in Hn. rewrite lookup_fmap in Hn. destruct (tg_Phases g !! n) as [tp|] eqn:Htp; [|done]. injection Hn as <-.
    simpl in Hms. destruct (tp_Moves tp) as [tms|] eqn:Hm; [|done]. injection Hms as <-.
    eapply typed_is_move; [|exact Hk]. by eapply ty_phase_moves.
  - destruct Ht as [Ht|(ph & p & Hp & Ht)].
    + simpl in Ht. destruct (tg_Turn g) as [tt|] eqn:Htt; [|done]. injection Ht as <-.
      eapply typed_stage_is_move; [|exact Hs|exact Hk]. by apply (ty_turn g Hg).
    + simpl in Hp. rewrite lookup_fmap in Hp. destruct (tg_Phases g !! ph) as [tp|] eqn:Htp; [|done]. injection Hp as <-.
      simpl in Ht. destruct (tp_Turn tp) as [tt|] eqn:Htt; [|done]. injection Ht as <-.
      eapply typed_stage_is_move; [|exact Hs|exact Hk]. by eapply (ty_phase_turn g Hg).
Qed.

(** A game of typed code passes the engine's check exactly when it has a setup, one start at
    most, names phases that are there, and the players' bounds in order: its tables never
    hold anything but moves. *)
Theorem typed_games_validate g : fully_typed g → Validate (Built g) = [] ↔
  is_Some (tg_Setup g) ∧
  (∀ n1 n2 p1 p2, tg_Phases g !! n1 = Some p1 → tp_Start p1 = true → tg_Phases g !! n2 = Some p2 → tp_Start p2 = true → n1 = n2) ∧
  (∀ n p next, tg_Phases g !! n = Some p → tp_Next p = TNextStatic next → next ≠ "" → is_Some (tg_Phases g !! next)) ∧
  (0 < tg_MinPlayers g → 0 < tg_MaxPlayers g → tg_MinPlayers g ≤ tg_MaxPlayers g).
Proof.
  intros Hg. rewrite Validate_nil_iff. assert (Hph : ∀ n p, tg_Phases g !! n = Some p →
    gm_Phases (Built g) !! n = Some (convertPhase val_of as_St p)) by (intros n p Hn; simpl; by rewrite lookup_fmap, Hn).
  assert (Hback : ∀ n q, gm_Phases (Built g) !! n = Some q → ∃ p, tg_Phases g !! n = Some p ∧ q = convertPhase val_of as_St p).
  { intros n q. simpl. rewrite lookup_fmap. destruct (tg_Phases g !! n) as [p|]; [|done]. intros [= <-]. by exists p. }
  split.
  - intros [Hs Hu Hn _ Hmm]. split_and!; try done.
    + simpl in Hs. destruct (tg_Setup g); [done|by destruct Hs].
    + intros n1 n2 p1 p2 H1 Hs1 H2 Hs2. eapply Hu; [by apply Hph| |by apply Hph|]; done.
    + intros n p next Hp Hnx Hne. destruct (Hn n _ next (Hph _ _ Hp)) as [q Hq]; [by simpl; rewrite Hnx|done|].
      destruct (Hback _ _ Hq) as (? & ? & _). by eexists.
  - intros (Hs & Hu & Hn & Hmm). split; [|..].
    + simpl. destruct (tg_Setup g); [by eexists|by destruct Hs].
    + intros n1 n2 p1 p2 H1 Hs1 H2 Hs2. apply Hback in H1 as (q1 & H1 & ->), H2 as (q2 & H2 & ->). by eapply Hu.
    + intros n p next Hp Hnx Hne. apply Hback in Hp as (q & Hp & ->). simpl in Hnx.
      destruct (tp_Next q) as [|x|f|x] eqn:Hq; [done| |done|by destruct (ty_next g Hg n q x)]. injection Hnx as ->.
      destruct (Hn n q next Hp Hq Hne) as [q' Hq']. eexists. by apply Hph.
    + intros v Hv. by apply (typed_entries g).
    + done.
Qed.

Lemma run_prog_bind {A B} c (f : A → prog B) (p : prog A) extra e :
  run c (prog_bind f p) extra e = match run c p extra e with
                                  | (Ok (a, extra), e) => run c (f a) extra e
                                  | (Err x, e) => (Err x, e)
                                  | (Panicked, e) => (Panicked, e)
                                  | (NoFuel, e) => (NoFuel, e)
                                  end.
Proof.
  revert extra e. induction p as [a| |ev k IH|a k IH|b k IH|t pid k IH|k IH|pid k IH|le k IH|k IH|w k IH]; intros extra e; cbn [run prog_bind]; try done.
  - by destruct (env_events e).
  - by destruct (env_queue e).
  - by destruct (env_queue e).
  - destruct (env_queue e) as [q|]; [|done]. by destruct (Queue_Unblock t pid q).
  - by destruct (env_queue e).
Qed.

(** What typed game code returns is of its type, so that the assertion on the next call of
    it succeeds. *)
Theorem typed_code_keeps_the_type (Hlaw : ∀ s, as_St (val_of s) = Some s) c mc args extra e f G extra' e' :
  run c (wrapMoveFn val_of as_St f mc args) extra e = (Ok (inr G, extra'), e') →
  is_Some (toTyped as_St mc) ∧ ∀ mc', mc_G mc' = G → is_Some (toTyped as_St mc').
Proof.
  unfold wrapMoveFn. intros H. unfold mbind, prog_mbind in H. rewrite run_prog_bind in H. unfold on_typed in H.
  destruct (toTyped as_St mc) as [t|] eqn:Ht; [|done]. split; [by eexists|]. intros mc' Hmc.
  destruct (run _ _ _ _) as [[[r x]|err| |] e1]; [|done..].
  cbn [run] in H. destruct r as [err|s]; [done|]. injection H as <- _ _. unfold toTyped. rewrite Hmc. simpl. rewrite Hlaw. by eexists.
Qed.

(** A typed move without a function is a move to the engine's check, and panics when it is
    played; the engine's own Move without one is reported. *)
Theorem empty_typed_moves_pass name undoable redact so lim stale c mc args extra e :
  asMove (EntryMove (mkMove None FlagNil FlagNil so lim stale 0 false false)) = Err ErrBadMoveEntry ∧
  ∃ m fn, asMove (convertMoveValue val_of as_St (TEntryMove (mkTMove None undoable redact so lim stale))) = Ok m ∧
    mv_Move m = Some fn ∧ (run c (fn mc args) extra e).1 = Panicked ∧
    bad_names {[ name := convertMoveValue val_of as_St (TEntryMove (mkTMove None undoable redact so lim stale)) ]} = [].
Proof.
  split; [done|]. eexists _, _. split; [reflexivity|]. split; [reflexivity|]. split.
  - unfold wrapMoveFn, on_typed, mbind, prog_mbind. by destruct (toTyped as_St mc).
  - apply bad_names_nil. intros k v [_ <-]%lookup_singleton_Some. by eexists.
Qed.
End typed.

(** ** Player counts *)
Section players.
Context {T : GoTypes}.

(** C20: The number of players of a match respects the game's bounds when they make
    sense, is the requested one when that lies within them, and is never below
    one, whatever a caller asks for. *)
Theorem PlayerCount_in_bounds (g : Game) (requested : Z) :
  0 ≤ gm_MinPlayers g → (0 < gm_MaxPlayers g → gm_MinPlayers g ≤ gm_MaxPlayers g) →
  let n := PlayerCount g requested in
  1 ≤ n ∧ gm_MinPlayers g ≤ n ∧ (0 < gm_MaxPlayers g → n ≤ gm_MaxPlayers g) ∧
  (0 < requested → gm_MinPlayers g ≤ requested →
   (0 < gm_MaxPlayers g → requested ≤ gm_MaxPlayers g) → n = requested).
Proof.
  intros Hmin Hmax. cbv zeta. unfold PlayerCount. cbv zeta.
  repeat case_decide; split_and!; intros; lia.
Qed.
End players.

(** ** On the example game *)

Definition inc_result : State :=
  match (Apply fuel0 counter (state_after []) (req "0" "inc") 0).1 with
  | Ok (s, _) => s
  | _ => state_after []
  end.

Definition inc_entry : LogEntry :=
  move_entry (on_ctx (set_ctx_NowMs 5) (state_after [])) (req "0" "inc") false true.

Lemma undo_restores_witness :
  ∃ answered kept popped, resumes (req "0" "inc") (st_Blocks (state_after [])) answered kept ∧
    last [inc_entry] = Some popped ∧
    let restored := set_st_Log (st_Log (state_after []) ++ removelast [inc_entry])
      (set_st_Undone [popped] (set_st_TurnSnapshots []
        (set_st_Blocks kept (on_ctx (set_ctx_NowMs 5) (state_after []))))) in
    (gm_OnUndo counter = None → Undo counter inc_result 0 = (Ok (restored, None), 0)) ∧
    (∀ h g, gm_OnUndo counter = Some h →
      (∀ mc, mc_G mc = st_G (state_after []) → h mc = Ret g) →
      Undo counter inc_result 0 = (Ok (set_st_G g restored, None), 0)) ∧
    CanUndo counter restored = false.
Proof.
  apply (undo_restores fuel0 counter (state_after []) (req "0" "inc") 0 inc_result 0 inc_entry []);
    vm_compute; reflexivity.
Defined.

(** Player 0 passes, player 1 casts, which leaves a prompt to player 1 themselves, and the
    turn of player 1 is ended for them. *)
Definition prompted : State := state_after [req "0" "pass"; req "1" "cast"].

Definition forced : State :=
  match (ForceEndTurnE fuel0 counter prompted 0).1 with
  | Ok (s, _) => s
  | _ => state_after []
  end.

Lemma ForceEndTurn_bookkeeping_witness :
  (length (st_Blocks prompted) = 1%nat ∧ ctx_CurrentPlayer (st_Ctx prompted) = "1" ∧
   st_Blocks forced = []) ∧
  st_StateID forced = st_StateID prompted + 1 ∧
  ctx_Seed (st_Ctx forced) = ctx_Seed (st_Ctx prompted) ∧
  (∃ new, st_Log forced = st_Log prompted ++ new) ∧
  ∃ names raised,
    st_Blocks forced = filter (λ b, b_PlayerID b ≠ ctx_CurrentPlayer (st_Ctx prompted) ∧
                                    b_PlayerID b ∉ names) (st_Blocks prompted) ++ raised ∧
    (∀ P, code_uses (drops_only P) counter → Forall P names) ∧
    ∀ pid h, scopeTurn counter (ctx_Phase (st_Ctx prompted)) ≫= tc_OnEnd = Some h →
      (∀ mc, must_drop pid (applyFnWrapHook counter h GameMethodTurnOnEnd mc)) → pid ∈ names.
Proof.
  split; [vm_compute; by split_and!|].
  apply (ForceEndTurn_bookkeeping fuel0 counter prompted 0 forced 0).
  vm_compute. reflexivity.
Defined.

(** The example game with the stock block view and a plugin that shows the size of its
    data only, and two states that differ in what seat 0 must not see. *)
Definition bag : Plugin := mkPlugin "bag" None None None None
  (Some (λ data _ _ _ _, (λ _ : Z, 1) <$> data)) None None.

Definition masked : Game := mkGame "counter" 2 2 None moves None ∅
  None None None None (Some HideBlockPayload) false [bag].

Definition hidden (seed payload arg : Z) : State :=
  set_st_Plugins (Some {["bag" := Some payload; "stray" := Some arg]})
    (set_st_Blocks [mkBlock "prompt" "1" "" 0 (Some payload) None None]
      (set_st_Log [mkLog "move" "admin" "1" [Some arg] 0 1 "" "" true false (-1) "" false]
        (blank_state (Some 0) (initial_ctx masked 2 "0" seed)))).

Lemma PlayerView_hides_witness :
  wire (PlayerView masked (hidden 42 1 2) "0" 0) = wire (PlayerView masked (hidden 99 3 4) "0" 0).
Proof.
  apply (PlayerView_hides masked (hidden 42 1 2) (hidden 99 3 4) "0" 0 0); try reflexivity.
  - done.
  - split; intros _; by eexists.
  - intros p ->%list_elem_of_singleton. vm_compute. reflexivity.
  - by exists 42.
  - constructor; [|constructor]. right. split; [done|]. split; [done|]. by exists [Some 4].
  - constructor.
  - constructor; [|constructor]. right. by split_and!.
Defined.

Lemma PlayerCount_in_bounds_witness :
  let n := PlayerCount counter 7 in
  1 ≤ n ∧ 2 ≤ n ∧ (0 < gm_MaxPlayers counter → n ≤ gm_MaxPlayers counter) ∧
  (0 < 7 → gm_MinPlayers counter ≤ 7 → (0 < gm_MaxPlayers counter → 7 ≤ gm_MaxPlayers counter) →
   n = 7).
Proof. apply (PlayerCount_in_bounds counter 7); simpl; lia. Defined.
