(* ===== verification/OneMove.v ===== *)
(** * Games of one move a turn

    What a request does in a game that, like the small ones in [src/games/], has one
    move, takes exactly one of it per turn, and talks to the engine through results
    only: the whole pipeline of the reducer, computed once. *)

From S2P Require Import Prelude CoreTypes Api GameDef Plugins Transitions Reducer Session.
#[local] Open Scope Z_scope.

Section one_move.
Context {T : GoTypes}.

(** A computation that touches the memory only. *)
Definition memory_only {A} (p : prog A) (f : world → outcome error A * world) : Prop :=
  ∀ c e extra, run c p extra e =
    (match (f (env_world e)).1 with
     | Ok a => Ok (a, extra)
     | Err x => Err x
     | Panicked => Panicked
     | NoFuel => NoFuel
     end, set_env_world (f (env_world e)).2 e).

Lemma ret_memory {A} (a : A) : memory_only (Ret a) (λ w, (Ok a, w)).
Proof. intros c e extra. by destruct e. Qed.

(** One move, called [name], one per turn, an order that says who is next and an
    EndIf; no hooks, phases, stages or plugins. *)
Record one_move (game : Game) (name : string) (fn : MoveFn)
    (next : MoveContext → prog (option Z)) (endif : MoveContext → prog any) : Prop := {
  om_moves : gm_Moves game !! name = Some (EntryFn fn);
  om_turn : ∃ order, gm_Turn game = Some (mkTurn order None None None None 1 1 0 None ∅) ∧
    to_Next (effective_order (gm_Turn game)) = Some next;
  om_phases : gm_Phases game = ∅;
  om_endif : gm_EndIf game = Some endif;
  om_onend : gm_OnEnd game = None;
  om_undo : gm_DisableUndo game = false;
  om_plugins : gm_Plugins game = []
}.

(** A match between two moves. *)
Definition idle (G : any) (c : Ctx) (id : Z) (log : list LogEntry) : State :=
  mkState G c id None log [] [] [] [] [] None None None None.

Record waiting (c : Ctx) : Prop := {
  wt_phase : ctx_Phase c = "";
  wt_active : ctx_ActivePlayers c = None;
  wt_over : ctx_Gameover c = None;
  wt_moves : ctx_NumMoves c = 0
}.

Definition player_mc (G : any) (c : Ctx) (player : string) : MoveContext :=
  mkMC G c player None (Some ctxBackground) None true None [] 0.
Definition hook_mc (G : any) (c : Ctx) (player : string) (wired : bool) : MoveContext :=
  mkMC G c player None None None wired None [] 0.

Definition a_move (name player : string) (args : list any) (now : Z) (client : bool) : MoveRequest :=
  mkReq player name args 0 "" now false client.

Definition entry_of (name : string) (c : Ctx) (args : list any) (now : Z) : LogEntry :=
  mkLog "move" name (ctx_CurrentPlayer c) args now (ctx_Turn c) "" "" false true (-1) "" false.

Context (game : Game) (name : string) (fn : MoveFn) (next : MoveContext → prog (option Z))
  (endif : MoveContext → prog any) (Hgame : one_move game name fn next endif).
Implicit Types (G : any) (c : Ctx) (id : Z) (log : list LogEntry).

Lemma one_move_admitted G c id log args now client : waiting c →
  admit_request game (idle G c id log) (a_move name (ctx_CurrentPlayer c) args now client) =
  Ok (mkAdmission (idle G (set_ctx_NowMs now c) id log) (bareMove fn) None).
Proof.
  intros [Hp Ha Ho Hm]. destruct Hgame as [H1 H2 H3 H4 H5 H6 H7].
  destruct c as [np cur po pos turn ph act go nm nowc seed]. simpl in *. subst.
  unfold admit_request, admit_checks, consume_block, authorizedStage, resolveMove, scopeMoves. simpl.
  rewrite (decide_True (P := cur = cur)) by done. simpl. rewrite H1. by destruct client.
Qed.

(** The state right after the move itself. *)
Definition moved_to (name : string) (args : list any) (now : Z) G G' c id log : State :=
  mkState G' (set_ctx_NowMs now c) (id + 1) None
    (log ++ [entry_of name c args now]) []
    [idle G (set_ctx_NowMs now c) id log] [] [] [] None None None None.

Lemma one_move_run G c id log args now client w fnw ev q d pl : waiting c →
  let c' := set_ctx_NowMs now c in
  let mc := player_mc G c' (ctx_CurrentPlayer c) in
  memory_only (fn mc args) fnw →
  run_move game (mkAdmission (idle G c' id log) (bareMove fn) None)
    (a_move name (ctx_CurrentPlayer c) args now client) mc (mkEnv ev q d pl w) =
  (match (fnw w).1 with
   | Ok (inr G') => Ok (moved_to name args now G G' c id log, set_mc_G G' mc)
   | Ok (inl e) => Err e
   | Err e => Err e
   | Panicked => Panicked
   | NoFuel => NoFuel
   end, mkEnv ev q d pl (fnw w).2).
Proof.
  intros [Hp Ha Ho Hm] c' mc Hfn. destruct Hgame as [H1 H2 H3 H4 H5 H6 H7].
  destruct c as [np cur po pos turn ph act go nm nowc seed]. simpl in *. subst.
  unfold run_move, IsUndoable, IsRedacted, call_flag. rewrite bind_eq. simpl. rewrite bind_eq. simpl.
  rewrite bind_eq. simpl. rewrite bind_eq. unfold call. simpl.
  assert (applyFnWrapMove game fn = fn) as -> by (unfold applyFnWrapMove; by rewrite H7).
  fold c'. change (mkMC G _ cur None (Some ctxBackground) None true None [] 0) with mc.
  rewrite Hfn. simpl. destruct (fnw w) as [[[e|G']|e| |] w']; try done. simpl.
  rewrite H6. simpl. unfold flushPluginsM, validatePluginsM, flushPlugins, validatePlugins.
  rewrite bind_eq, H7. simpl. rewrite bind_eq. simpl. done.
Qed.

(** The context after the move, counted; and the one a turn later. *)
Definition counted (now : Z) c : Ctx := set_ctx_NumMoves 1 (set_ctx_NowMs now c).

Definition next_turn (now pos : Z) (p : string) c : Ctx :=
  set_ctx_Turn (ctx_Turn c + 1) (set_ctx_CurrentPlayer p (set_ctx_PlayOrderPos pos (set_ctx_NowMs now c))).

Definition wrapped (order : list string) (n : Z) : Z :=
  let len := Z.of_nat (length order) in if decide (len ≤ n) then Z.rem n len else n.

Definition fresh_env (w : world) : hookEnv := mkEnv (Some []) (Some (mkQueue [] [])) (Some []) None w.

Lemma drain_nothing fuel (s : State) mc w :
  drainEvents (S fuel) game s mc (fresh_env w) = (Ok (s, mc), fresh_env w).
Proof. done. Qed.

Lemma call_memory {A} (p : prog A) f mc w : memory_only p f → mc_Wired mc = true → mc_extra mc = [] →
  call mc p (fresh_env w) =
  (match (f w).1 with
   | Ok a => Ok (a, mc)
   | Err x => Err x
   | Panicked => Panicked
   | NoFuel => NoFuel
   end, fresh_env (f w).2).
Proof.
  intros Hp Hw Hx. unfold call. rewrite Hw, Hp, Hx. simpl. destruct (f w) as [[a|e| |] w']; try done. simpl.
  destruct mc. simpl in *. by subst.
Qed.

Lemma call_detached {A} (p : prog A) f mc w : memory_only p f → mc_Wired mc = false → mc_extra mc = [] →
  call mc p (fresh_env w) =
  (match (f w).1 with
   | Ok a => Ok (a, mc)
   | Err x => Err x
   | Panicked => Panicked
   | NoFuel => NoFuel
   end, fresh_env (f w).2).
Proof.
  intros Hp Hw Hx. unfold call. rewrite Hw, Hp, Hx. simpl. destruct (f w) as [[a|e| |] w']; try done. simpl.
  destruct mc. simpl in *. by subst.
Qed.

(** The bookkeeping of the move: no event, no stage, one move more. *)
Lemma one_move_after G G' c id log args now client w mc : waiting c →
  after_move game (bareMove fn) (a_move name (ctx_CurrentPlayer c) args now client)
    (moved_to name args now G G' c id log) mc (fresh_env w) =
  (Ok (on_ctx (λ _, counted now c) (moved_to name args now G G' c id log), mc), fresh_env w).
Proof.
  intros [Hp Ha Ho Hm]. destruct Hgame as [H1 (order & H2 & H2') H3 H4 H5 H6 H7].
  destruct c as [np cur po pos turn ph act go nm nowc seed]. simpl in *. subst.
  unfold after_move, scopeTurn, phase_turn. rewrite bind_eq. simpl. rewrite H2. simpl. done.
Qed.

Lemma seat_player (s : State) p e :
  go_index (ctx_PlayOrder (st_Ctx s)) (ctx_PlayOrderPos (st_Ctx s)) = Some p →
  set_current_from_pos s e = (Ok (on_ctx (set_ctx_CurrentPlayer p) s), e).
Proof. intros H. unfold set_current_from_pos. cbv zeta. by rewrite bind_eq, H. Qed.

Lemma one_move_advance (s : State) f turn w nw n p w' : to_Next (effective_order turn) = Some next →
  memory_only (next (hook_mc (st_G s) (st_Ctx s) "" false)) nw → nw w = (Ok (Some n), w') →
  go_index (ctx_PlayOrder (st_Ctx s)) (wrapped (ctx_PlayOrder (st_Ctx s)) n) = Some p →
  advancePlayOrderPos f s turn (fresh_env w) =
  (Ok (on_ctx (set_ctx_CurrentPlayer p)
        (on_ctx (set_ctx_PlayOrderPos (wrapped (ctx_PlayOrder (st_Ctx s)) n)) s)), fresh_env w').
Proof.
  intros Hto Hnw Hn Hgo. unfold advancePlayOrderPos. cbv zeta.
  rewrite decide_False.
  2:{ intros Hnil. rewrite Hnil in Hgo. apply go_index_Some in Hgo as [Hgo _]. simpl in Hgo. lia. }
  rewrite bind_eq. unfold env_mcNoEvents at 1. cbv beta iota. rewrite Hto, bind_eq.
  change (attachPlugins _ _) with (hook_mc (st_G s) (st_Ctx s) "" false).
  rewrite (call_detached _ nw) by done. rewrite Hn. cbn [fst snd].
  by apply seat_player.
Qed.

Lemma one_move_scope : ∃ order, scopeTurn game "" = Some (mkTurn order None None None None 1 1 0 None ∅) ∧
  to_Next (effective_order (scopeTurn game "")) = Some next.
Proof.
  destruct Hgame as [_ (order & H2 & H2') _ _ _ _ _]. exists order. by unfold scopeTurn, phase_turn.
Qed.

Lemma one_move_begin (s : State) e : ctx_Phase (st_Ctx s) = "" →
  runTurnOnBegin game (applyActivePlayersFromTurn game s) e = (Ok s, e).
Proof.
  intros Hp. destruct one_move_scope as (order & Hs & _).
  unfold runTurnOnBegin, applyActivePlayersFromTurn. rewrite Hp, Hs. simpl. by rewrite Hp, Hs.
Qed.

(** A turn that ends by itself passes to the player the order names. *)
Lemma one_move_endTurn G c id log un sn w nw n p w' :
  ctx_Phase c = "" → ctx_ActivePlayers c = None → ctx_Gameover c = None →
  let c2 := set_ctx_NumMoves 0 c in let pos := wrapped (ctx_PlayOrder c) n in
  memory_only (next (hook_mc G c2 "" false)) nw → nw w = (Ok (Some n), w') →
  go_index (ctx_PlayOrder c) pos = Some p →
  endTurn game (mkState G c id None log un sn [] [] [] None None None None) "" (fresh_env w) =
  (Ok (idle G (set_ctx_Turn (ctx_Turn c + 1) (set_ctx_CurrentPlayer p (set_ctx_PlayOrderPos pos c2))) id log),
   fresh_env w').
Proof.
  intros Hp Ha Ho c2 pos Hnw Hn Hgo. destruct one_move_scope as (order & Hs & Hto).
  set (s := mkState G c id None log un sn [] [] [] None None None None).
  assert (Hs2 : clear_undo (clear_turn_scoped s) = idle G c2 id log).
  { destruct c. simpl in *. by subst. }
  unfold endTurn. change (st_Ctx s) with c. rewrite Hp, bind_eq, Hs.
  change (Some _ ≫= tc_OnEnd) with (@None HookFn). unfold fireHook at 1, mret at 1, ST_ret at 1, st_ret at 1.
  cbv beta iota zeta. rewrite decide_True by done. rewrite Hs2, bind_eq, <-Hs.
  rewrite (one_move_advance (idle G c2 id log) _ _ w nw n p w') by done.
  change (ctx_Gameover _) with (ctx_Gameover c). rewrite Ho. cbv beta iota. by rewrite one_move_begin.
Qed.

(** The second half of the pipeline, after the game's own code. *)
Lemma one_move_turn_over G' G c id log args now w nw n p w' : waiting c →
  let pos := wrapped (ctx_PlayOrder c) n in
  memory_only (next (hook_mc G' (set_ctx_NowMs now c) "" false)) nw → nw w = (Ok (Some n), w') →
  go_index (ctx_PlayOrder c) pos = Some p →
  checkTurnAutoEnd game (on_ctx (λ _, counted now c) (moved_to name args now G G' c id log)) (bareMove fn)
    (fresh_env w) =
  (Ok (idle G' (next_turn now pos p c) (id + 1) (log ++ [entry_of name c args now])), fresh_env w').
Proof.
  intros [Hp Ha Ho Hm] pos Hnw Hn Hgo. destruct one_move_scope as (order & Hs & Hto).
  unfold checkTurnAutoEnd. change (ctx_Phase _) with (ctx_Phase c). rewrite Hp, Hs.
  rewrite bind_eq. cbn [tc_EndIf tc_MaxMoves mv_NoLimit bareMove].
  unfold mret at 1, ST_ret at 1, st_ret at 1. cbv beta iota.
  change (ctx_NumMoves _) with 1. rewrite decide_True by (split_and!; done || lia).
  assert (Hc2 : set_ctx_NumMoves 0 (counted now c) = set_ctx_NowMs now c).
  { destruct c. simpl in *. by subst. }
  change (on_ctx _ _) with (mkState G' (counted now c) (id + 1) None (log ++ [entry_of name c args now]) []
    [idle G (set_ctx_NowMs now c) id log] [] [] [] None None None None).
  rewrite (one_move_endTurn G' (counted now c) _ _ _ _ w nw n p w') by (done || by rewrite Hc2).
  rewrite Hc2. done.
Qed.

(** The request up to the end of the game's own checks: what the pipeline leaves to
    the rest of the engine. *)
Definition after_state G G' c id log args now : State :=
  on_ctx (λ _, counted now c) (moved_to name args now G G' c id log).

Lemma one_move_pipeline fuel G c id log args now client w fnw G' w1 (r : outcome error State) w' : waiting c →
  let mc := player_mc G (set_ctx_NowMs now c) (ctx_CurrentPlayer c) in
  memory_only (fn mc args) fnw → fnw w = (Ok (inr G'), w1) →
  auto_ends game (bareMove fn) (a_move name (ctx_CurrentPlayer c) args now client)
    (after_state G G' c id log args now) (fresh_env w1) = (r, fresh_env w') →
  (∀ s, r = Ok s → st_Blocks s = [] ∧ st_Queue s = []) → (∀ s, r = Ok s → flushExtraLog s (set_mc_G G' mc) = s) →
  Apply (S fuel) game (idle G c id log) (a_move name (ctx_CurrentPlayer c) args now client) w =
  (match r with
   | Ok s => Ok (harvestQueue (set_st_Blocks [] s) (mkQueue [] []), None)
   | Err e => Ok (idle G c id log, Some e)
   | Panicked => Panicked
   | NoFuel => NoFuel
   end, w').
Proof.
  intros Hc mc Hfn Hf Ha Hq Hx. unfold Apply, ApplyContext. rewrite bind_eq.
  unfold st_try, applyExternal. rewrite bind_eq, one_move_admitted by done. unfold st_lift.
  cbv beta iota. rewrite bind_eq. unfold buildAPIs, buildPluginAPIs. rewrite (om_plugins _ _ _ _ _ Hgame).
  cbv beta iota. rewrite bind_eq. unfold in_env. unfold move_pipeline. rewrite bind_eq.
  change (move_mc _ _ _ _) with mc. cbn [ad_State ad_Move].
  rewrite (one_move_run G c id log args now client w fnw) by done. rewrite Hf. cbn [fst snd].
  fold (fresh_env w1). rewrite bind_eq, one_move_after by done. cbv beta iota.
  rewrite bind_eq, drain_nothing. cbv beta iota. rewrite bind_eq.
  change (on_ctx _ _) with (after_state G G' c id log args now). rewrite Ha.
  destruct r as [s|e| |]; [|done..]. cbv beta iota. rewrite bind_eq, drain_nothing. cbv beta iota.
  rewrite Hx by done. unfold mret at 1, ST_ret at 1, st_ret at 1. cbv beta iota.
  destruct (Hq s eq_refl) as [Hb Hqu]. change (queue_of (fresh_env w')) with (mkQueue [] []).
  change (drops_of (fresh_env w')) with (@nil string). rewrite Hb. cbn [withoutBlocksFor].
  change (withoutBlocksFor [] []) with (@nil BlockSpec). rewrite bind_eq. unfold drainCascade.
  destruct s. simpl in *. subst. done.
Qed.

Lemma flush_nothing (s : State) mc : mc_extra mc = [] → flushExtraLog s mc = s.
Proof. intros Hx. unfold flushExtraLog. rewrite Hx, app_nil_r. by destruct s. Qed.

(** Game.EndIf, consulted after the move. *)
Lemma one_move_endif G G' c id log args now client w ew res w' : waiting c →
  memory_only (endif (hook_mc G' (counted now c) (ctx_CurrentPlayer c) true)) ew → ew w = (Ok res, w') →
  check_game_end game (a_move name (ctx_CurrentPlayer c) args now client) (after_state G G' c id log args now) (fresh_env w) =
  (Ok (match res with
       | None => after_state G G' c id log args now
       | Some _ => on_ctx (set_ctx_Gameover res) (after_state G G' c id log args now)
       end), fresh_env w').
Proof.
  intros [Hp Ha Ho Hm] He Hew. unfold check_game_end. rewrite (om_endif _ _ _ _ _ Hgame).
  unfold not_over. change (ctx_Gameover _) with (ctx_Gameover c). rewrite Ho, bind_eq. unfold env_mc.
  cbv beta iota. rewrite bind_eq.
  change (attachPlugins _ _) with (hook_mc G' (counted now c) (ctx_CurrentPlayer c) true).
  rewrite (call_memory _ ew) by done. rewrite Hew. cbn [fst snd]. destruct res; [|done].
  unfold runGameOnEnd. by rewrite (om_onend _ _ _ _ _ Hgame).
Qed.

(** A move that is made and does not end the game passes the turn. *)
Lemma one_move_continues fuel G c id log args now client w fnw G' w1 ew w2 nw n p w3 : waiting c →
  let pos := wrapped (ctx_PlayOrder c) n in
  memory_only (fn (player_mc G (set_ctx_NowMs now c) (ctx_CurrentPlayer c)) args) fnw →
  fnw w = (Ok (inr G'), w1) →
  memory_only (endif (hook_mc G' (counted now c) (ctx_CurrentPlayer c) true)) ew → ew w1 = (Ok None, w2) →
  memory_only (next (hook_mc G' (set_ctx_NowMs now c) "" false)) nw → nw w2 = (Ok (Some n), w3) →
  go_index (ctx_PlayOrder c) pos = Some p →
  Apply (S fuel) game (idle G c id log) (a_move name (ctx_CurrentPlayer c) args now client) w =
  (Ok (idle G' (next_turn now pos p c) (id + 1) (log ++ [entry_of name c args now]), None), w3).
Proof.
  intros Hc pos Hfn Hf He Hew Hn Hnw Hgo. pose proof Hc as [Hp Ha Ho Hm].
  rewrite (one_move_pipeline fuel G c id log args now client w fnw G' w1
    (Ok (idle G' (next_turn now pos p c) (id + 1) (log ++ [entry_of name c args now]))) w3);
    try done.
  - unfold auto_ends. rewrite bind_eq, (one_move_endif G G' c id log args now client w1 ew None w2) by done.
    cbv beta iota. rewrite bind_eq. unfold unless_over, not_over.
    change (ctx_Gameover (st_Ctx (after_state G G' c id log args now))) with (ctx_Gameover c). rewrite Ho.
    unfold checkPhaseEndIf. change (ctx_Phase (st_Ctx (after_state G G' c id log args now))) with (ctx_Phase c).
    rewrite Hp. cbn [decide]. rewrite decide_True by done. unfold mret at 1, ST_ret at 1, st_ret at 1. cbv beta iota.
    rewrite bind_eq. change (ctx_Gameover (st_Ctx (after_state G G' c id log args now))) with (ctx_Gameover c).
    rewrite Ho. unfold mret at 1, ST_ret at 1, st_ret at 1. cbv beta iota.
    assert (autoEndStagesByMaxMoves (after_state G G' c id log args now) = after_state G G' c id log args now) as ->.
    { unfold autoEndStagesByMaxMoves.
      change (ctx_ActivePlayers (st_Ctx (after_state G G' c id log args now))) with (ctx_ActivePlayers c).
      by rewrite Ha. }
    change (ctx_Gameover (st_Ctx (after_state G G' c id log args now))) with (ctx_Gameover c). rewrite Ho.
    by apply (one_move_turn_over G' G c id log args now w2 nw n p w3).
  - by intros s [= <-].
  - intros s _. by apply flush_nothing.
Qed.

(** A move that ends the game stops there: nothing changes any more. *)
Lemma one_move_ends fuel G c id log args now client w fnw G' w1 ew res w2 : waiting c →
  memory_only (fn (player_mc G (set_ctx_NowMs now c) (ctx_CurrentPlayer c)) args) fnw →
  fnw w = (Ok (inr G'), w1) →
  memory_only (endif (hook_mc G' (counted now c) (ctx_CurrentPlayer c) true)) ew → ew w1 = (Ok (Some res), w2) →
  Apply (S fuel) game (idle G c id log) (a_move name (ctx_CurrentPlayer c) args now client) w =
  (Ok (on_ctx (set_ctx_Gameover (Some res)) (after_state G G' c id log args now), None), w2).
Proof.
  intros Hc Hfn Hf He Hew. pose proof Hc as [Hp Ha Ho Hm].
  rewrite (one_move_pipeline fuel G c id log args now client w fnw G' w1
    (Ok (on_ctx (set_ctx_Gameover (Some res)) (after_state G G' c id log args now))) w2);
    try done.
  - unfold auto_ends. rewrite bind_eq, (one_move_endif G G' c id log args now client w1 ew (Some res) w2) by done.
    done.
  - by intros s [= <-].
  - intros s _. by apply flush_nothing.
Qed.

(** A move the game refuses changes nothing but what it did to the memory. *)
Lemma one_move_refused fuel G c id log args now client w fnw e w1 : waiting c →
  memory_only (fn (player_mc G (set_ctx_NowMs now c) (ctx_CurrentPlayer c)) args) fnw →
  fnw w = (Ok (inl e), w1) →
  Apply (S fuel) game (idle G c id log) (a_move name (ctx_CurrentPlayer c) args now client) w =
  (Ok (idle G c id log, Some e), w1).
Proof.
  intros Hc Hfn Hf. unfold Apply, ApplyContext. rewrite bind_eq.
  unfold st_try, applyExternal. rewrite bind_eq, one_move_admitted by done. unfold st_lift.
  cbv beta iota. rewrite bind_eq. unfold buildAPIs, buildPluginAPIs. rewrite (om_plugins _ _ _ _ _ Hgame).
  cbv beta iota. rewrite bind_eq. unfold in_env. unfold move_pipeline. rewrite bind_eq.
  change (move_mc _ _ _ _) with (player_mc G (set_ctx_NowMs now c) (ctx_CurrentPlayer c)). cbn [ad_State ad_Move].
  rewrite (one_move_run G c id log args now client w fnw) by done. by rewrite Hf.
Qed.

(** A new match: the setup's value, and the player the order names first. *)
Lemma one_move_new fuel np data seed w n pid0 f G w1 first fw k p w2 :
  PlayerCount game np = n → go_index (defaultPlayOrder n) 0 = Some pid0 → gm_Setup game = Some f →
  let c0 := initial_ctx game n pid0 seed in f c0 data w = (G, w1) →
  to_First (effective_order (gm_Turn game)) = Some first →
  to_PlayOrder (effective_order (gm_Turn game)) = None →
  memory_only (first (hook_mc G c0 "" false)) fw → fw w1 = (Ok k, w2) →
  go_index (defaultPlayOrder n) k = Some p →
  NewMatchSeeded (S fuel) game np data seed w =
  (Ok (idle G (set_ctx_CurrentPlayer p (set_ctx_PlayOrderPos k c0)) 0 []), w2).
Proof.
  intros Hn H0 Hset c0 Hf Hfirst Hpo Hfw Hk Hp. unfold NewMatchSeeded. rewrite bind_eq.
  unfold NewMatchSeededE. rewrite Hn. cbv zeta. rewrite bind_eq, H0. unfold st_some at 1, st_ret at 1.
  cbv beta iota. rewrite bind_eq. unfold run_setup. rewrite Hset. fold c0. rewrite Hf. cbv beta iota.
  rewrite bind_eq. unfold run_plugin_setup, runPluginSetup. rewrite (om_plugins _ _ _ _ _ Hgame).
  cbv beta iota. rewrite bind_eq. unfold buildAPIs, buildPluginAPIs. rewrite (om_plugins _ _ _ _ _ Hgame).
  cbv beta iota. rewrite bind_eq. unfold in_env. fold (fresh_env w1). unfold setup_pipeline.
  assert (Hph : ctx_Phase c0 = "").
  { unfold c0, initial_ctx, startPhase, start_names. simpl. by rewrite (om_phases _ _ _ _ _ Hgame). }
  rewrite bind_eq. unfold env_mcNoEvents. cbv beta iota. rewrite bind_eq.
  change (attachPlugins _ _) with (hook_mc G c0 "" false).
  change (blank_state G c0) with (idle G c0 0 []).
  assert (HA : applyTurnOrderFirst game (idle G c0 0 []) (hook_mc G c0 "" false) (fresh_env w1) =
    (Ok (idle G (set_ctx_CurrentPlayer p (set_ctx_PlayOrderPos k c0)) 0 []), fresh_env w2)).
  { unfold applyTurnOrderFirst. cbv zeta. change (ctx_Phase (st_Ctx (idle G c0 0 []))) with (ctx_Phase c0).
    rewrite Hph. change (scopeTurn game "") with (gm_Turn game). rewrite Hpo, Hfirst.
    rewrite bind_eq. unfold mret at 1, ST_ret at 1, st_ret at 1. cbv beta iota.
    rewrite bind_eq, bind_eq. rewrite (call_detached _ fw) by done. rewrite Hk. cbn [fst snd].
    unfold mret at 1, ST_ret at 1, st_ret at 1. cbv beta iota.
    change (ctx_PlayOrder _) with (defaultPlayOrder n). rewrite decide_False.
    2:{ intros Hnil. by rewrite Hnil in H0. }
    by rewrite (seat_player _ p). }
  rewrite HA. cbv beta iota. rewrite bind_eq.
  set (c1 := set_ctx_CurrentPlayer p (set_ctx_PlayOrderPos k c0)).
  assert (HB : applyActivePlayersFromTurn game (idle G c1 0 []) = idle G c1 0 []).
  { destruct one_move_scope as (order & Hs & _). unfold applyActivePlayersFromTurn.
    change (ctx_Phase _) with (ctx_Phase c0). by rewrite Hph, Hs. }
  rewrite HB. unfold runPhaseOnBegin. change (ctx_Phase (st_Ctx (idle G c1 0 []))) with (ctx_Phase c0).
  rewrite Hph, decide_True by done. unfold mret at 1, ST_ret at 1, st_ret at 1. cbv beta iota.
  rewrite bind_eq.
  assert (HO : runTurnOnBegin game (idle G c1 0 []) (fresh_env w2) = (Ok (idle G c1 0 []), fresh_env w2)).
  { rewrite <-HB at 1. by apply one_move_begin. }
  rewrite HO. cbv beta iota. rewrite bind_eq. unfold env_mc. cbv beta iota.
  rewrite bind_eq, drain_nothing. cbv beta iota. unfold flushPluginsM, flushPlugins.
  rewrite (om_plugins _ _ _ _ _ Hgame). done.
Qed.
End one_move.

(** ** Two players in turn *)
Section two_players.
Context {T : GoTypes}.

(** The next player of the default order, and the first. *)
Definition the_next : MoveContext → prog (option Z) := λ mc,
  n ← go_mod (ctx_PlayOrderPos (mc_Ctx mc) + 1) (ctx_NumPlayers (mc_Ctx mc)); Ret (Some n).

Definition the_first : MoveContext → prog Z := λ _, Ret 0.

Definition seats : list string := defaultPlayOrder 2.

Definition other (p : string) : string := if decide (p = "0") then "1" else "0".

Lemma seat_cases pos p : go_index seats pos = Some p → (pos = 0 ∧ p = "0") ∨ (pos = 1 ∧ p = "1").
Proof.
  intros H. apply go_index_Some in H as [Hr Hl]. change (Z.of_nat (length seats)) with 2 in Hr.
  assert (pos = 0 ∨ pos = 1) as [-> | ->] by lia; [left|right]; split; try done;
    change seats with ["0"; "1"] in Hl; by injection Hl.
Qed.

Lemma next_seat pos p : go_index seats pos = Some p →
  ∃ n, Z.rem (pos + 1) 2 = n ∧ wrapped seats n = n ∧ go_index seats n = Some (other p).
Proof. intros [[-> ->]|[-> ->]]%seat_cases; eexists; done. Qed.

Lemma turn_memory G c : ctx_NumPlayers c = 2 →
  memory_only (the_next (hook_mc G c "" false)) (λ w, (Ok (Some (Z.rem (ctx_PlayOrderPos c + 1) 2)), w)).
Proof. intros Hn c' e extra. unfold the_next, go_mod. simpl. rewrite Hn. by destruct e. Qed.
End two_players.
