(* ===== verification/Hearts.v ===== *)
(** * Hearts

    [src/games/hearts/hearts.go]: a trick-taking game written on the card module.
    The game's [*State] lives in the memory the engine never inspects; a move is a
    computation on it which keeps what it did on every exit. *)

From S2P Require Import Prelude CoreTypes Api GameDef Random Choices Floats Cards.
#[local] Open Scope Z_scope.

(** ** Data *)

(** The game subscribes no handlers. *)
Abbreviation CardState := (Cards.State Empty_set).

Record TrickPlay := mkPlay {
  tp_PlayerID : string;
  tp_CardID : EntityID;
  tp_Suit : string;
  tp_Rank : Z
}.

Record State := mkHearts {
  hs_State : CardState;
  LeaderSeat : Z;
  Plays : list TrickPlay;
  LeadSuit : string;
  HeartsBroken : bool;
  Scores : gmap string Z;
  TricksLeft : Z
}.

(** The dynamic types of the values the game exchanges with the engine: the
    pointer to its state, plain values, the three forms of setup data, and the
    result of the game. *)
Inductive value : Type :=
  | VState
  | VGo (v : GoVal)
  | VSetupData (seed : Z)
  | VSetupPtr (seed : option Z)
  | VJson (m : gmap string GoVal)
  | VResult (winners : list string) (scores : gmap string Z).

(** The memory holds the one state the pointer leads to, once there is one. *)
#[export] Instance HeartsTypes : GoTypes :=
  {| val := value; world := option State; val_true := VGo (GoBool true);
     randref := (); as_Random := λ _, None |}.

Definition deckZone : ZoneName := "deck".
Definition trickZ : ZoneName := "trick".
Definition suitClubs : string := "C".
Definition suitDiams : string := "D".
Definition suitHrts : string := "H".
Definition suitSpds : string := "S".
Definition rankQueen : Z := 12.
Definition suits : list string := [suitClubs; suitDiams; suitHrts; suitSpds].

Definition handZone (pid : string) : ZoneName := "hand_" +:+ pid.
Definition wonZone (pid : string) : ZoneName := "won_" +:+ pid.

(** ** Setup *)
Section setup.
Abbreviation CM := (ST CardState ccg_error).

(** [_ = f()]: the error is dropped. *)
Definition ignore {S E A} (m : ST S E A) : ST S E () := _ ← st_try m; mret tt.

Definition card_attrs (suit : string) (rank : Z) : gmap string attr :=
  <["suit" := AVal (GoString suit)]> (<["rank" := AVal (GoInt "" KInt rank)]> ∅).

Definition make_zones (order : list string) : CM () :=
  _ ← NewZone deckZone true;
  _ ← NewZone trickZ true;
  for_each (λ pid, _ ← NewZone (handZone pid) false; NewZone (wonZone pid) true) order.

(** The two nested loops over suits and ranks. *)
Definition deck_list : list (string * Z) :=
  suits ≫= λ suit, (λ rank, (suit, rank)) <$> seqZ 2 13.

Fixpoint build_deck (cards : list (string * Z)) : CM (list EntityID) :=
  match cards with
  | [] => mret []
  | (suit, rank) :: cards =>
      id ← NewEntity "card" "" (card_attrs suit rank);
      _ ← ignore (Add deckZone id);
      ids ← build_deck cards;
      mret (id :: ids)
  end.

Definition entity_of (id : EntityID) : CM Entity := λ s, st_some (Entities s !! id) s.

Definition stack_deck (shuffled : list EntityID) : CM () := λ s,
  match Zones s !! deckZone with
  | Some z => (Ok tt, put_members deckZone z shuffled s)
  | None => (Panicked, s)
  end.

Definition two_of_clubs (e : Entity) : bool :=
  bool_decide (AttrStr e "suit" "" = suitClubs) && bool_decide (AttrInt e "rank" 0 = 2).

(** [for i := 0; i < 52; i++], from some [i] on; an empty order is a division by
    zero. *)
Fixpoint deal (order : list string) (rounds : list Z) (leaderSeat : Z) : CM Z :=
  match rounds with
  | [] => mret leaderSeat
  | i :: rounds =>
      r ← st_try (Draw deckZone 1);
      match r with
      | inl _ => mret leaderSeat
      | inr drawn =>
          if decide (order = []) then st_panic
          else
            let seat := Z.rem i (Z.of_nat (length order)) in
            pid ← st_some (go_index order seat);
            cardID ← st_some (head drawn);
            _ ← ignore (Add (handZone pid) cardID);
            e ← entity_of cardID;
            deal order rounds (if two_of_clubs e then seat else leaderSeat)
      end
  end.

Definition zero_scores (order : list string) : gmap string Z :=
  fold_left (λ m pid, <[pid := 0]> m) order ∅.

Definition setup_seeded (order : list string) (seed : Z) : CM Z :=
  _ ← make_zones order;
  ids ← build_deck deck_list;
  _ ← stack_deck (shuffle seed ids).2;
  deal order (seqZ 0 52) 0.

Definition new_hand (order : list string) (seed : Z) : outcome ccg_error State :=
  match setup_seeded order seed NewState with
  | (Ok leaderSeat, s) => Ok (mkHearts s leaderSeat [] "" false (zero_scores order) 13)
  | (Err e, _) => Err e
  | (Panicked, _) => Panicked
  | (NoFuel, _) => NoFuel
  end.
End setup.

(** What an out-of-range float converts to is a parameter. *)
Section conversions.
Context (wild : SpecFloat.spec_float → Z).

Definition setup_seed (raw : any) : Z :=
  match raw with
  | Some (VSetupData seed) => seed
  | Some (VSetupPtr (Some seed)) => seed
  | Some (VJson m) => match m !! "seed" with
                      | Some (GoFloat "" f) => uint64_of_float wild f
                      | _ => 0
                      end
  | _ => 0
  end.

(** The setup of the Game; with no players at the table it panics, here it leaves
    no state behind. *)
Definition setup (ctx : Ctx) (raw : any) (w : world) : any * world :=
  match new_hand (ctx_PlayOrder ctx) (setup_seed raw) with
  | Ok g => (Some VState, Some g)
  | _ => (None, w)
  end.

Definition toEntityID (v : any) : option EntityID :=
  match v with
  | Some (VGo (GoInt "ccg.EntityID" KUint64 x)) => Some x
  | Some (VGo (GoInt "" KUint64 x)) => Some x
  | Some (VGo (GoInt "" KInt x)) => if decide (0 ≤ x) then Some x else None
  | Some (VGo (GoInt "" KInt64 x)) => if decide (0 ≤ x) then Some x else None
  | Some (VGo (GoFloat "" f)) =>
      if SpecFloat.SFleb (SpecFloat.S754_zero false) f then Some (uint64_of_float wild f) else None
  | _ => None
  end.
End conversions.

(** ** The turn order *)

Fixpoint seat_from (i : Z) (pid : string) (order : list string) : option Z :=
  match order with
  | [] => None
  | p :: order => if decide (p = pid) then Some i else seat_from (i + 1) pid order
  end.

Definition seatOf (pid : string) (order : list string) : Z := default 0 (seat_from 0 pid order).

(** [mc.G.( *State)]: the memory when the value is the pointer. *)
Definition state_of (G : any) (w : world) : option State :=
  match G with Some VState => w | _ => None end.

Definition next_seat (order : list string) (g : State) : option Z :=
  match last (Plays g) with
  | None => Some (LeaderSeat g)
  | Some p => if decide (order = []) then None
              else Some (Z.rem (seatOf (tp_PlayerID p) order + 1) (Z.of_nat (length order)))
  end.

Definition trickTurnOrder : TurnOrder := mkOrder
  (Some (λ mc, OpRead (λ w, match state_of (mc_G mc) w with
                            | Some g => Ret (LeaderSeat g)
                            | None => Crash
                            end)))
  (Some (λ mc, OpRead (λ w,
     match state_of (mc_G mc) w with
     | Some g => match next_seat (ctx_PlayOrder (mc_Ctx mc)) g with
                 | Some n => Ret (Some n)
                 | None => Crash
                 end
     | None => Crash
     end)))
  None.

(** ** Playing a card *)

(** [s.Entities[id]] is a nil pointer for an unknown id. *)
Definition suitOf {E} (s : CardState) (id : EntityID) : outcome E string :=
  match Entities s !! id with Some e => Ok (AttrStr e "suit" "") | None => Panicked end.
Definition rankOf {E} (s : CardState) (id : EntityID) : outcome E Z :=
  match Entities s !! id with Some e => Ok (AttrInt e "rank" 0) | None => Panicked end.

Fixpoint some_has_suit {E} (s : CardState) (suit : string) (ids : list EntityID) : outcome E bool :=
  match ids with
  | [] => Ok false
  | id :: ids => x ← suitOf s id; if decide (x = suit) then Ok true else some_has_suit s suit ids
  end.

Definition hasSuit {E} (g : State) (zone : ZoneName) (suit : string) : outcome E bool :=
  match Zones (hs_State g) !! zone with
  | None => Ok false
  | Some z => some_has_suit (hs_State g) suit (zn_Members z)
  end.

Fixpoint all_hearts {E} (s : CardState) (ids : list EntityID) : outcome E bool :=
  match ids with
  | [] => Ok true
  | id :: ids => x ← suitOf s id; if decide (x = suitHrts) then all_hearts s ids else Ok false
  end.

Definition onlyHearts {E} (g : State) (zone : ZoneName) : outcome E bool :=
  match Zones (hs_State g) !! zone with
  | None => Ok false
  | Some z => if decide (zn_Members z = []) then Ok false
              else all_hearts (hs_State g) (zn_Members z)
  end.

Section playing.
Abbreviation M := (ST State error).

Definition hs_get {A} (f : State → outcome error A) : M A := λ g, (f g, g).
Definition hs_modify (f : State → State) : M () := λ g, (Ok tt, f g).

(** A call of the embedded card state's methods. *)
Definition on_cards {A} (m : ST CardState ccg_error A) : M A := λ g,
  let '(r, s) := m (hs_State g) in
  (match r with
   | Ok a => Ok a
   | Err _ => Err (ErrGameCode "ccg")
   | Panicked => Panicked
   | NoFuel => NoFuel
   end,
   mkHearts s (LeaderSeat g) (Plays g) (LeadSuit g) (HeartsBroken g) (Scores g) (TricksLeft g)).

Definition the_winner (lead : string) (first : TrickPlay) (rest : list TrickPlay) : TrickPlay :=
  fold_left (λ w p, if bool_decide (tp_Suit p = lead) && bool_decide (tp_Rank w < tp_Rank p)
                    then p else w) rest first.

Definition play_points (p : TrickPlay) : Z :=
  (if decide (tp_Suit p = suitHrts) then 1 else 0) +
  (if decide (tp_Suit p = suitSpds ∧ tp_Rank p = rankQueen) then 13 else 0).

(** The second loop of resolveTrick moves the cards and counts. *)
Fixpoint collect (to : ZoneName) (plays : list TrickPlay) (points : Z) : M Z :=
  match plays with
  | [] => mret points
  | p :: plays =>
      _ ← ignore (on_cards (MoveTo (tp_CardID p) to));
      collect to plays (points + play_points p)
  end.

Definition close_trick (winner : string) (points : Z) (order : list string) (g : State) : State :=
  mkHearts (hs_State g) (seatOf winner order) [] "" (HeartsBroken g)
    (<[winner := default 0 (Scores g !! winner) + points]> (Scores g)) (TricksLeft g - 1).

Definition resolveTrick (order : list string) : M () :=
  plays ← hs_get (λ g, Ok (Plays g));
  lead ← hs_get (λ g, Ok (LeadSuit g));
  first ← st_some (head plays);
  let winner := the_winner lead first (tail plays) in
  points ← collect (wonZone (tp_PlayerID winner)) plays 0;
  hs_modify (close_trick (tp_PlayerID winner) points order).

Definition err_unless (b : bool) : M () := if b then mret tt else st_err ErrInvalidMove.

(** The rule a card must obey, given that it is in the hand. *)
Definition check_play (hand : ZoneName) (cardSuit : string) (cardRank : Z) : M () :=
  g ← hs_get Ok;
  let leading := bool_decide (Plays g = []) in
  _ ← err_unless (negb (bool_decide (TricksLeft g = 13) && leading)
                  || (bool_decide (cardSuit = suitClubs) && bool_decide (cardRank = 2)));
  if leading then
    if bool_decide (cardSuit = suitHrts) && negb (HeartsBroken g) then
      only ← hs_get (λ g, onlyHearts g hand); err_unless only
    else mret tt
  else if bool_decide (cardSuit ≠ LeadSuit g) then
    has ← hs_get (λ g, hasSuit g hand (LeadSuit g)); err_unless (negb has)
  else mret tt.

Definition record_play (p : TrickPlay) (g : State) : State :=
  mkHearts (hs_State g) (LeaderSeat g) (Plays g ++ [p])
    (if decide (Plays g = []) then tp_Suit p else LeadSuit g)
    (if decide (tp_Suit p = suitHrts) then true else HeartsBroken g)
    (Scores g) (TricksLeft g).

Definition play_card (playerID : string) (order : list string) (cardID : EntityID) : M () :=
  let hand := handZone playerID in
  inHand ← hs_get (λ g, Ok (Contains hand cardID (hs_State g)));
  _ ← err_unless inHand;
  cardSuit ← hs_get (λ g, suitOf (hs_State g) cardID);
  cardRank ← hs_get (λ g, rankOf (hs_State g) cardID);
  _ ← check_play hand cardSuit cardRank;
  _ ← on_cards (MoveTo cardID trickZ);
  _ ← hs_modify (record_play (mkPlay playerID cardID cardSuit cardRank));
  n ← hs_get (λ g, Ok (length (Plays g)));
  if decide (n = length order) then resolveTrick order else mret tt.

Context (wild : SpecFloat.spec_float → Z).

Definition playCard_on (mc : MoveContext) (args : list any) : M () :=
  _ ← err_unless (bool_decide (mc_PlayerID mc = ctx_CurrentPlayer (mc_Ctx mc)));
  match args with
  | [] => st_err ErrInvalidMove
  | arg :: _ =>
      match toEntityID wild arg with
      | None => st_err ErrInvalidMove
      | Some cardID => play_card (mc_PlayerID mc) (ctx_PlayOrder (mc_Ctx mc)) cardID
      end
  end.

(** The move: the state behind the pointer is changed in place. *)
Definition playCard : MoveFn := λ mc args, OpRead (λ w,
  match state_of (mc_G mc) w with
  | None => Crash
  | Some g =>
      let '(r, g') := playCard_on mc args g in
      OpWrite (Some g') match r with
                        | Ok _ => Ret (inr (mc_G mc))
                        | Err e => Ret (inl e)
                        | Panicked | NoFuel => Crash
                        end
  end).

(** ** The end of the hand, and the legal moves *)

(** [for _, v := range s.Scores]: the smallest, whatever the order. *)
Definition low_score (scores : gmap string Z) : Z :=
  map_fold (λ _ v low, if decide (low < 0 ∨ v < low) then v else low) (-1) scores.

Definition winners (order : list string) (scores : gmap string Z) : list string :=
  filter (λ pid, default 0 (scores !! pid) = low_score scores) order.

Definition hand_result (order : list string) (g : State) : any :=
  if decide (0 < TricksLeft g) then None
  else Some (VResult (winners order (Scores g)) (Scores g)).

Definition gameEndIf (mc : MoveContext) : prog any := OpRead (λ w,
  match state_of (mc_G mc) w with
  | None => Crash
  | Some g => Ret (hand_result (ctx_PlayOrder (mc_Ctx mc)) g)
  end).

Section enumerating.
Context (g : State) (leading mustFollow onlyH openingLead : bool).

(** The switch in enumerate's loop: is the card passed over? *)
Definition skipped (suit : string) (rank : Z) : bool :=
  if openingLead then negb (bool_decide (suit = suitClubs) && bool_decide (rank = 2))
  else if mustFollow then bool_decide (suit ≠ LeadSuit g)
  else leading && bool_decide (suit = suitHrts) && negb (HeartsBroken g) && negb onlyH.

Fixpoint legal_of (ids : list EntityID) : outcome error (list EntityID) :=
  match ids with
  | [] => Ok []
  | id :: ids =>
      suit ← suitOf (hs_State g) id;
      rank ← rankOf (hs_State g) id;
      out ← legal_of ids;
      Ok (if skipped suit rank then out else id :: out)
  end.
End enumerating.

(** The cards the player may play; [hand] is the zone's members. *)
Definition legal_cards (g : State) (playerID : string) : outcome error (list EntityID) :=
  match Zones (hs_State g) !! handZone playerID with
  | None => Ok []
  | Some hand =>
      let leading := bool_decide (Plays g = []) in
      mustFollow ← (if leading then Ok false else hasSuit g (handZone playerID) (LeadSuit g));
      onlyH ← (if leading then onlyHearts g (handZone playerID) else Ok false);
      legal_of g leading mustFollow onlyH (bool_decide (TricksLeft g = 13) && leading)
        (zn_Members hand)
  end.

Definition card_action (id : EntityID) : EnumerateAction :=
  mkEnum "play" [Some (VGo (GoInt "ccg.EntityID" KUint64 id))].

Definition enumerate (G : any) (ctx : Ctx) (playerID : string) (w : world)
    : outcome error (list EnumerateAction) :=
  match state_of G w with
  | None => Ok []
  | Some g =>
      if decide (playerID ≠ ctx_CurrentPlayer ctx) then Ok []
      else match legal_cards g playerID with
           | Ok ids => Ok (card_action <$> ids)
           | Err e => Err e
           | Panicked => Panicked
           | NoFuel => NoFuel
           end
  end.

Definition New : Game := mkGame "hearts" 4 4 (Some (setup wild))
  {[ "play" := EntryFn playCard ]}
  (Some (mkTurn trickTurnOrder None None None None 1 1 0 None ∅)) ∅
  (Some gameEndIf) None None None None false [].
End playing.
