(* ===== verification/HeartsFacts.v ===== *)
(** * The card table of a hand of hearts

    What the game's own reads and writes of the card state amount to: every card
    keeps its suit and rank, every zone has room, and a move takes one card from one
    zone to another.  Then the deal. *)

From S2P Require Import Prelude CoreTypes Random Choices Cards CardFacts Hearts.
#[local] Open Scope Z_scope.

(** ** The deck *)

Definition card_suit (id : EntityID) : string := default "" (suits !! Z.to_nat ((id - 1) / 13)).
Definition card_rank (id : EntityID) : Z := (id - 1) mod 13 + 2.
Definition deck : list EntityID := seqZ 1 52.
Definition is_card (id : EntityID) : Prop := 1 ≤ id ≤ 52.

(** Penalty points of a card. *)
Definition card_points (id : EntityID) : Z :=
  (if decide (card_suit id = suitHrts) then 1 else 0) +
  (if decide (card_suit id = suitSpds ∧ card_rank id = rankQueen) then 13 else 0).

Definition sum_points (ids : list EntityID) : Z := foldr (λ id n, card_points id + n) 0 ids.

Lemma elem_of_deck id : id ∈ deck ↔ is_card id.
Proof. unfold deck, is_card. rewrite elem_of_seqZ. lia. Qed.

Lemma deck_points : sum_points deck = 26.
Proof. by vm_compute. Qed.

Lemma sum_points_app l1 l2 : sum_points (l1 ++ l2) = sum_points l1 + sum_points l2.
Proof. induction l1 as [|id l1 IH]; simpl; [done|]. rewrite IH. lia. Qed.

#[export] Instance sum_points_perm : Proper ((≡ₚ) ==> (=)) sum_points.
Proof. intros l1 l2 H. induction H; simpl; lia. Qed.

Lemma card_points_nonneg id : 0 ≤ card_points id.
Proof. unfold card_points. repeat case_decide; lia. Qed.

Lemma sum_points_nonneg ids : 0 ≤ sum_points ids.
Proof. induction ids as [|id ids IH]; simpl; [done|]. pose proof (card_points_nonneg id). lia. Qed.

Lemma two_of_clubs_id id : is_card id → card_suit id = suitClubs ∧ card_rank id = 2 ↔ id = 1.
Proof.
  rewrite <-elem_of_deck. revert id. apply Forall_forall.
  refine (bool_decide_unpack _ _). by vm_compute.
Qed.

(** ** Zones of the table *)
Section table.
Context (order : list string).
Implicit Types (s : CardState) (n : ZoneName).

Definition zone_names : list ZoneName :=
  deckZone :: trickZ :: (order ≫= λ pid, [handZone pid; wonZone pid]).

Lemma hand_won p q : handZone p ≠ wonZone q.
Proof. discriminate. Qed.
Lemma handZone_inj p q : handZone p = handZone q → p = q.
Proof. apply (inj (String.append "hand_")). Qed.
Lemma wonZone_inj p q : wonZone p = wonZone q → p = q.
Proof. apply (inj (String.append "won_")). Qed.

Lemma hand_in p : p ∈ order → handZone p ∈ zone_names.
Proof. intros Hp. do 2 right. apply list_elem_of_bind. exists p. split; [set_solver|done]. Qed.
Lemma won_in p : p ∈ order → wonZone p ∈ zone_names.
Proof. intros Hp. do 2 right. apply list_elem_of_bind. exists p. split; [set_solver|done]. Qed.

Lemma zone_names_nonempty n : n ∈ zone_names → n ≠ "".
Proof.
  unfold zone_names. rewrite !elem_of_cons, list_elem_of_bind.
  intros [->|[->|(p & Hn & _)]]; [done|done|].
  rewrite !elem_of_cons, elem_of_nil in Hn. by destruct Hn as [->|[->|[]]].
Qed.

(** The card's face, which never changes. *)
Definition printed (e : Entity) (id : EntityID) : Prop :=
  AttrStr e "suit" "" = card_suit id ∧ AttrInt e "rank" 0 = card_rank id.

Record table s : Prop := {
  tb_wf : wf s;
  tb_cards : ∀ id, is_Some (Entities s !! id) ↔ is_card id;
  tb_faces : ∀ id e, Entities s !! id = Some e → printed e id;
  tb_zones : ∀ n, zn_Capacity <$> Zones s !! n = if decide (n ∈ zone_names) then Some 0 else None
}.

Lemma table_zone s n : table s → n ∈ zone_names →
  ∃ z, Zones s !! n = Some z ∧ zn_Members z = members s n ∧ full z = false.
Proof.
  intros Ht Hn. pose proof (tb_zones _ Ht n) as H. rewrite decide_True in H by done.
  destruct (Zones s !! n) as [z|] eqn:Hz; simplify_eq/=. exists z. unfold members, full.
  rewrite Hz, H. done.
Qed.

Lemma table_member s n id : table s → id ∈ members s n → is_card id ∧ zone_of s id = n.
Proof.
  intros Ht Hid. apply members_zone in Hid as [Hi Hz]; [|apply Ht]. by apply (tb_cards _ Ht) in Hi.
Qed.

Lemma zone_of_member s n id : table s → n ∈ zone_names → zone_of s id = n → id ∈ members s n.
Proof.
  intros Ht Hn Hz. destruct (table_zone s n Ht Hn) as (z & Hzn & <- & _).
  apply (wf_member _ (tb_wf _ Ht) n z id Hzn). unfold zone_of in Hz.
  destruct (Entities s !! id) as [e|] eqn:He; simpl in Hz; [by exists e|].
  by apply zone_names_nonempty in Hn.
Qed.

(** One card moved. *)
Lemma table_MoveTo s id to : table s → is_card id → to ∈ zone_names →
  ∃ s', MoveTo id to s = (Ok tt, s') ∧ table s' ∧
    (∀ n, members s' n = filter (.≠ id) (members s n) ++ (if decide (n = to) then [id] else [])) ∧
    (∀ i, zone_of s' i = if decide (i = id) then to else zone_of s i).
Proof.
  intros Ht Hid Hto. destruct (table_zone s to Ht Hto) as (z & Hz & _ & Hfull).
  destruct (proj2 (tb_cards _ Ht id) Hid) as [e He]. pose proof (tb_wf _ Ht) as Hwf.
  rewrite MoveTo_run by done. rewrite Hz, He, Hfull, andb_false_r.
  eexists. split; [done|]. split; [|split].
  - split.
    + by apply wf_moved.
    + intros i. rewrite moved_Entities, lookup_insert_is_Some', (tb_cards _ Ht i).
      split; [intros [<-|]; done|by right].
    + intros i e'. rewrite moved_Entities. intros [[<- <-]|[_ Hi]]%lookup_insert_Some.
      * exact (tb_faces _ Ht _ _ He).
      * exact (tb_faces _ Ht _ _ Hi).
    + intros n. rewrite <-(tb_zones _ Ht n).
      pose proof (moved_frame id e to z s Hwf He Hz) as Hf.
      apply (f_equal (λ m : gmap ZoneName Zone, zn_Capacity <$> m !! n)) in Hf.
      unfold zone_frame in Hf. rewrite !lookup_fmap in Hf.
      rewrite <-!option_fmap_compose in Hf. exact Hf.
  - intros n. by apply moved_members.
  - intros i. apply moved_zone_of.
Qed.

Lemma suitOf_card {E} s id : table s → is_card id → suitOf s id = Ok (card_suit id) :> outcome E _.
Proof.
  intros Ht Hid. destruct (proj2 (tb_cards _ Ht id) Hid) as [e He]. unfold suitOf. rewrite He.
  by rewrite (proj1 (tb_faces _ Ht _ _ He)).
Qed.

Lemma rankOf_card {E} s id : table s → is_card id → rankOf s id = Ok (card_rank id) :> outcome E _.
Proof.
  intros Ht Hid. destruct (proj2 (tb_cards _ Ht id) Hid) as [e He]. unfold rankOf. rewrite He.
  by rewrite (proj2 (tb_faces _ Ht _ _ He)).
Qed.

Lemma some_has_suit_cards {E} s suit ids : table s → Forall is_card ids →
  some_has_suit s suit ids = Ok (bool_decide (Exists (λ id, card_suit id = suit) ids)) :> outcome E _.
Proof.
  intros Ht. induction 1 as [|id ids Hid _ IH]; [done|]. simpl. rewrite suitOf_card by done. simpl.
  case_decide as Hs; [rewrite bool_decide_true; [done|by apply Exists_cons; left]|].
  rewrite IH. f_equal. apply bool_decide_ext. rewrite Exists_cons. naive_solver.
Qed.

Lemma all_hearts_cards {E} s ids : table s → Forall is_card ids →
  all_hearts s ids = Ok (bool_decide (Forall (λ id, card_suit id = suitHrts) ids)) :> outcome E _.
Proof.
  intros Ht. induction 1 as [|id ids Hid _ IH]; [done|]. simpl. rewrite suitOf_card by done. simpl.
  case_decide as Hs.
  - rewrite IH. f_equal. apply bool_decide_ext. rewrite Forall_cons. naive_solver.
  - rewrite bool_decide_false; [done|]. by intros [? _]%Forall_cons.
Qed.

Lemma members_cards s n : table s → Forall is_card (members s n).
Proof. intros Ht. apply Forall_forall. intros id Hid. by apply (table_member s n). Qed.

Lemma hasSuit_table {E} g n suit : table (hs_State g) → n ∈ zone_names →
  hasSuit g n suit =
    Ok (bool_decide (Exists (λ id, card_suit id = suit) (members (hs_State g) n))) :> outcome E _.
Proof.
  intros Ht Hn. unfold hasSuit. destruct (table_zone _ n Ht Hn) as (z & -> & -> & _).
  apply some_has_suit_cards; [done|by apply members_cards].
Qed.

Lemma onlyHearts_table {E} g n : table (hs_State g) → n ∈ zone_names → members (hs_State g) n ≠ [] →
  onlyHearts g n =
    Ok (bool_decide (Forall (λ id, card_suit id = suitHrts) (members (hs_State g) n))) :> outcome E _.
Proof.
  intros Ht Hn Hne. unfold onlyHearts. destruct (table_zone _ n Ht Hn) as (z & -> & -> & _).
  rewrite decide_False by done. apply all_hearts_cards; [done|by apply members_cards].
Qed.
End table.

(** ** The deal *)
Section dealing.
Context (order : list string).
Implicit Types (s : CardState) (n : ZoneName).

Lemma frame_capacity s s' n : zone_frame s' = zone_frame s →
  zn_Capacity <$> Zones s' !! n = zn_Capacity <$> Zones s !! n.
Proof.
  intros Hf. apply (f_equal (λ m : gmap ZoneName Zone, zn_Capacity <$> m !! n)) in Hf.
  unfold zone_frame in Hf. rewrite !lookup_fmap, <-!option_fmap_compose in Hf. exact Hf.
Qed.

(** A card that is in no zone enters one. *)
Lemma Add_run s n id e z : Zones s !! n = Some z → Entities s !! id = Some e → full z = false →
  Add n id s = (Ok tt, enter_zone n id e z (zn_Members z ++ [id]) s).
Proof.
  intros Hz He Hf. unfold Add. rewrite bind_eq. unfold the_zone. rewrite Hz.
  rewrite bind_eq. unfold the_entity. rewrite He, bind_eq. unfold err_if. by rewrite Hf.
Qed.

Lemma enter_members s n id e z m n' : Zones s !! n = Some z →
  members (enter_zone n id e z m s) n' = if decide (n' = n) then m else members s n'.
Proof.
  intros Hz. unfold members. simpl. case_decide as Hn.
  - subst. by rewrite lookup_insert_eq.
  - by rewrite lookup_insert_ne.
Qed.

Lemma enter_zone_of s n id e z m i :
  zone_of (enter_zone n id e z m s) i = if decide (i = id) then n else zone_of s i.
Proof.
  unfold zone_of. simpl. case_decide as Hi.
  - subst. by rewrite lookup_insert_eq.
  - by rewrite lookup_insert_ne.
Qed.

Lemma enter_capacity s n id e z m n' : Zones s !! n = Some z →
  zn_Capacity <$> Zones (enter_zone n id e z m s) !! n' = zn_Capacity <$> Zones s !! n'.
Proof.
  intros Hz. simpl. destruct (decide (n' = n)) as [->|].
  - by rewrite lookup_insert_eq, Hz.
  - by rewrite lookup_insert_ne.
Qed.

Lemma unplaced_entity s id e : Entities s !! id = Some e → zone_of s id = en_Zone e.
Proof. unfold zone_of. by intros ->. Qed.

Lemma table_Add s id n : table order s → is_card id → zone_of s id = "" → n ∈ zone_names order →
  ∃ s', Add n id s = (Ok tt, s') ∧ table order s' ∧
    (∀ n', members s' n' = members s n' ++ (if decide (n' = n) then [id] else [])) ∧
    (∀ i, zone_of s' i = if decide (i = id) then n else zone_of s i).
Proof.
  intros Ht Hid Hun Hn. destruct (table_zone order s n Ht Hn) as (z & Hz & Hm & Hf).
  destruct (proj2 (tb_cards _ _ Ht id) Hid) as [e He]. rewrite (unplaced_entity s id e He) in Hun.
  rewrite (Add_run s n id e z) by done. eexists. split; [done|]. split; [|split].
  - split.
    + apply wf_enter; [apply Ht|done..|]. apply Permutation_sym, Permutation_cons_append.
    + intros i. simpl. rewrite lookup_insert_is_Some', (tb_cards _ _ Ht i). naive_solver.
    + intros i e'. simpl. intros [[<- <-]|[_ Hi]]%lookup_insert_Some.
      * exact (tb_faces _ _ Ht _ _ He).
      * exact (tb_faces _ _ Ht _ _ Hi).
    + intros n'. by rewrite enter_capacity, (tb_zones _ _ Ht).
  - intros n'. rewrite enter_members by done. case_decide as Hn'; [by subst; rewrite Hm|].
    by rewrite app_nil_r.
  - intros i. apply enter_zone_of.
Qed.

Lemma Draw_faces k n s : wf s → ∀ id e, Entities (Draw n k s).2 !! id = Some e →
  ∃ e0, Entities s !! id = Some e0 ∧ en_Attrs e = en_Attrs e0.
Proof.
  intros Hwf id e. unfold Draw. rewrite bind_eq. unfold the_zone.
  destruct (Zones s !! n) as [z|]; [|simpl; eauto]. rewrite bind_eq. unfold err_if.
  case_bool_decide; [simpl; eauto|]. unfold mret, ST_ret, st_ret. cbv beta iota.
  case_decide; [simpl; eauto|]. cbv zeta. unfold modify. rewrite bind_eq, bind_eq. cbn [snd].
  intros He. rewrite (proj2 (proj2 (clear_zones_spec _ _))) in He. simpl in He.
  apply fmap_Some in He as (e0 & He0 & ->). exists e0. split; [done|]. by case_decide.
Qed.

Lemma table_Draw s l id : table order s → members s deckZone = l ++ [id] →
  ∃ s', Draw deckZone 1 s = (Ok [id], s') ∧ table order s' ∧
    members s' deckZone = l ∧ (∀ n, n ≠ deckZone → members s' n = members s n) ∧
    (∀ i, zone_of s' i = if decide (i = id) then "" else zone_of s i).
Proof.
  intros Ht Hl. pose proof (tb_wf _ _ Ht) as Hwf.
  destruct (Draw_run deckZone 1 s Hwf) as [(e & _ & He)|[[? _]|(s' & _ & HD & Hwf' & Hf & Hm & Ho & Hd & Hz)]].
  - by rewrite Hl in He; destruct l.
  - lia.
  - assert (Htop : top_of (Z.to_nat 1) (members s deckZone) = [id]).
    { unfold top_of. rewrite Hl, rev_app_distr. by simpl; rewrite take_0. }
    rewrite Htop in HD, Hm, Hz. rewrite Hl in Hm. simpl in Hm.
    apply app_inj_tail in Hm as [Hm _].
    pose proof (Draw_faces 1 deckZone s Hwf) as HE. rewrite HD in HE. simpl in HE.
    exists s'. split; [done|]. split; [|split_and!; [done..|]].
    + split; [done|..].
      * intros i. rewrite <-(tb_cards _ _ Ht i), <-!elem_of_dom. by rewrite Hd.
      * intros i e (e0 & He0 & Ha)%HE. apply (tb_faces _ _ Ht) in He0.
        unfold printed, AttrStr, AttrInt in *. by rewrite Ha.
      * intros n. by rewrite (frame_capacity s s'), (tb_zones _ _ Ht).
    + intros i. rewrite Hz. apply decide_ext. rewrite list_elem_of_singleton. done.
Qed.
End dealing.

(** ** Building the table *)
Section building.
Context (order : list string).
Implicit Types (s : CardState) (n : ZoneName).

(** Zones laid out, no cards yet. *)
Record laid (names : list ZoneName) s : Prop := {
  ld_wf : wf s;
  ld_none : Entities s = ∅;
  ld_next : NextEntityID (IDs s) = 0;
  ld_zones : ∀ n, zn_Capacity <$> Zones s !! n = if decide (n ∈ names) then Some 0 else None;
  ld_empty : ∀ n, members s n = []
}.

Lemma laid_NewZone names s n b : laid names s → n ≠ "" →
  ∃ s', NewZone n b s = (Ok tt, s') ∧ laid (names ++ [n]) s'.
Proof.
  intros [Hwf Hnone Hnext Hz He] Hn. eexists. split; [done|].
  pose proof (keeps_NewZone n b Hn s Hwf) as Hwf'. cbn [NewZone modify snd] in Hwf'.
  assert (Hcap : ∀ n', decide (n' ∈ names ++ [n]) = decide (n' ∈ names ++ [n])) by done.
  split; [done|..].
  - by destruct (Zones s !! n).
  - by destruct (Zones s !! n).
  - intros n'. pose proof (Hz n') as Hz'. pose proof (Hz n) as Hzn.
    destruct (Zones s !! n) as [z|] eqn:Hs; simpl in *.
    + rewrite Hz'. apply decide_ext. rewrite elem_of_app, list_elem_of_singleton.
      case_decide; naive_solver.
    + destruct (decide (n' = n)) as [->|Hne].
      * rewrite lookup_insert_eq. rewrite decide_True by set_solver. done.
      * rewrite lookup_insert_ne, Hz' by done. apply decide_ext. set_solver.
  - intros n'. specialize (He n'). destruct (Zones s !! n) eqn:Hs; [done|].
    unfold members in *. simpl. destruct (decide (n' = n)) as [->|Hne].
    + by rewrite lookup_insert_eq.
    + by rewrite lookup_insert_ne.
Qed.

Lemma laid_seats l names s : laid names s →
  ∃ s', for_each (λ pid, _ ← NewZone (handZone pid) false; NewZone (wonZone pid) true) l s = (Ok tt, s') ∧
    laid (names ++ (l ≫= λ pid, [handZone pid; wonZone pid])) s'.
Proof.
  revert names s. induction l as [|p l IH]; intros names s Hs.
  - exists s. split; [done|]. simpl. by rewrite app_nil_r.
  - destruct (laid_NewZone names s (handZone p) false Hs) as (s1 & H1 & L1); [done|].
    destruct (laid_NewZone _ s1 (wonZone p) true L1) as (s2 & H2 & L2); [done|].
    destruct (IH _ s2 L2) as (s3 & H3 & L3). exists s3. cbn [for_each].
    rewrite !bind_eq, H1, H2, H3. split; [done|]. by rewrite <-!app_assoc in L3.
Qed.

Lemma make_zones_laid : ∃ s, make_zones order NewState = (Ok tt, s) ∧ laid (zone_names order) s.
Proof.
  assert (L0 : laid [] NewState).
  { split; [|done..]. by split. }
  destruct (laid_NewZone _ _ deckZone true L0) as (s1 & H1 & L1); [done|].
  destruct (laid_NewZone _ _ trickZ true L1) as (s2 & H2 & L2); [done|].
  destruct (laid_seats order _ _ L2) as (s3 & H3 & L3). exists s3. unfold make_zones.
  by rewrite !bind_eq, H1, bind_eq, H2, H3.
Qed.

(** The first [k] cards made and stacked. *)
Record stacked (k : Z) s : Prop := {
  sk_wf : wf s;
  sk_next : NextEntityID (IDs s) = k;
  sk_cards : ∀ id, is_Some (Entities s !! id) ↔ 1 ≤ id ≤ k;
  sk_faces : ∀ id e, Entities s !! id = Some e → printed e id;
  sk_zones : ∀ n, zn_Capacity <$> Zones s !! n = if decide (n ∈ zone_names order) then Some 0 else None;
  sk_deck : members s deckZone = seqZ 1 k;
  sk_empty : ∀ n, n ≠ deckZone → members s n = [];
  sk_placed : ∀ id, 1 ≤ id ≤ k → zone_of s id = deckZone
}.

Lemma laid_stacked s : laid (zone_names order) s → stacked 0 s.
Proof.
  intros [Hwf Hnone Hnext Hz He]. split; try done.
  - intros id. rewrite Hnone, lookup_empty. split; [by intros []|lia].
  - intros id e. by rewrite Hnone, lookup_empty.
  - lia.
Qed.

Lemma stacked_card k s suit rank : 0 ≤ k → stacked k s →
  suit = card_suit (k + 1) → rank = card_rank (k + 1) →
  ∃ s1 s2, NewEntity "card" "" (card_attrs suit rank) s = (Ok (k + 1), s1) ∧
    Add deckZone (k + 1) s1 = (Ok tt, s2) ∧ stacked (k + 1) s2.
Proof.
  intros Hk [Hwf Hnext Hc Hf Hz Hd He Hp] Hsuit Hrank.
  pose proof (Hz deckZone) as Hzd. rewrite decide_True in Hzd by by left.
  destruct (Zones s !! deckZone) as [z|] eqn:Hdz; [|done]. injection Hzd as Hzd. subst k suit rank.
  set (k := NextEntityID (IDs s)) in *. set (e := mkEntity (k + 1) "" "card" "" "" "" Public [] ∅
    (card_attrs (card_suit (k + 1)) (card_rank (k + 1)))).
  pose proof (keeps_mint (λ id, mkEntity id "" "card" "" "" "" Public [] ∅ (en_Attrs e))
    (λ id, conj eq_refl eq_refl) s Hwf) as Hwf1.
  unfold NewEntity. destruct (mint _ s) as [r s1] eqn:Hmint. injection Hmint as <- <-.
  match goal with |- ∃ s1 _, (_, ?x) = _ ∧ _ => set (s1 := x) in * end.
  assert (HE1 : Entities s1 !! (k + 1) = Some e) by apply lookup_insert_eq.
  assert (HZ1 : Zones s1 !! deckZone = Some z) by done.
  eexists s1, _. split; [done|].
  split; [apply (Add_run s1 deckZone _ e z); [done|done|unfold full; by rewrite Hzd]|].
  assert (Hmem : zn_Members z = seqZ 1 k).
  { rewrite <-Hd. unfold members. by rewrite Hdz. }
  split.
  - apply wf_enter; [done..|]. apply Permutation_sym, Permutation_cons_append.
  - done.
  - intros id. simpl. rewrite !lookup_insert_is_Some', Hc. lia.
  - intros id e'. simpl. intros [[<- <-]|[Hne [[<- ?]|[_ Hi]]%lookup_insert_Some]]%lookup_insert_Some;
      [split; by unfold AttrStr, AttrInt; simpl|done|by apply Hf].
  - intros n. rewrite enter_capacity by done. apply Hz.
  - rewrite (enter_members s1 deckZone _ e z), decide_True, Hmem by done.
    rewrite seqZ_app by lia. by rewrite (Z.add_comm k 1).
  - intros n Hn. rewrite (enter_members s1 deckZone _ e z), decide_False by done. by apply He.
  - intros id Hid. rewrite enter_zone_of. case_decide; [done|].
    unfold zone_of. simpl. rewrite lookup_insert_ne by done. apply Hp. lia.
Qed.

Lemma build_deck_stacked m k s : 0 ≤ k → stacked k s →
  ∃ s', build_deck ((λ id, (card_suit id, card_rank id)) <$> seqZ (k + 1) (Z.of_nat m)) s =
    (Ok (seqZ (k + 1) (Z.of_nat m)), s') ∧ stacked (k + Z.of_nat m) s'.
Proof.
  revert k s. induction m as [|m IH]; intros k s Hk Hs.
  { exists s. split; [done|]. by rewrite Z.add_0_r. }
  rewrite seqZ_cons by lia. replace (Z.pred (Z.of_nat (S m))) with (Z.of_nat m) by lia.
  rewrite fmap_cons. cbn [build_deck].
  destruct (stacked_card k s _ _ Hk Hs eq_refl eq_refl) as (s1 & s2 & H1 & H2 & Hs2).
  destruct (IH (k + 1) s2) as (s3 & H3 & Hs3); [lia|done|]. exists s3.
  rewrite bind_eq, H1. unfold ignore. rewrite bind_eq, bind_eq. unfold st_try. rewrite H2.
  unfold mret at 1, ST_ret at 1, st_ret at 1. cbv beta iota. rewrite bind_eq.
  replace (Z.succ (k + 1)) with (k + 1 + 1) by lia. rewrite H3. split; [done|].
  replace (k + Z.of_nat (S m)) with (k + 1 + Z.of_nat m) by lia. done.
Qed.

Lemma deck_list_cards : deck_list = (λ id, (card_suit id, card_rank id)) <$> deck.
Proof. by vm_compute. Qed.

(** The table before the deal: a full deck in some order, everything else empty. *)
Lemma stack_deck_table s l : stacked 52 s → l ≡ₚ deck →
  ∃ s', stack_deck l s = (Ok tt, s') ∧ table order s' ∧ members s' deckZone = l ∧
    (∀ n, n ≠ deckZone → members s' n = []) ∧ (∀ id, is_card id → zone_of s' id = deckZone).
Proof.
  intros [Hwf Hnext Hc Hf Hz Hd He Hp] Hl.
  pose proof (Hz deckZone) as Hzd. rewrite decide_True in Hzd by by left. unfold stack_deck.
  destruct (Zones s !! deckZone) as [z|] eqn:Hdz; [|done].
  assert (Hm : zn_Members z = deck) by (unfold deck; rewrite <-Hd; unfold members; by rewrite Hdz).
  eexists. split; [done|]. split; [|split_and!; [..|done]].
  - split; [apply wf_perm; [done..|by rewrite Hm]|done|done|].
    intros n. rewrite <-Hz. simpl. destruct (decide (n = deckZone)) as [->|].
    + by rewrite lookup_insert_eq, Hdz.
    + by rewrite lookup_insert_ne.
  - unfold members. simpl. by rewrite lookup_insert_eq.
  - intros n Hn. rewrite <-(He n Hn). unfold members. simpl. by rewrite lookup_insert_ne.
Qed.

Context (Hnd : NoDup order) (Hlen : length order = 4%nat).

(** The table after [i] cards of the deal. *)
Record dealt (i leader : Z) s : Prop := {
  dl_table : table order s;
  dl_deck : Z.of_nat (length (members s deckZone)) = 52 - i;
  dl_trick : members s trickZ = [];
  dl_won : ∀ p, members s (wonZone p) = [];
  dl_hands : ∀ j p, order !! j = Some p →
    Z.of_nat (length (members s (handZone p))) = (i + 3 - Z.of_nat j) / 4;
  dl_placed : ∀ id, is_card id → zone_of s id ≠ "";
  dl_seat : 0 ≤ leader < 4;
  dl_leader : 1 ∈ members s deckZone ∨
    ∃ p, go_index order leader = Some p ∧ 1 ∈ members s (handZone p)
}.

Lemma dealt_one i leader s l id p : dealt i leader s → 0 ≤ i < 52 →
  members s deckZone = l ++ [id] → go_index order (Z.rem i 4) = Some p →
  ∃ s1 s2 e, Draw deckZone 1 s = (Ok [id], s1) ∧ Add (handZone p) id s1 = (Ok tt, s2) ∧
    Entities s2 !! id = Some e ∧
    dealt (i + 1) (if two_of_clubs e then Z.rem i 4 else leader) s2.
Proof.
  intros [Ht Hd Htr Hw Hh Hp Hs Hl] Hi Hm Hgo.
  assert (Hid : is_card id).
  { apply (table_member order s deckZone id Ht). rewrite Hm. set_solver. }
  destruct (table_Draw order s l id Ht Hm) as (s1 & H1 & Ht1 & Hm1 & Ho1 & Hz1).
  pose proof Hgo as [Hr Hlk]%go_index_Some.
  assert (Hpo : p ∈ order) by by eapply list_elem_of_lookup_2.
  destruct (table_Add order s1 id (handZone p) Ht1 Hid) as (s2 & H2 & Ht2 & Hm2 & Hz2).
  { rewrite Hz1. by rewrite decide_True. } { by apply hand_in. }
  destruct (proj2 (tb_cards _ _ Ht2 id) Hid) as [e He].
  exists s1, s2, e. split_and!; [done..|]. rewrite Hm, length_app in Hd. simpl in Hd.
  pose proof (tb_faces _ _ Ht2 _ _ He) as [Hfs Hfr].
  assert (Htwo : two_of_clubs e = bool_decide (id = 1)).
  { unfold two_of_clubs. rewrite Hfs, Hfr, <-bool_decide_and. apply bool_decide_ext.
    by apply two_of_clubs_id. }
  assert (Hmd : members s2 deckZone = l) by (rewrite Hm2, decide_False, Hm1, app_nil_r; done).
  split.
  - done.
  - rewrite Hmd. lia.
  - by rewrite Hm2, decide_False, Ho1, Htr.
  - intros q. by rewrite Hm2, decide_False, Ho1, Hw.
  - intros j q Hj. rewrite Hm2, Ho1 by done. rewrite length_app, Nat2Z.inj_add, (Hh j q Hj).
    assert (Hj4 : (j < 4)%nat) by (rewrite <-Hlen; by eapply lookup_lt_Some).
    destruct (decide (handZone q = handZone p)) as [->%handZone_inj|Hne].
    + assert (j = Z.to_nat (Z.rem i 4)) as -> by (by eapply NoDup_lookup). simpl.
      rewrite Z.rem_mod_nonneg by lia. Z.to_euclidean_division_equations. lia.
    + assert (j ≠ Z.to_nat (Z.rem i 4)) as Hjne by (intros ->; congruence).
      rewrite Z.rem_mod_nonneg in Hjne by lia. simpl. Z.to_euclidean_division_equations. lia.
  - intros x Hx. rewrite Hz2. destruct (decide (x = id)); [discriminate|]. rewrite Hz1, decide_False by done. by apply Hp.
  - case_match; [|done]. rewrite Z.rem_mod_nonneg by lia. apply Z.mod_pos_bound. lia.
  - rewrite Htwo. case_bool_decide as H1d.
    + right. exists p. split; [done|]. rewrite Hm2, decide_True by done. subst. set_solver.
    + destruct Hl as [Hl|(q & Hq & Hl)].
      * left. rewrite Hmd. rewrite Hm in Hl. set_solver.
      * right. exists q. split; [done|]. rewrite Hm2, Ho1 by done. set_solver.
Qed.

Lemma deal_dealt (m : nat) i leader s : dealt i leader s → 0 ≤ i → i + Z.of_nat m = 52 →
  ∃ leader' s', deal order (seqZ i (Z.of_nat m)) leader s = (Ok leader', s') ∧ dealt 52 leader' s'.
Proof.
  revert i leader s. induction m as [|m IH]; intros i leader s Hs Hi0 Hi.
  { exists leader, s. split; [done|]. by replace 52 with i by lia. }
  rewrite seqZ_cons by lia. replace (Z.pred (Z.of_nat (S m))) with (Z.of_nat m) by lia.
  pose proof (dl_deck _ _ _ Hs) as Hd.
  destruct (members s deckZone) as [|id l _] eqn:Hm using rev_ind; [simpl in Hd; lia|].
  assert (Hp : is_Some (go_index order (Z.rem i 4))).
  { apply go_index_is_Some. rewrite Hlen. rewrite Z.rem_mod_nonneg by lia.
    apply Z.mod_pos_bound. lia. }
  destruct Hp as [p Hp].
  destruct (dealt_one i leader s l id p Hs ltac:(lia) Hm Hp) as (s1 & s2 & e & H1 & H2 & He & Hs2).
  destruct (IH (i + 1) _ s2 Hs2) as (leader' & s3 & H3 & Hs3); [lia..|].
  exists leader', s3. split; [|done]. rewrite <-H3. cbn [deal].
  rewrite bind_eq. unfold st_try at 1. rewrite H1. cbv beta iota.
  rewrite decide_False by (by destruct order). rewrite Hlen. change (Z.of_nat 4) with 4. cbv zeta.
  rewrite Hp. rewrite bind_eq. unfold st_some at 1. unfold st_ret at 1. cbv beta iota.
  rewrite bind_eq. unfold st_some at 1, st_ret at 1. cbn [head]. rewrite bind_eq. unfold ignore.
  rewrite bind_eq. unfold st_try at 1. rewrite H2. cbv beta iota.
  unfold mret, ST_ret, st_ret. cbv beta iota. rewrite bind_eq. unfold entity_of. rewrite He. done.
Qed.

(** Whatever the seed, the deal comes to an end with everybody holding thirteen
    cards. *)
Lemma setup_dealt seed : ∃ leader s,
  setup_seeded order seed NewState = (Ok leader, s) ∧ dealt 52 leader s.
Proof.
  destruct make_zones_laid as (s0 & H0 & L0).
  destruct (build_deck_stacked 52 0 s0 ltac:(lia) (laid_stacked s0 L0)) as (s1 & H1 & S1).
  assert (Hsh : (shuffle seed deck).2 ≡ₚ deck).
  { unfold shuffle. apply shuffle_from_spec. }
  destruct (stack_deck_table s1 _ S1 Hsh) as (s2 & H2 & Ht2 & Hd2 & He2 & Hz2).
  assert (D0 : dealt 0 0 s2).
  { split; try done.
    - by rewrite Hd2, Hsh.
    - by apply He2.
    - intros p. by apply He2.
    - intros j p Hj%lookup_lt_Some. rewrite He2 by done. rewrite Hlen in Hj. simpl.
      destruct j as [|[|[|[|]]]]; [done..|lia].
    - intros id Hid. by rewrite Hz2.
    - left. rewrite Hd2, Hsh. by apply elem_of_deck. }
  destruct (deal_dealt 52 0 0 s2 D0) as (leader & s3 & H3 & D3); [lia..|].
  exists leader, s3. split; [|done]. unfold setup_seeded. rewrite bind_eq, H0, bind_eq, deck_list_cards.
  change deck with (seqZ (0 + 1) (Z.of_nat 52)) at 1. rewrite H1. cbv beta iota. rewrite bind_eq. change (seqZ (0 + 1) (Z.of_nat 52)) with deck. rewrite H2. exact H3.
Qed.
End building.
