(* ===== verification/HeartsTheorems.v ===== *)
(** * A hand of hearts is played to its end

    The invariant of a hand in progress; that a play is accepted exactly when the
    rules allow it, and the list of legal plays is exactly those; that the player on
    turn is never stuck; who takes a trick; and that every hand ends after 52 plays
    with 26 points dealt out. *)

From S2P Require Import Prelude CoreTypes Api Random Choices Cards CardFacts Hearts HeartsFacts.
#[local] Open Scope Z_scope.

Section hand.
Context (order : list string) (Hnd : NoDup order) (Hlen : length order = 4%nat).
Implicit Types (g : State) (p : string) (id : EntityID).

Definition hand_of g p : list EntityID := members (hs_State g) (handZone p).
Definition won_of g p : list EntityID := members (hs_State g) (wonZone p).
Definition players_in g : list string := tp_PlayerID <$> Plays g.

(** The players in the order of this trick. *)
Definition trick_order g : list string := rotate (Z.to_nat (LeaderSeat g)) order.

Definition recorded (pl : TrickPlay) : Prop :=
  tp_Suit pl = card_suit (tp_CardID pl) ∧ tp_Rank pl = card_rank (tp_CardID pl).

(** A hand in progress, the trick possibly complete but not yet collected. *)
Record running g : Prop := {
  rn_table : table order (hs_State g);
  rn_placed : ∀ id, is_card id → zone_of (hs_State g) id ≠ "";
  rn_deck : members (hs_State g) deckZone = [];
  rn_trick : members (hs_State g) trickZ = tp_CardID <$> Plays g;
  rn_plays : Forall recorded (Plays g);
  rn_leader : 0 ≤ LeaderSeat g < 4;
  rn_players : players_in g = take (length (Plays g)) (trick_order g);
  rn_lead : LeadSuit g = from_option tp_Suit "" (head (Plays g));
  rn_hands : ∀ p, p ∈ order →
    Z.of_nat (length (hand_of g p)) + (if decide (p ∈ players_in g) then 1 else 0) = TricksLeft g;
  rn_scores : ∀ p, Scores g !! p = if decide (p ∈ order) then Some (sum_points (won_of g p)) else None
}.

(** The player on turn, as trickTurnOrder names them. *)
Definition on_turn g : option string := next_seat order g ≫= go_index order.

(** A hand between two plays. *)
Record sound g : Prop := {
  so_running : running g;
  so_open : (length (Plays g) < 4)%nat;
  so_first : TricksLeft g = 13 → Plays g = [] → ∃ p, on_turn g = Some p ∧ 1 ∈ hand_of g p
}.

(** The rules of the game. *)
Definition may_play g p id : Prop :=
  id ∈ hand_of g p ∧
  (TricksLeft g = 13 → Plays g = [] → id = 1) ∧
  (Plays g = [] → card_suit id = suitHrts →
     HeartsBroken g = true ∨ Forall (λ c, card_suit c = suitHrts) (hand_of g p)) ∧
  (Plays g ≠ [] → card_suit id = LeadSuit g ∨ Forall (λ c, card_suit c ≠ LeadSuit g) (hand_of g p)).

(** Cards still to be played. *)
Definition cards_left g : Z := 4 * TricksLeft g - Z.of_nat (length (Plays g)).

(** ** The order of play *)

Lemma trick_order_perm g : trick_order g ≡ₚ order.
Proof.
  unfold trick_order, rotate. rewrite Permutation_app_comm. by rewrite take_drop.
Qed.

Lemma trick_order_length g : length (trick_order g) = 4%nat.
Proof. by rewrite trick_order_perm. Qed.

Lemma trick_order_NoDup g : NoDup (trick_order g).
Proof. by rewrite trick_order_perm. Qed.

Lemma seatOf_lookup j p : order !! j = Some p → seatOf p order = Z.of_nat j.
Proof.
  unfold seatOf. enough (∀ l i, NoDup l → l !! j = Some p → seat_from i p l = Some (i + Z.of_nat j)) as H.
  { intros Hj. by rewrite (H order 0). }
  clear Hnd Hlen. revert j. intros j l. revert j. induction l as [|q l IH]; intros j i Hl Hj; [done|].
  apply NoDup_cons in Hl as [Hq Hl]. cbn [seat_from]. destruct j as [|j]; simpl in Hj.
  - injection Hj as ->. rewrite decide_True by done. f_equal. lia.
  - rewrite decide_False by (intros ->; by apply Hq, list_elem_of_lookup_2 with j).
    rewrite (IH j) by done. f_equal. lia.
Qed.

Lemma seatOf_bound p : 0 ≤ seatOf p order < 4.
Proof.
  destruct (decide (p ∈ order)) as [[j Hj]%list_elem_of_lookup|Hp].
  - rewrite (seatOf_lookup j p Hj). apply lookup_lt_Some in Hj. lia.
  - unfold seatOf. enough (∀ l i, p ∉ l → seat_from i p l = None) as -> by done.
    induction l as [|q l IH]; intros i Hl; [done|]. cbn [seat_from].
    apply not_elem_of_cons in Hl as [Hq Hl]. rewrite decide_False by done. by apply IH.
Qed.

Lemma trick_order_lookup g n : 0 ≤ LeaderSeat g → (n < 4)%nat →
  trick_order g !! n = go_index order ((LeaderSeat g + Z.of_nat n) mod 4).
Proof.
  intros Hk Hn. unfold trick_order. rewrite lookup_rotate_r by lia. unfold rotate_nat_add.
  rewrite Hlen. set (i := (LeaderSeat g + Z.of_nat n) mod 4).
  assert (Hi : 0 ≤ i < 4) by (apply Z.mod_pos_bound; lia).
  rewrite Z2Nat.id by done. change (Z.of_nat 4) with 4. fold i.
  destruct (order !! Z.to_nat i) as [p|] eqn:Hp.
  - symmetry. apply go_index_Some. split; [lia|done].
  - apply lookup_ge_None in Hp. lia.
Qed.

(** The player on turn is the next of the trick's order. *)
Lemma on_turn_next g : running g → (length (Plays g) < 4)%nat →
  on_turn g = trick_order g !! length (Plays g).
Proof.
  intros Hg Hn. pose proof (rn_leader _ Hg) as Hk. rewrite trick_order_lookup by lia.
  unfold on_turn, next_seat. destruct (Plays g) as [|pl l _] eqn:Hp using rev_ind; simpl.
  - rewrite Z.add_0_r, Z.mod_small by lia. done.
  - rewrite last_snoc, decide_False by (by destruct order). simpl. rewrite Hlen.
    pose proof (rn_players _ Hg) as Ho. unfold players_in in Ho. rewrite Hp in Ho.
    rewrite length_app in *. simpl in *. rewrite fmap_app in Ho. simpl in Ho.
    assert (Hl : trick_order g !! length l = Some (tp_PlayerID pl)).
    { rewrite <-(lookup_take_lt _ (length l + 1)%nat) by lia. rewrite <-Ho.
      rewrite lookup_app_r; rewrite length_fmap; [|lia]. by rewrite Nat.sub_diag. }
    rewrite trick_order_lookup in Hl by lia. apply go_index_Some in Hl as [Hr Hl].
    rewrite (seatOf_lookup _ _ Hl). f_equal. change (Z.of_nat 4) with 4.
    rewrite Z.rem_mod_nonneg by lia. rewrite Z2Nat.id by lia. rewrite Zplus_mod_idemp_l. f_equal. lia.
Qed.

Lemma on_turn_exists g : running g → (length (Plays g) < 4)%nat →
  ∃ p, on_turn g = Some p ∧ p ∈ order ∧ p ∉ players_in g.
Proof.
  intros Hg Hn. rewrite on_turn_next by done.
  destruct (lookup_lt_is_Some_2 (trick_order g) (length (Plays g))) as [p Hp].
  { by rewrite trick_order_length. }
  exists p. split; [done|]. split.
  - rewrite <-(trick_order_perm g). by eapply list_elem_of_lookup_2.
  - rewrite (rn_players _ Hg). intros [j Hj]%list_elem_of_lookup.
    apply lookup_take_Some in Hj as [Hj Hlt].
    pose proof (NoDup_lookup _ _ _ _ (trick_order_NoDup g) Hj Hp). lia.
Qed.

(** ** The checks are the rules *)

#[local] Instance may_play_dec g p id : Decision (may_play g p id).
Proof. unfold may_play. apply _. Defined.

Lemma hand_card g p id : running g → id ∈ hand_of g p → is_card id.
Proof. intros Hg. by apply (table_member order), (rn_table _ Hg). Qed.

(** What is left of the rules once the card is known to be in the hand. *)
Definition rule g p id : Prop :=
  (TricksLeft g = 13 → Plays g = [] → id = 1) ∧
  (Plays g = [] → card_suit id = suitHrts →
     HeartsBroken g = true ∨ Forall (λ c, card_suit c = suitHrts) (hand_of g p)) ∧
  (Plays g ≠ [] → card_suit id = LeadSuit g ∨ Forall (λ c, card_suit c ≠ LeadSuit g) (hand_of g p)).

#[local] Instance rule_dec g p id : Decision (rule g p id).
Proof. unfold rule. apply _. Defined.

Lemma not_has_suit suit ids :
  negb (bool_decide (Exists (λ c, card_suit c = suit) ids)) =
  bool_decide (Forall (λ c, card_suit c ≠ suit) ids).
Proof. rewrite <-bool_decide_not. apply bool_decide_ext. symmetry. apply Forall_Exists_neg. Qed.

Lemma check_play_rule g p id : running g → p ∈ order → id ∈ hand_of g p →
  check_play (handZone p) (card_suit id) (card_rank id) g =
  (if decide (rule g p id) then Ok tt else Err ErrInvalidMove, g).
Proof.
  intros Hg Hp Hid. pose proof (hand_card g p id Hg Hid) as Hc. pose proof (rn_table _ Hg) as Ht.
  pose proof (hand_in order p Hp) as Hz.
  assert (Hne : members (hs_State g) (handZone p) ≠ []).
  { unfold hand_of in Hid. destruct (members _ _); [by apply elem_of_nil in Hid|done]. }
  unfold check_play. rewrite bind_eq. unfold hs_get at 1. cbv beta iota zeta. rewrite bind_eq.
  assert (bool_decide (card_suit id = suitClubs) && bool_decide (card_rank id = 2) =
    bool_decide (id = 1)) as ->.
  { rewrite <-bool_decide_and. by apply bool_decide_ext, two_of_clubs_id. }
  destruct (decide (rule g p id)) as [(R1 & R2 & R3)|HR].
  - assert (negb (bool_decide (TricksLeft g = 13) && bool_decide (Plays g = [])) || bool_decide (id = 1)
      = true) as ->.
    { do 2 case_bool_decide; try done. simpl. apply bool_decide_true. auto. }
    unfold err_unless at 1, mret, ST_ret, st_ret. cbv beta iota.
    destruct (bool_decide_reflect (Plays g = [])) as [HP|HP].
    + destruct (bool_decide (card_suit id = suitHrts) && _) eqn:Hh; [|done].
      apply andb_true_iff in Hh as [Hh%bool_decide_eq_true Hb%negb_true_iff].
      destruct (R2 HP Hh) as [?|HF]; [congruence|].
      rewrite bind_eq. unfold hs_get. rewrite (onlyHearts_table order) by done.
      by rewrite bool_decide_true.
    + destruct (bool_decide_reflect (card_suit id ≠ LeadSuit g)) as [Hl|Hl]; [|done]. rewrite bind_eq. unfold hs_get.
      rewrite (hasSuit_table order) by done. rewrite not_has_suit. destruct (R3 HP) as [?|HF]; [done|].
      by rewrite bool_decide_true.
  - destruct (negb (bool_decide (TricksLeft g = 13) && _) || _) eqn:H1; [|done].
    unfold err_unless at 1, mret, ST_ret, st_ret. cbv beta iota.
    assert (R1 : TricksLeft g = 13 → Plays g = [] → id = 1).
    { intros H13 HP. rewrite !bool_decide_true in H1 by done. simpl in H1.
      by apply bool_decide_eq_true in H1. }
    destruct (bool_decide_reflect (Plays g = [])) as [HP|HP].
    + destruct (bool_decide (card_suit id = suitHrts) && _) eqn:Hh.
      * rewrite bind_eq. unfold hs_get. rewrite (onlyHearts_table order) by done.
        rewrite bool_decide_false; [done|]. intros HF. apply HR. split_and!; [done|by right|done].
      * destruct HR. split_and!; [done| |done]. intros _ Hs. left.
        rewrite bool_decide_true in Hh by done. by apply negb_false_iff in Hh.
    + destruct (bool_decide_reflect (card_suit id ≠ LeadSuit g)) as [Hl|Hl].
      * rewrite bind_eq. unfold hs_get. rewrite (hasSuit_table order) by done. rewrite not_has_suit.
        rewrite bool_decide_false; [done|]. intros HF. apply HR. split_and!; [done..|by right].
      * destruct HR. split_and!; [done..|]. intros _. left. by apply dec_stable.
Qed.

Lemma Contains_members n id (s : CardState) : Contains n id s = bool_decide (id ∈ members s n).
Proof.
  unfold Contains, members. destruct (Zones s !! n); [done|]. symmetry. apply bool_decide_false, not_elem_of_nil.
Qed.

(** A play outside the rules is an invalid move and changes nothing. *)
Lemma play_refused g p id : running g → p ∈ order → ¬ may_play g p id →
  play_card p order id g = (Err ErrInvalidMove, g).
Proof.
  intros Hg Hp Hno. unfold play_card. rewrite bind_eq. unfold hs_get at 1. cbv beta iota zeta.
  rewrite bind_eq, Contains_members. fold (hand_of g p). case_bool_decide as Hid; [|done].
  unfold err_unless at 1, mret, ST_ret, st_ret. cbv beta iota. pose proof (hand_card g p id Hg Hid) as Hc.
  rewrite bind_eq. unfold hs_get at 1. rewrite (suitOf_card order) by (done || by apply rn_table). cbv beta iota.
  rewrite bind_eq. unfold hs_get at 1. rewrite (rankOf_card order) by (done || by apply rn_table). cbv beta iota.
  rewrite bind_eq, check_play_rule by done. rewrite decide_False; [done|]. intros HR. by apply Hno.
Qed.

(** The zones after a card has been played to the trick. *)
Definition put_cards (s : CardState) g : State :=
  mkHearts s (LeaderSeat g) (Plays g) (LeadSuit g) (HeartsBroken g) (Scores g) (TricksLeft g).

Definition play_of p id : TrickPlay := mkPlay p id (card_suit id) (card_rank id).

(** A play inside the rules is made, and completes the trick when it is the last. *)
Lemma play_allowed g p id : running g → p ∈ order → may_play g p id →
  ∃ s', MoveTo id trickZ (hs_State g) = (Ok tt, s') ∧ table order s' ∧
    (∀ n, members s' n = filter (.≠ id) (members (hs_State g) n) ++ (if decide (n = trickZ) then [id] else [])) ∧
    (∀ i, zone_of s' i = if decide (i = id) then trickZ else zone_of (hs_State g) i) ∧
    let g1 := record_play (play_of p id) (put_cards s' g) in
    play_card p order id g =
      (if decide (length (Plays g1) = 4%nat) then resolveTrick order else mret tt) g1.
Proof.
  intros Hg Hp [Hid HR]. pose proof (hand_card g p id Hg Hid) as Hc.
  destruct (table_MoveTo order (hs_State g) id trickZ) as (s' & HM & Ht & Hm & Hz);
    [apply Hg|done|set_solver|].
  exists s'. split_and!; [done..|]. cbv zeta. unfold play_card. rewrite bind_eq. unfold hs_get at 1.
  cbv beta iota zeta.
  rewrite bind_eq, Contains_members. fold (hand_of g p). rewrite bool_decide_true by done.
  unfold err_unless at 1, mret at 1, ST_ret at 1, st_ret at 1. cbv beta iota.
  rewrite bind_eq. unfold hs_get at 1. rewrite (suitOf_card order) by (done || by apply rn_table). cbv beta iota.
  rewrite bind_eq. unfold hs_get at 1. rewrite (rankOf_card order) by (done || by apply rn_table). cbv beta iota.
  rewrite bind_eq, check_play_rule by done. rewrite decide_True by done. cbv beta iota.
  rewrite bind_eq. unfold on_cards. rewrite HM. cbv beta iota. rewrite bind_eq.
  unfold hs_modify. cbv beta iota. rewrite bind_eq. unfold hs_get. cbv beta iota. rewrite Hlen. done.
Qed.

(** ** A play keeps the invariant *)

Lemma filter_elsewhere (s : CardState) n id : table order s → zone_of s id ≠ n →
  filter (.≠ id) (members s n) = members s n.
Proof. intros Ht Hz. apply filter_id. intros x Hx ->. by apply Hz, (table_member order s). Qed.

Lemma length_filter_ne id (l : list EntityID) : NoDup l → id ∈ l →
  Z.of_nat (length (filter (.≠ id) l)) = Z.of_nat (length l) - 1.
Proof.
  intros Hl Hid. enough (l ≡ₚ id :: filter (.≠ id) l) as HP.
  { apply Permutation_length in HP. simpl in HP. lia. }
  apply NoDup_Permutation; [done| |].
  - constructor; [|by apply NoDup_filter]. by intros [? _]%list_elem_of_filter.
  - intros x. rewrite elem_of_cons, list_elem_of_filter. destruct (decide (x = id)); naive_solver.
Qed.

Lemma players_in_play p id (s : CardState) g :
  players_in (record_play (play_of p id) (put_cards s g)) = players_in g ++ [p].
Proof. unfold players_in. simpl. by rewrite fmap_app. Qed.

Lemma running_play g p id s' : running g → (length (Plays g) < 4)%nat →
  on_turn g = Some p → p ∈ order → p ∉ players_in g → id ∈ hand_of g p → table order s' →
  (∀ n, members s' n = filter (.≠ id) (members (hs_State g) n) ++ (if decide (n = trickZ) then [id] else [])) →
  (∀ i, zone_of s' i = if decide (i = id) then trickZ else zone_of (hs_State g) i) →
  running (record_play (play_of p id) (put_cards s' g)).
Proof.
  intros Hg Hn Hp Hpo Hpn Hid Ht Hm Hz. pose proof (hand_card g p id Hg Hid) as Hc.
  pose proof (rn_table _ Hg) as Hgt. pose proof (tb_wf _ _ Hgt) as Hwf.
  assert (Hidz : zone_of (hs_State g) id = handZone p) by by apply (table_member order).
  assert (Hother : ∀ n, n ≠ handZone p → n ≠ trickZ → members s' n = members (hs_State g) n).
  { intros n H1 H2. rewrite Hm, decide_False, app_nil_r by done.
    apply filter_elsewhere; [done|]. by rewrite Hidz. }
  split; simpl.
  - done.
  - intros i Hi. rewrite Hz. destruct (decide (i = id)); [discriminate|]. by apply (rn_placed _ Hg).
  - rewrite Hother by done. apply Hg.
  - rewrite Hm, decide_True by done. rewrite filter_elsewhere by (done || by rewrite Hidz).
    rewrite (rn_trick _ Hg), fmap_app. done.
  - apply Forall_app. split; [apply Hg|]. by apply Forall_singleton.
  - apply Hg.
  - rewrite players_in_play, (rn_players _ Hg). rewrite length_app. simpl.
    rewrite on_turn_next in Hp by done. rewrite Nat.add_1_r. by rewrite (take_S_r _ _ p).
  - rewrite (rn_lead _ Hg). by destruct (Plays g).
  - intros q Hq. rewrite players_in_play. pose proof (rn_hands _ Hg q Hq) as Hh. unfold hand_of in *.
    destruct (decide (q = p)) as [->|Hqp]; simpl.
    + rewrite decide_False in Hh by done. rewrite decide_True by set_solver.
      rewrite Hm, decide_False, app_nil_r by done.
      rewrite length_filter_ne; [lia|by apply members_NoDup|done].
    + rewrite Hother by (try done; by intros ?%handZone_inj). rewrite <-Hh. f_equal.
      apply decide_ext. set_solver.
  - intros q. rewrite (rn_scores _ Hg q). unfold won_of. simpl. by rewrite Hother.
Qed.

(** ** Collecting the trick *)

Lemma collect_run plays to pts g : table order (hs_State g) → to ∈ zone_names order →
  Forall recorded plays → Forall is_card (tp_CardID <$> plays) → NoDup (tp_CardID <$> plays) →
  ∃ s', collect to plays pts g = (Ok (pts + sum_points (tp_CardID <$> plays)), put_cards s' g) ∧
    table order s' ∧
    (∀ n, members s' n = filter (.∉ tp_CardID <$> plays) (members (hs_State g) n) ++
                         (if decide (n = to) then tp_CardID <$> plays else [])) ∧
    (∀ i, zone_of s' i = if decide (i ∈ tp_CardID <$> plays) then to else zone_of (hs_State g) i).
Proof.
  revert pts g. induction plays as [|pl plays IH]; intros pts g Ht Hto Hr Hc Hd.
  { exists (hs_State g). split; [|split; [done|split]].
    - simpl. rewrite Z.add_0_r. by destruct g.
    - intros n. simpl. rewrite filter_id by (intros x _; apply not_elem_of_nil).
      case_decide; by rewrite app_nil_r.
    - intros i. by rewrite decide_False by apply not_elem_of_nil. }
  rewrite fmap_cons in *. apply Forall_cons in Hr as [[Hs Hrk] Hr]. apply Forall_cons in Hc as [Hci Hc].
  apply NoDup_cons in Hd as [Hni Hd]. set (id := tp_CardID pl) in *.
  destruct (table_MoveTo order (hs_State g) id to Ht Hci Hto) as (s1 & H1 & Ht1 & Hm1 & Hz1).
  destruct (IH (pts + play_points pl) (put_cards s1 g) Ht1 Hto Hr Hc Hd) as (s2 & H2 & Ht2 & Hm2 & Hz2).
  exists s2. split; [|split; [done|split]].
  - cbn [collect]. rewrite bind_eq. unfold ignore. rewrite bind_eq. unfold st_try, on_cards. fold id.
    rewrite H1. unfold mret, ST_ret, st_ret. cbv beta iota. unfold put_cards in H2 at 1. rewrite H2.
    simpl. f_equal. f_equal. unfold play_points, card_points. rewrite Hs, Hrk. fold id. lia.
  - intros n. rewrite Hm2. simpl. rewrite Hm1, filter_app, filter_not_in_cons, <-app_assoc. f_equal.
    destruct (decide (n = to)); [by rewrite filter_cons_True by done|done].
  - intros i. rewrite Hz2. simpl. rewrite Hz1. destruct (decide (i = id)) as [->|Hi].
    + by rewrite decide_False, decide_True by (done || by left).
    + apply decide_ext. rewrite elem_of_cons. naive_solver.
Qed.

(** The winning play: the highest of the suit led. *)
Definition takes_trick g (w : TrickPlay) : Prop :=
  w ∈ Plays g ∧ tp_Suit w = LeadSuit g ∧
  ∀ q, q ∈ Plays g → tp_Suit q = LeadSuit g → tp_Rank q ≤ tp_Rank w.

Lemma the_winner_highest lead first rest : tp_Suit first = lead →
  let w := the_winner lead first rest in
  w ∈ first :: rest ∧ tp_Suit w = lead ∧
  ∀ q, q ∈ first :: rest → tp_Suit q = lead → tp_Rank q ≤ tp_Rank w.
Proof.
  unfold the_winner. revert first. induction rest as [|pl rest IH]; intros first Hf; simpl.
  - split_and!; [by left|done|]. intros q ->%list_elem_of_singleton _. done.
  - destruct (bool_decide _ && _) eqn:Hb.
    + apply andb_true_iff in Hb as [Hs%bool_decide_eq_true Hr%bool_decide_eq_true].
      destruct (IH pl Hs) as (Hin & Hsu & Hmax). split_and!; [set_solver|done|].
      intros q [->|Hq]%elem_of_cons Hqs; [|by apply Hmax].
      specialize (Hmax pl). specialize (Hmax ltac:(by left) Hs). lia.
    + destruct (IH first Hf) as (Hin & Hsu & Hmax). split_and!; [set_solver|done|].
      intros q Hq Hqs. apply elem_of_cons in Hq as [->|[->|Hq]%elem_of_cons]; [apply Hmax; [by left|done]| |].
      * specialize (Hmax first ltac:(by left) Hf). rewrite (bool_decide_true _ Hqs) in Hb. simpl in Hb.
        apply bool_decide_eq_false in Hb. lia.
      * apply Hmax; [by right|done].
Qed.

(** What resolving a complete trick leaves behind. *)
Record trick_taken g (w : TrickPlay) g' : Prop := {
  tt_takes : takes_trick g w;
  tt_leader : order !! Z.to_nat (LeaderSeat g') = Some (tp_PlayerID w);
  tt_cleared : Plays g' = [] ∧ LeadSuit g' = "" ∧ TricksLeft g' = TricksLeft g - 1;
  tt_won : ∀ p, won_of g' p = won_of g p ++ (if decide (p = tp_PlayerID w) then tp_CardID <$> Plays g else []);
  tt_hands : ∀ p, hand_of g' p = hand_of g p;
  tt_score : ∀ p, p ∈ order → Scores g' !! p =
    Some (sum_points (won_of g p) + (if decide (p = tp_PlayerID w) then sum_points (tp_CardID <$> Plays g) else 0));
  tt_broken : HeartsBroken g' = HeartsBroken g
}.

Lemma player_of_play g pl : running g → pl ∈ Plays g → tp_PlayerID pl ∈ order.
Proof.
  intros Hg Hpl. rewrite <-(trick_order_perm g). apply (list_elem_of_fmap_2 tp_PlayerID) in Hpl.
  change (tp_PlayerID pl ∈ players_in g) in Hpl. rewrite (rn_players _ Hg) in Hpl.
  rewrite <-(take_drop (length (Plays g)) (trick_order g)). set_solver.
Qed.

Lemma trick_cards g : running g →
  Forall is_card (tp_CardID <$> Plays g) ∧ NoDup (tp_CardID <$> Plays g) ∧
  ∀ i, i ∈ tp_CardID <$> Plays g → zone_of (hs_State g) i = trickZ.
Proof.
  intros Hg. rewrite <-(rn_trick _ Hg). pose proof (rn_table _ Hg) as Ht. split_and!.
  - by apply (members_cards order).
  - by apply members_NoDup, (tb_wf order).
  - intros i Hi. by apply (table_member order) in Hi as [_ ?].
Qed.

Lemma resolve_taken g : running g → length (Plays g) = 4%nat →
  ∃ g' w, resolveTrick order g = (Ok tt, g') ∧ trick_taken g w g' ∧ running g'.
Proof.
  intros Hg H4. destruct (Plays g) as [|first rest] eqn:HP; [done|].
  pose proof (rn_lead _ Hg) as Hlead. rewrite HP in Hlead. simpl in Hlead.
  destruct (the_winner_highest (LeadSuit g) first rest (eq_sym Hlead)) as (Hw & Hws & Hwm).
  set (w := the_winner (LeadSuit g) first rest) in *.
  assert (Htakes : takes_trick g w) by (unfold takes_trick; rewrite HP; done).
  assert (Hwo : tp_PlayerID w ∈ order) by (apply (player_of_play g); [done|by rewrite HP]).
  destruct (trick_cards g Hg) as (Hci & Hcd & Hcz).
  destruct (collect_run (Plays g) (wonZone (tp_PlayerID w)) 0 g (rn_table _ Hg) (won_in order _ Hwo)
    (rn_plays _ Hg) Hci Hcd) as (s' & HC & Ht & Hm & Hz).
  set (cards := tp_CardID <$> Plays g) in *.
  set (g' := close_trick (tp_PlayerID w) (0 + sum_points cards) order (put_cards s' g)).
  assert (Hrun : resolveTrick order g = (Ok tt, g')).
  { unfold resolveTrick. rewrite !bind_eq. unfold hs_get at 1. cbv beta iota. rewrite bind_eq.
    unfold hs_get. cbv beta iota. rewrite bind_eq.
    assert (head (Plays g) = Some first) as -> by by rewrite HP.
    assert (tail (Plays g) = rest) as -> by by rewrite HP.
    unfold st_some, st_ret. cbv beta iota zeta. fold w. by rewrite bind_eq, HC. }
  assert (Hkeep : ∀ n, n ≠ trickZ → filter (.∉ cards) (members (hs_State g) n) = members (hs_State g) n).
  { intros n Hn. apply filter_id. intros x Hx Hxc. apply Hcz in Hxc.
    apply (table_member order) in Hx as [_ Hx]; [congruence|apply Hg]. }
  assert (Hwon : ∀ p, won_of g' p = won_of g p ++ (if decide (p = tp_PlayerID w) then cards else [])).
  { intros p. unfold won_of. simpl. rewrite Hm, Hkeep by done. f_equal. apply decide_ext.
    split; [apply wonZone_inj|by intros ->]. }
  assert (Hhand : ∀ p, hand_of g' p = hand_of g p).
  { intros p. unfold hand_of. simpl. by rewrite Hm, Hkeep, decide_False, app_nil_r by done. }
  assert (Hsc : ∀ p, p ∈ order → Scores g' !! p =
    Some (sum_points (won_of g p) + (if decide (p = tp_PlayerID w) then sum_points cards else 0))).
  { intros p Hp. simpl. pose proof (rn_scores _ Hg p) as Hsp. rewrite decide_True in Hsp by done.
    destruct (decide (p = tp_PlayerID w)) as [->|Hpw].
    - rewrite lookup_insert_eq, Hsp. done.
    - rewrite lookup_insert_ne, Hsp by done. f_equal. lia. }
  exists g', w. split; [done|]. split.
  - split; try done. simpl. apply list_elem_of_lookup in Hwo as [j Hj].
    by rewrite (seatOf_lookup j), Nat2Z.id.
  - split; simpl.
    + done.
    + intros i Hi. rewrite Hz. case_decide; [discriminate|by apply (rn_placed _ Hg)].
    + rewrite Hm, Hkeep, decide_False, app_nil_r by done. apply Hg.
    + rewrite Hm, (rn_trick _ Hg), decide_False, app_nil_r by done. fold cards.
      apply filter_nil_iff. intros x Hx Hn. done.
    + constructor.
    + apply seatOf_bound.
    + done.
    + done.
    + intros p Hp. rewrite Hhand. unfold players_in. simpl.
      pose proof (rn_hands _ Hg p Hp) as Hh. rewrite decide_True in Hh; [lia|].
      rewrite (rn_players _ Hg), HP, H4, take_ge by (by rewrite trick_order_length).
      by rewrite trick_order_perm.
    + intros p. case_decide as Hp.
      * change (Scores g' !! p = Some (sum_points (won_of g' p))). rewrite Hsc, Hwon by done.
        case_decide; [by rewrite sum_points_app|]. by rewrite app_nil_r, Z.add_0_r.
      * rewrite lookup_insert_ne by (intros <-; done). rewrite (rn_scores _ Hg p). by rewrite decide_False.
Qed.

(** ** A hand in progress always goes on *)

Lemma left_nonneg g : running g → 0 ≤ TricksLeft g.
Proof.
  intros Hg. destruct (trick_order g !! 0%nat) as [p|] eqn:Hp.
  - apply list_elem_of_lookup_2 in Hp. rewrite (trick_order_perm g) in Hp.
    rewrite <-(rn_hands _ Hg p Hp). case_decide; lia.
  - apply lookup_ge_None in Hp. rewrite trick_order_length in Hp. lia.
Qed.

Lemma sound_resolved g w g' : running g → running g' → trick_taken g w g' → TricksLeft g ≤ 13 → sound g'.
Proof.
  intros Hg Hg' Hw Hl. destruct (tt_cleared _ _ _ Hw) as (HP & _ & HT). split; [done| |].
  - rewrite HP. simpl. lia.
  - lia.
Qed.

(** The rules never leave the player on turn without a card. *)
Lemma rule_exists g p : sound g → 0 < TricksLeft g → on_turn g = Some p → ∃ id, may_play g p id.
Proof.
  intros [Hg Hn Hf] HT Hp. destruct (on_turn_exists g Hg Hn) as (p' & Hp' & Hpo & Hpn).
  assert (p' = p) as -> by congruence.
  pose proof (rn_hands _ Hg p Hpo) as Hh. rewrite decide_False in Hh by done.
  assert (Hex : ∃ c, c ∈ hand_of g p).
  { destruct (hand_of g p) as [|c l]; [simpl in Hh; lia|]. exists c. by left. }
  destruct Hex as [c Hc]. destruct (decide (Plays g = [])) as [HP|HP].
  - destruct (decide (TricksLeft g = 13)) as [H13|H13].
    + destruct (Hf H13 HP) as (q & Hq & H1). assert (q = p) as -> by congruence.
      exists 1. split; [done|]. split; [done|]. split; [by intros _|by intros].
    + destruct (decide (Forall (λ c, card_suit c = suitHrts) (hand_of g p))) as [HF|HF].
      * exists c. split; [done|]. split; [done|]. split; [by right|by intros].
      * apply not_Forall_Exists, Exists_exists in HF as (d & Hd & Hs); [|apply _].
        exists d. split; [done|]. split; [done|]. split; [by intros|by intros].
  - destruct (decide (Forall (λ c, card_suit c ≠ LeadSuit g) (hand_of g p))) as [HF|HF].
    + exists c. split; [done|]. split; [done|]. split; [done|by right].
    + apply not_Forall_Exists, Exists_exists in HF as (d & Hd & Hs); [|apply _].
      exists d. split; [done|]. split; [done|]. split; [done|]. left. by apply dec_stable.
Qed.

(** One play by the player on turn. *)
Lemma play_goes_on g p id : sound g → TricksLeft g ≤ 13 → on_turn g = Some p → may_play g p id →
  ∃ g', play_card p order id g = (Ok tt, g') ∧ sound g' ∧ TricksLeft g' ≤ 13 ∧
    cards_left g' = cards_left g - 1.
Proof.
  intros [Hg Hn Hf] HT Hp Hmay. destruct (on_turn_exists g Hg Hn) as (p' & Hp' & Hpo & Hpn).
  assert (p' = p) as -> by congruence.
  destruct (play_allowed g p id Hg Hpo Hmay) as (s' & _ & Ht & Hm & Hz & HE). cbv zeta in HE.
  assert (Hg1 : running (record_play (play_of p id) (put_cards s' g)))
    by (apply running_play; try done; apply Hmay).
  set (g1 := record_play (play_of p id) (put_cards s' g)) in *.
  assert (Hl1 : length (Plays g1) = S (length (Plays g))) by (simpl; rewrite length_app; simpl; lia).
  rewrite HE. case_decide as H4.
  - destruct (resolve_taken g1 Hg1 H4) as (g' & w & HR & Hw & Hg').
    exists g'. split; [done|]. pose proof (tt_cleared _ _ _ Hw) as (HP' & _ & HT').
    split; [by eapply (sound_resolved g1 w)|]. unfold cards_left. rewrite HP', HT'. simpl.
    simpl in HT'. rewrite Hl1 in H4. injection H4 as H4. lia.
  - exists g1. split; [done|]. split; [|split; [done|unfold cards_left; rewrite Hl1; simpl; lia]].
    split; [done|lia|]. intros _ HP. simpl in HP. by destruct (Plays g).
Qed.

(** ** The list of legal plays *)

Lemma skipped_rule g p id : running g → id ∈ hand_of g p →
  let leading := bool_decide (Plays g = []) in
  skipped g leading
    (if leading then false else bool_decide (Exists (λ c, card_suit c = LeadSuit g) (hand_of g p)))
    (if leading then bool_decide (Forall (λ c, card_suit c = suitHrts) (hand_of g p)) else false)
    (bool_decide (TricksLeft g = 13) && leading)
    (card_suit id) (card_rank id) = negb (bool_decide (rule g p id)).
Proof.
  intros Hg Hid leading. pose proof (hand_card g p id Hg Hid) as Hc. unfold skipped, leading.
  assert (bool_decide (card_suit id = suitClubs) && bool_decide (card_rank id = 2) =
    bool_decide (id = 1)) as ->.
  { rewrite <-bool_decide_and. by apply bool_decide_ext, two_of_clubs_id. }
  destruct (bool_decide_reflect (Plays g = [])) as [HP|HP].
  - rewrite andb_true_r. destruct (bool_decide_reflect (TricksLeft g = 13)) as [H13|H13].
    + f_equal. apply bool_decide_ext. unfold rule. split.
      * intros ->. split_and!; [done|by intros _|done].
      * intros (R1 & _). auto.
    + destruct (bool_decide_reflect (card_suit id = suitHrts)) as [Hs|Hs], (HeartsBroken g) eqn:Hb,
        (bool_decide_reflect (Forall (λ c, card_suit c = suitHrts) (hand_of g p))) as [HF|HF]; simpl;
        try (by rewrite bool_decide_true by (unfold rule; rewrite ?Hb; naive_solver)).
      rewrite bool_decide_false; [done|]. unfold rule. rewrite Hb. naive_solver.
  - rewrite andb_false_r. simpl. rewrite <-(negb_involutive (bool_decide (Exists _ _))), not_has_suit.
    destruct (bool_decide_reflect (Forall (λ c, card_suit c ≠ LeadSuit g) (hand_of g p))) as [HF|HF]; simpl.
    + rewrite bool_decide_true; [done|]. unfold rule. naive_solver.
    + rewrite bool_decide_not. f_equal. apply bool_decide_ext. unfold rule. naive_solver.
Qed.

Lemma legal_of_filter g leading mustFollow onlyH opening ids (P : EntityID → Prop)
    `{∀ id, Decision (P id)} : running g → Forall is_card ids →
  (∀ id, id ∈ ids → skipped g leading mustFollow onlyH opening (card_suit id) (card_rank id) =
                    negb (bool_decide (P id))) →
  legal_of g leading mustFollow onlyH opening ids = Ok (filter P ids).
Proof.
  intros Hg. induction 1 as [|id ids Hid Hids IH]; intros HP; [done|]. cbn [legal_of].
  rewrite (suitOf_card order) by (done || by apply rn_table). simpl.
  rewrite (rankOf_card order) by (done || by apply rn_table). simpl.
  rewrite IH by (intros; apply HP; by right). simpl. rewrite HP by by left. rewrite filter_cons.
  destruct (decide (P id)); [by rewrite bool_decide_true|by rewrite bool_decide_false].
Qed.

Lemma legal_cards_filter g p : running g → p ∈ order →
  legal_cards g p = Ok (filter (may_play g p) (hand_of g p)).
Proof.
  intros Hg Hp. pose proof (rn_table _ Hg) as Ht. pose proof (hand_in order p Hp) as Hz.
  assert (HE : filter (may_play g p) (hand_of g p) = filter (rule g p) (hand_of g p)).
  { apply filter_ext_in. intros id Hid. unfold may_play, rule. naive_solver. }
  rewrite HE. unfold legal_cards. destruct (table_zone order _ _ Ht Hz) as (z & -> & -> & _).
  cbv zeta. fold (hand_of g p).
  assert (hasSuit g (handZone p) (LeadSuit g) =
    Ok (bool_decide (Exists (λ c, card_suit c = LeadSuit g) (hand_of g p)))) as ->
    by by apply (hasSuit_table order).
  destruct (decide (hand_of g p = [])) as [Hnil|Hne].
  { rewrite Hnil. destruct (bool_decide (Plays g = [])); simpl; [|done].
    unfold onlyHearts. destruct (table_zone order _ _ Ht Hz) as (z' & -> & -> & _).
    fold (hand_of g p). by rewrite Hnil. }
  assert (onlyHearts g (handZone p) =
    Ok (bool_decide (Forall (λ c, card_suit c = suitHrts) (hand_of g p)))) as ->
    by by apply (onlyHearts_table order).
  pose proof (members_cards order _ (handZone p) Ht) as Hcs.
  destruct (bool_decide (Plays g = [])) eqn:HP; simpl; apply legal_of_filter; try done;
    intros id Hid; pose proof (skipped_rule g p id Hg Hid) as HS; cbv zeta in HS; by rewrite HP in HS.
Qed.

(** ** The points *)

Lemma zone_of_named (s : CardState) id : table order s → zone_of s id ≠ "" → zone_of s id ∈ zone_names order.
Proof.
  intros Ht Hz. unfold zone_of in *. destruct (Entities s !! id) as [e|] eqn:He; [|done]. simpl in *.
  destruct (wf_placed _ (tb_wf _ _ Ht) id e He Hz) as [z Hzn].
  pose proof (tb_zones _ _ Ht (en_Zone e)) as Hc. rewrite Hzn in Hc. by case_decide.
Qed.

(** When the hand is over every card has been won by somebody. *)
Lemma all_won g : running g → TricksLeft g = 0 → Plays g = [] → order ≫= won_of g ≡ₚ deck.
Proof.
  intros Hg HT HP. pose proof (rn_table _ Hg) as Ht. pose proof (tb_wf _ _ Ht) as Hwf.
  apply NoDup_Permutation; [|apply NoDup_seqZ|].
  - revert Hnd. clear Hlen. generalize order as l. induction l as [|p l IH]; intros Hl; [constructor|].
    apply NoDup_cons in Hl as [Hp Hl]. rewrite bind_cons. apply NoDup_app. split_and!.
    + by apply members_NoDup.
    + intros id H1 (q & H2 & Hq)%list_elem_of_bind.
      apply (table_member order) in H1 as [_ H1]; [|done].
      apply (table_member order) in H2 as [_ H2]; [|done].
      assert (p = q) as -> by (apply wonZone_inj; congruence). done.
    + by apply IH.
  - intros id. rewrite elem_of_deck, list_elem_of_bind. split.
    + intros (p & Hid & _). by apply (table_member order) in Hid as [? _].
    + intros Hid. pose proof (zone_of_named _ id Ht (rn_placed _ Hg id Hid)) as Hz.
      pose proof (zone_of_member order _ _ id Ht Hz eq_refl) as Hm. unfold zone_names in Hz.
      rewrite !elem_of_cons, list_elem_of_bind in Hz. destruct Hz as [Hz|[Hz|(p & Hz & Hp)]].
      * rewrite Hz, (rn_deck _ Hg) in Hm. by apply elem_of_nil in Hm.
      * rewrite Hz, (rn_trick _ Hg), HP in Hm. by apply elem_of_nil in Hm.
      * rewrite !elem_of_cons, elem_of_nil in Hz. destruct Hz as [Hz|[Hz|[]]].
        -- pose proof (rn_hands _ Hg p Hp) as Hh. unfold hand_of in Hh. rewrite <-Hz in Hh.
           destruct (members (hs_State g) (zone_of (hs_State g) id)); [by apply elem_of_nil in Hm|].
           simpl in Hh. case_decide; lia.
        -- exists p. split; [|done]. unfold won_of. by rewrite <-Hz.
Qed.

Definition total_score g : Z := foldr (λ p n, default 0 (Scores g !! p) + n) 0 order.

Lemma total_is_26 g : running g → TricksLeft g = 0 → Plays g = [] → total_score g = 26.
Proof.
  intros Hg HT HP. rewrite <-deck_points, <-(all_won g Hg HT HP). unfold total_score.
  assert (Hs : ∀ p, p ∈ order → Scores g !! p = Some (sum_points (won_of g p))).
  { intros p Hp. by rewrite (rn_scores _ Hg p), decide_True. }
  revert Hs. clear Hlen. generalize order as l. induction l as [|p l IH]; intros Hs; [done|].
  rewrite bind_cons, sum_points_app, <-IH by (intros; apply Hs; by right). simpl.
  by rewrite Hs by by left.
Qed.

Lemma over_empty g : running g → TricksLeft g = 0 → Plays g = [].
Proof.
  intros Hg HT. destruct (Plays g) as [|pl l] eqn:HP; [done|].
  assert (Hpl : pl ∈ Plays g) by (rewrite HP; by left).
  pose proof (rn_hands _ Hg _ (player_of_play g pl Hg Hpl)) as Hh.
  rewrite decide_True in Hh; [lia|]. unfold players_in. by apply list_elem_of_fmap_2.
Qed.

(** ** The deal *)

Lemma zero_scores_lookup l (m : gmap string Z) p :
  fold_left (λ m pid, <[pid := 0]> m) l m !! p = if decide (p ∈ l) then Some 0 else m !! p.
Proof.
  revert m. induction l as [|q l IH]; intros m; [done|]. cbn [fold_left]. rewrite IH.
  destruct (decide (p ∈ l)) as [Hp|Hp].
  - by rewrite decide_True by by right.
  - destruct (decide (p = q)) as [->|Hpq].
    + rewrite lookup_insert_eq, decide_True; [done|by left].
    + rewrite lookup_insert_ne, decide_False by (done || by intros [|]%elem_of_cons). done.
Qed.

Lemma deal_sound seed : ∃ g, new_hand order seed = Ok g ∧ sound g ∧ TricksLeft g = 13 ∧ cards_left g = 52.
Proof.
  destruct (setup_dealt order Hnd Hlen seed) as (leader & s & Hs & D).
  destruct D as [Ht Hd Htr Hw Hh Hp Hse Hl].
  assert (Hdn : members s deckZone = []) by (destruct (members s deckZone); [done|simpl in Hd; lia]).
  unfold new_hand. rewrite Hs. eexists. split; [done|]. split; [|done].
  assert (Hr : running (mkHearts s leader [] "" false (zero_scores order) 13)).
  { split; simpl; try done.
    - intros p Hp'. unfold hand_of. simpl. apply list_elem_of_lookup in Hp' as [j Hj].
      rewrite (Hh j p Hj). apply lookup_lt_Some in Hj. rewrite Hlen in Hj.
      by destruct j as [|[|[|[|]]]]; [..|lia].
    - intros p. unfold zero_scores. rewrite zero_scores_lookup, lookup_empty.
      unfold won_of. simpl. by rewrite Hw. }
  split; [done|simpl; lia|]. intros _ _. unfold on_turn, next_seat. simpl.
  destruct Hl as [Hl|Hl]; [|done]. rewrite Hdn in Hl. by apply elem_of_nil in Hl.
Qed.
End hand.

Lemma new_hand_plays order seed g : new_hand order seed = Ok g → Plays g = [].
Proof.
  unfold new_hand. destruct (setup_seeded _ _ _) as [[l|e| |] s]; [|done..]. by intros [= <-].
Qed.

(** ** Hands that can come up *)
Section hands.
Context (order : list string).
Implicit Types (g : State) (p : string) (id : EntityID).

(** A hand dealt off some seed and played for a while by the players on turn. *)
Inductive in_play : State → Prop :=
  | dealt_hand seed g : new_hand order seed = Ok g → in_play g
  | played_card g p id g' :
      in_play g → on_turn order g = Some p → play_card p order id g = (Ok tt, g') → in_play g'.

Context (Hnd : NoDup order) (Hlen : length order = 4%nat).

Lemma in_play_sound g : in_play g → sound order g ∧ TricksLeft g ≤ 13.
Proof.
  induction 1 as [seed g Hg|g p id g' _ [IH HT] Hp HR].
  - destruct (deal_sound order Hnd Hlen seed) as (g' & Hg' & Hs & HT & _).
    assert (g' = g) as -> by congruence. split; [done|lia].
  - destruct (on_turn_exists order Hnd Hlen g) as (q & Hq & Hqo & _); [apply IH..|].
    assert (q = p) as -> by congruence. destruct (decide (may_play g p id)) as [Hm|Hm].
    + destruct (play_goes_on order Hnd Hlen g p id IH HT Hp Hm) as (g2 & H2 & Hs2 & HT2 & _).
      by assert (g2 = g') as -> by congruence.
    + rewrite (play_refused order) in HR by (done || apply IH). done.
Qed.

(** C37: At any point of any hand, a play by the player on turn goes through exactly when
    the card is in their hand, is the two of clubs if it opens the hand, follows suit
    where the hand can, and leads hearts only when they are broken or nothing else is
    left; any other play is an invalid move that changes nothing; and the list of
    legal moves has exactly the cards that go through. *)
Theorem plays_follow_the_rules g p id : in_play g → on_turn order g = Some p →
  ((∃ g', play_card p order id g = (Ok tt, g')) ↔ may_play g p id) ∧
  (¬ may_play g p id → play_card p order id g = (Err ErrInvalidMove, g)) ∧
  (∃ ids, legal_cards g p = Ok ids ∧ (id ∈ ids ↔ may_play g p id)).
Proof.
  intros Hi Hp. destruct (in_play_sound g Hi) as [Hs HT]. pose proof (so_running _ _ Hs) as Hg.
  destruct (on_turn_exists order Hnd Hlen g) as (q & Hq & Hqo & _); [apply Hs..|].
  assert (q = p) as -> by congruence. split_and!.
  - split.
    + intros [g' HR]. apply dec_stable. intros Hno. by rewrite (play_refused order) in HR.
    + intros Hm. destruct (play_goes_on order Hnd Hlen g p id Hs HT Hp Hm) as (g' & HR & _). eauto.
  - intros Hno. by apply (play_refused order).
  - eexists. split; [by apply (legal_cards_filter order)|].
    rewrite list_elem_of_filter. unfold may_play. naive_solver.
Qed.

(** The play that completes a trick gives all its cards, and their points, to the
    player of the highest card of the suit led, who leads the next trick. *)
Theorem trick_goes_to_the_highest g p id g' : in_play g → on_turn order g = Some p →
  length (Plays g) = 3%nat → play_card p order id g = (Ok tt, g') →
  let trick := Plays g ++ [play_of p id] in
  ∃ w, w ∈ trick ∧ tp_Suit w = LeadSuit g ∧
    (∀ q, q ∈ trick → tp_Suit q = LeadSuit g → tp_Rank q ≤ tp_Rank w) ∧
    on_turn order g' = Some (tp_PlayerID w) ∧ Plays g' = [] ∧
    (∀ q, won_of g' q = won_of g q ++ (if decide (q = tp_PlayerID w) then tp_CardID <$> trick else [])) ∧
    (∀ q, q ∈ order → Scores g' !! q = Some (default 0 (Scores g !! q) +
       (if decide (q = tp_PlayerID w) then sum_points (tp_CardID <$> trick) else 0))).
Proof.
  intros Hi Hp H3 HR trick. destruct (in_play_sound g Hi) as [Hs HT].
  pose proof (so_running _ _ Hs) as Hg.
  destruct (on_turn_exists order Hnd Hlen g) as (q & Hq & Hqo & Hqn); [apply Hs..|].
  assert (q = p) as -> by congruence.
  assert (Hm : may_play g p id).
  { apply dec_stable. intros Hno. by rewrite (play_refused order) in HR. }
  destruct (play_allowed order Hnd Hlen g p id Hg Hqo Hm) as (s' & _ & Ht & Hms & Hz & HE). cbv zeta in HE.
  assert (Hg1 : running order (record_play (play_of p id) (put_cards s' g)))
    by (apply running_play; try done; [lia|apply Hm]).
  set (g1 := record_play (play_of p id) (put_cards s' g)) in *.
  assert (HP1 : Plays g1 = trick) by done.
  assert (Hlead : LeadSuit g1 = LeadSuit g) by (simpl; by destruct (Plays g)).
  rewrite HE, decide_True in HR by (rewrite HP1; unfold trick; rewrite length_app, H3; done).
  assert (H4 : length (Plays g1) = 4%nat) by (rewrite HP1; unfold trick; rewrite length_app, H3; done).
  destruct (resolve_taken order Hnd Hlen g1 Hg1 H4) as (g2 & w & HR2 & Hw & Hg2).
  assert (g2 = g') as -> by congruence. destruct (tt_takes _ _ _ _ Hw) as (Hin & Hsu & Hmax).
  destruct (tt_cleared _ _ _ _ Hw) as (HP' & _ & _). rewrite HP1, Hlead in *. exists w.
  assert (Hwon1 : ∀ q, won_of g1 q = won_of g q).
  { intros q. unfold won_of. simpl. rewrite Hms, decide_False, app_nil_r by done.
    apply (filter_elsewhere order); [apply Hg|]. destruct Hm as [Hm _].
    apply (table_member order) in Hm as [_ ->]; [done|apply Hg]. }
  split_and!; [done..| |done| |].
  - unfold on_turn, next_seat. rewrite HP'. simpl. apply go_index_Some.
    rewrite Hlen. split; [exact (rn_leader _ _ Hg2)|apply Hw].
  - intros q. by rewrite (tt_won _ _ _ _ Hw q), Hwon1, HP1.
  - intros q Hq'. rewrite (tt_score _ _ _ _ Hw q Hq'), Hwon1, HP1.
    pose proof (rn_scores _ _ Hg q) as Hsq. rewrite decide_True in Hsq by done. by rewrite Hsq.
Qed.

(** ** The end of a hand *)

Lemma low_score_least (m : gmap string Z) : m ≠ ∅ → (∀ p v, m !! p = Some v → 0 ≤ v) →
  (∃ p, m !! p = Some (low_score m)) ∧ ∀ p v, m !! p = Some v → low_score m ≤ v.
Proof.
  unfold low_score. intros Hne Hnn.
  enough ((m = ∅ ∧ map_fold (λ _ v low, if decide (low < 0 ∨ v < low) then v else low) (-1) m = -1) ∨
    ((∃ p, m !! p = Some (map_fold (λ _ v low, if decide (low < 0 ∨ v < low) then v else low) (-1) m)) ∧
     ∀ p v, m !! p = Some v → map_fold (λ _ v low, if decide (low < 0 ∨ v < low) then v else low) (-1) m ≤ v))
    as [[? _]|?]; [done|done|].
  clear Hne. revert Hnn. apply (map_fold_weak_ind (λ low m, (∀ p v, m !! p = Some v → 0 ≤ v) →
    (m = ∅ ∧ low = -1) ∨ ((∃ p, m !! p = Some low) ∧ ∀ p v, m !! p = Some v → low ≤ v))).
  { intros _. by left. }
  intros p v m' low Hp IH Hnn. right.
  assert (Hv : 0 ≤ v) by (apply (Hnn p); apply lookup_insert_eq).
  destruct IH as [[-> ->]|[(q & Hq) Hle]].
  { intros q u Hq. apply (Hnn q). rewrite lookup_insert_ne by (intros ->; congruence). done. }
  - rewrite decide_True by lia. split; [exists p; apply lookup_insert_eq|].
    intros q u [[_ <-]|[_ Hq]]%lookup_insert_Some; [lia|]. by rewrite lookup_empty in Hq.
  - assert (Hlow : 0 ≤ low) by (apply (Hnn q); rewrite lookup_insert_ne by (intros ->; congruence); done).
    case_decide as Hd.
    + split; [exists p; apply lookup_insert_eq|].
      intros r u [[_ <-]|[_ Hr]]%lookup_insert_Some; [lia|]. specialize (Hle r u Hr). lia.
    + split; [exists q; rewrite lookup_insert_ne by (intros ->; congruence); done|].
      intros r u [[_ <-]|[_ Hr]]%lookup_insert_Some; [lia|]. by apply (Hle r).
Qed.

(** When no card is left 26 points have been dealt out, and the winners are the
    players with the fewest, at least one. *)
Lemma hand_over g : in_play g → cards_left g = 0 →
  total_score order g = 26 ∧
  ∃ ws, hand_result order g = Some (VResult ws (Scores g)) ∧ ws ≠ [] ∧
    ∀ p, p ∈ order → (p ∈ ws ↔ ∀ q, q ∈ order → default 0 (Scores g !! p) ≤ default 0 (Scores g !! q)).
Proof.
  intros Hi Hc. destruct (in_play_sound g Hi) as [Hs _]. pose proof (so_running _ _ Hs) as Hr.
  assert (HT : TricksLeft g = 0).
  { pose proof (left_nonneg order Hlen g Hr). pose proof (so_open _ _ Hs). unfold cards_left in Hc. lia. }
  pose proof (over_empty order Hnd Hlen g Hr HT) as HP. split; [by apply total_is_26|].
  assert (Hsc : ∀ p, p ∈ order → ∃ v, Scores g !! p = Some v ∧ 0 ≤ v).
  { intros p Hp. rewrite (rn_scores _ _ Hr p), decide_True by done.
    eexists. split; [done|apply sum_points_nonneg]. }
  assert (Hin : ∀ p v, Scores g !! p = Some v → p ∈ order).
  { intros p v. rewrite (rn_scores _ _ Hr p). by case_decide. }
  destruct (low_score_least (Scores g)) as [(p0 & Hp0) Hle].
  { assert (∃ p, p ∈ order) as [p Hp].
    { clear -Hlen. destruct order as [|p l]; [done|]. exists p. by left. }
    destruct (Hsc p Hp) as (v & Hv & _). intros Hn. by rewrite Hn, lookup_empty in Hv. }
  { intros p v Hv. destruct (Hsc p (Hin p v Hv)) as (v' & Hv' & ?). by simplify_eq. }
  eexists. unfold hand_result. rewrite decide_False by lia. split; [done|]. split.
  - intros Hn. assert (p0 ∈ winners order (Scores g)) as Hw.
    { apply list_elem_of_filter. split; [by rewrite Hp0|by eapply Hin]. }
    rewrite Hn in Hw. by apply elem_of_nil in Hw.
  - intros p Hp. unfold winners. rewrite list_elem_of_filter.
    destruct (Hsc p Hp) as (v & Hv & _). rewrite Hv. simpl. split.
    + intros [-> _] q Hq. destruct (Hsc q Hq) as (u & Hu & _). rewrite Hu. by apply (Hle q).
    + intros Hall. split; [|done]. specialize (Hall p0 (Hin _ _ Hp0)). rewrite Hp0 in Hall. simpl in Hall.
      specialize (Hle p v Hv). lia.
Qed.
End hands.

(** ** A table *)
Definition table_of_four : list string := ["N"; "E"; "S"; "W"].

Lemma table_of_four_ok : NoDup table_of_four ∧ length table_of_four = 4%nat.
Proof. split; [|done]. by apply (bool_decide_unpack _); vm_compute. Qed.

Lemma plays_follow_the_rules_witness : ∃ g p, in_play table_of_four g ∧
  on_turn table_of_four g = Some p ∧
  ((∃ g', play_card p table_of_four 1 g = (Ok tt, g')) ↔ may_play g p 1).
Proof.
  destruct table_of_four_ok as [Hnd Hlen].
  destruct (deal_sound table_of_four Hnd Hlen 42) as (g & Hg & Hs & _).
  destruct (on_turn_exists table_of_four Hnd Hlen g (so_running _ _ Hs) (so_open _ _ Hs)) as (p & Hp & _).
  assert (Hi : in_play table_of_four g) by exact (dealt_hand _ 42 g Hg).
  exists g, p. split; [done|]. split; [done|].
  exact (proj1 (plays_follow_the_rules table_of_four Hnd Hlen g p 1 Hi Hp)).
Defined.

(** Play goes on from any point of a hand with cards left. *)
Lemma goes_on order (Hnd : NoDup order) (Hlen : length order = 4%nat) g :
  in_play order g → 0 < TricksLeft g →
  ∃ p id g', on_turn order g = Some p ∧ play_card p order id g = (Ok tt, g') ∧
    in_play order g' ∧ cards_left g' = cards_left g - 1.
Proof.
  intros Hi H0. destruct (in_play_sound order Hnd Hlen g Hi) as [Hs HT].
  destruct (on_turn_exists order Hnd Hlen g (so_running _ _ Hs) (so_open _ _ Hs)) as (p & Hp & _).
  destruct (rule_exists order Hnd Hlen g p Hs H0 Hp) as [id Hm].
  destruct (play_goes_on order Hnd Hlen g p id Hs HT Hp Hm) as (g' & HR & _ & _ & Hl).
  exists p, id, g'. split; [done|]. split; [done|]. split; [by eapply played_card|done].
Qed.

Lemma three_played : ∃ g p id g', in_play table_of_four g ∧ on_turn table_of_four g = Some p ∧
  length (Plays g) = 3%nat ∧ play_card p table_of_four id g = (Ok tt, g').
Proof.
  destruct table_of_four_ok as [Hnd Hlen].
  assert (Hopen : ∀ g, in_play table_of_four g → (length (Plays g) < 4)%nat).
  { intros g Hi. by destruct (in_play_sound table_of_four Hnd Hlen g Hi) as [[_ ? _] _]. }
  destruct (deal_sound table_of_four Hnd Hlen 42) as (g0 & Hg & _ & _ & H0).
  assert (Hi0 : in_play table_of_four g0) by by econstructor.
  pose proof (Hopen g0 Hi0) as Ho0. unfold cards_left in H0.
  destruct (goes_on _ Hnd Hlen g0 Hi0) as (? & ? & g1 & _ & _ & Hi1 & H1); [lia|].
  pose proof (Hopen g1 Hi1) as Ho1. unfold cards_left in H1.
  destruct (goes_on _ Hnd Hlen g1 Hi1) as (? & ? & g2 & _ & _ & Hi2 & H2); [lia|].
  pose proof (Hopen g2 Hi2) as Ho2. unfold cards_left in H2.
  destruct (goes_on _ Hnd Hlen g2 Hi2) as (? & ? & g3 & _ & _ & Hi3 & H3); [lia|].
  pose proof (Hopen g3 Hi3) as Ho3. unfold cards_left in H3.
  destruct (goes_on _ Hnd Hlen g3 Hi3) as (p & id & g4 & Hp & HR & _ & _); [lia|].
  exists g3, p, id, g4. split; [done|]. split; [done|]. split; [lia|done].
Qed.

Lemma trick_goes_to_the_highest_witness : ∃ g p id g', length (Plays g) = 3%nat ∧
  let trick := Plays g ++ [play_of p id] in
  ∃ w, w ∈ trick ∧ on_turn table_of_four g' = Some (tp_PlayerID w) ∧ Plays g' = [].
Proof.
  destruct table_of_four_ok as [Hnd Hlen]. destruct three_played as (g & p & id & g' & Hi & Hp & H3 & HR).
  exists g, p, id, g'. split; [done|]. cbv zeta.
  destruct (trick_goes_to_the_highest table_of_four Hnd Hlen g p id g' Hi Hp H3 HR)
    as (w & Hw & _ & _ & Ht & Hc & _).
  by exists w.
Defined.
