(* ===== verification/HeartsMatch.v ===== *)
(** * Hearts over the engine

    The game of Hearts.v played through NewMatch and Apply: a request for a card runs
    the whole reducer, and a match played by any rule for choosing among the
    enumerated moves ends after 52 requests. *)

From S2P Require Import Prelude CoreTypes Api GameDef Reducer Session OneMove.
From S2P Require Import Choices Cards Hearts HeartsFacts HeartsTheorems.
#[local] Open Scope Z_scope.

Section hearts_match.
Context (wild : SpecFloat.spec_float → Z).
Abbreviation game := (New wild).
Implicit Types (s : CoreTypes.State) (g : State) (w : world).

Definition seats : list string := defaultPlayOrder 4.

Lemma seats_NoDup : NoDup seats.
Proof. apply (bool_decide_unpack _). by vm_compute. Qed.
Lemma seats_four : length seats = 4%nat.
Proof. done. Qed.
#[local] Hint Resolve seats_NoDup seats_four : core.

Definition order_next : MoveContext → prog (option Z) := λ mc, OpRead (λ w,
  match state_of (mc_G mc) w with
  | Some g => match next_seat (ctx_PlayOrder (mc_Ctx mc)) g with
              | Some n => Ret (Some n)
              | None => Crash
              end
  | None => Crash
  end).

Lemma hearts_one_move : one_move game "play" (playCard wild) order_next gameEndIf.
Proof. split; try done. eexists. split; done. Qed.

(** ** What the game's code does to the memory *)

Definition play_result g (r : outcome error () * State) : outcome error (error + any) * world :=
  (match r.1 with
   | Ok _ => Ok (inr (Some VState))
   | Err e => Ok (inl e)
   | Panicked | NoFuel => Panicked
   end, Some r.2).

(** The memory holds the hand [g] when the code runs. *)
Lemma run_playCard mc args g c extra e : mc_G mc = Some VState → env_world e = Some g →
  run c (playCard wild mc args) extra e =
  (match (play_result g (playCard_on wild mc args g)).1 with
   | Ok a => Ok (a, extra)
   | Err x => Err x
   | Panicked => Panicked
   | NoFuel => NoFuel
   end, set_env_world (play_result g (playCard_on wild mc args g)).2 e).
Proof.
  intros HG Hw. unfold playCard. simpl. rewrite HG, Hw. simpl.
  destruct (playCard_on wild mc args g) as [[[]|x| |] g']; done.
Qed.

Definition playW mc args : world → outcome error (error + any) * world := λ w,
  match state_of (mc_G mc) w with
  | Some g => (match (playCard_on wild mc args g).1 with
               | Ok _ => Ok (inr (mc_G mc))
               | Err e => Ok (inl e)
               | Panicked | NoFuel => Panicked
               end, Some (playCard_on wild mc args g).2)
  | None => (Panicked, w)
  end.

Lemma play_memory mc args : memory_only (playCard wild mc args) (playW mc args).
Proof.
  intros c e extra. unfold playCard, playW. simpl. destruct (state_of _ _) as [g|]; [|by destruct e].
  destruct (playCard_on wild mc args g) as [[[]|x| |] g']; done.
Qed.

Definition endW (mc : MoveContext) : world → outcome error any * world := λ w,
  match state_of (mc_G mc) w with
  | Some g => (Ok (hand_result (ctx_PlayOrder (mc_Ctx mc)) g), w)
  | None => (Panicked, w)
  end.

Lemma end_memory mc : memory_only (gameEndIf mc) (endW mc).
Proof.
  intros c e extra. unfold gameEndIf, endW. simpl. by destruct (state_of _ _), e.
Qed.

Definition nextW (mc : MoveContext) : world → outcome error (option Z) * world := λ w,
  match state_of (mc_G mc) w ≫= next_seat (ctx_PlayOrder (mc_Ctx mc)) with
  | Some n => (Ok (Some n), w)
  | None => (Panicked, w)
  end.

Lemma next_memory mc : memory_only (order_next mc) (nextW mc).
Proof.
  intros c e extra. unfold order_next, nextW. simpl. destruct (state_of _ _) as [g|]; simpl; [|by destruct e].
  by destruct (next_seat _ g), e.
Qed.

(** ** A match in progress *)
Record at_table s w g : Prop := {
  at_state : ∃ c id log, s = idle (Some VState) c id log ∧ waiting c ∧ ctx_PlayOrder c = seats ∧
    on_turn seats g = Some (ctx_CurrentPlayer c);
  at_memory : w = Some g;
  at_hand : in_play seats g
}.

Lemma next_wrapped g p : in_play seats g → on_turn seats g = Some p →
  ∃ n, next_seat seats g = Some n ∧ wrapped seats n = n ∧ go_index seats n = Some p.
Proof.
  intros Hi Hp. unfold on_turn in Hp. destruct (next_seat seats g) as [n|] eqn:Hn; [|done]. simpl in Hp.
  exists n. split; [done|]. split; [|done]. apply go_index_Some in Hp as [Hr _]. unfold wrapped.
  cbv zeta. by rewrite decide_False by lia.
Qed.

Definition play_request (p : string) (id : EntityID) (now : Z) (client : bool) : MoveRequest :=
  a_move "play" p (ea_Args (card_action id)) now client.

Lemma playCard_on_card (c : Ctx) id g :
  playCard_on wild (player_mc (Some VState) c (ctx_CurrentPlayer c)) (ea_Args (card_action id)) g =
  play_card (ctx_CurrentPlayer c) (ctx_PlayOrder c) id g.
Proof.
  unfold playCard_on. rewrite bind_eq. change (mc_PlayerID _) with (ctx_CurrentPlayer c).
  change (mc_Ctx _) with c. by rewrite bool_decide_true.
Qed.

(** A card the rules allow is played; the match goes on with the player on turn, or
    ends with the result of the hand. *)
Lemma allowed_request fuel s w g p id now client : at_table s w g → on_turn seats g = Some p → may_play g p id →
  ∃ s' g', play_card p seats id g = (Ok tt, g') ∧
    Apply (S fuel) game s (play_request p id now client) w = (Ok (s', None), Some g') ∧
    st_StateID s' = st_StateID s + 1 ∧
    if decide (0 < TricksLeft g') then at_table s' (Some g') g'
    else ctx_Gameover (st_Ctx s') = hand_result seats g'.
Proof.
  intros [(c & sid & log & -> & Hc & Ho & Hcur) -> Hi] Hp Hm.
  assert (ctx_CurrentPlayer c = p) as <- by congruence. clear Hp.
  destruct (in_play_sound seats seats_NoDup seats_four g Hi) as [Hs HT].
  destruct (play_goes_on seats seats_NoDup seats_four g _ id Hs HT Hcur Hm) as (g' & HR & Hs' & HT' & _).
  assert (Hi' : in_play seats g') by by eapply played_card.
  destruct (on_turn_exists seats seats_NoDup seats_four g' (so_running _ _ Hs') (so_open _ _ Hs'))
    as (p' & Hp' & _).
  destruct (next_wrapped g' p' Hi' Hp') as (n & Hn & Hw & Hgo).
  set (mc := player_mc (T:=HeartsTypes) (Some VState) (set_ctx_NowMs now c) (ctx_CurrentPlayer c)).
  set (args := ea_Args (card_action id)).
  assert (Hplay : playW mc args (Some g) = (Ok (inr (Some VState)), Some g')).
  { unfold playW. change (state_of (mc_G mc) (Some g)) with (Some g). cbv beta iota.
    pose proof (playCard_on_card (set_ctx_NowMs now c) id g) as HP.
    change (ctx_CurrentPlayer (set_ctx_NowMs now c)) with (ctx_CurrentPlayer c) in HP.
    change (ctx_PlayOrder (set_ctx_NowMs now c)) with (ctx_PlayOrder c) in HP.
    fold mc args in HP. by rewrite HP, Ho, HR. }
  set (mce := hook_mc (T:=HeartsTypes) (Some VState) (counted now c) (ctx_CurrentPlayer c) true).
  assert (Hend : endW mce (Some g') = (Ok (hand_result seats g'), Some g')).
  { unfold endW. change (state_of _ _) with (Some g'). change (ctx_PlayOrder _) with (ctx_PlayOrder c).
    by rewrite Ho. }
  destruct (decide (0 < TricksLeft g')) as [Hlt|Hge].
  - set (mcn := hook_mc (T:=HeartsTypes) (Some VState) (set_ctx_NowMs now c) "" false).
    assert (Hnext : nextW mcn (Some g') = (Ok (Some n), Some g')).
    { unfold nextW. change (state_of _ _) with (Some g'). change (ctx_PlayOrder _) with (ctx_PlayOrder c).
      rewrite Ho. simpl. by rewrite Hn. }
    unfold hand_result in Hend. rewrite decide_True in Hend by done.
    eexists _, g'. split; [exact HR|]. split.
    + eapply (one_move_continues game _ _ _ _ hearts_one_move fuel (Some VState) c sid log args now client);
        [done|apply play_memory|exact Hplay|apply end_memory|exact Hend|apply next_memory|exact Hnext|].
      by rewrite Ho, Hw.
    + split; [done|]. rewrite decide_True by done. split; [|done..].
      eexists _, _, _. split; [done|]. destruct Hc as [? ? ? ?]. by repeat split.
  - unfold hand_result in Hend. rewrite decide_False in Hend by done.
    eexists _, g'. split; [exact HR|]. split.
    + eapply (one_move_ends game _ _ _ _ hearts_one_move fuel (Some VState) c sid log args now client);
        [done|apply play_memory|exact Hplay|apply end_memory|exact Hend].
    + split; [done|]. rewrite decide_False by done. unfold hand_result. by rewrite decide_False.
Qed.

(** ** New matches *)

Definition order_first : MoveContext → prog Z := λ mc, OpRead (λ w,
  match state_of (mc_G mc) w with Some g => Ret (LeaderSeat g) | None => Crash end).

Definition firstW (mc : MoveContext) : world → outcome error Z * world := λ w,
  match state_of (mc_G mc) w with Some g => (Ok (LeaderSeat g), w) | None => (Panicked, w) end.

Lemma first_memory mc : memory_only (order_first mc) (firstW mc).
Proof. intros c e extra. unfold order_first, firstW. simpl. by destruct (state_of _ _), e. Qed.

Lemma four_players np : PlayerCount game np = 4.
Proof. unfold PlayerCount. simpl. repeat case_decide; lia. Qed.

Definition first_ctx (seed : Z) : Ctx := initial_ctx game 4 "0" seed.

Lemma setup_deals c data w g : ctx_PlayOrder c = seats → new_hand seats (setup_seed wild data) = Ok g →
  setup wild c data w = (Some VState, Some g).
Proof. intros Hc Hg. unfold setup. by rewrite Hc, Hg. Qed.

Lemma leader_first seed g :
  firstW (hook_mc (T:=HeartsTypes) (Some VState) (first_ctx seed) "" false) (Some g) = (Ok (LeaderSeat g), Some g).
Proof. done. Qed.

Lemma seats_first : go_index (defaultPlayOrder 4) 0 = Some "0".
Proof. by vm_compute. Qed.

(** However the match is created, four players are seated, each with thirteen cards,
    and the holder of the two of clubs is on turn. *)
Lemma new_match_at_table fuel np data seed w : ∃ s g,
  NewMatchSeeded (S fuel) game np data seed w = (Ok s, Some g) ∧ at_table s (Some g) g ∧
  st_StateID s = 0 ∧ new_hand seats (setup_seed wild data) = Ok g.
Proof.
  destruct (deal_sound seats seats_NoDup seats_four (setup_seed wild data)) as (g & Hg & Hs & _ & Hl).
  assert (Hi : in_play seats g) by by econstructor.
  destruct (on_turn_exists seats seats_NoDup seats_four g (so_running _ _ Hs) (so_open _ _ Hs))
    as (p & Hp & _).
  pose proof (new_hand_plays _ _ _ Hg) as Hpl.
  assert (Hgo : go_index (defaultPlayOrder 4) (LeaderSeat g) = Some p).
  { unfold on_turn, next_seat in Hp. by rewrite Hpl in Hp. }
  pose proof (setup_deals (first_ctx seed) data w g eq_refl Hg) as Hset.
  pose proof (one_move_new game _ _ _ _ hearts_one_move fuel np data seed w 4 "0" (setup wild) (Some VState)
    (Some g) order_first _ (LeaderSeat g) p (Some g) (four_players np) seats_first eq_refl Hset eq_refl eq_refl
    (first_memory _) (leader_first seed g) Hgo) as Hnew.
  set (c1 := set_ctx_CurrentPlayer p (set_ctx_PlayOrderPos (LeaderSeat g) (first_ctx seed))) in *.
  exists (idle (T:=HeartsTypes) (Some VState) c1 0 []), g. split; [exact Hnew|]. split; [|split; [reflexivity|exact Hg]].
  assert (Hw : waiting c1) by (split; reflexivity).
  split; [|reflexivity|exact Hi]. exists c1, 0, []. split; [reflexivity|]. split; [exact Hw|].
  split; [reflexivity|exact Hp].
Qed.

(** A card the rules do not allow is refused, and nothing changes. *)
Lemma refused_request fuel s w g p id now client : at_table s w g → on_turn seats g = Some p → ¬ may_play g p id →
  Apply (S fuel) game s (play_request p id now client) w = (Ok (s, Some ErrInvalidMove), w).
Proof.
  intros [(c & sid & log & -> & Hc & Ho & Hcur) -> Hi] Hp Hm.
  assert (ctx_CurrentPlayer c = p) as <- by congruence. clear Hp.
  destruct (in_play_sound seats seats_NoDup seats_four g Hi) as [Hs _].
  destruct (on_turn_exists seats seats_NoDup seats_four g (so_running _ _ Hs) (so_open _ _ Hs))
    as (q & Hq & Hqo & _). assert (q = ctx_CurrentPlayer c) as -> by congruence.
  set (mc := player_mc (T:=HeartsTypes) (Some VState) (set_ctx_NowMs now c) (ctx_CurrentPlayer c)).
  set (args := ea_Args (card_action id)).
  eapply (one_move_refused game _ _ _ _ hearts_one_move fuel (Some VState) c sid log args now client);
    [done|apply play_memory|]. fold mc. unfold playW.
  change (state_of (mc_G mc) (Some g)) with (Some g). cbv beta iota.
  pose proof (playCard_on_card (set_ctx_NowMs now c) id g) as HP.
  change (ctx_CurrentPlayer (set_ctx_NowMs now c)) with (ctx_CurrentPlayer c) in HP.
  change (ctx_PlayOrder (set_ctx_NowMs now c)) with (ctx_PlayOrder c) in HP.
  fold mc args in HP. rewrite HP, Ho.
  by rewrite (play_refused seats g _ id (so_running _ _ Hs) Hqo Hm).
Qed.

(** ** A match played out *)

(** Ask the game for the moves of the player on turn, request one of them. *)
Definition request_one (fuel : nat) (now : Z)
    (choose : CoreTypes.State → world → list EnumerateAction → EnumerateAction) s w
    : outcome error (CoreTypes.State * world) :=
  let p := ctx_CurrentPlayer (st_Ctx s) in
  acts ← enumerate (st_G s) (st_Ctx s) p w;
  let act := choose s w acts in
  match Apply fuel game s (a_move (ea_Move act) p (ea_Args act) now true) w with
  | (Ok (s, None), w) => Ok (s, w)
  | (Ok (_, Some e), _) => Err e
  | (Err e, _) => Err e
  | (Panicked, _) => Panicked
  | (NoFuel, _) => NoFuel
  end.

Fixpoint play_match (n fuel : nat) (now : Z)
    (choose : CoreTypes.State → world → list EnumerateAction → EnumerateAction) s w
    : outcome error (CoreTypes.State * world) :=
  match n with
  | O => Ok (s, w)
  | S n => '(s, w) ← request_one fuel now choose s w; play_match n fuel now choose s w
  end.

Definition picks (choose : CoreTypes.State → world → list EnumerateAction → EnumerateAction) : Prop :=
  ∀ s w acts, acts ≠ [] → choose s w acts ∈ acts.

Lemma request_one_goes fuel now choose s w g : picks choose → at_table s w g → 0 < TricksLeft g →
  ∃ s' g', request_one (S fuel) now choose s w = Ok (s', Some g') ∧
    st_StateID s' = st_StateID s + 1 ∧ in_play seats g' ∧ cards_left g' = cards_left g - 1 ∧
    if decide (0 < TricksLeft g') then at_table s' (Some g') g'
    else ctx_Gameover (st_Ctx s') = hand_result seats g'.
Proof.
  intros Hch Hat H0. pose proof Hat as [(c & sid & log & Hs & Hc & Ho & Hcur) -> Hi].
  destruct (in_play_sound seats seats_NoDup seats_four g Hi) as [Hsd HT].
  pose proof (so_running _ _ Hsd) as Hr.
  destruct (on_turn_exists seats seats_NoDup seats_four g Hr (so_open _ _ Hsd)) as (q & Hq & Hqo & _).
  assert (q = ctx_CurrentPlayer c) as -> by congruence.
  set (ids := filter (may_play g (ctx_CurrentPlayer c)) (hand_of g (ctx_CurrentPlayer c))).
  assert (HE : enumerate (st_G s) (st_Ctx s) (ctx_CurrentPlayer (st_Ctx s)) (Some g) = Ok (card_action <$> ids)).
  { subst s. unfold enumerate. simpl. rewrite decide_False by (intros Hne; by apply Hne).
    by rewrite (legal_cards_filter seats g _ Hr Hqo). }
  destruct (rule_exists seats seats_NoDup seats_four g _ Hsd H0 Hcur) as [id0 Hid0].
  assert (Hne : card_action <$> ids ≠ []).
  { intros Hnil. apply fmap_nil_inv in Hnil.
    assert (Hin : id0 ∈ ids) by (apply list_elem_of_filter; split; [done|apply Hid0]).
    rewrite Hnil in Hin. by apply elem_of_nil in Hin. }
  pose proof (Hch s (Some g) _ Hne) as Hact. apply list_elem_of_fmap in Hact as (id & Hact & Hid).
  apply list_elem_of_filter in Hid as [Hm _].
  destruct (allowed_request fuel s (Some g) g _ id now true Hat Hcur Hm) as (s' & g' & HR & HA & HS & Hrest).
  exists s', g'. split.
  - unfold request_one. cbv zeta. rewrite HE. cbn [mbind outcome_bind]. rewrite Hact.
    change (ea_Move (card_action id)) with "play".
    assert (ctx_CurrentPlayer (st_Ctx s) = ctx_CurrentPlayer c) as -> by by subst s.
    fold (play_request (ctx_CurrentPlayer c) id now true). by rewrite HA.
  - split; [done|]. split; [by eapply played_card|]. split; [|done].
    destruct (play_goes_on seats seats_NoDup seats_four g _ id Hsd HT Hcur Hm) as (g2 & H2 & _ & _ & Hl).
    by assert (g2 = g') as -> by congruence.
Qed.

Lemma play_match_ends n fuel now choose s w g : picks choose → at_table s w g →
  cards_left g = Z.of_nat (S n) →
  ∃ s' g', play_match (S n) (S fuel) now choose s w = Ok (s', Some g') ∧
    st_StateID s' = st_StateID s + Z.of_nat (S n) ∧ in_play seats g' ∧ cards_left g' = 0 ∧
    ctx_Gameover (st_Ctx s') = hand_result seats g'.
Proof.
  revert s w g. induction n as [|n IH]; intros s w g Hch Hat Hl;
    pose proof (at_hand _ _ _ Hat) as Hi;
    destruct (in_play_sound seats seats_NoDup seats_four g Hi) as [Hsd HT];
    pose proof (so_open _ _ Hsd) as Hop;
    (destruct (request_one_goes fuel now choose s w g Hch Hat) as (s' & g' & HR & HS & Hi' & Hl' & Hrest);
      [unfold cards_left in Hl; lia|]);
    destruct (in_play_sound seats seats_NoDup seats_four g' Hi') as [Hsd' HT'];
    pose proof (so_open _ _ Hsd') as Hop'; cbn [play_match]; rewrite HR; cbn [mbind outcome_bind].
  - exists s', g'. split; [done|]. split; [lia|]. split; [done|]. split; [lia|].
    rewrite decide_False in Hrest; [done|].
    rewrite Hl in Hl'. unfold cards_left in Hl'. lia.
  - rewrite decide_True in Hrest by (rewrite Hl in Hl'; unfold cards_left in Hl'; lia).
    destruct (IH s' (Some g') g' Hch Hrest) as (s2 & g2 & H2 & HS2 & Hi2 & Hl2 & HG2); [lia|].
    exists s2, g2. split; [exact H2|]. split; [lia|done].
Qed.

(** C36: However a match of hearts is created, and however the players choose among the
    moves the game lists for them, the engine accepts all of 52 requests, and with
    the last one the match is over: 26 points have been dealt out, and the result
    names the players with the fewest, at least one. *)
Theorem every_match_finishes fuel np data seed now choose w : picks choose →
  ∃ s0 w0 s g, NewMatchSeeded (S fuel) game np data seed w = (Ok s0, w0) ∧
    play_match 52 (S fuel) now choose s0 w0 = Ok (s, Some g) ∧ st_StateID s = 52 ∧
    total_score seats g = 26 ∧
    ∃ ws, ctx_Gameover (st_Ctx s) = Some (VResult ws (Scores g)) ∧ ws ≠ [] ∧
      ∀ p, p ∈ seats → (p ∈ ws ↔ ∀ q, q ∈ seats → default 0 (Scores g !! p) ≤ default 0 (Scores g !! q)).
Proof.
  intros Hch. destruct (new_match_at_table fuel np data seed w) as (s0 & g0 & Hnew & Hat & Hid & Hg0).
  assert (Hl : cards_left g0 = Z.of_nat 52).
  { destruct (deal_sound seats seats_NoDup seats_four (setup_seed wild data)) as (g & Hg & _ & _ & Hl).
    by assert (g = g0) as -> by congruence. }
  destruct (play_match_ends 51 fuel now choose s0 (Some g0) g0 Hch Hat Hl)
    as (s & g & HP & HS & Hi & Hl0 & HG).
  destruct (hand_over seats seats_NoDup seats_four g Hi Hl0) as (H26 & ws & Hws & Hrest).
  exists s0, (Some g0), s, g. split; [exact Hnew|]. split; [exact HP|]. split; [lia|]. split; [exact H26|].
  exists ws. split; [congruence|exact Hrest].
Qed.
End hearts_match.

(** The players always take the first move listed. *)
Definition take_first (s : CoreTypes.State) (w : world) (acts : list EnumerateAction) : EnumerateAction :=
  default (card_action 0) (head acts).

Lemma take_first_picks : picks take_first.
Proof. intros s w [|a acts] Hne; [done|]. by left. Qed.

Lemma every_match_finishes_witness : ∃ s0 w0 s g,
  NewMatchSeeded 2 (New (λ _, 0)) 4 (Some (VSetupData 42)) 7 None = (Ok s0, w0) ∧
  play_match (λ _, 0) 52 2 5 take_first s0 w0 = Ok (s, Some g) ∧ total_score seats g = 26.
Proof.
  destruct (every_match_finishes (λ _, 0) 1 4 (Some (VSetupData 42)) 7 5 take_first None take_first_picks)
    as (s0 & w0 & s & g & Hn & Hp & _ & H26 & _).
  exists s0, w0, s, g. split; [exact Hn|]. split; [exact Hp|exact H26].
Defined.
