(* ===== verification/Provinces.v ===== *)
(** * Three provinces and a small game of risk

    [src/games/threeprovinces/threeprovinces.go] and [src/games/risklike/risklike.go]: two players
    place units on the cells of a board whose regions are scored after eight placements.
    The games share their move, word for word, and differ in the board and the scoring. The
    state is changed in place, through a pointer.  Then their matches over the engine. *)

From stdpp Require Import sorting.
From S2P Require Import Prelude CoreTypes Api GameDef Reducer Session OneMove.
From S2P Require Import Choices Cards Tabletop TabletopTheorems Regions.
#[local] Open Scope Z_scope.

(** The state, with the regions [R] of the game. *)
Record State (R : Type) := mkPlaces {
  ps_Cards : Cards.State Empty_set;
  ps_Space : TState;
  ps_Board : SquareBoard;
  ps_Regions : R;
  ps_Moves : Z
}.
Arguments mkPlaces {R}.
Arguments ps_Cards {R}.
Arguments ps_Space {R}.
Arguments ps_Board {R}.
Arguments ps_Regions {R}.
Arguments ps_Moves {R}.

(** The pointer to the state, plain values, and the result. *)
Inductive value : Type :=
  | VState
  | VGo (v : GoVal)
  | VResult (points : gmap string Z).

Definition movesTotal : Z := 8.

Section places.
Context {R : Type}.

Definition PlacesTypes : GoTypes :=
  {| val := value; world := option (State R); val_true := VGo (GoBool true); randref := ();
     as_Random := λ _, None |}.
#[local] Existing Instance PlacesTypes.
Implicit Types (g : State R).

Definition set_Space (s : TState) g : State R := mkPlaces (ps_Cards g) s (ps_Board g) (ps_Regions g) (ps_Moves g).

(** [mc.G.( *State)], for the one state there is. *)
Definition state_of (G : any) (w : world) : option (State R) :=
  match G with Some VState => w | _ => None end.

Definition toIntAny (v : any) : option Z :=
  match v with
  | Some (VGo (GoInt "" KInt x)) => Some x
  | Some (VGo (GoInt "" KInt64 x)) => Some x
  | Some (VGo (GoFloat "" x)) => Some (int_of_float x)
  | _ => None
  end.

Definition named_cell (args : list any) : option Pos :=
  match args with
  | a :: b :: _ => x ← toIntAny a; y ← toIntAny b; Some (mkPos x y)
  | _ => None
  end.

Definition add_unit (player : string) (pos : Pos) g : outcome ccg_error (State R) :=
  match NewEntity "unit" "" {[ "owner" := AVal (GoString player) ]} (ps_Cards g) with
  | (Ok eid, cards) => Ok (mkPlaces cards (Place eid pos (ps_Space g)) (ps_Board g) (ps_Regions g) (ps_Moves g + 1))
  | (Err e, _) => Err e
  | (Panicked, _) => Panicked
  | (NoFuel, _) => NoFuel
  end.

Definition place_on (mc : MoveContext) (args : list any) g : outcome error () * State R :=
  if decide (mc_PlayerID mc ≠ ctx_CurrentPlayer (mc_Ctx mc)) then (Err ErrInvalidMove, g)
  else match named_cell args with
       | None => (Err ErrInvalidMove, g)
       | Some pos =>
           if negb (Square_InBounds (ps_Board g) pos) then (Err ErrInvalidMove, g)
           else
             let '(units, space) := EntitiesAt pos (ps_Space g) in
             let g := set_Space space g in
             if decide (units ≠ []) then (Err ErrInvalidMove, g)
             else match add_unit (mc_PlayerID mc) pos g with
                  | Ok g => (Ok tt, g)
                  | _ => (Panicked, g)
                  end
       end.

Definition place : MoveFn := λ mc args, OpRead (λ w,
  match state_of (mc_G mc) w with
  | None => Crash
  | Some g =>
      let '(r, g) := place_on mc args g in
      OpWrite (Some g) (match r with
                        | Ok _ => Ret (inr (mc_G mc))
                        | Err e => Ret (inl e)
                        | _ => Crash
                        end)
  end).

(** The game of a board, of regions and a way to score them. *)
Context (score : list string → State R → gmap string Z * TState).

Definition end_result (order : list string) g : any * State R :=
  if decide (ps_Moves g < movesTotal) then (None, g)
  else let '(points, space) := score order g in (Some (VResult points), set_Space space g).

Definition endIf (mc : MoveContext) : prog any := OpRead (λ w,
  match state_of (mc_G mc) w with
  | None => Crash
  | Some g => let '(r, g) := end_result (ctx_PlayOrder (mc_Ctx mc)) g in OpWrite (Some g) (Ret r)
  end).

Definition fresh_board (board : SquareBoard) (regions : R) : State R :=
  mkPlaces Cards.NewState NewTState board regions 0.

Definition places_game (name : string) (board : SquareBoard) (regions : R) : Game :=
  mkGame name 2 2 (Some (λ _ _ _, (Some VState, Some (fresh_board board regions))))
    {[ "place" := EntryFn place ]}
    (Some (mkTurn (mkOrder None None None) None None None None 1 1 0 None ∅)) ∅
    (Some endIf) None None None None false [].
(** ** The table *)
Section table.
Implicit Types (pos : Pos) (u : UnitID).

Definition taken pos g : Prop := ∃ u, Positions (ps_Space g) !! u = Some pos.

(** After [n] placements: units 1 to [n], each on a cell of its own and on the board. *)
Record in_play g (n : nat) : Prop := {
  pl_indexed : indexed (ps_Space g);
  pl_index : is_Some (byCell (ps_Space g));
  pl_moves : ps_Moves g = Z.of_nat n;
  pl_ids : NextEntityID (IDs (ps_Cards g)) = Z.of_nat n;
  pl_units u : is_Some (Positions (ps_Space g) !! u) ↔ 1 ≤ u ≤ Z.of_nat n;
  pl_board u p : Positions (ps_Space g) !! u = Some p → Square_InBounds (ps_Board g) p = true;
  pl_apart u v p : Positions (ps_Space g) !! u = Some p → Positions (ps_Space g) !! v = Some p → u = v
}.

(** A unit of [player] is new at [pos], and nothing else is. *)
Record placed (player : string) pos g (n : nat) g' : Prop := {
  pd_play : in_play g' (S n);
  pd_positions : Positions (ps_Space g') = <[Z.of_nat (S n) := pos]> (Positions (ps_Space g));
  pd_owner u : ByCCGOwner (ps_Cards g') u = if decide (u = Z.of_nat (S n)) then player else ByCCGOwner (ps_Cards g) u;
  pd_rest : ps_Board g' = ps_Board g ∧ ps_Regions g' = ps_Regions g
}.

Lemma fresh_in_play board (regions : R) : in_play (fresh_board board regions) 0.
Proof.
  split; try done; [apply indexed_new|].
  intros u. simpl. rewrite lookup_empty. split; [by intros [? [=]]|lia].
Qed.

Lemma look_at pos g n : in_play g n →
  ∃ units, EntitiesAt pos (ps_Space g) = (units, ps_Space g) ∧ (units = [] ↔ ¬ taken pos g).
Proof.
  intros Hg. destruct (pl_index _ _ Hg) as [idx Hidx].
  assert (He : ensureIndex (ps_Space g) = ps_Space g) by (unfold ensureIndex; by rewrite Hidx).
  unfold EntitiesAt. rewrite He, Hidx. eexists. split; [done|]. simpl. fold (at_cell pos idx).
  destruct (pl_indexed _ _ Hg idx Hidx pos) as [_ Hin]. unfold taken. split.
  - intros Hnil [u Hu%Hin]. rewrite <-(merge_sort_Permutation Z.le), Hnil in Hu. by apply not_elem_of_nil in Hu.
  - intros Hno. destruct (merge_sort Z.le (at_cell pos idx)) as [|u us] eqn:Hm; [done|]. destruct Hno. exists u.
    apply Hin. rewrite <-(merge_sort_Permutation Z.le), Hm. by left.
Qed.

Lemma add_unit_placed player pos g n : in_play g n → Square_InBounds (ps_Board g) pos = true → ¬ taken pos g →
  ∃ g', add_unit player pos g = Ok g' ∧ placed player pos g n g'.
Proof.
  intros Hg Hb Hfree. eexists. split; [reflexivity|]. rewrite (pl_ids _ _ Hg).
  assert (Hnew : Positions (ps_Space g) !! Z.of_nat (S n) = None).
  { destruct (_ !! _) eqn:Hu; [|done]. pose proof (proj1 (pl_units _ _ Hg (Z.of_nat (S n))) ltac:(by eexists)). lia. }
  replace (Z.of_nat n + 1) with (Z.of_nat (S n)) by lia.
  assert (Hpos : Positions (Place (Z.of_nat (S n)) pos (ps_Space g)) = <[Z.of_nat (S n) := pos]> (Positions (ps_Space g))).
  { unfold Place. rewrite Hnew. destruct (pl_index _ _ Hg) as [idx Hidx]. unfold addToCell. simpl. by rewrite Hidx. }
  split; [split|..]; cbn [ps_Space ps_Cards ps_Moves ps_Board ps_Regions].
  - apply indexed_Place, (pl_indexed _ _ Hg).
  - unfold Place. rewrite Hnew. destruct (pl_index _ _ Hg) as [idx Hidx]. unfold addToCell. simpl. rewrite Hidx. by eexists.
  - rewrite (pl_moves _ _ Hg). lia.
  - simpl. lia.
  - intros u. rewrite Hpos. destruct (decide (u = Z.of_nat (S n))) as [->|Hne].
    + rewrite lookup_insert_eq. split; [lia|by eexists].
    + rewrite lookup_insert_ne by done. rewrite (pl_units _ _ Hg). lia.
  - intros u p. rewrite Hpos, lookup_insert_Some. intros [[_ <-]|[_ Hu]]; [done|by apply (pl_board _ _ Hg u)].
  - intros u v p. rewrite Hpos, !lookup_insert_Some. intros [[<- <-]|[Hu1 Hu]] [[<- Hp]|[Hv1 Hv]]; [done|..].
    + destruct Hfree. by exists v.
    + destruct Hfree. exists u. by rewrite Hp.
    + by apply (pl_apart _ _ Hg u v p).
  - exact Hpos.
  - intros u. unfold ByCCGOwner. simpl. case_decide as Hu; [subst u; by rewrite lookup_insert_eq|by rewrite lookup_insert_ne].
  - done.
Qed.

(** What the move does when the player on turn makes it. *)
Definition allowed (args : list any) g : Prop :=
  match named_cell args with Some pos => Square_InBounds (ps_Board g) pos = true ∧ ¬ taken pos g | None => False end.

Lemma set_same g : set_Space (ps_Space g) g = g.
Proof. by destruct g. Qed.

Lemma place_on_free mc args g n pos : in_play g n → mc_PlayerID mc = ctx_CurrentPlayer (mc_Ctx mc) →
  named_cell args = Some pos → Square_InBounds (ps_Board g) pos = true → ¬ taken pos g →
  ∃ g', place_on mc args g = (Ok tt, g') ∧ placed (mc_PlayerID mc) pos g n g'.
Proof.
  intros Hg Hp Hargs Hb Hfree. unfold place_on. rewrite decide_False by (intros H; by apply H). rewrite Hargs, Hb. cbn [negb].
  destruct (look_at pos g n Hg) as (units & -> & Hu). cbv zeta beta iota. rewrite set_same, decide_False by (intros H; by apply H, Hu).
  destruct (add_unit_placed (mc_PlayerID mc) pos _ n Hg Hb Hfree) as (g' & Hadd & Hpl). exists g'. split; [|done]. by rewrite Hadd.
Qed.

Lemma place_on_refused mc args g n : in_play g n → ¬ allowed args g → place_on mc args g = (Err ErrInvalidMove, g).
Proof.
  intros Hg Hno. unfold place_on, allowed in *. case_decide; [done|]. destruct (named_cell args) as [pos|]; [|done].
  destruct (Square_InBounds (ps_Board g) pos) eqn:Hb; [|done]. cbn [negb].
  destruct (look_at pos g n Hg) as (units & -> & Hu). cbv zeta beta iota. rewrite set_same.
  rewrite decide_True; [done|]. intros Hnil. destruct Hno. by rewrite <-Hu.
Qed.

Definition placeW (mc : MoveContext) args : world → outcome error (error + any) * world := λ w,
  match state_of (mc_G mc) w with
  | Some g => (match (place_on mc args g).1 with Ok _ => Ok (inr (mc_G mc)) | Err e => Ok (inl e) | _ => Panicked end,
               Some (place_on mc args g).2)
  | None => (Panicked, w)
  end.

Lemma place_memory mc args : memory_only (place mc args) (placeW mc args).
Proof.
  intros c e extra. unfold place, placeW. simpl. destruct (state_of (mc_G mc) (env_world e)) as [g|]; [|by destruct e].
  by destruct (place_on mc args g) as [[[]|x| |] g'].
Qed.

(** ** A match in progress *)
Section running.
Context (name : string) (board : SquareBoard) (regions : R).
Implicit Types (s : CoreTypes.State).
Abbreviation game := (places_game name board regions).

Lemma places_one_move : one_move game "place" place the_next endIf.
Proof. split; try done. eexists. split; done. Qed.

Definition endW (mc : MoveContext) : world → outcome error any * world := λ w,
  match state_of (mc_G mc) w with
  | Some g => (Ok (end_result (ctx_PlayOrder (mc_Ctx mc)) g).1, Some (end_result (ctx_PlayOrder (mc_Ctx mc)) g).2)
  | None => (Panicked, w)
  end.

Lemma places_end_memory mc : memory_only (endIf mc) (endW mc).
Proof.
  intros c e extra. unfold endIf, endW. simpl. destruct (state_of (mc_G mc) (env_world e)) as [g|]; [|by destruct e].
  by destruct (end_result (ctx_PlayOrder (mc_Ctx mc)) g) as [r g'].
Qed.

(** A match of the game after [n] placements, with [p] on turn. *)
Record at_table s g (n : nat) (p : string) : Prop := {
  tb_state : ∃ c id log, s = idle (Some VState) c id log ∧ waiting c ∧ ctx_PlayOrder c = seats ∧ ctx_NumPlayers c = 2 ∧
    ctx_CurrentPlayer c = p ∧ go_index seats (ctx_PlayOrderPos c) = Some p;
  tb_play : in_play g n;
  tb_left : (n < 8)%nat
}.

(** Over, with the points of the position [g1] at the end. *)
Definition scored s g1 g' : Prop :=
  ctx_Gameover (st_Ctx s) = Some (VResult (score seats g1).1) ∧ g' = set_Space (score seats g1).2 g1.

Lemma new_table fuel np data seed : ∃ s,
  NewMatchSeeded (S fuel) game np data seed None = (Ok s, Some (fresh_board board regions)) ∧ at_table s (fresh_board board regions) 0 "0".
Proof.
  assert (Hpc : PlayerCount game np = 2) by (unfold PlayerCount; simpl; repeat case_decide; lia).
  pose proof (one_move_new game _ _ _ _ places_one_move fuel np data seed None 2 "0" _ (Some VState) (Some (fresh_board board regions)) the_first
    (λ w, (Ok 0, w)) 0 "0" (Some (fresh_board board regions)) Hpc eq_refl eq_refl eq_refl eq_refl eq_refl (ret_memory 0) eq_refl eq_refl) as Hnew.
  eexists. split; [exact Hnew|]. split; [|apply fresh_in_play|lia].
  eexists _, 0, []. split; [done|]. by repeat split.
Qed.

Lemma refused_place fuel s g n p args now client : at_table s g n p → ¬ allowed args g →
  Apply (S fuel) game s (a_move "place" p args now client) (Some g) = (Ok (s, Some ErrInvalidMove), Some g).
Proof.
  intros [(c & id & log & -> & Hc & Ho & Hn & <- & Hgo) Hg Hlt] Hno.
  eapply (one_move_refused game _ _ _ _ places_one_move fuel _ c id log args now client); [done|apply place_memory|].
  unfold placeW. cbn [state_of player_mc mc_G]. by rewrite (place_on_refused _ _ _ _ Hg Hno).
Qed.

Lemma accepted_place fuel s g n p args now client pos : at_table s g n p → named_cell args = Some pos →
  Square_InBounds (ps_Board g) pos = true → ¬ taken pos g →
  ∃ s' g1 g', Apply (S fuel) game s (a_move "place" p args now client) (Some g) = (Ok (s', None), Some g') ∧
    placed p pos g n g1 ∧ (at_table s' g1 (S n) (other p) ∧ g' = g1 ∨ n = 7%nat ∧ scored s' g1 g').
Proof.
  intros [(c & id & log & -> & Hc & Ho & Hn & <- & Hgo) Hg Hlt] Hargs Hb Hfree.
  set (mc := player_mc (T:=PlacesTypes) (Some VState) (set_ctx_NowMs now c) (ctx_CurrentPlayer c)).
  destruct (place_on_free mc args g n pos Hg eq_refl Hargs Hb Hfree) as (g1 & Hplace & Hpl).
  assert (Hrun : placeW mc args (Some g) = (Ok (inr (Some VState)), Some g1)) by (unfold placeW; cbn [state_of mc player_mc mc_G]; by rewrite Hplace).
  assert (Hend : endW (hook_mc (T:=PlacesTypes) (Some VState) (counted now c) (ctx_CurrentPlayer c) true) (Some g1) =
    (Ok (end_result seats g1).1, Some (end_result seats g1).2)).
  { unfold endW. cbn [state_of hook_mc mc_G mc_Ctx]. change (ctx_PlayOrder (counted now c)) with (ctx_PlayOrder c). by rewrite Ho. }
  unfold end_result in Hend. rewrite (pl_moves _ _ (pd_play _ _ _ _ _ Hpl)) in Hend. unfold movesTotal in Hend.
  destruct (decide (Z.of_nat (S n) < 8)) as [H8|H8].
  - destruct (next_seat _ _ Hgo) as (k & Hrem & Hwr & Hgo').
    eexists _, g1, g1. split; [|split; [exact Hpl|left; split; [|done]]].
    + eapply (one_move_continues game _ _ _ _ places_one_move fuel (Some VState) c id log args now client);
        [done|apply place_memory|exact Hrun|apply places_end_memory|exact Hend|by apply turn_memory|done|].
      simpl. rewrite Hrem, Ho, Hwr. exact Hgo'.
    + split; [|apply (pd_play _ _ _ _ _ Hpl)|lia]. eexists _, _, _. split; [done|]. simpl. rewrite Hrem, Ho, Hwr. destruct Hc. by repeat split.
  - destruct (score seats g1) as [points space] eqn:Hscore. cbn [fst snd] in Hend.
    eexists _, g1, _. split; [|split; [exact Hpl|right; split; [lia|]]].
    + eapply (one_move_ends game _ _ _ _ places_one_move fuel (Some VState) c id log args now client);
        [done|apply place_memory|exact Hrun|apply places_end_memory|exact Hend].
    + unfold scored. rewrite Hscore. done.
Qed.

(** ** Whole matches *)

(** The cells as arguments of the move. *)
Definition cell_args pos : list any := [Some (VGo (GoInt "" KInt (pX pos))); Some (VGo (GoInt "" KInt (pY pos)))].

(** The player on turn places a unit on each cell of a list, one after the other. *)
Fixpoint play_cells (fuel : nat) (l : list Pos) s (w : world) : option (CoreTypes.State * world) :=
  match l with
  | [] => Some (s, w)
  | pos :: l =>
      match Apply (S fuel) game s (a_move "place" (ctx_CurrentPlayer (st_Ctx s)) (cell_args pos) 0 true) w with
      | (Ok (s, None), w) => play_cells fuel l s w
      | _ => None
      end
  end.

(** Unit [n + 1 + k] is on the [k]-th cell of [l], placed by [p] when [k] is even. *)
Definition units_on (l : list Pos) (n : nat) (p : string) g : Prop :=
  ∀ k pos, l !! k = Some pos →
    Positions (ps_Space g) !! Z.of_nat (n + 1 + k) = Some pos ∧
    ByCCGOwner (ps_Cards g) (Z.of_nat (n + 1 + k)) = if Nat.even k then p else other p.

Lemma other_other p : p = "0" ∨ p = "1" → other (other p) = p.
Proof. by intros [-> | ->]. Qed.

Lemma table_player s g n p : at_table s g n p → (p = "0" ∨ p = "1") ∧ ctx_CurrentPlayer (st_Ctx s) = p.
Proof.
  intros [(c & id & log & -> & _ & _ & _ & Hp & Hgo) _ _]. split; [|done].
  destruct (seat_cases _ _ Hgo) as [[_ ?]|[_ ?]]; auto.
Qed.

Lemma play_cells_end fuel l : ∀ s g n p, at_table s g n p → (n + length l = 8)%nat → NoDup l →
  Forall (λ pos, Square_InBounds (ps_Board g) pos = true ∧ ¬ taken pos g) l →
  ∃ s' g1 g', play_cells fuel l s (Some g) = Some (s', Some g') ∧ scored s' g1 g' ∧ in_play g1 8 ∧ units_on l n p g1 ∧
    ∀ u, u ≤ Z.of_nat n → Positions (ps_Space g1) !! u = Positions (ps_Space g) !! u ∧
      ByCCGOwner (ps_Cards g1) u = ByCCGOwner (ps_Cards g) u.
Proof.
  induction l as [|pos l IH]; intros s g n p Hat Hlen Hnd Hfree; [destruct (tb_left _ _ _ _ Hat); simpl in Hlen; lia|].
  destruct (table_player _ _ _ _ Hat) as [Hp Hcur]. apply NoDup_cons in Hnd as [Hnin Hnd].
  apply Forall_cons in Hfree as [[Hb Hpos] Hfree]. cbn [play_cells]. rewrite Hcur.
  destruct (accepted_place fuel s g n p (cell_args pos) 0 true pos Hat) as (s1 & g1 & g' & -> & Hpl & Hafter); [by destruct pos|done..|].
  destruct Hpl as [Hplay Hpositions Howner [Hboard _]].
  destruct Hafter as [[Hat1 ->]|[-> Hsc]].
  - destruct (IH s1 g1 (S n) (other p) Hat1) as (s' & g2 & g' & Hrun & Hsc & Hp8 & Hunits & Hold); [simpl in Hlen; lia|done| |].
    { rewrite Hboard. rewrite Forall_forall in Hfree |- *. intros q Hq. destruct (Hfree q Hq) as [Hbq Htq]. split; [done|].
      intros [u Hu]. rewrite Hpositions, lookup_insert_Some in Hu. destruct Hu as [[_ ->]|[_ Hu]]; [done|]. apply Htq. by exists u. }
    exists s', g2, g'. split; [done|]. split; [done|]. split; [done|]. split.
    + intros [|k] q Hq.
      * injection Hq as <-. rewrite Nat.add_0_r. replace (n + 1)%nat with (S n) by lia. destruct (Hold (Z.of_nat (S n))) as [H1 H2]; [lia|].
        rewrite H1, H2, Hpositions, Howner, lookup_insert_eq, decide_True by done. done.
      * replace (n + 1 + S k)%nat with (S n + 1 + k)%nat by lia. destruct (Hunits k q Hq) as [H1 H2]. split; [done|]. rewrite H2.
        rewrite Nat.even_succ, <-Nat.negb_even. destruct (Nat.even k); [done|]. by apply other_other.
    + intros u Hu. destruct (Hold u) as [H1 H2]; [lia|]. rewrite H1, H2, Hpositions, Howner, lookup_insert_ne, decide_False by lia. done.
  - assert (l = []) as -> by (destruct l; [done|simpl in Hlen; lia]). exists s1, g1, g'. split; [done|]. split; [done|]. split; [done|]. split.
    + intros [|k] q Hq; [|done]. injection Hq as <-. cbn [Nat.add Nat.even]. rewrite Hpositions, Howner, lookup_insert_eq, decide_True by done. done.
    + intros u Hu. rewrite Hpositions, Howner, lookup_insert_ne, decide_False by lia. done.
Qed.

(** In every match of the game a request of the player on turn is accepted exactly when it
    names a free cell of the board; then a unit of that player is new on it, nothing else
    is, and either the other player is on turn or it was the eighth, and the match is over
    with the points of the position.  Otherwise nothing changes. *)
Theorem placements_follow_the_rules fuel s g n p args now client : at_table s g n p →
  let req := a_move "place" p args now client in
  (allowed args g →
    ∃ pos s' g1 g', named_cell args = Some pos ∧ Apply (S fuel) game s req (Some g) = (Ok (s', None), Some g') ∧
      placed p pos g n g1 ∧ (at_table s' g1 (S n) (other p) ∧ g' = g1 ∨ n = 7%nat ∧ scored s' g1 g')) ∧
  (¬ allowed args g → Apply (S fuel) game s req (Some g) = (Ok (s, Some ErrInvalidMove), Some g)).
Proof.
  intros Hat req. split; [|by apply (refused_place fuel s g n)]. unfold allowed. destruct (named_cell args) as [pos|] eqn:Hargs; [|done].
  intros [Hb Hfree]. destruct (accepted_place fuel s g n p args now client pos Hat Hargs Hb Hfree) as (s' & g1 & g' & H1 & H2 & H3).
  by exists pos, s', g1, g'.
Qed.

(** Eight different cells of the board, placed on in turn from a new match, end it: the
    units are on those cells, owned in turn, and the result is the score of that. *)
Theorem eight_placements_end_the_match fuel np data seed l : length l = 8%nat → NoDup l →
  Forall (λ pos, Square_InBounds board pos = true) l →
  ∃ s0 s' g1 g', NewMatchSeeded (S fuel) game np data seed None = (Ok s0, Some (fresh_board board regions)) ∧
    play_cells fuel l s0 (Some (fresh_board board regions)) = Some (s', Some g') ∧ scored s' g1 g' ∧ units_on l 0 "0" g1.
Proof.
  intros Hlen Hnd Hb. destruct (new_table fuel np data seed) as (s0 & Hnew & Hat).
  destruct (play_cells_end fuel l s0 _ 0 "0" Hat Hlen Hnd) as (s' & g1 & g' & Hrun & Hsc & _ & Hu & _).
  { eapply Forall_impl; [exact Hb|]. intros pos Hpos. split; [done|]. intros [u Hu]. simpl in Hu. by rewrite lookup_empty in Hu. }
  by exists s0, s', g1, g'.
Qed.
End running.
End table.
End places.

(** ** threeprovinces.go *)

(** A row of a board, from the first cell. *)
Definition row (y : Z) (xs : list Z) : list Pos := (λ x, mkPos x y) <$> xs.

(** [regions.NewMap] of regions that are known not to overlap; its error is dropped. *)
Definition map_of (regions : list Region) : RMap :=
  match NewMap regions with Ok m => m | _ => mkRMap [] None end.

Definition provinces : RMap := map_of
  [mkRegion "top" (row 0 [0; 1; 2; 3]) ""; mkRegion "middle" (row 1 [0; 1; 2; 3]) "";
   mkRegion "bottom" (row 2 [0; 1; 2; 3] ++ row 3 [0; 1; 2; 3]) ""].

Definition province_rule : ScoringRule := mkRule Plurality [1] 0 0 Split.

Definition province_points (order : list string) (g : State RMap) : gmap string Z * TState :=
  let '(pts, space) := ScoreAll (ps_Regions g) (ByCCGOwner (ps_Cards g)) province_rule None (ps_Space g) in
  (foldl (λ pts pid, match pts !! pid with Some _ => pts | None => <[pid := 0]> pts end) pts order, space).

Definition threeprovinces : @Game PlacesTypes := places_game province_points "threeprovinces" (NewSquareBoard 4 4) provinces.

(** ** risklike.go *)
Definition territories : RMap := map_of
  [mkRegion "n_west" [mkPos 0 0] ""; mkRegion "n_mid" [mkPos 1 0] ""; mkRegion "n_east" [mkPos 2 0] "";
   mkRegion "s_west" [mkPos 0 1] ""; mkRegion "s_mid" [mkPos 1 1] ""; mkRegion "s_east" [mkPos 2 1] ""].
Definition continents : RMap := map_of
  [mkRegion "north" (row 0 [0; 1; 2]) ""; mkRegion "south" (row 1 [0; 1; 2]) ""].

Definition territory_rule : ScoringRule := mkRule Plurality [1] 0 0 NoAward.
Definition continent_rule : ScoringRule := mkRule Threshold [] 3 3 Split.

Definition risk_points (order : list string) (g : State (RMap * RMap)) : gmap string Z * TState :=
  let owner := ByCCGOwner (ps_Cards g) in
  let '(terr, space) := ScoreAll (ps_Regions g).1 owner territory_rule None (ps_Space g) in
  let '(cont, space) := ScoreAll (ps_Regions g).2 owner continent_rule None space in
  (foldl (λ out pid, <[pid := default 0 (terr !! pid) + default 0 (cont !! pid)]> out) ∅ order, space).

Definition risklike : @Game PlacesTypes := places_game risk_points "risklike" (NewSquareBoard 8 8) (territories, continents).

(** ** What is scored

    The influence on a region, of which every rule is a function, is the number of units each
    player has on its cells. *)
Lemma count_units (owner : OwnerFn) us : ∀ inner pid, pid ≠ "" →
  default 0 (foldl (count_unit owner) inner us !! pid) =
  default 0 (inner !! pid) + Z.of_nat (length (filter (λ u, owner u = pid) us)).
Proof.
  induction us as [|u us IH]; intros inner pid Hpid; [simpl; lia|]. cbn [foldl]. rewrite IH, filter_cons by done.
  unfold count_unit. destruct (decide (owner u = pid)) as [<-|Hne].
  - rewrite decide_False, lookup_insert_eq by done. simpl. lia.
  - case_decide; [done|]. by rewrite lookup_insert_ne by done.
Qed.

Definition units_at (s : TState) (cells : list Pos) : list UnitID := cells ≫= λ p, (EntitiesAt p s).1.

Lemma count_cells (owner : OwnerFn) s cells : is_Some (byCell s) → ∀ inner,
  (foldl (count_cell owner) (inner, s) cells).2 = s ∧ ∀ pid, pid ≠ "" →
    default 0 ((foldl (count_cell owner) (inner, s) cells).1 !! pid) =
    default 0 (inner !! pid) + Z.of_nat (length (filter (λ u, owner u = pid) (units_at s cells))).
Proof.
  intros [idx Hidx]. assert (He : ∀ p, (EntitiesAt p s).2 = s) by (intros p; unfold EntitiesAt, ensureIndex; by rewrite Hidx).
  induction cells as [|p cells IH]; intros inner; [split; [done|]; intros pid _; simpl; lia|].
  cbn [foldl]. unfold count_cell at 2 4. destruct (EntitiesAt p s) as [us s'] eqn:Hp. specialize (He p) as Hs. rewrite Hp in Hs. simpl in Hs. subst s'.
  destruct (IH (foldl (count_unit owner) inner us)) as [H1 H2]. split; [done|]. intros pid Hpid.
  rewrite H2, count_units by done. unfold units_at. rewrite bind_cons, Hp. cbn [fst]. rewrite filter_app, length_app. lia.
Qed.

Theorem influence_counts_units m (owner : OwnerFn) s r : is_Some (byCell s) → NoDup (map rg_ID (rm_Regions m)) → r ∈ rm_Regions m →
  ∃ inner, (Influence m owner s).1 !! rg_ID r = Some inner ∧
    ∀ pid, pid ≠ "" → default 0 (inner !! pid) = Z.of_nat (length (filter (λ u, owner u = pid) (units_at s (rg_Cells r)))).
Proof.
  intros Hs. unfold Influence.
  assert (H : ∀ (l : list Region) (out : gmap string (gmap string Z)), NoDup (map rg_ID l) →
    let res := foldl (λ '(out, s) r, let '(inner, s) := foldl (count_cell owner) (∅, s) (rg_Cells r) in (<[rg_ID r := inner]> out, s)) (out, s) l in
    res.2 = s ∧ (∀ id : string, id ∉ map rg_ID l → res.1 !! id = out !! id) ∧
    ∀ r, r ∈ l → ∃ inner, res.1 !! rg_ID r = Some inner ∧
      ∀ pid, pid ≠ "" → default 0 (inner !! pid) = Z.of_nat (length (filter (λ u, owner u = pid) (units_at s (rg_Cells r))))).
  { induction l as [|r0 l IH]; intros out Hnd; [split; [done|]; split; [done|]; by intros r0 ?%not_elem_of_nil|].
    cbn [map] in Hnd. apply NoDup_cons in Hnd as [Hnin Hnd]. cbn [foldl].
    destruct (count_cells owner s (rg_Cells r0) Hs ∅) as [H1 H2]. destruct (foldl (count_cell owner) (∅, s) (rg_Cells r0)) as [inner s'].
    simpl in H1, H2. subst s'. destruct (IH (<[rg_ID r0 := inner]> out) Hnd) as (I1 & I2 & I3). split; [done|]. split.
    - intros id [Hne Hid]%not_elem_of_cons. rewrite I2 by done. by rewrite lookup_insert_ne.
    - intros r' [->|Hr]%elem_of_cons; [|by apply I3]. exists inner. split; [rewrite I2 by done; by rewrite lookup_insert_eq|].
      intros pid Hpid. rewrite H2, lookup_empty by done. done. }
  intros Hnd Hr. destruct (H (rm_Regions m) ∅ Hnd) as (_ & _ & H3). by apply H3.
Qed.

(** A match of each. *)
Definition corners : list Pos := row 0 [0; 1; 2; 3] ++ row 3 [0; 1; 2; 3].

Lemma corners_fine : NoDup corners ∧ Forall (λ pos, Square_InBounds (NewSquareBoard 4 4) pos = true) corners ∧
  Forall (λ pos, Square_InBounds (NewSquareBoard 8 8) pos = true) corners.
Proof. split_and!; apply (bool_decide_unpack _); by vm_compute. Qed.

(** The players take the first and the last row in turn: they share both regions, and with
    one point to share get none. *)
Lemma shared_rows_score_nothing : ∃ s0 s' w, NewMatchSeeded (T:=PlacesTypes) 2 threeprovinces 2 None 1 None = (Ok s0, w) ∧
  (∃ w', play_cells province_points "threeprovinces" (NewSquareBoard 4 4) provinces 1 corners s0 w = Some (s', w')) ∧
  ctx_Gameover (st_Ctx s') = Some (VResult {[ "0" := 0; "1" := 0 ]}).
Proof. eexists _, _, _. split; [vm_compute; reflexivity|]. split; [eexists; vm_compute; reflexivity|]. vm_compute. reflexivity. Qed.
