(* ===== verification/Bots.v ===== *)
(** * Bots

    [src/bots]: the random bot, the Monte Carlo tree search bot, the simulator that
    plays bots against each other in memory, and what an AutoPlayer does with a state
    pushed to it; then that the bots only play listed moves and that simulations complete.
    Last, [src/bots/llm]: the bot that asks a language model which listed move to play. *)

From Stdlib Require Import SpecFloat.
From stdpp Require Import pretty.
From S2P Require Import Prelude Json CoreTypes Api GameDef Reducer Session Random Choices Floats.
#[local] Open Scope Z_scope.

(** ** The generator *)

Definition next (state : Z) : Z * Z :=
  let state := u64 (state + 0x9E3779B97F4A7C15) in
  let z := state in
  let z := u64 (Z.lxor z (Z.shiftr z 30) * 0xBF58476D1CE4E5B9) in
  let z := u64 (Z.lxor z (Z.shiftr z 27) * 0x94D049BB133111EB) in
  (state, Z.lxor z (Z.shiftr z 31)).

Definition seedToUint64 (seed : GoVal) : Z :=
  match seed with
  | GoNil => 0xDEADBEEFCAFEBABE
  | GoInt "" KUint64 s => s
  | GoInt "" KInt s => u64 s
  | GoInt "" KInt64 s => u64 s
  | GoString s => fnv1a (bytes s)
  | _ => 0
  end.

(** ** Bots *)

Inductive bot_error : Type :=
  | ErrNoMoves
  | NoEnumerate
  | GameRequired
  | NoBots
  | Cancelled
  | ErrBot (reason : string).

Section bots.
Context {T : GoTypes}.

Definition Action : Type := EnumerateAction.

(** An enumerate function reads the state, and the memory it points into. *)
Definition EnumerateFn : Type := any → Ctx → string → world → outcome bot_error (list Action).

(** A Game with its Enumerate field, which the engine itself never calls. *)
Record BotGame := mkBotGame {
  bg_Game : Game;
  bg_Enumerate : option EnumerateFn
}.

Definition resolveEnumerate (explicit : option EnumerateFn) (game : option BotGame)
    : option EnumerateFn :=
  match explicit with
  | Some f => Some f
  | None => game ≫= bg_Enumerate
  end.

(** A bot keeps a memory of its own between plays. *)
Definition Bot (B : Type) : Type := State → string → ST (world * B) bot_error Action.

(** [enum(state.G, state.Ctx, playerID)] *)
Definition ask {B} (enum : EnumerateFn) (s : State) (c : Ctx) (playerID : string)
    : ST (world * B) bot_error (list Action) := λ wb,
  (enum (st_G s) c playerID wb.1, wb).

(** [f()] on the bot's own memory. *)
Definition own {B A} (f : B → A * B) : ST (world * B) bot_error A := λ '(w, b),
  let '(a, b) := f b in (Ok a, (w, b)).

(** A call of the engine, which answers with a state and an error. *)
Definition engine {B A} (m : ST world error A) : ST (world * B) bot_error (error + A) := λ '(w, b),
  let '(r, w) := m w in
  (match r with
   | Ok a => Ok (inr a)
   | Err e => Ok (inl e)
   | Panicked => Panicked
   | NoFuel => NoFuel
   end, (w, b)).

(** [actions[int(v % uint64(len(actions)))]], for a non-empty list. *)
Definition pick (v : Z) (actions : list Action) : option Action :=
  actions !! Z.to_nat (v mod Z.of_nat (length actions)).

(** *** RandomBot *)

Record RandomBot := mkRandomBot {
  rb_Enumerate : option EnumerateFn;
  rb_Game : option BotGame;
  rb_Seed : GoVal
}.

(** The generator's state, once it has been seeded. *)
Definition draw_once (seed : GoVal) (b : option Z) : Z * option Z :=
  let '(state, v) := next (default (seedToUint64 seed) b) in (v, Some state).

Definition RandomBot_Play (b : RandomBot) : Bot (option Z) := λ state playerID,
  match resolveEnumerate (rb_Enumerate b) (rb_Game b) with
  | None => st_err NoEnumerate
  | Some enum =>
      actions ← ask enum state (st_Ctx state) playerID;
      if decide (actions = []) then st_err ErrNoMoves
      else v ← own (draw_once (rb_Seed b)); st_some (pick v actions)
  end.

(** *** MCTSBot *)

Record MCTSBot := mkMCTSBot {
  mb_Game : option BotGame;
  mb_Enumerate : option EnumerateFn;
  mb_Iterations : Z;
  mb_Seed : GoVal;
  mb_EarlyStop : option (list Action → list spec_float → list Z → bool);
  mb_EarlyStopAfter : Z;
  mb_Perspective : bool
}.

(** [gameover.(map[string]any)["winner"].(string)] and [["draw"].(bool)]: how a value
    of the game's reads as a result, when it does. *)
Context (winner_of : val → option string) (draw_of : val → option bool).
(** [math.Log], whose last bit the language leaves open. *)
Context (ln : spec_float → spec_float).

Definition half : spec_float := fdiv (float_of_int 1) (float_of_int 2).

Definition score (gameover : any) (viewer : string) : spec_float :=
  match gameover with
  | None => half
  | Some v =>
      match winner_of v with
      | Some w => if decide (w = viewer) then float_of_int 1 else float_of_int 0
      | None => half
      end
  end.

(** The loop of selectByUCT over the visited children, from child [i] on. *)
Fixpoint best_ucb (tlog : spec_float) (wins : list spec_float) (visits : list Z) (i bestIdx : nat)
    (bestScore : spec_float) : nat :=
  match wins, visits with
  | w :: wins, v :: visits =>
      let score := fadd (fdiv w (float_of_int v))
                     (SFsqrt 53 1024 (fdiv (fmul (float_of_int 2) tlog) (float_of_int v))) in
      if SFltb bestScore score then best_ucb tlog wins visits (S i) i score
      else best_ucb tlog wins visits (S i) bestIdx bestScore
  | _, _ => bestIdx
  end.

Definition selectByUCT (wins : list spec_float) (visits : list Z) (total : Z) : nat :=
  match find_index (λ v, bool_decide (v = 0)) visits with
  | Some i => i
  | None => best_ucb (ln (float_of_int (total + 1))) wins visits 0 0 (float_of_int (-1))
  end.

(** The first of the most visited. *)
Fixpoint most_visited (visits : list Z) (i bestIdx : nat) (bestVisits : Z) : nat :=
  match visits with
  | [] => bestIdx
  | v :: visits => if decide (bestVisits < v) then most_visited visits (S i) i v
                   else most_visited visits (S i) bestIdx bestVisits
  end.

Definition bot_request (playerID : string) (a : Action) : MoveRequest :=
  mkReq playerID (ea_Move a) (ea_Args a) 0 "" 0 false false.

Section search.
Context (fuel : nat) (b : MCTSBot) (game : BotGame) (enum : EnumerateFn).

Definition view_of (state : State) (viewer : string) : ST (world * Z) bot_error State := λ wb,
  (Ok (if mb_Perspective b then PlayerView (bg_Game game) state viewer wb.1 else state), wb).

(** One turn of the rollout: [None] is a break. *)
Definition rollout_step (state : State) (viewer : string) : ST (world * Z) bot_error (option State) :=
  view ← view_of state viewer;
  actions ← ask enum view (st_Ctx view) (ctx_CurrentPlayer (st_Ctx state));
  if decide (actions = []) then mret None
  else
    v ← own (λ rng, let '(rng, v) := next rng in (v, rng));
    a ← st_some (pick v actions);
    r ← engine (Apply fuel (bg_Game game) state (bot_request (ctx_CurrentPlayer (st_Ctx state)) a));
    mret (match r with
          | inr (nx, None) => Some nx
          | _ => None
          end).

Fixpoint rollout_from (depth : nat) (state : State) (viewer : string) : ST (world * Z) bot_error spec_float :=
  match depth with
  | O => mret (score (ctx_Gameover (st_Ctx state)) viewer)
  | S depth =>
      if not_over state then
        r ← rollout_step state viewer;
        match r with
        | None => mret (score (ctx_Gameover (st_Ctx state)) viewer)
        | Some state => rollout_from depth state viewer
        end
      else mret (score (ctx_Gameover (st_Ctx state)) viewer)
  end.

Definition maxDepth : nat := 100.
Definition rollout := rollout_from maxDepth.

(** Whether the caller's context is done when an iteration starts. *)
Context (cancelled : Z → bool).

Definition stops_early (actions : list Action) (wins : list spec_float) (visits : list Z) (it : Z) : bool :=
  let after := if decide (mb_EarlyStopAfter b ≤ 0) then 16 else mb_EarlyStopAfter b in
  match mb_EarlyStop b with
  | Some f => bool_decide (after ≤ it + 1) && f actions wins visits
  | None => false
  end.

Definition bump (i : nat) (visits : list Z) : list Z := alter (λ v, v + 1) i visits.

(** [n] iterations are left before the limit. *)
Fixpoint search (n : nat) (it : Z) (state : State) (playerID : string) (actions : list Action)
    (wins : list spec_float) (visits : list Z) : ST (world * Z) bot_error (list Z) :=
  match n with
  | O => mret visits
  | S n =>
      if cancelled it then mret visits
      else
        let idx := selectByUCT wins visits it in
        a ← st_some (actions !! idx);
        r ← engine (Apply fuel (bg_Game game) state (bot_request playerID a));
        match r with
        | inr (afterMove, None) =>
            result ← rollout afterMove playerID;
            let wins := alter (λ w, fadd w result) idx wins in
            let visits := bump idx visits in
            if stops_early actions wins visits it then mret visits
            else search n (it + 1) state playerID actions wins visits
        | _ => search n (it + 1) state playerID actions wins (bump idx visits)
        end
  end.
End search.

Definition MCTS_Play (fuel : nat) (cancelled : Z → bool) (b : MCTSBot) (state : State) (playerID : string)
    : ST world bot_error Action :=
  match mb_Game b with
  | None => st_err GameRequired
  | Some game =>
      match resolveEnumerate (mb_Enumerate b) (Some game) with
      | None => st_err NoEnumerate
      | Some enum => λ w,
          let '(r, (w, _)) :=
            (state ← view_of b game state playerID;
             actions ← ask enum state (st_Ctx state) playerID;
             if decide (actions = []) then st_err ErrNoMoves
             else
               let iters := if decide (mb_Iterations b = 0) then 100 else mb_Iterations b in
               visits ← search fuel b game enum cancelled (Z.to_nat iters) 0 state playerID actions
                          (replicate (length actions) (S754_zero false))
                          (replicate (length actions) 0);
               st_some (actions !! most_visited visits 0 0 (-1))) (w, seedToUint64 (mb_Seed b)) in
          (r, w)
      end
  end.

(** The search keeps nothing between plays. *)
Definition MCTSBot_Play (fuel : nat) (cancelled : Z → bool) (b : MCTSBot) : Bot () := λ state playerID '(w, u),
  let '(r, w) := MCTS_Play fuel cancelled b state playerID w in (r, (w, u)).

(** ** Simulate *)

Record SimulationResult := mkResult {
  sr_Matches : Z;
  sr_Wins : gmap string Z;
  sr_Draws : Z;
  sr_Errors : Z;
  sr_AvgMoves : spec_float;
  sr_AvgTurns : spec_float
}.

Record SimulateOptions (B : Type) := mkOptions {
  so_Game : option Game;
  so_Bots : gmap string (Bot B);
  so_Matches : Z;
  so_MaxMoves : Z;
  so_SetupData : any;
  so_NumPlayers : Z
}.
Arguments mkOptions {B}.
Arguments so_Game {B}.
Arguments so_Bots {B}.
Arguments so_Matches {B}.
Arguments so_MaxMoves {B}.
Arguments so_SetupData {B}.
Arguments so_NumPlayers {B}.

Section simulate.
Context {B : Type} (fuel : nat) (cancelled : nat → bool).
Implicit Types (opts : SimulateOptions B).

(** The seat that moves: the current player, or some active one. *)
Definition mover (c : Ctx) : string :=
  match ctx_ActivePlayers c with
  | Some active => default (ctx_CurrentPlayer c) (fst <$> head (map_to_list active))
  | None => ctx_CurrentPlayer c
  end.

(** How a match's loop ended: the moves made, and whether it was cut short. *)
Record played := mkPlayed { pd_State : State; pd_Moves : Z; pd_Errored : bool }.

(** [n] moves are left under the cap. *)
Fixpoint match_loop (n : nat) (game : Game) (bots : gmap string (Bot B)) (state : State) (moves : Z)
    : ST (world * B) bot_error played :=
  match n with
  | O => mret (mkPlayed state moves false)
  | S n =>
      if not_over state then
        let pid := mover (st_Ctx state) in
        match (bots !! pid : option (Bot B)) with
        | None => mret (mkPlayed state moves true)
        | Some bot =>
            r ← st_try (bot state pid);
            match r with
            | inl _ => mret (mkPlayed state moves true)
            | inr action =>
                r ← engine (Apply fuel game state (bot_request pid action));
                match r with
                | inr (next, None) => match_loop n game bots next (moves + 1)
                | _ => mret (mkPlayed state moves true)
                end
            end
        end
      else mret (mkPlayed state moves false)
  end.

Record tally := mkTally {
  ty_Matches : Z;
  ty_Wins : gmap string Z;
  ty_Draws : Z;
  ty_Errors : Z;
  ty_Moves : Z;
  ty_Turns : Z;
  ty_Completed : Z
}.

Definition count (p : played) (t : tally) : tally :=
  let matches := ty_Matches t + 1 in
  let gameover := ctx_Gameover (st_Ctx (pd_State p)) in
  match gameover with
  | Some v =>
      if pd_Errored p then
        mkTally matches (ty_Wins t) (ty_Draws t) (ty_Errors t + 1) (ty_Moves t) (ty_Turns t) (ty_Completed t)
      else
        let moves := ty_Moves t + pd_Moves p in
        let turns := ty_Turns t + ctx_Turn (st_Ctx (pd_State p)) in
        let completed := ty_Completed t + 1 in
        match winner_of v with
        | Some w => mkTally matches (<[w := default 0 (ty_Wins t !! w) + 1]> (ty_Wins t)) (ty_Draws t)
                      (ty_Errors t) moves turns completed
        | None => mkTally matches (ty_Wins t)
                    (if default false (draw_of v) then ty_Draws t + 1 else ty_Draws t)
                    (ty_Errors t) moves turns completed
        end
  | None =>
      mkTally matches (ty_Wins t) (ty_Draws t) (ty_Errors t + 1) (ty_Moves t) (ty_Turns t) (ty_Completed t)
  end.

(** The matches from the [i]th on; with [true] when the context was done. *)
Fixpoint matches_loop (n i : nat) (game : Game) opts (maxMoves : nat) (t : tally)
    : ST (world * B) bot_error (tally * bool) :=
  match n with
  | O => mret (t, false)
  | S n =>
      if cancelled i then mret (t, true)
      else
        r ← engine (NewMatch fuel game (so_NumPlayers opts) (so_SetupData opts));
        match r with
        | inl e => st_err (ErrBot "engine")
        | inr state =>
            p ← match_loop maxMoves game (so_Bots opts) state 0;
            matches_loop n (S i) game opts maxMoves (count p t)
        end
  end.

Definition average (total completed : Z) : spec_float :=
  if decide (0 < completed) then fdiv (float_of_int total) (float_of_int completed) else S754_zero false.

(** The statistics so far; the averages only at the end. *)
Definition result_of (t : tally) (done : bool) : SimulationResult :=
  mkResult (ty_Matches t) (ty_Wins t) (ty_Draws t) (ty_Errors t)
    (if done then average (ty_Moves t) (ty_Completed t) else S754_zero false)
    (if done then average (ty_Turns t) (ty_Completed t) else S754_zero false).

Definition matches_wanted opts : Z := if decide (so_Matches opts ≤ 0) then 1 else so_Matches opts.
Definition moves_allowed opts : Z := if decide (so_MaxMoves opts ≤ 0) then 1000 else so_MaxMoves opts.

(** The result comes with the error, if any. *)
Definition Simulate opts : ST (world * B) bot_error (SimulationResult * option bot_error) :=
  match so_Game opts with
  | None => mret (result_of (mkTally 0 ∅ 0 0 0 0 0) false, Some GameRequired)
  | Some game =>
      if decide (so_Bots opts = ∅) then
        mret (result_of (mkTally 0 ∅ 0 0 0 0 0) false, Some NoBots)
      else
        '(t, stopped) ← matches_loop (Z.to_nat (matches_wanted opts)) 0 game opts
                          (Z.to_nat (moves_allowed opts))
                          (mkTally 0 ∅ 0 0 0 0 0);
        mret (if stopped : bool then (result_of t false, Some Cancelled) else (result_of t true, None))
  end.
End simulate.

(** ** AutoPlayer *)

(** The channel holds one state, the latest. *)
Definition Send (pending : option (option State)) (state : State) : option (option State) :=
  match pending with
  | None => None
  | Some _ => Some (Some state)
  end.

Definition isMyTurn (playerID : string) (state : State) : bool :=
  match ctx_ActivePlayers (st_Ctx state) with
  | Some active => bool_decide (is_Some (active !! playerID))
  | None => bool_decide (ctx_CurrentPlayer (st_Ctx state) = playerID)
  end.

(** What Run does with a received state: return, wait for the next, or request a move
    through the manager. *)
Inductive reaction : Type :=
  | RunReturns
  | RunWaits
  | RunMoves (req : MoveRequest).

Definition react {B} (bot : Bot B) (playerID : string) (state : State) : ST (world * B) bot_error reaction :=
  if not_over state then
    if isMyTurn playerID state then
      r ← st_try (bot state playerID);
      mret (match r with
            | inl _ => RunWaits
            | inr action => RunMoves (mkReq "" (ea_Move action) (ea_Args action) (st_StateID state) "" 0 false false)
            end)
    else mret RunWaits
  else mret RunReturns.
End bots.
Arguments mkOptions {T B}.
Arguments so_Game {T B}.
Arguments so_Bots {T B}.
Arguments so_Matches {T B}.
Arguments so_MaxMoves {T B}.
Arguments so_SetupData {T B}.
Arguments so_NumPlayers {T B}.

(** ** Bots that keep the rules

    The contract between a game and its bots: a playable game always lists a move for
    the player on turn, accepts every listed move, and ends; a lawful bot answers with
    a listed move and leaves the match alone.  Lawful bots play out every match of a
    playable game; the random bot is lawful, and so is tree search where the game's
    moves do not reach into shared memory. *)

(** ** The generator is the engine's *)
Lemma next_is_core_next state : Bots.next state = Random.next state.
Proof. reflexivity. Qed.

Lemma pick_member {T : GoTypes} v acts : acts ≠ [] → ∃ a, pick v acts = Some a ∧ a ∈ acts.
Proof.
  intros Hne. unfold pick. set (i := v mod Z.of_nat (length acts)).
  assert (Hl : 0 < Z.of_nat (length acts)) by (destruct acts; [done|simpl; lia]).
  assert (Hi : 0 ≤ i < Z.of_nat (length acts)) by (by apply Z.mod_pos_bound).
  destruct (lookup_lt_is_Some_2 acts (Z.to_nat i)) as [a Ha]; [lia|].
  exists a. split; [done|]. by eapply list_elem_of_lookup_2.
Qed.

(** ** The contract *)
Section contract.
Context {T : GoTypes}.
Implicit Types (s : State) (w : world).

(** The moves of the player on turn. *)
Definition listed (enum : EnumerateFn) s w (acts : list Action) : Prop :=
  enum (st_G s) (st_Ctx s) (ctx_CurrentPlayer (st_Ctx s)) w = Ok acts.

(** [I] holds of the states of a match and the memory they point into; [left] bounds
    the moves still to come. *)
Class Playable (fuel : nat) (game : Game) (enum : EnumerateFn) (I : State → world → Prop)
    (left : State → world → nat) : Prop := {
  py_list : ∀ s w, I s w → not_over s = true →
    ctx_ActivePlayers (st_Ctx s) = None ∧ ∃ acts, listed enum s w acts ∧ acts ≠ [];
  py_move : ∀ s w acts a, I s w → not_over s = true → listed enum s w acts → a ∈ acts →
    ∃ s' w', Apply fuel game s (bot_request (ctx_CurrentPlayer (st_Ctx s)) a) w = (Ok (s', None), w') ∧
      I s' w' ∧ (not_over s' = true → left s' w' < left s w)%nat;
  py_left : ∀ s w, I s w → not_over s = true → (0 < left s w)%nat
}.

(** Moves change nothing outside the state they return. *)
Class Quiet (fuel : nat) (game : Game) (enum : EnumerateFn) (I : State → world → Prop) : Prop :=
  quiet : ∀ s w acts a, I s w → not_over s = true → listed enum s w acts → a ∈ acts →
    (Apply fuel game s (bot_request (ctx_CurrentPlayer (st_Ctx s)) a) w).2 = w.

Class Lawful {B} (enum : EnumerateFn) (I : State → world → Prop) (bot : Bot B) : Prop :=
  lawful : ∀ s w b, I s w → not_over s = true →
    ∃ acts a b', listed enum s w acts ∧ a ∈ acts ∧
      bot s (ctx_CurrentPlayer (st_Ctx s)) (w, b) = (Ok a, (w, b')).
End contract.

(** ** Random bots *)
Section random_bot.
Context {T : GoTypes} (fuel : nat) (game : Game) (enum : EnumerateFn) (I : State → world → Prop)
  (left : State → world → nat) `{!Playable fuel game enum I left}.

#[export] Instance RandomBot_lawful b : resolveEnumerate (rb_Enumerate b) (rb_Game b) = Some enum →
  Lawful enum I (RandomBot_Play b).
Proof.
  intros He s w r Hs Hno. destruct (py_list s w Hs Hno) as (_ & acts & Hl & Hne).
  unfold RandomBot_Play. rewrite He. rewrite bind_eq. unfold ask. cbn [fst].
  rewrite Hl, decide_False by done. rewrite bind_eq. unfold own.
  destruct (draw_once (rb_Seed b) r) as [v r']. destruct (pick_member v acts Hne) as (a & Ha & Hin).
  exists acts, a, r'. split; [done|]. split; [done|]. by rewrite Ha.
Qed.
End random_bot.

(** ** Tree search *)
Section tree_search.
Context {T : GoTypes} (fuel : nat) (game : Game) (enum : EnumerateFn) (I : State → world → Prop)
  (left : State → world → nat) `{!Playable fuel game enum I left, !Quiet fuel game enum I}.
Context (winner_of : val → option string) (ln : spec_float → spec_float) (cancelled : Z → bool).
Context (b : MCTSBot) (bg : BotGame) (Hgame : mb_Game b = Some bg) (Hbg : bg_Game bg = game)
  (Henum : resolveEnumerate (mb_Enumerate b) (Some bg) = Some enum) (Hview : mb_Perspective b = false).

Lemma quiet_move s w acts a : I s w → not_over s = true → listed enum s w acts → a ∈ acts →
  ∃ s', Apply fuel game s (bot_request (ctx_CurrentPlayer (st_Ctx s)) a) w = (Ok (s', None), w) ∧ I s' w.
Proof.
  intros Hs Hno Hl Ha. destruct (py_move s w acts a Hs Hno Hl Ha) as (s' & w' & HA & Hs' & _).
  pose proof (quiet s w acts a Hs Hno Hl Ha) as Hq. rewrite HA in Hq. simpl in Hq. subst. by exists s'.
Qed.

Lemma rollout_returns depth s viewer w r : I s w →
  ∃ x r', rollout_from winner_of fuel b bg enum depth s viewer (w, r) = (Ok x, (w, r')).
Proof.
  revert s r. induction depth as [|depth IH]; intros s r Hs; [by eexists _, _|]. cbn [rollout_from].
  destruct (not_over s) eqn:Hno; [|by eexists _, _]. rewrite bind_eq. unfold rollout_step.
  rewrite bind_eq. unfold view_of. rewrite Hview. rewrite bind_eq. unfold ask. cbn [fst].
  destruct (py_list s w Hs Hno) as (_ & acts & Hl & Hne). rewrite Hl, decide_False by done.
  rewrite bind_eq. unfold own. destruct (next r) as [r1 v].
  destruct (pick_member v acts Hne) as (a & Ha & Hin). rewrite bind_eq, Ha. cbn [st_some st_ret].
  rewrite bind_eq. unfold engine. rewrite Hbg.
  destruct (quiet_move s w acts a Hs Hno Hl Hin) as (s' & HA & Hs'). rewrite HA. by apply IH.
Qed.

Lemma best_ucb_lt tlog wins visits i k sc n : (i + length wins ≤ n)%nat → (k < n)%nat →
  (best_ucb tlog wins visits i k sc < n)%nat.
Proof.
  revert visits i k sc. induction wins as [|x wins IH]; intros visits i k sc Hn Hk; [done|].
  destruct visits as [|v visits]; [done|]. simpl in *. case_match; apply IH; lia.
Qed.

Lemma selectByUCT_lt wins visits total : length wins = length visits → visits ≠ [] →
  (selectByUCT ln wins visits total < length visits)%nat.
Proof.
  intros Hl Hne. unfold selectByUCT. destruct (find_index _ visits) as [i|] eqn:Hi.
  - by eapply find_index_lt.
  - apply best_ucb_lt; [lia|]. destruct visits; [done|simpl; lia].
Qed.

Lemma most_visited_lt visits i k v n : (i + length visits ≤ n)%nat → (k < n)%nat →
  (most_visited visits i k v < n)%nat.
Proof.
  revert i k v. induction visits as [|x visits IH]; intros i k v Hn Hk; [done|]. simpl in *.
  case_decide; apply IH; lia.
Qed.

Lemma search_returns n it s acts wins visits w r : I s w → not_over s = true → listed enum s w acts →
  acts ≠ [] → length wins = length acts → length visits = length acts →
  ∃ visits' r', search winner_of ln fuel b bg enum cancelled n it s (ctx_CurrentPlayer (st_Ctx s)) acts
    wins visits (w, r) = (Ok visits', (w, r')) ∧ length visits' = length acts.
Proof.
  intros Hs Hno Hl Hne. revert it wins visits r. induction n as [|n IH]; intros it wins visits r Hw Hv.
  { by exists visits, r. }
  cbn [search]. destruct (cancelled it); [by exists visits, r|]. cbv zeta.
  assert (Hidx : (selectByUCT ln wins visits it < length acts)%nat).
  { rewrite <-Hv. apply selectByUCT_lt; [congruence|]. destruct visits; [|done]. by destruct acts. }
  destruct (lookup_lt_is_Some_2 acts _ Hidx) as [a Ha]. rewrite bind_eq, Ha. cbn [st_some st_ret].
  apply list_elem_of_lookup_2 in Ha as Hin. rewrite bind_eq. unfold engine. rewrite Hbg.
  destruct (quiet_move s w acts a Hs Hno Hl Hin) as (s' & HA & Hs'). rewrite HA.
  rewrite bind_eq. destruct (rollout_returns maxDepth s' (ctx_CurrentPlayer (st_Ctx s)) w r Hs') as (x & r' & HR).
  unfold rollout. rewrite HR. case_match.
  - eexists _, _. split; [done|]. unfold bump. by rewrite length_alter.
  - apply IH; [|unfold bump]; by rewrite length_alter.
Qed.

(** Whatever the seed, the number of iterations, the early stop and the point at which
    the caller gives up, the search answers with a listed move and leaves the match
    as it was. *)
Theorem MCTS_is_lawful :
  Lawful enum I (MCTSBot_Play winner_of ln fuel cancelled b).
Proof.
  intros s w [] Hs Hno. destruct (py_list s w Hs Hno) as (_ & acts & Hl & Hne).
  unfold MCTSBot_Play, MCTS_Play. rewrite Hgame, Henum. rewrite bind_eq. unfold view_of. rewrite Hview.
  rewrite bind_eq. unfold ask. cbn [fst]. rewrite Hl, decide_False by done. cbv zeta.
  rewrite bind_eq.
  destruct (search_returns (Z.to_nat (if decide (mb_Iterations b = 0) then 100 else mb_Iterations b)) 0 s acts
    (replicate (length acts) (S754_zero false)) (replicate (length acts) 0) w (seedToUint64 (mb_Seed b)) Hs Hno Hl Hne)
    as (visits & r & HS & Hlen); [by rewrite length_replicate..|].
  rewrite HS. assert (Hm : (most_visited visits 0 0 (-1) < length acts)%nat).
  { apply most_visited_lt; [lia|]. destruct acts; [done|simpl; lia]. }
  destruct (lookup_lt_is_Some_2 acts _ Hm) as [a Ha]. rewrite Ha.
  exists acts, a, (). split; [done|]. split; [by eapply list_elem_of_lookup_2|done].
Qed.
End tree_search.

(** ** Simulation *)
Section simulation.
Context {T : GoTypes} {B : Type} (fuel : nat) (game : Game) (enum : EnumerateFn) (I : State → world → Prop)
  (left : State → world → nat) `{!Playable fuel game enum I left}.
Context (winner_of : val → option string) (draw_of : val → option bool).
Context (bots : gmap string (Bot B)) (Hbots : ∀ s w, I s w → not_over s = true →
  ∃ bot, bots !! ctx_CurrentPlayer (st_Ctx s) = Some bot ∧ Lawful enum I bot).

Lemma match_loop_ends n s moves w b : I s w → (not_over s = true → left s w ≤ n)%nat →
  ∃ p w' b', match_loop fuel n game bots s moves (w, b) = (Ok p, (w', b')) ∧
    I (pd_State p) w' ∧ not_over (pd_State p) = false ∧ pd_Errored p = false ∧
    moves ≤ pd_Moves p ≤ moves + Z.of_nat n.
Proof.
  revert s moves w b. induction n as [|n IH]; intros s moves w b Hs Hn.
  - destruct (not_over s) eqn:Hno.
    + pose proof (py_left s w Hs Hno). specialize (Hn eq_refl). lia.
    + exists (mkPlayed s moves false), w, b. split_and!; [done..|simpl; lia|simpl; lia].
  - cbn [match_loop]. destruct (not_over s) eqn:Hno.
    2:{ exists (mkPlayed s moves false), w, b. split_and!; [done..|simpl; lia|simpl; lia]. }
    destruct (py_list s w Hs Hno) as (Hact & _). cbv zeta.
    assert (mover (st_Ctx s) = ctx_CurrentPlayer (st_Ctx s)) as -> by (unfold mover; by rewrite Hact).
    destruct (Hbots s w Hs Hno) as (bot & Hbot & Hlaw). rewrite Hbot.
    destruct (lawful s w b Hs Hno) as (acts & a & b1 & Hl & Ha & HB).
    rewrite bind_eq. unfold st_try. rewrite HB. rewrite bind_eq. unfold engine.
    destruct (py_move s w acts a Hs Hno Hl Ha) as (s' & w' & -> & Hs' & Hlt).
    destruct (IH s' (moves + 1) w' b1 Hs') as (p & w2 & b2 & HP & Hp & Ho & He & Hm).
    { intros Hno'. specialize (Hlt Hno'). specialize (Hn eq_refl). lia. }
    exists p, w2, b2. split_and!; [done..|lia|lia].
Qed.

Context (cancelled : nat → bool) (opts : SimulateOptions B) (Hopts : so_Game opts = Some game)
  (Hobots : so_Bots opts = bots).
(** Every new match is one of the game's, and its length is under the cap. *)
Context (Hnew : ∀ w, ∃ s w', NewMatch fuel game (so_NumPlayers opts) (so_SetupData opts) w = (Ok s, w') ∧
  I s w' ∧ (left s w' ≤ Z.to_nat (moves_allowed opts))%nat).

Lemma count_ended p t : not_over (pd_State p) = false → pd_Errored p = false →
  ty_Matches (count winner_of draw_of p t) = ty_Matches t + 1 ∧
  ty_Errors (count winner_of draw_of p t) = ty_Errors t ∧
  ty_Completed (count winner_of draw_of p t) = ty_Completed t + 1.
Proof.
  unfold not_over, count. intros Ho He. destruct (ctx_Gameover _) as [v|]; [|done]. rewrite He.
  by destruct (winner_of v).
Qed.

Lemma matches_loop_ends n i t w b : (∀ j, (i ≤ j < i + n)%nat → cancelled j = false) →
  ∃ t' w' b', matches_loop winner_of draw_of fuel cancelled n i game opts
      (Z.to_nat (moves_allowed opts)) t (w, b) =
    (Ok (t', false), (w', b')) ∧
    ty_Matches t' = ty_Matches t + Z.of_nat n ∧ ty_Errors t' = ty_Errors t ∧
    ty_Completed t' = ty_Completed t + Z.of_nat n.
Proof.
  revert i t w b. induction n as [|n IH]; intros i t w b Hc.
  { exists t, w, b. split_and!; [done|lia|done|lia]. }
  cbn [matches_loop]. rewrite Hc by lia. rewrite bind_eq. unfold engine at 1.
  destruct (Hnew w) as (s & w1 & -> & Hs & Hlt). rewrite bind_eq, Hobots.
  destruct (match_loop_ends (Z.to_nat (moves_allowed opts))
    s 0 w1 b Hs) as (p & w2 & b2 & -> & _ & Ho & He & _); [done|].
  destruct (count_ended p t Ho He) as (H1 & H2 & H3).
  destruct (IH (S i) (count winner_of draw_of p t) w2 b2) as (t' & w3 & b3 & HR & HM & HE & HC).
  { intros j Hj. apply Hc. lia. }
  exists t', w3, b3. split; [exact HR|]. rewrite HM, HE, HC, H1, H2, H3. lia.
Qed.

(** Lawful bots for every seat play every simulated match of a playable game to its
    end: no match is cut short or counted as an error. *)
Theorem simulation_completes w b : bots ≠ ∅ → (∀ i, cancelled i = false) →
  ∃ res w' b', Simulate winner_of draw_of fuel cancelled opts (w, b) = (Ok (res, None), (w', b')) ∧
    sr_Matches res = matches_wanted opts ∧
    sr_Errors res = 0.
Proof.
  intros Hne Hc. unfold Simulate. rewrite Hopts, Hobots, decide_False by done.
  set (n := matches_wanted opts).
  destruct (matches_loop_ends (Z.to_nat n) 0 (mkTally 0 ∅ 0 0 0 0 0) w b) as (t & w' & b' & HR & HM & HE & _).
  { intros. apply Hc. }
  exists (result_of t true), w', b'. rewrite bind_eq, HR. split; [done|]. simpl. rewrite HM, HE. simpl.
  split; [|done]. assert (0 < n) by (unfold n, matches_wanted; case_decide; lia). lia.
Qed.
End simulation.

(** ** Language-model bots

    [src/bots/llm]: the provider of the model is a function the bot is given. *)

(** *** provider.go *)
Inductive Role := RoleSystem | RoleUser | RoleAssistant | RoleTool.
Inductive ToolChoice := ToolChoiceUnset | ToolChoiceAuto | ToolChoiceRequired | ToolChoiceNone.

Record ToolCall := mkToolCall { tc_ID : string; tc_Name : string; tc_Arguments : string }.
Record Message := mkMessage { ms_Role : Role; ms_Content : string; ms_ToolCalls : list ToolCall; ms_ToolCallID : string }.
Record Tool := mkTool { to_Name : string; to_Description : string; to_Parameters : string }.
Record ChatRequest := mkChatRequest {
  cr_Model : string;
  cr_System : string;
  cr_Messages : list Message;
  cr_Tools : list Tool;
  cr_ToolChoice : ToolChoice;
  cr_Temperature : spec_float;
  cr_MaxTokens : Z
}.
Record ChatResponse := mkChatResponse {
  cs_Content : string;
  cs_ToolCalls : list ToolCall;
  cs_FinishReason : string;
  cs_Usage : Z * Z
}.

(** [Provider.Chat]: the provider has a state of its own. *)
Definition Provider (P : Type) : Type := ChatRequest → P → (string + ChatResponse) * P.

(** *** tools.go *)
Definition space : Ascii.ascii := Ascii.ascii_of_nat 32.
Definition dash : Ascii.ascii := Ascii.ascii_of_nat 45.
Definition underscore : Ascii.ascii := Ascii.ascii_of_nat 95.

(** [strings.ReplaceAll] of one byte by another. *)
Fixpoint ReplaceAll (old new : Ascii.ascii) (s : string) : string :=
  match s with
  | EmptyString => EmptyString
  | String c s => String (if decide (c = old) then new else c) (ReplaceAll old new s)
  end.

Definition safe_name (move : string) : string := ReplaceAll dash underscore (ReplaceAll space underscore move).
Definition action_prefix : string := "action_".
Definition toolName (idx : nat) (move : string) : string :=
  action_prefix +:+ (pretty idx +:+ String underscore (safe_name move)).

(** The digits, as an int: it wraps. *)
Fixpoint read_index (s : string) (idx : Z) : option Z :=
  match s with
  | EmptyString => Some idx
  | String c s =>
      if decide (byte_of c < 48 ∨ 57 < byte_of c) then None
      else read_index s (wrap64 (idx * 10 + (byte_of c - 48)))
  end.

Definition parseToolName (name : string) : option (Z * string) :=
  rest ← Json.strip_prefix action_prefix name;
  move ← after_first underscore rest;
  idx ← read_index (default "" (head (split_on underscore rest))) 0;
  Some (idx, move).

Section llm.
Context {T : GoTypes} {P : Type}.
(** [fmt.Sprint] of an argument. *)
Context (Sprint : any → string).
Implicit Types (a : Action).

Definition defaultActionDescriber a : string :=
  match ea_Args a with
  | [] => "Play move: " +:+ ea_Move a
  | args => "Play move: " +:+ (ea_Move a +:+ (" with args [" +:+ (String.concat ", " (Sprint <$> args) +:+ "]")))
  end.

(** The schema of no parameters; its quotes are double. *)
Definition emptyParams : string :=
  ReplaceAll (Ascii.ascii_of_nat 39) (Ascii.ascii_of_nat 34) "{'type':'object','properties':{},'additionalProperties':false}".

Definition ToolsFromActions (actions : list Action) (describe : option (Action → string)) : list Tool :=
  imap (λ i a, mkTool (toolName i (ea_Move a)) (default defaultActionDescriber describe a) emptyParams) actions.

Definition ParseToolCallToAction (resp : ChatResponse) (actions : list Action) : string + Action :=
  match cs_ToolCalls resp with
  | [] => inl "no tool call"
  | picked :: _ =>
      match parseToolName (tc_Name picked) with
      | None => inl "unexpected shape"
      | Some (idx, move) =>
          if decide (idx < 0 ∨ Z.of_nat (length actions) ≤ idx) then inl "out of range"
          else match actions !! Z.to_nat idx with
               | Some chosen => if decide (ea_Move chosen ≠ move) then inl "does not match" else inr chosen
               | None => inl "out of range"
               end
      end
  end.

(** *** bot.go *)
Inductive ToolMode := ToolModeRequired | ToolModeAuto | ToolModeFree.

Record LLMBot := mkLLMBot {
  lb_Provider : option (Provider P);
  lb_Model : string;
  lb_Game : option BotGame;
  lb_Enumerate : option EnumerateFn;
  lb_PromptFn : option (State → string → list Action → world → string * string);
  lb_Describe : option (Action → string);
  lb_ToolMode : ToolMode;
  lb_ParseFreeText : option (string → list Action → string + Action);
  lb_Temperature : spec_float;
  lb_MaxTokens : Z;
  lb_MaxRetries : Z;
  lb_RetryFn : option (Z → string → bool)
}.

Definition nonZeroInt (v def : Z) : Z := if decide (v = 0) then def else v.

Definition chat_request (b : LLMBot) (prompts : string * string) (actions : list Action) : ChatRequest :=
  let '(system, user) := prompts in
  mkChatRequest (lb_Model b) system [mkMessage RoleUser user [] ""]
    (match lb_ToolMode b with ToolModeFree => [] | _ => ToolsFromActions actions (lb_Describe b) end)
    (match lb_ToolMode b with
     | ToolModeFree => ToolChoiceUnset
     | ToolModeRequired => ToolChoiceRequired
     | ToolModeAuto => ToolChoiceAuto
     end)
    (lb_Temperature b) (nonZeroInt (lb_MaxTokens b) 1024).

(** Whether the caller's context is done once attempt [i] has failed. *)
Context (cancelled : Z → bool).

(** The attempts from [i] on, [n] of them at most. *)
Fixpoint chat (call : Provider P) (b : LLMBot) (req : ChatRequest) (n : nat) (i : Z)
    : ST (world * P) bot_error (string + ChatResponse) :=
  match n with
  | O => mret (inr (mkChatResponse "" [] "" (0, 0)))
  | S n =>
      r ← own (call req);
      match r with
      | inr resp => mret (inr resp)
      | inl err =>
          if cancelled i then st_err Cancelled
          else if negb (default (λ _ _, true) (lb_RetryFn b) i err) then mret (inl err)
          else match n with O => mret (inl err) | S _ => chat call b req n (i + 1) end
      end
  end.

Definition answer (b : LLMBot) (resp : ChatResponse) (actions : list Action) : ST (world * P) bot_error Action :=
  match lb_ToolMode b with
  | ToolModeFree =>
      match lb_ParseFreeText b with
      | None => st_err (ErrBot "ParseFreeText is nil")
      | Some parse => match parse (cs_Content resp) actions with inl e => st_err (ErrBot e) | inr a => mret a end
      end
  | _ => match ParseToolCallToAction resp actions with inl e => st_err (ErrBot e) | inr a => mret a end
  end.

Definition maxRetries (b : LLMBot) : Z := nonZeroInt (lb_MaxRetries b) 2.

Definition LLMBot_Play (b : LLMBot) : Bot P := λ state playerID,
  match lb_Provider b with
  | None => st_err (ErrBot "Provider is required")
  | Some call =>
      if decide (lb_Model b = "") then st_err (ErrBot "Model is required")
      else match lb_Game b, lb_PromptFn b with
      | None, _ => st_err GameRequired
      | _, None => st_err (ErrBot "PromptFn is required")
      | Some _, Some prompt =>
          match resolveEnumerate (lb_Enumerate b) (lb_Game b) with
          | None => st_err NoEnumerate
          | Some enum =>
              actions ← ask enum state (st_Ctx state) playerID;
              if decide (actions = []) then st_err ErrNoMoves
              else
                prompts ← (λ wb, (Ok (prompt state playerID actions wb.1), wb));
                r ← chat call b (chat_request b prompts actions) (Z.to_nat (maxRetries b + 1)) 0;
                match r with
                | inl e => st_err (ErrBot e)
                | inr resp => answer b resp actions
                end
          end
      end
  end.
End llm.
Arguments LLMBot {T} P.

(** *** prompt.go *)
Section prompt.
Context {T : GoTypes}.
(** [fmt] of a state and of a move's arguments. *)
Context (show_G : any → world → string) (show_args : list any → string).

Definition nl : string := String (Ascii.ascii_of_nat 10) EmptyString.

Definition action_line (i : nat) (a : Action) : string :=
  "  " +:+ (pretty i +:+ (". " +:+ (ea_Move a +:+ ((match ea_Args a with [] => "" | args => " " +:+ show_args args end) +:+ nl)))).

Definition DefaultPrompt (state : State) (playerID : string) (actions : list Action) (w : world) : string * string :=
  ("You are playing a turn-based game. On your turn, pick exactly one legal action by calling the corresponding tool. Choose strategically.",
   String.concat ""
     (["It is turn "; pretty (ctx_Turn (st_Ctx state)); ". You are player "; playerID; "."; nl]
      ++ (if decide (ctx_Phase (st_Ctx state) = "") then [] else ["Current phase: "; ctx_Phase (st_Ctx state); "."; nl])
      ++ [nl; "Game state (raw):"; nl; show_G (st_G state) w; nl; nl; "Your legal actions:"; nl]
      ++ imap action_line actions
      ++ [nl; "Call the tool corresponding to your chosen action."])).
End prompt.

(** *** mock.go *)
Record MockProvider := mkMock {
  mp_Reply : ChatResponse;
  mp_ReplyFn : option (ChatRequest → string + ChatResponse);
  mp_Err : option string;
  mp_Requests : list ChatRequest
}.

Definition Mock_Chat : Provider MockProvider := λ req m,
  let m := mkMock (mp_Reply m) (mp_ReplyFn m) (mp_Err m) (mp_Requests m ++ [req]) in
  (match mp_Err m, mp_ReplyFn m with
   | Some e, _ => inl e
   | None, Some f => f req
   | None, None => inr (mp_Reply m)
   end, m).

Definition MockPickAction (idx : Z) (req : ChatRequest) : string + ChatResponse :=
  if decide (idx < 0 ∨ Z.of_nat (length (cr_Tools req)) ≤ idx) then inl "index out of range"
  else match cr_Tools req !! Z.to_nat idx with
       | Some t => inr (mkChatResponse "" [mkToolCall "call_1" (to_Name t) "{}"] "tool_calls" (0, 0))
       | None => inl "index out of range"
       end.

(** *** Names and indices *)
Definition digit (c : Ascii.ascii) : Prop := 48 ≤ byte_of c ≤ 57.

Lemma digit_char (x : N) : (x < 10)%N → digit (pretty_N_char x) ∧ byte_of (pretty_N_char x) = 48 + Z.of_N x.
Proof.
  intros Hx. assert (x = 0 ∨ x = 1 ∨ x = 2 ∨ x = 3 ∨ x = 4 ∨ x = 5 ∨ x = 6 ∨ x = 7 ∨ x = 8 ∨ x = 9)%N as Hc by lia.
  unfold digit. destruct_or! Hc; subst; done.
Qed.

Lemma wrap64_small n : 0 ≤ n < 2 ^ 63 → wrap64 n = n.
Proof. intros Hn. unfold wrap64. rewrite Z.mod_small; lia. Qed.

Lemma read_pretty_go (x : N) s : Z.of_N x < 2 ^ 63 → read_index (pretty_N_go x s) 0 = read_index s (Z.of_N x).
Proof.
  revert s. induction (N.lt_wf_0 x) as [x _ IH]; intros s Hx.
  assert (x = 0 ∨ 0 < x)%N as [->|Hpos] by lia; [by rewrite pretty_N_go_0|].
  assert (Hlt : (x `div` 10 < x)%N) by (by apply N.div_lt).
  rewrite pretty_N_go_step by done. rewrite IH by lia. cbn [read_index].
  destruct (digit_char (x `mod` 10)) as [Hd Hb]; [by apply N.mod_lt|].
  rewrite decide_False by (unfold digit in Hd; lia). rewrite Hb. f_equal.
  pose proof (N.div_mod x 10 ltac:(done)) as Hdm. rewrite wrap64_small by lia. lia.
Qed.

Lemma read_pretty (n : nat) : Z.of_nat n < 2 ^ 63 → read_index (pretty n) 0 = Some (Z.of_nat n).
Proof.
  intros Hn. unfold pretty, pretty_nat, pretty, pretty_N. case_decide as H0.
  - by replace n with O by lia.
  - rewrite read_pretty_go by lia. simpl. f_equal. lia.
Qed.

Lemma pretty_go_free (x : N) s : free_of underscore s → free_of underscore (pretty_N_go x s).
Proof.
  revert s. induction (N.lt_wf_0 x) as [x _ IH]; intros s Hs.
  assert (x = 0 ∨ 0 < x)%N as [->|Hpos] by lia; [by rewrite pretty_N_go_0|].
  rewrite pretty_N_go_step by done. apply IH; [by apply N.div_lt|]. apply free_cons. split; [|done].
  destruct (digit_char (x `mod` 10)) as [Hd _]; [by apply N.mod_lt|]. intros He. rewrite He in Hd. by destruct Hd.
Qed.

Lemma pretty_free (n : nat) : free_of underscore (pretty n).
Proof.
  unfold pretty, pretty_nat, pretty, pretty_N. case_decide; [|by apply pretty_go_free, Forall_nil].
  apply free_cons. split; [done|apply Forall_nil; done].
Qed.

Lemma head_split sep l rest : free_of sep l → head (split_on sep (l +:+ String sep rest)) = Some l.
Proof.
  induction l as [|c l IH]; intros Hl; simpl; [by rewrite decide_True|].
  apply free_cons in Hl as [Hc Hl]. rewrite decide_False by done. specialize (IH Hl).
  by destruct (split_on sep (l +:+ String sep rest)); simplify_eq/=.
Qed.

(** A tool's name tells the index and the move as it is written there. *)
Lemma tool_names_parse i move : Z.of_nat i < 2 ^ 63 → parseToolName (toolName i move) = Some (Z.of_nat i, safe_name move).
Proof.
  intros Hi. unfold parseToolName, toolName. rewrite strip_prefix_app. cbn [mbind option_bind].
  rewrite after_first_app by apply pretty_free. cbn [mbind option_bind].
  rewrite head_split by apply pretty_free. cbn [from_option id]. by rewrite read_pretty.
Qed.

Lemma ReplaceAll_free old new s : free_of old s → ReplaceAll old new s = s.
Proof.
  induction s as [|c s IH]; intros Hs; [done|]. apply free_cons in Hs as [Hc Hs]. simpl. rewrite decide_False by done. by rewrite IH.
Qed.

Lemma ReplaceAll_none old new s : new ≠ old → free_of old (ReplaceAll old new s).
Proof.
  intros Hn. induction s as [|c s IH]; [apply Forall_nil; done|]. apply free_cons. split; [|done]. by case_decide.
Qed.

Lemma ReplaceAll_keeps old new sep s : sep ≠ new → free_of sep s → free_of sep (ReplaceAll old new s).
Proof.
  intros Hn. induction s as [|c s IH]; intros Hs; [done|]. apply free_cons in Hs as [Hc Hs]. apply free_cons.
  split; [|by apply IH]. case_decide; congruence.
Qed.

Definition plain_name (move : string) : Prop := free_of space move ∧ free_of dash move.

Lemma safe_plain move : safe_name move = move ↔ plain_name move.
Proof.
  unfold safe_name. split.
  - intros He. split.
    + rewrite <-He. apply ReplaceAll_keeps; [done|]. by apply ReplaceAll_none.
    + rewrite <-He. by apply ReplaceAll_none.
  - intros [Hs Hd]. by rewrite (ReplaceAll_free space), ReplaceAll_free.
Qed.

Section picks.
Context {T : GoTypes} (Sprint : any → string).
Implicit Types (a : Action) (actions : list Action).

Definition calls (name : string) (resp : ChatResponse) : Prop := ∃ call rest, cs_ToolCalls resp = call :: rest ∧ tc_Name call = name.

(** Of the tools it is offered a model can pick exactly the actions whose move has neither a
    space nor a dash in its name, and picking one of them plays it. *)
Theorem tools_pick_their_actions actions describe i t resp : Z.of_nat (length actions) ≤ 2 ^ 63 →
  ToolsFromActions Sprint actions describe !! i = Some t → calls (to_Name t) resp →
  ∃ a, actions !! i = Some a ∧
    (plain_name (ea_Move a) → ParseToolCallToAction resp actions = inr a) ∧
    (¬ plain_name (ea_Move a) → ∃ e, ParseToolCallToAction resp actions = inl e).
Proof.
  intros Hlen Ht (call & rest & Hcalls & Hname). unfold ToolsFromActions in Ht. rewrite list_lookup_imap in Ht.
  destruct (actions !! i) as [a|] eqn:Ha; [|done]. injection Ht as <-. exists a. split; [done|].
  pose proof (lookup_lt_Some _ _ _ Ha) as Hi. unfold ParseToolCallToAction. rewrite Hcalls, Hname. cbn [to_Name].
  rewrite tool_names_parse by lia. rewrite decide_False by lia. rewrite Nat2Z.id. unfold Action in *. rewrite Ha.
  split; intros Hp.
  - rewrite (proj2 (safe_plain _) Hp). by rewrite decide_False by (intros H; by apply H).
  - rewrite decide_True by (intros He; by apply Hp, safe_plain). by eexists.
Qed.

(** Whatever tool is named, an answer is read as a listed action or refused. *)
Lemma parsed_is_listed resp actions a : ParseToolCallToAction resp actions = inr a → a ∈ actions.
Proof.
  unfold ParseToolCallToAction. destruct (cs_ToolCalls resp) as [|c cs]; [done|].
  destruct (parseToolName (tc_Name c)) as [[idx move]|]; [|done]. case_decide; [done|].
  destruct (actions !! Z.to_nat idx) as [chosen|] eqn:Ha; [|done]. case_decide; [done|]. intros [= <-].
  by eapply list_elem_of_lookup_2.
Qed.
End picks.

(** *** What the bot plays *)
Section play.
Context {T : GoTypes} {P : Type} (Sprint : any → string) (cancelled : Z → bool) (b : LLMBot P).
Implicit Types (s : State) (w : world) (p : P).
Abbreviation chat := (chat cancelled).
Abbreviation LLMBot_Play := (LLMBot_Play Sprint cancelled b).

Lemma chat_leaves call req n i w p : (chat call b req n i (w, p)).2.1 = w.
Proof.
  revert i p. induction n as [|n IH]; intros i p; [done|]. cbn [Bots.chat]. rewrite bind_eq. unfold own.
  destruct (call req p) as [[e|resp] p']; [|done]. destruct (cancelled i); [done|].
  destruct (negb _); [done|]. destruct n; [done|apply IH].
Qed.

(** Whatever the model answers, unless it is asked for free text, the bot plays a listed
    move of the player it plays for, or fails, and the match is left alone. *)
Theorem model_bots_play_listed_moves s playerID w p :
  lb_ToolMode b ≠ ToolModeFree →
  let '(r, (w', _)) := LLMBot_Play s playerID (w, p) in
  w' = w ∧ ∀ a, r = Ok a →
    ∃ enum acts, resolveEnumerate (lb_Enumerate b) (lb_Game b) = Some enum ∧
      enum (st_G s) (st_Ctx s) playerID w = Ok acts ∧ a ∈ acts.
Proof.
  intros Hm. unfold Bots.LLMBot_Play. destruct (lb_Provider b) as [call|]; [|done]. case_decide; [done|].
  destruct (lb_Game b) as [g|]; [|done]. destruct (lb_PromptFn b) as [prompt|]; [|done].
  destruct (resolveEnumerate (lb_Enumerate b) (Some g)) as [enum|]; [|done]. rewrite bind_eq. unfold ask. cbn [fst].
  destruct (enum (st_G s) (st_Ctx s) playerID w) as [acts|e| |] eqn:Hl; try done. case_decide; [done|].
  rewrite bind_eq. cbv beta iota. cbn [fst]. rewrite bind_eq.
  set (req := chat_request _ _ _ _). pose proof (chat_leaves call req (Z.to_nat (maxRetries b + 1)) 0 w p) as Hw.
  destruct (chat call b req _ 0 (w, p)) as [[[e|resp]|e| |] [w' p']]; cbn in Hw |- *; subst w'; try done.
  unfold answer. destruct (lb_ToolMode b); [..|done].
  all: destruct (ParseToolCallToAction resp acts) as [e|a] eqn:Ha; [done|].
  all: split; [done|]; intros a' [= <-]; exists enum, acts; split; [done|]; split; [done|]; by eapply parsed_is_listed.
Qed.

(** A provider whose model always calls one of the tools it is offered. *)
Definition obliging (call : Provider P) : Prop := ∀ req p, cr_Tools req ≠ [] →
  ∃ resp p' i t, call req p = (inr resp, p') ∧ cr_Tools req !! i = Some t ∧ calls (to_Name t) resp.

(** With such a model the bot keeps the contract of bots, in games whose moves have no
    spaces or dashes in their names, so that simulations with it complete. *)
Theorem LLMBot_lawful (I : State → world → Prop) call enum game prompt :
  lb_Provider b = Some call → obliging call → lb_Model b ≠ "" → lb_Game b = Some game → lb_PromptFn b = Some prompt →
  lb_ToolMode b ≠ ToolModeFree → 0 ≤ maxRetries b → resolveEnumerate (lb_Enumerate b) (lb_Game b) = Some enum →
  (∀ s w, I s w → not_over s = true → ∃ acts, listed enum s w acts ∧ acts ≠ [] ∧ Z.of_nat (length acts) ≤ 2 ^ 63 ∧
     Forall (λ a, plain_name (ea_Move a)) acts) →
  Lawful enum I LLMBot_Play.
Proof.
  intros Hp Hcall Hmodel Hg Hprompt Hmode Hmax Henum Hacts s w p Hs Hno.
  destruct (Hacts s w Hs Hno) as (acts & Hl & Hne & Hlen & Hplain). rewrite Hg in Henum.
  unfold Bots.LLMBot_Play. rewrite Hp, decide_False, Hg, Hprompt, Henum by done. unfold listed in Hl.
  set (req := chat_request Sprint b (prompt s (ctx_CurrentPlayer (st_Ctx s)) acts w) acts).
  assert (Htools : cr_Tools req = ToolsFromActions Sprint acts (lb_Describe b)).
  { unfold req, chat_request. destruct (prompt _ _ _ _). by destruct (lb_ToolMode b). }
  destruct (Hcall req p) as (resp & p' & i & t & Hc & Ht & Hcalls).
  { rewrite Htools. by destruct acts. }
  rewrite Htools in Ht. destruct (tools_pick_their_actions Sprint acts (lb_Describe b) i t resp Hlen Ht Hcalls) as (a & Ha & Hpick & _).
  apply list_elem_of_lookup_2 in Ha as Hin. exists acts, a, p'. split; [done|]. split; [done|].
  rewrite bind_eq. unfold ask. cbn [fst]. rewrite Hl, decide_False by done. rewrite bind_eq. cbn [fst]. fold req.
  replace (Z.to_nat (maxRetries b + 1)) with (S (Z.to_nat (maxRetries b))) by lia. rewrite bind_eq. cbn [Bots.chat]. rewrite bind_eq. unfold own.
  rewrite Hc. cbn. unfold answer. rewrite Forall_forall in Hplain. rewrite Hpick by by apply Hplain.
  by destruct (lb_ToolMode b).
Qed.
End play.

(** A provider that fails is asked the same thing at most [MaxRetries] + 1 times. *)
Theorem retries_are_bounded {T : GoTypes} cancelled (b : LLMBot MockProvider) req n i w m :
  ∃ k, (k ≤ n)%nat ∧ mp_Requests (chat cancelled Mock_Chat b req n i (w, m)).2.2 = mp_Requests m ++ replicate k req.
Proof.
  revert i m. induction n as [|n IH]; intros i m; [exists O; by rewrite app_nil_r|]. cbn [chat]. rewrite bind_eq. unfold own.
  destruct (Mock_Chat req m) as [r m'] eqn:Hm.
  assert (Hr : mp_Requests m' = mp_Requests m ++ [req]) by (unfold Mock_Chat in Hm; by injection Hm as _ <-).
  assert (H1 : ∃ k, (k ≤ S n)%nat ∧ mp_Requests m' = mp_Requests m ++ replicate k req) by (exists 1%nat; split; [lia|done]).
  destruct r as [e|resp]; [|done]. destruct (cancelled i); [done|]. destruct (negb _); [done|]. destruct n as [|n]; [done|].
  destruct (IH (i + 1) m') as (k & Hk & Hreq). exists (S k). split; [lia|]. rewrite Hreq, Hr, <-app_assoc. done.
Qed.

Lemma first_tool_obliges {P : Type} : obliging (P:=P) (λ req p, (MockPickAction 0 req, p)).
Proof.
  intros req p Hne. unfold MockPickAction. destruct (cr_Tools req) as [|t ts]; [done|].
  rewrite decide_False by (simpl; lia). eexists _, _, O, t. split; [reflexivity|]. split; [done|]. by eexists _, _.
Qed.
