(* ===== verification/TicTacToe.v ===== *)
(** * Tic-tac-toe

    [src/games/tictactoe/tictactoe.go] and its matches over the engine: which requests
    are accepted, when the game ends and with what, and that bots play it out. *)

From S2P Require Import Prelude CoreTypes Api GameDef Reducer Session OneMove Choices Cards Bots.
#[local] Open Scope Z_scope.

(** ** The game *)

(** Nine squares, each "X", "O" or empty. *)
Record State := mkBoard { Cells : list string }.

(** The values it exchanges with the engine: a state, which no move ever changes, plain
    values, and the two forms of a result. *)
Inductive value : Type :=
  | VState (s : State)
  | VGo (v : GoVal)
  | VWinner (player : string)
  | VDraw.

#[export] Instance TicTacToeTypes : GoTypes :=
  {| val := value; world := (); val_true := VGo (GoBool true); randref := (); as_Random := λ _, None |}.

Definition blank : State := mkBoard (replicate 9 "").

Definition toInt (v : any) : option Z :=
  match v with
  | Some (VGo (GoInt "" KInt n)) => Some n
  | Some (VGo (GoInt "" KInt32 n)) => Some n
  | Some (VGo (GoInt "" KInt64 n)) => Some n
  | Some (VGo (GoFloat "" f)) => Some (int_of_float f)
  | Some (VGo (GoFloat "float32" f)) => Some (int_of_float f)
  | _ => None
  end.

Definition mark_of (player : string) : string := if decide (player = "1") then "O" else "X".

Definition clickCell : MoveFn := λ mc args,
  match args with
  | [] => Ret (inl ErrInvalidMove)
  | arg :: _ =>
      match toInt arg with
      | None => Ret (inl ErrInvalidMove)
      | Some idx =>
          if decide (idx < 0 ∨ 8 < idx) then Ret (inl ErrInvalidMove)
          else match mc_G mc with
               | Some (VState s) =>
                   match go_index (Cells s) idx with
                   | None => Crash
                   | Some cell =>
                       if decide (cell = "") then
                         Ret (inr (Some (VState (mkBoard
                           (<[Z.to_nat idx := mark_of (ctx_CurrentPlayer (mc_Ctx mc))]> (Cells s))))))
                       else Ret (inl ErrInvalidMove)
                   end
               | _ => Crash
               end
      end
  end.

Definition winningLines : list (nat * nat * nat) :=
  [(0, 1, 2); (3, 4, 5); (6, 7, 8); (0, 3, 6); (1, 4, 7); (2, 5, 8); (0, 4, 8); (2, 4, 6)]%nat.

Definition cell (cells : list string) (i : nat) : string := default "" (cells !! i).

Definition complete (cells : list string) (line : nat * nat * nat) : bool :=
  let '(i, j, k) := line in
  bool_decide (cell cells i ≠ "" ∧ cell cells i = cell cells j ∧ cell cells j = cell cells k).

Definition winner (cells : list string) : string :=
  match filter (λ line, complete cells line = true) winningLines with
  | [] => ""
  | (i, _, _) :: _ => cell cells i
  end.

Definition verdict (cells : list string) (current : string) : any :=
  if decide (winner cells ≠ "") then Some (VWinner current)
  else if decide ("" ∉ cells) then Some VDraw
  else None.

Definition endIf (mc : MoveContext) : prog any :=
  match mc_G mc with
  | Some (VState s) => Ret (verdict (Cells s) (ctx_CurrentPlayer (mc_Ctx mc)))
  | _ => Crash
  end.

Definition click (i : nat) : Action := mkEnum "clickCell" [Some (VGo (GoInt "" KInt (Z.of_nat i)))].

Definition empty_cells (cells : list string) : list nat :=
  filter (λ i, cell cells i = "") (seq 0 (length cells)).

Definition enumerate : EnumerateFn := λ G ctx playerID _,
  if decide (playerID ≠ ctx_CurrentPlayer ctx) then Ok []
  else match G with
       | Some (VState s) => Ok (click <$> empty_cells (Cells s))
       | _ => Panicked
       end.

Definition New : Game := mkGame "tic-tac-toe" 2 2 (Some (λ _ _ w, (Some (VState blank), w)))
  {[ "clickCell" := EntryFn clickCell ]}
  (Some (mkTurn (mkOrder None None None) None None None None 1 1 0 None ∅)) ∅
  (Some endIf) None None None None false [].

(** ** Lines *)

Definition has_line (m : string) (cells : list string) : Prop :=
  ∃ i j k, (i, j, k) ∈ winningLines ∧ cell cells i = m ∧ cell cells j = m ∧ cell cells k = m.

Lemma winner_empty cells : winner cells = "" ↔ ∀ m, m ≠ "" → ¬ has_line m cells.
Proof.
  unfold winner. split.
  - intros Hw m Hm (i & j & k & Hl & Hi & Hj & Hk).
    assert (Hin : (i, j, k) ∈ filter (λ line, complete cells line = true) winningLines).
    { apply list_elem_of_filter. split; [|done]. simpl. apply bool_decide_true. by rewrite Hi, Hj, Hk. }
    destruct (filter _ _) as [|[[a b] c] l] eqn:Hf; [by apply elem_of_nil in Hin|].
    assert (Ha : (a, b, c) ∈ filter (λ line, complete cells line = true) winningLines) by (rewrite Hf; by left).
    apply list_elem_of_filter in Ha as [Hc _]. by apply bool_decide_eq_true in Hc as [? _].
  - intros Hno. destruct (filter _ _) as [|[[a b] c] l] eqn:Hf; [done|].
    assert (Ha : (a, b, c) ∈ filter (λ line, complete cells line = true) winningLines) by (rewrite Hf; by left).
    apply list_elem_of_filter in Ha as [Hc Hin]. apply bool_decide_eq_true in Hc as (Hne & Hab & Hbc).
    destruct (Hno (cell cells a) Hne). exists a, b, c. split_and!; [done..|congruence|congruence].
Qed.

Lemma winner_line cells : winner cells ≠ "" → has_line (winner cells) cells.
Proof.
  unfold winner. destruct (filter _ _) as [|[[a b] c] l] eqn:Hf; [done|]. intros _.
  assert (Ha : (a, b, c) ∈ filter (λ line, complete cells line = true) winningLines) by (rewrite Hf; by left).
  apply list_elem_of_filter in Ha as [Hc Hin]. apply bool_decide_eq_true in Hc as (Hne & Hab & Hbc).
  exists a, b, c. split_and!; [done..|congruence|congruence].
Qed.

Lemma cell_insert cells i j m : (i < length cells)%nat →
  cell (<[i := m]> cells) j = if decide (j = i) then m else cell cells j.
Proof.
  intros Hi. unfold cell. case_decide as Hj.
  - subst. by rewrite list_lookup_insert_eq.
  - by rewrite list_lookup_insert_ne.
Qed.

(** The lines a move makes are the mover's. *)
Lemma new_line_is_mine cells i m m' : (i < length cells)%nat → cell cells i = "" → winner cells = "" →
  m' ≠ "" → has_line m' (<[i := m]> cells) → m' = m.
Proof.
  intros Hi He Hw Hm' (a & b & c & Hl & Ha & Hb & Hc). rewrite cell_insert in Ha, Hb, Hc by done.
  repeat case_decide; try congruence. destruct (proj1 (winner_empty cells) Hw m' Hm').
  exists a, b, c. done.
Qed.

(** ** A match in progress *)
Section match_.
Implicit Types (s : CoreTypes.State) (cells : list string).

Lemma tictactoe_one_move : one_move New "clickCell" clickCell the_next endIf.
Proof. split; try done. eexists. split; done. Qed.

(** Nobody has a line, and a square is free. *)
Definition open (cells : list string) : Prop := length cells = 9%nat ∧ winner cells = "" ∧ "" ∈ cells.

Record at_board s cells (p : string) : Prop := {
  ab_state : ∃ c id log, s = idle (Some (VState (mkBoard cells))) c id log ∧ waiting c ∧
    ctx_PlayOrder c = seats ∧ ctx_NumPlayers c = 2 ∧ ctx_CurrentPlayer c = p ∧
    go_index seats (ctx_PlayOrderPos c) = Some p;
  ab_open : open cells
}.

(** The square as an argument of the move, in any form the wire may give it. *)
Definition names_cell (arg : any) (i : Z) : Prop := toInt arg = Some i.

Lemma click_memory mc cells arg rest i : mc_G mc = Some (VState (mkBoard cells)) → names_cell arg i →
  length cells = 9%nat →
  memory_only (clickCell mc (arg :: rest)) (λ w, (Ok (
    if decide (0 ≤ i ≤ 8 ∧ cell cells (Z.to_nat i) = "")
    then inr (Some (VState (mkBoard (<[Z.to_nat i := mark_of (ctx_CurrentPlayer (mc_Ctx mc))]> cells))))
    else inl ErrInvalidMove), w)).
Proof.
  intros HG Hi Hl c e extra. unfold clickCell. rewrite Hi.
  destruct (decide (i < 0 ∨ 8 < i)) as [Hr|Hr].
  { rewrite decide_False by lia. by destruct e. }
  rewrite HG. simpl. unfold cell.
  destruct (lookup_lt_is_Some_2 cells (Z.to_nat i)) as [x Hx]; [lia|].
  assert (go_index cells i = Some x) as -> by (apply go_index_Some; split; [lia|done]).
  rewrite Hx. simpl. destruct (decide (x = "")) as [Hxe|Hxe].
  - rewrite decide_True by (split; [lia|done]). by destruct e.
  - rewrite decide_False by (by intros [_ ?]). by destruct e.
Qed.

(** What a finished match of the mover's says. *)
Definition over_with s (p : string) cells : Prop :=
  (ctx_Gameover (st_Ctx s) = Some (VWinner p) ∧ has_line (mark_of p) cells ∧ ¬ has_line (mark_of (other p)) cells) ∨
  (ctx_Gameover (st_Ctx s) = Some VDraw ∧ "" ∉ cells ∧ ∀ m, m ≠ "" → ¬ has_line m cells).

Lemma mark_other p : p = "0" ∨ p = "1" → mark_of (other p) ≠ mark_of p.
Proof. by intros [-> | ->]. Qed.

Lemma mark_nonempty p : mark_of p ≠ "".
Proof. unfold mark_of. by case_decide. Qed.

Lemma at_board_player s cells p : at_board s cells p → p = "0" ∨ p = "1".
Proof.
  intros [(c & id & log & _ & _ & _ & _ & _ & Hgo) _]. destruct (seat_cases _ _ Hgo) as [[_ ?]|[_ ?]]; auto.
Qed.

Lemma verdict_of cells p : open cells → p = "0" ∨ p = "1" → ∀ i, (i < 9)%nat → cell cells i = "" →
  let cells' := <[i := mark_of p]> cells in
  match verdict cells' p with
  | Some r => (r = VWinner p ∧ has_line (mark_of p) cells' ∧ ¬ has_line (mark_of (other p)) cells') ∨
              (r = VDraw ∧ "" ∉ cells' ∧ ∀ m, m ≠ "" → ¬ has_line m cells')
  | None => open cells'
  end.
Proof.
  intros (Hl & Hw & Hin) Hp i Hi He cells'. assert (Hl' : length cells' = 9%nat) by (unfold cells'; by rewrite length_insert).
  assert (Hmine : ∀ m, m ≠ "" → has_line m cells' → m = mark_of p).
  { intros m Hm Hx. eapply (new_line_is_mine cells i); [lia|done..]. }
  unfold verdict. destruct (decide (winner cells' ≠ "")) as [Hne|Heq].
  - left. split; [done|]. split.
    + rewrite <-(Hmine _ Hne (winner_line _ Hne)). by apply winner_line.
    + intros Hx. by apply (mark_other p Hp), (Hmine _ (mark_nonempty _)).
  - apply dec_stable in Heq. destruct (decide ("" ∉ cells')) as [Hf|Hf].
    + right. split; [done|]. split; [done|]. by apply winner_empty.
    + split; [done|]. split; [done|]. by apply dec_stable.
Qed.

Lemma endif_memory G cells c p wired : G = Some (VState (mkBoard cells)) → ctx_CurrentPlayer c = p →
  memory_only (endIf (hook_mc G c p wired)) (λ w, (Ok (verdict cells p), w)).
Proof. intros -> <-. exact (ret_memory _). Qed.

Definition click_request (p : string) (args : list any) (now : Z) (client : bool) : MoveRequest :=
  a_move "clickCell" p args now client.

(** A free square is taken, and the match goes on with the other player or is over. *)
Lemma free_square fuel s cells p arg rest i now client w : at_board s cells p → names_cell arg i →
  0 ≤ i ≤ 8 → cell cells (Z.to_nat i) = "" →
  let cells' := <[Z.to_nat i := mark_of p]> cells in
  ∃ s', Apply (S fuel) New s (click_request p (arg :: rest) now client) w = (Ok (s', None), w) ∧
    st_G s' = Some (VState (mkBoard cells')) ∧ st_StateID s' = st_StateID s + 1 ∧
    (at_board s' cells' (other p) ∨ over_with s' p cells').
Proof.
  intros Hat Harg Hi Hfree cells'. pose proof (at_board_player _ _ _ Hat) as Hp.
  destruct Hat as [(c & sid & log & -> & Hc & Ho & Hn & <- & Hgo) Hopen].
  set (G := Some (VState (mkBoard cells))). set (G' := Some (VState (mkBoard cells'))).
  assert (Hclick := click_memory (player_mc G (set_ctx_NowMs now c) (ctx_CurrentPlayer c)) cells arg rest i
    eq_refl Harg (proj1 Hopen)).
  pose proof (verdict_of cells _ Hopen Hp (Z.to_nat i) ltac:(lia) Hfree) as Hv. cbv zeta in Hv.
  fold cells' in Hv.
  assert (Hend := endif_memory G' cells' (counted now c) (ctx_CurrentPlayer c) true eq_refl eq_refl).
  destruct (verdict cells' (ctx_CurrentPlayer c)) as [res|] eqn:Hver.
  - eexists. split.
    + eapply (one_move_ends New _ _ _ _ tictactoe_one_move fuel G c sid log (arg :: rest) now client);
        [done|exact Hclick|by rewrite decide_True by done|exact Hend|done].
    + split; [done|]. split; [done|]. right. unfold over_with. simpl.
      destruct Hv as [(-> & ? & ?)|(-> & ? & ?)]; [left|right]; done.
  - destruct (next_seat _ _ Hgo) as (n & Hrem & Hwr & Hgo').
    eexists. split.
    + eapply (one_move_continues New _ _ _ _ tictactoe_one_move fuel G c sid log (arg :: rest) now client);
        [done|exact Hclick|by rewrite decide_True by done|exact Hend|done|by apply turn_memory|done|].
      simpl. rewrite Hrem, Ho, Hwr. exact Hgo'.
    + split; [done|]. split; [done|]. left. split; [|done].
      eexists _, _, _. split; [done|]. simpl. rewrite Hrem, Ho, Hwr.
      destruct Hc. by repeat split.
Qed.

(** Any other argument is refused, and the match stays as it is. *)
Lemma no_square fuel s cells p args now client w : at_board s cells p →
  (∀ arg rest i, args = arg :: rest → names_cell arg i → ¬ (0 ≤ i ≤ 8 ∧ cell cells (Z.to_nat i) = "")) →
  Apply (S fuel) New s (click_request p args now client) w = (Ok (s, Some ErrInvalidMove), w).
Proof.
  intros [(c & sid & log & -> & Hc & Ho & Hn & <- & Hgo) Hopen] Hno.
  eapply (one_move_refused New _ _ _ _ tictactoe_one_move fuel _ c sid log args now client); [done| |done].
  destruct args as [|arg rest]; [apply ret_memory|].
  destruct (toInt arg) as [i|] eqn:Hi.
  - pose proof (click_memory (player_mc (Some (VState (mkBoard cells))) (set_ctx_NowMs now c) (ctx_CurrentPlayer c))
      cells arg rest i eq_refl Hi (proj1 Hopen)) as Hm.
    by rewrite decide_False in Hm by by eapply Hno.
  - unfold clickCell. rewrite Hi. apply ret_memory.
Qed.

(** A request on a running match of tic-tac-toe is accepted exactly when it names a free
    square, from zero to eight.  Then that square alone changes, to the mark of the
    mover, and one of three things holds: the other player is on turn and nobody has a
    line; or the mover has a line, the other has none, and the mover is recorded as the
    winner; or the board is full without a line and a draw is recorded.  Otherwise the
    state is returned as it was. *)
Theorem clicks_follow_the_rules fuel s cells p arg rest i now client w : at_board s cells p → names_cell arg i →
  let req := click_request p (arg :: rest) now client in
  if decide (0 ≤ i ≤ 8 ∧ cell cells (Z.to_nat i) = "") then
    let cells' := <[Z.to_nat i := mark_of p]> cells in
    ∃ s', Apply (S fuel) New s req w = (Ok (s', None), w) ∧ st_G s' = Some (VState (mkBoard cells')) ∧
      st_StateID s' = st_StateID s + 1 ∧ (at_board s' cells' (other p) ∨ over_with s' p cells')
  else Apply (S fuel) New s req w = (Ok (s, Some ErrInvalidMove), w).
Proof.
  intros Hat Harg req. destruct (decide _) as [[Hi Hf]|Hno]; [by apply free_square|].
  eapply no_square; [done|]. intros arg' rest' j [= <- <-] Hj. unfold names_cell in *. by assert (j = i) as -> by congruence.
Qed.

(** ** New matches *)

Lemma new_match_at_board fuel np data seed w : ∃ s,
  NewMatchSeeded (S fuel) New np data seed w = (Ok s, w) ∧ at_board s (Cells blank) "0".
Proof.
  assert (Hpc : PlayerCount New np = 2) by (unfold PlayerCount; simpl; repeat case_decide; lia).
  pose proof (one_move_new New _ _ _ _ tictactoe_one_move fuel np data seed w 2 "0" _ (Some (VState blank)) w the_first
    (λ w, (Ok 0, w)) 0 "0" w Hpc eq_refl eq_refl eq_refl eq_refl eq_refl (ret_memory 0) eq_refl eq_refl) as Hnew.
  eexists. split; [exact Hnew|]. split.
  - eexists _, 0, []. split; [done|]. by repeat split.
  - split; [done|]. split; [done|]. by left.
Qed.
End match_.

(** ** Bots *)

Definition in_match (s : CoreTypes.State) (w : world) : Prop := not_over s = true → ∃ cells p, at_board s cells p.

(** The squares still free. *)
Definition free (s : CoreTypes.State) (w : world) : nat :=
  match st_G s with Some (VState b) => length (empty_cells (Cells b)) | _ => 0 end.

Lemma empty_cells_spec cells i : i ∈ empty_cells cells ↔ (i < length cells)%nat ∧ cell cells i = "".
Proof.
  unfold empty_cells. rewrite list_elem_of_filter, elem_of_seq. naive_solver lia.
Qed.

Lemma empty_cells_insert cells i m : m ≠ "" → (i < length cells)%nat → cell cells i = "" →
  (length (empty_cells (<[i := m]> cells)) < length (empty_cells cells))%nat.
Proof.
  intros Hm Hi He.
  assert (Hnd : ∀ cs, NoDup (empty_cells cs)) by (intros cs; apply NoDup_filter, NoDup_seq).
  enough (i :: empty_cells (<[i:=m]> cells) ⊆+ empty_cells cells) as Hsub.
  { apply submseteq_length in Hsub. simpl in Hsub. lia. }
  apply NoDup_submseteq.
  - constructor; [|apply Hnd]. rewrite empty_cells_spec, cell_insert, decide_True by done. by intros [_ ?].
  - intros j. rewrite elem_of_cons, !empty_cells_spec, length_insert. intros [->|[Hj Hc]]; [done|].
    rewrite cell_insert in Hc by done. split; [done|]. by case_decide.
Qed.

Lemma enumerate_board s cells p w : at_board s cells p →
  listed enumerate s w (click <$> empty_cells cells).
Proof.
  intros [(c & sid & log & -> & Hc & Ho & Hn & <- & Hgo) Hopen]. unfold listed, enumerate. simpl.
  by rewrite decide_False by (intros Hne; by apply Hne).
Qed.

Lemma listed_click s cells p w acts a : at_board s cells p → listed enumerate s w acts → a ∈ acts →
  ∃ i, (i < 9)%nat ∧ cell cells i = "" ∧
    bot_request (ctx_CurrentPlayer (st_Ctx s)) a = click_request p (ea_Args (click i)) 0 false.
Proof.
  intros Hat Hl Ha. pose proof (enumerate_board _ _ _ w Hat) as HE. unfold listed in *.
  rewrite HE in Hl. injection Hl as <-. apply list_elem_of_fmap in Ha as (i & -> & Hi).
  apply empty_cells_spec in Hi as [Hi Hc].
  destruct Hat as [(c & sid & log & -> & _ & _ & _ & <- & _) [Hlen _]]. exists i. split; [lia|done].
Qed.

#[export] Instance tictactoe_playable fuel : Playable (S fuel) New enumerate in_match free.
Proof.
  split.
  - intros s w Hs Hno. destruct (Hs Hno) as (cells & p & Hat). split.
    + by destruct Hat as [(c & sid & log & -> & [_ ? _ _] & _) _].
    + eexists. split; [by eapply enumerate_board|]. destruct (ab_open _ _ _ Hat) as (Hl & _ & Hin).
      apply list_elem_of_lookup in Hin as (i & Hi). intros Hnil. apply fmap_nil_inv in Hnil.
      assert (Hx : i ∈ empty_cells cells).
      { apply empty_cells_spec. split; [by eapply lookup_lt_Some|]. unfold cell. by rewrite Hi. }
      rewrite Hnil in Hx. by apply elem_of_nil in Hx.
  - intros s w acts a Hs Hno Hl Ha. destruct (Hs Hno) as (cells & p & Hat).
    destruct (listed_click _ _ _ _ _ _ Hat Hl Ha) as (i & Hi & Hc & ->).
    assert (Hcz : cell cells (Z.to_nat (Z.of_nat i)) = "") by by rewrite Nat2Z.id.
    destruct (free_square fuel s cells p (Some (VGo (GoInt "" KInt (Z.of_nat i)))) [] (Z.of_nat i) 0 false w Hat
      eq_refl ltac:(lia) Hcz) as (s' & HA & HG & _ & Hafter).
    rewrite Nat2Z.id in HG, Hafter. exists s', w. split; [exact HA|]. split.
    + intros Hno'. destruct Hafter as [Hat'|[(Hov & _)|(Hov & _)]]; [by eexists _, _|..];
        unfold not_over in Hno'; by rewrite Hov in Hno'.
    + intros _. unfold free. rewrite HG. destruct Hat as [(c & sid & log & -> & _) Hopen]. simpl.
      apply empty_cells_insert; [apply mark_nonempty| |done]. destruct Hopen as [-> _]. lia.
  - intros s w Hs Hno. destruct (Hs Hno) as (cells & p & [(c & sid & log & -> & _) (Hl & _ & Hin)]).
    unfold free. simpl. apply list_elem_of_lookup in Hin as (i & Hi).
    assert (Hx : i ∈ empty_cells cells).
    { apply empty_cells_spec. split; [by eapply lookup_lt_Some|]. unfold cell. by rewrite Hi. }
    destruct (empty_cells cells); [by apply elem_of_nil in Hx|simpl; lia].
Qed.

#[export] Instance tictactoe_quiet fuel : Quiet (S fuel) New enumerate in_match.
Proof. intros s [] acts a Hs Hno Hl Ha. by destruct (Apply _ _ _ _ _) as [? []]. Qed.

(** Results as the simulator reads them. *)
Definition winner_of (v : value) : option string := match v with VWinner p => Some p | _ => None end.
Definition draw_of (v : value) : option bool := match v with VDraw => Some true | _ => None end.

Definition the_bot_game : BotGame := mkBotGame New (Some enumerate).
Definition searcher (cap seed : Z) : MCTSBot :=
  mkMCTSBot (Some the_bot_game) None cap (GoInt "" KInt seed) None 0 false.
Definition player (seed : Z) : RandomBot := mkRandomBot None (Some the_bot_game) (GoInt "" KInt seed).

(** Two searchers, one a seat. *)
Definition two_searchers : SimulateOptions () :=
  mkOptions (Some New)
    {[ "0" := MCTSBot_Play winner_of (λ x, x) 2 (λ _, false) (searcher 50 7);
       "1" := MCTSBot_Play winner_of (λ x, x) 2 (λ _, false) (searcher 20 8) ]} 100 0 None 0.

Lemma searcher_lawful cap seed : Lawful enumerate in_match
  (MCTSBot_Play winner_of (λ x, x) 2 (λ _, false) (searcher cap seed)).
Proof. by eapply (MCTS_is_lawful 2 New enumerate in_match free winner_of _ _ _ the_bot_game). Qed.

Lemma MCTS_is_lawful_witness : Lawful enumerate in_match
  (MCTSBot_Play winner_of (λ x, x) 2 (λ it, bool_decide (30 < it)) (searcher 100 7)).
Proof.
  exact (MCTS_is_lawful 2 New enumerate in_match free winner_of (λ x, x) (λ it, bool_decide (30 < it)) (searcher 100 7)
    the_bot_game eq_refl eq_refl eq_refl eq_refl).
Defined.

Lemma two_searchers_seated s w : in_match s w → not_over s = true →
  ∃ bot, so_Bots two_searchers !! ctx_CurrentPlayer (st_Ctx s) = Some bot ∧ Lawful enumerate in_match bot.
Proof.
  intros Hs Hno. destruct (Hs Hno) as (cells & p & Hat). pose proof (at_board_player _ _ _ Hat) as Hp.
  destruct Hat as [(c & sid & log & -> & _ & _ & _ & <- & _) _]. simpl.
  destruct Hp as [-> | ->]; (eexists; split; [reflexivity|apply searcher_lawful]).
Qed.

Lemma two_searchers_start w : ∃ s w',
  NewMatch 2 New (so_NumPlayers two_searchers) (so_SetupData two_searchers) w = (Ok s, w') ∧
  in_match s w' ∧ (free s w' ≤ Z.to_nat (moves_allowed two_searchers))%nat.
Proof.
  destruct (new_match_at_board 1 0 None 0 w) as (s & Hnew & Hat). exists s, w. split; [exact Hnew|]. split.
  - intros _. by eexists _, _.
  - destruct Hat as [(c & sid & log & -> & _) _]. apply Nat.leb_le. by vm_compute.
Qed.

Lemma simulation_completes_witness : ∃ res w' b',
  Simulate winner_of draw_of 2 (λ _, false) two_searchers ((), ()) = (Ok (res, None), (w', b')) ∧
  sr_Matches res = 100 ∧ sr_Errors res = 0.
Proof.
  exact (simulation_completes 2 New enumerate in_match free winner_of draw_of _ two_searchers_seated (λ _, false)
    two_searchers eq_refl eq_refl two_searchers_start () () ltac:(discriminate) (λ _, eq_refl)).
Defined.

(** The square in the middle, taken first; then asked for again. *)
Lemma clicks_follow_the_rules_witness : ∃ s, at_board s (Cells blank) "0" ∧
  let req := click_request "0" [Some (VGo (GoInt "" KInt 4))] 0 true in
  ∃ s', Apply 2 New s req () = (Ok (s', None), ()) ∧
    st_G s' = Some (VState (mkBoard ["";"";"";"";"X";"";"";"";""])).
Proof.
  destruct (new_match_at_board 1 2 None 7 ()) as (s & _ & Hat). exists s. split; [exact Hat|].
  destruct (clicks_follow_the_rules 1 s (Cells blank) "0" (Some (VGo (GoInt "" KInt 4))) [] 4 0 true () Hat eq_refl)
    as (s' & HA & HG & _). exists s'. split; [exact HA|exact HG].
Defined.

(** ** A language model at the table *)
Definition chatter : LLMBot () :=
  mkLLMBot (Some (λ req p, (MockPickAction 0 req, p))) "model" (Some the_bot_game) None
    (Some (DefaultPrompt (λ _ _, "") (λ _, ""))) None ToolModeRequired None (SpecFloat.S754_zero false) 0 0 None.

Lemma chatter_lawful : Lawful enumerate in_match (LLMBot_Play (λ _, "") (λ _, false) chatter).
Proof.
  eapply (LLMBot_lawful (λ _, "") (λ _, false) chatter in_match _ enumerate the_bot_game); try done; [apply first_tool_obliges|].
  intros s w Hs Hno. destruct (py_list (fuel:=2) s w Hs Hno) as (_ & acts & Hl & Hne). exists acts. split; [done|]. split; [done|].
  destruct (Hs Hno) as (cells & p & Hat). unfold listed, enumerate in Hl. case_decide; [done|].
  destruct Hat as [(c & sid & log & -> & _) (Hlen & _)]. injection Hl as <-. split.
  - rewrite length_fmap. simpl. unfold empty_cells. transitivity (Z.of_nat (length (seq 0 (length cells)))).
    + apply inj_le, length_filter.
    + rewrite length_seq. lia.
  - apply Forall_fmap, Forall_forall. intros i _. split; (apply (bool_decide_eq_true_1 _); vm_compute; reflexivity).
Qed.

(** A model that calls a tool of those it is offered plays through a hundred matches
    against the tree search. *)
Definition model_against_search : SimulateOptions () :=
  mkOptions (Some New)
    {[ "0" := LLMBot_Play (λ _, "") (λ _, false) chatter;
       "1" := MCTSBot_Play winner_of (λ x, x) 2 (λ _, false) (searcher 20 8) ]} 100 0 None 0.

Lemma models_play_to_the_end : ∃ res w' b',
  Simulate winner_of draw_of 2 (λ _, false) model_against_search ((), ()) = (Ok (res, None), (w', b')) ∧
  sr_Matches res = 100 ∧ sr_Errors res = 0.
Proof.
  refine (simulation_completes 2 New enumerate in_match free winner_of draw_of _ _ (λ _, false) model_against_search
    eq_refl eq_refl two_searchers_start () () ltac:(discriminate) (λ _, eq_refl)).
  intros s w Hs Hno. destruct (Hs Hno) as (cells & p & Hat). pose proof (at_board_player _ _ _ Hat) as Hp.
  destruct Hat as [(c & sid & log & -> & _ & _ & _ & <- & _) _]. simpl.
  destruct Hp as [-> | ->]; (eexists; split; [reflexivity|]); [apply chatter_lawful|apply searcher_lawful].
Qed.
