(* ===== verification/Rps.v ===== *)
(** * Rock, paper, scissors

    [src/games/rps/rps.go]: hidden simultaneous throws, buffered until the last
    player submits and then revealed in the same request; the game's own code and what
    it computes.  The second half runs it through the engine. *)

From S2P Require Import Prelude CoreTypes Api Plugins Transitions Reducer Session GameDef Choices.
From S2P Require Import SessionTheorems OneMove Bots.
#[local] Open Scope Z_scope.

(** ** The game *)

Definition winTarget : Z := 5.

Record State := mkRps {
  Pending : gmap string string;
  Scores : gmap string Z;
  LastRound : gmap string string;
  Round : Z
}.

(** What it exchanges with the engine: the state, never changed in place, plain values,
    and its result. *)
Inductive value : Type :=
  | VState (s : State)
  | VGo (v : GoVal)
  | VResult (winner : string) (scores : gmap string Z).

#[export] Instance RpsTypes : GoTypes :=
  {| val := value; world := (); val_true := VGo (GoBool true); randref := (); as_Random := λ _, None |}.

Definition validThrows (throw : string) : bool :=
  bool_decide (throw = "rock") || bool_decide (throw = "paper") || bool_decide (throw = "scissors").

Definition beats (a b : string) : bool :=
  if decide (a = "rock") then bool_decide (b = "scissors")
  else if decide (a = "paper") then bool_decide (b = "rock")
  else if decide (a = "scissors") then bool_decide (b = "paper")
  else false.

(** [args[0].(string)] *)
Definition throw_of (args : list any) : option string :=
  match args with
  | Some (VGo (GoString throw)) :: _ => if validThrows throw then Some throw else None
  | _ => None
  end.

Definition lock_in (playerID throw : string) (s : State) : State :=
  mkRps (<[playerID := throw]> (Pending s)) (Scores s) (LastRound s) (Round s).

Definition submit : MoveFn := λ mc args,
  match throw_of args with
  | None => Ret (inl ErrInvalidMove)
  | Some throw =>
      match mc_G mc with
      | Some (VState s) =>
          let next := lock_in (mc_PlayerID mc) throw s in
          _ ← (if decide (Z.of_nat (size (Pending next)) = ctx_NumPlayers (mc_Ctx mc))
               then mcQueue_Push "" "reveal" [] else Ret tt);
          Ret (inr (Some (VState next)))
      | _ => Crash
      end
  end.

Definition award (pending : gmap string string) (p throw : string) (scores : gmap string Z) : gmap string Z :=
  map_fold (λ q other scores,
    if bool_decide (p ≠ q) && beats throw other then <[p := default 0 (scores !! p) + 1]> scores else scores)
    scores pending.

Definition score_round (pending : gmap string string) (scores : gmap string Z) : gmap string Z :=
  map_fold (award pending) scores pending.

(** The single player at the target: the loop over the scores, with the winner so far. *)
Fixpoint leader_from (winner : string) (scores : list (string * Z)) : string :=
  match scores with
  | [] => winner
  | (p, n) :: scores =>
      if decide (winTarget ≤ n) then if decide (winner ≠ "") then "" else leader_from p scores
      else leader_from winner scores
  end.

Definition leader (scores : gmap string Z) : string := leader_from "" (map_to_list scores).

Definition revealed (s : State) : State :=
  mkRps ∅ (score_round (Pending s) (Scores s)) (Pending s) (Round s + 1).

Definition reveal : MoveFn := λ mc _,
  match mc_G mc with
  | Some (VState s) =>
      let next := revealed s in
      let winner := leader (Scores next) in
      _ ← (if decide (winner ≠ "") then Events_EndGame [Some (VResult winner (Scores next))]
           else Events_SetActivePlayers ActivePlayersAllOnce);
      Ret (inr (Some (VState next)))
  | _ => Crash
  end.

Definition throw (name : string) : Action := mkEnum "submit" [Some (VGo (GoString name))].

Definition enumerate : EnumerateFn := λ G ctx playerID _,
  match ctx_ActivePlayers ctx ≫= λ active, active !! playerID with
  | None => Ok []
  | Some _ =>
      match G with
      | Some (VState s) =>
          match Pending s !! playerID with
          | Some _ => Ok []
          | None => Ok (throw <$> ["rock"; "paper"; "scissors"])
          end
      | _ => Panicked
      end
  end.

Definition visible (playerID : string) (s : State) : State :=
  mkRps (if decide (playerID ≠ "")
         then match Pending s !! playerID with Some throw => {[ playerID := throw ]} | None => ∅ end
         else ∅) (Scores s) (LastRound s) (Round s).

Definition playerView (G : any) (ctx : Ctx) (playerID : string) (w : world) : any :=
  match G with Some (VState s) => Some (VState (visible playerID s)) | _ => G end.

Definition fresh : State := mkRps ∅ ∅ ∅ 0.

Definition moves : gmap string MoveEntry :=
  {[ "submit" := EntryMove (mkMove (Some submit) FlagNil (FlagBool true) false false false 0 false false);
     "reveal" := EntryMove (mkMove (Some reveal) FlagNil FlagNil true true false 0 false false) ]}.

Definition New : Game := mkGame "rock-paper-scissors" 2 4 (Some (λ _ _ w, (Some (VState fresh), w)))
  moves
  (Some (mkTurn (mkOrder None None None) None None None None 0 0 0 (Some ActivePlayersAllOnce) ∅)) ∅
  None None None (Some playerView) None false [].

(** ** The leader *)

Definition at_target (scores : gmap string Z) (p : string) : Prop := ∃ n, scores !! p = Some n ∧ winTarget ≤ n.

Lemma leader_from_held w l : w ≠ "" →
  leader_from w l = if decide (Forall (λ pn, pn.2 < winTarget) l) then w else "".
Proof.
  intros Hw. induction l as [|[p n] l IH]; [done|]. simpl.
  destruct (decide (winTarget ≤ n)) as [Hn|Hn].
  - rewrite (decide_True (P := w ≠ "")) by done. rewrite decide_False; [done|].
    intros [? _]%Forall_cons. simpl in *. lia.
  - rewrite IH. destruct (decide (Forall _ l)) as [Hl|Hl].
    + rewrite decide_True; [done|]. constructor; [simpl; lia|done].
    + rewrite decide_False; [done|]. by intros [_ ?]%Forall_cons.
Qed.

Lemma leader_from_none l : Forall (λ pn, pn.2 < winTarget) l → leader_from "" l = "".
Proof. induction 1 as [|[p n] l Hn Hl IH]; [done|]. simpl in *. by rewrite decide_False by lia. Qed.

Lemma leader_from_split l p : p ≠ "" → NoDup l.*1 → "" ∉ l.*1 →
  leader_from "" l = p ↔ (∃ n, (p, n) ∈ l ∧ winTarget ≤ n) ∧ ∀ q n, (q, n) ∈ l → winTarget ≤ n → q = p.
Proof.
  intros Hp Hnd He. induction l as [|[a n] l IH].
  { split; [intros <-; done|]. intros [(n & Hn & _) _]. by apply elem_of_nil in Hn. }
  simpl in *. apply NoDup_cons in Hnd as [Hna Hnd]. apply not_elem_of_cons in He as [Hea He].
  specialize (IH Hnd He). destruct (decide (winTarget ≤ n)) as [Hn|Hn].
  - rewrite leader_from_held by done.
    destruct (decide _) as [Hall|Hex].
    + split.
      * intros <-. split; [exists n; split; [by left|done]|]. intros q m [[= -> ->]|Hin]%elem_of_cons Hm; [done|].
        rewrite Forall_forall in Hall. specialize (Hall _ Hin). simpl in Hall. lia.
      * intros [_ H]. apply (H a n); [by left|done].
    + split; [by intros <-|]. intros [(m & Hin & Hm) H].
      destruct Hex. apply Forall_forall. intros [q k] Hq. simpl. destruct (decide (winTarget ≤ k)) as [Hk|]; [|lia].
      assert (q = p) as -> by (apply (H q k); [by right|done]). assert (a = p) as -> by (apply (H a n); [by left|done]).
      destruct Hna. apply list_elem_of_fmap. by exists (p, k).
  - rewrite IH. split.
    + intros [(m & Hin & Hm) H]. split; [exists m; split; [by right|done]|].
      intros q k [[= -> ->]|Hq]%elem_of_cons Hk; [lia|by eapply H].
    + intros [(m & [[= -> ->]|Hin]%elem_of_cons & Hm) H]; [lia|]. split; [by exists m|].
      intros q k Hq Hk. apply (H q k); [by right|done].
Qed.

(** The leader is the one player at the target, in whatever order the scores are
    visited; with none or several there is no leader. *)
Lemma leader_unique scores p : scores !! "" = None → p ≠ "" →
  leader scores = p ↔ at_target scores p ∧ ∀ q, at_target scores q → q = p.
Proof.
  intros He Hp. unfold leader. rewrite leader_from_split; [|done|apply NoDup_fst_map_to_list|].
  - unfold at_target. setoid_rewrite elem_of_map_to_list. naive_solver.
  - intros ([q n] & Hq & Hin)%list_elem_of_fmap. simpl in Hq. subst. apply elem_of_map_to_list in Hin. congruence.
Qed.

(** ** Scoring *)

Definition beaten (pending : gmap string string) (p throw : string) : Z :=
  Z.of_nat (size (filter (λ qo, p ≠ qo.1 ∧ beats throw qo.2 = true) pending)).

Lemma rps_award_lookup pending p throw scores q :
  default 0 (award pending p throw scores !! q) =
  default 0 (scores !! q) + (if decide (q = p) then beaten pending p throw else 0).
Proof.
  unfold award, beaten. apply (map_fold_weak_ind (λ r m,
    default 0 (r !! q) = default 0 (scores !! q) +
      (if decide (q = p) then Z.of_nat (size (filter (λ qo, p ≠ qo.1 ∧ beats throw qo.2 = true) m)) else 0))).
  - rewrite map_filter_empty, map_size_empty. case_decide; lia.
  - intros k v m r Hk IH. destruct (decide (p ≠ k ∧ beats throw v = true)) as [[Hpk Hb]|Hno].
    + rewrite bool_decide_true, Hb by done. simpl. rewrite map_filter_insert_True by done.
      rewrite map_size_insert_None by by apply map_lookup_filter_None; left.
      destruct (decide (q = p)) as [->|Hq].
      * rewrite lookup_insert_eq. simpl. lia.
      * rewrite lookup_insert_ne by done. lia.
    + assert ((bool_decide (p ≠ k) && beats throw v) = false) as ->.
      { apply andb_false_iff. destruct (bool_decide_reflect (p ≠ k)); [|by left]. right.
        apply not_true_is_false. naive_solver. }
      by rewrite map_filter_insert_False, delete_id.
Qed.

Lemma score_round_lookup pending scores p :
  default 0 (score_round pending scores !! p) =
  default 0 (scores !! p) + match pending !! p with Some throw => beaten pending p throw | None => 0 end.
Proof.
  unfold score_round. apply (map_fold_weak_ind (λ r m,
    default 0 (r !! p) = default 0 (scores !! p) +
      match m !! p with Some throw => beaten pending p throw | None => 0 end)).
  - rewrite lookup_empty. lia.
  - intros k v m r Hk IH. rewrite rps_award_lookup, IH. destruct (decide (p = k)) as [->|Hne].
    + rewrite lookup_insert_eq, Hk. lia.
    + rewrite lookup_insert_ne by done. lia.
Qed.

Lemma award_dom pending p throw scores q : p ≠ q → award pending p throw scores !! q = scores !! q.
Proof.
  intros Hne. unfold award. apply (map_fold_weak_ind (λ r _, r !! q = scores !! q)); [done|].
  intros k v m r Hk IH. case_match; [by rewrite lookup_insert_ne|done].
Qed.

Lemma score_round_none pending scores q : pending !! q = None → score_round pending scores !! q = scores !! q.
Proof.
  intros Hq. unfold score_round. revert Hq.
  apply (map_fold_weak_ind (λ r m, m !! q = None → r !! q = scores !! q)); [done|].
  intros k v m r Hk IH [Hm Hkq]%lookup_insert_None. rewrite award_dom by done. by apply IH.
Qed.

(** ** Rounds of rock, paper, scissors

    The game over the engine: players submit in any order, the last
    submission reveals the round in the same request, and until then nobody's throw
    shows in what another seat is sent. *)

Section rounds.
Context (players : list string) (Hnd : NoDup players) (Hblank : "" ∉ players).
Implicit Types (s : CoreTypes.State) (g : State) (A : gset string).

Definition submit_request (p name : string) (now : Z) (client : bool) : MoveRequest :=
  a_move "submit" p [Some (VGo (GoString name))] now client.

(** ** The players still to submit *)

Definition armed {X} (x : X) (waiting : gset string) : gmap string X := gset_to_gmap x waiting.

(** A state in the middle of a round: the players in [A] are active, with one move
    each. *)
Definition round_state g (c : Ctx) (id : Z) (log : list LogEntry) (snaps : list CoreTypes.State)
    (counts : option (gmap string Z)) A : CoreTypes.State :=
  mkState (Some (VState g)) (set_ctx_ActivePlayers (Some (armed "" A)) c) id None log [] snaps [] [] [] None
    counts (Some (armed 1 A)) (Some (armed 1 A)).

Lemma armed_lookup {X} (x : X) A q : q ∈ A → armed x A !! q = Some x.
Proof. intros Hq. by apply lookup_gset_to_gmap_Some. Qed.

Lemma armed_lookup_None {X} (x : X) A q : q ∉ A → armed x A !! q = None.
Proof. intros Hq. by apply lookup_gset_to_gmap_None. Qed.

Lemma dom_armed {X} (x : X) A : dom (armed x A) = A.
Proof. apply dom_gset_to_gmap. Qed.

Lemma drop_armed {B} (x : B) p A : drop_keys {[ p ]} (armed x A) = armed x (A ∖ {[ p ]}).
Proof.
  apply map_eq. intros q. unfold drop_keys, armed. apply option_eq. intros y.
  rewrite map_lookup_filter_Some, !lookup_gset_to_gmap_Some. set_solver.
Qed.

Lemma drop_count p (m : gmap string Z) n : m = ∅ → drop_keys {[ p ]} (<[p := n]> m) = ∅.
Proof.
  intros ->. apply map_eq. intros q. unfold drop_keys. rewrite lookup_empty.
  apply map_lookup_filter_None. right. intros y Hy Hq. apply Hq.
  simpl. apply elem_of_singleton. apply lookup_insert_Some in Hy as [[? _]|[_ Hy]]; [done|by rewrite lookup_empty in Hy].
Qed.

Lemma only_budget (s : CoreTypes.State) p A counts : p ∈ A → default ∅ counts = (∅ : gmap string Z) →
  st_StageMaxMoves s = Some (armed 1 A) → st_MoveCounts s = Some (<[p := get_int counts p + 1]> (default ∅ counts)) →
  filter (λ pid, over_budget s pid = true) (dom (armed "" A)) = ({[ p ]} : gset string).
Proof.
  intros Hp Hc Hmax Hcnt. apply set_eq. intros q. rewrite elem_of_filter, elem_of_singleton, dom_armed.
  unfold over_budget, omap_get, get_int. rewrite Hmax, Hcnt.
  assert (Hget : get_int counts p = 0).
  { unfold get_int. destruct counts as [m|]; [|done]. simpl in Hc. by subst. }
  simpl. rewrite Hc. split.
  - intros [Hb Hq]. rewrite armed_lookup in Hb by done. simpl in Hb.
    destruct (decide (p = q)) as [->|Hne]; [done|].
    rewrite lookup_insert_ne, lookup_empty in Hb by done. apply bool_decide_eq_true in Hb as [_ Hb]. simpl in Hb. lia.
  - intros ->. split; [|done]. rewrite armed_lookup by done. simpl.
    rewrite lookup_insert_eq, Hget. by apply bool_decide_eq_true.
Qed.

(** ** The last player's budget, and another's *)

Definition left_state (s : CoreTypes.State) A counts : CoreTypes.State :=
  set_counts counts (Some (armed 1 A)) (Some (armed 1 A)) (set_active (Some (armed "" A)) s).

Lemma budget_spent (s : CoreTypes.State) p A counts : p ∈ A → default ∅ counts = (∅ : gmap string Z) →
  ctx_ActivePlayers (st_Ctx s) = Some (armed "" A) →
  st_StageMinMoves s = Some (armed 1 A) → st_StageMaxMoves s = Some (armed 1 A) →
  st_MoveCounts s = Some (<[p := get_int counts p + 1]> (default ∅ counts)) →
  autoEndStagesByMaxMoves s =
  let s' := left_state s (A ∖ {[ p ]}) (Some ∅) in
  if decide (A ∖ {[ p ]} = ∅) then drainActivePlayers s' else s'.
Proof.
  intros Hp Hc Hact Hmin Hmax Hcnt. unfold autoEndStagesByMaxMoves. rewrite Hact.
  rewrite (only_budget s p A counts) by done. rewrite Hmin, Hmax, Hcnt. simpl. rewrite !drop_armed.
  rewrite Hc, drop_count by done. fold (left_state s (A ∖ {[ p ]}) (Some ∅)).
  assert (Hiff : armed "" (A ∖ {[p]}) = ∅ ↔ A ∖ {[p]} = ∅).
  { split; intros H.
    - apply (f_equal dom) in H. by rewrite dom_armed, dom_empty_L in H.
    - unfold armed. by rewrite H, gset_to_gmap_empty. }
  destruct (decide (A ∖ {[p]} = ∅)) as [He|He].
  - rewrite decide_True; [done|]. split; [apply non_empty_singleton_L|by apply Hiff].
  - rewrite decide_False; [done|]. intros [_ ?]. by apply He, Hiff.
Qed.

(** ** A submission up to the cascade *)

Definition submit_move : Move := mkMove (Some submit) FlagNil (FlagBool true) false false false 0 false false.
Definition reveal_move : Move := mkMove (Some reveal) FlagNil FlagNil true true false 0 false false.

Definition submit_entry (p name : string) (now : Z) (c : Ctx) : LogEntry :=
  mkLog "move" "submit" p [Some (VGo (GoString name))] now (ctx_Turn c) "" "" true true (-1) "" false.

Definition moved (now : Z) (c : Ctx) : Ctx := set_ctx_NumMoves (ctx_NumMoves c + 1) (set_ctx_NowMs now c).

(** Nobody is active: the round is complete. *)
Definition closed_state g (c : Ctx) id log snaps queue : CoreTypes.State :=
  mkState (Some (VState g)) (set_ctx_ActivePlayers None c) id None log [] snaps queue [] [] None None None None.

Definition submitted g (c : Ctx) id log snaps A p : CoreTypes.State :=
  if decide (A ∖ {[ p ]} = ∅) then closed_state g c id log snaps []
  else round_state g c id log snaps (Some ∅) (A ∖ {[ p ]}).

Definition to_reveal g (c : Ctx) : list QueuedAction :=
  if decide (Z.of_nat (size (Pending g)) = ctx_NumPlayers c) then [mkAction "" "reveal" []] else [].

Lemma submit_admitted g c id log snaps cnt A p name now client : p ∈ A → ctx_Phase c = "" → ctx_Gameover c = None →
  admit_request New (round_state g c id log snaps cnt A) (submit_request p name now client) =
  Ok (mkAdmission (round_state g (set_ctx_NowMs now c) id log snaps cnt A) submit_move None).
Proof.
  intros Hp Hph Ho. destruct c as [np cur po pos turn ph act go nm nowc seed]. simpl in *. subst.
  unfold admit_request, admit_checks, consume_block, authorizedStage, resolveMove, scopeMoves. simpl.
  rewrite armed_lookup by done. by destruct client.
Qed.

Lemma run_submit mc g p name : mc_G mc = Some (VState g) → mc_PlayerID mc = p → validThrows name = true →
  mc_Wired mc = true → mc_extra mc = [] → ∀ e, env_queue e = Some (mkQueue [] []) →
  let g' := lock_in p name g in
  call mc (submit mc [Some (VGo (GoString name))]) e =
  (Ok (inr (Some (VState g')), mc), set_env_queue (Some (mkQueue (to_reveal g' (mc_Ctx mc)) [])) e).
Proof.
  intros HG <- Hv Hw Hx e He g'. unfold call, submit, throw_of. rewrite Hv, HG, Hw, Hx. fold g'.
  unfold to_reveal. destruct (decide _); simpl.
  - rewrite He. destruct mc, e. simpl in *. by subst.
  - destruct mc, e. simpl in *. by subst.
Qed.

Lemma submit_flags mc e :
  IsUndoable submit_move mc e = (Ok (true, mc), e) ∧ IsRedacted submit_move mc e = (Ok (true, mc), e).
Proof. done. Qed.

Lemma no_flush (s : CoreTypes.State) mc e : flushPluginsM New s mc e = (Ok s, e).
Proof. by destruct e. Qed.

Lemma no_validation (s : CoreTypes.State) e : validatePluginsM New s e = (Ok tt, e).
Proof. by destruct e. Qed.

(** The state right after the move, and after it has been counted. *)
Definition submit_result g (c : Ctx) id log snaps cnt A p name now : CoreTypes.State :=
  mkState (Some (VState (lock_in p name g))) (set_ctx_ActivePlayers (Some (armed "" A)) (set_ctx_NowMs now c)) (id + 1)
    None (log ++ [submit_entry p name now c]) []
    (snaps ++ [cloneStateForSnapshot (round_state g (set_ctx_NowMs now c) id log snaps cnt A)]) [] [] [] None
    cnt (Some (armed 1 A)) (Some (armed 1 A)).

Definition submit_counted g (c : Ctx) id log snaps cnt A p name now : CoreTypes.State :=
  set_st_MoveCounts (Some (<[p := get_int cnt p + 1]> (default ∅ cnt)))
    (on_ctx (λ c, set_ctx_NumMoves (ctx_NumMoves c + 1) c) (submit_result g c id log snaps cnt A p name now)).

Lemma submit_logged g c id log snaps cnt A p name now client : p ∈ A → ctx_Phase c = "" →
  move_entry (round_state g (set_ctx_NowMs now c) id log snaps cnt A) (submit_request p name now client) true true =
  submit_entry p name now c.
Proof.
  intros Hp Hph. unfold move_entry, submit_entry, get_str. simpl. by rewrite armed_lookup, Hph.
Qed.

Lemma submit_after g c id log snaps cnt A p name now client mc e : p ∈ A → ctx_Phase c = "" →
  after_move New submit_move (submit_request p name now client) (submit_result g c id log snaps cnt A p name now) mc e =
  (Ok (submit_counted g c id log snaps cnt A p name now, mc), e).
Proof.
  intros Hp Hph. destruct c as [np cur po pos turn ph act go nm nowc seed]. simpl in *. subst.
  unfold after_move, scopeTurn, phase_turn. rewrite bind_eq. simpl.
  unfold bumpStageMoveCount. simpl. by rewrite armed_lookup.
Qed.

Lemma submit_auto_ends g c id log snaps cnt A p name now client e : p ∈ A → ctx_Phase c = "" →
  ctx_Gameover c = None → default ∅ cnt = (∅ : gmap string Z) →
  auto_ends New submit_move (submit_request p name now client) (submit_counted g c id log snaps cnt A p name now) e =
  (Ok (submitted (lock_in p name g) (moved now c) (id + 1) (log ++ [submit_entry p name now c])
    (snaps ++ [cloneStateForSnapshot (round_state g (set_ctx_NowMs now c) id log snaps cnt A)]) A p), e).
Proof.
  intros Hp Hph Ho Hcnt. unfold auto_ends.
  set (s := submit_counted g c id log snaps cnt A p name now).
  assert (Hov : not_over s = true) by (unfold not_over; simpl; by rewrite Ho).
  rewrite bind_eq. change (check_game_end New _ s e) with (Ok (E:=error) s, e). cbv beta iota.
  unfold unless_over. rewrite Hov. rewrite bind_eq. unfold checkPhaseEndIf.
  change (ctx_Phase (st_Ctx s)) with (ctx_Phase c). rewrite Hph, decide_True by done.
  unfold mret at 1, ST_ret at 1, st_ret at 1. cbv beta iota. rewrite Hov, bind_eq.
  unfold mret at 1, ST_ret at 1, st_ret at 1. cbv beta iota.
  rewrite (budget_spent s p A cnt) by done. cbv zeta.
  match goal with |- _ = (Ok ?x, e) => set (s' := x) end.
  assert (Hs' : (if decide (A ∖ {[p]} = ∅) then drainActivePlayers (left_state s (A ∖ {[p]}) (Some ∅))
    else left_state s (A ∖ {[p]}) (Some ∅)) = s').
  { unfold s', submitted. destruct c as [np cur po pos turn ph act go nm nowc seed]. simpl in *. subst.
    by destruct (decide _). }
  rewrite Hs'. assert (Hov' : not_over s' = true ∧ ctx_Phase (st_Ctx s') = "").
  { unfold s', submitted. destruct (decide _); (split; [unfold not_over; simpl; by rewrite Ho|done]). }
  destruct Hov' as [-> Hph']. unfold checkTurnAutoEnd. by rewrite Hph'.
Qed.

Lemma submit_pipeline fuel g c id log snaps cnt A p name now client w :
  p ∈ A → ctx_Phase c = "" → ctx_Gameover c = None → default ∅ cnt = (∅ : gmap string Z) → validThrows name = true →
  let c0 := set_ctx_NowMs now c in let s0 := round_state g c0 id log snaps cnt A in
  let g' := lock_in p name g in
  move_pipeline (S fuel) New (mkAdmission s0 submit_move None) (submit_request p name now client)
    (move_mc ctxBackground (mkAdmission s0 submit_move None) (submit_request p name now client) None) (fresh_env w) =
  (Ok (submitted g' (moved now c) (id + 1) (log ++ [submit_entry p name now c])
    (snaps ++ [cloneStateForSnapshot s0]) A p),
   set_env_queue (Some (mkQueue (to_reveal g' c) [])) (fresh_env w)).
Proof.
  intros Hp Hph Ho Hcnt Hv c0 s0 g'. unfold move_pipeline. rewrite bind_eq.
  unfold run_move. cbv zeta. cbn [ad_State ad_Move]. rewrite bind_eq, (proj1 (submit_flags _ _)).
  cbv beta iota. rewrite bind_eq, (proj2 (submit_flags _ _)). cbv beta iota.
  rewrite bind_eq. change (st_some (mv_Move submit_move) (fresh_env w)) with (Ok (E:=error) submit, fresh_env w).
  cbv beta iota. rewrite bind_eq.
  change (applyFnWrapMove New submit) with submit. cbn [rq_Args submit_request a_move].
  rewrite (run_submit _ g p name) by done. cbv beta iota.
  change (true && negb (gm_DisableUndo New)) with true. cbv iota.
  rewrite bind_eq, no_flush. cbv beta iota.
  rewrite bind_eq, no_validation. cbv beta iota. unfold mret at 1, ST_ret at 1, st_ret at 1. cbv beta iota.
  pose proof (submit_logged g c id log snaps cnt A p name now client Hp Hph) as Hlog. fold c0 s0 in Hlog.
  rewrite Hlog. match goal with |- (after_move _ _ _ ?x _ ≫= _) ?en = _ =>
    change x with (submit_result g c id log snaps cnt A p name now); set (e := en) end.
  rewrite bind_eq, submit_after by done. cbv beta iota. rewrite bind_eq.
  assert (Hd : ∀ s' mc', drainEvents (S fuel) New s' mc' e = (Ok (s', mc'), e)) by (intros; by destruct cnt).
  rewrite Hd. cbv beta iota. rewrite bind_eq, submit_auto_ends by done. cbv beta iota. rewrite bind_eq, Hd.
  cbv beta iota. rewrite flush_nothing by done. done.
Qed.

(** ** Arming a round *)

Definition everyone : gset string := list_to_set players.

Lemma put_all_armed l X : put_all "" l (armed "" X) = armed "" (list_to_set l ∪ X).
Proof.
  revert X. unfold put_all. induction l as [|p l IH]; intros X; simpl; [by rewrite union_empty_l_L|].
  assert (<[p := ""]> (armed "" X) = armed "" ({[ p ]} ∪ X)) as ->.
  { apply map_eq. intros q. destruct (decide (q = p)) as [->|Hne].
    - rewrite lookup_insert_eq, armed_lookup by set_solver. done.
    - rewrite lookup_insert_ne by done. destruct (decide (q ∈ X)) as [Hq|Hq].
      + by rewrite !armed_lookup by set_solver.
      + by rewrite !armed_lookup_None by set_solver. }
  rewrite IH. f_equal. set_solver.
Qed.

Lemma active_everyone current : active_of players current ActivePlayersAllOnce = armed "" everyone.
Proof.
  pose proof (put_all_armed players ∅) as H. unfold armed at 1 in H. rewrite gset_to_gmap_empty, union_empty_r_L in H.
  unfold active_of. simpl. unfold StageNull. rewrite H. by rewrite map_empty_union.
Qed.

Lemma bounds_everyone X : stage_bounds 1 ∅ (armed "" X) = armed 1 X.
Proof.
  apply map_eq. intros q. unfold stage_bounds. rewrite map_lookup_imap.
  destruct (decide (q ∈ X)) as [Hq|Hq].
  - by rewrite !armed_lookup by done.
  - by rewrite !armed_lookup_None by done.
Qed.

Lemma armed_nonempty {X} (x : X) A : A ≠ ∅ → nil_if_empty (armed x A) = Some (armed x A).
Proof.
  intros Hne. unfold nil_if_empty. rewrite decide_False; [done|].
  intros H. apply (f_equal dom) in H. by rewrite dom_armed, dom_empty_L in H.
Qed.

Lemma rearmed g c id log snaps : ctx_PlayOrder c = players → players ≠ [] →
  applySetActivePlayers (closed_state g c id log snaps []) ActivePlayersAllOnce =
  round_state g c id log snaps None everyone.
Proof.
  intros Ho Hne. assert (Hev : everyone ≠ ∅).
  { unfold everyone. destruct players; [done|set_solver]. }
  unfold applySetActivePlayers. cbv zeta. cbn [apc_Revert ActivePlayersAllOnce].
  change (ctx_PlayOrder (st_Ctx _)) with (ctx_PlayOrder c). rewrite Ho, active_everyone.
  cbn [apc_MinMoves apc_MaxMoves apc_PerPlayerMinMoves apc_PerPlayerMaxMoves ActivePlayersAllOnce].
  rewrite bounds_everyone, !armed_nonempty by done. by destruct c.
Qed.

(** ** The reveal *)

Definition reveal_entry (c : Ctx) (parent : Z) : LogEntry :=
  mkLog "drain-step" "reveal" "" [] 0 (ctx_Turn c) "" "" false false parent "" false.

Definition over_state g (c : Ctx) id log snaps : CoreTypes.State :=
  mkState (Some (VState g))
    (set_ctx_Gameover (Some (VResult (leader (Scores g)) (Scores g))) (set_ctx_ActivePlayers None c))
    id None log [] snaps [] [] [] None None None None.

Definition after_reveal g (c : Ctx) id log snaps parent : CoreTypes.State :=
  let g' := revealed g in
  let log' := log ++ [reveal_entry c parent] in
  if decide (leader (Scores g') ≠ "") then over_state g' c id log' snaps
  else round_state g' c id log' snaps None everyone.

Definition reveal_event g : event :=
  if decide (leader (Scores g) ≠ "") then evEndGame (Some (VResult (leader (Scores g)) (Scores g)))
  else evSetActivePlayers ActivePlayersAllOnce.

Definition step_env (evs : list event) w : hookEnv := mkEnv (Some evs) (Some (mkQueue [] [])) None None w.

Lemma run_reveal mc g args w : mc_G mc = Some (VState g) → mc_Wired mc = true → mc_extra mc = [] →
  call mc (reveal mc args) (step_env [] w) =
  (Ok (inr (Some (VState (revealed g))), mc), step_env [reveal_event (revealed g)] w).
Proof.
  intros HG Hw Hx. unfold call, reveal, reveal_event. rewrite HG, Hw, Hx.
  destruct (decide _); simpl; destruct mc; simpl in *; by subst.
Qed.

(** The event of the reveal, drained. *)
Lemma drain_reveal fuel g c id log snaps mc w : ctx_PlayOrder c = players → players ≠ [] → 
  drainEvents (S (S fuel)) New (closed_state g c id log snaps []) mc (step_env [reveal_event g] w) =
  let s := if decide (leader (Scores g) ≠ "") then over_state g c id log snaps
           else round_state g c id log snaps None everyone in
  (Ok (s, refresh s mc), step_env [] w).
Proof.
  intros Ho Hne. unfold reveal_event. destruct (decide _).
  - destruct c. reflexivity.
  - cbn [drainEvents]. rewrite bind_eq. unfold Events_drain at 1. cbn [env_events step_env].
    cbv beta iota. rewrite bind_eq. unfold drain_batch. rewrite bind_eq. unfold drain_one.
    rewrite bind_eq. rewrite (rearmed g c id log snaps) by done. reflexivity.
Qed.

Lemma reveal_step fuel g c id log snaps parent w : ctx_Phase c = "" → ctx_PlayOrder c = players → players ≠ [] →
  applyStep (S (S fuel)) ctxBackground New (closed_state g c id log snaps []) (mkAction "" "reveal" []) parent w =
  (Ok (after_reveal g c id log snaps parent), w).
Proof.
  intros Hph Ho Hne. unfold applyStep. cbn [qa_PlayerID qa_Move].
  change (authorizedStageDrain _ "") with "". unfold resolveMove. rewrite decide_True by done.
  change (ctx_Phase _) with (ctx_Phase c). rewrite Hph. change (scopeMoves New "") with moves.
  change (moves !! "reveal") with (Some (EntryMove reveal_move)). cbv beta iota.
  rewrite bind_eq. change (st_lift _ w) with (Ok (E:=error) reveal_move, w). cbv beta iota.
  rewrite bind_eq. unfold buildAPIs. change (buildPluginAPIs New _ _ w) with (@None (gmap string any), w).
  cbv beta iota. rewrite bind_eq. unfold in_env. unfold step_pipeline. cbv zeta.
  rewrite bind_eq. change (st_some _ _) with (Ok (E:=error) reveal, mkEnv (Some []) (Some (mkQueue [] [])) None None w).
  cbv beta iota. rewrite bind_eq. change (applyFnWrapMove New reveal) with reveal.
  fold (step_env [] w). rewrite (run_reveal _ g) by done. cbv beta iota.
  rewrite bind_eq, no_flush. cbv beta iota.
  rewrite bind_eq, no_validation. cbv beta iota.
  assert (Hentry : step_entry (closed_state g c id log snaps []) (mkAction "" "reveal" []) "" parent = reveal_entry c parent).
  { unfold step_entry, reveal_entry. simpl. by rewrite Hph. }
  rewrite Hentry.
  match goal with |- context [drainEvents _ _ ?x _] =>
    change x with (closed_state (revealed g) c id (log ++ [reveal_entry c parent]) snaps []) end.
  rewrite bind_eq, drain_reveal by done. cbv beta iota zeta.
  unfold mret, ST_ret, st_ret. cbv beta iota. rewrite flush_nothing by done.
  unfold after_reveal. destruct (decide _); reflexivity.
Qed.

(** ** A submission *)

(** Between two submissions of a round. *)
Record at_round s g : Prop := {
  ar_state : ∃ c id log snaps cnt, s = round_state g c id log snaps cnt (everyone ∖ dom (Pending g)) ∧
    ctx_Phase c = "" ∧ ctx_Gameover c = None ∧ ctx_PlayOrder c = players ∧
    ctx_NumPlayers c = Z.of_nat (length players) ∧ default ∅ cnt = (∅ : gmap string Z);
  ar_pending : dom (Pending g) ⊆ everyone;
  ar_open : dom (Pending g) ≠ everyone;
  ar_scores : dom (Scores g) ⊆ everyone
}.

(** A round is over: the match is decided, or the next round is open. *)
Definition settled s g : Prop :=
  if decide (leader (Scores g) ≠ "") then
    st_G s = Some (VState g) ∧ ctx_Gameover (st_Ctx s) = Some (VResult (leader (Scores g)) (Scores g))
  else at_round s g.

Lemma full_iff g : dom (Pending g) ⊆ everyone →
  Z.of_nat (size (Pending g)) = Z.of_nat (length players) ↔ dom (Pending g) = everyone.
Proof.
  intros Hsub. rewrite <-size_dom. assert (Hs : size everyone = length players) by by apply size_list_to_set.
  split; intros H.
  - apply set_eq, set_subseteq_size_equiv; [done|]. lia.
  - by rewrite H, Hs.
Qed.

Lemma cascade_idle fuel (s : CoreTypes.State) parent w : st_Queue s = [] → st_Blocks s = [] →
  drainCascade fuel ctxBackground New s (mkQueue [] []) parent w = (Ok (s, None), w).
Proof. intros Hq Hb. destruct s. simpl in *. by subst. Qed.

Lemma cascade_reveal fuel g c id log snaps parent w :
  ctx_Phase c = "" → ctx_Gameover c = None → ctx_PlayOrder c = players → players ≠ [] →
  drainCascade (S (S fuel)) ctxBackground New (closed_state g c id log snaps [])
    (mkQueue [mkAction "" "reveal" []] []) parent w = (Ok (after_reveal g c id log snaps parent, None), w).
Proof.
  intros Hph Ho Hpo Hne. unfold drainCascade.
  change (harvestQueue _ _) with (closed_state g c id log snaps [mkAction "" "reveal" []]).
  change MaxDrainDepth with (S 199). cbn [cascade_loop].
  assert (Hrun : cascade_running (closed_state g c id log snaps [mkAction "" "reveal" []]) = true).
  { unfold cascade_running, not_over. simpl. by rewrite Ho. }
  rewrite Hrun. cbn [st_Queue closed_state]. rewrite bind_eq. unfold st_try.
  change (set_st_Queue [] _) with (closed_state g c id log snaps []).
  rewrite reveal_step by done. cbv beta iota. unfold after_reveal.
  destruct (decide _); unfold cascade_loop, cascade_running; cbn [st_Queue over_state round_state];
    rewrite bool_decide_false; try done; by intros [H _].
Qed.

(** The whole request, as the state it leads to. *)
Definition submit_outcome g (c : Ctx) id log snaps cnt A p name now : CoreTypes.State :=
  let g' := lock_in p name g in
  let log' := log ++ [submit_entry p name now c] in
  let snaps' := snaps ++ [cloneStateForSnapshot (round_state g (set_ctx_NowMs now c) id log snaps cnt A)] in
  if decide (A ∖ {[ p ]} = ∅)
  then after_reveal g' (moved now c) (id + 1) log' snaps' (Z.of_nat (length log))
  else round_state g' (moved now c) (id + 1) log' snaps' (Some ∅) (A ∖ {[ p ]}).

Lemma submit_applied fuel g c id log snaps cnt A p name now client w :
  p ∈ A → ctx_Phase c = "" → ctx_Gameover c = None → default ∅ cnt = (∅ : gmap string Z) → validThrows name = true →
  ctx_PlayOrder c = players → players ≠ [] →
  (Z.of_nat (size (Pending (lock_in p name g))) = ctx_NumPlayers c ↔ A ∖ {[ p ]} = ∅) →
  Apply (S (S fuel)) New (round_state g c id log snaps cnt A) (submit_request p name now client) w =
  (Ok (submit_outcome g c id log snaps cnt A p name now, None), w).
Proof.
  intros Hp Hph Ho Hcnt Hv Hpo Hne Hfull. unfold Apply, ApplyContext. rewrite bind_eq.
  unfold st_try, applyExternal. rewrite bind_eq, submit_admitted by done. unfold st_lift.
  cbv beta iota. rewrite bind_eq. unfold buildAPIs.
  change (buildPluginAPIs New _ _ w) with (@None (gmap string any), w).
  cbv beta iota. rewrite bind_eq. unfold in_env. fold (fresh_env w). cbn [ad_State].
  rewrite submit_pipeline by done. cbv beta iota. unfold submit_outcome.
  change (queue_of _) with (mkQueue (to_reveal (lock_in p name g) c) []).
  change (drops_of _) with (@nil string). rewrite bind_eq. unfold to_reveal, submitted.
  change (length (st_Log _)) with (length log).
  destruct (decide (A ∖ {[ p ]} = ∅)) as [He|He].
  - rewrite decide_True by by apply Hfull.
    change (set_st_Blocks _ _) with (closed_state (lock_in p name g) (moved now c) (id + 1)
      (log ++ [submit_entry p name now c])
      (snaps ++ [cloneStateForSnapshot (round_state g (set_ctx_NowMs now c) id log snaps cnt A)]) []).
    rewrite cascade_reveal by done. done.
  - rewrite decide_False by by rewrite Hfull. rewrite cascade_idle by done. done.
Qed.

Lemma submit_one fuel s g p name now client w : at_round s g → p ∈ players → Pending g !! p = None →
  validThrows name = true →
  let g' := lock_in p name g in
  ∃ s', Apply (S (S fuel)) New s (submit_request p name now client) w = (Ok (s', None), w) ∧
    st_StateID s' = st_StateID s + 1 ∧
    if decide (dom (Pending g') = everyone) then settled s' (revealed g') else at_round s' g'.
Proof.
  intros [(c & id & log & snaps & cnt & -> & Hph & Ho & Hpo & Hn & Hcnt) Hsub Hopen Hsc] Hp Hnone Hv g'.
  set (A := everyone ∖ dom (Pending g)).
  assert (Hpe : p ∈ everyone) by by apply elem_of_list_to_set.
  assert (HpA : p ∈ A) by (apply elem_of_difference; split; [done|by apply not_elem_of_dom]).
  assert (Hdom : dom (Pending g') = {[ p ]} ∪ dom (Pending g)) by apply dom_insert_L.
  assert (Hsub' : dom (Pending g') ⊆ everyone) by (rewrite Hdom; set_solver).
  assert (HA' : A ∖ {[ p ]} = everyone ∖ dom (Pending g')) by (unfold A; rewrite Hdom; set_solver).
  assert (Hiff : A ∖ {[ p ]} = ∅ ↔ dom (Pending g') = everyone).
  { rewrite HA'. split; [|intros ->; set_solver]. intros H. apply set_eq. intros q. split; [by apply Hsub'|].
    intros Hq. destruct (decide (q ∈ dom (Pending g'))); [done|]. set_solver. }
  assert (Hpn : players ≠ []) by (intros Hnil; rewrite Hnil in Hp; by apply elem_of_nil in Hp).
  eexists. split.
  - apply submit_applied; try done. rewrite Hn, Hiff. by apply full_iff.
  - unfold submit_outcome. fold g'.
    assert (Hmv : ctx_Phase (moved now c) = "" ∧ ctx_Gameover (moved now c) = None ∧
      ctx_PlayOrder (moved now c) = players ∧ ctx_NumPlayers (moved now c) = Z.of_nat (length players)) by done.
    destruct Hmv as (Hm1 & Hm2 & Hm3 & Hm4).
    destruct (decide (A ∖ {[ p ]} = ∅)) as [He|He].
    + rewrite decide_True by by apply Hiff. unfold settled, after_reveal.
      destruct (decide _) as [Hl|Hl]; (split; [done|]); [done|].
      assert (Hee : everyone ∖ dom (Pending (revealed g')) = everyone) by (simpl; set_solver).
      split; [|simpl; set_solver| |].
      * eexists _, _, _, _, _. rewrite Hee. split; [done|]. by split_and!.
      * change (Pending (revealed g')) with (∅ : gmap string string). rewrite dom_empty_L. intros H.
        rewrite <-H in Hpe. set_solver.
      * simpl. intros q. rewrite elem_of_dom. intros [n Hq].
        destruct (<[p := name]> (Pending g) !! q) as [x|] eqn:Hx.
        -- apply Hsub'. apply elem_of_dom. by exists x.
        -- rewrite score_round_none in Hq by done. apply Hsc. apply elem_of_dom. by exists n.
    + rewrite decide_False by by rewrite <-Hiff. split; [done|]. split; [|done| |done].
      * eexists _, _, _, _, _. rewrite <-HA'. split; [done|]. by split_and!.
      * by rewrite <-Hiff.
Qed.

(** ** A round *)

Fixpoint submit_all (fuel : nat) (now : Z) (client : bool) (l : list (string * string)) s (w : world)
    : outcome error (CoreTypes.State * world) :=
  match l with
  | [] => Ok (s, w)
  | (p, name) :: l =>
      match Apply fuel New s (submit_request p name now client) w with
      | (Ok (s, None), w) => submit_all fuel now client l s w
      | (Ok (_, Some e), _) => Err e
      | (Err e, _) => Err e
      | (Panicked, _) => Panicked
      | (NoFuel, _) => NoFuel
      end
  end.

Lemma peel p (X E D : gset string) : p ∉ X → {[ p ]} ∪ X = E ∖ D → X = E ∖ ({[ p ]} ∪ D).
Proof. set_solver. Qed.

Lemma no_rest (E D : gset string) : ∅ = E ∖ D → D ⊆ E → D = E.
Proof.
  intros H Hsub. apply set_eq. intros q. split; [apply Hsub|]. intros Hq.
  destruct (decide (q ∈ D)); [done|]. set_solver.
Qed.

Definition with_pending (pending : gmap string string) g : State :=
  mkRps pending (Scores g) (LastRound g) (Round g).

Lemma submit_all_settles fuel now client l s g w : at_round s g → l ≠ [] → NoDup l.*1 →
  list_to_set l.*1 = everyone ∖ dom (Pending g) → Forall (λ pn, validThrows pn.2 = true) l →
  ∃ s', submit_all (S (S fuel)) now client l s w = Ok (s', w) ∧
    st_StateID s' = st_StateID s + Z.of_nat (length l) ∧
    settled s' (revealed (with_pending (list_to_map l ∪ Pending g) g)).
Proof.
  revert s g. induction l as [|[p name] l IH]; [done|]. intros s g Hat _ Hnd' Hset Hval.
  simpl in Hnd'. apply NoDup_cons in Hnd' as [Hpl Hnd'].
  apply Forall_cons in Hval as [Hv Hval]. simpl in Hv. cbn [fmap list_fmap fst list_to_set] in Hset.
  assert (HpA : p ∈ everyone ∖ dom (Pending g)) by (rewrite <-Hset; apply elem_of_union_l; by apply elem_of_singleton).
  apply elem_of_difference in HpA as [Hpe Hpn]. apply not_elem_of_dom in Hpn as Hnone.
  destruct (submit_one fuel s g p name now client w Hat) as (s' & HA & HS & Hnext);
    [by apply elem_of_list_to_set in Hpe|done|done|].
  cbn [submit_all]. rewrite HA.
  assert (Hdom : dom (Pending (lock_in p name g)) = {[ p ]} ∪ dom (Pending g)) by apply dom_insert_L.
  assert (Hrest : list_to_set l.*1 = everyone ∖ dom (Pending (lock_in p name g))).
  { rewrite Hdom. apply peel; [by rewrite elem_of_list_to_set|done]. }
  assert (Hpend : with_pending (list_to_map ((p, name) :: l) ∪ Pending g) g =
    with_pending (list_to_map l ∪ Pending (lock_in p name g)) (lock_in p name g)).
  { unfold with_pending. simpl. f_equal. rewrite <-insert_union_l.
    rewrite insert_union_r; [done|]. by apply not_elem_of_list_to_map_1. }
  rewrite Hpend. destruct l as [|q l].
  - rewrite decide_True in Hnext.
    2:{ simpl in Hrest. apply no_rest; [done|]. rewrite Hdom. apply union_subseteq. split.
        - by apply singleton_subseteq_l.
        - by destruct Hat. }
    exists s'. split; [done|]. split; [simpl; lia|]. simpl in Hnext. simpl.
    by rewrite map_empty_union.
  - rewrite decide_False in Hnext.
    2:{ intros Hd. rewrite Hd, difference_diag_L in Hrest. simpl in Hrest.
        apply (not_elem_of_empty (C:=gset string) q.1). rewrite <-Hrest. apply elem_of_union_l.
        by apply elem_of_singleton. }
    destruct (IH s' _ Hnext) as (s2 & HR & HS2 & Hset2); [done..|].
    exists s2. split; [done|]. split; [|done]. rewrite HS2, HS. cbn [length]. lia.
Qed.

Definition sole_leader (scores : gmap string Z) (p : string) : Prop :=
  at_target scores p ∧ ∀ q, at_target scores q → q = p.

(** A round of rock, paper, scissors, in whatever order the players submit: every
    submission is accepted, and the last one also reveals.  Then no throw is pending,
    the throws are on the table, every player has one point more for each opponent
    beaten, and either one player alone has reached five points and is recorded as the
    winner, or there is no such player and the next round is open. *)
Theorem round_resolves fuel now client l s g w : at_round s g → Pending g = ∅ → l.*1 ≡ₚ players →
  Forall (λ pn, validThrows pn.2 = true) l →
  ∃ s' h, submit_all (S (S fuel)) now client l s w = Ok (s', w) ∧
    st_StateID s' = st_StateID s + Z.of_nat (length l) ∧
    st_G s' = Some (VState h) ∧ Pending h = ∅ ∧ LastRound h = list_to_map l ∧ Round h = Round g + 1 ∧
    (∀ p name, (p, name) ∈ l →
      default 0 (Scores h !! p) = default 0 (Scores g !! p) + beaten (LastRound h) p name) ∧
    ((∃ p, sole_leader (Scores h) p ∧ ctx_Gameover (st_Ctx s') = Some (VResult p (Scores h))) ∨
     (¬ ∃ p, sole_leader (Scores h) p) ∧ at_round s' h).
Proof.
  intros Hat Hemp Hperm Hval.
  assert (Hnd' : NoDup l.*1) by by rewrite Hperm.
  assert (Hne : l ≠ []).
  { intros ->. symmetry in Hperm. apply Permutation_nil_r in Hperm. destruct Hat as [_ _ Hopen _].
    apply Hopen. rewrite Hemp. unfold everyone. by rewrite Hperm. }
  assert (Hset : list_to_set l.*1 = everyone ∖ dom (Pending g)).
  { rewrite Hemp, dom_empty_L, difference_empty_L. unfold everyone. by rewrite Hperm. }
  destruct (submit_all_settles fuel now client l s g w Hat Hne Hnd' Hset Hval) as (s' & HR & HS & Hs).
  rewrite Hemp, map_union_empty in Hs. set (h := revealed (with_pending (list_to_map l) g)) in *.
  assert (Hscores : "" ∉ dom (Scores h)).
  { intros [n Hn]%elem_of_dom. simpl in Hn. rewrite score_round_none in Hn.
    - destruct Hat as [_ _ _ Hsc]. apply elem_of_dom_2 in Hn. apply Hsc, elem_of_list_to_set in Hn. done.
    - apply not_elem_of_list_to_map_1. by rewrite Hperm. }
  assert (Hlead : ∀ p, p ≠ "" → leader (Scores h) = p ↔ sole_leader (Scores h) p).
  { intros p Hp. apply leader_unique; [by apply not_elem_of_dom|done]. }
  exists s', h. split; [done|]. split; [done|]. unfold settled in Hs.
  assert (HG : st_G s' = Some (VState h)).
  { destruct (decide _); [by destruct Hs|]. by destruct Hs as [(c & id & log & snaps & cnt & -> & _) _ _ _]. }
  split; [done|]. split; [done|]. split; [done|]. split; [done|]. split.
  - intros p name Hin. simpl. rewrite score_round_lookup. simpl.
    by rewrite (proj1 (elem_of_list_to_map l p name Hnd') Hin).
  - destruct (decide _) as [Hl|Hl].
    + left. exists (leader (Scores h)). split; [by apply Hlead|by destruct Hs].
    + right. split; [|done]. intros [p Hp]. apply Hl. assert (p ≠ "").
      { intros ->. destruct Hp as [(n & Hn & _) _]. by apply elem_of_dom_2 in Hn. }
      by rewrite (proj2 (Hlead p ltac:(done)) Hp).
Qed.

(** ** What the others learn *)

(** Submissions of the same players in the same order, with the same throws of [v]. *)
Definition same_for (v : string) (a b : string * string) : Prop := a.1 = b.1 ∧ (a.1 = v → a.2 = b.2).

(** Two states of a round that [v] must not tell apart. *)
Record veiled (v : string) s1 s2 g1 g2 : Prop := {
  vl_shape : ∃ c id log1 log2 snaps1 snaps2 cnt,
    s1 = round_state g1 c id log1 snaps1 cnt (everyone ∖ dom (Pending g1)) ∧
    s2 = round_state g2 c id log2 snaps2 cnt (everyone ∖ dom (Pending g1)) ∧
    Forall2 (entry_alike v) log1 log2 ∧
    ctx_Phase c = "" ∧ ctx_Gameover c = None ∧ ctx_PlayOrder c = players ∧
    ctx_NumPlayers c = Z.of_nat (length players) ∧ default ∅ cnt = (∅ : gmap string Z);
  vl_pending : dom (Pending g1) = dom (Pending g2);
  vl_sub : dom (Pending g1) ⊆ everyone;
  vl_own : Pending g1 !! v = Pending g2 !! v;
  vl_public : Scores g1 = Scores g2 ∧ LastRound g1 = LastRound g2 ∧ Round g1 = Round g2
}.

Lemma veiled_view v s1 s2 g1 g2 w : veiled v s1 s2 g1 g2 →
  wire (PlayerView New s1 v w) = wire (PlayerView New s2 v w).
Proof.
  intros [(c & id & log1 & log2 & snaps1 & snaps2 & cnt & -> & -> & Hlog & _) _ _ Hown (HS & HL & HR)].
  assert (Hvis : visible v g1 = visible v g2) by (unfold visible; by rewrite Hown, HS, HL, HR).
  unfold PlayerView, wire, round_state, set_st_TurnSnapshots. simpl. by rewrite Hvis, (redactedLog_alike _ _ _ Hlog).
Qed.

Lemma submission_alike v p n1 n2 now c : (p = v → n1 = n2) →
  entry_alike v (submit_entry p n1 now c) (submit_entry p n2 now c).
Proof.
  intros Hv. destruct (decide (p = v)) as [->|Hne]; [left; by rewrite (Hv eq_refl)|].
  right. split; [done|]. split; [done|]. by eexists.
Qed.

Lemma veiled_step fuel v s1 s2 g1 g2 p n1 n2 now client w : veiled v s1 s2 g1 g2 →
  p ∈ everyone ∖ dom (Pending g1) → (everyone ∖ dom (Pending g1)) ∖ {[ p ]} ≠ ∅ →
  validThrows n1 = true → validThrows n2 = true → (p = v → n1 = n2) → ∃ s1' s2',
    Apply (S (S fuel)) New s1 (submit_request p n1 now client) w = (Ok (s1', None), w) ∧
    Apply (S (S fuel)) New s2 (submit_request p n2 now client) w = (Ok (s2', None), w) ∧
    veiled v s1' s2' (lock_in p n1 g1) (lock_in p n2 g2).
Proof.
  intros [(c & id & log1 & log2 & snaps1 & snaps2 & cnt & -> & -> & Hlog & Hph & Ho & Hpo & Hn & Hcnt)
    Hdom Hsub Hown Hpub] Hp Hleft Hv1 Hv2 Hsame.
  set (A := everyone ∖ dom (Pending g1)) in *.
  assert (HD : ∀ n, dom (<[p := n]> (Pending g1)) = {[ p ]} ∪ dom (Pending g1)) by (intros; apply dom_insert_L).
  assert (HD2 : ∀ n, dom (<[p := n]> (Pending g2)) = {[ p ]} ∪ dom (Pending g1)).
  { intros. rewrite Hdom. apply dom_insert_L. }
  apply elem_of_difference in Hp as Hpe. destruct Hpe as [Hpe Hpd].
  assert (Hsub' : {[ p ]} ∪ dom (Pending g1) ⊆ everyone).
  { apply union_subseteq. split; [by apply singleton_subseteq_l|done]. }
  assert (HA' : A ∖ {[ p ]} = everyone ∖ ({[ p ]} ∪ dom (Pending g1))).
  { unfold A. by rewrite difference_difference_l_L, (union_comm_L (dom _)). }
  assert (Hnotfull : ∀ (m : gmap string string), dom m = {[ p ]} ∪ dom (Pending g1) →
    Z.of_nat (size m) = ctx_NumPlayers c ↔ A ∖ {[ p ]} = ∅).
  { intros m Hm. split; [|done]. intros Hs. rewrite Hn in Hs.
    pose proof (proj1 (full_iff (with_pending m g1) ltac:(simpl; by rewrite Hm)) Hs) as Hfull. simpl in Hfull.
    rewrite HA', <-Hm, Hfull. apply difference_diag_L. }
  assert (Hpn : players ≠ []).
  { intros Hnil. unfold everyone in Hpe. rewrite Hnil in Hpe. by apply not_elem_of_empty in Hpe. }
  exists (submit_outcome g1 c id log1 snaps1 cnt A p n1 now), (submit_outcome g2 c id log2 snaps2 cnt A p n2 now).
  split; [apply submit_applied; try done; apply Hnotfull, HD|].
  split; [apply submit_applied; try done; apply Hnotfull, HD2|].
  unfold submit_outcome. rewrite !decide_False by done. split; [| | |simpl|done].
  - eexists _, _, _, _, _, _, _. cbn [Pending lock_in]. rewrite HD, <-HA'. split; [reflexivity|]. split; [reflexivity|].
    split; [|by split_and!]. apply Forall2_app; [done|]. constructor; [|constructor]. by apply submission_alike.
  - simpl. by rewrite HD, HD2.
  - simpl. by rewrite HD.
  - destruct (decide (p = v)) as [->|Hne].
    + rewrite (Hsame eq_refl). by rewrite !lookup_insert_eq.
    + by rewrite !lookup_insert_ne.
Qed.

Lemma veiled_refl v s g : at_round s g → veiled v s s g g.
Proof.
  intros [(c & id & log & snaps & cnt & -> & Hph & Ho & Hpo & Hn & Hcnt) Hsub _ _]. split; try done.
  exists c, id, log, log, snaps, snaps, cnt. split_and!; try done.
  clear. induction log; constructor; [by left|done].
Qed.

Lemma veiled_all fuel v now client l1 l2 s1 s2 g1 g2 w : veiled v s1 s2 g1 g2 →
  Forall2 (same_for v) l1 l2 → NoDup l1.*1 →
  Forall (λ pn, validThrows pn.2 = true) l1 → Forall (λ pn, validThrows pn.2 = true) l2 →
  list_to_set l1.*1 ⊆ everyone ∖ dom (Pending g1) → list_to_set l1.*1 ≠ everyone ∖ dom (Pending g1) →
  ∃ s1' s2' g1' g2', submit_all (S (S fuel)) now client l1 s1 w = Ok (s1', w) ∧
    submit_all (S (S fuel)) now client l2 s2 w = Ok (s2', w) ∧ veiled v s1' s2' g1' g2'.
Proof.
  intros Hv Hl. revert s1 s2 g1 g2 Hv. induction Hl as [|[p n1] [p2 n2] l1 l2 [Hpe Hpv] Hl IH].
  { intros s1 s2 g1 g2 Hv _ _ _ _ _. by exists s1, s2, g1, g2. }
  simpl in Hpe, Hpv. subst p2. intros s1 s2 g1 g2 Hv Hnd' [H1 HV1]%Forall_cons [H2 HV2]%Forall_cons Hsub Hne.
  simpl in H1, H2. cbn [fmap list_fmap fst list_to_set] in Hsub, Hne, Hnd'. apply NoDup_cons in Hnd' as [Hpl Hnd'].
  apply union_subseteq in Hsub as [Hp Hsub]. apply singleton_subseteq_l in Hp.
  assert (Hpl' : p ∉ (list_to_set l1.*1 : gset string)) by by rewrite elem_of_list_to_set.
  assert (Hrest : (everyone ∖ dom (Pending g1)) ∖ {[ p ]} ≠ list_to_set l1.*1).
  { intros He. apply Hne. rewrite <-He. symmetry. apply union_difference_singleton_L, Hp. }
  assert (Hsub' : list_to_set l1.*1 ⊆ (everyone ∖ dom (Pending g1)) ∖ {[ p ]}).
  { intros q Hq. apply elem_of_difference. split; [by apply Hsub|]. intros ->%elem_of_singleton. done. }
  destruct (veiled_step fuel v s1 s2 g1 g2 p n1 n2 now client w Hv Hp) as (s1' & s2' & HA1 & HA2 & Hv'); [|done..|].
  { intros He. apply Hrest. rewrite He in Hsub' |- *. apply set_eq. intros q. split; [set_solver|apply Hsub']. }
  assert (HD : everyone ∖ dom (Pending (lock_in p n1 g1)) = (everyone ∖ dom (Pending g1)) ∖ {[ p ]}).
  { assert (dom (Pending (lock_in p n1 g1)) = {[ p ]} ∪ dom (Pending g1)) as -> by apply dom_insert_L.
    by rewrite difference_difference_l_L, (union_comm_L (dom _)). }
  destruct (IH s1' s2' _ _ Hv' Hnd' HV1 HV2) as (t1 & t2 & h1 & h2 & HT1 & HT2 & HV); [by rewrite HD..|].
  exists t1, t2, h1, h2. cbn [submit_all]. rewrite HA1, HA2. by split_and!.
Qed.

(** Until a round of rock, paper, scissors is revealed, what a seat or a spectator is
    sent does not depend on the throws of the others: when the same players submit in
    the same order, with the viewer's own throw the same, the views are equal, be the
    other throws what they may. *)
Theorem throws_stay_secret fuel v now client l1 l2 s g w : at_round s g →
  Forall2 (same_for v) l1 l2 → NoDup l1.*1 →
  Forall (λ pn, validThrows pn.2 = true) l1 → Forall (λ pn, validThrows pn.2 = true) l2 →
  list_to_set l1.*1 ⊆ everyone ∖ dom (Pending g) → list_to_set l1.*1 ≠ everyone ∖ dom (Pending g) →
  ∃ s1 s2, submit_all (S (S fuel)) now client l1 s w = Ok (s1, w) ∧
    submit_all (S (S fuel)) now client l2 s w = Ok (s2, w) ∧
    wire (PlayerView New s1 v w) = wire (PlayerView New s2 v w).
Proof.
  intros Hat Hl Hnd' H1 H2 Hsub Hne.
  destruct (veiled_all fuel v now client l1 l2 s s g g w (veiled_refl v s g Hat) Hl Hnd' H1 H2 Hsub Hne)
    as (s1 & s2 & g1 & g2 & HS1 & HS2 & HV).
  exists s1, s2. split; [done|]. split; [done|]. by eapply veiled_view.
Qed.
End rounds.

(** ** New matches *)

Lemma seats_distinct n : 2 ≤ n ≤ 4 → NoDup (defaultPlayOrder n) ∧ "" ∉ defaultPlayOrder n ∧
  Z.of_nat (length (defaultPlayOrder n)) = n ∧ go_index (defaultPlayOrder n) 0 = Some "0".
Proof.
  intros Hn. assert (n = 2 ∨ n = 3 ∨ n = 4) as [->|[->| ->]] by lia;
    (split_and!; [by apply (bool_decide_unpack _); vm_compute|by apply (bool_decide_unpack _); vm_compute|done..]).
Qed.

Lemma seats_counted np : 2 ≤ PlayerCount New np ≤ 4.
Proof. unfold PlayerCount. simpl. repeat case_decide; lia. Qed.

(** A new match, with as many seats as asked for within two to four, opens the first
    round. *)
Lemma new_match_at_round fuel np data seed w : ∃ s,
  NewMatchSeeded (S fuel) New np data seed w = (Ok s, w) ∧
  at_round (defaultPlayOrder (PlayerCount New np)) s fresh.
Proof.
  pose proof (seats_counted np) as Hn. set (n := PlayerCount New np) in *.
  destruct (seats_distinct n Hn) as (Hnd & Hbl & Hlen & Hfirst). set (players := defaultPlayOrder n) in *.
  set (c0 := initial_ctx New n "0" seed).
  assert (Hne : players ≠ []) by (intros Hnil; by rewrite Hnil in Hfirst).
  exists (round_state fresh c0 0 [] [] None (everyone players)). split.
  - unfold NewMatchSeeded. rewrite bind_eq. unfold NewMatchSeededE. fold n. cbv zeta. rewrite bind_eq.
    fold players. rewrite Hfirst. change (st_some (Some "0") w) with (Ok (E:=error) "0", w). cbv beta iota.
    fold c0. rewrite bind_eq. change (run_setup New c0 data w) with (Ok (E:=error) (Some (VState fresh)), w). cbv beta iota.
    rewrite bind_eq. change (run_plugin_setup New _ w) with (Ok (E:=error) (closed_state fresh c0 0 [] [] []), w).
    cbv beta iota. rewrite bind_eq. unfold buildAPIs. change (buildPluginAPIs New _ _ w) with (@None (gmap string any), w).
    cbv beta iota. rewrite bind_eq. unfold in_env. fold (fresh_env w). unfold setup_pipeline.
    rewrite bind_eq. unfold env_mcNoEvents. cbv beta iota. rewrite bind_eq.
    assert (HF : ∀ mc, applyTurnOrderFirst New (closed_state fresh c0 0 [] [] []) mc (fresh_env w) =
      (Ok (closed_state fresh c0 0 [] [] []), fresh_env w)).
    { intros mc. unfold applyTurnOrderFirst. cbv zeta. change (effective_order _) with TurnOrderDefault.
      cbn [to_PlayOrder to_First TurnOrderDefault]. rewrite bind_eq. unfold mret at 1, ST_ret at 1, st_ret at 1.
      cbv beta iota. rewrite bind_eq, bind_eq.
      change (call mc (Ret 0) (fresh_env w)) with (call mc (Ret 0) (mkEnv (Some []) (Some (mkQueue [] [])) (Some []) None w)).
      assert (HC : call mc (Ret 0) (fresh_env w) = (Ok (0, set_mc_extra (mc_extra mc) mc), fresh_env w)).
      { unfold call. by destruct (mc_Wired mc). }
      fold (fresh_env w). rewrite HC. unfold mret at 1, ST_ret at 1, st_ret at 1. cbv beta iota.
      change (ctx_PlayOrder _) with players. rewrite decide_False by done.
      rewrite (seat_player _ "0") by done. reflexivity. }
    rewrite HF. cbv beta iota. rewrite bind_eq.
    change (applyActivePlayersFromTurn New (closed_state fresh c0 0 [] [] []))
      with (applySetActivePlayers (closed_state fresh c0 0 [] [] []) ActivePlayersAllOnce).
    rewrite (rearmed players) by done. set (s0 := round_state _ _ _ _ _ _ _).
    change (runPhaseOnBegin New s0 (fresh_env w)) with (Ok (E:=error) s0, fresh_env w). cbv beta iota.
    rewrite bind_eq. change (runTurnOnBegin New s0 (fresh_env w)) with (Ok (E:=error) s0, fresh_env w). cbv beta iota.
    rewrite bind_eq. unfold env_mc. cbv beta iota. rewrite bind_eq, drain_nothing. cbv beta iota.
    rewrite no_flush. reflexivity.
  - assert (Hempty : everyone players ∖ dom (Pending fresh) = everyone players).
    { simpl. by rewrite dom_empty_L, difference_empty_L. }
    split.
    + eexists c0, 0, [], [], None. rewrite Hempty. by split_and!.
    + simpl. by rewrite dom_empty_L.
    + simpl. rewrite dom_empty_L. intros He. apply (not_elem_of_empty (C:=gset string) "0"). rewrite He.
      apply elem_of_list_to_set. apply go_index_Some in Hfirst as [_ Hl]. by eapply list_elem_of_lookup_2.
    + simpl. by rewrite dom_empty_L.
Qed.

(** Three players; two throw rock, one scissors. *)
Lemma round_resolves_witness : ∃ s s' h,
  NewMatchSeeded 2 New 3 None 7 () = (Ok s, ()) ∧
  submit_all 2 0 true [("2", "rock"); ("0", "scissors"); ("1", "rock")] s () = Ok (s', ()) ∧
  st_G s' = Some (VState h) ∧ Pending h = ∅ ∧ Round h = 1.
Proof.
  destruct (new_match_at_round 1 3 None 7 ()) as (s & Hs & Hat).
  destruct (round_resolves (defaultPlayOrder 3) (proj1 (seats_distinct 3 ltac:(lia)))
    (proj1 (proj2 (seats_distinct 3 ltac:(lia)))) 0 0 true [("2", "rock"); ("0", "scissors"); ("1", "rock")]
    s fresh () Hat eq_refl (Permutation_cons_append ["0"; "1"] "2"))
    as (s' & h & Hr & _ & Hg & Hp & _ & Hrd & _); [by repeat constructor|].
  exists s, s', h. split; [exact Hs|]. split; [exact Hr|]. split; [exact Hg|]. split; [exact Hp|exact Hrd].
Defined.

(** Player 0 sees the same whether player 1 threw paper or scissors. *)
Lemma throws_stay_secret_witness : ∃ s s1 s2,
  NewMatchSeeded 2 New 3 None 7 () = (Ok s, ()) ∧
  submit_all 2 0 true [("0", "rock"); ("1", "paper")] s () = Ok (s1, ()) ∧
  submit_all 2 0 true [("0", "rock"); ("1", "scissors")] s () = Ok (s2, ()) ∧
  wire (PlayerView New s1 "0" ()) = wire (PlayerView New s2 "0" ()).
Proof.
  destruct (new_match_at_round 1 3 None 7 ()) as (s & Hs & Hat). exists s.
  destruct (throws_stay_secret (defaultPlayOrder 3) (proj1 (seats_distinct 3 ltac:(lia)))
    (proj1 (proj2 (seats_distinct 3 ltac:(lia)))) 0 "0" 0 true
    [("0", "rock"); ("1", "paper")] [("0", "rock"); ("1", "scissors")] s fresh () Hat)
    as (s1 & s2 & H1 & H2 & HV).
  - constructor; [done|]. constructor; [done|constructor].
  - apply (bool_decide_unpack _). vm_compute. exact I.
  - by repeat constructor.
  - by repeat constructor.
  - apply (bool_decide_unpack _). vm_compute. exact I.
  - apply (bool_decide_unpack _). vm_compute. exact I.
  - exists s1, s2. split; [exact Hs|]. split; [exact H1|]. split; [exact H2|exact HV].
Defined.
