(* ===== verification/PluginRandom.v ===== *)
(** * The random and the player plugin

    [src/plugins/random/random.go]: where a match's random stream starts, and the
    pointer through which moves draw from it.  The uint64 cells of all matches live in
    the memory the engine never inspects.

    [src/plugins/player/player.go]: a record per player, kept in a map that moves reach
    through a pointer. *)

From Stdlib Require Import SpecFloat.
From S2P Require Import Prelude CoreTypes Api GameDef Plugins Transitions Reducer Session.
From S2P Require Import Random Choices Floats.
#[local] Open Scope Z_scope.

(** ** Seeds *)

Definition unseededFallback : Z := 0xDEADBEEFCAFEBABE.

(** The [n] low bytes of a number, least significant first. *)
Fixpoint le_bytes (n : nat) (z : Z) : list Z :=
  match n with
  | O => []
  | S n => z mod 256 :: le_bytes n (z / 256)
  end.

Definition seedToUint64 (wild : spec_float → Z) (seed : GoVal) : Z :=
  match seed with
  | GoInt "" KUint64 s => s
  | GoInt "" KInt s => u64 s
  | GoInt "" KInt64 s => u64 s
  | GoInt "" KInt32 s => u64 s
  | GoFloat "" s =>
      let n := uint64_of_float wild s in
      if SFeqb s (float_of_int n) then n else fnv1a (le_bytes 8 (float64bits s))
  | GoString s => fnv1a (bytes s)
  | _ => 0
  end.

(** [game.Seed] is nil when the game pins none. *)
Definition resolveSeed (wild : spec_float → Z) (plugin_seed : Z) (game_seed : GoVal) (matchSeed : Z) : Z :=
  if decide (plugin_seed ≠ 0) then plugin_seed
  else
    let s := seedToUint64 wild game_seed in
    if decide (s ≠ 0) then s
    else if decide (matchSeed ≠ 0) then matchSeed
    else unseededFallback.

(** ** Memory and values *)

(** What the plugin needs of the values and the memory of a game: cells that hold a
    uint64, pointers to them, the form a state has after a trip through JSON, and
    generators that draw from a cell. *)
Class Cells (T : GoTypes) := {
  cells : world → list Z;
  set_cells : list Z → world → world;
  cell_val : nat → val;
  as_cell : val → option nat;
  as_json : val → option spec_float;
  random_val : nat → val;
  ref_cell : randref → nat
}.

Class LawfulCells (T : GoTypes) `{!Cells T} : Prop := {
  cells_set : ∀ l w, cells (set_cells l w) = l;
  set_set : ∀ l l' w, set_cells l (set_cells l' w) = set_cells l w;
  as_cell_val : ∀ n, as_cell (cell_val n) = Some n;
  as_Random_val : ∀ n, ∃ r, as_Random (random_val n) = Some r ∧ ref_cell r = n
}.

Section plugin.
Context {T : GoTypes} `{!Cells T} (wild : spec_float → Z) (plugin_seed : Z) (game_seed : GoVal).
Implicit Types (w : world).

(** A new cell. *)
Definition new_cell (seed : Z) w : nat * world := (length (cells w), set_cells (cells w ++ [seed]) w).

Definition Setup (G : any) (ctx : Ctx) w : any * world :=
  let '(n, w) := new_cell (resolveSeed wild plugin_seed game_seed (ctx_Seed ctx)) w in
  (Some (cell_val n), w).

Definition API (data G : any) (ctx : Ctx) (playerID : string) w : any * world :=
  match data ≫= as_cell with
  | Some n => (Some (random_val n), w)
  | None =>
      let seed := match data ≫= as_json with
                  | Some f => uint64_of_float wild f
                  | None => resolveSeed wild plugin_seed game_seed (ctx_Seed ctx)
                  end in
      let '(n, w) := new_cell seed w in (Some (random_val n), w)
  end.

Definition Flush (data api G : any) (ctx : Ctx) w : any * world := (data, w).

Definition hide (data G : any) (ctx : Ctx) (playerID : string) w : any := None.

Definition random_plugin : Plugin :=
  mkPlugin "random" (Some Setup) (Some API) (Some Flush) None (Some hide) None None.

(** ** Drawing *)

(** A computation on the cell a generator points at. *)
Definition on_cell {A} (r : randref) (f : Z → Z * A) : prog A := OpRead (λ w,
  match cells w !! ref_cell r with
  | None => Crash
  | Some s => let '(s, a) := f s in OpWrite (set_cells (<[ref_cell r := s]> (cells w)) w) (Ret a)
  end).

Definition draw (r : randref) : prog Z := on_cell r next.
Definition Shuffled {A} (r : randref) (l : list A) : prog (list A) := on_cell r (λ s, shuffle s l).
End plugin.

(** ** The stream of a match *)
Section stream.
Context {T : GoTypes} `{!Cells T, !LawfulCells T} (wild : spec_float → Z) (plugin_seed : Z) (game_seed : GoVal).
Implicit Types (w : world).

Lemma next_nth n s : next (nth_next n s).1 = nth_next (S n) s.
Proof.
  revert s. induction n as [|n IH]; intros s; [done|]. simpl in *. by rewrite IH.
Qed.

(** A generator whose cell has given out [n] numbers since [seed]. *)
Definition drawn (seed : Z) (n : nat) (r : randref) w : Prop :=
  cells w !! ref_cell r = Some (match n with O => seed | S k => (nth_next k seed).1 end).

Lemma draw_next seed n r w c extra e : drawn seed n r w → env_world e = w →
  ∃ w', run c (draw r) extra e = (Ok ((nth_next n seed).2, extra), set_env_world w' e) ∧ drawn seed (S n) r w'.
Proof.
  intros Hd He. unfold draw, on_cell. cbn [run]. rewrite He, Hd.
  exists (set_cells (<[ref_cell r := (nth_next n seed).1]> (cells w)) w). split.
  - destruct n as [|n]; [change (nth_next 0 seed) with (next seed); by destruct (next seed)|]. rewrite next_nth. by destruct (nth_next (S n) seed).
  - unfold drawn. rewrite cells_set. simpl. rewrite list_lookup_insert_eq; [done|].
    by eapply lookup_lt_Some.
Qed.

(** Every handle the plugin gives out for the data of a match continues one stream: the
    generator a move gets points at the cell the match was set up with. *)
Lemma handle_continues G c data w0 w :
  Setup wild plugin_seed game_seed G c w0 = (data, w) →
  ∃ r, (∀ G c pid w', API wild plugin_seed game_seed data G c pid w' = (Some (random_val (ref_cell r)), w')) ∧
    as_Random (random_val (ref_cell r)) = Some r ∧
    drawn (resolveSeed wild plugin_seed game_seed (ctx_Seed c)) 0 r w.
Proof.
  unfold Setup. cbn. intros [= <- <-]. destruct (as_Random_val (length (cells w0))) as (r & Hr & Hc).
  exists r. split; [|split].
  - intros. unfold API. simpl. by rewrite as_cell_val, Hc.
  - by rewrite Hc.
  - unfold drawn. rewrite cells_set, Hc. rewrite lookup_app_r by lia. by rewrite Nat.sub_diag.
Qed.

(** No seat is sent the state of the generator. *)
Lemma redact_one_random s pid w out p : pl_Name p ≠ "random" ∨ pl_PlayerView p = Some hide →
  out !! "random" = None → redact_one s pid w out p !! "random" = None.
Proof.
  intros Hp Hout. unfold redact_one. destruct Hp as [Hp|Hp].
  - destruct (match pl_PlayerView p with Some _ => _ | None => _ end); [|done]. by rewrite lookup_insert_ne.
  - by rewrite Hp.
Qed.

Lemma stream_stays_secret game s pid w :
  Forall (λ p, pl_Name p ≠ "random" ∨ pl_PlayerView p = Some hide) (gm_Plugins game) → gm_Plugins game ≠ [] →
  omap_get (st_Plugins (PlayerView game s pid w)) "random" = None.
Proof.
  intros Hps Hne. unfold PlayerView. simpl. unfold redactPluginData.
  destruct (gm_Plugins game) as [|p ps] eqn:Hp; [done|]. destruct (st_Plugins s) as [m|]; [|done]. simpl.
  unfold omap_get. simpl. clear Hp Hne.
  assert (HF : ∀ out, out !! "random" = None →
    fold_left (redact_one s pid w) (p :: ps) out !! "random" = None).
  { revert Hps. generalize (p :: ps) as l. induction l as [|q l IH]; intros Hl out Hout; [done|].
    apply Forall_cons in Hl as [Hq Hl]. simpl. apply (IH Hl). by apply redact_one_random. }
  by apply HF.
Qed.
End stream.

(** ** A refused move that has drawn

    A game whose move draws a number and accepts only even ones. *)

Inductive coin_value : Type := CCell (n : nat) | CRandom (n : nat) | CNumber (z : Z).

Definition CoinTypes : GoTypes :=
  {| val := coin_value; world := list Z; val_true := CNumber 1; randref := nat;
     as_Random := λ v, match v with CRandom n => Some n | _ => None end |}.

Definition CoinCells : Cells CoinTypes :=
  {| cells := λ w : @world CoinTypes, w; set_cells := λ l _, l; cell_val := CCell : nat → @val CoinTypes;
     as_cell := λ v : @val CoinTypes, match v with CCell n => Some n | _ => None end;
     as_json := λ _, None; random_val := CRandom : nat → @val CoinTypes; ref_cell := λ n : @randref CoinTypes, n |}.

Section coin.
#[local] Existing Instance CoinTypes.
#[local] Existing Instance CoinCells.

Definition flip : MoveFn := λ mc _,
  match mc_Random mc with
  | None => Crash
  | Some r => v ← draw r;
              if decide (v mod 2 = 0) then Ret (inr (Some (CNumber v))) else Ret (inl ErrInvalidMove)
  end.

Definition coin : Game := mkGame "coin" 1 1 None {[ "flip" := EntryFn flip ]} None ∅
  None None None None None false [random_plugin (λ _, 0) 0 GoNil].

Definition flip_request : MoveRequest := mkReq "0" "flip" [] 0 "" 0 false true.

(** The seed of a match whose first number is odd and whose second is even. *)
Definition coin_start (seed : Z) : State * world :=
  match NewMatchSeeded 1 coin 1 None seed [] with
  | (Ok s, w) => (s, w)
  | (_, w) => (blank_state None (initial_ctx coin 1 "0" seed), w)
  end.

Definition flip_once (sw : State * world) : State * option error * world :=
  match Apply 1 coin sw.1 flip_request sw.2 with
  | (Ok (s, e), w) => (s, e, w)
  | (_, w) => (sw.1, None, w)
  end.

(** A refused move gives back the state, but not the numbers it drew: two refused flips
    and an accepted one leave a log whose replay, from the same seed, is refused. *)
Lemma refused_draws_break_replay :
  let m0 := coin_start 1 in
  let '(s1, e1, w1) := flip_once m0 in
  let '(s2, e2, w2) := flip_once (s1, w1) in
  let '(s3, e3, w3) := flip_once (s2, w2) in
  s1 = m0.1 ∧ e1 = Some ErrInvalidMove ∧ w1 ≠ m0.2 ∧ s2 = m0.1 ∧ e2 = Some ErrInvalidMove ∧ e3 = None ∧
  length (st_Log s3) = 1%nat ∧
  ∃ s w, ReplaySeeded 1 coin (st_Log s3) 1 None 1 [] = (Ok (s, Some ErrInvalidMove), w).
Proof. vm_compute. split_and!; try done. by eexists _, _. Qed.
End coin.

(** ** The player plugin *)

(** The handle a move is given: a player, the match's records, and the other player of
    two.  The opponent's handle has no opponent. *)
Record PlayerAPI := mkPlayerAPI { pa_playerID : string; pa_data : nat; pa_Opponent : option (string * nat) }.

(** What the plugin needs of a game's values and memory: the maps of all matches, pointers
    to them and to handles.  A view holds a map of its own, which is only sent. *)
Class Tables (T : GoTypes) := {
  tables : world → list (gmap string any);
  set_tables : list (gmap string any) → world → world;
  data_val : nat → val;
  as_data : val → option nat;
  sent_val : gmap string any → val;
  api_val : PlayerAPI → val
}.

Class LawfulTables (T : GoTypes) `{!Tables T} : Prop := {
  tables_set : ∀ l w, tables (set_tables l w) = l;
  as_data_val : ∀ n, as_data (data_val n) = Some n
}.

Section player.
Context {T : GoTypes} `{!Tables T}.
Implicit Types (w : world) (a : PlayerAPI).

Record PlayerOptions := mkPlayerOptions {
  PlayerSetup : option (string → world → any * world);
  PlayerView_ : option (gmap string any → string → gmap string any)
}.

Definition defaultPlayerView (players : gmap string any) (playerID : string) : gmap string any :=
  if decide (playerID = "") then ∅
  else match players !! playerID with Some v => {[ playerID := v ]} | None => ∅ end.

Definition player_view_of (opts : PlayerOptions) : gmap string any → string → gmap string any :=
  default defaultPlayerView (PlayerView_ opts).

Fixpoint records_of (f : string → world → any * world) (ids : list string) (players : gmap string any) w : gmap string any * world :=
  match ids with
  | [] => (players, w)
  | pid :: ids => let '(v, w) := f pid w in records_of f ids (<[pid := v]> players) w
  end.

Definition player_Setup (opts : PlayerOptions) (G : any) (ctx : Ctx) w : any * world :=
  let '(players, w) := match PlayerSetup opts with
                       | None => (∅, w)
                       | Some f => records_of f (ctx_PlayOrder ctx) ∅ w
                       end in
  (Some (data_val (length (tables w))), set_tables (tables w ++ [players]) w).

(** The other seat: the first in the order that is not the player's. *)
Definition other_seat (ctx : Ctx) (playerID : string) : option string :=
  if decide (ctx_NumPlayers ctx = 2 ∧ playerID ≠ "") then head (filter (λ pid, pid ≠ playerID) (ctx_PlayOrder ctx)) else None.

(** Data that is not what [Setup] made, a map decoded from JSON say, fails the type
    assertion: the result is None, a panic. *)
Definition handle_of (raw : any) (ctx : Ctx) (playerID : string) : option PlayerAPI :=
  d ← raw ≫= as_data;
  Some (mkPlayerAPI playerID d ((λ pid, (pid, d)) <$> other_seat ctx playerID)).

Definition view_of (opts : PlayerOptions) (raw : any) (playerID : string) w : option (gmap string any) :=
  d ← raw ≫= as_data;
  (λ players, player_view_of opts players playerID) <$> tables w !! d.

(** The interface of plugins has no panics: nil stands for one. *)
Definition player_API (raw G : any) (ctx : Ctx) (playerID : string) w : any * world :=
  (api_val <$> handle_of raw ctx playerID, w).
Definition player_Flush (d api G : any) (ctx : Ctx) w : any * world := (d, w).
Definition player_hide (opts : PlayerOptions) (raw G : any) (ctx : Ctx) (playerID : string) w : any :=
  sent_val <$> view_of opts raw playerID w.

Definition player_plugin (opts : PlayerOptions) : Plugin :=
  mkPlugin "player" (Some (player_Setup opts)) (Some player_API) (Some player_Flush) None (Some (player_hide opts)) None None.

(** [a.Get()] and [a.Set(record)] *)
Definition Player_Get (a : PlayerAPI) : prog any := OpRead (λ w,
  match tables w !! pa_data a with Some t => Ret (mjoin (t !! pa_playerID a)) | None => Crash end).
Definition Player_Set (record : any) (a : PlayerAPI) : prog () := OpRead (λ w,
  match tables w !! pa_data a with
  | Some t => OpWrite (set_tables (<[pa_data a := <[pa_playerID a := record]> t]> (tables w)) w) (Ret tt)
  | None => Crash
  end).
Definition Opponent (a : PlayerAPI) : option PlayerAPI := (λ '(pid, d), mkPlayerAPI pid d None) <$> pa_Opponent a.
End player.

Section records.
Context {T : GoTypes} `{!Tables T, !LawfulTables T}.
Implicit Types (w : world) (a b : PlayerAPI).

(** What [Player_Get] reads. *)
Definition record a w : any := match tables w !! pa_data a with Some t => mjoin (t !! pa_playerID a) | None => None end.

Lemma Set_records v a c extra e e' : run c (Player_Set v a) extra e = (Ok (tt, extra), e') →
  ∀ b, record b (env_world e') = if decide (pa_data b = pa_data a ∧ pa_playerID b = pa_playerID a) then v else record b (env_world e).
Proof.
  unfold Player_Set. cbn [run]. destruct (tables (env_world e) !! pa_data a) as [t|] eqn:Ht; [|done]. cbn [run].
  intros [= <-] b. unfold record. destruct e. simpl in *. rewrite tables_set. pose proof (lookup_lt_Some _ _ _ Ht) as Hlt.
  destruct (decide (pa_data b = pa_data a)) as [Hd|Hd].
  - rewrite Hd, list_lookup_insert_eq, Ht by done. destruct (decide (pa_playerID b = pa_playerID a)) as [Hp|Hp].
    + by rewrite Hp, lookup_insert_eq, decide_True.
    + rewrite lookup_insert_ne by done. by rewrite decide_False by naive_solver.
  - rewrite list_lookup_insert_ne by done. by rewrite decide_False by naive_solver.
Qed.

Lemma records_of_made f ids players w : ∀ pid, pid ∈ ids →
  ∃ w1, (records_of f ids players w).1 !! pid = Some (f pid w1).1.
Proof.
  assert (Hkeep : ∀ ids players w pid v, pid ∉ ids → players !! pid = Some v → (records_of f ids players w).1 !! pid = Some v).
  { intros l. induction l as [|i l IH]; intros ps w0 pid v Hno Hps; [done|]. cbn. destruct (f i w0) as [u w1].
    apply not_elem_of_cons in Hno as [Hne Hno]. apply IH; [done|]. by rewrite lookup_insert_ne. }
  revert players w. induction ids as [|i ids IH]; intros players w pid Hin; [by apply not_elem_of_nil in Hin|].
  cbn. destruct (f i w) as [u w1] eqn:Hf. destruct (decide (pid ∈ ids)) as [Hi|Hi]; [by apply IH|].
  apply elem_of_cons in Hin as [->|?]; [|done]. exists w. rewrite Hf. apply Hkeep; [done|]. by rewrite lookup_insert_eq.
Qed.

(** In a match that was set up with the plugin every player's handle starts with the record
    made for that player, what a handle sets is what every handle of that player gets and
    no other handle does, and two players are each other's opponent. *)
Theorem handles_keep_their_records opts f G c w0 data w : PlayerSetup opts = Some f → player_Setup opts G c w0 = (data, w) →
  ∃ handle, (∀ G pid w', player_API data G c pid w' = (Some (api_val (handle pid)), w')) ∧
    (∀ pid, pid ∈ ctx_PlayOrder c → ∃ w1, record (handle pid) w = (f pid w1).1) ∧
    (∀ p q, ctx_PlayOrder c = [p; q] → ctx_NumPlayers c = 2 → p ≠ q → p ≠ "" → q ≠ "" →
      ∃ a b, Opponent (handle p) = Some a ∧ Opponent (handle q) = Some b ∧ ∀ w, record a w = record (handle q) w ∧ record b w = record (handle p) w) ∧
    ∀ v p c' extra e e', run c' (Player_Set v (handle p)) extra e = (Ok (tt, extra), e') →
      ∀ q, record (handle q) (env_world e') = if decide (q = p) then v else record (handle q) (env_world e).
Proof.
  intros Hf. unfold player_Setup. rewrite Hf. destruct (records_of f (ctx_PlayOrder c) ∅ w0) as [players w1] eqn:Hr.
  intros [= <- <-]. set (d := length (tables w1)).
  exists (λ pid, mkPlayerAPI pid d ((λ o, (o, d)) <$> other_seat c pid)). split; [|split; [|split]].
  - intros. unfold player_API, handle_of. simpl. by rewrite as_data_val.
  - intros pid Hpid. destruct (records_of_made f _ ∅ w0 pid Hpid) as [w2 Hw2]. exists w2. rewrite Hr in Hw2. simpl in Hw2.
    unfold record. simpl. rewrite tables_set, lookup_app_r by done. unfold d. rewrite Nat.sub_diag. simpl. by rewrite Hw2.
  - intros p q Hpq Hn Hne Hp Hq. exists (mkPlayerAPI q d None), (mkPlayerAPI p d None). unfold other_seat, Opponent. rewrite Hpq. simpl.
    rewrite !decide_True by done. rewrite !filter_cons.
    rewrite decide_False by (intros H; by apply H). rewrite (decide_True (P:=q ≠ p)) by done. simpl.
    rewrite (decide_True (P:=p ≠ q)) by done. done.
  - intros v p c' extra e e' Hrun q. rewrite (Set_records v _ c' extra e e' Hrun). simpl.
    destruct (decide (q = p)) as [->|Hn]; [by rewrite decide_True|by rewrite decide_False by naive_solver].
Qed.

(** Without a view of the game's own, what a seat is sent depends on that seat's record
    alone. *)
Theorem others_records_stay_hidden opts raw G c pid w w' d : PlayerView_ opts = None → raw = Some (data_val d) →
  length (tables w) = length (tables w') →
  (∀ t t', tables w !! d = Some t → tables w' !! d = Some t' → t !! pid = t' !! pid) →
  player_hide opts raw G c pid w = player_hide opts raw G c pid w'.
Proof.
  intros Hv -> Hlen Hsame. unfold player_hide, view_of, player_view_of. rewrite Hv. simpl. rewrite as_data_val. simpl.
  destruct (tables w !! d) as [t|] eqn:Ht, (tables w' !! d) as [t'|] eqn:Ht'; try done.
  - simpl. unfold defaultPlayerView. by rewrite (Hsame t t').
  - apply lookup_lt_Some in Ht. apply lookup_ge_None in Ht'. lia.
  - apply lookup_lt_Some in Ht'. apply lookup_ge_None in Ht. lia.
Qed.
End records.

(** ** A refused move that has set a record *)
Inductive purse_value : Type := VData (n : nat) | VHandle (a : PlayerAPI) | VSent (ps : list (string * Z)) | VNumber (z : Z).

#[local] Instance PurseTypes : GoTypes :=
  {| val := purse_value; world := list (gmap string (option purse_value)); val_true := VNumber 1; randref := Empty_set;
     as_Random := λ _, None |}.
#[local] Instance PurseTables : Tables PurseTypes :=
  {| tables := λ w : @world PurseTypes, w; set_tables := λ l _, l; data_val := VData : nat → @val PurseTypes;
     as_data := λ v : @val PurseTypes, match v with VData n => Some n | _ => None end;
     sent_val := λ m, VSent ((λ '(p, v), (p, match v with Some (VNumber z) => z | _ => 0 end)) <$> map_to_list m);
     api_val := VHandle : PlayerAPI → @val PurseTypes |}.

#[local] Instance purse_laws : LawfulTables PurseTypes.
Proof. done. Qed.

Definition purse_options : PlayerOptions := mkPlayerOptions (Some (λ _ w, (Some (VNumber 3), w))) None.

(** Takes a coin, and only then looks whether there was one. *)
Definition spend : MoveFn := λ mc _,
  match omap_get (mc_Plugins mc) "player" ≫= id with
  | Some (VHandle a) =>
      v ← Player_Get a;
      match v with
      | Some (VNumber z) => _ ← Player_Set (Some (VNumber (z - 5))) a;
                            if decide (5 ≤ z) then Ret (inr (mc_G mc)) else Ret (inl ErrInvalidMove)
      | _ => Crash
      end
  | _ => Crash
  end.

Definition purse : Game := mkGame "purse" 2 2 None {[ "spend" := EntryFn spend ]} None ∅
  None None None None None false [player_plugin purse_options].

Definition purse_start : State * world :=
  match NewMatchSeeded 1 purse 2 None 7 [] with
  | (Ok s, w) => (s, w)
  | (_, w) => (blank_state None (initial_ctx purse 2 "0" 7), w)
  end.

(** The move is refused and the state is given back, but the player's record, which the
    state points to, is changed, and so is what the player is sent. *)
Lemma refused_moves_change_records :
  let (s, w) := purse_start in
  match Apply 1 purse s (mkReq "0" "spend" [] 0 "" 0 false true) w with
  | (Ok (s', e), w') =>
      e = Some ErrInvalidMove ∧ s' = s ∧
      redactPluginData purse s "0" w = Some {[ "player" := Some (VSent [("0", 3)]) ]} ∧
      redactPluginData purse s' "0" w' = Some {[ "player" := Some (VSent [("0", -2)]) ]}
  | _ => False
  end.
Proof. vm_compute. split_and!; reflexivity. Qed.
