(* ===== verification/HookedMove.v ===== *)
(** * Games of one move a turn, with hooks

    As OneMove.v, for a game that also hooks into the beginning, the move and the end of
    each turn, and draws random numbers through the plugin. *)

From S2P Require Import Prelude CoreTypes Api GameDef Plugins Transitions Reducer Session OneMove PluginRandom.
From S2P Require Import Choices.
#[local] Open Scope Z_scope.

Section hooked_move.
Context {T : GoTypes} `{!Cells T, !LawfulCells T} (wild : SpecFloat.spec_float → Z) (game_seed : GoVal).
Implicit Types (G : any) (c : Ctx) (id : Z) (log : list LogEntry) (w : world).

Record hooked (game : Game) (name : string) (fn : MoveFn) (next : MoveContext → prog (option Z))
    (endif : MoveContext → prog any) (onBegin onMove onEnd : HookFn) : Prop := {
  hk_moves : gm_Moves game !! name = Some (EntryFn fn);
  hk_turn : ∃ order, gm_Turn game = Some (mkTurn order (Some onBegin) (Some onEnd) (Some onMove) None 1 1 0 None ∅) ∧
    to_Next (effective_order (gm_Turn game)) = Some next;
  hk_phases : gm_Phases game = ∅;
  hk_endif : gm_EndIf game = Some endif;
  hk_onend : gm_OnEnd game = None;
  hk_undo : gm_DisableUndo game = false;
  hk_plugins : gm_Plugins game = [random_plugin wild 0 game_seed]
}.

(** The plugin's data and API, for the cell [n] a generator [r] points at. *)
Context (n : nat) (r : randref) (Hr : as_Random (random_val n) = Some r).

Definition data : option (gmap string any) := Some {[ "random" := Some (cell_val n) ]}.
Definition apis : option (gmap string any) := Some {[ "random" := Some (random_val n) ]}.

(** A match between two moves. *)
Definition resting G c id log : State :=
  mkState G c id data log [] [] [] [] [] None None None None.

Definition mover_mc G c (player : string) : MoveContext :=
  mkMC G c player (Some r) (Some ctxBackground) apis true None [] 0.
Definition hooks_mc G c (player : string) (wired : bool) : MoveContext :=
  mkMC G c player (Some r) None apis wired None [] 0.
Definition henv w : hookEnv := mkEnv (Some []) (Some (mkQueue [] [])) (Some []) apis w.

Lemma attached G c player rnd ctx plugs wired block extra chained :
  attachPlugins apis (mkMC G c player rnd ctx plugs wired block extra chained) =
  mkMC G c player (Some r) ctx apis wired block extra chained.
Proof. unfold attachPlugins, apis, omap_get. simpl. rewrite lookup_singleton_eq. simpl. by rewrite Hr. Qed.

Context (game : Game) (name : string) (fn : MoveFn) (next : MoveContext → prog (option Z))
  (endif : MoveContext → prog any) (onBegin onMove onEnd : HookFn)
  (Hgame : hooked game name fn next endif onBegin onMove onEnd).

(** ** The plugin's part *)

Lemma hooked_apis (s : State) player w : st_Plugins s = data → buildAPIs game s player w = (Ok apis, w).
Proof.
  intros Hd. unfold buildAPIs, buildPluginAPIs. rewrite (hk_plugins _ _ _ _ _ _ _ _ Hgame). simpl.
  unfold api_one, pluginDataFor, data, omap_get in *. rewrite Hd. simpl. rewrite lookup_singleton_eq. simpl.
  unfold API. simpl. by rewrite as_cell_val.
Qed.

Lemma hooked_flush (s : State) mc e : st_Plugins s = data → flushPluginsM game s mc e = (Ok s, e).
Proof.
  intros Hd. unfold flushPluginsM, flushPlugins. rewrite (hk_plugins _ _ _ _ _ _ _ _ Hgame). simpl.
  unfold flush_one, pluginDataFor, put_plugin, alloc_plugins, omap_get. simpl. rewrite Hd. simpl.
  rewrite lookup_singleton_eq. simpl. rewrite insert_singleton_eq. destruct s, e. simpl in *. by subst.
Qed.

Lemma hooked_validate (s : State) e : validatePluginsM game s e = (Ok tt, e).
Proof. unfold validatePluginsM, validatePlugins. by rewrite (hk_plugins _ _ _ _ _ _ _ _ Hgame). Qed.

Lemma hooked_wrap_move f : applyFnWrapMove game f = f.
Proof. unfold applyFnWrapMove. by rewrite (hk_plugins _ _ _ _ _ _ _ _ Hgame). Qed.

Lemma hooked_wrap_hook h kind : applyFnWrapHook game h kind = h.
Proof. unfold applyFnWrapHook. by rewrite (hk_plugins _ _ _ _ _ _ _ _ Hgame). Qed.

(** ** Calls of game code *)

(** A computation of the game's, wired or not, leaves the queues alone. *)
Lemma hcall {A} (p : prog A) f mc w : memory_only p f → mc_extra mc = [] →
  call mc p (henv w) =
  (match (f w).1 with
   | Ok a => Ok (a, mc)
   | Err x => Err x
   | Panicked => Panicked
   | NoFuel => NoFuel
   end, henv (f w).2).
Proof.
  intros Hp Hx. unfold call. destruct (mc_Wired mc) eqn:Hw; rewrite Hp, Hx; simpl;
    (destruct (f w) as [[a|e| |] w']; try done; simpl; destruct mc; simpl in *; by subst).
Qed.

Lemma hdrain fuel (s : State) mc w : drainEvents (S fuel) game s mc (henv w) = (Ok (s, mc), henv w).
Proof. done. Qed.

Lemma fired (h : HookFn) kind player (s : State) f w g w' : memory_only (h (hooks_mc (st_G s) (st_Ctx s) player true)) f →
  f w = (Ok g, w') → fireHook game (Some h) kind player s (henv w) = (Ok (set_st_G g s), henv w').
Proof.
  intros Hp Hf. unfold fireHook. rewrite bind_eq. unfold env_mc. cbv beta iota.
  change (env_plugins (henv w)) with apis. rewrite attached. fold (hooks_mc (st_G s) (st_Ctx s) player true).
  rewrite bind_eq, hooked_wrap_hook, (hcall _ f) by done. rewrite Hf. cbn [fst snd].
  unfold mret at 1, ST_ret at 1, st_ret at 1. cbv beta iota. by rewrite flush_nothing.
Qed.

Lemma hooked_admitted G c id log args now client : waiting c →
  admit_request game (resting G c id log) (a_move name (ctx_CurrentPlayer c) args now client) =
  Ok (mkAdmission (resting G (set_ctx_NowMs now c) id log) (bareMove fn) None).
Proof.
  intros [Hp Ha Ho Hm]. destruct Hgame as [H1 H2 H3 H4 H5 H6 H7].
  destruct c as [np cur po pos turn ph act go nm nowc seed]. simpl in *. subst.
  unfold admit_request, admit_checks, consume_block, authorizedStage, resolveMove, scopeMoves. simpl.
  rewrite (decide_True (P := cur = cur)) by done. simpl. rewrite H1. by destruct client.
Qed.

Lemma hooked_scope : ∃ order, scopeTurn game "" = Some (mkTurn order (Some onBegin) (Some onEnd) (Some onMove) None 1 1 0 None ∅) ∧
  to_Next (effective_order (scopeTurn game "")) = Some next.
Proof.
  destruct Hgame as [_ (order & H2 & H2') _ _ _ _ _]. exists order. by unfold scopeTurn, phase_turn.
Qed.

(** ** The move *)

Definition made (name : string) (args : list any) (now : Z) G G' c id log : State :=
  mkState G' (set_ctx_NowMs now c) (id + 1) data (log ++ [entry_of name c args now]) []
    [resting G (set_ctx_NowMs now c) id log] [] [] [] None None None None.

Lemma hooked_run G c id log args now client w f : waiting c →
  let c' := set_ctx_NowMs now c in
  let mc := mover_mc G c' (ctx_CurrentPlayer c) in
  memory_only (fn mc args) f →
  run_move game (mkAdmission (resting G c' id log) (bareMove fn) None)
    (a_move name (ctx_CurrentPlayer c) args now client) mc (henv w) =
  (match (f w).1 with
   | Ok (inr G') => Ok (made name args now G G' c id log, set_mc_G G' mc)
   | Ok (inl e) => Err e
   | Err e => Err e
   | Panicked => Panicked
   | NoFuel => NoFuel
   end, henv (f w).2).
Proof.
  intros [Hp Ha Ho Hm] c' mc Hfn. unfold run_move, IsUndoable, IsRedacted, call_flag. rewrite bind_eq. simpl.
  rewrite bind_eq. simpl. rewrite bind_eq. simpl. rewrite bind_eq. rewrite hooked_wrap_move.
  rewrite (hcall _ f) by done. destruct (f w) as [[[e|G']|e| |] w']; try done. cbn [fst snd].
  rewrite (hk_undo _ _ _ _ _ _ _ _ Hgame). cbn [negb].
  rewrite bind_eq, hooked_flush by done. cbv beta iota. rewrite bind_eq, hooked_validate. cbv beta iota.
  unfold mret, ST_ret, st_ret. f_equal. f_equal. f_equal.
  destruct c as [np cur po pos turn ph act go nm nowc seed]. simpl in *. by subst.
Qed.

(** Turn.OnMove, and the count. *)
Definition marked (name : string) (args : list any) (now : Z) G G' c id log : State :=
  on_ctx (λ _, counted now c) (made name args now G G' c id log).

Lemma hooked_after G G1 c id log args now client w f G2 w' : waiting c →
  let mc := set_mc_G G1 (mover_mc G (set_ctx_NowMs now c) (ctx_CurrentPlayer c)) in
  memory_only (onMove mc) f → f w = (Ok G2, w') →
  after_move game (bareMove fn) (a_move name (ctx_CurrentPlayer c) args now client) (made name args now G G1 c id log) mc (henv w) =
  (Ok (marked name args now G G2 c id log, set_mc_G G2 mc), henv w').
Proof.
  intros [Hp Ha Ho Hm] mc Hf Hw. destruct hooked_scope as (order & Hs & _).
  unfold after_move. change (ctx_Phase (st_Ctx (made name args now G G1 c id log))) with (ctx_Phase c).
  rewrite Hp, Hs, bind_eq. change (Some _ ≫= tc_OnMove) with (Some onMove). cbv beta iota.
  rewrite bind_eq, hooked_wrap_hook, (hcall _ f) by done. rewrite Hw. cbn [fst snd mv_NoLimit bareMove].
  unfold mret, ST_ret, st_ret. cbv beta iota. unfold bumpStageMoveCount.
  destruct c as [np cur po pos turn ph act go nm nowc seed]. simpl in *. by subst.
Qed.

(** Game.EndIf *)
Lemma hooked_endif G G' c id log args now client w f res w' : waiting c →
  memory_only (endif (hooks_mc G' (counted now c) (ctx_CurrentPlayer c) true)) f → f w = (Ok res, w') →
  check_game_end game (a_move name (ctx_CurrentPlayer c) args now client) (marked name args now G G' c id log) (henv w) =
  (Ok (match res with
       | None => marked name args now G G' c id log
       | Some _ => on_ctx (set_ctx_Gameover res) (marked name args now G G' c id log)
       end), henv w').
Proof.
  intros [Hp Ha Ho Hm] Hf Hw. unfold check_game_end. rewrite (hk_endif _ _ _ _ _ _ _ _ Hgame).
  unfold not_over. change (ctx_Gameover _) with (ctx_Gameover c). rewrite Ho, bind_eq. unfold env_mc.
  cbv beta iota. change (env_plugins (henv w)) with apis. rewrite attached, bind_eq.
  change (mkMC (st_G (marked name args now G G' c id log)) _ _ _ _ _ _ _ _ _)
    with (hooks_mc G' (counted now c) (ctx_CurrentPlayer c) true).
  rewrite (hcall _ f) by done. rewrite Hw. cbn [fst snd]. destruct res; [|done].
  unfold runGameOnEnd. by rewrite (hk_onend _ _ _ _ _ _ _ _ Hgame).
Qed.

(** ** The end of the turn *)

Lemma hooked_endTurn G c id log un sn w endW G1 w1 nw k p w2 beginW G2 w3 :
  ctx_Phase c = "" → ctx_ActivePlayers c = None → ctx_Gameover c = None →
  let c2 := set_ctx_NumMoves 0 c in let pos := wrapped (ctx_PlayOrder c) k in
  let c3 := set_ctx_Turn (ctx_Turn c + 1) (set_ctx_CurrentPlayer p (set_ctx_PlayOrderPos pos c2)) in
  memory_only (onEnd (hooks_mc G c "" true)) endW → endW w = (Ok G1, w1) →
  memory_only (next (hooks_mc G1 c2 "" false)) nw → nw w1 = (Ok (Some k), w2) →
  go_index (ctx_PlayOrder c) pos = Some p →
  memory_only (onBegin (hooks_mc G1 c3 "" true)) beginW → beginW w2 = (Ok G2, w3) →
  endTurn game (mkState G c id data log un sn [] [] [] None None None None) "" (henv w) =
  (Ok (resting G2 c3 id log), henv w3).
Proof.
  intros Hp Ha Ho c2 pos c3 Hend Hendw Hnext Hnw Hgo Hbeg Hbegw.
  destruct hooked_scope as (order & Hs & Hto).
  set (s := mkState G c id data log un sn [] [] [] None None None None).
  unfold endTurn. change (st_Ctx s) with c. rewrite Hp, bind_eq, Hs.
  change (Some _ ≫= tc_OnEnd) with (Some onEnd).
  rewrite (fired onEnd GameMethodTurnOnEnd "" s endW w G1 w1) by done. cbv beta iota zeta.
  rewrite decide_True by done.
  assert (Hs2 : clear_undo (clear_turn_scoped (set_st_G G1 s)) = resting G1 c2 id log).
  { destruct c. simpl in *. by subst. }
  rewrite Hs2, bind_eq, <-Hs. unfold advancePlayOrderPos. cbv zeta.
  change (ctx_PlayOrder (st_Ctx (resting G1 c2 id log))) with (ctx_PlayOrder c). rewrite decide_False.
  2:{ intros Hnil. rewrite Hnil in Hgo. apply go_index_Some in Hgo as [Hgo _]. simpl in Hgo. lia. }
  rewrite bind_eq. unfold env_mcNoEvents at 1. cbv beta iota. change (env_plugins (henv w1)) with apis.
  rewrite attached, Hto, bind_eq.
  change (mkMC (st_G (resting G1 c2 id log)) _ _ _ _ _ _ _ _ _) with (hooks_mc G1 c2 "" false).
  rewrite (hcall _ nw) by done. rewrite Hnw. cbn [fst snd].
  fold (wrapped (ctx_PlayOrder c) k). fold pos.
  rewrite (seat_player _ p) by done. change (ctx_Gameover _) with (ctx_Gameover c). rewrite Ho. cbv beta iota.
  unfold applyActivePlayersFromTurn.
  match goal with |- context [runTurnOnBegin game ?x] => assert (Hx : x = resting G1 c3 id log) end.
  { change (ctx_Phase (st_Ctx _)) with (ctx_Phase c). rewrite Hp, Hs. done. }
  rewrite Hx. unfold runTurnOnBegin. change (ctx_Phase (st_Ctx (resting G1 c3 id log))) with (ctx_Phase c).
  rewrite Hp, Hs. change (Some _ ≫= tc_OnBegin) with (Some onBegin).
  by rewrite (fired onBegin GameMethodTurnOnBegin "" (resting G1 c3 id log) beginW w2 G2 w3).
Qed.

(** The request up to the rest of the engine's work. *)
Lemma hooked_pipeline fuel G c id log args now client w f G1 w1 mf G2 w2 (res : outcome error State) w' : waiting c →
  let mc := mover_mc G (set_ctx_NowMs now c) (ctx_CurrentPlayer c) in
  memory_only (fn mc args) f → f w = (Ok (inr G1), w1) →
  memory_only (onMove (set_mc_G G1 mc)) mf → mf w1 = (Ok G2, w2) →
  auto_ends game (bareMove fn) (a_move name (ctx_CurrentPlayer c) args now client)
    (marked name args now G G2 c id log) (henv w2) = (res, henv w') →
  (∀ s, res = Ok s → st_Blocks s = [] ∧ st_Queue s = []) →
  Apply (S fuel) game (resting G c id log) (a_move name (ctx_CurrentPlayer c) args now client) w =
  (match res with
   | Ok s => Ok (harvestQueue (set_st_Blocks [] s) (mkQueue [] []), None)
   | Err e => Ok (resting G c id log, Some e)
   | Panicked => Panicked
   | NoFuel => NoFuel
   end, w').
Proof.
  intros Hc mc Hfn Hf Hmf Hm Ha Hq. unfold Apply, ApplyContext. rewrite bind_eq.
  unfold st_try, applyExternal. rewrite bind_eq, hooked_admitted by done. unfold st_lift.
  cbv beta iota. rewrite bind_eq, hooked_apis by done.
  cbv beta iota. rewrite bind_eq. unfold in_env. fold (henv w). unfold move_pipeline. rewrite bind_eq.
  assert (Hmc : move_mc ctxBackground (mkAdmission (resting G (set_ctx_NowMs now c) id log) (bareMove fn) None)
    (a_move name (ctx_CurrentPlayer c) args now client) apis = mc).
  { unfold move_mc. cbv zeta. rewrite attached. done. }
  rewrite Hmc. cbn [ad_State ad_Move].
  pose proof (hooked_run G c id log args now client w f Hc Hfn) as HR. cbv zeta in HR. fold mc in HR.
  rewrite HR, Hf. cbn [fst snd].
  pose proof (hooked_after G G1 c id log args now client w1 mf G2 w2 Hc Hmf Hm) as HA. cbv zeta in HA. fold mc in HA.
  rewrite bind_eq, HA. cbv beta iota.
  rewrite bind_eq, hdrain. cbv beta iota. rewrite bind_eq. rewrite Ha.
  destruct res as [s|e| |]; [|done..]. cbv beta iota. rewrite bind_eq, hdrain. cbv beta iota.
  rewrite flush_nothing by done. unfold mret at 1, ST_ret at 1, st_ret at 1. cbv beta iota.
  destruct (Hq s eq_refl) as [Hb Hqu]. change (queue_of (henv w')) with (mkQueue [] []).
  change (drops_of (henv w')) with (@nil string). rewrite Hb.
  change (withoutBlocksFor [] []) with (@nil BlockSpec). rewrite bind_eq. unfold drainCascade.
  destruct s. simpl in *. subst. done.
Qed.

(** A move that does not end the game passes the turn, through the hooks. *)
Lemma hooked_continues fuel G c id log args now client w f G1 w1 mf G2 w2 ef w3 endW G3 w4 nw k p w5 beginW G4 w6 :
  waiting c →
  let mc := mover_mc G (set_ctx_NowMs now c) (ctx_CurrentPlayer c) in
  let pos := wrapped (ctx_PlayOrder c) k in
  memory_only (fn mc args) f → f w = (Ok (inr G1), w1) →
  memory_only (onMove (set_mc_G G1 mc)) mf → mf w1 = (Ok G2, w2) →
  memory_only (endif (hooks_mc G2 (counted now c) (ctx_CurrentPlayer c) true)) ef → ef w2 = (Ok None, w3) →
  memory_only (onEnd (hooks_mc G2 (counted now c) "" true)) endW → endW w3 = (Ok G3, w4) →
  memory_only (next (hooks_mc G3 (set_ctx_NowMs now c) "" false)) nw → nw w4 = (Ok (Some k), w5) →
  go_index (ctx_PlayOrder c) pos = Some p →
  memory_only (onBegin (hooks_mc G3 (next_turn now pos p c) "" true)) beginW → beginW w5 = (Ok G4, w6) →
  Apply (S fuel) game (resting G c id log) (a_move name (ctx_CurrentPlayer c) args now client) w =
  (Ok (resting G4 (next_turn now pos p c) (id + 1) (log ++ [entry_of name c args now]), None), w6).
Proof.
  intros Hc mc pos Hfn Hf Hmf Hm Hef He Hend Hendw Hnext Hnw Hgo Hbeg Hbegw. pose proof Hc as [Hp Ha Ho Hmv].
  rewrite (hooked_pipeline fuel G c id log args now client w f G1 w1 mf G2 w2
    (Ok (resting G4 (next_turn now pos p c) (id + 1) (log ++ [entry_of name c args now]))) w6);
    try done.
  - unfold auto_ends. rewrite bind_eq, (hooked_endif G G2 c id log args now client w2 ef None w3) by done.
    cbv beta iota. rewrite bind_eq. unfold unless_over, not_over.
    set (s := marked name args now G G2 c id log).
    change (ctx_Gameover (st_Ctx s)) with (ctx_Gameover c). rewrite Ho.
    unfold checkPhaseEndIf. change (ctx_Phase (st_Ctx s)) with (ctx_Phase c).
    rewrite Hp. rewrite decide_True by done. unfold mret at 1, ST_ret at 1, st_ret at 1. cbv beta iota.
    rewrite bind_eq. change (ctx_Gameover (st_Ctx s)) with (ctx_Gameover c).
    rewrite Ho. unfold mret at 1, ST_ret at 1, st_ret at 1. cbv beta iota.
    assert (autoEndStagesByMaxMoves s = s) as ->.
    { unfold autoEndStagesByMaxMoves. change (ctx_ActivePlayers (st_Ctx s)) with (ctx_ActivePlayers c). by rewrite Ha. }
    change (ctx_Gameover (st_Ctx s)) with (ctx_Gameover c). rewrite Ho.
    unfold checkTurnAutoEnd. change (ctx_Phase (st_Ctx s)) with (ctx_Phase c). destruct hooked_scope as (order & Hs & _).
    rewrite Hp, Hs. rewrite bind_eq. cbn [tc_EndIf tc_MaxMoves mv_NoLimit bareMove].
    unfold mret at 1, ST_ret at 1, st_ret at 1. cbv beta iota.
    change (ctx_NumMoves (st_Ctx s)) with 1. rewrite decide_True by (split_and!; done || lia).
    assert (Hc2 : set_ctx_NumMoves 0 (counted now c) = set_ctx_NowMs now c).
    { destruct c. simpl in *. by subst. }
    change s with (mkState G2 (counted now c) (id + 1) data (log ++ [entry_of name c args now]) []
      [resting G (set_ctx_NowMs now c) id log] [] [] [] None None None None).
    rewrite (hooked_endTurn G2 (counted now c) (id + 1) _ _ _ w3 endW G3 w4 nw k p w5 beginW G4 w6); try done.
    + by rewrite Hc2.
    + by rewrite Hc2.
    + rewrite Hc2. exact Hbeg.
  - by intros s [= <-].
Qed.

(** A move that ends the game stops there. *)
Lemma hooked_ends fuel G c id log args now client w f G1 w1 mf G2 w2 ef v w3 : waiting c →
  let mc := mover_mc G (set_ctx_NowMs now c) (ctx_CurrentPlayer c) in
  memory_only (fn mc args) f → f w = (Ok (inr G1), w1) →
  memory_only (onMove (set_mc_G G1 mc)) mf → mf w1 = (Ok G2, w2) →
  memory_only (endif (hooks_mc G2 (counted now c) (ctx_CurrentPlayer c) true)) ef → ef w2 = (Ok (Some v), w3) →
  Apply (S fuel) game (resting G c id log) (a_move name (ctx_CurrentPlayer c) args now client) w =
  (Ok (on_ctx (set_ctx_Gameover (Some v)) (marked name args now G G2 c id log), None), w3).
Proof.
  intros Hc mc Hfn Hf Hmf Hm Hef He.
  rewrite (hooked_pipeline fuel G c id log args now client w f G1 w1 mf G2 w2
    (Ok (on_ctx (set_ctx_Gameover (Some v)) (marked name args now G G2 c id log))) w3); try done.
  - unfold auto_ends. by rewrite bind_eq, (hooked_endif G G2 c id log args now client w2 ef (Some v) w3).
  - by intros s [= <-].
Qed.

(** A move the game refuses changes nothing but the memory. *)
Lemma hooked_refused fuel G c id log args now client w f e w1 : waiting c →
  memory_only (fn (mover_mc G (set_ctx_NowMs now c) (ctx_CurrentPlayer c)) args) f → f w = (Ok (inl e), w1) →
  Apply (S fuel) game (resting G c id log) (a_move name (ctx_CurrentPlayer c) args now client) w =
  (Ok (resting G c id log, Some e), w1).
Proof.
  intros Hc Hfn Hf. unfold Apply, ApplyContext. rewrite bind_eq.
  unfold st_try, applyExternal. rewrite bind_eq, hooked_admitted by done. unfold st_lift.
  cbv beta iota. rewrite bind_eq, hooked_apis by done.
  cbv beta iota. rewrite bind_eq. unfold in_env. fold (henv w). unfold move_pipeline. rewrite bind_eq.
  assert (Hmc : move_mc ctxBackground (mkAdmission (resting G (set_ctx_NowMs now c) id log) (bareMove fn) None)
    (a_move name (ctx_CurrentPlayer c) args now client) apis = mover_mc G (set_ctx_NowMs now c) (ctx_CurrentPlayer c)).
  { unfold move_mc. cbv zeta. rewrite attached. done. }
  rewrite Hmc. cbn [ad_State ad_Move].
  rewrite (hooked_run G c id log args now client w f) by done. by rewrite Hf.
Qed.

(** ** Requests the engine itself refuses *)

Lemma not_admitted fuel (s : State) req w e : admit_request game s req = Err e →
  Apply (S fuel) game s req w = (Ok (s, Some e), w).
Proof.
  intros H. unfold Apply, ApplyContext. rewrite bind_eq. unfold st_try, applyExternal. by rewrite bind_eq, H.
Qed.

Lemma over_not_admitted (s : State) v req : ctx_Gameover (st_Ctx s) = Some v →
  admit_request game s req = Err ErrGameOver.
Proof. intros H. unfold admit_request, not_over. by rewrite H. Qed.

(** A player who is not on turn, or a move the game has not. *)
Lemma foreign_not_admitted G c id log other player args now client : waiting c →
  (gm_Moves game !! other = None ∨ player ≠ ctx_CurrentPlayer c ∧ ∃ fn, gm_Moves game !! other = Some (EntryFn fn)) →
  ∃ e, admit_request game (resting G c id log) (a_move other player args now client) = Err e.
Proof.
  intros [Hp Ha Ho Hm] Hq. pose proof (hk_phases _ _ _ _ _ _ _ _ Hgame) as Hph.
  destruct c as [np cur po pos turn ph act go nm nowc seed]. simpl in *. subst.
  unfold admit_request, admit_checks, consume_block, authorizedStage, resolveMove, scopeMoves. simpl.
  destruct Hq as [Hno|[Hne [f Hf]]].
  - rewrite Hno. destruct (decide (player = cur)); by eexists.
  - rewrite (decide_False (P := player = cur)) by done. simpl. rewrite Hf. destruct client; by eexists.
Qed.

(** ** A new match *)

Lemma hooked_new fuel np sdata seed w k pid0 f G w1 first fw pos p w3 beginW G1 w4 :
  PlayerCount game np = k → go_index (defaultPlayOrder k) 0 = Some pid0 → gm_Setup game = Some f →
  let c0 := initial_ctx game k pid0 seed in f c0 sdata w = (G, w1) →
  n = length (cells w1) →
  let w2 := set_cells (cells w1 ++ [resolveSeed wild 0 game_seed seed]) w1 in
  to_First (effective_order (gm_Turn game)) = Some first →
  to_PlayOrder (effective_order (gm_Turn game)) = None →
  memory_only (first (hooks_mc G c0 "" false)) fw → fw w2 = (Ok pos, w3) →
  go_index (defaultPlayOrder k) pos = Some p →
  let c1 := set_ctx_CurrentPlayer p (set_ctx_PlayOrderPos pos c0) in
  memory_only (onBegin (hooks_mc G c1 "" true)) beginW → beginW w3 = (Ok G1, w4) →
  NewMatchSeeded (S fuel) game np sdata seed w = (Ok (resting G1 c1 0 []), w4).
Proof.
  intros Hk H0 Hset c0 Hf Hn w2 Hfirst Hpo Hfw Hpos Hp c1 Hbeg Hbw. unfold NewMatchSeeded. rewrite bind_eq.
  unfold NewMatchSeededE. rewrite Hk. cbv zeta. rewrite bind_eq, H0. unfold st_some at 1, st_ret at 1.
  cbv beta iota. fold c0. rewrite bind_eq. unfold run_setup. rewrite Hset, Hf. cbv beta iota.
  rewrite bind_eq. unfold run_plugin_setup.
  assert (HS : runPluginSetup game (blank_state G c0) w1 = (resting G c0 0 [], w2)).
  { unfold runPluginSetup. rewrite (hk_plugins _ _ _ _ _ _ _ _ Hgame). simpl. unfold setup_one. simpl.
    rewrite <-Hn. unfold put_plugin, alloc_plugins, resting, data. simpl. done. }
  rewrite HS. cbv beta iota. rewrite bind_eq, hooked_apis by done. cbv beta iota. rewrite bind_eq. unfold in_env.
  fold (henv w2). unfold setup_pipeline.
  assert (Hph : ctx_Phase c0 = "").
  { unfold c0, initial_ctx, startPhase, start_names. simpl. by rewrite (hk_phases _ _ _ _ _ _ _ _ Hgame). }
  rewrite bind_eq. unfold env_mcNoEvents. cbv beta iota. change (env_plugins (henv w2)) with apis. rewrite attached.
  rewrite bind_eq. change (mkMC (st_G (resting G c0 0 [])) _ _ _ _ _ _ _ _ _) with (hooks_mc G c0 "" false).
  assert (HA : applyTurnOrderFirst game (resting G c0 0 []) (hooks_mc G c0 "" false) (henv w2) =
    (Ok (resting G c1 0 []), henv w3)).
  { unfold applyTurnOrderFirst. cbv zeta. change (ctx_Phase (st_Ctx (resting G c0 0 []))) with (ctx_Phase c0).
    rewrite Hph. change (scopeTurn game "") with (gm_Turn game). rewrite Hpo, Hfirst.
    rewrite bind_eq. unfold mret at 1, ST_ret at 1, st_ret at 1. cbv beta iota.
    rewrite bind_eq, bind_eq. rewrite (hcall _ fw) by done. rewrite Hpos. cbn [fst snd].
    unfold mret at 1, ST_ret at 1, st_ret at 1. cbv beta iota.
    change (ctx_PlayOrder _) with (defaultPlayOrder k). rewrite decide_False.
    2:{ intros Hnil. by rewrite Hnil in H0. }
    by rewrite (seat_player _ p). }
  rewrite HA. cbv beta iota. rewrite bind_eq. destruct hooked_scope as (order & Hs & _).
  assert (HB : applyActivePlayersFromTurn game (resting G c1 0 []) = resting G c1 0 []).
  { unfold applyActivePlayersFromTurn. change (ctx_Phase _) with (ctx_Phase c0). by rewrite Hph, Hs. }
  rewrite HB. unfold runPhaseOnBegin. change (ctx_Phase (st_Ctx (resting G c1 0 []))) with (ctx_Phase c0).
  rewrite Hph, decide_True by done. unfold mret at 1, ST_ret at 1, st_ret at 1. cbv beta iota.
  rewrite bind_eq. unfold runTurnOnBegin. change (ctx_Phase (st_Ctx (resting G c1 0 []))) with (ctx_Phase c0).
  rewrite Hph, Hs. change (Some _ ≫= tc_OnBegin) with (Some onBegin).
  rewrite (fired onBegin GameMethodTurnOnBegin "" (resting G c1 0 []) beginW w3 G1 w4) by done.
  cbv beta iota. rewrite bind_eq. unfold env_mc. cbv beta iota. rewrite bind_eq, hdrain. cbv beta iota.
  rewrite hooked_flush by done. done.
Qed.
End hooked_move.
