(* ===== verification/LoveLetter.v ===== *)
(** * Love Letter

    [src/games/loveletter/loveletter.go]: sixteen cards, hidden hands, elimination,
    rounds and tokens.  Moves and hooks work on a copy of the state, so the state is a
    value; only the random stream lives in the memory. *)

From S2P Require Import Prelude CoreTypes Api GameDef Choices Floats Cards PluginRandom.
From S2P Require Random.
#[local] Open Scope Z_scope.

(** ** Data *)

Definition Card : Type := Z.
Definition CardNone : Card := 0.
Definition CardGuard : Card := 1.
Definition CardPriest : Card := 2.
Definition CardBaron : Card := 3.
Definition CardHandmaid : Card := 4.
Definition CardPrince : Card := 5.
Definition CardKing : Card := 6.
Definition CardCountess : Card := 7.
Definition CardPrincess : Card := 8.

Record PlayerState := mkPlayer {
  Hand : list Card;
  Discard : list Card;
  Tokens : Z;
  Alive : bool;
  Protected : bool;
  SeenLastPriest : gmap string Card
}.

Record State := mkLetter {
  Players : gmap string PlayerState;
  Deck : list Card;
  Burned : Card;
  Round : Z;
  NextStarter : string;
  NewRound : bool;
  RoundWinners : list string;
  MatchOver : bool;
  MatchWinners : list string;
  TokensToWin : Z
}.

Definition set_Hand v (p : PlayerState) := mkPlayer v (Discard p) (Tokens p) (Alive p) (Protected p) (SeenLastPriest p).
Definition set_Discard v (p : PlayerState) := mkPlayer (Hand p) v (Tokens p) (Alive p) (Protected p) (SeenLastPriest p).
Definition set_Tokens v (p : PlayerState) := mkPlayer (Hand p) (Discard p) v (Alive p) (Protected p) (SeenLastPriest p).
Definition set_Alive v (p : PlayerState) := mkPlayer (Hand p) (Discard p) (Tokens p) v (Protected p) (SeenLastPriest p).
Definition set_Protected v (p : PlayerState) := mkPlayer (Hand p) (Discard p) (Tokens p) (Alive p) v (SeenLastPriest p).
Definition set_Seen v (p : PlayerState) := mkPlayer (Hand p) (Discard p) (Tokens p) (Alive p) (Protected p) v.

Definition set_Players v (s : State) := mkLetter v (Deck s) (Burned s) (Round s) (NextStarter s) (NewRound s)
  (RoundWinners s) (MatchOver s) (MatchWinners s) (TokensToWin s).
Definition set_Deck v (s : State) := mkLetter (Players s) v (Burned s) (Round s) (NextStarter s) (NewRound s)
  (RoundWinners s) (MatchOver s) (MatchWinners s) (TokensToWin s).
Definition set_Burned v (s : State) := mkLetter (Players s) (Deck s) v (Round s) (NextStarter s) (NewRound s)
  (RoundWinners s) (MatchOver s) (MatchWinners s) (TokensToWin s).
Definition set_Round v (s : State) := mkLetter (Players s) (Deck s) (Burned s) v (NextStarter s) (NewRound s)
  (RoundWinners s) (MatchOver s) (MatchWinners s) (TokensToWin s).
Definition set_flip starter new (s : State) := mkLetter (Players s) (Deck s) (Burned s) (Round s) starter new
  (RoundWinners s) (MatchOver s) (MatchWinners s) (TokensToWin s).
Definition set_RoundWinners v (s : State) := mkLetter (Players s) (Deck s) (Burned s) (Round s) (NextStarter s)
  (NewRound s) v (MatchOver s) (MatchWinners s) (TokensToWin s).
Definition set_match over winners (s : State) := mkLetter (Players s) (Deck s) (Burned s) (Round s) (NextStarter s)
  (NewRound s) (RoundWinners s) over winners (TokensToWin s).

(** What it exchanges with the engine: states, plain values, its results, and the
    random plugin's cell and generator. *)
Inductive value : Type :=
  | VState (s : State)
  | VGo (v : GoVal)
  | VWinner (player : string)
  | VWinners (players : list string)
  | VCell (n : nat)
  | VJson (f : SpecFloat.spec_float)
  | VRandom (n : nat).

#[export] Instance LoveLetterTypes : GoTypes :=
  {| val := value; world := list Z; val_true := VGo (GoBool true); randref := nat;
     as_Random := λ v, match v with VRandom n => Some n | _ => None end |}.

#[export] Instance LoveLetterCells : Cells LoveLetterTypes :=
  {| cells := λ w : @world LoveLetterTypes, w; set_cells := λ l _, l;
     cell_val := VCell : nat → @val LoveLetterTypes;
     as_cell := λ v : @val LoveLetterTypes, match v with VCell n => Some n | _ => None end;
     as_json := λ v : @val LoveLetterTypes, match v with VJson f => Some f | _ => None end;
     random_val := VRandom : nat → @val LoveLetterTypes; ref_cell := λ n : @randref LoveLetterTypes, n |}.

#[export] Instance LoveLetterCells_lawful : LawfulCells LoveLetterTypes.
Proof. split; try done. intros n. by exists n. Qed.

(** ** Setup *)

Definition tokensToWin (numPlayers : Z) : Z :=
  if decide (numPlayers = 2) then 7
  else if decide (numPlayers = 3) then 5
  else if decide (numPlayers = 4) then 4
  else 4.

Definition freshDeck : list Card :=
  replicate 5 CardGuard ++ replicate 2 CardPriest ++ replicate 2 CardBaron ++ replicate 2 CardHandmaid ++
  replicate 2 CardPrince ++ [CardKing] ++ [CardCountess] ++ [CardPrincess].

(** The loop is the engine's shuffle over a generator of its own. *)
Definition deterministicShuffle (l : list Card) (seed : Z) : list Card := (Random.shuffle seed l).2.

(** [deck[0]] and [deck = deck[1:]]: taking a card. *)
Definition take_card {E} (deck : list Card) : outcome E (Card * list Card) :=
  match deck with
  | [] => Panicked
  | c :: deck => Ok (c, deck)
  end.

(** One card for each seat, in order; [give] says how a seat receives it. *)
Fixpoint deal {E} (give : Card → option PlayerState → outcome E PlayerState) (order : list string)
    (players : gmap string PlayerState) (deck : list Card) : outcome E (gmap string PlayerState * list Card) :=
  match order with
  | [] => Ok (players, deck)
  | pid :: order =>
      '(c, deck) ← take_card deck;
      p ← give c (players !! pid);
      deal give order (<[pid := p]> players) deck
  end.

Definition newcomer : PlayerState := mkPlayer [] [] 0 true false ∅.

Definition first_hand {E} (c : Card) (p : option PlayerState) : outcome E PlayerState :=
  match p with Some p => Ok (set_Hand [c] p) | None => Panicked end.

Definition initial {E} (numPlayers : Z) (order : list string) : outcome E State :=
  let players := fold_left (λ m pid, <[pid := newcomer]> m) order ∅ in
  let deck := deterministicShuffle freshDeck (Random.u64 (Random.u64 (Random.u64 numPlayers * 0x9E3779B97F4A7C15) + 1)) in
  '(burned, deck) ← take_card deck;
  '(players, deck) ← deal first_hand order players deck;
  Ok (mkLetter players deck burned 1 "" false [] false [] (tokensToWin numPlayers)).

(** A table too large for the deck panics; here it leaves no state behind. *)
Definition setup (ctx : Ctx) (data : any) (w : world) : any * world :=
  match initial (E := error) (ctx_NumPlayers ctx) (ctx_PlayOrder ctx) with
  | Ok s => (Some (VState s), w)
  | _ => (None, w)
  end.

(** ** Helpers of the moves *)

Definition toInt (v : any) : option Z :=
  match v with
  | Some (VGo (GoInt "" KInt n)) => Some n
  | Some (VGo (GoInt "" KInt32 n)) => Some n
  | Some (VGo (GoInt "" KInt64 n)) => Some n
  | Some (VGo (GoInt "loveletter.Card" KInt n)) => Some n
  | Some (VGo (GoFloat "" f)) => Some (int_of_float f)
  | Some (VGo (GoFloat "float32" f)) => Some (int_of_float f)
  | _ => None
  end.

Definition toString (v : any) : option string :=
  match v with Some (VGo (GoString s)) => Some s | _ => None end.

Definition ErrInvalidTarget : error := ErrGameCode "invalid target".

(** [s.Players[pid]], dereferenced. *)
Definition player {E} (s : State) (pid : string) : outcome E PlayerState :=
  match Players s !! pid with Some p => Ok p | None => Panicked end.

Definition put (pid : string) (p : PlayerState) (s : State) : State := set_Players (<[pid := p]> (Players s)) s.

Definition holds (hand : list Card) (c : Card) : bool := bool_decide (c ∈ hand).

Definition requireCountessNotForced (s : State) (actor : string) (card : Card) : outcome error () :=
  if decide (card ≠ CardPrince ∧ card ≠ CardKing) then Ok tt
  else
    p ← player s actor;
    if holds (Hand p) CardCountess && (holds (Hand p) CardPrince || holds (Hand p) CardKing)
    then Err ErrInvalidMove else Ok tt.

Definition preflightTargeted (s : State) (actor target : string) (card : Card) (allowSelf : bool) : outcome error () :=
  _ ← requireCountessNotForced s actor card;
  match Players s !! actor with
  | None => Err ErrInvalidMove
  | Some a =>
      if negb (Alive a) then Err ErrInvalidMove
      else if negb (holds (Hand a) card) then Err ErrInvalidMove
      else match Players s !! target with
           | None => Err ErrInvalidTarget
           | Some t =>
               if negb (Alive t) then Err ErrInvalidTarget
               else if bool_decide (target = actor) && negb allowSelf then Err ErrInvalidTarget
               else Ok tt
           end
  end.

Definition discardActor (s : State) (actor : string) (card : Card) : outcome error State :=
  p ← player s actor;
  match find_index (λ h, bool_decide (h = card)) (Hand p) with
  | None => Err ErrInvalidMove
  | Some i => Ok (put actor (set_Discard (Discard p ++ [card]) (set_Hand (remove_at i (Hand p)) p)) s)
  end.

Definition eliminate (s : State) (pid : string) : State :=
  match Players s !! pid with
  | None => s
  | Some p =>
      if Alive p then
        put pid (set_Hand [] (set_Discard (Discard p ++ Hand p) (set_Alive false p))) s
      else s
  end.

Definition isHandmaidImmune (s : State) (target : string) : bool :=
  match Players s !! target with Some t => Protected t | None => false end.

(** ** Moves *)

(** Guard, Priest, Baron, Prince and King up to their effect. *)
Definition aim (s : State) (actor target : string) (card : Card) (allowSelf : bool) : outcome error State :=
  _ ← preflightTargeted s actor target card allowSelf; discardActor s actor card.

Definition guard (actor target : string) (named : Card) (s : State) : outcome error State :=
  if decide (named = CardGuard ∨ named < CardPriest ∨ CardPrincess < named) then Err ErrInvalidMove
  else
    s ← aim s actor target CardGuard false;
    if isHandmaidImmune s target then Ok s
    else
      t ← player s target;
      if decide (head (Hand t) = Some named) then Ok (eliminate s target) else Ok s.

Definition priest (actor target : string) (s : State) : outcome error State :=
  s ← aim s actor target CardPriest false;
  if isHandmaidImmune s target then Ok s
  else
    t ← player s target;
    match Hand t with
    | [] => Ok s
    | c :: _ => a ← player s actor; Ok (put actor (set_Seen (<[target := c]> (SeenLastPriest a)) a) s)
    end.

Definition baron (actor target : string) (s : State) : outcome error State :=
  s ← aim s actor target CardBaron false;
  if isHandmaidImmune s target then Ok s
  else
    a ← player s actor;
    t ← player s target;
    match Hand a, Hand t with
    | x :: _, y :: _ =>
        if decide (y < x) then Ok (eliminate s target)
        else if decide (x < y) then Ok (eliminate s actor)
        else Ok s
    | _, _ => Ok s
    end.

Definition handmaid (actor : string) (s : State) : outcome error State :=
  _ ← requireCountessNotForced s actor CardHandmaid;
  s ← discardActor s actor CardHandmaid;
  p ← player s actor;
  Ok (put actor (set_Protected true p) s).

(** The replacement for the hand a Prince discards: from the deck, then the burned
    card, or none. *)
Definition redraw (s : State) (target : string) (t : PlayerState) : State :=
  match Deck s with
  | c :: deck => put target (set_Hand [c] t) (set_Deck deck s)
  | [] => if decide (Burned s ≠ CardNone) then put target (set_Hand [Burned s] t) (set_Burned CardNone s)
          else s
  end.

Definition prince (actor target : string) (s : State) : outcome error State :=
  s ← aim s actor target CardPrince true;
  if bool_decide (target ≠ actor) && isHandmaidImmune s target then Ok s
  else
    t ← player s target;
    match Hand t with
    | [] => Ok s
    | discarded :: _ =>
        let t := set_Discard (Discard t ++ [discarded]) (set_Hand [] t) in
        let s := put target t s in
        if decide (discarded = CardPrincess) then Ok (eliminate s target)
        else Ok (redraw s target t)
    end.

Definition king (actor target : string) (s : State) : outcome error State :=
  s ← aim s actor target CardKing false;
  if isHandmaidImmune s target then Ok s
  else
    a ← player s actor;
    t ← player s target;
    Ok (put target (set_Hand (Hand a) t) (put actor (set_Hand (Hand t) a) s)).

Definition countess (actor : string) (s : State) : outcome error State := discardActor s actor CardCountess.

Definition princess (actor : string) (s : State) : outcome error State :=
  s ← discardActor s actor CardPrincess; Ok (eliminate s actor).

(** A move function around one of these. *)
Definition as_move (parse : list any → option (string → State → outcome error State)) : MoveFn := λ mc args,
  match parse args with
  | None => Ret (inl ErrInvalidMove)
  | Some f =>
      match mc_G mc with
      | Some (VState s) =>
          match f (mc_PlayerID mc) s with
          | Ok s => Ret (inr (Some (VState s)))
          | Err e => Ret (inl e)
          | _ => Crash
          end
      | _ => Crash
      end
  end.

(** The target and the card named. *)
Definition target_arg (args : list any) : option string :=
  match args with target :: _ => toString target | [] => None end.

Definition guard_args (args : list any) : option (string * Card) :=
  match args with
  | target :: named :: _ => t ← toString target; n ← toInt named; Some (t, n)
  | _ => None
  end.

Definition playGuard : MoveFn := as_move (λ args, '(target, named) ← guard_args args; Some (λ p, guard p target named)).
Definition playPriest : MoveFn := as_move (λ args, target ← target_arg args; Some (λ p, priest p target)).
Definition playBaron : MoveFn := as_move (λ args, target ← target_arg args; Some (λ p, baron p target)).
Definition playHandmaid : MoveFn := as_move (λ _, Some handmaid).
Definition playPrince : MoveFn := as_move (λ args, target ← target_arg args; Some (λ p, prince p target)).
Definition playKing : MoveFn := as_move (λ args, target ← target_arg args; Some (λ p, king p target)).
Definition playCountess : MoveFn := as_move (λ _, Some countess).
Definition playPrincess : MoveFn := as_move (λ _, Some princess).

(** ** Hooks *)

(** [cloneState] then [turnOnBegin] on the copy. *)
Definition begin_turn (pid : string) (s : State) : State :=
  let s := set_flip (NextStarter s) false s in
  match Players s !! pid with
  | None => s
  | Some p =>
      let p := set_Protected false p in
      match Deck s with
      | [] => put pid p s
      | c :: deck => put pid (set_Hand (Hand p ++ [c]) p) (set_Deck deck s)
      end
  end.

Definition turnOnBegin : HookFn := λ mc,
  match mc_G mc with
  | Some (VState s) => Ret (Some (VState (begin_turn (ctx_CurrentPlayer (mc_Ctx mc)) s)))
  | _ => Crash
  end.

(** [s.Players[pid].Alive], for each seat of the order. *)
Fixpoint aliveSeats {E} (s : State) (order : list string) : outcome E (list string) :=
  match order with
  | [] => Ok []
  | pid :: order =>
      p ← player s pid;
      rest ← aliveSeats s order;
      Ok (if Alive p then pid :: rest else rest)
  end.

Definition first_card (s : State) (pid : string) : option Card :=
  match Players s !! pid with Some p => head (Hand p) | None => None end.

Definition higher (s : State) (highest : Z) (pid : string) : Z :=
  match first_card s pid with
  | Some c => if decide (highest < c) then c else highest
  | None => highest
  end.

Definition highest_card (s : State) (alive : list string) : Card := fold_left (higher s) alive 0.

(** Insertion, in the order of the seat ids' bytes. *)
Fixpoint insert_string (x : string) (l : list string) : list string :=
  match l with
  | [] => [x]
  | y :: l => if String.leb x y then x :: y :: l else y :: insert_string x l
  end.

Definition sort_strings (l : list string) : list string := foldr insert_string [] l.

Definition determineRoundWinners (s : State) (alive : list string) : list string :=
  match alive with
  | [_] => alive
  | _ =>
      let highest := highest_card s alive in
      sort_strings (filter (λ pid, first_card s pid = Some highest) alive)
  end.

Definition give_token (s : State) (pid : string) : State :=
  match Players s !! pid with Some p => put pid (set_Tokens (Tokens p + 1) p) s | None => s end.

(** The seats that have reached the threshold. *)
Fixpoint arrived {E} (s : State) (order : list string) : outcome E (list string) :=
  match order with
  | [] => Ok []
  | pid :: order =>
      p ← player s pid;
      rest ← arrived s order;
      Ok (if decide (TokensToWin s ≤ Tokens p) then pid :: rest else rest)
  end.

Definition after_move {E} (order : list string) (s : State) : outcome E State :=
  alive ← aliveSeats s order;
  if decide (1 < Z.of_nat (length alive) ∧ Deck s ≠ []) then Ok s
  else
    let winners := determineRoundWinners s alive in
    let s := set_RoundWinners winners (fold_left give_token winners s) in
    arr ← arrived s order;
    let won := MatchWinners s ++ arr in
    if decide (won ≠ []) then Ok (set_match true won s)
    else
      match winners with
      | w :: _ => Ok (set_flip w true (set_match (MatchOver s) won s))
      | [] => Panicked
      end.

Definition turnOnMove : HookFn := λ mc,
  match mc_G mc with
  | Some (VState s) =>
      match after_move (E := error) (ctx_PlayOrder (mc_Ctx mc)) s with
      | Ok s => Ret (Some (VState s))
      | _ => Crash
      end
  | _ => Crash
  end.

Definition new_hand {E} (c : Card) (p : option PlayerState) : outcome E PlayerState :=
  match p with Some p => Ok (mkPlayer [c] [] (Tokens p) true false ∅) | None => Panicked end.

(** The round dealt from a shuffled deck. *)
Definition dealt {E} (order : list string) (deck : list Card) (s : State) : outcome E State :=
  '(burned, deck) ← take_card deck;
  '(players, deck) ← deal new_hand order (Players s) deck;
  Ok (set_Players players (set_Deck deck (set_Burned burned s))).

Definition resetRound (s : State) (mc : MoveContext) : prog State :=
  deck ← (match mc_Random mc with
          | Some r => Shuffled r freshDeck
          | None => Ret (deterministicShuffle freshDeck (Random.u64 (Random.u64 (Round s) * 0xBF58476D1CE4E5B9)))
          end);
  match dealt (E := error) (ctx_PlayOrder (mc_Ctx mc)) deck s with
  | Ok s => Ret s
  | _ => Crash
  end.

Definition turnOnEnd : HookFn := λ mc,
  match mc_G mc with
  | Some (VState s) =>
      if negb (NewRound s) || MatchOver s then Ret (Some (VState s))
      else s ← resetRound (set_Round (Round s + 1) s) mc; Ret (Some (VState s))
  | _ => Crash
  end.

(** The next living seat after [pos], at most [n] places on; [i] is the distance. *)
Fixpoint next_alive {E} (s : State) (order : list string) (numPlayers pos : Z) (n : nat) (i : Z)
    : outcome E (option Z) :=
  match n with
  | O => Ok None
  | S n =>
      let at_ := Z.rem (pos + i) numPlayers in
      match go_index order at_ with
      | None => Panicked
      | Some pid =>
          p ← player s pid;
          if Alive p then Ok (Some at_) else next_alive s order numPlayers pos n (i + 1)
      end
  end.

Definition next_turn {E} (numPlayers : Z) (order : list string) (pos : Z) (s : State) : outcome E (option Z) :=
  match (if NewRound s then find_index (λ pid, bool_decide (pid = NextStarter s)) order else None) with
  | Some i => Ok (Some (Z.of_nat i))
  | None => next_alive s order numPlayers pos (Z.to_nat numPlayers) 1
  end.

Definition loveLetterOrder : TurnOrder := mkOrder
  (Some (λ _, Ret 0))
  (Some (λ mc,
     match mc_G mc with
     | Some (VState s) =>
         match next_turn (E := error) (ctx_NumPlayers (mc_Ctx mc)) (ctx_PlayOrder (mc_Ctx mc))
                 (ctx_PlayOrderPos (mc_Ctx mc)) s with
         | Ok n => Ret n
         | _ => Crash
         end
     | _ => Crash
     end))
  None.

Definition endIf (mc : MoveContext) : prog any :=
  match mc_G mc with
  | Some (VState s) =>
      Ret (if MatchOver s then
             match MatchWinners s with
             | [w] => Some (VWinner w)
             | ws => Some (VWinners ws)
             end
           else None)
  | _ => Crash
  end.

Definition view_player (viewer pid : string) (p : PlayerState) : PlayerState :=
  if decide (pid = viewer) then p
  else mkPlayer [] (Discard p) (Tokens p) (Alive p) (Protected p) ∅.

Definition view (viewer : string) (s : State) : State :=
  mkLetter (map_imap (λ pid p, Some (view_player viewer pid p)) (Players s)) [] CardNone (Round s) (NextStarter s)
    (NewRound s) (RoundWinners s) (MatchOver s) (MatchWinners s) (TokensToWin s).

Definition playerView (G : any) (ctx : Ctx) (playerID : string) (w : world) : any :=
  match G with Some (VState s) => Some (VState (view playerID s)) | _ => G end.

Definition moves : gmap string MoveEntry :=
  {[ "playGuard" := EntryFn playGuard; "playPriest" := EntryFn playPriest; "playBaron" := EntryFn playBaron;
     "playHandmaid" := EntryFn playHandmaid; "playPrince" := EntryFn playPrince; "playKing" := EntryFn playKing;
     "playCountess" := EntryFn playCountess; "playPrincess" := EntryFn playPrincess ]}.

Definition New (wild : SpecFloat.spec_float → Z) : Game := mkGame "love-letter" 2 4 (Some setup) moves
  (Some (mkTurn loveLetterOrder (Some turnOnBegin) (Some turnOnEnd) (Some turnOnMove) None 1 1 0 None ∅)) ∅
  (Some endIf) None None (Some playerView) None false [random_plugin wild 0 GoNil].
