(* ===== verification/LoveLetterFacts.v ===== *)
(** * What the moves and hooks of Love Letter keep

    The sixteen cards are neither lost nor doubled, the living hold one card between
    turns, and whoever is on turn holds two and can play one of them. *)

From S2P Require Import Prelude CoreTypes Choices LoveLetter.
From S2P Require Random.
#[local] Open Scope Z_scope.

(** ** Counting cards *)

Definition cnt (c : Z) (l : list Z) : Z := Z.of_nat (count_occ Z.eq_dec l c).

Implicit Types (c x : Z) (l : list Z).

Lemma cnt_nil c : cnt c [] = 0.
Proof. done. Qed.
Lemma cnt_cons c x l : cnt c (x :: l) = (if decide (x = c) then 1 else 0) + cnt c l.
Proof.
  unfold cnt. destruct (decide (x = c)) as [->|Hne].
  - rewrite count_occ_cons_eq by done. lia.
  - rewrite count_occ_cons_neq by done. lia.
Qed.
Lemma cnt_app c l l' : cnt c (l ++ l') = cnt c l + cnt c l'.
Proof. unfold cnt. rewrite count_occ_app. lia. Qed.
Lemma cnt_perm c l l' : l ≡ₚ l' → cnt c l = cnt c l'.
Proof. intros H. unfold cnt. f_equal. by apply Permutation_count_occ. Qed.
Lemma cnt_nonneg c l : 0 ≤ cnt c l.
Proof. unfold cnt. lia. Qed.
Lemma cnt_in c l : c ∈ l → 0 < cnt c l.
Proof. intros H. unfold cnt. apply list_elem_of_In, (count_occ_In Z.eq_dec) in H. lia. Qed.

Lemma cnt_remove_at c i x l : l !! i = Some x → cnt c (remove_at i l) = cnt c l - (if decide (x = c) then 1 else 0).
Proof.
  intros Hi. unfold remove_at. rewrite <-(take_drop_middle l i x Hi) at 3.
  rewrite !cnt_app, cnt_cons. lia.
Qed.

(** Those a player has, and those on the whole table. *)
Definition held (c : Card) (p : PlayerState) : Z := cnt c (Hand p) + cnt c (Discard p).

Definition total (f : PlayerState → Z) (m : gmap string PlayerState) : Z := map_fold (λ _ p n, f p + n) 0 m.

Lemma total_insert f m pid p : m !! pid = None → total f (<[pid := p]> m) = f p + total f m.
Proof.
  intros Hm. unfold total. apply (map_fold_insert_L (λ _ p n, f p + n)); [intros; lia|done].
Qed.

Lemma total_put f m pid p p' : m !! pid = Some p → total f (<[pid := p']> m) = total f m - f p + f p'.
Proof.
  intros Hm. rewrite <-(insert_delete_id m pid p Hm) at 2.
  rewrite <-(insert_delete_eq m pid p'). rewrite !total_insert by apply lookup_delete_eq. lia.
Qed.

Definition burned (c : Card) (s : State) : Z := if decide (Burned s = CardNone) then 0 else cnt c [Burned s].

Definition number (c : Card) (s : State) : Z := cnt c (Deck s) + burned c s + total (held c) (Players s).

Lemma number_put c s pid p p' : Players s !! pid = Some p →
  number c (put pid p' s) = number c s - held c p + held c p'.
Proof. intros Hp. unfold number, put. simpl. rewrite (total_put _ _ _ p) by done. unfold burned. simpl. lia. Qed.

(** ** A table in play *)
Section table.
Context (order : list string).
Implicit Types (s : State) (f : string → nat).

Record sound s : Prop := {
  sd_seats : ∀ pid, pid ∈ order ↔ is_Some (Players s !! pid);
  sd_cards : ∀ c, number c s = cnt c freshDeck;
  sd_dead : ∀ pid p, Players s !! pid = Some p → Alive p = false → Hand p = []
}.

(** The living hold as many cards as [f] says. *)
Definition holding f s : Prop := ∀ pid p, Players s !! pid = Some p → Alive p = true → length (Hand p) = f pid.

Definition one : string → nat := λ _, 1%nat.
Definition two_for (pid : string) : string → nat := λ q, if decide (q = pid) then 2%nat else 1%nat.

Definition living s pid : Prop := ∃ p, Players s !! pid = Some p ∧ Alive p = true.

(** What a move does not touch. *)
Record same_frame s s' : Prop := {
  sf_tokens : ∀ pid, Tokens <$> Players s' !! pid = Tokens <$> Players s !! pid;
  sf_rest : Round s' = Round s ∧ NextStarter s' = NextStarter s ∧ NewRound s' = NewRound s ∧
    RoundWinners s' = RoundWinners s ∧ MatchOver s' = MatchOver s ∧ MatchWinners s' = MatchWinners s ∧
    TokensToWin s' = TokensToWin s;
  sf_deck : (length (Deck s') ≤ length (Deck s))%nat
}.

#[export] Instance same_frame_refl : Reflexive same_frame.
Proof. intros s. by split. Qed.
#[export] Instance same_frame_trans : Transitive same_frame.
Proof.
  intros a b c [H1 (H2 & H3 & H4 & H5 & H6 & H7 & H8) H9] [G1 (G2 & G3 & G4 & G5 & G6 & G7 & G8) G9].
  split; [intros pid; by rewrite G1|split_and!; congruence|lia].
Qed.

(** A record replaced by one with the same cards. *)
Lemma put_sound s pid p p' : sound s → Players s !! pid = Some p → (∀ c, held c p' = held c p) →
  (Alive p' = false → Hand p' = []) → sound (put pid p' s).
Proof.
  intros [Hseat Hcards Hdead] Hp Hh Ha. split.
  - intros q. simpl. rewrite Hseat. destruct (decide (q = pid)) as [->|Hne].
    + rewrite lookup_insert_eq, Hp. split; by eexists.
    + by rewrite lookup_insert_ne.
  - intros c. rewrite (number_put c s pid p) by done. rewrite Hcards, Hh. lia.
  - intros q x. simpl. destruct (decide (q = pid)) as [->|Hne].
    + rewrite lookup_insert_eq. by intros [= <-].
    + rewrite lookup_insert_ne by done. apply Hdead.
Qed.

Lemma put_frame s pid p p' : Players s !! pid = Some p → Tokens p' = Tokens p → same_frame s (put pid p' s).
Proof.
  intros Hp Ht. split; [|done|done]. intros q. simpl. destruct (decide (q = pid)) as [->|Hne].
  - by rewrite lookup_insert_eq, Hp; simpl; rewrite Ht.
  - by rewrite lookup_insert_ne.
Qed.

Lemma put_holding s pid p' f : (∀ q, q ≠ pid → ∀ p, Players s !! q = Some p → Alive p = true → length (Hand p) = f q) →
  (Alive p' = true → length (Hand p') = f pid) → holding f (put pid p' s).
Proof.
  intros Hq Hp q p. simpl. destruct (decide (q = pid)) as [->|Hne].
  - rewrite lookup_insert_eq. by intros [= <-].
  - rewrite lookup_insert_ne by done. by apply Hq.
Qed.

Lemma put_living s pid p' q : (q = pid → Alive p' = true) → (q ≠ pid → living s q) → living (put pid p' s) q.
Proof.
  intros H1 H2. destruct (decide (q = pid)) as [->|Hne].
  - exists p'. simpl. rewrite lookup_insert_eq. auto.
  - destruct (H2 Hne) as (p & Hp & Ha). exists p. simpl. by rewrite lookup_insert_ne.
Qed.

(** ** The parts of a move *)

Lemma player_Ok s pid p : player (E := error) s pid = Ok p ↔ Players s !! pid = Some p.
Proof. unfold player. destruct (Players s !! pid); naive_solver. Qed.

Lemma aim_ok s actor target card self s1 : aim s actor target card self = Ok s1 →
  discardActor s actor card = Ok s1 ∧ living s actor ∧ living s target ∧ (self = false → target ≠ actor).
Proof.
  unfold aim, preflightTargeted. intros ([] & Hpre & Hd)%outcome_bind_Ok.
  apply outcome_bind_Ok in Hpre as ([] & _ & Hpre). unfold living.
  destruct (Players s !! actor) as [a|]; [|done]. destruct (Alive a) eqn:Ha; [|done]. simpl in Hpre.
  destruct (holds (Hand a) card); [|done]. simpl in Hpre.
  destruct (Players s !! target) as [t|]; [|done]. destruct (Alive t) eqn:Ht; [|done]. simpl in Hpre.
  destruct (bool_decide_reflect (target = actor)) as [->|Hne]; simpl in Hpre.
  - destruct self; [|done]. split; [done|]. split; [by exists a|]. split; [by exists t|done].
  - split; [done|]. split; [by exists a|]. split; [by exists t|done].
Qed.

(** The card played goes from the hand to the pile. *)
Lemma discard_ok s actor card s1 : sound s → discardActor s actor card = Ok s1 →
  ∃ p, Players s !! actor = Some p ∧ card ∈ Hand p ∧ sound s1 ∧ same_frame s s1 ∧ Deck s1 = Deck s ∧
    Burned s1 = Burned s ∧ (∀ q, living s q → living s1 q) ∧
    (holding (two_for actor) s → holding one s1).
Proof.
  intros Hs. unfold discardActor. intros (p & Hp%player_Ok & HR)%outcome_bind_Ok.
  destruct (find_index _ (Hand p)) as [i|] eqn:Hi; [|done]. injection HR as <-.
  apply find_index_Some in Hi as [(x & Hx & Hxc) _].
  apply bool_decide_eq_true in Hxc. subst x.
  set (p' := set_Discard (Discard p ++ [card]) (set_Hand (remove_at i (Hand p)) p)).
  assert (Hlen : length (remove_at i (Hand p)) = (length (Hand p) - 1)%nat) by (apply length_remove_at; by eapply lookup_lt_Some).
  assert (Hheld : ∀ c, held c p' = held c p).
  { intros c. unfold held, p'. simpl. rewrite (cnt_remove_at c i card) by done. rewrite cnt_app, cnt_cons, cnt_nil. lia. }
  exists p. split; [done|]. split; [by eapply list_elem_of_lookup_2|]. split; [|split; [|split; [done|split; [done|split]]]].
  - apply (put_sound s actor p); [done..|]. intros Ha. simpl in *.
    rewrite (sd_dead s Hs actor p Hp Ha) in Hx. done.
  - by apply (put_frame s actor p).
  - intros q Hq. apply put_living; [|done]. intros ->. destruct Hq as (x & Hx' & Ha). simpl. congruence.
  - intros Hh. apply put_holding.
    + intros q Hne x Hx' Ha. specialize (Hh q x Hx' Ha). unfold two_for in Hh. by rewrite decide_False in Hh.
    + intros Ha. simpl in *. rewrite Hlen. rewrite (Hh actor p Hp Ha). unfold two_for. by rewrite decide_True.
Qed.

(** A player out of the round, with the hand on the pile. *)
Lemma eliminate_ok s pid : sound s → sound (eliminate s pid) ∧ same_frame s (eliminate s pid) ∧
  Burned (eliminate s pid) = Burned s ∧
  (∀ f, holding f s → holding f (eliminate s pid)) ∧
  (∀ q, q ≠ pid → living s q → living (eliminate s pid) q).
Proof.
  intros Hs. unfold eliminate. destruct (Players s !! pid) as [p|] eqn:Hp; [|by split_and!].
  destruct (Alive p) eqn:Ha; [|by split_and!]. split; [|split; [|split; [done|split]]].
  - apply (put_sound s pid p); [done|done| |done]. intros c. unfold held. simpl. rewrite cnt_app, cnt_nil. lia.
  - by apply (put_frame s pid p).
  - intros f Hf. apply put_holding; [intros q _; apply Hf|done].
  - intros q Hq Hl. apply put_living; [done|done].
Qed.

(** ** The moves *)

(** [pid] is on turn, with two cards and somebody to play against. *)
Record ready s pid : Prop := {
  rd_sound : sound s;
  rd_turn : living s pid;
  rd_hands : holding (two_for pid) s;
  rd_rival : ∃ q, q ≠ pid ∧ living s q;
  rd_burned : Burned s ≠ CardNone
}.

(** A move has been made. *)
Record moved s s' : Prop := {
  mv_sound : sound s';
  mv_hands : holding one s';
  mv_alive : ∃ q, living s' q;
  mv_frame : same_frame s s'
}.

Lemma ready_hand s pid p : ready s pid → Players s !! pid = Some p → length (Hand p) = 2%nat.
Proof.
  intros Hr Hp. destruct (rd_turn _ _ Hr) as (p' & Hp' & Ha). assert (p' = p) as -> by congruence.
  rewrite (rd_hands _ _ Hr pid p Hp Ha). unfold two_for. by rewrite decide_True.
Qed.

Lemma played s pid card s1 : ready s pid → discardActor s pid card = Ok s1 →
  moved s s1 ∧ Burned s1 ≠ CardNone ∧ living s1 pid ∧ (∃ q, q ≠ pid ∧ living s1 q) ∧ (∀ q, living s q → living s1 q).
Proof.
  intros [Hs Ht Hh (q & Hq & Hlq) Hb] Hd.
  destruct (discard_ok s pid card s1 Hs Hd) as (p & Hp & Hin & Hs1 & Hf & HD & HB & Hl & Hone).
  split; [|split; [by rewrite HB|split; [by apply Hl|split; [exists q; auto|done]]]].
  split; [done|auto|exists pid; auto|done].
Qed.

Lemma aimed s pid target card self s1 : ready s pid → aim s pid target card self = Ok s1 →
  moved s s1 ∧ Burned s1 ≠ CardNone ∧ living s1 pid ∧ living s1 target ∧ (∃ q, q ≠ pid ∧ living s1 q) ∧
  (self = false → target ≠ pid).
Proof.
  intros Hr Ha. destruct (aim_ok _ _ _ _ _ _ Ha) as (Hd & _ & Hlt & Hself).
  destruct (played s pid card s1 Hr Hd) as (Hm & Hb & Hlp & Hq & Hl). split_and!; auto.
Qed.

Lemma eliminated s s1 pid : moved s s1 → (∃ q, q ≠ pid ∧ living s1 q) → moved s (eliminate s1 pid).
Proof.
  intros [Hs Hh _ Hf] (q & Hq & Hl). destruct (eliminate_ok s1 pid Hs) as (Hs' & Hf' & _ & Hh' & Hl').
  split; [done|by apply Hh'|exists q; by apply Hl'|by etrans].
Qed.

Lemma guard_ok s pid target named s' : ready s pid → guard pid target named s = Ok s' → moved s s'.
Proof.
  intros Hr. unfold guard. case_decide as Hn; [done|]. intros (s1 & Ha & HR)%outcome_bind_Ok.
  destruct (aimed _ _ _ _ _ _ Hr Ha) as (Hm & _ & Hlp & Hlt & _ & Hne).
  destruct (isHandmaidImmune s1 target); [by injection HR as <-|].
  apply outcome_bind_Ok in HR as (t & _ & HR). destruct (decide _); injection HR as <-; [|done].
  apply eliminated; [done|]. exists pid. split; [|done]. intros ->. by apply Hne.
Qed.

Lemma priest_ok s pid target s' : ready s pid → priest pid target s = Ok s' → moved s s'.
Proof.
  intros Hr. unfold priest. intros (s1 & Ha & HR)%outcome_bind_Ok.
  destruct (aimed _ _ _ _ _ _ Hr Ha) as ([Hs Hh Hal Hf] & _ & Hlp & _).
  destruct (isHandmaidImmune s1 target); [by injection HR as <-|].
  apply outcome_bind_Ok in HR as (t & _ & HR). destruct (Hand t) as [|c l]; [by injection HR as <-|].
  apply outcome_bind_Ok in HR as (a & Hact%player_Ok & HR). injection HR as <-. split.
  - apply (put_sound s1 pid a); [done|done|done|]. apply (sd_dead s1 Hs pid a Hact).
  - apply put_holding; [intros q _; apply Hh|]. simpl. intros Hx. by apply (Hh pid a).
  - exists pid. apply put_living; [|done]. intros _. simpl. destruct Hlp as (x & Hx & Hxa). congruence.
  - etrans; [done|]. by apply (put_frame s1 pid a).
Qed.

Lemma baron_ok s pid target s' : ready s pid → baron pid target s = Ok s' → moved s s'.
Proof.
  intros Hr. unfold baron. intros (s1 & Ha & HR)%outcome_bind_Ok.
  destruct (aimed _ _ _ _ _ _ Hr Ha) as (Hm & _ & Hlp & Hlt & _ & Hne).
  destruct (isHandmaidImmune s1 target); [by injection HR as <-|].
  apply outcome_bind_Ok in HR as (a & _ & HR). apply outcome_bind_Ok in HR as (t & _ & HR).
  destruct (Hand a) as [|x la]; [by injection HR as <-|]. destruct (Hand t) as [|y lt]; [by injection HR as <-|].
  destruct (decide (y < x)); [|destruct (decide (x < y))]; injection HR as <-; [| |done].
  - apply eliminated; [done|]. exists pid. split; [|done]. intros ->. by apply Hne.
  - apply eliminated; [done|]. exists target. split; [by apply Hne|done].
Qed.

Lemma handmaid_ok s pid s' : ready s pid → handmaid pid s = Ok s' → moved s s'.
Proof.
  intros Hr. unfold handmaid. intros ([] & _ & HR)%outcome_bind_Ok. apply outcome_bind_Ok in HR as (s1 & Hd & HR).
  destruct (played s pid _ s1 Hr Hd) as ([Hs Hh Hal Hf] & _ & Hlp & _).
  apply outcome_bind_Ok in HR as (a & Hact%player_Ok & HR). injection HR as <-. split.
  - apply (put_sound s1 pid a); [done|done|done|]. apply (sd_dead s1 Hs pid a Hact).
  - apply put_holding; [intros q _; apply Hh|]. simpl. intros Hx. by apply (Hh pid a).
  - exists pid. apply put_living; [|done]. intros _. simpl. destruct Hlp as (x & Hx & Hxa). congruence.
  - etrans; [done|]. by apply (put_frame s1 pid a).
Qed.

Lemma countess_ok s pid s' : ready s pid → countess pid s = Ok s' → moved s s'.
Proof. intros Hr Hd. by destruct (played s pid _ s' Hr Hd) as (Hm & _). Qed.

Lemma princess_ok s pid s' : ready s pid → princess pid s = Ok s' → moved s s'.
Proof.
  intros Hr. unfold princess. intros (s1 & Hd & HR)%outcome_bind_Ok. injection HR as <-.
  destruct (played s pid _ s1 Hr Hd) as (Hm & _ & _ & Hq & _). by apply eliminated.
Qed.

Lemma king_ok s pid target s' : ready s pid → king pid target s = Ok s' → moved s s'.
Proof.
  intros Hr. unfold king. intros (s1 & Ha & HR)%outcome_bind_Ok.
  destruct (aimed _ _ _ _ _ _ Hr Ha) as (Hm & _ & Hlp & Hlt & _ & Hne). specialize (Hne eq_refl).
  destruct (isHandmaidImmune s1 target); [by injection HR as <-|]. destruct Hm as [Hs Hh Hal Hf].
  apply outcome_bind_Ok in HR as (a & Hact%player_Ok & HR). apply outcome_bind_Ok in HR as (t & Htar%player_Ok & HR).
  injection HR as <-. set (a' := set_Hand (Hand t) a). set (t' := set_Hand (Hand a) t).
  assert (Hla : Alive a = true) by (destruct Hlp as (x & Hx & ?); congruence).
  assert (Hlt' : Alive t = true) by (destruct Hlt as (x & Hx & ?); congruence).
  assert (Htar' : Players (put pid a' s1) !! target = Some t) by (simpl; by rewrite lookup_insert_ne).
  destruct Hs as [Hseat Hcards Hdead]. split; [split| | |].
  - intros q. simpl. rewrite Hseat. destruct (decide (q = target)) as [->|Hq].
    + rewrite lookup_insert_eq, Htar. split; by eexists.
    + rewrite lookup_insert_ne by done. destruct (decide (q = pid)) as [->|Hq'].
      * rewrite lookup_insert_eq, Hact. split; by eexists.
      * by rewrite lookup_insert_ne.
  - intros c. rewrite (number_put c _ target t t') by done. rewrite (number_put c s1 pid a a') by done.
    rewrite Hcards. unfold held, a', t'. simpl. lia.
  - intros q p. simpl. destruct (decide (q = target)) as [->|Hq].
    + rewrite lookup_insert_eq. intros [= <-]. simpl. congruence.
    + rewrite lookup_insert_ne by done. destruct (decide (q = pid)) as [->|Hq'].
      * rewrite lookup_insert_eq. intros [= <-]. simpl. congruence.
      * rewrite lookup_insert_ne by done. apply Hdead.
  - apply put_holding; [|intros _; simpl; by apply (Hh pid a)]. intros q _. apply put_holding; [intros r _; apply Hh|].
    intros _. simpl. by apply (Hh target t).
  - exists target. apply put_living; [by intros _|done].
  - etrans; [done|]. etrans; [by apply (put_frame s1 pid a a')|]. by apply (put_frame _ target t).
Qed.

(** A player without cards goes out, or draws again. *)
Lemma out_of_cards s s1 s2 pid t : moved s s1 → s2 = put pid t s1 → sound s2 → same_frame s s2 → Alive t = true →
  (∃ q, q ≠ pid ∧ living s1 q) → moved s (eliminate s2 pid).
Proof.
  intros [_ Hh _ _] -> Hs Hf Ha (q & Hq & Hl). destruct (eliminate_ok _ pid Hs) as (Hs' & Hf' & _ & _ & Hl').
  split; [done| |exists q; apply Hl'; [done|by apply put_living]|by etrans].
  unfold eliminate. simpl. rewrite lookup_insert_eq, Ha. apply put_holding; [|done].
  intros r Hr p. simpl. rewrite lookup_insert_ne by done. apply Hh.
Qed.

Lemma number_deck c s deck : number c (set_Deck deck s) = number c s - cnt c (Deck s) + cnt c deck.
Proof. unfold number, burned. simpl. lia. Qed.

Lemma number_burned c s : Burned s ≠ CardNone → number c (set_Burned CardNone s) = number c s - cnt c [Burned s].
Proof. intros Hb. unfold number, burned. simpl. rewrite decide_False by done. lia. Qed.

Lemma redrawn s s1 s2 pid t : moved s s1 → s2 = put pid t s1 → sound s2 → same_frame s s2 → Alive t = true →
  Hand t = [] → Burned s1 ≠ CardNone → moved s (redraw s2 pid t).
Proof.
  intros [_ Hh _ _] -> [Hseat Hcards Hdead] Hf Ha Hnil Hb.
  assert (Hx : ∀ c sx, Players sx = Players (put pid t s1) →
    (∀ x, number x sx = number x (put pid t s1) - cnt x [c]) → (length (Deck sx) ≤ length (Deck s1))%nat →
    (Round sx = Round s1 ∧ NextStarter sx = NextStarter s1 ∧ NewRound sx = NewRound s1 ∧
     RoundWinners sx = RoundWinners s1 ∧ MatchOver sx = MatchOver s1 ∧ MatchWinners sx = MatchWinners s1 ∧
     TokensToWin sx = TokensToWin s1) →
    moved s (put pid (set_Hand [c] t) sx)).
  { intros c sx HP Hnum Hdeck Hrest.
    assert (Hlook : Players sx !! pid = Some t) by (rewrite HP; simpl; by rewrite lookup_insert_eq).
    assert (Hsame : ∀ q, q ≠ pid → Players sx !! q = Players s1 !! q).
    { intros q Hq. rewrite HP. simpl. by rewrite lookup_insert_ne. }
    split; [split| | |].
    - intros q. simpl. rewrite Hseat. simpl. destruct (decide (q = pid)) as [->|Hq].
      + rewrite !lookup_insert_eq. split; by eexists.
      + rewrite !lookup_insert_ne by done. by rewrite Hsame.
    - intros x. rewrite (number_put x sx pid t) by done. rewrite Hnum, Hcards. unfold held. simpl.
      rewrite Hnil, cnt_nil. lia.
    - intros q p. simpl. destruct (decide (q = pid)) as [->|Hq].
      + rewrite lookup_insert_eq. intros [= <-]. simpl. congruence.
      + rewrite lookup_insert_ne, Hsame by done. intros Hp Hal. apply (Hdead q p); [|done].
        simpl. by rewrite lookup_insert_ne.
    - apply put_holding; [|done]. intros q Hq p. rewrite Hsame by done. apply Hh.
    - exists pid. by apply put_living.
    - etrans; [exact Hf|]. destruct Hrest as (H1 & H2 & H3 & H4 & H5 & H6 & H7).
      etrans; [|by apply (put_frame sx pid t)]. split; [intros q; by rewrite HP|by split_and!|done]. }
  unfold redraw. destruct (Deck (put pid t s1)) as [|c deck] eqn:HD.
  - rewrite decide_True by done. apply Hx; [done| |done|done]. intros x. by rewrite number_burned.
  - apply Hx; [done| | |done].
    + intros x. rewrite number_deck, HD, cnt_cons. rewrite (cnt_cons x c []), cnt_nil. lia.
    + simpl in *. rewrite HD. simpl. lia.
Qed.

Lemma prince_ok s pid target s' : ready s pid → prince pid target s = Ok s' → moved s s'.
Proof.
  intros Hr. unfold prince. intros (s1 & Ha & HR)%outcome_bind_Ok.
  destruct (aimed _ _ _ _ _ _ Hr Ha) as (Hm & Hb & Hlp & Hlt & (q & Hq & Hlq) & _).
  destruct (bool_decide (target ≠ pid) && isHandmaidImmune s1 target); [by injection HR as <-|].
  apply outcome_bind_Ok in HR as (t & Ht%player_Ok & HR).
  assert (Hal : Alive t = true) by (destruct Hlt as (x & Hx & ?); congruence).
  pose proof (mv_hands _ _ Hm target t Ht Hal) as Hlen.
  destruct (Hand t) as [|d l] eqn:Hhand; [by injection HR as <-|].
  destruct l; [|done]. clear Hlen.
  set (t' := set_Discard (Discard t ++ [d]) (set_Hand [] t)) in *. set (s2 := put target t' s1) in *.
  assert (Hs2 : sound s2).
  { apply (put_sound s1 target t); [apply Hm|done| |done]. intros c. unfold held, t'. simpl.
    rewrite Hhand, cnt_app, cnt_nil. lia. }
  assert (Hf2 : same_frame s s2) by (etrans; [apply Hm|by apply (put_frame s1 target t)]).
  destruct (decide (d = CardPrincess)); injection HR as <-.
  - apply (out_of_cards s s1 s2 target t'); try done. destruct (decide (target = pid)) as [->|Hne]; [by exists q|].
    exists pid. by split.
  - by apply (redrawn s s1 s2 target t').
Qed.

(** ** No player is stuck *)

Lemma total_member (g : PlayerState → Z) m pid p : (∀ a, 0 ≤ g a) → m !! pid = Some p → g p ≤ total g m.
Proof.
  intros Hg Hp. rewrite <-(insert_delete_id m pid p Hp). rewrite total_insert by apply lookup_delete_eq.
  enough (0 ≤ total g (delete pid m)) by lia. unfold total.
  apply (map_fold_weak_ind (λ r _, 0 ≤ r)); [lia|]. intros i a m' r _ Hr. specialize (Hg a). lia.
Qed.

(** Every card on the table is one of the eight. *)
Lemma real_card s c : sound s → 0 < number c s → CardGuard ≤ c ≤ CardPrincess.
Proof.
  intros Hs Hn. rewrite (sd_cards s Hs) in Hn. unfold cnt in Hn.
  assert (Hin : c ∈ freshDeck) by (apply list_elem_of_In, (count_occ_In Z.eq_dec); lia).
  unfold CardGuard, CardPrincess.
  assert (Hall : Forall (λ x, 1 ≤ x ≤ 8) freshDeck) by (repeat constructor; by vm_compute).
  by eapply (proj1 (Forall_forall _ _) Hall).
Qed.

Lemma number_nonneg c s : 0 ≤ cnt c (Deck s) + burned c s.
Proof. unfold burned. pose proof (cnt_nonneg c (Deck s)). pose proof (cnt_nonneg c [Burned s]). case_decide; lia. Qed.

Lemma held_real s pid p c : sound s → Players s !! pid = Some p → c ∈ Hand p → CardGuard ≤ c ≤ CardPrincess.
Proof.
  intros Hs Hp Hc. apply (real_card s c Hs). unfold number.
  assert (Hh : ∀ a, 0 ≤ held c a).
  { intros a. unfold held. pose proof (cnt_nonneg c (Hand a)). pose proof (cnt_nonneg c (Discard a)). lia. }
  pose proof (total_member (held c) _ _ _ Hh Hp) as Ht. unfold held in Ht at 1.
  pose proof (cnt_in c _ Hc). pose proof (cnt_nonneg c (Discard p)). pose proof (number_nonneg c s). lia.
Qed.

(** What each move's arguments make of it. *)
Definition effects : gmap string (list any → option (string → State → outcome error State)) :=
  {[ "playGuard" := λ args, '(target, named) ← guard_args args; Some (λ p, guard p target named);
     "playPriest" := λ args, target ← target_arg args; Some (λ p, priest p target);
     "playBaron" := λ args, target ← target_arg args; Some (λ p, baron p target);
     "playHandmaid" := λ _, Some handmaid;
     "playPrince" := λ args, target ← target_arg args; Some (λ p, prince p target);
     "playKing" := λ args, target ← target_arg args; Some (λ p, king p target);
     "playCountess" := λ _, Some countess;
     "playPrincess" := λ _, Some princess ]}.

(** The request [name] with [args] by [pid] turns [s] into [s']. *)
Definition plays name args pid s s' : Prop :=
  ∃ parse act, effects !! name = Some parse ∧ parse args = Some act ∧ act pid s = Ok s'.

Lemma plays_ok name args pid s s' : ready s pid → plays name args pid s s' → moved s s'.
Proof.
  intros Hr (parse & act & Hn & Hp & Hf). unfold effects in Hn.
  repeat (apply lookup_insert_Some in Hn as [[<- <-]|[_ Hn]]).
  - destruct (guard_args args) as [[t n]|]; [|done]. injection Hp as <-. by eapply guard_ok.
  - destruct (target_arg args); [|done]. injection Hp as <-. by eapply priest_ok.
  - destruct (target_arg args); [|done]. injection Hp as <-. by eapply baron_ok.
  - injection Hp as <-. by eapply handmaid_ok.
  - destruct (target_arg args); [|done]. injection Hp as <-. by eapply prince_ok.
  - destruct (target_arg args); [|done]. injection Hp as <-. by eapply king_ok.
  - injection Hp as <-. by eapply countess_ok.
  - apply lookup_singleton_Some in Hn as [_ <-]. injection Hp as <-. by eapply princess_ok.
Qed.

Lemma holds_true hand c : holds hand c = true ↔ c ∈ hand.
Proof. unfold holds. by rewrite bool_decide_eq_true. Qed.

Lemma discard_possible s pid p card : Players s !! pid = Some p → card ∈ Hand p →
  ∃ s', discardActor s pid card = Ok s'.
Proof.
  intros Hp Hin. unfold discardActor, player. rewrite Hp. cbn [mbind outcome_bind].
  destruct (find_index _ (Hand p)) as [i|] eqn:Hi; [by eexists|].
  apply find_index_None in Hi. rewrite Forall_forall in Hi. specialize (Hi card Hin).
  by rewrite bool_decide_true in Hi.
Qed.

Lemma aim_possible s pid target p t card : Players s !! pid = Some p → Alive p = true → card ∈ Hand p →
  CardCountess ∉ Hand p → Players s !! target = Some t → Alive t = true → target ≠ pid →
  ∃ s', aim s pid target card false = Ok s'.
Proof.
  intros Hp Ha Hin Hno Ht Hat Hne. destruct (discard_possible s pid p card Hp Hin) as [s' Hd]. exists s'.
  assert (Hc : requireCountessNotForced s pid card = Ok tt).
  { unfold requireCountessNotForced. case_decide; [done|]. unfold player. rewrite Hp. cbn [mbind outcome_bind].
    assert (holds (Hand p) CardCountess = false) as ->; [|done]. apply not_true_is_false. by rewrite holds_true. }
  unfold aim, preflightTargeted. rewrite Hc. cbn [mbind outcome_bind]. rewrite Hp, Ha. simpl.
  rewrite (proj2 (holds_true _ _) Hin). simpl. rewrite Ht, Hat. simpl. by rewrite bool_decide_false.
Qed.

Definition arg_string (x : string) : any := Some (VGo (GoString x)).
Definition arg_int (n : Z) : any := Some (VGo (GoInt "" KInt n)).

Lemma plays_possible name args act pid s : (effects !! name ≫= λ parse, parse args) = Some act →
  (∃ s', act pid s = Ok s') → ∃ name args s', plays name args pid s s'.
Proof. intros (parse & Hn & Hp)%bind_Some [s' Hs]. exists name, args, s', parse, act. done. Qed.

Lemma aim_self s pid target card s1 : aim s pid target card false = Ok s1 → aim s pid target card true = Ok s1.
Proof.
  unfold aim, preflightTargeted. destruct (requireCountessNotForced s pid card) as [[]| | |]; try done.
  cbn [mbind outcome_bind]. repeat case_match; try done; simpl in *; try done.
  all: by destruct (bool_decide (target = pid)).
Qed.

(** Two cards in hand and a rival: one of them can be played. *)
Lemma some_play s pid : ready s pid → ∃ name args s', plays name args pid s s'.
Proof.
  intros Hr. destruct (rd_turn _ _ Hr) as (p & Hp & Ha). destruct (rd_rival _ _ Hr) as (q & Hq & (t & Ht & Hat)).
  pose proof (rd_sound _ _ Hr) as Hs. pose proof (ready_hand s pid p Hr Hp) as Hlen.
  destruct (decide (CardCountess ∈ Hand p)) as [Hin|Hno].
  { destruct (discard_possible s pid p _ Hp Hin) as [s' Hd]. exists "playCountess", [], s'.
    eexists _, _. split; [reflexivity|]. split; [reflexivity|exact Hd]. }
  destruct (Hand p) as [|x l] eqn:Hhand; [done|].
  assert (Hin : x ∈ Hand p) by (rewrite Hhand; by left).
  pose proof (held_real s pid p x Hs Hp Hin) as Hreal. unfold CardGuard, CardPrincess in Hreal.
  rewrite <-Hhand in Hno.
  assert (Hneed : ∀ card, x = card → ∃ s1, aim s pid q card false = Ok s1 ∧
    (∀ u, u = pid ∨ u = q → ∃ a, Players s1 !! u = Some a)).
  { intros card <-. destruct (aim_possible s pid q p t x Hp Ha Hin Hno Ht Hat Hq) as [s1 Hs1]. exists s1.
    split; [done|]. destruct (aimed s pid q x false s1 Hr Hs1) as (_ & _ & (a & Hl1 & _) & (b & Hl2 & _) & _).
    intros u [-> | ->]; by eexists. }
  assert (Hd : ∃ s1, discardActor s pid x = Ok s1) by by eapply discard_possible.
  assert (Hx : x = 1 ∨ x = 2 ∨ x = 3 ∨ x = 4 ∨ x = 5 ∨ x = 6 ∨ x = 8 ∨ x = CardCountess).
  { unfold CardCountess. lia. }
  destruct Hx as [Hx|[Hx|[Hx|[Hx|[Hx|[Hx|[Hx|Hx]]]]]]].
  - destruct (Hneed CardGuard Hx) as (s1 & H1 & Hl). destruct (Hl q ltac:(by right)) as [b Hb].
    apply (plays_possible "playGuard" [arg_string q; arg_int 2] (λ p, guard p q 2)); [done|].
    unfold guard. rewrite decide_False by (by vm_compute; intros [?|[?|?]]). rewrite H1. cbn [mbind outcome_bind].
    destruct (isHandmaidImmune s1 q); [by eexists|]. unfold player. rewrite Hb. cbn [mbind outcome_bind].
    case_match; by eexists.
  - destruct (Hneed CardPriest Hx) as (s1 & H1 & Hl). destruct (Hl q ltac:(by right)) as [b Hb].
    destruct (Hl pid ltac:(by left)) as [a0 Ha0].
    apply (plays_possible "playPriest" [arg_string q] (λ p, priest p q)); [done|].
    unfold priest. rewrite H1. cbn [mbind outcome_bind].
    destruct (isHandmaidImmune s1 q); [by eexists|]. unfold player. rewrite Hb. cbn [mbind outcome_bind].
    destruct (Hand b); [by eexists|]. rewrite Ha0. by eexists.
  - destruct (Hneed CardBaron Hx) as (s1 & H1 & Hl). destruct (Hl q ltac:(by right)) as [b Hb].
    destruct (Hl pid ltac:(by left)) as [a0 Ha0].
    apply (plays_possible "playBaron" [arg_string q] (λ p, baron p q)); [done|].
    unfold baron. rewrite H1. cbn [mbind outcome_bind].
    destruct (isHandmaidImmune s1 q); [by eexists|]. unfold player. rewrite Ha0, Hb. cbn [mbind outcome_bind].
    repeat case_match; by eexists.
  - destruct Hd as [s1 Hd]. destruct (played s pid x s1 Hr Hd) as (_ & _ & (a0 & Ha0 & _) & _).
    apply (plays_possible "playHandmaid" [] handmaid); [done|].
    unfold handmaid.
    change (requireCountessNotForced s pid CardHandmaid) with (Ok (E:=error) tt). cbn [mbind outcome_bind].
    change (discardActor s pid x = Ok s1) in Hd. rewrite Hx in Hd. change 4 with CardHandmaid in Hd. rewrite Hd. cbn [mbind outcome_bind]. unfold player. rewrite Ha0. by eexists.
  - destruct (Hneed CardPrince Hx) as (s1 & H1 & Hl). destruct (Hl q ltac:(by right)) as [b Hb].
    apply (plays_possible "playPrince" [arg_string q] (λ p, prince p q)); [done|].
    unfold prince. rewrite (aim_self _ _ _ _ _ H1). cbn [mbind outcome_bind].
    case_match; [by eexists|]. unfold player. rewrite Hb. cbn [mbind outcome_bind].
    repeat case_match; by eexists.
  - destruct (Hneed CardKing Hx) as (s1 & H1 & Hl). destruct (Hl q ltac:(by right)) as [b Hb].
    destruct (Hl pid ltac:(by left)) as [a0 Ha0].
    apply (plays_possible "playKing" [arg_string q] (λ p, king p q)); [done|].
    unfold king. rewrite H1. cbn [mbind outcome_bind].
    destruct (isHandmaidImmune s1 q); [by eexists|]. unfold player. rewrite Ha0, Hb. by eexists.
  - destruct Hd as [s1 Hd]. apply (plays_possible "playPrincess" [] princess); [done|].
    unfold princess. rewrite Hx in Hd. change 8 with CardPrincess in Hd. rewrite Hd. by eexists.
  - by rewrite Hx in Hin.
Qed.
End table.
