(* ===== verification/LoveLetterRounds.v ===== *)
(** * Rounds of Love Letter

    What the hooks around a move do: the end of a round and its winners, the tokens, the
    new deal, the seat that comes next and its draw, with the cards accounted for. *)

From S2P Require Import Prelude CoreTypes Choices LoveLetter LoveLetterFacts.
#[local] Open Scope Z_scope.

From S2P Require Random.

Section rounds.
Context (order : list string) (Hnd : NoDup order) (Hlen : (2 ≤ length order ≤ 4)%nat).
Implicit Types (s : State).
Abbreviation sound := (LoveLetterFacts.sound order).

(** ** The living *)

Definition is_alive s pid : bool := match Players s !! pid with Some p => Alive p | None => false end.

Lemma is_alive_living s pid : is_alive s pid = true ↔ living s pid.
Proof. unfold is_alive, living. destruct (Players s !! pid); naive_solver. Qed.

Definition alive s : list string := filter (λ pid, is_alive s pid = true) order.

Lemma elem_alive s pid : sound s → pid ∈ alive s ↔ living s pid.
Proof.
  intros Hs. unfold alive. rewrite list_elem_of_filter, is_alive_living. split; [by intros [? _]|].
  intros Hl. split; [done|]. apply (sd_seats _ s Hs). destruct Hl as (p & -> & _). by eexists.
Qed.

Lemma seat_record s pid : sound s → pid ∈ order → ∃ p, Players s !! pid = Some p.
Proof. intros Hs Hin. by apply (sd_seats _ s Hs) in Hin. Qed.

Lemma aliveSeats_Ok s l : (∀ pid, pid ∈ l → is_Some (Players s !! pid)) →
  aliveSeats (E := error) s l = Ok (filter (λ pid, is_alive s pid = true) l).
Proof.
  induction l as [|pid l IH]; intros Hl; [done|]. cbn [aliveSeats].
  destruct (Hl pid ltac:(by left)) as [p Hp]. unfold player. rewrite Hp. cbn [mbind outcome_bind].
  rewrite IH by (intros q Hq; apply Hl; by right). cbn [mbind outcome_bind].
  assert (Ha : is_alive s pid = Alive p) by (unfold is_alive; by rewrite Hp).
  destruct (Alive p) eqn:Hal.
  - by rewrite filter_cons_True by (by rewrite Ha).
  - by rewrite filter_cons_False by (by rewrite Ha).
Qed.

Lemma alive_seats s : sound s → aliveSeats (E := error) s order = Ok (alive s).
Proof. intros Hs. apply aliveSeats_Ok. intros pid. apply (sd_seats _ s Hs). Qed.

(** ** The winners of a round *)

Lemma card_in_hand s pid : sound s → holding one s → living s pid → ∃ c, first_card s pid = Some c ∧ 1 ≤ c ≤ 8.
Proof.
  intros Hs Hh (p & Hp & Ha). specialize (Hh pid p Hp Ha). destruct (Hand p) as [|c l] eqn:Hhand; [done|].
  exists c. split; [unfold first_card; by rewrite Hp, Hhand|].
  apply (held_real order s pid p c Hs Hp). rewrite Hhand. by left.
Qed.

Lemma highest_spec s l h :
  h ≤ fold_left (higher s) l h ∧
  (∀ pid c, pid ∈ l → first_card s pid = Some c → c ≤ fold_left (higher s) l h) ∧
  (fold_left (higher s) l h = h ∨ ∃ pid, pid ∈ l ∧ first_card s pid = Some (fold_left (higher s) l h)).
Proof.
  revert h. induction l as [|q l IH]; intros h; cbn [fold_left].
  { split; [done|]. split; [|by left]. intros pid c Hin. by apply elem_of_nil in Hin. }
  destruct (IH (higher s h q)) as (H1 & H2 & H3).
  assert (Hh : h ≤ higher s h q) by (unfold higher; destruct (first_card s q); [case_decide; lia|lia]).
  split; [lia|]. split.
  - intros pid c [->|Hin]%elem_of_cons Hc; [|by eapply H2]. etrans; [|exact H1].
    unfold higher. rewrite Hc. case_decide; lia.
  - destruct H3 as [H3|(pid & Hin & Hc)]; [|right; exists pid; split; [by right|done]].
    rewrite H3. unfold higher. destruct (first_card s q) as [c|] eqn:Hq; [|by left].
    destruct (decide (h < c)) as [Hlt|]; [|by left]. right. exists q. split; [by left|done].
Qed.

Lemma insert_string_perm x l : insert_string x l ≡ₚ x :: l.
Proof.
  induction l as [|y l IH]; [done|]. simpl. destruct (String.leb x y); [done|]. rewrite IH. constructor.
Qed.

Lemma sort_strings_perm l : sort_strings l ≡ₚ l.
Proof.
  unfold sort_strings. induction l as [|x l IH]; [done|]. cbn [foldr]. by rewrite insert_string_perm, IH.
Qed.

(** The round goes to the living with the highest card, one or several. *)
Definition wins_round s w : Prop :=
  living s w ∧ ∃ c, first_card s w = Some c ∧
    ∀ q d, living s q → first_card s q = Some d → d ≤ c.

Lemma round_winners s w : sound s → holding one s →
  w ∈ determineRoundWinners s (alive s) ↔ wins_round s w.
Proof.
  intros Hs Hh. unfold wins_round.
  assert (Hmain : w ∈ sort_strings (filter (λ pid, first_card s pid = Some (highest_card s (alive s))) (alive s)) ↔
    living s w ∧ ∃ c, first_card s w = Some c ∧ ∀ q d, living s q → first_card s q = Some d → d ≤ c).
  { rewrite sort_strings_perm, list_elem_of_filter, elem_alive by done.
    destruct (highest_spec s (alive s) 0) as (H0 & Hle & Hat). fold (highest_card s (alive s)) in *.
    split.
    - intros [Hc Hl]. split; [done|]. eexists. split; [done|]. intros q d Hq Hd. apply (Hle q); [|done].
      by apply elem_alive.
    - intros [Hl (c & Hc & Hmax)]. split; [|done]. rewrite Hc. f_equal.
      assert (Hcle : c ≤ highest_card s (alive s)) by (apply (Hle w); [by apply elem_alive|done]).
      destruct (card_in_hand s w Hs Hh Hl) as (c' & Hc' & Hr). assert (c' = c) as -> by congruence.
      destruct Hat as [Hz|(q & Hq & Hcq)]; [lia|]. specialize (Hmax q _ (proj1 (elem_alive s q Hs) Hq) Hcq). lia. }
  unfold determineRoundWinners. destruct (alive s) as [|a [|b l]] eqn:Hal; [exact Hmain| |exact Hmain].
  rewrite list_elem_of_singleton. split.
  - intros ->. assert (Hla : living s a) by (apply elem_alive; [done|]; rewrite Hal; by left). split; [done|].
    destruct (card_in_hand s a Hs Hh Hla) as (c & Hc & _). exists c. split; [done|].
    intros q d Hq Hd. apply (elem_alive s q Hs) in Hq. rewrite Hal in Hq.
    apply list_elem_of_singleton in Hq as ->. replace d with c by congruence. lia.
  - intros [Hl _]. apply (elem_alive s w Hs) in Hl. rewrite Hal in Hl. by apply list_elem_of_singleton in Hl.
Qed.

Lemma alive_NoDup s : NoDup (alive s).
Proof. by apply NoDup_filter. Qed.

Lemma round_winners_NoDup s : NoDup (determineRoundWinners s (alive s)).
Proof.
  pose proof (alive_NoDup s) as Ha. unfold determineRoundWinners.
  assert (NoDup (sort_strings (filter (λ pid, first_card s pid = Some (highest_card s (alive s))) (alive s)))).
  { rewrite sort_strings_perm. by apply NoDup_filter. }
  by destruct (alive s) as [|a [|b l]].
Qed.

Lemma someone_wins s : sound s → holding one s → (∃ q, living s q) → ∃ w, wins_round s w.
Proof.
  intros Hs Hh (q & Hq). destruct (highest_spec s (alive s) 0) as (H0 & Hle & Hat).
  fold (highest_card s (alive s)) in *. destruct (card_in_hand s q Hs Hh Hq) as (c & Hc & Hr).
  assert (Hcl : c ≤ highest_card s (alive s)) by (apply (Hle q); [by apply elem_alive|done]).
  destruct Hat as [Hz|(w & Hw & Hcw)]; [lia|]. exists w. split; [by apply elem_alive|]. eexists. split; [done|].
  intros r d Hlr Hd. apply (Hle r); [by apply elem_alive|done].
Qed.

(** ** Tokens *)

Lemma give_token_lookup s pid q : Players (give_token s pid) !! q =
  (if decide (q = pid) then (λ p, set_Tokens (Tokens p + 1) p) <$> Players s !! q else Players s !! q).
Proof.
  unfold give_token. destruct (Players s !! pid) as [p|] eqn:Hp.
  - simpl. case_decide as Hq; [subst; by rewrite lookup_insert_eq, Hp|by rewrite lookup_insert_ne].
  - case_decide as Hq; [subst; by rewrite Hp|done].
Qed.

Lemma tokens_given l s q : NoDup l → Players (fold_left give_token l s) !! q =
  (if decide (q ∈ l) then (λ p, set_Tokens (Tokens p + 1) p) <$> Players s !! q else Players s !! q).
Proof.
  intros Hl. revert s. induction l as [|pid l IH]; intros s; cbn [fold_left].
  { rewrite decide_False; [done|apply not_elem_of_nil]. }
  apply NoDup_cons in Hl as [Hpl Hl]. rewrite (IH Hl), give_token_lookup.
  destruct (decide (q = pid)) as [->|Hne].
  - rewrite decide_False by done. by rewrite decide_True by (by left).
  - destruct (decide (q ∈ l)) as [Hq|Hq].
    + by rewrite decide_True by (by right).
    + rewrite decide_False; [done|]. by intros [?|?]%elem_of_cons.
Qed.

Lemma tokens_rest l s : Deck (fold_left give_token l s) = Deck s ∧ Burned (fold_left give_token l s) = Burned s ∧
  NextStarter (fold_left give_token l s) = NextStarter s ∧ NewRound (fold_left give_token l s) = NewRound s ∧
  MatchOver (fold_left give_token l s) = MatchOver s ∧ MatchWinners (fold_left give_token l s) = MatchWinners s ∧
  TokensToWin (fold_left give_token l s) = TokensToWin s ∧ Round (fold_left give_token l s) = Round s.
Proof.
  revert s. induction l as [|pid l IH]; intros s; [done|]. cbn [fold_left].
  destruct (IH (give_token s pid)) as (-> & -> & -> & -> & -> & -> & -> & ->).
  unfold give_token. by destruct (Players s !! pid).
Qed.

Lemma token_sound s pid : sound s → sound (give_token s pid).
Proof.
  intros Hs. unfold give_token. destruct (Players s !! pid) as [p|] eqn:Hp; [|done].
  apply (put_sound order s pid p); [done|done|done|]. exact (sd_dead _ s Hs pid p Hp).
Qed.

Lemma tokens_sound l s : sound s → sound (fold_left give_token l s).
Proof. revert s. induction l as [|pid l IH]; intros s Hs; [done|]. cbn [fold_left]. by apply IH, token_sound. Qed.

Lemma tokens_living l s q : NoDup l → living (fold_left give_token l s) q ↔ living s q.
Proof.
  intros Hl. unfold living. rewrite tokens_given by done.
  destruct (decide (q ∈ l)); [|done]. destruct (Players s !! q) as [p|]; simpl; [|done].
  split; intros (x & [= <-] & Ha); by eexists.
Qed.

Lemma tokens_holding l s f : NoDup l → holding f s → holding f (fold_left give_token l s).
Proof.
  intros Hl Hf q p. rewrite tokens_given by done. destruct (decide (q ∈ l)); [|apply Hf].
  destruct (Players s !! q) as [x|] eqn:Hx; simpl; [|done]. intros [= <-]. simpl. by apply Hf.
Qed.

(** ** After a move *)

(** No round has just ended, and the match goes on. *)
Record going s : Prop := {
  go_flip : NewRound s = false;
  go_over : MatchOver s = false;
  go_winners : MatchWinners s = [];
  go_tokens : ∀ pid p, Players s !! pid = Some p → Tokens p < TokensToWin s
}.

Lemma same_frame_going s s' : same_frame s s' → going s → going s'.
Proof.
  intros [Ht (_ & _ & H3 & _ & H5 & H6 & H7) _] [G1 G2 G3 G4]. split; [congruence..|].
  intros pid p Hp. specialize (Ht pid). rewrite Hp in Ht. destruct (Players s !! pid) as [q|] eqn:Hq; [|done].
  simpl in Ht. injection Ht as Ht. rewrite H7, Ht. by eapply G4.
Qed.

Lemma sound_ext s s' : Players s' = Players s → Deck s' = Deck s → Burned s' = Burned s → sound s → sound s'.
Proof.
  intros HP HD HB [H1 H2 H3]. split; [by rewrite HP| |by rewrite HP].
  intros c. unfold number, burned. rewrite HP, HD, HB. apply H2.
Qed.

(** The tokens still to be won, all players together. *)
Definition missing s : Z := total (λ p, TokensToWin s - Tokens p) (Players s).

Definition reached s pid : Prop := ∃ p, Players s !! pid = Some p ∧ TokensToWin s ≤ Tokens p.

Lemma arrived_Ok s l : (∀ pid, pid ∈ l → is_Some (Players s !! pid)) →
  ∃ a, arrived (E := error) s l = Ok a ∧ ∀ pid, pid ∈ a ↔ pid ∈ l ∧ reached s pid.
Proof.
  induction l as [|q l IH]; intros Hl.
  { exists []. split; [done|]. intros pid. split; [by intros ?%elem_of_nil|by intros [?%elem_of_nil _]]. }
  destruct IH as (a & Ha & Hin); [intros r Hr; apply Hl; by right|].
  destruct (Hl q ltac:(by left)) as [p Hp]. cbn [arrived]. unfold player. rewrite Hp. cbn [mbind outcome_bind].
  rewrite Ha. cbn [mbind outcome_bind].
  assert (Hq : reached s q ↔ TokensToWin s ≤ Tokens p) by (unfold reached; rewrite Hp; naive_solver).
  eexists. split; [reflexivity|]. intros pid. destruct (decide (TokensToWin s ≤ Tokens p)) as [Hr|Hr];
    rewrite ?elem_of_cons, Hin; naive_solver.
Qed.

Lemma total_ext (g h : PlayerState → Z) m : (∀ pid p, m !! pid = Some p → g p = h p) → total g m = total h m.
Proof.
  induction m as [|pid p m Hm IH] using map_ind; intros Hgh; [done|].
  rewrite !total_insert by done. rewrite IH.
  - f_equal. apply (Hgh pid). by rewrite lookup_insert_eq.
  - intros q x Hq. apply (Hgh q). rewrite lookup_insert_ne; [done|]. congruence.
Qed.

Lemma missing_token s pid : is_Some (Players s !! pid) → missing (give_token s pid) = missing s - 1.
Proof.
  intros [p Hp]. unfold missing, give_token. rewrite Hp. simpl. rewrite (total_put _ _ _ p) by done. simpl. lia.
Qed.

Lemma missing_tokens l s : (∀ pid, pid ∈ l → is_Some (Players s !! pid)) →
  missing (fold_left give_token l s) = missing s - Z.of_nat (length l).
Proof.
  revert s. induction l as [|pid l IH]; intros s Hl; [simpl; lia|]. cbn [fold_left length].
  rewrite IH.
  - rewrite missing_token by (apply Hl; by left). lia.
  - intros q Hq. rewrite give_token_lookup. specialize (Hl q ltac:(by right)) as [p Hp]. rewrite Hp.
    by case_decide; eexists.
Qed.

(** The round goes on: two are alive, and there is a card to draw. *)
Definition continues s : Prop := Deck s ≠ [] ∧ ∀ pid, ∃ q, q ≠ pid ∧ living s q.

(** The round is over: every winner has a token more. *)
Record scored s s' : Prop := {
  sc_winners : ∀ w, w ∈ RoundWinners s' ↔ wins_round s w;
  sc_tokens : ∀ pid p, Players s !! pid = Some p → ∃ p', Players s' !! pid = Some p' ∧
    (wins_round s pid → Tokens p' = Tokens p + 1) ∧ (¬ wins_round s pid → Tokens p' = Tokens p);
  sc_missing : missing s' < missing s;
  sc_goal : TokensToWin s' = TokensToWin s
}.

Lemma two_alive s : sound s → (1 < length (alive s))%nat → ∀ pid, ∃ q, q ≠ pid ∧ living s q.
Proof.
  intros Hs Hl pid. pose proof (alive_NoDup s) as Ha. destruct (alive s) as [|a [|b l]] eqn:Hal; simpl in Hl; [lia..|].
  apply NoDup_cons in Ha as [Hab _]. destruct (decide (a = pid)) as [->|Hne].
  - exists b. split; [intros ->; apply Hab; by left|]. apply (elem_alive s b Hs). rewrite Hal. right. by left.
  - exists a. split; [done|]. apply (elem_alive s a Hs). rewrite Hal. by left.
Qed.

Lemma after_move_spec s : sound s → holding one s → (∃ q, living s q) → going s →
  ∃ s', after_move (E := error) order s = Ok s' ∧ sound s' ∧ holding one s' ∧
    ((s' = s ∧ continues s) ∨
     (scored s s' ∧ MatchOver s' = true ∧ MatchWinners s' ≠ [] ∧ ∀ pid, pid ∈ MatchWinners s' ↔ reached s' pid) ∨
     (scored s s' ∧ MatchOver s' = false ∧ MatchWinners s' = [] ∧ NewRound s' = true ∧
      wins_round s (NextStarter s') ∧ ∀ pid, ¬ reached s' pid)).
Proof.
  intros Hs Hh Hal Hg. unfold after_move. rewrite alive_seats by done. cbn [mbind outcome_bind].
  destruct (decide _) as [[Hl HD]|Hend].
  { exists s. split_and!; try done. left. split; [done|]. split; [done|]. apply two_alive; [done|lia]. }
  set (ws := determineRoundWinners s (alive s)) in *.
  pose proof (round_winners_NoDup s) as Hnd'. fold ws in Hnd'.
  assert (Hws : ∀ w, w ∈ ws ↔ wins_round s w) by (intros w; by apply round_winners).
  set (s1 := set_RoundWinners ws (fold_left give_token ws s)) in *.
  destruct (tokens_rest ws s) as (HD1 & HB1 & HN1 & HF1 & HO1 & HM1 & HT1 & HR1).
  assert (Hs1 : sound s1) by (apply (sound_ext (fold_left give_token ws s)); [done..|by apply tokens_sound]).
  assert (Hh1 : holding one s1) by by apply (tokens_holding ws s one Hnd' Hh).
  assert (Hlook : ∀ q, Players s1 !! q = (if decide (q ∈ ws) then (λ p, set_Tokens (Tokens p + 1) p) <$> Players s !! q
    else Players s !! q)) by (intros q; by apply tokens_given).
  destruct (someone_wins s Hs Hh Hal) as (w0 & Hw0).
  assert (Hne : ws ≠ []) by (intros Hnil; apply Hws in Hw0; rewrite Hnil in Hw0; by apply elem_of_nil in Hw0).
  assert (Hsc : ∀ s', Players s' = Players s1 → RoundWinners s' = ws → TokensToWin s' = TokensToWin s1 → scored s s').
  { intros s' HP HW HT. split.
    - intros w. by rewrite HW.
    - intros pid p Hp. rewrite HP, Hlook, Hp. destruct (decide (pid ∈ ws)) as [Hin|Hin].
      + eexists. split; [done|]. split; [done|]. intros Hno. by apply Hws in Hin.
      + exists p. split; [done|]. split; [|done]. intros Hw. by apply Hws in Hw.
    - unfold missing. rewrite HP, HT. change (total (λ p, TokensToWin s1 - Tokens p) (Players s1))
        with (missing (fold_left give_token ws s)). rewrite missing_tokens.
      + assert (0 < length ws)%nat by (destruct ws; [done|simpl; lia]). unfold missing. lia.
      + intros pid Hin%Hws. destruct Hin as ((p & -> & _) & _). by eexists.
    - rewrite HT. exact HT1. }
  destruct (arrived_Ok s1 order) as (a & Ha & Hin); [intros pid; apply (sd_seats _ s1 Hs1)|].
  rewrite Ha. cbn [mbind outcome_bind].
  assert (HMW : MatchWinners s1 = []) by (change (MatchWinners s1) with (MatchWinners (fold_left give_token ws s)); rewrite HM1; apply Hg).
  assert (HMO : MatchOver s1 = false) by (change (MatchOver s1) with (MatchOver (fold_left give_token ws s)); rewrite HO1; apply Hg).
  rewrite HMW. cbn [app].
  assert (Ha' : ∀ pid, pid ∈ a ↔ reached s1 pid).
  { intros pid. rewrite Hin. split; [by intros [_ ?]|]. intros Hr. split; [|done].
    apply (sd_seats _ s1 Hs1). destruct Hr as (p & -> & _). by eexists. }
  destruct (decide (a ≠ [])) as [Hae|Hae].
  - eexists. split; [reflexivity|]. split; [by apply (sound_ext s1)|]. split; [exact Hh1|]. right. left.
    split; [by apply Hsc|]. split; [done|]. split; [done|exact Ha'].
  - apply dec_stable in Hae. destruct ws as [|w ws'] eqn:Hwse; [done|]. eexists. split; [reflexivity|].
    split; [by apply (sound_ext s1)|]. split; [exact Hh1|]. right. right. split; [by apply Hsc|]. split.
    { exact HMO. }
    split; [done|]. split; [done|]. split; [apply Hws; by left|].
    intros pid Hr. apply Ha' in Hr. rewrite Hae in Hr. by apply elem_of_nil in Hr.
Qed.
End rounds.

(** ** Deals and turns of Love Letter

    The first deal and the deals between rounds, who comes next, and the draw a turn
    begins with. *)

From S2P Require Random.

Section deals.
Context (order : list string) (Hnd : NoDup order) (Hlen : (2 ≤ length order ≤ 4)%nat).
Implicit Types (s : State).
Abbreviation sound := (LoveLetterFacts.sound order).

(** ** Dealing *)

Section deal.
Context (give : Card → option PlayerState → outcome error PlayerState) (g : Card → PlayerState → PlayerState)
  (Hgive : ∀ c p, give c (Some p) = Ok (g c p)).

(** Each seat gets one card, in order; the other seats keep what they have. *)
Lemma deal_ok l players deck : NoDup l → (∀ pid, pid ∈ l → is_Some (players !! pid)) → (length l ≤ length deck)%nat →
  ∃ players', deal give l players deck = Ok (players', drop (length l) deck) ∧
    (∀ q, q ∉ l → players' !! q = players !! q) ∧
    (∀ i pid, l !! i = Some pid → ∃ p c, players !! pid = Some p ∧ deck !! i = Some c ∧ players' !! pid = Some (g c p)).
Proof.
  revert players deck. induction l as [|pid l IH]; intros players deck Hl Hp Hd; simpl in *.
  { exists players. split; [done|]. split; [done|]. intros i q Hi. by rewrite lookup_nil in Hi. }
  apply NoDup_cons in Hl as [Hpl Hl]. destruct deck as [|c deck]; simpl in Hd; [lia|].
  cbn [take_card mbind outcome_bind]. destruct (Hp pid ltac:(by left)) as [p Hpid]. rewrite Hpid, Hgive.
  cbn [mbind outcome_bind].
  destruct (IH (<[pid := g c p]> players) deck Hl) as (players' & HR & Hout & Hin); [|lia|].
  { intros q Hq. destruct (decide (q = pid)) as [->|Hne]; [by rewrite lookup_insert_eq; eexists|].
    rewrite lookup_insert_ne by done. apply Hp. by right. }
  exists players'. split; [exact HR|]. split.
  - intros q Hq. apply not_elem_of_cons in Hq as [Hq1 Hq2]. rewrite Hout by done. by rewrite lookup_insert_ne.
  - intros [|i] q Hi; simpl in Hi.
    + injection Hi as <-. exists p, c. split; [done|]. split; [done|]. rewrite Hout by done. by rewrite lookup_insert_eq.
    + destruct (Hin i q Hi) as (p' & c' & Hp' & Hc' & Hq'). exists p', c'. split; [|done].
      rewrite lookup_insert_ne in Hp'; [done|]. intros ->. apply Hpl. by eapply list_elem_of_lookup_2.
Qed.
End deal.

(** A sum over the players, taken seat by seat. *)
Definition seat_sum (h : PlayerState → Z) (l : list string) (m : gmap string PlayerState) : Z :=
  foldr (λ pid n, match m !! pid with Some p => h p + n | None => n end) 0 l.

Lemma seat_sum_delete h l m q : q ∉ l → seat_sum h l (delete q m) = seat_sum h l m.
Proof.
  induction l as [|pid l IH]; intros Hq; [done|]. apply not_elem_of_cons in Hq as [Hne Hq]. simpl.
  by rewrite lookup_delete_ne, IH.
Qed.

Lemma total_seats h l m : NoDup l → (∀ pid, pid ∈ l ↔ is_Some (m !! pid)) → total h m = seat_sum h l m.
Proof.
  revert m. induction l as [|pid l IH]; intros m Hl Hm.
  { assert (m = ∅) as ->; [|done]. apply map_empty. intros q. apply eq_None_not_Some. rewrite <-Hm.
    apply not_elem_of_nil. }
  apply NoDup_cons in Hl as [Hpl Hl]. destruct (proj1 (Hm pid) ltac:(by left)) as [p Hp]. simpl. rewrite Hp.
  rewrite <-(insert_delete_id m pid p Hp) at 1. rewrite total_insert by apply lookup_delete_eq.
  rewrite (IH (delete pid m)).
  - by rewrite seat_sum_delete.
  - done.
  - intros q. destruct (decide (q = pid)) as [->|Hne].
    + rewrite lookup_delete_eq. split; [done|by intros [? ?]].
    + rewrite lookup_delete_ne by done. rewrite <-Hm, elem_of_cons. naive_solver.
Qed.

Lemma seat_sum_cards c l m deck : (length l ≤ length deck)%nat →
  (∀ i pid, l !! i = Some pid → ∃ p d, m !! pid = Some p ∧ deck !! i = Some d ∧ Hand p = [d] ∧ Discard p = []) →
  seat_sum (held c) l m = cnt c (take (length l) deck).
Proof.
  revert deck. induction l as [|pid l IH]; intros deck Hd Hi; [by rewrite take_0|].
  destruct deck as [|d deck]; simpl in Hd; [lia|]. simpl.
  destruct (Hi 0%nat pid eq_refl) as (p & d' & Hp & [= <-] & Hh & Hdi). rewrite Hp, cnt_cons.
  rewrite (IH deck).
  - unfold held. rewrite Hh, Hdi, cnt_cons, !cnt_nil. lia.
  - lia.
  - intros i q Hq. exact (Hi (S i) q Hq).
Qed.

(** A table after a deal: everybody is alive with one card. *)
Record dealt_from (deck : list Card) s : Prop := {
  df_sound : sound s;
  df_hands : holding one s;
  df_alive : ∀ pid, pid ∈ order → living s pid;
  df_burned : Burned s ≠ CardNone;
  df_deck : Deck s = drop (S (length order)) deck
}.

Lemma fresh_length deck : deck ≡ₚ freshDeck → length deck = 16%nat.
Proof. intros H. by rewrite H. Qed.

Lemma fresh_real deck c : deck ≡ₚ freshDeck → c ∈ deck → c ≠ CardNone.
Proof.
  intros H Hc. rewrite H in Hc. assert (Hall : Forall (λ x, x ≠ CardNone) freshDeck) by (apply (bool_decide_unpack _); by vm_compute).
  by eapply (proj1 (Forall_forall _ _) Hall).
Qed.

(** The deal as such, for whichever way a seat receives its card. *)
Lemma deal_table (give : Card → option PlayerState → outcome error PlayerState) g players deck burned_ rest :
  (∀ c p, give c (Some p) = Ok (g c p)) →
  (∀ c pid p, players !! pid = Some p → Hand (g c p) = [c] ∧ Discard (g c p) = [] ∧ Alive (g c p) = true) →
  (∀ pid, pid ∈ order ↔ is_Some (players !! pid)) → deck ≡ₚ freshDeck → deck = burned_ :: rest →
  ∃ players', deal give order players rest = Ok (players', drop (length order) rest) ∧
    (∀ pid p, players !! pid = Some p → ∃ c, players' !! pid = Some (g c p)) ∧
    (∀ s', Players s' = players' → Deck s' = drop (length order) rest → Burned s' = burned_ → dealt_from deck s').
Proof.
  intros Hgive Hg Hseats Hperm Hdeck. pose proof (fresh_length deck Hperm) as H16.
  assert (Hl : (length order ≤ length rest)%nat) by (rewrite Hdeck in H16; simpl in H16; lia).
  destruct (deal_ok give g Hgive order players rest Hnd ltac:(intros pid; apply Hseats) Hl) as (players' & HR & Hout & Hin).
  assert (Hb : burned_ ≠ CardNone) by (apply (fresh_real deck); [done|rewrite Hdeck; by left]).
  assert (Hrec : ∀ pid p, players !! pid = Some p → ∃ c, players' !! pid = Some (g c p)).
  { intros pid p Hp. assert (pid ∈ order) as Ho by (apply Hseats; by eexists).
    apply list_elem_of_lookup in Ho as [i Hi]. destruct (Hin i pid Hi) as (p' & c & Hp' & _ & Hc).
    exists c. by replace p with p' by congruence. }
  assert (Hseats' : ∀ pid, pid ∈ order ↔ is_Some (players' !! pid)).
  { intros pid. split.
    - intros Ho. apply Hseats in Ho as [p Hp]. destruct (Hrec pid p Hp) as [c Hc]. by eexists.
    - intros Hs. destruct (decide (pid ∈ order)) as [|Hno]; [done|]. rewrite Hout in Hs by done. by apply Hseats. }
  assert (Hlook : ∀ pid p, players' !! pid = Some p → ∃ c, Hand p = [c] ∧ Alive p = true).
  { intros pid p Hp. assert (Ho : pid ∈ order) by (apply Hseats'; by eexists).
    apply list_elem_of_lookup in Ho as [i Hi]. destruct (Hin i pid Hi) as (p' & c & Hp' & _ & Hc).
    destruct (Hg c pid p' Hp') as (H1 & _ & H3). exists c. by replace p with (g c p') by congruence. }
  exists players'. split; [exact HR|]. split; [exact Hrec|]. intros s' HP HD HB. split.
  - split.
    + by rewrite HP.
    + intros c. unfold number, burned. rewrite HP, HD, HB, decide_False by done.
      rewrite (total_seats _ order) by done. rewrite (seat_sum_cards c order players' rest Hl).
      * pose proof (cnt_app c (take (length order) rest) (drop (length order) rest)) as Hsplit.
        rewrite take_drop in Hsplit.
        rewrite <-(cnt_perm c _ _ Hperm), Hdeck, !cnt_cons, cnt_nil, Hsplit.
        unfold Card in *. lia.
      * intros i pid Hi. destruct (Hin i pid Hi) as (p & d & Hp & Hd & Hq). destruct (Hg d pid p Hp) as (H1 & H2 & _).
        eexists _, d. split; [exact Hq|]. split; [done|]. split; done.
    + intros pid p. rewrite HP. intros Hp Ha. destruct (Hlook pid p Hp) as (_ & _ & Ha'). congruence.
  - intros pid p. rewrite HP. intros Hp _. by destruct (Hlook pid p Hp) as (c & -> & _).
  - intros pid Ho. apply Hseats' in Ho as [p Hp]. exists p. rewrite HP. split; [done|]. by destruct (Hlook pid p Hp) as (c & _ & ?).
  - by rewrite HB.
  - by rewrite HD, Hdeck.
Qed.

(** ** The first deal, and the later ones *)

Lemma shuffled_deck seed : deterministicShuffle freshDeck seed ≡ₚ freshDeck.
Proof. unfold deterministicShuffle. by destruct (Random.shuffle_from_spec (length freshDeck - 1) seed freshDeck). Qed.

Lemma seated_lookup l m q : Players (mkLetter (fold_left (λ m pid, <[pid := newcomer]> m) l m) [] 0 0 "" false [] false [] 0) !! q =
  (if decide (q ∈ l) then Some newcomer else m !! q).
Proof.
  simpl. revert m. induction l as [|pid l IH]; intros m; cbn [fold_left].
  { rewrite decide_False; [done|apply not_elem_of_nil]. }
  rewrite IH. destruct (decide (q ∈ l)) as [Hq|Hq].
  - by rewrite decide_True by (by right).
  - destruct (decide (q = pid)) as [->|Hne].
    + rewrite lookup_insert_eq. by rewrite decide_True by (by left).
    + rewrite lookup_insert_ne by done. rewrite decide_False; [done|]. by intros [?|?]%elem_of_cons.
Qed.

Lemma initial_ok n : 2 ≤ n ≤ 4 → ∃ s deck, initial (E := error) n order = Ok s ∧ deck ≡ₚ freshDeck ∧
  dealt_from deck s ∧ going s ∧ TokensToWin s = tokensToWin n.
Proof.
  intros Hn. unfold initial. set (players := fold_left _ order ∅).
  set (deck := deterministicShuffle _ _). assert (Hperm : deck ≡ₚ freshDeck) by apply shuffled_deck.
  pose proof (fresh_length deck Hperm) as H16. destruct deck as [|b rest] eqn:Hdeck; [done|]. rewrite <-Hdeck in Hperm.
  cbn [take_card mbind outcome_bind].
  assert (Hlook : ∀ q, players !! q = (if decide (q ∈ order) then Some newcomer else None)).
  { intros q. pose proof (seated_lookup order ∅ q) as H. simpl in H. unfold players. by rewrite H, lookup_empty. }
  destruct (deal_table first_hand (λ c p, set_Hand [c] p) players deck b rest) as (players' & HR & Hrec & Hdf).
  - done.
  - intros c pid p. rewrite Hlook. case_decide; [|done]. by intros [= <-].
  - intros pid. rewrite Hlook. case_decide; [|by split; [|intros [? ?]]]. split; [by eexists|done].
  - done.
  - done.
  - rewrite HR. cbn [mbind outcome_bind]. eexists _, deck. split; [reflexivity|]. split; [done|].
    split; [apply Hdf; done|]. split; [|done]. split; [done..|]. intros pid p. simpl. intros Hp.
    assert (Hin : is_Some (players !! pid)).
    { rewrite Hlook. destruct (decide (pid ∈ order)) as [|Hno]; [by eexists|]. exfalso.
      pose proof (sd_seats _ _ (df_sound _ _ (Hdf (mkLetter players' (drop (length order) rest) b 0 "" false [] false [] 0)
        eq_refl eq_refl eq_refl))) as Hseat. apply Hno, Hseat. simpl. by eexists. }
    destruct Hin as [p0 Hp0]. destruct (Hrec pid p0 Hp0) as [c Hc]. rewrite Hlook in Hp0. case_decide; [|done].
    injection Hp0 as <-. assert (p = set_Hand [c] newcomer) as -> by congruence. simpl. unfold tokensToWin.
    repeat case_decide; lia.
Qed.

Lemma dealt_ok s deck : (∀ pid, pid ∈ order ↔ is_Some (Players s !! pid)) → deck ≡ₚ freshDeck →
  ∃ s', dealt (E := error) order deck s = Ok s' ∧ dealt_from deck s' ∧
    (∀ pid, Tokens <$> Players s' !! pid = Tokens <$> Players s !! pid) ∧
    Round s' = Round s ∧ NextStarter s' = NextStarter s ∧ NewRound s' = NewRound s ∧ MatchOver s' = MatchOver s ∧
    MatchWinners s' = MatchWinners s ∧ TokensToWin s' = TokensToWin s.
Proof.
  intros Hseats Hperm. pose proof (fresh_length deck Hperm) as H16.
  destruct deck as [|b rest] eqn:Hdeck; [done|]. rewrite <-Hdeck in *. unfold dealt. rewrite Hdeck.
  cbn [take_card mbind outcome_bind].
  destruct (deal_table new_hand (λ c p, mkPlayer [c] [] (Tokens p) true false ∅) (Players s) deck b rest)
    as (players' & HR & Hrec & Hdf); [done|done|done|done|done|].
  rewrite HR. cbn [mbind outcome_bind]. eexists. split; [reflexivity|].
  rewrite <-Hdeck. assert (Hd := Hdf (set_Players players' (set_Deck (drop (length order) rest) (set_Burned b s)))
    eq_refl eq_refl eq_refl). split; [exact Hd|]. split; [|done].
  intros pid. simpl. destruct (Players s !! pid) as [p|] eqn:Hp.
  - destruct (Hrec pid p Hp) as [c Hc]. by rewrite Hc.
  - destruct (players' !! pid) as [p'|] eqn:Hp'; [|done]. exfalso.
    assert (Hin : pid ∈ order) by (apply (sd_seats _ _ (df_sound _ _ Hd)); simpl; by eexists).
    apply Hseats in Hin. rewrite Hp in Hin. by destruct Hin.
Qed.

(** ** The next seat *)

Lemma next_alive_ok s pos n i k q : sound s → 0 ≤ pos → 0 ≤ i → (k < n)%nat →
  go_index order (Z.rem (pos + i + Z.of_nat k) (Z.of_nat (length order))) = Some q → living s q →
  ∃ m p, next_alive (E := error) s order (Z.of_nat (length order)) pos n i = Ok (Some m) ∧
    go_index order m = Some p ∧ living s p.
Proof.
  intros Hs Hpos. revert i k. induction n as [|n IH]; intros i k Hi Hk Hq Hl; [lia|].
  cbn [next_alive]. cbv zeta. set (m := Z.rem (pos + i) (Z.of_nat (length order))).
  assert (Hm : 0 ≤ m < Z.of_nat (length order)) by (apply Z.rem_bound_pos; lia).
  destruct (lookup_lt_is_Some_2 order (Z.to_nat m)) as [pid Hpid]; [lia|].
  assert (Hgo : go_index order m = Some pid) by (apply go_index_Some; split; [lia|done]).
  rewrite Hgo. destruct (seat_record order s pid Hs) as [p Hp]; [by eapply list_elem_of_lookup_2|].
  unfold player. rewrite Hp. cbn [mbind outcome_bind]. destruct (Alive p) eqn:Ha.
  - exists m, pid. split; [done|]. split; [done|]. by exists p.
  - destruct k as [|k].
    + rewrite Z.add_0_r in Hq. fold m in Hq. assert (q = pid) as -> by congruence.
      destruct Hl as (p' & Hp' & Ha'). congruence.
    + apply (IH (i + 1) k); [lia|lia| |done]. by replace (pos + (i + 1) + Z.of_nat k) with (pos + i + Z.of_nat (S k)) by lia.
Qed.

Lemma next_turn_ok s pos : sound s → 0 ≤ pos < Z.of_nat (length order) → (∃ q, living s q) →
  (NewRound s = true → living s (NextStarter s)) →
  ∃ m p, next_turn (E := error) (Z.of_nat (length order)) order pos s = Ok (Some m) ∧ 0 ≤ m < Z.of_nat (length order) ∧
    go_index order m = Some p ∧ living s p ∧ (NewRound s = true → p = NextStarter s).
Proof.
  intros Hs Hpos (q & Hq) Hst. unfold next_turn.
  assert (Hin : ∀ r, living s r → r ∈ order) by (intros r (p & Hp & _); apply (sd_seats _ s Hs); by eexists).
  destruct (NewRound s) eqn:Hnew.
  - specialize (Hst eq_refl). destruct (find_index _ order) as [i|] eqn:Hi.
    + pose proof (find_index_lt _ _ _ Hi) as Hlt. apply find_index_Some in Hi as [(x & Hx & Hb) _].
      apply bool_decide_eq_true in Hb as ->. exists (Z.of_nat i), (NextStarter s).
      split; [done|]. split; [lia|]. split; [|done]. apply go_index_Some. split; [lia|]. by rewrite Nat2Z.id.
    + apply find_index_None in Hi. rewrite Forall_forall in Hi. specialize (Hi _ (Hin _ Hst)).
      by rewrite bool_decide_true in Hi.
  - apply Hin in Hq as Hqo. apply list_elem_of_lookup in Hqo as [j Hj]. apply lookup_lt_Some in Hj as Hjl.
    set (len := Z.of_nat (length order)). set (d := (Z.of_nat j - pos - 1) mod len).
    assert (Hd : 0 ≤ d < len) by (apply Z.mod_pos_bound; unfold len; lia).
    destruct (next_alive_ok s pos (Z.to_nat len) 1 (Z.to_nat d) q Hs) as (m & p & HR & Hgo & Hl); [lia|lia|lia| |done|].
    + fold len. rewrite Z2Nat.id by lia. rewrite Z.rem_mod_nonneg by lia. unfold d.
      rewrite Zplus_mod_idemp_r. replace (pos + 1 + (Z.of_nat j - pos - 1)) with (Z.of_nat j) by lia.
      rewrite Z.mod_small by (unfold len; lia). apply go_index_Some. split; [lia|]. by rewrite Nat2Z.id.
    + exists m, p. split; [exact HR|]. apply go_index_Some in Hgo as Hr. split; [lia|]. split; [done|]. split; [done|done].
Qed.

(** ** The draw *)

Lemma begin_turn_ok s pid : sound s → holding one s → living s pid → (∃ q, q ≠ pid ∧ living s q) →
  Burned s ≠ CardNone → Deck s ≠ [] →
  let s' := begin_turn pid s in ready order s' pid ∧ NewRound s' = false ∧
    (∀ q, Tokens <$> Players s' !! q = Tokens <$> Players s !! q) ∧ MatchOver s' = MatchOver s ∧
    MatchWinners s' = MatchWinners s ∧ TokensToWin s' = TokensToWin s ∧ S (length (Deck s')) = length (Deck s).
Proof.
  intros Hs Hh (p & Hp & Ha) (q & Hq & Hlq) Hb HD s'. unfold s', begin_turn. simpl. rewrite Hp.
  destruct (Deck s) as [|c deck] eqn:HDs; [done|].
  set (p' := set_Hand (Hand p ++ [c]) (set_Protected false p)).
  split; [|split_and!; try done].
  - split; [split| | | |].
    + intros r. simpl. rewrite (sd_seats _ s Hs). destruct (decide (r = pid)) as [->|Hne].
      * rewrite lookup_insert_eq, Hp. split; by eexists.
      * by rewrite lookup_insert_ne.
    + intros x. pose proof (sd_cards _ s Hs x) as Hx.
      set (s1 := set_Deck deck (set_flip (NextStarter s) false s)).
      assert (Hp1 : Players s1 !! pid = Some p) by done.
      change (number x (put pid p' s1) = cnt x freshDeck). rewrite (number_put x s1 pid p p' Hp1), <-Hx.
      unfold number, burned, held, p', s1. simpl. rewrite HDs, cnt_app, !cnt_cons, cnt_nil. unfold Card in *.
      lia.
    + intros r x. simpl. destruct (decide (r = pid)) as [->|Hne].
      * rewrite lookup_insert_eq. intros [= <-]. simpl. congruence.
      * rewrite lookup_insert_ne by done. apply (sd_dead _ s Hs).
    + exists p'. simpl. by rewrite lookup_insert_eq.
    + intros r x. simpl. unfold two_for. destruct (decide (r = pid)) as [->|Hne].
      * rewrite lookup_insert_eq. intros [= <-] _. simpl. rewrite length_app, (Hh pid p Hp Ha). done.
      * rewrite lookup_insert_ne by done. apply Hh.
    + exists q. split; [done|]. destruct Hlq as (y & Hy & Hya). exists y. simpl. by rewrite lookup_insert_ne.
    + done.
  - intros r. simpl. destruct (decide (r = pid)) as [->|Hne]; [by rewrite lookup_insert_eq, Hp|by rewrite lookup_insert_ne].
Qed.
End deals.
