(* ===== verification/LoveLetterMatch.v ===== *)
(** * Love Letter over the engine

    A request on a match of Love Letter through the whole reducer, and matches played to
    their end. *)

From S2P Require Import Prelude CoreTypes Api GameDef Reducer Session OneMove PluginRandom HookedMove.
From S2P Require Import Choices LoveLetter LoveLetterFacts LoveLetterRounds.
From S2P Require Random.
#[local] Open Scope Z_scope.

(** ** No move of the player on turn panics *)
Section decided.
Context (order : list string).
Implicit Types (s : State).














End decided.


(** ** The hooks as the engine runs them *)

(** Never computed here. *)
#[local] Opaque Random.shuffle.

Section love_letter.
Context (wild : SpecFloat.spec_float → Z).
Abbreviation game := (New wild).
Implicit Types (g : State) (s : CoreTypes.State) (w : world).






(** The rest of them use no memory. *)
Lemma memory_ext {A} (p : prog A) f f' : memory_only p f → (∀ w, f w = f' w) → memory_only p f'.
Proof. intros Hp Hf c e extra. rewrite Hp. by rewrite Hf. Qed.








(** ** Turns *)

Context (seats : list string) (Hnd : NoDup seats) (Hlen : (2 ≤ length seats ≤ 4)%nat).









(** ** Requests *)








(** ** Matches *)








End love_letter.

(** ** New matches *)


#[local] Transparent Random.shuffle.



#[local] Opaque Random.shuffle.

Section new_match.
Context (wild : SpecFloat.spec_float → Z).
Abbreviation game := (New wild).



End new_match.

(** ** What a seat is sent *)

(** What [v] may know is the same: the own cards, and of the others what lies open. *)
Record alike (v : string) (g g' : State) : Prop := {
  al_own : Players g !! v = Players g' !! v;
  al_open : ∀ q, (λ p, (Discard p, Tokens p, Alive p, Protected p)) <$> Players g !! q =
    (λ p, (Discard p, Tokens p, Alive p, Protected p)) <$> Players g' !! q;
  al_table : Round g = Round g' ∧ NextStarter g = NextStarter g' ∧ NewRound g = NewRound g' ∧
    RoundWinners g = RoundWinners g' ∧ MatchOver g = MatchOver g' ∧ MatchWinners g = MatchWinners g' ∧
    TokensToWin g = TokensToWin g'
}.

Lemma alike_view v g g' : alike v g g' → view v g = view v g'.
Proof.
  intros [Ho Hq (H1 & H2 & H3 & H4 & H5 & H6 & H7)]. unfold view. f_equal; try done.
  apply map_eq. intros q. rewrite !map_lookup_imap. specialize (Hq q). unfold view_player.
  destruct (decide (q = v)) as [->|Hne]; [by rewrite Ho|].
  destruct (Players g !! q), (Players g' !! q); simpl in *; [|done..]. by injection Hq as -> -> -> ->.
Qed.

(** A seat is sent the same whatever the other hands, the deck, the burned card, the
    match's seed and the state of its random stream are. *)
Theorem hands_stay_secret wild v g g' c c' id log n n' w w' : alike v g g' →
  set_ctx_Seed 0 c = set_ctx_Seed 0 c' →
  wire (PlayerView (New wild) (resting n (Some (VState g)) c id log) v w) =
  wire (PlayerView (New wild) (resting n' (Some (VState g')) c' id log) v w').
Proof.
  intros Ha Hc. unfold wire, PlayerView. simpl. rewrite (alike_view v g g' Ha), Hc. reflexivity.
Qed.

Lemma alike_hidden v q p hand deck burned_ g : q ≠ v → Players g !! q = Some p →
  alike v g (put q (set_Hand hand p) (set_Deck deck (set_Burned burned_ g))).
Proof.
  intros Hq Hp. split; simpl; [by rewrite lookup_insert_ne| |done].
  intros r. destruct (decide (r = q)) as [->|Hne]; [by rewrite lookup_insert_eq, Hp|by rewrite lookup_insert_ne].
Qed.

(** Two players; nobody but the second knows whether the second holds the Princess. *)
Definition duel : State :=
  mkLetter {[ "0" := set_Hand [CardGuard; CardKing] newcomer; "1" := set_Hand [CardPrincess] newcomer ]}
    [CardPriest; CardBaron] CardPrince 1 "" false [] false [] 7.

Lemma hands_stay_secret_witness : ∃ g', Players g' !! "1" = Some (set_Hand [CardPriest] newcomer) ∧
  wire (PlayerView (New (λ _, 0)) (resting 0 (Some (VState duel)) (initial_ctx (New (λ _, 0)) 2 "0" 7) 0 []) "0" [1]) =
  wire (PlayerView (New (λ _, 0)) (resting 0 (Some (VState g')) (initial_ctx (New (λ _, 0)) 2 "0" 9) 0 []) "0" [2]).
Proof.
  exists (put "1" (set_Hand [CardPriest] (set_Hand [CardPrincess] newcomer))
    (set_Deck [CardPrincess] (set_Burned CardBaron duel))). split; [reflexivity|].
  apply (hands_stay_secret (λ _, 0) "0" duel); [|reflexivity].
  by apply (alike_hidden "0" "1" (set_Hand [CardPrincess] newcomer)).
Defined.
