(* ===== verification/StackDuel.v ===== *)
(** * Stackduel

    [src/games/stackduel/stackduel.go]: a two-player spell duel with a stack of pending
    effects and windows to respond in, written on the card, priority and economy modules.
    The game's [*State] lives in the memory the engine never inspects and is changed in
    place; a move is a computation on it that keeps what it did on every exit. *)

From S2P Require Import Prelude CoreTypes Api GameDef Choices Floats Random Cards Effects Priority Economy.
#[local] Open Scope Z_scope.

(** ** Data *)

(** The game's event handlers: the router of creatures entering, and each Glowmoth's own. *)
Inductive hook : Type := Entered | Moth (id : EntityID).

Abbreviation CardState := (Cards.State hook).

Record State := mkDuel {
  du_State : CardState;
  du_Priority : PriorityState;
  Players : gmap string EntityID
}.

Definition startingLife : Z := 8.
Definition manaPerTurn : Z := 3.
Definition openingHand : Z := 4.
Definition respondStage : string := "respond".
Definition stackZone : ZoneName := "stack".
Definition lifeKind : string := "life".

Definition handZone (pid : string) : ZoneName := "hand:" +:+ pid.
Definition deckZone (pid : string) : ZoneName := "deck:" +:+ pid.
Definition fieldZone (pid : string) : ZoneName := "battlefield:" +:+ pid.
Definition graveZone (pid : string) : ZoneName := "graveyard:" +:+ pid.

Inductive value : Type :=
  | VState
  | VGo (v : GoVal)
  | VWinner (player : string)
  | VDraw.

#[export] Instance DuelTypes : GoTypes :=
  {| val := value; world := option State; val_true := VGo (GoBool true);
     randref := (); as_Random := λ _, None |}.

(** ** Cards *)

Record spec := mkSpec {
  sp_cost : Cost;
  sp_generic : Z;
  sp_instant : bool;
  sp_kind : string;
  sp_data : gmap string GoVal
}.

Definition amount (n : Z) : gmap string GoVal := {["amount" := GoInt "" KInt n]}.

Definition specs : gmap string spec :=
  {[ "sunbolt" := mkSpec {["sun" := 1]} 0 true "damage" (amount 2);
     "emberfall" := mkSpec {["sun" := 2]} 1 false "damage" (amount 4);
     "moonveil" := mkSpec {["moon" := 1]} 0 true "counter" ∅;
     "lunartide" := mkSpec {["moon" := 1]} 0 true "gain_life" (amount 2);
     "eclipse" := mkSpec (<["sun" := 1]> {["moon" := 1]}) 0 false "drain" (amount 2);
     "glowmoth" := mkSpec {["sun" := 1]} 0 false "summon" ∅;
     "duskwisp" := mkSpec {["moon" := 1]} 0 false "summon" ∅;
     "starling" := mkSpec ∅ 2 false "summon" ∅ ]}.

Definition deckOrder : list string :=
  ["eclipse"; "emberfall"; "lunartide"; "starling"; "duskwisp"; "glowmoth"; "moonveil"; "sunbolt"].

(** [Register] for each spec; a duplicate would panic. *)
Definition catalog : outcome ccg_error Catalog :=
  map_fold (λ id sp c, c ← c; Register (mkDef id (sp_kind sp) {["instant" := AVal (GoBool (sp_instant sp))]}) c)
    (Ok ∅) specs.

(** ** Subscribers *)

Definition bindGlowmoth (moth : EntityID) (s : CardState) : CardState :=
  let owner := match Entities s !! moth with Some e => EffectiveController e | None => "" end in
  (BindAbility moth [fieldZone owner] (Some (MatchType "creature_entered")) (Moth moth) s).2.

Definition stage (eff : Effect) (s : CardState) : CardState := (StageTrigger eff s).2.

(** The handlers' bodies: none publishes, fails or panics. *)
Definition handle (h : hook) (ev : Event) (s : CardState) : option CardState :=
  match h with
  | Entered =>
      match Entities s !! ev_Source ev with
      | None => Some s
      | Some e =>
          let s := if decide (en_DefID e = "duskwisp")
                   then stage (EffectFrom (ev_Source ev) "drain"
                          (<["only_opponent" := GoBool true]> (amount 1)) s) s
                   else s in
          Some (if decide (en_DefID e = "glowmoth") then bindGlowmoth (ev_Source ev) s else s)
      end
  | Moth moth =>
      if decide (ev_Source ev = moth) then Some s
      else Some (stage (EffectFrom moth "gain_life" (amount 1) s) s)
  end.

(** [orderedKeys]: insertion of each key before the larger ones. *)
Definition orderedKeys {V} (m : gmap string V) : list string := sort_strings (map_to_list m).*1.

Definition bind_moths (s : CardState) (members : list EntityID) : CardState :=
  fold_left (λ s id,
    match Entities s !! id with
    | Some e => if decide (en_DefID e = "glowmoth") then bindGlowmoth id s else s
    | None => s
    end) members s.

Definition wire (players : gmap string EntityID) (s : CardState) : CardState :=
  let s := (Subscribe (Some (MatchType "creature_entered")) (GameHandler Entered) s).2 in
  fold_left (λ s pid,
    match Zones s !! fieldZone pid with
    | Some z => bind_moths s (zn_Members z)
    | None => s
    end) (orderedKeys players) s.

(** ** Computations

    On the state and the events queued so far. *)

Abbreviation CM := (ST CardState ccg_error).
Abbreviation M := (ST (State * list event) error).

Definition set_cards (s : CardState) (g : State) : State := mkDuel s (du_Priority g) (Players g).
Definition set_priority (p : PriorityState) (g : State) : State := mkDuel (du_State g) p (Players g).

Definition duel_get {A} (f : State → A) : M A := λ '(g, evs), (Ok (f g), (g, evs)).

Definition duel_modify (f : State → State) : M () := λ '(g, evs), (Ok tt, (f g, evs)).

(** The library's errors reach the player as they are. *)
Definition library : error := ErrGameCode "ccg".

Definition lift {E A} (o : outcome E A) : outcome error A :=
  match o with Ok a => Ok a | Err _ => Err library | Panicked => Panicked | NoFuel => NoFuel end.

Definition on_cards {E A} (m : ST CardState E A) : M A := λ '(g, evs),
  let '(o, s) := m (du_State g) in (lift o, (set_cards s g, evs)).

(** Calls on the window queue what it tells the engine. *)
Definition on_window {A} (m : ST window priority_error A) : M A := λ '(g, evs),
  let '(o, (p, queued)) := m (du_Priority g, []) in
  (lift o, (set_priority p g, evs ++ (evSetActivePlayers <$> queued))).

Definition say (ev : event) : M () := λ '(g, evs), (Ok tt, (g, evs ++ [ev])).
Definition check (bad : bool) (e : error) : M () := if bad then st_err e else mret tt.

Definition errWindowOpen : error := ErrGameCode "priority window is open".
Definition errStackBusy : error := ErrGameCode "stack is not empty".
Definition errNotInHand : error := ErrGameCode "card is not in your hand".
Definition errNotInstant : error := ErrGameCode "card is not castable in a response window".
Definition errNothingToCounter : error := ErrGameCode "no spell on the stack to counter".
Definition errBadCard : error := ErrGameCode "bad card argument".

Definition pool (g : State) (pid kind : string) : Pool := mkPool (default 0 (Players g !! pid)) kind manaPerTurn false.
Definition manaBasket (g : State) (pid : string) : Basket :=
  <["sun" := pool g pid "sun"]> {["moon" := pool g pid "moon"]}.

Definition LifeOf (g : State) (pid : string) : Z := Counters (default 0 (Players g !! pid)) lifeKind (du_State g).

(** An empty deck stops the drawing; failing to put a drawn card in the hand panics. *)
Definition drawCards (pid : string) (n : Z) : CM () :=
  r ← st_try (Draw (deckZone pid) n);
  match r with
  | inl _ => mret tt
  | inr ids =>
      for_each (λ id, r ← st_try (Add (handZone pid) id); match r with inl _ => st_panic | inr _ => mret tt end) ids
  end.

Section conversions.
Context (wild : SpecFloat.spec_float → Z).

(** [int(x)] of a uint64. *)
Definition int_of_u64 (n : Z) : Z := if decide (n < 2 ^ 63) then n else n - 2 ^ 64.

Definition entityArg (args : list any) : option EntityID :=
  match args with
  | Some (VGo (GoInt "ccg.EntityID" KUint64 n)) :: _ => Some n
  | Some (VGo (GoInt "" KUint64 n)) :: _ => Some n
  | Some (VGo (GoInt "" KInt n)) :: _ => Some (u64 n)
  | Some (VGo (GoFloat "" f)) :: _ => Some (uint64_of_float wild f)
  | _ => None
  end.

Definition dataUint (eff : Effect) (key : string) : Z :=
  match ef_Data eff !! key with
  | Some (GoInt "" KInt n) => u64 n
  | Some (GoInt "" KUint64 n) => n
  | Some (GoFloat "" f) => uint64_of_float wild f
  | _ => 0
  end.

Definition dataInt (eff : Effect) (key : string) : Z := int_of_u64 (dataUint eff key).

(** ** Resolvers *)

Definition playerEntity (pid : string) (s : CardState) : EntityID :=
  default 0 (head (Find s (OwnedBy pid (HasType "player" [])))).

(** The owner of the first player entity that is somebody else's. *)
Definition opponentInState (pid : string) (s : CardState) : string :=
  default "" (head (omap (λ ent, e ← Entities s !! ent; if decide (en_Owner e ≠ pid) then Some (en_Owner e) else None)
    (Find s (HasType "player" [])))).

Definition binSource (eff : Effect) : CM () :=
  e ← get (λ s, Entities s !! ef_Source eff);
  match e with
  | Some e => if decide (en_Zone e = stackZone) then MoveTo (ef_Source eff) (graveZone (en_Owner e)) else mret tt
  | None => mret tt
  end.

Definition resolve_damage (eff : Effect) : CM () :=
  ent ← get (λ s, playerEntity (opponentInState (ef_Controller eff) s) s);
  _ ← RemoveCounter handle ent lifeKind (dataInt eff "amount");
  binSource eff.

Definition resolve_gain_life (eff : Effect) : CM () :=
  ent ← get (playerEntity (ef_Controller eff));
  _ ← AddCounter handle ent lifeKind (dataInt eff "amount");
  binSource eff.

(** [eff.Data["only_opponent"] == true] *)
Definition only_opponent (eff : Effect) : bool :=
  match ef_Data eff !! "only_opponent" with Some (GoBool b) => b | _ => false end.

(** [e, _ := s.Get(ent)]: the entities come from a query, so they exist. *)
Definition drain_one (eff : Effect) (ent : EntityID) : CM () :=
  e ← the_entity ent;
  if only_opponent eff && bool_decide (en_Owner e = ef_Controller eff) then mret tt
  else RemoveCounter handle ent lifeKind (dataInt eff "amount").

Definition resolve_drain (eff : Effect) : CM () :=
  ents ← get (λ s, Find s (HasType "player" []));
  _ ← for_each (drain_one eff) ents;
  binSource eff.

(** The countered card goes to its owner's graveyard; an error of that is dropped. *)
Definition resolve_counter (eff : Effect) : CM () :=
  found ← get (FindEffect (dataUint eff "target_effect"));
  _ ← match found with
      | None => mret tt
      | Some (countered, _) =>
          _ ← RemoveEffect handle (dataUint eff "target_effect");
          e ← get (λ s, Entities s !! ef_Source countered);
          match e with
          | Some e =>
              if decide (en_Zone e = stackZone)
              then _ ← st_try (MoveTo (ef_Source countered) (graveZone (en_Owner e))); mret tt
              else mret tt
          | None => mret tt
          end
      end;
  binSource eff.

Definition resolve_summon (eff : Effect) : CM () :=
  _ ← MoveTo (ef_Source eff) (fieldZone (ef_Controller eff));
  Publish handle (mkEvent "creature_entered" (ef_Source eff) 0 ∅).

Definition resolvers (kind : string) : option (Effect → CM ()) :=
  match kind with
  | "damage" => Some resolve_damage
  | "gain_life" => Some resolve_gain_life
  | "drain" => Some resolve_drain
  | "counter" => Some resolve_counter
  | "summon" => Some resolve_summon
  | _ => None
  end.

(** ** Casting *)

Definition requireInstant (sp : spec) : option error := if sp_instant sp then None else Some errNotInstant.

(** What the pending effect carries; a counterspell aims at the top of the stack. *)
Definition cast_data (sp : spec) (s : CardState) : option (gmap string GoVal) :=
  if decide (sp_kind sp = "counter") then
    (λ top, <["target_effect" := GoInt "" KUint64 (ef_ID top)]> (sp_data sp)) <$> last (PendingEffects s)
  else Some (sp_data sp).

Definition pay (sp : spec) (basket : Basket) : CM () :=
  if decide (0 < sp_generic sp) then PayWithGeneric handle basket (sp_cost sp) (sp_generic sp) ["sun"; "moon"]
  else Pay handle basket (sp_cost sp).

Definition first_error (checks : list (spec → option error)) (sp : spec) : option error :=
  head (omap (λ check, check sp) checks).

Definition putOnStack (pid : string) (args : list any) (checks : list (spec → option error)) : M () :=
  match entityArg args with
  | None => st_err errBadCard
  | Some id =>
      e ← duel_get (λ g, Entities (du_State g) !! id);
      match e with
      | None => st_err errNotInHand
      | Some e =>
          _ ← check (negb (bool_decide (en_Zone e = handZone pid ∧ en_Owner e = pid))) errNotInHand;
          match specs !! en_DefID e with
          | None => st_err (ErrGameCode "unknown card def")
          | Some sp =>
              _ ← match first_error checks sp with Some err => st_err err | None => mret tt end;
              data ← duel_get (λ g, cast_data sp (du_State g));
              match data with
              | None => st_err errNothingToCounter
              | Some data =>
                  basket ← duel_get (λ g, manaBasket g pid);
                  _ ← on_cards (pay sp basket);
                  _ ← on_cards (MoveTo id stackZone);
                  _ ← on_cards (PushEffect handle (mkEffect 0 id pid (sp_kind sp) 0 [] data false ""));
                  mret tt
              end
          end
      end
  end.

(** ** Moves *)

(** Play order from the player on turn. *)
Definition apnap (ctx : Ctx) : list string :=
  match find_index (λ pid, bool_decide (pid = ctx_CurrentPlayer ctx)) (ctx_PlayOrder ctx) with
  | Some i => drop i (ctx_PlayOrder ctx) ++ take i (ctx_PlayOrder ctx)
  | None => ctx_PlayOrder ctx
  end.

Definition cast_on (mc : MoveContext) (args : list any) : M () :=
  isOpen ← duel_get (λ g, pr_Open (du_Priority g));
  _ ← check isOpen errWindowOpen;
  _ ← putOnStack (mc_PlayerID mc) args [];
  on_window (OpenWindow (apnap (mc_Ctx mc)) respondStage).

Definition respond_on (mc : MoveContext) (args : list any) : M () :=
  _ ← putOnStack (mc_PlayerID mc) args [requireInstant];
  on_window (ActionTaken (mc_PlayerID mc) true).

Definition pass_on (mc : MoveContext) (args : list any) : M () :=
  closed ← on_window (Pass (mc_PlayerID mc));
  if negb closed then mret tt
  else
    p ← duel_get du_Priority;
    _ ← on_cards (ResolveNext handle (HaltWhileOpen p PickBack) resolvers);
    let order := apnap (mc_Ctx mc) in
    _ ← on_cards (FlushTriggers handle (Some (λ effs, OrderByPlayer effs order)));
    pending ← duel_get (λ g, PendingEffects (du_State g));
    if decide (pending = []) then mret tt else on_window (OpenWindow order respondStage).

Definition endTurn_on (mc : MoveContext) (args : list any) : M () :=
  isOpen ← duel_get (λ g, pr_Open (du_Priority g));
  _ ← check isOpen errWindowOpen;
  pending ← duel_get (λ g, PendingEffects (du_State g));
  _ ← check (negb (bool_decide (pending = []))) errStackBusy;
  say (evEndTurn "").

Definition state_of (G : any) (w : world) : option State :=
  match G with Some VState => w | _ => None end.

Definition emit {A} (evs : list event) (k : prog A) : prog A := foldr OpEvent k evs.

(** The move: the state behind the pointer is changed in place. *)
Definition as_move (run : MoveContext → list any → M ()) : MoveFn := λ mc args, OpRead (λ w,
  match state_of (mc_G mc) w with
  | None => Crash
  | Some g =>
      let '(r, (g', evs)) := run mc args (g, []) in
      OpWrite (Some g') (emit evs match r with
                                  | Ok _ => Ret (inr (mc_G mc))
                                  | Err e => Ret (inl e)
                                  | Panicked | NoFuel => Crash
                                  end)
  end).

Definition cast : MoveFn := as_move cast_on.
Definition respond : MoveFn := as_move respond_on.
Definition pass : MoveFn := as_move pass_on.
Definition endTurn : MoveFn := as_move endTurn_on.

(** ** Hooks *)


Definition refill (pid : string) : M () := λ '(g, evs),
  on_cards (_ ← Set_ handle (pool g pid "sun") manaPerTurn; _ ← Set_ handle (pool g pid "moon") manaPerTurn; mret tt) (g, evs).

Definition begin_on (pid : string) : M () :=
  _ ← on_window ResetWindow;
  _ ← refill pid;
  on_cards (drawCards pid 1).

Definition turnBegin : HookFn := λ mc, OpRead (λ w,
  match state_of (mc_G mc) w with
  | None => Crash
  | Some g =>
      let '(r, (g', _)) := begin_on (ctx_CurrentPlayer (mc_Ctx mc)) (g, []) in
      OpWrite (Some g') match r with Ok _ => Ret (mc_G mc) | _ => Crash end
  end).

Definition opponentOf (order : list string) (pid : string) : string :=
  default "" (List.find (λ other, negb (bool_decide (other = pid))) order).

Definition duel_result (order : list string) (g : State) : any :=
  match filter (λ pid, LifeOf g pid ≤ 0) order with
  | [] => None
  | [dead] => Some (VWinner (opponentOf order dead))
  | _ => Some VDraw
  end.

Definition endIf (mc : MoveContext) : prog any := OpRead (λ w,
  match state_of (mc_G mc) w with
  | None => Crash
  | Some g => Ret (duel_result (ctx_PlayOrder (mc_Ctx mc)) g)
  end).

(** ** Setup *)

(** One seat's player, zones and deck; its errors panic. *)
Definition seat (cat : Catalog) (pid : string) : M () :=
  id ← on_cards (NewEntity "player" pid ∅);
  _ ← duel_modify (λ g, mkDuel (du_State g) (du_Priority g) (<[pid := id]> (Players g)));
  _ ← on_cards (AddCounter handle id lifeKind startingLife);
  _ ← refill pid;
  _ ← on_cards (for_each (λ z, NewZone z.1 z.2)
        [(handZone pid, false); (deckZone pid, true); (fieldZone pid, false); (graveZone pid, false)]);
  _ ← on_cards (for_each (λ def, id ← Instantiate cat def pid; Add (deckZone pid) id) deckOrder);
  on_cards (drawCards pid openingHand).

Definition new_duel (order : list string) : M () :=
  match catalog with
  | Ok cat =>
      _ ← on_cards (NewZone stackZone true);
      _ ← for_each (seat cat) order;
      duel_modify (λ g, set_cards (wire (Players g) (du_State g)) g)
  | _ => st_panic
  end.

(** A panic leaves no state behind. *)
Definition setup (ctx : Ctx) (data : any) (w : world) : any * world :=
  match new_duel (ctx_PlayOrder ctx) (mkDuel NewState closed_window ∅, []) with
  | (Ok _, (g, _)) => (Some VState, Some g)
  | _ => (None, w)
  end.

Definition New : Game := mkGame "stackduel" 2 2 (Some setup)
  {[ "cast" := EntryFn cast; "endTurn" := EntryFn endTurn ]}
  (Some (mkTurn (mkOrder None None None) (Some turnBegin) None None None 0 0 0 None
    {[ respondStage := mkStage {[ "respond" := EntryFn respond; "pass" := EntryFn pass ]} true "" None None ]}))
  ∅ (Some endIf) None None None None false [].
End conversions.
