(* ===== verification/StackDuelFacts.v ===== *)
(** * What stackduel's moves keep

    No handler of the game answers to anything but a creature entering, so every other
    library call has exactly its own effect; and a duel at rest stays one, whatever is
    cast, countered or resolved. *)

From stdpp Require Import sorting.
From S2P Require Import Prelude CoreTypes Choices Cards CardFacts Effects EffectTheorems Priority Economy StackDuel.
#[local] Open Scope Z_scope.

(** ** Events nobody hears *)

Definition creature_entered : string := "creature_entered".

Definition quiet_subs (s : CardState) : Prop :=
  Forall (λ sub, sub_predicate sub = Some (MatchType creature_entered)) (subs s).

Lemma dispatch_quiet ev l s : ev_Type ev ≠ creature_entered →
  Forall (λ sub, sub_predicate sub = Some (MatchType creature_entered)) l → dispatch handle ev l s = (Ok tt, s).
Proof.
  intros Hev. induction l as [|sub l IH]; intros Hl; [done|]. apply Forall_cons in Hl as [Hp Hl].
  cbn [dispatch]. unfold fires. rewrite Hp. unfold MatchType. rewrite bool_decide_false by done.
  rewrite bind_eq. unfold mret at 1, ST_ret at 1, st_ret at 1. by apply IH.
Qed.

Lemma Publish_quiet ev s : ev_Type ev ≠ creature_entered → quiet_subs s →
  Publish handle ev s = (Ok tt, set_Events (remember ev (Events s)) s).
Proof. intros Hev Hq. unfold Publish. rewrite bind_eq. unfold modify. cbv beta iota. rewrite bind_eq. by apply dispatch_quiet. Qed.

(** ** Calls that touch counters only *)

Definition bare (e : Entity) : Entity := set_Attrs ∅ e.

Record same_table (s s' : CardState) : Prop := {
  sm_entities : ∀ id, bare <$> Entities s' !! id = bare <$> Entities s !! id;
  sm_zones : Zones s' = Zones s;
  sm_pending : PendingEffects s' = PendingEffects s;
  sm_staged : StagedTriggers s' = StagedTriggers s;
  sm_ids : IDs s' = IDs s;
  sm_subs : subs s' = subs s
}.

#[export] Instance same_table_refl : Reflexive same_table.
Proof. intros s. by split. Qed.
#[export] Instance same_table_trans : Transitive same_table.
Proof. intros a b c [] []. split; congruence. Qed.

Lemma same_events s l : same_table s (set_Events l s).
Proof. by split. Qed.

Lemma handle_polite : polite handle.
Proof.
  intros [|m] ev s; simpl.
  - destruct (Entities s !! ev_Source ev) as [e|]; [|by eexists]. eexists. split; [reflexivity|].
    by repeat case_decide.
  - case_decide; by eexists.
Qed.

Definition nonneg (s : CardState) : Prop := ∀ id k, 0 ≤ Counters id k s.

(** The same table as [s0], but for counters, none of them negative. *)
Definition steady (s0 s : CardState) : Prop := same_table s0 s ∧ nonneg s.

Section counters.
Context (s0 : CardState) (Hq : quiet_subs s0).

Lemma keeps_changeCounter_steady id kind d : keeps (steady s0) (changeCounter handle id kind d false).
Proof.
  intros s [Hs Hn]. destruct (changeCounter_run handle id kind d false s handle_polite (or_intror (Hn id kind)))
    as (s' & HR & _ & HC). split.
  2:{ intros i k. rewrite HR. simpl. rewrite HC. unfold new_total. case_decide; [lia|apply Hn]. }
  clear HR HC s'. unfold changeCounter. rewrite bind_eq. unfold get. cbv beta iota.
  destruct (Entities s !! id) as [e|] eqn:He; [|done]. cbv zeta. case_decide; [done|]. rewrite bind_eq.
  unfold modify. cbv beta iota. set (e' := put_counter _ _ _).
  rewrite Publish_quiet; [|by vm_compute|]; [|unfold quiet_subs; simpl; rewrite (sm_subs _ _ Hs); exact Hq].
  etrans; [exact Hs|]. split; try done. intros x. simpl. destruct (decide (x = id)) as [->|Hx].
  - by rewrite lookup_insert_eq, He.
  - by rewrite lookup_insert_ne.
Qed.

Lemma keeps_RemoveCounter_steady id kind n : keeps (steady s0) (RemoveCounter handle id kind n).
Proof. unfold RemoveCounter. case_decide; [apply keeps_ret|apply keeps_changeCounter_steady]. Qed.

Lemma keeps_Spend_steady p n : keeps (steady s0) (Spend handle p n).
Proof.
  unfold Spend. case_decide; [apply keeps_err|]. case_decide; [apply keeps_ret|].
  apply keeps_bind; [by intros s Hs|]. intros c. case_decide; [apply keeps_err|apply keeps_RemoveCounter_steady].
Qed.

Lemma keeps_cards_try {E A} (I : CardState → Prop) (m : ST CardState E A) : keeps I m → keeps I (st_try m).
Proof. intros Hm s Hs. specialize (Hm s Hs). unfold st_try. by destruct (m s) as [[]]. Qed.

Lemma keeps_spend_kinds_steady b reserved kinds : keeps (steady s0) (spend_kinds handle b reserved kinds).
Proof.
  induction kinds as [|k kinds IH]; [apply keeps_ret|]. cbn [spend_kinds].
  apply keeps_bind; [apply keeps_cards_try, keeps_Spend_steady|]. intros [e|a]; [apply keeps_panic|exact IH].
Qed.

Lemma keeps_PayWithGeneric_steady b cost generic fallback : keeps (steady s0) (PayWithGeneric handle b cost generic fallback).
Proof. apply keeps_bind; [by intros s Hs|]. intros reserved. apply keeps_spend_kinds_steady. Qed.

Lemma keeps_Set_steady p n : pl_AllowNegative p = false → keeps (steady s0) (Set_ handle p n).
Proof.
  intros Hp. apply keeps_bind; [by intros s Hs|]. intros c. cbv zeta. apply keeps_bind; [|intros; apply keeps_ret].
  case_decide; [apply keeps_ret|]. rewrite Hp. apply keeps_changeCounter_steady.
Qed.
End counters.

(** Without a generic part, [Pay] is the same payment. *)
Lemma Pay_is_generic b cost s : Pay handle b cost s = PayWithGeneric handle b cost 0 [] s.
Proof.
  unfold Pay, PayWithGeneric. rewrite !bind_eq. unfold reservation, generic_reservation. rewrite decide_False by lia.
  cbn [mbind outcome_bind draw_generic]. unfold outcome_bind. destruct (reserve b cost s); try done.
Qed.

(** ** Queries and the list of effects *)

Lemma elem_of_insert_sorted v l x : x ∈ insert_sorted v l ↔ x = v ∨ x ∈ l.
Proof.
  induction l as [|y l IH]; simpl; [by rewrite list_elem_of_singleton, elem_of_nil; naive_solver|].
  case_decide; rewrite !elem_of_cons, ?IH; naive_solver.
Qed.

Lemma elem_of_sortIDs l x : x ∈ sortIDs l ↔ x ∈ l.
Proof.
  unfold sortIDs. assert (H : ∀ acc, x ∈ foldl (λ sorted v, insert_sorted v sorted) acc l ↔ x ∈ acc ∨ x ∈ l).
  { induction l as [|v l IH]; intros acc; simpl; [rewrite elem_of_nil; naive_solver|].
    rewrite IH, elem_of_insert_sorted, elem_of_cons. naive_solver. }
  rewrite H, elem_of_nil. naive_solver.
Qed.

Lemma elem_of_Find (s : CardState) preds id :
  id ∈ Find s preds ↔ ∃ e, Entities s !! id = Some e ∧ forallb (λ p, p e) preds = true.
Proof.
  unfold Find, Filter. rewrite elem_of_sortIDs, list_elem_of_fmap. split.
  - intros ([i e] & -> & [He Hi]%list_elem_of_filter). apply elem_of_map_to_list in Hi. by exists e.
  - intros (e & He & Hp). exists (id, e). split; [done|]. apply list_elem_of_filter. by rewrite elem_of_map_to_list.
Qed.

Lemma remove_found id (l : list Effect) i : NoDup (ef_ID <$> l) → find_effect id l = Some i →
  remove_at i l = filter (λ e, ef_ID e ∉ [id]) l.
Proof.
  unfold find_effect. revert i. induction l as [|e l IH]; intros i Hnd Hi; [done|].
  rewrite fmap_cons in Hnd. apply NoDup_cons in Hnd as [He Hnd]. cbn [find_index] in Hi.
  case_bool_decide as Hid.
  - injection Hi as <-. subst id. rewrite filter_cons_False by (intros H; apply H; by left).
    unfold remove_at. simpl. rewrite drop_0.
    assert (Hno : ∀ x, x ∈ l → ef_ID x ∉ [ef_ID e]).
    { intros x Hx Heq%list_elem_of_singleton. apply He, list_elem_of_fmap. by exists x. }
    clear -Hno. induction l as [|x l IH]; [done|]. rewrite filter_cons_True by (apply Hno; by left).
    f_equal. apply IH. intros y Hy. apply Hno. by right.
  - destruct (find_index _ l) as [j|] eqn:Hj; [|done]. injection Hi as <-.
    rewrite filter_cons_True by (by rewrite list_elem_of_singleton). rewrite <-(IH j Hnd eq_refl). done.
Qed.

Lemma remove_missing id (l : list Effect) : find_effect id l = None → filter (λ e, ef_ID e ∉ [id]) l = l.
Proof.
  unfold find_effect. intros H%find_index_None. induction l as [|e l IH]; [done|].
  apply Forall_cons in H as [He Hl]. apply bool_decide_eq_false in He.
  rewrite filter_cons_True by (by rewrite list_elem_of_singleton). by rewrite IH.
Qed.

Lemma filter_ids_NoDup (P : Effect → Prop) `{!∀ e, Decision (P e)} (l : list Effect) :
  NoDup (ef_ID <$> l) → NoDup (ef_ID <$> filter P l).
Proof.
  induction l as [|e l IH]; [done|]. rewrite fmap_cons. intros [He Hl]%NoDup_cons. destruct (decide (P e)).
  - rewrite filter_cons_True by done. rewrite fmap_cons. apply NoDup_cons. split; [|by apply IH].
    intros (x & Hx & [_ Hin]%list_elem_of_filter)%list_elem_of_fmap. apply He, list_elem_of_fmap. by exists x.
  - rewrite filter_cons_False by done. by apply IH.
Qed.

Lemma Forall_filtered {A} (P Q : A → Prop) `{!∀ e, Decision (Q e)} (l : list A) : Forall P l → Forall P (filter Q l).
Proof. rewrite !Forall_forall. intros Hl x [_ Hx]%list_elem_of_filter. by apply Hl. Qed.

Lemma FindEffect_found id (s : CardState) e i : FindEffect id s = Some (e, i) →
  find_effect id (PendingEffects s) = Some i ∧ PendingEffects s !! i = Some e ∧ ef_ID e = id.
Proof.
  unfold FindEffect. intros (j & Hj & (x & Hx & [= <- <-])%bind_Some)%bind_Some. split; [done|]. split; [done|].
  apply find_index_Some in Hj as [(y & Hy & Hid) _]. apply bool_decide_eq_true in Hid. congruence.
Qed.

Lemma FindEffect_missing id (s : CardState) : FindEffect id s = None → find_effect id (PendingEffects s) = None.
Proof.
  unfold FindEffect. destruct (find_effect id (PendingEffects s)) as [i|] eqn:Hi; [|done]. simpl.
  apply find_index_Some in Hi as [(y & Hy & _) _]. rewrite Hy. done.
Qed.

Definition effect_event (t : string) : Prop :=
  t ∈ [EventEffectPushed; EventEffectResolving; EventEffectResolved; EventEffectRemoved].

Lemma publishEffectEvent_quiet t eff s : effect_event t → quiet_subs s →
  ∃ l, publishEffectEvent handle t eff s = (Ok tt, set_Events l s).
Proof.
  intros Ht Hq. eexists. apply Publish_quiet; [|done]. simpl. intros ->.
  repeat (apply elem_of_cons in Ht as [Ht|Ht]; [done|]). by apply elem_of_nil in Ht.
Qed.

(** ** A duel's table *)
Section table.
Context (order : list string) (Hnd : NoDup order) (Hlen : length order = 2%nat).
Implicit Types (s : CardState) (players : gmap string EntityID).

Definition seat_zones (p : string) : list ZoneName := [handZone p; deckZone p; fieldZone p; graveZone p].
Definition table_zone (n : ZoneName) : Prop := n = stackZone ∨ ∃ p, p ∈ order ∧ n ∈ seat_zones p.

Definition stat (e : Entity) : string * string * string := (en_Type e, en_Owner e, en_DefID e).

(** Entities and zones. *)
Record board players s : Prop := {
  bo_wf : wf s;
  bo_zones : ∀ n, table_zone n → ∃ z, Zones s !! n = Some z ∧ zn_Capacity z = 0;
  bo_players : ∀ p, p ∈ order → ∃ id e, players !! p = Some id ∧ Entities s !! id = Some e ∧
    en_Type e = "player" ∧ en_Owner e = p;
  bo_only : ∀ id e, Entities s !! id = Some e → en_Type e = "player" → players !! en_Owner e = Some id;
  bo_owner : ∀ id e, Entities s !! id = Some e → en_Owner e ∈ order;
  bo_counters : nonneg s
}.

Lemma stat_lookup s s' id e : (∀ id, stat <$> Entities s' !! id = stat <$> Entities s !! id) →
  Entities s !! id = Some e → ∃ e', Entities s' !! id = Some e' ∧ stat e' = stat e.
Proof.
  intros Hst He. specialize (Hst id). rewrite He in Hst. destruct (Entities s' !! id) as [e'|]; [|done].
  injection Hst as H1 H2 H3. exists e'. split; [done|]. unfold stat. congruence.
Qed.

Lemma board_ext players s s' : board players s → wf s' → zone_frame s' = zone_frame s →
  (∀ id, stat <$> Entities s' !! id = stat <$> Entities s !! id) → nonneg s' → board players s'.
Proof.
  intros [Hwf Hz Hp Ho How Hc] Hwf' Hf Hst Hn. split; try done.
  - intros n Hn'. destruct (Hz n Hn') as (z & Hzn & Hcap). destruct (frame_zone s s' n z Hf Hzn) as (z' & ? & ? & _).
    exists z'. split; [done|congruence].
  - intros p Hin. destruct (Hp p Hin) as (id & e & Hid & He & Ht & Hw).
    destruct (stat_lookup s s' id e Hst He) as (e' & He' & [= H1 H2 _]). exists id, e'. split_and!; congruence.
  - intros id e' He' Ht. destruct (stat_lookup s' s id e' ltac:(intros; by rewrite Hst) He') as (e & He & [= H1 H2 _]).
    rewrite <-H2. apply (Ho id e He). congruence.
  - intros id e' He'. destruct (stat_lookup s' s id e' ltac:(intros; by rewrite Hst) He') as (e & He & [= H1 H2 _]).
    rewrite <-H2. by eapply How.
Qed.

Lemma same_stat s s' id : same_table s s' → stat <$> Entities s' !! id = stat <$> Entities s !! id.
Proof.
  intros Hs. pose proof (sm_entities _ _ Hs id) as H.
  destruct (Entities s' !! id), (Entities s !! id); simpl in *; try done. injection H as H1 H2 H3 H4 H5 H6 H7 H8 H9.
  unfold stat. congruence.
Qed.

Lemma board_same players s s' : board players s → steady s s' → board players s'.
Proof.
  intros Hb [Hs Hn]. apply (board_ext players s); [done| | | |done].
  - apply (wf_same_places s); [apply Hb| | |by rewrite (sm_zones _ _ Hs)|by rewrite (sm_ids _ _ Hs)].
    + intros id. pose proof (sm_entities _ _ Hs id) as H.
      destruct (Entities s' !! id), (Entities s !! id); simpl in *; try done. injection H as H1 H2 H3 H4 H5 H6 H7 H8 H9. congruence.
    + intros n. unfold members. by rewrite (sm_zones _ _ Hs).
  - unfold zone_frame. by rewrite (sm_zones _ _ Hs).
  - intros id. by apply same_stat.
Qed.

(** ** The stack *)

(** A pending effect the resolvers can deal with. *)
Definition sound_effect s (eff : Effect) : Prop :=
  ef_Countered eff = false ∧
  (ef_Kind eff ∈ ["damage"; "gain_life"; "drain"; "counter"] ∨
   ef_Kind eff = "summon" ∧ ef_Controller eff ∈ order ∧ is_Some (Entities s !! ef_Source eff)).

Definition trigger (eff : Effect) : Prop := ef_Countered eff = false ∧ ef_Kind eff ∈ ["gain_life"; "drain"].

Record queue s : Prop := {
  qu_subs : quiet_subs s;
  qu_sound : Forall (sound_effect s) (PendingEffects s);
  qu_distinct : NoDup (ef_ID <$> PendingEffects s);
  qu_minted : Forall (λ eff, ef_ID eff ≤ NextEffectID (IDs s)) (PendingEffects s);
  qu_staged : Forall trigger (StagedTriggers s)
}.

Lemma sound_stat s s' eff : (∀ id, stat <$> Entities s' !! id = stat <$> Entities s !! id) →
  sound_effect s eff → sound_effect s' eff.
Proof.
  intros Hst [Hc [Hk|(Hk & Ho & [e He])]]; (split; [done|]); [by left|right]. split_and!; [done..|].
  destruct (stat_lookup s s' _ e Hst He) as (e' & ? & _). by eexists.
Qed.

Lemma queue_same s s' : same_table s s' → queue s → queue s'.
Proof.
  intros Hs [H1 H2 H3 H4 H5]. split.
  - unfold quiet_subs. by rewrite (sm_subs _ _ Hs).
  - rewrite (sm_pending _ _ Hs). eapply Forall_impl; [exact H2|]. intros eff. apply sound_stat.
    intros id. by apply same_stat.
  - by rewrite (sm_pending _ _ Hs).
  - by rewrite (sm_pending _ _ Hs), (sm_ids _ _ Hs).
  - by rewrite (sm_staged _ _ Hs).
Qed.

(** Nothing of the queue has changed. *)
Record same_queue s s' : Prop := {
  sq_pending : PendingEffects s' = PendingEffects s;
  sq_staged : StagedTriggers s' = StagedTriggers s;
  sq_subs : subs s' = subs s;
  sq_minted : NextEffectID (IDs s') = NextEffectID (IDs s)
}.

Lemma queue_ext s s' : same_queue s s' → (∀ id, stat <$> Entities s' !! id = stat <$> Entities s !! id) →
  queue s → queue s'.
Proof.
  intros [HP HS HB HN] Hst [H1 H2 H3 H4 H5]. split; rewrite ?HP, ?HS, ?HN; try done.
  - unfold quiet_subs. by rewrite HB.
  - eapply Forall_impl; [exact H2|]. intros eff. by apply sound_stat.
Qed.

Lemma leave_zone_queue id e s : PendingEffects (leave_zone id e s) = PendingEffects s ∧
  StagedTriggers (leave_zone id e s) = StagedTriggers s ∧ subs (leave_zone id e s) = subs s ∧
  NextEffectID (IDs (leave_zone id e s)) = NextEffectID (IDs s).
Proof. unfold leave_zone. case_decide; [done|]. by destruct (Zones s !! en_Zone e). Qed.

(** An entity moved to a zone of the table. *)
Lemma MoveTo_table players id n s e : board players s → Entities s !! id = Some e → table_zone n → ∃ s',
  MoveTo id n s = (Ok tt, s') ∧ board players s' ∧ same_queue s s' ∧
  (∀ i, stat <$> Entities s' !! i = stat <$> Entities s !! i) ∧
  (∀ i k, Counters i k s' = Counters i k s) ∧ (∀ i, zone_of s' i = if decide (i = id) then n else zone_of s i).
Proof.
  intros Hb He Hn. pose proof (bo_wf _ _ Hb) as Hwf. destruct (bo_zones _ _ Hb n Hn) as (z & Hz & Hcap).
  rewrite MoveTo_run, Hz, He by done.
  assert (full z = false) as -> by (unfold full; apply bool_decide_false; lia).
  rewrite andb_false_r. exists (moved id e n z s). split; [done|].
  assert (HE := moved_Entities id e n z s).
  assert (Hst : ∀ i, stat <$> Entities (moved id e n z s) !! i = stat <$> Entities s !! i).
  { intros i. rewrite HE. destruct (decide (i = id)) as [->|Hi]; [by rewrite lookup_insert_eq, He|by rewrite lookup_insert_ne]. }
  assert (HC : ∀ i k, Counters i k (moved id e n z s) = Counters i k s).
  { intros i k. unfold Counters. rewrite HE.
    destruct (decide (i = id)) as [->|Hi]; [by rewrite lookup_insert_eq, He|by rewrite lookup_insert_ne]. }
  split; [|split; [|split; [done|split; [done|]]]].
  - apply (board_ext players s); [done|by apply wf_moved|by apply moved_frame|done|].
    intros i k. rewrite HC. apply (bo_counters _ _ Hb).
  - destruct (leave_zone_queue id e s) as (H1 & H2 & H3 & H4). by split.
  - intros i. apply moved_zone_of.
Qed.

Lemma binSource_table players eff s : board players s → ∃ s', binSource eff s = (Ok tt, s') ∧ board players s' ∧
  same_queue s s' ∧ (∀ i, stat <$> Entities s' !! i = stat <$> Entities s !! i) ∧
  (∀ i k, Counters i k s' = Counters i k s) ∧
  (∀ i, zone_of s' i = if decide (i = ef_Source eff ∧ zone_of s i = stackZone)
    then graveZone (default "" (en_Owner <$> Entities s !! i)) else zone_of s i).
Proof.
  intros Hb. unfold binSource. rewrite bind_eq. unfold get. cbv beta iota.
  assert (Hsame : (∀ i, ¬ (i = ef_Source eff ∧ zone_of s i = stackZone)) → ∃ s', (Ok (E:=ccg_error) tt, s) = (Ok tt, s') ∧
    board players s' ∧ same_queue s s' ∧ (∀ i, stat <$> Entities s' !! i = stat <$> Entities s !! i) ∧
    (∀ i k, Counters i k s' = Counters i k s) ∧
    (∀ i, zone_of s' i = if decide (i = ef_Source eff ∧ zone_of s i = stackZone)
      then graveZone (default "" (en_Owner <$> Entities s !! i)) else zone_of s i)).
  { intros Hno. exists s. split_and!; try done. intros i. by rewrite decide_False. }
  destruct (Entities s !! ef_Source eff) as [e|] eqn:He.
  - assert (Hz : zone_of s (ef_Source eff) = en_Zone e) by (unfold zone_of; by rewrite He).
    destruct (decide (en_Zone e = stackZone)) as [Hst|Hst].
    + destruct (MoveTo_table players (ef_Source eff) (graveZone (en_Owner e)) s e Hb He) as (s' & HM & Hb' & Hq & H1 & H2 & H3).
      { right. exists (en_Owner e). split; [by apply (bo_owner _ _ Hb (ef_Source eff))|]. right; right; right; left. }
      exists s'. split_and!; try done. intros i. rewrite H3. destruct (decide (i = ef_Source eff)) as [->|Hi].
      * rewrite decide_True by (split; [done|congruence]). by rewrite He.
      * rewrite decide_False; [done|]. by intros [? _].
    + apply Hsame. intros i [-> Hi]. congruence.
  - apply Hsame. intros i [-> Hi]. unfold zone_of in Hi. by rewrite He in Hi.
Qed.

(** ** A creature enters *)

(** Handlers only stage triggers and subscribe. *)
Record heard s s' : Prop := {
  hd_entities : Entities s' = Entities s;
  hd_zones : Zones s' = Zones s;
  hd_pending : PendingEffects s' = PendingEffects s;
  hd_ids : NextEntityID (IDs s') = NextEntityID (IDs s) ∧ NextEffectID (IDs s') = NextEffectID (IDs s);
  hd_subs : quiet_subs s → quiet_subs s';
  hd_staged : Forall trigger (StagedTriggers s) → Forall trigger (StagedTriggers s')
}.

#[local] Instance heard_refl : Reflexive heard.
Proof. intros s. by split. Qed.
#[local] Instance heard_trans : Transitive heard.
Proof.
  intros a b c [A1 A2 A3 [A4 A5] A6 A7] [B1 B2 B3 [B4 B5] B6 B7]. split; try congruence; auto.
  split; congruence.
Qed.

Lemma heard_stage eff s : trigger eff → heard s (stage eff s).
Proof. intros Ht. split; try done. simpl. intros Hs. apply Forall_app. split; [done|]. apply Forall_cons. split; [exact Ht|constructor]. Qed.

Lemma heard_bind m s : heard s (bindGlowmoth m s).
Proof.
  unfold bindGlowmoth, BindAbility. split; try done. simpl. unfold quiet_subs. simpl. intros Hs.
  apply Forall_app. split; [done|]. by repeat constructor.
Qed.

Lemma heard_handle h ev s s' : handle h ev s = Some s' → heard s s'.
Proof.
  assert (Ht : ∀ src kind data, kind ∈ ["gain_life"; "drain"] → trigger (EffectFrom src kind data s)) by (intros; by split).
  destruct h as [|m]; simpl.
  - destruct (Entities s !! ev_Source ev) as [e|] eqn:He; [|by intros [= <-]]. intros [= <-].
    etrans; [|case_decide; [apply heard_bind|reflexivity]].
    case_decide; [apply heard_stage, Ht; right; by left|reflexivity].
  - case_decide; intros [= <-]; [reflexivity|]. apply heard_stage, Ht. by left.
Qed.

Lemma heard_unbind aid s : heard s (UnbindAbility aid s).2.
Proof.
  unfold UnbindAbility, modify. simpl. destruct (List.find _ _) as [ab|]; [|reflexivity].
  split; try done. simpl. unfold quiet_subs. simpl. unfold drop_first. intros Hs.
  destruct (find_index _ _) as [i|]; [|done]. unfold remove_at. apply Forall_app.
  split; [by apply Forall_take|by apply Forall_drop].
Qed.

Lemma heard_run_handler ev h s : ∃ s', run_handler handle ev h s = (Ok tt, s') ∧ heard s s'.
Proof.
  assert (Hg : ∀ h, ∃ s', game_handler handle h ev s = (Ok tt, s') ∧ heard s s').
  { intros h0. unfold game_handler. destruct (handle_polite h0 ev s) as (s' & Hs' & _). rewrite Hs'.
    exists s'. split; [done|]. by eapply heard_handle. }
  destruct h as [h|aid ent bound h]; [apply Hg|]. cbn [run_handler]. rewrite bind_eq. unfold get. cbv beta iota.
  destruct (Entities s !! ent) as [e|]; [case_decide; [apply Hg|]|];
    (eexists; split; [reflexivity|apply (heard_unbind aid)]).
Qed.

Lemma heard_dispatch ev l s : ∃ s', dispatch handle ev l s = (Ok tt, s') ∧ heard s s'.
Proof.
  revert s. induction l as [|sub l IH]; intros s; [exists s; split; [done|reflexivity]|]. cbn [dispatch].
  assert (∃ s2, (if fires ev sub then run_handler handle ev (sub_handler sub) else mret tt) s = (Ok tt, s2) ∧ heard s s2)
    as (s2 & H2 & Hh) by (destruct (fires ev sub); [apply heard_run_handler|exists s; split; [done|reflexivity]]).
  rewrite bind_eq, H2. destruct (IH s2) as (s' & HR & Hh'). exists s'. split; [done|by etrans].
Qed.

Lemma heard_Publish ev s : ∃ s', Publish handle ev s = (Ok tt, s') ∧ heard s s'.
Proof.
  unfold Publish. rewrite bind_eq. unfold modify. cbv beta iota. rewrite bind_eq. unfold get. cbv beta iota.
  destruct (heard_dispatch ev (subs (set_Events (remember ev (Events s)) s)) (set_Events (remember ev (Events s)) s))
    as (s' & HR & Hh). exists s'. split; [done|]. etrans; [|exact Hh]. by split.
Qed.

Lemma board_bookkeeping players s s' : board players s → Entities s' = Entities s → Zones s' = Zones s →
  NextEntityID (IDs s') = NextEntityID (IDs s) → board players s'.
Proof.
  intros Hb HE HZ HI. apply (board_ext players s); [done| | | |].
  - by apply (wf_bookkeeping s); [apply Hb|..].
  - unfold zone_frame. by rewrite HZ.
  - intros id. by rewrite HE.
  - intros id k. unfold Counters. rewrite HE. apply (bo_counters _ _ Hb).
Qed.

Lemma heard_board players s s' : heard s s' → board players s → board players s'.
Proof.
  intros Hh Hb. apply (board_bookkeeping players s); [done|apply Hh..].
Qed.

Lemma heard_queue s s' : heard s s' → queue s → queue s'.
Proof.
  intros [HE HZ HP [HI HN] HB HS] [H1 H2 H3 H4 H5]. split; rewrite ?HP, ?HN; auto.
  eapply Forall_impl; [exact H2|]. intros eff. apply sound_stat. intros id. by rewrite HE.
Qed.

(** ** Resolving *)

Context (wild : SpecFloat.spec_float → Z).

Lemma changeCounter_table players id kind d s : board players s → queue s → ∃ s',
  changeCounter handle id kind d false s = (Ok tt, s') ∧ steady s s' ∧
  ∀ i k, Counters i k s' = if decide (i = id ∧ k = kind ∧ is_Some (Entities s !! id))
    then Z.max 0 (Counters id kind s + d) else Counters i k s.
Proof.
  intros Hb Hq. pose proof (bo_counters _ _ Hb) as Hn.
  pose proof (keeps_changeCounter_steady s (qu_subs _ Hq) id kind d s (conj (same_table_refl s) Hn)) as Hs.
  destruct (changeCounter_run handle id kind d false s handle_polite (or_intror (Hn id kind))) as (s' & HR & _ & HC).
  rewrite HR in Hs. exists s'. split; [done|]. split; [exact Hs|exact HC].
Qed.

Lemma RemoveCounter_table players id kind n s : board players s → queue s → ∃ s',
  RemoveCounter handle id kind n s = (Ok tt, s') ∧ steady s s'.
Proof.
  intros Hb Hq. unfold RemoveCounter. case_decide.
  - exists s. split; [done|]. split; [reflexivity|apply Hb].
  - destruct (changeCounter_table players id kind (- n) s Hb Hq) as (s' & HR & Hs & _). by exists s'.
Qed.

(** What a resolver leaves: the table, and the stack without [gone]. *)
Record resolved players (gone : list Z) (loud : bool) s s' : Prop := {
  rs_board : board players s';
  rs_queue : queue s';
  rs_pending : PendingEffects s' = filter (λ e, ef_ID e ∉ gone) (PendingEffects s);
  rs_staged : loud = false → StagedTriggers s' = StagedTriggers s
}.

Lemma filter_nothing (l : list Effect) : filter (λ e, ef_ID e ∉ []) l = l.
Proof.
  induction l as [|e l IH]; [done|]. rewrite filter_cons_True by apply not_elem_of_nil. by rewrite IH.
Qed.

Lemma bin_resolved players eff s s1 : steady s s1 → board players s → queue s →
  ∃ s', binSource eff s1 = (Ok tt, s') ∧ resolved players [] false s s'.
Proof.
  intros Hs Hb Hq. pose proof (board_same players s s1 Hb Hs) as Hb1. pose proof (queue_same s s1 (proj1 Hs) Hq) as Hq1.
  destruct (binSource_table players eff s1 Hb1) as (s' & HR & Hb' & Hsq & Hst & _). exists s'. split; [done|].
  split; [done|by apply (queue_ext s1)| |].
  - rewrite filter_nothing, (sq_pending _ _ Hsq). apply (sm_pending _ _ (proj1 Hs)).
  - intros _. rewrite (sq_staged _ _ Hsq). apply (sm_staged _ _ (proj1 Hs)).
Qed.

Lemma RemoveEffect_table players id s : board players s → queue s → ∃ s' b,
  RemoveEffect handle id s = (Ok b, s') ∧ resolved players [id] false s s' ∧
  Entities s' = Entities s ∧ Zones s' = Zones s.
Proof.
  intros Hb Hq. unfold RemoveEffect. rewrite bind_eq. unfold get. cbv beta iota.
  destruct (FindEffect id s) as [[e i]|] eqn:Hf.
  - apply FindEffect_found in Hf as (Hi & He & Hid). rewrite bind_eq. unfold drop_effect, modify. cbv beta iota.
    set (s1 := set_PendingEffects _ s). rewrite bind_eq.
    destruct (publishEffectEvent_quiet EventEffectRemoved e s1) as [l Hl].
    { right; right; right; left. }
    { apply Hq. }
    rewrite Hl. exists (set_Events l s1), true. split; [done|]. split; [|done].
    assert (HP : PendingEffects s1 = filter (λ e, ef_ID e ∉ [id]) (PendingEffects s)).
    { apply remove_found; [apply Hq|done]. }
    destruct Hq as [Q1 Q2 Q3 Q4 Q5]. split; [|split|exact HP|done].
    + by apply (board_bookkeeping players s).
    + done.
    + change (Forall (sound_effect s) (PendingEffects s1)). rewrite HP. by apply Forall_filtered.
    + change (NoDup (ef_ID <$> PendingEffects s1)). rewrite HP. by apply filter_ids_NoDup.
    + change (Forall (λ eff, ef_ID eff ≤ NextEffectID (IDs s)) (PendingEffects s1)). rewrite HP. by apply Forall_filtered.
    + done.
  - exists s, false. split; [done|]. split; [|done]. split; [done|done| |done].
    symmetry. apply remove_missing. by apply FindEffect_missing.
Qed.

Lemma resolved_after players gone loud s s1 s' : resolved players gone loud s s1 → board players s' → same_queue s1 s' →
  (∀ i, stat <$> Entities s' !! i = stat <$> Entities s1 !! i) → resolved players gone loud s s'.
Proof.
  intros [H1 H2 H3 H4] Hb Hsq Hst. split; [done|by apply (queue_ext s1)| |].
  - by rewrite (sq_pending _ _ Hsq).
  - intros Hl. rewrite (sq_staged _ _ Hsq). by apply H4.
Qed.

Lemma drain_table players eff s l s1 : board players s → queue s → steady s s1 →
  (∀ x, x ∈ l → is_Some (Entities s !! x)) → ∃ s2, for_each (drain_one wild eff) l s1 = (Ok tt, s2) ∧ steady s s2.
Proof.
  intros Hb Hq. revert s1. induction l as [|x l IH]; intros s1 Hs Hl; [by exists s1|]. cbn [for_each].
  destruct (Hl x ltac:(by left)) as [e He].
  assert (∃ s2, drain_one wild eff x s1 = (Ok tt, s2) ∧ steady s s2) as (s2 & HR & Hs2).
  { unfold drain_one. rewrite bind_eq. unfold the_entity. pose proof (sm_entities _ _ (proj1 Hs) x) as Hx. rewrite He in Hx.
    destruct (Entities s1 !! x) as [e1|]; [|done]. cbv beta iota. case_match; [by exists s1|].
    destruct (RemoveCounter_table players x lifeKind (dataInt wild eff "amount") s1) as (s2 & HR & Hs2 & Hn).
    - by apply (board_same players s).
    - by apply (queue_same s); [apply Hs|].
    - exists s2. split; [done|]. split; [|done]. etrans; [apply Hs|exact Hs2]. }
  rewrite bind_eq, HR. apply IH; [done|]. intros y Hy. apply Hl. by right.
Qed.

Definition gone_with (eff : Effect) : list Z :=
  if decide (ef_Kind eff = "counter") then [dataUint wild eff "target_effect"] else [].

Lemma counter_table players eff s : board players s → queue s →
  ∃ s', resolve_counter wild eff s = (Ok tt, s') ∧ resolved players [dataUint wild eff "target_effect"] false s s'.
Proof.
  intros Hb Hq. unfold resolve_counter. rewrite bind_eq. unfold get at 1. cbv beta iota. rewrite bind_eq.
  set (id := dataUint wild eff "target_effect").
  assert (Hend : ∀ s1, resolved players [id] false s s1 → ∃ s', binSource eff s1 = (Ok tt, s') ∧ resolved players [id] false s s').
  { intros s1 Hs1. destruct (binSource_table players eff s1 (rs_board _ _ _ _ _ Hs1)) as (s' & HR & Hb' & Hsq & Hst & _).
    exists s'. split; [done|]. by apply (resolved_after _ _ _ _ s1). }
  destruct (FindEffect id s) as [[c i]|] eqn:Hf.
  - rewrite bind_eq. destruct (RemoveEffect_table players id s Hb Hq) as (s1 & b & HR & Hs1 & HE & HZ). rewrite HR.
    cbv beta iota. rewrite bind_eq. unfold get at 1. cbv beta iota.
    destruct (Entities s1 !! ef_Source c) as [e|] eqn:He; [|by apply Hend].
    case_decide as Hz; [|by apply Hend]. rewrite bind_eq. unfold st_try.
    destruct (MoveTo_table players (ef_Source c) (graveZone (en_Owner e)) s1 e (rs_board _ _ _ _ _ Hs1) He)
      as (s2 & HM & Hb2 & Hsq & Hst & _).
    { right. exists (en_Owner e). split; [by apply (bo_owner _ _ (rs_board _ _ _ _ _ Hs1) (ef_Source c))|].
      right; right; right; left. }
    rewrite HM. apply Hend. by apply (resolved_after _ _ _ _ s1).
  - apply Hend. split; [done|done| |done]. symmetry. apply remove_missing. by apply FindEffect_missing.
Qed.

Lemma summon_table players eff s : board players s → queue s → ef_Controller eff ∈ order → is_Some (Entities s !! ef_Source eff) →
  ∃ s', resolve_summon eff s = (Ok tt, s') ∧ resolved players [] true s s'.
Proof.
  intros Hb Hq Ho [e He]. unfold resolve_summon. rewrite bind_eq.
  destruct (MoveTo_table players (ef_Source eff) (fieldZone (ef_Controller eff)) s e Hb He) as (s1 & HM & Hb1 & Hsq & Hst & _).
  { right. exists (ef_Controller eff). split; [done|]. right; right; left. }
  rewrite HM. destruct (heard_Publish (mkEvent "creature_entered" (ef_Source eff) 0 ∅) s1) as (s' & HR & Hh).
  exists s'. split; [done|]. split; [by apply (heard_board players s1)|apply (heard_queue s1); [done|by apply (queue_ext s)]| |done].
  rewrite filter_nothing, (hd_pending _ _ Hh). apply Hsq.
Qed.

Lemma resolver_table players eff s : board players s → queue s → sound_effect s eff → ∃ resolver s',
  resolvers wild (ef_Kind eff) = Some resolver ∧ resolver eff s = (Ok tt, s') ∧
  resolved players (gone_with eff) (bool_decide (ef_Kind eff = "summon")) s s'.
Proof.
  intros Hb Hq [_ Hk]. pose proof (bo_counters _ _ Hb) as Hn.
  destruct Hk as [Hk|(Hk & Ho & Hsrc)].
  - unfold gone_with. repeat (apply elem_of_cons in Hk as [Hk|Hk]); [..|by apply elem_of_nil in Hk]; rewrite Hk.
    + exists (resolve_damage wild). simpl. unfold resolve_damage. rewrite bind_eq. unfold get. cbv beta iota.
      destruct (RemoveCounter_table players (playerEntity (opponentInState (ef_Controller eff) s) s) lifeKind
        (dataInt wild eff "amount") s Hb Hq) as (s1 & HR & Hs).
      destruct (bin_resolved players eff s s1 Hs Hb Hq) as (s' & HR' & Hr). exists s'. rewrite bind_eq, HR. done.
    + exists (resolve_gain_life wild). simpl. unfold resolve_gain_life. rewrite bind_eq. unfold get. cbv beta iota.
      destruct (changeCounter_table players (playerEntity (ef_Controller eff) s) lifeKind
        (dataInt wild eff "amount") s Hb Hq) as (s1 & HR & Hs & _).
      destruct (bin_resolved players eff s s1 Hs Hb Hq) as (s' & HR' & Hr). exists s'. rewrite bind_eq.
      unfold AddCounter. rewrite HR. done.
    + exists (resolve_drain wild). simpl. unfold resolve_drain. rewrite bind_eq. unfold get. cbv beta iota.
      destruct (drain_table players eff s (Find s (HasType "player" [])) s Hb Hq) as (s1 & HR & Hs); [by split; [reflexivity|]| |].
      { intros x (e & He & _)%elem_of_Find. by eexists. }
      destruct (bin_resolved players eff s s1 Hs Hb Hq) as (s' & HR' & Hr). exists s'. rewrite bind_eq, HR. done.
    + exists (resolve_counter wild). simpl. destruct (counter_table players eff s Hb Hq) as (s' & HR & Hr). by exists s'.
  - exists resolve_summon. unfold gone_with. rewrite Hk. destruct (summon_table players eff s Hb Hq Ho Hsrc) as (s' & HR & Hr).
    by exists s'.
Qed.

Lemma filter_more id gone (l : list Effect) :
  filter (λ e, ef_ID e ∉ [id]) (filter (λ e, ef_ID e ∉ gone) l) = filter (λ e, ef_ID e ∉ id :: gone) l.
Proof.
  rewrite list_filter_filter. apply list_filter_iff. intros e.
  rewrite !not_elem_of_cons. pose proof (not_elem_of_nil (ef_ID e)). naive_solver.
Qed.

(** An effect taken off the queue. *)
Lemma drop_resolved players gone loud id i e s s1 : resolved players gone loud s s1 → FindEffect id s1 = Some (e, i) →
  resolved players (id :: gone) loud s (set_PendingEffects (remove_at i (PendingEffects s1)) s1).
Proof.
  intros [Hb Hq HP HS] Hf. apply FindEffect_found in Hf as (Hi & _ & _).
  assert (Hr : remove_at i (PendingEffects s1) = filter (λ e, ef_ID e ∉ [id]) (PendingEffects s1))
    by (apply remove_found; [apply Hq|done]).
  rewrite Hr. split; [by apply (board_bookkeeping players s1)| |simpl; by rewrite HP, filter_more|done].
  destruct Hq as [Q1 Q2 Q3 Q4 Q5]. split; simpl; try done.
  - by apply (Forall_filtered (sound_effect s1)).
  - by apply filter_ids_NoDup.
  - by apply Forall_filtered.
Qed.

Lemma miss_resolved players gone loud id s s1 : resolved players gone loud s s1 → FindEffect id s1 = None →
  resolved players (id :: gone) loud s s1.
Proof.
  intros [Hb Hq HP HS] Hf. split; [done|done| |done]. rewrite <-filter_more, <-HP.
  symmetry. apply remove_missing. by apply FindEffect_missing.
Qed.

Lemma events_resolved players gone loud s s1 l : resolved players gone loud s s1 →
  resolved players gone loud s (set_Events l s1).
Proof.
  intros Hr. apply (resolved_after _ _ _ _ s1); [done| |done|done]. by apply (board_bookkeeping players s1); [apply Hr|..].
Qed.

(** With the window closed, the top of the stack resolves. *)
Lemma ResolveNext_top players s p l top : board players s → queue s → PendingEffects s = l ++ [top] → pr_Open p = false →
  ∃ s', ResolveNext handle (HaltWhileOpen p PickBack) (resolvers wild) s = (Ok (Some top), s') ∧
    resolved players (ef_ID top :: gone_with top) (bool_decide (ef_Kind top = "summon")) s s'.
Proof.
  intros Hb Hq HP Hp. unfold ResolveNext. rewrite bind_eq. unfold lib at 1, get. cbv beta iota.
  unfold HaltWhileOpen. rewrite Hp. unfold PickBack. rewrite HP, length_app. simpl.
  assert (Htop : PendingEffects s !! length l = Some top) by (rewrite HP; by apply list_lookup_middle).
  assert (go_index (l ++ [top]) (Z.of_nat (length l + 1) - 1) = Some top) as ->.
  { apply go_index_Some. rewrite length_app. simpl. split; [lia|]. replace (Z.to_nat _) with (length l) by lia. by rewrite <-HP. }
  destruct (publishEffectEvent_quiet EventEffectResolving top s) as [ev Hev]; [right; by left|apply Hq|].
  rewrite bind_eq. unfold lib at 1. rewrite Hev. cbv beta iota. set (s1 := set_Events ev s).
  assert (Hb1 : board players s1) by (by apply (board_bookkeeping players s)).
  assert (Hq1 : queue s1) by (apply (queue_ext s); done).
  assert (Hf1 : FindEffect (ef_ID top) s1 = Some (top, length l)) by (apply FindEffect_at; [apply Hq|exact Htop]).
  rewrite bind_eq. unfold lib at 1. rewrite Hf1. cbv beta iota.
  assert (Hsound : sound_effect s1 top).
  { pose proof (qu_sound _ Hq) as Hall. rewrite HP in Hall. apply Forall_app in Hall as [_ Hall].
    by apply Forall_cons in Hall as [Hall _]. }
  rewrite (proj1 Hsound). destruct (resolver_table players top s1 Hb1 Hq1 Hsound) as (resolver & s2 & -> & HR & Hr).
  rewrite bind_eq. unfold run_resolver at 1. rewrite HR. cbv beta iota. rewrite bind_eq. unfold lib at 1. cbv beta iota.
  assert (Hr2 : resolved players (gone_with top) (bool_decide (ef_Kind top = "summon")) s s2).
  { destruct Hr as [R1 R2 R3 R4]. by split. }
  assert (Hend : ∀ s3, resolved players (ef_ID top :: gone_with top) (bool_decide (ef_Kind top = "summon")) s s3 →
    ∃ s', (_ ← lib (E:=ccg_error) (publishEffectEvent handle EventEffectResolved top); mret (Some top)) s3 = (Ok (Some top), s') ∧
      resolved players (ef_ID top :: gone_with top) (bool_decide (ef_Kind top = "summon")) s s').
  { intros s3 H3. rewrite bind_eq. unfold lib.
    destruct (publishEffectEvent_quiet EventEffectResolved top s3) as [l3 ->]; [right; right; by left|apply H3|].
    exists (set_Events l3 s3). split; [done|]. by apply events_resolved. }
  destruct (FindEffect (ef_ID top) s2) as [[e i]|] eqn:Hf2; rewrite bind_eq; unfold lib at 1.
  - unfold drop_effect, modify. cbv beta iota. apply Hend. by apply (drop_resolved players _ _ _ _ e).
  - unfold mret at 1, ST_ret at 1, st_ret at 1. cbv beta iota. apply Hend. by apply miss_resolved.
Qed.

(** ** Pushing *)

(** What a push leaves. *)
Record pushed players (new : list Effect) s s' : Prop := {
  pu_board : board players s';
  pu_queue : queue s';
  pu_pending : PendingEffects s' = PendingEffects s ++ new;
  pu_staged : StagedTriggers s' = StagedTriggers s;
  pu_rest : Entities s' = Entities s ∧ Zones s' = Zones s
}.

Lemma PushEffect_table players eff s : board players s → queue s → sound_effect s eff → ∃ s',
  let id := NextEffectID (IDs s) + 1 in
  PushEffect handle eff s = (Ok id, s') ∧ pushed players [set_effect_id id eff] s s'.
Proof.
  intros Hb Hq Hs. set (id := NextEffectID (IDs s) + 1). unfold PushEffect, push_with. rewrite bind_eq. cbv beta iota.
  fold id. set (eff' := set_effect_id id eff). rewrite bind_eq. unfold modify. cbv beta iota. rewrite bind_eq.
  match goal with |- context [publishEffectEvent handle EventEffectPushed eff' ?s1] => set (s2 := s1) end.
  destruct (publishEffectEvent_quiet EventEffectPushed eff' s2) as [l Hl]; [by left|apply Hq|]. rewrite Hl.
  exists (set_Events l s2). split; [done|]. destruct Hq as [Q1 Q2 Q3 Q4 Q5].
  assert (Hold : ∀ e, e ∈ PendingEffects s → ef_ID e ≠ id).
  { intros e He. pose proof (proj1 (Forall_forall _ _) Q4 e He) as H. simpl in H. unfold id. lia. }
  split; [by apply (board_bookkeeping players s)| |done|done|done]. split; try done; simpl.
  - apply Forall_app. split; [exact Q2|]. apply Forall_cons. split; [exact Hs|constructor].
  - rewrite fmap_app. apply NoDup_app. split; [done|]. split; [|simpl; apply NoDup_singleton].
    intros x (e & -> & He)%list_elem_of_fmap Hx. apply list_elem_of_singleton in Hx. by apply (Hold e).
  - apply Forall_app. split.
    + eapply Forall_impl; [exact Q4|]. simpl. intros e He. unfold id. lia.
    + apply Forall_cons. split; [simpl; lia|constructor].
Qed.

Lemma trigger_sound s eff : trigger eff → sound_effect s eff.
Proof.
  intros [Hc Hk]. split; [done|]. left. repeat (apply elem_of_cons in Hk as [->|Hk]); [right; by left|right; right; by left|].
  by apply elem_of_nil in Hk.
Qed.

Lemma push_all_table players batch s : board players s → queue s → Forall trigger batch → ∃ ids new s',
  push_all handle batch s = (Ok ids, s') ∧ pushed players new s s' ∧ Forall trigger new.
Proof.
  revert s. induction batch as [|eff batch IH]; intros s Hb Hq Hall.
  { exists [], [], s. split; [done|]. split; [|constructor]. split; try done. by rewrite app_nil_r. }
  apply Forall_cons in Hall as [He Hall]. cbn [push_all].
  destruct (PushEffect_table players eff s Hb Hq (trigger_sound s eff He)) as (s1 & HR & [P1 P2 P3 P4 [P5 P6]]).
  rewrite bind_eq, HR. destruct (IH s1 P1 P2 Hall) as (ids & new & s' & HR' & [R1 R2 R3 R4 [R5 R6]] & Hnew).
  rewrite bind_eq, HR'. eexists _, (_ :: new), s'. split; [reflexivity|]. split.
  - split; [done|done| |congruence|split; congruence]. by rewrite R3, P3, <-app_assoc.
  - apply Forall_cons. split; [exact He|exact Hnew].
Qed.

(** The staged triggers go on top of the stack. *)
Lemma FlushTriggers_table players by_ s : board players s → queue s → (∀ l, by_ l ≡ₚ l) → ∃ ids new s',
  FlushTriggers handle (Some by_) s = (Ok ids, s') ∧ board players s' ∧ queue s' ∧ StagedTriggers s' = [] ∧
  PendingEffects s' = PendingEffects s ++ new ∧ Forall trigger new ∧ (StagedTriggers s = [] → new = []) ∧
  Entities s' = Entities s ∧ Zones s' = Zones s.
Proof.
  intros Hb Hq Hby. unfold FlushTriggers. rewrite bind_eq. unfold get. cbv beta iota.
  destruct (decide (StagedTriggers s = [])) as [Hnil|Hne].
  - exists [], [], s. split; [done|]. split; [done|]. split; [done|]. split; [done|]. split; [by rewrite app_nil_r|].
    split; [constructor|done].
  - rewrite bind_eq. unfold modify. cbv beta iota.
    destruct (push_all_table players (by_ (StagedTriggers s)) (set_StagedTriggers [] s)) as (ids & new & s' & HR & [P1 P2 P3 P4 [P5 P6]] & Hn).
    + by apply (board_bookkeeping players s).
    + destruct Hq as [Q1 Q2 Q3 Q4 Q5]. split; try done.
    + rewrite Hby. apply Hq.
    + exists ids, new, s'. split_and!; done.
Qed.

(** ** Casting *)

Definition basket_of (players : gmap string EntityID) (pid : string) : Basket :=
  <["sun" := mkPool (default 0 (players !! pid)) "sun" manaPerTurn false]>
    {["moon" := mkPool (default 0 (players !! pid)) "moon" manaPerTurn false]}.

Lemma basket_distinct players pid : distinct (basket_of players pid).
Proof.
  intros k1 k2 p1 p2 H1 H2 _ Hk. unfold basket_of in *.
  apply lookup_insert_Some in H1 as [[<- <-]|[_ [<- <-]%lookup_singleton_Some]];
  apply lookup_insert_Some in H2 as [[<- <-]|[_ [<- <-]%lookup_singleton_Some]]; done.
Qed.

(** Paying changes counters only, and nothing at all when it is refused. *)
Lemma pay_table players sp pid s : board players s → queue s →
  (∃ e, pay sp (basket_of players pid) s = (Err e, s)) ∨
  (∃ s', pay sp (basket_of players pid) s = (Ok tt, s') ∧ steady s s').
Proof.
  intros Hb Hq.
  assert (Hg : ∀ generic fallback, let m := PayWithGeneric handle (basket_of players pid) (sp_cost sp) generic fallback in
    (∃ e, m s = (Err e, s)) ∨ (∃ s', m s = (Ok tt, s') ∧ steady s s')).
  { intros generic fallback. cbv zeta.
    destruct (PayWithGeneric_exact handle handle_polite (basket_of players pid) (sp_cost sp) generic fallback s
      (basket_distinct players pid)) as [(e & He & _)|(paid & s' & HR & _)]; [left; by exists e|right].
    exists s'. split; [done|].
    pose proof (keeps_PayWithGeneric_steady s (qu_subs _ Hq) (basket_of players pid) (sp_cost sp) generic fallback s
      (conj (same_table_refl s) (bo_counters _ _ Hb))) as Hs. by rewrite HR in Hs. }
  unfold pay. case_decide; [apply Hg|]. rewrite Pay_is_generic. apply Hg.
Qed.

Lemma spec_kinds def sp : specs !! def = Some sp →
  sp_kind sp ∈ ["damage"; "gain_life"; "drain"; "counter"; "summon"].
Proof.
  intros H. unfold specs in H. repeat (apply lookup_insert_Some in H as [[_ <-]|[_ H]]); [..|apply lookup_singleton_Some in H as [_ <-]];
    apply (bool_decide_unpack _); by vm_compute.
Qed.

(** A duel's parts that a call on the cards leaves alone. *)
Definition cards_of (g g' : StackDuel.State) : Prop := du_Priority g' = du_Priority g ∧ Players g' = Players g.

(** A spell cast. *)
Record cast_to (pid : string) (g g' : StackDuel.State) (eff : Effect) : Prop := {
  ca_parts : cards_of g g';
  ca_board : board (Players g) (du_State g');
  ca_queue : queue (du_State g');
  ca_pending : PendingEffects (du_State g') = PendingEffects (du_State g) ++ [eff];
  ca_staged : StagedTriggers (du_State g') = StagedTriggers (du_State g);
  ca_controller : ef_Controller eff = pid;
  ca_zone : zone_of (du_State g') (ef_Source eff) = stackZone
}.

Lemma putOnStack_table pid args checks g evs : board (Players g) (du_State g) → queue (du_State g) → pid ∈ order →
  (∃ e, putOnStack wild pid args checks (g, evs) = (Err e, (g, evs))) ∨
  (∃ g' eff, putOnStack wild pid args checks (g, evs) = (Ok tt, (g', evs)) ∧ cast_to pid g g' eff).
Proof.
  intros Hb Hq Hpid.
  enough (Hall : ∀ P : outcome error () * (StackDuel.State * list event) → Prop, (∀ e, P (Err e, (g, evs))) →
    (∀ g' eff, cast_to pid g g' eff → P (Ok tt, (g', evs))) → P (putOnStack wild pid args checks (g, evs))).
  { apply Hall; [intros e; left; by exists e|]. intros g' eff Hc. right. by exists g', eff. }
  intros P Hbad Hgood. unfold putOnStack. destruct (entityArg wild args) as [id|]; [|apply Hbad].
  rewrite bind_eq. unfold duel_get at 1. cbv beta iota.
  destruct (Entities (du_State g) !! id) as [e|] eqn:He; [|apply Hbad].
  unfold check. destruct (decide (en_Zone e = handZone pid ∧ en_Owner e = pid)) as [Hown|Hno].
  2:{ rewrite bool_decide_false by done. apply Hbad. }
  rewrite bool_decide_true by done. cbn [negb]. rewrite bind_eq. unfold mret at 1, ST_ret at 1, st_ret at 1. cbv beta iota.
  destruct (specs !! en_DefID e) as [sp|] eqn:Hsp; [|apply Hbad].
  destruct (first_error checks sp) as [err|]; [apply Hbad|].
  rewrite bind_eq. unfold mret at 1, ST_ret at 1, st_ret at 1. cbv beta iota.
  rewrite bind_eq. unfold duel_get at 1. cbv beta iota.
  destruct (cast_data sp (du_State g)) as [data|]; [|apply Hbad].
  rewrite bind_eq. unfold duel_get at 1. cbv beta iota. change (manaBasket g pid) with (basket_of (Players g) pid).
  rewrite bind_eq. unfold on_cards at 1.
  destruct (pay_table (Players g) sp pid (du_State g) Hb Hq) as [[err ->]|(s1 & -> & Hs)].
  { cbn [lift]. assert (set_cards (du_State g) g = g) as -> by by destruct g. apply Hbad. }
  cbn [lift]. pose proof (board_same _ _ _ Hb Hs) as Hb1. pose proof (queue_same _ _ (proj1 Hs) Hq) as Hq1.
  pose proof (sm_entities _ _ (proj1 Hs) id) as He1. rewrite He in He1.
  destruct (Entities s1 !! id) as [e1|] eqn:Hid1; [|done].
  rewrite bind_eq. unfold on_cards at 1. change (du_State (set_cards s1 g)) with s1.
  destruct (MoveTo_table (Players g) id stackZone s1 e1 Hb1 Hid1) as (s2 & -> & Hb2 & Hsq & Hst & HC & HZ); [by left|].
  cbn [lift]. rewrite bind_eq. unfold on_cards at 1. change (du_State (set_cards s2 _)) with s2.
  set (eff := mkEffect 0 id pid (sp_kind sp) 0 [] data false "").
  assert (Hsound : sound_effect s2 eff).
  { split; [done|]. pose proof (spec_kinds _ _ Hsp) as Hk.
    apply elem_of_app in Hk as [Hk|Hk] || (change (sp_kind sp ∈ ["damage"; "gain_life"; "drain"; "counter"] ++ ["summon"]) in Hk;
      apply elem_of_app in Hk as [Hk|Hk]); [by left|right].
    apply list_elem_of_singleton in Hk. split; [done|]. split; [done|]. simpl.
    destruct (stat_lookup s1 s2 id e1 Hst Hid1) as (e2 & ? & _). by eexists. }
  destruct (PushEffect_table (Players g) eff s2 Hb2 (queue_ext _ _ Hsq Hst Hq1) Hsound) as (s3 & -> & [P1 P2 P3 P4 [P5 P6]]).
  cbn [lift]. apply (Hgood _ (set_effect_id (NextEffectID (IDs s2) + 1) eff)). split.
  - done.
  - exact P1.
  - exact P2.
  - simpl. rewrite P3, (sq_pending _ _ Hsq), (sm_pending _ _ (proj1 Hs)). reflexivity.
  - simpl. rewrite P4, (sq_staged _ _ Hsq). apply (sm_staged _ _ (proj1 Hs)).
  - done.
  - simpl. unfold zone_of. rewrite P5. fold (zone_of s2 id). by rewrite HZ, decide_True.
Qed.
End table.
