(* ===== verification/StackDuelTurns.v ===== *)
(** * Drawing, refilling and the beginning of a turn

    What the hooks of stackduel do to the table of StackDuelFacts.v: cards go from the
    deck to the hand, the mana counters are set, the stack stays as it is. *)

From S2P Require Import Prelude CoreTypes Choices Cards CardFacts Effects Priority Economy StackDuel StackDuelFacts.
#[local] Open Scope Z_scope.

Section turns.
Context (order : list string) (Hlen : length order = 2%nat).
Implicit Types (s : CardState) (players : gmap string EntityID).
Abbreviation board := (board order).
Abbreviation queue := (queue order).

(** Cards have changed places: nothing else has. *)
Record rearranged players s s' : Prop := {
  ra_board : board players s';
  ra_queue : same_queue s s';
  ra_stat : ∀ i, stat <$> Entities s' !! i = stat <$> Entities s !! i;
  ra_counters : ∀ i k, Counters i k s' = Counters i k s
}.

Lemma rearranged_refl players s : board players s → rearranged players s s.
Proof. by split. Qed.

Lemma same_queue_trans s1 s2 s3 : same_queue s1 s2 → same_queue s2 s3 → same_queue s1 s3.
Proof. intros [] []. split; congruence. Qed.

Lemma rearranged_trans players s1 s2 s3 : rearranged players s1 s2 → rearranged players s2 s3 → rearranged players s1 s3.
Proof.
  intros [_ Q1 S1 C1] [B2 Q2 S2 C2]. split; [done|by eapply same_queue_trans| |].
  - intros i. by rewrite S2.
  - intros i k. by rewrite C2.
Qed.

(** A zone written over: the entities say the same but for their place. *)
Lemma rearranged_entities players s s' : board players s → wf s' → zone_frame s' = zone_frame s → same_queue s s' →
  (∀ i, set_Zone "" <$> Entities s' !! i = set_Zone "" <$> Entities s !! i) → rearranged players s s'.
Proof.
  intros Hb Hwf Hf Hq HE.
  assert (Hst : ∀ i, stat <$> Entities s' !! i = stat <$> Entities s !! i).
  { intros i. specialize (HE i). destruct (Entities s' !! i) as [e'|], (Entities s !! i) as [e|]; simpl in *; try done.
    destruct e, e'. unfold set_Zone, stat in *. simpl in *. congruence. }
  assert (HC : ∀ i k, Counters i k s' = Counters i k s).
  { intros i k. unfold Counters. specialize (HE i).
    destruct (Entities s' !! i) as [e'|], (Entities s !! i) as [e|]; simpl in *; try done.
    destruct e, e'. unfold set_Zone in *. simpl in *. injection HE. intros. by subst. }
  split; [|done..]. apply (board_ext order players s); try done. intros i k. rewrite HC. apply (bo_counters _ _ _ Hb).
Qed.

(** An unplaced card put in a zone of the table. *)
Lemma Add_table players n id s e : board players s → Entities s !! id = Some e → en_Zone e = "" → table_zone order n →
  ∃ s', Add n id s = (Ok tt, s') ∧ rearranged players s s' ∧ ∀ i, zone_of s' i = if decide (i = id) then n else zone_of s i.
Proof.
  intros Hb He Hun Hn. pose proof (bo_wf _ _ _ Hb) as Hwf. destruct (bo_zones _ _ _ Hb n Hn) as (z & Hz & Hcap).
  unfold Add. rewrite bind_eq. unfold the_zone. rewrite Hz. cbv beta iota. rewrite bind_eq. unfold the_entity. rewrite He.
  cbv beta iota. rewrite bind_eq. unfold err_if.
  assert (full z = false) as -> by (unfold full; apply bool_decide_false; lia).
  unfold mret at 1, ST_ret at 1, st_ret at 1. cbv beta iota. eexists. split; [reflexivity|]. split.
  - apply rearranged_entities; [done| | |done|].
    + apply wf_enter; [done..|]. apply Permutation_sym, Permutation_cons_append.
    + unfold zone_frame. simpl. rewrite fmap_insert. simpl. apply insert_id. by rewrite lookup_fmap, Hz.
    + intros i. simpl. destruct (decide (i = id)) as [->|Hi]; [by rewrite lookup_insert_eq, He; destruct e|by rewrite lookup_insert_ne].
  - intros i. unfold zone_of. simpl. case_decide as Hi; [by rewrite Hi, lookup_insert_eq|by rewrite lookup_insert_ne].
Qed.

Lemma clear_zones_queue ids s : same_queue s (clear_zones ids s).
Proof.
  revert s. induction ids as [|id ids IH]; intros s; [done|].
  change (clear_zones (id :: ids) s) with (clear_zones ids
    match Entities s !! id with Some e => put_entity id (set_Zone "" e) s | None => s end).
  eapply same_queue_trans; [|apply IH]. by destruct (Entities s !! id).
Qed.

(** Cards in nobody's zone. *)
Definition loose s (ids : list EntityID) : Prop := NoDup ids ∧ ∀ i, i ∈ ids → is_Some (Entities s !! i) ∧ zone_of s i = "".

Lemma Draw_table players n k s : board players s → 0 ≤ k →
  (∃ e, Draw n k s = (Err e, s)) ∨ (∃ drawn s', Draw n k s = (Ok drawn, s') ∧ rearranged players s s' ∧ loose s' drawn).
Proof.
  intros Hb Hk. pose proof (bo_wf _ _ _ Hb) as Hwf.
  destruct (Draw_run n k s Hwf) as [(e & -> & _)|[[? _]|(s' & _ & HD & Hwf' & Hf & Hm & _ & Hd & Hz)]]; [by left; exists e|lia|].
  right. exists (top_of (Z.to_nat k) (members s n)), s'. split; [done|]. set (drawn := top_of _ _) in *.
  assert (Hin : ∀ i, i ∈ drawn → i ∈ members s n).
  { intros i Hi. rewrite Hm, elem_of_app. right. by rewrite <-Permutation_rev. }
  split.
  - assert (Hs' : ∃ z keep ids, s' = clear_zones ids (put_members n z keep s)).
    { unfold Draw in HD. rewrite bind_eq in HD. unfold the_zone in HD. destruct (Zones s !! n) as [z|]; [|done].
      cbv beta iota in HD. rewrite bind_eq in HD. unfold err_if in HD. case_bool_decide; [done|].
      unfold mret at 1, ST_ret at 1, st_ret at 1 in HD. cbv beta iota in HD. rewrite decide_False in HD by lia.
      injection HD as _ <-. by eexists _, _, _. }
    destruct Hs' as (z & keep & ids & ->). apply rearranged_entities; [done..| |].
    + eapply same_queue_trans; [|apply clear_zones_queue]. done.
    + intros i. rewrite (proj2 (proj2 (clear_zones_spec ids (put_members n z keep s)))). simpl.
      destruct (Entities s !! i) as [[]|]; simpl; [|done]. by case_decide.
  - pose proof (members_NoDup s n Hwf) as Hnd. rewrite Hm in Hnd. apply NoDup_app in Hnd as (_ & _ & Hnd). split.
    + by rewrite <-Permutation_rev in Hnd.
    + intros i Hi. split; [|by rewrite Hz, decide_True]. apply elem_of_dom. rewrite Hd. apply elem_of_dom.
      by apply (members_zone s n), Hin.
Qed.

(** A draw never fails, however few cards are left. *)
Lemma drawCards_table players pid n s : board players s → pid ∈ order → 0 ≤ n → ∃ s',
  drawCards pid n s = (Ok tt, s') ∧ rearranged players s s'.
Proof.
  intros Hb Hp Hn. unfold drawCards. rewrite bind_eq. unfold st_try at 1.
  destruct (Draw_table players (deckZone pid) n s Hb Hn) as [(e & ->)|(drawn & s1 & -> & Hr & Hl)].
  { exists s. split; [done|]. by apply rearranged_refl. }
  cbv beta iota.
  assert (Hall : ∀ l s0, rearranged players s s0 → loose s0 l → ∃ s',
    for_each (λ id, r ← st_try (Add (handZone pid) id); match r with inl _ => st_panic | inr _ => mret tt end) l s0 = (Ok tt, s') ∧
    rearranged players s s').
  { induction l as [|id l IH]; intros s0 Hr0 [Hnd Hl0]; [by exists s0|].
    apply NoDup_cons in Hnd as [Hid Hnd]. destruct (Hl0 id) as [[e He] Hz]; [by left|].
    destruct (Add_table players (handZone pid) id s0 e) as (s2 & HA & Hr2 & Hz2).
    { apply Hr0. } { done. } { unfold zone_of in Hz. by rewrite He in Hz. }
    { right. exists pid. split; [done|]. by left. }
    cbn [for_each]. rewrite bind_eq, bind_eq. unfold st_try at 1. rewrite HA. apply IH.
    - by eapply rearranged_trans.
    - split; [done|]. intros i Hi. destruct (Hl0 i) as [Hs Hzi]; [by right|].
      rewrite Hz2, decide_False by (by intros ->). split; [|done].
      pose proof (ra_stat _ _ _ Hr2 i) as Hst. apply fmap_is_Some with (f := stat). rewrite Hst. by apply fmap_is_Some. }
  by apply Hall.
Qed.

(** Setting a pool. *)
Lemma Set_table players p n s : board players s → queue s → pl_AllowNegative p = false → ∃ k s',
  Set_ handle p n s = (Ok k, s') ∧ steady s s' ∧ Counters (pl_Owner p) (pl_Kind p) s' =
    (if decide (is_Some (Entities s !! pl_Owner p)) then set_target p n else Counters (pl_Owner p) (pl_Kind p) s).
Proof.
  intros Hb Hq Hp. unfold Set_. rewrite bind_eq. unfold get. cbv beta iota zeta. rewrite Hp. rewrite bind_eq. unfold Current.
  assert (Ht : 0 ≤ set_target p n).
  { unfold set_target. rewrite Hp. repeat case_decide; lia. }
  case_decide as Hz.
  { eexists _, s. split; [reflexivity|]. split; [|case_decide; lia]. split; [reflexivity|apply Hb]. }
  unfold add_to, AddCounter.
  destruct (changeCounter_table order players (pl_Owner p) (pl_Kind p) (set_target p n - Counters (pl_Owner p) (pl_Kind p) s) s Hb Hq)
    as (s' & -> & Hs & HC).
  eexists _, s'. split; [reflexivity|]. split; [done|]. rewrite HC. repeat case_decide; try tauto; lia.
Qed.

(** ** A turn begins *)

(** The same stack on the same table, and the window closed. *)
Record turned (g g' : StackDuel.State) : Prop := {
  tn_board : board (Players g) (du_State g');
  tn_queue : queue (du_State g');
  tn_players : Players g' = Players g;
  tn_closed : du_Priority g' = closed_window;
  tn_pending : PendingEffects (du_State g') = PendingEffects (du_State g);
  tn_staged : StagedTriggers (du_State g') = StagedTriggers (du_State g)
}.

Lemma refill_table pid g evs : board (Players g) (du_State g) → queue (du_State g) → ∃ s',
  refill pid (g, evs) = (Ok tt, (set_cards s' g, evs)) ∧ steady (du_State g) s'.
Proof.
  intros Hb Hq. unfold refill, on_cards. rewrite bind_eq.
  destruct (Set_table (Players g) (pool g pid "sun") manaPerTurn (du_State g) Hb Hq eq_refl) as (k & s1 & -> & Hs1 & _).
  rewrite bind_eq.
  destruct (Set_table (Players g) (pool g pid "moon") manaPerTurn s1) as (k2 & s2 & -> & Hs2 & _);
    [by eapply board_same|apply (queue_same _ (du_State g)); [apply Hs1|done]|done|].
  exists s2. split; [done|]. destruct Hs1, Hs2. split; [by etrans|done].
Qed.

Lemma begin_table pid g evs : board (Players g) (du_State g) → queue (du_State g) → pid ∈ order → ∃ g',
  begin_on pid (g, evs) = (Ok tt, (g', evs)) ∧ turned g g'.
Proof.
  intros Hb Hq Hp. unfold begin_on. rewrite bind_eq. unfold on_window at 1, ResetWindow, set_window. rewrite app_nil_r.
  cbn [lift]. set (g1 := set_priority closed_window g). rewrite bind_eq.
  destruct (refill_table pid g1 evs Hb Hq) as (s2 & -> & Hs). unfold on_cards. change (du_State (set_cards s2 g1)) with s2.
  destruct (drawCards_table (Players g) pid 1 s2) as (s3 & -> & [B Q S _]); [by eapply board_same|done|done|].
  eexists. split; [reflexivity|]. pose proof (queue_same _ _ _ (proj1 Hs) Hq) as Hq2. split; simpl; try done.
  - by eapply queue_ext.
  - rewrite (sq_pending _ _ Q). apply Hs.
  - rewrite (sq_staged _ _ Q). apply Hs.
Qed.

(** ** A table laid out

    What [board] asks for, entry by entry. *)
Definition placed_in s (id : EntityID) (e : Entity) : Prop :=
  match Zones s !! en_Zone e with Some z => id ∈ zn_Members z | None => en_Zone e = "" end.

#[export] Instance placed_in_dec s id e : Decision (placed_in s id e).
Proof. unfold placed_in. destruct (Zones s !! en_Zone e); apply _. Defined.

Definition laid_out players s : Prop :=
  map_Forall (λ id e, (en_ID e = id ∧ 1 ≤ id ≤ NextEntityID (IDs s)) ∧ en_Owner e ∈ order ∧
    (en_Type e = "player" → players !! en_Owner e = Some id) ∧
    placed_in s id e ∧
    map_Forall (λ _ n, 0 ≤ n) (readCountersFromAttrs (en_Attrs e))) (Entities s) ∧
  map_Forall (λ n z, (n ≠ "" ∧ NoDup (zn_Members z)) ∧ Forall (λ id, en_Zone <$> Entities s !! id = Some n) (zn_Members z)) (Zones s) ∧
  Forall (λ p, (λ e, (en_Type e, en_Owner e)) <$> (players !! p ≫= (Entities s !!.)) = Some ("player", p)) order ∧
  Forall (λ n, zn_Capacity <$> Zones s !! n = Some 0) (stackZone :: (order ≫= seat_zones)) ∧
  0 ≤ NextEntityID (IDs s).

#[export] Instance laid_out_dec players s : Decision (laid_out players s).
Proof. unfold laid_out. apply _. Defined.

Lemma laid_out_board players s : laid_out players s → board players s.
Proof.
  intros (HE & HZ & HP & HN & HI). split.
  - split; [intros id e He; apply (HE id e He)|intros n z Hz; apply (HZ n z Hz)| |  |done].
    + intros n z id Hz. split.
      * intros Hin. destruct (HZ n z Hz) as [_ Hf]. rewrite Forall_forall in Hf. specialize (Hf id Hin).
        apply fmap_Some in Hf as (e & He & Hn). by exists e.
      * intros (e & He & <-). destruct (HE id e He) as (_ & _ & _ & Hm & _). unfold placed_in in Hm. by rewrite Hz in Hm.
    + intros id e He Hne. destruct (HE id e He) as (_ & _ & _ & Hm & _). unfold placed_in in Hm. by destruct (Zones s !! en_Zone e).
  - intros n Hn. rewrite Forall_forall in HN.
    destruct (proj1 (fmap_Some _ _ _) (HN n ltac:(destruct Hn as [->|(p & Hp & Hin)];
      [by left|right; apply list_elem_of_bind; by exists p]))) as (z & Hz & Hc). by exists z.
  - intros p Hp. rewrite Forall_forall in HP. destruct (proj1 (fmap_Some _ _ _) (HP p Hp)) as (e & He & Heq).
    apply bind_Some in He as (id & Hid & He). exists id, e. by injection Heq as <- <-.
  - intros id e He. by destruct (HE id e He) as (_ & _ & ? & _).
  - intros id e He. by destruct (HE id e He) as (_ & ? & _).
  - intros id k. unfold Counters. destruct (Entities s !! id) as [e|] eqn:He; [|done].
    destruct (HE id e He) as (_ & _ & _ & _ & Hc). destruct (_ !! k) as [n|] eqn:Hk; [|done]. exact (Hc k n Hk).
Qed.
End turns.

(** The two seats of a match, and the table [setup] lays out for them. *)
Definition seats : list string := ["0"; "1"].

Definition opening : StackDuel.State := (new_duel seats (mkDuel NewState closed_window ∅, [])).2.1.

Lemma opening_set : ∃ evs, new_duel seats (mkDuel NewState closed_window ∅, []) = (Ok tt, (opening, evs)).
Proof.
  assert (Hok : (new_duel seats (mkDuel NewState closed_window ∅, [])).1 = Ok tt) by (vm_compute; reflexivity).
  exists (new_duel seats (mkDuel NewState closed_window ∅, [])).2.2. unfold opening. rewrite <-Hok.
  by destruct (new_duel _ _) as [? []].
Qed.

Lemma opening_board : board seats (Players opening) (du_State opening).
Proof.
  assert (Hok : bool_decide (laid_out seats (Players opening) (du_State opening)) = true) by (vm_compute; reflexivity).
  apply laid_out_board, (bool_decide_eq_true_1 _ Hok).
Qed.

Lemma opening_queue : queue seats (du_State opening).
Proof. split; vm_compute; repeat constructor. Qed.
