(* ===== verification/StackDuelTheorems.v ===== *)
(** * What stackduel promises

    A refused move leaves no trace although moves change the state in place, the response
    window is open exactly while the stack is not empty, passing empties the stack, and a
    counterspell counters. *)

From S2P Require Import Prelude CoreTypes Choices Cards CardFacts Effects EffectTheorems Priority Economy StackDuel StackDuelFacts StackDuelTurns.
#[local] Open Scope Z_scope.

Section duels.
Context (wild : SpecFloat.spec_float → Z) (order : list string) (Hnd : NoDup order) (Hlen : length order = 2%nat)
  (Hblank : "" ∉ order).
Implicit Types (g : State) (ctx : Ctx) (mc : MoveContext).

(** ** A duel between two moves *)

(** A window over both players, in some order. *)
Record open_window (p : PriorityState) : Prop := {
  ow_open : pr_Open p = true;
  ow_order : pr_Order p ≡ₚ order;
  ow_holder : 0 ≤ pr_HolderIdx p < 2;
  ow_passes : 0 ≤ pr_Passes p < 2;
  ow_stage : pr_Stage p = respondStage
}.

Record at_rest g : Prop := {
  re_board : board order (Players g) (du_State g);
  re_queue : queue order (du_State g);
  re_staged : StagedTriggers (du_State g) = [];
  re_window : if decide (PendingEffects (du_State g) = []) then du_Priority g = closed_window
    else open_window (du_Priority g)
}.

Lemma open_pending g : at_rest g → pr_Open (du_Priority g) = true → open_window (du_Priority g) ∧ PendingEffects (du_State g) ≠ [].
Proof. intros [_ _ _ Hw] Ho. destruct (decide _) as [_|Hne]; [by rewrite Hw in Ho|done]. Qed.

Lemma closed_pending g : at_rest g → pr_Open (du_Priority g) = false → du_Priority g = closed_window ∧ PendingEffects (du_State g) = [].
Proof. intros [_ _ _ Hw] Ho. destruct (decide _) as [He|_]; [done|]. destruct Hw as [Hw _ _ _ _]. congruence. Qed.

Lemma apnap_perm ctx : ctx_PlayOrder ctx = order → apnap ctx ≡ₚ order.
Proof.
  intros Ho. unfold apnap. rewrite Ho. destruct (find_index _ order) as [i|]; [|done].
  rewrite (Permutation_app_comm). by rewrite take_drop.
Qed.

Lemma good_apnap l : l ≡ₚ order → good_order l = true.
Proof.
  intros Hl. unfold good_order. apply bool_decide_eq_true. split; [|split; by rewrite Hl].
  intros ->. apply Permutation_nil_l in Hl. by rewrite <-Hl in Hlen.
Qed.

(** Opening a window. *)
Lemma window_opens l g evs : l ≡ₚ order → du_Priority g = closed_window → ∃ cfg,
  on_window (OpenWindow l respondStage) (g, evs) =
  (Ok tt, (set_priority (mkPriority true l 0 0 respondStage) g, evs ++ [evSetActivePlayers cfg])) ∧
  open_window (mkPriority true l 0 0 respondStage).
Proof.
  intros Hl Hp. unfold on_window. rewrite Hp. unfold OpenWindow. rewrite bind_eq. unfold the_window. cbv beta iota.
  rewrite bind_eq. unfold refuse at 1. cbn [pr_Open closed_window]. unfold mret at 1, ST_ret at 1, st_ret at 1. cbv beta iota.
  rewrite bind_eq. rewrite (good_apnap l Hl). cbn [negb]. unfold refuse, mret, ST_ret, st_ret. cbv beta iota.
  rewrite bind_eq. unfold set_window. cbv beta iota. unfold gateHolder, queue_gate. cbn [pr_Stage]. rewrite decide_False by done.
  eexists. split; [reflexivity|]. split; simpl; try done; lia.
Qed.

(** ** Moves *)

(** Refused with everything as it was, or accepted with the duel at rest again. *)
Definition atomic (m : M ()) g : Prop :=
  (∃ e, m (g, []) = (Err e, (g, []))) ∨ (∃ g' evs, m (g, []) = (Ok tt, (g', evs)) ∧ at_rest g').

Lemma atomic_refused (m : M ()) g e : m (g, []) = (Err e, (g, [])) → atomic m g.
Proof. left. by exists e. Qed.

Lemma cast_atomic mc args g : at_rest g → ctx_PlayOrder (mc_Ctx mc) = order → mc_PlayerID mc ∈ order →
  atomic (cast_on wild mc args) g.
Proof.
  intros Hg Ho Hp. destruct (pr_Open (du_Priority g)) eqn:Hop.
  { apply (atomic_refused _ _ errWindowOpen). unfold cast_on. rewrite bind_eq. unfold duel_get. rewrite Hop. done. }
  destruct (closed_pending g Hg Hop) as [Hcl Hnil].
  destruct (putOnStack_table order Hlen wild (mc_PlayerID mc) args [] g [] (re_board _ Hg) (re_queue _ Hg) Hp)
    as [[e He]|(g1 & eff & HR & [[Hpr Hpl] Hb Hq HP HS _ _])].
  - apply (atomic_refused _ _ e). unfold cast_on. rewrite bind_eq. unfold duel_get at 1. cbv beta iota.
    rewrite bind_eq. rewrite Hop. cbn [check]. unfold mret, ST_ret, st_ret. cbv beta iota. rewrite bind_eq, He. done.
  - destruct (window_opens (apnap (mc_Ctx mc)) g1 [] (apnap_perm _ Ho)) as (cfg & HW & Hw); [congruence|].
    right. eexists _, _. split.
    { unfold cast_on. rewrite bind_eq. unfold duel_get at 1. cbv beta iota. rewrite bind_eq, Hop. cbn [check].
      unfold mret, ST_ret, st_ret. cbv beta iota. rewrite bind_eq, HR. exact HW. }
    split; simpl; [by rewrite Hpl|done|by rewrite HS; apply Hg|].
    rewrite HP, decide_False; [exact Hw|]. intros Hx. by apply app_nil in Hx as [_ ?].
Qed.

Lemma respond_atomic mc args g : at_rest g → mc_PlayerID mc ∈ order → pr_Open (du_Priority g) = true →
  mc_PlayerID mc = Holder (du_Priority g) → atomic (respond_on wild mc args) g.
Proof.
  intros Hg Hp Hop Hh. destruct (open_pending g Hg Hop) as [[_ W2 W3 W4 W5] Hne].
  destruct (putOnStack_table order Hlen wild (mc_PlayerID mc) args [requireInstant] g [] (re_board _ Hg) (re_queue _ Hg) Hp)
    as [[e He]|(g1 & eff & HR & [[Hpr Hpl] Hb Hq HP HS _ _])].
  - apply (atomic_refused _ _ e). unfold respond_on. by rewrite bind_eq, He.
  - right. eexists (set_priority _ g1), _. split.
    { unfold respond_on. rewrite bind_eq, HR. unfold on_window, ActionTaken. rewrite bind_eq. unfold the_window. cbv beta iota.
      rewrite Hpr, bind_eq, Hop. unfold refuse at 1. cbn [negb]. unfold mret at 1, ST_ret at 1, st_ret at 1. cbv beta iota.
      rewrite bind_eq. rewrite (bool_decide_true _ Hh). cbn [negb]. unfold refuse, mret, ST_ret, st_ret. cbv beta iota.
      unfold set_window. reflexivity. }
    split; simpl; [by rewrite Hpl|done|by rewrite HS; apply Hg|].
    rewrite HP, decide_False; [|intros Hx; by apply app_nil in Hx as [_ ?]]. split; simpl; try done; lia.
Qed.

Lemma endTurn_atomic mc args g : at_rest g → atomic (endTurn_on mc args) g.
Proof.
  intros Hg. destruct (pr_Open (du_Priority g)) eqn:Hop.
  { apply (atomic_refused _ _ errWindowOpen). unfold endTurn_on. rewrite bind_eq. unfold duel_get at 1. rewrite Hop. done. }
  destruct (closed_pending g Hg Hop) as [Hcl Hnil]. right. exists g, [evEndTurn ""]. split; [|done].
  unfold endTurn_on. rewrite bind_eq. unfold duel_get at 1. cbv beta iota. rewrite bind_eq, Hop. cbn [check].
  unfold mret at 1, ST_ret at 1, st_ret at 1. cbv beta iota. rewrite bind_eq. unfold duel_get at 1. cbv beta iota.
  rewrite Hnil. reflexivity.
Qed.

(** ** Passing *)

Lemma window_pass_refused mover p queued : (pr_Open p = false ∨ mover ≠ Holder p) →
  ∃ e, Pass mover (p, queued) = (Err e, (p, queued)).
Proof.
  intros Hno. unfold Pass. rewrite bind_eq. unfold the_window. cbv beta iota. rewrite bind_eq. unfold refuse at 1.
  destruct (pr_Open p); cbn [negb]; [|by eexists]. unfold mret at 1, ST_ret at 1, st_ret at 1. cbv beta iota.
  rewrite bind_eq. unfold refuse at 1. rewrite bool_decide_false; [by eexists|]. by destruct Hno.
Qed.

Lemma window_pass mover p queued : open_window p → mover = Holder p → ∃ cfg,
  Pass mover (p, queued) =
  if decide (pr_Passes p = 0)
  then (Ok false, (mkPriority true (pr_Order p) (next_idx p) 1 (pr_Stage p), queued ++ [cfg]))
  else (Ok true, (closed_window, queued ++ [cfg])).
Proof.
  intros [W1 W2 W3 W4 W5] Hm.
  assert (Hl : Z.of_nat (length (pr_Order p)) = 2) by (rewrite W2, Hlen; done).
  unfold Pass. rewrite bind_eq. unfold the_window. cbv beta iota. rewrite bind_eq. unfold refuse at 1. rewrite W1. cbn [negb].
  unfold mret at 1, ST_ret at 1, st_ret at 1. cbv beta iota. rewrite bind_eq. unfold refuse at 1.
  rewrite bool_decide_true by done. cbn [negb]. unfold mret at 1, ST_ret at 1, st_ret at 1. cbv beta iota zeta. rewrite Hl.
  destruct (decide (pr_Passes p = 0)) as [H0|H0].
  - rewrite decide_False by lia. rewrite H0. rewrite bind_eq. unfold set_window. cbv beta iota. rewrite bind_eq.
    unfold gateHolder, queue_gate. cbn [pr_Stage]. rewrite W5, decide_False by done. by eexists.
  - rewrite decide_True by lia. rewrite bind_eq. unfold set_window. cbv beta iota. rewrite bind_eq.
    unfold close. cbn [pr_Stage]. rewrite W5, decide_False by done. by eexists.
Qed.

(** What a pass does: refused, the priority rotates, or the top of the stack resolves. *)
Definition passes_to g g' : Prop :=
  if decide (pr_Passes (du_Priority g) = 0)
  then du_State g' = du_State g ∧ Players g' = Players g ∧ pr_Passes (du_Priority g') = 1
  else Players g' = Players g ∧ ∃ l top new, PendingEffects (du_State g) = l ++ [top] ∧
    PendingEffects (du_State g') = filter (λ e, ef_ID e ∉ gone_with wild top) l ++ new ∧ Forall trigger new ∧
    (ef_Kind top ≠ "summon" → new = []).

Lemma pass_on_refused mc args g : pr_Open (du_Priority g) = false ∨ mc_PlayerID mc ≠ Holder (du_Priority g) →
  ∃ e, pass_on wild mc args (g, []) = (Err e, (g, [])).
Proof.
  intros Hno. destruct (window_pass_refused (mc_PlayerID mc) (du_Priority g) [] Hno) as [e He].
  exists library. unfold pass_on. rewrite bind_eq. unfold on_window. rewrite He. by destruct g.
Qed.

Lemma filter_top s l top gone : NoDup (ef_ID <$> PendingEffects s) → PendingEffects (H := hook) s = l ++ [top] →
  filter (λ e, ef_ID e ∉ ef_ID top :: gone) (PendingEffects s) = filter (λ e, ef_ID e ∉ gone) l.
Proof.
  intros Hd HP. rewrite HP in Hd |- *. rewrite filter_app. rewrite fmap_app in Hd. apply NoDup_app in Hd as (_ & Hd & _).
  rewrite (filter_cons_False _ top) by (intros H; apply H; by left). rewrite app_nil_r.
  assert (Hne : ∀ e, e ∈ l → ef_ID e ≠ ef_ID top).
  { intros e He Heq. apply (Hd (ef_ID e)); [apply list_elem_of_fmap; by exists e|]. simpl. rewrite Heq. by left. }
  clear HP Hd. induction l as [|e l IH]; [done|]. rewrite !filter_cons. rewrite IH; [|intros e' He'; apply Hne; by right].
  apply decide_ext. pose proof (Hne e ltac:(by left)). rewrite not_elem_of_cons. naive_solver.
Qed.

Lemma pass_accepted mc args g : at_rest g → ctx_PlayOrder (mc_Ctx mc) = order → pr_Open (du_Priority g) = true →
  mc_PlayerID mc = Holder (du_Priority g) → ∃ g' evs,
  pass_on wild mc args (g, []) = (Ok tt, (g', evs)) ∧ at_rest g' ∧ passes_to g g'.
Proof.
  intros Hg Ho Hop Hh. destruct (open_pending g Hg Hop) as [HW Hne]. pose proof HW as [W1 W2 W3 W4 W5].
  destruct (window_pass (mc_PlayerID mc) (du_Priority g) [] HW Hh) as [cfg HP]. unfold pass_on, passes_to. rewrite bind_eq.
  unfold on_window at 1. rewrite HP. destruct (decide (pr_Passes (du_Priority g) = 0)) as [H0|H0]; cbn [lift negb].
  { eexists (set_priority _ g), _. split; [reflexivity|]. split; [|done].
    destruct Hg as [Hb Hq Hs _]. split; simpl; [done..|]. rewrite decide_False by done. split; simpl; try done.
    unfold next_idx. rewrite W2, Hlen. apply Z.rem_bound_pos; simpl; lia. }
  rewrite bind_eq. unfold duel_get at 1. cbv beta iota. set (g1 := set_priority closed_window g).
  destruct (exists_last Hne) as (l & top & Htop).
  destruct (ResolveNext_top order Hlen wild (Players g) (du_State g) closed_window l top (re_board _ Hg) (re_queue _ Hg) Htop eq_refl)
    as (s2 & HR & [R1 R2 R3 R4]).
  rewrite bind_eq. unfold on_cards at 1. change (du_State g1) with (du_State g). change (du_Priority g1) with closed_window.
  rewrite HR. cbn [lift]. cbv zeta.
  destruct (FlushTriggers_table order Hlen (Players g) (λ effs, OrderByPlayer effs (apnap (mc_Ctx mc))) s2 R1 R2)
    as (ids & new & s3 & HF & Hb3 & Hq3 & Hs3 & HP3 & Hnew & Hnone & _).
  { intros effs. apply OrderByPlayer_groups. by rewrite (apnap_perm _ Ho). }
  rewrite bind_eq. unfold on_cards at 1. change (du_State (set_cards s2 g1)) with s2. rewrite HF. cbn [lift].
  rewrite bind_eq. unfold duel_get at 1. cbv beta iota. change (du_State (set_cards s3 _)) with s3.
  set (g3 := set_cards s3 (set_cards s2 g1)).
  assert (Hto : ∃ l top new, PendingEffects (du_State g) = l ++ [top] ∧
    PendingEffects s3 = filter (λ e, ef_ID e ∉ gone_with wild top) l ++ new ∧ Forall trigger new ∧ (ef_Kind top ≠ "summon" → new = [])).
  { exists l, top, new. split; [done|]. split; [|split; [done|]].
    - rewrite HP3, R3. f_equal. apply filter_top; [apply (re_queue _ Hg)|done].
    - intros Hk. apply Hnone. rewrite R4 by (by apply bool_decide_false). apply Hg. }
  destruct (decide (PendingEffects s3 = [])) as [Hnil|Hsome].
  - eexists g3, _. split; [reflexivity|]. split; [|done]. split; simpl; [done..|]. by rewrite Hnil.
  - destruct (window_opens (apnap (mc_Ctx mc)) g3 ([] ++ [evSetActivePlayers cfg]) (apnap_perm _ Ho) eq_refl) as (cfg' & HO & Hw).
    eexists _, _. split; [exact HO|]. split; [|done]. split; simpl; [done..|]. by rewrite decide_False.
Qed.

(** ** A duel *)

Lemma holder_in p : open_window p → Holder p ∈ order.
Proof.
  intros [W1 W2 W3 W4 W5]. unfold Holder, go_index. rewrite W1, decide_True by lia.
  assert (length (pr_Order p) = 2%nat) as Hl by (by rewrite W2).
  destruct (lookup_lt_is_Some_2 (pr_Order p) (Z.to_nat (pr_HolderIdx p))) as [x Hx]; [lia|].
  rewrite Hx. simpl. rewrite <-W2. by eapply list_elem_of_lookup_2.
Qed.

(** The four moves. *)
Inductive request : Type := Cast (args : list any) | Respond (args : list any) | PassPriority | EndTurn.

Definition run_request mc (r : request) : M () :=
  match r with
  | Cast args => cast_on wild mc args
  | Respond args => respond_on wild mc args
  | PassPriority => pass_on wild mc []
  | EndTurn => endTurn_on mc []
  end.

(** Whom the engine lets do what: with the window open the holder, who is in the
    exclusive stage, may respond and pass; with it closed the player on turn may cast
    and end the turn. *)
Definition admitted g (cur pid : string) (r : request) : bool :=
  match r with
  | Respond _ | PassPriority => pr_Open (du_Priority g) && bool_decide (pid = Holder (du_Priority g))
  | Cast _ | EndTurn => negb (pr_Open (du_Priority g)) && bool_decide (pid = cur)
  end.

Definition duel_mc (cur pid : string) : MoveContext :=
  mkMC (Some VState) (mkCtx 2 cur order 0 1 "" None None 0 0 0) pid None None None true None [] 0.

Lemma request_atomic g cur pid r : at_rest g → pid ∈ order → admitted g cur pid r = true →
  atomic (run_request (duel_mc cur pid) r) g.
Proof.
  intros Hg Hp Ha. destruct r as [args|args| |]; simpl in *; apply andb_true_iff in Ha as [Ho Hm];
    apply bool_decide_eq_true in Hm.
  - by apply cast_atomic.
  - by apply respond_atomic.
  - destruct (pass_accepted (duel_mc cur pid) [] g Hg eq_refl Ho Hm) as (g' & evs & HR & Hg' & _). right. by exists g', evs.
  - by apply endTurn_atomic.
Qed.

(** One request, and the beginning of the next turn when it ended one. Moves change the
    state in place: a refused one leaves what it did. *)
Definition serve (cur : string) g (pid : string) (r : request) : outcome error (string * StackDuel.State) :=
  if admitted g cur pid r then
    match run_request (duel_mc cur pid) r (g, []) with
    | (Ok _, (g', evs)) =>
        match r with
        | EndTurn =>
            let next := opponentOf order cur in
            match begin_on next (g', []) with
            | (Ok _, (g'', _)) => Ok (next, g'')
            | _ => Panicked
            end
        | _ => Ok (cur, g')
        end
    | (Err _, (g', _)) => Ok (cur, g')
    | _ => Panicked
    end
  else Ok (cur, g).

Definition duel_play (reqs : list (string * request)) (start : string * StackDuel.State) : outcome error (string * StackDuel.State) :=
  foldl (λ o '(pid, r), match o with Ok (cur, g) => serve cur g pid r | _ => o end) (Ok start) reqs.

Lemma begin_at_rest pid g evs : at_rest g → PendingEffects (du_State g) = [] → pid ∈ order → ∃ g',
  begin_on pid (g, evs) = (Ok tt, (g', evs)) ∧ at_rest g'.
Proof.
  intros [Hb Hq Hs _] Hnil Hp. destruct (begin_table order Hlen pid g evs Hb Hq Hp) as (g' & HR & [B Q P C E S]).
  exists g'. split; [done|]. split; [by rewrite P|done|congruence|]. by rewrite E, Hnil, decide_True.
Qed.

Lemma opponent_in cur : cur ∈ order → opponentOf order cur ∈ order.
Proof.
  intros Hc. unfold opponentOf. clear - Hnd Hlen Hc. destruct order as [|a [|b [|]]]; try done. simpl.
  apply NoDup_cons in Hnd as [Ha _]. assert (a ≠ b) by (intros ->; apply Ha; by left).
  repeat case_bool_decide; simpl; subst; try done; set_solver.
Qed.

Lemma admitted_in g cur pid r : at_rest g → cur ∈ order → admitted g cur pid r = true → pid ∈ order.
Proof.
  intros Hg Hc Ha. destruct r; simpl in Ha; apply andb_true_iff in Ha as [Ho Hm]; apply bool_decide_eq_true in Hm as ->; try done;
    apply holder_in, open_pending; done.
Qed.

Lemma serve_at_rest cur g pid r : at_rest g → cur ∈ order → ∃ cur' g', serve cur g pid r = Ok (cur', g') ∧ at_rest g' ∧ cur' ∈ order.
Proof.
  intros Hg Hc. unfold serve. destruct (admitted g cur pid r) eqn:Ha; [|by exists cur, g].
  pose proof (admitted_in g cur pid r Hg Hc Ha) as Hp.
  destruct (request_atomic g cur pid r Hg Hp Ha) as [(e & ->)|(g' & evs & HR & Hg')]; [by exists cur, g|].
  rewrite HR. destruct r; try (by exists cur, g').
  destruct (begin_at_rest (opponentOf order cur) g' [] Hg') as (g'' & -> & Hg'').
  { simpl in Ha. apply andb_true_iff in Ha as [Ho _]. apply negb_true_iff in Ho.
    unfold run_request, endTurn_on in HR. rewrite bind_eq in HR. unfold duel_get at 1 in HR. cbv beta iota in HR.
    rewrite bind_eq, Ho in HR. cbn [check] in HR. unfold mret at 1, ST_ret at 1, st_ret at 1 in HR. cbv beta iota in HR.
    rewrite bind_eq in HR. unfold duel_get at 1 in HR. cbv beta iota in HR. rewrite bind_eq in HR.
    destruct (decide (PendingEffects (du_State g) = [])) as [Hnil|Hno].
    - rewrite bool_decide_true in HR by done. injection HR as <- _. done.
    - by rewrite bool_decide_false in HR. }
  { by apply opponent_in. }
  exists (opponentOf order cur), g''. split; [done|]. split; [done|]. by apply opponent_in.
Qed.

Lemma play_at_rest reqs : ∀ cur g, at_rest g → cur ∈ order → ∃ cur' g',
  duel_play reqs (cur, g) = Ok (cur', g') ∧ at_rest g' ∧ cur' ∈ order.
Proof.
  unfold duel_play. induction reqs as [|[pid r] reqs IH]; intros cur g Hg Hc; [by exists cur, g|]. simpl.
  destruct (serve_at_rest cur g pid r Hg Hc) as (cur' & g' & -> & Hg' & Hc'). by apply IH.
Qed.

(** ** Passing empties the stack *)

Fixpoint holder_passes (cur : string) (k : nat) g : outcome error StackDuel.State :=
  match k with
  | O => Ok g
  | S k =>
      match serve cur g (Holder (du_Priority g)) PassPriority with
      | Ok (_, g') => holder_passes cur k g'
      | _ => Panicked
      end
  end.

Lemma holder_passes_app cur k1 k2 g g1 : holder_passes cur k1 g = Ok g1 →
  holder_passes cur (k1 + k2) g = holder_passes cur k2 g1.
Proof.
  revert g. induction k1 as [|k1 IH]; intros g H; simpl in *; [by injection H as ->|].
  destruct (serve _ _ _ _) as [[cur' g']|e| |]; try done. by apply IH.
Qed.

Lemma one_pass cur g : at_rest g → PendingEffects (du_State g) ≠ [] → ∃ g',
  holder_passes cur 1 g = Ok g' ∧ at_rest g' ∧ passes_to g g'.
Proof.
  intros Hg Hne. assert (Ho : pr_Open (du_Priority g) = true).
  { destruct (pr_Open (du_Priority g)) eqn:Ho; [done|]. by destruct (closed_pending g Hg Ho). }
  destruct (pass_accepted (duel_mc cur (Holder (du_Priority g))) [] g Hg eq_refl Ho eq_refl) as (g' & evs & HR & Hg' & Ht).
  exists g'. split; [|done]. cbn [holder_passes]. unfold serve. cbn [admitted run_request].
  rewrite Ho, bool_decide_true by done. cbn [andb]. by rewrite HR.
Qed.

(** The creatures still to be summoned. *)
Definition summons (l : list Effect) : nat := length (filter (λ e, ef_Kind e = "summon") l).

Lemma summons_app l1 l2 : summons (l1 ++ l2) = (summons l1 + summons l2)%nat.
Proof. unfold summons. by rewrite filter_app, length_app. Qed.

Lemma summons_filter (P : Effect → Prop) `{!∀ e, Decision (P e)} l : (summons (filter P l) ≤ summons l)%nat.
Proof.
  unfold summons. induction l as [|e l IH]; [done|]. rewrite !filter_cons.
  destruct (decide (P e)); rewrite ?filter_cons; repeat case_decide; simpl; lia.
Qed.

Lemma summons_triggers l : Forall trigger l → summons l = 0%nat.
Proof.
  intros Hl. unfold summons. induction Hl as [|e l [_ Hk] Hl IH]; [done|].
  rewrite filter_cons_False; [done|]. intros Hs. rewrite Hs in Hk. set_solver.
Qed.

(** One object of the stack, after one or two passes. *)
Lemma one_object cur g : at_rest g → PendingEffects (du_State g) ≠ [] → ∃ k g' l top new,
  holder_passes cur k g = Ok g' ∧ at_rest g' ∧ (1 ≤ k ≤ 2)%nat ∧ PendingEffects (du_State g) = l ++ [top] ∧
  PendingEffects (du_State g') = filter (λ e, ef_ID e ∉ gone_with wild top) l ++ new ∧ Forall trigger new ∧
  (ef_Kind top ≠ "summon" → new = []).
Proof.
  intros Hg Hne. destruct (one_pass cur g Hg Hne) as (g1 & HR1 & Hg1 & Ht1). unfold passes_to in Ht1.
  case_decide as Hp.
  - destruct Ht1 as (Hs & _ & H1). destruct (one_pass cur g1 Hg1) as (g2 & HR2 & Hg2 & Ht2); [by rewrite Hs|].
    unfold passes_to in Ht2. rewrite decide_False in Ht2 by lia. destruct Ht2 as (_ & l & top & new & HP & HP2 & Hn).
    exists 2%nat, g2, l, top, new. rewrite Hs in HP. split; [|split; [done|split; [lia|done]]].
    change 2%nat with (1 + 1)%nat. by rewrite (holder_passes_app cur 1 1 g g1).
  - destruct Ht1 as (_ & l & top & new & HP & HP2 & Hn). exists 1%nat, g1, l, top, new.
    split; [done|]. split; [done|]. split; [lia|done].
Qed.

Lemma passes_empty cur n : ∀ m g, at_rest g → (summons (PendingEffects (du_State g)) ≤ n)%nat →
  (length (PendingEffects (du_State g)) ≤ m)%nat → ∃ k g',
  holder_passes cur k g = Ok g' ∧ at_rest g' ∧ PendingEffects (du_State g') = [].
Proof.
  induction n as [n IHn] using lt_wf_ind. induction m as [|m IHm]; intros g Hg Hs Hl.
  { exists 0%nat, g. split; [done|]. split; [done|]. apply nil_length_inv. lia. }
  destruct (decide (PendingEffects (du_State g) = [])) as [Hnil|Hne]; [by exists 0%nat, g|].
  destruct (one_object cur g Hg Hne) as (k & g1 & l & top & new & HR & Hg1 & _ & HP & HP1 & Ht & Hn).
  rewrite HP in Hs, Hl. rewrite length_app in Hl. simpl in Hl. rewrite summons_app in Hs.
  pose proof (summons_filter (λ e, ef_ID e ∉ gone_with wild top) l) as Hf.
  assert (Hs1 : summons (PendingEffects (du_State g1)) = summons (filter (λ e, ef_ID e ∉ gone_with wild top) l)).
  { rewrite HP1, summons_app, (summons_triggers new Ht). lia. }
  assert (Hrest : ∃ k2 g', holder_passes cur k2 g1 = Ok g' ∧ at_rest g' ∧ PendingEffects (du_State g') = []).
  { destruct (decide (ef_Kind top = "summon")) as [Hk|Hk].
    - assert (summons [top] = 1%nat) by (unfold summons; by rewrite filter_cons_True).
      apply (IHn (n - 1)%nat ltac:(lia) (length (PendingEffects (du_State g1))) g1 Hg1); [lia|done].
    - apply IHm; [done|lia|]. rewrite HP1, (Hn Hk), app_nil_r.
      pose proof (list.length_filter (λ e, ef_ID e ∉ gone_with wild top) l). lia. }
  destruct Hrest as (k2 & g' & HR2 & Hg' & Hnil). exists (k + k2)%nat, g'.
  split; [by rewrite (holder_passes_app cur k k2 g g1)|done].
Qed.
End duels.

(** ** From the first turn on *)

(** The player on turn may no longer end the turn. *)
Definition stranded wild g : Prop := ∀ mc args,
  endTurn_on mc args (g, []) = (Err errStackBusy, (g, [])) ∧ ∃ e, pass_on wild mc args (g, []) = (Err e, (g, [])).

(** A turn that begins while the stack is not empty, as after a forced turn end, closes
    the window and leaves the stack: nobody can pass, the turn cannot be ended, and what
    is pending stays so until somebody casts another spell. *)
Theorem forced_end_strands_the_stack wild order pid g evs : length order = 2%nat → at_rest order g → pid ∈ order →
  pr_Open (du_Priority g) = true → ∃ g',
  begin_on pid (g, evs) = (Ok tt, (g', evs)) ∧ PendingEffects (du_State g') = PendingEffects (du_State g) ∧ stranded wild g'.
Proof.
  intros Hlen Hg Hp Ho. destruct (open_pending order g Hg Ho) as [_ Hne].
  destruct (begin_table order Hlen pid g evs (re_board _ _ Hg) (re_queue _ _ Hg) Hp) as (g' & HR & [B Q P C E S]).
  exists g'. split; [done|]. split; [done|]. intros mc args. split.
  - unfold endTurn_on. rewrite bind_eq. unfold duel_get at 1. rewrite C. cbv beta iota. rewrite bind_eq. cbn [check pr_Open closed_window].
    unfold mret at 1, ST_ret at 1, st_ret at 1. cbv beta iota. rewrite bind_eq. unfold duel_get at 1. cbv beta iota.
    rewrite bool_decide_false by congruence. done.
  - apply pass_on_refused. left. by rewrite C.
Qed.

Lemma seats_two : NoDup seats ∧ length seats = 2%nat ∧ "" ∉ seats.
Proof. apply (bool_decide_unpack _). vm_compute. reflexivity. Qed.

Lemma opening_at_rest : at_rest seats opening ∧ PendingEffects (du_State opening) = [].
Proof.
  assert (HP : PendingEffects (du_State opening) = []) by (vm_compute; reflexivity).
  split; [|done]. split; [exact opening_board|exact opening_queue|vm_compute; reflexivity|].
  rewrite HP. vm_compute. reflexivity.
Qed.

(** The match when the engine has begun the first turn. *)
Definition first_turn : StackDuel.State := (begin_on "0" (opening, [])).2.1.

Lemma first_turn_at_rest : begin_on "0" (opening, []) = (Ok tt, (first_turn, [])) ∧ at_rest seats first_turn.
Proof.
  destruct seats_two as (_ & Hl & _). destruct opening_at_rest as [Hr Hnil].
  destruct (begin_at_rest seats Hl "0" opening [] Hr Hnil) as (g & HR & Hg); [by left|].
  unfold first_turn. rewrite HR. split; [reflexivity|exact Hg].
Qed.

Lemma setup_opens ctx data w : ctx_PlayOrder ctx = seats → setup ctx data w = (Some VState, Some opening).
Proof. intros Ho. unfold setup. rewrite Ho. by destruct opening_set as [evs ->]. Qed.

Definition whole wild (cur : string) g : Prop :=
  wf (du_State g) ∧ StagedTriggers (du_State g) = [] ∧
  (pr_Open (du_Priority g) = true ↔ PendingEffects (du_State g) ≠ []) ∧
  (pr_Open (du_Priority g) = true → Holder (du_Priority g) ∈ seats) ∧
  ∀ pid r, admitted g cur pid r = true →
    (∃ e, run_request wild (duel_mc seats cur pid) r (g, []) = (Err e, (g, []))) ∨
    (∃ g' evs, run_request wild (duel_mc seats cur pid) r (g, []) = (Ok tt, (g', evs))).

Lemma rest_whole wild cur g : at_rest seats g → cur ∈ seats → whole wild cur g.
Proof.
  intros Hg Hc. destruct seats_two as (Hnd & Hl & Hb). split; [apply Hg|]. split; [apply Hg|]. split; [|split].
  - split; intros H; [by apply (open_pending seats g Hg)|].
    destruct (pr_Open (du_Priority g)) eqn:Hop; [done|]. by destruct (closed_pending seats g Hg Hop).
  - intros Hop. apply (holder_in seats Hl). by apply open_pending.
  - intros pid r Ha. pose proof (admitted_in seats Hl g cur pid r Hg Hc Ha) as Hp.
    destruct (request_atomic wild seats Hnd Hl Hb g cur pid r Hg Hp Ha) as [?|(g' & evs & ? & _)]; [by left|].
    right. by exists g', evs.
Qed.

Lemma passes_whole wild cur g : at_rest seats g → ∃ k g',
  holder_passes wild seats cur k g = Ok g' ∧ PendingEffects (du_State g') = [] ∧ du_Priority g' = closed_window ∧ wf (du_State g').
Proof.
  intros Hg. destruct seats_two as (Hnd & Hl & Hb).
  destruct (passes_empty wild seats Hnd Hl Hb cur _ _ g Hg (le_n _) (le_n _)) as (k & g' & HR & Hg' & Hnil).
  exists k, g'. split; [done|]. split; [done|]. split; [|apply Hg'].
  pose proof (re_window _ _ Hg') as Hw. by rewrite Hnil, decide_True in Hw.
Qed.

(** Stackduel's moves change the match in place, so a refused one must refuse before
    it has done anything. From the first turn on, after any sequence of requests by
    anybody: no request has panicked, every card is in exactly one zone, the response
    window is open, for a player at the table, exactly while something is on the stack,
    no trigger is left staged, and the next request the engine lets through is either
    refused with the match as it was or accepted. *)
Theorem duels_stay_whole wild reqs : ∃ cur g,
  (∀ ctx data w, ctx_PlayOrder ctx = seats → setup ctx data w = (Some VState, Some opening)) ∧
  begin_on "0" (opening, []) = (Ok tt, (first_turn, [])) ∧
  duel_play wild seats reqs ("0", first_turn) = Ok (cur, g) ∧ cur ∈ seats ∧ whole wild cur g.
Proof.
  destruct seats_two as (Hnd & Hl & Hb). destruct first_turn_at_rest as [HR Hr].
  destruct (play_at_rest wild seats Hnd Hl Hb reqs "0" first_turn Hr ltac:(by left)) as (cur & g & HP & Hg & Hc).
  exists cur, g. exact (conj setup_opens (conj HR (conj HP (conj Hc (rest_whole wild cur g Hg Hc))))).
Qed.

(** In every match of stackduel the stack can be emptied by passing alone: whatever
    has been cast, however many triggers the creatures set off on the way, finitely many
    passes by whoever holds the priority resolve everything and close the window. *)
Theorem passing_empties_the_stack wild reqs : ∃ cur g k g',
  duel_play wild seats reqs ("0", first_turn) = Ok (cur, g) ∧
  holder_passes wild seats cur k g = Ok g' ∧
  PendingEffects (du_State g') = [] ∧ du_Priority g' = closed_window ∧ wf (du_State g').
Proof.
  destruct seats_two as (Hnd & Hl & Hb). destruct first_turn_at_rest as [_ Hr].
  destruct (play_at_rest wild seats Hnd Hl Hb reqs "0" first_turn Hr ltac:(by left)) as (cur & g & HP & Hg & Hc).
  destruct (passes_whole wild cur g Hg) as (k & g' & HR). exists cur, g, k, g'. exact (conj HP HR).
Qed.

(** The first player's Sunbolt, without and with the other's Moonveil in response. *)
Definition card (id : Z) : list any := [Some (VGo (GoInt "" KInt id))].

Definition sunbolt_resolves : list (string * request) :=
  [("0", Cast (card 9)); ("0", PassPriority); ("1", PassPriority)].

Definition sunbolt_countered : list (string * request) :=
  [("0", Cast (card 9)); ("1", PassPriority); ("0", PassPriority); ("1", Respond (card 17)); ("1", PassPriority); ("0", PassPriority)].

Definition lives (o : outcome error (string * StackDuel.State)) : option (Z * Z * bool) :=
  match o with Ok (_, g) => Some (LifeOf g "0", LifeOf g "1", pr_Open (du_Priority g)) | _ => None end.

Example duel_examples :
  lives (duel_play (λ _, 0) seats sunbolt_resolves ("0", first_turn)) = Some (8, 6, false) ∧
  lives (duel_play (λ _, 0) seats sunbolt_countered ("0", first_turn)) = Some (8, 8, false) ∧
  lives (duel_play (λ _, 0) seats (take 5 sunbolt_countered) ("0", first_turn)) = Some (8, 8, true).
Proof. split_and!; vm_compute; reflexivity. Qed.
