(* ===== verification/Http.v ===== *)
(** * The HTTP server

    [src/server]: http.go and cors.go.  Routes, the decoding of request bodies, the
    handlers over the match manager, the status of each error and the origin check.
    What the manager sends its subscribers meanwhile goes to [deliver], the sockets'
    part (Sockets.v). *)

From S2P Require Import Prelude CoreTypes GameDef Session Reducer Storage Manager Lobby Dispatch.
From S2P Require Export Json.
#[local] Open Scope Z_scope.

(** ** Paths *)
Definition slash : Ascii.ascii := Ascii.ascii_of_nat 47.

Fixpoint trim_left (s : string) : string :=
  match s with
  | EmptyString => EmptyString
  | String c s' => if decide (c = slash) then trim_left s' else s
  end.

Fixpoint trim_right (s : string) : string :=
  match s with
  | EmptyString => EmptyString
  | String c s' =>
      match trim_right s' with
      | EmptyString => if decide (c = slash) then EmptyString else String c EmptyString
      | r => String c r
      end
  end.

(** [strings.Split(s, "/")] *)
Fixpoint split_slash (s : string) : list string :=
  match s with
  | EmptyString => [""]
  | String c s =>
      if decide (c = slash) then "" :: split_slash s
      else match split_slash s with p :: ps => String c p :: ps | [] => [String c EmptyString] end
  end.

Definition path_parts (path : string) : list string := split_slash (trim_right (trim_left path)).

(** What a request is dispatched to. *)
Inductive target : Type :=
  | TNotFound
  | TListGames
  | TListMatches (gameName : string)
  | TCreate (gameName : string)
  | TByCode (gameName code : string)
  | TGetMatch (gameName matchID : string)
  | TJoin (matchID : string)
  | TLeave (matchID : string)
  | TUpdate (matchID : string)
  | TPlayAgain (matchID : string)
  | TMove (matchID : string)
  | TDryMove (matchID : string)
  | TReset (matchID : string)
  | TWS (gameName matchID : string).

Definition get : string := "GET".
Definition post : string := "POST".
Definition options : string := "OPTIONS".

(** The [switch] of [route]: cases in order. *)
Definition route_game (method gameName : string) (tail : list string) : target :=
  let is_get := bool_decide (method = get) in
  let is_post := bool_decide (method = post) in
  match tail with
  | [] => if is_get then TListMatches gameName else TNotFound
  | [a] =>
      if bool_decide (a = "create") && is_post then TCreate gameName
      else if is_get then TGetMatch gameName a
      else TNotFound
  | [a; b] =>
      if bool_decide (a = "byCode") && is_get then TByCode gameName b
      else if bool_decide (b = "join") && is_post then TJoin a
      else if bool_decide (b = "leave") && is_post then TLeave a
      else if bool_decide (b = "update") && is_post then TUpdate a
      else if bool_decide (b = "playAgain") && is_post then TPlayAgain a
      else if bool_decide (b = "move") && is_post then TMove a
      else if bool_decide (b = "dryMove") && is_post then TDryMove a
      else if bool_decide (b = "reset") && is_post then TReset a
      else if bool_decide (b = "ws") && is_get then TWS gameName a
      else TNotFound
  | _ => TNotFound
  end.

Definition route (method path : string) : target :=
  match path_parts path with
  | [] => TNotFound
  | p :: parts =>
      if negb (bool_decide (p = "games")) then TNotFound
      else match parts with
           | [] => if bool_decide (method = get) then TListGames else TNotFound
           | gameName :: tail => route_game method gameName tail
           end
  end.

(** ** cors.go

    [url_parse] is net/url's [Parse]: the scheme and the host name of an origin. *)
Definition OriginLocalhostInDevelopment : string := "boardgame-go:localhost-in-development".
Definition OriginLocalhost : string := "boardgame-go:localhost".

Section origins.
Context (url_parse : string → option (string * string)) (production : bool).

Definition isLocalhost (origin : string) : bool :=
  match url_parse origin with
  | None => false
  | Some (scheme, hostname) =>
      bool_decide (scheme ≠ "") && bool_decide (scheme ∈ ["http"; "https"]) &&
      bool_decide (hostname ∈ ["localhost"; "127.0.0.1"; "::1"])
  end.

(** [os.Getenv("GO_ENV") == "production"] is [production]. *)
Fixpoint originAllowed (origins : list string) (origin : string) : bool :=
  match origins with
  | [] => false
  | allow :: origins =>
      if decide (allow = "*") then true
      else if decide (allow = OriginLocalhostInDevelopment) then
        if negb production && isLocalhost origin then true else originAllowed origins origin
      else if decide (allow = OriginLocalhost) then
        if isLocalhost origin then true else originAllowed origins origin
      else if decide (allow = origin) then true
      else originAllowed origins origin
  end.
End origins.

(** ** The server *)
Section http.
Context {T : GoTypes} {S : Type} `{!Storage S} (cf : Config) (from_json : json → any).
Abbreviation Mgr := (Manager.Manager (S:=S)).
Abbreviation MM := (ST Mgr manager_error).

Record Request := mkRequest {
  hr_Method : string;
  hr_Path : string;
  hr_Origin : string;
  hr_Upgrade : string;
  hr_Body : option json;
  hr_Size : Z;
  hr_playerID : string;
  hr_credentials : string;
  hr_accepted : bool;
  hr_ctx : goctx
}.

(** admin.go *)
Record Metrics := mkMetrics {
  MatchesCreated : Z;
  MatchesJoined : Z;
  MovesApplied : Z;
  MovesRejected : Z;
  ChatMessages : Z;
  WebSocketConns : Z
}.

Definition count_created (x : Metrics) : Metrics :=
  mkMetrics (MatchesCreated x + 1) (MatchesJoined x) (MovesApplied x) (MovesRejected x) (ChatMessages x) (WebSocketConns x).
Definition count_joined (x : Metrics) : Metrics :=
  mkMetrics (MatchesCreated x) (MatchesJoined x + 1) (MovesApplied x) (MovesRejected x) (ChatMessages x) (WebSocketConns x).
Definition count_applied (x : Metrics) : Metrics :=
  mkMetrics (MatchesCreated x) (MatchesJoined x) (MovesApplied x + 1) (MovesRejected x) (ChatMessages x) (WebSocketConns x).
Definition count_rejected (x : Metrics) : Metrics :=
  mkMetrics (MatchesCreated x) (MatchesJoined x) (MovesApplied x) (MovesRejected x + 1) (ChatMessages x) (WebSocketConns x).
Definition count_chat (x : Metrics) : Metrics :=
  mkMetrics (MatchesCreated x) (MatchesJoined x) (MovesApplied x) (MovesRejected x) (ChatMessages x + 1) (WebSocketConns x).
Definition count_conns (d : Z) (x : Metrics) : Metrics :=
  mkMetrics (MatchesCreated x) (MatchesJoined x) (MovesApplied x) (MovesRejected x) (ChatMessages x) (WebSocketConns x + d).

(** The DTOs: what of a player and of a match is sent. *)
Record playerSummary := mkPlayerSummary {
  ps_ID : string; ps_Name : string; ps_Seat : string; ps_IsConnected : bool; ps_Data : any
}.

Record matchSummary := mkMatchSummary {
  ms_MatchID : string;
  ms_Players : list playerSummary;
  ms_SetupData : any;
  ms_GameName : string;
  ms_CreatedAt : Z;
  ms_Ctx : Ctx
}.

Definition player_summary (p : Player) : playerSummary :=
  mkPlayerSummary (sp_ID p) (sp_Name p) (sp_Seat p) (sp_IsConnected p) (sp_Data p).

(** [NowMs] is not marshalled. *)
Definition toSummary (m : Match) : matchSummary :=
  mkMatchSummary (mt_ID m) (player_summary <$> mt_Players m) (mt_SetupData m) (mt_GameName m) (mt_CreatedAt m)
    (set_ctx_NowMs 0 (st_Ctx (mt_State m))).

Inductive http_error : Type := BadBody | FromManager (e : manager_error).

Inductive body : Type :=
  | BEmpty
  | BNotFound
  | BText (s : string)
  | BObject
  | BCreated (matchID : string)
  | BSummary (m : matchSummary)
  | BGames (names : list string)
  | BMatches (l : list matchSummary)
  | BJoin (r : JoinResult)
  | BNext (matchID : string)
  | BState (st : State)
  | BError (e : http_error)
  | BSocket (conn : option Z).

Record Response := mkResponse { rs_Status : Z; rs_Body : body; rs_AllowOrigin : option string }.

Definition reply (status : Z) (b : body) : Response := mkResponse status b None.

(** [writeErr]: [errors.Is] in its order. *)
Definition error_status (e : http_error) : Z :=
  match e with
  | FromManager (FromStore ErrNotFound) => 404
  | FromManager ErrUnknownGame => 404
  | FromManager ErrBadCredentials => 401
  | FromManager (ErrSeatTaken | ErrNoSeatsLeft | ErrSeatRequired | ErrUnknownSeat) => 409
  | FromManager (FromCore (ErrWrongPlayer | ErrUnknownMove | ErrMoveNotInStage | ErrInvalidMove
                          | ErrInactivePlayer | ErrGameOver)) => 409
  | _ => 400
  end.

Definition writeErr (e : http_error) : Response := reply (error_status e) (BError e).

(** A handler computes on the manager, the counters and the open sockets, which [C]
    stands for; a panic of game code aborts the request. *)
Context {C : Type} (deliver : list output → C → C).

Record Server := mkServer { sv_Manager : Mgr; sv_metrics : Metrics; sv_clients : C }.

Abbreviation H := (ST Server Empty_set).

Definition set_sv_metrics (v : Metrics) (sv : Server) : Server := mkServer (sv_Manager sv) v (sv_clients sv).
Definition set_sv_clients (v : C) (sv : Server) : Server := mkServer (sv_Manager sv) (sv_metrics sv) v.

Definition bump (f : Metrics → Metrics) : H () := λ sv, (Ok tt, set_sv_metrics (f (sv_metrics sv)) sv).

(** A call of the manager, and what it sends meanwhile. *)
Definition call {A} (op : MM A) : H (manager_error + A) := λ sv,
  let '(o, m) := op (sv_Manager sv) in
  (match o with Ok a => Ok (inr a) | Err e => Ok (inl e) | Panicked => Panicked | NoFuel => NoFuel end,
   mkServer m (sv_metrics sv) (deliver (drop (length (mg_out (sv_Manager sv))) (mg_out m)) (sv_clients sv))).

(** [if err != nil { writeErr(w, err); return }] *)
Definition or_error {A} (r : manager_error + A) (k : A → H Response) : H Response :=
  match r with inl e => mret (writeErr (FromManager e)) | inr a => k a end.

(** ** http.go: the handlers *)
Definition handleListGames : H Response :=
  names ← call GameNames;
  or_error names (λ names, mret (reply 200 (BGames names))).

Definition handleListMatches (gameName : string) : H Response :=
  matches ← call (List_ gameName);
  or_error matches (λ l, mret (reply 200 (BMatches (toSummary <$> filter (λ mm, mt_Unlisted mm = false) l)))).

(** The body is optional: errors of its decoding are dropped. *)
Definition create_options (body : option json) : CreateOptions :=
  let fields := default [] (body_fields body) in
  mkCreateOptions
    (field 0 as_int "numPlayers" fields).1
    (field None (λ j, Put (from_json j)) "setupData" fields).1
    (field false as_bool "unlisted" fields).1
    (field "" as_string "name" fields).1
    (field "" as_string "joinCode" fields).1.

Definition handleCreate (gameName : string) (body : option json) : H Response :=
  id ← call (Lobby.Create cf gameName (create_options body));
  or_error id (λ id, _ ← bump count_created; mret (reply 201 (BCreated id))).

Definition handleByCode (gameName code : string) : H Response :=
  m ← call (FindByJoinCode gameName code);
  or_error m (λ m, mret (reply 200 (BSummary (toSummary m)))).

Definition handleGetMatch (matchID : string) : H Response :=
  m ← call (State_ matchID);
  or_error m (λ m, mret (reply 200 (BSummary (toSummary m)))).

(** A body decoded into a struct by [read]; an error is a 400. *)
Definition with_body {A} (read : list (string * json) → A * bool) (body : option json) (k : A → H Response) : H Response :=
  match body_fields body with
  | None => mret (writeErr BadBody)
  | Some fields => let '(a, ok) := read fields in if negb ok then mret (writeErr BadBody) else k a
  end.

Definition read_join (fields : list (string * json)) : (string * JoinOptions) * bool :=
  let name := field "" as_string "playerName" fields in
  let id := field "" as_string "playerID" fields in
  let data := field None (λ j, Put (from_json j)) "data" fields in
  ((name.1, mkJoinOptions id.1 "" data.1), name.2 && id.2).

Definition handleJoin (matchID : string) (body : option json) : H Response :=
  with_body read_join body (λ '(name, opts),
    res ← call (Join cf matchID name opts);
    or_error res (λ res, _ ← bump count_joined; mret (reply 200 (BJoin res)))).

(** [leaveReq], [resetReq] *)
Definition read_identity (fields : list (string * json)) : (string * string) * bool :=
  let id := field "" as_string "playerID" fields in
  let creds := field "" as_string "credentials" fields in
  ((id.1, creds.1), id.2 && creds.2).

Definition handleLeave (matchID : string) (body : option json) : H Response :=
  with_body read_identity body (λ '(playerID, credentials),
    r ← call (Leave cf matchID playerID credentials);
    or_error r (λ _, mret (reply 200 BObject))).

Definition handleUpdate (matchID : string) (body : option json) : H Response :=
  match body_fields body with
  | None => mret (writeErr BadBody)
  | Some raw =>
      let newName := (λ j, unmarshal "" as_string (Some j)) <$> raw_field "newName" raw in
      let data := from_json <$> raw_field "data" raw in
      r ← call (UpdatePlayer cf matchID (unmarshal "" as_string (raw_field "playerID" raw))
                  (unmarshal "" as_string (raw_field "credentials" raw)) (mkUpdatePlayerOpts newName data));
      or_error r (λ _, mret (reply 200 BObject))
  end.

Definition handlePlayAgain (matchID : string) (body : option json) : H Response :=
  match body_fields body with
  | None => mret (writeErr BadBody)
  | Some raw =>
      let setupData := raw_field "setupData" raw in
      r ← call (PlayAgain cf matchID (unmarshal "" as_string (raw_field "playerID" raw))
                  (unmarshal "" as_string (raw_field "credentials" raw))
                  (unmarshal 0 as_int (raw_field "numPlayers" raw))
                  (default None (from_json <$> setupData)) (bool_decide (setupData = None)));
      or_error r (λ next, mret (reply 200 (BNext next)))
  end.

Record moveReq := mkMoveReq { mq_PlayerID : string; mq_Credentials : string; mq_request : MoveRequest }.

Definition as_args (j : json) : decoded (list any) :=
  match j with JNull => Put [] | JArr l => Put (from_json <$> l) | _ => Bad end.

Definition read_move (fields : list (string * json)) : moveReq * bool :=
  let id := field "" as_string "playerID" fields in
  let creds := field "" as_string "credentials" fields in
  let move := field "" as_string "move" fields in
  let args := field [] as_args "args" fields in
  let stateID := field 0 as_int "stateID" fields in
  let tag := field "" as_string "resumeTag" fields in
  (mkMoveReq id.1 creds.1 (mkReq "" move.1 args.1 stateID.1 tag.1 0 false false),
   id.2 && creds.2 && move.2 && args.2 && stateID.2 && tag.2).

Definition view_for (g : Game) (playerID : string) (state : State) : H State := λ sv,
  (Ok (PlayerView g state playerID (mg_world (sv_Manager sv))), sv).

(** The state a move answers with: the view of [playerID], if the match and its game are found. *)
Definition answer_view (matchID playerID : string) (state : State) : H State :=
  m ← call (State_ matchID);
  match m with
  | inl _ => mret state
  | inr m =>
      g ← call (Game_ (mt_GameName m));
      match g with
      | inr (Some g) => view_for (rg_Game g) playerID state
      | _ => mret state
      end
  end.

Definition handleMove (ctx : goctx) (matchID : string) (body : option json) : H Response :=
  with_body read_move body (λ q,
    r ← call (MoveReqCtx cf ctx matchID (mq_PlayerID q) (mq_Credentials q) (mq_request q));
    match r with
    | inl e => _ ← bump count_rejected; mret (writeErr (FromManager e))
    | inr state =>
        _ ← bump count_applied;
        state ← answer_view matchID (mq_PlayerID q) state;
        mret (reply 200 (BState state))
    end).

Definition handleDryMove (matchID : string) (body : option json) : H Response :=
  with_body read_move body (λ q,
    r ← call (DryMoveReq cf matchID (mq_PlayerID q) (mq_Credentials q) (mq_request q));
    or_error r (λ state, state ← answer_view matchID (mq_PlayerID q) state; mret (reply 200 (BState state)))).

Definition handleReset (matchID : string) (body : option json) : H Response :=
  with_body read_identity body (λ '(playerID, credentials),
    r ← call (Reset_ cf matchID playerID credentials);
    or_error r (λ _, mret (reply 200 BObject))).

(** [handleWS] is Sockets.v's. *)
Context (handleWS : Request → string → H Response).

Definition handle (t : target) (r : Request) (body : option json) : H Response :=
  match t with
  | TNotFound => mret (reply 404 BNotFound)
  | TListGames => handleListGames
  | TListMatches gameName => handleListMatches gameName
  | TCreate gameName => handleCreate gameName body
  | TByCode gameName code => handleByCode gameName code
  | TGetMatch _ matchID => handleGetMatch matchID
  | TJoin matchID => handleJoin matchID body
  | TLeave matchID => handleLeave matchID body
  | TUpdate matchID => handleUpdate matchID body
  | TPlayAgain matchID => handlePlayAgain matchID body
  | TMove matchID => handleMove (hr_ctx r) matchID body
  | TDryMove matchID => handleDryMove matchID body
  | TReset matchID => handleReset matchID body
  | TWS _ matchID => handleWS r matchID
  end.

Record ServerConfig := mkServerConfig {
  sc_Origins : list string;
  sc_MaxBodyBytes : Z;
  sc_url_parse : string → option (string * string);
  sc_production : bool
}.

Context (sc : ServerConfig).

Definition allowed (origin : string) : bool := originAllowed (sc_url_parse sc) (sc_production sc) (sc_Origins sc) origin.

Definition DefaultMaxBodyBytes : Z := Z.shiftl 8 20.

(** A body whose first value ends past the limit cannot be read; an upgrade has no limit. *)
Definition capped (r : Request) : option json :=
  let max := if decide (sc_MaxBodyBytes sc = 0) then DefaultMaxBodyBytes else sc_MaxBodyBytes sc in
  if bool_decide (hr_Upgrade r = "") && bool_decide (max < hr_Size r) then None else hr_Body r.

(** The Access-Control headers, and whether the request goes on to the router. *)
Definition applyCORS (r : Request) : option string * bool :=
  (if bool_decide (hr_Origin r ≠ "") && allowed (hr_Origin r) then Some (hr_Origin r) else None,
   negb (bool_decide (hr_Method r = options))).

(** The mux sends every path to [route]; it redirects paths that are not clean before. *)
Definition ServeHTTP (r : Request) : H Response :=
  let '(origin, forward) := applyCORS r in
  if negb forward then mret (mkResponse 204 BEmpty origin)
  else
    res ← handle (route (hr_Method r) (hr_Path r)) r (capped r);
    mret (mkResponse (rs_Status res) (rs_Body res) origin).
End http.

Arguments mkServer {T S C}.
Arguments sv_Manager {T S C}.
Arguments sv_metrics {T S C}.
Arguments sv_clients {T S C}.
Arguments set_sv_metrics {T S C}.
Arguments set_sv_clients {T S C}.
