(* ===== verification/Sockets.v ===== *)
(** * The WebSocket transport

    [src/server/ws.go]: one client per connection with a bounded buffer of frames, the
    upgrade and its checks, the messages a connection sends, and its end.  A server's
    run is a list of events: HTTP requests, messages, closed connections, writes of the
    sockets' writer loops and what else happens to the manager. *)

From S2P Require Import Prelude CoreTypes GameDef Session Reducer Storage Manager Lobby Dispatch ManagerFacts Http.
#[local] Open Scope Z_scope.

Section sockets.
Context {T : GoTypes} {S : Type} `{!Storage S} (cf : Config) (from_json : json → any) (sc : ServerConfig).

(** jsondiff's [Compare]: the patch between two states, if it can tell. *)
Context {patch : Type} (Compare : State → State → option patch).

Inductive wsframe : Type :=
  | FUpdate (st : State)
  | FPatch (p : patch) (prevID stateID : Z)
  | FChat (msg : ChatMessage)
  | FMatchData (players : list playerSummary)
  | FSync (st : State) (players : list playerSummary) (matchID : string)
  | FError (e : manager_error).

(** [wc_wire] is what the writer loop has sent so far. *)
Record wsClient := mkClient {
  wc_playerID : string;
  wc_matchID : string;
  wc_out : list wsframe;
  wc_prev : option State;
  wc_wire : list wsframe
}.

Definition set_wc_out (v : list wsframe) (c : wsClient) : wsClient :=
  mkClient (wc_playerID c) (wc_matchID c) v (wc_prev c) (wc_wire c).
Definition set_wc_prev (v : option State) (c : wsClient) : wsClient :=
  mkClient (wc_playerID c) (wc_matchID c) (wc_out c) v (wc_wire c).

Definition wsSendBufferSize : nat := 32.

Definition newWSClient (playerID matchID : string) : wsClient := mkClient playerID matchID [] None [].

(** The non-blocking send: a full buffer loses its oldest frame. *)
Definition enqueue (f : wsframe) (c : wsClient) : wsClient :=
  if decide (length (wc_out c) < wsSendBufferSize)%nat then set_wc_out (wc_out c ++ [f]) c
  else set_wc_out (tail (wc_out c) ++ [f]) c.

(** One round of [writeLoop]. *)
Definition writeLoop (c : wsClient) : wsClient :=
  match wc_out c with
  | f :: rest => mkClient (wc_playerID c) (wc_matchID c) rest (wc_prev c) (wc_wire c ++ [f])
  | [] => c
  end.

Definition Send (st : State) (c : wsClient) : wsClient := enqueue (FUpdate st) (set_wc_prev (Some st) c).

Definition SendChat (msg : ChatMessage) (c : wsClient) : wsClient := enqueue (FChat msg) c.

Definition SendPatch (next : State) (c : wsClient) : wsClient :=
  match wc_prev c with
  | None => Send next c
  | Some prev =>
      match Compare prev next with
      | None => Send next c
      | Some p => enqueue (FPatch p (st_StateID prev) (st_StateID next)) (set_wc_prev (Some next) c)
      end
  end.

(** What a frame says of a player: neither credentials nor data. *)
Definition match_data (p : Player) : playerSummary :=
  mkPlayerSummary (sp_ID p) (sp_Name p) (sp_Seat p) (sp_IsConnected p) None.

Definition SendMatchData (players : list Player) (c : wsClient) : wsClient :=
  enqueue (FMatchData (match_data <$> players)) c.

Definition sendError (e : manager_error) (c : wsClient) : wsClient := enqueue (FError e) c.

(** The open connections, by number. *)
Record Clients := mkClients { cl_next : Z; cl_open : gmap Z wsClient }.

Definition on_client (conn : Z) (f : wsClient → wsClient) (cl : Clients) : Clients :=
  mkClients (cl_next cl) (alter f conn (cl_open cl)).

(** The manager calls its subscribers' methods. *)
Definition deliver_one (o : output) (cl : Clients) : Clients :=
  match o with
  | OSend s st => on_client (sub_conn s) (Send st) cl
  | OSendPatch s st => on_client (sub_conn s) (SendPatch st) cl
  | OSendChat s msg => on_client (sub_conn s) (SendChat msg) cl
  | OSendMatchData s players => on_client (sub_conn s) (SendMatchData players) cl
  | OLifecycle _ _ => cl
  end.

Definition deliver (os : list output) (cl : Clients) : Clients := foldl (λ cl o, deliver_one o cl) cl os.

Abbreviation Srv := (Server (S:=S) (C:=Clients)).
Abbreviation H := (ST Srv Empty_set).
Abbreviation call := (call deliver).

Definition client_of (conn : Z) : H (option wsClient) := λ sv, (Ok (cl_open (sv_clients sv) !! conn), sv).
Definition update_client (conn : Z) (f : wsClient → wsClient) : H () := λ sv,
  (Ok tt, set_sv_clients (on_client conn f (sv_clients sv)) sv).

Definition subscriber (conn : Z) (playerID : string) : Subscriber := mkSub conn playerID true.

Definition new_connection (playerID matchID : string) : H Z := λ sv,
  let n := cl_next (sv_clients sv) in
  (Ok n, set_sv_clients (mkClients (n + 1) (<[n := newWSClient playerID matchID]> (cl_open (sv_clients sv)))) sv).

Definition drop_connection (conn : Z) : H () := λ sv,
  (Ok tt, set_sv_clients (mkClients (cl_next (sv_clients sv)) (delete conn (cl_open (sv_clients sv)))) sv).

(** ** [handleWS]: up to the loop *)

(** The spectator gate. *)
Definition spectators_refused (matchID : string) : H bool :=
  m ← call (State_ matchID);
  match m with
  | inl _ => mret false
  | inr m =>
      g ← call (Game_ (mt_GameName m));
      mret match g with inr (Some g) => bool_decide (rg_SpectatorsAllowed g = Some false) | _ => false end
  end.

Definition sync_frame (conn : Z) (matchID : string) (players : list Player) (view : State) : H () :=
  update_client conn (λ c, enqueue (FSync view (match_data <$> players) matchID) (set_wc_prev (Some view) c)).

(** The initial frame, if the match and its game are found. *)
Definition push_sync (conn : Z) (matchID playerID : string) : H () :=
  m ← call (State_ matchID);
  match m with
  | inl _ => mret tt
  | inr m =>
      g ← call (Game_ (mt_GameName m));
      match g with
      | inr (Some g) => view ← view_for (rg_Game g) playerID (mt_State m); sync_frame conn matchID (mt_Players m) view
      | _ => mret tt
      end
  end.

(** The library answers a handshake it does not accept by itself. *)
Definition open_socket (r : Request) (matchID : string) : H Response :=
  let playerID := hr_playerID r in
  if negb (hr_accepted r) then mret (reply 400 (BSocket None))
  else
    _ ← bump (count_conns 1);
    refused ← (if decide (playerID = "") then spectators_refused matchID else mret false);
    if refused : bool then _ ← bump (count_conns (-1)); mret (reply 101 (BSocket None))
    else
      conn ← new_connection playerID matchID;
      _ ← call (Subscribe matchID (subscriber conn playerID));
      _ ← push_sync conn matchID playerID;
      _ ← call (SetConnected matchID playerID true);
      mret (reply 101 (BSocket (Some conn))).

Definition handleWS (r : Request) (matchID : string) : H Response :=
  if bool_decide (hr_Origin r ≠ "") && negb (allowed sc (hr_Origin r)) then mret (reply 403 (BText "origin not allowed"))
  else
    ok ← (if decide (hr_playerID r = "") then mret (inr true)
          else call (Authenticate cf matchID (hr_playerID r) (hr_credentials r)));
    match ok with
    | inr true => open_socket r matchID
    | _ => mret (reply 401 (BText "invalid credentials"))
    end.

(** ** [handleWS]: the loop and its end *)
Record inbound := mkInbound {
  in_Type : string; in_PlayerID : string; in_Credentials : string; in_request : MoveRequest; in_Payload : any
}.

Definition read_inbound (fields : list (string * json)) : inbound * bool :=
  let ty := field "" as_string "type" fields in
  let '(q, ok) := read_move from_json fields in
  let payload := field None (λ j, Put (from_json j)) "payload" fields in
  (mkInbound ty.1 (mq_PlayerID q) (mq_Credentials q) (mq_request q) payload.1, ty.2 && ok).

(** The deferred calls: last deferred, first run. *)
Definition close_socket (conn : Z) (c : wsClient) : H () :=
  _ ← call (SetConnected (wc_matchID c) (wc_playerID c) false);
  _ ← call (Unsubscribe (wc_matchID c) (subscriber conn (wc_playerID c)));
  _ ← drop_connection conn;
  bump (count_conns (-1)).

Definition handle_message (ctx : goctx) (conn : Z) (c : wsClient) (msg : inbound) : H () :=
  let matchID := wc_matchID c in
  if decide (in_Type msg = "move") then
    r ← call (MoveReqCtx cf ctx matchID (in_PlayerID msg) (in_Credentials msg) (in_request msg));
    match r with
    | inl e => _ ← bump count_rejected; update_client conn (sendError e)
    | inr _ => bump count_applied
    end
  else if decide (in_Type msg = "chat") then
    ok ← (if decide (in_PlayerID msg = "") then mret (inr true)
          else call (Authenticate cf matchID (in_PlayerID msg) (in_Credentials msg)));
    match ok with
    | inr true => _ ← call (Chat cf matchID (in_PlayerID msg) (in_Payload msg)); bump count_chat
    | _ => update_client conn (sendError ErrBadCredentials)
    end
  else mret tt.

(** A message that is no envelope ends the connection. *)
Definition receive (ctx : goctx) (conn : Z) (msg : option json) : H () :=
  c ← client_of conn;
  match c with
  | None => mret tt
  | Some c =>
      match read_inbound <$> body_fields msg with
      | Some (msg, true) => handle_message ctx conn c msg
      | _ => close_socket conn c
      end
  end.

(** ** The server's run *)
Inductive server_event : Type :=
  | EvHTTP (r : Request)
  | EvMessage (ctx : goctx) (conn : Z) (msg : option json)
  | EvClosed (conn : Z)
  | EvWrite (conn : Z)
  | EvManager (o : operation S).

Definition run_event (ev : server_event) : H (option Response) :=
  match ev with
  | EvHTTP r => res ← ServeHTTP cf from_json deliver handleWS sc r; mret (Some res)
  | EvMessage ctx conn msg => _ ← receive ctx conn msg; mret None
  | EvClosed conn =>
      c ← client_of conn;
      _ ← match c with Some c => close_socket conn c | None => mret tt end;
      mret None
  | EvWrite conn => _ ← update_client conn writeLoop; mret None
  | EvManager o => _ ← call (perform cf o); mret None
  end.

(** A request that panics is aborted: the server goes on as it was left. *)
Definition run_events (evs : list server_event) (sv : Srv) : Srv := foldl (λ sv ev, (run_event ev sv).2) sv evs.

(** http.go: [New] *)
Definition New (m : Manager.Manager (S:=S)) : Srv := mkServer m (mkMetrics 0 0 0 0 0 0) (mkClients 0 ∅).
End sockets.

Arguments FUpdate {T patch}.
Arguments FPatch {T patch}.
Arguments FChat {T patch}.
Arguments FMatchData {T patch}.
Arguments FSync {T patch}.
Arguments FError {T patch}.
Arguments mkClient {T patch}.
Arguments mkClients {T patch}.
Arguments cl_open {T patch}.
Arguments cl_next {T patch}.
