(* ===== verification/ServerFacts.v ===== *)
(** * The server as a run of its manager

    Whatever requests and sockets do, the manager only performs operations of
    ManagerFacts.v, and what its subscribers are sent reaches the clients they stand for. *)

From S2P Require Import Prelude CoreTypes GameDef Reducer Session Storage Manager Lobby Dispatch.
From S2P Require Import ManagerFacts Outputs Http Sockets.
#[local] Open Scope Z_scope.

Section facts.
Context {T : GoTypes} {S : Type} `{!Storage S} (cf : Config) (from_json : json → any) (sc : ServerConfig).
Context {patch : Type} (Compare : State → State → option patch).
Abbreviation Mgr := (Manager.Manager (S:=S)).
Abbreviation Srv := (Server (S:=S) (C:=Clients (patch:=patch))).
Abbreviation H := (ST Srv Empty_set).
Abbreviation call := (call (deliver Compare)).

(** What a client can make the manager do by requests. *)
Definition transport_op (o : operation S) : Prop :=
  match o with
  | OpCreate _ _ | OpJoin _ _ _ | OpSetConnected _ _ _ | OpReset _ _ _ | OpLeave _ _ _ | OpUpdatePlayer _ _ _ _
  | OpPlayAgain _ _ _ _ _ _ | OpState _ | OpAuthenticate _ _ _ | OpList _ | OpMove _ _ _ _ _ | OpDryMove _ _ _ _
  | OpChat _ _ _ => True
  | _ => False
  end.

(** A call of the manager does what an operation does, or nothing. *)
Definition acts_as {A} (o : operation S) (op : ST Mgr manager_error A) : Prop :=
  ∀ m, (op m).2 = m ∨ (op m).2 = (perform cf o m).2.

Lemma run_state {A} (op : ST Mgr manager_error A) m : (run_ op m).2 = (op m).2.
Proof. unfold run_. rewrite bind_eq. by destruct (op m) as [[]]. Qed.

Lemma call_manager {A} (op : ST Mgr manager_error A) (sv : Srv) : sv_Manager (call op sv).2 = (op (sv_Manager sv)).2.
Proof. unfold Http.call. by destruct (op (sv_Manager sv)). Qed.

(** ** Invariants of the server

    One that survives counting and the operations of the transport survives every
    request; a socket's beginning, messages and end need a little more. *)
Record stable (I : Srv → Prop) : Prop := {
  st_metrics : ∀ x sv, I sv → I (set_sv_metrics x sv);
  st_call : ∀ A (op : ST Mgr manager_error A) o, transport_op o → acts_as o op → keeps I (call op)
}.

Section stable.
Context (I : Srv → Prop) (HI : stable I).

Lemma keeps_bump f : keeps I (bump f : H ()).
Proof. intros sv Hsv. by apply (st_metrics _ HI). Qed.

Lemma keeps_view g playerID st : keeps I (view_for g playerID st : H State).
Proof. by intros sv Hsv. Qed.

Lemma keeps_client conn : keeps I (client_of conn : H (option (wsClient (patch:=patch)))).
Proof. by intros sv Hsv. Qed.

Lemma keeps_acts {A} (op : ST Mgr manager_error A) o : transport_op o → (∀ m, (op m).2 = (perform cf o m).2) → keeps I (call op).
Proof. intros Ho Hop. apply (st_call _ HI _ _ o); [done|]. intros m. by right. Qed.

Lemma keeps_quiet {A} (op : ST Mgr manager_error A) : (∀ m, (op m).2 = m) → keeps I (call op).
Proof. intros Hop. apply (st_call _ HI _ _ (OpList "")); [done|]. intros m. by left. Qed.

Lemma keeps_find gameName code : keeps I (call (FindByJoinCode gameName code)).
Proof.
  apply (st_call _ HI _ _ (OpList gameName)); [done|]. intros m. unfold FindByJoinCode. case_decide; [by left|right].
  simpl. rewrite run_state, bind_eq. unfold List_, on_store. destruct (Storage.List gameName (mg_store m)) as [[l|e| |] s]; try done.
  simpl. by destruct (filter _ l).
Qed.

Ltac leaf :=
  first
    [ apply keeps_bump | apply keeps_view | apply keeps_client | apply keeps_find
    | apply keeps_quiet; done
    | match goal with
      | |- keeps _ (call (Lobby.Create _ ?g ?o)) => apply (keeps_acts _ (OpCreate g o))
      | |- keeps _ (call (List_ ?g)) => apply (keeps_acts _ (OpList g))
      | |- keeps _ (call (State_ ?i)) => apply (keeps_acts _ (OpState i))
      | |- keeps _ (call (Join _ ?i ?n ?o)) => apply (keeps_acts _ (OpJoin i n o))
      | |- keeps _ (call (Leave _ ?i ?p ?c)) => apply (keeps_acts _ (OpLeave i p c))
      | |- keeps _ (call (UpdatePlayer _ ?i ?p ?c ?o)) => apply (keeps_acts _ (OpUpdatePlayer i p c o))
      | |- keeps _ (call (PlayAgain _ ?i ?p ?c ?n ?d ?u)) => apply (keeps_acts _ (OpPlayAgain i p c n d u))
      | |- keeps _ (call (MoveReqCtx _ ?x ?i ?p ?c ?r)) => apply (keeps_acts _ (OpMove x i p c r))
      | |- keeps _ (call (DryMoveReq _ ?i ?p ?c ?r)) => apply (keeps_acts _ (OpDryMove i p c r))
      | |- keeps _ (call (Reset_ _ ?i ?p ?c)) => apply (keeps_acts _ (OpReset i p c))
      | |- keeps _ (call (Authenticate _ ?i ?p ?c)) => apply (keeps_acts _ (OpAuthenticate i p c))
      | |- keeps _ (call (SetConnected ?i ?p ?b)) => apply (keeps_acts _ (OpSetConnected i p b))
      | |- keeps _ (call (Chat _ ?i ?s ?p)) => apply (keeps_acts _ (OpChat i s p))
      end; [exact Logic.I|intros; simpl; rewrite ?run_state; reflexivity] ].
Ltac walk := keeps_walk leaf.

Lemma keeps_answer matchID playerID st : keeps I (answer_view (deliver Compare) matchID playerID st : H State).
Proof. unfold answer_view. walk. Qed.

(** Every request; an upgrade is the sockets' part. *)
Lemma keeps_handle (ws : Request → string → H Response) r t body : (∀ g matchID, t = TWS g matchID → keeps I (ws r matchID)) →
  keeps I (handle cf from_json (deliver Compare) ws t r body).
Proof.
  intros Hws. destruct t; simpl; try (by eapply Hws);
    unfold handleListGames, handleListMatches, handleCreate, handleByCode, handleGetMatch, handleJoin, handleLeave,
      handleUpdate, handlePlayAgain, handleMove, handleDryMove, handleReset, with_body, or_error;
    keeps_walk ltac:(first [leaf|apply keeps_answer]).
Qed.

Lemma keeps_serve (ws : Request → string → H Response) r :
  (∀ g matchID, route (hr_Method r) (hr_Path r) = TWS g matchID → keeps I (ws r matchID)) →
  keeps I (ServeHTTP cf from_json (deliver Compare) ws sc r).
Proof.
  intros Hws. unfold ServeHTTP. destruct (applyCORS sc r) as [origin []]; [|apply keeps_ret]. cbn [negb].
  apply keeps_bind; [by apply keeps_handle|]. intros res. apply keeps_ret.
Qed.
End stable.
End facts.

(** ** What sockets are sent

    The invariant behind it: every subscriber is a connection with the seat it was opened
    for, and every state in a client's buffer, on its wire or kept for the next patch is
    a view of that seat. *)

Section sockets.
Context {T : GoTypes} {S : Type} `{!Storage S} (cf : Config) (from_json : json → any) (sc : ServerConfig).
Context {patch : Type} (Compare : State → State → option patch).
Abbreviation Mgr := (Manager.Manager (S:=S)).
Abbreviation Srv := (Server (S:=S) (C:=Clients (patch:=patch))).
Abbreviation H := (ST Srv Empty_set).
Abbreviation call := (call (deliver Compare)).
Abbreviation handleWS := (handleWS cf sc Compare).
Implicit Types (who : Z → string) (c : wsClient (patch:=patch)).

(** ** The buffer *)

Lemma enqueue_out f c : (length (wc_out c) ≤ 32)%nat → wc_out (enqueue f c) = drop (length (wc_out c) + 1 - 32) (wc_out c ++ [f]).
Proof.
  intros Hl. unfold enqueue, wsSendBufferSize. case_decide as Hd.
  - replace (length (wc_out c) + 1 - 32)%nat with 0%nat by lia. by rewrite drop_0.
  - replace (length (wc_out c) + 1 - 32)%nat with 1%nat by lia. simpl. destruct (wc_out c); [simpl in Hd; lia|done].
Qed.

Lemma enqueue_rest f c : wc_playerID (enqueue f c) = wc_playerID c ∧ wc_prev (enqueue f c) = wc_prev c ∧
  wc_wire (enqueue f c) = wc_wire c.
Proof. unfold enqueue. by case_decide. Qed.

Lemma enqueue_in f c g : g ∈ wc_out (enqueue f c) → g = f ∨ g ∈ wc_out c.
Proof.
  unfold enqueue. case_decide; simpl; rewrite elem_of_app, list_elem_of_singleton; [tauto|].
  intros [Hg|Hg]; [right|by left]. destruct (wc_out c); [by apply not_elem_of_nil in Hg|by right].
Qed.

(** ** Clients *)
Context (P : Game → Prop).

(** A state as a seat sees it, by one of the games. *)
Definition is_view (pid : string) (v : State) : Prop := ∃ g st w, P g ∧ v = PlayerView g st pid w.

Definition wsframe_ok (pid : string) (f : wsframe (patch:=patch)) : Prop :=
  match f with
  | FUpdate v | FSync v _ _ => is_view pid v
  | FPatch p prevID stateID => ∃ v v', is_view pid v ∧ is_view pid v' ∧ Compare v v' = Some p ∧
      prevID = st_StateID v ∧ stateID = st_StateID v'
  | _ => True
  end.

Record client_good (pid : string) c : Prop := {
  cg_player : wc_playerID c = pid;
  cg_frames : ∀ f, f ∈ wc_wire c ++ wc_out c → wsframe_ok pid f;
  cg_prev : ∀ v, wc_prev c = Some v → is_view pid v
}.

Lemma good_new pid matchID : client_good pid (newWSClient pid matchID).
Proof. split; [done|by intros f ?%not_elem_of_nil|done]. Qed.

Lemma good_enqueue pid f c : client_good pid c → wsframe_ok pid f → client_good pid (enqueue f c).
Proof.
  intros [Hp Hf Hv] Hok. destruct (enqueue_rest f c) as (H1 & H2 & H3). split; rewrite ?H1, ?H2, ?H3; try done.
  intros g [Hg|[->|Hg]%enqueue_in]%elem_of_app; [|done|]; apply Hf, elem_of_app; tauto.
Qed.

Lemma good_prev pid v c : client_good pid c → is_view pid v → client_good pid (set_wc_prev (Some v) c).
Proof. intros [Hp Hf Hv] Hok. split; simpl; [done..|]. by intros ? [= <-]. Qed.

Lemma good_write pid c : client_good pid c → client_good pid (writeLoop c).
Proof.
  intros [Hp Hf Hv]. unfold writeLoop. destruct (wc_out c) as [|f rest] eqn:Ho; [by split; rewrite ?Ho|].
  split; simpl; [done| |done]. intros g. rewrite <-app_assoc. apply Hf.
Qed.

Lemma good_Send pid v c : client_good pid c → is_view pid v → client_good pid (Send v c).
Proof. intros Hc Hv. apply good_enqueue; [by apply good_prev|done]. Qed.

Lemma good_SendPatch pid v c : client_good pid c → is_view pid v → client_good pid (SendPatch Compare v c).
Proof.
  intros Hc Hv. unfold SendPatch. destruct (wc_prev c) as [prev|] eqn:Hp; [|by apply good_Send].
  destruct (Compare prev v) as [p|] eqn:Hcmp; [|by apply good_Send].
  apply good_enqueue; [by apply good_prev|]. exists prev, v. split; [by apply (cg_prev _ _ Hc)|]. done.
Qed.

(** ** Subscribers and clients together *)
Definition subscriber_ok who (n : Z) (s : Subscriber) : Prop := sub_PlayerID s = who (sub_conn s) ∧ sub_conn s < n.

Definition output_ok who (n : Z) (o : output) : Prop :=
  frame_ok P o ∧
  match o with
  | OSend s _ | OSendPatch s _ | OSendChat s _ | OSendMatchData s _ => subscriber_ok who n s
  | OLifecycle _ _ => True
  end.

Record manager_ok who (n : Z) (m : Mgr) : Prop := {
  mo_subs : ∀ id l, mg_subs m !! id = Some l → Forall (subscriber_ok who n) l;
  mo_out : Forall (output_ok who n) (mg_out m);
  mo_games : games_ok P m
}.

Lemma manager_ok_sending who n : sending (manager_ok who n).
Proof.
  assert (Hdef : ∀ (m : Mgr) id, manager_ok who n m → Forall (subscriber_ok who n) (default [] (mg_subs m !! id))).
  { intros m id [Hs _ _]. destruct (mg_subs m !! id) as [l|] eqn:Hl; [by eapply Hs|constructor]. }
  assert (Hadd : ∀ (m : Mgr) (f : Subscriber → output) id, manager_ok who n m →
    (∀ s, subscriber_ok who n s → output_ok who n (f s)) →
    manager_ok who n (set_out (mg_out m ++ (f <$> default [] (mg_subs m !! id))) m)).
  { intros m f id Hm Hf. split; simpl; [apply Hm| |apply Hm]. apply Forall_app. split; [apply Hm|]. apply Forall_fmap.
    eapply Forall_impl; [by apply Hdef|]. done. }
  split.
  - intros m m' H1 H2 H3 [Hs Ho Hg]. split; [by rewrite H1|by rewrite H2|]. unfold games_ok. by rewrite H3.
  - intros m h ev [Hs Ho Hg]. split; [done| |done]. simpl. apply Forall_app. split; [done|]. by constructor.
  - intros m id k g st w Hk Hm. apply Hadd; [done|]. intros s Hs.
    split; [by eapply frame_frame_ok, (mo_games _ _ _ Hm)|]. unfold frame. by destruct (rg_DeltaState g && sub_patches s).
  - intros m id players Hm. by apply (Hadd m (λ s, OSendMatchData s players)).
  - intros m id msg Hm. by apply (Hadd m (λ s, OSendChat s msg)).
Qed.

Definition clients_ok who (cl : Clients (patch:=patch)) : Prop :=
  ∀ conn c, cl_open cl !! conn = Some c → conn < cl_next cl ∧ client_good (who conn) c.

Lemma on_client_ok who conn f cl : clients_ok who cl → (∀ c, client_good (who conn) c → client_good (who conn) (f c)) →
  clients_ok who (on_client conn f cl).
Proof.
  intros Hcl Hf k c. simpl. intros [[<- (c0 & Hc & ->)]|[Hne Hc]]%lookup_alter_Some; [|by apply Hcl].
  destruct (Hcl conn c0 Hc) as [? ?]. split; [done|by apply Hf].
Qed.

Lemma deliver_ok who n os cl : Forall (output_ok who n) os → clients_ok who cl → clients_ok who (deliver Compare os cl).
Proof.
  intros Hos. revert cl. induction Hos as [|o os [Hf Ho] _ IH]; intros cl Hcl; [done|]. apply IH.
  destruct o as [s v|s v|s msg|s players|h ev]; simpl; try done; destruct Ho as [Hs _];
    apply on_client_ok; try done; intros c Hc; rewrite <-Hs in *.
  - by apply good_Send.
  - by apply good_SendPatch.
  - by apply good_enqueue.
  - by apply good_enqueue.
Qed.

Lemma deliver_next os (cl : Clients (patch:=patch)) : cl_next (deliver Compare os cl) = cl_next cl.
Proof. revert cl. induction os as [|o os IH]; intros cl; [done|]. simpl. rewrite IH. by destruct o. Qed.

Record views_ok who (sv : Srv) : Prop := {
  vo_manager : manager_ok who (cl_next (sv_clients sv)) (sv_Manager sv);
  vo_clients : clients_ok who (sv_clients sv)
}.

(** An operation that subscribes nobody, and registers but games of [P], keeps it. *)
Lemma views_op who {A} (o : operation S) (op : ST Mgr manager_error A) :
  sets_up o = false ∨ (∃ g, o = OpRegister g ∧ P (rg_Game g)) → acts_as cf o op →
  keeps (views_ok who) (call op).
Proof.
  intros Ho Hop sv [Hm Hc]. set (n := cl_next (sv_clients sv)) in *.
  assert (Hm' : manager_ok who n (op (sv_Manager sv)).2).
  { destruct (Hop (sv_Manager sv)) as [->| ->]; [done|]. destruct Ho as [Ho|(g & -> & HP)].
    - by apply (sends_perform cf _ (manager_ok_sending who n) o Ho).
    - simpl. destruct (register_rest g (sv_Manager sv)) as [Hsub Hout]. destruct Hm as [H1 H2 H3].
      split; [by rewrite Hsub|by rewrite Hout|by apply games_register]. }
  unfold Http.call. destruct (op (sv_Manager sv)) as [r m]. simpl in *. split; simpl.
  - by rewrite deliver_next.
  - apply (deliver_ok who n); [|done]. apply Forall_drop, Hm'.
Qed.

Lemma views_stable who : stable cf Compare (views_ok who).
Proof.
  split; [by intros x sv [Hm Hc]|]. intros A op o Ho Hop. apply (views_op who o); [left; by destruct o|done].
Qed.

Lemma views_update who conn f : (∀ c, client_good (who conn) c → client_good (who conn) (f c)) →
  keeps (views_ok who) (update_client conn f : H ()).
Proof. intros Hf sv [Hm Hc]. split; simpl; [done|]. by apply on_client_ok. Qed.

Lemma views_drop who conn : keeps (views_ok who) (drop_connection conn : H ()).
Proof.
  intros sv [Hm Hc]. split; simpl; [done|]. intros k c. simpl. intros [Hne Hk]%lookup_delete_Some. by apply Hc.
Qed.

Lemma views_unsubscribe who matchID s : keeps (views_ok who) (call (Unsubscribe matchID s)).
Proof.
  intros sv [[Hs Ho Hg] Hc]. unfold Http.call, Unsubscribe, modify. simpl.
  assert (Hout : ∀ m' : Mgr, mg_out m' = mg_out (sv_Manager sv) → drop (length (mg_out (sv_Manager sv))) (mg_out m') = []).
  { intros m' ->. apply drop_all. }
  destruct (mg_subs (sv_Manager sv) !! matchID) as [l|] eqn:Hl.
  2:{ rewrite Hout by done. by split. }
  assert (Hfl : Forall (subscriber_ok who (cl_next (sv_clients sv))) (filter (.≠ s) l)).
  { pose proof (Hs _ _ Hl) as Hall. rewrite Forall_forall in Hall |- *. intros x [_ Hx]%list_elem_of_filter. by apply Hall. }
  destruct (filter (.≠ s) l) as [|x l'] eqn:Hf; (rewrite Hout by done); split; simpl; try done; split; simpl; try done.
  - intros id l0 [_ Hid]%lookup_delete_Some. by eapply Hs.
  - intros id l0 [[_ <-]|[_ Hid]]%lookup_insert_Some; [done|by eapply Hs].
Qed.

(** A new connection, subscribed: from now on it has a seat. *)
Lemma views_open who playerID matchID sv : views_ok who sv →
  let n := cl_next (sv_clients sv) in
  let sv' := (new_connection playerID matchID sv).2 in
  views_ok (λ k, if decide (k = n) then playerID else who k) (call (Subscribe matchID (subscriber n playerID)) sv').2.
Proof.
  intros [[Hs Ho Hgm] Hc] n. set (who' := λ k, if decide (k = n) then playerID else who k).
  assert (Hold : ∀ s, subscriber_ok who n s → subscriber_ok who' (n + 1) s).
  { intros s [H1 H2]. split; [|lia]. unfold who'. rewrite decide_False by lia. done. }
  assert (Hnew : subscriber_ok who' (n + 1) (subscriber n playerID)).
  { split; simpl; [|lia]. unfold who'. by rewrite decide_True. }
  assert (Hdef : Forall (subscriber_ok who' (n + 1)) (default [] (mg_subs (sv_Manager sv) !! matchID))).
  { destruct (mg_subs (sv_Manager sv) !! matchID) as [l|] eqn:Hl; [|constructor]. eapply Forall_impl; [by eapply Hs|done]. }
  split.
  - split; simpl; rewrite ?deliver_next; simpl.
    + intros id l [[_ <-]|[_ Hid]]%lookup_insert_Some.
      * case_decide; [done|]. apply Forall_app. split; [done|]. by constructor.
      * eapply Forall_impl; [by eapply Hs|done].
    + eapply Forall_impl; [exact Ho|]. intros o [Hf Hx]. split; [done|]. destruct o; try done; by apply Hold.
    + exact Hgm.
  - simpl. rewrite drop_all. simpl. intros k c. simpl. intros [[<- <-]|[Hne Hk]]%lookup_insert_Some.
    + split; [lia|]. unfold who'. rewrite decide_True by done. apply good_new.
    + destruct (Hc k c Hk) as [Hlt Hg]. split; [lia|]. unfold who'. rewrite decide_False by (intros ->; lia). done.
Qed.

(** ** Sockets *)

Definition seen (sv : Srv) : Prop := ∃ who, views_ok who sv.

Lemma seen_stable : stable cf Compare seen.
Proof.
  split.
  - intros x sv [who Hw]. exists who. by apply (st_metrics _ _ _ (views_stable who)).
  - intros A op o Ho Hop sv [who Hw]. exists who. by apply (st_call _ _ _ (views_stable who) A op o Ho Hop).
Qed.

Ltac leaf who :=
  first
    [ apply (keeps_bump cf Compare _ (views_stable who)) | apply keeps_view | apply keeps_client
    | apply (keeps_quiet cf Compare _ (views_stable who)); done
    | match goal with
      | |- keeps _ (Http.call _ (State_ ?i)) => apply (keeps_acts cf Compare _ (views_stable who) _ (OpState i))
      | |- keeps _ (Http.call _ (MoveReqCtx _ ?x ?i ?p ?c ?r)) => apply (keeps_acts cf Compare _ (views_stable who) _ (OpMove x i p c r))
      | |- keeps _ (Http.call _ (Authenticate _ ?i ?p ?c)) => apply (keeps_acts cf Compare _ (views_stable who) _ (OpAuthenticate i p c))
      | |- keeps _ (Http.call _ (SetConnected ?i ?p ?b)) => apply (keeps_acts cf Compare _ (views_stable who) _ (OpSetConnected i p b))
      | |- keeps _ (Http.call _ (Chat _ ?i ?s ?p)) => apply (keeps_acts cf Compare _ (views_stable who) _ (OpChat i s p))
      end; [exact Logic.I|intros; simpl; rewrite ?run_state; reflexivity] ].

Lemma views_error who conn e : keeps (views_ok who) (update_client conn (sendError e) : H ()).
Proof. apply views_update. intros c Hc. by apply good_enqueue. Qed.

Lemma views_sync who conn matchID playerID : who conn = playerID → keeps (views_ok who) (push_sync Compare conn matchID playerID : H ()).
Proof.
  intros Hw. unfold push_sync. apply keeps_bind; [leaf who|]. intros [e|m]; [apply keeps_ret|].
  intros sv Hsv. rewrite bind_eq. pose proof (Hsv) as [[_ _ Hgames] _].
  assert (Hcall : keeps (views_ok who) (call (Game_ (mt_GameName m)) : H _)) by leaf who.
  specialize (Hcall sv Hsv). unfold Http.call, Game_, gets in Hcall |- *. cbv beta iota zeta in Hcall |- *. simpl in Hcall.
  destruct (mg_games (sv_Manager sv) !! mt_GameName m) as [g|] eqn:Hg; [|exact Hcall].
  revert Hcall. generalize (mkServer (sv_Manager sv) (sv_metrics sv)
    (deliver Compare (drop (length (mg_out (sv_Manager sv))) (mg_out (sv_Manager sv))) (sv_clients sv))).
  intros sv' Hsv'. rewrite bind_eq. unfold view_for. cbv beta iota. unfold sync_frame. apply views_update; [|done].
  intros c Hc.
  assert (Hv : is_view (who conn) (PlayerView (rg_Game g) (mt_State m) playerID (mg_world (sv_Manager sv')))).
  { rewrite Hw. eexists _, _, _. split; [by eapply Hgames|done]. }
  apply good_enqueue; [by apply good_prev|done].
Qed.

Lemma views_close who conn c : keeps (views_ok who) (close_socket Compare conn c : H ()).
Proof.
  unfold close_socket. keeps_walk ltac:(first [leaf who|apply views_unsubscribe|apply views_drop]).
Qed.

Lemma views_message who ctx conn c msg : keeps (views_ok who) (handle_message cf Compare ctx conn c msg : H ()).
Proof. unfold handle_message. keeps_walk ltac:(first [leaf who|apply views_error]). Qed.

Lemma views_receive who ctx conn msg : keeps (views_ok who) (receive cf from_json Compare ctx conn msg : H ()).
Proof.
  unfold receive. apply keeps_bind; [leaf who|]. intros [c|]; [|apply keeps_ret].
  destruct (read_inbound from_json <$> body_fields msg) as [[msg' []]|]; [apply views_message|apply views_close..].
Qed.

Lemma seen_open r matchID : keeps seen (open_socket Compare r matchID : H Response).
Proof.
  unfold open_socket. destruct (hr_accepted r); [|apply keeps_ret]. cbn [negb].
  apply keeps_bind; [apply (keeps_bump cf Compare _ seen_stable)|]. intros _.
  apply keeps_bind.
  { intros sv [who Hw]. exists who. revert sv Hw. change (keeps (views_ok who)
      (if decide (hr_playerID r = "") then spectators_refused Compare matchID else mret false : H bool)).
    unfold spectators_refused. keeps_walk ltac:(leaf who). }
  intros [|].
  { apply keeps_bind; [apply (keeps_bump cf Compare _ seen_stable)|]. intros _. apply keeps_ret. }
  intros sv [who Hw]. rewrite bind_eq. unfold new_connection at 1. cbv beta iota zeta.
  pose proof (views_open who (hr_playerID r) matchID sv Hw) as Hn. cbv zeta in Hn. set (n := cl_next (sv_clients sv)) in *.
  unfold new_connection in Hn. cbn [snd] in Hn. fold n in Hn. set (who' := λ k, if decide (k = n) then hr_playerID r else who k) in *.
  rewrite bind_eq. set (sv1 := set_sv_clients _ _) in *. destruct (call _ sv1) as [[a|e| |] sv2] eqn:HS; simpl in Hn; try by exists who'.
  exists who'. revert sv2 HS Hn. intros sv2 _. revert sv2. change (keeps (views_ok who')
    (_ ← push_sync Compare n matchID (hr_playerID r); _ ← call (SetConnected matchID (hr_playerID r) true); mret (reply 101 (BSocket (Some n))) : H Response)).
  apply keeps_bind; [apply views_sync; unfold who'; by rewrite decide_True|]. intros _.
  apply keeps_bind; [leaf who'|]. intros _. apply keeps_ret.
Qed.

Lemma seen_handleWS r matchID : keeps seen (handleWS r matchID : H Response).
Proof.
  unfold Sockets.handleWS. destruct (_ && _); [apply keeps_ret|]. apply keeps_bind.
  - destruct (decide (hr_playerID r = "")); [apply keeps_ret|].
    apply (keeps_acts cf Compare _ seen_stable _ (OpAuthenticate matchID (hr_playerID r) (hr_credentials r))); [done|].
    intros m. simpl. by rewrite run_state.
  - intros [e|[|]]; [apply keeps_ret|apply seen_open|apply keeps_ret].
Qed.

Lemma seen_if {A} (h : H A) : (∀ who, keeps (views_ok who) h) → keeps seen h.
Proof. intros Hh sv [who Hw]. exists who. by apply Hh. Qed.

(** The transport's events, and the operations nobody subscribes by; of those that
    register a game the ones that register one of the games. *)
Definition own_subscribers (ev : server_event (S:=S)) : Prop :=
  match ev with
  | EvManager (OpSubscribe _ _) | EvManager (OpUnsubscribe _ _) => False
  | EvManager (OpRegister g) => P (rg_Game g)
  | _ => True
  end.

Lemma seen_event ev : own_subscribers ev → keeps seen (run_event cf from_json sc Compare ev).
Proof.
  intros Hev. destruct ev as [r|ctx conn msg|conn|conn|o]; simpl.
  - apply keeps_bind; [|intros; apply keeps_ret].
    apply (keeps_serve cf from_json sc Compare _ seen_stable). intros g matchID _. apply seen_handleWS.
  - apply keeps_bind; [|intros; apply keeps_ret]. apply seen_if. intros who. apply views_receive.
  - apply seen_if. intros who. apply keeps_bind; [leaf who|]. intros [c|]; (apply keeps_bind; [|intros; apply keeps_ret]);
      [apply views_close|apply keeps_ret].
  - apply keeps_bind; [|intros; apply keeps_ret]. apply seen_if. intros who. apply views_update. intros c. apply good_write.
  - apply keeps_bind; [|intros; apply keeps_ret]. apply seen_if. intros who. apply (views_op who o); [|intros m; by right].
    destruct o as [g| | | | | | | | | | | | | | | | | | | | | | | | |]; try done; try by left. right. by exists g.
Qed.

Lemma seen_new store w : seen (New (NewManager store w)).
Proof. exists (λ _, ""). split; [split|]; simpl; [by intros id l Hl|constructor|by intros k g Hk|by intros conn c Hc]. Qed.

Lemma seen_events evs sv : Forall own_subscribers evs → seen sv → seen (run_events cf from_json sc Compare evs sv).
Proof.
  intros Hevs. revert sv. induction Hevs as [|ev evs Hev _ IH]; intros sv Hsv; [done|]. apply IH. by apply seen_event.
Qed.
End sockets.
