(* ===== verification/HttpTheorems.v ===== *)
(** * What the server promises

    The server is a run of its manager, paths lead where they should, origins are
    checked, sockets are authenticated and see what their seat may see; and what a
    client can get from it without credentials. *)

From S2P Require Import Prelude CoreTypes GameDef Session Reducer Storage Example.
From S2P Require Import Manager Lobby Dispatch ManagerFacts Outputs ManagerExample Http Sockets ServerFacts.
#[local] Open Scope Z_scope.

(** ** Routes *)

Definition no_slash (s : string) : bool :=
  (fix go s := match s with EmptyString => true | String c s => negb (bool_decide (c = slash)) && go s end) s.

(** A segment of a path: not empty, no slash. *)
Definition segment (s : string) : Prop := s ≠ "" ∧ no_slash s = true.

Definition join_path (parts : list string) : string := foldr (λ p rest, "/" +:+ p +:+ rest) "" parts.

(** The method and the path the documentation gives for each target. *)
Definition address (t : target) : option (string * list string) :=
  match t with
  | TNotFound => None
  | TListGames => Some (get, ["games"])
  | TListMatches g => Some (get, ["games"; g])
  | TCreate g => Some (post, ["games"; g; "create"])
  | TByCode g code => Some (get, ["games"; g; "byCode"; code])
  | TGetMatch g id => Some (get, ["games"; g; id])
  | TJoin id => Some (post, ["games"; "any"; id; "join"])
  | TLeave id => Some (post, ["games"; "any"; id; "leave"])
  | TUpdate id => Some (post, ["games"; "any"; id; "update"])
  | TPlayAgain id => Some (post, ["games"; "any"; id; "playAgain"])
  | TMove id => Some (post, ["games"; "any"; id; "move"])
  | TDryMove id => Some (post, ["games"; "any"; id; "dryMove"])
  | TReset id => Some (post, ["games"; "any"; id; "reset"])
  | TWS g id => Some (get, ["games"; g; id; "ws"])
  end.

Lemma string_app_assoc (a b c : string) : (a +:+ b) +:+ c = a +:+ (b +:+ c).
Proof. induction a as [|x a IH]; [done|]. exact (f_equal (String x) IH). Qed.

Lemma string_app_nil (a : string) : a +:+ "" = a.
Proof. induction a as [|x a IH]; [done|]. exact (f_equal (String x) IH). Qed.

Lemma split_segment p rest : no_slash p = true → split_slash (p +:+ "/" +:+ rest) = p :: split_slash rest.
Proof.
  induction p as [|c p IH]; intros Hp; [done|]. simpl in Hp. apply andb_true_iff in Hp as [Hc Hp].
  apply negb_true_iff, bool_decide_eq_false in Hc. simpl. rewrite decide_False by done.
  simpl in IH. by rewrite IH.
Qed.

Lemma split_last p : no_slash p = true → split_slash p = [p].
Proof.
  induction p as [|c p IH]; intros Hp; [done|]. simpl in Hp. apply andb_true_iff in Hp as [Hc Hp].
  apply negb_true_iff, bool_decide_eq_false in Hc. simpl. rewrite decide_False by done. by rewrite IH.
Qed.

(** A string that does not end in a slash is left alone. *)
Fixpoint ends_open (s : string) : bool :=
  match s with
  | EmptyString => false
  | String c EmptyString => negb (bool_decide (c = slash))
  | String _ s => ends_open s
  end.

Lemma trim_open s : ends_open s = true → trim_right s = s.
Proof.
  induction s as [|c s IH]; intros Hs; [done|]. simpl in *. destruct s as [|c' s].
  - simpl. apply negb_true_iff, bool_decide_eq_false in Hs. by rewrite decide_False.
  - by rewrite IH.
Qed.

Lemma ends_app a b : ends_open b = true → ends_open (a +:+ b) = true.
Proof.
  intros Hb. induction a as [|c a IH]; [done|]. simpl. destruct (a +:+ b) eqn:Hab; [|done].
  destruct a; [simpl in Hab; by subst|done].
Qed.

Lemma ends_segment p : segment p → ends_open p = true.
Proof.
  intros [Hne Hp]. induction p as [|c p IH]; [done|]. simpl in *. apply andb_true_iff in Hp as [Hc Hp].
  destruct p; [done|]. by apply IH.
Qed.

Lemma parts_join parts : parts ≠ [] → Forall segment parts → path_parts (join_path parts) = parts.
Proof.
  intros Hne Hs. destruct parts as [|p parts]; [done|]. apply Forall_cons in Hs as [[Hp Hps] Hs]. unfold path_parts.
  assert (Htl : trim_left (join_path (p :: parts)) = p +:+ join_path parts).
  { change (trim_left (p +:+ join_path parts) = p +:+ join_path parts). destruct p as [|c p]; [done|]. simpl in *.
    apply andb_true_iff in Hps as [Hc _]. apply negb_true_iff, bool_decide_eq_false in Hc. by rewrite decide_False. }
  rewrite Htl. clear Htl Hne.
  assert (Hend : ends_open (p +:+ join_path parts) = true).
  { clear - Hs Hp Hps. revert p Hp Hps. induction Hs as [|q parts Hq Hs IH]; intros p Hp Hps.
    - simpl. rewrite string_app_nil. by apply ends_segment.
    - simpl. rewrite <-string_app_assoc. destruct Hq. apply (ends_app _ (q +:+ _)). by apply IH. }
  rewrite (trim_open _ Hend). clear Hend. revert p Hp Hps. induction Hs as [|q parts [Hq Hqs] Hs IH]; intros p Hp Hps.
  - simpl. rewrite string_app_nil. by apply split_last.
  - simpl. rewrite split_segment by done. f_equal. by apply IH.
Qed.

(** Every endpoint is reached at its address: a request for it with names that are not
    empty and hold no slash is routed there, whatever the names are. The one exception is
    a match called byCode. *)
Theorem routes_roundtrip t method parts : address t = Some (method, parts) → Forall segment parts →
  (∀ g, t ≠ TWS g "byCode") → route method (join_path parts) = t.
Proof.
  intros Ha Hs Hws. assert (Hne : parts ≠ []) by (intros ->; by destruct t).
  unfold route. rewrite parts_join by done.
  destruct t as [| |g|g|g code|g id|id|id|id|id|id|id|id|g id]; simpl in Ha; try done; injection Ha as <- <-; try done; simpl.
  all: try by rewrite andb_false_r.
  assert (id ≠ "byCode") by (intros ->; by apply (Hws g)). by rewrite bool_decide_false.
Qed.

Lemma route_ws_get method path g id : route method path = TWS g id → method = get.
Proof.
  unfold route. destruct (path_parts path) as [|p [|g' tail]]; [done|by repeat case_match|]. destruct (negb _); [done|].
  unfold route_game. destruct (decide (method = get)) as [|Hne]; [done|]. rewrite (bool_decide_false (method = get)) by done.
  destruct tail as [|a [|b [|]]]; rewrite ?andb_false_r; repeat case_match; done.
Qed.

Lemma routes_roundtrip_witness :
  route post (join_path ["games"; "any"; "m1"; "move"]) = TMove "m1" ∧
  join_path ["games"; "any"; "m1"; "move"] = "/games/any/m1/move".
Proof.
  split; [|reflexivity]. apply (routes_roundtrip (TMove "m1") post ["games"; "any"; "m1"; "move"]); [reflexivity| |done].
  repeat constructor; done.
Defined.

(** ** Origins *)

Lemma isLocalhost_iff url_parse origin : isLocalhost url_parse origin = true ↔
  ∃ scheme host, url_parse origin = Some (scheme, host) ∧ scheme ∈ ["http"; "https"] ∧
    host ∈ ["localhost"; "127.0.0.1"; "::1"].
Proof.
  unfold isLocalhost. destruct (url_parse origin) as [[scheme host]|]; [|naive_solver].
  rewrite !andb_true_iff, !bool_decide_eq_true. split; [naive_solver|].
  intros (? & ? & [= <- <-] & Hs & Hh). split; [split|]; try done. intros ->. set_solver.
Qed.

(** An origin gets in exactly by a wildcard, by its own name, or as a localhost origin
    under one of the two presets, the second of which does not count in production. *)
Theorem originAllowed_iff url_parse production origins origin :
  originAllowed url_parse production origins origin = true ↔
  "*" ∈ origins ∨
  (origin ∈ origins ∧ origin ≠ OriginLocalhost ∧ origin ≠ OriginLocalhostInDevelopment) ∨
  ((OriginLocalhost ∈ origins ∨ OriginLocalhostInDevelopment ∈ origins ∧ production = false) ∧
   isLocalhost url_parse origin = true).
Proof.
  induction origins as [|a l IH]; [simpl; set_solver|]. simpl.
  assert (Hstar : ("*" : string) ≠ OriginLocalhost ∧ ("*" : string) ≠ OriginLocalhostInDevelopment ∧
    OriginLocalhost ≠ OriginLocalhostInDevelopment) by done. destruct Hstar as (H1 & H2 & H3).
  destruct (decide (a = "*")) as [->|Ha]; [set_solver|].
  destruct (decide (a = OriginLocalhostInDevelopment)) as [->|Hd].
  { destruct production, (isLocalhost url_parse origin); simpl; rewrite ?IH; set_solver. }
  destruct (decide (a = OriginLocalhost)) as [->|Hl].
  { destruct (isLocalhost url_parse origin); simpl; rewrite ?IH; set_solver. }
  destruct (decide (a = origin)) as [->|Ho]; [set_solver|]. rewrite IH. set_solver.
Qed.

Section server.
Context {T : GoTypes} {S : Type} `{!Storage S} (cf : Config) (from_json : json → any) (sc : ServerConfig).
Context {patch : Type} (Compare : State → State → option patch).
Abbreviation Mgr := (Manager.Manager (S:=S)).
Abbreviation Srv := (Server (S:=S) (C:=Clients (patch:=patch))).
Abbreviation H := (ST Srv Empty_set).
Abbreviation call := (call (deliver Compare)).
Abbreviation run_events := (run_events cf from_json sc Compare).
Implicit Types (evs : list (server_event (S:=S))) (sv : Srv) (c : wsClient (patch:=patch)).

(** ** Who opened a socket *)

(** The connections are among those of [sv0], or [also]. *)
Definition from_before (also : wsClient (patch:=patch) → Prop) sv0 sv : Prop := ∀ conn c,
  cl_open (sv_clients sv) !! conn = Some c →
  (∃ c0, cl_open (sv_clients sv0) !! conn = Some c0 ∧ wc_playerID c0 = wc_playerID c ∧ wc_matchID c0 = wc_matchID c) ∨ also c.

(** A change of a client that leaves it its seat and match. *)
Definition same_seat (f : wsClient (patch:=patch) → wsClient (patch:=patch)) : Prop := ∀ c,
  wc_playerID (f c) = wc_playerID c ∧ wc_matchID (f c) = wc_matchID c.

Lemma same_seat_enqueue fr : same_seat (enqueue fr).
Proof. intros c. unfold enqueue. by case_decide. Qed.

Lemma same_seat_deliver o cl conn c' : cl_open (deliver_one Compare o cl) !! conn = Some c' →
  ∃ c, cl_open cl !! conn = Some c ∧ wc_playerID c' = wc_playerID c ∧ wc_matchID c' = wc_matchID c.
Proof.
  assert (Hall : ∀ k f, same_seat f → cl_open (on_client k f cl) !! conn = Some c' →
    ∃ c, cl_open cl !! conn = Some c ∧ wc_playerID c' = wc_playerID c ∧ wc_matchID c' = wc_matchID c).
  { intros k f Hf. simpl. intros [[<- (c & Hc & ->)]|[_ Hc]]%lookup_alter_Some; [|by exists c']. exists c. split; [done|]. apply Hf. }
  destruct o as [s v|s v|s msg|s players|h ev]; simpl; try apply Hall.
  - intros c. apply (same_seat_enqueue (FUpdate v) (set_wc_prev (Some v) c)).
  - intros c. unfold SendPatch. destruct (wc_prev c) as [prev|]; [destruct (Compare prev v)|].
    + apply (same_seat_enqueue _ (set_wc_prev (Some v) c)).
    + apply (same_seat_enqueue _ (set_wc_prev (Some v) c)).
    + apply (same_seat_enqueue _ (set_wc_prev (Some v) c)).
  - apply same_seat_enqueue.
  - apply same_seat_enqueue.
  - intros Hc. by exists c'.
Qed.

Section before.
Context (also : wsClient (patch:=patch) → Prop) (sv0 : Srv).
Context (Halso : ∀ c c', wc_playerID c' = wc_playerID c → wc_matchID c' = wc_matchID c → also c → also c').
Abbreviation I := (from_before also sv0).

Lemma before_refl : I sv0.
Proof. intros conn c Hc. left. by exists c. Qed.

Lemma before_step sv sv' : I sv →
  (∀ conn c', cl_open (sv_clients sv') !! conn = Some c' → also c' ∨
    ∃ c, cl_open (sv_clients sv) !! conn = Some c ∧ wc_playerID c' = wc_playerID c ∧ wc_matchID c' = wc_matchID c) → I sv'.
Proof.
  intros Hsv Hstep conn c' Hc'. destruct (Hstep conn c' Hc') as [Ha|(c & Hc & H1 & H2)]; [by right|].
  destruct (Hsv conn c Hc) as [(c0 & ? & ? & ?)|Ha]; [left|right; by apply (Halso c)].
  exists c0. split; [done|]. split; congruence.
Qed.

Lemma before_call {A} (op : ST Mgr manager_error A) : keeps I (call op).
Proof.
  intros sv Hsv. apply (before_step sv); [done|]. intros conn c' Hc'. right. unfold Http.call in Hc'.
  destruct (op (sv_Manager sv)) as [r m]. simpl in Hc'. revert Hc'. generalize (drop (length (mg_out (sv_Manager sv))) (mg_out m)).
  intros os. generalize (sv_clients sv). induction os as [|o os IH]; intros cl Hc'; [by exists c'|].
  destruct (IH (deliver_one Compare o cl) Hc') as (c1 & Hc1 & H1 & H2).
  destruct (same_seat_deliver o cl conn c1 Hc1) as (c & Hc & H3 & H4). exists c. split; [done|]. split; congruence.
Qed.

Lemma before_stable : stable cf Compare I.
Proof. split; [by intros x sv Hsv|]. intros A op o _ _. apply before_call. Qed.

Lemma before_update conn f : same_seat f → keeps I (update_client conn f : H ()).
Proof.
  intros Hf sv Hsv. apply (before_step sv); [done|]. intros k c'. simpl.
  intros [[<- (c & Hc & ->)]|[_ Hc]]%lookup_alter_Some; right; [|by exists c']. exists c. split; [done|]. apply Hf.
Qed.

Lemma before_drop conn : keeps I (drop_connection conn : H ()).
Proof.
  intros sv Hsv. apply (before_step sv); [done|]. intros k c'. simpl. intros [_ Hc]%lookup_delete_Some. right. by exists c'.
Qed.

Lemma before_new playerID matchID : also (newWSClient playerID matchID) → keeps I (new_connection playerID matchID : H Z).
Proof.
  intros Hn sv Hsv. apply (before_step sv); [done|]. intros k c'. simpl.
  intros [[_ <-]|[_ Hc]]%lookup_insert_Some; [by left|right; by exists c'].
Qed.

Ltac leaf :=
  first
    [ apply before_call | apply (keeps_bump cf Compare _ before_stable) | apply keeps_view | apply keeps_client
    | apply before_drop
    | apply before_update; first [apply same_seat_enqueue | intros ?; unfold writeLoop; by case_match
        | intros c; apply (same_seat_enqueue _ (set_wc_prev _ c))]
    | by apply before_new ].

Lemma before_open r matchID : also (newWSClient (hr_playerID r) matchID) → keeps I (open_socket Compare r matchID : H Response).
Proof.
  intros Hn. unfold open_socket, spectators_refused, push_sync, sync_frame. keeps_walk ltac:(leaf).
Qed.

Lemma before_event ev : (∀ r, ev ≠ EvHTTP r) → keeps I (run_event cf from_json sc Compare ev).
Proof.
  intros Hne. destruct ev as [r|ctx conn msg|conn|conn|o]; simpl; [by destruct (Hne r)|..];
    unfold receive, handle_message, close_socket; keeps_walk ltac:(leaf).
Qed.

Lemma before_serve r : (∀ g matchID, route (hr_Method r) (hr_Path r) ≠ TWS g matchID) →
  keeps I (ServeHTTP cf from_json (deliver Compare) (handleWS cf sc Compare) sc r).
Proof. intros Hne. apply (keeps_serve cf from_json sc Compare _ before_stable). intros g matchID Ht. by destruct (Hne g matchID). Qed.
End before.

(** The checks a socket's request passed. *)
Definition let_in sv (r : Request) (matchID : string) : Prop :=
  (hr_Origin r = "" ∨ allowed sc (hr_Origin r) = true) ∧
  (hr_playerID r = "" ∨ (Authenticate cf matchID (hr_playerID r) (hr_credentials r) (sv_Manager sv)).1 = Ok true).

Definition opened sv (r : Request) (matchID : string) c : Prop :=
  wc_playerID c = hr_playerID r ∧ wc_matchID c = matchID ∧ let_in sv r matchID.

Lemma opened_same sv r matchID c c' : wc_playerID c' = wc_playerID c → wc_matchID c' = wc_matchID c →
  opened sv r matchID c → opened sv r matchID c'.
Proof. unfold opened. by intros -> ->. Qed.

Lemma handleWS_lets_in r matchID sv : from_before (opened sv r matchID) sv (handleWS cf sc Compare r matchID sv).2.
Proof.
  unfold handleWS. destruct (bool_decide (hr_Origin r ≠ "") && negb (allowed sc (hr_Origin r))) eqn:Ho; [apply before_refl|].
  assert (Horigin : hr_Origin r = "" ∨ allowed sc (hr_Origin r) = true).
  { destruct (decide (hr_Origin r = "")); [by left|right]. rewrite bool_decide_true in Ho by done.
    by destruct (allowed sc (hr_Origin r)). }
  rewrite bind_eq. destruct (decide (hr_playerID r = "")) as [Hp|Hp].
  { apply (before_open (opened sv r matchID) sv (opened_same sv r matchID)); [|apply before_refl].
    split; [done|]. split; [done|]. split; [done|by left]. }
  pose proof (before_call (opened sv r matchID) sv (opened_same sv r matchID)
    (Authenticate cf matchID (hr_playerID r) (hr_credentials r)) sv (before_refl _ sv)) as Hb.
  unfold Http.call in Hb |- *.
  destruct (Authenticate cf matchID (hr_playerID r) (hr_credentials r) (sv_Manager sv)) as [[a|e| |] m] eqn:HA; simpl in *; try done.
  destruct a; [|done]. apply (before_open (opened sv r matchID) sv (opened_same sv r matchID)); [|done].
  split; [done|]. split; [done|]. split; [done|right]. by rewrite HA.
Qed.

Lemma run_events_snoc evs ev sv : run_events (evs ++ [ev]) sv = (run_event cf from_json sc Compare ev (run_events evs sv)).2.
Proof. unfold Sockets.run_events. by rewrite foldl_app. Qed.

(** A socket that stands for a player was opened by a request for that player's seat in
    that match, from an origin that is let in, with credentials the match accepted at that
    time; whatever requests, messages, closed connections and manager operations came
    before and after. *)
Theorem sockets_are_authenticated evs store w conn c :
  let start := New (NewManager store w) in
  cl_open (sv_clients (run_events evs start)) !! conn = Some c →
  ∃ pre r post g, evs = pre ++ EvHTTP r :: post ∧
    route (hr_Method r) (hr_Path r) = TWS g (wc_matchID c) ∧ hr_playerID r = wc_playerID c ∧
    let_in (run_events pre start) r (wc_matchID c).
Proof.
  intros start. revert c. induction evs as [|ev evs IH] using rev_ind; intros c Hc; [done|].
  rewrite run_events_snoc in Hc. set (sv := run_events evs start) in *.
  assert (Hold : ∀ also, (∀ c c', wc_playerID c' = wc_playerID c → wc_matchID c' = wc_matchID c → also c → also c') →
    (∀ c, ¬ also c) → from_before also sv (run_event cf from_json sc Compare ev sv).2 →
    ∃ pre r post g, evs ++ [ev] = pre ++ EvHTTP r :: post ∧
      route (hr_Method r) (hr_Path r) = TWS g (wc_matchID c) ∧ hr_playerID r = wc_playerID c ∧
      let_in (run_events pre start) r (wc_matchID c)).
  { intros also _ Hno Hb. destruct (Hb conn c Hc) as [(c0 & Hc0 & H1 & H2)|Ha]; [|by destruct (Hno c)].
    destruct (IH c0 Hc0) as (pre & r & post & g & -> & Hr & Hp & Hl). rewrite H1, H2 in *.
    exists pre, r, (post ++ [ev]), g. by rewrite <-app_assoc. }
  assert (Hnone : ∀ c c' : wsClient (patch:=patch), wc_playerID c' = wc_playerID c → wc_matchID c' = wc_matchID c → False → False) by done.
  destruct ev as [r|ctx k msg|k|k|o];
    try (apply (Hold (λ _, False)); [done|intros ? []|]; by apply (before_event (λ _, False) sv Hnone); [|apply before_refl]).
  destruct (route (hr_Method r) (hr_Path r)) as [| |g|g|g code|g id|id|id|id|id|id|id|id|g id] eqn:Ht;
    try (apply (Hold (λ _, False)); [done|intros ? []|]; simpl;
      apply (keeps_bind (from_before (λ _, False) sv)); [|intros; apply keeps_ret|apply before_refl];
      apply (before_serve (λ _, False) sv Hnone); intros ? ?; by rewrite Ht).
  assert (Hws : (run_event cf from_json sc Compare (EvHTTP r) sv).2 = (handleWS cf sc Compare r id sv).2).
  { simpl. unfold ServeHTTP, applyCORS. rewrite Ht. rewrite bind_eq.
    assert (Hm : hr_Method r = get).
    { by eapply route_ws_get. }
    rewrite bool_decide_false by (rewrite Hm; done). cbn [negb]. rewrite bind_eq. cbn [handle].
    by destruct (handleWS cf sc Compare r id sv) as [[a|e| |] sv']. }
  rewrite Hws in Hc. destruct (handleWS_lets_in r id sv conn c Hc) as [(c0 & Hc0 & H1 & H2)|(Hp & Hi & Hl)].
  - destruct (IH c0 Hc0) as (pre & r' & post & g' & -> & Hr & Hp & Hl). rewrite H1, H2 in *.
    exists pre, r', (post ++ [EvHTTP r]), g'. by rewrite <-app_assoc.
  - exists evs, r, [], g. rewrite Hp, Hi. done.
Qed.

(** ** What sockets are sent *)

(** C35: Every state a socket has been sent, or waits to be sent, is the view of the seat it
    was opened for, by a game that was registered, and so without the seed, another seat's
    redacted arguments and the engine's own fields; and every patch goes from one such view to
    another. *)
Theorem sockets_see_their_seat (P : Game → Prop) evs store w conn c :
  Forall (own_subscribers P) evs →
  cl_open (sv_clients (run_events evs (New (NewManager store w)))) !! conn = Some c →
  let is_view v := ∃ g st w', P g ∧ v = PlayerView g st (wc_playerID c) w' in
  ∀ f, f ∈ wc_wire c ++ wc_out c →
    (∀ v, f = FUpdate v ∨ (∃ players id, f = FSync v players id) →
      is_view v ∧ ctx_Seed (st_Ctx v) = 0 ∧
      (∀ e, e ∈ st_Log v → le_Redact e = true → le_PlayerID e ≠ wc_playerID c → le_Args e = []) ∧
      st_ActiveStack v = [] ∧ st_PendingNext v = None) ∧
    (∀ p prevID stateID, f = FPatch p prevID stateID →
      ∃ v v', is_view v ∧ is_view v' ∧ Compare v v' = Some p ∧
        prevID = st_StateID v ∧ stateID = st_StateID v').
Proof.
  intros Hown Hc is_view f Hf.
  destruct (seen_events cf from_json sc Compare P evs _ Hown (seen_new Compare P store w)) as [who [_ Hcl]].
  destruct (Hcl conn c Hc) as [_ [Hp Hfr _]]. rewrite <-Hp in Hfr. specialize (Hfr f Hf). split.
  - intros v Hv. assert (is_view v) as (g & st & w' & Hg & ->) by (by destruct Hv as [->|(players & id & ->)]).
    split; [by exists g, st, w'|]. split; [done|]. split; [|done]. simpl. intros e (e0 & -> & _)%list_elem_of_fmap.
    unfold redact_entry. case_match eqn:Hr; [done|]. intros He Hne.
    rewrite He, bool_decide_eq_false_2 in Hr by done. done.
  - intros p prevID stateID ->. exact Hfr.
Qed.

(** However slow a client is, its buffer holds at most 32 frames, and those are the newest,
    in order. *)
Theorem slow_sockets_get_the_newest fs c : (length (wc_out c) ≤ 32)%nat →
  wc_out (foldl (λ c f, enqueue f c) c fs) = drop (length (wc_out c) + length fs - 32) (wc_out c ++ fs) ∧
  (length (wc_out (foldl (λ c f, enqueue f c) c fs)) ≤ 32)%nat.
Proof.
  intros Hl.
  enough (Heq : wc_out (foldl (λ c f, enqueue f c) c fs) = drop (length (wc_out c) + length fs - 32) (wc_out c ++ fs)).
  { split; [done|]. rewrite Heq, length_drop, length_app. lia. }
  revert c Hl. induction fs as [|f fs IH]; intros c Hl.
  { simpl. rewrite app_nil_r. replace (length (wc_out c) + 0 - 32)%nat with 0%nat by lia. by rewrite drop_0. }
  simpl. pose proof (enqueue_out f c Hl) as He. rewrite IH, He.
  2:{ rewrite He, length_drop, length_app. simpl. lia. }
  rewrite length_drop, length_app. change (length [f]) with 1%nat.
  destruct (decide (length (wc_out c) = 32)%nat) as [H32|Hlt].
  - rewrite H32. replace (32 + 1 - 32)%nat with 1%nat by lia. destruct (wc_out c) as [|x l]; [done|].
    cbn [drop app]. replace (32 + 1 - 1 + length fs - 32)%nat with (length fs) by lia.
    replace (32 + Datatypes.S (length fs) - 32)%nat with (Datatypes.S (length fs)) by lia. cbn [drop]. by rewrite drop_0, <-app_assoc.
  - replace (length (wc_out c) + 1 - 32)%nat with 0%nat by lia. rewrite drop_0, <-app_assoc. cbn [app]. f_equal. lia.
Qed.

(** ** The server is a run of its manager *)

(** What a client can cause. *)
Definition client_op (o : operation S) : Prop :=
  transport_op o ∨ ∃ id conn playerID, o = OpSubscribe id (subscriber conn playerID) ∨ o = OpUnsubscribe id (subscriber conn playerID).

Definition runs_from (P : operation S → Prop) (m : Mgr) sv : Prop := ∃ ops, Forall P ops ∧ sv_Manager sv = serve_all cf ops m.

Section runs.
Context (P : operation S → Prop) (m : Mgr) (HP : ∀ o, client_op o → P o).
Abbreviation I := (runs_from P m).

Lemma runs_call {A} (op : ST Mgr manager_error A) o : P o → acts_as cf o op → keeps I (call op).
Proof.
  intros Ho Hop sv (ops & Hops & Hm). destruct (Hop (sv_Manager sv)) as [Heq|Heq].
  - exists ops. split; [done|]. by rewrite call_manager, Heq.
  - exists (ops ++ [o]). split; [apply Forall_app; split; [done|by constructor]|].
    rewrite call_manager, Heq, Hm. unfold serve_all. by rewrite foldl_app.
Qed.

Lemma runs_stable : stable cf Compare I.
Proof. split; [by intros x sv Hsv|]. intros A op o Ho Hop. apply (runs_call op o); [apply HP; by left|done]. Qed.

Lemma runs_subscribe id conn playerID : keeps I (call (Subscribe id (subscriber conn playerID))).
Proof. apply (runs_call _ (OpSubscribe id (subscriber conn playerID))); [apply HP; right; eauto|]. intros m'. by right. Qed.

Lemma runs_unsubscribe id conn playerID : keeps I (call (Unsubscribe id (subscriber conn playerID))).
Proof. apply (runs_call _ (OpUnsubscribe id (subscriber conn playerID))); [apply HP; right; eauto|]. intros m'. by right. Qed.

Ltac leaf :=
  first
    [ apply (keeps_bump cf Compare _ runs_stable) | apply keeps_view | apply keeps_client
    | apply runs_subscribe | apply runs_unsubscribe | by intros sv Hsv
    | apply (keeps_quiet cf Compare _ runs_stable); done
    | match goal with
      | |- keeps _ (Http.call _ (State_ ?i)) => apply (keeps_acts cf Compare _ runs_stable _ (OpState i))
      | |- keeps _ (Http.call _ (MoveReqCtx _ ?x ?i ?p ?c ?r)) => apply (keeps_acts cf Compare _ runs_stable _ (OpMove x i p c r))
      | |- keeps _ (Http.call _ (Authenticate _ ?i ?p ?c)) => apply (keeps_acts cf Compare _ runs_stable _ (OpAuthenticate i p c))
      | |- keeps _ (Http.call _ (SetConnected ?i ?p ?b)) => apply (keeps_acts cf Compare _ runs_stable _ (OpSetConnected i p b))
      | |- keeps _ (Http.call _ (Chat _ ?i ?s ?p)) => apply (keeps_acts cf Compare _ runs_stable _ (OpChat i s p))
      end; [exact Logic.I|intros; simpl; rewrite ?run_state; reflexivity] ].

Lemma runs_event ev : (∀ o, ev = EvManager o → P o) → keeps I (run_event cf from_json sc Compare ev).
Proof.
  intros Hev. destruct ev as [r|ctx conn msg|conn|conn|o]; simpl.
  - apply keeps_bind; [|intros; apply keeps_ret]. apply (keeps_serve cf from_json sc Compare _ runs_stable).
    intros g matchID _. unfold handleWS, open_socket, spectators_refused, push_sync, sync_frame. keeps_walk ltac:(leaf).
  - unfold receive, handle_message, close_socket. keeps_walk ltac:(leaf).
  - unfold close_socket. keeps_walk ltac:(leaf).
  - keeps_walk ltac:(leaf).
  - apply keeps_bind; [|intros; apply keeps_ret]. apply (runs_call _ o); [by apply Hev|]. intros m'. by right.
Qed.
End runs.

(** Whatever requests, messages and ends of sockets a server sees, what they do to the
    match manager is a sequence of its operations: those the transport may ask for, and
    the ones that happen beside it. So every invariant of the manager's operations is an
    invariant of the server. *)
Theorem server_is_its_manager evs m :
  ∃ ops, sv_Manager (run_events evs (New m)) = serve_all cf ops m ∧
    ∀ o, o ∈ ops → client_op o ∨ EvManager o ∈ evs.
Proof.
  assert (Hall : ∀ rest sv, (∀ ev, ev ∈ rest → ev ∈ evs) → runs_from (λ o, client_op o ∨ EvManager o ∈ evs) m sv →
    runs_from (λ o, client_op o ∨ EvManager o ∈ evs) m (run_events rest sv)).
  { intros rest. induction rest as [|ev rest IH]; intros sv Hin Hsv; [done|]. apply IH; [intros e He; apply Hin; by right|].
    apply (runs_event _ m); [by left| |done]. intros o ->. right. apply Hin. by left. }
  destruct (Hall evs (New m)) as (ops & Hops & Hm); [done|by exists []|].
  exists ops. split; [done|]. by apply Forall_forall.
Qed.

(** ** What a move request answers *)

(** The match a move was made in, or its game, is not found again. *)
Definition unread matchID (m : Mgr) : Prop :=
  (∃ e, (State_ matchID m).1 = Err e) ∨
  ∃ mm m', State_ matchID m = (Ok mm, m') ∧ mg_games m' !! mt_GameName mm = None.

Lemma answer_view_run matchID playerID st sv r sv' : answer_view (deliver Compare) matchID playerID st sv = (Ok r, sv') →
  (∃ g w, r = PlayerView g st playerID w) ∨ (r = st ∧ unread matchID (sv_Manager sv)).
Proof.
  unfold answer_view. rewrite bind_eq. unfold Http.call at 1.
  destruct (State_ matchID (sv_Manager sv)) as [[mm|e| |] m1] eqn:HS; simpl; intros Hr; try done.
  - rewrite bind_eq in Hr. unfold Http.call, Game_, gets in Hr. simpl in Hr.
    destruct (mg_games m1 !! mt_GameName mm) as [g|] eqn:Hg.
    + injection Hr as <- _. left. by eexists _, _.
    + injection Hr as <- _. right. split; [done|]. right. by exists mm, m1.
  - injection Hr as <- _. right. split; [done|]. left. exists e. by rewrite HS.
Qed.

(** A move sent over HTTP is answered with 200 exactly when the manager accepts it, and
    then with the view of the player it names, or, should the match be gone by then, with
    the unredacted state; otherwise with the manager's error, or with 400 and nothing done
    when the body cannot be read. *)
Theorem move_answers ctx matchID body sv res sv' :
  handleMove cf from_json (deliver Compare) ctx matchID body sv = (Ok res, sv') →
  (∃ fields q state m1, body_fields body = Some fields ∧ read_move from_json fields = (q, true) ∧
    MoveReqCtx cf ctx matchID (mq_PlayerID q) (mq_Credentials q) (mq_request q) (sv_Manager sv) = (Ok state, m1) ∧
    rs_Status res = 200 ∧
    ((∃ g w, rs_Body res = BState (PlayerView g state (mq_PlayerID q) w)) ∨ (rs_Body res = BState state ∧ unread matchID m1))) ∨
  (∃ fields q e, body_fields body = Some fields ∧ read_move from_json fields = (q, true) ∧
    MoveReqCtx cf ctx matchID (mq_PlayerID q) (mq_Credentials q) (mq_request q) (sv_Manager sv) = (Err e, sv_Manager sv') ∧
    res = reply (error_status (FromManager e)) (BError (FromManager e)) ∧ rs_Status res ≠ 200) ∨
  ((∀ fields q, body_fields body = Some fields → read_move from_json fields ≠ (q, true)) ∧
    sv' = sv ∧ res = reply 400 (BError BadBody)).
Proof.
  unfold handleMove, with_body. destruct (body_fields body) as [fields|].
  2:{ intros [= <- <-]. right; right. by split. }
  destruct (read_move from_json fields) as [q []] eqn:Hq.
  2:{ intros [= <- <-]. right; right. split; [|done]. intros ? ? [= <-]. by rewrite Hq. }
  cbn [negb]. rewrite bind_eq. unfold Http.call at 1.
  destruct (MoveReqCtx cf ctx matchID _ _ _ (sv_Manager sv)) as [[state|e| |] m1] eqn:HM; intros H; try done.
  - left. rewrite bind_eq in H. unfold bump in H. cbv beta iota in H. rewrite bind_eq in H.
    destruct (answer_view _ _ _ _ _) as [[r|?| |] sv2] eqn:HA in H; try done. injection H as <- <-.
    apply answer_view_run in HA. exists fields, q, state, m1. split; [done|]. split; [done|]. split; [done|]. split; [done|].
    simpl in *. destruct HA as [(g & w & ->)|[-> Hu]]; [left; eauto|by right].
  - right; left. injection H as <- <-. exists fields, q, e. split; [done|]. split; [done|]. split; [done|]. split; [done|].
    simpl. unfold error_status. repeat case_match; done.
Qed.
End server.

(** ** Runs of a small server

    The counter game over memory, two players seated, any origin let in. *)
Definition open_door : ServerConfig := mkServerConfig ["*"] 0 (λ _, None) false.
Definition no_patches (prev next : State) : option () := None.
Definition no_values (j : json) : any := None.

Definition demo_server (evs : list (server_event (S:=mem_store))) : Server (S:=mem_store) (C:=Clients (patch:=())) :=
  run_events (demo_config false) no_values open_door no_patches evs (New (served false opening)).

Definition demo_answer (evs : list (server_event (S:=mem_store))) (r : Request) : option body :=
  match run_event (demo_config false) no_values open_door no_patches (EvHTTP r) (demo_server evs) with
  | (Ok (Some res), _) => Some (rs_Body res)
  | _ => None
  end.

Definition request (method path : string) (fields : list (string * json)) : Request :=
  mkRequest method path "" "" (Some (JObj fields)) 0 "" "" true ctxBackground.

Definition socket (playerID credentials : string) : Request :=
  mkRequest get "/games/counter/m1/ws" "" "websocket" None 0 playerID credentials true ctxBackground.

(** A move without credentials is played, for whoever it names. *)
Lemma anyone_can_move : ∃ v,
  demo_answer [] (request post "/games/counter/m1/move" [("playerID", JStr "0"); ("move", JStr "inc")]) = Some (BState v) ∧
  st_G v = Some 1 ∧ st_StateID v = 1.
Proof. eexists. split; [vm_compute; reflexivity|]. done. Qed.

(** Joining as a player who sits there hands out the player's credentials. *)
Lemma join_hands_out_credentials :
  demo_answer [] (request post "/games/counter/m1/join" [("playerName", JStr "eve"); ("playerID", JStr "0")]) =
  Some (BJoin (mkJoinResult "0" "0" "c2")).
Proof. vm_compute. reflexivity. Qed.

(** What anybody is told of a match holds its seed. *)
Lemma summary_tells_the_seed : ∃ s,
  demo_answer [] (request get "/games/counter/m1" []) = Some (BSummary s) ∧ ctx_Seed (ms_Ctx s) = 42.
Proof. eexists. split; [vm_compute; reflexivity|]. done. Qed.

(** A socket without credentials is refused; with them it gets its view and the moves. *)
Definition session : list (server_event (S:=mem_store)) :=
  [EvHTTP (socket "0" "wrong"); EvHTTP (socket "0" "c2"); EvHTTP (request post "/games/counter/m1/move"
     [("playerID", JStr "0"); ("credentials", JStr "c2"); ("move", JStr "inc")]); EvWrite 0; EvWrite 0; EvWrite 0].

Definition kinds (c : wsClient (T:=_) (patch:=())) : list string :=
  (λ f, match f with FSync _ _ _ => "sync" | FUpdate _ => "update" | FMatchData _ => "matchData" | FPatch _ _ _ => "patch"
        | FChat _ => "chat" | FError _ => "error" end) <$> wc_wire c.

Example a_session : (λ c, (wc_playerID c, kinds c)) <$> (map_to_list (cl_open (sv_clients (demo_server session)))).*2 =
  [("0", ["sync"; "matchData"; "update"])].
Proof. vm_compute. reflexivity. Qed.

(** The same session, the match made by the server's own operations. *)
Definition whole_session : list (server_event (S:=mem_store)) := (EvManager <$> [OpRegister counter_game]) ++
  [EvHTTP (request post "/games/counter/create" [("numPlayers", JNum (Some 2) "2")]);
   EvHTTP (request post "/games/counter/m1/join" [("playerName", JStr "ann")]);
   EvHTTP (request post "/games/counter/m1/join" [("playerName", JStr "bob")])] ++ session.

Definition whole_run : Server (S:=mem_store) (C:=Clients (patch:=())) :=
  run_events (demo_config false) no_values open_door no_patches whole_session (New (NewManager ∅ 0)).

Lemma some_client (o : option (wsClient (T:=ZTypes) (patch:=()))) p k :
  (λ c, (wc_playerID c, kinds c)) <$> o = Some (p, k) → ∃ c, o = Some c ∧ wc_playerID c = p ∧ kinds c = k.
Proof. destruct o as [c|]; [|done]. intros [= <- <-]. by exists c. Qed.

Lemma ann_is_sent : ∃ c, cl_open (sv_clients whole_run) !! 0 = Some c ∧
  wc_playerID c = "0" ∧ kinds c = ["sync"; "matchData"; "update"].
Proof. apply some_client. vm_compute. reflexivity. Qed.

Lemma sockets_are_authenticated_witness : ∃ r, hr_playerID r = "0" ∧ EvHTTP r ∈ whole_session.
Proof.
  destruct ann_is_sent as (c & Hc & Hp & _).
  destruct (sockets_are_authenticated (demo_config false) no_values open_door no_patches whole_session ∅ 0 0 c Hc)
    as (pre & r & post & g & Hevs & _ & Hr & _).
  exists r. split; [exact (eq_trans Hr Hp)|]. rewrite Hevs. apply elem_of_app. right. by left.
Defined.

Lemma session_subscribers : Forall (own_subscribers (λ g, g = rg_Game counter_game)) whole_session.
Proof. repeat constructor. Qed.

Lemma sockets_see_their_seat_witness : ∃ c : wsClient (T:=ZTypes) (patch:=()), kinds c = ["sync"; "matchData"; "update"] ∧
  ∀ v, FUpdate v ∈ wc_wire c ++ wc_out c →
    (∃ st w, v = PlayerView (rg_Game counter_game) st "0" w) ∧ ctx_Seed (st_Ctx v) = 0.
Proof.
  destruct ann_is_sent as (c & Hc & Hp & Hk). exists c. split; [exact Hk|]. intros v Hv.
  destruct (sockets_see_their_seat (demo_config false) no_values open_door no_patches (λ g, g = rg_Game counter_game)
    whole_session ∅ 0 0 c session_subscribers Hc (FUpdate v) Hv) as [H _].
  destruct (H v (or_introl eq_refl)) as ((g & st & w & -> & Hst) & Hseed & _). rewrite Hp in Hst.
  split; [by exists st, w|exact Hseed].
Defined.

Lemma slow_sockets_get_the_newest_witness : let fs := replicate 40 (FError ErrUnknownGame) ++ [FChat (mkChat "x" "0" None)] in
  wc_out (foldl (λ c f, enqueue f c) (newWSClient (T:=ZTypes) (patch:=()) "0" "m1") fs) = drop 9 fs.
Proof. intros fs. apply (slow_sockets_get_the_newest (patch:=()) fs (newWSClient "0" "m1")). simpl. lia. Defined.

Definition refused_move : ST (Server (S:=mem_store) (C:=Clients (patch:=()))) Empty_set Response :=
  handleMove (demo_config false) no_values (deliver no_patches) ctxBackground "m1"
    (Some (JObj [("playerID", JStr "1"); ("credentials", JStr "c9"); ("move", JStr "inc")])).

Lemma some_answer {Srv} (a : outcome Empty_set Response * Srv) st :
  match a.1 with Ok res => Some (rs_Status res) | _ => None end = Some st →
  ∃ res sv', a = (Ok res, sv') ∧ rs_Status res = st.
Proof. destruct a as [[res|?| |] sv']; intros [= <-]. by exists res, sv'. Qed.

Lemma wrong_credentials_401 : ∃ res sv', refused_move (demo_server []) = (Ok res, sv') ∧ rs_Status res = 401.
Proof. apply some_answer. vm_compute. reflexivity. Qed.

Lemma move_answers_witness : ∃ res sv' e, refused_move (demo_server []) = (Ok res, sv') ∧ rs_Status res = 401 ∧
  res = reply (error_status (FromManager e)) (BError (FromManager e)).
Proof.
  destruct wrong_credentials_401 as (res & sv' & HR & Hst). exists res, sv'.
  destruct (move_answers (demo_config false) no_values no_patches ctxBackground "m1" _ _ res sv' HR)
    as [(? & ? & ? & ? & _ & _ & _ & H & _)|[(? & ? & e & _ & _ & _ & H & _)|(_ & _ & H)]].
  - rewrite Hst in H. discriminate H.
  - exists e. exact (conj HR (conj Hst H)).
  - rewrite H in Hst. discriminate Hst.
Defined.
