(* ===== verification/Auth.v ===== *)
(** * Bearer tokens

    [src/mcp/auth.go]: the verifier of signed tokens with its cache of the issuer's keys,
    and the middleware that puts the verified user on a request.  The texts of JSON
    documents, SHA-256, the two signature schemes, the clock and the issuer's key endpoint
    are parameters.  One token is verified at a time.  The second half has what the verifier
    promises. *)

From S2P Require Import Prelude Json.
#[local] Open Scope Z_scope.

Inductive auth_error : Type :=
  | ErrSegments | ErrHeader | ErrUnsigned | ErrAlg | ErrNoKid | ErrClaims | ErrIssuer | ErrAudience
  | ErrExpired | ErrNotYet | ErrNoSub | ErrRefresh | ErrUnknownKid | ErrSignatureText | ErrSignature.

(** [*rsa.PublicKey], [*ecdsa.PublicKey] on P-256. *)
Inductive pubkey : Type := RSA (n e : Z) | EC (x y : Z).

(** ** Times

    A [time.Time] is its nanoseconds since year 1, 0 the zero time.  [time.Unix] wraps
    around in its 64-bit seconds, [Add] and [Sub] saturate. *)
Definition second : Z := 10 ^ 9.
Definition minute : Z := 60 * second.

Definition unix (sec : Z) : Z := wrap64 (sec + 62135596800) * second.

Definition t_add (t d : Z) : Z :=
  let sum := t + d in
  let sec := sum / second in
  (if decide (2 ^ 63 ≤ sec) then 2 ^ 63 - 1 else if decide (sec < - 2 ^ 63) then 1 - 2 ^ 63 else sec) * second + sum mod second.

Definition t_sub (t u : Z) : Z := Z.max (- 2 ^ 63) (Z.min (2 ^ 63 - 1) (t - u)).

(** ** jwk *)
Record jwk := mkJwk {
  k_Kty : string; k_Kid : string; k_Alg : string; k_Use : string;
  k_N : string; k_E : string; k_Crv : string; k_X : string; k_Y : string
}.

Definition read_jwk (j : json) : option jwk :=
  fields ← body_fields (Some j);
  let s := λ name, field "" as_string name fields in
  if (s "kty").2 && (s "kid").2 && (s "alg").2 && (s "use").2 && (s "n").2 && (s "e").2
     && (s "crv").2 && (s "x").2 && (s "y").2
  then Some (mkJwk (s "kty").1 (s "kid").1 (s "alg").1 (s "use").1 (s "n").1 (s "e").1 (s "crv").1 (s "x").1 (s "y").1)
  else None.

(** [e = e<<8 + int(b)] on 64 bits. *)
Definition exponent (bs : list Z) : Z := foldl (λ e b, wrap64 (Z.shiftl e 8 + b)) 0 bs.

(** An error and a key that is skipped are the same to the caller. *)
Definition toPublicKey (k : jwk) : option pubkey :=
  if bool_decide (k_Use k ≠ "") && bool_decide (k_Use k ≠ "sig") then None
  else if decide (k_Kty k = "RSA") then
    n ← base64_decode (k_N k);
    e ← base64_decode (k_E k);
    Some (RSA (be_int n) (exponent e))
  else if decide (k_Kty k = "EC") then
    if decide (k_Crv k ≠ "P-256") then None
    else
      x ← base64_decode (k_X k);
      y ← base64_decode (k_Y k);
      Some (EC (be_int x) (be_int y))
  else None.

(** The keys of a document: of two with one id the later counts. *)
Definition parse_keys (raws : list json) : gmap string pubkey :=
  foldl (λ parsed raw,
    match read_jwk raw with
    | None => parsed
    | Some k => match toPublicKey k with None => parsed | Some pk => <[k_Kid k := pk]> parsed end
    end) ∅ raws.

Definition as_list (j : json) : decoded (list json) :=
  match j with JNull => Put [] | JArr l => Put l | _ => Bad end.

(** [json.NewDecoder(resp.Body).Decode(&doc)] *)
Definition read_doc (body : option json) : option (list json) :=
  fields ← body_fields body;
  let '(keys, ok) := field [] as_list "keys" fields in
  if ok : bool then Some keys else None.

(** ** Claims *)
Definition as_audience (j : json) : decoded (list string) :=
  match j with
  | JStr s => Put [s]
  | JNull => Put [""]
  | JArr l =>
      match mapM (λ j, match as_string j with Put s => Some s | Keep => Some "" | Bad => None end) l with
      | Some ss => Put ss
      | None => Bad
      end
  | _ => Bad
  end.

Record jwt_header := mkHeader { hd_Alg : string; hd_Kid : string; hd_Typ : string }.
Record jwt_claims := mkClaims { cl_Iss : string; cl_Sub : string; cl_Aud : list string; cl_Exp : Z; cl_Nbf : Z }.

Definition read_header (j : json) : option jwt_header :=
  fields ← body_fields (Some j);
  let s := λ name, field "" as_string name fields in
  if (s "alg").2 && (s "kid").2 && (s "typ").2 then Some (mkHeader (s "alg").1 (s "kid").1 (s "typ").1) else None.

Definition read_claims (j : json) : option jwt_claims :=
  fields ← body_fields (Some j);
  let s := λ name, field "" as_string name fields in
  let aud := field [] as_audience "aud" fields in
  let n := λ name, field 0 as_int name fields in
  if (s "iss").2 && (s "sub").2 && aud.2 && (n "exp").2 && (n "nbf").2
  then Some (mkClaims (s "iss").1 (s "sub").1 aud.1 (n "exp").1 (n "nbf").1)
  else None.

Section jwt.
Context (parse : list Z → option json) (sha256 : string → list Z).
Context (rsa_verify : Z → Z → list Z → list Z → bool) (ecdsa_verify : Z → Z → list Z → Z → Z → bool).

(** The clock's readings, and what the key endpoint answers: nothing, or a status and a body. *)
Context (clock : nat → Z) (answer : nat → option (Z * option json)).

Record JWTVerifier := mkVerifier {
  jv_Issuer : string; jv_Audience : string; jv_Skew : Z; jv_CacheTTL : Z
}.
Context (v : JWTVerifier).

(** The verifier's mutable part; readings of the clock and fetches so far. *)
Record keyring := mkKeyring {
  kr_keys : gmap string pubkey;
  kr_fetchedAt : Z;
  kr_lastFetch : Z;
  kr_ticks : nat;
  kr_fetches : nat
}.
Definition fresh : keyring := mkKeyring ∅ 0 0 0 0.

Definition set_lastFetch (t : Z) (r : keyring) : keyring :=
  mkKeyring (kr_keys r) (kr_fetchedAt r) t (kr_ticks r) (kr_fetches r).
Definition set_keys (keys : gmap string pubkey) (t : Z) (r : keyring) : keyring :=
  mkKeyring keys t (kr_lastFetch r) (kr_ticks r) (kr_fetches r).

Abbreviation M := (ST keyring auth_error).

Definition now : M Z := λ r,
  (Ok (clock (kr_ticks r)),
   mkKeyring (kr_keys r) (kr_fetchedAt r) (kr_lastFetch r) (S (kr_ticks r)) (kr_fetches r)).

Definition get_keys : M keyring := λ r, (Ok r, r).
Definition modify_keys (f : keyring → keyring) : M () := λ r, (Ok tt, f r).

Definition fetch : M (option (Z * option json)) := λ r,
  (Ok (answer (kr_fetches r)),
   mkKeyring (kr_keys r) (kr_fetchedAt r) (kr_lastFetch r) (kr_ticks r) (S (kr_fetches r))).

Definition cacheTTL : Z := if decide (jv_CacheTTL v = 0) then 15 * minute else jv_CacheTTL v.

(** What a usable answer publishes. *)
Definition published (a : option (Z * option json)) : option (gmap string pubkey) :=
  match a with
  | Some (200, body) =>
      match read_doc body with
      | Some raws => let keys := parse_keys raws in if decide (keys = ∅) then None else Some keys
      | None => None
      end
  | _ => None
  end.

Definition refreshJWKS : M () :=
  r ← get_keys;
  limited ← (if decide (kr_lastFetch r = 0) then mret false
             else t ← now; mret (bool_decide (t_sub t (kr_lastFetch r) < minute)));
  if limited : bool then st_err ErrRefresh
  else
    t ← now;
    _ ← modify_keys (set_lastFetch t);
    a ← fetch;
    match published a with
    | None => st_err ErrRefresh
    | Some keys => t ← now; modify_keys (set_keys keys t)
    end.

Definition lookupKey (kid : string) : M pubkey :=
  r ← get_keys;
  let key := kr_keys r !! kid in
  stale ← (if decide (kr_fetchedAt r = 0) then mret true
           else t ← now; mret (bool_decide (cacheTTL < t_sub t (kr_fetchedAt r))));
  match key, stale with
  | Some pk, false => mret pk
  | _, _ =>
      refreshed ← st_try refreshJWKS;
      match refreshed, key with
      | inl _, Some pk => mret pk
      | inl e, None => st_err e
      | inr _, _ =>
          r ← get_keys;
          match kr_keys r !! kid with Some pk => mret pk | None => st_err ErrUnknownKid end
      end
  end.

Definition verifySignature (alg : string) (key : pubkey) (input : string) (sig : list Z) : bool :=
  let hash := sha256 input in
  if decide (alg = "RS256") then match key with RSA n e => rsa_verify n e hash sig | EC _ _ => false end
  else if decide (alg = "ES256") then
    match key with
    | EC x y =>
        bool_decide (length sig = 64%nat) && ecdsa_verify x y hash (be_int (take 32 sig)) (be_int (drop 32 sig))
    | RSA _ _ => false
    end
  else false.

Definition skew : Z := if decide (jv_Skew v = 0) then 30 * second else jv_Skew v.

Definition decode_json (s : string) : option json := bytes ← base64_decode s; parse bytes.

(** A value or an error. *)
Definition need {A} (o : option A) (e : auth_error) : M A := match o with Some a => mret a | None => st_err e end.
Definition refuse_if (b : bool) (e : auth_error) : M () := if b then st_err e else mret tt.

Definition check_alg (h : jwt_header) : M () :=
  if decide (hd_Alg h ∈ ["RS256"; "ES256"]) then mret tt
  else if decide (hd_Alg h ∈ [""; "none"]) then st_err ErrUnsigned
  else st_err ErrAlg.

Definition check_times (c : jwt_claims) (t : Z) : M () :=
  _ ← refuse_if (bool_decide (cl_Exp c ≠ 0) && bool_decide (t_add (unix (cl_Exp c)) skew < t)) ErrExpired;
  refuse_if (bool_decide (cl_Nbf c ≠ 0) && bool_decide (t_add t skew < unix (cl_Nbf c))) ErrNotYet.

Definition check_claims (c : jwt_claims) : M () :=
  _ ← refuse_if (bool_decide (jv_Issuer v ≠ "") && bool_decide (cl_Iss c ≠ jv_Issuer v)) ErrIssuer;
  _ ← refuse_if (bool_decide (jv_Audience v ≠ "") && negb (bool_decide (jv_Audience v ∈ cl_Aud c))) ErrAudience;
  t ← now;
  _ ← check_times c t;
  refuse_if (bool_decide (cl_Sub c = "")) ErrNoSub.

Definition Verify (token : string) : M string :=
  match split_on dot token with
  | [p0; p1; p2] =>
      h ← need (decode_json p0 ≫= read_header) ErrHeader;
      _ ← check_alg h;
      _ ← refuse_if (bool_decide (hd_Kid h = "")) ErrNoKid;
      c ← need (decode_json p1 ≫= read_claims) ErrClaims;
      _ ← check_claims c;
      key ← lookupKey (hd_Kid h);
      sig ← need (base64_decode p2) ErrSignatureText;
      _ ← refuse_if (negb (verifySignature (hd_Alg h) key (p0 +:+ "." +:+ p1) sig)) ErrSignature;
      mret (cl_Sub c)
  | _ => st_err ErrSegments
  end.
End jwt.

(** ** Verifiers and the middleware *)
Class TokenVerifier (V : Type) := tv_Verify : string → ST V auth_error string.

(** Single-tenant mode. *)
Record NoVerifier := mkNoVerifier { nv_Subject : string }.
#[export] Instance NoVerifier_Verify : TokenVerifier NoVerifier := λ _ n,
  (Ok (if decide (nv_Subject n = "") then "anonymous" else nv_Subject n), n).

Inductive refusal : Type := MissingToken | InvalidToken (e : auth_error).

(** A 401, or what the next handler does for the verified user. *)
Definition AuthMiddleware {V A} `{TokenVerifier V} (next : string → A) (authorization : string) : ST V Empty_set (refusal + A) :=
  match strip_prefix "Bearer " authorization with
  | None => mret (inl MissingToken)
  | Some token => λ v,
      match tv_Verify token v with
      | (Ok subject, v) => (Ok (inr (next subject)), v)
      | (Err e, v) => (Ok (inl (InvalidToken e)), v)
      | (Panicked, v) => (Panicked, v)
      | (NoFuel, v) => (NoFuel, v)
      end
  end.

(** ** What the verifier of bearer tokens promises *)

Ltac steps := repeat (rewrite bind_eq; simpl).

Section jwt.
Context (parse : list Z → option json) (sha256 : string → list Z).
Context (rsa_verify : Z → Z → list Z → list Z → bool) (ecdsa_verify : Z → Z → list Z → Z → Z → bool).
Context (clock : nat → Z) (answer : nat → option (Z * option json)) (v : JWTVerifier).
Abbreviation verify := (Verify parse sha256 rsa_verify ecdsa_verify clock answer v).
Abbreviation refresh := (refreshJWKS clock answer).
Abbreviation lookup := (lookupKey clock answer v).
Implicit Types (r : keyring).

(** Tokens verified one after another. *)
Definition verify_all (tokens : list string) (r : keyring) : keyring := foldl (λ r token, (verify token r).2) r tokens.

(** The keys in use are those of one answer of the issuer. *)
Definition vouched r (keys : gmap string pubkey) : Prop :=
  ∃ n, (n < kr_fetches r)%nat ∧ published (answer n) = Some keys.
Definition honest r : Prop := kr_keys r = ∅ ∨ vouched r (kr_keys r).

(** What a refresh does: nothing when it comes too soon, otherwise one fetch. *)
Lemma refresh_cases r :
  (kr_lastFetch r ≠ 0 ∧ t_sub (clock (kr_ticks r)) (kr_lastFetch r) < minute ∧
    refresh r = (Err ErrRefresh, mkKeyring (kr_keys r) (kr_fetchedAt r) (kr_lastFetch r) (S (kr_ticks r)) (kr_fetches r))) ∨
  (∃ k t, (kr_ticks r ≤ k)%nat ∧ t = clock k ∧
    (kr_lastFetch r = 0 ∨ minute ≤ t_sub (clock (kr_ticks r)) (kr_lastFetch r)) ∧
    match published (answer (kr_fetches r)) with
    | None => refresh r = (Err ErrRefresh, mkKeyring (kr_keys r) (kr_fetchedAt r) t (S k) (S (kr_fetches r)))
    | Some keys => refresh r = (Ok tt, mkKeyring keys (clock (S k)) t (S (S k)) (S (kr_fetches r)))
    end).
Proof.
  destruct r as [keys at_ last ticks fetches]. unfold refreshJWKS, get_keys, modify_keys, fetch, now, set_keys, set_lastFetch. simpl.
  rewrite bind_eq. cbn [kr_lastFetch]. destruct (decide (last = 0)) as [->|Hl].
  - right. exists ticks, (clock ticks). split; [lia|]. split; [done|]. split; [by left|].
    steps. by destruct (published (answer fetches)).
  - destruct (decide (t_sub (clock ticks) last < minute)) as [Hm|Hm].
    + left. split; [done|]. split; [done|]. steps. rewrite bool_decide_eq_true_2 by done. by steps.
    + right. exists (S ticks), (clock (S ticks)). split; [lia|]. split; [done|]. split; [right; lia|].
      steps. rewrite bool_decide_eq_false_2 by done. steps. by destruct (published (answer fetches)).
Qed.

(** Later in a run: more fetches, more readings. *)
Definition later r r' : Prop := (kr_fetches r ≤ kr_fetches r' ∧ kr_ticks r ≤ kr_ticks r')%nat.

Lemma later_refl r : later r r.
Proof. split; lia. Qed.

Lemma later_trans r1 r2 r3 : later r1 r2 → later r2 r3 → later r1 r3.
Proof. unfold later. lia. Qed.

Lemma vouched_later r r' keys : later r r' → vouched r keys → vouched r' keys.
Proof. intros [Hf _] (n & Hn & Hp). exists n. split; [lia|done]. Qed.

Lemma refresh_honest r : honest r → honest (refresh r).2 ∧ later r (refresh r).2.
Proof.
  intros Hr. destruct (refresh_cases r) as [(_ & _ & ->)|(k & t & Hk & -> & _ & Hres)].
  - split; [|split; simpl; lia]. destruct Hr as [?|Hv]; [by left|right]. apply (vouched_later r); [split; simpl; lia|done].
  - destruct (published (answer (kr_fetches r))) as [keys|] eqn:Hp; rewrite Hres; (split; [|split; simpl; lia]).
    + right. exists (kr_fetches r). split; [simpl; lia|done].
    + destruct Hr as [?|Hv]; [by left|right]. apply (vouched_later r); [split; simpl; lia|done].
Qed.

Definition with_tick r : keyring := mkKeyring (kr_keys r) (kr_fetchedAt r) (kr_lastFetch r) (S (kr_ticks r)) (kr_fetches r).

Lemma tick_later r : later r (with_tick r).
Proof. split; simpl; lia. Qed.

Lemma tick_honest r : honest r → honest (with_tick r).
Proof. intros [?|Hv]; [by left|right]. exact (vouched_later r _ _ (tick_later r) Hv). Qed.

(** The key a lookup finds is in an answer of the issuer. *)
Lemma lookup_facts kid r o r' : honest r → lookup kid r = (o, r') → honest r' ∧ later r r' ∧
  ∀ key, o = Ok key → ∃ keys, vouched r' keys ∧ keys !! kid = Some key.
Proof.
  intros Hr Hrun.
  assert (Hcached : ∀ r1 key, later r r1 → kr_keys r !! kid = Some key → ∃ keys, vouched r1 keys ∧ keys !! kid = Some key).
  { intros r1 key Hl Hk. destruct Hr as [He|Hv]; [by rewrite He, lookup_empty in Hk|].
    exists (kr_keys r). split; [exact (vouched_later r _ _ Hl Hv)|done]. }
  assert (Hrest : ∀ r1 o r', honest r1 → later r r1 →
    ((refreshed ← st_try refresh; match refreshed, kr_keys r !! kid with
        | inl _, Some pk => mret pk | inl e, None => st_err e
        | inr _, _ => r ← get_keys; match kr_keys r !! kid with Some pk => mret pk | None => st_err ErrUnknownKid end end)
      : ST keyring auth_error pubkey) r1 = (o, r') →
    honest r' ∧ later r r' ∧ ∀ key, o = Ok key → ∃ keys, vouched r' keys ∧ keys !! kid = Some key).
  { intros r1 o1 r1' Hr1 Hl1 H1. destruct (refresh_honest r1 Hr1) as [Hh Hl]. rewrite bind_eq in H1. unfold st_try in H1.
    assert (Hl2 : later r (refresh r1).2) by (eapply later_trans; eassumption).
    destruct (refresh r1) as [[[]|e| |] r2]; simpl in *.
    - rewrite bind_eq in H1. simpl in H1. destruct (kr_keys r2 !! kid) as [pk|] eqn:Hk; injection H1 as <- <-; [|done].
      split; [done|]. split; [done|]. intros key [= <-].
      destruct Hh as [He|Hv]; [by rewrite He, lookup_empty in Hk|]. by exists (kr_keys r2).
    - destruct (kr_keys r !! kid) as [pk|] eqn:Hk; injection H1 as <- <-; [|done].
      split; [done|]. split; [done|]. intros key [= <-]. by apply Hcached.
    - by injection H1 as <- <-.
    - by injection H1 as <- <-. }
  unfold lookupKey in Hrun. rewrite bind_eq in Hrun. unfold get_keys at 1 in Hrun. cbv beta iota zeta in Hrun.
  rewrite bind_eq in Hrun. destruct (decide (kr_fetchedAt r = 0)).
  - cbv beta iota in Hrun. apply (Hrest r); [done|apply later_refl|]. by destruct (kr_keys r !! kid).
  - rewrite bind_eq in Hrun. unfold now at 1 in Hrun. cbv beta iota zeta in Hrun. simpl in Hrun.
    destruct (bool_decide _).
    + apply (Hrest (with_tick r)); [by apply tick_honest|apply tick_later|]. by destruct (kr_keys r !! kid).
    + destruct (kr_keys r !! kid) as [pk|] eqn:Hk.
      * injection Hrun as <- <-. split; [by apply tick_honest|]. split; [apply tick_later|].
        intros key [= <-]. apply Hcached; [apply tick_later|done].
      * apply (Hrest (with_tick r)); [by apply tick_honest|apply tick_later|done].
Qed.

(** ** Accepted tokens *)

(** What the claims of a token must say at a time. *)
Definition claims_fit (t : Z) (c : jwt_claims) : Prop :=
  (jv_Issuer v = "" ∨ cl_Iss c = jv_Issuer v) ∧ (jv_Audience v = "" ∨ jv_Audience v ∈ cl_Aud c) ∧
  (cl_Exp c = 0 ∨ t ≤ t_add (unix (cl_Exp c)) (skew v)) ∧ (cl_Nbf c = 0 ∨ unix (cl_Nbf c) ≤ t_add t (skew v)) ∧
  cl_Sub c ≠ "".

(** A signature by a key of the algorithm's own kind. *)
Definition signed_by (alg : string) (key : pubkey) (input : string) (sig : list Z) : Prop :=
  (alg = "RS256" ∧ ∃ n e, key = RSA n e ∧ rsa_verify n e (sha256 input) sig = true) ∨
  (alg = "ES256" ∧ ∃ x y, key = EC x y ∧ length sig = 64%nat ∧
    ecdsa_verify x y (sha256 input) (be_int (take 32 sig)) (be_int (drop 32 sig)) = true).

Lemma verifySignature_iff alg key input sig :
  verifySignature sha256 rsa_verify ecdsa_verify alg key input sig = true ↔ signed_by alg key input sig.
Proof.
  unfold verifySignature, signed_by. destruct (decide (alg = "RS256")) as [->|Hr].
  { destruct key; naive_solver. }
  destruct (decide (alg = "ES256")) as [->|He]; [|naive_solver].
  destruct key as [n e|x y]; [naive_solver|]. rewrite andb_true_iff, bool_decide_eq_true. naive_solver.
Qed.

Lemma refuse_if_passed b e r u r' : (refuse_if b e : ST keyring auth_error ()) r = (Ok u, r') → b = false ∧ r' = r.
Proof. destruct b; [done|]. by intros [= _ <-]. Qed.

Lemma need_Ok {A} (o : option A) e r a r' : (need o e : ST keyring auth_error A) r = (Ok a, r') → o = Some a ∧ r' = r.
Proof. destruct o; [|done]. by intros [= -> <-]. Qed.

Lemma check_alg_Ok h r u r' : check_alg h r = (Ok u, r') → r' = r.
Proof. unfold check_alg. repeat case_decide; try done. by intros [= _ <-]. Qed.

Lemma opt_false (P Q : Prop) `{Decision P, Decision Q} : bool_decide P && bool_decide Q = false ↔ ¬ P ∨ ¬ Q.
Proof. rewrite andb_false_iff, !bool_decide_eq_false. done. Qed.

Lemma check_claims_Ok c r u r' : check_claims clock v c r = (Ok u, r') →
  claims_fit (clock (kr_ticks r)) c ∧ r' = with_tick r.
Proof.
  unfold check_claims, check_times. intros (? & ? & [H1 ->]%refuse_if_passed & H)%bind_Ok.
  apply bind_Ok in H as (? & ? & [H2 ->]%refuse_if_passed & H). apply bind_Ok in H as (t & r1 & Ht & H).
  injection Ht as <- <-. apply bind_Ok in H as (? & ? & H & [H5 ->]%refuse_if_passed).
  apply bind_Ok in H as (? & ? & [H3 ->]%refuse_if_passed & [H4 ->]%refuse_if_passed).
  split; [|done]. rewrite <-bool_decide_not in H2. apply opt_false in H1, H2, H3, H4.
  apply bool_decide_eq_false in H5.
  split; [destruct H1; [left; by apply dec_stable|right; by apply dec_stable]|].
  split; [destruct H2 as [?|H2]; [left; by apply dec_stable|right; by apply dec_stable]|].
  split; [destruct H3; [left; lia|right; lia]|]. split; [destruct H4; [left; lia|right; lia]|done].
Qed.

(** Everything a verification that succeeds has checked. *)
Lemma verify_inv token r sub r' : verify token r = (Ok sub, r') → ∃ p0 p1 p2 h c sig key,
  split_on dot token = [p0; p1; p2] ∧
  (decode_json parse p0 ≫= read_header) = Some h ∧ (decode_json parse p1 ≫= read_claims) = Some c ∧
  base64_decode p2 = Some sig ∧ sub = cl_Sub c ∧ claims_fit (clock (kr_ticks r)) c ∧
  lookup (hd_Kid h) (with_tick r) = (Ok key, r') ∧ signed_by (hd_Alg h) key (p0 +:+ "." +:+ p1) sig.
Proof.
  unfold Verify. destruct (split_on dot token) as [|p0 [|p1 [|p2 [|]]]] eqn:Hs; try done.
  intros (h & ? & [Hh ->]%need_Ok & H)%bind_Ok. apply bind_Ok in H as (? & ? & Ha & H).
  apply check_alg_Ok in Ha as ->.
  apply bind_Ok in H as (? & ? & [_ ->]%refuse_if_passed & H). apply bind_Ok in H as (c & ? & [Hc ->]%need_Ok & H).
  apply bind_Ok in H as (? & ? & [Hfit ->]%check_claims_Ok & H). apply bind_Ok in H as (key & r1 & Hk & H).
  apply bind_Ok in H as (sig & ? & [Hsig ->]%need_Ok & H). apply bind_Ok in H as (? & ? & [Hv ->]%refuse_if_passed & H).
  apply ret_Ok in H as [<- <-]. apply negb_false_iff, verifySignature_iff in Hv.
  by exists p0, p1, p2, h, c, sig, key.
Qed.

(** ** Invariants of the cache

    What a reading of the clock and a refresh keep, a verification keeps. *)
Section invariant.
Context (I : keyring → Prop) (Htick : ∀ r, I r → I (with_tick r)) (Hrefresh : keeps I refresh).

Lemma keeps_pure {A} (m : ST keyring auth_error A) : (∀ r, (m r).2 = r) → keeps I m.
Proof. intros Hm r Hr. by rewrite Hm. Qed.

Lemma keeps_tried {A} (m : ST keyring auth_error A) : keeps I m → keeps I (st_try m).
Proof. intros Hm r Hr. specialize (Hm r Hr). unfold st_try. by destruct (m r) as [[a|e| |] r']. Qed.

Ltac walk := repeat first
  [ exact Htick | apply keeps_tried; exact Hrefresh
  | apply keeps_bind; [|intros ?]
  | apply keeps_pure; intros ?; unfold need, refuse_if, check_alg; by repeat case_match
  | case_match ].

Lemma keeps_verify token : keeps I (verify token).
Proof. unfold Verify, check_claims, check_times, lookupKey. walk. Qed.

Lemma keeps_verify_all tokens r : I r → I (verify_all tokens r).
Proof. revert r. induction tokens as [|token tokens IH]; intros r Hr; [done|]. by apply IH, keeps_verify. Qed.
End invariant.

(** C39: Whatever tokens a verifier has seen, it accepts one only for the subject of claims that
    fit its settings at the time, signed, under the algorithm's own kind of key, by a key
    the issuer's endpoint has published under the token's key id. *)
Theorem accepted_tokens_are_signed tokens token sub r' :
  let r := verify_all tokens fresh in
  verify token r = (Ok sub, r') →
  ∃ p0 p1 p2 h c sig key keys n,
    token = p0 +:+ String dot (p1 +:+ String dot p2) ∧
    (decode_json parse p0 ≫= read_header) = Some h ∧ (decode_json parse p1 ≫= read_claims) = Some c ∧
    base64_decode p2 = Some sig ∧
    sub = cl_Sub c ∧ claims_fit (clock (kr_ticks r)) c ∧
    (n < kr_fetches r')%nat ∧ published (answer n) = Some keys ∧ keys !! hd_Kid h = Some key ∧
    signed_by (hd_Alg h) key (p0 +:+ "." +:+ p1) sig.
Proof.
  intros r (p0 & p1 & p2 & h & c & sig & key & Hs & Hh & Hc & Hsig & Hsub & Hfit & Hk & Hv)%verify_inv.
  pose proof (keeps_verify_all honest tick_honest (λ r Hr, proj1 (refresh_honest r Hr)) tokens fresh (or_introl eq_refl)) as Hr.
  destruct (lookup_facts _ _ _ _ (tick_honest _ Hr) Hk) as (_ & _ & Hkey).
  destruct (Hkey key eq_refl) as (keys & (n & Hn & Hp) & Hin).
  exists p0, p1, p2, h, c, sig, key, keys, n. split; [by apply split_three|]. done.
Qed.

(** ** Fetches *)
Definition paced r : Prop := kr_fetches r = 0%nat ∨
  ∃ k, (k < kr_ticks r)%nat ∧ kr_lastFetch r = clock k ∧ clock 0 + (Z.of_nat (kr_fetches r) - 1) * minute ≤ clock k.

Lemma paced_tick r : paced r → paced (with_tick r).
Proof. intros [?|(k & Hk & Hl & Hc)]; [by left|right]. exists k. split; [simpl; lia|done]. Qed.

Lemma t_sub_minute t u : minute ≤ t_sub t u → minute ≤ t - u.
Proof.
  unfold t_sub, minute, second. assert (2 ^ 63 = 9223372036854775808) as -> by reflexivity.
  assert (10 ^ 9 = 1000000000) as -> by reflexivity. lia.
Qed.

Section monotone.
Context (Hmono : ∀ i j, (i ≤ j)%nat → clock i ≤ clock j) (Hstart : 0 < clock 0).

Lemma paced_refresh : keeps paced refresh.
Proof.
  intros r Hr. assert (Hm : 0 < minute) by reflexivity.
  destruct (refresh_cases r) as [(_ & _ & ->)|(k & t & Hk & -> & Hlimit & Hres)]; [by apply paced_tick|].
  assert (Hgap : clock 0 + Z.of_nat (kr_fetches r) * minute ≤ clock k).
  { assert (H0 := Hmono 0 k ltac:(lia)). assert (Ht := Hmono (kr_ticks r) k Hk).
    destruct Hr as [->|(k0 & Hk0 & Hl & Hc)]; [lia|]. rewrite Hl in Hlimit.
    destruct Hlimit as [He|Hge%t_sub_minute]; [|lia]. assert (H1 := Hmono 0 k0 ltac:(lia)). lia. }
  destruct (published _); rewrite Hres; right; exists k; simpl; (split; [lia|split; [done|lia]]).
Qed.

(** The issuer's endpoint is asked at most once a minute, however many tokens arrive and
    whatever they are: the fetches are at most one more than the minutes between the first
    and the last reading of the clock. *)
Theorem fetches_are_limited tokens :
  let r := verify_all tokens fresh in
  Z.of_nat (kr_fetches r) ≤ 1 + (clock (kr_ticks r) - clock 0) / minute.
Proof.
  intros r. assert (Hp : paced r).
  { apply keeps_verify_all; [apply paced_tick|apply paced_refresh|by left]. }
  assert (Hm : 0 < minute) by reflexivity. assert (H0 := Hmono 0 (kr_ticks r) ltac:(lia)).
  assert (0 ≤ (clock (kr_ticks r) - clock 0) / minute) by (apply Z.div_pos; lia).
  destruct Hp as [->|(k & Hk & _ & Hc)]; [lia|]. assert (Hle := Hmono k (kr_ticks r) ltac:(lia)).
  enough (Z.of_nat (kr_fetches r) - 1 ≤ (clock (kr_ticks r) - clock 0) / minute) by lia.
  apply Z.div_le_lower_bound; lia.
Qed.
End monotone.
End jwt.

(** ** A small issuer

    The text of a document is its name; a signature is good when it is the number the key
    is made of. *)
Definition toy_parse (bs : list Z) : option json :=
  if decide (bs = [104]) then Some (JObj [("alg", JStr "RS256"); ("kid", JStr "k1")])
  else if decide (bs = [99]) then Some (JObj [("iss", JStr "me"); ("sub", JStr "ann"); ("exp", JNum (Some 1700000000) "1700000000")])
  else None.

Definition toy_jwks : json := JObj [("keys", JArr [JObj [("kty", JStr "RSA"); ("kid", JStr "k1"); ("n", JStr "Bw"); ("e", JStr "Aw")]])].
Definition toy_rsa (n e : Z) (hash sig : list Z) : bool := bool_decide (sig = [n; e]).
Definition toy_clock (i : nat) : Z := unix 1699999990 + Z.of_nat i * second.
Definition toy_answer (i : nat) : option (Z * option json) := if decide (i = 0%nat) then Some (200, Some toy_jwks) else None.
Definition toy_verifier : JWTVerifier := mkVerifier "me" "" 0 0.
Definition toy_token : string := "aA.Yw.BwM".

Abbreviation toy_verify := (Verify toy_parse (λ _, []) toy_rsa (λ _ _ _ _ _, false) toy_clock toy_answer toy_verifier).
Abbreviation toy_all := (verify_all toy_parse (λ _, []) toy_rsa (λ _ _ _ _ _, false) toy_clock toy_answer toy_verifier).

(** The key is fetched once; a token with another signature is refused, and one with another key id
    does not make the verifier ask again so soon. *)
Example toy_runs : (toy_verify toy_token fresh).1 = Ok "ann" ∧
  (toy_verify "aA.Yw.BwQ" (toy_all [toy_token] fresh)).1 = Err ErrSignature ∧
  kr_fetches (toy_all [toy_token; "aA.Yw.BwQ"; toy_token] fresh) = 1%nat.
Proof. vm_compute. done. Qed.

Lemma some_verdict (p : outcome auth_error string * keyring) sub : p.1 = Ok sub → ∃ r', p = (Ok sub, r').
Proof. destruct p as [o r']. simpl. intros ->. by exists r'. Qed.

Lemma toy_accepts : ∃ r', toy_verify toy_token (toy_all [toy_token] fresh) = (Ok "ann", r').
Proof. apply some_verdict. vm_compute. reflexivity. Qed.

Lemma accepted_tokens_are_signed_witness : ∃ keys n key, published (toy_answer n) = Some keys ∧ keys !! "k1" = Some key.
Proof.
  destruct toy_accepts as [r' Hr].
  destruct (accepted_tokens_are_signed toy_parse (λ _, []) toy_rsa (λ _ _ _ _ _, false) toy_clock toy_answer toy_verifier
    [toy_token] toy_token "ann" r' Hr) as (p0 & p1 & p2 & h & c & sig & key & keys & n & Htok & Hh & _ & _ & _ & _ & _ & Hp & Hk & Hsg).
  exists keys, n, key. split; [exact Hp|].
  assert (Hkid : hd_Kid h = "k1").
  { clear Hr. unfold decode_json in Hh. destruct (base64_decode p0) as [bs|]; [|discriminate Hh].
    simpl in Hh. unfold toy_parse in Hh. repeat case_decide; simpl in Hh; try discriminate Hh; injection Hh as <-; [reflexivity|].
    destruct Hsg as [[Ha _]|[Ha _]]; discriminate Ha. }
  rewrite <-Hkid. exact Hk.
Defined.

Lemma fetches_are_limited_witness : Z.of_nat (kr_fetches (toy_all (replicate 3 toy_token) fresh)) ≤ 1 + 7 * second / minute.
Proof.
  etrans; [apply (fetches_are_limited toy_parse (λ _, []) toy_rsa (λ _ _ _ _ _, false) toy_clock toy_answer toy_verifier)|].
  - intros i j Hij. unfold toy_clock. assert (0 < second) by reflexivity. nia.
  - reflexivity.
  - vm_compute. discriminate.
Defined.
