(* ===== verification/GameSpec.v ===== *)
(** * Script values and specs

    [src/mcp/starlarkgame]: conv.go, legal_move_key.go and spec.go.  The interpreter is a third
    party's; of its values this is what the code looks at.  [F] names the functions a
    script defines. *)

From Stdlib Require Import SpecFloat.
From S2P Require Import Prelude Choices Json.
#[local] Open Scope Z_scope.

(** [starlark.Value].  Ints are unbounded; a dict is its entries in insertion order, of
    distinct keys; [SOther] is any value of another type. *)
Inductive star (F : Type) : Type :=
  | SNone
  | SBool (b : bool)
  | SInt (n : Z)
  | SFloat (f : spec_float)
  | SString (s : string)
  | SList (l : list (star F))
  | STuple (l : list (star F))
  | SDict (m : list (star F * star F))
  | SFun (f : F)
  | SOther (type : string).
Arguments SNone {F}.
Arguments SBool {F}.
Arguments SInt {F}.
Arguments SFloat {F}.
Arguments SString {F}.
Arguments SList {F}.
Arguments STuple {F}.
Arguments SDict {F}.
Arguments SFun {F}.
Arguments SOther {F}.

Definition is_int64 (n : Z) : Prop := - 2 ^ 63 ≤ n < 2 ^ 63.
#[export] Instance is_int64_dec n : Decision (is_int64 n).
Proof. apply _. Defined.

Definition go_int64 (n : Z) : GoVal := GoInt "" KInt64 n.

Inductive conv_error : Type := ErrOverflow | ErrKey | ErrUnsupported.

Section conv.
Context {F : Type}.
Abbreviation star := (star F).

(** [d.Get(starlark.String(key))] *)
Definition dict_get (key : string) (m : list (star * star)) : option star :=
  snd <$> List.find (λ e, match e.1 with SString s => bool_decide (s = key) | _ => false end) m.

Fixpoint ToGo (v : star) : outcome conv_error GoVal :=
  match v with
  | SNone => Ok GoNil
  | SBool b => Ok (GoBool b)
  | SInt n => if decide (is_int64 n) then Ok (go_int64 n) else Err ErrOverflow
  | SFloat f => Ok (GoFloat "" f)
  | SString s => Ok (GoString s)
  | SList l | STuple l =>
      gs ← mapM ToGo l; Ok (GoSlice gs)
  | SDict m =>
      gs ← mapM (λ e, match e with (SString k, v) => g ← ToGo v; Ok (k, g) | _ => Err ErrKey end) m;
      Ok (GoMap gs)
  | SFun _ | SOther _ => Err ErrUnsupported
  end.

Fixpoint ToStarlark (v : GoVal) : outcome conv_error star :=
  match v with
  | GoNil => Ok SNone
  | GoBool b => Ok (SBool b)
  | GoInt "" KInt n | GoInt "" KInt64 n => Ok (SInt n)
  | GoFloat "" f => Ok (SFloat f)
  | GoString s => Ok (SString s)
  | GoSlice l =>
      ss ← mapM ToStarlark l; Ok (SList ss)
  | GoMap m =>
      ss ← mapM (λ '(k, v), s ← ToStarlark v; Ok (SString k, s)) m; Ok (SDict ss)
  | _ => Err ErrUnsupported
  end.
End conv.

(** A lookup in a [map[string]any]. *)
Definition map_get (key : string) (m : list (string * GoVal)) : option GoVal :=
  snd <$> List.find (λ e, bool_decide (e.1 = key)) m.

(** ** legal_move_key.go *)
Definition legalMoveName (entry : list (string * GoVal)) : string :=
  match map_get "move" entry, map_get "name" entry with
  | Some (GoString v), n =>
      if decide (v ≠ "") then v else match n with Some (GoString v) => v | _ => "" end
  | _, Some (GoString v) => v
  | _, _ => ""
  end.

(** ** What survives the trip through a script

    Integers come back as int64 whatever they were. *)
Inductive scriptable : GoVal → Prop :=
  | sc_nil : scriptable GoNil
  | sc_bool b : scriptable (GoBool b)
  | sc_int n : is_int64 n → scriptable (GoInt "" KInt n)
  | sc_int64 n : is_int64 n → scriptable (GoInt "" KInt64 n)
  | sc_float f : scriptable (GoFloat "" f)
  | sc_string s : scriptable (GoString s)
  | sc_slice l : Forall scriptable l → scriptable (GoSlice l)
  | sc_map m : Forall (λ e, scriptable e.2) m → scriptable (GoMap m).

Fixpoint widen (v : GoVal) : GoVal :=
  match v with
  | GoInt "" KInt n => go_int64 n
  | GoSlice l => GoSlice (widen <$> l)
  | GoMap m => GoMap ((λ '(k, v), (k, widen v)) <$> m)
  | v => v
  end.

Section induction.
Context (P : GoVal → Prop) (Hnil : P GoNil) (Hbool : ∀ b, P (GoBool b)) (Hint : ∀ n, is_int64 n → P (GoInt "" KInt n))
  (Hint64 : ∀ n, is_int64 n → P (GoInt "" KInt64 n)) (Hfloat : ∀ f, P (GoFloat "" f)) (Hstring : ∀ s, P (GoString s))
  (Hslice : ∀ l, Forall P l → P (GoSlice l)) (Hmap : ∀ m, Forall (λ e, P e.2) m → P (GoMap m)).

Lemma scriptable_ind_nested v : scriptable v → P v.
Proof.
  revert v. fix IH 2. intros v [| | | | | |l Hl|m Hm]; auto.
  - apply Hslice. induction Hl as [|u l Hu _ IHl]; constructor; auto.
  - apply Hmap. induction Hm as [|e m Hv _ IHm]; constructor; auto.
Qed.
End induction.

(** What ToStarlark makes of it. *)
Lemma to_starlark_total {F} v : scriptable v → ∃ s : star F, ToStarlark v = Ok s ∧ ToGo s = Ok (widen v).
Proof.
  revert v. apply scriptable_ind_nested; try by (intros; eexists; split; [reflexivity|]).
  - intros n Hn. exists (SInt n). split; [done|]. simpl. by rewrite decide_True.
  - intros n Hn. exists (SInt n). split; [done|]. simpl. by rewrite decide_True.
  - intros l Hl. assert (∃ ss : list (star F), mapM ToStarlark l = Ok ss ∧ mapM ToGo ss = Ok (widen <$> l)) as (ss & H1 & H2).
    { induction Hl as [|v l (s & Hs & Hg) _ (ss & H1 & H2)]; [by exists []|].
      exists (s :: ss). simpl. rewrite Hs. simpl. rewrite H1. simpl. rewrite Hg. simpl. by rewrite H2. }
    exists (SList ss). simpl. rewrite H1. simpl. by rewrite H2.
  - intros m Hm. assert (∃ ss : list (star F * star F),
      mapM (λ '(k, v), s ← ToStarlark v; Ok (SString k, s)) m = Ok ss ∧
      mapM (λ e, match e with (SString k, v) => g ← ToGo v; Ok (k, g) | _ => Err ErrKey end) ss = Ok ((λ '(k, v), (k, widen v)) <$> m))
      as (ss & H1 & H2).
    { induction Hm as [|[k v] m (s & Hs & Hg) _ (ss & H1 & H2)]; [by exists []|].
      exists ((SString k, s) :: ss). simpl in *. rewrite Hs. simpl. rewrite H1. simpl. rewrite Hg. simpl. by rewrite H2. }
    exists (SDict ss). simpl. rewrite H1. simpl. by rewrite H2.
Qed.

(** A value of the shapes a script's state is made of comes back from the trip into a
    script and out of it as it was, but for ints, which come back as int64. *)
Theorem conversions_roundtrip {F} v : scriptable v →
  ∃ s : star F, ToStarlark v = Ok s ∧ ToGo s = Ok (widen v) ∧ ToStarlark (widen v) = Ok s.
Proof.
  intros Hv. destruct (@to_starlark_total F v Hv) as (s & H1 & H2). exists s. split; [done|]. split; [done|].
  rewrite <-H1. clear H1 H2 s. revert v Hv. apply (scriptable_ind_nested (λ v, ToStarlark (widen v) = ToStarlark v)); try done.
  - intros l Hl. assert (mapM (M:=outcome conv_error) ToStarlark (widen <$> l) = mapM (B:=star F) ToStarlark l) as Heq.
    { induction Hl as [|v l Hv _ IH]; [done|]. rewrite fmap_cons. simpl. by rewrite Hv, IH. }
    simpl in *. by rewrite Heq.
  - intros m Hm. simpl. set (f := λ e : string * GoVal, let '(k, v) := e in s ← ToStarlark (F:=F) v; Ok (SString k, s)).
    assert (Heq : mapM (M:=outcome conv_error) f ((λ '(k, v), (k, widen v)) <$> m) = mapM f m).
    { induction Hm as [|[k v] m Hv _ IH]; [done|]. rewrite fmap_cons. simpl in *. by rewrite Hv, IH. }
    by rewrite Heq.
Qed.

Lemma conversions_roundtrip_witness : ∃ s : star Empty_set,
  ToStarlark (GoMap [("deck", GoSlice [GoInt "" KInt 3; GoNil])]) = Ok s ∧
  ToGo s = Ok (GoMap [("deck", GoSlice [GoInt "" KInt64 3; GoNil])]).
Proof.
  destruct (@conversions_roundtrip Empty_set (GoMap [("deck", GoSlice [GoInt "" KInt 3; GoNil])])) as (s & H1 & H2 & _).
  - constructor. constructor; [|constructor]. simpl. constructor.
    constructor; [apply sc_int; split; [discriminate|reflexivity]|]. constructor; [apply sc_nil|constructor].
  - exists s. split; [exact H1|exact H2].
Defined.

(** ** Game specs written as scripts

    [src/mcp/starlarkgame]: spec.go, argvalidate.go's declarations and skill_skeleton.go's
    data.  Running a script's top level, with its limit on steps, is the interpreter's. *)

(** ** Data *)
Record ArgDef := mkArgDef {
  ad_Name : string; ad_Type : string; ad_Min : option Z; ad_Max : option Z; ad_Zone : string
}.

Record ScriptMove (F : Type) := mkScriptMove {
  sm_Name : string; sm_ArgsDef : list ArgDef; sm_Apply : F; sm_EndsTurn : bool
}.
Arguments mkScriptMove {F}.
Arguments sm_Name {F}.
Arguments sm_ArgsDef {F}.
Arguments sm_Apply {F}.
Arguments sm_EndsTurn {F}.

Record ScriptPhase (F : Type) := mkScriptPhase {
  sp_Name : string; sp_Moves : gmap string (ScriptMove F); sp_EndIf : option F; sp_Start : bool
}.
Arguments mkScriptPhase {F}.
Arguments sp_Name {F}.
Arguments sp_Moves {F}.
Arguments sp_EndIf {F}.
Arguments sp_Start {F}.

Record ScriptStage (F : Type) := mkScriptStage {
  ss_Name : string; ss_Moves : gmap string (ScriptMove F); ss_Next : string
}.
Arguments mkScriptStage {F}.
Arguments ss_Name {F}.
Arguments ss_Moves {F}.
Arguments ss_Next {F}.

Record Meta := mkMeta { me_Name : string; me_MinPlayers : Z; me_MaxPlayers : Z; me_Description : string }.

Record Spec (F : Type) := mkSpec {
  sp_Meta : Meta;
  sp_Setup : F;
  sp_AllMoves : gmap string (ScriptMove F);
  sp_GameEndIf : F;
  sp_LegalMoves : F;
  sp_PlayerView : option F;
  sp_Phases : gmap string (ScriptPhase F);
  sp_StartPhase : string;
  sp_Stages : gmap string (ScriptStage F);
  sp_Modules : list string;
  sp_Hooks : list (string * F);
  sp_source : string
}.
Arguments mkSpec {F}.
Arguments sp_Meta {F}.
Arguments sp_Setup {F}.
Arguments sp_AllMoves {F}.
Arguments sp_GameEndIf {F}.
Arguments sp_LegalMoves {F}.
Arguments sp_PlayerView {F}.
Arguments sp_Phases {F}.
Arguments sp_StartPhase {F}.
Arguments sp_Stages {F}.
Arguments sp_Modules {F}.
Arguments sp_Hooks {F}.
Arguments sp_source {F}.

Inductive spec_error : Type :=
  | ErrParse
  | ErrMissing (what : string)
  | ErrType (what : string)
  | ErrName
  | ErrPlayers
  | ErrEmptyMoves
  | ErrTwoStarts
  | ErrNoStart
  | ErrUnknownModule (name : string)
  | ErrNeedsCCG (name : string)
  | ErrIn (place : string) (e : spec_error).

Section spec.
Context {F : Type}.
Abbreviation value := (star F).
Abbreviation dict := (list (star F * star F)).
Abbreviation O := (outcome spec_error).

Definition within {A} (place : string) (o : O A) : O A :=
  match o with Err e => Err (ErrIn place e) | o => o end.

(** [starlark.Int.Int64]: 0 where the number does not fit. *)
Definition int64_or_0 (n : Z) : Z := if decide (is_int64 n) then n else 0.

(** ** META *)
Definition pick_string (key : string) (d : dict) : O string :=
  match dict_get key d with
  | None => Err (ErrMissing key)
  | Some (SString s) => Ok s
  | Some _ => Err (ErrType key)
  end.

Definition pick_int (key : string) (d : dict) : O Z :=
  match dict_get key d with
  | None => Err (ErrMissing key)
  | Some (SInt n) => Ok (int64_or_0 n)
  | Some _ => Err (ErrType key)
  end.

Definition readMeta (globals : gmap string value) : O Meta :=
  match globals !! "META" with
  | None => Err (ErrMissing "META")
  | Some (SDict d) =>
      name ← pick_string "name" d;
      min ← pick_int "min_players" d;
      max ← pick_int "max_players" d;
      let description := match dict_get "description" d with Some (SString s) => s | _ => "" end in
      if decide (min < 1 ∨ max < min ∨ 16 < max) then Err ErrPlayers
      else Ok (mkMeta name min max description)
  | Some _ => Err (ErrType "META")
  end.

(** [^[a-z0-9-]{1,40}$] *)
Definition name_char (c : Ascii.ascii) : Prop :=
  let n := byte_of c in 97 ≤ n ≤ 122 ∨ 48 ≤ n ≤ 57 ∨ n = 45.
#[global] Instance name_char_dec c : Decision (name_char c).
Proof. unfold name_char. apply _. Defined.

Definition nameRe (s : string) : Prop :=
  (1 ≤ String.length s ≤ 40)%nat ∧ Forall name_char (String.list_ascii_of_string s).
#[global] Instance nameRe_dec s : Decision (nameRe s).
Proof. unfold nameRe. apply _. Defined.

(** ** Moves *)
Definition readArgDef (v : value) : O ArgDef :=
  match v with
  | SDict d =>
      let str := λ key, match dict_get key d with Some (SString s) => s | _ => "" end in
      let num := λ key, match dict_get key d with Some (SInt n) => Some (int64_or_0 n) | _ => None end in
      Ok (mkArgDef (str "name") (str "type") (num "min") (num "max") (str "zone"))
  | _ => Err (ErrType "arg def")
  end.

Definition readMove (name : string) (v : value) : O (ScriptMove F) :=
  match v with
  | SDict d =>
      apply ← match dict_get "apply" d with
              | None => Err (ErrMissing "apply")
              | Some (SFun f) => Ok f
              | Some _ => Err (ErrType "apply")
              end;
      ends ← match dict_get "ends_turn" d with
             | None => Ok true
             | Some (SBool b) => Ok b
             | Some _ => Err (ErrType "ends_turn")
             end;
      args ← match dict_get "args" d with
             | None => Ok []
             | Some (SList l) => mapM readArgDef l
             | Some _ => Err (ErrType "args")
             end;
      Ok (mkScriptMove name args apply ends)
  | _ => Err (ErrType "move")
  end.

(** The entries of a table, read in order; a key must be a string. *)
Fixpoint read_table {A} (table : string) (read : string → value → O A) (d : dict) (acc : gmap string A) : O (gmap string A) :=
  match d with
  | [] => Ok acc
  | (SString k, v) :: d => a ← within k (read k v); read_table table read d (<[k := a]> acc)
  | _ => Err (ErrType table)
  end.

(** A table of at least one move. *)
Definition read_moves (v : option value) : O (gmap string (ScriptMove F)) :=
  match v with
  | None => Err (ErrMissing "moves")
  | Some (SDict d) =>
      moves ← read_table "moves" readMove d ∅;
      if decide (moves = ∅) then Err ErrEmptyMoves else Ok moves
  | Some _ => Err (ErrType "moves")
  end.

(** ** PHASES and STAGES *)
Definition readPhase (name : string) (v : value) : O (ScriptPhase F) :=
  match v with
  | SDict d =>
      moves ← read_moves (dict_get "moves" d);
      end_if ← match dict_get "end_if" d with
               | None => Ok None
               | Some (SFun f) => Ok (Some f)
               | Some _ => Err (ErrType "end_if")
               end;
      start ← match dict_get "start" d with
              | None => Ok false
              | Some (SBool b) => Ok b
              | Some _ => Err (ErrType "start")
              end;
      Ok (mkScriptPhase name moves end_if start)
  | _ => Err (ErrType "phase")
  end.

(** The phases and the start phase; two marked start are refused as the second is read. *)
Fixpoint read_phases (d : dict) (acc : gmap string (ScriptPhase F)) (start : string) : O (gmap string (ScriptPhase F) * string) :=
  match d with
  | [] => Ok (acc, start)
  | (SString k, v) :: d =>
      ph ← within k (readPhase k v);
      if sp_Start ph then
        if decide (start ≠ "") then Err ErrTwoStarts else read_phases d (<[k := ph]> acc) k
      else read_phases d (<[k := ph]> acc) start
  | _ => Err (ErrType "PHASES")
  end.

Definition readPhases (globals : gmap string value) : O (gmap string (ScriptPhase F) * string) :=
  match globals !! "PHASES" with
  | None | Some (SDict []) => Ok (∅, "")
  | Some (SDict d) =>
      r ← read_phases d ∅ "";
      if decide (r.2 = "") then Err ErrNoStart else Ok r
  | Some _ => Err (ErrType "PHASES")
  end.

Definition readStage (name : string) (v : value) : O (ScriptStage F) :=
  match v with
  | SDict d =>
      moves ← read_moves (dict_get "moves" d);
      next ← match dict_get "next" d with
             | None => Ok ""
             | Some (SString s) => Ok s
             | Some _ => Err (ErrType "next")
             end;
      Ok (mkScriptStage name moves next)
  | _ => Err (ErrType "stage")
  end.

Definition readStages (globals : gmap string value) : O (gmap string (ScriptStage F)) :=
  match globals !! "STAGES" with
  | None => Ok ∅
  | Some (SDict d) => read_table "STAGES" readStage d ∅
  | Some _ => Err (ErrType "STAGES")
  end.

(** ** MODULES and HOOKS *)
Definition knownModules : list string := ["ccg"; "tabletop"; "economy"; "shop"].

Fixpoint module_names (l : list value) : O (list string) :=
  match l with
  | [] => Ok []
  | SString name :: l =>
      if decide (name ∈ knownModules) then rest ← module_names l; Ok (name :: rest) else Err (ErrUnknownModule name)
  | _ => Err (ErrType "MODULES")
  end.

Definition readModules (globals : gmap string value) : O (list string) :=
  match globals !! "MODULES" with
  | None => Ok []
  | Some (SList l) =>
      names ← module_names l;
      match List.find (λ m, bool_decide (m ∈ ["economy"; "shop"]) && negb (bool_decide ("ccg" ∈ names))) names with
      | Some m => Err (ErrNeedsCCG m)
      | None => Ok names
      end
  | Some _ => Err (ErrType "MODULES")
  end.

Fixpoint read_hooks (d : dict) : O (list (string * F)) :=
  match d with
  | [] => Ok []
  | (SString k, SFun f) :: d => rest ← read_hooks d; Ok ((k, f) :: rest)
  | _ => Err (ErrType "HOOKS")
  end.

Definition readHooks (globals : gmap string value) (modules : list string) : O (list (string * F)) :=
  match globals !! "HOOKS" with
  | None | Some (SDict []) => Ok []
  | Some (SDict d) => if decide ("ccg" ∈ modules) then read_hooks d else Err (ErrNeedsCCG "HOOKS")
  | Some _ => Err (ErrType "HOOKS")
  end.

(** ** LoadSpec *)
Definition the_function (name : string) (globals : gmap string value) : O F :=
  match globals !! name with
  | None => Err (ErrMissing name)
  | Some (SFun f) => Ok f
  | Some _ => Err (ErrType name)
  end.

Definition spec_of (source : string) (globals : gmap string value) : O (Spec F) :=
  meta ← readMeta globals;
  if decide (¬ nameRe (me_Name meta)) then Err ErrName
  else
    setup ← the_function "setup" globals;
    end_if ← the_function "end_if" globals;
    legal ← the_function "legal_moves" globals;
    view ← match globals !! "player_view" with
           | None => Ok None
           | Some (SFun f) => Ok (Some f)
           | Some _ => Err (ErrType "player_view")
           end;
    moves ← read_moves (globals !! "MOVES");
    phases ← readPhases globals;
    stages ← readStages globals;
    modules ← readModules globals;
    hooks ← readHooks globals modules;
    Ok (mkSpec meta setup moves end_if legal view phases.1 phases.2 stages modules hooks source).

(** [exec_file] runs a script's top level: its globals, or none on an error. *)
Definition LoadSpec (exec_file : string → option (gmap string value)) (source : string) : O (Spec F) :=
  match exec_file source with
  | None => Err ErrParse
  | Some globals => spec_of source globals
  end.
End spec.
