(* ===== verification/Bridge.v ===== *)
(** * The modules as scripts and tools call them

    [src/mcp/modulebridge]: handles.go, registry.go, ccg.go, economy.go, shop.go,
    tabletop.go and regions.go.  An operation takes its arguments as a map of plain values
    and works on the live states of all modules, kept by name, and the generator of the
    call.  Handlers that a script's HOOKS subscribe are not modelled, so publishing an
    event runs none. *)

From Stdlib Require Import SpecFloat.
From stdpp Require Import pretty.
From S2P Require Import Prelude Random Choices Cards Economy Effects Tabletop Regions Shop Json GameSpec.
#[local] Open Scope Z_scope.

(** ** handles.go *)
Definition token (prefix : string) (id : Z) : string := prefix +:+ pretty (Z.to_N id).
Definition EntityToken : Z → string := token "ent:".
Definition ModifierToken : Z → string := token "mod:".
Definition EffectToken : Z → string := token "eff:".

Fixpoint parse_digits (acc : Z) (s : string) : option Z :=
  match s with
  | EmptyString => Some acc
  | String c s => if decide (48 ≤ byte_of c ≤ 57) then parse_digits (10 * acc + (byte_of c - 48)) s else None
  end.

(** [strconv.ParseUint(s, 10, 64)] *)
Definition ParseUint (s : string) : option Z :=
  if decide (s = "") then None
  else n ← parse_digits 0 s; if decide (n < 2 ^ 64) then Some n else None.

Definition parse_token (prefix tok : string) : option Z := strip_prefix prefix tok ≫= ParseUint.
Definition ParseEntityToken : string → option Z := parse_token "ent:".
Definition ParseModifierToken : string → option Z := parse_token "mod:".
Definition ParseEffectToken : string → option Z := parse_token "eff:".

(** ** Live states *)
Record tabletopState := mkTable { tt_Space : TState; tt_Board : option board; tt_Terrain : TerrainMap }.
Definition newTabletopState : tabletopState := mkTable NewTState None ∅.

Definition CardState : Type := Cards.State Empty_set.
Definition no_hooks (h : Empty_set) (ev : Event) (s : CardState) : option CardState := Some s.

(** [MRaw] is what no module could be made of again. *)
Inductive modstate : Type :=
  | MCards (s : CardState)
  | MTabletop (s : tabletopState)
  | MRegions (m : option RMap)
  | MEmpty
  | MRaw (v : GoVal).

Definition modules := gmap string modstate.

(** registry.go: [NewState] *)
Definition NewModule (name : string) : option modstate :=
  if decide (name = "ccg") then Some (MCards Cards.NewState)
  else if decide (name = "tabletop") then Some (MTabletop newTabletopState)
  else if decide (name = "regions") then Some (MRegions None)
  else if decide (name ∈ ["economy"; "shop"]) then Some MEmpty
  else None.

Inductive op_error : Type :=
  | ErrState (module : string)
  | ErrArg (key : string)
  | ErrBadHandle
  | ErrBadOp (what : string)
  | ErrNoBoard
  | ErrNoMap
  | ErrNoRNG
  | ErrBadRegions
  | ErrBadRule
  | ErrUnknownEffect
  | FromCards (e : ccg_error)
  | FromRegions (e : region_error).

(** The states, and the generator's word where the call has one. *)
Definition mod_state : Type := modules * option Z.
Abbreviation M := (ST mod_state op_error).
Definition args := list (string * GoVal).

Record Op := mkOp {
  op_Module : string; op_Name : string; op_MCPTool : string; op_ReadOnly : bool; op_Call : args → M GoVal
}.

Definition reads_ (m n : string) (call : args → M GoVal) : Op := mkOp m n (m +:+ "_" +:+ n) true call.
Definition writes_ (m n : string) (call : args → M GoVal) : Op := mkOp m n (m +:+ "_" +:+ n) false call.

(** ** Arguments *)
Definition argStr (a : args) (key : string) : M string :=
  match map_get key a with Some (GoString s) => mret s | _ => st_err (ErrArg key) end.
Definition argBool (a : args) (key : string) : bool :=
  match map_get key a with Some (GoBool b) => b | _ => false end.
Definition to_coord (v : option GoVal) : option Z := v ≫= to_int.
Definition argInt (a : args) (key : string) : M Z :=
  match to_coord (map_get key a) with Some n => mret n | None => st_err (ErrArg key) end.
(** [v, _ := args[key].(string)] *)
Definition strOr (a : args) (key : string) : string :=
  match map_get key a with Some (GoString s) => s | _ => "" end.
Definition mapOr (a : args) (key : string) : option args :=
  match map_get key a with Some (GoMap m) => Some m | _ => None end.
Definition listOr (a : args) (key : string) : option (list GoVal) :=
  match map_get key a with Some (GoSlice l) => Some l | _ => None end.
(** An int where it is given and one, else 0. *)
Definition intOr (a : args) (key : string) : Z := default 0 (to_coord (map_get key a)).

Definition handle (parse : string → option Z) (tok : string) : M Z :=
  match parse tok with Some id => mret id | None => st_err ErrBadHandle end.
Definition argEntityID (a : args) (key : string) : M EntityID := tok ← argStr a key; handle ParseEntityToken tok.
Definition optEntityID (a : args) (key : string) : M EntityID :=
  let tok := strOr a key in if decide (tok = "") then mret 0 else handle ParseEntityToken tok.

(** Attribute values: a map is one of its own. *)
Definition attr_of (v : GoVal) : attr := match v with GoMap m => AMap (list_to_map m) | v => AVal v end.
Definition val_of (v : attr) : GoVal :=
  match v with
  | AVal v => v
  | AMap m => GoMap (map_to_list m)
  | ACounts _ => GoOther "map[string]int" 0
  end.
Definition attrs_of (m : args) : gmap string attr := list_to_map ((λ '(k, v), (k, attr_of v)) <$> m).

(** [normalizeNum] *)
Definition normalizeNum (v : GoVal) : GoVal := match v with GoInt "" KInt n => go_int64 n | v => v end.

Definition tokens (f : Z → string) (ids : list Z) : GoVal := GoSlice ((λ id, GoString (f id)) <$> ids).

(** ** ccg.go *)
Definition lift_cards {A} (o : outcome ccg_error A) : outcome op_error A :=
  match o with Ok a => Ok a | Err e => Err (FromCards e) | Panicked => Panicked | NoFuel => NoFuel end.

(** [ccgFrom], and an operation on what it finds. *)
Definition ccgFrom : M CardState := λ st,
  match st.1 !! "ccg" with Some (MCards s) => (Ok s, st) | _ => (Err (ErrState "ccg"), st) end.

Definition on_ccg {A} (m : ST CardState ccg_error A) : M A := λ st,
  match st.1 !! "ccg" with
  | Some (MCards s) => let '(o, s') := m s in (lift_cards o, (<["ccg" := MCards s']> st.1, st.2))
  | _ => (Err (ErrState "ccg"), st)
  end.

(** The op of an action that returns nothing. *)
Definition nothing {A} (m : M A) : M GoVal := _ ← m; mret GoNil.

Definition ccg_new_zone := writes_ "ccg" "new_zone" (λ a,
  _ ← ccgFrom; name ← argStr a "name"; nothing (on_ccg (NewZone name (argBool a "ordered")))).

Definition ccg_new_entity := writes_ "ccg" "new_entity" (λ a,
  _ ← ccgFrom; typ ← argStr a "type";
  id ← on_ccg (NewEntity typ (strOr a "owner") (attrs_of (default [] (mapOr a "attrs"))));
  mret (GoString (EntityToken id))).

Definition ccg_move_to := writes_ "ccg" "move_to" (λ a,
  _ ← ccgFrom; id ← argEntityID a "entity"; zone ← argStr a "zone"; nothing (on_ccg (MoveTo id zone))).

Definition ccg_size := reads_ "ccg" "size" (λ a,
  s ← ccgFrom; zone ← argStr a "zone"; mret (go_int64 (Size zone s))).

Definition ccg_members := reads_ "ccg" "members" (λ a,
  s ← ccgFrom; zone ← argStr a "zone";
  match Zones s !! zone with
  | None => st_err (FromCards ErrUnknownZone)
  | Some z => mret (tokens EntityToken (zn_Members z))
  end).

Definition ccg_draw := writes_ "ccg" "draw" (λ a,
  _ ← ccgFrom; zone ← argStr a "zone"; n ← argInt a "n";
  drawn ← on_ccg (Draw zone n); mret (tokens EntityToken drawn)).

(** A token that is given must be one. *)
Definition ccg_publish := writes_ "ccg" "publish" (λ a,
  _ ← ccgFrom; typ ← argStr a "type"; source ← optEntityID a "source"; target ← optEntityID a "target";
  nothing (on_ccg (Publish no_hooks (mkEvent typ source target (list_to_map (default [] (mapOr a "data"))))))).

Definition need_rng : M Z := λ st, match st.2 with Some r => (Ok r, st) | None => (Err ErrNoRNG, st) end.

(** The cards and the generator move on together. *)
Definition shuffle_zone (zone : ZoneName) (r : Z) : M () := λ st,
  match st.1 !! "ccg" with
  | Some (MCards s) =>
      let '(o, (s', r')) := ShuffleZone zone (s, r) in
      (lift_cards o, (<["ccg" := MCards s']> st.1, Some r'))
  | _ => (Err (ErrState "ccg"), st)
  end.

Definition ccg_shuffle := writes_ "ccg" "shuffle" (λ a,
  _ ← ccgFrom; r ← need_rng; zone ← argStr a "zone"; nothing (shuffle_zone zone r)).

Definition modifier_op (name : string) : option string :=
  if decide (name = "set") then Some OpSet else if decide (name = "add") then Some OpAdd
  else if decide (name = "mul") then Some OpMultiply else None.

(** A list of strings, or of tokens. *)
Fixpoint strings (l : list GoVal) : option (list string) :=
  match l with
  | [] => Some []
  | GoString s :: l => cons s <$> strings l
  | _ => None
  end.

Definition string_list (a : args) (key : string) : M (list string) :=
  match listOr a key with
  | None => mret []
  | Some l => match strings l with Some ss => mret ss | None => st_err (ErrArg key) end
  end.

Definition ccg_add_modifier := writes_ "ccg" "add_modifier" (λ a,
  _ ← ccgFrom; target ← argEntityID a "target"; attribute ← argStr a "attribute"; opName ← argStr a "op";
  match modifier_op opName with
  | None => st_err (ErrBadOp opName)
  | Some mop =>
      source ← optEntityID a "source"; expires ← optEntityID a "expires_with";
      layer ← (match map_get "layer" a with None => mret 0 | Some _ => argInt a "layer" end);
      while_in ← string_list a "while_in";
      id ← on_ccg (AddModifier (mkModifier 0 source layer target attribute mop
        (attr_of (default GoNil (map_get "value" a))) (strOr a "note") 0 expires while_in));
      mret (GoString (ModifierToken id))
  end).

Definition ccg_remove_modifier := writes_ "ccg" "remove_modifier" (λ a,
  _ ← ccgFrom; tok ← argStr a "modifier"; id ← handle ParseModifierToken tok; nothing (on_ccg (RemoveModifier id))).

Definition ccg_sweep_modifiers := writes_ "ccg" "sweep_modifiers" (λ _,
  _ ← ccgFrom; removed ← on_ccg SweepModifiers; mret (tokens ModifierToken removed)).

Definition ccg_effective_attr := reads_ "ccg" "effective_attr" (λ a,
  s ← ccgFrom; id ← argEntityID a "entity"; name ← argStr a "attr";
  mret (normalizeNum (val_of (EffectiveAttr id name (attr_of (default GoNil (map_get "default" a))) s)))).

Definition counter_args (a : args) : M (EntityID * string * Z) :=
  _ ← ccgFrom; id ← argEntityID a "entity"; kind ← argStr a "kind"; n ← argInt a "n"; mret (id, kind, n).

Definition ccg_add_counter := writes_ "ccg" "add_counter" (λ a,
  '(id, kind, n) ← counter_args a; nothing (on_ccg (AddCounter no_hooks id kind n))).
Definition ccg_remove_counter := writes_ "ccg" "remove_counter" (λ a,
  '(id, kind, n) ← counter_args a; nothing (on_ccg (RemoveCounter no_hooks id kind n))).
Definition ccg_counters := reads_ "ccg" "counters" (λ a,
  s ← ccgFrom; id ← argEntityID a "entity"; kind ← argStr a "kind"; mret (go_int64 (Counters id kind s))).

Fixpoint target_tokens (l : list GoVal) : M (list EntityID) :=
  match l with
  | [] => mret []
  | GoString tok :: l => id ← handle ParseEntityToken tok; ids ← target_tokens l; mret (id :: ids)
  | _ => st_err (ErrArg "targets")
  end.

Definition effectFromArgs (a : args) : M Effect :=
  kind ← argStr a "kind"; source ← optEntityID a "source"; target ← optEntityID a "target";
  targets ← target_tokens (default [] (listOr a "targets"));
  mret (mkEffect 0 source (strOr a "controller") kind target targets
    (list_to_map (default [] (mapOr a "data"))) false (strOr a "tag")).

(** Fields with their zero value are left out. *)
Definition effectToMap (e : Effect) : GoVal :=
  GoMap ([("id", GoString (EffectToken (ef_ID e))); ("kind", GoString (ef_Kind e))]
    ++ (if decide (ef_Source e = 0) then [] else [("source", GoString (EntityToken (ef_Source e)))])
    ++ (if decide (ef_Controller e = "") then [] else [("controller", GoString (ef_Controller e))])
    ++ (if decide (ef_Target e = 0) then [] else [("target", GoString (EntityToken (ef_Target e)))])
    ++ (if decide (ef_Targets e = []) then [] else [("targets", tokens EntityToken (ef_Targets e))])
    ++ (if decide (ef_Data e = ∅) then [] else [("data", GoMap (map_to_list (ef_Data e)))])
    ++ (if ef_Countered e then [("countered", GoBool true)] else [])
    ++ (if decide (ef_Tag e = "") then [] else [("tag", GoString (ef_Tag e))])).

Definition ccg_push_effect := writes_ "ccg" "push_effect" (λ a,
  _ ← ccgFrom; eff ← effectFromArgs a;
  id ← on_ccg (if argBool a "front" then PushEffectFront no_hooks eff else PushEffect no_hooks eff);
  mret (GoString (EffectToken id))).

Definition effect_arg (a : args) : M Z := _ ← ccgFrom; tok ← argStr a "effect"; handle ParseEffectToken tok.
Definition known_effect (m : M bool) : M GoVal := b ← m; if b : bool then mret GoNil else st_err ErrUnknownEffect.

Definition ccg_remove_effect := writes_ "ccg" "remove_effect" (λ a,
  id ← effect_arg a; known_effect (on_ccg (RemoveEffect no_hooks id))).
Definition ccg_replace_effect := writes_ "ccg" "replace_effect" (λ a,
  id ← effect_arg a; next ← effectFromArgs a; known_effect (on_ccg (ReplaceEffect no_hooks id next))).
Definition ccg_pending_effects := reads_ "ccg" "pending_effects" (λ _,
  s ← ccgFrom; mret (GoSlice (effectToMap <$> PendingEffects s))).

Definition ccg_clone := writes_ "ccg" "clone" (λ a,
  _ ← ccgFrom; id ← argEntityID a "entity"; owner ← argStr a "owner";
  nid ← on_ccg (Clone id owner (attrs_of (default [] (mapOr a "overrides"))));
  mret (GoString (EntityToken nid))).

Definition ccg_set_controller := writes_ "ccg" "set_controller" (λ a,
  _ ← ccgFrom; id ← argEntityID a "entity"; nothing (on_ccg (SetController id (strOr a "controller")))).

Definition visibilityNames (name : string) : option Visibility :=
  if decide (name = "public") then Some Public else if decide (name = "owner_only") then Some OwnerOnly
  else if decide (name = "hidden") then Some Hidden else None.

Definition ccg_set_visibility := writes_ "ccg" "set_visibility" (λ a,
  _ ← ccgFrom; id ← argEntityID a "entity"; name ← argStr a "visibility";
  match visibilityNames name with
  | None => st_err (ErrBadOp name)
  | Some v => nothing (on_ccg (SetVisibility id v))
  end).

Definition ccg_reveal_to := writes_ "ccg" "reveal_to" (λ a,
  _ ← ccgFrom; id ← argEntityID a "entity";
  match listOr a "viewers" ≫= strings with
  | None => st_err (ErrArg "viewers")
  | Some viewers => nothing (on_ccg (RevealTo id viewers))
  end).

Definition ccg_conceal_from := writes_ "ccg" "conceal_from" (λ a,
  _ ← ccgFrom; id ← argEntityID a "entity"; viewer ← argStr a "viewer"; nothing (on_ccg (ConcealFrom id viewer))).

Definition ccg_set_mask := writes_ "ccg" "set_mask" (λ a,
  _ ← ccgFrom; id ← argEntityID a "entity"; nothing (on_ccg (SetMask id (attrs_of (default [] (mapOr a "mask")))))).

(** A predicate where its argument is given. *)
Definition preds_of (name : string) (f : string → list (Entity → bool) → list (Entity → bool)) (a : args)
    (q : list (Entity → bool)) : list (Entity → bool) :=
  let v := strOr a name in if decide (v = "") then q else f v q.

Definition bound_of (a : args) (key bound : string) (f : string → Z → list (Entity → bool) → list (Entity → bool))
    (q : list (Entity → bool)) : M (list (Entity → bool)) :=
  match mapOr a key with
  | None => mret q
  | Some spec => attr ← argStr spec "attr"; n ← argInt spec bound; mret (f attr n q)
  end.

(** The two bounds are looked at in an order Go does not fix. *)
Definition ccg_query := reads_ "ccg" "query" (λ a,
  s ← ccgFrom;
  let q := preds_of "zone" InZone a [] in
  let q := preds_of "type" HasType a q in
  let q := preds_of "controlled_by" Controlled a q in
  let q := preds_of "not_controlled_by" NotControlled a q in
  let q := preds_of "owned_by" OwnedBy a q in
  q ← bound_of a "attr_at_least" "min" (AttrAtLeast s) q;
  q ← bound_of a "attr_at_most" "max" (AttrAtMost s) q;
  mret (tokens EntityToken (Find s q))).

Definition ccg_peek := reads_ "ccg" "peek" (λ a,
  s ← ccgFrom; zone ← argStr a "zone"; n ← argInt a "n";
  ids ← st_lift (lift_cards (Peek zone n s).1); mret (tokens EntityToken ids)).

Definition ccg_ops : list Op :=
  [ccg_new_zone; ccg_new_entity; ccg_move_to; ccg_size; ccg_members; ccg_draw; ccg_publish; ccg_shuffle;
   ccg_add_modifier; ccg_remove_modifier; ccg_sweep_modifiers; ccg_effective_attr; ccg_add_counter;
   ccg_remove_counter; ccg_counters; ccg_push_effect; ccg_remove_effect; ccg_replace_effect;
   ccg_pending_effects; ccg_clone; ccg_set_controller; ccg_set_visibility; ccg_reveal_to; ccg_conceal_from;
   ccg_set_mask; ccg_query; ccg_peek].

(** ** The other modules as scripts and tools call them

    [src/mcp/modulebridge]: economy.go, shop.go, tabletop.go, regions.go and the tables of
    registry.go.  An economy and a shop have no state of their own: their operations work
    on the cards. *)

(** An optional number that is not one is passed over. *)
Definition soft_int (a : args) (key : string) : Z := default 0 (to_coord (map_get key a)).

(** ** economy.go *)
Definition poolFrom (a : args) : M (Pool * CardState) :=
  s ← ccgFrom; owner ← argEntityID a "owner"; kind ← argStr a "kind";
  mret (mkPool owner kind (soft_int a "cap") false, s).

Definition economy_current := reads_ "economy" "current" (λ a,
  '(p, s) ← poolFrom a; mret (go_int64 (Current p s))).
Definition economy_gain := writes_ "economy" "gain" (λ a,
  '(p, _) ← poolFrom a; n ← argInt a "n"; got ← on_ccg (Gain no_hooks p n); mret (go_int64 got)).
Definition economy_spend := writes_ "economy" "spend" (λ a,
  '(p, _) ← poolFrom a; n ← argInt a "n"; nothing (on_ccg (Spend no_hooks p n))).
Definition economy_set := writes_ "economy" "set" (λ a,
  '(p, _) ← poolFrom a; n ← argInt a "n"; got ← on_ccg (Set_ no_hooks p n); mret (go_int64 got)).
Definition economy_scaled := reads_ "economy" "scaled" (λ a,
  turn ← argInt a "turn"; base ← argInt a "base"; per ← argInt a "per";
  mret (go_int64 (Scaled turn base per (soft_int a "max")))).

Definition economy_ops : list Op := [economy_current; economy_gain; economy_spend; economy_set; economy_scaled].

(** ** shop.go *)
Definition shopFrom (a : args) : M Shop :=
  slots ← argStr a "slots"; mret (mkShop slots (strOr a "stock") (soft_int a "size")).

Definition shop_clear := writes_ "shop" "clear" (λ a,
  _ ← ccgFrom; sh ← shopFrom a; nothing (on_ccg (Clear sh (strOr a "dest")))).
Definition shop_fill := writes_ "shop" "fill" (λ a,
  _ ← ccgFrom; sh ← shopFrom a; nothing (on_ccg (Fill sh))).
Definition shop_roll := writes_ "shop" "roll" (λ a,
  _ ← ccgFrom; sh ← shopFrom a; nothing (on_ccg (Reroll sh (strOr a "dest")))).
Definition shop_buy := writes_ "shop" "buy" (λ a,
  _ ← ccgFrom; sh ← shopFrom a; item ← argEntityID a "item"; dest ← argStr a "dest"; nothing (on_ccg (Buy sh item dest))).
Definition shop_freeze := writes_ "shop" "freeze" (λ a,
  _ ← ccgFrom; sh ← shopFrom a; item ← argEntityID a "item"; nothing (on_ccg (Freeze sh item))).
Definition shop_unfreeze := writes_ "shop" "unfreeze" (λ a,
  _ ← ccgFrom; item ← argEntityID a "item"; nothing (on_ccg (Unfreeze item))).
Definition shop_is_frozen := reads_ "shop" "is_frozen" (λ a,
  s ← ccgFrom; item ← argEntityID a "item"; mret (GoBool (IsFrozen item s))).

Definition shop_ops : list Op :=
  [shop_clear; shop_fill; shop_roll; shop_buy; shop_freeze; shop_unfreeze; shop_is_frozen].

(** ** tabletop.go *)
Definition tabletopFrom : M tabletopState := λ st,
  match st.1 !! "tabletop" with Some (MTabletop s) => (Ok s, st) | _ => (Err (ErrState "tabletop"), st) end.

Definition put_tabletop (s : tabletopState) : M () := λ st, (Ok tt, (<["tabletop" := MTabletop s]> st.1, st.2)).
Definition set_space (f : TState → TState) (s : tabletopState) : tabletopState :=
  mkTable (f (tt_Space s)) (tt_Board s) (tt_Terrain s).

Definition the_board (s : tabletopState) : M board :=
  match tt_Board s with Some b => mret b | None => st_err ErrNoBoard end.

Definition pos (a : args) (xKey yKey : string) : M Pos := x ← argInt a xKey; y ← argInt a yKey; mret (mkPos x y).
Definition posList (p : Pos) : GoVal := GoSlice [go_int64 (pX p); go_int64 (pY p)].
Definition unit_ids (units : list UnitID) : GoVal := GoSlice (go_int64 <$> units).

(** The interface, on whichever board it is. *)
Definition board_Distance (b : board) : Pos → Pos → Z :=
  match b with BSquare b => Distance b | BHex b => Distance b end.
Definition board_Neighbors (b : board) : Pos → list Pos :=
  match b with BSquare b => Neighbors b | BHex b => Neighbors b end.
Definition board_Within (b : board) : Pos → Z → TState → list UnitID :=
  match b with BSquare b => Within b | BHex b => Within b end.
Definition board_LineOfSight (b : board) : Pos → Pos → option (Pos → bool) → option bool :=
  match b with BSquare b => LineOfSight b | BHex b => LineOfSight b end.

Definition board_of (kind : string) (w h : Z) : option board :=
  if decide (kind = "square") then Some (BSquare (NewSquareBoard w h))
  else if decide (kind = "hex") then Some (BHex (NewHexBoard w h)) else None.

Definition tabletop_new_board := writes_ "tabletop" "new_board" (λ a,
  s ← tabletopFrom; kind ← argStr a "kind"; w ← argInt a "w"; h ← argInt a "h";
  match board_of kind w h with
  | Some b => nothing (put_tabletop (mkTable (tt_Space s) (Some b) (tt_Terrain s)))
  | None => st_err (ErrBadOp kind)
  end).

Definition tabletop_distance := reads_ "tabletop" "distance" (λ a,
  s ← tabletopFrom; b ← the_board s; p ← pos a "ax" "ay"; q ← pos a "bx" "by";
  mret (go_int64 (board_Distance b p q))).

Definition tabletop_place := writes_ "tabletop" "place" (λ a,
  s ← tabletopFrom; unit ← argInt a "unit"; p ← pos a "x" "y"; nothing (put_tabletop (set_space (Place unit p) s))).
Definition tabletop_move := writes_ "tabletop" "move" (λ a,
  s ← tabletopFrom; unit ← argInt a "unit"; p ← pos a "x" "y"; nothing (put_tabletop (set_space (MoveUnit unit p) s))).
Definition tabletop_remove := writes_ "tabletop" "remove" (λ a,
  s ← tabletopFrom; unit ← argInt a "unit"; nothing (put_tabletop (set_space (RemoveUnit unit) s))).

Definition tabletop_position_of := reads_ "tabletop" "position_of" (λ a,
  s ← tabletopFrom; unit ← argInt a "unit";
  mret (match PositionOf unit (tt_Space s) with Some p => posList p | None => GoNil end)).

(** The look may build the index. *)
Definition tabletop_entities_at := reads_ "tabletop" "entities_at" (λ a,
  s ← tabletopFrom; p ← pos a "x" "y";
  let '(units, space) := EntitiesAt p (tt_Space s) in
  _ ← put_tabletop (mkTable space (tt_Board s) (tt_Terrain s));
  mret (unit_ids units)).

Definition tabletop_within := reads_ "tabletop" "within" (λ a,
  s ← tabletopFrom; b ← the_board s; center ← pos a "x" "y"; radius ← argInt a "radius";
  mret (unit_ids (board_Within b center radius (tt_Space s)))).
Definition tabletop_neighbors := reads_ "tabletop" "neighbors" (λ a,
  s ← tabletopFrom; b ← the_board s; p ← pos a "x" "y"; mret (GoSlice (posList <$> board_Neighbors b p))).

(** A line that never ends never answers. *)
Definition tabletop_line_of_sight := reads_ "tabletop" "line_of_sight" (λ a,
  s ← tabletopFrom; b ← the_board s; from ← pos a "fx" "fy"; target ← pos a "tx" "ty";
  match board_LineOfSight b from target (Some (λ p, Blocks p (tt_Terrain s))) with
  | Some clear => mret (GoBool clear)
  | None => st_nofuel
  end).

Definition tabletop_tag_terrain := writes_ "tabletop" "tag_terrain" (λ a,
  s ← tabletopFrom; p ← pos a "x" "y"; tag ← argStr a "tag";
  nothing (put_tabletop (mkTable (tt_Space s) (tt_Board s) (Tag p tag (tt_Terrain s))))).
Definition tabletop_has_terrain := reads_ "tabletop" "has_terrain" (λ a,
  s ← tabletopFrom; p ← pos a "x" "y"; tag ← argStr a "tag"; mret (GoBool (HasTag p tag (tt_Terrain s)))).

Definition tabletop_ops : list Op :=
  [tabletop_new_board; tabletop_distance; tabletop_place; tabletop_move; tabletop_remove; tabletop_position_of;
   tabletop_entities_at; tabletop_within; tabletop_neighbors; tabletop_line_of_sight; tabletop_tag_terrain;
   tabletop_has_terrain].

(** ** regions.go *)
Definition regionsFrom : M (option RMap) := λ st,
  match st.1 !! "regions" with Some (MRegions m) => (Ok m, st) | _ => (Err (ErrState "regions"), st) end.
Definition put_regions (m : RMap) : M () := λ st, (Ok tt, (<["regions" := MRegions (Some m)]> st.1, st.2)).
Definition the_map : M RMap :=
  m ← regionsFrom; match m : option RMap with Some m => mret m | None => st_err ErrNoMap end.

Definition toIntCoord (v : GoVal) : option Z := to_int v.

Definition decode_cell (v : GoVal) : option Pos :=
  match v with GoSlice [x; y] => x ← toIntCoord x; y ← toIntCoord y; Some (mkPos x y) | _ => None end.
Definition decode_region (v : GoVal) : option Region :=
  match v with
  | GoMap obj =>
      cells ← mapM decode_cell (default [] (listOr obj "cells"));
      Some (mkRegion (strOr obj "id") cells (strOr obj "label"))
  | _ => None
  end.
Definition decodeRegionsArgs (raw : list GoVal) : option (list Region) := mapM decode_region raw.

Definition regions_new_map := writes_ "regions" "new_map" (λ a,
  _ ← regionsFrom;
  match listOr a "regions" ≫= decodeRegionsArgs with
  | None => st_err ErrBadRegions
  | Some regs =>
      match NewMap regs with
      | Ok m => _ ← put_regions m; mret (GoMap [("count", go_int64 (Z.of_nat (length regs)))])
      | Err e => st_err (FromRegions e)
      | Panicked => st_panic
      | NoFuel => st_nofuel
      end
  end).

Definition regions_of := reads_ "regions" "of" (λ a,
  m ← the_map; p ← pos a "x" "y";
  let '(id, m') := Of p m in
  _ ← put_regions m';
  mret (GoMap [("region", GoString (default "" id)); ("found", GoBool (bool_decide (is_Some id)))])).

Definition regions_cells := reads_ "regions" "cells" (λ a,
  m ← the_map; id ← argStr a "id"; mret (GoSlice (posList <$> CellsOf id m))).

(** The entity with the unit's number, as a uint64. *)
Definition owner_by (attr : string) (cs : CardState) : OwnerFn := λ u,
  match Entities cs !! u64 u with Some e => AttrStr e attr "" | None => "" end.

Definition owner_attr (a : args) : string :=
  let name := strOr a "owner_attr" in if decide (name = "") then "owner" else name.

Definition counts (m : gmap string Z) : GoVal := GoMap ((λ '(pid, n), (pid, go_int64 n)) <$> map_to_list m).

Definition regions_influence := reads_ "regions" "influence" (λ a,
  m ← the_map; ts ← tabletopFrom; cs ← ccgFrom;
  let '(infl, space) := Influence m (owner_by (owner_attr a) cs) (tt_Space ts) in
  _ ← put_tabletop (mkTable space (tt_Board ts) (tt_Terrain ts));
  mret (GoMap ((λ '(id, per), (id, counts per)) <$> map_to_list infl))).

Definition rule_kind (v : option GoVal) : option ScoringKind :=
  match v with
  | Some (GoString k) =>
      if decide (k = "plurality") then Some Plurality
      else if decide (k ∈ ["top_n"; "topN"]) then Some TopN
      else if decide (k = "threshold") then Some Threshold else None
  | _ => None
  end.

Definition rule_tie (v : option GoVal) : option TieBreak :=
  match v with
  | None | Some GoNil => Some Split
  | Some (GoString k) =>
      if decide (k ∈ ["split"; ""]) then Some Split
      else if decide (k ∈ ["no_award"; "noAward"]) then Some NoAward
      else if decide (k ∈ ["both_award"; "bothAward"]) then Some BothAward else None
  | _ => None
  end.

(** A number where there is one at all. *)
Definition int_field (raw : args) (key : string) : option Z :=
  match map_get key raw with None => Some 0 | Some v => toIntCoord v end.

Definition decodeRule (raw : option args) : option ScoringRule :=
  raw ← raw;
  kind ← rule_kind (map_get "kind" raw);
  perPlace ← mapM toIntCoord (default [] (listOr raw "perPlace"));
  threshold ← int_field raw "threshold";
  payout ← int_field raw "payout";
  tie ← rule_tie (map_get "tieBreak" raw);
  Some (mkRule kind perPlace threshold payout tie).

Definition regions_score_all := reads_ "regions" "score_all" (λ a,
  m ← the_map; ts ← tabletopFrom; cs ← ccgFrom;
  match decodeRule (mapOr a "rule") with
  | None => st_err ErrBadRule
  | Some rule =>
      let '(pts, space) := ScoreAll m (owner_by (owner_attr a) cs) rule None (tt_Space ts) in
      _ ← put_tabletop (mkTable space (tt_Board ts) (tt_Terrain ts));
      mret (counts pts)
  end).

Definition regions_ops : list Op :=
  [regions_new_map; regions_of; regions_cells; regions_influence; regions_score_all].

(** ** registry.go *)
Definition RegistryFor (name : string) : option (list Op) :=
  if decide (name = "ccg") then Some ccg_ops
  else if decide (name = "tabletop") then Some tabletop_ops
  else if decide (name = "regions") then Some regions_ops
  else if decide (name = "economy") then Some economy_ops
  else if decide (name = "shop") then Some shop_ops
  else None.

Definition AllModules : list string := ["ccg"; "economy"; "regions"; "shop"; "tabletop"].

Definition Ops (module : string) : list Op := default [] (RegistryFor module).

Definition find_op (module name : string) : option Op :=
  List.find (λ op, bool_decide (op_Name op = name)) (Ops module).
