(* ===== verification/BridgeTheorems.v ===== *)
(** * What scripts and tools may rely on when they call a module

    Handles read back as the ids they were made of, the read-only operations leave what
    they read as it was, and no sequence of calls breaks the cards' invariant. *)

From stdpp Require Import pretty.
From S2P Require Import Prelude Choices Random Cards CardFacts CardTheorems Effects Economy Shop Tabletop Regions Json GameSpec Bridge.
#[local] Open Scope Z_scope.

(** ** Handles *)
Lemma pretty_digit d : (d < 10)%N → byte_of (pretty_N_char d) = 48 + Z.of_N d.
Proof. intros Hd. destruct d as [|p]; [done|]. do 4 (destruct p as [p|p|]; try done; try lia). Qed.

Lemma parse_pretty_go x : ∀ s, ∃ k : Z, ∀ acc, parse_digits acc (pretty_N_go x s) = parse_digits (acc * k + Z.of_N x) s.
Proof.
  induction (N.lt_wf_0 x) as [x _ IH]; intros s.
  destruct (decide (x = 0)%N) as [->|Hx].
  { exists 1. intros acc. rewrite pretty_N_go_0. f_equal. lia. }
  rewrite pretty_N_go_step by lia.
  destruct (IH (x `div` 10)%N (N.div_lt x 10 ltac:(lia) eq_refl) (String (pretty_N_char (x `mod` 10)) s)) as (k & Hk).
  exists (10 * k). intros acc. rewrite Hk. simpl.
  assert (x `mod` 10 < 10)%N as Hd by (apply N.mod_lt; lia).
  rewrite pretty_digit by done.
  rewrite decide_True by (revert Hd; generalize (x `mod` 10)%N; intros d Hd; lia). f_equal.
  assert (Z.of_N x = 10 * Z.of_N (x `div` 10) + Z.of_N (x `mod` 10)) as -> by (pose proof (N.div_mod x 10 ltac:(lia)); lia).
  ring.
Qed.

Lemma pretty_go_nonempty x : ∀ s, s ≠ "" → pretty_N_go x s ≠ "".
Proof.
  induction (N.lt_wf_0 x) as [x _ IH]; intros s Hs. destruct (decide (x = 0)%N) as [->|Hx]; [done|].
  rewrite pretty_N_go_step by lia. apply IH; [|done]. apply N.div_lt; lia.
Qed.

Lemma parse_pretty x : Z.of_N x < 2 ^ 64 → ParseUint (pretty x) = Some (Z.of_N x).
Proof.
  intros Hx. unfold ParseUint, pretty, pretty_N. destruct (decide (x = 0)%N) as [->|H0]; [done|].
  destruct (parse_pretty_go x "") as (k & Hk). rewrite decide_False.
  - rewrite Hk. simpl. by rewrite decide_True by lia.
  - rewrite pretty_N_go_step by lia. by apply pretty_go_nonempty.
Qed.

Lemma parse_digits_nonneg s : ∀ acc n, 0 ≤ acc → parse_digits acc s = Some n → 0 ≤ n.
Proof.
  induction s as [|c s IH]; simpl; intros acc n Hacc; [by intros [= <-]|].
  case_decide; [|done]. apply IH. lia.
Qed.

(** The three kinds of handle, by their prefix. *)
Definition prefixes : list string := ["ent:"; "mod:"; "eff:"].

(** A handle reads back as the id it was made of, for every id a uint64 can hold; one
    that reads back at all stands for such an id; and a handle of one kind never reads as
    one of another. *)
Theorem handles_roundtrip prefix : prefix ∈ prefixes →
  (∀ id, 0 ≤ id < 2 ^ 64 → parse_token prefix (token prefix id) = Some id) ∧
  (∀ tok id, parse_token prefix tok = Some id → 0 ≤ id < 2 ^ 64) ∧
  (∀ other id, other ∈ prefixes → other ≠ prefix → parse_token other (token prefix id) = None).
Proof.
  intros Hp. split_and!.
  - intros id Hid. unfold parse_token, token. rewrite strip_prefix_app. simpl.
    rewrite parse_pretty by lia. f_equal. lia.
  - intros tok id. unfold parse_token. intros (s & _ & Hs)%bind_Some. revert Hs. unfold ParseUint.
    case_decide; [done|]. intros (n & Hn & Hlt)%bind_Some. case_decide; [|done].
    injection Hlt as <-. apply parse_digits_nonneg in Hn; lia.
  - intros other id Ho Hne. unfold prefixes in *. set_unfold in Hp. set_unfold in Ho.
    destruct Hp as [?|[?|[?|?]]], Ho as [?|[?|[?|?]]]; subst; done.
Qed.

Lemma handles_roundtrip_witness : ParseEntityToken (EntityToken 12) = Some 12 ∧ ParseModifierToken (EntityToken 12) = None.
Proof.
  assert ("ent:" ∈ prefixes) as Hp by (unfold prefixes; set_solver).
  destruct (handles_roundtrip "ent:" Hp) as (H1 & _ & H2). split; [apply H1; lia|].
  apply H2; [unfold prefixes; set_solver|done].
Defined.

(** ** Operations only read what their arguments are made of *)
Lemma reads_ret {S E A} (a : A) : reads (mret a : ST S E A).
Proof. done. Qed.
Lemma reads_err {S E A} (e : E) : reads (st_err e : ST S E A).
Proof. done. Qed.
Lemma reads_nofuel {S E A} : reads (st_nofuel : ST S E A).
Proof. done. Qed.
Lemma reads_bind {S E A B} (m : ST S E A) (f : A → ST S E B) : reads m → (∀ a, reads (f a)) → reads (m ≫= f).
Proof.
  intros Hm Hf s. specialize (Hm s). rewrite bind_eq. destruct (m s) as [[a|e| |] s1]; simpl in *; subst; [apply Hf|done..].
Qed.

Create HintDb bridge.
#[export] Hint Resolve reads_ret reads_err reads_nofuel reads_bind : bridge.

(** Case analysis on what an operation looks at. *)
Ltac reading := repeat first
  [ progress (intros; simpl)
  | solve [eauto 2 with bridge nocore]
  | apply reads_bind
  | case_decide
  | case_match
  | progress unfold argStr, argInt, argEntityID, optEntityID, handle, string_list ].

Lemma reads_ccgFrom : reads ccgFrom.
Proof. intros st. unfold ccgFrom. by repeat case_match. Qed.
Lemma reads_tabletopFrom : reads tabletopFrom.
Proof. intros st. unfold tabletopFrom. by repeat case_match. Qed.
Lemma reads_regionsFrom : reads regionsFrom.
Proof. intros st. unfold regionsFrom. by repeat case_match. Qed.
Lemma reads_need_rng : reads need_rng.
Proof. intros st. unfold need_rng. by repeat case_match. Qed.
Lemma reads_argStr a key : reads (argStr a key).
Proof. reading. Qed.
Lemma reads_argInt a key : reads (argInt a key).
Proof. reading. Qed.
Lemma reads_argEntityID a key : reads (argEntityID a key).
Proof. reading. Qed.
Lemma reads_optEntityID a key : reads (optEntityID a key).
Proof. reading. Qed.
Lemma reads_handle parse tok : reads (handle parse tok).
Proof. reading. Qed.
Lemma reads_string_list a key : reads (string_list a key).
Proof. reading. Qed.
Lemma reads_pos a x y : reads (pos a x y).
Proof. reading. Qed.
Lemma reads_the_board s : reads (the_board s).
Proof. unfold the_board. reading. Qed.
#[export] Hint Resolve reads_ccgFrom reads_tabletopFrom reads_regionsFrom reads_need_rng reads_argStr reads_argInt
  reads_argEntityID reads_optEntityID reads_handle reads_string_list reads_pos reads_the_board : bridge.

Lemma reads_the_map : reads the_map.
Proof. unfold the_map. reading. Qed.
Lemma reads_bound_of a key bound f q : reads (bound_of a key bound f q).
Proof. unfold bound_of. reading. Qed.
Lemma reads_poolFrom a : reads (poolFrom a).
Proof. unfold poolFrom. reading. Qed.
Lemma reads_shopFrom a : reads (shopFrom a).
Proof. unfold shopFrom. reading. Qed.
Lemma reads_target_tokens l : reads (target_tokens l).
Proof. induction l; simpl; reading. Qed.
#[export] Hint Resolve reads_the_map reads_bound_of reads_poolFrom reads_shopFrom reads_target_tokens : bridge.
Lemma reads_effectFromArgs a : reads (effectFromArgs a).
Proof. unfold effectFromArgs. reading. Qed.
Lemma reads_counter_args a : reads (counter_args a).
Proof. unfold counter_args. reading. Qed.
Lemma reads_effect_arg a : reads (effect_arg a).
Proof. unfold effect_arg. reading. Qed.
#[export] Hint Resolve reads_effectFromArgs reads_counter_args reads_effect_arg : bridge.

(** ** The cards' invariant *)
Definition cards_ok (st : mod_state) : Prop := ∃ s : CardState, st.1 !! "ccg" = Some (MCards s) ∧ wf s.

Lemma keeps_on_ccg {A} (m : ST CardState ccg_error A) : keeps wf m → keeps cards_ok (on_ccg m).
Proof.
  intros Hm st (s & Hs & Hwf). unfold on_ccg. rewrite Hs. specialize (Hm s Hwf). destruct (m s) as [o s'].
  exists s'. split; [apply lookup_insert_eq|done].
Qed.

Lemma keeps_shuffle_zone zone r : keeps cards_ok (shuffle_zone zone r).
Proof.
  intros st (s & Hs & Hwf). unfold shuffle_zone. rewrite Hs.
  pose proof (keeps_ShuffleZone zone (s, r) Hwf) as Hk. destruct (ShuffleZone zone (s, r)) as [o [s' r']].
  exists s'. split; [apply lookup_insert_eq|done].
Qed.

Lemma keeps_put_tabletop s : keeps cards_ok (put_tabletop s).
Proof. intros st (c & Hc & Hwf). exists c. split; [|done]. by rewrite <-Hc; apply lookup_insert_ne. Qed.
Lemma keeps_put_regions m : keeps cards_ok (put_regions m).
Proof. intros st (c & Hc & Hwf). exists c. split; [|done]. by rewrite <-Hc; apply lookup_insert_ne. Qed.

#[export] Hint Resolve keeps_ret keeps_err keeps_panic keeps_reads keeps_shuffle_zone keeps_put_tabletop keeps_put_regions : bridge.

Section cards.
Abbreviation N := (ST CardState ccg_error).

(** What leaves places and ids of entities alone. *)
Lemma keeps_aside {A} (m : N A) : (∀ s, Entities (m s).2 = Entities s ∧ Zones (m s).2 = Zones s ∧
  NextEntityID (IDs (m s).2) = NextEntityID (IDs s)) → keeps wf m.
Proof. intros Hm s Hs. destruct (Hm s) as (HE & HZ & HI). by apply (wf_bookkeeping s). Qed.

Lemma keeps_publish_effect ty eff : keeps wf (publishEffectEvent no_hooks ty eff).
Proof. apply keeps_Publish. intros []. Qed.

Lemma keeps_change id kind d neg : keeps wf (changeCounter no_hooks id kind d neg).
Proof. apply keeps_changeCounter. intros []. Qed.

Lemma keeps_move_all ids to : keeps wf (move_all (H:=Empty_set) ids to).
Proof. induction ids; simpl; [apply keeps_ret|]. apply keeps_bind; [apply keeps_MoveTo|done]. Qed.

Lemma keeps_destroy_all ids : keeps wf (destroy_all (H:=Empty_set) ids).
Proof. induction ids; simpl; [apply keeps_ret|]. apply keeps_bind; [apply keeps_Destroy|done]. Qed.

Lemma keeps_get {B} (f : CardState → B) : keeps wf (get f : N B).
Proof. by apply keeps_reads. Qed.

Lemma keeps_the_zone n : keeps wf (the_zone (H:=Empty_set) n).
Proof. apply keeps_reads. intros s. unfold the_zone. by case_match. Qed.

Lemma keeps_set_sight id f : (∀ e, en_ID (f e) = en_ID e ∧ en_Zone (f e) = en_Zone e) → keeps wf (with_entity (H:=Empty_set) id f).
Proof. apply keeps_with_entity. Qed.
End cards.
#[export] Hint Resolve keeps_ret keeps_err keeps_panic keeps_publish_effect keeps_change keeps_move_all keeps_destroy_all
  keeps_get keeps_the_zone keeps_Destroy keeps_MoveTo keeps_Draw : cards.

Ltac card_rules := repeat first
  [ progress (intros; simpl)
  | solve [eauto 2 with cards nocore]
  | apply keeps_bind
  | apply keeps_with_entity; by intros []
  | apply keeps_aside; by intros s
  | case_decide
  | case_match ].

Lemma keeps_AddCounter id kind n : keeps wf (AddCounter no_hooks id kind n).
Proof. unfold AddCounter. card_rules. Qed.
Lemma keeps_AddCounterSigned id kind n : keeps wf (AddCounterSigned no_hooks id kind n).
Proof. apply keeps_change. Qed.
Lemma keeps_RemoveCounter id kind n : keeps wf (RemoveCounter no_hooks id kind n).
Proof. unfold RemoveCounter. card_rules. Qed.
Lemma keeps_push place eff : keeps wf (push_with no_hooks place eff).
Proof. unfold push_with. card_rules. Qed.
Lemma keeps_RemoveEffect id : keeps wf (RemoveEffect no_hooks id).
Proof. unfold RemoveEffect, drop_effect. card_rules. Qed.
Lemma keeps_ReplaceEffect id next : keeps wf (ReplaceEffect no_hooks id next).
Proof. unfold ReplaceEffect. card_rules. Qed.
#[export] Hint Resolve keeps_AddCounter keeps_AddCounterSigned keeps_RemoveCounter keeps_push keeps_RemoveEffect keeps_ReplaceEffect : cards.

Lemma keeps_Gain p n : keeps wf (Gain no_hooks p n).
Proof. unfold Gain, add_to. card_rules. Qed.
Lemma keeps_Spend p n : keeps wf (Spend no_hooks p n).
Proof. unfold Spend. card_rules. Qed.
Lemma keeps_Set p n : keeps wf (Set_ no_hooks p n).
Proof. unfold Set_, add_to. card_rules. Qed.
Lemma keeps_Clear sh dest : keeps wf (Clear (H:=Empty_set) sh dest).
Proof. unfold Clear. card_rules. Qed.
Lemma keeps_Fill sh : keeps wf (Fill (H:=Empty_set) sh).
Proof. unfold Fill. card_rules. Qed.
#[export] Hint Resolve keeps_Gain keeps_Spend keeps_Set keeps_Clear keeps_Fill : cards.
Lemma keeps_Reroll sh dest : keeps wf (Reroll (H:=Empty_set) sh dest).
Proof. unfold Reroll. card_rules. Qed.
Lemma keeps_Unfreeze item : keeps wf (Unfreeze (H:=Empty_set) item).
Proof. unfold Unfreeze. card_rules. Qed.
#[export] Hint Resolve keeps_Reroll keeps_Unfreeze : cards.
Lemma keeps_Buy sh item dest : keeps wf (Buy (H:=Empty_set) sh item dest).
Proof. unfold Buy. card_rules. Qed.
Lemma keeps_Freeze sh item : keeps wf (Freeze (H:=Empty_set) sh item).
Proof. unfold Freeze, SetAttr. card_rules. Qed.
#[export] Hint Resolve keeps_Buy keeps_Freeze : cards.

(** An operation given no unnamed zone to make. *)
Definition names_its_zone (op : Op) (a : args) : Prop :=
  op_Module op = "ccg" → op_Name op = "new_zone" → strOr a "name" ≠ "".

Ltac op_rules := repeat first
  [ progress (intros; simpl)
  | solve [eauto 2 with bridge nocore]
  | apply keeps_bind
  | apply keeps_on_ccg; solve [eauto 2 with cards nocore | card_rules]
  | case_decide
  | case_match ].

Lemma keeps_nothing (m : M ()) : keeps cards_ok m → keeps cards_ok (nothing m).
Proof. unfold nothing. intros Hm. apply keeps_bind; [done|]. intros _. apply keeps_ret. Qed.
Lemma keeps_known_effect m : keeps cards_ok m → keeps cards_ok (known_effect m).
Proof. unfold known_effect. intros Hm. apply keeps_bind; [done|]. intros []; [apply keeps_ret|apply keeps_err]. Qed.

(** What an argument is, where it is read. *)
Lemma keeps_argStr {A} (I : mod_state → Prop) a key (f : string → M A) :
  (∀ s, strOr a key = s → keeps I (f s)) → keeps I (argStr a key ≫= f).
Proof.
  intros Hf. unfold argStr, strOr in *. destruct (map_get key a) as [[]|]; try (intros st Hst; exact Hst).
  intros st Hst. by apply Hf.
Qed.

Lemma keeps_NewEntity typ owner attrs : keeps wf (NewEntity (H:=Empty_set) typ owner attrs).
Proof. by apply keeps_mint. Qed.
Lemma keeps_Publish_no_hooks ev : keeps wf (Publish no_hooks ev).
Proof. apply keeps_Publish. intros []. Qed.
Lemma keeps_add_modifier m : keeps wf (AddModifier (H:=Empty_set) m).
Proof. by apply keeps_aside. Qed.
#[export] Hint Resolve keeps_NewEntity keeps_Publish_no_hooks keeps_add_modifier keeps_Clone : cards.
Lemma reads_st_lift {S E A} (o : outcome E A) : reads (st_lift o : ST S E A).
Proof. done. Qed.
#[export] Hint Resolve reads_st_lift : bridge.

Lemma ccg_op_keeps op a : op ∈ ccg_ops → names_its_zone op a → keeps cards_ok (op_Call op a).
Proof.
  unfold ccg_ops. rewrite !elem_of_cons, elem_of_nil. intros Hop Hz.
  repeat destruct Hop as [->|Hop]; try done; simpl; unfold nothing, known_effect; try solve [op_rules].
  apply keeps_bind; [op_rules|]. intros _. apply keeps_argStr. intros name Hname.
  apply keeps_bind; [|op_rules]. apply keeps_on_ccg, keeps_NewZone. rewrite <-Hname. by apply Hz.
Qed.

Lemma other_op_keeps op a : op ∈ economy_ops ++ shop_ops ++ tabletop_ops ++ regions_ops → keeps cards_ok (op_Call op a).
Proof.
  unfold economy_ops, shop_ops, tabletop_ops, regions_ops. simpl. rewrite !elem_of_cons, elem_of_nil. intros Hop.
  repeat destruct Hop as [->|Hop]; try done; simpl; unfold nothing; try solve [op_rules].
Qed.

Lemma op_keeps module op a : op ∈ Ops module → names_its_zone op a → keeps cards_ok (op_Call op a).
Proof.
  unfold Ops, RegistryFor. repeat case_decide; simpl; try (by intros ?%elem_of_nil); intros Hop Hz;
    [by apply ccg_op_keeps|apply other_op_keeps; rewrite !elem_of_app; tauto..].
Qed.

(** One call after the other, whatever each of them answers. *)
Definition play (calls : list (Op * args)) (st : mod_state) : mod_state :=
  foldl (λ st '(op, a), (op_Call op a st).2) st calls.

(** What a game starts with: the named modules, fresh. *)
Definition fresh (names : list string) : modules :=
  list_to_map (omap (λ n, (n,.) <$> NewModule n) names).

(** Whatever operations of whatever modules are called with whatever arguments, in
    whatever order and whether or not they fail, the cards of a game that has them keep
    their invariant: every zone holds exactly the entities that say they are in it, once
    each.  The only way around it is to make a zone without a name. *)
Theorem module_calls_keep_cards_consistent names calls rng : "ccg" ∈ names →
  Forall (λ '(op, a), ∃ module, op ∈ Ops module ∧ names_its_zone op a) calls →
  ∃ s, (play calls (fresh names, rng)).1 !! "ccg" = Some (MCards s) ∧ wf s.
Proof.
  intros Hin Hcalls.
  assert (cards_ok (fresh names, rng)) as Hst.
  { exists Cards.NewState. split; [|apply wf_NewState]. simpl. unfold fresh.
    induction names as [|n names IH]; [by apply elem_of_nil in Hin|].
    change (omap ?f (n :: names)) with (match f n with Some x => x :: omap f names | None => omap f names end).
    destruct (decide (n = "ccg")) as [->|Hne]; [apply lookup_insert_eq|].
    apply elem_of_cons in Hin as [Heq|Hin]; [congruence|]. specialize (IH Hin).
    destruct (NewModule n); [|exact IH]. etrans; [by apply lookup_insert_ne|exact IH]. }
  revert Hst. generalize (fresh names, rng). induction Hcalls as [|[op a] calls (module & Hop & Hz) _ IH]; intros st Hst.
  { done. }
  simpl. apply IH. by apply (op_keeps module).
Qed.

(** ** The read-only operations *)

(** A module state without its lazily built indexes. *)
Definition observe (m : modstate) : modstate :=
  match m with
  | MTabletop s => MTabletop (mkTable (mkTState (Positions (tt_Space s)) None) (tt_Board s) (tt_Terrain s))
  | MRegions (Some m) => MRegions (Some (mkRMap (rm_Regions m) None))
  | m => m
  end.

Definition observed (st : mod_state) : mod_state := (observe <$> st.1, st.2).
Definition same_as (st0 st : mod_state) : Prop := observed st = observed st0.

Lemma EntitiesAt_positions p s : Positions (EntitiesAt p s).2 = Positions s.
Proof. unfold EntitiesAt, ensureIndex. simpl. by destruct (byCell s). Qed.

Lemma count_cells_positions owner cells : ∀ acc, Positions (foldl (count_cell owner) acc cells).2 = Positions acc.2.
Proof.
  induction cells as [|p cells IH]; intros [inner s]; simpl; [done|]. rewrite IH.
  exact (EntitiesAt_positions p s).
Qed.

Lemma Influence_positions m owner s : Positions (Influence m owner s).2 = Positions s.
Proof.
  unfold Influence. change s with (snd (∅ : gmap string (gmap string Z), s)) at 2.
  generalize (∅ : gmap string (gmap string Z), s). induction (rm_Regions m) as [|r l IH]; intros [out s']; [done|].
  simpl. rewrite IH. pose proof (count_cells_positions owner (rg_Cells r) (∅, s')) as Hp.
  by destruct (foldl _ _ _).
Qed.

Lemma same_tabletop st0 st s s' : same_as st0 st → st.1 !! "tabletop" = Some (MTabletop s) →
  observe (MTabletop s') = observe (MTabletop s) → same_as st0 (<["tabletop" := MTabletop s']> st.1, st.2).
Proof.
  unfold same_as, observed, mod_state, modules. cbn [fst snd]. intros <- Hs Heq. f_equal.
  rewrite fmap_insert, Heq, <-fmap_insert. by rewrite insert_id.
Qed.

Lemma same_regions st0 st m m' : same_as st0 st → st.1 !! "regions" = Some (MRegions (Some m)) →
  rm_Regions m' = rm_Regions m → same_as st0 (<["regions" := MRegions (Some m')]> st.1, st.2).
Proof.
  unfold same_as, observed, mod_state, modules. cbn [fst snd]. intros <- Hs Heq. f_equal.
  rewrite fmap_insert. cbn [observe]. rewrite Heq.
  change (MRegions (Some (mkRMap (rm_Regions m) None))) with (observe (MRegions (Some m))).
  rewrite <-fmap_insert. by rewrite insert_id.
Qed.

(** From one state on, a read leads to what it read there. *)
Lemma run_read {A B} (I : mod_state → Prop) (m : M A) (f : A → M B) st :
  reads m → I st → (∀ a, m st = (Ok a, st) → I (f a st).2) → I ((m ≫= f) st).2.
Proof.
  intros Hm Hst Hf. specialize (Hm st). rewrite bind_eq. destruct (m st) as [[a|e| |] s1] eqn:Heq; simplify_eq/=; auto.
Qed.

Lemma tabletopFrom_Ok st s : tabletopFrom st = (Ok s, st) → st.1 !! "tabletop" = Some (MTabletop s).
Proof. unfold tabletopFrom. repeat case_match; congruence. Qed.
Lemma the_map_Ok st m : the_map st = (Ok m, st) → st.1 !! "regions" = Some (MRegions (Some m)).
Proof.
  unfold the_map. rewrite bind_eq. unfold regionsFrom. destruct (st.1 !! "regions") as [[s|s|[m'|]| |l]|] eqn:Hr;
    simpl; intros Heq; try done. by apply ret_Ok in Heq as [-> _].
Qed.

Ltac run_reads := repeat (apply run_read; [by eauto with bridge|assumption|intros ? ?]).

Lemma entities_at_observes st0 a : keeps (same_as st0) (op_Call tabletop_entities_at a).
Proof.
  intros st Hst. simpl. run_reads.
  apply (same_tabletop st0 st a0 (mkTable (EntitiesAt a1 (tt_Space a0)).2 _ _)); [done|by apply tabletopFrom_Ok|].
  unfold observe. cbn [tt_Space tt_Board tt_Terrain]. by rewrite EntitiesAt_positions.
Qed.

Lemma of_observes st0 a : keeps (same_as st0) (op_Call regions_of a).
Proof. intros st Hst. simpl. run_reads. apply (same_regions st0 st a0); [done|by apply the_map_Ok|done]. Qed.

Lemma influence_observes st0 a : keeps (same_as st0) (op_Call regions_influence a).
Proof.
  intros st Hst. simpl. run_reads. destruct (Influence _ _ _) as [infl space] eqn:Heq.
  apply (same_tabletop st0 st a1); [done|by apply tabletopFrom_Ok|]. simpl.
  pose proof (Influence_positions a0 (owner_by (owner_attr a) a2) (tt_Space a1)) as Hp. rewrite Heq in Hp. simpl in Hp. by rewrite Hp.
Qed.

Lemma score_all_observes st0 a : keeps (same_as st0) (op_Call regions_score_all a).
Proof.
  intros st Hst. simpl. run_reads. destruct (decodeRule _) as [rule|]; [|done].
  unfold ScoreAll. destruct (Influence _ _ _) as [infl space] eqn:Heq.
  apply (same_tabletop st0 st a1); [done|by apply tabletopFrom_Ok|]. simpl.
  pose proof (Influence_positions a0 (owner_by (owner_attr a) a2) (tt_Space a1)) as Hp. rewrite Heq in Hp. simpl in Hp. by rewrite Hp.
Qed.

Lemma read_only_op_observes module op a st0 : op ∈ Ops module → op_ReadOnly op = true → keeps (same_as st0) (op_Call op a).
Proof.
  unfold Ops, RegistryFor, ccg_ops, economy_ops, shop_ops, tabletop_ops, regions_ops.
  repeat case_decide; cbn [default from_option id]; rewrite ?elem_of_cons, ?elem_of_nil; intros Hop Hro;
    repeat destruct Hop as [->|Hop]; try done; clear Hro;
    eauto 2 using entities_at_observes, of_observes, influence_observes, score_all_observes;
    apply keeps_reads; simpl; reading.
Qed.

(** An operation that calls itself read-only leaves every module's state and the
    generator as they were, apart from indexes that are built when they are first needed,
    whatever its arguments and whether or not it fails: it is safe where a change would
    corrupt the state the game goes on with. *)
Theorem read_only_ops_change_nothing module op a st : op ∈ Ops module → op_ReadOnly op = true →
  observed (op_Call op a st).2 = observed st.
Proof. intros Hop Hro. by apply (read_only_op_observes module op a st). Qed.

(** ** Witnesses *)
Definition two_calls : list (Op * args) :=
  [(ccg_new_zone, [("name", GoString "deck")]);
   (ccg_new_entity, [("type", GoString "card")]);
   (ccg_move_to, [("entity", GoString "ent:1"); ("zone", GoString "deck")]);
   (ccg_draw, [("zone", GoString "nowhere"); ("n", go_int64 1)])].

Lemma two_calls_named : Forall (λ '(op, a), ∃ module, op ∈ Ops module ∧ names_its_zone op a) two_calls.
Proof. repeat constructor; exists "ccg"; (split; [cbn; set_solver|by intros _]). Qed.

Lemma module_calls_keep_cards_consistent_witness :
  ∃ s, (play two_calls (fresh ["ccg"], None)).1 !! "ccg" = Some (MCards s) ∧ wf s.
Proof.
  apply (module_calls_keep_cards_consistent ["ccg"] two_calls None); [apply list_elem_of_here|exact two_calls_named].
Defined.

Lemma read_only_ops_change_nothing_witness :
  observed (op_Call ccg_size [("zone", GoString "deck")] (play two_calls (fresh ["ccg"], None))).2 =
  observed (play two_calls (fresh ["ccg"], None)).
Proof.
  apply (read_only_ops_change_nothing "ccg"); [|reflexivity].
  do 3 apply list_elem_of_further. apply list_elem_of_here.
Defined.
