(* ===== verification/Scripts.v ===== *)
(** * Calling a game's scripts

    [src/mcp/starlarkgame]: bridge.go, random.go, call.go, g.go and argvalidate.go, and
    game.go and validate.go, which make a game of a spec and check a spec.  A
    script's function is what it asks of its [ctx], one call after the other, and what it
    returns; the interpreter that makes this of its source is a parameter.  Handlers in
    HOOKS are not modelled, and a spec is read as if it had none. *)

From Stdlib Require Import SpecFloat.
From S2P Require Import Prelude CoreTypes Api GameDef Random Choices Floats Cards Bots Json GameSpec Bridge.
#[local] Open Scope Z_scope.

(** ** g.go

    The live states are an object that game states point to: a move changes it in place.
    [Fresh] states are ones nothing else points to. *)
Inductive place : Type := At (loc : nat) | Fresh (mods : modules).
Record StarlarkG := mkG { sg_Data : args; sg_Modules : place }.

Inductive value : Type := VScript (g : StarlarkG) | VGo (v : GoVal).

#[export] Instance ScriptTypes : GoTypes :=
  {| val := value; world := list modules; val_true := VGo (GoBool true); randref := (); as_Random := λ _, None |}.

Definition to_any (v : GoVal) : any := match v with GoNil => None | v => Some (VGo v) end.
Definition of_any (v : any) : GoVal :=
  match v with None => GoNil | Some (VGo v) => v | Some (VScript _) => GoOther "*StarlarkG" 0 end.

Definition modulesKey : string := "__modules__".

Definition modules_at (w : world) (p : place) : modules :=
  match p with At loc => default ∅ (w !! loc) | Fresh mods => mods end.

(** The object after a call; a fresh one finds its place. *)
Definition put_modules (w : world) (p : place) (mods : modules) : world * place :=
  match p with At loc => (<[loc := mods]> w, p) | Fresh _ => (w ++ [mods], At (length w)) end.

(** A state that a store gave back as a map: its modules are made again by [Rehydrate],
    the JSON codecs of the modules, or kept as they are. *)
Section reload.
Context (Rehydrate : string → args → option modstate).

Definition reload_module (entry : string * GoVal) : string * modstate :=
  (entry.1, match entry.2 with GoMap m => default (MRaw entry.2) (Rehydrate entry.1 m) | v => MRaw v end).

Definition asStarlarkG (g : any) : option StarlarkG :=
  match g with
  | Some (VScript g) => Some g
  | Some (VGo (GoMap m)) =>
      Some (mkG (filter (λ e, e.1 ≠ modulesKey) m)
              (Fresh (match map_get modulesKey m with
                      | Some (GoMap mods) => list_to_map (reload_module <$> mods)
                      | _ => ∅
                      end)))
  | _ => None
  end.
End reload.

(** ** bridge.go *)
Record BridgeCtx := mkBridge {
  bc_PlayerID : string;
  bc_NumPlayers : Z;
  bc_Phase : string;
  bc_Events : bool;
  bc_ReadOnly : bool;
  bc_Queue : bool;
  bc_ResumingBlock : option BlockSpec
}.

Definition NewReadCtx (numPlayers : Z) (playerID : string) : BridgeCtx := mkBridge playerID numPlayers "" false true false None.
Definition NewWriteCtx (numPlayers : Z) (playerID : string) : BridgeCtx := mkBridge playerID numPlayers "" false false false None.
Definition set_Phase (phase : string) (bc : BridgeCtx) : BridgeCtx :=
  mkBridge (bc_PlayerID bc) (bc_NumPlayers bc) phase (bc_Events bc) (bc_ReadOnly bc) (bc_Queue bc) (bc_ResumingBlock bc).
(** The parts of the move's context a script may use; a context has an event queue and an
    action queue or neither. *)
Definition set_live (wired : bool) (block : option BlockSpec) (bc : BridgeCtx) : BridgeCtx :=
  mkBridge (bc_PlayerID bc) (bc_NumPlayers bc) (bc_Phase bc) wired (bc_ReadOnly bc) wired block.

(** The fields a script reads. *)
Definition ctx_fields : Type := string * Z * string.
Definition fields (bc : BridgeCtx) : ctx_fields := (bc_PlayerID bc, bc_NumPlayers bc, bc_Phase bc).

(** What a call works on: the modules, the generator's word, the events and the target
    requests so far. *)
Record scope := mkScope {
  cx_mods : modules;
  cx_rng : option Z;
  cx_events : list event;
  cx_targets : list TargetRequest
}.

Inductive script_error : Type :=
  | ErrScript
  | ErrAttr (name : string)
  | ErrArgs (builtin : string)
  | ErrConv (e : conv_error)
  | ErrOp (e : op_error)
  | ErrChoice (e : choice_error)
  | ErrReadOnly (op : string)
  | ErrUnknown (move : string)
  | ErrResult
  | ErrBadArg (name : string)
  | ErrNotScripted.

Section scripts.
Context {F : Type}.
Abbreviation star := (star F).
Abbreviation S := (ST scope script_error).

(** The calls of a script.  A shuffle works in place, so it is of a list that may be
    frozen, and the script goes on with the list it answers. *)
Inductive request : Type :=
  | RLog (l : list star)
  | RRange (l : list star)
  | RShuffle (frozen : bool) (l : list star)
  | RChoice (l : list star)
  | RSetStage (l : list star)
  | REndStage (l : list star)
  | RModule (module op : string) (l : list star) (kwargs : list (string * star))
  | RTarget (l : list star) (kwargs : list (string * star))
  | RResuming (l : list star)
  | RValidate (l : list star).

(** A function that ran into its limit on steps failed. *)
Inductive sprog : Type :=
  | SDone (v : star)
  | SFail
  | SCall (r : request) (k : star → sprog).

Definition lift_conv {A} (o : outcome conv_error A) : S A := λ st,
  (match o with Ok a => Ok a | Err e => Err (ErrConv e) | Panicked => Panicked | NoFuel => NoFuel end, st).
Definition demand (b : bool) (e : script_error) : S () := if b then mret tt else st_err e.

(** random.go *)
Definition intn (n : Z) (state : Z) : Z * Z :=
  let '(state, v) := next state in (state, int_of_float (fmul (unit_float v) (float_of_int n))).

Definition draw (n : Z) : S Z := λ st,
  match cx_rng st with
  | None => (Err (ErrAttr "random"), st)
  | Some r => let '(r, i) := intn n r in (Ok i, mkScope (cx_mods st) (Some r) (cx_events st) (cx_targets st))
  end.
Definition has_rng : S () := λ st, (match cx_rng st with None => Err (ErrAttr "random") | Some _ => Ok tt end, st).

Definition index (l : list star) (i : Z) : S star := match go_index l i with Some v => mret v | None => st_panic end.

(** The swaps from the last position down; a frozen list refuses the first. *)
Fixpoint shuffle_down (frozen : bool) (i : nat) (l : list star) : S (list star) :=
  match i with
  | O => mret l
  | Datatypes.S i' =>
      j ← draw (Z.of_nat i + 1);
      bi ← index l (Z.of_nat i);
      bj ← index l j;
      _ ← demand (negb frozen) ErrScript;
      shuffle_down frozen i' (<[Z.to_nat j := bi]> (<[i := bj]> l))
  end.

(** bridge.go: events, modules, targets *)
Definition emit_event (ev : event) : S () := λ st,
  (Ok tt, mkScope (cx_mods st) (cx_rng st) (cx_events st ++ [ev]) (cx_targets st)).
Definition emit_target (req : TargetRequest) : S () := λ st,
  (Ok tt, mkScope (cx_mods st) (cx_rng st) (cx_events st) (cx_targets st ++ [req])).

Definition run_op (op : Op) (m : args) : S GoVal := λ st,
  let '(o, (mods, rng)) := op_Call op m (cx_mods st, cx_rng st) in
  (match o with Ok v => Ok v | Err e => Err (ErrOp e) | Panicked => Panicked | NoFuel => NoFuel end,
   mkScope mods rng (cx_events st) (cx_targets st)).

(** A module that is there, of those with operations. *)
Definition module_ops (name : string) : S (list Op) := λ st,
  (match cx_mods st !! name, RegistryFor name with
   | Some _, Some ops => Ok ops
   | _, _ => Err (ErrAttr name)
   end, st).

Fixpoint go_kwargs (kwargs : list (string * star)) : S args :=
  match kwargs with
  | [] => mret []
  | (k, v) :: kwargs => g ← lift_conv (ToGo v); rest ← go_kwargs kwargs; mret ((k, g) :: rest)
  end.

Definition call_op (bc : BridgeCtx) (module name : string) (l : list star) (kwargs : list (string * star)) : S star :=
  ops ← module_ops module;
  match List.find (λ op, bool_decide (op_Name op = name)) ops with
  | None => st_err (ErrAttr name)
  | Some op =>
      if bc_ReadOnly bc && negb (op_ReadOnly op) then st_err (ErrReadOnly name)
      else
        _ ← demand (bool_decide (l = [])) (ErrArgs name);
        m ← go_kwargs kwargs;
        res ← run_op op m;
        lift_conv (ToStarlark res)
  end.

(** The arguments of a target request, one at a time. *)
Definition target_arg (req : TargetRequest) (k : string) (v : GoVal) : option TargetRequest :=
  let '(mkTarget kind cands min max source data) := req in
  if decide (k = "kind") then match v with GoString s => Some (mkTarget s cands min max source data) | _ => None end
  else if decide (k = "candidates") then
    match v with GoSlice l => Some (mkTarget kind (to_any <$> l) min max source data) | _ => None end
  else if decide (k = "min") then match v with GoInt "" KInt64 n => Some (mkTarget kind cands n max source data) | _ => None end
  else if decide (k = "max") then match v with GoInt "" KInt64 n => Some (mkTarget kind cands min n source data) | _ => None end
  else if decide (k = "source") then Some (mkTarget kind cands min max (to_any v) data)
  else if decide (k = "data") then
    match v with GoMap m => Some (mkTarget kind cands min max source (list_to_map ((λ '(k, v), (k, to_any v)) <$> m))) | _ => Some req end
  else None.

Fixpoint target_args (req : TargetRequest) (kwargs : list (string * star)) : S TargetRequest :=
  match kwargs with
  | [] => mret req
  | (k, v) :: kwargs =>
      g ← lift_conv (ToGo v);
      match target_arg req k g with Some req => target_args req kwargs | None => st_err (ErrArgs "request_target") end
  end.

Definition the_target (bc : BridgeCtx) : option TargetRequest := bc_ResumingBlock bc ≫= b_Target.

(** A request without data reads as one with none. *)
Definition target_dict (tr : TargetRequest) : GoVal :=
  GoMap ([("kind", GoString (tr_Kind tr)); ("candidates", GoSlice (of_any <$> tr_Candidates tr));
          ("min", go_int64 (tr_Min tr)); ("max", go_int64 (tr_Max tr))]
    ++ match tr_Source tr with None => [] | v => [("source", of_any v)] end
    ++ (if decide (tr_Data tr = ∅) then [] else [("data", GoMap ((λ '(k, v), (k, of_any v)) <$> map_to_list (tr_Data tr)))])).

(** What a call answers.  An attribute that [ctx] does not have fails the script. *)
Definition builtin (bc : BridgeCtx) (r : request) : S star :=
  match r with
  | RLog l => match l with [SString _] => mret SNone | _ => st_err (ErrArgs "log") end
  | RRange l =>
      _ ← has_rng;
      match l with
      | [SInt n] =>
          let n := int64_or_0 n in
          if decide (n ≤ 0) then st_err (ErrArgs "range") else i ← draw n; mret (SInt i)
      | _ => st_err (ErrArgs "range")
      end
  | RShuffle frozen l =>
      _ ← has_rng;
      match l with
      | [SList l] => l ← shuffle_down frozen (length l - 1) l; mret (SList l)
      | _ => st_err (ErrArgs "shuffle")
      end
  | RChoice l =>
      _ ← has_rng;
      match l with
      | [SList []] => st_err (ErrArgs "choice")
      | [SList l] => i ← draw (Z.of_nat (length l)); index l i
      | _ => st_err (ErrArgs "choice")
      end
  | RSetStage l =>
      _ ← demand (bc_Events bc) (ErrAttr "events");
      match l with
      | [SString s] => _ ← emit_event (evSetStage s None); mret SNone
      | _ => st_err (ErrArgs "set_stage")
      end
  | REndStage l =>
      _ ← demand (bc_Events bc) (ErrAttr "events");
      match l with [] => _ ← emit_event evEndStage; mret SNone | _ => st_err (ErrArgs "end_stage") end
  | RModule module op l kwargs => call_op bc module op l kwargs
  | RTarget l kwargs =>
      _ ← demand (bc_Queue bc) (ErrAttr "request_target");
      match l with
      | [] =>
          req ← target_args (mkTarget "" [] 0 0 None ∅) kwargs;
          if decide (tr_Kind req = "") then st_err (ErrArgs "request_target")
          else _ ← emit_target req; mret SNone
      | _ => st_err (ErrArgs "request_target")
      end
  | RResuming l =>
      _ ← demand (bool_decide (is_Some (bc_ResumingBlock bc))) (ErrAttr "resuming_target");
      match l with
      | [] => match the_target bc with None => mret SNone | Some tr => lift_conv (ToStarlark (target_dict tr)) end
      | _ => st_err (ErrArgs "resuming_target")
      end
  | RValidate l =>
      _ ← demand (bool_decide (is_Some (bc_ResumingBlock bc))) (ErrAttr "validate_selection");
      match l, the_target bc with
      | [v], Some tr =>
          g ← lift_conv (ToGo v);
          match g with
          | GoSlice sel =>
              match ValidateSelection (mkTargetSpec (of_any <$> tr_Candidates tr) (tr_Min tr) (tr_Max tr)) sel with
              | None => mret SNone
              | Some e => st_err (ErrChoice e)
              end
          | _ => st_err (ErrArgs "validate_selection")
          end
      | _, _ => st_err (ErrArgs "validate_selection")
      end
  end.

Fixpoint exec (bc : BridgeCtx) (p : sprog) : S star :=
  match p with
  | SDone v => mret v
  | SFail => st_err ErrScript
  | SCall r k => v ← builtin bc r; exec bc (k v)
  end.

(** ** call.go

    [run] is the interpreter: a function, the fields of its [ctx] where it takes one, and
    its other arguments. *)
Context (run : F → option ctx_fields → list star → sprog).

Definition freezeState (data : args) : S star := lift_conv (ToStarlark (GoMap data)).
Definition as_dict (v : star) : S args :=
  g ← lift_conv (ToGo v); match g with GoMap m => mret m | _ => st_err ErrResult end.

Fixpoint script_args (l : list GoVal) : S (list star) :=
  match l with
  | [] => mret []
  | v :: l => s ← lift_conv (ToStarlark v); rest ← script_args l; mret (s :: rest)
  end.

Definition CallMove (s : Spec F) (bc : BridgeCtx) (moveName : string) (data : args) (l : list GoVal) : S args :=
  match sp_AllMoves s !! moveName with
  | None => st_err (ErrUnknown moveName)
  | Some mv =>
      sv ← freezeState data;
      rest ← script_args l;
      res ← exec bc (run (sm_Apply mv) (Some (fields bc)) (sv :: rest));
      as_dict res
  end.

Definition CallSetup (s : Spec F) (bc : BridgeCtx) : S args :=
  res ← exec bc (run (sp_Setup s) (Some (fields bc)) []); as_dict res.

Definition CallEndIf (s : Spec F) (bc : BridgeCtx) (data : args) : S GoVal :=
  sv ← freezeState data;
  res ← exec bc (run (sp_GameEndIf s) (Some (fields bc)) [sv]);
  lift_conv (ToGo res).

(** The empty name stays in the phase. *)
Definition CallPhaseEndIf (s : Spec F) (bc : BridgeCtx) (data : args) (phaseName : string) : S string :=
  match sp_Phases s !! phaseName with
  | None => st_err (ErrUnknown phaseName)
  | Some ph =>
      match sp_EndIf ph with
      | None => mret ""
      | Some f =>
          sv ← freezeState data;
          res ← exec bc (run f (Some (fields bc)) [sv]);
          g ← lift_conv (ToGo res);
          match g with GoNil => mret "" | GoString next => mret next | _ => st_err ErrResult end
      end
  end.

Fixpoint move_dicts (l : list GoVal) : option (list args) :=
  match l with
  | [] => Some []
  | GoMap m :: l => cons m <$> move_dicts l
  | _ => None
  end.

Definition CallLegalMoves (s : Spec F) (bc : BridgeCtx) (data : args) : S (list args) :=
  sv ← freezeState data;
  res ← exec bc (run (sp_LegalMoves s) (Some (fields bc)) [sv]);
  g ← lift_conv (ToGo res);
  match g with
  | GoSlice l => match move_dicts l with Some ms => mret ms | None => st_err ErrResult end
  | _ => st_err ErrResult
  end.

Definition CallPlayerView (s : Spec F) (bc : BridgeCtx) (data : args) (playerID : string) : S args :=
  match sp_PlayerView s with
  | None => mret data
  | Some f =>
      sv ← freezeState data;
      res ← exec bc (run f None [sv; SString playerID]);
      as_dict res
  end.
End scripts.
Arguments sprog F : clear implicits.
Arguments request F : clear implicits.

(** ** argvalidate.go *)
Definition is_int_val (v : GoVal) : bool := match v with GoInt "" KInt64 _ => true | _ => false end.

Definition validateArg (ad : ArgDef) (v : GoVal) (mods : modules) : bool :=
  let ty := ad_Type ad in
  if decide (ty ∈ [""; "any"]) then true
  else if decide (ty = "int") then
    match v with
    | GoInt "" KInt64 n =>
        match ad_Min ad with Some m => bool_decide (m ≤ n) | None => true end &&
        match ad_Max ad with Some m => bool_decide (n ≤ m) | None => true end
    | _ => false
    end
  else if decide (ty = "string") then match v with GoString _ => true | _ => false end
  else if decide (ty = "bool") then match v with GoBool _ => true | _ => false end
  else if decide (ty = "entity") then
    match v with
    | GoString tok =>
        match ParseEntityToken tok with
        | None => false
        | Some id =>
            if decide (ad_Zone ad = "") then true
            else match mods !! "ccg" with Some (MCards s) => Contains (ad_Zone ad) id s | _ => false end
        end
    | _ => false
    end
  else if decide (ty = "hex") then
    match v with GoSlice [x; y] => is_int_val x && is_int_val y | _ => false end
  else false.

Fixpoint validate_each (defs : list ArgDef) (l : list GoVal) (mods : modules) : option script_error :=
  match defs, l with
  | ad :: defs, v :: l => if validateArg ad v mods then validate_each defs l mods else Some (ErrBadArg (ad_Name ad))
  | _, _ => None
  end.

Definition validateArgs {F} (mv : ScriptMove F) (l : list GoVal) (mods : modules) : option script_error :=
  if decide (sm_ArgsDef mv = []) then None
  else if decide (length l ≠ length (sm_ArgsDef mv)) then Some (ErrArgs (sm_Name mv))
  else validate_each (sm_ArgsDef mv) l mods.

(** ** A scripted game as a game

    [src/mcp/starlarkgame]: game.go, which makes a game of a spec, and validate.go's check
    of a spec before it is registered. *)

(** Every move is given a generator of its own. *)
Definition prime64 : Z := 1099511628211.
Definition offset64 : Z := 14695981039346656037.
Definition mixed (h v : Z) : Z := u64 (Z.lxor h (u64 v) * prime64).
Definition ctxSeed (ctx : Ctx) : Z :=
  if decide (ctx_Seed ctx ≠ 0)
  then mixed (mixed (mixed offset64 (ctx_Seed ctx)) (ctx_Turn ctx)) (ctx_NumMoves ctx)
  else mixed (mixed offset64 (ctx_Turn ctx)) (ctx_NumPlayers ctx).

Section game.
Context {F : Type} (Rehydrate : string → args → option modstate).
Context (run : F → option ctx_fields → list (star F) → sprog F).
Implicit Types (s : Spec F) (mc : MoveContext) (ctx : Ctx).

Definition NewModuleStates s : modules :=
  list_to_map (omap (λ name, (name,.) <$> NewModule name) (sp_Modules s)).

Definition scope_of (mods : modules) (rng : option Z) : scope := mkScope mods rng [] [].

(** The text of the error is not modelled.  A module operation that panics, which the
    model's Setup has no room for, is taken as an error. *)
Definition setup_fn s (ctx : Ctx) (_ : any) (w : world) : any * world :=
  let '(o, sc) := CallSetup run s (NewWriteCtx (ctx_NumPlayers ctx) "") (scope_of (NewModuleStates s) (Some (ctxSeed ctx))) in
  let data := match o with Ok data => data | _ => [("__starlark_setup_error__", GoString "")] end in
  let '(w, at_) := put_modules w (Fresh ∅) (cx_mods sc) in
  (Some (VScript (mkG data at_)), w).

(** Run a callback on the live modules of a state. *)
Definition with_modules {A} (sg : StarlarkG) (rng : option Z) (m : ST scope script_error A)
    (k : outcome script_error A → scope → place → prog any) : prog any :=
  OpRead (λ w,
    let '(o, sc) := m (scope_of (modules_at w (sg_Modules sg)) rng) in
    let '(w, at_) := put_modules w (sg_Modules sg) (cx_mods sc) in
    OpWrite w (k o sc at_)).

(** An operation that panics or never returns takes the callback with it. *)
Definition end_if_fn s : HookFn := λ mc,
  match asStarlarkG Rehydrate (mc_G mc) with
  | None => Ret None
  | Some sg =>
      with_modules sg (Some (ctxSeed (mc_Ctx mc))) (CallEndIf run s (NewReadCtx (ctx_NumPlayers (mc_Ctx mc)) "") (sg_Data sg))
        (λ o _ _, match o with Ok out => Ret (to_any out) | Err _ => Ret None | _ => Crash end)
  end.

(** A view leaves no trace, so indexes that it builds are built again. *)
Definition view_fn s (G : any) (ctx : Ctx) (playerID : string) (w : world) : any :=
  match asStarlarkG Rehydrate G with
  | None => G
  | Some sg =>
      match (CallPlayerView run s (NewReadCtx (ctx_NumPlayers ctx) playerID) (sg_Data sg) playerID
              (scope_of (modules_at w (sg_Modules sg)) None)).1 with
      | Ok out => Some (VScript (mkG out (sg_Modules sg)))
      | _ => G
      end
  end.

Definition entry_action (m : args) : Action :=
  mkEnum (legalMoveName m) (to_any <$> default [] (listOr m "args")).

Definition enumerate_fn s : EnumerateFn := λ G ctx playerID w,
  match asStarlarkG Rehydrate G with
  | None => Ok []
  | Some sg =>
      match (CallLegalMoves run s (NewReadCtx (ctx_NumPlayers ctx) playerID) (sg_Data sg)
              (scope_of (modules_at w (sg_Modules sg)) (Some (ctxSeed ctx)))).1 with
      | Ok out => Ok (entry_action <$> out)
      | Err _ => Ok []
      | Panicked => Panicked
      | NoFuel => NoFuel
      end
  end.

(** What the script asked the engine for, in order, and then the rest of the move. *)
Fixpoint emit_all {A} (evs : list event) (k : prog A) : prog A :=
  match evs with [] => k | ev :: evs => OpEvent ev (emit_all evs k) end.
Fixpoint request_all {A} (playerID : string) (reqs : list TargetRequest) (k : prog A) : prog A :=
  match reqs with [] => k | req :: reqs => OpBlock (block_of_target playerID req []) (request_all playerID reqs k) end.

Definition move_ctx mc : BridgeCtx :=
  set_live (mc_Wired mc) (mc_ResumingBlock mc)
    (set_Phase (ctx_Phase (mc_Ctx mc)) (NewWriteCtx (ctx_NumPlayers (mc_Ctx mc)) (mc_PlayerID mc))).

Definition refused (e : script_error) : prog (error + any) := Ret (inl (ErrGameCode "script")).

Definition move_fn s (name : string) (mv : ScriptMove F) : MoveFn := λ mc l,
  match asStarlarkG Rehydrate (mc_G mc) with
  | None => refused ErrNotScripted
  | Some sg =>
      OpRead (λ w,
        let mods := modules_at w (sg_Modules sg) in
        match validateArgs mv (of_any <$> l) mods with
        | Some e => refused e
        | None =>
            let '(o, sc) := CallMove run s (move_ctx mc) name (sg_Data sg) (of_any <$> l)
                              (scope_of mods (Some (ctxSeed (mc_Ctx mc)))) in
            let '(w, at_) := put_modules w (sg_Modules sg) (cx_mods sc) in
            OpWrite w (emit_all (cx_events sc) (request_all (mc_PlayerID mc) (cx_targets sc)
              match o with
              | Ok data =>
                  _ ← (if sm_EndsTurn mv && mc_Wired mc then Events_EndTurn [] else Ret tt);
                  Ret (inr (Some (VScript (mkG data at_))))
              | Err e => refused e
              | _ => Crash
              end))
        end)
  end.

Definition buildMovesMap s (src : gmap string (ScriptMove F)) : gmap string MoveEntry :=
  map_imap (λ name mv, Some (EntryFn (move_fn s name mv))) src.

Definition phase_end_if s (phaseName : string) (mc : MoveContext) : prog (bool * string) :=
  match asStarlarkG Rehydrate (mc_G mc) with
  | None => Ret (false, "")
  | Some sg =>
      OpRead (λ w,
        let bc := set_Phase (ctx_Phase (mc_Ctx mc)) (NewReadCtx (ctx_NumPlayers (mc_Ctx mc)) (mc_PlayerID mc)) in
        let '(o, sc) := CallPhaseEndIf run s bc (sg_Data sg) phaseName
                          (scope_of (modules_at w (sg_Modules sg)) (Some (ctxSeed (mc_Ctx mc)))) in
        let '(w, _) := put_modules w (sg_Modules sg) (cx_mods sc) in
        OpWrite w match o with
                  | Ok next => Ret (if decide (next = "") then (false, "") else (true, next))
                  | Err _ => Ret (false, "")
                  | _ => Crash
                  end)
  end.

Definition stage_config s (st : ScriptStage F) : StageConfig :=
  mkStage (buildMovesMap s (ss_Moves st)) false (ss_Next st) None None.

Definition phase_config s (phaseName : string) (ph : ScriptPhase F) : PhaseConfig :=
  mkPhase None None ((λ _, phase_end_if s phaseName) <$> sp_EndIf ph) (Some (buildMovesMap s (sp_Moves ph))) None (sp_Start ph) NextNil.

Definition BuildCoreGame s : BotGame := mkBotGame
  (mkGame (me_Name (sp_Meta s)) (me_MinPlayers (sp_Meta s)) (me_MaxPlayers (sp_Meta s))
     (Some (setup_fn s))
     (buildMovesMap s (sp_AllMoves s))
     (if decide (sp_Stages s = ∅) then None
      else Some (mkTurn (mkOrder None None None) None None None None 0 0 0 None (stage_config s <$> sp_Stages s)))
     (map_imap (λ name ph, Some (phase_config s name ph)) (sp_Phases s))
     (Some (end_if_fn s)) None None
     ((λ _, view_fn s) <$> sp_PlayerView s) None false [])
  (Some (enumerate_fn s)).

(** ** validate.go *)

Definition name_char_ (c : Ascii.ascii) : bool := bool_decide (97 ≤ byte_of c ≤ 122 ∨ byte_of c = 95).
Fixpoint span_name (src : string) : string :=
  match src with String c src' => if name_char_ c then String c (span_name src') else "" | "" => "" end.

(** The matches of [ctx\.modules\.([a-z_]+)], from the left, none inside another. *)
Fixpoint module_refs (skip : nat) (src : string) : list string :=
  match src with
  | "" => []
  | String c src' =>
      match skip with
      | Datatypes.S skip => module_refs skip src'
      | O =>
          let name := default "" (span_name <$> strip_prefix "ctx.modules." src) in
          if decide (name = "") then module_refs 0 src' else name :: module_refs (11 + String.length name) src'
      end
  end.

Definition checkModuleRefs s : bool := bool_decide (Forall (λ name, name ∈ sp_Modules s) (module_refs 0 (sp_source s))).

Inductive smoke_error : Type :=
  | BadModuleRef
  | SetupSmoke (n : Z) (e : script_error)
  | EndIfSmoke (n : Z) (e : script_error)
  | OverAtSetup (n : Z)
  | LegalSmoke (n : Z) (e : script_error)
  | UnknownMove (n : Z) (name : string).

Definition smoke_err {A} (f : script_error → smoke_error) (o : outcome script_error A) : outcome smoke_error A :=
  match o with Ok a => Ok a | Err e => Err (f e) | Panicked => Panicked | NoFuel => NoFuel end.

(** The check for one number of players, with a generator that starts from 0. *)
Definition smoke s (n : Z) : outcome smoke_error () :=
  let '(o, sc) := CallSetup run s (NewWriteCtx n "") (scope_of (NewModuleStates s) (Some 0)) in
  data ← smoke_err (SetupSmoke n) o;
  let bc := NewReadCtx n "0" in
  let '(o, sc) := CallEndIf run s bc data (scope_of (cx_mods sc) (Some 0)) in
  over ← smoke_err (EndIfSmoke n) o;
  match over with
  | GoNil =>
      let '(o, sc) := CallLegalMoves run s bc data sc in
      moves ← smoke_err (LegalSmoke n) o;
      match List.find (λ m, negb (bool_decide (is_Some (sp_AllMoves s !! legalMoveName m)))) moves with
      | Some m => Err (UnknownMove n (legalMoveName m))
      | None => Ok tt
      end
  | _ => Err (OverAtSetup n)
  end.

Definition ValidateSpec s : outcome smoke_error () :=
  if checkModuleRefs s then _ ← smoke s (me_MinPlayers (sp_Meta s)); smoke s (me_MaxPlayers (sp_Meta s))
  else Err BadModuleRef.
End game.
