(* ===== verification/ScriptTheorems.v ===== *)
(** * What a loaded spec is, and what the game made of it keeps to *)

From Stdlib Require Import SpecFloat.
From S2P Require Import Prelude CoreTypes Api GameDef Random Choices Cards CardFacts Bots Json.
From S2P Require Import GameSpec Bridge BridgeTheorems Scripts.
#[local] Open Scope Z_scope.

Section spec.
Context {F : Type}.
Abbreviation dict := (list (star F * star F)).

(** A table of moves: some, each under its own name. *)
Definition move_table (t : gmap string (ScriptMove F)) : Prop :=
  t ≠ ∅ ∧ ∀ k m, t !! k = Some m → sm_Name m = k.

Record well_formed (s : Spec F) : Prop := {
  wf_name : nameRe (me_Name (sp_Meta s));
  wf_players : 1 ≤ me_MinPlayers (sp_Meta s) ≤ me_MaxPlayers (sp_Meta s) ∧ me_MaxPlayers (sp_Meta s) ≤ 16;
  wf_moves : move_table (sp_AllMoves s);
  wf_start : sp_Phases s = ∅ ∧ sp_StartPhase s = "" ∨ sp_StartPhase s ≠ "" ∧ is_Some (sp_Phases s !! sp_StartPhase s);
  wf_phases : ∀ k ph, sp_Phases s !! k = Some ph →
    sp_Name ph = k ∧ move_table (sp_Moves ph) ∧ (k ≠ "" → sp_Start ph = true ↔ k = sp_StartPhase s);
  wf_stages : ∀ k st, sp_Stages s !! k = Some st → ss_Name st = k ∧ move_table (ss_Moves st);
  wf_modules : ∀ m, m ∈ sp_Modules s → m ∈ knownModules ∧ (m ∈ ["economy"; "shop"] → "ccg" ∈ sp_Modules s);
  wf_hooks : sp_Hooks s ≠ [] → "ccg" ∈ sp_Modules s
}.

Lemma within_Ok {A} place (o : outcome spec_error A) a : within place o = Ok a → o = Ok a.
Proof. by destruct o. Qed.

Lemma read_table_keeps {A} table read (P : string → A → Prop) (d : dict) acc t :
  (∀ k v a, read k v = Ok a → P k a) → (∀ k a, acc !! k = Some a → P k a) →
  read_table table read d acc = Ok t → ∀ k a, t !! k = Some a → P k a.
Proof.
  intros Hread. revert acc. induction d as [|[[] v] d IH]; intros acc Hacc; simpl; try done; [by intros [= <-]|].
  intros (a & Ha%within_Ok & Ht)%outcome_bind_Ok. revert Ht. apply IH.
  intros k a' [[<- <-]|[_ Hk]]%lookup_insert_Some; eauto.
Qed.

Lemma readMove_name k (v : star F) m : readMove k v = Ok m → sm_Name m = k.
Proof.
  destruct v; try done. simpl. intros (? & _ & H)%outcome_bind_Ok. apply outcome_bind_Ok in H as (? & _ & H).
  apply outcome_bind_Ok in H as (? & _ & H). by injection H as <-.
Qed.

Lemma read_moves_table (v : option (star F)) t : read_moves v = Ok t → move_table t.
Proof.
  destruct v as [[]|]; try done. simpl. intros (moves & Hm & H)%outcome_bind_Ok. case_decide as He; [done|].
  injection H as <-. split; [done|]. revert Hm. apply read_table_keeps; [apply readMove_name|done].
Qed.

Lemma readPhase_facts k (v : star F) ph : readPhase k v = Ok ph → sp_Name ph = k ∧ move_table (sp_Moves ph).
Proof.
  destruct v; try done. simpl. intros (? & Hm%read_moves_table & H)%outcome_bind_Ok.
  apply outcome_bind_Ok in H as (? & _ & H). apply outcome_bind_Ok in H as (? & _ & H). by injection H as <-.
Qed.

Lemma readStage_facts k (v : star F) st : readStage k v = Ok st → ss_Name st = k ∧ move_table (ss_Moves st).
Proof.
  destruct v; try done. simpl. intros (? & Hm%read_moves_table & H)%outcome_bind_Ok.
  apply outcome_bind_Ok in H as (? & _ & H). by injection H as <-.
Qed.

Definition fresh_keys (d : dict) (acc : gmap string (ScriptPhase F)) : Prop :=
  NoDup d.*1 ∧ ∀ k, SString k ∈ d.*1 → acc !! k = None.

(** The phases read so far: the start phase is the one marked, but for the empty name. *)
Definition phases_ok (r : gmap string (ScriptPhase F) * string) : Prop :=
  (r.2 = "" ∨ is_Some (r.1 !! r.2)) ∧
  ∀ k ph, r.1 !! k = Some ph →
    sp_Name ph = k ∧ move_table (sp_Moves ph) ∧ (k ≠ "" → sp_Start ph = true ↔ k = r.2).

Lemma read_phases_ok (d : dict) acc start r : fresh_keys d acc → phases_ok (acc, start) →
  read_phases d acc start = Ok r → phases_ok r.
Proof.
  revert acc start. induction d as [|[[] v] d IH]; intros acc start [Hnd Hfresh] Hok; simpl; try done; [by intros [= <-]|].
  apply NoDup_cons in Hnd as [Hs Hnd]. assert (Hacc : acc !! s = None) by (apply Hfresh; by left).
  intros (ph & [Hname Hmoves]%within_Ok%readPhase_facts & H)%outcome_bind_Ok.
  assert (Hf : ∀ acc', acc' = <[s := ph]> acc → fresh_keys d acc').
  { intros acc' ->. split; [done|]. intros k Hk. rewrite lookup_insert_ne; [apply Hfresh; by right|]. intros ->. by apply Hs. }
  destruct Hok as [Hst Hall]. simpl in Hst, Hall.
  destruct (sp_Start ph) eqn:Hps.
  - case_decide as Hempty; [done|]. subst start.
    revert H. apply (IH (<[s := ph]> acc) s (Hf _ eq_refl)). split; [right; simpl; rewrite lookup_insert_eq; eauto|].
    simpl. intros k ph' [[<- <-]|[Hne Hk]]%lookup_insert_Some; [done|].
    destruct (Hall k ph' Hk) as (H1 & H2 & H3). split; [done|]. split; [done|]. intros Hk0. rewrite (H3 Hk0). split; congruence.
  - revert H. apply (IH (<[s := ph]> acc) start (Hf _ eq_refl)). split.
    { simpl. destruct Hst as [?|[ph' Hp]]; [by left|right]. rewrite lookup_insert_ne; [eauto|]. intros ->. congruence. }
    simpl. intros k ph' [[<- <-]|[Hne Hk]]%lookup_insert_Some; [|by apply Hall].
    split; [done|]. split; [done|]. intros Hk0. rewrite Hps. split; [done|]. intros ->.
    destruct Hst as [?|[? ?]]; congruence.
Qed.

Lemma readPhases_ok globals r : (∀ d, globals !! "PHASES" = Some (SDict d) → NoDup d.*1) →
  readPhases globals = Ok r → phases_ok r ∧ (r = (∅, "") ∨ r.2 ≠ "").
Proof.
  intros Hd. unfold readPhases.
  assert (Hnone : phases_ok ((∅ : gmap string (ScriptPhase F)), "")) by (split; [by left|]; intros k ph Hk; simpl in Hk; by rewrite lookup_empty in Hk).
  destruct (globals !! "PHASES") as [v|]; [|intros [= <-]; by split; [|left]]. destruct v as [| | | | | | |d| |]; try done.
  destruct d as [|e d]; [intros [= <-]; by split; [|left]|].
  intros (r' & Hr & H)%outcome_bind_Ok. case_decide as He; [done|]. injection H as <-. split; [|by right].
  revert Hr. apply read_phases_ok; [|done]. split; [by apply Hd|]. intros k _. apply lookup_empty.
Qed.

Lemma module_names_known (l : list (star F)) names m : module_names l = Ok names → m ∈ names → m ∈ knownModules.
Proof.
  revert names. induction l as [|[] l IH]; intros names; simpl; try done; [by intros [= <-] ?%not_elem_of_nil|].
  case_decide; [|done]. intros (rest & Hr & [= <-])%outcome_bind_Ok [->|Hm]%elem_of_cons; [done|by apply (IH rest)].
Qed.

Lemma readModules_ok (globals : gmap string (star F)) names m : readModules globals = Ok names → m ∈ names →
  m ∈ knownModules ∧ (m ∈ ["economy"; "shop"] → "ccg" ∈ names).
Proof.
  unfold readModules. destruct (globals !! "MODULES") as [[]|]; try done; [|by intros [= <-] ?%not_elem_of_nil].
  intros (ns & Hn & H)%outcome_bind_Ok Hm. destruct (List.find _ ns) eqn:Hf; [done|]. injection H as <-.
  split; [by eapply module_names_known|]. intros Hes. pose proof (List.find_none _ _ Hf m) as Hno. simpl in Hno.
  apply dec_stable. intros Hccg. rewrite bool_decide_eq_true_2, bool_decide_eq_false_2 in Hno by done.
  discriminate Hno. by apply list_elem_of_In.
Qed.

Lemma readHooks_ok (globals : gmap string (star F)) modules hooks : readHooks globals modules = Ok hooks →
  hooks ≠ [] → "ccg" ∈ modules.
Proof.
  unfold readHooks. destruct (globals !! "HOOKS") as [[]|]; try done; [|by intros [= <-]].
  destruct m; [by intros [= <-]|]. by case_decide.
Qed.

Lemma loaded_well_formed exec_file source (s : Spec F) :
  (∀ globals d, exec_file source = Some globals → globals !! "PHASES" = Some (SDict d) → NoDup d.*1) →
  LoadSpec exec_file source = Ok s → well_formed s.
Proof.
  unfold LoadSpec. intros Hdict. destruct (exec_file source) as [globals|]; [|done]. unfold spec_of.
  intros (meta & Hmeta & H)%outcome_bind_Ok. case_decide as Hname; [done|].
  apply outcome_bind_Ok in H as (setup & _ & H). apply outcome_bind_Ok in H as (end_if & _ & H).
  apply outcome_bind_Ok in H as (legal & _ & H). apply outcome_bind_Ok in H as (view & _ & H).
  apply outcome_bind_Ok in H as (moves & Hmoves%read_moves_table & H).
  apply outcome_bind_Ok in H as (phases & Hphases%readPhases_ok & H); [|by intros d; apply Hdict].
  apply outcome_bind_Ok in H as (stages & Hstages & H).
  apply outcome_bind_Ok in H as (modules & Hmodules & H). apply outcome_bind_Ok in H as (hooks & Hhooks & H).
  injection H as <-. destruct Hphases as [[Hst Hph] Hor]. split; simpl; try done.
  - unfold readMeta in Hmeta. destruct (globals !! "META") as [[]|]; try done.
    apply outcome_bind_Ok in Hmeta as (? & _ & Hmeta). apply outcome_bind_Ok in Hmeta as (? & _ & Hmeta).
    apply outcome_bind_Ok in Hmeta as (? & _ & Hmeta). case_decide; [done|]. injection Hmeta as <-. simpl. lia.
  - destruct Hor as [->|Hne]; [by left|right]. by destruct Hst.
  - unfold readStages in Hstages. destruct (globals !! "STAGES") as [[]|]; try done.
    + revert Hstages. apply read_table_keeps; [apply readStage_facts|]. intros k a. by rewrite lookup_empty.
    + injection Hstages as <-. intros k st. by rewrite lookup_empty.
  - intros m Hm. by apply (readModules_ok globals).
  - by apply (readHooks_ok globals).
Qed.

(** A spec that loads is well-formed: a name and a number of players within bounds, every
    table of moves filled and under the moves' own names, the start phase the one phase that
    is marked, modules that exist with the card module where others need it. *)
Theorem loaded_specs_are_well_formed exec_file source (s : Spec F) :
  (∀ globals d, exec_file source = Some globals → globals !! "PHASES" = Some (SDict d) → NoDup d.*1) →
  LoadSpec exec_file source = Ok s → well_formed s.
Proof. apply loaded_well_formed. Qed.
End spec.

(** ** A spec *)
Definition toy_move : star nat := SDict [(SString "apply", SFun 1%nat)].
Definition toy_globals : gmap string (star nat) :=
  {["META" := SDict [(SString "name", SString "toy"); (SString "min_players", SInt 1); (SString "max_players", SInt 4)];
    "setup" := SFun 0%nat; "end_if" := SFun 2%nat; "legal_moves" := SFun 3%nat;
    "MOVES" := SDict [(SString "roll", toy_move)];
    "PHASES" := SDict [(SString "day", SDict [(SString "start", SBool true); (SString "moves", SDict [(SString "rest", toy_move)])])];
    "MODULES" := SList [SString "ccg"; SString "economy"]]}.

Definition toy_spec : Spec nat :=
  mkSpec (mkMeta "toy" 1 4 "") 0%nat {["roll" := mkScriptMove "roll" [] 1%nat true]} 2%nat 3%nat None
    {["day" := mkScriptPhase "day" {["rest" := mkScriptMove "rest" [] 1%nat true]} None true]} "day" ∅
    ["ccg"; "economy"] [] "".

Lemma toy_loads : LoadSpec (λ _, Some toy_globals) "" = Ok toy_spec.
Proof. vm_compute. reflexivity. Qed.

Lemma toy_dicts globals d : Some toy_globals = Some globals → globals !! "PHASES" = Some (SDict d) → NoDup d.*1.
Proof. intros [= <-] [= <-]. apply NoDup_singleton. Qed.

Lemma toy_well_formed : well_formed toy_spec.
Proof. apply (loaded_well_formed (λ _, Some toy_globals) ""); [exact toy_dicts|exact toy_loads]. Qed.

Lemma loaded_specs_are_well_formed_witness : well_formed toy_spec.
Proof. apply (loaded_specs_are_well_formed (λ _, Some toy_globals) ""); [exact toy_dicts|exact toy_loads]. Defined.

(** ** What a scripted game keeps to *)

(** ** Speculative callbacks

    A callback that asks about a position runs on the live modules of the game that goes
    on. *)

(** A context that may only look. *)
Definition looks_only (bc : BridgeCtx) : Prop := bc_ReadOnly bc = true ∧ bc_Events bc = false ∧ bc_Queue bc = false.

Record same_scope (sc0 sc : scope) : Prop := {
  ss_mods : observe <$> cx_mods sc = observe <$> cx_mods sc0;
  ss_events : cx_events sc = cx_events sc0;
  ss_targets : cx_targets sc = cx_targets sc0
}.

Lemma same_scope_refl sc : same_scope sc sc.
Proof. done. Qed.

Section reading.
Context {F : Type}.
Abbreviation S := (ST scope script_error).
Implicit Types (sc : scope).

Lemma reads_lift_conv {A} (o : outcome conv_error A) : reads (lift_conv o).
Proof. done. Qed.
Lemma reads_demand b e : reads (demand b e).
Proof. by destruct b. Qed.
Lemma reads_index (l : list (star F)) i : reads (index l i).
Proof. unfold index. by case_match. Qed.
Lemma reads_module_ops name : reads (module_ops name).
Proof. done. Qed.
Lemma reads_has_rng : reads has_rng.
Proof. done. Qed.
Lemma reads_go_kwargs (kwargs : list (string * star F)) : reads (go_kwargs kwargs).
Proof.
  induction kwargs as [|[k v] l IH]; simpl; [done|].
  apply reads_bind; [done|]. intros g. by apply reads_bind.
Qed.

Context (sc0 : scope).

Lemma keeps_draw n : keeps (same_scope sc0) (draw n).
Proof. intros sc Hsc. unfold draw. destruct (cx_rng sc) as [r|]; [|done]. destruct (intn n r). split; apply Hsc. Qed.

Lemma keeps_shuffle_down frozen i : ∀ l : list (star F), keeps (same_scope sc0) (shuffle_down frozen i l).
Proof.
  induction i as [|i IH]; intros l; simpl; [apply keeps_ret|].
  apply keeps_bind; [apply keeps_draw|]. intros j.
  apply keeps_bind; [apply keeps_reads, reads_index|]. intros bi.
  apply keeps_bind; [apply keeps_reads, reads_index|]. intros bj.
  apply keeps_bind; [apply keeps_reads, reads_demand|]. intros _. apply IH.
Qed.

Lemma keeps_run_op module op m : op ∈ Ops module → op_ReadOnly op = true → keeps (same_scope sc0) (run_op op m).
Proof.
  intros Hop Hro sc Hsc. unfold run_op.
  pose proof (read_only_op_observes module op m (cx_mods sc, cx_rng sc) Hop Hro (cx_mods sc, cx_rng sc) eq_refl) as Hk.
  destruct (op_Call op m (cx_mods sc, cx_rng sc)) as [o [mods rng]]. unfold same_as, observed in Hk. simpl in *.
  split; simpl; try apply Hsc. rewrite <-(ss_mods _ _ Hsc). congruence.
Qed.

Lemma keeps_target_args req (kwargs : list (string * star F)) : keeps (same_scope sc0) (target_args req kwargs).
Proof.
  revert req. induction kwargs as [|[k v] l IH]; intros req; simpl; [apply keeps_ret|].
  apply keeps_bind; [by apply keeps_reads|]. intros g. case_match; [apply IH|apply keeps_err].
Qed.

Lemma keeps_call_op bc module name (l : list (star F)) kwargs : looks_only bc → keeps (same_scope sc0) (call_op bc module name l kwargs).
Proof.
  intros (Hro & _ & _). unfold call_op. apply keeps_bind_reads; [done|]. intros sc ops Hsc Hops.
  destruct (List.find _ ops) as [op|] eqn:Hfind; [|by apply keeps_err].
  apply List.find_some in Hfind as [Hin _]. rewrite Hro. destruct (op_ReadOnly op) eqn:Hop; simpl; [|done].
  revert sc Hsc Hops. intros sc Hsc Hops.
  assert (op ∈ Ops module) as Hmod.
  { unfold Ops. unfold module_ops in Hops. destruct (cx_mods sc !! module), (RegistryFor module); simplify_eq. simpl. by apply list_elem_of_In. }
  revert sc Hsc Hops. intros sc Hsc _. revert sc Hsc. fold (keeps (same_scope sc0)
    (_ ← demand (bool_decide (l = [])) (ErrArgs name); m ← go_kwargs kwargs; res ← run_op op m; lift_conv (ToStarlark (F:=F) res))).
  apply keeps_bind; [apply keeps_reads, reads_demand|]. intros _.
  apply keeps_bind; [apply keeps_reads, reads_go_kwargs|]. intros m.
  apply keeps_bind; [by eapply keeps_run_op|]. intros res. by apply keeps_reads.
Qed.
End reading.

Section callbacks.
Context {F : Type}.
Context (sc0 : scope).
Implicit Types (bc : BridgeCtx).

Ltac looking := repeat first
  [ progress (intros; simpl)
  | apply keeps_ret
  | apply keeps_err
  | apply keeps_draw
  | apply keeps_shuffle_down
  | apply keeps_target_args
  | apply keeps_reads, reads_demand
  | apply keeps_reads, reads_index
  | apply keeps_reads; done
  | apply keeps_bind
  | case_decide
  | case_match ].

Lemma keeps_builtin bc (r : request F) : looks_only bc → keeps (same_scope sc0) (builtin bc r).
Proof.
  intros Hbc. destruct r; simpl; try (by looking).
  - destruct Hbc as (_ & -> & _). apply keeps_err.
  - destruct Hbc as (_ & -> & _). apply keeps_err.
  - by apply keeps_call_op.
  - destruct Hbc as (_ & _ & ->). apply keeps_err.
Qed.

Lemma keeps_exec bc (p : sprog F) : looks_only bc → keeps (same_scope sc0) (exec bc p).
Proof.
  intros Hbc. induction p as [v| |r k IH]; simpl; [apply keeps_ret|apply keeps_err|].
  apply keeps_bind; [by apply keeps_builtin|done].
Qed.

Context (run : F → option ctx_fields → list (star F) → sprog F).
Implicit Types (s : Spec F).

Lemma keeps_as_dict (v : star F) : keeps (same_scope sc0) (as_dict v).
Proof. unfold as_dict. looking. Qed.

Lemma keeps_CallEndIf s bc data : looks_only bc → keeps (same_scope sc0) (CallEndIf run s bc data).
Proof. intros Hbc. unfold CallEndIf, freezeState. looking. by apply keeps_exec. Qed.
Lemma keeps_CallPhaseEndIf s bc data phase : looks_only bc → keeps (same_scope sc0) (CallPhaseEndIf run s bc data phase).
Proof. intros Hbc. unfold CallPhaseEndIf, freezeState. looking; by apply keeps_exec. Qed.
Lemma keeps_CallLegalMoves s bc data : looks_only bc → keeps (same_scope sc0) (CallLegalMoves run s bc data).
Proof. intros Hbc. unfold CallLegalMoves, freezeState. looking; by apply keeps_exec. Qed.
Lemma keeps_CallPlayerView s bc data p : looks_only bc → keeps (same_scope sc0) (CallPlayerView run s bc data p).
Proof.
  intros Hbc. unfold CallPlayerView, freezeState. looking; try apply keeps_as_dict; by apply keeps_exec.
Qed.
End callbacks.

(** C40: Whatever a spec's scripts try, a callback that asks about a position - whether the
    game or a phase is over, which moves there are, what a player sees - leaves the live
    modules as they were, apart from indexes built when first needed, and asks the engine for
    no event and no target; this holds when it fails, too. *)
Theorem speculative_callbacks_change_nothing {F} (run : F → option ctx_fields → list (star F) → sprog F) (s : Spec F)
    numPlayers playerID phase data sc :
  let bc := set_Phase phase (NewReadCtx numPlayers playerID) in
  same_scope sc (CallEndIf run s bc data sc).2 ∧
  same_scope sc (CallPhaseEndIf run s bc data phase sc).2 ∧
  same_scope sc (CallLegalMoves run s bc data sc).2 ∧
  same_scope sc (CallPlayerView run s bc data playerID sc).2.
Proof.
  intros bc. assert (looks_only bc) as Hbc by done. split_and!;
    [apply keeps_CallEndIf|apply keeps_CallPhaseEndIf|apply keeps_CallLegalMoves|apply keeps_CallPlayerView]; done.
Qed.

(** ** What LoadSpec accepts, the engine accepts *)
Section accepted.
Context {F : Type} (Rehydrate : string → args → option modstate).
Context (run : F → option ctx_fields → list (star F) → sprog F).
Implicit Types (s : Spec F).

Lemma bad_names_none (m : gmap string MoveEntry) : (∀ k v, m !! k = Some v → bad_entry v = false) → bad_names m = [].
Proof.
  intros Hm. unfold bad_names. destruct (filter _ _) as [|[k v] l] eqn:Hf; [done|].
  assert ((k, v) ∈ filter (λ '(_, v), bad_entry v = true) (map_to_list m)) as Hin by (rewrite Hf; by left).
  apply list_elem_of_filter in Hin as [Hb Hin]. apply elem_of_map_to_list in Hin. specialize (Hm k v Hin). congruence.
Qed.

Lemma moves_accepted s src : bad_names (buildMovesMap Rehydrate run s src) = [].
Proof.
  apply bad_names_none. intros k v. unfold buildMovesMap. rewrite map_lookup_imap.
  destruct (src !! k); simpl; [by intros [= <-]|done].
Qed.

Lemma bind_nil {A B} (f : A → list B) l : (∀ x, x ∈ l → f x = []) → l ≫= f = [].
Proof.
  induction l as [|x l IH]; intros Hf; [done|]. rewrite bind_cons, (Hf x) by (by left). apply IH. intros y Hy. apply Hf. by right.
Qed.

Lemma NoDup_fst_filter {K A} (P : K * A → Prop) `{∀ x, Decision (P x)} (l : list (K * A)) : NoDup l.*1 → NoDup (filter P l).*1.
Proof.
  induction l as [|x l IH]; [done|]. rewrite fmap_cons, NoDup_cons, filter_cons. intros [Hx Hl]. case_decide; [|by apply IH].
  rewrite fmap_cons, NoDup_cons. split; [|by apply IH]. intros (y & Hy & Hin)%list_elem_of_fmap. apply Hx.
  rewrite Hy. apply list_elem_of_filter in Hin as [_ Hin]. apply list_elem_of_fmap. eauto.
Qed.

Lemma one_start s : well_formed s → sp_Phases s !! "" = None →
  (length (start_names (bg_Game (BuildCoreGame Rehydrate run s))) ≤ 1)%nat.
Proof.
  intros Hwf Hempty. unfold start_names. rewrite length_fmap.
  set (P := λ kp : string * PhaseConfig, let '(_, p) := kp in pc_Start p = true).
  set (l := filter _ _). assert (NoDup l.*1) as Hnd by apply NoDup_fst_filter, NoDup_fst_map_to_list.
  assert (Forall (λ k, k = sp_StartPhase s) l.*1) as Hall.
  { apply Forall_fmap, Forall_forall. intros [k p] Hin. simpl. unfold l in Hin.
    apply list_elem_of_filter in Hin as [Hs Hin]. apply elem_of_map_to_list in Hin. simpl in Hin.
    rewrite map_lookup_imap in Hin. destruct (sp_Phases s !! k) as [ph|] eqn:Hph; [|done]. simpl in Hin. injection Hin as <-.
    destruct (wf_phases _ Hwf k ph Hph) as (_ & _ & Hiff). apply Hiff; [|done]. intros ->. congruence. }
  revert Hnd Hall. rewrite <-(length_fmap fst). destruct l as [|a [|b l]]; simpl; [lia..|].
  intros Hnd Hall. apply Forall_cons in Hall as [Ha Hall]. apply Forall_cons in Hall as [Hb _].
  apply NoDup_cons in Hnd as [Hnin _]. destruct Hnin. rewrite Ha, Hb. by left.
Qed.

Lemma scripted_validate s : well_formed s → sp_Phases s !! "" = None →
  Validate (bg_Game (BuildCoreGame Rehydrate run s)) = [].
Proof.
  intros Hwf Hempty. unfold Validate. rewrite decide_False by (pose proof (one_start s Hwf Hempty); lia).
  assert (∀ mk, stage_problems mk (stage_config Rehydrate run s <$> sp_Stages s) = []) as Hstages.
  { intros mk. apply bind_nil. intros [k st] Hin. apply elem_of_map_to_list in Hin. rewrite lookup_fmap in Hin.
    destruct (sp_Stages s !! k); [|done]. injection Hin as <-. simpl. by rewrite moves_accepted. }
  assert (∀ k p, gm_Phases (bg_Game (BuildCoreGame Rehydrate run s)) !! k = Some p → ∃ ph, p = phase_config Rehydrate run s k ph) as Hphases.
  { intros k p. simpl. rewrite map_lookup_imap. destruct (sp_Phases s !! k); [|done]. intros [= <-]. eauto. }
  cbn [gm_Setup BuildCoreGame bg_Game]. rewrite (bind_nil (λ '(n, p), next_problem _ n p)), (bind_nil (λ '(n, p), phase_problems n p)).
  - cbn [gm_Moves gm_Turn gm_MinPlayers gm_MaxPlayers]. rewrite moves_accepted. simpl.
    case_decide as Hst; simpl; [|rewrite Hstages]; simpl; rewrite decide_False; try done;
      destruct (wf_players _ Hwf); lia.
  - intros [k p] Hin. apply elem_of_map_to_list, Hphases in Hin as (ph & ->). unfold phase_problems. simpl. by rewrite moves_accepted.
  - intros [k p] Hin. apply elem_of_map_to_list, Hphases in Hin as (ph & ->). done.
Qed.

(** The game made of a well-formed spec has nothing that the engine's own check of a
    game complains about, unless one of its phases has the empty name. *)
Theorem scripted_games_validate s : well_formed s → sp_Phases s !! "" = None →
  Validate (bg_Game (BuildCoreGame Rehydrate run s)) = [].
Proof. apply scripted_validate. Qed.
End accepted.

(** ** What goes wrong *)
Section scoped.
Context {F : Type} (Rehydrate : string → args → option modstate).
Context (interp : F → option ctx_fields → list (star F) → sprog F).

(** A move that only a phase or a stage declares is looked up among the top-level moves,
    so it always fails. *)
Theorem scoped_moves_fail (s : Spec F) name mv mc l extra e : sp_AllMoves s !! name = None →
  ∃ e', run (mc_Ctx mc) (move_fn Rehydrate interp s name mv mc l) extra e = (Ok (inl (ErrGameCode "script"), extra), e').
Proof.
  intros Hnone. unfold move_fn, CallMove. rewrite Hnone. destruct (asStarlarkG Rehydrate (mc_G mc)) as [sg|]; simpl; [|eauto].
  destruct (validateArgs _ _ _); simpl; [eauto|]. destruct (put_modules _ _ _). simpl. eauto.
Qed.
End scoped.

(** An argument declared an int is refused when it arrives as JSON, whose numbers are
    floats. *)
Theorem json_int_args_are_refused ad f mods : ad_Type ad = "int" → validateArg ad (GoFloat "" f) mods = false.
Proof. unfold validateArg. intros ->. repeat case_decide; set_solver. Qed.

(** The toy's move makes a zone and then fails. *)
Definition toy_run (f : nat) (ctx : option ctx_fields) (l : list (star nat)) : sprog nat :=
  match f with
  | 0%nat => SDone (SDict [])
  | 1%nat => SCall (RModule "ccg" "new_zone" [] [("name", SString "deck")]) (λ _, SFail)
  | 2%nat => SDone SNone
  | _ => SDone (SList [SDict [(SString "move", SString "roll")]])
  end.

Definition toy_ctx : Ctx := mkCtx 2 "0" ["0"; "1"] 0 1 "day" None None 0 0 7.
Definition toy_game : BotGame := BuildCoreGame (λ _ _, None) toy_run toy_spec.
Definition toy_start : any * world := setup_fn toy_run toy_spec toy_ctx None [].
Definition toy_mc : MoveContext := mkMC toy_start.1 toy_ctx "0" None None None true None [] 0.
Definition toy_env : hookEnv := mkEnv (Some []) (Some (mkQueue [] [])) None None toy_start.2.

(** A zone of the first game's cards. *)
Definition has_zone (name : string) (w : world) : bool :=
  match w !! 0%nat with
  | Some mods => match mods !! "ccg" with Some (MCards s) => bool_decide (is_Some (Zones s !! name)) | _ => false end
  | None => false
  end.

(** A move that is refused has changed the game's modules all the same. *)
Theorem refused_moves_change_modules :
  has_zone "deck" (env_world toy_env) = false ∧
  ∃ e, run toy_ctx (move_fn (λ _ _, None) toy_run toy_spec "roll" (mkScriptMove "roll" [] 1%nat true) toy_mc []) [] toy_env =
    (Ok (inl (ErrGameCode "script"), []), e) ∧ has_zone "deck" (env_world e) = true.
Proof. split; [vm_compute; reflexivity|]. eexists. split; vm_compute; reflexivity. Qed.

(** ** Witnesses *)
Lemma scripted_games_validate_witness : Validate (bg_Game toy_game) = [].
Proof. apply scripted_games_validate; [exact toy_well_formed|reflexivity]. Defined.
