(* ===== verification/Registry.v ===== *)
(** * Who owns which match and which game

    [src/mcp]: ownership.go, usergames.go and registry.go.  The stores of owners and of designed
    games are interfaces; here are the two in memory.  The games' store on disk is in
    Skills.v.  The second half has what they promise. *)

From stdpp Require Import sorting.
From S2P Require Import Prelude CoreTypes GameDef Storage Manager ManagerFacts Bots Json GameSpec Bridge Scripts ScriptTheorems.
#[local] Open Scope Z_scope.

(** ** ownership.go

    The user of a request is a string, "" when there is none. *)
Inductive ownership_error : Type :=
  | ErrUserRequired | ErrMatchRequired | ErrOwnedByAnother (matchID : string) | ErrOwnershipBackend (code : Z).

Class OwnershipStore (O : Type) := {
  Claim : string → string → ST O ownership_error ();
  Owns : string → string → ST O ownership_error bool;
  MatchesFor : string → ST O ownership_error (list string)
}.

Record MemoryOwnership := mkMemoryOwnership {
  mo_owners : gmap string string;
  mo_byUserID : gmap string (list string)
}.
Definition NewMemoryOwnership : MemoryOwnership := mkMemoryOwnership ∅ ∅.

Definition matches_of (userID : string) (s : MemoryOwnership) : list string := default [] (mo_byUserID s !! userID).

Definition Memory_Claim (userID matchID : string) : ST MemoryOwnership ownership_error () := λ s,
  if decide (userID = "") then (Err ErrUserRequired, s)
  else if decide (matchID = "") then (Err ErrMatchRequired, s)
  else if decide (default userID (mo_owners s !! matchID) ≠ userID) then (Err (ErrOwnedByAnother matchID), s)
  else
    let owners := <[matchID := userID]> (mo_owners s) in
    let mine := matches_of userID s in
    (Ok tt, mkMemoryOwnership owners
              (if decide (matchID ∈ mine) then mo_byUserID s else <[userID := mine ++ [matchID]]> (mo_byUserID s))).

Definition Memory_Owns (userID matchID : string) : ST MemoryOwnership ownership_error bool := λ s,
  (Ok (match mo_owners s !! matchID with Some owner => bool_decide (owner = userID) | None => false end), s).

#[export] Instance Memory_OwnershipStore : OwnershipStore MemoryOwnership := {
  Claim := Memory_Claim;
  Owns := Memory_Owns;
  MatchesFor userID := λ s, (Ok (matches_of userID s), s)
}.

(** ** usergames.go

    A [time.Time] is its nanoseconds since year 1, 0 the zero time; the clock's reading is
    an argument of [Put]. *)
Record UserGame := mkUserGame {
  ug_UserID : string; ug_Name : string; ug_Source : string; ug_LLMGuide : string; ug_CreatedAt : Z
}.

Inductive store_failure : Type := NotAGame | BadSource | StoreFailed (code : Z).

Class UserGameStore (U : Type) := {
  PutGame : Z → UserGame → ST U store_failure ();
  GetGame : string → string → ST U store_failure (option UserGame);
  ListGames_ : string → ST U store_failure (list string);
  ListAll : ST U store_failure (list UserGame);
  Delete : string → string → ST U store_failure ()
}.

(** The order of Go's strings. *)
Definition sorted_by {A} (name : A → string) : list A → list A := merge_sort (λ a b, String.le (name a) (name b)).

Abbreviation InMemoryUserGames := (gmap string UserGame).
Definition ugKey (userID name : string) : string := userID +:+ String nul name.

Definition stamped (now : Z) (ug : UserGame) : UserGame :=
  if decide (ug_CreatedAt ug = 0) then mkUserGame (ug_UserID ug) (ug_Name ug) (ug_Source ug) (ug_LLMGuide ug) now else ug.

(** The names under a user's prefix; a key that is the prefix alone is left out. *)
Definition own_name (userID key : string) : option string :=
  match strip_prefix (ugKey userID "") key with Some "" => None | r => r end.

#[export] Instance InMemory_Store : UserGameStore InMemoryUserGames := {
  PutGame now ug := λ s, let ug := stamped now ug in (Ok tt, <[ugKey (ug_UserID ug) (ug_Name ug) := ug]> s);
  GetGame userID name := λ s, (Ok (s !! ugKey userID name), s);
  ListGames_ userID := λ s, (Ok (sorted_by id (omap (own_name userID) (map_to_list s).*1)), s);
  ListAll := λ s, (Ok (map_to_list s).*2, s);
  Delete userID name := λ s, (Ok tt, delete (ugKey userID name) s)
}.

(** ** registry.go *)
Record GameListing := mkListing { gl_Name : string; gl_MinPlayers : Z; gl_MaxPlayers : Z; gl_UserOwned : bool }.

Definition userGameKeyPrefix : string := "usergame:".
Definition managerKeyFor (userID publicName : string) : string := userGameKeyPrefix +:+ (userID +:+ String colon publicName).
Definition hasUserGameKeyPrefix (s : string) : bool := bool_decide (is_Some (strip_prefix userGameKeyPrefix s)).

Definition publicGameName (managerKey : string) : string :=
  match strip_prefix userGameKeyPrefix managerKey with
  | None => managerKey
  | Some rest => match after_first colon rest with Some name => name | None => managerKey end
  end.

(** [strings.Contains] *)
Fixpoint contains (part s : string) : bool :=
  bool_decide (is_Some (strip_prefix part s)) || match s with EmptyString => false | String _ s => contains part s end.

(** Names that the text of a problem repeats; nothing else in the text reads "already". *)
Definition names_in (p : problem) : list string :=
  match p with
  | SetupNil | PlayersOrder _ _ => []
  | MultipleStarts names => names
  | DanglingNext phase next => [phase; next]
  | BadMove name => [name]
  | BadPhaseMove a b | BadStageMove a b => [a; b]
  | BadPhaseStageMove a b c => [a; b; c]
  end.
Definition says_already (e : manager_error) : bool :=
  match e with
  | InvalidGame ps => existsb (contains "already") (ps ≫= names_in)
  | _ => false
  end.

Section registry.
Context {S : Type} `{!Storage S}.
Context {F : Type} (Rehydrate : string → args → option modstate).
Context (run : F → option ctx_fields → list (star F) → sprog F) (exec_file : string → option (gmap string (star F))).
Abbreviation Mgr := (Manager.Manager (S:=S)).

(** The manager, and the [Enumerate] of each of its games, which the manager itself does
    not look at. *)
Record Catalog := mkCatalog { ca_Manager : Mgr; ca_Enumerate : gmap string EnumerateFn }.

Definition on_mgr {A} (op : ST Mgr manager_error A) : ST Catalog manager_error A := λ c,
  let '(o, m) := op (ca_Manager c) in (o, mkCatalog m (ca_Enumerate c)).

Definition enumerated (name : string) (enum : option EnumerateFn) : ST Catalog manager_error () := λ c,
  (Ok tt, mkCatalog (ca_Manager c)
            (match enum with Some f => <[name := f]> (ca_Enumerate c) | None => delete name (ca_Enumerate c) end)).

(** [mgr.Register(g)] *)
Definition Register_ (bg : BotGame) : ST Catalog manager_error () :=
  _ ← on_mgr (Register (mkReg (bg_Game bg) false false 0 None None None None));
  enumerated (gm_Name (bg_Game bg)) (bg_Enumerate bg).

(** [g.Name = key] *)
Definition renamed (key : string) (bg : BotGame) : BotGame :=
  let '(mkGame _ min max setup moves turn phases endIf onEnd onUndo view blocks noUndo plugins) := bg_Game bg in
  mkBotGame (mkGame key min max setup moves turn phases endIf onEnd onUndo view blocks noUndo plugins) (bg_Enumerate bg).

Inductive registry_error : Type :=
  | ErrLoad (e : spec_error)
  | ErrValidate (e : smoke_error)
  | ErrCollides (name : string)
  | ErrStore (e : store_failure)
  | ErrRegister (e : manager_error)
  | ErrUnknownGame_ (name : string)
  | ErrNoSuchGame.

Context {U : Type} `{!UserGameStore U}.

Record UserAwareRegistry := mkRegistry { ur_store : U; ur_userKeys : gmap string (gmap string string) }.
Definition NewUserAwareRegistry (store : U) : UserAwareRegistry := mkRegistry store ∅.

(** A registry works on the manager it was made for. *)
Abbreviation R := (ST (Catalog * UserAwareRegistry) registry_error).

Definition lift_err {E E' A} (f : E → E') (o : outcome E A) : outcome E' A :=
  match o with Ok a => Ok a | Err e => Err (f e) | Panicked => Panicked | NoFuel => NoFuel end.

Definition on_catalog {A} (op : ST Catalog manager_error A) : R A := λ '(c, r),
  let '(o, c) := op c in (lift_err ErrRegister o, (c, r)).
Definition on_games {A} (op : ST U store_failure A) : R A := λ '(c, r),
  let '(o, u) := op (ur_store r) in (lift_err ErrStore o, (c, mkRegistry u (ur_userKeys r))).

Definition the_game (name : string) : R (option RegGame) := on_catalog (on_mgr (Game_ name)).
Definition keys_of (userID : string) (r : UserAwareRegistry) : gmap string string := default ∅ (ur_userKeys r !! userID).
Definition set_userKey (userID publicName key : string) : R () := λ '(c, r),
  (Ok tt, (c, mkRegistry (ur_store r) (<[userID := <[publicName := key]> (keys_of userID r)]> (ur_userKeys r)))).

Definition registerLocked (userID publicName source : string) : R () :=
  match LoadSpec exec_file source with
  | Ok spec =>
      let key := managerKeyFor userID publicName in
      res ← st_try (on_catalog (Register_ (renamed key (BuildCoreGame Rehydrate run spec))));
      match res with
      | inl (ErrRegister e) => if says_already e then set_userKey userID publicName key else st_err (ErrRegister e)
      | inl e => st_err e
      | inr _ => set_userKey userID publicName key
      end
  | Err _ => mret tt
  | Panicked => st_panic
  | NoFuel => st_nofuel
  end.

(** The error of a store is returned as it is. *)
Definition ReplayFromStore : R () :=
  all ← on_games ListAll;
  for_each (λ ug, registerLocked (ug_UserID ug) (ug_Name ug) (ug_Source ug)) all.

Definition RegisterUserGame (now : Z) (userID source llmGuide : string) : R () :=
  spec ← st_lift (lift_err ErrLoad (LoadSpec exec_file source));
  _ ← st_lift (lift_err ErrValidate (ValidateSpec run spec));
  let publicName := me_Name (sp_Meta spec) in
  existing ← the_game publicName;
  match existing with
  | Some _ => st_err (ErrCollides publicName)
  | None =>
      _ ← on_games (PutGame now (mkUserGame userID publicName source llmGuide 0));
      registerLocked userID publicName source
  end.

Definition own_key (userID publicName : string) : R (string * string) := λ '(c, r),
  (match keys_of userID r !! publicName with Some k => Ok (k, userID) | None => Err (ErrUnknownGame_ publicName) end, (c, r)).

(** The manager's key, and the owner. *)
Definition LookupForUser (userID publicName : string) : R (string * string) :=
  g ← the_game publicName;
  match g with
  | Some _ => mret (publicName, "")
  | None => own_key userID publicName
  end.

(** Built-in games in no order, the user's in no order; [sort.Slice] on the names.  Of two
    games of one name either may come first there. *)
Definition ListForUser (userID : string) : R (list GameListing) := λ '(c, r),
  let games := mg_games (ca_Manager c) in
  let builtin := omap (λ '(n, g), if hasUserGameKeyPrefix n then None
                                  else Some (mkListing n (gm_MinPlayers (rg_Game g)) (gm_MaxPlayers (rg_Game g)) false))
                   (map_to_list games) in
  let own := omap (λ '(publicName, key),
                    (λ g, mkListing publicName (gm_MinPlayers (rg_Game g)) (gm_MaxPlayers (rg_Game g)) true) <$> games !! key)
               (map_to_list (keys_of userID r)) in
  (Ok (sorted_by gl_Name (builtin ++ own)), (c, r)).

Definition DeleteUserGame (userID publicName : string) : R () := λ '(c, r),
  match keys_of userID r !! publicName with
  | None => (Err ErrNoSuchGame, (c, r))
  | Some _ =>
      match on_games (Delete userID publicName) (c, r) with
      | (Ok _, (c, r)) =>
          (Ok tt, (c, mkRegistry (ur_store r) (alter (delete publicName) userID (ur_userKeys r))))
      | res => res
      end
  end.

(** [r.UserGame] *)
Definition UserGame_ (userID publicName : string) : R (option UserGame) := on_games (GetGame userID publicName).
End registry.

(** ** What the stores promise *)

(** Owners as the tools rely on them: a claim that succeeds makes its user the owner of a
    match nobody else owned, and nothing else changes an owner. *)
Class OwnershipLaws (O : Type) `{OwnershipStore O} (owner : O → string → option string) : Prop := {
  claim_Ok u id s s' : Claim u id s = (Ok tt, s') →
    (owner s id = None ∨ owner s id = Some u) ∧ ∀ id', owner s' id' = if decide (id' = id) then Some u else owner s id';
  claim_fails u id s : (Claim u id s).1 ≠ Ok tt → ∀ id', owner (Claim u id s).2 id' = owner s id';
  owns_true u id s s' : Owns u id s = (Ok true, s') → owner s id = Some u;
  owns_keeps u id s id' : owner (Owns u id s).2 id' = owner s id'
}.

#[export] Instance Memory_laws : OwnershipLaws MemoryOwnership (λ s id, mo_owners s !! id).
Proof.
  split.
  - intros u id s s'. simpl. unfold Memory_Claim. repeat case_decide; try done; intros [= <-];
      (split; [destruct (mo_owners s !! id) as [v|] eqn:Hv; simpl in *; [right; by f_equal|by left]|]);
      intros id'; simpl; (destruct (decide (id' = id)) as [->|]; [apply lookup_insert_eq|by rewrite lookup_insert_ne]).
  - intros u id s. simpl. unfold Memory_Claim. repeat case_decide; done.
  - intros u id s s'. simpl. unfold Memory_Owns. destruct (mo_owners s !! id); [|done]. intros [= Hb _].
    by apply bool_decide_eq_true in Hb as ->.
  - done.
Qed.

(** Claims made one after another. *)
Definition claimed (claims : list (string * string)) : MemoryOwnership :=
  foldl (λ s '(u, id), (Memory_Claim u id s).2) NewMemoryOwnership claims.

(** However claims were made, the matches listed for a user are the ones the user owns, each
    once. *)
Theorem matches_listed_are_owned claims u :
  NoDup (matches_of u (claimed claims)) ∧
  ∀ id, id ∈ matches_of u (claimed claims) ↔ mo_owners (claimed claims) !! id = Some u.
Proof.
  revert u. induction claims as [|[v m] claims IH] using rev_ind; intros u.
  { split; [constructor|]. intros id. split; [by intros ?%not_elem_of_nil|done]. }
  unfold claimed. rewrite foldl_app. cbn [foldl]. fold (claimed claims). set (s := claimed claims) in *.
  unfold Memory_Claim. case_decide; [apply IH|]. case_decide; [apply IH|]. case_decide as Ho; [apply IH|].
  destruct (IH u) as [Hnd Hin].
  assert (Hother : ∀ w, mo_owners s !! m = Some w → w = v) by (intros w Hw; by rewrite Hw in Ho).
  assert (Hown : ∀ id, <[m := v]> (mo_owners s) !! id = Some u ↔ id = m ∧ u = v ∨ mo_owners s !! id = Some u).
  { intros id. rewrite lookup_insert_Some. split; [naive_solver|]. intros [[-> ->]|Hid]; [by left|].
    destruct (decide (m = id)) as [->|]; [left; split; [done|]; symmetry; by apply Hother|by right]. }
  unfold matches_of. simpl. case_decide as Hm.
  - split; [done|]. intros id. rewrite Hown, <-(Hin id). split; [by right|]. intros [[-> ->]|?]; [done|done].
  - destruct (decide (u = v)) as [->|Hne].
    + rewrite lookup_insert_eq. simpl. split; [apply NoDup_app; split; [done|]; split; [|apply NoDup_singleton]|].
      * intros id Hid ->%list_elem_of_singleton. by apply Hm.
      * intros id. rewrite elem_of_app, list_elem_of_singleton, Hown, <-(Hin id). naive_solver.
    + rewrite lookup_insert_ne by done. split; [done|]. intros id. rewrite Hown, <-(Hin id). naive_solver.
Qed.

(** ** Keys *)
Lemma join_inj_last sep a b a' b' : free_of sep b → free_of sep b' →
  a +:+ String sep b = a' +:+ String sep b' → a = a' ∧ b = b'.
Proof.
  assert (Hno : ∀ (a b c : string), free_of sep c → c ≠ a +:+ String sep b).
  { intros x. induction x as [|y x IH]; intros b0 [|z c] Hc; simpl; try done; apply free_cons in Hc as [Hz Hc].
    - by intros [= ->].
    - intros [= _ Heq]. by apply (IH b0 c). }
  intros Hb Hb'. revert a'. induction a as [|c a IH]; intros [|c' a'] Heq; simpl in Heq.
  - by injection Heq.
  - injection Heq as _ Heq. by apply Hno in Heq.
  - injection Heq as _ Heq. symmetry in Heq. by apply Hno in Heq.
  - injection Heq as -> Heq. by destruct (IH a' Heq) as [-> ->].
Qed.

(** A game's name is free of every separator. *)
Lemma nameRe_free sep n : ¬ name_char sep → nameRe n → free_of sep n.
Proof. intros Hs [_ Hn]. eapply Forall_impl; [exact Hn|]. intros c Hc ->. done. Qed.

Lemma string_app_cancel (p a b : string) : p +:+ a = p +:+ b → a = b.
Proof. induction p as [|c p IH]; [done|]. intros [= H]. by apply IH. Qed.

Lemma managerKeyFor_inj u n u' n' : nameRe n → nameRe n' → managerKeyFor u n = managerKeyFor u' n' → u = u' ∧ n = n'.
Proof.
  intros Hn Hn' Heq%string_app_cancel. apply join_inj_last in Heq; [done|..]; (apply nameRe_free; [|done]);
    unfold name_char; vm_compute; intuition lia.
Qed.

Lemma ugKey_inj u n u' n' : nameRe n → nameRe n' → ugKey u n = ugKey u' n' → u = u' ∧ n = n'.
Proof.
  intros Hn Hn' Heq. apply join_inj_last in Heq; [done|..]; (apply nameRe_free; [|done]);
    unfold name_char; vm_compute; intuition lia.
Qed.

Lemma managerKeyFor_prefixed u n : hasUserGameKeyPrefix (managerKeyFor u n) = true.
Proof. unfold hasUserGameKeyPrefix, managerKeyFor. rewrite strip_prefix_app. by apply bool_decide_eq_true. Qed.

Lemma nameRe_not_prefixed n u m : nameRe n → n ≠ managerKeyFor u m.
Proof.
  intros [_ Hn] ->. unfold managerKeyFor, userGameKeyPrefix in Hn.
  change (String.list_ascii_of_string _) with
    (String.list_ascii_of_string "usergame" ++ colon :: String.list_ascii_of_string (u +:+ String colon m)) in Hn.
  apply Forall_app in Hn as [_ Hn]. apply Forall_cons in Hn as [Hc _]. revert Hc. unfold name_char. vm_compute. intuition lia.
Qed.

(** The name shown for a user's game is the one the user gave it, if the user's id has no
    colon. *)
Lemma publicGameName_key u n : free_of colon u → publicGameName (managerKeyFor u n) = n.
Proof. intros Hu. unfold publicGameName, managerKeyFor. rewrite strip_prefix_app. by rewrite after_first_app. Qed.

(** A user whose id holds a colon, a URN say, is shown another name. *)
Theorem colons_in_ids_show_another_name : publicGameName (managerKeyFor "urn:ann" "chess") = "ann:chess".
Proof. reflexivity. Qed.

(** ** Registered games *)
Section games.
Context {S : Type} `{!Storage S}.
Context {F : Type} (Rehydrate : string → args → option modstate).
Context (run : F → option ctx_fields → list (star F) → sprog F) (exec_file : string → option (gmap string (star F))).
Abbreviation Mgr := (Manager.Manager (S:=S)).
Abbreviation Cat := (Catalog (S:=S)).
Abbreviation Reg := (UserAwareRegistry (U:=InMemoryUserGames)).
Abbreviation R := (ST (Cat * Reg) registry_error).
Abbreviation load := (LoadSpec exec_file).
Abbreviation game_of := (BuildCoreGame Rehydrate run).
Abbreviation registerLocked := (registerLocked Rehydrate run exec_file (S:=S) (U:=InMemoryUserGames)).
Implicit Types (s : Spec F) (c : Cat) (r : Reg).

(** The game a spec is installed as. *)
Definition installed (key : string) s : RegGame := mkReg (bg_Game (renamed key (game_of s))) false false 0 None None None None.

Definition games_of c : gmap string RegGame := mg_games (ca_Manager c).

Definition with_game (key : string) s c : Cat :=
  mkCatalog (set_games (<[key := installed key s]> (games_of c)) (ca_Manager c))
    (<[key := enumerate_fn Rehydrate run s]> (ca_Enumerate c)).
Definition with_key (u n : string) r : Reg :=
  mkRegistry (ur_store r) (<[u := <[n := managerKeyFor u n]> (keys_of u r)]> (ur_userKeys r)).

Lemma registerLocked_Ok u n source s c r : load source = Ok s → Validate (bg_Game (game_of s)) = [] →
  registerLocked u n source (c, r) = (Ok tt, (with_game (managerKeyFor u n) s c, with_key u n r)).
Proof.
  intros Hl Hv. unfold Registry.registerLocked. rewrite Hl. unfold on_catalog, st_try, Register_, on_mgr, Register.
  change (Validate (rg_Game (mkReg (bg_Game (renamed (managerKeyFor u n) (game_of s))) false false 0 None None None None)))
    with (Validate (bg_Game (game_of s))). rewrite Hv. reflexivity.
Qed.

(** A game the engine's check complains about is not installed, unless a name in it reads
    "already". *)
Lemma registerLocked_refused u n source s c r ps : load source = Ok s → Validate (bg_Game (game_of s)) = ps → ps ≠ [] →
  says_already (InvalidGame ps) = false → registerLocked u n source (c, r) = (Err (ErrRegister (InvalidGame ps)), (c, r)).
Proof.
  intros Hl Hv Hne Hal. unfold Registry.registerLocked. rewrite Hl. unfold on_catalog, st_try, Register_, on_mgr, Register.
  change (Validate (rg_Game (mkReg (bg_Game (renamed (managerKeyFor u n) (game_of s))) false false 0 None None None None)))
    with (Validate (bg_Game (game_of s))). rewrite Hv. destruct ps as [|p ps]; [done|].
  rewrite bind_eq. cbn [mbind ST_bind st_bind lift_err]. rewrite bind_eq. cbn. unfold says_already in Hal. cbn in Hal. rewrite Hal. by destruct c.
Qed.

(** Everything a spec promises, when the interpreter's dicts are dicts and no phase has the
    empty name. *)
Context (Hdicts : ∀ source globals d, exec_file source = Some globals → globals !! "PHASES" = Some (SDict d) → NoDup d.*1).
Context (Hphases : ∀ source s, load source = Ok s → sp_Phases s !! "" = None).

Lemma loaded_fine source s : load source = Ok s → nameRe (me_Name (sp_Meta s)) ∧ Validate (bg_Game (game_of s)) = [].
Proof.
  intros Hl. assert (Hwf : well_formed s) by (eapply loaded_well_formed; [|exact Hl]; intros; by eapply Hdicts).
  split; [by apply wf_name|]. apply scripted_validate; [done|by eapply Hphases].
Qed.

(** The registry and the games agree with a store [st]; other games are as in [c0]. *)
Record matches_store (c0 : Cat) (st : InMemoryUserGames) c r : Prop := {
  ms_keyed : ∀ key ug, st !! key = Some ug → key = ugKey (ug_UserID ug) (ug_Name ug) ∧
    ∃ s, load (ug_Source ug) = Ok s ∧ me_Name (sp_Meta s) = ug_Name ug;
  ms_keys : ∀ u n k, keys_of u r !! n = Some k ↔ k = managerKeyFor u n ∧ nameRe n ∧ is_Some (st !! ugKey u n);
  ms_games : ∀ key ug s, st !! key = Some ug → load (ug_Source ug) = Ok s →
    games_of c !! managerKeyFor (ug_UserID ug) (ug_Name ug) = Some (installed (managerKeyFor (ug_UserID ug) (ug_Name ug)) s) ∧
    ca_Enumerate c !! managerKeyFor (ug_UserID ug) (ug_Name ug) = Some (enumerate_fn Rehydrate run s);
  ms_others : ∀ k, (∀ u n, nameRe n → k ≠ managerKeyFor u n) →
    games_of c !! k = games_of c0 !! k ∧ ca_Enumerate c !! k = ca_Enumerate c0 !! k
}.

Lemma matches_new c0 st : matches_store c0 ∅ c0 (NewUserAwareRegistry st).
Proof.
  split; try done. intros u n k. unfold keys_of. simpl. rewrite lookup_empty. simpl. rewrite !lookup_empty.
  split; [done|]. intros (_ & _ & Hs). by destruct Hs.
Qed.

Lemma keys_with_key u n r u' : keys_of u' (with_key u n r) = if decide (u' = u) then <[n := managerKeyFor u n]> (keys_of u r) else keys_of u' r.
Proof.
  unfold keys_of, with_key. simpl. case_decide as Hu; [subst; by rewrite lookup_insert_eq|by rewrite lookup_insert_ne].
Qed.

Lemma matches_register c0 st c r ug s : matches_store c0 st c r → load (ug_Source ug) = Ok s → me_Name (sp_Meta s) = ug_Name ug →
  ∃ c' r', registerLocked (ug_UserID ug) (ug_Name ug) (ug_Source ug) (c, r) = (Ok tt, (c', r')) ∧ ur_store r' = ur_store r ∧
    matches_store c0 (<[ugKey (ug_UserID ug) (ug_Name ug) := ug]> st) c' r'.
Proof.
  intros [Hkeyed Hkeys Hgames Hothers] Hl Hname. destruct (loaded_fine _ _ Hl) as [Hre Hv]. rewrite Hname in Hre.
  set (u := ug_UserID ug) in *. set (n := ug_Name ug) in *.
  exists (with_game (managerKeyFor u n) s c), (with_key u n r). split; [by apply registerLocked_Ok|]. split; [done|].
  assert (Hname_of : ∀ key ug', st !! key = Some ug' → nameRe (ug_Name ug')).
  { intros key ug' (_ & s' & Hl' & <-)%Hkeyed. by apply (loaded_fine _ _ Hl'). }
  split.
  - intros key ug' [[<- <-]|[_ Hk]]%lookup_insert_Some; [split; [done|by exists s]|by apply Hkeyed].
  - intros u' n' k. rewrite keys_with_key. case_decide as Hu; [subst u'; destruct (decide (n = n')) as [<-|Hn]|].
    + rewrite !lookup_insert_eq. split; [intros [= <-]; split; [done|split; [done|by eexists]]|by intros (-> & _)].
    + rewrite lookup_insert_ne by done. rewrite Hkeys. split; intros (? & Hre' & Hs); (split; [done|split; [done|]]); revert Hs; (rewrite lookup_insert_ne; [done|]);
        intros Heq; apply ugKey_inj in Heq; naive_solver.
    + rewrite Hkeys. split; intros (? & Hre' & Hs); (split; [done|split; [done|]]); revert Hs; (rewrite lookup_insert_ne; [done|]);
        intros Heq; apply ugKey_inj in Heq; naive_solver.
  - intros key ug' s'. unfold games_of. simpl. intros [[<- <-]|[Hne Hk]]%lookup_insert_Some Hl'.
    { assert (s' = s) as -> by congruence. by rewrite !lookup_insert_eq. }
    rewrite !lookup_insert_ne; [by eapply Hgames|..]; intros Heq; apply managerKeyFor_inj in Heq as [H1 H2]; try by eauto;
      apply Hne; destruct (Hkeyed key ug' Hk) as [-> _]; by rewrite <-H1, <-H2.
  - intros k Hk. unfold games_of. simpl. rewrite !lookup_insert_ne by (intros Heq; by apply (Hk u n)). by apply Hothers.
Qed.

Lemma matches_delete c0 st c r u n : matches_store c0 st c r → nameRe n →
  matches_store c0 (delete (ugKey u n) st) c (mkRegistry (delete (ugKey u n) (ur_store r)) (alter (delete n) u (ur_userKeys r))).
Proof.
  intros [Hkeyed Hkeys Hgames Hothers] Hre. split; [|intros u' n' k| |done].
  - intros key ug [_ Hk]%lookup_delete_Some. by apply Hkeyed.
  - assert (Hd : keys_of u' (mkRegistry (delete (ugKey u n) (ur_store r)) (alter (delete n) u (ur_userKeys r))) =
        if decide (u' = u) then delete n (keys_of u r) else keys_of u' r).
    { unfold keys_of. simpl. case_decide as Hu; [subst; rewrite lookup_alter_eq|by rewrite lookup_alter_ne].
      destruct (ur_userKeys r !! u); simpl; [done|by rewrite delete_empty]. }
    rewrite Hd. case_decide as Hu; [subst u'; destruct (decide (n = n')) as [<-|Hn]|].
    + rewrite !lookup_delete_eq. split; [done|]. by intros (_ & _ & []).
    + rewrite lookup_delete_ne by done. rewrite Hkeys. split; intros (? & Hre' & Hs); (split; [done|split; [done|]]); revert Hs; (rewrite lookup_delete_ne; [done|]);
        intros Heq; apply ugKey_inj in Heq; naive_solver.
    + rewrite Hkeys. split; intros (? & Hre' & Hs); (split; [done|split; [done|]]); revert Hs; (rewrite lookup_delete_ne; [done|]);
        intros Heq; apply ugKey_inj in Heq; naive_solver.
  - intros key ug s [_ Hk]%lookup_delete_Some. by eapply Hgames.
Qed.

(** ** Runs and restarts *)
Inductive registry_op : Type :=
  | RegisterOp (now : Z) (userID source llmGuide : string)
  | DeleteOp (userID publicName : string).

Definition perform_registry (o : registry_op) : R () :=
  match o with
  | RegisterOp now userID source llmGuide => RegisterUserGame Rehydrate run exec_file now userID source llmGuide
  | DeleteOp userID publicName => DeleteUserGame userID publicName
  end.

Definition registry_run (ops : list registry_op) (cr : Cat * Reg) : Cat * Reg := foldl (λ cr o, (perform_registry o cr).2) cr ops.

(** The two outcomes of a registration. *)
Lemma RegisterUserGame_cases now u source guide c r :
  (∃ e, RegisterUserGame Rehydrate run exec_file now u source guide (c, r) = (e, (c, r)) ∧ e ≠ Ok tt) ∨
  ∃ s, let ug := stamped now (mkUserGame u (me_Name (sp_Meta s)) source guide 0) in
    load source = Ok s ∧ ValidateSpec run s = Ok tt ∧ games_of c !! me_Name (sp_Meta s) = None ∧
    RegisterUserGame Rehydrate run exec_file now u source guide (c, r) =
      registerLocked u (me_Name (sp_Meta s)) source (c, mkRegistry (<[ugKey u (me_Name (sp_Meta s)) := ug]> (ur_store r)) (ur_userKeys r)).
Proof.
  unfold RegisterUserGame. destruct (load source) as [s|e| |] eqn:Hl; [|by left; eexists..].
  rewrite bind_eq. cbn [st_lift lift_err]. rewrite bind_eq. destruct (ValidateSpec run s) as [[]|e| |] eqn:Hv; [|by left; eexists..].
  cbn [st_lift lift_err]. rewrite bind_eq. unfold the_game, on_catalog, on_mgr, Game_, gets. cbn.
  destruct c as [m enum]. cbn. destruct (mg_games m !! me_Name (sp_Meta s)) eqn:Hg; [by left; eexists|].
  right. exists s. done.
Qed.

Lemma stamped_fields now ug : ug_UserID (stamped now ug) = ug_UserID ug ∧ ug_Name (stamped now ug) = ug_Name ug ∧
  ug_Source (stamped now ug) = ug_Source ug ∧ ug_LLMGuide (stamped now ug) = ug_LLMGuide ug.
Proof. unfold stamped. by case_decide. Qed.

Definition in_step (c0 : Cat) (cr : Cat * Reg) : Prop := matches_store c0 (ur_store cr.2) cr.1 cr.2.

Lemma matches_same_keys c0 st c r r' : ur_userKeys r' = ur_userKeys r → matches_store c0 st c r → matches_store c0 st c r'.
Proof. intros Hk [H1 H2 H3 H4]. split; [done| |done|done]. intros u n k. unfold keys_of. rewrite Hk. apply H2. Qed.

Lemma in_step_register c0 c r now u source guide s : in_step c0 (c, r) → load source = Ok s →
  let ug := stamped now (mkUserGame u (me_Name (sp_Meta s)) source guide 0) in
  let r1 := mkRegistry (<[ugKey u (me_Name (sp_Meta s)) := ug]> (ur_store r)) (ur_userKeys r) in
  ∃ c' r', registerLocked u (me_Name (sp_Meta s)) source (c, r1) = (Ok tt, (c', r')) ∧
    ur_store r' = <[ugKey u (me_Name (sp_Meta s)) := ug]> (ur_store r) ∧ in_step c0 (c', r').
Proof.
  intros Hin Hl ug r1. destruct (stamped_fields now (mkUserGame u (me_Name (sp_Meta s)) source guide 0)) as (H1 & H2 & H3 & _).
  fold ug in H1, H2, H3. cbn in H1, H2, H3.
  destruct (matches_register c0 (ur_store r) c r1 ug s) as (c' & r' & Hr & Hst & Hm).
  { by apply (matches_same_keys _ _ _ r). }
  { by rewrite H3. }
  { by rewrite H2. }
  rewrite H1, H2, H3 in *. exists c', r'. split; [done|]. split; [done|]. unfold in_step. cbn. by rewrite Hst.
Qed.

Lemma in_step_perform c0 o cr : in_step c0 cr → in_step c0 (perform_registry o cr).2.
Proof.
  destruct cr as [c r]. intros Hin. destruct o as [now u source guide|u n]; simpl.
  - destruct (RegisterUserGame_cases now u source guide c r) as [(e & -> & _)|(s & Hl & _ & _ & ->)]; [done|].
    by destruct (in_step_register c0 c r now u source guide s Hin Hl) as (c' & r' & -> & _ & ?).
  - unfold DeleteUserGame. destruct (keys_of u r !! n) as [k|] eqn:Hk; [|done]. cbn.
    apply (matches_delete c0 (ur_store r) c r u n Hin). by apply (ms_keys _ _ _ _ Hin) in Hk as (_ & ? & _).
Qed.

Lemma in_step_run c0 ops cr : in_step c0 cr → in_step c0 (registry_run ops cr).
Proof. revert cr. induction ops as [|o ops IH]; intros cr Hin; [done|]. apply IH. by apply in_step_perform. Qed.

(** What the store says decides every lookup. *)
Lemma lookup_of_store c0 st c r u n : matches_store c0 st c r → nameRe n →
  LookupForUser u n (c, r) =
    (match games_of c0 !! n with
     | Some _ => Ok (n, "")
     | None => if decide (is_Some (st !! ugKey u n)) then Ok (managerKeyFor u n, u) else Err (ErrUnknownGame_ n)
     end, (c, r)).
Proof.
  intros [_ Hkeys _ Hothers] Hre. unfold LookupForUser. rewrite bind_eq. destruct c as [m enum]. cbn.
  assert (Hg : mg_games m !! n = games_of c0 !! n).
  { apply (Hothers n). intros u' n' _. by apply nameRe_not_prefixed. }
  rewrite Hg. destruct (games_of c0 !! n); [done|]. unfold own_key. case_decide as Hs.
  - assert (keys_of u r !! n = Some (managerKeyFor u n)) as -> by (apply Hkeys; done). done.
  - destruct (keys_of u r !! n) as [k|] eqn:Hk; [|done]. by apply Hkeys in Hk as (_ & _ & ?).
Qed.

Lemma replay_list c0 (l : list (string * UserGame)) st c r : matches_store c0 st c r →
  (∀ key ug, (key, ug) ∈ l → key = ugKey (ug_UserID ug) (ug_Name ug) ∧ ∃ s, load (ug_Source ug) = Ok s ∧ me_Name (sp_Meta s) = ug_Name ug) →
  ∃ c' r', for_each (λ ug, registerLocked (ug_UserID ug) (ug_Name ug) (ug_Source ug)) l.*2 (c, r) = (Ok tt, (c', r')) ∧
    ur_store r' = ur_store r ∧ matches_store c0 (foldl (λ st '(key, ug), <[key := ug]> st) st l) c' r'.
Proof.
  revert st c r. induction l as [|[key ug] l IH]; intros st c r Hm Hl; [by exists c, r|].
  destruct (Hl key ug ltac:(by left)) as (-> & s & Hs & Hn).
  destruct (matches_register c0 st c r ug s Hm Hs Hn) as (c1 & r1 & Hr & Hst & Hm1).
  destruct (IH _ _ _ Hm1) as (c2 & r2 & Hr2 & Hst2 & Hm2); [intros; apply Hl; by right|].
  exists c2, r2. split; [|split; [congruence|done]]. cbn. rewrite bind_eq, Hr. exact Hr2.
Qed.

Lemma foldl_inserts (l : list (string * UserGame)) (st : InMemoryUserGames) : NoDup l.*1 →
  foldl (λ st '(key, ug), <[key := ug]> st) st l = list_to_map l ∪ st.
Proof.
  revert st. induction l as [|[key ug] l IH]; intros st Hnd; cbn; [by rewrite (left_id_L ∅ (∪))|].
  apply NoDup_cons in Hnd as [Hkey Hnd]. rewrite IH by done.
  rewrite <-insert_union_l, <-insert_union_r; [done|]. by apply not_elem_of_list_to_map_1.
Qed.

Lemma replay_Ok c0 c r st : in_step c0 (c, r) → st = ur_store r →
  ∃ c1 r1, ReplayFromStore Rehydrate run exec_file (c0, NewUserAwareRegistry st) = (Ok tt, (c1, r1)) ∧
    ur_store r1 = st ∧ matches_store c0 st c1 r1.
Proof.
  intros Hin ->. destruct (replay_list c0 (map_to_list (ur_store r)) ∅ c0 (NewUserAwareRegistry (ur_store r))) as (c1 & r1 & Hr & Hst & Hm).
  { apply matches_new. }
  { intros key ug Hk. apply elem_of_map_to_list in Hk. by apply (ms_keyed _ _ _ _ Hin). }
  exists c1, r1. split; [|split; [done|]].
  - unfold ReplayFromStore. rewrite bind_eq. exact Hr.
  - rewrite foldl_inserts, list_to_map_to_list, (right_id_L ∅ (∪)) in Hm by apply NoDup_fst_map_to_list. done.
Qed.

Lemma found_game c0 st c r u n k o : matches_store c0 st c r → nameRe n → (LookupForUser u n (c, r)).1 = Ok (k, o) →
  k = n ∧ o = "" ∧ games_of c !! k = games_of c0 !! k ∧ ca_Enumerate c !! k = ca_Enumerate c0 !! k ∧ is_Some (games_of c0 !! k) ∨
  ∃ ug s, k = managerKeyFor u n ∧ o = u ∧ games_of c0 !! n = None ∧ st !! ugKey u n = Some ug ∧ load (ug_Source ug) = Ok s ∧
    games_of c !! k = Some (installed k s) ∧ ca_Enumerate c !! k = Some (enumerate_fn Rehydrate run s).
Proof.
  intros Hm Hre. rewrite (lookup_of_store _ _ _ _ _ _ Hm Hre). destruct (games_of c0 !! n) eqn:Hg.
  - intros [= <- <-]. left. split; [done|]. split; [done|].
    destruct (ms_others _ _ _ _ Hm n) as [H1 H2]; [intros u' n' _; by apply nameRe_not_prefixed|]. split; [done|]. split; [done|by eexists].
  - case_decide as Hs; [|done]. intros [= <- <-]. right. destruct Hs as [ug Hug].
    destruct (ms_keyed _ _ _ _ Hm _ _ Hug) as (Hkey & s & Hl & Hn). destruct (loaded_fine _ _ Hl) as [Hre' _]. rewrite Hn in Hre'.
    apply ugKey_inj in Hkey as [H1 H2]; [|done..]. destruct (ms_games _ _ _ _ Hm _ _ _ Hug Hl) as [Hgame Henum].
    rewrite <-H1, <-H2 in Hgame, Henum. by exists ug, s.
Qed.

(** A restart loses no designed game: after any registrations and deletions, a registry made
    anew over the same store and the built-in games replays it without an error, and then
    every user finds under every name what the user found before, the same game under the
    same key. *)
Theorem restarts_keep_games c0 ops :
  let cr := registry_run ops (c0, NewUserAwareRegistry ∅) in
  ∃ c1 r1, ReplayFromStore Rehydrate run exec_file (c0, NewUserAwareRegistry (ur_store cr.2)) = (Ok tt, (c1, r1)) ∧
    ur_store r1 = ur_store cr.2 ∧
    ∀ u n, nameRe n → (LookupForUser u n (c1, r1)).1 = (LookupForUser u n cr).1 ∧
      ∀ k o, (LookupForUser u n cr).1 = Ok (k, o) →
        is_Some (games_of cr.1 !! k) ∧ games_of c1 !! k = games_of cr.1 !! k ∧ ca_Enumerate c1 !! k = ca_Enumerate cr.1 !! k.
Proof.
  intros cr. assert (Hin : in_step c0 cr) by (apply in_step_run, matches_new). destruct cr as [c r].
  destruct (replay_Ok c0 c r _ Hin eq_refl) as (c1 & r1 & Hr & Hst & Hm). exists c1, r1. split; [done|]. split; [done|].
  intros u n Hre. assert (Heq : (LookupForUser u n (c1, r1)).1 = (LookupForUser u n (c, r)).1).
  { by rewrite (lookup_of_store _ _ _ _ _ _ Hm Hre), (lookup_of_store _ _ _ _ _ _ Hin Hre). }
  split; [exact Heq|]. intros k o Hk. rewrite <-Heq in Hk. pose proof Hk as Hk1. rewrite Heq in Hk. simpl.
  destruct (found_game _ _ _ _ _ _ _ _ Hin Hre Hk) as [(-> & _ & Hg & He & Hs)|(ug & s & -> & _ & Hno & Hug & Hl & Hg & He)];
    destruct (found_game _ _ _ _ _ _ _ _ Hm Hre Hk1) as [(Hkn & _ & Hg1 & He1 & Hs1)|(ug1 & s1 & Hkn & _ & Hno1 & Hug1 & Hl1 & Hg1 & He1)].
  - cbn [fst] in *. by rewrite Hg, Hg1, He, He1.
  - by apply nameRe_not_prefixed in Hkn.
  - symmetry in Hkn. by apply nameRe_not_prefixed in Hkn.
  - assert (s1 = s) as -> by (simpl in *; congruence). cbn [fst] in *. rewrite Hg, Hg1, He, He1. split; [by eexists|done].
Qed.

(** A registration that succeeds shows its user the new game under its name, and changes
    nothing that anybody finds under any other name, nor for any other user. *)
Theorem registrations_reach_their_user c0 ops now u source guide cr' :
  let cr := registry_run ops (c0, NewUserAwareRegistry ∅) in
  RegisterUserGame Rehydrate run exec_file now u source guide cr = (Ok tt, cr') →
  ∃ s, load source = Ok s ∧ ValidateSpec run s = Ok tt ∧
    games_of cr'.1 !! managerKeyFor u (me_Name (sp_Meta s)) = Some (installed (managerKeyFor u (me_Name (sp_Meta s))) s) ∧
    (GetGame u (me_Name (sp_Meta s)) (ur_store cr'.2)).1 = Ok (Some (stamped now (mkUserGame u (me_Name (sp_Meta s)) source guide 0))) ∧
    ∀ u' n', nameRe n' → (LookupForUser u' n' cr').1 =
      if decide (u' = u ∧ n' = me_Name (sp_Meta s)) then Ok (managerKeyFor u n', u) else (LookupForUser u' n' cr).1.
Proof.
  intros cr. assert (Hin : in_step c0 cr) by (apply in_step_run, matches_new). destruct cr as [c r].
  destruct (RegisterUserGame_cases now u source guide c r) as [(e & -> & He)|(s & Hl & Hv & Hnone & ->)]; [by intros [= -> _]|].
  destruct (in_step_register c0 c r now u source guide s Hin Hl) as (c1 & r1 & -> & Hst & Hin'). intros [= <-].
  destruct (loaded_fine _ _ Hl) as [Hre _]. set (ug := stamped _ _) in *.
  assert (Hug : ur_store r1 !! ugKey u (me_Name (sp_Meta s)) = Some ug) by (rewrite Hst; apply lookup_insert_eq).
  destruct (stamped_fields now (mkUserGame u (me_Name (sp_Meta s)) source guide 0)) as (H1 & H2 & H3 & _).
  fold ug in H1, H2, H3. cbn in H1, H2, H3. exists s. split; [done|]. split; [done|].
  destruct (ms_games _ _ _ _ Hin' _ _ s Hug) as [Hg _]; [by rewrite H3|]. rewrite H1, H2 in Hg. split; [done|].
  split; [simpl; by rewrite Hug|]. intros u' n' Hre'.
  rewrite (lookup_of_store _ _ _ _ _ _ Hin' Hre'), (lookup_of_store _ _ _ _ _ _ Hin Hre'). cbn [fst ur_store snd] in Hst |- *.
  rewrite Hst. destruct (decide (u' = u ∧ n' = me_Name (sp_Meta s))) as [Hd|Hd].
  - destruct Hd as [-> ->]. assert (games_of c0 !! me_Name (sp_Meta s) = None) as ->.
    { rewrite <-Hnone. symmetry. apply (ms_others _ _ _ _ Hin). intros ? ? _. by apply nameRe_not_prefixed. }
    rewrite lookup_insert_eq, decide_True; [done|by eexists].
  - destruct (games_of c0 !! n'); [done|]. rewrite lookup_insert_ne; [done|]. intros Heq%ugKey_inj; [|done..]. naive_solver.
Qed.
End games.

(** ** A small registry *)
Abbreviation toy_store := (gmap string (Match (T:=ScriptTypes))).
Definition no_codec (name : string) (m : args) : option modstate := None.
Definition toy_file (source : string) : option (gmap string (star nat)) := Some toy_globals.
Definition toy_catalog : Catalog (S:=toy_store) := mkCatalog (NewManager ∅ []) ∅.

Abbreviation toy_ops := [RegisterOp 5 "ann" "src" "play well"; RegisterOp 6 "bob" "src" ""; DeleteOp "bob" "toy"].
Abbreviation toy_registry := (registry_run no_codec toy_run toy_file toy_ops (toy_catalog, NewUserAwareRegistry ∅)).

Lemma toy_file_dicts source globals d : toy_file source = Some globals → globals !! "PHASES" = Some (SDict d) → NoDup d.*1.
Proof.
  intros [= <-]. vm_compute (toy_globals !! _). intros [= <-]. apply NoDup_singleton.
Qed.

Lemma toy_phases source s : LoadSpec toy_file source = Ok s → sp_Phases s !! "" = None.
Proof. unfold LoadSpec. simpl. vm_compute (spec_of _ _). intros [= <-]. reflexivity. Qed.

Lemma toy_found : (LookupForUser "ann" "toy" toy_registry).1 = Ok (managerKeyFor "ann" "toy", "ann").
Proof. vm_compute. reflexivity. Qed.

Lemma toy_name : nameRe "toy".
Proof. apply (bool_decide_eq_true_1 _). vm_compute. reflexivity. Qed.

(** Ann finds her game after the restart, Bob's is gone. *)
Lemma restarts_keep_games_witness : ∃ c1 r1,
  ReplayFromStore no_codec toy_run toy_file (toy_catalog, NewUserAwareRegistry (ur_store toy_registry.2)) = (Ok tt, (c1, r1)) ∧
  (LookupForUser "ann" "toy" (c1, r1)).1 = Ok (managerKeyFor "ann" "toy", "ann").
Proof.
  destruct (restarts_keep_games no_codec toy_run toy_file toy_file_dicts toy_phases toy_catalog toy_ops) as (c1 & r1 & Hr & _ & Hl).
  exists c1, r1. split; [exact Hr|]. destruct (Hl "ann" "toy" toy_name) as [Heq _]. rewrite Heq. exact toy_found.
Defined.

Lemma toy_registers : ∃ cr', RegisterUserGame no_codec toy_run toy_file 7 "cat" "src" "" toy_registry = (Ok tt, cr').
Proof.
  assert ((RegisterUserGame no_codec toy_run toy_file 7 "cat" "src" "" toy_registry).1 = Ok tt) as H by (vm_compute; reflexivity).
  destruct (RegisterUserGame _ _ _ _ _ _ _ _) as [o cr']. simpl in H. subst. by exists cr'.
Qed.

Lemma registrations_reach_their_user_witness : ∃ cr', RegisterUserGame no_codec toy_run toy_file 7 "cat" "src" "" toy_registry = (Ok tt, cr') ∧
  (LookupForUser "ann" "toy" cr').1 = Ok (managerKeyFor "ann" "toy", "ann").
Proof.
  destruct toy_registers as [cr' Hr]. exists cr'. split; [exact Hr|].
  destruct (registrations_reach_their_user no_codec toy_run toy_file toy_file_dicts toy_phases toy_catalog toy_ops 7 "cat" "src" "" cr' Hr)
    as (s & _ & _ & _ & _ & Hl).
  rewrite (Hl "ann" "toy" toy_name), decide_False; [exact toy_found|]. intros [H _]. discriminate H.
Defined.

(** ** What goes wrong *)

(** A game that is kept to its user's own list is anybody's who names its key: the manager
    knows the key, so the lookup takes it for a built-in game. *)
Theorem keys_open_games_of_others : (LookupForUser "eve" "toy" toy_registry).1 = Err (ErrUnknownGame_ "toy") ∧
  (LookupForUser "eve" "usergame:ann:toy" toy_registry).1 = Ok ("usergame:ann:toy", "").
Proof. vm_compute. done. Qed.

(** Two phases marked as the start, one of them under the empty name. *)
Definition two_starts (second : string) : gmap string (star nat) :=
  <["PHASES" := SDict ((λ name, (SString name, SDict [(SString "start", SBool true); (SString "moves", SDict [(SString "rest", toy_move)])]))
                         <$> [""; second])]> toy_globals.
Definition two_starts_file (second source : string) : option (gmap string (star nat)) := Some (two_starts second).

(** Such a game passes the checks before it is stored but not the manager's, which comes
    after: the registration fails, the game stays in the store, its user cannot delete it,
    and no later start of the server gets past it. *)
Theorem refused_games_stop_the_next_start :
  let start := (toy_catalog, NewUserAwareRegistry (∅ : InMemoryUserGames)) in
  let '(o, cr) := RegisterUserGame no_codec toy_run (two_starts_file "day") 5 "ann" "src" "" start in
  (∃ e, o = Err (ErrRegister e)) ∧
  (DeleteUserGame "ann" "toy" cr).1 = Err ErrNoSuchGame ∧
  ∃ e, (ReplayFromStore no_codec toy_run (two_starts_file "day") (toy_catalog, NewUserAwareRegistry (ur_store cr.2))).1 = Err (ErrRegister e).
Proof. vm_compute. split; [by eexists|]. split; [done|by eexists]. Qed.

(** A name in the error that reads "already" passes for the error of a game registered
    before: the user is told that the game is there, and no match of it can be made. *)
Theorem already_in_a_name_hides_the_error :
  let start := (toy_catalog, NewUserAwareRegistry (∅ : InMemoryUserGames)) in
  let '(o, cr) := RegisterUserGame no_codec toy_run (two_starts_file "already") 5 "ann" "src" "" start in
  o = Ok tt ∧ (LookupForUser "ann" "toy" cr).1 = Ok (managerKeyFor "ann" "toy", "ann") ∧
  games_of cr.1 !! managerKeyFor "ann" "toy" = None.
Proof. vm_compute. done. Qed.
