(* ===== verification/Skills.v ===== *)
(** * Designed games as skills

    [src/mcp]: starlarkgame/skill_skeleton.go, which writes a skill's text, and
    usergames_skills.go, the store that keeps each game as a directory of files.  The file
    system is a map that never fails; the texts of times are Go's and parameters.  The second
    half shows when a saved game is found again. *)

From stdpp Require Import pretty sorting.
From S2P Require Import Prelude Json GameSpec ScriptTheorems Registry.
#[local] Open Scope Z_scope.

(** ** Text *)
Definition nl : Ascii.ascii := Ascii.ascii_of_nat 10.
Definition newline : string := String nl EmptyString.
Definition line (s : string) : string := s +:+ newline.

(** [strings.Cut], [strings.Index] *)
Fixpoint cut (sep s : string) : option (string * string) :=
  match strip_prefix sep s with
  | Some rest => Some ("", rest)
  | None => match s with
            | EmptyString => None
            | String c s => '(a, b) ← cut sep s; Some (String c a, b)
            end
  end.

(** [strings.TrimLeft] and [strings.TrimRight] with a newline *)
Fixpoint trim_left_nl (s : string) : string :=
  match s with String c s' => if decide (c = nl) then trim_left_nl s' else s | EmptyString => s end.
Fixpoint trim_right_nl (s : string) : string :=
  match s with
  | EmptyString => EmptyString
  | String c s => match trim_right_nl s with
                  | EmptyString => if decide (c = nl) then EmptyString else String c EmptyString
                  | s => String c s
                  end
  end.
Fixpoint ends_in_newline (s : string) : bool :=
  match s with EmptyString => false | String c EmptyString => bool_decide (c = nl) | String _ s => ends_in_newline s end.

(** [strings.TrimSpace]: the spaces of Unicode, as their bytes. *)
Definition spaces : list (list Ascii.ascii) := map (map Ascii.ascii_of_nat)
  ([[9]; [10]; [11]; [12]; [13]; [32]; [194; 133]; [194; 160]; [225; 154; 128]]
   ++ ((λ i, [226; 128; i]) <$> seq 128 11) ++ [[226; 128; 168]; [226; 128; 169]; [226; 128; 175]; [226; 129; 159]; [227; 128; 128]])%nat.

Fixpoint drop_prefix (p l : list Ascii.ascii) : option (list Ascii.ascii) :=
  match p, l with
  | [], l => Some l
  | a :: p, b :: l => if decide (a = b) then drop_prefix p l else None
  | _ :: _, [] => None
  end.
Definition drop_any (ps : list (list Ascii.ascii)) (l : list Ascii.ascii) : option (list Ascii.ascii) := head (omap (λ p, drop_prefix p l) ps).
Fixpoint trim_front (ps : list (list Ascii.ascii)) (n : nat) (l : list Ascii.ascii) : list Ascii.ascii :=
  match n with
  | O => l
  | Datatypes.S n => match drop_any ps l with Some l => trim_front ps n l | None => l end
  end.
Definition TrimSpace (s : string) : string :=
  let l := String.list_ascii_of_string s in
  let l := trim_front spaces (length l) l in
  String.string_of_list_ascii (rev (trim_front (map (@rev _) spaces) (length l) (rev l))).

(** ** skill_skeleton.go *)
Record SkeletonMove := mkSkeletonMove { sk_Move : string; sk_Args : list ArgDef }.
Record SkillSkeleton := mkSkeleton {
  sk_Name : string; sk_Description : string; sk_Owner : string; sk_MinPlayers : Z; sk_MaxPlayers : Z;
  sk_CreatedAt : Z; sk_LLMGuide : string; sk_Moves : list SkeletonMove
}.

Definition BuildSkillSkeleton {F} (s : Spec F) (llmGuide owner : string) (createdAt : Z) : SkillSkeleton :=
  let moves := (λ mv, mkSkeletonMove (sm_Name mv) (sm_ArgsDef mv)) <$> (map_to_list (sp_AllMoves s)).*2 in
  mkSkeleton (me_Name (sp_Meta s)) (me_Description (sp_Meta s)) owner (me_MinPlayers (sp_Meta s)) (me_MaxPlayers (sp_Meta s))
    createdAt llmGuide (sorted_by sk_Move moves).

Definition renderArgSig (a : ArgDef) : string :=
  ad_Name a
  +:+ (if decide (ad_Type a = "") then ""
       else if bool_decide (ad_Type a = "entity") && bool_decide (ad_Zone a ≠ "") then ": entity(" +:+ ad_Zone a +:+ ")"
       else ": " +:+ ad_Type a)
  +:+ match ad_Min a, ad_Max a with
      | Some min, Some max => " [" +:+ pretty min +:+ ".." +:+ pretty max +:+ "]"
      | Some min, None => " [≥" +:+ pretty min +:+ "]"
      | None, Some max => " [≤" +:+ pretty max +:+ "]"
      | None, None => ""
      end.

Definition render_move (m : SkeletonMove) : string :=
  line ("- `" +:+ sk_Move m +:+ "(" +:+ String.concat ", " (renderArgSig <$> sk_Args m) +:+ ")`").

Definition texts (l : list string) : string := String.concat "" l.

(** A directory's path is its segments, its files are their texts by name. *)
Abbreviation path := (list string).
Abbreviation FS := (gmap (list string) (gmap string string)).

(** [t.UTC().Format(time.RFC3339)] and [time.Parse(time.RFC3339, s)] *)
Section skills.
Context (RFC3339 : Z → string) (parse_RFC3339 : string → option Z).

Definition frontmatter (sk : SkillSkeleton) : list string :=
  ["name: " +:+ sk_Name sk]
  ++ (if decide (sk_Description sk = "") then [] else ["description: " +:+ sk_Description sk])
  ++ (if decide (sk_Owner sk = "") then [] else ["owner: " +:+ sk_Owner sk])
  ++ (if decide (sk_CreatedAt sk = 0) then [] else ["created_at: " +:+ RFC3339 (sk_CreatedAt sk)]).

Definition markdown (sk : SkillSkeleton) : string :=
  line (line ("# " +:+ sk_Name sk))
  +:+ (if decide (sk_Description sk = "") then "" else line (line (sk_Description sk)))
  +:+ line (line ("**Players:** " +:+ pretty (sk_MinPlayers sk) +:+ "–" +:+ pretty (sk_MaxPlayers sk) +:+ "."))
  +:+ line (line "## Moves")
  +:+ (match sk_Moves sk with
       | [] => line (line "_(none declared)_")
       | moves => line (texts (render_move <$> moves))
       end)
  +:+ (if decide (sk_LLMGuide sk = "") then ""
       else line (line "## Designer's notes") +:+ line (line (trim_right_nl (sk_LLMGuide sk))))
  +:+ line (line "## Strategy")
  +:+ line "_(Fill in as you discover good play.)_".

Definition RenderMarkdown (sk : SkillSkeleton) : string :=
  line "---" +:+ (texts (line <$> frontmatter sk) +:+ (line (line "---") +:+ markdown sk)).

(** ** usergames_skills.go: reading a skill *)
Record skillFile := mkSkillFile { sf_Name : string; sf_Owner : string; sf_CreatedAt : Z; sf_Body : string }.

Definition read_line (f : skillFile) (l : string) : skillFile :=
  let l := TrimSpace l in
  match (if decide (l = "") then None else cut ":" l) with
  | None => f
  | Some (k, v) =>
      let k := TrimSpace k in
      let v := TrimSpace v in
      if decide (k = "name") then mkSkillFile v (sf_Owner f) (sf_CreatedAt f) (sf_Body f)
      else if decide (k = "owner") then mkSkillFile (sf_Name f) v (sf_CreatedAt f) (sf_Body f)
      else if decide (k = "created_at") then
        match parse_RFC3339 v with Some t => mkSkillFile (sf_Name f) (sf_Owner f) t (sf_Body f) | None => f end
      else f
  end.

Definition readSkillFile (text : string) : option skillFile :=
  rest ← strip_prefix (line "---") text;
  '(front, body) ← cut (newline +:+ line "---") rest;
  Some (foldl read_line (mkSkillFile "" "" 0 (trim_left_nl body)) (split_on nl front)).

(** ** The directory *)

Context {F : Type} (exec_file : string → option (gmap string (star F))) (root : path).

(** [filepath.Join] cleans the path, so a name with dots leads out of the root. *)
Definition gameDir (name : string) : path := foldl step_into root (split_on (Ascii.ascii_of_nat 47) name).

Definition file (dir : path) (name : string) (fs : FS) : option string := fs !! dir ≫= (.!! name).

Inductive read_failure : Type := NotExist | BadSkill.

Definition skill_of (dir : path) (fs : FS) : outcome read_failure skillFile :=
  match file dir "SKILL.md" fs with
  | None => Err NotExist
  | Some text => match readSkillFile text with Some skill => Ok skill | None => Err BadSkill end
  end.

Definition no_notes : string := "(No strategy notes were authored for this game.)".

Definition guide_of (dir : path) (skill : skillFile) (fs : FS) : string :=
  match file dir "guide.md" fs with
  | Some g => trim_right_nl g
  | None =>
      if decide (is_Some (strip_prefix "# " (trim_left_nl (sf_Body skill)))) then ""
      else let body := trim_right_nl (sf_Body skill) in if decide (body = no_notes) then "" else body
  end.

Definition readGame (name : string) (fs : FS) : outcome read_failure UserGame :=
  let dir := gameDir name in
  skill ← skill_of dir fs;
  match file dir "spec.star" fs with
  | None => Err NotExist
  | Some src => Ok (mkUserGame (sf_Owner skill) (sf_Name skill) src (guide_of dir skill fs) (sf_CreatedAt skill))
  end.

(** [os.ReadDir]: the directories in the root, by name. *)
Definition dir_entry (dir : path) : option string :=
  match last dir with Some name => if decide (dir = root ++ [name]) then Some name else None | None => None end.
Definition entries (fs : FS) : list string := sorted_by id (omap dir_entry (map_to_list fs).*1).

Definition scanGames (fs : FS) : list UserGame :=
  omap (λ name, match readGame name fs with
                | Ok ug => if decide (ug_Name ug = name) then Some ug else None
                | _ => None
                end) (entries fs).

Definition created_at (now : Z) (dir : path) (ug : UserGame) (fs : FS) : Z :=
  if decide (ug_CreatedAt ug = 0) then
    match skill_of dir fs with
    | Ok prev => if decide (sf_CreatedAt prev = 0) then now else sf_CreatedAt prev
    | _ => now
    end
  else ug_CreatedAt ug.

(** [os.MkdirAll] and the writes of one [Put]; [os.RemoveAll] takes what is below, too. *)
Definition write_game (dir : path) (sk : SkillSkeleton) (ug : UserGame) (fs : FS) : FS :=
  let files := default ∅ (fs !! dir) in
  let files := <["SKILL.md" := RenderMarkdown sk]> files in
  let files := <["spec.star" := ug_Source ug]> files in
  let guide := ug_LLMGuide ug in
  <[dir := if decide (guide = "") then delete "guide.md" files
           else <["guide.md" := if ends_in_newline guide then guide else line guide]> files]> fs.

Definition mkdir (dir : path) (fs : FS) : FS := <[dir := default ∅ (fs !! dir)]> fs.
Definition remove_all (dir : path) (fs : FS) : FS := filter (λ e, ¬ dir `prefix_of` e.1) fs.

Definition Skills_Put (now : Z) (ug : UserGame) : ST FS store_failure () := λ fs,
  let dir := gameDir (ug_Name ug) in
  let created := created_at now dir ug fs in
  match LoadSpec exec_file (ug_Source ug) with
  | Ok spec => (Ok tt, write_game dir (BuildSkillSkeleton spec (ug_LLMGuide ug) (ug_UserID ug) created) ug fs)
  | Err _ => (Err BadSource, mkdir dir fs)
  | Panicked => (Panicked, mkdir dir fs)
  | NoFuel => (NoFuel, mkdir dir fs)
  end.

Definition Skills_Get (userID name : string) : ST FS store_failure (option UserGame) := λ fs,
  (match readGame name fs with
   | Ok ug => Ok (if decide (ug_UserID ug = userID) then Some ug else None)
   | Err NotExist => Ok None
   | _ => Err NotAGame
   end, fs).

Definition Skills_Delete (userID name : string) : ST FS store_failure () := λ fs,
  match readGame name fs with
  | Ok ug => (Ok tt, if decide (ug_UserID ug = userID) then remove_all (gameDir name) fs else fs)
  | Err NotExist => (Ok tt, fs)
  | _ => (Err NotAGame, fs)
  end.

#[export] Instance SkillsDirUserGames : UserGameStore FS := {
  PutGame := Skills_Put;
  GetGame := Skills_Get;
  ListGames_ userID := λ fs, (Ok (sorted_by id (ug_Name <$> filter (λ g, ug_UserID g = userID) (scanGames fs))), fs);
  ListAll := λ fs, (Ok (scanGames fs), fs);
  Delete := Skills_Delete
}.
End skills.

(** ** Lines and words *)
Definition plain (c : Ascii.ascii) : Prop := 33 ≤ byte_of c ≤ 126.
#[export] Instance plain_dec c : Decision (plain c).
Proof. unfold plain. apply _. Defined.

(** A word: visible ASCII. *)
Definition word (s : string) : Prop := s ≠ "" ∧ Forall plain (String.list_ascii_of_string s).

Definition visible_space (ps : list (list Ascii.ascii)) : Prop := Forall (λ p, p ≠ [] ∧ Forall (λ b, ¬ plain b) p) ps.

Lemma spaces_fine : visible_space spaces ∧ visible_space (map (@rev _) spaces).
Proof. unfold visible_space. split; apply (bool_decide_eq_true_1 _); vm_compute; reflexivity. Qed.

Lemma drop_prefix_Some p l r : drop_prefix p l = Some r → l = p ++ r.
Proof.
  revert l. induction p as [|a p IH]; intros [|b l]; simpl; try done; [by intros [= <-]|by intros [= <-]|].
  case_decide as Hab; [|done]. subst. by intros ->%IH.
Qed.

Lemma drop_any_Some ps l r : drop_any ps l = Some r → ∃ p, p ∈ ps ∧ l = p ++ r.
Proof.
  unfold drop_any. induction ps as [|p ps IH]; [done|]. cbn. destruct (drop_prefix p l) as [r'|] eqn:Hp.
  - intros [= ->]. exists p. split; [by left|by apply drop_prefix_Some].
  - intros (q & ? & ?)%IH. exists q. split; [by right|done].
Qed.

(** Trimming stops at a visible character. *)
Lemma trim_front_stops ps n c a b : visible_space ps → plain c → ∃ a', trim_front ps n (a ++ c :: b) = a' ++ c :: b.
Proof.
  intros Hps Hc. revert a. induction n as [|n IH]; intros a; simpl; [by exists a|].
  destruct (drop_any ps (a ++ c :: b)) as [r|] eqn:Hd; [|by exists a].
  apply drop_any_Some in Hd as (p & Hp & Heq). apply (proj1 (Forall_forall _ _) Hps) in Hp as [_ Hp].
  assert (∃ a', a = p ++ a') as [a' ->].
  { clear - Hp Hc Heq. revert a Heq. induction Hp as [|x p Hx Hp IH]; intros a Heq; [by exists a|].
    destruct a as [|y a]; simpl in Heq; injection Heq as -> Heq; [done|]. destruct (IH a Heq) as [a' ->]. by exists a'. }
  rewrite <-app_assoc in Heq. apply app_inv_head in Heq as <-. apply IH.
Qed.

Lemma trim_front_keeps ps n c b : visible_space ps → plain c → trim_front ps n (c :: b) = c :: b.
Proof.
  intros Hps Hc. destruct n as [|n]; [done|]. simpl. destruct (drop_any ps (c :: b)) as [r|] eqn:Hd; [|done].
  apply drop_any_Some in Hd as (p & Hp & Heq). apply (proj1 (Forall_forall _ _) Hps) in Hp as [Hne Hp].
  destruct p as [|x p]; [done|]. injection Heq as -> _. by apply Forall_cons in Hp as [? _].
Qed.

Lemma string_of_app a b : String.string_of_list_ascii (a ++ b) = String.string_of_list_ascii a +:+ String.string_of_list_ascii b.
Proof. induction a as [|c a IH]; [done|]. simpl. by rewrite IH. Qed.

(** What begins with a visible character keeps its beginning up to the last visible one
    it is known to hold. *)
Lemma TrimSpace_keeps (a : string) c b : plain c → (∃ d a', a +:+ String c "" = String d a' ∧ plain d) →
  ∃ b', TrimSpace (a +:+ String c b) = a +:+ String c b' ∧ (b = "" → b' = "").
Proof.
  intros Hc (d & a' & Ha & Hd). unfold TrimSpace. destruct spaces_fine as [H1 H2].
  assert (Hl : String.list_ascii_of_string (a +:+ String c b) =
      d :: drop 1 (String.list_ascii_of_string a ++ c :: String.list_ascii_of_string b)).
  { rewrite list_ascii_app. simpl. destruct a as [|x a]; simpl in *; injection Ha as -> Ha; done. }
  assert (Htrim : trim_front spaces (length (String.list_ascii_of_string (a +:+ String c b))) (String.list_ascii_of_string (a +:+ String c b)) =
      String.list_ascii_of_string a ++ c :: String.list_ascii_of_string b).
  { rewrite Hl, trim_front_keeps by done. rewrite <-Hl, list_ascii_app. done. }
  rewrite Htrim, rev_app_distr. cbn [rev]. rewrite <-app_assoc. cbn [app].
  set (n := length _). destruct (decide (b = "")) as [->|Hb].
  - exists "". cbn [String.list_ascii_of_string rev app]. rewrite trim_front_keeps by done. split; [|done].
    cbn [rev]. rewrite rev_involutive, string_of_app. by rewrite String.string_of_list_ascii_of_string.
  - destruct (trim_front_stops (map (@rev _) spaces) n c (rev (String.list_ascii_of_string b))
      (rev (String.list_ascii_of_string a)) H2 Hc) as [r ->].
    exists (String.string_of_list_ascii (rev r)). split; [|done].
    rewrite rev_app_distr. cbn [rev]. rewrite rev_involutive, <-app_assoc, string_of_app. simpl.
    by rewrite String.string_of_list_ascii_of_string.
Qed.

Lemma word_last s : word s → ∃ a c, s = a +:+ String c "" ∧ plain c.
Proof.
  intros [Hne Hs]. induction s as [|c s IH]; [done|]. simpl in Hs. apply Forall_cons in Hs as [Hc Hs].
  destruct s as [|x s]; [by exists "", c|]. destruct IH as (a & d & -> & Hd); [done|done|]. by exists (String c a), d.
Qed.

Lemma word_first s : word s → ∃ c a, s = String c a ∧ plain c.
Proof. intros [Hne Hs]. destruct s as [|c s]; [done|]. simpl in Hs. apply Forall_cons in Hs as [Hc _]. by exists c, s. Qed.

Lemma TrimSpace_word (k s : string) : (k = "" ∨ ∃ d a, k = String d a ∧ plain d) → word s → TrimSpace (k +:+ s) = k +:+ s.
Proof.
  intros Hk Hs. destruct (word_last s Hs) as (a & c & -> & Hc). rewrite <-append_assoc.
  destruct (TrimSpace_keeps (k +:+ a) c "" Hc) as (b' & -> & Hb); [|by rewrite Hb].
  destruct Hk as [->|(d & k' & -> & Hd)]; [|by exists d, ((k' +:+ a) +:+ String c "")].
  destruct (word_first _ Hs) as (d & r & Hr & Hd). by exists d, r.
Qed.

Lemma TrimSpace_alone s : word s → TrimSpace s = s.
Proof. apply (TrimSpace_word "" s). by left. Qed.

Lemma TrimSpace_space s : word s → TrimSpace (" " +:+ s) = s.
Proof.
  intros Hs. rewrite <-(TrimSpace_alone s Hs) at 2. unfold TrimSpace.
  assert (∀ n l, trim_front spaces (S n) (Ascii.ascii_of_nat 32 :: l) = trim_front spaces n l) as Hdrop by reflexivity.
  change (String.list_ascii_of_string (" " +:+ s)) with (Ascii.ascii_of_nat 32 :: String.list_ascii_of_string s).
  change (length (Ascii.ascii_of_nat 32 :: String.list_ascii_of_string s)) with (S (length (String.list_ascii_of_string s))).
  by rewrite Hdrop.
Qed.

Lemma cut_colon k v : free_of colon k → cut ":" (k +:+ String colon v) = Some (k, v).
Proof.
  induction k as [|c k IH]; intros Hk; [done|]. apply free_cons in Hk as [Hc Hk]. cbn [cut].
  change (String c k +:+ String colon v) with (String c (k +:+ String colon v)). cbn [cut strip_prefix].
  rewrite decide_False by (intros Heq; apply Hc; exact (eq_sym Heq)). by rewrite IH.
Qed.

Section facts.
Context (RFC3339 : Z → string) (parse_RFC3339 : string → option Z).
Abbreviation read_line := (read_line parse_RFC3339).
Implicit Types (f : skillFile).

(** A line of a key and a word is read as just that. *)
Lemma read_line_word (k v : string) f : word k → free_of colon k → word v →
  read_line f (k +:+ (": " +:+ v)) =
    if decide (k = "name") then mkSkillFile v (sf_Owner f) (sf_CreatedAt f) (sf_Body f)
    else if decide (k = "owner") then mkSkillFile (sf_Name f) v (sf_CreatedAt f) (sf_Body f)
    else if decide (k = "created_at") then
      match parse_RFC3339 v with Some t => mkSkillFile (sf_Name f) (sf_Owner f) t (sf_Body f) | None => f end
    else f.
Proof.
  intros Hk Hfree Hv. unfold Skills.read_line. rewrite <-append_assoc.
  rewrite (TrimSpace_word (k +:+ ": ") v).
  2:{ right. destruct (word_first k Hk) as (d & a & -> & Hd). by exists d, (a +:+ ": "). }
  2:{ done. }
  rewrite append_assoc. rewrite decide_False by (by destruct k).
  change (": " +:+ v) with (String colon (" " +:+ v)). rewrite cut_colon by done.
  rewrite (TrimSpace_space v Hv). by rewrite (TrimSpace_alone k Hk).
Qed.

(** Whatever a description says on one line, it is passed over. *)
Lemma read_line_description d f : read_line f ("description: " +:+ d) = f.
Proof.
  unfold Skills.read_line. change ("description: " +:+ d) with ("description" +:+ String colon (" " +:+ d)).
  destruct (TrimSpace_keeps "description" colon (" " +:+ d)) as (b' & -> & _).
  { split; vm_compute; discriminate. }
  { eexists _, _. split; [reflexivity|]. split; vm_compute; discriminate. }
  rewrite decide_False by done. rewrite cut_colon by (repeat constructor; vm_compute; discriminate).
  rewrite (TrimSpace_alone "description") by (split; [done|]; apply (bool_decide_eq_true_1 _); vm_compute; reflexivity).
  by rewrite !decide_False.
Qed.

(** ** Frontmatter *)
Lemma split_join ls : ls ≠ [] → Forall (free_of nl) ls → split_on nl (String.concat newline ls) = ls.
Proof.
  intros Hne Hls. induction Hls as [|l ls Hl Hls IH]; [done|]. destruct ls as [|l2 ls]; [by apply split_on_last|].
  change (String.concat newline (l :: l2 :: ls)) with (l +:+ String nl (String.concat newline (l2 :: ls))).
  rewrite split_on_free by done. by rewrite IH.
Qed.

Abbreviation fence := (newline +:+ line "---").

Lemma cut_line l r : free_of nl l →
  cut fence (l +:+ String nl r) =
    match strip_prefix (line "---") r with
    | Some rest => Some (l, rest)
    | None => '(a, b) ← cut fence r; Some (l +:+ String nl a, b)
    end.
Proof.
  induction l as [|c l IH]; intros Hl.
  - change ("" +:+ String nl r) with (String nl r). cbn [cut].
    change (strip_prefix fence (String nl r)) with (strip_prefix (line "---") r).
    destruct (strip_prefix (line "---") r); [done|]. by destruct (cut fence r) as [[a b]|].
  - apply free_cons in Hl as [Hc Hl]. change (String c l +:+ String nl r) with (String c (l +:+ String nl r)). cbn [cut].
    assert (strip_prefix fence (String c (l +:+ String nl r)) = None) as ->.
    { change (strip_prefix fence (String c (l +:+ String nl r))) with
        (if decide (nl = c) then strip_prefix (line "---") (l +:+ String nl r) else None). rewrite decide_False by congruence. done. }
    rewrite IH by done. destruct (strip_prefix (line "---") r); [done|]. by destruct (cut fence r) as [[a b]|].
Qed.

Lemma strip_fence l r : free_of nl l → l ≠ "---" → strip_prefix (line "---") (l +:+ String nl r) = None.
Proof.
  intros Hl Hne. destruct (strip_prefix _ _) as [rest|] eqn:Hs; [|done]. apply strip_prefix_Some in Hs. destruct Hne.
  change (line "---" +:+ rest) with ("---" +:+ String nl rest) in Hs.
  apply join_inj in Hs as [-> _]; [done|done|]. repeat constructor; vm_compute; discriminate.
Qed.

Lemma line_cons l s : line l +:+ s = l +:+ String nl s.
Proof. unfold line. by rewrite append_assoc. Qed.

Lemma texts_cons a l : texts (a :: l) = a +:+ texts l.
Proof. unfold texts. destruct l as [|b l]; [|done]. simpl. induction a as [|c a IH]; [done|]. exact (f_equal (String c) IH). Qed.

(** The end of the frontmatter is the first line of three dashes after it. *)
Lemma cut_frontmatter ls tail : ls ≠ [] → Forall (λ l, free_of nl l ∧ l ≠ "---") ls →
  cut fence (texts (line <$> ls) +:+ (line "---" +:+ tail)) = Some (String.concat newline ls, tail).
Proof.
  intros Hne Hls. induction Hls as [|l ls [Hl _] Hls IH]; [done|]. rewrite fmap_cons, texts_cons, append_assoc, line_cons, cut_line by done.
  destruct ls as [|l2 ls]; [done|]. rewrite IH by done. apply Forall_cons in Hls as [[Hl2 Hne2] _].
  rewrite fmap_cons, texts_cons, append_assoc, line_cons, strip_fence by done. done.
Qed.

(** ** A saved game is found again *)

(** The year 10000; RFC 3339 has four digits for a year. *)
Definition second : Z := 10 ^ 9.
Definition year_10000 : Z := 315537897600 * second.
Definition whole (t : Z) : Z := t - t mod second.
Context (Htime : ∀ t, 0 < t < year_10000 → word (RFC3339 t) ∧ parse_RFC3339 (RFC3339 t) = Some (whole t)).

Lemma word_free s : word s → free_of nl s.
Proof. intros [_ Hs]. eapply Forall_impl; [exact Hs|]. intros c [Hc _] ->. vm_compute in Hc. by apply Hc. Qed.

Lemma nameRe_word n : nameRe n → word n.
Proof.
  intros [Hlen Hn]. split; [intros ->; simpl in Hlen; lia|]. eapply Forall_impl; [exact Hn|].
  unfold name_char, plain. intros c. simpl. lia.
Qed.

Lemma key_free (k : string) : bool_decide (Forall (λ c, c ≠ nl) (String.list_ascii_of_string k)) = true → free_of nl k.
Proof. apply bool_decide_eq_true_1. Qed.

Definition presentable (sk : SkillSkeleton) : Prop :=
  nameRe (sk_Name sk) ∧ (sk_Owner sk = "" ∨ word (sk_Owner sk)) ∧ free_of nl (sk_Description sk) ∧ 0 < sk_CreatedAt sk < year_10000.

Lemma frontmatter_lines sk : presentable sk → Forall (λ l, free_of nl l ∧ l ≠ "---") (frontmatter RFC3339 sk).
Proof.
  intros (Hn & Ho & Hd & Ht). unfold frontmatter.
  assert (Hcons : ∀ k v, free_of nl k → free_of nl v → k +:+ v ≠ "---" → free_of nl (k +:+ v) ∧ k +:+ v ≠ "---").
  { intros k v ? ? ?. split; [by apply free_app|done]. }
  repeat (apply Forall_app; split); repeat case_decide; repeat constructor; try (by apply key_free; vm_compute);
    try (apply free_app; [by apply key_free; vm_compute|]); try done.
  - by apply word_free, nameRe_word.
  - by destruct Ho as [?|?%word_free].
  - by apply word_free, Htime.
Qed.

Lemma read_rendered sk : presentable sk →
  readSkillFile parse_RFC3339 (RenderMarkdown RFC3339 sk) =
    Some (mkSkillFile (sk_Name sk) (sk_Owner sk) (whole (sk_CreatedAt sk)) (trim_left_nl (newline +:+ markdown sk))).
Proof.
  intros Hsk. pose proof (frontmatter_lines sk Hsk) as Hls. unfold readSkillFile, RenderMarkdown. rewrite strip_prefix_app. cbn [mbind option_bind].
  assert (Htail : line (line "---") +:+ markdown sk = line "---" +:+ (newline +:+ markdown sk)) by (unfold line at 1; by rewrite append_assoc).
  rewrite Htail, cut_frontmatter by done. cbn [mbind option_bind].
  rewrite split_join; [|done|eapply Forall_impl; [exact Hls|]; by intros ? []]. f_equal.
  destruct Hsk as (Hn & Ho & _ & Ht). destruct (Htime _ Ht) as [Hw Hp]. unfold frontmatter. generalize (trim_left_nl (newline +:+ markdown sk)) as body. intros body.
  rewrite !foldl_app. cbn [foldl].
  change ("name: " +:+ sk_Name sk) with ("name" +:+ (": " +:+ sk_Name sk)).
  assert (Hkey : ∀ k, bool_decide (k ≠ "" ∧ Forall (λ c, plain c ∧ c ≠ colon) (String.list_ascii_of_string k)) = true → word k ∧ free_of colon k).
  { intros k [Hk Hc]%bool_decide_eq_true_1. split; [split; [done|]|]; (eapply Forall_impl; [exact Hc|]; by intros ? []). }
  destruct (Hkey "name" ltac:(by vm_compute)) as [Hk1 Hk2]. rewrite read_line_word by (done || by apply nameRe_word).
  rewrite decide_True by done. cbn [sf_Name sf_Owner sf_CreatedAt sf_Body].
  assert (Hdesc : ∀ f, foldl read_line f (if decide (sk_Description sk = "") then [] else ["description: " +:+ sk_Description sk]) = f).
  { intros f. case_decide; [done|]. cbn [foldl]. apply read_line_description. }
  rewrite Hdesc. clear Hdesc.
  assert (Howner : ∀ n b, foldl read_line (mkSkillFile n "" 0 b) (if decide (sk_Owner sk = "") then [] else ["owner: " +:+ sk_Owner sk]) =
      mkSkillFile n (sk_Owner sk) 0 b).
  { intros n b. case_decide as Hown; [by rewrite Hown|]. destruct Ho as [?|Ho]; [done|]. cbn [foldl].
    destruct (Hkey "owner" ltac:(by vm_compute)) as [Ho1 Ho2].
    change ("owner: " +:+ sk_Owner sk) with ("owner" +:+ (": " +:+ sk_Owner sk)). rewrite read_line_word by done. done. }
  rewrite Howner. rewrite decide_False by lia. cbn [foldl].
  destruct (Hkey "created_at" ltac:(by vm_compute)) as [Hc1 Hc2].
  change ("created_at: " +:+ RFC3339 (sk_CreatedAt sk)) with ("created_at" +:+ (": " +:+ RFC3339 (sk_CreatedAt sk))).
  rewrite read_line_word by done. by rewrite Hp.
Qed.

Context {F : Type} (exec_file : string → option (gmap string (star F))) (root : path).
Abbreviation Put := (Skills_Put RFC3339 parse_RFC3339 exec_file root).
Abbreviation Get := (Skills_Get parse_RFC3339 root).

Lemma gameDir_name n : nameRe n → gameDir root n = root ++ [n].
Proof.
  intros Hn. unfold gameDir. rewrite split_on_last.
  2:{ apply nameRe_free; [|done]. unfold name_char. vm_compute. intuition lia. }
  simpl. unfold step_into. destruct Hn as [Hlen Hn].
  assert (∀ b, n ≠ String (Ascii.ascii_of_nat 46) b) as Hdot.
  { intros b ->. simpl in Hn. apply Forall_cons in Hn as [Hn _]. revert Hn. unfold name_char. vm_compute. intuition lia. }
  rewrite decide_False, decide_False; [done|intros ->; by apply (Hdot ".")|].
  intros [->|[->|[]%not_elem_of_nil]%elem_of_cons]%elem_of_cons; [simpl in Hlen; lia|by apply (Hdot "")].
Qed.

Lemma trim_right_line g : trim_right_nl (line g) = trim_right_nl g.
Proof.
  unfold line. induction g as [|c g IH]; [done|]. change (String c g +:+ newline) with (String c (g +:+ newline)).
  cbn [trim_right_nl]. by rewrite IH.
Qed.

(** A rendered text is not taken for one of the old format. *)
Lemma rendered_body sk : is_Some (strip_prefix "# " (trim_left_nl (trim_left_nl (newline +:+ markdown sk)))).
Proof. by eexists. Qed.

(** What [readGame] finds in a directory as [Put] leaves it. *)
Lemma read_written n sk ug fs : presentable sk → sk_LLMGuide sk = ug_LLMGuide ug →
  readGame parse_RFC3339 root n (write_game RFC3339 (gameDir root n) sk ug fs) =
    Ok (mkUserGame (sk_Owner sk) (sk_Name sk) (ug_Source ug) (trim_right_nl (ug_LLMGuide ug)) (whole (sk_CreatedAt sk))).
Proof.
  intros Hsk Hg. unfold readGame, skill_of, guide_of, file, write_game. rewrite lookup_insert_eq. cbn [mbind option_bind].
  set (files := if decide _ then _ else _).
  assert (files !! "SKILL.md" = Some (RenderMarkdown RFC3339 sk) ∧ files !! "spec.star" = Some (ug_Source ug) ∧
    files !! "guide.md" = if decide (ug_LLMGuide ug = "") then None
      else Some (if ends_in_newline (ug_LLMGuide ug) then ug_LLMGuide ug else line (ug_LLMGuide ug))) as (-> & -> & ->).
  { unfold files. case_decide.
    - rewrite !lookup_delete_ne, lookup_delete_eq by done. by rewrite lookup_insert_ne, !lookup_insert_eq.
    - rewrite !(lookup_insert_ne _ "guide.md"), lookup_insert_eq by done. by rewrite lookup_insert_ne, !lookup_insert_eq. }
  rewrite read_rendered by done. cbn [mbind outcome_bind sf_Body sf_Name sf_Owner sf_CreatedAt].
  case_decide as He.
  - rewrite decide_True by apply rendered_body. by rewrite He.
  - destruct (ends_in_newline _); [done|]. by rewrite trim_right_line.
Qed.

(** A game that was saved is found again, by its owner and by a restart's scan: its source
    as it was, its notes without the newlines at their end, the second it was created in,
    if the owner's id is visible ASCII and the game describes itself in one line. *)
Theorem saved_games_are_found now ug spec fs fs' :
  let created := created_at parse_RFC3339 now (gameDir root (ug_Name ug)) ug fs in
  let saved := mkUserGame (ug_UserID ug) (ug_Name ug) (ug_Source ug) (trim_right_nl (ug_LLMGuide ug)) (whole created) in
  LoadSpec exec_file (ug_Source ug) = Ok spec → me_Name (sp_Meta spec) = ug_Name ug → nameRe (ug_Name ug) →
  free_of nl (me_Description (sp_Meta spec)) → ug_UserID ug = "" ∨ word (ug_UserID ug) → 0 < created < year_10000 →
  Put now ug fs = (Ok tt, fs') →
  Get (ug_UserID ug) (ug_Name ug) fs' = (Ok (Some saved), fs') ∧ saved ∈ scanGames parse_RFC3339 root fs' ∧
  ∀ u, u ≠ ug_UserID ug → Get u (ug_Name ug) fs' = (Ok None, fs').
Proof.
  intros created saved Hl Hname Hre Hd Ho Hc. unfold Put. rewrite Hl. intros [= <-].
  set (sk := BuildSkillSkeleton spec (ug_LLMGuide ug) (ug_UserID ug) _). set (fs' := write_game _ _ _ _ _).
  assert (Hread : readGame parse_RFC3339 root (ug_Name ug) fs' = Ok saved).
  { unfold fs'. rewrite read_written; [by unfold saved; simpl; rewrite Hname| |done].
    split; [simpl; by rewrite Hname|]. split; [done|]. split; [done|exact Hc]. }
  unfold Skills_Get. rewrite Hread. split; [by rewrite decide_True|]. split; [|intros u Hu; by rewrite decide_False by done].
  unfold scanGames. apply list_elem_of_omap. exists (ug_Name ug). rewrite Hread, decide_True by done. split; [|done].
  unfold entries, sorted_by. rewrite merge_sort_Permutation. apply list_elem_of_omap. exists (gameDir root (ug_Name ug)).
  rewrite gameDir_name by done. split.
  - apply list_elem_of_fmap. eexists (_, _). split; [reflexivity|]. apply elem_of_map_to_list. unfold fs', write_game.
    rewrite gameDir_name by done. apply lookup_insert_eq.
  - unfold dir_entry. rewrite last_snoc. by rewrite decide_True.
Qed.
End facts.

(** ** A small directory

    A time is written as as many letters as it has seconds, and one. *)
Definition toy_format (t : Z) : string := String.string_of_list_ascii (replicate (S (Z.to_nat (t / second))) (Ascii.ascii_of_nat 120)).
Definition toy_parse (s : string) : option Z := Some ((Z.of_nat (String.length s) - 1) * second).

Lemma length_of_list l : String.length (String.string_of_list_ascii l) = length l.
Proof. induction l as [|c l IH]; [done|]. simpl. by rewrite IH. Qed.

Lemma toy_times t : 0 < t < year_10000 → word (toy_format t) ∧ toy_parse (toy_format t) = Some (whole t).
Proof.
  intros Ht. assert (0 < second) by reflexivity. assert (0 ≤ t / second) by (apply Z.div_pos; lia). split.
  - split; [done|]. unfold toy_format. rewrite String.list_ascii_of_string_of_list_ascii. apply Forall_replicate.
    split; vm_compute; discriminate.
  - unfold toy_parse, toy_format, whole. rewrite length_of_list, length_replicate. f_equal.
    pose proof (Z.div_mod t second). lia.
Qed.

Definition toy_game_of_ann : UserGame := mkUserGame "ann" "toy" "" ("bluff" +:+ newline) 0.

Lemma toy_presentable : nameRe "toy" ∧ free_of nl "" ∧ word "ann".
Proof.
  split; [exact toy_name|]. split; [constructor|]. split; [done|]. apply (bool_decide_eq_true_1 _). vm_compute. reflexivity.
Qed.

Lemma saved_games_are_found_witness : ∃ fs',
  Skills_Get toy_parse ["games"] "ann" "toy" fs' = (Ok (Some (mkUserGame "ann" "toy" "" "bluff" (3 * second))), fs').
Proof.
  eexists. destruct toy_presentable as (H1 & H2 & H3).
  refine (proj1 (saved_games_are_found toy_format toy_parse toy_times toy_file ["games"] (3 * second + 5) toy_game_of_ann toy_spec ∅ _
    toy_loads eq_refl H1 H2 (or_intror H3) _ eq_refl)).
  split; reflexivity.
Defined.

(** ** What goes wrong *)
Definition described (text : string) (source : string) : option (gmap string (star nat)) :=
  Some (<["META" := SDict [(SString "name", SString "toy"); (SString "min_players", SInt 1); (SString "max_players", SInt 4);
                           (SString "description", SString text)]]> toy_globals).
Definition saved_with (text : string) : outcome store_failure () * FS :=
  Skills_Put toy_format toy_parse (described text) ["games"] second toy_game_of_ann ∅.

(** A description of several lines is written into the lines that say whose game it is: one
    with a line of dashes takes the game from its owner, one with a line for a name hides
    it from the next start.  Both are saved without an error. *)
Theorem descriptions_can_lose_games :
  let fenced := saved_with ("fun" +:+ line "" +:+ line "---") in
  let named := saved_with ("fun" +:+ line "" +:+ "name: other") in
  fenced.1 = Ok tt ∧ (Skills_Get toy_parse ["games"] "ann" "toy" fenced.2).1 = Ok None ∧
  named.1 = Ok tt ∧ scanGames toy_parse ["games"] named.2 = [].
Proof. vm_compute. done. Qed.

(** A name with dots reads a game that lies outside the directory. *)
Theorem names_lead_out_of_the_directory root name : gameDir (root ++ ["games"]) ("../" +:+ name) = gameDir root name.
Proof. unfold gameDir. simpl. unfold step_into at 2. simpl. by rewrite removelast_last. Qed.
