(* ===== verification/Tools.v ===== *)
(** * The tool server

    [src/mcp]: tools.go, resources.go, prompts.go, server.go, register.go and
    transport_http.go: the tools, one function each, and the protocol that calls them.  The
    tools work on the match manager, the registry of games and the store of owners.  Texts
    that are only passed on (descriptions, schemas, prompts) are parameters. *)

From Stdlib Require Import SpecFloat.
From stdpp Require Import sorting.
From S2P Require Import Prelude CoreTypes GameDef Reducer Session Storage Manager Lobby Dispatch Random Choices Bots Json GameSpec Bridge Scripts.
From S2P Require Import Registry Skills.
#[local] Open Scope Z_scope.

(** ** Arguments

    encoding/json, decoding into an [any]: every number is a float64, which [ParseFloat]
    reads; of two entries of one key the later counts. *)
Definition put_entry (m : list (string * GoVal)) (e : string * GoVal) : list (string * GoVal) := filter (λ e', e'.1 ≠ e.1) m ++ [e].

Section arguments.
Context (ParseFloat : string → spec_float).

Fixpoint from_json (j : json) : GoVal :=
  match j with
  | JNull => GoNil
  | JBool b => GoBool b
  | JNum _ literal => GoFloat "" (ParseFloat literal)
  | JStr s => GoString s
  | JArr l => GoSlice (from_json <$> l)
  | JObj fields => GoMap (foldl put_entry [] ((λ '(k, j), (k, from_json j)) <$> fields))
  end.

Definition as_anys (j : json) : decoded (list any) :=
  match j with JNull => Put [] | JArr l => Put (to_any ∘ from_json <$> l) | _ => Bad end.
Definition as_map (j : json) : decoded args :=
  match j with
  | JNull => Put []
  | JObj fields => Put (foldl put_entry [] ((λ '(k, j), (k, from_json j)) <$> fields))
  | _ => Bad
  end.

Record CreateMatchArgs := mkCreateArgs { ca_Game : string; ca_NumPlayers : Z; ca_SetupData : any; ca_Name : string }.
Record JoinMatchArgs := mkJoinArgs { ja_MatchID : string; ja_PlayerID : string; ja_Name : string }.
Record PlayerArgs := mkPlayerArgs { pa_MatchID : string; pa_PlayerID : string }.
Record MakeMoveArgs := mkMoveArgs {
  ma_MatchID : string; ma_PlayerID : string; ma_Credentials : string; ma_Move : string; ma_Args : list any; ma_ResumeTag : string
}.
Record RegisterGameArgs := mkRegisterArgs { ra_Source : string; ra_LLMGuide : string }.
Record PlaytestStep := mkStep { ps_PlayerID : string; ps_Move : string; ps_Args : list any }.
Record PlaytestDraftArgs := mkPlaytestArgs { pt_Source : string; pt_Scenario : list PlaytestStep }.
Record ModuleOpArgs := mkModuleOpArgs { mo_MatchID : string; mo_Module : string; mo_Op : string; mo_Args : args }.

(** The fields of a struct, and whether they could be decoded. *)
Abbreviation str name fields := (field "" as_string name fields).
Abbreviation anys name fields := (field [] as_anys name fields).

Definition read_create (fields : list (string * json)) : CreateMatchArgs * bool :=
  let game := str "game" fields in
  let n := field 0 as_int "numPlayers" fields in
  let data := field None (λ j, Put (to_any (from_json j))) "setupData" fields in
  let name := str "name" fields in
  (mkCreateArgs game.1 n.1 data.1 name.1, game.2 && n.2 && name.2).
Definition read_join (fields : list (string * json)) : JoinMatchArgs * bool :=
  let id := str "matchID" fields in
  let player := str "playerID" fields in
  let name := str "name" fields in
  (mkJoinArgs id.1 player.1 name.1, id.2 && player.2 && name.2).
Definition read_player (fields : list (string * json)) : PlayerArgs * bool :=
  let id := str "matchID" fields in
  let player := str "playerID" fields in
  (mkPlayerArgs id.1 player.1, id.2 && player.2).
Definition read_move (fields : list (string * json)) : MakeMoveArgs * bool :=
  let id := str "matchID" fields in
  let player := str "playerID" fields in
  let creds := str "credentials" fields in
  let move := str "move" fields in
  let l := anys "args" fields in
  let tag := str "resumeTag" fields in
  (mkMoveArgs id.1 player.1 creds.1 move.1 l.1 tag.1, id.2 && player.2 && creds.2 && move.2 && l.2 && tag.2).
Definition read_register (fields : list (string * json)) : RegisterGameArgs * bool :=
  let source := str "source" fields in
  let guide := str "llm_guide" fields in
  (mkRegisterArgs source.1 guide.1, source.2 && guide.2).
Definition read_step (j : json) : option PlaytestStep :=
  fields ← body_fields (Some j);
  let player := str "player_id" fields in
  let move := str "move" fields in
  let l := anys "args" fields in
  if player.2 && move.2 && l.2 then Some (mkStep player.1 move.1 l.1) else None.
Definition as_steps (j : json) : decoded (list PlaytestStep) :=
  match j with JNull => Put [] | JArr l => match mapM read_step l with Some steps => Put steps | None => Bad end | _ => Bad end.
Definition read_playtest (fields : list (string * json)) : PlaytestDraftArgs * bool :=
  let source := str "source" fields in
  let scenario := field [] as_steps "scenario" fields in
  (mkPlaytestArgs source.1 scenario.1, source.2 && scenario.2).
Definition read_name (key : string) (fields : list (string * json)) : string * bool := str key fields.
Definition read_module_op (fields : list (string * json)) : ModuleOpArgs * bool :=
  let id := str "matchId" fields in
  let module := str "module" fields in
  let op := str "op" fields in
  let m := field [] as_map "args" fields in
  (mkModuleOpArgs id.1 module.1 op.1 m.1, id.2 && module.2 && op.2 && m.2).
End arguments.

(** ** Results *)
Record GameInfo := mkGameInfo { gi_Name : string; gi_MinPlayers : Z; gi_MaxPlayers : Z; gi_UserOwned : bool }.
Record PlayerInfo := mkPlayerInfo { pi_PlayerID : string; pi_Seat : string; pi_Name : string; pi_IsConnected : bool }.
Record GetStateResult := mkGetState {
  gs_MatchID : string; gs_Game : string; gs_State : State; gs_CurrentPlayer : string; gs_Phase : string; gs_Turn : Z;
  gs_Players : list PlayerInfo; gs_Gameover : any
}.
Record PlaytestTrace := mkTrace {
  tr_PlayerID : string; tr_Move : string; tr_Args : list any; tr_Before : args; tr_After : option args;
  tr_EndIf : GoVal; tr_Legal : list args; tr_Error : option script_error
}.
Inductive draft_error : Type := ParseFailed (e : spec_error) | ValidateFailed (e : smoke_error).
Record PlaytestDraftResult := mkPlaytest {
  pd_Errors : list draft_error; pd_Setup : option args; pd_Trace : list PlaytestTrace
}.
Record OpInfo := mkOpInfo { oi_Name : string; oi_MCPTool : string; oi_ReadOnly : bool }.
Record ModuleInfo := mkModuleInfo { mi_Module : string; mi_Ops : list OpInfo }.
Record ExportGameResult := mkExportGame {
  eg_Skill : SkillSkeleton; eg_SkillMD : string; eg_SpecStar : string; eg_CreatedAt : string
}.

Inductive tool_result : Type :=
  | RGames (l : list GameInfo)
  | RCreated (matchID game : string) (numPlayers : Z)
  | RJoined (matchID playerID seat credentials : string)
  | RState (r : GetStateResult)
  | RMoves (matchID playerID : string) (moves : list Action)
  | RMoved (matchID : string) (st : State) (currentPlayer : string) (gameover : any)
  | RRegistered (name : string)
  | RPlaytest (r : PlaytestDraftResult)
  | RDeleted
  | RExported (r : ExportGameResult)
  | ROp (v : GoVal)
  | RModules (l : list ModuleInfo).

Inductive tool_error : Type :=
  | ErrRequired (what : string)
  | ErrNotAuthenticated
  | ErrOwnership (e : ownership_error)
  | ErrNotOwned (matchID userID : string)
  | FromManager (e : manager_error)
  | FromRegistry (e : registry_error)
  | ErrUnregistered (game : string)
  | ErrNoEnumerate (game : string)
  | ErrNoRegistry
  | ErrNotYours (name : string)
  | ErrSpec (e : spec_error)
  | ErrSetup (e : script_error)
  | ErrUnknownModule (name : string)
  | ErrUnknownOp (op module : string)
  | ErrNotDesigned (matchID : string)
  | ErrUndeclared (matchID module : string)
  | FromOp (e : op_error)
  | ErrArguments.

Definition asserted (b : bool) (e : tool_error) : outcome tool_error () := if b then Ok tt else Err e.

(** ** playtest_draft

    A draft's own run: nothing outside is touched.  One generator serves the setup and the
    moves, a new one each look at the state afterwards. *)
Section playtest.
Context {F : Type} (run : F → option ctx_fields → list (star F) → sprog F) (exec_file : string → option (gmap string (star F))).

Fixpoint play (spec : Spec F) (scenario : list PlaytestStep) (state : args) (sc : scope) (trace : list PlaytestTrace)
    : outcome tool_error (list PlaytestTrace) :=
  match scenario with
  | [] => Ok trace
  | mkStep player move l :: scenario =>
      let n := me_MinPlayers (sp_Meta spec) in
      let '(next, sc) := CallMove run spec (NewWriteCtx n player) move state (of_any <$> l) sc in
      match next with
      | Err e => Ok (trace ++ [mkTrace player move l state None GoNil [] (Some e)])
      | Ok next =>
          let bc := NewReadCtx n player in
          let '(over, sc') := CallEndIf run spec bc next (scope_of (cx_mods sc) (Some 0)) in
          let '(legal, sc') := CallLegalMoves run spec bc next sc' in
          over ← match over with Ok v => Ok v | Err _ => Ok GoNil | Panicked => Panicked | NoFuel => NoFuel end;
          legal ← match legal with Ok l => Ok l | Err _ => Ok [] | Panicked => Panicked | NoFuel => NoFuel end;
          play spec scenario next (mkScope (cx_mods sc') (cx_rng sc) (cx_events sc) (cx_targets sc))
            (trace ++ [mkTrace player move l state (Some next) over legal None])
      | Panicked => Panicked
      | NoFuel => NoFuel
      end
  end.

Definition PlaytestDraft (a : PlaytestDraftArgs) : outcome tool_error PlaytestDraftResult :=
  match LoadSpec exec_file (pt_Source a) with
  | Err e => Ok (mkPlaytest [ParseFailed e] None [])
  | Panicked => Panicked
  | NoFuel => NoFuel
  | Ok spec =>
      match ValidateSpec run spec with
      | Err e => Ok (mkPlaytest [ValidateFailed e] None [])
      | Panicked => Panicked
      | NoFuel => NoFuel
      | Ok _ =>
          let '(state, sc) := CallSetup run spec (NewWriteCtx (me_MinPlayers (sp_Meta spec)) "") (scope_of (NewModuleStates spec) (Some 0)) in
          state ← lift_err ErrSetup state;
          trace ← play spec (pt_Scenario a) state sc [];
          Ok (mkPlaytest [] (Some state) trace)
      end
  end.
End playtest.

(** ** describe_modules *)
Definition op_info (op : Op) : OpInfo := mkOpInfo (op_Name op) (op_MCPTool op) (op_ReadOnly op).

Definition DescribeModules (module : string) : outcome tool_error (list ModuleInfo) :=
  if decide (module ≠ "" ∧ RegistryFor module = None) then Err (ErrUnknownModule module)
  else Ok (omap (λ name, (λ ops, mkModuleInfo name (sorted_by oi_Name (op_info <$> ops))) <$> RegistryFor name)
             (if decide (module = "") then AllModules else [module])).

(** ** The other tools *)
Section tools.
Context {S : Type} `{!Storage S} (cf : Config).
Context {F : Type} (Rehydrate : string → args → option modstate).
Context (run : F → option ctx_fields → list (star F) → sprog F) (exec_file : string → option (gmap string (star F))).
Context (RFC3339 : Z → string).
Context {U : Type} `{!UserGameStore U} {O : Type} `{!OwnershipStore O}.
Abbreviation Mgr := (Manager.Manager (S:=S)).

(** What the tools work on; either the registry or the owners may be missing. *)
Record Tools := mkTools {
  tl_Catalog : Catalog (S:=S);
  tl_Registry : option (UserAwareRegistry (U:=U));
  tl_Ownership : option O
}.

Abbreviation H := (ST Tools tool_error).

Definition tl_Manager (t : Tools) : Mgr := ca_Manager (tl_Catalog t).

(** A call of the manager, the registry or the owners. *)
Definition on_manager {A} (op : ST Mgr manager_error A) : H A := λ t,
  let '(o, c) := on_mgr op (tl_Catalog t) in (lift_err FromManager o, mkTools c (tl_Registry t) (tl_Ownership t)).
Definition on_registry {A} (op : ST (Catalog (S:=S) * UserAwareRegistry (U:=U)) registry_error A) : H A := λ t,
  match tl_Registry t with
  | None => (Err ErrNoRegistry, t)
  | Some r => let '(o, (c, r)) := op (tl_Catalog t, r) in (lift_err FromRegistry o, mkTools c (Some r) (tl_Ownership t))
  end.
Definition on_owners {A} (none : A) (op : ST O ownership_error A) : H A := λ t,
  match tl_Ownership t with
  | None => (Ok none, t)
  | Some o => let '(r, o) := op o in (lift_err ErrOwnership r, mkTools (tl_Catalog t) (tl_Registry t) (Some o))
  end.
Definition asks {A} (f : Tools → A) : H A := λ t, (Ok (f t), t).
Definition check (o : outcome tool_error ()) : H () := st_lift o.

(** ownership.go: [requireOwnership] *)
Definition requireOwnership (user matchID : string) : H () :=
  scoped ← asks tl_Ownership;
  match scoped with
  | None => mret tt
  | Some _ =>
      _ ← check (asserted (bool_decide (user ≠ "")) ErrNotAuthenticated);
      owns ← on_owners true (Owns user matchID);
      check (asserted owns (ErrNotOwned matchID user))
  end.

Definition game_info (l : GameListing) : GameInfo := mkGameInfo (gl_Name l) (gl_MinPlayers l) (gl_MaxPlayers l) (gl_UserOwned l).

Definition builtin_games (games : gmap string RegGame) : list GameInfo :=
  sorted_by gi_Name (omap (λ '(n, g), if hasUserGameKeyPrefix n then None
      else Some (mkGameInfo (gm_Name (rg_Game g)) (gm_MinPlayers (rg_Game g)) (gm_MaxPlayers (rg_Game g)) false)) (map_to_list games)).

Definition ListGames (user : string) : H tool_result :=
  registry ← asks tl_Registry;
  match registry with
  | Some _ => l ← on_registry (ListForUser user); mret (RGames (game_info <$> l))
  | None => games ← asks (λ t, mg_games (tl_Manager t)); mret (RGames (builtin_games games))
  end.

(** The manager's key of a game. *)
Definition resolve (user game : string) : H string :=
  registry ← asks tl_Registry;
  match registry with
  | None => mret game
  | Some _ => res ← on_registry (LookupForUser user game); mret res.1
  end.

Definition CreateMatch (user : string) (a : CreateMatchArgs) : H tool_result :=
  _ ← check (asserted (bool_decide (ca_Game a ≠ "")) (ErrRequired "game"));
  scoped ← asks tl_Ownership;
  _ ← check (asserted (bool_decide (scoped = None :> option O) || bool_decide (user ≠ "")) ErrNotAuthenticated);
  key ← resolve user (ca_Game a);
  id ← on_manager (Lobby.Create cf key (mkCreateOptions (ca_NumPlayers a) (ca_SetupData a) false (ca_Name a) ""));
  _ ← on_owners tt (Claim user id);
  m ← on_manager (State_ id);
  mret (RCreated id (ca_Game a) (ctx_NumPlayers (st_Ctx (mt_State m)))).

Definition JoinMatch (user : string) (a : JoinMatchArgs) : H tool_result :=
  _ ← check (asserted (bool_decide (ja_MatchID a ≠ "")) (ErrRequired "matchID"));
  _ ← requireOwnership user (ja_MatchID a);
  res ← on_manager (Join cf (ja_MatchID a) (ja_Name a) (mkJoinOptions (ja_PlayerID a) "" None));
  mret (RJoined (ja_MatchID a) (jr_PlayerID res) (jr_Seat res) (jr_PlayerCredentials res)).

Definition player_info (p : Player) : PlayerInfo := mkPlayerInfo (sp_ID p) (sp_Seat p) (Storage.sp_Name p) (sp_IsConnected p).

(** The game of a match. *)
Definition registered (m : Match) : H RegGame :=
  g ← on_manager (Game_ (mt_GameName m));
  match g with Some g => mret g | None => st_err (ErrUnregistered (mt_GameName m)) end.

Definition GetState (user : string) (a : PlayerArgs) : H tool_result :=
  _ ← check (asserted (bool_decide (pa_MatchID a ≠ "")) (ErrRequired "matchID"));
  _ ← requireOwnership user (pa_MatchID a);
  m ← on_manager (State_ (pa_MatchID a));
  g ← registered m;
  w ← asks (λ t, mg_world (tl_Manager t));
  let st := PlayerView (rg_Game g) (mt_State m) (pa_PlayerID a) w in
  let ctx := st_Ctx st in
  mret (RState (mkGetState (mt_ID m) (publicGameName (mt_GameName m)) st (ctx_CurrentPlayer ctx) (ctx_Phase ctx) (ctx_Turn ctx)
                  (player_info <$> mt_Players m) (ctx_Gameover ctx))).

(** [game.Enumerate] has no error of its own. *)
Definition enumerated_by (enum : EnumerateFn) (st : State) (player : string) : H (list Action) := λ t,
  (match enum (st_G st) (st_Ctx st) player (mg_world (tl_Manager t)) with
   | Ok acts => Ok acts
   | NoFuel => NoFuel
   | _ => Panicked
   end, t).

Definition ListLegalMoves (user : string) (a : PlayerArgs) : H tool_result :=
  _ ← check (asserted (bool_decide (pa_MatchID a ≠ "")) (ErrRequired "matchID"));
  _ ← check (asserted (bool_decide (pa_PlayerID a ≠ "")) (ErrRequired "playerID"));
  _ ← requireOwnership user (pa_MatchID a);
  m ← on_manager (State_ (pa_MatchID a));
  _ ← registered m;
  enum ← asks (λ t, ca_Enumerate (tl_Catalog t) !! mt_GameName m);
  match enum with
  | None => st_err (ErrNoEnumerate (mt_GameName m))
  | Some enum => acts ← enumerated_by enum (mt_State m) (pa_PlayerID a); mret (RMoves (pa_MatchID a) (pa_PlayerID a) acts)
  end.

(** The view of the mover, if the match and its game are found. *)
Definition mover_view (id player : string) (st : State) : H State :=
  m ← st_try (on_manager (State_ id));
  match m with
  | inl _ => mret st
  | inr m =>
      g ← on_manager (Game_ (mt_GameName m));
      match g with
      | None => mret st
      | Some g => w ← asks (λ t, mg_world (tl_Manager t)); mret (PlayerView (rg_Game g) st player w)
      end
  end.

Definition MakeMove (ctx : goctx) (user : string) (a : MakeMoveArgs) : H tool_result :=
  _ ← check (asserted (bool_decide (ma_MatchID a ≠ "")) (ErrRequired "matchID"));
  _ ← check (asserted (bool_decide (ma_PlayerID a ≠ "")) (ErrRequired "playerID"));
  _ ← check (asserted (bool_decide (ma_Move a ≠ "")) (ErrRequired "move"));
  _ ← requireOwnership user (ma_MatchID a);
  st ← on_manager (MoveReqCtx cf ctx (ma_MatchID a) (ma_PlayerID a) (ma_Credentials a)
                     (mkReq (ma_PlayerID a) (ma_Move a) (ma_Args a) 0 (ma_ResumeTag a) 0 false false));
  st ← mover_view (ma_MatchID a) (ma_PlayerID a) st;
  mret (RMoved (ma_MatchID a) st (ctx_CurrentPlayer (st_Ctx st)) (ctx_Gameover (st_Ctx st))).

(** [time.Now()]: the manager's clock counts from 1970. *)
Definition time_now (t : Tools) : Z := mg_now (tl_Manager t) + 62135596800 * 10 ^ 9.

Definition RegisterGame (user : string) (a : RegisterGameArgs) : H tool_result :=
  now ← asks time_now;
  _ ← on_registry (RegisterUserGame Rehydrate run exec_file now user (ra_Source a) (ra_LLMGuide a));
  spec ← st_lift (lift_err ErrSpec (LoadSpec exec_file (ra_Source a)));
  mret (RRegistered (me_Name (sp_Meta spec))).

Definition DeleteGame (user name : string) : H tool_result :=
  _ ← on_registry (DeleteUserGame user name); mret RDeleted.

Definition configured : H () :=
  registry ← asks tl_Registry; match registry with None => st_err ErrNoRegistry | Some _ => mret tt end.

Definition ExportGame (user name : string) : H tool_result :=
  _ ← configured;
  _ ← check (asserted (bool_decide (name ≠ "")) (ErrRequired "name"));
  ug ← on_registry (UserGame_ user name);
  match ug with
  | None => st_err (ErrNotYours name)
  | Some ug =>
      spec ← st_lift (lift_err ErrSpec (LoadSpec exec_file (ug_Source ug)));
      let sk := BuildSkillSkeleton spec (ug_LLMGuide ug) (ug_UserID ug) (ug_CreatedAt ug) in
      mret (RExported (mkExportGame sk (RenderMarkdown RFC3339 sk) (ug_Source ug)
                         (if decide (sk_CreatedAt sk = 0) then "" else RFC3339 (sk_CreatedAt sk))))
  end.

(** The operation works on the live states of the match, outside of its lock; states made
    again from a stored map are the call's own. *)
Definition run_op_on (op : Op) (sg : StarlarkG) (m : args) : H GoVal := λ t,
  let w := mg_world (tl_Manager t) in
  let '(o, (mods, _)) := op_Call op m (modules_at w (sg_Modules sg), Some 0) in
  let w := match sg_Modules sg with At loc => <[loc := mods]> w | Fresh _ => w end in
  (lift_err FromOp o, mkTools (mkCatalog (set_world w (tl_Manager t)) (ca_Enumerate (tl_Catalog t))) (tl_Registry t) (tl_Ownership t)).

Definition declares (module : string) (sg : StarlarkG) : H bool :=
  asks (λ t, bool_decide (is_Some (modules_at (mg_world (tl_Manager t)) (sg_Modules sg) !! module))).

Definition ModuleOp (user : string) (a : ModuleOpArgs) : H tool_result :=
  _ ← requireOwnership user (mo_MatchID a);
  match RegistryFor (mo_Module a) with
  | None => st_err (ErrUnknownModule (mo_Module a))
  | Some _ =>
      match find_op (mo_Module a) (mo_Op a) with
      | None => st_err (ErrUnknownOp (mo_Op a) (mo_Module a))
      | Some op =>
          m ← on_manager (State_ (mo_MatchID a));
          match asStarlarkG Rehydrate (st_G (mt_State m)) with
          | None => st_err (ErrNotDesigned (mo_MatchID a))
          | Some sg =>
              known ← declares (mo_Module a) sg;
              _ ← check (asserted known (ErrUndeclared (mo_MatchID a) (mo_Module a)));
              v ← run_op_on op sg (mo_Args a);
              mret (ROp v)
          end
      end
  end.

(** ** register.go: the tools by name *)
Inductive tool_call : Type :=
  | CallListGames
  | CallCreateMatch (a : CreateMatchArgs)
  | CallJoinMatch (a : JoinMatchArgs)
  | CallGetState (a : PlayerArgs)
  | CallListLegalMoves (a : PlayerArgs)
  | CallMakeMove (a : MakeMoveArgs)
  | CallRegisterGame (a : RegisterGameArgs)
  | CallDeleteGame (name : string)
  | CallExportGame (name : string)
  | CallPlaytestDraft (a : PlaytestDraftArgs)
  | CallDescribeModules (module : string)
  | CallModuleOp (a : ModuleOpArgs).

Definition run_tool (ctx : goctx) (user : string) (c : tool_call) : H tool_result :=
  match c with
  | CallListGames => ListGames user
  | CallCreateMatch a => CreateMatch user a
  | CallJoinMatch a => JoinMatch user a
  | CallGetState a => GetState user a
  | CallListLegalMoves a => ListLegalMoves user a
  | CallMakeMove a => MakeMove ctx user a
  | CallRegisterGame a => RegisterGame user a
  | CallDeleteGame name => DeleteGame user name
  | CallExportGame name => ExportGame user name
  | CallPlaytestDraft a => r ← st_lift (PlaytestDraft run exec_file a); mret (RPlaytest r)
  | CallDescribeModules module => l ← st_lift (DescribeModules module); mret (RModules l)
  | CallModuleOp a => ModuleOp user a
  end.

Context (ParseFloat : string → spec_float).

Definition reading {A} (read : list (string * json) → A * bool) (k : A → tool_call) (fields : list (string * json)) : option tool_call :=
  let '(a, ok) := read fields in if ok : bool then Some (k a) else None.

Definition tool_table : list (string * (list (string * json) → option tool_call)) :=
  [("create_match", reading (read_create ParseFloat) CallCreateMatch);
   ("join_match", reading read_join CallJoinMatch);
   ("get_state", reading read_player CallGetState);
   ("list_legal_moves", reading read_player CallListLegalMoves);
   ("make_move", reading (read_move ParseFloat) CallMakeMove);
   ("register_game", reading read_register CallRegisterGame);
   ("delete_game", reading (read_name "name") CallDeleteGame);
   ("export_game", reading (read_name "name") CallExportGame);
   ("playtest_draft", reading (read_playtest ParseFloat) CallPlaytestDraft);
   ("describe_modules", reading (read_name "module") CallDescribeModules);
   ("module_op", reading (read_module_op ParseFloat) CallModuleOp)].

Definition tool_names : list string := "list_games" :: tool_table.*1.

(** A tool, and its arguments if they could be decoded; none means an empty object. *)
Definition call_of (name : string) (raw : option json) : option (option tool_call) :=
  if decide (name = "list_games") then Some (Some CallListGames)
  else (λ e, body_fields (Some (default (JObj []) raw)) ≫= e.2) <$> List.find (λ e, bool_decide (e.1 = name)) tool_table.

(** ** resources.go *)
Record ResourceDescriptor := mkResource { rd_URI : string; rd_Name : string; rd_Description : string }.

Definition guide_scheme : string := "game://".
Definition guide_uri (user name : string) : string := guide_scheme +:+ user +:+ "/" +:+ name +:+ "/guide".
Definition describe (user name : string) : ResourceDescriptor :=
  mkResource (guide_uri user name) (name +:+ " — guide") ("Designer's notes on rules and strategy for " +:+ name).

Inductive resource_error : Type := NotWired | BadURI | Forbidden | NotFound | FromTools (e : tool_error).

(** [wired] says whether the server serves guides; they are the registry's. *)
Context (wired : bool).

Definition has_guide (user name : string) : H bool :=
  ug ← st_try (on_registry (UserGame_ user name));
  mret (match ug with inr (Some ug) => bool_decide (ug_LLMGuide ug ≠ "") | _ => false end).

Fixpoint listed_guides (user : string) (names : list string) : H (list ResourceDescriptor) :=
  match names with
  | [] => mret []
  | n :: names =>
      b ← has_guide user n;
      rest ← listed_guides user names;
      mret (if b : bool then describe user n :: rest else rest)
  end.

Definition listGuideResources (user : string) : H (list ResourceDescriptor) :=
  if wired then names ← on_registry (on_games (ListGames_ user)); listed_guides user names else mret [].

Abbreviation G := (ST Tools resource_error).
Definition from_tools {A} (m : H A) : G A := λ t, let '(o, t) := m t in (lift_err FromTools o, t).

Definition readGuideResource (user uri : string) : G string :=
  if negb wired then st_err NotWired
  else match strip_prefix guide_scheme uri with
  | None => st_err BadURI
  | Some tail =>
      match split_on (Ascii.ascii_of_nat 47) tail with
      | [owner; name; kind] =>
          if decide (kind ≠ "guide") then st_err BadURI
          else if decide (user ≠ owner) then st_err Forbidden
          else
            ug ← from_tools (on_registry (UserGame_ owner name));
            match ug with Some ug => mret (ug_LLMGuide ug) | None => st_err NotFound end
      | _ => st_err BadURI
      end
  end.

(** ** server.go

    A message's id and parameters are JSON values that may be missing. *)
Record rpcMessage := mkMessage { rm_ID : option json; rm_Method : string; rm_Params : option json }.

Definition as_raw (j : json) : decoded (option json) := Put (Some j).
Definition read_message (j : json) : option rpcMessage :=
  fields ← body_fields (Some j);
  let version := field "" as_string "jsonrpc" fields in
  let method := field "" as_string "method" fields in
  if version.2 && method.2 then Some (mkMessage (field None as_raw "id" fields).1 method.1 (field None as_raw "params" fields).1)
  else None.

Inductive rpc_body : Type :=
  | BInitialize
  | BPong
  | BTools (names : list string)
  | BPrompts (names : list string)
  | BPrompt (text : string)
  | BResult (r : tool_result)
  | BToolError (e : tool_error)
  | BResources (l : list ResourceDescriptor)
  | BContents (uri text : string)
  | BRpcError (code : Z).

Record rpcResponse := mkResponse { rp_ID : json; rp_Body : rpc_body }.

Definition codeParseError : Z := -32700.
Definition codeInvalidRequest : Z := -32600.
Definition codeMethodNotFound : Z := -32601.
Definition codeInvalidParams : Z := -32602.
Definition codeInternalError : Z := -32603.

(** [rpcResult], [rpcError]: no id is written as [null]. *)
Definition respond (id : option json) (b : rpc_body) : rpcResponse := mkResponse (default JNull id) b.

(** The prompts by name, and what the server can write as JSON. *)
Context (prompts : gmap string string) (encodable : tool_result → bool).

Abbreviation D := (ST Tools Empty_set).
Definition caught {E A} (m : ST Tools E A) : D (E + A) := λ t,
  let '(o, t) := m t in
  (match o with Ok a => Ok (inr a) | Err e => Ok (inl e) | Panicked => Panicked | NoFuel => NoFuel end, t).

(** [toolCallParams], [promptGetParams] *)
Definition read_params (params : option json) : option (string * option json) :=
  match params with
  | None => None
  | Some j =>
      fields ← body_fields (Some j);
      let name := field "" as_string "name" fields in
      if name.2 then Some (name.1, (field None as_raw "arguments" fields).1) else None
  end.

Definition handleToolsCall (ctx : goctx) (user : string) (msg : rpcMessage) : D rpc_body :=
  match read_params (rm_Params msg) with
  | None => mret (BRpcError codeInvalidParams)
  | Some (name, raw) =>
      match call_of name raw with
      | None => mret (BRpcError codeMethodNotFound)
      | Some None => mret (BToolError ErrArguments)
      | Some (Some c) =>
          res ← caught (run_tool ctx user c);
          mret (match res with
                | inl e => BToolError e
                | inr r => if encodable r then BResult r else BRpcError codeInternalError
                end)
      end
  end.

Definition handlePromptsGet (msg : rpcMessage) : rpc_body :=
  match read_params (rm_Params msg) with
  | None => BRpcError codeInvalidParams
  | Some (name, _) => match prompts !! name with Some text => BPrompt text | None => BRpcError codeMethodNotFound end
  end.

Definition read_uri (params : option json) : option string :=
  match params with
  | None => None
  | Some j => fields ← body_fields (Some j); let uri := field "" as_string "uri" fields in if uri.2 then Some uri.1 else None
  end.

Definition handleResourcesList (user : string) : D rpc_body :=
  res ← caught (listGuideResources user);
  mret (match res with inl _ => BRpcError codeInternalError | inr l => BResources l end).

Definition handleResourcesRead (user : string) (msg : rpcMessage) : D rpc_body :=
  match read_uri (rm_Params msg) with
  | None => mret (BRpcError codeInvalidParams)
  | Some uri =>
      res ← caught (readGuideResource user uri);
      mret (match res with inl _ => BRpcError codeInternalError | inr text => BContents uri text end)
  end.

(** What is written back: one response or none. *)
Definition dispatch (ctx : goctx) (user : string) (msg : rpcMessage) : D (option rpcResponse) :=
  let answer := λ b, Some (respond (rm_ID msg) b) in
  let m := rm_Method msg in
  if decide (m = "initialize") then mret (answer BInitialize)
  else if decide (m ∈ ["notifications/initialized"; "notifications/cancelled"]) then mret None
  else if decide (m = "ping") then mret (match rm_ID msg with Some _ => answer BPong | None => None end)
  else if decide (m = "tools/list") then mret (answer (BTools (sorted_by id tool_names)))
  else if decide (m = "tools/call") then b ← handleToolsCall ctx user msg; mret (answer b)
  else if decide (m = "prompts/list") then mret (answer (BPrompts (sorted_by id (map_to_list prompts).*1)))
  else if decide (m = "prompts/get") then mret (answer (handlePromptsGet msg))
  else if decide (m = "resources/list") then b ← handleResourcesList user; mret (answer b)
  else if decide (m = "resources/read") then b ← handleResourcesRead user msg; mret (answer b)
  else mret (match rm_ID msg with Some _ => answer (BRpcError codeMethodNotFound) | None => None end).

(** A line of input: empty, or text that reads as a JSON value or does not. *)
Inductive input_line : Type := Blank | Text (j : option json).

Definition serve_line (ctx : goctx) (user : string) (l : input_line) : D (option rpcResponse) :=
  match l with
  | Blank => mret None
  | Text j =>
      match j ≫= read_message with
      | None => mret (Some (respond None (BRpcError codeParseError)))
      | Some msg => dispatch ctx user msg
      end
  end.

Fixpoint ServeStdio (ctx : goctx) (user : string) (lines : list input_line) : D (list rpcResponse) :=
  match lines with
  | [] => mret []
  | l :: lines => r ← serve_line ctx user l; rest ← ServeStdio ctx user lines; mret (option_list r ++ rest)
  end.

(** ** transport_http.go

    The first 4 MiB of a body, if it could be read. *)
Inductive http_body : Type := Unreadable | Body (l : input_line).
Record http_response := mkHTTP { hp_Status : Z; hp_Message : option rpcResponse }.

Definition HTTPHandler (ctx : goctx) (method : string) (body : http_body) (user : string) : D http_response :=
  if decide (method ≠ "POST") then mret (mkHTTP 405 None)
  else match body with
  | Unreadable => mret (mkHTTP 400 None)
  | Body Blank => mret (mkHTTP 200 (Some (respond None (BRpcError codeInvalidRequest))))
  | Body l =>
      r ← serve_line ctx user l;
      mret (match r with Some m => mkHTTP 200 (Some m) | None => mkHTTP 202 None end)
  end.
End tools.
