(* ===== verification/ToolTheorems.v ===== *)
(** * What the tool server promises

    Matches stay with the user who made them, guides are read by their owners, operations
    that are described can be called, requests are answered; and where the server differs
    from what its comments say. *)

From Stdlib Require Import SpecFloat.
From stdpp Require Import sorting pretty.
From S2P Require Import Prelude CoreTypes GameDef Session Storage Manager ManagerFacts Lobby Dispatch Choices Bots Json GameSpec Bridge.
From S2P Require Import Scripts ScriptTheorems Registry Skills Tools.
#[local] Open Scope Z_scope.

Section tools.
Context {S : Type} `{!Storage S} (cf : Config).
Context {F : Type} (Rehydrate : string → args → option modstate).
Context (interp : F → option ctx_fields → list (star F) → sprog F) (exec_file : string → option (gmap string (star F))).
Context (RFC3339 : Z → string).
Context {U : Type} `{!UserGameStore U} {O : Type} `{!OwnershipStore O} (owner : O → string → option string) `{!OwnershipLaws O owner}.
Abbreviation T := (Tools (S:=S) (U:=U) (O:=O)).
Abbreviation H := (ST T tool_error).
Abbreviation run_tool := (run_tool cf Rehydrate interp exec_file RFC3339).
Implicit Types (t : T) (a : CreateMatchArgs).

(** ** Owners *)
Definition owner_of t (id : string) : option string := tl_Ownership t ≫= (λ o, owner o id).

(** Matches have owners, and they are [f]. *)
Definition owners_are (f : string → option string) t : Prop := is_Some (tl_Ownership t) ∧ ∀ id, owner_of t id = f id.

Section keep.
Context (f : string → option string).
Abbreviation I := (owners_are f).

Lemma keeps_owners {A} (m : H A) : (∀ t, tl_Ownership (m t).2 = tl_Ownership t) → keeps I m.
Proof. intros Hm t [Hs Ho]. unfold owners_are, owner_of. by rewrite Hm. Qed.

Lemma keeps_manager {A} (op : ST (Manager.Manager (S:=S)) manager_error A) : keeps I (on_manager op : H A).
Proof. apply keeps_owners. intros t. unfold on_manager, on_mgr. by destruct (op _). Qed.

Lemma keeps_registry {A} (op : ST (Catalog (S:=S) * UserAwareRegistry (U:=U)) registry_error A) : keeps I (on_registry op : H A).
Proof. apply keeps_owners. intros t. unfold on_registry. destruct (tl_Registry t); [|done]. by destruct (op _) as [? []]. Qed.

Lemma keeps_asks {A} (g : T → A) : keeps I (asks g : H A).
Proof. by intros t. Qed.

Lemma keeps_check o : keeps I (check o : H ()).
Proof. by intros t. Qed.

Lemma keeps_st_lift {A} (o : outcome tool_error A) : keeps I (st_lift o : H A).
Proof. by intros t. Qed.

Lemma keeps_tool_try {A} (m : H A) : keeps I m → keeps I (st_try m).
Proof. intros Hm t Ht. specialize (Hm t Ht). unfold st_try. by destruct (m t) as [[]]. Qed.

Lemma keeps_enumerated enum st p : keeps I (enumerated_by enum st p : H _).
Proof. by intros t. Qed.

Lemma keeps_run_op_on op sg m : keeps I (run_op_on op sg m : H GoVal).
Proof. apply keeps_owners. intros t. unfold run_op_on. by destruct (op_Call _ _ _) as [? []]. Qed.

Lemma keeps_owns u id : keeps I (on_owners true (Owns u id) : H bool).
Proof.
  intros t [Hs Ho]. unfold on_owners, owners_are, owner_of in *. destruct (tl_Ownership t) as [o|] eqn:Ht; [|by destruct Hs].
  pose proof (owns_keeps u id o) as Hk. destruct (Owns u id o) as [r o']. simpl in *. split; [done|].
  intros id'. simpl. by rewrite Hk.
Qed.
End keep.

Ltac tools_walk :=
  repeat first
    [ progress intros
    | apply keeps_manager | apply keeps_registry | apply keeps_asks | apply keeps_check | apply keeps_st_lift
    | apply keeps_enumerated | apply keeps_run_op_on | apply keeps_owns | apply keeps_ret | apply keeps_err
    | apply keeps_bind | apply keeps_tool_try | case_match_goal ].

Lemma keeps_require f u id : keeps (owners_are f) (requireOwnership u id : H ()).
Proof. unfold requireOwnership. tools_walk. Qed.

Lemma keeps_resolve f u g : keeps (owners_are f) (resolve u g : H string).
Proof. unfold resolve. tools_walk. Qed.

(** Every tool but create_match leaves the owners alone. *)
Lemma keeps_tool f ctx u (c : tool_call) : (∀ a, c ≠ CallCreateMatch a) → keeps (owners_are f) (run_tool ctx u c).
Proof.
  intros Hc. destruct c as [|a| | | | | | | | | |]; [|by destruct (Hc a)|..];
    unfold Tools.run_tool, ListGames, JoinMatch, GetState, ListLegalMoves, MakeMove, RegisterGame, DeleteGame, ExportGame, ModuleOp,
      mover_view, registered, configured, declares;
    repeat first [apply keeps_require | progress tools_walk].
Qed.

(** The match a call is about. *)
Definition match_of (c : tool_call) : option string :=
  match c with
  | CallJoinMatch a => Some (ja_MatchID a)
  | CallGetState a | CallListLegalMoves a => Some (pa_MatchID a)
  | CallMakeMove a => Some (ma_MatchID a)
  | CallModuleOp a => Some (mo_MatchID a)
  | _ => None
  end.

(** What [create_match] makes before it claims it. *)
Definition makes (user : string) a t (id : string) : Prop :=
  ∃ key t1 t2, resolve user (ca_Game a) t = (Ok key, t1) ∧
    on_manager (Lobby.Create cf key (mkCreateOptions (ca_NumPlayers a) (ca_SetupData a) false (ca_Name a) "")) t1 = (Ok id, t2).

Lemma create_owners u a t : is_Some (tl_Ownership t) →
  let t' := (CreateMatch cf u a t).2 in
  is_Some (tl_Ownership t') ∧
  ∀ id, owner_of t' id = owner_of t id ∨ owner_of t id = None ∧ owner_of t' id = Some u ∧ makes u a t id.
Proof.
  intros Hs. cbn zeta. assert (H0 : owners_are (owner_of t) t) by done.
  assert (Hsame : ∀ t', owners_are (owner_of t) t' → is_Some (tl_Ownership t') ∧
    ∀ id, owner_of t' id = owner_of t id ∨ owner_of t id = None ∧ owner_of t' id = Some u ∧ makes u a t id).
  { intros t' [? Ho]. split; [done|]. intros id. left. apply Ho. }
  destruct (CreateMatch cf u a t) as [res t'] eqn:Hres. cbn [snd]. revert Hres.
  unfold CreateMatch. rewrite bind_eq. unfold check, st_lift.
  destruct (asserted (bool_decide (ca_Game a ≠ "")) _); try (intros [= _ <-]; exact (Hsame _ H0)).
  rewrite bind_eq. cbn [asks]. rewrite bind_eq.
  destruct (asserted _ _); try (intros [= _ <-]; exact (Hsame _ H0)).
  rewrite bind_eq. pose proof (keeps_resolve (owner_of t) u (ca_Game a) t H0) as H1.
  destruct (resolve u (ca_Game a) t) as [[key|e| |] t1] eqn:Hr; try (intros [= _ <-]; exact (Hsame _ H1)).
  rewrite bind_eq. set (opts := mkCreateOptions _ _ _ _ _).
  pose proof (keeps_manager (owner_of t) (Lobby.Create cf key opts) t1 H1) as H2.
  destruct (on_manager (Lobby.Create cf key opts) t1) as [[id|e| |] t2] eqn:Hc; try (intros [= _ <-]; exact (Hsame _ H2)).
  assert (Hmakes : makes u a t id) by (by exists key, t1, t2).
  rewrite bind_eq. cbn [snd] in H2. destruct H2 as [[o Hown] H2].
  destruct (Claim u id o) as [r o'] eqn:Hcl.
  assert (Hcase : (∀ id', owner o' id' = owner_of t id') ∨
      owner_of t id = None ∧ ∀ id', owner o' id' = if decide (id' = id) then Some u else owner_of t id').
  { assert (Hf : ∀ id', owner o id' = owner_of t id') by (intros id'; rewrite <-(H2 id'); unfold owner_of; by rewrite Hown).
    assert (r = Ok tt ∨ r ≠ Ok tt) as [->|Hne] by (destruct r as [[]| | |]; [by left|by right..]).
    - destruct (claim_Ok _ _ _ _ Hcl) as [Hfree Hnew]. destruct (decide (owner o id = Some u)) as [He|He].
      + left. intros id'. rewrite Hnew, Hf. case_decide as Hid; [subst; by rewrite <-Hf|done].
      + right. destruct Hfree as [Hn|?]; [|done]. split; [by rewrite <-Hf|]. intros id'. by rewrite Hnew, Hf.
    - left. intros id'. pose proof (claim_fails u id o) as Hk. rewrite Hcl in Hk. simpl in Hk. by rewrite (Hk Hne). }
  assert (Hlast : ∀ t', tl_Ownership t' = Some o' → is_Some (tl_Ownership t') ∧
    ∀ id, owner_of t' id = owner_of t id ∨ owner_of t id = None ∧ owner_of t' id = Some u ∧ makes u a t id).
  { intros t4 Ht4. rewrite Ht4. split; [by eexists|]. intros id'. unfold owner_of at 1 4. rewrite Ht4. cbn [mbind option_bind].
    destruct Hcase as [Hc'|[Hn Hc']]; rewrite Hc'; [by left|]. case_decide as Hid; [subst id'; right|by left]. done. }
  unfold on_owners. rewrite Hown, Hcl. destruct r as [[]|e| |]; cbn [lift_err];
    try (intros [= _ <-]; apply Hlast; reflexivity).
  rewrite bind_eq. unfold on_manager, on_mgr. cbn [tl_Catalog]. destruct (State_ id _) as [[m|e| |] mg]; intros [= _ <-]; apply Hlast; reflexivity.
Qed.

(** ** A run of the server

    Calls of users, and whatever else happens to the manager. *)
Inductive tool_event : Type :=
  | EvCall (ctx : goctx) (user : string) (c : tool_call)
  | EvManager (o : operation S).

Definition step (ev : tool_event) t : T :=
  match ev with
  | EvCall ctx user c => (run_tool ctx user c t).2
  | EvManager o => (on_manager (perform cf o) t).2
  end.
Definition serve (evs : list tool_event) t : T := foldl (λ t ev, step ev t) t evs.

(** The user made the match in the run, by a call of [create_match]. *)
Definition made_in (evs : list tool_event) t (user id : string) : Prop :=
  ∃ pre ctx a post, evs = pre ++ EvCall ctx user (CallCreateMatch a) :: post ∧ makes user a (serve pre t) id.

Lemma step_owners ev t : is_Some (tl_Ownership t) → is_Some (tl_Ownership (step ev t)) ∧
  ∀ id, owner_of (step ev t) id = owner_of t id ∨
    owner_of t id = None ∧ ∃ ctx u a, ev = EvCall ctx u (CallCreateMatch a) ∧ owner_of (step ev t) id = Some u ∧ makes u a t id.
Proof.
  intros Hs. assert (H0 : owners_are (owner_of t) t) by done. destruct ev as [ctx u c|o].
  - assert ((∃ a, c = CallCreateMatch a) ∨ ∀ a, c ≠ CallCreateMatch a) as [[a ->]|Hc] by (destruct c; naive_solver).
    + destruct (create_owners u a t Hs) as [Hs' Ho]. split; [done|]. intros id.
      destruct (Ho id) as [?|(? & ? & ?)]; [by left|right]. split; [done|]. by exists ctx, u, a.
    + destruct (keeps_tool (owner_of t) ctx u c Hc t H0) as [Hs' Ho]. split; [exact Hs'|]. intros id. left. apply Ho.
  - destruct (keeps_manager (owner_of t) (perform cf o) t H0) as [Hs' Ho]. split; [done|]. intros id. left. apply Ho.
Qed.

Lemma serve_snoc evs ev t : serve (evs ++ [ev]) t = step ev (serve evs t).
Proof. unfold serve. by rewrite foldl_app. Qed.

Lemma made_in_app evs evs' t u id : made_in evs t u id → made_in (evs ++ evs') t u id.
Proof. intros (pre & ctx & a & post & -> & Hm). exists pre, ctx, a, (post ++ evs'). by rewrite <-app_assoc. Qed.

(** Owners once set stay, and every owner made the match. *)
Lemma serve_owners evs t : is_Some (tl_Ownership t) → is_Some (tl_Ownership (serve evs t)) ∧
  ∀ id, (∀ u, owner_of t id = Some u → owner_of (serve evs t) id = Some u) ∧
    (owner_of t id = None → ∀ u, owner_of (serve evs t) id = Some u → made_in evs t u id).
Proof.
  intros Hs. induction evs as [|ev evs [IHs IH]] using rev_ind.
  { split; [done|]. intros id. change (serve [] t) with t. split; [done|]. intros Hn u Hu. congruence. }
  rewrite serve_snoc. destruct (step_owners ev (serve evs t) IHs) as [Hs' Ho]. split; [done|]. intros id.
  destruct (IH id) as [IH1 IH2]. destruct (Ho id) as [He|(Hn & ctx & v & a & -> & Hv & Hm)]; [rewrite He|]; split.
  - done.
  - intros Hnone u Hu. by apply made_in_app, IH2.
  - intros u Hu%IH1. congruence.
  - intros _ u Hu. assert (u = v) as -> by congruence. exists evs, ctx, a, []. done.
Qed.

(** What the gate of a call checks, and what it leaves as it was. *)
Lemma require_cases u id t : tl_Ownership t ≠ None →
  let '(r, t') := (requireOwnership u id : H ()) t in
  tl_Catalog t' = tl_Catalog t ∧ tl_Registry t' = tl_Registry t ∧ (r = Ok tt → u ≠ "" ∧ owner_of t id = Some u).
Proof.
  intros Hs. unfold requireOwnership. rewrite bind_eq. cbn [asks]. destruct (tl_Ownership t) as [o|] eqn:Ho; [|done].
  rewrite bind_eq. unfold check, st_lift, asserted. case_bool_decide as Hu; [|done].
  rewrite bind_eq. unfold on_owners. rewrite Ho. destruct (Owns u id o) as [r o'] eqn:Hr. destruct r as [b|e| |]; cbn; try done.
  split; [done|]. split; [done|]. destruct b; [|done]. intros _. split; [done|]. unfold owner_of. rewrite Ho. exact (owns_true _ _ _ _ Hr).
Qed.

(** A call that begins with checks of its arguments and the gate. *)
Lemma gated_cases {A} (m : () → H A) u id t : tl_Ownership t ≠ None →
  let '(r, t') := (_ ← requireOwnership u id; m tt) t in
  tl_Catalog t' = tl_Catalog t ∧ tl_Registry t' = tl_Registry t ∧ (∀ x, r ≠ Ok x) ∨ u ≠ "" ∧ owner_of t id = Some u.
Proof.
  intros Hs. pose proof (require_cases u id t Hs) as Hr. rewrite bind_eq.
  destruct (requireOwnership u id t) as [[[]|e| |] t1]; destruct Hr as (H1 & H2 & H3); [|by left..].
  destruct (m tt t1) as [r t2]. right. by apply H3.
Qed.

Lemma checked_cases {A} o (m : H A) u id t :
  (let '(r, t') := m t in
   tl_Catalog t' = tl_Catalog t ∧ tl_Registry t' = tl_Registry t ∧ (∀ x, r ≠ Ok x) ∨ u ≠ "" ∧ owner_of t id = Some u) →
  let '(r, t') := (_ ← check o; m) t in
  tl_Catalog t' = tl_Catalog t ∧ tl_Registry t' = tl_Registry t ∧ (∀ x, r ≠ Ok x) ∨ u ≠ "" ∧ owner_of t id = Some u.
Proof. intros Hm. rewrite bind_eq. unfold check, st_lift. destruct o; [exact Hm|by left..]. Qed.

Lemma match_calls_are_gated ctx u c id t : tl_Ownership t ≠ None → match_of c = Some id →
  let '(r, t') := run_tool ctx u c t in
  tl_Catalog t' = tl_Catalog t ∧ tl_Registry t' = tl_Registry t ∧ (∀ x, r ≠ Ok x) ∨ u ≠ "" ∧ owner_of t id = Some u.
Proof.
  intros Hs Hc. destruct c; try done; injection Hc as <-; cbn [Tools.run_tool];
    unfold JoinMatch, GetState, ListLegalMoves, MakeMove, ModuleOp; repeat apply checked_cases;
    match goal with |- context [requireOwnership _ _ ≫= ?k] => apply (gated_cases k u) end; done.
Qed.

(** With a store of owners, a call about a match gets through only for the user who made the
    match earlier in the run, by create_match; for anybody else it fails and leaves the
    matches, the games and their states as they are, whatever calls and events came
    before. And nobody takes a match over: the owner of a match stays its owner. *)
Theorem matches_stay_with_their_makers t0 evs ctx u c id :
  is_Some (tl_Ownership t0) → (∀ id, owner_of t0 id = None) → match_of c = Some id →
  let t := serve evs t0 in
  let '(r, t') := run_tool ctx u c t in
  (tl_Catalog t' = tl_Catalog t ∧ tl_Registry t' = tl_Registry t ∧ (∀ x, r ≠ Ok x) ∨ made_in evs t0 u id) ∧
  ∀ v more, owner_of t id = Some v → owner_of (serve more t) id = Some v.
Proof.
  intros Hs Hnone Hc t. destruct (serve_owners evs t0 Hs) as [Hs' Ho]. fold t in Hs', Ho.
  pose proof (match_calls_are_gated ctx u c id t) as Hg. destruct (run_tool ctx u c t) as [r t'] eqn:Hrun.
  split; [|intros v more Hv; by apply (serve_owners more t Hs')].
  destruct Hg as [?|[_ Hown]]; [by destruct Hs' as [? ->]|done|by left|right]. by apply Ho.
Qed.
End tools.

(** ** Guides *)
Section guides.
Context {S : Type} `{!Storage S} {O : Type}.
Abbreviation slash := (Ascii.ascii_of_nat 47).

(** A guide is only ever read by its owner, under the address it is listed at. *)
Theorem guides_are_read_by_their_owners {U : Type} `{!UserGameStore U} wired user uri (t t' : Tools (S:=S) (U:=U) (O:=O)) text :
  readGuideResource wired user uri t = (Ok text, t') →
  ∃ name ug, uri = guide_uri user name ∧ (on_registry (UserGame_ user name) t).1 = Ok (Some ug) ∧ text = ug_LLMGuide ug.
Proof.
  unfold readGuideResource. destruct wired; [|done]. cbn [negb].
  destruct (strip_prefix guide_scheme uri) as [tail|] eqn:Hp; [|done]. apply strip_prefix_Some in Hp as ->.
  destruct (split_on slash tail) as [|o [|n [|k [|]]]] eqn:Hs; try done.
  case_decide as Hk; [done|]. case_decide as Hu; [done|]. subst k o.
  apply split_three in Hs as ->. intros (ug & t1 & H1 & H2)%bind_Ok. unfold from_tools in H1.
  destruct (on_registry (UserGame_ user n) t) as [[ug'|e| |] t2] eqn:Hget; try done. injection H1 as <- <-.
  destruct ug' as [ug|]; [|done]. apply ret_Ok in H2 as [<- _]. exists n, ug.
  split; [reflexivity|]. split; [by rewrite Hget|done].
Qed.

Abbreviation T := (Tools (S:=S) (U:=InMemoryUserGames) (O:=O)).
Implicit Types (t : T).

Definition guide_in (st : InMemoryUserGames) (user name : string) : string :=
  match st !! ugKey user name with Some ug => ug_LLMGuide ug | None => "" end.

Lemma get_guide user n t r : tl_Registry t = Some r →
  on_registry (UserGame_ user n) t = (Ok (ur_store r !! ugKey user n), t).
Proof. intros Hr. unfold on_registry. rewrite Hr. unfold UserGame_, on_games. cbn. destruct t, r. simpl in Hr. by subst. Qed.

(** What a read does once the address is taken apart. *)
Lemma read_guide_parts user tail : readGuideResource true user (guide_scheme +:+ tail) =
  match split_on slash tail with
  | [owner; name; kind] =>
      if decide (kind ≠ "guide") then st_err BadURI
      else if decide (user ≠ owner) then st_err Forbidden
      else ug ← from_tools (on_registry (UserGame_ owner name));
           match ug with Some ug => mret (ug_LLMGuide ug) | None => st_err NotFound end
  | _ => st_err BadURI
  end :> ST T resource_error string.
Proof. reflexivity. Qed.

Lemma has_guide_eq user n t r : tl_Registry t = Some r →
  has_guide user n t = (Ok (bool_decide (guide_in (ur_store r) user n ≠ "")), t).
Proof.
  intros Hr. unfold has_guide. rewrite bind_eq. unfold st_try. rewrite (get_guide user n t r Hr). unfold guide_in.
  by destruct (ur_store r !! ugKey user n).
Qed.

Lemma listed_guides_eq user names t r : tl_Registry t = Some r →
  listed_guides user names t = (Ok (describe user <$> filter (λ n, guide_in (ur_store r) user n ≠ "") names), t).
Proof.
  intros Hr. induction names as [|n names IH]; [done|]. cbn [listed_guides]. rewrite bind_eq, (has_guide_eq user n t r Hr).
  rewrite bind_eq, IH, filter_cons. destruct (decide (guide_in (ur_store r) user n ≠ "")) as [Hg|Hg];
    [by rewrite bool_decide_eq_true_2|by rewrite bool_decide_eq_false_2].
Qed.

(** Every guide that is listed to a user can be read at its address, if no slash is in the
    user's id. *)
Theorem listed_guides_can_be_read user t t' r l : tl_Registry t = Some r → free_of slash user →
  (∀ n, is_Some (ur_store r !! ugKey user n) → nameRe n) →
  listGuideResources true user t = (Ok l, t') →
  t' = t ∧ ∀ d, d ∈ l → ∃ text, text ≠ "" ∧ (readGuideResource true user (rd_URI d) t).1 = Ok text.
Proof.
  intros Hr Hu Hnames Hl.
  assert (Hlist : on_registry (on_games (ListGames_ user)) t =
    (Ok (sorted_by id (omap (own_name user) (map_to_list (ur_store r)).*1)), t)).
  { unfold on_registry. rewrite Hr. cbn. destruct t, r. simpl in Hr. by subst. }
  unfold listGuideResources in Hl. rewrite bind_eq, Hlist in Hl. revert Hl. generalize (sorted_by id (omap (own_name user) (map_to_list (ur_store r)).*1)) as names. intros names.
  rewrite (listed_guides_eq user names t r Hr). intros [= <- <-]. split; [done|].
  intros d (n & -> & [Hg Hn]%list_elem_of_filter)%list_elem_of_fmap. exists (guide_in (ur_store r) user n). split; [done|].
  unfold guide_in in *. destruct (ur_store r !! ugKey user n) as [ug|] eqn:Hug; [|done].
  assert (Hre : nameRe n) by (apply Hnames; by rewrite Hug). cbn [describe rd_URI].
  assert (free_of slash n) as Hfree by (apply nameRe_free; [|done]; unfold name_char; vm_compute; intuition lia).
  change (guide_uri user n) with (guide_scheme +:+ (user +:+ String slash (n +:+ String slash "guide"))). rewrite read_guide_parts.
  rewrite (split_on_free slash user) by done. rewrite (split_on_free slash n) by done.
  change (split_on slash "guide") with ["guide"]. rewrite decide_False by (intros H; by apply H).
  rewrite decide_False by (intros H; by apply H). rewrite bind_eq. unfold from_tools. rewrite (get_guide user n t r Hr).
  cbn. by rewrite Hug.
Qed.

(** An id with a slash, a URL say, is listed guides it cannot read. *)
Theorem slashes_in_ids_hide_guides (t : T) : (readGuideResource true "https://ann" (guide_uri "https://ann" "toy") t).1 = Err BadURI.
Proof. reflexivity. Qed.
End guides.

(** ** Discovery *)
Lemma ops_distinct module : NoDup (op_Name <$> Ops module).
Proof.
  unfold Ops, RegistryFor. repeat case_decide; simpl default; try apply NoDup_nil_2;
    apply (bool_decide_eq_true_1 _); vm_compute; reflexivity.
Qed.

Lemma find_op_iff module name op : find_op module name = Some op ↔ op ∈ Ops module ∧ op_Name op = name.
Proof.
  unfold find_op. generalize (ops_distinct module). induction (Ops module) as [|o l IH]; intros Hnd.
  { split; [done|]. by intros [?%not_elem_of_nil _]. }
  rewrite fmap_cons in Hnd. apply NoDup_cons in Hnd as [Hno Hnd]. cbn. case_bool_decide as Hn.
  - split; [intros [= ->]; split; [by left|done]|]. intros [[->|Hin]%elem_of_cons Hname]; [done|].
    destruct Hno. rewrite Hn, <-Hname. by apply list_elem_of_fmap_2.
  - rewrite (IH Hnd), elem_of_cons. naive_solver.
Qed.

(** The operations that discovery lists for a module are exactly the ones a call of that
    module finds, with the same flag. *)
Theorem described_ops_can_be_called module l name op : DescribeModules module = Ok l → name ∈ AllModules →
  (module = "" ∨ module = name) →
  find_op name (op_Name op) = Some op ↔ ∃ mi, mi ∈ l ∧ mi_Module mi = name ∧ op ∈ Ops name ∧ op_info op ∈ mi_Ops mi.
Proof.
  unfold DescribeModules. case_decide as Hm; [done|]. intros [= <-] Hname Hmod. rewrite find_op_iff.
  assert (Hops : RegistryFor name = Some (Ops name)).
  { unfold Ops. unfold AllModules in Hname. repeat (apply elem_of_cons in Hname as [->|Hname]; [done|]). by apply not_elem_of_nil in Hname. }
  split; [|by intros (mi & _ & _ & ? & _)].
  intros [Hop _]. exists (mkModuleInfo name (sorted_by oi_Name (op_info <$> Ops name))). split; [|split; [done|split; [done|]]].
  - apply list_elem_of_omap. exists name. rewrite Hops. split; [|done]. case_decide as He; [done|].
    destruct Hmod as [?| ->]; [done|by left].
  - cbn. unfold sorted_by. rewrite merge_sort_Permutation. by apply list_elem_of_fmap_2.
Qed.

(** ** The protocol *)
Section protocol.
Context {S : Type} `{!Storage S} (cf : Config).
Context {F : Type} (Rehydrate : string → args → option modstate).
Context (interp : F → option ctx_fields → list (star F) → sprog F) (exec_file : string → option (gmap string (star F))).
Context (RFC3339 : Z → string) (ParseFloat : string → spec_float).
Context {U : Type} `{!UserGameStore U} {O : Type} `{!OwnershipStore O}.
Context (wired : bool) (prompts : gmap string string) (encodable : tool_result → bool).
Abbreviation T := (Tools (S:=S) (U:=U) (O:=O)).
Abbreviation dispatch := (dispatch cf Rehydrate interp exec_file RFC3339 ParseFloat wired prompts encodable (O:=O)).

Definition client_notes : list string := ["notifications/initialized"; "notifications/cancelled"].

(** Every request is answered once, under its own id, unless it uses the name of a
    notification; a message without an id of a method that the server does not know
    is not. *)
Theorem requests_are_answered ctx user msg (t t' : T) r : dispatch ctx user msg t = (Ok r, t') →
  (∀ id, rm_ID msg = Some id → rm_Method msg ∉ client_notes → ∃ b, r = Some (mkResponse id b)) ∧
  (rm_Method msg ∈ client_notes → r = None ∧ t' = t).
Proof.
  unfold Tools.dispatch, client_notes. intros Hr. split.
  - intros id Hid Hnot. rewrite Hid in Hr. unfold respond in Hr. cbn [default] in Hr.
    assert (Hbind : ∀ m : ST T Empty_set rpc_body, (b ← m; mret (Some (mkResponse id b))) t = (Ok r, t') → ∃ b, r = Some (mkResponse id b)).
    { intros m (b & t1 & _ & [<- _]%ret_Ok)%bind_Ok. by exists b. }
    destruct (decide (rm_Method msg = "initialize")); [injection Hr as <- _; by eexists|].
    rewrite decide_False in Hr by done.
    repeat (destruct (decide (rm_Method msg = _)); [first [injection Hr as <- _; by eexists | by eapply Hbind]|]).
    injection Hr as <- _. by eexists.
  - intros Hin. rewrite decide_False, decide_True in Hr by (done || intros He; rewrite He in Hin; set_solver).
    by injection Hr as <- <-.
Qed.

(** A message without an id is run and answered like a request, for tools as well: the
    comment on [dispatch] says it is not answered. *)
Theorem notifications_are_answered ctx user (t : T) :
  dispatch ctx user (mkMessage None "tools/list" None) t = (Ok (Some (mkResponse JNull (BTools (sorted_by id (tool_names ParseFloat))))), t).
Proof. reflexivity. Qed.
End protocol.

(** ** Drafts and module operations *)

(** A draft's moves cannot set a stage, in whatever way a match would let them: a
    playtest's context has no event queue. *)
Theorem playtests_have_no_events {F} n player s (sc : scope) :
  builtin (F:=F) (NewWriteCtx n player) (RSetStage [SString s]) sc = (Err (ErrAttr "events"), sc) ∧
  builtin (F:=F) (set_live true None (NewWriteCtx n player)) (RSetStage [SString s]) sc =
    (Ok SNone, mkScope (cx_mods sc) (cx_rng sc) (cx_events sc ++ [evSetStage s None]) (cx_targets sc)).
Proof. done. Qed.

(** An operation on a match whose state a store gave back as a map answers as if it had
    been done, and leaves no trace. *)
Theorem ops_on_stored_states_are_lost {S U O} `{!Storage S} op data mods m (t : Tools (S:=S) (U:=U) (O:=O)) :
  (run_op_on op (mkG data (Fresh mods)) m t).2 = t.
Proof. unfold run_op_on. destruct (op_Call _ _ _) as [? []]. cbn. by destruct t as [[[]]]. Qed.

(** ** A small server *)
Definition toy_config : Config :=
  mkConfig (λ n, "m" +:+ pretty (N.of_nat n)) (λ n, "c" +:+ pretty (N.of_nat n)) (λ _, 42) DefaultAuthenticate false false 0 40.
Definition toy_tools : Tools (S:=toy_store) (U:=InMemoryUserGames) (O:=MemoryOwnership) :=
  mkTools toy_catalog (Some (NewUserAwareRegistry ∅)) (Some NewMemoryOwnership).
Abbreviation toy_run_tool := (run_tool toy_config no_codec toy_run toy_file toy_format).
Abbreviation toy_serve := (serve toy_config no_codec toy_run toy_file toy_format).
Definition toy_day : list (tool_event (S:=toy_store)) :=
  [EvCall ctxBackground "ann" (CallRegisterGame (mkRegisterArgs "src" "play well"));
   EvCall ctxBackground "ann" (CallCreateMatch (mkCreateArgs "toy" 2 None "friday"))].

(** Ann's match is "m1"; Bob cannot look at it. *)
Example toy_day_runs :
  (toy_run_tool ctxBackground "bob" (CallGetState (mkPlayerArgs "m1" "0")) (toy_serve toy_day toy_tools)).1 = Err (ErrNotOwned "m1" "bob").
Proof. vm_compute. reflexivity. Qed.

(** Ann sees her match, so she made it in the run. *)
Lemma toy_sees : ∃ r t', toy_run_tool ctxBackground "ann" (CallGetState (mkPlayerArgs "m1" "0")) (toy_serve toy_day toy_tools) = (Ok r, t').
Proof.
  assert (match (toy_run_tool ctxBackground "ann" (CallGetState (mkPlayerArgs "m1" "0")) (toy_serve toy_day toy_tools)).1 with
          | Ok _ => True | _ => False end) as Ho by (vm_compute; exact I).
  destruct (toy_run_tool _ _ _ _) as [[r|e| |] t']; try done. by exists r, t'.
Qed.

Lemma matches_stay_with_their_makers_witness :
  made_in toy_config no_codec toy_run toy_file toy_format toy_day toy_tools "ann" "m1".
Proof.
  pose proof (matches_stay_with_their_makers toy_config no_codec toy_run toy_file toy_format (λ s id, mo_owners s !! id)
    toy_tools toy_day ctxBackground "ann" (CallGetState (mkPlayerArgs "m1" "0")) "m1" (ex_intro _ _ eq_refl) (λ _, eq_refl) eq_refl) as H.
  destruct toy_sees as (r & t' & Hr). cbv zeta in H. rewrite Hr in H.
  destruct H as [[(_ & _ & Hno)|Hm] _]; [destruct (Hno r eq_refl)|exact Hm].
Defined.

Lemma toy_reads : ∃ t', readGuideResource true "ann" (guide_uri "ann" "toy") (toy_serve toy_day toy_tools) = (Ok "play well", t').
Proof.
  assert ((readGuideResource true "ann" (guide_uri "ann" "toy") (toy_serve toy_day toy_tools)).1 = Ok "play well") as Ho
    by (vm_compute; reflexivity).
  destruct (readGuideResource _ _ _ _) as [o t']. simpl in Ho. subst. by exists t'.
Qed.

Lemma guides_are_read_by_their_owners_witness : ∃ name ug, guide_uri "ann" "toy" = guide_uri "ann" name ∧ ug_LLMGuide ug = "play well".
Proof.
  destruct toy_reads as [t' Ht].
  destruct (guides_are_read_by_their_owners true "ann" _ _ t' "play well" Ht) as (name & ug & Hu & _ & Hg).
  exists name, ug. split; [exact Hu|exact (eq_sym Hg)].
Defined.

Lemma described_ops_can_be_called_witness : ∃ mi, mi_Module mi = "shop" ∧ ∀ op, find_op "shop" (op_Name op) = Some op → op ∈ Ops "shop".
Proof.
  assert (DescribeModules "shop" = Ok [mkModuleInfo "shop" (sorted_by oi_Name (op_info <$> Ops "shop"))]) as Hl by reflexivity.
  eexists. split; [exact (eq_refl (mi_Module (mkModuleInfo "shop" [])))|]. intros op Hop.
  destruct (proj1 (described_ops_can_be_called "shop" _ "shop" op Hl ltac:(unfold AllModules; set_solver) (or_intror eq_refl)) Hop)
    as (mi & _ & _ & Hin & _). exact Hin.
Defined.

Definition ping : rpcMessage := mkMessage (Some (JStr "7")) "ping" None.
Lemma requests_are_answered_witness : ∃ b, Some (mkResponse (JStr "7") BPong) = Some (mkResponse (JStr "7") b).
Proof.
  apply (proj1 (requests_are_answered toy_config no_codec toy_run toy_file toy_format (λ _, S754_zero false) true ∅ (λ _, true)
    ctxBackground "ann" ping toy_tools toy_tools _ eq_refl)); [reflexivity|]. unfold client_notes. set_solver.
Defined.

Lemma toy_lists : ∃ l t', listGuideResources true "ann" (toy_serve toy_day toy_tools) = (Ok l, t') ∧ describe "ann" "toy" ∈ l.
Proof.
  assert ((listGuideResources true "ann" (toy_serve toy_day toy_tools)).1 = Ok [describe "ann" "toy"]) as Ho by (vm_compute; reflexivity).
  destruct (listGuideResources _ _ _) as [o t']. simpl in Ho. subst. eexists _, t'. split; [reflexivity|by left].
Qed.

Lemma toy_guides : ∃ r, tl_Registry (toy_serve toy_day toy_tools) = Some r ∧ ∀ n, is_Some (ur_store r !! ugKey "ann" n) → n = "toy".
Proof.
  assert (∃ ug, ur_store <$> tl_Registry (toy_serve toy_day toy_tools) = Some {[ugKey "ann" "toy" := ug]}) as [ug Hst].
  { eexists (mkUserGame _ _ _ _ _). vm_compute. reflexivity. }
  destruct (tl_Registry _) as [r|]; [|done]. injection Hst as Hst. exists r. split; [done|]. intros n [x Hx].
  rewrite Hst in Hx. apply lookup_singleton_Some in Hx as [Hk _]. by injection Hk.
Qed.

Lemma listed_guides_can_be_read_witness : ∃ text, text ≠ "" ∧
  (readGuideResource true "ann" (guide_uri "ann" "toy") (toy_serve toy_day toy_tools)).1 = Ok text.
Proof.
  destruct toy_lists as (l & t' & Hl & Hin). destruct toy_guides as (r & Hr & Hn).
  destruct (listed_guides_can_be_read "ann" _ t' r l Hr) with (3 := Hl) as [_ Hread].
  - repeat constructor; discriminate.
  - intros n Hs. rewrite (Hn n Hs). exact toy_name.
  - exact (Hread (describe "ann" "toy") Hin).
Defined.
